(* ===== verification/_CoqProject ===== *)
-Q . S2P
Prelude.v
Utf8.v
Valet.v
ValetInv.v
ValetSpec.v
Tree.v
FluxMsg.v
Clone.v
Keys.v
Conductor.v
ConductorSpec.v
ConductorReply.v
ConductorExample.v
Bytes.v
Frame.v
Splitter.v
WasmSection.v
Amount.v
Outbox.v
OutboxSpec.v
OutboxDrain.v
Lane.v
Routes.v
When.v
WhenSpec.v
KV.v
Coatcheck.v
CoatcheckSpec.v
CoatcheckExample.v
CoatDaemon.v
Scenario.v
ScenarioSpec.v
Bucket.v
Registry.v
RegistrySweep.v
RegistryAuth.v
RegistryNames.v
SdlCycles.v
Sdl.v
SdlSpec.v
SdlValidate.v
Shipper.v
Manager.v
ManagerSpec.v
MsgTree.v
Iso20022Spec.v
Translation.v
TranslationSpec.v
TranslationExample.v
Artifacts.v
ArtifactsSpec.v
ArtifactsLoad.v
ArtifactsLatest.v
ArtifactsExample.v
Controller.v
ControllerSpec.v
ControllerParts.v
Enrollment.v
Deployment.v
ControllerExample.v
MsgValidate.v
Dial.v
Delivery.v
DeliverySpec.v
DeliveryPublish.v
DeliveryExample.v
RackScenario.v
RackSession.v
RackSessionSpec.v
ControlPlane.v
Codec.v
CodecSpec.v
CodecProcess.v
IsoWire.v
IsoServer.v
IsoServerSpec.v
IsoClient.v
Passport.v
Events.v
Retention.v
