(* ===== verification/Prelude.v ===== *)
(** * fluxrig: a verification development

    fluxrig moves financial messages between gears.  A Rack hosts gears; a scenario
    wires their ports; messages travel between the gears of one Rack through memory
    (the hot lane) and between Racks over a bus (the guaranteed lane).  The gears that
    matter most are the I/O gears, which frame bytes, the codecs, and the conductor,
    which routes requests to destinations, parks each under a correlation key until
    its reply arrives, and answers on the request's return path.  The parking is done
    by the valet engine; the coatcheck gear sets message fields aside in a key-value
    bucket and puts them back on the way home.  The Mixer enrolls Racks in a registry
    and validates the scenarios it deploys to them.  Specs (of ISO 8583 and ISO 20022
    dialects, and of the translations between them) and scenarios are artefacts, filed by
    name and version in a content-addressed store.  This library models these parts from
    the sources under src/pkg and proves what they promise.  Definitions keep the names of
    the code.

    ** Files

    - [Prelude] (this file): notations, tactics, counting the entries of a map.
    - [Valet], [ValetInv], [ValetSpec]: pkg/valet.  The engine's methods over the
      [Store] interface (a class, with its documented laws and the in-memory instance);
      tickets are addresses in a world with a clock and armed timers, so the pointer
      comparisons of the timer callbacks are the code's.  [ValetInv] is the transition
      system (methods, time, timers and their goroutines, in any order) and its
      invariant; [ValetSpec] the abstract table of slots, the refinement, and the
      guarantees of the package: accounting, one outcome per ticket, replay within the
      retention window, timeouts, release, drain, close.
    - [Tree]: tree.go and route.go of the conductor.  Destination trees, their parsing
      and the three strategies, with uint64 rotation counters.
    - [FluxMsg], [Clone]: the message and its data, over a heap of shared maps and
      slices: Set, Get and the deep copies and deletions of gear.go.
    - [Keys]: correlation keys (sdk/helpers.go).
    - [Conductor], [ConductorSpec], [ConductorReply], [ConductorExample]: gear.go.  The
      handlers as functions on the gear's state (engine, heap, link states, log of
      emissions); what becomes of a request, a reply and a timeout, errors included;
      a concrete gear to which every theorem is applied.
    - [Outbox], [OutboxSpec], [OutboxDrain]: runtime/outbox.go and the emit paths of
      runtime/runtime.go that use it.  Goroutines as program counters, each critical
      section one step, bus answers, timers and contexts as inputs.  Conservation and
      counters, no overtaking within a subject, the eviction policy, and the drain
      alone: termination, a dead bus keeps the queue, a live bus empties it in order.
    - [Lane]: runtime/lane.go.  Publishers, subscription goroutines and Unsubscribe,
      interleaved: the pending counter, bounded queues, order, at most once, and the
      result of a publish.
    - [Routes]: runtime/routes.go, bindings.go and the wiring decision of
      ApplyScenario.  The two ends of a wire agree on the lane; a port's binding is
      exact.
    - [Bytes], [Frame]: iso8583/io/frame.go.  Bitmaps, message type, Visa header, raw
      headers, TPDU: bounds and round trips.
    - [Splitter]: io_tcp/splitter.go and the outbound framing of server.go.
    - [WasmSection]: wasm/catalog/section.go, with unsigned varints and 64-bit [int].
    - [Amount]: translation/amount.go.
    - [When], [WhenSpec]: the condition language of the ISO 8583 codec (sdl/when.go,
      eval.go).  The lexer and the recursive-descent parser as the code has them; the
      specification is a grammar on tokens (the documented one, and the one that has
      present(path) as an operand too), and the parser accepts exactly its
      sentences within the nesting bound; errors carry a position of the source, an
      accepted expression evaluates to a boolean and reads only the fields it lists.
    - [KV]: bus/kv.go as a class with its documented laws; nats_kv.go over a JetStream
      interface and the mock of mock.go as instances.
    - [Coatcheck], [CoatcheckSpec], [CoatcheckExample]: the coatcheck gear's
      configuration, keys, store and restore, over any lawful [KeyValue].  What is
      stored is stripped, what is restored is what was stored, a missing coat fails
      closed.
    - [CoatDaemon]: daemon.go as a transition system (timers that may
      have fired but not run, notices from the bucket in order), and its refinement to
      a map of deadlines when callbacks are prompt.
    - [Scenario], [ScenarioSpec]: registry/scenario.go.  Validate accepts exactly the
      well-formed scenarios; what it accepts has unambiguous bus subjects, and its hot
      wires stay in memory ([Routes]).
    - [Bucket], [Registry], [RegistrySweep]: registry/kvstore.  Store operations are
      programs that make the bucket calls of the code in its order; they run alone
      ([exec]) or interleaved call by call ([sched], [pool_step]).
    - [RegistryAuth]: what holds of every possible answer of the bucket: a registration
      never succeeds without the bootstrap secret or the secret of the record, keeps
      the approved status and name of a known machine, and a deploy target is an active
      Rack that carries the name.
    - [RegistryNames]: a rely-guarantee argument over any interleaving of registrations
      with failing calls: no two successful ones share a name; and the run in which a
      rename breaks this.
    - [SdlCycles], [Sdl], [SdlSpec]: sdl/resolve.go.  The depth-first search for a cycle
      of conditions, which finds one exactly when there is one; every check of
      resolveReferences in its order; a spec resolves exactly when each reference it
      makes is declared and its conditions are acyclic, no field being conditioned on
      itself; and the metadata [load] derives.
    - [SdlValidate]: sdl/validate.go and applyRules of the codec.  The compiled validator
      reports the violations the spec states, the first entry that holds deciding each
      field, and nothing else unless a later entry asks for more, over [When];
      a spec that resolves compiles, empty assertions aside.
    - [Shipper]: telemetry/wal and telemetry/shipper.  The loop, its saved
      cursor and the log (a class with its laws) under crashes and restarts: nothing is
      truncated that the bus has not received, records arrive in order, and a running
      shipper over a healthy bus catches up.
    - [Manager], [ManagerSpec]: ApplyScenario, its wait for convergence, stopAll and
      Shutdown of runtime/runtime.go, interleaved where the mutex is free: no gear and no
      subscription leaks, gears start only between Init and Stop, and the outcome of a
      call that no other overlaps.
    - [MsgTree]: the data of a message as an unshared tree, with what Set and Get do to it.
    - [Iso20022Spec]: iso20022/spec/spec.go.  Loading a protocol spec, and the aliases it
      gives the messages of a usage: exactly the declared ones.
    - [Translation], [TranslationSpec], [TranslationExample]: translation/translation.go,
      protocol.go and the translate gear.  Load accepts exactly the well-formed
      translation specs; in what it accepts every table and lookup is declared, so a
      binding fails only for the data it meets, and applying it panics only for a nil map
      in the message; a translation writes exactly its bindings, and its message's name
      last; every outcome of the gear.
    - [Artifacts]: manager/impl.go, urn.go and manager/cas/store.go.  The index
      operations, and imports as steps of any number of managers that share the index
      file and the blobs.  [ArtifactsSpec]: versions are immutable and never lost.
      [ArtifactsLoad]: what was imported loads, by either form of reference.
      [ArtifactsLatest]: latest is the highest version, an unversioned import gets the
      next one, a listing is the index.  [ArtifactsExample]: concrete versions and runs.
    - [Controller], [ControllerSpec], [ControllerParts]: controller/scenario.go.  The
      Mixer's active scenario: commit, pushes under the mutex, enrollment pushes beside
      them, restarts.  What a Rack is sent was durable first; a push is left out only for
      a Rack that has the scenario; ids survive a restart; the specs that travel are
      exactly those needed.
    - [Enrollment]: controller/enrollment.go over [Registry].  The
      throttle agrees with one that forgets nothing; a heartbeat changes nothing before
      its secret matched; passports are for admitted Racks.
    - [Deployment]: the specs of a scenario from the Mixer's store to the Rack's, over
      [Controller] and [Artifacts].  [ControllerExample]: all of these applied.
    - [Utf8]: what the code uses of unicode/utf8; [ValidString] accepts exactly the
      encodings of sequences of Unicode scalar values.  [MsgValidate]: fluxmsg/struct.go.
      Limits, Validate and the writers of metadata, over the heap of [FluxMsg].
    - [Dial]: the retry of the first connection in bus/nats.go, bounded in attempts and time.
    - [Delivery]: bus/nats.go and bus/dlq.go.  Connect's options, Publish and PublishRaw,
      the consumers asked for, and the callback of Subscribe and SubscribeDurable as a
      transition system with the server, Unsubscribe, crashes and expiry.  [DeliverySpec]: no
      message goes missing unaccounted for, at most five handler calls, faithful
      dead letters, callbacks finish.  [DeliveryPublish]: the deduplication key, and what
      Publish sent reaches the handler.  [DeliveryExample]: a server, a codec, UUIDs, runs.
    - [RackScenario]: runtime/localscenario.go.  The Rack's copy of its scenario, on a disk
      that fails and crashes: Save is atomic.  [RackSession], [RackSessionSpec]:
      commands/run_resume.go and the scenario handler and promotion of run.go.  Updates,
      resumes, promotions and restarts interleaved: what the Rack runs is the newest
      scenario it accepted, its copy one that was applied, and the exceptions.
    - [ControlPlane]: ctrl/late.go and ctrl/nats.go.  Listeners that come before the
      connection; who hears a command, and when it is acknowledged.
    - [Codec]: iso8583/codec/gear.go, subject.go and sdl/width.go.  Init, Process with its
      direction and error modes, decode and encode over the library's messages (the class
      [Iso8583]) and the message heap of [FluxMsg], and the subject of the rules.
      [CodecSpec]: several writes into one message, what a decode leaves in it.
      [CodecProcess]: encoding what was decoded, every outcome of Process, what enforcing
      and warning mean; a concrete library.
    - [IsoWire]: iso8583/io.  Defaults and validation of the configuration, reading and
      building frames, the message made of a frame and the frame made of a reply: round
      trips, and a preserved header comes back with its addresses swapped.
      [IsoServer], [IsoServerSpec]: server.go.  The accept loop, the handlers, Drain, Stop
      and Disconnect, interleaved at what they share; where a reply is written.  The limit
      of connections, no request after a drain, one opened and one closed event per
      connection, a quiet server after Stop; and the runs that escape them.
      [IsoClient]: client.go, and what its observers see.
    - [Passport]: pki/state.go, the secret of run_secret.go, and what run.go does with a
      passport.  All that a Rack accepts between two denials is signed with one pinned
      key; an issued passport boots the Rack with its identity and secret.
    - [Events]: pkg/events.  The publisher's queue and Close; the reader's Next.
    - [Retention]: the flushes of store/duckdb/store.go, telemetry/janitor.go and the
      streams of router/router.go.  A row is in the database or in a file until a cleaning
      whose cutoff is after its flush, unless an archive could not read its wire's id.

    The conductor's theorems use the valet only through its methods and the lemmas of
    [ValetInv]; the valet's use a store only through [StoreLaws]; the coatcheck's use the
    bus only through [KeyValueLaws]; the framing files and the runtime files stand on
    their own.

    ** Modelling choices

    A Go [int] or [uint64] is a [Z]; where the width matters (rotation counters,
    section sizes, length prefixes) the wrap-around is written out.  Counters of events
    (outbox, lane) are unbounded: they count to 2^64 in the code.  A pointer is an
    address; objects the code shares are shared in the model.  A method under a mutex
    is one step; code between two critical sections is not.  A panic is a value where
    the code can reach one.  Errors are values; their texts are left out.

    Fuel.  [Tree.pickF] uses the height of the tree, and more changes nothing.
    [Clone.cloneValue] needs one more than the depth of the data, which the theorems
    take from finiteness ([FluxMsg.fin]); on cyclic data the Go function does not
    return.  [Splitter.scan] uses the length of the input.  [WasmSection.extractLoop]
    uses the length of the binary, enough for a well-formed module; the Go loop can run
    forever on a crafted one ([extract_can_loop]).  [Outbox.evictF] uses the length of
    the queue, [Routes.walk] the depth bound of the code itself.  The drain has no
    fuel: [drain_outcome] proves that some number of steps ends it.  [When.parseAt] uses
    the code's own nesting bound, [When.sepLoop] the length of the source, of which
    every iteration consumes a token.  [Coatcheck.mergeEntry] takes the depth to recurse
    to, and the theorems take any depth at least that of the saved data.
    [SdlCycles.searchFuel] is one more than the number of fields, and the search is
    proved never to use it up.  [Controller.collectWork] takes any fuel, and
    [specs_travel] proves that over a finite store some amount is enough and more changes
    nothing.  [Dial.dialLoop] has one unit per attempt allowed, never used up.

    Parameters.  [fmt.Sprint] of a composite value, [time.ParseDuration], whether the
    emitter accepts an emission, what the bus answers, message validation and the CBOR
    codec in the lane, a gear type's terminus, [strconv.ParseFloat], the hash of a
    secret: no law is assumed of them.  The CBOR codec of a coat is assumed to decode
    what it encoded, where a theorem says so; JetStream to keep what was put, in the
    laws of [KV]; the write-ahead log to keep what was written until it is truncated, in
    the laws of [Shipper].  Where Go ranges over a map the order is a parameter, assumed
    to be a permutation of the keys; what the gears, the factory and the bus answer to
    the Manager is a parameter too.  The message definitions and element paths of the
    ISO 20022 wire library, the specs a translation refers to, its clock and its generated
    values are parameters; so are YAML decoding and SHA-256, whose only law is that it is
    64 hexadecimal digits.  golang.org/x/mod/semver is the class [Artifacts.Semver] with
    its documented order.  The ISO 8583 library is the class [Codec.Iso8583], of which
    theorems assume, where they say so, that a panic does not happen ([calm]) or that a
    bitmap reports only fields that were set; the text of a violation and the compilation
    of a document are parameters.  Ed25519 and CBOR in [Passport] have as laws that a
    signature verifies and that a document decodes to what was encoded.

    ** What the development found

    A send on the hot lane after an Unsubscribe is reported as delivered and never
    handled ([Lane.LaneExample.send_after_unsubscribe_is_stranded]); an eviction does
    not wake emissions that wait for its subject
    ([OutboxDrain.OutboxExample.eviction_does_not_signal]); a crafted section size makes
    extraction loop ([WasmSection.extract_can_loop]); a retransmission while no port is
    available is refused instead of absorbed
    ([ConductorExample.retransmission_during_outage]); a late expiry callback of the
    coatcheck daemon deletes a coat stored since
    ([CoatDaemon.late_callback_takes_fresh_coat]); a rename away and back during a
    registration leaves two Racks with one name
    ([RegistryNames.rename_race_shares_name]); a field conditioned on itself resolves
    ([SdlSpec.self_condition_accepted]), an empty assertion resolves and does not compile
    ([SdlValidate.empty_assertion_resolves]), a later rule of a field applies besides
    the first that holds ([SdlValidate.later_rules_also_apply]), and present(path) is an
    operand that the documented grammar does not have
    ([WhenSpec.present_operand_undocumented]); a crash between a
    truncation and the next save of the cursor stops shipping for good
    ([Shipper.crash_after_truncation_stalls]); overlapping calls of ApplyScenario stop
    or start each other's gears ([ManagerSpec.ManagerExample.overlapping_call_stops_gears]);
    an amount binding may write a currency alias that another binding writes too
    ([TranslationExample.TranslationExample.currency_written_twice]), and an empty lookup
    document loads and then fails every message that needs it
    ([TranslationExample.TranslationExample.empty_lookup_loads]), and a binding to the
    message type loads although its value is lost ([mti_binding_lost]); an import whose index
    write failed is served and filed later all the same, importing the same bytes again
    empties their blob for a while, and a spec hides the scenario of its name
    ([ArtifactsExample.ArtifactsExample.failed_write_is_served], [failed_write_is_filed_later],
    [reimport_truncates], [spec_hides_scenario]); an enrollment push overtaken by an
    activation leaves the Rack with the older scenario, recorded as current
    ([ControllerExample.ControllerExample.overtaken_push_wins]); a write of the active
    pointer that takes effect but goes unanswered leaves the Mixer with another scenario
    than its next start reads ([unanswered_pointer_divides]); references to the latest
    version of a spec, and full references, do not deploy ([latest_does_not_deploy],
    [full_reference_does_not_deploy]); a scenario with an empty deploy cannot be activated
    ([empty_deploy_refused]); Publish validates before it adds the trace context, so the
    other end may refuse what it sent
    ([DeliveryExample.DeliveryExample.traced_message_is_refused]), a raw payload that is too
    large is not marked invalid ([raw_oversize_unmarked]), dead letters of a wildcard
    subscription name the pattern ([dead_letter_names_filter]) and Validate does not check
    the text in Data ([data_values_unchecked]); a promotion may put an older scenario over a
    newer one ([RackSessionSpec.RackExample.promotion_lands_on_newer]), and the mark of a
    resumed scenario may outlive its gears ([replaced_runtime_stays_empty]); the rules of a
    spec never see a subfield ([CodecSpec.subfields_unseen]), nor the aliases a message is
    encoded from ([CodecProcess.alias_message_rejected]); a long frame is sent that the
    other end refuses ([IsoWire.oversized_frame_refused]) and a negative TPDU length is
    accepted ([IsoWire.negative_tpdu_panics]); Drain may miss a reader and Stop a handler
    or a dial ([IsoServerSpec.IsoServerExample.drain_misses_reader],
    [stop_returns_before_handler], [IsoClient.Client.stop_misses_dial]); an unsigned denial
    drops the pinned key ([Passport.denial_trusts_any_mixer]), a pin cut short locks the
    Rack out ([partial_pin_refuses]), an enrollment restarts the session at the next notice
    ([enrolled_rack_restarts]), a denied identity is resumed at the deadline
    ([denied_identity_resumed]) and a seed in hexadecimal is another key
    ([hex_seed_is_another_key]); two readers may share a consumer
    ([Events.durable_names_collide]); a failed flush writes rows twice, a wire that cannot
    be read is lost, business messages expire with the telemetry
    ([Retention.RetentionExample]), and a shared stream ignores the longer age
    ([Retention.merged_stream_age]).

    ** Not modelled

    What only moves data between the parts and third-party code: sockets, TLS, the NATS
    client and server, DuckDB and its queries, the HTTP API and its generated
    documentation, OpenTelemetry exporters, the WebAssembly and Bento runtimes, XML of
    ISO 20022, the command line and the visualisers.  The configuration is loaded by a
    third-party package through reflection on struct tags, ids come from a UUID package,
    and YAML, JSON and CBOR decoding are outside: their results are the inputs here.
    Logging, metrics and the texts of errors have no effect on what is proved. *)
From stdpp Require Export base gmap sets list strings fin_maps pretty.
From Stdlib Require Export ZArith Lia.

Declare Scope flux_scope.
Delimit Scope flux_scope with flux.

(** ** Tactics of the development *)

(** Case analysis on every [match]/[if] scrutinee of the goal or of a hypothesis,
    simplifying the equations it leaves. *)
Ltac split_matches :=
  repeat match goal with
  | _ => progress simplify_eq/=
  | _ => case_match
  end.

(** One [match] of hypothesis [H] at a time, keeping the equation. *)
Ltac break_in H :=
  repeat match type of H with
  | context [match ?x with _ => _ end] => destruct x eqn:?; simplify_eq/=
  end.

Create HintDb flux.

(** Appending strings. *)
Lemma append_assoc (x y z : string) : (x +:+ y) +:+ z = x +:+ (y +:+ z).
Proof.
  induction x as [|c x IH]; [done|]. change (String c ((x +:+ y) +:+ z) = String c (x +:+ (y +:+ z))). by rewrite IH.
Qed.

(** Go's [int] and [int64]: the wrap-around of two's complement at 64 bits. *)
Definition int64 (z : Z) : Z := ((z + 2 ^ 63) mod 2 ^ 64 - 2 ^ 63)%Z.

Lemma int64_id z : (- 2 ^ 63 ≤ z < 2 ^ 63)%Z → int64 z = z.
Proof. intros. unfold int64. rewrite Z.mod_small by lia. lia. Qed.

(** ** Counting the entries of a finite map *)
Section map_count.
Context {K : Type} `{Countable K} {A : Type}.
Implicit Types (m : gmap K A) (P : K * A → Prop).

(** Number of entries satisfying [P], as the integer a Go counter holds. *)
Definition map_count P `{∀ x, Decision (P x)} m : Z := Z.of_nat (size (filter P m)).

Context P `{∀ x, Decision (P x)}.

Lemma map_count_empty : map_count P ∅ = 0%Z.
Proof. done. Qed.

Lemma map_count_insert m k x :
  m !! k = None →
  map_count P (<[k:=x]> m) = (map_count P m + if decide (P (k, x)) then 1 else 0)%Z.
Proof.
  intros Hk. unfold map_count. rewrite map_filter_insert. case_decide.
  - rewrite map_size_insert_None; [lia|]. by rewrite map_lookup_filter, Hk.
  - rewrite delete_id by done. lia.
Qed.

Lemma map_count_delete m k x :
  m !! k = Some x →
  map_count P (delete k m) = (map_count P m - if decide (P (k, x)) then 1 else 0)%Z.
Proof.
  intros Hk. rewrite <-(insert_delete_id m k x) at 2 by done.
  rewrite map_count_insert by apply lookup_delete_eq. lia.
Qed.

Lemma map_count_nonneg m : (0 ≤ map_count P m)%Z.
Proof. unfold map_count. lia. Qed.

Lemma map_count_ext (Q : K * A → Prop) `{∀ x, Decision (Q x)} m :
  (∀ k x, m !! k = Some x → P (k, x) ↔ Q (k, x)) → map_count P m = map_count Q m.
Proof. intros HPQ. unfold map_count. do 2 f_equal. by apply map_filter_ext. Qed.
End map_count.

(** The size of a map as a Go [int]. *)
Lemma size_insert_fresh `{Countable K} {A} (m : gmap K A) k x :
  m !! k = None → Z.of_nat (size (<[k:=x]> m)) = (Z.of_nat (size m) + 1)%Z.
Proof. intros. rewrite map_size_insert_None by done. lia. Qed.

Lemma size_delete_present `{Countable K} {A} (m : gmap K A) k x :
  m !! k = Some x → Z.of_nat (size (delete k m)) = (Z.of_nat (size m) - 1)%Z.
Proof.
  intros Hk. rewrite map_size_delete_Some by eauto.
  assert (size m ≠ 0) by (eapply map_size_ne_0_lookup_2; eauto). lia.
Qed.

(** ** The order of Go strings *)

Definition strLe (a b : string) : Prop := String.leb a b = true.
#[export] Instance strLe_dec : RelDecision strLe := λ a b, decide (String.leb a b = true).

Lemma strLe_cons c s t : strLe s t → strLe (String c s) (String c t).
Proof. unfold strLe, String.leb. simpl. unfold Ascii.compare. by rewrite N.compare_refl. Qed.

Lemma strLe_cons_inv c d s t : strLe (String c s) (String d t) →
  (Ascii.N_of_ascii c < Ascii.N_of_ascii d)%N ∨ c = d ∧ strLe s t.
Proof.
  unfold strLe, String.leb. simpl. destruct (Ascii.compare c d) eqn:E; [|left; by apply N.compare_lt_iff in E|done].
  apply Ascii.compare_eq_iff in E. auto.
Qed.

Lemma strLe_lt c d s t : (Ascii.N_of_ascii c < Ascii.N_of_ascii d)%N → strLe (String c s) (String d t).
Proof. intros H. unfold strLe, String.leb. simpl. unfold Ascii.compare. apply N.compare_lt_iff in H. by rewrite H. Qed.

#[export] Instance strLe_trans : Transitive strLe.
Proof.
  intros a. induction a as [|x a IH]; intros b c Hab Hbc; [by destruct c|].
  destruct b as [|y b]; [done|]. destruct c as [|z c]; [done|].
  apply strLe_cons_inv in Hab as [Hab|[-> Hab]], Hbc as [Hbc|[-> Hbc]].
  - apply strLe_lt. lia.
  - by apply strLe_lt.
  - by apply strLe_lt.
  - apply strLe_cons. by apply (IH b).
Qed.

#[export] Instance strLe_total : Total strLe.
Proof. intros a b. apply String.leb_total. Qed.

#[export] Instance strLe_antisym : AntiSymm (=) strLe.
Proof. intros a b. apply String.leb_antisym. Qed.
