(* ===== verification/Utf8.v ===== *)
(** * UTF-8 (unicode/utf8)

    What the code uses of Go's [unicode/utf8]: the width of the rune at the head of a
    string and [ValidString], with the reference they are checked against: a string is
    valid when it is a concatenation of encoded Unicode scalar values. *)
From Stdlib Require Import Ascii.
From S2P Require Import Prelude.
Open Scope Z_scope.

(** The width of the rune at the head of a string, as [utf8.DecodeRune] has it; 1 for a
    byte that starts no valid sequence. *)
Definition inB (lo hi : N) (c : ascii) : bool := ((lo <=? N_of_ascii c) && (N_of_ascii c <=? hi))%N.
Abbreviation contB := (inB 128 191).

Definition runeWidth (s : string) : nat :=
  match s with
  | String a (String b t) =>
      if inB 194 223 a && contB b then 2
      else match t with
      | String c t =>
          if ((inB 224 224 a && inB 160 191 b) || ((inB 225 236 a || inB 238 239 a) && contB b) || (inB 237 237 a && inB 128 159 b))
             && contB c then 3
          else match t with
          | String d _ =>
              if ((inB 240 240 a && inB 144 191 b) || (inB 241 243 a && contB b) || (inB 244 244 a && inB 128 143 b))
                 && contB c && contB d then 4
              else 1
          | EmptyString => 1
          end
      | EmptyString => 1
      end
  | _ => 1
  end.

(** [utf8.ValidString]; [skip] counts the bytes left of the rune being passed over. *)
Fixpoint validFrom (skip : nat) (s : string) : bool :=
  match s with
  | EmptyString => true
  | String c r =>
      match skip with
      | S k => validFrom k r
      | O => if inB 0 127 c then validFrom 0 r
             else match runeWidth s with 1%nat => false | w => validFrom (pred w) r end
      end
  end.
Definition ValidString (s : string) : bool := validFrom 0 s.

(** ** The reference *)

Definition scalar (r : Z) : Prop := 0 ≤ r < 55296 ∨ 57344 ≤ r < 1114112.

Definition byteZ (z : Z) : ascii := ascii_of_N (Z.to_N z).

Definition encodeRune (r : Z) (rest : string) : string :=
  if r <? 128 then String (byteZ r) rest
  else if r <? 2048 then String (byteZ (192 + r / 64)) (String (byteZ (128 + r mod 64)) rest)
  else if r <? 65536 then
    String (byteZ (224 + r / 4096)) (String (byteZ (128 + r / 64 mod 64)) (String (byteZ (128 + r mod 64)) rest))
  else
    String (byteZ (240 + r / 262144)) (String (byteZ (128 + r / 4096 mod 64))
      (String (byteZ (128 + r / 64 mod 64)) (String (byteZ (128 + r mod 64)) rest))).

Definition encodeAll (rs : list Z) : string := foldr encodeRune "" rs.

Definition codeZ (c : ascii) : Z := Z.of_N (N_of_ascii c).

Lemma codeZ_byteZ z : 0 ≤ z < 256 → codeZ (byteZ z) = z.
Proof. intros H. unfold codeZ, byteZ. rewrite N_ascii_embedding; lia. Qed.
Lemma byteZ_codeZ c : byteZ (codeZ c) = c.
Proof. unfold codeZ, byteZ. by rewrite N2Z.id, ascii_N_embedding. Qed.
Lemma codeZ_range c : 0 ≤ codeZ c < 256.
Proof. unfold codeZ. pose proof (N_ascii_bounded c). lia. Qed.
Lemma inB_spec lo hi c : inB lo hi c = true ↔ Z.of_N lo ≤ codeZ c ≤ Z.of_N hi.
Proof. unfold inB, codeZ. rewrite andb_true_iff, !N.leb_le. lia. Qed.
Lemma inB_byteZ lo hi z : 0 ≤ z < 256 → inB lo hi (byteZ z) = bool_decide (Z.of_N lo ≤ z ≤ Z.of_N hi).
Proof.
  intros Hz. apply eq_bool_prop_intro. rewrite !Is_true_true, inB_spec, codeZ_byteZ, bool_decide_eq_true by done. done.
Qed.

#[local] Ltac Zify.zify_post_hook ::= Z.to_euclidean_division_equations.

Lemma valid_encode1 r rest : 0 ≤ r < 128 → validFrom 0 (String (byteZ r) rest) = validFrom 0 rest.
Proof. intros H. cbn -[inB runeWidth]. rewrite inB_byteZ, bool_decide_eq_true_2 by lia. done. Qed.

Lemma inB_true lo hi z : 0 ≤ z < 256 → Z.of_N lo ≤ z ≤ Z.of_N hi → inB lo hi (byteZ z) = true.
Proof. intros. apply inB_spec. by rewrite codeZ_byteZ. Qed.
Lemma inB_false lo hi z : 0 ≤ z < 256 → ¬ (Z.of_N lo ≤ z ≤ Z.of_N hi) → inB lo hi (byteZ z) = false.
Proof. intros Hz Hn. apply not_true_iff_false. by rewrite inB_spec, codeZ_byteZ. Qed.

Lemma width2 a b rest : 194 ≤ a ≤ 223 → 128 ≤ b ≤ 191 → runeWidth (String (byteZ a) (String (byteZ b) rest)) = 2%nat.
Proof. intros. cbn -[inB]. by rewrite !inB_true by lia. Qed.

Lemma width3 a b c rest :
  (a = 224 ∧ 160 ≤ b ≤ 191 ∨ (225 ≤ a ≤ 236 ∨ 238 ≤ a ≤ 239) ∧ 128 ≤ b ≤ 191 ∨ a = 237 ∧ 128 ≤ b ≤ 159) →
  128 ≤ c ≤ 191 → runeWidth (String (byteZ a) (String (byteZ b) (String (byteZ c) rest))) = 3%nat.
Proof.
  intros Hab Hc. cbn -[inB]. rewrite (inB_false 194 223) by lia. rewrite (inB_true 128 191 c) by lia. cbn -[inB].
  match goal with |- (if ?b then _ else _) = _ => enough (b = true) as -> by done end.
  rewrite ?andb_true_iff, !orb_true_iff, !andb_true_iff, ?orb_true_iff, !inB_spec, !codeZ_byteZ by lia. lia.
Qed.

Lemma width4 a b c d rest :
  (a = 240 ∧ 144 ≤ b ≤ 191 ∨ 241 ≤ a ≤ 243 ∧ 128 ≤ b ≤ 191 ∨ a = 244 ∧ 128 ≤ b ≤ 143) →
  128 ≤ c ≤ 191 → 128 ≤ d ≤ 191 →
  runeWidth (String (byteZ a) (String (byteZ b) (String (byteZ c) (String (byteZ d) rest)))) = 4%nat.
Proof.
  intros Hab Hc Hd. cbn -[inB]. rewrite (inB_false 194 223), (inB_false 224 224), (inB_false 225 236), (inB_false 238 239), (inB_false 237 237) by lia.
  rewrite (inB_true 128 191 c), (inB_true 128 191 d) by lia. cbn -[inB].
  match goal with |- (if ?b then _ else _) = _ => enough (b = true) as -> by done end.
  rewrite ?andb_true_iff, !orb_true_iff, !andb_true_iff, ?orb_true_iff, !inB_spec, !codeZ_byteZ by lia. lia.
Qed.

Lemma valid_skip c s w : inB 0 127 c = false → runeWidth (String c s) = S (S w) →
  validFrom 0 (String c s) = validFrom (S w) s.
Proof. intros H1 H2. cbn -[inB runeWidth]. by rewrite H1, H2. Qed.

Lemma valid_encode r rest : scalar r → validFrom 0 (encodeRune r rest) = validFrom 0 rest.
Proof.
  unfold scalar, encodeRune. intros H. destruct (Z.ltb_spec r 128), (Z.ltb_spec r 2048), (Z.ltb_spec r 65536); try lia.
  - apply valid_encode1. lia.
  - erewrite valid_skip; [|apply inB_false; lia|apply width2; lia]. done.
  - erewrite valid_skip; [|apply inB_false; lia|apply width3; lia]. done.
  - erewrite valid_skip; [|apply inB_false; lia|apply width4; lia]. done.
Qed.

(** ** Every accepted head is an encoded rune *)

Lemma decode2 a b rest : 194 ≤ codeZ a ≤ 223 → 128 ≤ codeZ b ≤ 191 →
  ∃ r, scalar r ∧ String a (String b rest) = encodeRune r rest.
Proof.
  intros Ha Hb. exists ((codeZ a - 192) * 64 + (codeZ b - 128)). unfold scalar, encodeRune. split; [lia|].
  destruct (Z.ltb_spec ((codeZ a - 192) * 64 + (codeZ b - 128)) 128); [lia|].
  destruct (Z.ltb_spec ((codeZ a - 192) * 64 + (codeZ b - 128)) 2048); [|lia].
  rewrite <-(byteZ_codeZ a) at 1. rewrite <-(byteZ_codeZ b) at 1. do 2 f_equal; [lia|]. do 2 f_equal; lia.
Qed.

Lemma decode3 a b c rest :
  (codeZ a = 224 ∧ 160 ≤ codeZ b ≤ 191 ∨ (225 ≤ codeZ a ≤ 236 ∨ 238 ≤ codeZ a ≤ 239) ∧ 128 ≤ codeZ b ≤ 191 ∨
   codeZ a = 237 ∧ 128 ≤ codeZ b ≤ 159) → 128 ≤ codeZ c ≤ 191 →
  ∃ r, scalar r ∧ String a (String b (String c rest)) = encodeRune r rest.
Proof.
  intros Hab Hc. set (x := codeZ a) in *. set (y := codeZ b) in *. set (z := codeZ c) in *.
  set (r := (x - 224) * 4096 + (y - 128) * 64 + (z - 128)). exists r. unfold scalar, encodeRune. split; [lia|].
  destruct (Z.ltb_spec r 128), (Z.ltb_spec r 2048), (Z.ltb_spec r 65536); try lia.
  rewrite <-(byteZ_codeZ a), <-(byteZ_codeZ b), <-(byteZ_codeZ c). fold x y z.
  assert (224 + r / 4096 = x) as -> by lia. assert (128 + r / 64 mod 64 = y) as -> by lia.
  assert (128 + r mod 64 = z) as -> by lia. done.
Qed.

Lemma decode4 a b c d rest :
  (codeZ a = 240 ∧ 144 ≤ codeZ b ≤ 191 ∨ 241 ≤ codeZ a ≤ 243 ∧ 128 ≤ codeZ b ≤ 191 ∨ codeZ a = 244 ∧ 128 ≤ codeZ b ≤ 143) →
  128 ≤ codeZ c ≤ 191 → 128 ≤ codeZ d ≤ 191 →
  ∃ r, scalar r ∧ String a (String b (String c (String d rest))) = encodeRune r rest.
Proof.
  intros Hab Hc Hd. set (x := codeZ a) in *. set (y := codeZ b) in *. set (z := codeZ c) in *. set (w := codeZ d) in *.
  set (r := (x - 240) * 262144 + (y - 128) * 4096 + (z - 128) * 64 + (w - 128)). exists r. unfold scalar, encodeRune.
  split; [lia|]. destruct (Z.ltb_spec r 128), (Z.ltb_spec r 2048), (Z.ltb_spec r 65536); try lia.
  rewrite <-(byteZ_codeZ a), <-(byteZ_codeZ b), <-(byteZ_codeZ c), <-(byteZ_codeZ d). fold x y z w.
  assert (240 + r / 262144 = x) as -> by lia. assert (128 + r / 4096 mod 64 = y) as -> by lia.
  assert (128 + r / 64 mod 64 = z) as -> by lia. assert (128 + r mod 64 = w) as -> by lia. done.
Qed.

Lemma valid_head c s : validFrom 0 (String c s) = true →
  ∃ r rest, scalar r ∧ String c s = encodeRune r rest ∧ validFrom 0 rest = true ∧ (String.length rest < String.length (String c s))%nat.
Proof.
  cbn -[inB runeWidth String.length]. destruct (inB 0 127 c) eqn:E0.
  - intros Hv. apply inB_spec in E0. exists (codeZ c), s. unfold scalar, encodeRune.
    destruct (Z.ltb_spec (codeZ c) 128); [|lia]. rewrite byteZ_codeZ. split_and!; [lia|done|done|simpl; lia].
  - destruct s as [|b t]; [done|]. cbn -[inB String.length].
    destruct (inB 194 223 c && contB b) eqn:E2.
    { intros Hv. rewrite andb_true_iff, !inB_spec in E2. destruct (decode2 c b t) as (r & Hr & E); [lia..|].
      exists r, t. split_and!; [done|done|done|simpl; lia]. }
    destruct t as [|d t]; [done|].
    match goal with |- context [(?x && contB d)] => destruct (x && contB d) eqn:E3 end.
    { intros Hv. rewrite andb_true_iff, !orb_true_iff, !andb_true_iff, orb_true_iff, !inB_spec in E3.
      destruct (decode3 c b d t) as (r & Hr & E); [lia..|]. exists r, t. split_and!; [done|done|done|simpl; lia]. }
    destruct t as [|e t]; [done|].
    match goal with |- context [(?x && contB e)] => destruct (x && contB e) eqn:E4 end; [|done].
    intros Hv. rewrite !andb_true_iff, !orb_true_iff, !andb_true_iff, !inB_spec in E4.
    destruct (decode4 c b d e t) as (r & Hr & E); [lia..|]. exists r, t. split_and!; [done|done|done|simpl; lia].
Qed.

(** A string is valid exactly when it encodes a sequence of Unicode scalar values. *)
Lemma ValidString_spec s : ValidString s = true ↔ ∃ rs, Forall scalar rs ∧ s = encodeAll rs.
Proof.
  unfold ValidString. split.
  - remember (String.length s) as n eqn:Hn. revert s Hn.
    induction (lt_wf n) as [n _ IH]. intros [|c s] -> Hv; [by exists []|].
    destruct (valid_head _ _ Hv) as (r & rest & Hr & E & Hv' & Hl).
    destruct (IH _ Hl _ eq_refl Hv') as (rs & Hrs & ->). exists (r :: rs). split; [by constructor|done].
  - intros (rs & Hrs & ->). induction Hrs as [|r rs Hr _ IH]; [done|]. cbn [encodeAll foldr].
    by rewrite valid_encode.
Qed.

Lemma ValidString_app s t : ValidString s = true → ValidString t = true → ValidString (s +:+ t) = true.
Proof.
  rewrite !ValidString_spec. intros (rs & Hrs & ->) (rt & Hrt & ->). exists (rs ++ rt). split; [by apply Forall_app|].
  induction Hrs as [|r rs Hr _ IH]; [done|]. cbn. fold (encodeAll rs) (encodeAll (rs ++ rt)). rewrite <-IH.
  unfold encodeRune. by repeat case_match.
Qed.

Lemma ValidString_ascii s : Forall (λ c, codeZ c < 128) (String.list_ascii_of_string s) → ValidString s = true.
Proof.
  unfold ValidString. induction s as [|c s IH]; [done|]. cbn -[inB runeWidth]. intros [Hc Hs]%Forall_cons.
  assert (inB 0 127 c = true) as ->; [|by apply IH]. apply inB_spec. pose proof (codeZ_range c). lia.
Qed.
