(* ===== verification/Valet.v ===== *)
(** * pkg/valet: the correlation engine

    Models [src/pkg/valet] (ticket.go, store.go, memory.go, clock.go, engine.go).

    - [Store] / [StoreLaws]: the [Store] interface of store.go and the contract its
      comments document; [MemoryStore] (memory.go) is the instance.  The engine's
      theorems are proved against the interface.
    - Tickets are shared, mutable objects: [*Ticket] is an index ([nat]) in the
      heap [tickets] of the [World], so that the pointer comparison of [expire] and
      [purge] and the late mutation of a ticket by [Redeem] are what the code does.
    - The [Clock] is part of the [World]: the instant, the armed timers and the
      list [fired] of timer goroutines that have fired but have not yet taken the
      engine lock.  Every method runs under the engine mutex, hence atomically; the
      step relation [step] interleaves methods, the passage of time, timer firings
      and the goroutines' bodies in any order.
    - [Inv] is the engine's invariant; [reachable_inv] shows it holds in every
      reachable state. *)
From S2P Require Import Prelude.
Open Scope Z_scope.

(** ** store.go: the interface *)

Inductive StoreErr := ErrTicketNotFound | StoreFailure.

#[export] Instance StoreErr_eq_dec : EqDecision StoreErr.
Proof. solve_decision. Defined.

(** [Store]: one field per method; a [*Ticket] is its index in the ticket heap.
    [Insert] reads the key of the ticket it stores, so the key is passed with it. *)
Class Store (S : Type) := {
  Insert : string → nat → S → S * (StoreErr + option nat);
  Get : string → S → StoreErr + nat;
  Take : string → S → S * (StoreErr + nat);
  Purge : S → S * (list nat * option StoreErr);
  Len : S → StoreErr + Z;
}.

(** The documented contract of a store that does not fail. *)
Class StoreLaws (S : Type) `{Store S} := {
  contents : S → gmap string nat;
  Insert_law st k t :
    match contents st !! k with
    | Some x => Insert k t st = (st, inr (Some x))
    | None => ∃ st', Insert k t st = (st', inr None) ∧ contents st' = <[k:=t]> (contents st)
    end;
  Get_law st k :
    Get k st = match contents st !! k with Some x => inr x | None => inl ErrTicketNotFound end;
  Take_law st k :
    match contents st !! k with
    | Some x => ∃ st', Take k st = (st', inr x) ∧ contents st' = delete k (contents st)
    | None => Take k st = (st, inl ErrTicketNotFound)
    end;
  Purge_law st :
    ∃ st' l, Purge st = (st', (l, None)) ∧ contents st' = ∅ ∧ l ≡ₚ (map_to_list (contents st)).*2;
  Len_law st : Len st = inr (Z.of_nat (size (contents st)));
}.

(** ** memory.go: the in-memory store *)
Module Memory.
Record MemoryStore := { tickets : gmap string nat }.

Definition NewMemoryStore : MemoryStore := {| tickets := ∅ |}.

Definition Insert (key : string) (t : nat) (s : MemoryStore) : MemoryStore * (StoreErr + option nat) :=
  match tickets s !! key with
  | Some existing => (s, inr (Some existing))
  | None => ({| tickets := <[key := t]> (tickets s) |}, inr None)
  end.

Definition Get (key : string) (s : MemoryStore) : StoreErr + nat :=
  match tickets s !! key with
  | None => inl ErrTicketNotFound
  | Some t => inr t
  end.

Definition Take (key : string) (s : MemoryStore) : MemoryStore * (StoreErr + nat) :=
  match tickets s !! key with
  | None => (s, inl ErrTicketNotFound)
  | Some t => ({| tickets := delete key (tickets s) |}, inr t)
  end.

(** The order of a Go map iteration is unspecified; [StoreLaws] promises a
    permutation only. *)
Definition Purge (s : MemoryStore) : MemoryStore * (list nat * option StoreErr) :=
  (NewMemoryStore, ((map_to_list (tickets s)).*2, None)).

Definition Len (s : MemoryStore) : StoreErr + Z := inr (Z.of_nat (size (tickets s))).
End Memory.

#[export] Instance MemoryStore_Store : Store Memory.MemoryStore := {
  Insert := Memory.Insert; Get := Memory.Get; Take := Memory.Take;
  Purge := Memory.Purge; Len := Memory.Len }.

#[export] Instance MemoryStore_Laws : StoreLaws Memory.MemoryStore.
Proof.
  refine {| contents := Memory.tickets |}; intros; simpl;
    unfold Memory.Insert, Memory.Get, Memory.Take, Memory.Purge, Memory.Len;
    repeat case_match; eauto.
Defined.

(** ** ticket.go *)

Inductive Err :=
  | ErrEmptyKey | ErrUnmatched | ErrAlreadyRedeemed | ErrDraining
  | ErrOverloaded | ErrClosed | ErrStore (e : StoreErr) | ErrConfig (what : string)
  | ErrDrainInterrupted (open : Z).

Inductive TicketState := TicketOpen | TicketClosed | TicketExpired | TicketReleased.

#[export] Instance TicketState_eq_dec : EqDecision TicketState.
Proof. solve_decision. Defined.

Inductive ParkResult := Parked | AttachedOpen | ReplayedClosed.

Inductive engineState := engineRunning | engineDraining | engineClosed.

#[export] Instance engineState_eq_dec : EqDecision engineState.
Proof. solve_decision. Defined.

Section valet.
Context {Msg S : Type} `{StoreLaws S}.

Record Ticket := mkTicket {
  Key : string;
  Destination : string;
  ReturnCtx : gmap string string;
  Request : option Msg;
  Outcome : option Msg;
  ParkedAt : Z;
  Deadline : Z;
  ClosedAt : Z;
  t_state : TicketState;
  t_timer : option nat;
}.

(** The zero value of [Ticket]; also what an invalid pointer reads as (the
    invariant shows there is none). *)
Definition zeroTicket : Ticket :=
  mkTicket "" "" ∅ None None 0 0 0 TicketOpen None.

Definition setState (s : TicketState) (t : Ticket) : Ticket :=
  mkTicket (Key t) (Destination t) (ReturnCtx t) (Request t) (Outcome t)
    (ParkedAt t) (Deadline t) (ClosedAt t) s (t_timer t).

Definition setTimer (id : option nat) (t : Ticket) : Ticket :=
  mkTicket (Key t) (Destination t) (ReturnCtx t) (Request t) (Outcome t)
    (ParkedAt t) (Deadline t) (ClosedAt t) (t_state t) id.

Definition setOutcome (o : option Msg) (at_ : Z) (t : Ticket) : Ticket :=
  mkTicket (Key t) (Destination t) (ReturnCtx t) (Request t) o
    (ParkedAt t) (Deadline t) at_ (t_state t) (t_timer t).

(** ** clock.go and the world the engine runs in *)

(** The two closures the engine passes to [AfterFunc]. *)
Inductive TimerFn :=
  | FExpire (t : nat)
  | FPurge (key : string) (t : nat).

Record World := mkWorld {
  tickets : gmap nat Ticket;
  nextTicket : nat;
  now : Z;
  timers : gmap nat (Z * TimerFn);
  nextTimer : nat;
  fired : list TimerFn;
}.

Definition deref (w : World) (t : nat) : Ticket := default zeroTicket (tickets w !! t).

Definition updTicket (f : Ticket → Ticket) (t : nat) (w : World) : World :=
  mkWorld (alter f t (tickets w)) (nextTicket w) (now w) (timers w) (nextTimer w) (fired w).

Definition newTicket (tk : Ticket) (w : World) : nat * World :=
  (nextTicket w,
   mkWorld (<[nextTicket w := tk]> (tickets w)) (nextTicket w + 1)%nat (now w)
     (timers w) (nextTimer w) (fired w)).

Definition AfterFunc (d : Z) (fn : TimerFn) (w : World) : nat * World :=
  (nextTimer w,
   mkWorld (tickets w) (nextTicket w) (now w)
     (<[nextTimer w := (now w + d, fn)]> (timers w)) (nextTimer w + 1)%nat (fired w)).

Definition Stop (id : nat) (w : World) : World :=
  mkWorld (tickets w) (nextTicket w) (now w) (delete id (timers w)) (nextTimer w) (fired w).

(** [if t.timer != nil { t.timer.Stop() }] *)
Definition stopTimer (t : nat) (w : World) : World :=
  match t_timer (deref w t) with Some id => Stop id w | None => w end.

Definition setFired (l : list TimerFn) (w : World) : World :=
  mkWorld (tickets w) (nextTicket w) (now w) (timers w) (nextTimer w) l.

(** ** engine.go *)

Record Config := mkConfig {
  cfg_DefaultTTL : Z; cfg_MaxTTL : Z; cfg_MaxInFlight : Z; cfg_RetainAfterClose : Z;
  cfg_OnExpire : bool; cfg_Store : S }.

Record Engine := mkEngine {
  defaultTTL : Z;
  maxTTL : Z;
  maxInFlight : Z;
  retain : Z;
  onExpire : bool;
  store : S;
  state : engineState;
  openCount : Z;
  destCounts : gmap string Z;
  retained : gmap string nat;
}.

Definition setStore (st : S) (e : Engine) : Engine :=
  mkEngine (defaultTTL e) (maxTTL e) (maxInFlight e) (retain e) (onExpire e) st
    (state e) (openCount e) (destCounts e) (retained e).

Definition setCounts (n : Z) (dc : gmap string Z) (e : Engine) : Engine :=
  mkEngine (defaultTTL e) (maxTTL e) (maxInFlight e) (retain e) (onExpire e) (store e)
    (state e) n dc (retained e).

Definition setRetained (r : gmap string nat) (e : Engine) : Engine :=
  mkEngine (defaultTTL e) (maxTTL e) (maxInFlight e) (retain e) (onExpire e) (store e)
    (state e) (openCount e) (destCounts e) r.

Definition setEngineState (s : engineState) (e : Engine) : Engine :=
  mkEngine (defaultTTL e) (maxTTL e) (maxInFlight e) (retain e) (onExpire e) (store e)
    s (openCount e) (destCounts e) (retained e).

(** [time.Minute] and [5 * time.Second] in nanoseconds. *)
Definition DefaultTTL : Z := 60 * 1000000000.
Definition DefaultRetainAfterClose : Z := 5 * 1000000000.

Definition New (cfg : Config) : Err + Engine :=
  if cfg_DefaultTTL cfg <? 0 then inl (ErrConfig "DefaultTTL must not be negative") else
  let ttl := if cfg_DefaultTTL cfg =? 0 then DefaultTTL else cfg_DefaultTTL cfg in
  if cfg_MaxTTL cfg <? 0 then inl (ErrConfig "MaxTTL must not be negative") else
  if cfg_MaxInFlight cfg <? 0 then inl (ErrConfig "MaxInFlight must not be negative") else
  if (0 <? cfg_MaxTTL cfg) && (cfg_MaxTTL cfg <? ttl) then
    inl (ErrConfig "MaxTTL is smaller than DefaultTTL") else
  let ret := if cfg_RetainAfterClose cfg =? 0 then DefaultRetainAfterClose
             else if cfg_RetainAfterClose cfg <? 0 then 0 else cfg_RetainAfterClose cfg in
  inr (mkEngine ttl (cfg_MaxTTL cfg) (cfg_MaxInFlight cfg) ret (cfg_OnExpire cfg)
         (cfg_Store cfg) engineRunning 0 ∅ ∅).

Record ParkRequest := mkParkRequest {
  pr_Key : string;
  pr_Destination : string;
  pr_Request : option Msg;
  pr_ReturnCtx : gmap string string;
  pr_TTL : Z }.

(** The TTL a park applies: the override or the default, capped by [MaxTTL]. *)
Definition effectiveTTL (e : Engine) (pr : ParkRequest) : Z :=
  let ttl := if pr_TTL pr <=? 0 then defaultTTL e else pr_TTL pr in
  if (0 <? maxTTL e) && (maxTTL e <? ttl) then maxTTL e else ttl.

Definition Park (pr : ParkRequest) (e : Engine) (w : World)
    : Engine * World * (Err + ParkResult * nat) :=
  if bool_decide (pr_Key pr = ""%string) then (e, w, inl ErrEmptyKey) else
  let ttl := effectiveTTL e pr in
  if bool_decide (state e = engineClosed) then (e, w, inl ErrClosed) else
  match Get (pr_Key pr) (store e) with
  | inr existing => (e, w, inr (AttachedOpen, existing))
  | inl StoreFailure => (e, w, inl (ErrStore StoreFailure))
  | inl ErrTicketNotFound =>
      match retained e !! pr_Key pr with
      | Some closed => (e, w, inr (ReplayedClosed, closed))
      | None =>
          if bool_decide (state e = engineDraining) then (e, w, inl ErrDraining) else
          if (0 <? maxInFlight e) && (maxInFlight e <=? openCount e)
          then (e, w, inl ErrOverloaded) else
          let tk := mkTicket (pr_Key pr) (pr_Destination pr) (pr_ReturnCtx pr)
                      (pr_Request pr) None (now w) (now w + ttl) 0 TicketOpen None in
          let '(t, w1) := newTicket tk w in
          match Insert (Key tk) t (store e) with
          | (st, inl err) => (setStore st e, w1, inl (ErrStore err))
          | (st, inr (Some existing)) => (setStore st e, w1, inr (AttachedOpen, existing))
          | (st, inr None) =>
              let e1 := setCounts (openCount e + 1)
                          (<[Destination tk := default 0 (destCounts e !! Destination tk) + 1]>
                             (destCounts e)) (setStore st e) in
              let '(id, w2) := AfterFunc ttl (FExpire t) w1 in
              (e1, updTicket (setTimer (Some id)) t w2, inr (Parked, t))
          end
      end
  end.

Definition decOpenLocked (t : Ticket) (e : Engine) : Engine :=
  let n := default 0 (destCounts e !! Destination t) in
  setCounts (openCount e - 1)
    (if n <=? 1 then delete (Destination t) (destCounts e)
     else <[Destination t := n - 1]> (destCounts e)) e.

Definition Redeem (key : string) (outcome : option Msg) (e : Engine) (w : World)
    : Engine * World * (Err + nat) :=
  if bool_decide (key = ""%string) then (e, w, inl ErrEmptyKey) else
  if bool_decide (state e = engineClosed) then (e, w, inl ErrClosed) else
  match Take key (store e) with
  | (st, inl ErrTicketNotFound) =>
      (setStore st e, w,
       match retained e !! key with
       | Some _ => inl ErrAlreadyRedeemed
       | None => inl ErrUnmatched
       end)
  | (st, inl err) => (setStore st e, w, inl (ErrStore err))
  | (st, inr t) =>
      let w1 := stopTimer t w in
      let w2 := updTicket (λ tk, setState TicketClosed (setOutcome outcome (now w1) tk)) t w1 in
      let e1 := decOpenLocked (deref w2 t) (setStore st e) in
      if 0 <? retain e1 then
        let e2 := setRetained (<[key := t]> (retained e1)) e1 in
        let '(id, w3) := AfterFunc (retain e1) (FPurge key t) w2 in
        (e2, updTicket (setTimer (Some id)) t w3, inr t)
      else (e1, w2, inr t)
  end.

Definition Release (key : string) (e : Engine) (w : World) : Engine * World * option Err :=
  if bool_decide (key = ""%string) then (e, w, Some ErrEmptyKey) else
  if bool_decide (state e = engineClosed) then (e, w, Some ErrClosed) else
  match Take key (store e) with
  | (st, inl ErrTicketNotFound) => (setStore st e, w, Some ErrUnmatched)
  | (st, inl err) => (setStore st e, w, Some (ErrStore err))
  | (st, inr t) =>
      let w1 := updTicket (setState TicketReleased) t (stopTimer t w) in
      (decOpenLocked (deref w1 t) (setStore st e), w1, None)
  end.

(** [expire] returns the ticket its [OnExpire] callback is invoked with, if it is. *)
Definition expire (t : nat) (e : Engine) (w : World) : Engine * World * option nat :=
  if bool_decide (state e = engineClosed) then (e, w, None) else
  match Get (Key (deref w t)) (store e) with
  | inl _ => (e, w, None)
  | inr cur =>
      if bool_decide (cur ≠ t) then (e, w, None) else
      match Take (Key (deref w t)) (store e) with
      | (st, inl _) => (setStore st e, w, None)
      | (st, inr _) =>
          let w1 := updTicket (setState TicketExpired) t w in
          (decOpenLocked (deref w1 t) (setStore st e), w1,
           if onExpire e then Some t else None)
      end
  end.

Definition purge (key : string) (t : nat) (e : Engine) (w : World) : Engine * World :=
  match retained e !! key with
  | Some cur => if bool_decide (cur = t) then (setRetained (delete key (retained e)) e, w) else (e, w)
  | None => (e, w)
  end.

Definition InFlight (e : Engine) : Z := openCount e.

Definition InFlightTo (dest : string) (e : Engine) : Z := default 0 (destCounts e !! dest).

Definition InFlightSnapshot (dests : list string) (e : Engine) : gmap string Z :=
  foldl (λ out d, <[d := default 0 (destCounts e !! d)]> out) ∅ dests.

Definition Retained (e : Engine) : Z := Z.of_nat (size (retained e)).

(** [Drain] up to its wait loop. *)
Definition Drain (e : Engine) : option Err * Engine :=
  if bool_decide (state e = engineClosed) then (Some ErrClosed, e)
  else (None, setEngineState engineDraining e).

(** One evaluation of the wait loop's condition and, when it ends, [Drain]'s result:
    [None] keeps waiting on the condition variable. *)
Definition drainPoll (ctxErr : bool) (e : Engine) : option (option Err) :=
  if (0 <? openCount e) && negb ctxErr && bool_decide (state e = engineDraining)
  then None
  else Some (if 0 <? openCount e then Some (ErrDrainInterrupted (openCount e)) else None).

Definition Close (e : Engine) (w : World) : Engine * World :=
  if bool_decide (state e = engineClosed) then (e, w) else
  let e1 := setEngineState engineClosed e in
  let '(st, (open, _)) := Purge (store e1) in
  let w1 := foldl (λ w t, stopTimer t w) w open in
  let w2 := foldl (λ w t, stopTimer t w) w1 (map_to_list (retained e1)).*2 in
  (setCounts 0 ∅ (setRetained ∅ (setStore st e1)), w2).

End valet.

Arguments Ticket : clear implicits.
Arguments World : clear implicits.
Arguments Engine : clear implicits.
Arguments Config : clear implicits.
Arguments ParkRequest : clear implicits.
