(* ===== verification/ValetInv.v ===== *)
(** * pkg/valet: the engine as a transition system and its invariant

    The step relation interleaves, in any order, the engine's methods (each atomic
    under [Engine.mu]), the passage of time, the firing of due timers and the bodies
    of the timer goroutines.  [Inv] is the invariant; each operation preserves it
    ([Park_inv], [Redeem_inv], ...), hence every reachable state satisfies it
    ([reachable_inv]). *)
From S2P Require Import Prelude Valet.
Open Scope Z_scope.

Section system.
Context {Msg S : Type} `{StoreLaws S}.
Abbreviation Engine := (Engine S).
Abbreviation World := (World Msg).
Abbreviation Ticket := (Ticket Msg).
Implicit Types (e : Engine) (w : World) (tk : Ticket) (k : string) (t : nat).

(** ** The transition system *)

Inductive label :=
  | LPark (pr : ParkRequest Msg) (r : Err + ParkResult * nat)
  | LRedeem (k : string) (out : option Msg) (r : Err + nat)
  | LRelease (k : string) (r : option Err)
  | LTick (d : Z)
  | LFire (fn : TimerFn)
  | LRun (fn : TimerFn) (cb : option nat)
  | LDrain (r : option Err)
  | LClose.

Definition runTimer (fn : TimerFn) (e : Engine) (w : World) : Engine * World * option nat :=
  match fn with
  | FExpire t => expire t e w
  | FPurge k t => (purge k t e w, None)
  end.

Inductive step : Engine * World → label → Engine * World → Prop :=
  | step_park e w pr e' w' r : Park pr e w = (e', w', r) → step (e, w) (LPark pr r) (e', w')
  | step_redeem e w k out e' w' r :
      Redeem k out e w = (e', w', r) → step (e, w) (LRedeem k out r) (e', w')
  | step_release e w k e' w' r :
      Release k e w = (e', w', r) → step (e, w) (LRelease k r) (e', w')
  | step_tick e w d : 0 ≤ d →
      step (e, w) (LTick d)
        (e, mkWorld (tickets w) (nextTicket w) (now w + d) (timers w) (nextTimer w) (fired w))
  | step_fire e w id due fn :
      timers w !! id = Some (due, fn) → due ≤ now w →
      step (e, w) (LFire fn) (e, setFired (fn :: fired w) (Stop id w))
  | step_run e w l1 fn l2 e' w' cb :
      fired w = l1 ++ fn :: l2 →
      runTimer fn e (setFired (l1 ++ l2) w) = (e', w', cb) →
      step (e, w) (LRun fn cb) (e', w')
  | step_drain e w r e' : Drain e = (r, e') → step (e, w) (LDrain r) (e', w)
  | step_close e w e' w' : Close e w = (e', w') → step (e, w) LClose (e', w').

(** Traces: the labels of a finite execution. *)
Inductive steps : Engine * World → list label → Engine * World → Prop :=
  | steps_nil x : steps x [] x
  | steps_snoc x tr y l z : steps x tr y → step y l z → steps x (tr ++ [l]) z.

(** A freshly built engine ([New] accepted its configuration, over an empty store). *)
Definition initial (x : Engine * World) : Prop :=
  ∃ cfg start, New cfg = inr x.1 ∧ contents (cfg_Store cfg) = ∅ ∧
    x.2 = mkWorld ∅ 0 start ∅ 0 [].

Definition reachable (x : Engine * World) : Prop := ∃ x0 tr, initial x0 ∧ steps x0 tr x.

(** ** The invariant *)

Definition fn_ticket (fn : TimerFn) : nat :=
  match fn with FExpire t => t | FPurge _ t => t end.

(** The instant a timer is due. *)
Definition due_of (r : Z) w (fn : TimerFn) : Z :=
  match fn with
  | FExpire t => Deadline (deref w t)
  | FPurge _ t => ClosedAt (deref w t) + r
  end.

(** The engine still holds the ticket a timer is about. *)
Definition holds e w (fn : TimerFn) : Prop :=
  match fn with
  | FExpire t => contents (store e) !! Key (deref w t) = Some t
  | FPurge k t => retained e !! k = Some t
  end.

Definition armed w (fn : TimerFn) : Prop :=
  (∃ id due, timers w !! id = Some (due, fn)) ∨ fn ∈ fired w.

(** The part about timers: every armed timer is due at the instant the ticket says,
    is the one its ticket records, and is about a ticket the engine still holds
    ([held]); a fired one is due. *)
Record TimerInv (r : Z) (held : TimerFn → Prop) (w : World) : Prop := {
  tm_fresh t : is_Some (tickets w !! t) → (t < nextTicket w)%nat;
  tm_timers id due fn : timers w !! id = Some (due, fn) →
    (id < nextTimer w)%nat ∧ due = due_of r w fn ∧ held fn ∧
    (∀ t, t_timer (deref w t) = Some id ↔ t = fn_ticket fn);
  tm_ids t id : t_timer (deref w t) = Some id → (id < nextTimer w)%nat;
  tm_fired fn : fn ∈ fired w →
    due_of r w fn ≤ now w ∧ is_Some (tickets w !! fn_ticket fn) ∧
    (∀ id due, timers w !! id ≠ Some (due, fn)) ∧
    (∀ k t, fn = FPurge k t → t_state (deref w t) = TicketClosed);
}.

Record Inv (e : Engine) (w : World) : Prop := {
  inv_count : openCount e = Z.of_nat (size (contents (store e)));
  inv_dest d : default 0 (destCounts e !! d) =
    map_count (λ kt, Destination (deref w kt.2) = d) (contents (store e));
  inv_dest_pos d n : destCounts e !! d = Some n → 1 ≤ n;
  inv_limit : 0 < maxInFlight e → openCount e ≤ maxInFlight e;
  inv_open k t : contents (store e) !! k = Some t →
    is_Some (tickets w !! t) ∧ Key (deref w t) = k ∧ t_state (deref w t) = TicketOpen ∧
    armed w (FExpire t);
  inv_retained k t : retained e !! k = Some t →
    is_Some (tickets w !! t) ∧ Key (deref w t) = k ∧ t_state (deref w t) = TicketClosed ∧
    contents (store e) !! k = None ∧ armed w (FPurge k t);
  inv_closed : state e = engineClosed → contents (store e) = ∅ ∧ retained e = ∅;
  inv_tm : TimerInv (retain e) (holds e w) w;
}.

(** ** Lemmas on the ticket heap *)

Lemma deref_updTicket f t t' w :
  is_Some (tickets w !! t) →
  deref (updTicket f t w) t' = if decide (t = t') then f (deref w t) else deref w t'.
Proof.
  intros [tk Htk]. unfold deref, updTicket; simpl. rewrite lookup_alter.
  case_decide; simplify_eq; by rewrite ?Htk.
Qed.

Lemma is_Some_updTicket f t t' w :
  is_Some (tickets (updTicket f t w) !! t') ↔ is_Some (tickets w !! t').
Proof.
  simpl. rewrite lookup_alter. case_decide; [subst|done]. by rewrite fmap_is_Some.
Qed.

(** What no operation changes in a ticket that exists. *)
Definition same_static (tk tk' : Ticket) : Prop :=
  Key tk' = Key tk ∧ Destination tk' = Destination tk ∧ ReturnCtx tk' = ReturnCtx tk ∧
  Request tk' = Request tk ∧ ParkedAt tk' = ParkedAt tk ∧ Deadline tk' = Deadline tk.

(** The world after [t], open in [w], has left the open state: its expiry timer is
    gone and its static fields are unchanged. *)
Record cleared (w w' : World) (t : nat) (f : Ticket → Ticket) : Prop := {
  cl_tickets : tickets w' = alter f t (tickets w);
  cl_next : nextTicket w' = nextTicket w;
  cl_now : now w' = now w;
  cl_nextTimer : nextTimer w' = nextTimer w;
  cl_timers id x : timers w' !! id = Some x ↔ timers w !! id = Some x ∧ x.2 ≠ FExpire t;
  cl_fired fn : fn ∈ fired w' → fn ∈ fired w;
  cl_fired' fn : fn ∈ fired w → fn ≠ FExpire t → fn ∈ fired w';
  cl_static : same_static (deref w t) (f (deref w t));
  cl_terminal : t_state (f (deref w t)) ≠ TicketOpen;
}.

Lemma cleared_deref w w' t f t' :
  is_Some (tickets w !! t) → cleared w w' t f →
  deref w' t' = if decide (t = t') then f (deref w t) else deref w t'.
Proof.
  intros Ht Hc. rewrite <-(deref_updTicket f t t' w Ht).
  unfold deref, updTicket; simpl. by rewrite (cl_tickets _ _ _ _ Hc).
Qed.

Lemma cleared_is_Some w w' t f t' :
  cleared w w' t f → is_Some (tickets w' !! t') ↔ is_Some (tickets w !! t').
Proof. intros Hc. rewrite (cl_tickets _ _ _ _ Hc). apply (is_Some_updTicket f t t' w). Qed.

(** Two names for the open ticket of a key. *)
Lemma open_inj e w k1 k2 t :
  Inv e w → contents (store e) !! k1 = Some t → contents (store e) !! k2 = Some t → k1 = k2.
Proof. intros I H1 H2. destruct (inv_open _ _ I _ _ H1) as (_&?&_), (inv_open _ _ I _ _ H2) as (_&?&_). congruence. Qed.

Lemma open_not_retained e w k1 k2 t :
  Inv e w → contents (store e) !! k1 = Some t → retained e !! k2 = Some t → False.
Proof.
  intros I H1 H2. apply (inv_open _ _ I) in H1. apply (inv_retained _ _ I) in H2.
  destruct H1 as (_&_&H1&_), H2 as (_&_&H2&_&_). congruence.
Qed.

(** ** Leaving the open state *)

Lemma dest_dec_lookup (dc : gmap string Z) d d' :
  let n := default 0 (dc !! d) in
  1 ≤ n →
  default 0 ((if n <=? 1 then delete d dc else <[d := n - 1]> dc) !! d') =
  default 0 (dc !! d') - (if decide (d = d') then 1 else 0).
Proof.
  intros n Hn. subst n. destruct (Z.leb_spec (default 0 (dc !! d)) 1); case_decide; subst.
  - rewrite lookup_delete_eq; simpl; lia.
  - rewrite lookup_delete_ne by done; lia.
  - rewrite lookup_insert_eq; simpl; lia.
  - rewrite lookup_insert_ne by done; lia.
Qed.

Lemma clear_dest e w w' k t f d :
  Inv e w → contents (store e) !! k = Some t → cleared w w' t f →
  map_count (λ kt, Destination (deref w' kt.2) = d) (delete k (contents (store e))) =
  default 0 (destCounts e !! d) - (if decide (Destination (deref w' t) = d) then 1 else 0).
Proof.
  intros I Hk Hc. destruct (inv_open _ _ I _ _ Hk) as (Hsome & _).
  assert (Hd : ∀ t', Destination (deref w' t') = Destination (deref w t')).
  { intros t'. rewrite (cleared_deref _ _ _ _ _ Hsome Hc).
    case_decide; subst; [by destruct (cl_static _ _ _ _ Hc) as (_&?&_)|done]. }
  rewrite (inv_dest _ _ I), Hd.
  rewrite (map_count_ext _ (λ kt, Destination (deref w kt.2) = d)) by (intros; simpl; by rewrite Hd).
  by rewrite (map_count_delete _ _ _ _ Hk).
Qed.

Lemma open_dest_pos e w k t :
  Inv e w → contents (store e) !! k = Some t →
  1 ≤ default 0 (destCounts e !! Destination (deref w t)).
Proof.
  intros I Hk. rewrite (inv_dest _ _ I), <-(insert_delete_id _ _ _ Hk).
  rewrite map_count_insert by apply lookup_delete_eq.
  pose proof (map_count_nonneg (λ kt, Destination (deref w kt.2) = Destination (deref w t))
                (delete k (contents (store e)))).
  case_decide; [lia|done].
Qed.

Lemma clear_due e w w' k t f r fn :
  Inv e w → contents (store e) !! k = Some t → cleared w w' t f →
  (∀ k' t', fn = FPurge k' t' → t' ≠ t) →
  due_of r w' fn = due_of r w fn.
Proof.
  intros I Hk Hc Hne. destruct (inv_open _ _ I _ _ Hk) as (Hsome & _).
  destruct fn as [t'|k' t']; simpl; rewrite (cleared_deref _ _ _ _ _ Hsome Hc);
    case_decide; subst; try done.
  - by destruct (cl_static _ _ _ _ Hc) as (_&_&_&_&_&?).
  - by destruct (Hne k' t').
Qed.

Lemma clear_timers e w st w' k t f :
  Inv e w → contents (store e) !! k = Some t →
  contents st = delete k (contents (store e)) → cleared w w' t f →
  t_timer (f (deref w t)) = t_timer (deref w t) →
  TimerInv (retain e) (holds (decOpenLocked (deref w' t) (setStore st e)) w') w'.
Proof.
  intros I Hk Hst Hc Htm. pose proof (inv_tm _ _ I) as T.
  destruct (inv_open _ _ I _ _ Hk) as (Hsome & Hkey & Hopen & _).
  assert (Hkey' : ∀ t', Key (deref w' t') = Key (deref w t')).
  { intros t'. rewrite (cleared_deref _ _ _ _ _ Hsome Hc). case_decide; subst; [|done].
    by destruct (cl_static _ _ _ _ Hc) as (?&_). }
  assert (Htm' : ∀ t', t_timer (deref w' t') = t_timer (deref w t')).
  { intros t'. rewrite (cleared_deref _ _ _ _ _ Hsome Hc). by case_decide; subst. }
  constructor.
  - intros t'. rewrite (cleared_is_Some _ _ _ _ _ Hc), (cl_next _ _ _ _ Hc). apply (tm_fresh _ _ _ T).
  - intros id due fn. rewrite (cl_timers _ _ _ _ Hc); simpl. intros [Htim Hne].
    destruct (tm_timers _ _ _ T _ _ _ Htim) as (?&Hdue&Hh&Ht').
    assert (fn_ticket fn ≠ t).
    { destruct fn as [t'|k' t']; simpl in *; [congruence|].
      intros ->. eauto using open_not_retained. }
    rewrite (cl_nextTimer _ _ _ _ Hc). split_and!; try done.
    + rewrite Hdue. symmetry. apply (clear_due _ _ _ _ _ _ _ _ I Hk Hc).
      intros k' t' -> ->. by simpl in *.
    + destruct fn as [t'|k' t']; simpl in *; [|done]. rewrite Hkey', Hst.
      apply lookup_delete_Some. split; [|done]. intros Heq. rewrite <-Heq in Hh. congruence.
    + intros t'. by rewrite Htm'.
  - intros t' id. rewrite Htm', (cl_nextTimer _ _ _ _ Hc). apply (tm_ids _ _ _ T).
  - intros fn Hf. apply (cl_fired _ _ _ _ Hc) in Hf.
    destruct (tm_fired _ _ _ T _ Hf) as (Hd&?&Hnt&Hcl).
    assert (∀ k' t', fn = FPurge k' t' → t' ≠ t).
    { intros k' t' -> ->. pose proof (Hcl _ _ eq_refl). congruence. }
    rewrite (cleared_is_Some _ _ _ _ _ Hc), (cl_now _ _ _ _ Hc). split_and!; try done.
    + etrans; [|exact Hd]. apply Z.eq_le_incl. by apply (clear_due _ _ _ _ _ _ _ _ I Hk Hc).
    + intros id due. rewrite (cl_timers _ _ _ _ Hc). intros [? _]. by eapply Hnt.
    + intros k' t' ->. rewrite (cleared_deref _ _ _ _ _ Hsome Hc).
      rewrite decide_False by naive_solver. eauto.
Qed.

Lemma inv_clear e w st w' k t f :
  Inv e w → contents (store e) !! k = Some t →
  contents st = delete k (contents (store e)) → cleared w w' t f →
  t_timer (f (deref w t)) = t_timer (deref w t) →
  Inv (decOpenLocked (deref w' t) (setStore st e)) w'.
Proof.
  intros I Hk Hst Hc Htm.
  destruct (inv_open _ _ I _ _ Hk) as (Hsome & Hkey & Hopen & _).
  pose proof (cleared_deref _ _ _ _ t Hsome Hc) as Hdt. rewrite decide_True in Hdt by done.
  assert (Hdest : Destination (deref w' t) = Destination (deref w t)).
  { rewrite Hdt. by destruct (cl_static _ _ _ _ Hc) as (_&?&_). }
  assert (Hpos : 1 ≤ default 0 (destCounts e !! Destination (deref w' t))).
  { rewrite Hdest. eauto using open_dest_pos. }
  constructor; simpl.
  - rewrite Hst, (size_delete_present _ _ _ Hk), (inv_count _ _ I). lia.
  - intros d. rewrite Hst, (clear_dest _ _ _ _ _ _ _ I Hk Hc).
    by apply dest_dec_lookup.
  - intros d n. destruct (Z.leb_spec (default 0 (destCounts e !! Destination (deref w' t))) 1);
      [rewrite lookup_delete_Some|rewrite lookup_insert_Some].
    + intros [_ Hd]. exact (inv_dest_pos _ _ I d n Hd).
    + intros [[<- <-]|[_ Hd]]; [lia|exact (inv_dest_pos _ _ I d n Hd)].
  - pose proof (inv_limit _ _ I). lia.
  - intros k' t'. rewrite Hst, lookup_delete_Some. intros [Hne Hk'].
    assert (t' ≠ t) by (intros ->; eauto using open_inj).
    destruct (inv_open _ _ I _ _ Hk') as (?&?&?&Ha).
    rewrite (cleared_is_Some _ _ _ _ _ Hc), (cleared_deref _ _ _ _ _ Hsome Hc), decide_False by done.
    split_and!; try done.
    destruct Ha as [(id&due&?)|?]; [left|right].
    + exists id, due. rewrite (cl_timers _ _ _ _ Hc). naive_solver.
    + eapply cl_fired'; naive_solver.
  - intros k' t' Hr. destruct (inv_retained _ _ I _ _ Hr) as (?&?&?&?&Ha).
    assert (t' ≠ t) by (intros ->; congruence).
    rewrite (cleared_is_Some _ _ _ _ _ Hc), (cleared_deref _ _ _ _ _ Hsome Hc), decide_False by done.
    rewrite Hst, lookup_delete_None. split_and!; eauto.
    destruct Ha as [(id&due&?)|?]; [left|right].
    + exists id, due. by rewrite (cl_timers _ _ _ _ Hc).
    + by eapply cl_fired'.
  - intros Hcl. destruct (inv_closed _ _ I Hcl) as [He ?]. by rewrite He in Hk.
  - by eapply clear_timers.
Qed.

(** The expiry timer of an open ticket is the only timer its [timer] field stops. *)
Lemma stopTimer_timers e w k t id x :
  Inv e w → contents (store e) !! k = Some t →
  timers (stopTimer t w) !! id = Some x ↔ timers w !! id = Some x ∧ x.2 ≠ FExpire t.
Proof.
  intros I Hk. unfold stopTimer.
  assert (Hown : ∀ i due fn, timers w !! i = Some (due, fn) →
            t_timer (deref w t) = Some i ↔ fn = FExpire t).
  { intros i due fn Hi. destruct (tm_timers _ _ _ (inv_tm _ _ I) _ _ _ Hi) as (_&_&Hh&Ht).
    rewrite Ht. destruct fn as [t'|k' t']; simpl in *; [naive_solver|].
    split; [|done]. intros <-. destruct (open_not_retained _ _ _ _ _ I Hk Hh). }
  destruct x as [due fn]. destruct (t_timer (deref w t)) as [i|] eqn:Hi; simpl.
  - rewrite lookup_delete_Some. split.
    + intros [Hne Hx]. split; [done|]. intros ->.
      apply Hne. apply Hown in Hx. naive_solver.
    + intros [Hx Hne]. split; [|done]. intros ->. apply Hne. by eapply Hown.
  - split; [|naive_solver]. intros Hx. split; [done|]. intros ->.
    apply Hown in Hx. naive_solver.
Qed.

Lemma stopTimer_frame t w :
  tickets (stopTimer t w) = tickets w ∧ nextTicket (stopTimer t w) = nextTicket w ∧
  now (stopTimer t w) = now w ∧ nextTimer (stopTimer t w) = nextTimer w ∧
  fired (stopTimer t w) = fired w.
Proof. unfold stopTimer. by case_match. Qed.

Lemma stopped_cleared e w k t f :
  Inv e w → contents (store e) !! k = Some t →
  same_static (deref w t) (f (deref w t)) → t_state (f (deref w t)) ≠ TicketOpen →
  cleared w (updTicket f t (stopTimer t w)) t f.
Proof.
  intros I Hk Hs Hf. destruct (stopTimer_frame t w) as (Ht&?&?&?&Hfi).
  constructor; simpl; try done; try congruence.
  intros id x. eauto using stopTimer_timers.
Qed.

Lemma deref_stopTimer w t t' : deref (stopTimer t w) t' = deref w t'.
Proof. unfold deref. by destruct (stopTimer_frame t w) as (->&_). Qed.

Lemma setStore_id e : setStore (store e) e = e.
Proof. by destruct e. Qed.

(** ** Each operation preserves the invariant *)

Lemma Release_inv k e w e' w' r : Inv e w → Release k e w = (e', w', r) → Inv e' w'.
Proof.
  intros I. unfold Release. pose proof (Take_law (store e) k) as HT.
  repeat case_bool_decide; try naive_solver.
  destruct (contents (store e) !! k) as [t|] eqn:Hk.
  - destruct HT as (st & -> & Hst). intros [= <- <- <-].
    apply (inv_clear _ _ _ _ _ _ (setState TicketReleased) I Hk Hst); [|done].
    by eapply stopped_cleared.
  - rewrite HT. intros [= <- <- <-]. by rewrite setStore_id.
Qed.

(** ** Arming a timer *)

(** [t.timer = e.clock.AfterFunc(d, fn)] *)
Definition arm (d : Z) (fn : TimerFn) t w : World :=
  updTicket (setTimer (Some (nextTimer w))) t (AfterFunc d fn w).2.

Lemma deref_arm d fn t t' w : is_Some (tickets w !! t) →
  deref (arm d fn t w) t' = if decide (t = t')
    then setTimer (Some (nextTimer w)) (deref w t) else deref w t'.
Proof. intros. unfold arm. by rewrite deref_updTicket. Qed.

Lemma is_Some_arm d fn t t' w :
  is_Some (tickets (arm d fn t w) !! t') ↔ is_Some (tickets w !! t').
Proof. unfold arm. by rewrite is_Some_updTicket. Qed.

(** Every field but [timer] is as before. *)
Lemma arm_proj {T : Type} (g : Ticket → T) d fn t t' w :
  is_Some (tickets w !! t) → (∀ tk i, g (setTimer i tk) = g tk) →
  g (deref (arm d fn t w) t') = g (deref w t').
Proof. intros ? Hg. rewrite deref_arm by done. case_decide; subst; [apply Hg|done]. Qed.

Lemma arm_due r d fn t fn' w :
  is_Some (tickets w !! t) → due_of r (arm d fn t w) fn' = due_of r w fn'.
Proof.
  intros. destruct fn' as [t'|k' t']; simpl; [by apply (arm_proj Deadline)|].
  by rewrite (arm_proj ClosedAt).
Qed.

Lemma nextTimer_fresh r held w : TimerInv r held w → timers w !! nextTimer w = None.
Proof.
  intros T. destruct (timers w !! nextTimer w) as [[due fn]|] eqn:Hi; [|done].
  destruct (tm_timers _ _ _ T _ _ _ Hi). lia.
Qed.

Lemma arm_armed r held d fn t fn' w :
  TimerInv r held w → armed w fn' → armed (arm d fn t w) fn'.
Proof.
  intros T [(id&due&Hi)|Hf]; [left; exists id, due|by right]. unfold arm; simpl.
  pose proof (nextTimer_fresh _ _ _ T). rewrite lookup_insert_ne by congruence. done.
Qed.

Lemma arm_new d fn t w : armed (arm d fn t w) fn.
Proof. left. exists (nextTimer w), (now w + d). unfold arm; simpl. by rewrite lookup_insert_eq. Qed.

Lemma arm_timers r held held' d fn t w :
  TimerInv r held w → is_Some (tickets w !! t) → fn_ticket fn = t →
  (∀ id due fn', timers w !! id = Some (due, fn') → fn_ticket fn' ≠ t) →
  fn ∉ fired w → due_of r w fn = now w + d →
  (∀ fn', held fn' → held' fn') → held' fn →
  TimerInv r held' (arm d fn t w).
Proof.
  intros T Hsome Hfn Hother Hnf Hdue Hheld Hnew. constructor.
  - intros t'. rewrite is_Some_arm. apply (tm_fresh _ _ _ T).
  - intros id due fn'. rewrite arm_due by done. unfold arm at 1 2; simpl. rewrite lookup_insert_Some.
    intros [[<- [= <- <-]]|[Hid Hi]].
    + split_and!; try done; [lia|].
      intros t'. rewrite deref_arm by done. case_decide; subst; simpl; [done|].
      split; [|naive_solver]. intros Hti. apply (tm_ids _ _ _ T) in Hti. lia.
    + destruct (tm_timers _ _ _ T _ _ _ Hi) as (?&?&Hh&Hti). pose proof (Hother _ _ _ Hi).
      split_and!; [lia|done|eauto|]. intros t'. rewrite deref_arm by done.
      case_decide; subst; simpl; [|apply Hti]. split; naive_solver.
  - intros t' id. rewrite deref_arm by done. unfold arm; simpl. case_decide; subst; simpl.
    + intros [= <-]. lia.
    + intros Hti. apply (tm_ids _ _ _ T) in Hti. lia.
  - intros fn' Hf. destruct (tm_fired _ _ _ T _ Hf) as (?&?&Hnt&Hc).
    rewrite arm_due, is_Some_arm by done. split_and!; try done.
    + intros id due. unfold arm; simpl. rewrite lookup_insert_Some.
      intros [[_ [= _ <-]]|[_ ?]]; [done|naive_solver].
    + intros k' t' ->. rewrite (arm_proj t_state) by done. eauto.
Qed.

#[local] Opaque arm.

(** Retaining a redeemed ticket and arming its purge timer. *)
Lemma inv_add_retained e w k t :
  Inv e w → is_Some (tickets w !! t) → Key (deref w t) = k →
  t_state (deref w t) = TicketClosed → ClosedAt (deref w t) = now w →
  contents (store e) !! k = None → retained e !! k = None →
  state e ≠ engineClosed → FPurge k t ∉ fired w →
  Inv (setRetained (<[k := t]> (retained e)) e) (arm (retain e) (FPurge k t) t w).
Proof.
  intros I Hsome Hkey Hcl Hat Hk Hr Hne Hnf. pose proof (inv_tm _ _ I) as T.
  constructor; simpl; try apply I; try done.
  - intros d. rewrite (inv_dest _ _ I). apply map_count_ext. intros k' t' _; simpl.
    by rewrite (arm_proj Destination).
  - intros k' t' Hk'. destruct (inv_open _ _ I _ _ Hk') as (?&?&?&?).
    rewrite is_Some_arm, (arm_proj Key), (arm_proj t_state) by done. eauto using arm_armed.
  - intros k' t'. rewrite lookup_insert_Some. intros [[<- <-]|[? Hr']].
    + rewrite is_Some_arm, (arm_proj Key), (arm_proj t_state) by done. eauto 10 using arm_new.
    + destruct (inv_retained _ _ I _ _ Hr') as (?&?&?&?&?).
      rewrite is_Some_arm, (arm_proj Key), (arm_proj t_state) by done. eauto 10 using arm_armed.
  - eapply arm_timers; eauto; simpl; [|lia| |by rewrite lookup_insert_eq].
    + intros id due fn Hi. destruct (tm_timers _ _ _ T _ _ _ Hi) as (_&_&Hh&_).
      destruct fn as [t'|k' t']; simpl in *; intros ->; [congruence|].
      destruct (inv_retained _ _ I _ _ Hh) as (_&Hk'&_). congruence.
    + intros [t'|k' t'] Hh; simpl in *; [by rewrite (arm_proj Key)|].
      rewrite lookup_insert_ne; [done|]. intros ->. congruence.
Qed.

Lemma Redeem_inv k out e w e' w' r : Inv e w → Redeem k out e w = (e', w', r) → Inv e' w'.
Proof.
  intros I. unfold Redeem. pose proof (Take_law (store e) k) as HT.
  repeat case_bool_decide; try naive_solver.
  destruct (contents (store e) !! k) as [t|] eqn:Hk.
  2: { rewrite HT. intros [= <- <- <-]. by rewrite setStore_id. }
  destruct HT as (st & -> & Hst).
  destruct (inv_open _ _ I _ _ Hk) as (Hsome & Hkey & Hop & _).
  set (f := λ tk, setState TicketClosed (setOutcome out (now (stopTimer t w)) tk)).
  assert (Hc : cleared w (updTicket f t (stopTimer t w)) t f) by (by eapply stopped_cleared).
  assert (I' := inv_clear _ _ _ _ _ _ _ I Hk Hst Hc eq_refl).
  pose proof (cleared_deref _ _ _ _ t Hsome Hc) as Hd. rewrite decide_True in Hd by done.
  case_match; intros [= <- <- <-]; [|done].
  with_strategy transparent [arm] apply (inv_add_retained _ _ k t I'); simpl; try done.
  - by apply (cleared_is_Some _ _ _ _ _ Hc).
  - by rewrite Hd.
  - by rewrite Hd.
  - by rewrite Hd.
  - rewrite Hst. apply lookup_delete_eq.
  - destruct (retained e !! k) eqn:Hr; [|done]. apply (inv_retained _ _ I) in Hr. naive_solver.
  - intros Hf. apply (cl_fired _ _ _ _ Hc) in Hf. apply (tm_fired _ _ _ (inv_tm _ _ I)) in Hf.
    destruct Hf as (_&_&_&Hf). rewrite (Hf _ _ eq_refl) in Hop. done.
Qed.

(** Allocating a ticket nothing refers to yet. *)
Lemma deref_newTicket tk w t' :
  deref (newTicket tk w).2 t' = if decide (nextTicket w = t') then tk else deref w t'.
Proof. unfold deref; simpl. rewrite lookup_insert. by case_decide. Qed.

Lemma inv_alloc e w tk : Inv e w → t_timer tk = None → Inv e (newTicket tk w).2.
Proof.
  intros I Htk. pose proof (inv_tm _ _ I) as T.
  assert (Hd : ∀ t', is_Some (tickets w !! t') → deref (newTicket tk w).2 t' = deref w t').
  { intros t' Ht. rewrite deref_newTicket, decide_False; [done|].
    apply (tm_fresh _ _ _ T) in Ht. lia. }
  assert (Hs : ∀ t', is_Some (tickets w !! t') → is_Some (tickets (newTicket tk w).2 !! t')).
  { intros t' [x Ht]. simpl. rewrite lookup_insert_is_Some. destruct (decide (nextTicket w = t')); eauto. }
  assert (Hlive : ∀ fn, holds e w fn → is_Some (tickets w !! fn_ticket fn)).
  { intros [t'|k' t'] Hh; simpl in *; [by eapply (inv_open _ _ I)|by eapply (inv_retained _ _ I)]. }
  assert (Hdue : ∀ fn, is_Some (tickets w !! fn_ticket fn) →
            due_of (retain e) (newTicket tk w).2 fn = due_of (retain e) w fn).
  { intros [t'|k' t'] Ht; simpl in *; by rewrite Hd. }
  destruct I as [? Hdest ? ? Ho Hr Hcl _]. constructor; try done.
  - intros d. rewrite Hdest. apply map_count_ext. intros k' t' Hk'; simpl.
    rewrite Hd; [done|]. by eapply Ho.
  - intros k' t' Hk'. destruct (Ho _ _ Hk') as (?&?&?&?). rewrite Hd by done. eauto.
  - intros k' t' Hk'. destruct (Hr _ _ Hk') as (?&?&?&?&?). rewrite Hd by done. eauto 10.
  - constructor.
    + intros t' [x Hx]; simpl in *. apply lookup_insert_Some in Hx as [[<- _]|[_ Hx]]; [lia|].
      pose proof (tm_fresh _ _ _ T t' ltac:(eauto)). lia.
    + intros id due fn Hi. destruct (tm_timers _ _ _ T _ _ _ Hi) as (?&?&Hh&Ht).
      rewrite Hdue by eauto. split_and!; try done.
      * destruct fn; simpl in *; [|done]. rewrite Hd; [done|]. by apply (Hlive (FExpire _)).
      * intros t'. rewrite deref_newTicket. case_decide; [subst|apply Ht].
        rewrite Htk. split; [done|]. intros Heq. apply Hlive, (tm_fresh _ _ _ T) in Hh. lia.
    + intros t' id. rewrite deref_newTicket. case_decide; [congruence|apply (tm_ids _ _ _ T)].
    + intros fn Hf. destruct (tm_fired _ _ _ T _ Hf) as (?&?&?&?).
      rewrite Hdue by done. split_and!; eauto. intros k' t' ->. rewrite Hd by done. eauto.
Qed.

(** Storing an allocated, open ticket under a free key and arming its expiry. *)
Lemma inv_add_open e w st k t ttl :
  Inv e w → is_Some (tickets w !! t) → Key (deref w t) = k →
  t_state (deref w t) = TicketOpen → t_timer (deref w t) = None →
  Deadline (deref w t) = now w + ttl →
  contents (store e) !! k = None → retained e !! k = None →
  contents st = <[k := t]> (contents (store e)) →
  state e ≠ engineClosed → FExpire t ∉ fired w →
  (0 < maxInFlight e → openCount e < maxInFlight e) →
  Inv (setCounts (openCount e + 1)
         (<[Destination (deref w t) := default 0 (destCounts e !! Destination (deref w t)) + 1]>
            (destCounts e)) (setStore st e))
      (arm ttl (FExpire t) t w).
Proof.
  intros I Hsome Hkey Hop Htm Hdl Hk Hr Hst Hcl Hnf Hlim. pose proof (inv_tm _ _ I) as T.
  constructor; simpl; try done.
  - rewrite Hst, size_insert_fresh, (inv_count _ _ I) by done. done.
  - intros d. rewrite Hst, lookup_insert.
    rewrite (map_count_ext _ (λ kt, Destination (deref w kt.2) = d))
      by (intros; simpl; by rewrite (arm_proj Destination)).
    rewrite map_count_insert by done. simpl.
    pose proof (inv_dest _ _ I d). repeat case_decide; subst; simpl; lia.
  - intros d n. rewrite lookup_insert_Some. intros [[<- <-]|[_ Hn]]; [|by apply (inv_dest_pos _ _ I d)].
    rewrite (inv_dest _ _ I).
    pose proof (map_count_nonneg (λ kt, Destination (deref w kt.2) = Destination (deref w t))
                  (contents (store e))). lia.
  - intros. specialize (Hlim ltac:(done)). lia.
  - intros k' t'. rewrite Hst, lookup_insert_Some, is_Some_arm, (arm_proj Key), (arm_proj t_state) by done.
    intros [[<- <-]|[_ Hk']]; [eauto 10 using arm_new|].
    destruct (inv_open _ _ I _ _ Hk') as (?&?&?&?). eauto using arm_armed.
  - intros k' t' Hr'. rewrite is_Some_arm, (arm_proj Key), (arm_proj t_state) by done.
    destruct (inv_retained _ _ I _ _ Hr') as (?&?&?&?&?). split_and!; eauto using arm_armed.
    rewrite Hst, lookup_insert_ne by congruence. done.
  - eapply arm_timers; eauto; simpl.
    + intros id due fn Hi. destruct (tm_timers _ _ _ T _ _ _ Hi) as (_&_&_&Hti).
      intros Heq. symmetry in Heq. apply Hti in Heq. congruence.
    + intros [t'|k' t'] Hh; simpl in *; [|done]. rewrite (arm_proj Key), Hst by done.
      rewrite lookup_insert_ne; [done|]. congruence.
    + rewrite (arm_proj Key), Hst, Hkey by done. apply lookup_insert_eq.
Qed.

Lemma Park_inv pr e w e' w' r : Inv e w → Park pr e w = (e', w', r) → Inv e' w'.
Proof.
  intros I. unfold Park. rewrite (Get_law (store e)).
  case_bool_decide; [naive_solver|]. case_bool_decide; [naive_solver|].
  destruct (contents (store e) !! pr_Key pr) eqn:Hk; [naive_solver|].
  destruct (retained e !! pr_Key pr) eqn:Hr; [naive_solver|].
  case_bool_decide; [naive_solver|].
  destruct (_ && _) eqn:Hlim; [naive_solver|].
  set (tk := mkTicket _ _ _ _ _ _ _ _ _ _).
  destruct (newTicket tk w) as [t w1] eqn:Hnew.
  pose proof (Insert_law (store e) (Key tk) t) as HI.
  change (Key tk) with (pr_Key pr) in HI at 1. rewrite Hk in HI.
  destruct HI as (st & -> & Hst). intros [= <- <- <-].
  assert (t = nextTicket w) as -> by (unfold newTicket in Hnew; congruence).
  assert (w1 = (newTicket tk w).2) as -> by (by rewrite Hnew).
  assert (Hd : deref (newTicket tk w).2 (nextTicket w) = tk)
    by (rewrite deref_newTicket; by rewrite decide_True).
  pose proof (inv_alloc e w tk I eq_refl) as I1.
  assert (Harm := λ H, inv_add_open e _ st (pr_Key pr) (nextTicket w) (effectiveTTL e pr) I1 H).
  rewrite Hd in Harm. with_strategy transparent [arm] apply Harm; try done.
  - simpl. rewrite lookup_insert_eq. eauto.
  - simpl. intros Hf. destruct (tm_fired _ _ _ (inv_tm _ _ I) _ Hf) as (_&Hf'&_).
    apply (tm_fresh _ _ _ (inv_tm _ _ I)) in Hf'. simpl in Hf'. lia.
  - intros. apply andb_false_iff in Hlim as [?|?]; lia.
Qed.

(** ** Timers and time *)

(** Changing the instant or the fired list only. *)
Lemma inv_clock e w w' :
  Inv e w → tickets w' = tickets w → nextTicket w' = nextTicket w →
  nextTimer w' = nextTimer w → now w ≤ now w' →
  (∀ fn, holds e w fn → armed w fn → armed w' fn) →
  (∀ id x, timers w' !! id = Some x → timers w !! id = Some x) →
  (∀ fn, fn ∈ fired w' → (fn ∈ fired w ∨ due_of (retain e) w fn ≤ now w' ∧ holds e w fn) ∧
     ∀ id due, timers w' !! id ≠ Some (due, fn)) →
  Inv e w'.
Proof.
  intros I Ht Hn Hi Hnow Harm Htim Hfi.
  assert (Hd : ∀ t, deref w' t = deref w t) by (intros; unfold deref; by rewrite Ht).
  assert (Hdue : ∀ fn, due_of (retain e) w' fn = due_of (retain e) w fn)
    by (intros []; simpl; by rewrite Hd).
  assert (Hh : ∀ fn, holds e w' fn ↔ holds e w fn) by (intros []; simpl; by rewrite ?Hd).
  pose proof (inv_tm _ _ I) as T.
  constructor; try apply I.
  - intros d. rewrite (inv_dest _ _ I). apply map_count_ext. intros; simpl. by rewrite Hd.
  - intros k t Hk. rewrite Ht, Hd. destruct (inv_open _ _ I _ _ Hk) as (?&?&?&?).
    split_and!; try done. apply Harm; [|done]. simpl. congruence.
  - intros k t Hk. rewrite Ht, Hd. destruct (inv_retained _ _ I _ _ Hk) as (?&?&?&?&?). eauto 10.
  - constructor.
    + intros t. rewrite Ht, Hn. apply (tm_fresh _ _ _ T).
    + intros id due fn Hid. rewrite Hi, Hdue, Hh. setoid_rewrite Hd. by apply (tm_timers _ _ _ T), Htim.
    + intros t id. rewrite Hd, Hi. apply (tm_ids _ _ _ T).
    + intros fn Hf. rewrite Hdue, Ht. destruct (Hfi _ Hf) as [[Hf'|[? Hho]] Hno].
      * destruct (tm_fired _ _ _ T _ Hf') as (?&?&_&Hc). split_and!; [lia|done|done|].
        intros k t ->. rewrite Hd. eauto.
      * split_and!; try done.
        -- destruct fn; simpl in *; [by eapply (inv_open _ _ I)|by eapply (inv_retained _ _ I)].
        -- intros k t ->. rewrite Hd. by eapply (inv_retained _ _ I).
Qed.

Lemma tick_inv e w d :
  Inv e w → 0 ≤ d →
  Inv e (mkWorld (tickets w) (nextTicket w) (now w + d) (timers w) (nextTimer w) (fired w)).
Proof.
  intros I Hd. apply (inv_clock e w); simpl; try done; [lia|].
  intros fn Hf. split; [by left|]. by eapply (tm_fired _ _ _ (inv_tm _ _ I)).
Qed.

Lemma fire_inv e w id due fn :
  Inv e w → timers w !! id = Some (due, fn) → due ≤ now w →
  Inv e (setFired (fn :: fired w) (Stop id w)).
Proof.
  intros I Hi Hdue. pose proof (inv_tm _ _ I) as T.
  destruct (tm_timers _ _ _ T _ _ _ Hi) as (_&->&Hh&Hown).
  assert (Hu : ∀ i d, timers w !! i = Some (d, fn) → i = id).
  { intros i d Hi'. destruct (tm_timers _ _ _ T _ _ _ Hi') as (_&_&_&Hown').
    pose proof (proj2 (Hown' _) eq_refl). pose proof (proj2 (Hown _) eq_refl). congruence. }
  apply (inv_clock e w); simpl; try done.
  - intros fn' _ [(i&d&Hi')|Hf]; [|right; simpl; by right].
    destruct (decide (i = id)) as [->|].
    { assert (fn' = fn) as -> by congruence. right. set_solver. }
    left. exists i, d. simpl. by rewrite lookup_delete_ne.
  - intros i x. rewrite lookup_delete_Some. naive_solver.
  - intros fn' Hf. split.
    + apply elem_of_cons in Hf as [->|Hf]; auto.
    + intros i d. rewrite lookup_delete_Some. intros [Hne Hi'].
      apply elem_of_cons in Hf as [->|Hf]; [by apply Hne; symmetry; eauto|].
      by eapply (tm_fired _ _ _ T).
Qed.

(** Dropping a fired goroutine whose ticket the engine no longer holds. *)
Lemma inv_drop_fired e w l1 fn l2 :
  Inv e w → fired w = l1 ++ fn :: l2 → ¬ holds e w fn →
  Inv e (setFired (l1 ++ l2) w).
Proof.
  intros I Hf Hno. apply (inv_clock e w); simpl; try done.
  - intros fn' Hh [?|Hin]; [by left|right; simpl].
    rewrite Hf in Hin. assert (fn' ≠ fn) by congruence. set_solver.
  - intros fn' Hin. assert (fn' ∈ fired w) as Hin' by (rewrite Hf; set_solver).
    split; [by left|]. by eapply (tm_fired _ _ _ (inv_tm _ _ I)).
Qed.

Lemma expire_inv e w l1 t l2 e' w' cb :
  Inv e w → fired w = l1 ++ FExpire t :: l2 →
  expire t e (setFired (l1 ++ l2) w) = (e', w', cb) → Inv e' w'.
Proof.
  intros I Hf. unfold expire.
  destruct (decide (contents (store e) !! Key (deref w t) = Some t)) as [Hk|Hk].
  2: { assert (Hno : Inv e (setFired (l1 ++ l2) w)) by (by eapply (inv_drop_fired e w)).
       rewrite (Get_law (store e)). change (deref (setFired _ w) t) with (deref w t).
       destruct (contents (store e) !! Key (deref w t)) as [t'|] eqn:Hk'.
       - rewrite (bool_decide_true (t' ≠ t)) by congruence. repeat case_bool_decide; naive_solver.
       - repeat case_bool_decide; naive_solver. }
  case_bool_decide as Hcl; [by rewrite (proj1 (inv_closed _ _ I Hcl)) in Hk|].
  rewrite (Get_law (store e)). change (deref (setFired _ w) t) with (deref w t).
  pose proof (Take_law (store e) (Key (deref w t))) as HT. rewrite Hk in HT |- *.
  destruct HT as (st & -> & Hst). rewrite bool_decide_false by congruence.
  intros [= <- <- <-].
  apply (inv_clear _ _ _ _ _ _ (setState TicketExpired) I Hk Hst); [|done].
  constructor; simpl; try done.
  - intros id x. split; [|naive_solver]. intros Hi. split; [done|]. destruct x as [d fn]; simpl.
    intros ->. eapply (tm_fired _ _ _ (inv_tm _ _ I) (FExpire t)); [rewrite Hf; set_solver|done].
  - intros fn. rewrite Hf. set_solver.
  - intros fn. rewrite Hf. set_solver.
Qed.

Lemma purge_inv e w l1 k t l2 e' w' :
  Inv e w → fired w = l1 ++ FPurge k t :: l2 →
  purge k t e (setFired (l1 ++ l2) w) = (e', w') → Inv e' w'.
Proof.
  intros I Hf. unfold purge. destruct (decide (retained e !! k = Some t)) as [Hk|Hk].
  2: { assert (Hno : Inv e (setFired (l1 ++ l2) w)) by (by eapply (inv_drop_fired e w)).
       case_match; [case_bool_decide|]; naive_solver. }
  rewrite Hk, bool_decide_true by done. intros [= <- <-]. pose proof (inv_tm _ _ I) as T.
  assert (Harm : ∀ fn, fn ≠ FPurge k t → armed w fn → armed (setFired (l1 ++ l2) w) fn).
  { intros fn Hne [?|Hin]; [by left|right; simpl]. rewrite Hf in Hin. set_solver. }
  destruct (tm_fired _ _ _ T (FPurge k t)) as (_&_&Hnt&_); [rewrite Hf; set_solver|].
  constructor; simpl; try apply I.
  - intros k' t' Hk'. destruct (inv_open _ _ I _ _ Hk') as (?&?&?&?). eauto 10.
  - intros k' t'. rewrite lookup_delete_Some. intros [Hne Hk'].
    destruct (inv_retained _ _ I _ _ Hk') as (?&?&?&?&?). split_and!; try done.
    apply Harm; [congruence|done].
  - intros Hc. destruct (inv_closed _ _ I Hc) as [? Hr]. by rewrite Hr in Hk.
  - constructor; [apply T| |apply T|].
    + intros id due fn Hi. destruct (tm_timers _ _ _ T _ _ _ Hi) as (?&?&Hh&?).
      split_and!; try done. destruct fn as [t'|k' t']; simpl in *; [done|].
      rewrite lookup_delete_ne; [done|]. intros <-. simplify_eq. by eapply Hnt.
    + intros fn Hin. apply (tm_fired _ _ _ T). rewrite Hf. simpl in Hin. set_solver.
Qed.

(** ** Closing *)

Lemma foldl_stop_frame l w :
  let w' := foldl (λ w t, stopTimer t w) w l in
  tickets w' = tickets w ∧ nextTicket w' = nextTicket w ∧ now w' = now w ∧
  nextTimer w' = nextTimer w ∧ fired w' = fired w.
Proof.
  revert w. induction l as [|t l IH]; intros w; simpl; [done|].
  destruct (IH (stopTimer t w)) as (->&->&->&->&->). apply stopTimer_frame.
Qed.

Lemma foldl_stop_timers l w id x :
  timers (foldl (λ w t, stopTimer t w) w l) !! id = Some x ↔
  timers w !! id = Some x ∧ ∀ t, t ∈ l → t_timer (deref w t) ≠ Some id.
Proof.
  revert w. induction l as [|t l IH]; intros w; simpl; [set_solver|].
  rewrite IH. setoid_rewrite deref_stopTimer. setoid_rewrite elem_of_cons.
  unfold stopTimer. destruct (t_timer (deref w t)) as [i|] eqn:Hi; simpl.
  - rewrite lookup_delete_Some. split; [naive_solver|].
    intros [? Hl]. split_and!; eauto. intros ->. by apply (Hl t); [left|].
  - naive_solver.
Qed.

(** After [Close] the engine holds nothing and no timer of it is armed. *)
Lemma Close_spec e w e' w' :
  Inv e w → state e ≠ engineClosed → Close e w = (e', w') →
  state e' = engineClosed ∧ contents (store e') = ∅ ∧ retained e' = ∅ ∧
  openCount e' = 0 ∧ destCounts e' = ∅ ∧ retain e' = retain e ∧ maxInFlight e' = maxInFlight e ∧
  timers w' = ∅ ∧ tickets w' = tickets w ∧ nextTicket w' = nextTicket w ∧ now w' = now w ∧
  nextTimer w' = nextTimer w ∧ fired w' = fired w.
Proof.
  intros I Hcl. unfold Close. rewrite bool_decide_false by done. simpl.
  destruct (Purge_law (store e)) as (st & l & -> & Hst & Hl). intros [= <- <-].
  set (l2 := (map_to_list (retained e)).*2).
  destruct (foldl_stop_frame l2 (foldl (λ w t, stopTimer t w) w l)) as (->&->&->&->&->).
  destruct (foldl_stop_frame l w) as (Ht&->&->&->&->). rewrite Ht.
  split_and!; try done. apply map_empty. intros id.
  destruct (timers _ !! id) as [[due fn]|] eqn:Hi; [exfalso|done].
  rewrite !foldl_stop_timers in Hi. destruct Hi as [[Hi Hl1] Hl2].
  unfold deref in Hl2. rewrite Ht in Hl2. fold (deref w) in Hl2.
  destruct (tm_timers _ _ _ (inv_tm _ _ I) _ _ _ Hi) as (_&_&Hh&Hown).
  destruct fn as [t|k t]; simpl in *.
  - apply (Hl1 t); [|by apply Hown]. rewrite Hl. apply list_elem_of_fmap.
    eexists (_, t). split; [done|]. by apply elem_of_map_to_list.
  - apply (Hl2 t); [|by apply Hown]. apply list_elem_of_fmap.
    eexists (_, t). split; [done|]. by apply elem_of_map_to_list.
Qed.

Lemma Close_inv e w e' w' : Inv e w → Close e w = (e', w') → Inv e' w'.
Proof.
  intros I Hc. destruct (decide (state e = engineClosed)) as [Hcl|Hcl].
  { unfold Close in Hc. rewrite bool_decide_true in Hc by done. naive_solver. }
  destruct (Close_spec _ _ _ _ I Hcl Hc)
    as (Hs&Hco&Hr&Ho&Hdc&Hre&Hm&Ht&Htk&Hn&Hnow&Hnt&Hfi).
  pose proof (inv_tm _ _ I) as T.
  assert (Hd : ∀ t, deref w' t = deref w t) by (intros; unfold deref; by rewrite Htk).
  constructor; rewrite ?Hco, ?Hr, ?Ho, ?Hdc; try done.
  - lia.
  - constructor; rewrite ?Ht, ?Htk, ?Hn, ?Hnow, ?Hnt, ?Hfi; try done; try apply T.
    + intros t id. rewrite Hd. apply (tm_ids _ _ _ T).
    + intros fn Hf. rewrite Hre. destruct (tm_fired _ _ _ T _ Hf) as (?&?&?&?).
      split_and!; try done.
      * destruct fn; simpl in *; by rewrite Hd.
      * intros k t ->. rewrite Hd. eauto.
Qed.

Lemma Drain_inv e w r e' : Inv e w → Drain e = (r, e') → Inv e' w.
Proof.
  intros I. unfold Drain. case_bool_decide; [naive_solver|]. intros [= <- <-].
  constructor; simpl; try apply I; try done.
Qed.

(** ** Reachable states *)

Lemma initial_inv e w : initial (e, w) → Inv e w.
Proof.
  intros (cfg & start & Hnew & Hst & Hw). simpl in *. subst w.
  unfold New in Hnew. repeat case_match; simplify_eq.
  all: constructor; simpl; rewrite ?Hst; try done; try lia.
  all: constructor; simpl; try done; first [by intros ? [? ?]|by intros ? ?%elem_of_nil].
Qed.

Lemma step_inv e w l e' w' : Inv e w → step (e, w) l (e', w') → Inv e' w'.
Proof.
  intros I Hs. inversion Hs; subst; clear Hs.
  all: eauto using Park_inv, Redeem_inv, Release_inv, tick_inv, fire_inv, Drain_inv, Close_inv.
  destruct fn; simpl in *; [eauto using expire_inv|].
  destruct (purge _ _ _ _) eqn:?; simplify_eq. eauto using purge_inv.
Qed.

Lemma steps_inv x tr y : steps x tr y → Inv x.1 x.2 → Inv y.1 y.2.
Proof.
  induction 1 as [|x tr [e w] l [e' w'] _ IH Hs]; [done|]. simpl in *. eauto using step_inv.
Qed.

Lemma reachable_inv e w : reachable (e, w) → Inv e w.
Proof.
  intros ([e0 w0] & tr & Hi & Hs). apply (steps_inv _ _ _ Hs). by apply initial_inv.
Qed.
End system.
