(* ===== verification/ValetSpec.v ===== *)
(** * pkg/valet: what the engine promises

    The abstract specification of the engine is a table from correlation keys to
    slots ([Spec]); [engine_refines_spec] shows that every step of the engine is a
    step of that table.  The other theorems are the guarantees of the package
    documentation (doc.go): in-flight accounting, one outcome per ticket, replay
    within the retention window, timeouts, drain and close. *)
From S2P Require Import Prelude Valet ValetInv.
Open Scope Z_scope.

(** ** The abstract specification: a correlation table *)
Module Spec.
(** What a key is bound to: a request in flight, or a redeemed one whose outcome
    is kept for replay. *)
Inductive slot := InFlight (t : nat) | Answered (t : nat).

Record table := mkTable { phase : engineState; slots : gmap string slot }.

Definition is_inflight (ks : string * slot) : Prop :=
  match ks.2 with InFlight _ => True | Answered _ => False end.
#[global] Instance is_inflight_dec ks : Decision (is_inflight ks).
Proof. destruct ks as [k []]; apply _. Defined.

Definition load (T : table) : Z := map_count is_inflight (slots T).

(** [limit], [retain] and [notify] are the engine's configuration. *)
Section spec.
Context (limit retain : Z) (notify : bool) {Msg : Type}.

Definition full (T : table) : Prop := 0 < limit ∧ limit ≤ load T.

Inductive step : table → label (Msg := Msg) → table → Prop :=
  | no_key_park T pr : pr_Key pr = ""%string → step T (LPark pr (inl ErrEmptyKey)) T
  | closed_park T pr : pr_Key pr ≠ ""%string → phase T = engineClosed →
      step T (LPark pr (inl ErrClosed)) T
  | attach T pr t : pr_Key pr ≠ ""%string → phase T ≠ engineClosed →
      slots T !! pr_Key pr = Some (InFlight t) → step T (LPark pr (inr (AttachedOpen, t))) T
  | replay T pr t : pr_Key pr ≠ ""%string → phase T ≠ engineClosed →
      slots T !! pr_Key pr = Some (Answered t) → step T (LPark pr (inr (ReplayedClosed, t))) T
  | draining_park T pr : pr_Key pr ≠ ""%string → phase T = engineDraining →
      slots T !! pr_Key pr = None → step T (LPark pr (inl ErrDraining)) T
  | overloaded_park T pr : pr_Key pr ≠ ""%string → phase T = engineRunning →
      slots T !! pr_Key pr = None → full T → step T (LPark pr (inl ErrOverloaded)) T
  | park T pr t : pr_Key pr ≠ ""%string → phase T = engineRunning →
      slots T !! pr_Key pr = None → ¬ full T →
      (∀ k, slots T !! k ≠ Some (InFlight t) ∧ slots T !! k ≠ Some (Answered t)) →
      step T (LPark pr (inr (Parked, t)))
        (mkTable (phase T) (<[pr_Key pr := InFlight t]> (slots T)))
  | no_key_redeem T k out : k = ""%string → step T (LRedeem k out (inl ErrEmptyKey)) T
  | closed_redeem T k out : k ≠ ""%string → phase T = engineClosed →
      step T (LRedeem k out (inl ErrClosed)) T
  | redeem T k out t : k ≠ ""%string → phase T ≠ engineClosed →
      slots T !! k = Some (InFlight t) →
      step T (LRedeem k out (inr t))
        (mkTable (phase T) (if 0 <? retain then <[k := Answered t]> (slots T)
                            else delete k (slots T)))
  | redeem_again T k out t : k ≠ ""%string → phase T ≠ engineClosed →
      slots T !! k = Some (Answered t) → step T (LRedeem k out (inl ErrAlreadyRedeemed)) T
  | redeem_unknown T k out : k ≠ ""%string → phase T ≠ engineClosed →
      slots T !! k = None → step T (LRedeem k out (inl ErrUnmatched)) T
  | no_key_release T k : k = ""%string → step T (LRelease k (Some ErrEmptyKey)) T
  | closed_release T k : k ≠ ""%string → phase T = engineClosed →
      step T (LRelease k (Some ErrClosed)) T
  | release T k t : k ≠ ""%string → phase T ≠ engineClosed →
      slots T !! k = Some (InFlight t) →
      step T (LRelease k None) (mkTable (phase T) (delete k (slots T)))
  | release_unknown T k : k ≠ ""%string → phase T ≠ engineClosed →
      (∀ t, slots T !! k ≠ Some (InFlight t)) → step T (LRelease k (Some ErrUnmatched)) T
  | timeout T k t : slots T !! k = Some (InFlight t) →
      step T (LRun (FExpire t) (if notify then Some t else None))
        (mkTable (phase T) (delete k (slots T)))
  | timeout_late T t : (∀ k, slots T !! k ≠ Some (InFlight t)) →
      step T (LRun (FExpire t) None) T
  | forget T k t : slots T !! k = Some (Answered t) →
      step T (LRun (FPurge k t) None) (mkTable (phase T) (delete k (slots T)))
  | forget_late T k t : slots T !! k ≠ Some (Answered t) →
      step T (LRun (FPurge k t) None) T
  | tick T d : step T (LTick d) T
  | fire T fn : step T (LFire fn) T
  | drain T : phase T ≠ engineClosed → step T (LDrain None) (mkTable engineDraining (slots T))
  | drain_closed T : phase T = engineClosed → step T (LDrain (Some ErrClosed)) T
  | close T : phase T ≠ engineClosed → step T LClose (mkTable engineClosed ∅)
  | close_again T : phase T = engineClosed → step T LClose T.

(** Executions of the table from the empty, running one. *)
Inductive run : list (label (Msg := Msg)) → table → Prop :=
  | run_nil : run [] (mkTable engineRunning ∅)
  | run_snoc tr T l T' : run tr T → step T l T' → run (tr ++ [l]) T'.
End spec.
End Spec.

Section properties.
Context {Msg S : Type} `{StoreLaws S}.
Abbreviation Engine := (Engine S).
Abbreviation World := (World Msg).
Abbreviation Ticket := (Ticket Msg).
Implicit Types (e : Engine) (w : World) (tk : Ticket) (k : string) (t : nat).

(** ** The refinement *)

(** The table an engine implements. *)
Definition abs e : Spec.table :=
  Spec.mkTable (state e)
    ((Spec.InFlight <$> contents (store e)) ∪ (Spec.Answered <$> retained e)).

Lemma abs_lookup e k :
  Spec.slots (abs e) !! k =
  match contents (store e) !! k with
  | Some t => Some (Spec.InFlight t)
  | None => Spec.Answered <$> retained e !! k
  end.
Proof.
  simpl. rewrite lookup_union, !lookup_fmap.
  destruct (contents (store e) !! k), (retained e !! k); done.
Qed.

Lemma abs_inflight e k t :
  Spec.slots (abs e) !! k = Some (Spec.InFlight t) ↔ contents (store e) !! k = Some t.
Proof. rewrite abs_lookup. destruct (contents (store e) !! k), (retained e !! k); naive_solver. Qed.

Lemma abs_answered e w k t : Inv e w →
  Spec.slots (abs e) !! k = Some (Spec.Answered t) ↔ retained e !! k = Some t.
Proof.
  intros I. rewrite abs_lookup.
  destruct (contents (store e) !! k) as [t'|] eqn:Hk, (retained e !! k) as [t''|] eqn:Hr;
    simpl; [|naive_solver..].
  destruct (inv_retained _ _ I _ _ Hr) as (_&_&_&?&_). congruence.
Qed.

Lemma abs_none e k :
  Spec.slots (abs e) !! k = None ↔ contents (store e) !! k = None ∧ retained e !! k = None.
Proof. rewrite abs_lookup. destruct (contents (store e) !! k), (retained e !! k); naive_solver. Qed.

Lemma abs_load e w : Inv e w → Spec.load (abs e) = openCount e.
Proof.
  intros I. rewrite (inv_count _ _ I). unfold Spec.load, map_count. f_equal.
  assert (filter Spec.is_inflight (Spec.slots (abs e)) = Spec.InFlight <$> contents (store e)) as ->.
  { apply map_eq. intros k. rewrite map_lookup_filter, abs_lookup, lookup_fmap.
    destruct (contents (store e) !! k), (retained e !! k); simpl; try done; by case_guard. }
  apply map_size_fmap.
Qed.

(** Equality with the table, by key. *)
Lemma table_eq e p (m : gmap string Spec.slot) :
  state e = p → (∀ k, Spec.slots (abs e) !! k = m !! k) → abs e = Spec.mkTable p m.
Proof. intros <- Hm. unfold abs in *. f_equal. by apply map_eq. Qed.


(** Gives the table of the final state of a step. *)
Local Ltac table_is p m :=
  match goal with
  | |- Spec.step _ _ _ _ _ (abs ?e1) => rewrite (table_eq e1 p m); [|done|]
  end.

Abbreviation spec_step e := (Spec.step (Msg := Msg) (maxInFlight e) (retain e) (onExpire e)).

Lemma not_closed_phases e :
  state e ≠ engineClosed → state e ≠ engineDraining → state e = engineRunning.
Proof. by destruct (state e). Qed.

Lemma Park_refines pr e w e' w' r :
  Inv e w → Park pr e w = (e', w', r) → spec_step e (abs e) (LPark pr r) (abs e').
Proof.
  intros I. unfold Park. rewrite (Get_law (store e)).
  case_bool_decide as Hne; [intros [= <- <- <-]; by constructor|].
  case_bool_decide as Hcl; [intros [= <- <- <-]; by constructor|].
  destruct (contents (store e) !! pr_Key pr) as [t|] eqn:Hk.
  { intros [= <- <- <-]. constructor; try done. by apply abs_inflight. }
  destruct (retained e !! pr_Key pr) as [t|] eqn:Hr.
  { intros [= <- <- <-]. constructor; try done. by apply (abs_answered e w). }
  assert (Spec.slots (abs e) !! pr_Key pr = None) as Hnone by (by apply abs_none).
  case_bool_decide as Hd; [intros [= <- <- <-]; by constructor|].
  pose proof (not_closed_phases _ Hcl Hd) as Hrun.
  destruct (_ && _) eqn:Hlim.
  { intros [= <- <- <-]. constructor; try done. unfold Spec.full.
    rewrite (abs_load e w I). apply andb_true_iff in Hlim. lia. }
  pose proof (Insert_law (store e) (pr_Key pr) (nextTicket w)) as HI. rewrite Hk in HI.
  destruct HI as (st & Hins & Hst). simpl. rewrite Hins. intros [= <- <- <-].
  table_is (state e) (<[pr_Key pr := Spec.InFlight (nextTicket w)]> (Spec.slots (abs e))).
  - constructor; try done.
    + unfold Spec.full. rewrite (abs_load e w I). apply andb_false_iff in Hlim. lia.
    + intros k'. rewrite abs_inflight, (abs_answered e w) by done. split; intros Hx.
      * destruct (inv_open _ _ I _ _ Hx) as (Hs&_).
        apply (tm_fresh _ _ _ (inv_tm _ _ I)) in Hs. lia.
      * destruct (inv_retained _ _ I _ _ Hx) as (Hs&_).
        apply (tm_fresh _ _ _ (inv_tm _ _ I)) in Hs. lia.
  - intros k'. rewrite abs_lookup; simpl. rewrite Hst, !lookup_insert.
    case_decide; [done|]. by rewrite <-abs_lookup.
Qed.

(** The table after an open ticket has left the store and nothing else changed. *)
Lemma abs_clear e w st k t tk :
  Inv e w → contents (store e) !! k = Some t →
  contents st = delete k (contents (store e)) →
  abs (decOpenLocked tk (setStore st e)) = Spec.mkTable (state e) (delete k (Spec.slots (abs e))).
Proof.
  intros I Hk Hst. apply table_eq; [done|]. intros k'. rewrite abs_lookup; simpl.
  rewrite Hst, !lookup_delete. case_decide; subst; [|by rewrite <-abs_lookup].
  destruct (retained e !! k') eqn:Hr; [|done]. destruct (inv_retained _ _ I _ _ Hr) as (_&_&_&?&_).
  congruence.
Qed.

Lemma Redeem_refines k out e w e' w' r :
  Inv e w → Redeem k out e w = (e', w', r) → spec_step e (abs e) (LRedeem k out r) (abs e').
Proof.
  intros I. unfold Redeem. pose proof (Take_law (store e) k) as HT.
  case_bool_decide as Hne; [intros [= <- <- <-]; by constructor|].
  case_bool_decide as Hcl; [intros [= <- <- <-]; by constructor|].
  destruct (contents (store e) !! k) as [t|] eqn:Hk.
  - destruct HT as (st & -> & Hst). simpl.
    destruct (inv_open _ _ I _ _ Hk) as (_&_&_&_).
    assert (Hs : Spec.slots (abs e) !! k = Some (Spec.InFlight t)) by (by apply abs_inflight).
    destruct (0 <? retain e) eqn:Hret; intros [= <- <- <-].
    + table_is (state e) (<[k := Spec.Answered t]> (Spec.slots (abs e))).
      * pose proof (Spec.redeem (maxInFlight e) (retain e) (onExpire e) (abs e) k out t Hne Hcl Hs) as X.
        by rewrite Hret in X.
      * intros k'. rewrite abs_lookup; simpl. rewrite Hst, lookup_delete, !lookup_insert.
        case_decide; [done|]. by rewrite <-abs_lookup.
    + rewrite (abs_clear e w st k t) by done.
      pose proof (Spec.redeem (maxInFlight e) (retain e) (onExpire e) (abs e) k out t Hne Hcl Hs) as X.
      by rewrite Hret in X.
  - rewrite HT. intros [= <- <- <-]. rewrite setStore_id.
    destruct (retained e !! k) as [t|] eqn:Hr; econstructor; try done.
    + by apply (abs_answered e w).
    + by apply abs_none.
Qed.

Lemma Release_refines k e w e' w' r :
  Inv e w → Release k e w = (e', w', r) → spec_step e (abs e) (LRelease k r) (abs e').
Proof.
  intros I. unfold Release. pose proof (Take_law (store e) k) as HT.
  case_bool_decide as Hne; [intros [= <- <- <-]; by constructor|].
  case_bool_decide as Hcl; [intros [= <- <- <-]; by constructor|].
  destruct (contents (store e) !! k) as [t|] eqn:Hk.
  - destruct HT as (st & -> & Hst). intros [= <- <- <-].
    rewrite (abs_clear e w st k t) by done. econstructor; try done. by apply abs_inflight.
  - rewrite HT. intros [= <- <- <-]. rewrite setStore_id. constructor; try done.
    intros t. rewrite abs_inflight. congruence.
Qed.

Lemma expire_refines e w l1 t l2 e' w' cb :
  Inv e w → fired w = l1 ++ FExpire t :: l2 →
  expire t e (setFired (l1 ++ l2) w) = (e', w', cb) →
  spec_step e (abs e) (LRun (FExpire t) cb) (abs e').
Proof.
  intros I Hf. unfold expire. change (deref (setFired _ w) t) with (deref w t).
  destruct (decide (contents (store e) !! Key (deref w t) = Some t)) as [Hk|Hk].
  - case_bool_decide as Hcl; [by rewrite (proj1 (inv_closed _ _ I Hcl)) in Hk|].
    rewrite (Get_law (store e)). pose proof (Take_law (store e) (Key (deref w t))) as HT.
    rewrite Hk in HT |- *. destruct HT as (st & -> & Hst).
    rewrite bool_decide_false by congruence. intros [= <- <- <-].
    rewrite (abs_clear e w st (Key (deref w t)) t) by done. constructor. by apply abs_inflight.
  - intros Hex. assert (e' = e ∧ cb = None) as [-> ->].
    { rewrite (Get_law (store e)) in Hex.
      destruct (contents (store e) !! Key (deref w t)) as [t'|] eqn:Hk'.
      - rewrite (bool_decide_true (t' ≠ t)) in Hex by congruence. case_bool_decide; naive_solver.
      - case_bool_decide; naive_solver. }
    constructor. intros k'. rewrite abs_inflight. intros Hk'.
    destruct (inv_open _ _ I _ _ Hk') as (_&<-&_). done.
Qed.

Lemma purge_refines e w k t e' w' :
  Inv e w → purge k t e w = (e', w') → spec_step e (abs e) (LRun (FPurge k t) None) (abs e').
Proof.
  intros I. unfold purge. destruct (decide (retained e !! k = Some t)) as [Hk|Hk].
  - rewrite Hk, bool_decide_true by done. intros [= <- <-].
    table_is (state e) (delete k (Spec.slots (abs e))).
    + constructor. by apply (abs_answered e w).
    + intros k'. rewrite abs_lookup; simpl. rewrite !lookup_delete.
      case_decide; subst; [|by rewrite <-abs_lookup].
      destruct (inv_retained _ _ I _ _ Hk) as (_&_&_&->&_). done.
  - intros Hp. assert (e' = e) as -> by (case_match; [case_bool_decide|]; naive_solver).
    constructor. rewrite (abs_answered e w) by done. done.
Qed.

Lemma Close_refines e w e' w' :
  Inv e w → Close e w = (e', w') → spec_step e (abs e) LClose (abs e').
Proof.
  intros I Hc. destruct (decide (state e = engineClosed)) as [Hcl|Hcl].
  - unfold Close in Hc. rewrite bool_decide_true in Hc by done. simplify_eq. by constructor.
  - destruct (Close_spec _ _ _ _ I Hcl Hc) as (Hs&Hco&Hr&_).
    rewrite (table_eq e' engineClosed ∅); [by constructor|done|].
    intros k. by rewrite abs_lookup, Hco, Hr.
Qed.

Lemma step_refines e w l e' w' :
  Inv e w → step (e, w) l (e', w') → spec_step e (abs e) l (abs e').
Proof.
  intros I Hs. inversion Hs; subst; clear Hs.
  all: eauto using Park_refines, Redeem_refines, Release_refines, Close_refines, Spec.tick, Spec.fire.
  - destruct fn; simpl in *; [eauto using expire_refines|].
    destruct (purge _ _ _ _) eqn:Hp; simplify_eq.
    assert (spec_step e (abs e) (LRun (FPurge key t) None) (abs e')) by
      (destruct (purge key t e w) as [e1 w1] eqn:Hp1; eapply (purge_refines e w); [done|];
       unfold purge in *; by repeat case_match; simplify_eq). done.
  - unfold Drain in *. case_bool_decide; simplify_eq; by constructor.
Qed.

(** No step changes the configuration. *)
Lemma step_config e w l e' w' :
  step (e, w) l (e', w') →
  maxInFlight e' = maxInFlight e ∧ retain e' = retain e ∧ onExpire e' = onExpire e ∧
  maxTTL e' = maxTTL e ∧ defaultTTL e' = defaultTTL e.
Proof.
  intros Hs. inversion Hs; subst; clear Hs;
    unfold Park, Redeem, Release, runTimer, expire, purge, Drain, Close in *; simpl in *;
    repeat (case_match; simplify_eq/=); done.
Qed.

(** C1: Refinement: every execution of the engine from a fresh engine over an empty
    store -- any interleaving of Park, Redeem, Release, Drain, Close, the passage of
    time, timer firings and timer goroutines -- is an execution of the correlation
    table [Spec]: same results, same callbacks, and the same bindings at the end. *)
Theorem engine_refines_spec e w tr e' w' :
  initial (e, w) → steps (e, w) tr (e', w') →
  Spec.run (Msg := Msg) (maxInFlight e) (retain e) (onExpire e) tr (abs e').
Proof.
  intros Hi Hs. cut (Spec.run (Msg := Msg) (maxInFlight e) (retain e) (onExpire e) tr (abs e') ∧
    Inv e' w' ∧ maxInFlight e' = maxInFlight e ∧ retain e' = retain e ∧ onExpire e' = onExpire e);
    [naive_solver|].
  remember (e, w) as x eqn:Hx. remember (e', w') as y eqn:Hy. revert e' w' Hy.
  induction Hs as [x|x tr [e1 w1] l z Hs IH Hl]; intros e' w' ->; simplify_eq.
  - split_and!; try done; [|by apply initial_inv]. destruct Hi as (cfg & start & Hnew & Hst & _).
    simpl in Hnew. rewrite (table_eq e engineRunning ∅); [constructor| |].
    + unfold New in Hnew. by repeat case_match; simplify_eq.
    + intros k. rewrite abs_lookup.
      assert (contents (store e) = ∅ ∧ retained e = ∅) as [-> ->]; [|done].
      unfold New in Hnew. by repeat case_match; simplify_eq.
  - destruct (IH eq_refl Hi e1 w1 eq_refl) as (Hrun & I & Hm & Hr & Ho).
    destruct (step_config _ _ _ _ _ Hl) as (Hm'&Hr'&Ho'&_).
    split_and!; [|by eapply step_inv|congruence..].
    econstructor; [exact Hrun|]. rewrite <-Hm, <-Hr, <-Ho. by eapply step_refines.
Qed.

(** C2: In-flight accounting: in every reachable state the open count is the number of
    tickets in the store, the count reported for a destination is the number of open
    tickets routed there, and the in-flight bound is never exceeded. *)
Theorem in_flight_accounting e w :
  reachable (e, w) →
  InFlight e = Z.of_nat (size (contents (store e))) ∧
  (∀ d, InFlightTo d e = map_count (λ kt, Destination (deref w kt.2) = d) (contents (store e))) ∧
  (0 < maxInFlight e → InFlight e ≤ maxInFlight e).
Proof.
  intros I%reachable_inv. split_and!; apply I.
Qed.

(** ** One outcome per ticket *)

(** The labels that hand ticket [t] to the caller as finished: a successful redemption
    and an expiry callback. *)
Definition resolves t (l : label (Msg := Msg)) : Prop :=
  match l with
  | LRedeem _ _ (inr t') => t' = t
  | LRun (FExpire _) (Some t') => t' = t
  | _ => False
  end.

#[global] Instance resolves_dec t l : Decision (resolves t l).
Proof. destruct l as [| ? ? []| | | |[] []| |]; simpl; apply _. Defined.

(** What an operation does to the ticket heap: nothing, allocate a ticket, or change
    one open ticket, keeping its static fields. *)
Inductive ticket_effect e w w' : Prop :=
  | te_none : tickets w' = tickets w → ticket_effect e w w'
  | te_new tk : tickets w' = <[nextTicket w := tk]> (tickets w) → ticket_effect e w w'
  | te_open k t f : contents (store e) !! k = Some t → (∀ tk, same_static tk (f tk)) →
      tickets w' = alter f t (tickets w) → ticket_effect e w w'.

Lemma Park_effect pr e w e' w' r : Park pr e w = (e', w', r) → ticket_effect e w w'.
Proof.
  unfold Park. repeat (case_match; simplify_eq/=); try (intros; simplify_eq; by apply te_none).
  all: intros; simplify_eq/=; eapply te_new; simpl; rewrite ?alter_insert_eq; done.
Qed.

Lemma Redeem_effect k out e w e' w' r : Redeem k out e w = (e', w', r) → ticket_effect e w w'.
Proof.
  unfold Redeem. pose proof (Take_law (store e) k) as HT.
  repeat case_bool_decide; try (intros; simplify_eq; by apply te_none).
  destruct (contents (store e) !! k) as [t|] eqn:Hk; [|rewrite HT; intros; simplify_eq; by apply te_none].
  destruct HT as (st & -> & _). destruct (stopTimer_frame t w) as (Hfr&_).
  case_match; intros [= <- <- <-]; simpl.
  - eapply te_open; simpl; [done| |by rewrite Hfr, alter_alter_eq]; done.
  - eapply te_open; simpl; [done| |by rewrite Hfr]; done.
Qed.

Lemma Release_effect k e w e' w' r : Release k e w = (e', w', r) → ticket_effect e w w'.
Proof.
  unfold Release. pose proof (Take_law (store e) k) as HT.
  repeat case_bool_decide; try (intros; simplify_eq; by apply te_none).
  destruct (contents (store e) !! k) as [t|] eqn:Hk; [|rewrite HT; intros; simplify_eq; by apply te_none].
  destruct HT as (st & -> & _). destruct (stopTimer_frame t w) as (Hfr&_).
  intros [= <- <- <-]. eapply te_open; simpl; [done| |by rewrite Hfr]; done.
Qed.

Lemma expire_effect t l e w e' w' cb :
  expire t e (setFired l w) = (e', w', cb) → ticket_effect e w w'.
Proof.
  unfold expire. rewrite (Get_law (store e)). change (deref (setFired _ w) t) with (deref w t).
  pose proof (Take_law (store e) (Key (deref w t))) as HT.
  destruct (contents (store e) !! Key (deref w t)) as [t'|] eqn:Hk;
    repeat case_bool_decide; try (intros; simplify_eq; by apply te_none).
  subst t'. destruct HT as (st & -> & _).
  intros [= <- <- <-]. eapply te_open; [done| |reflexivity]; done.
Qed.

Lemma step_effect e w l e' w' : step (e, w) l (e', w') → ticket_effect e w w'.
Proof.
  intros Hs. inversion Hs; subst; clear Hs;
    eauto using Park_effect, Redeem_effect, Release_effect, te_none.
  - destruct fn; simpl in *; [eauto using expire_effect|].
    apply te_none. unfold purge in *. by repeat case_match; simplify_eq.
  - apply te_none. unfold Close in *. repeat case_match; simplify_eq; try done.
    by rewrite !(proj1 (foldl_stop_frame _ _)).
Qed.

(** A ticket keeps its static fields, and once it has left the open state it never
    changes again. *)
Lemma step_ticket e w l e' w' t :
  Inv e w → step (e, w) l (e', w') → is_Some (tickets w !! t) →
  is_Some (tickets w' !! t) ∧ same_static (deref w t) (deref w' t) ∧
  (t_state (deref w t) ≠ TicketOpen → deref w' t = deref w t).
Proof.
  intros I Hs Ht. change (deref w' t) with (default zeroTicket (tickets w' !! t)).
  destruct (step_effect _ _ _ _ _ Hs) as [->|tk ->|k t' f Hk Hf ->]; [done| |].
  - rewrite lookup_insert_ne; [done|]. apply (tm_fresh _ _ _ (inv_tm _ _ I)) in Ht. lia.
  - destruct (inv_open _ _ I _ _ Hk) as (Hs'&_&Hop&_).
    change (default zeroTicket (alter f t' (tickets w) !! t)) with (deref (updTicket f t' w) t).
    rewrite deref_updTicket by done. split; [by apply (is_Some_updTicket f t' t w)|].
    case_decide; subst; [|done]. split; [apply Hf|done].
Qed.

(** ** The successful branches *)

Lemma Redeem_ok k out e w e' w' t :
  Inv e w → Redeem k out e w = (e', w', inr t) →
  contents (store e) !! k = Some t ∧
  contents (store e') = delete k (contents (store e)) ∧ state e' = state e ∧
  retained e' = (if 0 <? retain e then <[k := t]> (retained e) else retained e) ∧
  now w' = now w ∧
  ∃ id, deref w' t = setTimer id (setState TicketClosed (setOutcome out (now w) (deref w t))).
Proof.
  intros I. unfold Redeem. pose proof (Take_law (store e) k) as HT.
  repeat case_bool_decide; try done.
  destruct (contents (store e) !! k) as [t'|] eqn:Hk; [|rewrite HT; by case_match].
  destruct HT as (st & -> & Hst). destruct (inv_open _ _ I _ _ Hk) as (Hsome&_).
  destruct (stopTimer_frame t' w) as (Hfr&_&Hnow&_).
  set (f := λ tk, setState _ _).
  assert (Hs : is_Some (tickets (stopTimer t' w) !! t')) by (by rewrite Hfr).
  assert (Hd : deref (updTicket f t' (stopTimer t' w)) t' =
    setState TicketClosed (setOutcome out (now w) (deref w t'))).
  { rewrite deref_updTicket, decide_True by done. unfold f. by rewrite deref_stopTimer, Hnow. }
  simpl. destruct (0 <? retain e); intros [= <- <- <-]; split_and!; try done.
  - eexists. set (w3 := mkWorld _ _ _ _ _ _).
    rewrite (deref_updTicket _ _ _ w3), decide_True; [|done|by apply (is_Some_updTicket f)].
    change (deref w3 t') with (deref (updTicket f t' (stopTimer t' w)) t'). by rewrite Hd.
  - exists (t_timer (deref w t')). rewrite Hd. done.
Qed.

Lemma expire_ok e w l t e' w' cb :
  Inv e w → expire t e (setFired l w) = (e', w', Some cb) →
  cb = t ∧ contents (store e) !! Key (deref w t) = Some t ∧
  contents (store e') = delete (Key (deref w t)) (contents (store e)) ∧
  retained e' = retained e ∧ state e' = state e ∧
  deref w' t = setState TicketExpired (deref w t).
Proof.
  intros I. unfold expire. rewrite (Get_law (store e)).
  change (deref (setFired _ w) t) with (deref w t).
  pose proof (Take_law (store e) (Key (deref w t))) as HT.
  destruct (contents (store e) !! Key (deref w t)) as [t'|] eqn:Hk;
    repeat case_bool_decide; try done.
  subst t'. destruct HT as (st & -> & Hst). destruct (inv_open _ _ I _ _ Hk) as (Hsome&_).
  destruct (onExpire e); intros [= <- <- <-]; split_and!; try done.
  by rewrite deref_updTicket, decide_True.
Qed.

(** A resolving step takes an open ticket out of the open state. *)
Lemma resolves_open e w l e' w' t :
  Inv e w → step (e, w) l (e', w') → resolves t l →
  t_state (deref w t) = TicketOpen ∧ is_Some (tickets w !! t) ∧ t_state (deref w' t) ≠ TicketOpen.
Proof.
  intros I Hs Hl. inversion Hs; subst; clear Hs; simpl in Hl; try done.
  - destruct r as [|t']; [done|]. subst t'.
    match goal with X : Redeem _ _ _ _ = _ |- _ =>
      destruct (Redeem_ok _ _ _ _ _ _ _ I X) as (Hk&_&_&_&_&id&->) end.
    destruct (inv_open _ _ I _ _ Hk) as (?&_&?&_). done.
  - destruct fn as [t'|]; [|done]. destruct cb as [t2|]; [|done]. simpl in *.
    match goal with X : expire _ _ _ = _ |- _ =>
      destruct (expire_ok _ _ _ _ _ _ _ I X) as (->&Hk&_&_&_&Hd) end. subst t'.
    rewrite Hd. destruct (inv_open _ _ I _ _ Hk) as (?&_&?&_). done.
Qed.

(** C5: Exactly one outcome: in any execution from a fresh engine, a ticket is handed
    back at most once -- a successful redemption excludes the expiry callback, the
    callback excludes a later match, and neither happens twice. *)
Theorem one_outcome_per_ticket x tr y t :
  initial x → steps x tr y → (length (filter (resolves t) tr) ≤ 1)%nat.
Proof.
  intros Hi Hs. assert (I0 : Inv x.1 x.2) by (destruct x; by apply initial_inv).
  cut ((length (filter (resolves t) tr) ≤ 1)%nat ∧
    (length (filter (resolves t) tr) = 0%nat ∨
     is_Some (tickets y.2 !! t) ∧ t_state (deref y.2 t) ≠ TicketOpen)); [naive_solver|].
  induction Hs as [x|x tr [e w] l [e' w'] Hs IH Hl]; [simpl; auto|].
  specialize (IH Hi I0). pose proof (steps_inv _ _ _ Hs I0) as I. simpl in *.
  rewrite filter_app, length_app, filter_cons, filter_nil.
  case_decide as Hr; simpl.
  - destruct (resolves_open _ _ _ _ _ _ I Hl Hr) as (Hop&Hsome&Hn).
    destruct IH as [_ [Hz|[_ ?]]]; [|done]. split; [lia|]. right. split; [|done].
    by apply (step_ticket _ _ _ _ _ _ I Hl Hsome).
  - rewrite Nat.add_0_r. destruct IH as [? [?|[Hsome Hn]]]; split; auto.
    right. destruct (step_ticket _ _ _ _ _ _ I Hl Hsome) as (?&_&Hk). by rewrite Hk.
Qed.

(** ** Idempotent replay *)

Lemma step_now e w l e' w' : step (e, w) l (e', w') → now w ≤ now w'.
Proof.
  intros Hs. inversion Hs; subst; clear Hs; simpl in *; try lia.
  - unfold Park in *. repeat (case_match; simplify_eq/=); lia.
  - unfold Redeem in *. repeat (case_match; simplify_eq/=); try lia;
      match goal with |- context [stopTimer ?t ?w] => destruct (stopTimer_frame t w) as (_&_&->&_) end; lia.
  - unfold Release in *. repeat (case_match; simplify_eq/=); try lia.
    match goal with |- context [stopTimer ?t ?w] => destruct (stopTimer_frame t w) as (_&_&->&_) end; lia.
  - unfold runTimer, expire, purge in *. repeat (case_match; simplify_eq/=); lia.
  - unfold Close in *. repeat (case_match; simplify_eq/=); [lia|].
    destruct (foldl_stop_frame (map_to_list (retained e)).*2
      (foldl (λ w t, stopTimer t w) w l)) as (_&_&->&_).
    destruct (foldl_stop_frame l w) as (_&_&->&_). lia.
Qed.

Lemma step_closed e w l e' w' :
  step (e, w) l (e', w') → state e = engineClosed → state e' = engineClosed.
Proof.
  intros Hs. inversion Hs; subst; clear Hs; intros Hc; try done;
    unfold Park, Redeem, Release, runTimer, expire, purge, Drain, Close in *;
    repeat (case_match; simplify_eq/=); try done;
    by match goal with X : bool_decide _ = false |- _ => apply bool_decide_eq_false in X end.
Qed.

(** A retained outcome leaves the table only by [Close] or once its window is over. *)
Lemma step_retained e w l e' w' k t :
  Inv e w → step (e, w) l (e', w') → retained e !! k = Some t →
  retained e' !! k = Some t ∨ state e' = engineClosed ∨ ClosedAt (deref w t) + retain e ≤ now w.
Proof.
  intros I Hs Hr. destruct (inv_retained _ _ I _ _ Hr) as (_&_&_&Hk&_).
  inversion Hs; subst; clear Hs; auto.
  - left. unfold Park in *. by repeat (case_match; simplify_eq/=).
  - left. match goal with X : Redeem ?k0 _ _ _ = _ |- _ => rename X into Hp; rename k0 into k1 end.
    unfold Redeem in Hp. pose proof (Take_law (store e) k1) as HT.
    destruct (decide (k1 = k)) as [->|Hne].
    + rewrite Hk in HT. rewrite HT in Hp. by repeat (case_match; simplify_eq/=).
    + repeat (case_match; simplify_eq/=); try done. by rewrite lookup_insert_ne.
  - left. unfold Release in *. by repeat (case_match; simplify_eq/=).
  - match goal with X : fired w = _ ++ ?fn0 :: _ |- _ => rename X into Hf; rename fn0 into fn1 end.
    destruct fn1 as [t1|k1 t1]; simpl in *.
    + left. unfold expire in *. by repeat (case_match; simplify_eq/=).
    + destruct (tm_fired _ _ _ (inv_tm _ _ I) (FPurge k1 t1)) as (Hdue&_);
        [rewrite Hf; set_solver|]. simpl in Hdue.
      unfold purge in *. destruct (retained e !! k1) as [t2|] eqn:Hk1; [|naive_solver].
      case_bool_decide; simplify_eq/=; [|auto].
      destruct (decide (k1 = k)) as [->|]; [right; right; congruence|left].
      by rewrite lookup_delete_ne.
  - left. unfold Drain in *. by repeat (case_match; simplify_eq/=).
  - unfold Close in *. repeat (case_match; simplify_eq/=); auto.
Qed.

Lemma steps_retained (x : Engine * World) tr y k t :
  steps x tr y → Inv x.1 x.2 → retained x.1 !! k = Some t → state y.1 ≠ engineClosed →
  now y.2 < ClosedAt (deref x.2 t) + retain x.1 →
  retained y.1 !! k = Some t ∧ deref y.2 t = deref x.2 t ∧ retain y.1 = retain x.1.
Proof.
  intros Hs I Hr. induction Hs as [x|x tr [e w] l [e' w'] Hs IH Hl]; [done|]. simpl in *.
  intros Hcl Hnow. pose proof (step_now _ _ _ _ _ Hl).
  pose proof (steps_inv _ _ _ Hs I) as I'. simpl in I'.
  destruct IH as (Hr'&Hd&Hre); try done; [eauto using step_closed|lia|].
  destruct (inv_retained _ _ I' _ _ Hr') as (Hsome&_&Hst&_).
  destruct (step_ticket _ _ _ _ _ _ I' Hl Hsome) as (_&_&Hk).
  destruct (step_config _ _ _ _ _ Hl) as (_&Hrc&_).
  destruct (step_retained _ _ _ _ _ _ _ I' Hl Hr') as [?|[?|Hlate]].
  - split_and!; [done| |congruence]. rewrite Hk; [done|]. by rewrite Hst.
  - done.
  - rewrite Hd, Hre in Hlate. lia.
Qed.

(** C7: Idempotent replay: once a key has been redeemed at [ClosedAt], then until
    [ClosedAt + RetainAfterClose], whatever else the engine does short of [Close],
    parking the key again returns the same ticket with the outcome kept at redemption
    and changes nothing. *)
Theorem replay_window e w tr e' w' k t pr :
  reachable (e, w) → retained e !! k = Some t → k ≠ ""%string →
  steps (e, w) tr (e', w') → state e' ≠ engineClosed →
  now w' < ClosedAt (deref w t) + retain e → pr_Key pr = k →
  Park pr e' w' = (e', w', inr (ReplayedClosed, t)) ∧ Outcome (deref w' t) = Outcome (deref w t).
Proof.
  intros Hre Hr Hne Hs Hcl Hnow Hk. apply reachable_inv in Hre as I.
  destruct (steps_retained _ _ _ k t Hs I Hr Hcl Hnow) as (Hr'&Hd&_). simpl in *.
  rewrite Hd. split; [|done]. pose proof (steps_inv _ _ _ Hs I) as I'.
  destruct (inv_retained _ _ I' _ _ Hr') as (_&_&_&Hno&_). simpl in Hno.
  unfold Park. rewrite (Get_law (store e')), Hk, Hno, Hr'.
  by rewrite !bool_decide_false by done.
Qed.

(** ** Timeouts *)

(** Timeout surfacing: an expiry callback is only ever made at or after the
    ticket's deadline, for a ticket that was still open; the ticket is then expired
    and its key is free, so a late reply is reported as unmatched. *)
Theorem expiry_due_and_final e w fn t e' w' out :
  reachable (e, w) → step (e, w) (LRun fn (Some t)) (e', w') →
  Key (deref w t) ≠ ""%string →
  Deadline (deref w t) ≤ now w ∧ t_state (deref w t) = TicketOpen ∧
  t_state (deref w' t) = TicketExpired ∧ Request (deref w' t) = Request (deref w t) ∧
  Redeem (Key (deref w t)) out e' w' = (e', w', inl ErrUnmatched).
Proof.
  intros I%reachable_inv Hs Hne. inversion Hs as [| | | | |? ? l1 ? l2 ? ? ? Hf Hrun| |]; subst.
  destruct fn as [t'|]; simpl in Hrun; [|done].
  destruct (expire_ok _ _ _ _ _ _ _ I Hrun) as (->&Hk&Hco&Hre&Hst&Hd).
  destruct (inv_open _ _ I _ _ Hk) as (_&_&Hop&_).
  destruct (tm_fired _ _ _ (inv_tm _ _ I) (FExpire t')) as (Hdue&_); [rewrite Hf; set_solver|].
  rewrite Hd. split_and!; try done.
  assert (Hcl : state e' ≠ engineClosed).
  { rewrite Hst. intros Hcl. by rewrite (proj1 (inv_closed _ _ I Hcl)) in Hk. }
  unfold Redeem. pose proof (Take_law (store e') (Key (deref w t'))) as HT.
  rewrite !bool_decide_false by done.
  rewrite Hco, lookup_delete_eq in HT. rewrite HT, setStore_id, Hre.
  destruct (retained e !! Key (deref w t')) eqn:Hr; [|done].
  destruct (inv_retained _ _ I _ _ Hr) as (_&_&_&?&_). congruence.
Qed.

Lemma steps_config (x : Engine * World) tr y :
  steps x tr y →
  maxInFlight y.1 = maxInFlight x.1 ∧ retain y.1 = retain x.1 ∧ onExpire y.1 = onExpire x.1 ∧
  maxTTL y.1 = maxTTL x.1 ∧ defaultTTL y.1 = defaultTTL x.1.
Proof.
  induction 1 as [|x tr [e w] l [e' w'] Hs IH Hl]; [done|]. simpl in *.
  destruct (step_config _ _ _ _ _ Hl) as (->&->&->&->&->). done.
Qed.

(** What [New] guarantees of the configuration. *)
Lemma reachable_config e w :
  reachable (e, w) →
  0 < defaultTTL e ∧ 0 ≤ maxInFlight e ∧ 0 ≤ retain e ∧ (maxTTL e = 0 ∨ defaultTTL e ≤ maxTTL e).
Proof.
  intros ([e0 w0] & tr & (cfg & start & Hnew & _) & Hs).
  destruct (steps_config _ _ _ Hs) as (?&?&_&?&?). simpl in *.
  unfold New, DefaultTTL, DefaultRetainAfterClose in Hnew.
  repeat (case_match; simplify_eq/=); lia.
Qed.

Lemma Park_ok pr e w e' w' t :
  Inv e w → Park pr e w = (e', w', inr (Parked, t)) →
  t = nextTicket w ∧ contents (store e) !! pr_Key pr = None ∧ retained e !! pr_Key pr = None ∧
  pr_Key pr ≠ ""%string ∧
  contents (store e') = <[pr_Key pr := t]> (contents (store e)) ∧ retained e' = retained e ∧
  state e = engineRunning ∧ state e' = state e ∧ openCount e' = openCount e + 1 ∧ now w' = now w ∧
  ∃ id, deref w' t = setTimer id (mkTicket (pr_Key pr) (pr_Destination pr) (pr_ReturnCtx pr)
    (pr_Request pr) None (now w) (now w + effectiveTTL e pr) 0 TicketOpen None).
Proof.
  intros I. unfold Park. rewrite (Get_law (store e)).
  case_bool_decide; [done|]. case_bool_decide; [done|].
  destruct (contents (store e) !! pr_Key pr) eqn:Hk; [done|].
  destruct (retained e !! pr_Key pr) eqn:Hr; [done|]. case_bool_decide; [done|].
  destruct (_ && _); [done|]. simpl.
  pose proof (Insert_law (store e) (pr_Key pr) (nextTicket w)) as HI. rewrite Hk in HI.
  destruct HI as (st & -> & Hst). intros [= <- <- <-]. split_and!; try done.
  - by apply not_closed_phases.
  - eexists. unfold deref at 1; simpl. rewrite alter_insert_eq, lookup_insert_eq. done.
Qed.

(** A newly parked ticket records the request as given, is open, and has a deadline
    in the future, no later than the TTL asked for and never beyond [MaxTTL]. *)
Theorem parked_ticket e w pr e' w' t :
  reachable (e, w) → Park pr e w = (e', w', inr (Parked, t)) →
  let tk := deref w' t in
  Key tk = pr_Key pr ∧ Destination tk = pr_Destination pr ∧ Request tk = pr_Request pr ∧
  ReturnCtx tk = pr_ReturnCtx pr ∧ t_state tk = TicketOpen ∧ ParkedAt tk = now w ∧
  now w < Deadline tk ∧ (0 < pr_TTL pr → Deadline tk ≤ now w + pr_TTL pr) ∧
  (0 < maxTTL e → Deadline tk ≤ now w + maxTTL e).
Proof.
  intros Hre Hp. destruct (reachable_config _ _ Hre) as (Hd&_&_&Hm).
  apply reachable_inv in Hre as I.
  destruct (Park_ok _ _ _ _ _ _ I Hp) as (_&_&_&_&_&_&_&_&_&_&id&->). simpl.
  assert (0 < effectiveTTL e pr ∧ (0 < pr_TTL pr → effectiveTTL e pr ≤ pr_TTL pr) ∧
    (0 < maxTTL e → effectiveTTL e pr ≤ maxTTL e)) as (?&?&?).
  { unfold effectiveTTL.
    destruct (Z.leb_spec (pr_TTL pr) 0), (Z.ltb_spec 0 (maxTTL e)); simpl;
      repeat match goal with |- context [?a <? ?b] => destruct (Z.ltb_spec a b) end; simpl; lia. }
  split_and!; try done; lia.
Qed.

(** ** Undoing a park *)

Lemma Release_ok k e w t :
  Inv e w → contents (store e) !! k = Some t → k ≠ ""%string →
  ∃ e' w', Release k e w = (e', w', None) ∧
    contents (store e') = delete k (contents (store e)) ∧ retained e' = retained e ∧
    state e' = state e ∧ maxInFlight e' = maxInFlight e ∧ openCount e' = openCount e - 1.
Proof.
  intros I Hk Hne. unfold Release. pose proof (Take_law (store e) k) as HT. rewrite Hk in HT.
  destruct HT as (st & -> & Hst). rewrite !bool_decide_false; [by eexists _, _|..|done].
  intros Hc. by rewrite (proj1 (inv_closed _ _ I Hc)) in Hk.
Qed.

(** Parking a free key on a running engine below its bound creates a ticket. *)
Lemma Park_fresh pr e w :
  pr_Key pr ≠ ""%string → state e = engineRunning →
  contents (store e) !! pr_Key pr = None → retained e !! pr_Key pr = None →
  (0 < maxInFlight e → openCount e < maxInFlight e) →
  ∃ e' w', Park pr e w = (e', w', inr (Parked, nextTicket w)).
Proof.
  intros Hne Hrun Hk Hr Hlim. unfold Park.
  rewrite (Get_law (store e)), Hk, Hr, Hrun, !bool_decide_false by done. simpl.
  assert ((0 <? maxInFlight e) && (maxInFlight e <=? openCount e) = false) as ->.
  { apply andb_false_iff. destruct (Z.ltb_spec 0 (maxInFlight e)); [right; lia|by left]. }
  pose proof (Insert_law (store e) (pr_Key pr) (nextTicket w)) as HI. rewrite Hk in HI.
  destruct HI as (st & -> & _). by eexists _, _.
Qed.

(** Undoing a park: after [Park] created a ticket whose request could not be sent,
    [Release] succeeds and restores the open tickets, their number and the load of
    every destination, and a retry of the same key parks afresh -- it is never
    absorbed as a duplicate of the request that was not sent. *)
Theorem release_then_retry_parks e w pr e1 w1 t :
  reachable (e, w) → Park pr e w = (e1, w1, inr (Parked, t)) →
  ∃ e2 w2, Release (pr_Key pr) e1 w1 = (e2, w2, None) ∧
    contents (store e2) = contents (store e) ∧ openCount e2 = openCount e ∧
    (∀ d, InFlightTo d e2 = InFlightTo d e) ∧ retained e2 = retained e ∧
    ∀ pr', pr_Key pr' = pr_Key pr → ∃ e3 w3 t',
      Park pr' e2 w2 = (e3, w3, inr (Parked, t')) ∧ t' ≠ t.
Proof.
  intros Hre Hp. apply reachable_inv in Hre as I.
  pose proof (Park_inv _ _ _ _ _ _ I Hp) as I1.
  assert (Hst1 : step (e, w) (LPark pr (inr (Parked, t))) (e1, w1)) by (by constructor).
  destruct (step_config _ _ _ _ _ Hst1) as (Hmax&_).
  destruct (Park_ok _ _ _ _ _ _ I Hp) as (Ht&Hk&Hr&Hne&Hco&Hre1&Hrun&Hs1&Ho1&_&_).
  destruct (Release_ok (pr_Key pr) e1 w1 t I1) as (e2&w2&Hrel&Hco2&Hre2&Hs2&Hm2&Ho2);
    [by rewrite Hco, lookup_insert_eq|done|].
  pose proof (Release_inv _ _ _ _ _ _ I1 Hrel) as I2.
  assert (Hst2 : step (e1, w1) (LRelease (pr_Key pr) None) (e2, w2)) by (by constructor).
  assert (Hcont : contents (store e2) = contents (store e)).
  { by rewrite Hco2, Hco, delete_insert_id. }
  assert (Hdest : ∀ k' t', contents (store e) !! k' = Some t' →
    Destination (deref w2 t') = Destination (deref w t')).
  { intros k' t' Hk'. destruct (inv_open _ _ I _ _ Hk') as (Hsome&_).
    destruct (step_ticket _ _ _ _ _ _ I Hst1 Hsome) as (Hsome1&(_&Hd1&_)&_).
    destruct (step_ticket _ _ _ _ _ _ I1 Hst2 Hsome1) as (_&(_&Hd2&_)&_). congruence. }
  exists e2, w2. split_and!; try done; [lia| |congruence|].
  - intros d. unfold InFlightTo. rewrite (inv_dest _ _ I2), (inv_dest _ _ I), Hcont.
    apply map_count_ext. intros k' t' Hk'; simpl. by rewrite (Hdest _ _ Hk').
  - intros pr' Hk'. rewrite <-Hk' in *.
    destruct (Park_fresh pr' e2 w2) as (e3&w3&Hp3); [done|congruence|by rewrite Hcont|congruence| |].
    + intros. pose proof (inv_limit _ _ I1). lia.
    + exists e3, w3, (nextTicket w2). split; [done|].
      destruct (inv_open _ _ I1 (pr_Key pr') t) as (Hsome1&_); [by rewrite Hco, lookup_insert_eq|].
      destruct (step_ticket _ _ _ _ _ _ I1 Hst2 Hsome1) as (Hsome2&_).
      apply (tm_fresh _ _ _ (inv_tm _ _ I2)) in Hsome2. lia.
Qed.

(** ** Closing *)

(** What any operation on a closed engine reports: no callback, and [ErrClosed]. *)
Definition closed_label (l : label (Msg := Msg)) : Prop :=
  match l with
  | LPark pr r => r = inl (if decide (pr_Key pr = ""%string) then ErrEmptyKey else ErrClosed)
  | LRedeem k _ r => r = inl (if decide (k = ""%string) then ErrEmptyKey else ErrClosed)
  | LRelease k r => r = Some (if decide (k = ""%string) then ErrEmptyKey else ErrClosed)
  | LRun _ cb => cb = None
  | LDrain r => r = Some ErrClosed
  | _ => True
  end.

Lemma spec_closed_label limit ret notify T l T' :
  Spec.phase T = engineClosed → Spec.slots T = ∅ →
  Spec.step (Msg := Msg) limit ret notify T l T' → closed_label l.
Proof.
  intros Hp Hs Hst. destruct Hst; simpl in *; rewrite ?Hs, ?Hp in *; try done;
    try case_decide; done.
Qed.

Lemma step_from_closed e w l e' w' :
  Inv e w → state e = engineClosed → timers w = ∅ → step (e, w) l (e', w') →
  closed_label l ∧ timers w' = ∅ ∧ state e' = engineClosed.
Proof.
  intros I Hc Ht Hs. split_and!; [| |by eapply step_closed].
  - eapply spec_closed_label, (step_refines _ _ _ _ _ I Hs); [done|].
    destruct (inv_closed _ _ I Hc) as [Hco Hr]. apply map_eq. intros k.
    by rewrite abs_lookup, Hco, Hr.
  - inversion Hs; subst; clear Hs; simpl; try done;
      unfold Park, Redeem, Release, Drain, Close, runTimer, expire, purge in *;
      rewrite ?(bool_decide_true (state e = engineClosed)) in * by done;
      simplify_eq/=; repeat (case_match; simplify_eq/=); try done.
    by rewrite Ht in *.
Qed.

Lemma steps_from_closed (x : Engine * World) tr y :
  steps x tr y → Inv x.1 x.2 → state x.1 = engineClosed → timers x.2 = ∅ →
  state y.1 = engineClosed ∧ timers y.2 = ∅ ∧ Forall closed_label tr.
Proof.
  intros Hs I Hst Ht. induction Hs as [|x tr [e3 w3] l [e4 w4] Hs IH Hl]; [done|].
  destruct IH as (Hc3&Ht3&Hf3); try done. pose proof (steps_inv _ _ _ Hs I) as I3. simpl in *.
  destruct (step_from_closed _ _ _ _ _ I3 Hc3 Ht3 Hl) as (?&?&?).
  split_and!; try done; by apply Forall_app_2; [|constructor].
Qed.

(** [Close] is final: it releases every ticket and disarms every timer, and in any
    later execution the engine stays closed, refuses every operation with [ErrClosed],
    never arms a timer and never calls [OnExpire], even for goroutines that had fired. *)
Theorem close_is_final e w e1 w1 tr e2 w2 :
  reachable (e, w) → state e ≠ engineClosed → Close e w = (e1, w1) →
  steps (e1, w1) tr (e2, w2) →
  InFlight e1 = 0 ∧ Retained e1 = 0 ∧ contents (store e1) = ∅ ∧ timers w1 = ∅ ∧
  state e2 = engineClosed ∧ timers w2 = ∅ ∧ Forall closed_label tr.
Proof.
  intros I%reachable_inv Hne Hc Hs.
  destruct (Close_spec _ _ _ _ I Hne Hc) as (Hst&Hco&Hr&Ho&_&_&_&Ht&_).
  pose proof (Close_inv _ _ _ _ I Hc) as I1.
  unfold InFlight, Retained. rewrite Ho, Hr. split_and!; try done;
    by destruct (steps_from_closed _ _ _ Hs I1 Hst Ht) as (?&?&?).
Qed.

(** ** Draining *)

Lemma steps_trans x tr1 y tr2 z :
  steps (Msg := Msg) (S := S) x tr1 y → steps y tr2 z → steps x (tr1 ++ tr2) z.
Proof.
  intros H1 H2. induction H2 as [|y tr2 u l z H2 IH Hl]; [by rewrite app_nil_r|].
  rewrite app_assoc. econstructor; eauto.
Qed.

Lemma steps_one x l y : step (Msg := Msg) (S := S) x l y → steps x [l] y.
Proof. intros Hl. apply (steps_snoc _ [] x); [constructor|done]. Qed.

(** Steps the engine takes by itself as time passes. *)
Definition timer_label (l : label (Msg := Msg)) : Prop :=
  match l with LTick _ | LFire _ | LRun _ _ => True | _ => False end.

(** The goroutine of an open ticket clears it. *)
Lemma run_clears e w k t :
  Inv e w → contents (store e) !! k = Some t → FExpire t ∈ fired w →
  ∃ l e' w', step (e, w) l (e', w') ∧ timer_label l ∧
    contents (store e') = delete k (contents (store e)) ∧ state e' = state e.
Proof.
  intros I Hk Hf. apply list_elem_of_split in Hf as (l1 & l2 & Hf).
  destruct (inv_open _ _ I _ _ Hk) as (_&Hkey&_).
  destruct (expire t e (setFired (l1 ++ l2) w)) as [[e' w'] cb] eqn:He.
  exists (LRun (FExpire t) cb), e', w'. split; [by econstructor|]. split; [done|].
  revert He. unfold expire. change (deref (setFired _ w) t) with (deref w t). rewrite Hkey.
  rewrite (Get_law (store e)), Hk. pose proof (Take_law (store e) k) as HT. rewrite Hk in HT.
  destruct HT as (st & -> & Hst). rewrite !bool_decide_false; [by intros [= <- <- <-]| |].
  - by intros ?.
  - intros Hc. by rewrite (proj1 (inv_closed _ _ I Hc)) in Hk.
Qed.

(** Left alone for long enough, an open ticket times out. *)
Lemma open_times_out e w k t :
  Inv e w → contents (store e) !! k = Some t →
  ∃ tr e' w', steps (e, w) tr (e', w') ∧ Forall timer_label tr ∧
    contents (store e') = delete k (contents (store e)) ∧ state e' = state e.
Proof.
  intros I Hk. destruct (inv_open _ _ I _ _ Hk) as (_&_&_&[(id&due&Hi)|Hf]).
  2: { destruct (run_clears _ _ _ _ I Hk Hf) as (l&e'&w'&?&?&?&?).
       exists [l], e', w'. split_and!; auto using steps_one. }
  set (d := Z.max 0 (due - now w)).
  assert (Htick : step (e, w) (LTick d) (e, _)) by (constructor; lia).
  set (w1 := mkWorld _ _ _ _ _ _) in Htick.
  assert (Hfire : step (e, w1) (LFire (FExpire t)) (e, setFired (FExpire t :: fired w1) (Stop id w1))).
  { econstructor; [done|]. simpl. lia. }
  pose proof (step_inv _ _ _ _ _ I Htick) as I1. pose proof (step_inv _ _ _ _ _ I1 Hfire) as I2.
  destruct (run_clears _ _ _ _ I2 Hk) as (l&e'&w'&?&?&?&?); [simpl; set_solver|].
  exists ([LTick d] ++ [LFire (FExpire t)] ++ [l]), e', w'.
  split_and!; [|by repeat constructor|done|done].
  eapply steps_trans; [by apply steps_one|]. eapply steps_trans; [by apply steps_one|]. by apply steps_one.
Qed.

(** No step of a draining engine opens a ticket. *)
Lemma drain_no_new_ticket e w l e' w' :
  Inv e w → state e ≠ engineRunning → step (e, w) l (e', w') →
  contents (store e') ⊆ contents (store e).
Proof.
  intros I Hne Hs. pose proof (step_refines _ _ _ _ _ I Hs) as Hspec.
  apply map_subseteq_spec. intros k t. rewrite <-!abs_inflight.
  assert (Hp : Spec.phase (abs e) ≠ engineRunning) by done. revert Hspec Hp.
  generalize (abs e) (abs e'). intros T T' Hspec Hp.
  destruct Hspec; simpl; rewrite ?lookup_delete_Some, ?lookup_empty; try naive_solver.
  case_match; rewrite ?lookup_delete_Some, ?lookup_insert_Some; naive_solver.
Qed.

(** Draining: while an engine drains, no step adds an open ticket; and if it is
    left to its timers, every open ticket clears within finitely many steps, after
    which [Drain] returns without error. *)
Theorem drain_completes e w :
  reachable (e, w) → state e = engineDraining →
  (∀ l e' w', step (e, w) l (e', w') → contents (store e') ⊆ contents (store e)) ∧
  ∃ tr e' w', steps (e, w) tr (e', w') ∧ Forall timer_label tr ∧
    contents (store e') = ∅ ∧ drainPoll false e' = Some None.
Proof.
  intros Hre Hd. apply reachable_inv in Hre as I. split.
  { intros l e' w'. apply drain_no_new_ticket; [done|by rewrite Hd]. }
  cut (∃ tr e' w', steps (e, w) tr (e', w') ∧ Forall timer_label tr ∧
    contents (store e') = ∅ ∧ Inv e' w').
  { intros (tr&e'&w'&?&?&Hco&I'). exists tr, e', w'. split_and!; try done.
    unfold drainPoll. by rewrite (inv_count _ _ I'), Hco. }
  remember (size (contents (store e))) as n eqn:Hn. clear Hre.
  revert e w I Hd Hn. induction n as [|n IH]; intros e w I Hd Hn.
  - exists [], e, w. symmetry in Hn. apply map_size_empty_inv in Hn. split_and!; try done; constructor.
  - destruct (map_choose (contents (store e))) as (k&t&Hk).
    { intros Hz. by rewrite Hz in Hn. }
    destruct (open_times_out _ _ _ _ I Hk) as (tr1&e1&w1&Hs1&Hf1&Hco1&Hst1).
    pose proof (steps_inv _ _ _ Hs1 I) as I1. simpl in I1.
    destruct (IH e1 w1 I1) as (tr2&e2&w2&Hs2&Hf2&?&?); [congruence| |].
    + rewrite Hco1, map_size_delete_Some by eauto. lia.
    + exists (tr1 ++ tr2), e2, w2. split_and!; eauto using steps_trans. by apply Forall_app_2.
Qed.

Lemma steps_cons x l y tr z :
  step (Msg := Msg) (S := S) x l y → steps y tr z → steps x (l :: tr) z.
Proof. intros Hl Hs. change (l :: tr) with ([l] ++ tr). eauto using steps_trans, steps_one. Qed.
End properties.

(** ** A concrete engine over the in-memory store *)
Module Example.
Abbreviation M := nat.
Abbreviation MS := Memory.MemoryStore.

Definition cfg : Config MS := mkConfig 0 (120 * 1000000000) 2 0 true Memory.NewMemoryStore.
Definition e0 : Engine MS :=
  mkEngine DefaultTTL (120 * 1000000000) 2 DefaultRetainAfterClose true Memory.NewMemoryStore
    engineRunning 0 ∅ ∅.
Definition w0 : World M := mkWorld ∅ 0 0 ∅ 0 [].

Definition pr1 : ParkRequest M := mkParkRequest "stan-1" "out_a" (Some 7%nat) ∅ 0.

(** One request parked; then redeemed; then draining with it still open. *)
Definition parked := Park pr1 e0 w0.
Definition e1 := parked.1.1.
Definition w1 := parked.1.2.
Definition redeemed := Redeem "stan-1" (Some 9%nat) e1 w1.
Definition e2 := redeemed.1.1.
Definition w2 := redeemed.1.2.
Definition e3 := (Drain e1).2.
(** The parked request, one minute later, its timer fired. *)
Definition w4 : World M :=
  setFired [FExpire 0] (Stop 0 (mkWorld (tickets w1) 1 (now w1 + DefaultTTL) (timers w1) 1 [])).
Definition expired := expire (Msg := M) 0 e1 (setFired [] w4).

Lemma initial0 : initial (e0, w0).
Proof. by exists cfg, 0. Qed.

Lemma step1 : step (e0, w0) (LPark pr1 (inr (Parked, 0%nat))) (e1, w1).
Proof. constructor. vm_compute. reflexivity. Qed.

Lemma step2 : step (e1, w1) (LRedeem "stan-1" (Some 9%nat) (inr 0%nat)) (e2, w2).
Proof. constructor. vm_compute. reflexivity. Qed.

Lemma step3 : step (e1, w1) (LDrain None) (e3, w1).
Proof. constructor. vm_compute. reflexivity. Qed.

Lemma steps4 : steps (e1, w1) [LTick DefaultTTL; LFire (FExpire 0)] (e1, w4).
Proof.
  eapply steps_cons; [by constructor|]. apply steps_one.
  apply (step_fire e1 (mkWorld (tickets w1) 1 (now w1 + DefaultTTL) (timers w1) 1 [])
           0 DefaultTTL (FExpire 0)); [vm_compute; reflexivity|by vm_compute].
Qed.

Lemma reach1 : reachable (e1, w1).
Proof. exists (e0, w0). eexists. eauto using initial0, steps_one, step1. Qed.

Lemma reach2 : reachable (e2, w2).
Proof. exists (e0, w0). eexists. eauto using initial0, steps_one, step1, steps_cons, step2. Qed.

Lemma reach3 : reachable (e3, w1).
Proof. exists (e0, w0). eexists. eauto using initial0, steps_one, step1, steps_cons, step3. Qed.

Lemma reach4 : reachable (e1, w4).
Proof. exists (e0, w0). eexists. eauto using initial0, steps_one, step1, steps_cons, steps4. Qed.

Lemma reach0 : reachable (e0, w0).
Proof. exists (e0, w0), []. split; [apply initial0|constructor]. Qed.
End Example.

Section witnesses.
Import Example.

(** The refinement, applied to a park followed by its redemption. *)
Lemma engine_refines_spec_witness :
  Spec.run (Msg := M) 2 DefaultRetainAfterClose true
    [LPark pr1 (inr (Parked, 0%nat)); LRedeem "stan-1" (Some 9%nat) (inr 0%nat)] (abs e2).
Proof.
  apply (engine_refines_spec e0 w0 _ e2 w2 initial0).
  exact (steps_cons _ _ _ _ _ step1 (steps_one _ _ _ step2)).
Defined.

Lemma in_flight_accounting_witness :
  InFlightTo "out_a" e1 = 1 ∧
  InFlight e1 = Z.of_nat (size (contents (store e1))).
Proof. split; [reflexivity|]. apply (in_flight_accounting e1 w1 reach1). Defined.

Lemma one_outcome_per_ticket_witness :
  (length (filter (resolves 0)
    [LPark pr1 (inr (Parked, 0%nat)); LRedeem "stan-1" (Some 9%nat) (inr 0%nat)]) ≤ 1)%nat.
Proof.
  apply (one_outcome_per_ticket (e0, w0) _ (e2, w2) 0 initial0).
  exact (steps_cons _ _ _ _ _ step1 (steps_one _ _ _ step2)).
Defined.

Lemma replay_window_witness :
  Park pr1 e2 w2 = (e2, w2, inr (ReplayedClosed, 0%nat)) ∧ Outcome (deref w2 0) = Some 9%nat.
Proof.
  apply (replay_window e2 w2 [] e2 w2 "stan-1" 0 pr1 reach2);
    [reflexivity|done|constructor|done|reflexivity|reflexivity].
Defined.

Lemma expiry_due_and_final_witness :
  DefaultTTL ≤ now w4 ∧
  Redeem "stan-1" None expired.1.1 expired.1.2 = (expired.1.1, expired.1.2, inl ErrUnmatched).
Proof.
  destruct (expiry_due_and_final e1 w4 (FExpire 0) 0 expired.1.1 expired.1.2 None reach4)
    as (Hd&_&_&_&Hr).
  - apply (step_run e1 w4 [] (FExpire 0) []); [reflexivity|]. vm_compute. reflexivity.
  - vm_compute. discriminate.
  - split; [exact Hd|exact Hr].
Defined.

Lemma parked_ticket_witness : Key (deref w1 0) = "stan-1"%string ∧ 0 < Deadline (deref w1 0).
Proof.
  destruct (parked_ticket e0 w0 pr1 e1 w1 0 reach0) as (Hk&_&_&_&_&_&Hd&_).
  - vm_compute. reflexivity.
  - split; [exact Hk|exact Hd].
Defined.

Lemma release_then_retry_parks_witness :
  ∃ e2 w2, Release "stan-1" e1 w1 = (e2, w2, None) ∧ openCount e2 = 0.
Proof.
  destruct (release_then_retry_parks e0 w0 pr1 e1 w1 0 reach0) as (e2&w2&Hr&_&Ho&_).
  - vm_compute. reflexivity.
  - exists e2, w2. split; [exact Hr|exact Ho].
Defined.

Lemma close_is_final_witness : timers (Close e1 w1).2 = ∅ ∧ InFlight (Close e1 w1).1 = 0.
Proof.
  destruct (close_is_final e1 w1 (Close e1 w1).1 (Close e1 w1).2 [] (Close e1 w1).1 (Close e1 w1).2
              reach1) as (Ho&_&_&Ht&_).
  - done.
  - vm_compute. reflexivity.
  - constructor.
  - split; [exact Ht|exact Ho].
Defined.

Lemma drain_completes_witness :
  drainPoll false e3 = None ∧
  ∃ tr e' w', steps (e3, w1) tr (e', w') ∧ drainPoll false e' = Some None.
Proof.
  split; [reflexivity|].
  destruct (drain_completes e3 w1 reach3) as (_&tr&e'&w'&Hs&_&_&Hp); [done|].
  exists tr, e', w'. split; [exact Hs|exact Hp].
Defined.
End witnesses.
