(* ===== verification/Tree.v ===== *)
(** * pkg/gears/native/conductor: destination trees and routes

    Models [tree.go] (destination trees and their selection strategies, parsing) and
    the parsing half of [route.go].

    A node's rotation counter [rr] is an [atomic.Uint64]: it is part of the node, its
    [Add] wraps at 2^64, and [pick] returns the tree with the counters it advanced.
    The recursion of [pick] follows the tree; [pickF] carries a fuel, the height of
    the tree, and [pickF_fuel] shows more fuel changes nothing. *)
From S2P Require Import Prelude.
Open Scope Z_scope.

Definition u64 (z : Z) : Z := z mod 2 ^ 64.

(** The configuration values a scenario hands over (YAML, decoded to Go [any]). *)
Inductive cfgval :=
  | CStr (s : string)
  | CMap (m : list (string * cfgval))
  | CList (l : list cfgval)
  | CInt (z : Z)
  | CFloat (integral : option Z)
  | CBool (b : bool)
  | CNull.

(** ** tree.go *)

(** The signals a pick consults. *)
Record selection := { available : string → bool; load : string → Z }.

Inductive strategyKind := strategyFailover | strategyRoundRobin | strategyLeastLoaded.

#[export] Instance strategyKind_eq_dec : EqDecision strategyKind.
Proof. solve_decision. Defined.

Inductive destNode :=
  | leafNode (port : string)
  | strategyNode (kind : strategyKind) (children : list destNode) (cached : list string) (rr : Z).

(** Induction on trees, through the children. *)
Lemma destNode_rect_nested (P : destNode → Prop) :
  (∀ p, P (leafNode p)) →
  (∀ k cs cached rr, Forall P cs → P (strategyNode k cs cached rr)) →
  ∀ n, P n.
Proof.
  intros Hl Hs. fix IH 1. intros [p|k cs cached rr]; [apply Hl|].
  apply Hs. induction cs as [|c cs IHcs]; constructor; [apply IH|apply IHcs].
Qed.

(** [leaves] with a non-nil cache returns the cache. *)
Fixpoint leaves (n : destNode) : list string :=
  match n with
  | leafNode p => [p]
  | strategyNode _ cs cached _ =>
      if decide (cached = []) then flat_map leaves cs else cached
  end.

Fixpoint containsLeastLoaded (n : destNode) : bool :=
  match n with
  | leafNode _ => false
  | strategyNode k cs _ _ =>
      if decide (k = strategyLeastLoaded) then true else existsb containsLeastLoaded cs
  end.

Definition subtreeLoad (n : destNode) (s : selection) : Z :=
  match n with
  | leafNode p => load s p
  | strategyNode _ _ cached _ => foldl (λ total p, total + load s p) 0 cached
  end.

Definition availableUnder (n : destNode) (s : selection) : bool :=
  match n with
  | leafNode p => available s p
  | strategyNode _ _ cached _ => existsb (available s) cached
  end.

Section loops.
(** One child's pick, and the loops of [strategyNode.pick] over the children. *)
Context (pickc : destNode → string * destNode).

(** Visit the children at the given indices in order, updating each visited child,
    until one yields a port. *)
Fixpoint tryAt (idxs : list nat) (cs : list destNode) : string * list destNode :=
  match idxs with
  | [] => (""%string, cs)
  | i :: rest =>
      match cs !! i with
      | None => (""%string, cs)
      | Some c =>
          let '(port, c') := pickc c in
          if decide (port = ""%string) then tryAt rest (<[i := c']> cs)
          else (port, <[i := c']> cs)
      end
  end.

(** [for i := 0; i < count; i++ { c := n.children[(start+i)%count] ... }] *)
Definition rotation (start : Z) (count : nat) : list nat :=
  (λ i : nat, Z.to_nat (u64 (start + Z.of_nat i) mod Z.of_nat count)) <$> seq 0 count.

(** The candidates of [strategyLeastLoaded]: index and load of each available child. *)
Definition candidates (s : selection) (cs : list destNode) : list (nat * Z) :=
  omap (λ ic : nat * destNode,
          if availableUnder ic.2 s then Some (ic.1, subtreeLoad ic.2 s) else None)
    (zip (seq 0 (length cs)) cs).

Definition minLoad (first : Z) (rest : list (nat * Z)) : Z :=
  foldl (λ m (c : nat * Z), if c.2 <? m then c.2 else m) first rest.

Definition pickLeastLoaded (s : selection) (cs : list destNode) (rr : Z)
    : string * list destNode * Z :=
  match candidates s cs with
  | [] => (""%string, cs, rr)
  | c0 :: rest =>
      let cands := c0 :: rest in
      let m := minLoad c0.2 rest in
      let tied := (filter (λ c : nat * Z, c.2 = m) cands).*1 in
      let rr' := u64 (rr + 1) in
      let k := Z.to_nat (u64 (rr' - 1) mod Z.of_nat (length tied)) in
      let pickIdx := default 0%nat (tied !! k) in
      let '(port, cs1) := tryAt [pickIdx] cs in
      if decide (port = ""%string)
      then let '(port2, cs2) := tryAt cands.*1 cs1 in (port2, cs2, rr')
      else (port, cs1, rr')
  end.
End loops.

Fixpoint height (n : destNode) : nat :=
  match n with
  | leafNode _ => 1
  | strategyNode _ cs _ _ => S (list_max (map height cs))
  end.

Fixpoint pickF (fuel : nat) (s : selection) (n : destNode) : string * destNode :=
  match fuel, n with
  | O, _ => (""%string, n)
  | S fuel, leafNode p => (if available s p then p else ""%string, n)
  | S fuel, strategyNode k cs cached rr =>
      match k with
      | strategyFailover =>
          let '(port, cs') := tryAt (pickF fuel s) (seq 0 (length cs)) cs in
          (port, strategyNode k cs' cached rr)
      | strategyRoundRobin =>
          let rr' := u64 (rr + 1) in
          let start := u64 (rr' - 1) in
          let '(port, cs') := tryAt (pickF fuel s) (rotation start (length cs)) cs in
          (port, strategyNode k cs' cached rr')
      | strategyLeastLoaded =>
          let '(port, cs', rr') := pickLeastLoaded (pickF fuel s) s cs rr in
          (port, strategyNode k cs' cached rr')
      end
  end.

Definition pick (s : selection) (n : destNode) : string * destNode := pickF (height n) s n.

(** ** Parsing *)

Inductive destErr :=
  | EDestLeaf (s : string) | EDestKeys (n : nat) | EDestStrategy (s : string)
  | EDestChildren (s : string) | EDestChild (s : string) (i : nat) (e : destErr) | EDestKind.

(** [strings.HasPrefix] *)
Definition HasPrefix (s p : string) : bool := String.prefix p s.

Definition strategyOf (name : string) : option strategyKind :=
  if decide (name = "failover"%string) then Some strategyFailover
  else if decide (name = "round_robin"%string) then Some strategyRoundRobin
  else if decide (name = "least_loaded"%string) then Some strategyLeastLoaded
  else None.

(** [for i, rc := range rawChildren] *)
Definition parseChildren (parse : cfgval → destErr + destNode) (name : string)
    : nat → list cfgval → destErr + list destNode :=
  fix go i l :=
    match l with
    | [] => inr []
    | rc :: rest =>
        match parse rc with
        | inl err => inl (EDestChild name i err)
        | inr child =>
            match go (S i) rest with
            | inl err => inl err
            | inr cs => inr (child :: cs)
            end
        end
    end.

Fixpoint parseDest (v : cfgval) : destErr + destNode :=
  match v with
  | CStr s => if HasPrefix s "out" then inr (leafNode s) else inl (EDestLeaf s)
  | CMap [(name, arg)] =>
      match strategyOf name with
      | None => inl (EDestStrategy name)
      | Some kind =>
          match arg with
          | CList ((_ :: _) as raw) =>
              match parseChildren parseDest name 0 raw with
              | inl err => inl err
              | inr cs => inr (strategyNode kind cs (flat_map leaves cs) 0)
              end
          | _ => inl (EDestChildren name)
          end
      end
  | CMap m => inl (EDestKeys (length m))
  | _ => inl EDestKind
  end.

(** ** route.go: the routing table *)

Record route := {
  r_name : string; matchField : string; matchPrefix : string;
  r_tree : destNode; r_leaves : list string; needsLoad : bool;
}.

Inductive routeErr :=
  | ERoutesList | ERouteMap (i : nat) | ERouteMatch (name : string) | ERouteField (name : string)
  | ERouteDest (name : string) | ERouteTree (name : string) (e : destErr).

(** [m[k]] of a configuration map. *)
Definition cfgGet (m : list (string * cfgval)) (k : string) : option cfgval :=
  (λ x : nat * (string * cfgval), x.2.2) <$> list_find (λ kv : string * cfgval, kv.1 = k) m.

(** [m[k].(string)] *)
Definition cfgStr (m : list (string * cfgval)) (k : string) : option string :=
  match cfgGet m k with Some (CStr s) => Some s | _ => None end.

(** The [match] clause: field and prefix, both empty for a catch-all. *)
Definition parseMatch (name : string) (rm : list (string * cfgval)) : routeErr + string * string :=
  match cfgGet rm "match" with
  | None => inr (""%string, ""%string)
  | Some (CMap mm) =>
      let f := default ""%string (cfgStr mm "field") in
      let p := default ""%string (cfgStr mm "prefix") in
      if decide (f = ""%string) then inl (ERouteField name) else inr (f, p)
  | Some _ => inl (ERouteMatch name)
  end.

Definition parseRoute (i : nat) (rv : cfgval) : routeErr + route :=
  match rv with
  | CMap rm =>
      let name := default ("route-" +:+ pretty i) (cfgStr rm "name") in
      match parseMatch name rm with
      | inl e => inl e
      | inr (f, p) =>
          match cfgGet rm "destination" with
          | None => inl (ERouteDest name)
          | Some dv =>
              match parseDest dv with
              | inl e => inl (ERouteTree name e)
              | inr tree =>
                  let needs := containsLeastLoaded tree in
                  inr {| r_name := name; matchField := f; matchPrefix := p; r_tree := tree;
                         r_leaves := if needs then leaves tree else []; needsLoad := needs |}
              end
          end
      end
  | _ => inl (ERouteMap i)
  end.

Fixpoint parseRoutesFrom (i : nat) (raw : list cfgval) : routeErr + list route :=
  match raw with
  | [] => inr []
  | rv :: rest =>
      match parseRoute i rv with
      | inl e => inl e
      | inr r => match parseRoutesFrom (S i) rest with inl e => inl e | inr rs => inr (r :: rs) end
      end
  end.

Definition parseRoutes (v : cfgval) : routeErr + list route :=
  match v with
  | CList ((_ :: _) as raw) => parseRoutesFrom 0 raw
  | _ => inl ERoutesList
  end.

(** ** Well-formed trees *)

(** What [parseDest] builds and [pick] maintains, [N] bounding the rotation counters
    (the number of picks so far). *)
Inductive wf (N : Z) : destNode → Prop :=
  | wf_leaf p : p ≠ ""%string → wf N (leafNode p)
  | wf_node k cs rr : cs ≠ [] → Z.of_nat (length cs) ≤ 2 ^ 32 → Forall (wf N) cs →
      0 ≤ rr ≤ N → wf N (strategyNode k cs (flat_map leaves cs) rr).

Lemma leaves_node N k cs cached rr :
  wf N (strategyNode k cs cached rr) → leaves (strategyNode k cs cached rr) = flat_map leaves cs.
Proof. inversion 1; subst. simpl. by case_decide. Qed.

Lemma wf_mono N N' n : N ≤ N' → wf N n → wf N' n.
Proof.
  intros HN. induction n as [p|k cs cached rr IH] using destNode_rect_nested; intros Hw;
    inversion Hw; subst; constructor; try done; [|lia].
  rewrite Forall_forall in *. eauto.
Qed.

Lemma elem_of_flat_leaves p cs : p ∈ flat_map leaves cs ↔ ∃ c, c ∈ cs ∧ p ∈ leaves c.
Proof.
  rewrite list_elem_of_In, in_flat_map.
  split; intros (c&Hc&Hp); exists c; by rewrite ?list_elem_of_In in *; rewrite <-?list_elem_of_In in *.
Qed.

(** Whether any leaf beneath a node is available. *)
Definition reach (s : selection) (n : destNode) : Prop := ∃ p, p ∈ leaves n ∧ available s p = true.

Lemma existsb_reach s l : existsb (available s) l = true ↔ ∃ p, p ∈ l ∧ available s p = true.
Proof.
  rewrite existsb_exists. split; intros (p&Hp&?); exists p; by rewrite list_elem_of_In in *.
Qed.

Lemma availableUnder_reach N s n : wf N n → availableUnder n s = true ↔ reach s n.
Proof.
  intros Hw. destruct n as [p|k cs cached rr].
  - unfold reach; simpl. split; [exists p; set_solver|]. intros (p'&?&?). set_solver.
  - unfold reach. rewrite (leaves_node _ _ _ _ _ Hw). inversion Hw; subst. apply existsb_reach.
Qed.

Lemma subtreeLoad_leaves N s n :
  wf N n → subtreeLoad n s = foldl (λ total p, total + load s p) 0 (leaves n).
Proof.
  intros Hw. destruct n as [p|k cs cached rr]; [simpl; lia|].
  rewrite (leaves_node _ _ _ _ _ Hw). by inversion Hw; subst.
Qed.

Lemma height_child k cs cached rr c :
  c ∈ cs → (height c < height (strategyNode k cs cached rr))%nat.
Proof.
  intros Hc. simpl. pose proof (proj1 (list_max_le (map height cs) (list_max (map height cs)))).
  assert (height c ≤ list_max (map height cs))%nat; [|lia].
  eapply Forall_forall in H; [exact H|done|]. apply list_elem_of_In, in_map. by apply list_elem_of_In.
Qed.

(** [rotation] visits every index when the counter does not wrap on the way. *)
Lemma rotation_lookup start count i :
  (i < count)%nat → 0 ≤ start → start + Z.of_nat count ≤ 2 ^ 64 →
  rotation start count !! i = Some (Z.to_nat ((start + Z.of_nat i) mod Z.of_nat count)).
Proof.
  intros Hi H0 Hs. unfold rotation. rewrite list_lookup_fmap, lookup_seq_lt by done. simpl.
  unfold u64. by rewrite (Z.mod_small (start + Z.of_nat i)) by lia.
Qed.

Lemma rotation_complete start count j :
  (j < count)%nat → 0 ≤ start → start + Z.of_nat count ≤ 2 ^ 64 → j ∈ rotation start count.
Proof.
  intros Hj H0 Hs. set (i := Z.to_nat ((Z.of_nat j - start) mod Z.of_nat count)).
  assert (Hi : Z.of_nat i = (Z.of_nat j - start) mod Z.of_nat count).
  { unfold i. rewrite Z2Nat.id; [done|]. apply Z.mod_pos_bound. lia. }
  assert ((i < count)%nat) as Hlt.
  { pose proof (Z.mod_pos_bound (Z.of_nat j - start) (Z.of_nat count)). lia. }
  apply list_elem_of_lookup. exists i. rewrite rotation_lookup by done. f_equal.
  rewrite Hi, Zplus_mod_idemp_r. replace (start + (Z.of_nat j - start)) with (Z.of_nat j) by lia.
  rewrite Z.mod_small; lia.
Qed.

Lemma rotation_bound start count i : i ∈ rotation start count → (i < count)%nat.
Proof.
  unfold rotation. intros (k&->&Hk)%list_elem_of_fmap. apply elem_of_seq in Hk.
  pose proof (Z.mod_pos_bound (u64 (start + Z.of_nat k)) (Z.of_nat count)). lia.
Qed.

(** ** What a pick returns *)

(** [r] is a correct result of picking in [c]: an available leaf of [c] if there is
    one, and a tree that differs from [c] in its counters only. *)
Definition pick_ok (N : Z) (s : selection) (c : destNode) (r : string * destNode) : Prop :=
  wf (N + 1) r.2 ∧ leaves r.2 = leaves c ∧ height r.2 = height c ∧
  (if decide (r.1 = ""%string) then ¬ reach s c else r.1 ∈ leaves c ∧ available s r.1 = true).

(** Trees that differ in their counters only. *)
Definition same_shape (N : Z) (c c' : destNode) : Prop :=
  wf (N + 1) c' ∧ leaves c' = leaves c ∧ height c' = height c.

Section loop_lemmas.
Context (N : Z) (s : selection) (pickc : destNode → string * destNode).

(** The loop over indices without repetition: it ends at the first child beneath
    which a port is available. *)
Lemma tryAt_spec idxs cs0 cs :
  NoDup idxs → (∀ i, i ∈ idxs → (i < length cs0)%nat) →
  (∀ c, c ∈ cs0 → wf N c ∧ pick_ok N s c (pickc c)) →
  Forall2 (λ c c', same_shape N c c') cs0 cs →
  (∀ i, i ∈ idxs → cs !! i = cs0 !! i) →
  let r := tryAt pickc idxs cs in
  Forall2 (λ c c', same_shape N c c') cs0 r.2 ∧
  if decide (r.1 = ""%string)
  then ∀ i c, i ∈ idxs → cs0 !! i = Some c → ¬ reach s c
  else ∃ l1 i l2 c, idxs = l1 ++ i :: l2 ∧ cs0 !! i = Some c ∧ r.1 = (pickc c).1 ∧
         r.1 ∈ leaves c ∧ available s r.1 = true ∧
         ∀ j c', j ∈ l1 → cs0 !! j = Some c' → ¬ reach s c'.
Proof.
  revert cs. induction idxs as [|i rest IH]; intros cs Hnd Hb Hok Hsh Heq r; subst r; simpl.
  { split; [done|]. set_solver. }
  apply NoDup_cons in Hnd as [Hni Hnd].
  rewrite (Heq i) by set_solver.
  destruct (lookup_lt_is_Some_2 cs0 i) as [c Hc]; [apply Hb; set_solver|]. rewrite Hc.
  destruct (Hok c) as [Hw Hp]; [by eapply list_elem_of_lookup_2|].
  destruct (pickc c) as [port c'] eqn:Epick. destruct Hp as (Hw'&Hl'&Hh'&Hport). simpl in *.
  assert (Hsh' : Forall2 (λ c c', same_shape N c c') cs0 (<[i := c']> cs)).
  { apply Forall2_lookup. intros j. rewrite Forall2_lookup in Hsh.
    destruct (decide (i = j)) as [<-|]; [|rewrite list_lookup_insert_ne by done; apply Hsh].
    rewrite list_lookup_insert_eq; [rewrite Hc; by constructor|].
    specialize (Hsh i). rewrite Hc in Hsh. inversion Hsh; subst. by eapply lookup_lt_Some. }
  case_decide as Hempty; simpl.
  - destruct (IH (<[i := c']> cs)) as [Hsh2 Hres]; [done|set_solver|done|done| |].
    { intros j Hj. rewrite list_lookup_insert_ne by set_solver. apply Heq. set_solver. }
    split; [done|]. destruct (tryAt pickc rest (<[i := c']> cs)) as [port2 cs2]; simpl in *.
    case_decide.
    + intros j c2 [->|Hj]%elem_of_cons Hc2; [by simplify_eq|eauto].
    + destruct Hres as (l1&j&l2&c2&->&?&?&?&?&Hpre). exists (i :: l1), j, l2, c2.
      split_and!; try done. intros j' c3 [->|Hj']%elem_of_cons Hc3; [by simplify_eq|eauto].
  - split; [done|]. rewrite decide_False by done. exists [], i, rest, c.
    rewrite Epick. destruct Hport. split_and!; try done. set_solver.
Qed.
End loop_lemmas.

Lemma shape_refl N c : wf N c → same_shape N c c.
Proof. intros. split_and!; try done. eapply wf_mono; [|done]. lia. Qed.

Lemma shapes_refl N cs : Forall (wf N) cs → Forall2 (λ c c', same_shape N c c') cs cs.
Proof. induction 1; constructor; eauto using shape_refl. Qed.

Lemma shapes_leaves N cs cs' :
  Forall2 (λ c c', same_shape N c c') cs cs' → flat_map leaves cs' = flat_map leaves cs.
Proof. induction 1 as [|c c' cs cs' (_&Hl&_) _ IH]; simpl; congruence. Qed.

Lemma shapes_height N cs cs' :
  Forall2 (λ c c', same_shape N c c') cs cs' → map height cs' = map height cs.
Proof. induction 1 as [|c c' cs cs' (_&_&Hh) _ IH]; simpl; congruence. Qed.

(** Rebuilding a node around updated children. *)
Lemma node_shape N k cs cached rr cs' rr' :
  wf N (strategyNode k cs cached rr) → Forall2 (λ c c', same_shape N c c') cs cs' →
  0 ≤ rr' ≤ N + 1 →
  same_shape N (strategyNode k cs cached rr) (strategyNode k cs' cached rr').
Proof.
  intros Hw Hsh Hrr. inversion Hw as [|? ? ? Hne Hlen Hcs ?]; subst.
  assert (Hw' : wf (N + 1) (strategyNode k cs' (flat_map leaves cs) rr')).
  { rewrite <-(shapes_leaves _ _ _ Hsh). constructor; try done.
    - intros ->. by inversion Hsh; subst.
    - by rewrite <-(Forall2_length _ _ _ Hsh).
    - eapply Forall2_Forall_r; [exact Hsh|]. eapply Forall_impl; [exact Hcs|]. by intros ? _ ? (?&_). }
  split_and!; [done| |].
  - rewrite (leaves_node _ _ _ _ _ Hw'), (leaves_node _ _ _ _ _ Hw). eauto using shapes_leaves.
  - simpl. by rewrite (shapes_height _ _ _ Hsh).
Qed.

Lemma reach_node N s k cs cached rr :
  wf N (strategyNode k cs cached rr) →
  reach s (strategyNode k cs cached rr) ↔ ∃ i c, cs !! i = Some c ∧ reach s c.
Proof.
  intros Hw. unfold reach. rewrite (leaves_node _ _ _ _ _ Hw). setoid_rewrite elem_of_flat_leaves.
  split.
  - intros (p&(c&Hc&?)&?). apply list_elem_of_lookup in Hc as [i ?]. eauto 10.
  - intros (i&c&Hc&p&?&?). exists p. split; [|done]. exists c. split; [by eapply list_elem_of_lookup_2|done].
Qed.

Lemma rotation_NoDup start count :
  0 ≤ start → start + Z.of_nat count ≤ 2 ^ 64 → NoDup (rotation start count).
Proof.
  intros H0 Hs. apply NoDup_alt. intros i j x Hi Hj.
  assert (length (rotation start count) = count) as Hlen.
  { unfold rotation. by rewrite length_fmap, length_seq. }
  pose proof (lookup_lt_Some _ _ _ Hi) as Hil. pose proof (lookup_lt_Some _ _ _ Hj) as Hjl.
  rewrite Hlen in Hil, Hjl. rewrite rotation_lookup in Hi, Hj by done. simplify_eq.
  pose proof (Z.mod_pos_bound (start + Z.of_nat i) (Z.of_nat count)).
  pose proof (Z.mod_pos_bound (start + Z.of_nat j) (Z.of_nat count)).
  assert ((start + Z.of_nat i) mod Z.of_nat count = (start + Z.of_nat j) mod Z.of_nat count) as E by lia.
  pose proof (Z.div_mod (start + Z.of_nat i) (Z.of_nat count) ltac:(lia)) as D1.
  pose proof (Z.div_mod (start + Z.of_nat j) (Z.of_nat count) ltac:(lia)) as D2.
  rewrite E in D1.
  set (q1 := (start + Z.of_nat i) / Z.of_nat count) in *.
  set (q2 := (start + Z.of_nat j) / Z.of_nat count) in *.
  assert (Z.of_nat count * (q1 - q2) = Z.of_nat i - Z.of_nat j) as D by lia.
  assert (q1 - q2 = 0) by nia. lia.
Qed.

(** ** Candidates and the least load *)

Lemma elem_of_candidates s cs i l :
  (i, l) ∈ candidates s cs ↔
  ∃ c, cs !! i = Some c ∧ availableUnder c s = true ∧ l = subtreeLoad c s.
Proof.
  unfold candidates. rewrite list_elem_of_omap. split.
  - intros ([i' c]&Hin&Hc). simpl in Hc. destruct (availableUnder c s) eqn:Ha; simplify_eq.
    apply list_elem_of_lookup in Hin as [k Hk]. apply lookup_zip_with_Some in Hk as (?&?&?&Hs&Hc).
    apply lookup_seq in Hs as [-> _]. simplify_eq. eauto.
  - intros (c&Hc&Ha&->). exists (i, c). simpl. rewrite Ha. split; [|done].
    apply list_elem_of_lookup. exists i. apply lookup_zip_with_Some. exists i, c.
    split_and!; try done. apply lookup_seq. split; [lia|]. by eapply lookup_lt_Some.
Qed.

Lemma candidates_NoDup s cs : NoDup (candidates s cs).*1.
Proof.
  unfold candidates. rewrite list_fmap_omap.
  assert (∀ n, NoDup (omap (λ ic : nat * destNode, fst <$>
     (if availableUnder ic.2 s then Some (ic.1, subtreeLoad ic.2 s) else None))
       (zip (seq n (length cs)) cs)) ∧ ∀ i, i ∈ omap (λ ic : nat * destNode, fst <$>
     (if availableUnder ic.2 s then Some (ic.1, subtreeLoad ic.2 s) else None))
       (zip (seq n (length cs)) cs) → (n ≤ i)%nat) as H; [|apply H].
  induction cs as [|c cs IH]; intros n; simpl; [split; [constructor|set_solver]|].
  destruct (IH (S n)) as [IH1 IH2].
  destruct (availableUnder c s); simpl; split; try done.
  - constructor; [|done]. intros Hn%IH2. lia.
  - intros i [->|Hi%IH2]%elem_of_cons; lia.
  - intros i Hi%IH2; lia.
Qed.

Lemma minLoad_spec first rest :
  let m := minLoad first rest in
  m ≤ first ∧ (∀ c, c ∈ rest → m ≤ c.2) ∧ (m = first ∨ ∃ c, c ∈ rest ∧ m = c.2).
Proof.
  revert first. induction rest as [|c rest IH]; intros first m; subst m; simpl.
  { split_and!; [lia|set_solver|by left]. }
  unfold minLoad; simpl. fold (minLoad (if c.2 <? first then c.2 else first) rest).
  destruct (IH (if c.2 <? first then c.2 else first)) as (H1&H2&H3).
  destruct (Z.ltb_spec c.2 first); split_and!; try lia.
  - intros c' [->|?]%elem_of_cons; auto.
  - right. destruct H3 as [->|(c'&?&?)]; [exists c|exists c']; set_solver.
  - intros c' [->|?]%elem_of_cons; auto; lia.
  - destruct H3 as [?|(c'&?&?)]; [by left|right; exists c'; set_solver].
Qed.

(** The index [pickLeastLoaded] descends into. *)
Lemma least_loaded_index s cs rr c0 rest :
  candidates s cs = c0 :: rest →
  let m := minLoad c0.2 rest in
  let tied := (filter (λ c : nat * Z, c.2 = m) (c0 :: rest)).*1 in
  let i := default 0%nat (tied !! Z.to_nat (u64 (u64 (rr + 1) - 1) mod Z.of_nat (length tied))) in
  ∃ c, cs !! i = Some c ∧ availableUnder c s = true ∧
    ∀ j c', cs !! j = Some c' → availableUnder c' s = true → subtreeLoad c s ≤ subtreeLoad c' s.
Proof.
  intros Hc m tied i. destruct (minLoad_spec c0.2 rest) as (Hm1&Hm2&Hm3). fold m in Hm1, Hm2, Hm3.
  assert (Hmin : ∀ c, c ∈ c0 :: rest → m ≤ c.2).
  { intros c [->|?]%elem_of_cons; auto. }
  assert (∃ c, c ∈ c0 :: rest ∧ c.2 = m) as (cm&Hcm&Hcm2).
  { destruct Hm3 as [->|(c&?&?)]; [exists c0|exists c]; set_solver. }
  assert (0 < length tied)%nat as Hlen.
  { destruct tied eqn:E; [|simpl; lia]. exfalso.
    assert (cm.1 ∈ tied) as Hin; [|rewrite E in Hin; set_solver].
    apply list_elem_of_fmap. exists cm. split; [done|]. by apply list_elem_of_filter. }
  pose proof (Z.mod_pos_bound (u64 (u64 (rr + 1) - 1)) (Z.of_nat (length tied))) as Hk.
  destruct (lookup_lt_is_Some_2 tied
    (Z.to_nat (u64 (u64 (rr + 1) - 1) mod Z.of_nat (length tied)))) as [x Hx]; [lia|].
  assert (i = x) as -> by (unfold i; by rewrite Hx).
  apply list_elem_of_lookup_2, list_elem_of_fmap in Hx as ([x' l]&->&Hx).
  apply list_elem_of_filter in Hx as [Hl Hx]. simpl in *. subst l.
  rewrite <-Hc in Hx. apply elem_of_candidates in Hx as (c&Hci&Ha&Hload).
  exists c. split_and!; try done. intros j c' Hj Ha'.
  rewrite <-Hload. apply (Hmin (j, subtreeLoad c' s)). rewrite <-Hc.
  apply elem_of_candidates. eauto.
Qed.

(** ** The fuel of [pickF] *)

Section fuel.
Context (h : nat).

Definition keeps_height (pickc : destNode → string * destNode) : Prop :=
  ∀ c, height (pickc c).2 = height c.

Lemma insert_heights i (c c' : destNode) cs :
  cs !! i = Some c → height c' = height c → map height (<[i:=c']> cs) = map height cs.
Proof.
  intros Hi Hh. change (height <$> <[i:=c']> cs = height <$> cs). rewrite list_fmap_insert.
  apply list_insert_id. by rewrite list_lookup_fmap, Hi, Hh.
Qed.

Lemma tryAt_heights pickc idxs cs :
  keeps_height pickc → map height (tryAt pickc idxs cs).2 = map height cs.
Proof.
  intros Hk. revert cs. induction idxs as [|i rest IH]; intros cs; simpl; [done|].
  destruct (cs !! i) as [c|] eqn:Hi; [|done]. specialize (Hk c).
  destruct (pickc c) as [port c']; simpl in *.
  case_decide; [rewrite IH|]; by eapply insert_heights.
Qed.

Lemma tryAt_ext p1 p2 idxs cs :
  keeps_height p2 → (∀ c, (height c ≤ h)%nat → p1 c = p2 c) → (list_max (map height cs) ≤ h)%nat →
  tryAt p1 idxs cs = tryAt p2 idxs cs.
Proof.
  intros Hk He. revert cs. induction idxs as [|i rest IH]; intros cs Hm; simpl; [done|].
  destruct (cs !! i) as [c|] eqn:Hi; [|done].
  assert (height c ≤ h)%nat as Hc.
  { apply list_max_le in Hm. rewrite Forall_forall in Hm. apply Hm.
    apply list_elem_of_fmap. exists c. split; [done|by eapply list_elem_of_lookup_2]. }
  rewrite (He c) by done. pose proof (insert_heights i c (p2 c).2 cs Hi (Hk c)) as Hh.
  destruct (p2 c) as [port c']; simpl in *. case_decide; [|done].
  apply IH. by rewrite Hh.
Qed.

Lemma pickLeastLoaded_ext p1 p2 s cs rr :
  keeps_height p2 → (∀ c, (height c ≤ h)%nat → p1 c = p2 c) → (list_max (map height cs) ≤ h)%nat →
  pickLeastLoaded p1 s cs rr = pickLeastLoaded p2 s cs rr.
Proof.
  intros Hk He Hm. unfold pickLeastLoaded. destruct (candidates s cs) as [|c0 rest]; [done|].
  cbv zeta. rewrite (tryAt_ext p1 p2) by done.
  match goal with |- context [tryAt p2 ?l cs] => pose proof (tryAt_heights p2 l cs Hk) as Hh;
    destruct (tryAt p2 l cs) as [port cs1] end.
  case_decide; [|done]. simpl in Hh. by rewrite (tryAt_ext p1 p2) by (rewrite ?Hh; done).
Qed.

Lemma pickLeastLoaded_heights pickc s cs rr :
  keeps_height pickc → map height (pickLeastLoaded pickc s cs rr).1.2 = map height cs.
Proof.
  intros Hk. unfold pickLeastLoaded. destruct (candidates s cs) as [|c0 rest]; [done|]. cbv zeta.
  match goal with |- context [tryAt pickc ?l cs] => pose proof (tryAt_heights pickc l cs Hk) as Hh;
    destruct (tryAt pickc l cs) as [port cs1] end.
  case_decide; [|done]. simpl in Hh.
  pose proof (tryAt_heights pickc (c0 :: rest).*1 cs1 Hk) as Hh2.
  destruct (tryAt pickc (c0 :: rest).*1 cs1) as [port2 cs2]. simpl in *. congruence.
Qed.
End fuel.

Lemma pickF_height fuel s : keeps_height (pickF fuel s).
Proof.
  induction fuel as [|fuel IH]; intros [p|k cs cached rr]; simpl; try done.
  destruct k.
  - pose proof (tryAt_heights (pickF fuel s) (seq 0 (length cs)) cs IH) as Hh.
    destruct (tryAt _ _ _); simpl in *. by rewrite Hh.
  - pose proof (tryAt_heights (pickF fuel s) (rotation (u64 (u64 (rr + 1) - 1)) (length cs)) cs IH) as Hh.
    destruct (tryAt _ _ _); simpl in *. by rewrite Hh.
  - pose proof (pickLeastLoaded_heights (pickF fuel s) s cs rr IH) as Hh.
    destruct (pickLeastLoaded _ _ _ _) as [[? ?] ?]; simpl in *. by rewrite Hh.
Qed.

(** Fuel beyond the height of the tree changes nothing. *)
Lemma pickF_fuel s f1 f2 n :
  (height n ≤ f1)%nat → (height n ≤ f2)%nat → pickF f1 s n = pickF f2 s n.
Proof.
  revert f2 n. induction f1 as [|f1 IH]; intros f2 n H1 H2; [destruct n; simpl in H1; lia|].
  destruct f2 as [|f2]; [destruct n; simpl in H2; lia|].
  destruct n as [p|k cs cached rr]; [done|]. simpl in H1, H2.
  assert (∀ c, (height c ≤ list_max (map height cs))%nat → pickF f1 s c = pickF f2 s c) as He.
  { intros c Hc. apply IH; lia. }
  pose proof (pickF_height f2 s) as Hk. simpl. destruct k.
  - by rewrite (tryAt_ext _ _ _ _ _ Hk He) by done.
  - by rewrite (tryAt_ext _ _ _ _ _ Hk He) by done.
  - by rewrite (pickLeastLoaded_ext _ _ _ _ _ _ Hk He) by done.
Qed.

(** ** Which child a strategy serves *)

Definition serves (s : selection) (k : strategyKind) (cs : list destNode) (rr : Z) (i : nat) (c : destNode)
    : Prop :=
  match k with
  | strategyFailover => ∀ j c', (j < i)%nat → cs !! j = Some c' → ¬ reach s c'
  | strategyRoundRobin =>
      ∃ d : nat, (d < length cs)%nat ∧ Z.of_nat i = (rr + Z.of_nat d) mod Z.of_nat (length cs) ∧
        ∀ e j c', (e < d)%nat → Z.of_nat j = (rr + Z.of_nat e) mod Z.of_nat (length cs) →
          cs !! j = Some c' → ¬ reach s c'
  | strategyLeastLoaded =>
      ∀ j c', cs !! j = Some c' → reach s c' →
        foldl (λ total p, total + load s p) 0 (leaves c) ≤ foldl (λ total p, total + load s p) 0 (leaves c')
  end.

Definition pick_serves (N : Z) (fuel : nat) (s : selection) (k : strategyKind) (cs : list destNode) (rr : Z)
    (r : string * list destNode) : Prop :=
  Forall2 (λ c c', same_shape N c c') cs r.2 ∧
  if decide (r.1 = ""%string) then ∀ i c, cs !! i = Some c → ¬ reach s c
  else ∃ i c, cs !! i = Some c ∧ serves s k cs rr i c ∧ r.1 = (pickF fuel s c).1 ∧
         r.1 ∈ leaves c ∧ available s r.1 = true.

Section strategies.
Context (N : Z) (fuel : nat) (s : selection) (cs : list destNode).
Context (Hwf : Forall (wf N) cs).
Context (Hok : ∀ c, c ∈ cs → wf N c ∧ pick_ok N s c (pickF fuel s c)).

Lemma failover_serves rr :
  pick_serves N fuel s strategyFailover cs rr (tryAt (pickF fuel s) (seq 0 (length cs)) cs).
Proof.
  destruct (tryAt_spec N s (pickF fuel s) (seq 0 (length cs)) cs cs) as [Hsh Hr];
    [apply NoDup_seq|intros i ?%elem_of_seq; lia|done|by apply shapes_refl|done|].
  split; [done|]. case_decide.
  - intros i c Hi. apply (Hr i); [|done]. apply elem_of_seq. apply lookup_lt_Some in Hi. lia.
  - destruct Hr as (l1&i&l2&c&Hseq&Hc&?&?&?&Hpre). exists i, c. split_and!; try done.
    intros j c' Hj Hc'. apply (Hpre j); [|done].
    assert (length l1 = i) as Hl.
    { assert (seq 0 (length cs) !! length l1 = Some i) as Hx by (rewrite Hseq; by apply list_lookup_middle).
      apply lookup_seq in Hx as [-> _]. lia. }
    apply list_elem_of_lookup. exists j. rewrite <-(lookup_app_l l1 (i :: l2)) by lia. rewrite <-Hseq.
    apply lookup_seq. split; [lia|]. apply lookup_lt_Some in Hc'. lia.
Qed.

Lemma round_robin_serves rr :
  0 ≤ rr → rr + 2 ^ 32 < 2 ^ 64 → Z.of_nat (length cs) ≤ 2 ^ 32 →
  pick_serves N fuel s strategyRoundRobin cs rr
    (tryAt (pickF fuel s) (rotation (u64 (u64 (rr + 1) - 1)) (length cs)) cs).
Proof.
  intros Hrr Hb Hlen.
  assert (u64 (u64 (rr + 1) - 1) = rr) as ->.
  { unfold u64. rewrite (Z.mod_small (rr + 1)) by lia. rewrite Z.mod_small; lia. }
  destruct (tryAt_spec N s (pickF fuel s) (rotation rr (length cs)) cs cs) as [Hsh Hr];
    [apply rotation_NoDup; lia|apply rotation_bound|done|by apply shapes_refl|done|].
  split; [done|]. case_decide.
  - intros i c Hi. apply (Hr i); [|done]. apply lookup_lt_Some in Hi. apply rotation_complete; lia.
  - destruct Hr as (l1&i&l2&c&Hseq&Hc&?&?&?&Hpre). exists i, c. split_and!; try done.
    assert (rotation rr (length cs) !! length l1 = Some i) as Hx.
    { rewrite Hseq. by apply list_lookup_middle. }
    assert (length l1 < length cs)%nat as Hd.
    { pose proof (lookup_lt_Some _ _ _ Hx) as Hl. unfold rotation in Hl.
      by rewrite length_fmap, length_seq in Hl. }
    rewrite rotation_lookup in Hx by (done || lia). simplify_eq.
    exists (length l1). split; [done|]. split.
    { rewrite Z2Nat.id; [done|]. apply Z.mod_pos_bound. lia. }
    intros e j c' He Hj Hc'. apply (Hpre j); [|done].
    apply list_elem_of_lookup. exists e. rewrite <-(lookup_app_l l1 (Z.to_nat ((rr + Z.of_nat (length l1)) mod Z.of_nat (length cs)) :: l2)) by lia.
    rewrite <-Hseq, rotation_lookup by (done || lia). by rewrite <-Hj, Nat2Z.id.
Qed.

Lemma least_loaded_serves rr :
  let r := pickLeastLoaded (pickF fuel s) s cs rr in
  pick_serves N fuel s strategyLeastLoaded cs rr r.1 ∧ (r.2 = rr ∨ r.2 = u64 (rr + 1)).
Proof.
  intros r. subst r. unfold pickLeastLoaded. destruct (candidates s cs) as [|c0 rest] eqn:Hc.
  { split; [|by left]. split; [by apply shapes_refl|]. simpl. intros i c Hi Hr.
    destruct (Hok c) as [Hw _]; [by eapply list_elem_of_lookup_2|].
    assert ((i, subtreeLoad c s) ∈ candidates s cs) as Hin; [|rewrite Hc in Hin; set_solver].
    apply elem_of_candidates. exists c. split_and!; try done. by eapply availableUnder_reach. }
  cbv zeta. destruct (least_loaded_index s cs rr c0 rest Hc) as (c&Hi&Ha&Hmin). cbv zeta in Hi.
  match type of Hi with cs !! ?x = _ => set (i := x) in * end.
  destruct (Hok c) as [Hw Hp]; [by eapply list_elem_of_lookup_2|].
  destruct (tryAt_spec N s (pickF fuel s) [i] cs cs) as [Hsh Hr];
    [apply NoDup_singleton|intros ? ->%list_elem_of_singleton; by eapply lookup_lt_Some
    |done|by apply shapes_refl|done|].
  assert (reach s c) as Hrc by (by eapply availableUnder_reach).
  destruct (tryAt (pickF fuel s) [i] cs) as [port cs1]. simpl in Hsh, Hr. case_decide.
  { exfalso. eapply Hr; [by apply list_elem_of_singleton|done|done]. }
  split; [|by right]. split; [done|]. simpl. rewrite decide_False by done.
  destruct Hr as (l1&i'&l2&c'&Hl&Hc'&?&?&?&_).
  assert (i' = i) as -> by (destruct l1 as [|? [|??]]; simplify_eq/=; done). simplify_eq.
  exists i, c. split_and!; try done. intros j c2 Hj Hr2.
  destruct (Hok c2) as [Hw2 _]; [by eapply list_elem_of_lookup_2|].
  rewrite <-(subtreeLoad_leaves N s c), <-(subtreeLoad_leaves N s c2) by done.
  eapply Hmin; [done|]. by eapply availableUnder_reach.
Qed.
End strategies.

Lemma pick_serves_ok N fuel s k cs cached rr rr' r :
  wf N (strategyNode k cs cached rr) → 0 ≤ rr' ≤ N + 1 →
  pick_serves N fuel s k cs rr r → pick_ok N s (strategyNode k cs cached rr) (r.1, strategyNode k r.2 cached rr').
Proof.
  intros Hw Hrr [Hsh Hr]. destruct (node_shape N k cs cached rr r.2 rr' Hw Hsh Hrr) as (Hw'&Hl&Hh).
  split_and!; try done. cbn [fst snd]. case_decide.
  - rewrite (reach_node _ _ _ _ _ _ Hw). intros (i&c&?&?). eapply Hr; eauto.
  - destruct Hr as (i&c&Hc&_&_&Hin&?). split; [|done]. rewrite (leaves_node _ _ _ _ _ Hw).
    apply elem_of_flat_leaves. exists c. split; [by eapply list_elem_of_lookup_2|done].
Qed.

Lemma pickF_node N fuel s k cs cached rr :
  N + 2 ^ 32 < 2 ^ 64 → wf N (strategyNode k cs cached rr) →
  (∀ c, c ∈ cs → wf N c ∧ pick_ok N s c (pickF fuel s c)) →
  ∃ r rr', pickF (S fuel) s (strategyNode k cs cached rr) = (r.1, strategyNode k r.2 cached rr') ∧
    pick_serves N fuel s k cs rr r ∧ 0 ≤ rr' ≤ N + 1 ∧
    (k = strategyRoundRobin → rr' = rr + 1).
Proof.
  intros HN Hw Hok. inversion Hw as [|? ? ? Hne Hlen Hcs Hrr]; subst.
  assert (u64 (rr + 1) = rr + 1) as Hu by (unfold u64; rewrite Z.mod_small; lia).
  simpl. destruct k.
  - pose proof (failover_serves N fuel s cs Hcs Hok rr) as Hs. eexists _, rr.
    split; [|split; [exact Hs|split; [lia|done]]]. by destruct (tryAt _ _ _).
  - pose proof (round_robin_serves N fuel s cs Hcs Hok rr) as Hs. eexists _, (u64 (rr + 1)).
    split; [|split; [apply Hs; lia|split; [lia|done]]]. by destruct (tryAt _ _ _).
  - destruct (least_loaded_serves N fuel s cs Hcs Hok rr) as [Hs Hrr'].
    destruct (pickLeastLoaded _ _ _ _) as [[port cs'] rr']. simpl in *.
    exists (port, cs'), rr'. split_and!; try done; destruct Hrr'; subst; lia.
Qed.

Lemma pickF_ok N fuel s n :
  N + 2 ^ 32 < 2 ^ 64 → wf N n → (height n ≤ fuel)%nat → pick_ok N s n (pickF fuel s n).
Proof.
  intros HN. revert n. induction fuel as [|fuel IH]; intros n Hw Hf; [destruct n; simpl in Hf; lia|].
  destruct n as [p|k cs cached rr].
  - inversion Hw; subst. simpl. destruct (available s p) eqn:Ha; split_and!; simpl; try done;
      try (eapply wf_mono; [|done]; lia).
    + rewrite decide_False by done. set_solver.
    + intros (p'&Hp'&?). simpl in Hp'. apply list_elem_of_singleton in Hp'. congruence.
  - destruct (pickF_node N fuel s k cs cached rr HN Hw) as (r&rr'&->&Hs&Hrr&_).
    { intros c Hc. assert (wf N c) as Hwc by (inversion Hw; subst; by eapply Forall_forall).
      split; [done|]. apply IH; [done|]. pose proof (height_child k cs cached rr c Hc). lia. }
    by eapply pick_serves_ok.
Qed.

Lemma children_ok N fuel s k cs cached rr :
  N + 2 ^ 32 < 2 ^ 64 → wf N (strategyNode k cs cached rr) → (list_max (map height cs) ≤ fuel)%nat →
  ∀ c, c ∈ cs → wf N c ∧ pick_ok N s c (pickF fuel s c).
Proof.
  intros HN Hw Hf c Hc. assert (wf N c) as Hwc by (inversion Hw; subst; by eapply Forall_forall).
  split; [done|]. apply pickF_ok; [done|done|].
  pose proof (height_child k cs cached rr c Hc) as Hh. simpl in Hh. lia.
Qed.

Lemma pickF_pick fuel s n : (height n ≤ fuel)%nat → pickF fuel s n = pick s n.
Proof. intros. by apply pickF_fuel. Qed.

(** ** Sequences of picks *)

(** The ports successive picks return, each under the signals of its moment, and the
    tree they leave. *)
Fixpoint picks (sels : list selection) (n : destNode) : list string * destNode :=
  match sels with
  | [] => ([], n)
  | s :: rest =>
      let '(port, n1) := pick s n in
      let '(ports, n2) := picks rest n1 in (port :: ports, n2)
  end.

Lemma picks_shape N sels n :
  wf N n → N + Z.of_nat (length sels) + 2 ^ 32 < 2 ^ 64 →
  let n' := (picks sels n).2 in wf (N + Z.of_nat (length sels)) n' ∧ leaves n' = leaves n.
Proof.
  revert N n. induction sels as [|s sels IH]; intros N n Hw Hb; simpl in *.
  { split; [|done]. by rewrite Z.add_0_r. }
  pose proof (pickF_ok N (height n) s n ltac:(lia) Hw ltac:(done)) as (Hw1&Hl1&_&_).
  fold (pick s n) in Hw1, Hl1. destruct (pick s n) as [port n1]; simpl in *.
  destruct (IH (N + 1) n1 Hw1) as [Hw2 Hl2]; [lia|].
  destruct (picks sels n1) as [ports n2]; simpl in *.
  split; [eapply wf_mono; [|exact Hw2]; lia|congruence].
Qed.

(** ** What [parseDest] accepts *)

(** Every list in the configuration has at most 2^32 entries. *)
Inductive small : cfgval → Prop :=
  | small_list l : Z.of_nat (length l) ≤ 2 ^ 32 → Forall small l → small (CList l)
  | small_map m : Forall small m.*2 → small (CMap m)
  | small_str s : small (CStr s)
  | small_int z : small (CInt z)
  | small_float o : small (CFloat o)
  | small_bool b : small (CBool b)
  | small_null : small CNull.

(** The configurations that denote a tree. *)
Inductive treeCfg : cfgval → Prop :=
  | tc_leaf s : HasPrefix s "out" = true → treeCfg (CStr s)
  | tc_node name k l : strategyOf name = Some k → l ≠ [] → Forall treeCfg l →
      treeCfg (CMap [(name, CList l)]).

Lemma cfgval_rect_nested (P : cfgval → Prop) :
  (∀ s, P (CStr s)) → (∀ m, Forall P m.*2 → P (CMap m)) → (∀ l, Forall P l → P (CList l)) →
  (∀ z, P (CInt z)) → (∀ o, P (CFloat o)) → (∀ b, P (CBool b)) → P CNull → ∀ v, P v.
Proof.
  intros H1 H2 H3 H4 H5 H6 H7. fix IH 1. intros [s|m|l|z|o|b|];
    [apply H1|apply H2|apply H3|apply H4|apply H5|apply H6|exact H7].
  - induction m as [|[k v] m IHm]; constructor; [apply IH|apply IHm].
  - induction l as [|v l IHl]; constructor; [apply IH|apply IHl].
Qed.

(** A property of configuration values, by induction that reaches the children of a
    strategy map. *)
Lemma cfgval_tree_ind (Q : cfgval → Prop) :
  (∀ s, Q (CStr s)) → (∀ m, (∀ name l, m = [(name, CList l)] → Forall Q l) → Q (CMap m)) →
  (∀ v, (∀ s, v ≠ CStr s) → (∀ m, v ≠ CMap m) → Q v) → ∀ v, Q v.
Proof.
  intros H1 H2 H3 v. enough (Q v ∧ ∀ l, v = CList l → Forall Q l) as [? _]; [done|].
  induction v as [s|m IH|l IH|z|o|b|] using cfgval_rect_nested; try (split; [by apply H3|done]).
  - split; [apply H1|done].
  - split; [|done]. apply H2. intros name l ->. simpl in IH. inversion IH as [|? ? [_ Hl] _]; subst. by apply Hl.
  - split; [by apply H3|]. intros l' [= <-]. eapply Forall_impl; [exact IH|]. by intros ? [? _].
Qed.

Lemma parseChildren_inr parse name i l cs :
  parseChildren parse name i l = inr cs ↔ Forall2 (λ v c, parse v = inr c) l cs.
Proof.
  revert i cs. induction l as [|v l IH]; intros i cs; simpl.
  - split; [intros [= <-]; constructor|by inversion 1].
  - destruct (parse v) as [e|c] eqn:Hv; [split; [done|inversion 1; congruence]|].
    destruct (parseChildren parse name (S i) l) as [e|cs'] eqn:Hl.
    + split; [done|]. inversion 1 as [|? ? ? ? _ Hrest]; subst. apply (IH (S i)) in Hrest. congruence.
    + split; [intros [= <-]; constructor; [done|by eapply IH]|].
      inversion 1 as [|? ? ? ? ? Hrest]; subst. apply (IH (S i)) in Hrest. congruence.
Qed.

Lemma parseDest_node name l :
  parseDest (CMap [(name, CList l)]) =
  match strategyOf name with
  | None => inl (EDestStrategy name)
  | Some k => match l with
              | [] => inl (EDestChildren name)
              | _ => match parseChildren parseDest name 0 l with
                     | inl e => inl e
                     | inr cs => inr (strategyNode k cs (flat_map leaves cs) 0)
                     end
              end
  end.
Proof. simpl. destruct (strategyOf name); [|done]. by destruct l. Qed.

Lemma parseDest_map m t :
  parseDest (CMap m) = inr t → ∃ name l k cs, m = [(name, CList l)] ∧ strategyOf name = Some k ∧ l ≠ [] ∧
    Forall2 (λ v c, parseDest v = inr c) l cs ∧ t = strategyNode k cs (flat_map leaves cs) 0.
Proof.
  destruct m as [|[name arg] [|]]; [done| |done]. simpl.
  destruct (strategyOf name) as [k|] eqn:Hk; [|done]. destruct arg as [| |l| | | |]; try done.
  destruct l as [|v l]; [done|].
  destruct (parseChildren parseDest name 0 (v :: l)) as [e|cs] eqn:Hp; [done|]. intros [= <-].
  apply parseChildren_inr in Hp. by eexists name, _, k, cs.
Qed.

Lemma HasPrefix_out_nonempty p : HasPrefix p "out" = true → p ≠ ""%string.
Proof. by intros H ->. Qed.

Lemma parseDest_wf v t :
  small v → parseDest v = inr t → wf 0 t ∧ ∀ p, p ∈ leaves t → HasPrefix p "out" = true.
Proof.
  revert t. induction v as [s|m IH|v Hs Hm] using cfgval_tree_ind; intros t Hsm Hp.
  - simpl in Hp. case_match eqn:Hpre; simplify_eq. split.
    + constructor. by apply HasPrefix_out_nonempty.
    + intros p Hin. simpl in Hin. by apply list_elem_of_singleton in Hin as ->.
  - apply parseDest_map in Hp as (name&l&k&cs&->&Hk&Hne&Hcs&->).
    inversion Hsm as [|? Hf| | | | |]; subst. simpl in Hf. inversion Hf as [|? ? Hl _]; subst.
    inversion Hl as [? Hlen Hsl| | | | | |]; subst.
    assert (Forall (λ c, wf 0 c ∧ ∀ p, p ∈ leaves c → HasPrefix p "out" = true) cs) as Hall.
    { specialize (IH name l eq_refl). clear - IH Hcs Hsl.
      induction Hcs; inversion IH; inversion Hsl; subst; constructor; eauto. }
    assert (wf 0 (strategyNode k cs (flat_map leaves cs) 0)) as Hw.
    { constructor; [|by rewrite <-(Forall2_length _ _ _ Hcs)| |lia].
      - intros ->. by inversion Hcs; subst.
      - eapply Forall_impl; [exact Hall|]. by intros ? [? _]. }
    split; [done|]. rewrite (leaves_node _ _ _ _ _ Hw). intros p (c&Hc&Hp)%elem_of_flat_leaves.
    eapply Forall_forall in Hall as [_ Hall]; [|exact Hc]. by apply Hall.
  - destruct v; try done; [by exfalso; eapply Hs|by exfalso; eapply Hm].
Qed.

Lemma parseDest_accepts v : (∃ t, parseDest v = inr t) ↔ treeCfg v.
Proof.
  induction v as [s|m IH|v Hs Hm] using cfgval_tree_ind.
  - simpl. split.
    + intros [t Ht]. case_match eqn:Hpre; [by constructor|done].
    + inversion 1 as [? Hpre|]; subst. rewrite Hpre. eauto.
  - split.
    + intros [t (name&l&k&cs&->&Hk&Hne&Hcs&->)%parseDest_map]. econstructor; [done..|].
      specialize (IH name l eq_refl). clear - IH Hcs. induction Hcs; inversion IH as [|? ? Hx]; subst;
        constructor; [apply Hx|]; eauto.
    + inversion 1 as [|name k l Hk Hne Hl]; subst. specialize (IH name l eq_refl).
      rewrite parseDest_node, Hk. destruct l as [|v l]; [done|].
      assert (∃ cs, Forall2 (λ v c, parseDest v = inr c) (v :: l) cs) as [cs Hcs].
      { clear - IH Hl. induction Hl as [|? ? Hx _ IHl]; [by exists []|].
        inversion IH as [|? ? Hq Hr]; subst. apply Hq in Hx as [c ?]. destruct (IHl Hr) as [cs ?].
        exists (c :: cs). by constructor. }
      apply (parseChildren_inr _ name 0) in Hcs as ->. eauto.
  - split; [|inversion 1; subst; [by exfalso; eapply Hs|by exfalso; eapply Hm]].
    intros [t Ht]. destruct v; try done; [by exfalso; eapply Hs|by exfalso; eapply Hm].
Qed.

Lemma pick_node N s k cs cached rr :
  N + 2 ^ 32 < 2 ^ 64 → wf N (strategyNode k cs cached rr) →
  ∃ r rr', pick s (strategyNode k cs cached rr) = (r.1, strategyNode k r.2 cached rr') ∧
    pick_serves N (list_max (map height cs)) s k cs rr r ∧ 0 ≤ rr' ≤ N + 1 ∧
    (k = strategyRoundRobin → rr' = rr + 1).
Proof.
  intros HN Hw. apply pickF_node; [done|done|]. by eapply children_ok.
Qed.

Lemma shapes_map_leaves N cs cs' :
  Forall2 (λ c c', same_shape N c c') cs cs' → leaves <$> cs' = leaves <$> cs.
Proof. induction 1 as [|c c' cs cs' (_&Hl&_) _ IH]; [done|]. by rewrite !fmap_cons, Hl, IH. Qed.

Lemma round_robin_sequence N sels cs cached rr k port :
  N + Z.of_nat (length sels) + 2 ^ 32 < 2 ^ 64 →
  wf N (strategyNode strategyRoundRobin cs cached rr) →
  Forall (λ s, ∀ l, l ∈ leaves <$> cs → ∃ p, p ∈ l ∧ available s p = true) sels →
  (picks sels (strategyNode strategyRoundRobin cs cached rr)).1 !! k = Some port →
  ∃ l, (leaves <$> cs) !! Z.to_nat ((rr + Z.of_nat k) mod Z.of_nat (length cs)) = Some l ∧ port ∈ l.
Proof.
  revert N cs rr k. induction sels as [|s sels IH]; intros N cs rr k HN Hw Hav Hk; [by destruct k|].
  simpl in HN. inversion Hav as [|? ? Hs Hrest]; subst.
  destruct (pick_node N s strategyRoundRobin cs cached rr ltac:(lia) Hw) as (r&rr'&Hp&Hserves&Hb&Hrr).
  rewrite (Hrr eq_refl) in *. destruct Hserves as [Hsh Hport]. simpl in Hk. rewrite Hp in Hk. simpl in Hk.
  assert (length r.2 = length cs) as Hlen by (by rewrite (Forall2_length _ _ _ Hsh)).
  destruct (picks sels (strategyNode strategyRoundRobin r.2 cached (rr + 1))) as [ports n2] eqn:Hps.
  destruct k as [|k]; simpl in Hk.
  - assert (port = r.1) as -> by congruence. clear Hk IH. rewrite Z.add_0_r.
    assert (cs ≠ []) as Hne by (by inversion Hw; subst).
    assert (∀ i c, cs !! i = Some c → reach s c) as Hreach.
    { intros i c Hi. apply Hs. apply list_elem_of_fmap. exists c. split; [done|by eapply list_elem_of_lookup_2]. }
    case_decide.
    + destruct cs as [|c cs]; [done|]. exfalso. by apply (Hport 0%nat c), (Hreach 0%nat).
    + destruct Hport as (i&c&Hi&(d&Hd&Hid&Hskip)&_&Hin&_).
      destruct d as [|d].
      * rewrite Z.add_0_r in Hid. rewrite <-Hid, Nat2Z.id, list_lookup_fmap, Hi. by eexists.
      * exfalso. pose proof (Z.mod_pos_bound rr (Z.of_nat (length cs)) ltac:(lia)) as Hm.
        destruct (lookup_lt_is_Some_2 cs (Z.to_nat (rr mod Z.of_nat (length cs)))) as [c0 Hc0]; [lia|].
        eapply (Hskip 0%nat); [lia| |exact Hc0|by eapply Hreach].
        rewrite Z.add_0_r. lia.
  - destruct (IH (N + 1) r.2 (rr + 1) k) as (l&Hl&Hin); [lia| | |by rewrite Hps|].
    + apply (node_shape N _ _ _ _ _ (rr + 1) Hw Hsh ltac:(lia)).
    + by rewrite (shapes_map_leaves _ _ _ Hsh).
    + exists l. split; [|done]. rewrite (shapes_map_leaves _ _ _ Hsh), Hlen in Hl.
      by replace (rr + Z.of_nat (S k)) with (rr + 1 + Z.of_nat k) by lia.
Qed.

(** ** Properties *)

(** a destination parses exactly when it is a tree of the documented form (a port
    named out..., or one known strategy over a non-empty list of trees); and whatever
    picks came before, a pick on a parsed tree returns an available output port of the
    tree, or nothing when none of its ports is available: no strategy and no nesting
    ever misses an available port. *)
Theorem parsed_tree_picks v sels s :
  ((∃ t, parseDest v = inr t) ↔ treeCfg v) ∧
  (small v → Z.of_nat (length sels) + 2 ^ 32 < 2 ^ 64 → ∀ t, parseDest v = inr t →
   let port := (pick s (picks sels t).2).1 in
   (port = ""%string ∧ ∀ p, p ∈ leaves t → available s p = false) ∨
   (port ≠ ""%string ∧ port ∈ leaves t ∧ available s port = true ∧ HasPrefix port "out" = true)).
Proof.
  split; [apply parseDest_accepts|]. intros Hsm Hb t Ht port.
  destruct (parseDest_wf v t Hsm Ht) as [Hw Hout].
  destruct (picks_shape 0 sels t Hw ltac:(lia)) as [Hw' Hl].
  destruct (pickF_ok (Z.of_nat (length sels)) (height (picks sels t).2) s _ ltac:(lia) Hw' ltac:(done))
    as (_&_&_&Hport).
  fold (pick s (picks sels t).2) in Hport. fold port in Hport. rewrite Hl in Hport. case_decide.
  - left. split; [done|]. intros p Hp. destruct (available s p) eqn:Ha; [|done].
    exfalso. apply Hport. exists p. by rewrite Hl.
  - right. destruct Hport. eauto.
Qed.

(** which child of a strategy serves a request. When some port beneath the node is
    available, the pick is the pick of one child: under failover the first child with
    an available port; under round robin the first such child from the rotation
    counter onwards, in cyclic order; under least loaded a child whose ports together
    hold the fewest open tickets among the children with an available port. *)
Theorem strategy_serves N s k cs cached rr :
  N + 2 ^ 32 < 2 ^ 64 → wf N (strategyNode k cs cached rr) → reach s (strategyNode k cs cached rr) →
  ∃ i c, cs !! i = Some c ∧ serves s k cs rr i c ∧
    (pick s (strategyNode k cs cached rr)).1 = (pick s c).1 ∧
    (pick s c).1 ∈ leaves c ∧ available s (pick s c).1 = true.
Proof.
  intros HN Hw Hr. destruct (pick_node N s k cs cached rr HN Hw) as (r&rr'&->&[_ Hs]&_).
  apply (reach_node _ _ _ _ _ _ Hw) in Hr as (i0&c0&Hi0&Hr0). simpl. case_decide.
  - exfalso. by eapply Hs.
  - destruct Hs as (i&c&Hi&Hsrv&Hp&Hin&Ha). exists i, c.
    rewrite <-(pickF_pick (list_max (map height cs)) s c), <-Hp; [done|].
    pose proof (height_child k cs cached rr c (list_elem_of_lookup_2 _ _ _ Hi)) as Hh. simpl in Hh. lia.
Qed.

(** round robin is fair. While every child keeps an available port, the k-th of a
    series of picks is served by child (rr + k) mod n, so that any n successive picks
    serve each of the n children once. *)
Theorem round_robin_fair N sels cs cached rr k port :
  N + Z.of_nat (length sels) + 2 ^ 32 < 2 ^ 64 →
  wf N (strategyNode strategyRoundRobin cs cached rr) →
  Forall (λ s, ∀ c, c ∈ cs → reach s c) sels →
  (picks sels (strategyNode strategyRoundRobin cs cached rr)).1 !! k = Some port →
  ∃ c, cs !! Z.to_nat ((rr + Z.of_nat k) mod Z.of_nat (length cs)) = Some c ∧ port ∈ leaves c.
Proof.
  intros HN Hw Hav Hk. destruct (round_robin_sequence N sels cs cached rr k port HN Hw) as (l&Hl&Hin);
    [|done|].
  - eapply Forall_impl; [exact Hav|]. intros s Hs l (c&->&Hc)%list_elem_of_fmap. by apply Hs.
  - rewrite list_lookup_fmap in Hl. destruct (cs !! _) as [c|] eqn:Hc; simplify_eq/=. eauto.
Qed.

(** ** A tree at work *)

Module TreeExample.
Definition cfg : cfgval :=
  CMap [("failover"%string, CList
    [CMap [("least_loaded"%string, CList [CStr "out_a"; CStr "out_b"])]; CStr "out_west"])].

Definition ringCfg : cfgval := CMap [("round_robin"%string, CList [CStr "out_a"; CStr "out_b"; CStr "out_c"])].

Definition ring : destNode :=
  strategyNode strategyRoundRobin [leafNode "out_a"; leafNode "out_b"; leafNode "out_c"]
    ["out_a"; "out_b"; "out_c"] 0.

Definition up (down : string) (busy : string) : selection :=
  {| available := λ p, negb (bool_decide (p = down)); load := λ p, if bool_decide (p = busy) then 5 else 1 |}.
End TreeExample.

Lemma parsed_tree_picks_witness :
  ∃ t, parseDest TreeExample.cfg = inr t ∧
    (pick (TreeExample.up "out_a" "out_a") (picks [TreeExample.up "" "out_b"] t).2).1 = "out_b"%string ∧
    let port := (pick (TreeExample.up "out_a" "out_a") (picks [TreeExample.up "" "out_b"] t).2).1 in
    (port = ""%string ∧ ∀ p, p ∈ leaves t → available (TreeExample.up "out_a" "out_a") p = false) ∨
    (port ≠ ""%string ∧ port ∈ leaves t ∧ available (TreeExample.up "out_a" "out_a") port = true ∧
     HasPrefix port "out" = true).
Proof.
  destruct (parseDest TreeExample.cfg) as [e|t] eqn:Ht; [vm_compute in Ht; discriminate|].
  exists t. split; [done|]. split; [by vm_compute in Ht; simplify_eq|].
  apply (parsed_tree_picks TreeExample.cfg [TreeExample.up "" "out_b"] (TreeExample.up "out_a" "out_a"));
    [repeat constructor; simpl; lia|simpl; lia|exact Ht].
Defined.

Lemma ring_wf : wf 0 TreeExample.ring.
Proof. apply (wf_node 0 strategyRoundRobin); [done|simpl; lia|repeat constructor; done|lia]. Qed.

Lemma strategy_serves_witness :
  ∃ i c, [leafNode "out_a"; leafNode "out_b"; leafNode "out_c"] !! i = Some c ∧
    serves (TreeExample.up "out_a" "") strategyRoundRobin
      [leafNode "out_a"; leafNode "out_b"; leafNode "out_c"] 0 i c ∧
    (pick (TreeExample.up "out_a" "") TreeExample.ring).1 = (pick (TreeExample.up "out_a" "") c).1 ∧
    (pick (TreeExample.up "out_a" "") c).1 ∈ leaves c ∧
    available (TreeExample.up "out_a" "") (pick (TreeExample.up "out_a" "") c).1 = true.
Proof.
  apply (strategy_serves 0 (TreeExample.up "out_a" "") strategyRoundRobin
    [leafNode "out_a"; leafNode "out_b"; leafNode "out_c"] ["out_a"; "out_b"; "out_c"]%string 0);
    [lia|apply ring_wf|].
  exists "out_b"%string. split; [by right; left|done].
Defined.

Lemma round_robin_fair_witness :
  (picks (replicate 4 (TreeExample.up "" "")) TreeExample.ring).1 = ["out_a"; "out_b"; "out_c"; "out_a"]%string ∧
  ∃ c, [leafNode "out_a"; leafNode "out_b"; leafNode "out_c"] !! 2%nat = Some c ∧ "out_c"%string ∈ leaves c.
Proof.
  split; [reflexivity|].
  apply (round_robin_fair 0 (replicate 4 (TreeExample.up "" ""))
    [leafNode "out_a"; leafNode "out_b"; leafNode "out_c"] ["out_a"; "out_b"; "out_c"]%string 0 2);
    [simpl; lia|apply ring_wf| |reflexivity].
  apply Forall_replicate. intros c Hc. repeat (apply elem_of_cons in Hc as [->|Hc]);
    [eexists; split; [by left|done]..|by apply not_elem_of_nil in Hc].
Defined.
