(* ===== verification/FluxMsg.v ===== *)
(** * pkg/fluxmsg: the message and its data tree

    Models [struct.go] and [helper.go].  A message's [Data] is a Go [map[string]any]:
    maps and slices are reference types that messages, tickets and clones may share,
    so they live in a [heap] and a value holds a location.  A write to a nil map
    panics ([SetPanic]).  [fmt.Sprint] of a composite value is the one piece of the
    standard library left abstract where it is used (module Keys).

    [descend], [fin] and the lemmas about them are the shared theory: [fin h n v] says
    that the data beneath [v] is finite (no cycle through maps or slices) with depth
    at most [n]. *)
From Stdlib Require Import Ascii.
From S2P Require Import Prelude.
Open Scope Z_scope.

(** ** Values and the heap *)

Abbreviation loc := N (only parsing).

(** A Go [any] as messages carry it. [VOther] is any other dynamic type (a float, a
    time, ...), represented by what [fmt.Sprint] prints for it. *)
Inductive val :=
  | VNil
  | VBool (b : bool)
  | VInt (z : Z)
  | VStr (s : string)
  | VBytes (s : string)
  | VMapS (m : option loc)
  | VMapA (m : option loc)
  | VSlice (l : option loc)
  | VOther (text : string).

(** A key of a [map[any]any]. *)
Inductive akey := KStr (s : string) | KInt (z : Z) | KOther (text : string).

#[export] Instance akey_eq_dec : EqDecision akey.
Proof. solve_decision. Defined.

#[export] Instance akey_countable : Countable akey.
Proof.
  refine (inj_countable'
    (λ k, match k with KStr s => inl s | KInt z => inr (inl z) | KOther t => inr (inr t) end)
    (λ x, match x with inl s => KStr s | inr (inl z) => KInt z | inr (inr t) => KOther t end) _).
  by intros [].
Defined.

Inductive obj :=
  | OMapS (m : gmap string val)
  | OMapA (m : gmap akey val)
  | OSlice (l : list val).

Record Hop := mkHop { GearID : Z; PortID : Z; TSNano : Z }.

Record FluxMsg := mkFluxMsg {
  FluxID : Z; RefFluxID : Z; TraceID : string; SrcGearID : Z;
  Metadata : option loc;
  Data : option loc;
  Flags : Z;
  RawPayload : string;
  Path : list Hop;
  TSInit : Z;
}.

(** One counter allocates every object; a location is used once. *)
Record heap := mkHeap {
  nxt : N;
  objs : gmap loc obj;
  metas : gmap loc (gmap string string);
  msgs : gmap loc FluxMsg;
}.

Definition setObjs (o : gmap loc obj) (h : heap) : heap := mkHeap (nxt h) o (metas h) (msgs h).
Definition setMetas (m : gmap loc (gmap string string)) (h : heap) : heap := mkHeap (nxt h) (objs h) m (msgs h).
Definition setMsgs (m : gmap loc FluxMsg) (h : heap) : heap := mkHeap (nxt h) (objs h) (metas h) m.

Definition alloc (o : obj) (h : heap) : heap * loc :=
  (mkHeap (nxt h + 1) (<[nxt h := o]> (objs h)) (metas h) (msgs h), nxt h).

(** ** Reading and writing through a map value *)

Definition isMap (v : val) : bool := match v with VMapS _ | VMapA _ => true | _ => false end.

(** [v[key]] for either map type; a nil map and a value that is no map yield nothing. *)
Definition mapGet (h : heap) (container : val) (key : string) : option val :=
  match container with
  | VMapS (Some l) => match objs h !! l with Some (OMapS m) => m !! key | _ => None end
  | VMapA (Some l) => match objs h !! l with Some (OMapA m) => m !! KStr key | _ => None end
  | _ => None
  end.

(** [v[key] = x]; [None] is the panic of a write to a nil map. *)
Definition mapPut (h : heap) (container : val) (key : string) (x : val) : option heap :=
  match container with
  | VMapS (Some l) =>
      match objs h !! l with Some (OMapS m) => Some (setObjs (<[l := OMapS (<[key := x]> m)]> (objs h)) h) | _ => None end
  | VMapA (Some l) =>
      match objs h !! l with Some (OMapA m) => Some (setObjs (<[l := OMapA (<[KStr key := x]> m)]> (objs h)) h) | _ => None end
  | _ => None
  end.

(** [strings.Split(s, ".")]: never empty. *)
Fixpoint splitDot (s : string) : list string :=
  match s with
  | EmptyString => [""%string]
  | String c s' =>
      if Ascii.eqb c "."%char then ""%string :: splitDot s'
      else match splitDot s' with
           | p :: ps => String c p :: ps
           | [] => [String c ""]
           end
  end.

(** ** helper.go *)

Definition sprintKey (k : akey) : string :=
  match k with KStr s => s | KInt z => pretty z | KOther t => t end.

(** [AsDataMap]: the entries of the map, keys rendered as strings. *)
Definition AsDataMap (h : heap) (v : val) : option (gmap string val) :=
  match v with
  | VMapS None => Some ∅
  | VMapS (Some l) => match objs h !! l with Some (OMapS m) => Some m | _ => None end
  | VMapA None => Some ∅
  | VMapA (Some l) =>
      match objs h !! l with
      | Some (OMapA m) => Some (list_to_map (prod_map sprintKey id <$> map_to_list m))
      | _ => None
      end
  | _ => None
  end.

Inductive setResult := SetOk | SetConflict (part : string) | SetPanic.

Fixpoint setPath (h : heap) (current : val) (parts : list string) (x : val) : setResult * heap :=
  match parts with
  | [] => (SetOk, h)
  | [part] =>
      if isMap current
      then match mapPut h current part x with Some h' => (SetOk, h') | None => (SetPanic, h) end
      else (SetConflict part, h)
  | part :: rest =>
      if isMap current then
        match mapGet h current part with
        | None =>
            let '(h1, l) := alloc (OMapS ∅) h in
            match mapPut h1 current part (VMapS (Some l)) with
            | Some h2 => setPath h2 (VMapS (Some l)) rest x
            | None => (SetPanic, h1)
            end
        | Some next => if isMap next then setPath h next rest x else (SetConflict part, h)
        end
      else (SetConflict part, h)
  end.

(** [m.Set(key, val)] *)
Definition Set_ (h : heap) (m : FluxMsg) (key : string) (x : val) : setResult * heap :=
  setPath h (VMapS (Data m)) (splitDot key) x.

Fixpoint getPath (h : heap) (current : val) (parts : list string) : option val :=
  match parts with
  | [] => None
  | [part] => mapGet h current part
  | part :: rest =>
      match mapGet h current part with
      | Some next => if isMap next then getPath h next rest else None
      | None => None
      end
  end.

(** [m.Get(key)] *)
Definition Get (h : heap) (m : FluxMsg) (key : string) : option val :=
  getPath h (VMapS (Data m)) (splitDot key).

Inductive getErr := EKeyNotFound (key : string) | EKeyNotString (key : string).

Definition GetString (h : heap) (m : FluxMsg) (key : string) : getErr + string :=
  match Get h m key with
  | None => inl (EKeyNotFound key)
  | Some (VStr s) => inr s
  | Some _ => inl (EKeyNotString key)
  end.

(** [New] *)
Definition New (h : heap) : heap * loc :=
  let meta := nxt h in let data := (nxt h + 1)%N in let l := (nxt h + 2)%N in
  (mkHeap (nxt h + 3) (<[data := OMapS ∅]> (objs h)) (<[meta := ∅]> (metas h))
     (<[l := mkFluxMsg 0 0 "" 0 (Some meta) (Some data) 0 "" [] 0]> (msgs h)), l).

(** ** Finite data *)

(** The values an object holds. *)
Definition child (o : obj) (v : val) : Prop :=
  match o with
  | OMapS m => ∃ k, m !! k = Some v
  | OMapA m => ∃ k, m !! k = Some v
  | OSlice l => v ∈ l
  end.

Definition vloc (v : val) : option loc :=
  match v with VMapS o | VMapA o | VSlice o => o | _ => None end.

(** The object kind a value's location must hold (Go's typing). *)
Definition kind_ok (v : val) (o : obj) : Prop :=
  match v, o with
  | VMapS _, OMapS _ | VMapA _, OMapA _ | VSlice _, OSlice _ => True
  | _, _ => False
  end.

Inductive fin (h : heap) : nat → val → Prop :=
  | fin_flat n v : vloc v = None → fin h n v
  | fin_ref n v l o : vloc v = Some l → objs h !! l = Some o → kind_ok v o →
      (∀ c, child o c → fin h n c) → fin h (S n) v.

(** Following map entries. *)
Fixpoint descend (h : heap) (v : val) (ps : list string) : option val :=
  match ps with
  | [] => Some v
  | p :: ps => match mapGet h v p with Some v' => descend h v' ps | None => None end
  end.

Section theory.
Implicit Types (h : heap) (v x : val) (l : loc).

Lemma mapGet_child h v p x :
  mapGet h v p = Some x → ∃ l o, vloc v = Some l ∧ objs h !! l = Some o ∧ kind_ok v o ∧ child o x.
Proof.
  intros H. destruct v as [| | | | |[l|]|[l|]| |]; simpl in H; split_matches;
    (eexists l, _; split_and!; [done|done|done|by eexists]).
Qed.

Lemma fin_mapGet h n v p x : fin h n v → mapGet h v p = Some x → ∃ m, n = S m ∧ fin h m x.
Proof.
  intros Hf (l&o&Hl&Ho&_&Hc)%mapGet_child. inversion Hf; simplify_eq. eauto.
Qed.

Lemma fin_descend h n v ps x :
  fin h n v → descend h v ps = Some x → ∃ m, (n = length ps + m)%nat ∧ fin h m x.
Proof.
  revert n v. induction ps as [|p ps IH]; intros n v Hf Hd; simpl in *; simplify_eq; [eauto|].
  destruct (mapGet h v p) as [y|] eqn:Hy; simplify_eq.
  destruct (fin_mapGet _ _ _ _ _ Hf Hy) as (m&->&Hm). destruct (IH _ _ Hm Hd) as (m'&->&?). eauto.
Qed.

(** Finite data has no cycle. *)
Lemma fin_acyclic h n v p ps : fin h n v → descend h v (p :: ps) = Some v → False.
Proof.
  revert n. induction n as [n IH] using lt_wf_ind. intros Hf Hd.
  destruct (fin_descend _ _ _ _ _ Hf Hd) as (m&->&Hm). apply (IH m); [simpl; lia|done|done].
Qed.

Lemma isMap_loc h v p x : mapGet h v p = Some x → isMap v = true.
Proof. by destruct v. Qed.

(** ** Effect of a write *)

Lemma mapPut_spec h v p x h' :
  mapPut h v p x = Some h' →
  ∃ l o o', vloc v = Some l ∧ objs h !! l = Some o ∧ h' = setObjs (<[l := o']> (objs h)) h ∧
    kind_ok v o ∧ kind_ok v o' ∧ (∀ y, child o' y → y = x ∨ child o y).
Proof.
  intros H. destruct v as [| | | | |[l|]|[l|]| |]; simpl in H; split_matches;
    eexists l, _, _; split_and!; try done; intros y [k Hk]; apply lookup_insert_Some in Hk as [[_ ->]|[_ ?]];
    [by left|right; by exists k|by left|right; by exists k].
Qed.

Lemma mapGet_put_eq h v p x h' : mapPut h v p x = Some h' → mapGet h' v p = Some x.
Proof.
  intros H. destruct v as [| | | | |[l|]|[l|]| |]; simpl in H; break_in H; by rewrite ?lookup_insert_eq.
Qed.

Lemma mapGet_ext h h' v p :
  (∀ l, vloc v = Some l → objs h' !! l = objs h !! l) → mapGet h' v p = mapGet h v p.
Proof. intros He. destruct v as [| | | | |[l|]|[l|]| |]; simpl; try done; by rewrite (He l). Qed.

Lemma getPath_cons h v p q rest :
  getPath h v (p :: q :: rest) =
  match mapGet h v p with
  | Some nx => if isMap nx then getPath h nx (q :: rest) else None
  | None => None
  end.
Proof. done. Qed.

Lemma getPath_objs h h' v ps : objs h' = objs h → getPath h' v ps = getPath h v ps.
Proof.
  intros He. assert (∀ v p, mapGet h' v p = mapGet h v p) as Hm by (intros; apply mapGet_ext; by rewrite He).
  revert v. induction ps as [|p [|q rest] IH]; intros v; [done|apply Hm|].
  rewrite !getPath_cons, Hm. by repeat case_match.
Qed.

Lemma mapGet_put_other h v p x h' v' q y :
  mapPut h v p x = Some h' → vloc v ≠ vloc v' → mapGet h v' q = Some y → mapGet h' v' q = Some y.
Proof.
  intros (l&o&o'&Hl&Ho&->&_)%mapPut_spec Hne Hq. rewrite <-Hq. apply mapGet_ext. intros l' Hl'. simpl.
  rewrite lookup_insert_ne; [done|]. congruence.
Qed.

(** ** Well-formed heaps *)

Definition vlt (b : N) v : Prop := ∀ l, vloc v = Some l → (l < b)%N.

Lemma vlt_ref b v l : vloc v = Some l → (l < b)%N → vlt b v.
Proof. intros Hl Hb l' Hl'. congruence. Qed.

(** The objects below [b] only point below [b]. *)
Definition closed (b : N) h : Prop :=
  ∀ l o c, (l < b)%N → objs h !! l = Some o → child o c → vlt b c.

Record ok_heap h : Prop := {
  ok_dom : ∀ l o, objs h !! l = Some o → (l < nxt h)%N;
  ok_closed : closed (nxt h) h;
  ok_metas : ∀ l m, metas h !! l = Some m → (l < nxt h)%N;
  ok_msgs : ∀ l m, msgs h !! l = Some m → (l < nxt h)%N;
  ok_msg : ∀ l m, msgs h !! l = Some m →
    (∀ d, Data m = Some d → (d < nxt h)%N) ∧ (∀ d, Metadata m = Some d → is_Some (metas h !! d));
}.

Lemma closed_mapGet b h v p x : closed b h → vlt b v → mapGet h v p = Some x → vlt b x.
Proof. intros Hc Hv (l&o&Hl&Ho&_&Hch)%mapGet_child. eapply Hc; eauto. Qed.

Lemma getPath_below b h h' v ps :
  closed b h → vlt b v → (∀ l, (l < b)%N → objs h' !! l = objs h !! l) → getPath h' v ps = getPath h v ps.
Proof.
  intros Hc Hv He. assert (∀ v p, vlt b v → mapGet h' v p = mapGet h v p) as Hm.
  { intros v' p Hv'. apply mapGet_ext. intros l Hl. apply He. by apply Hv'. }
  revert v Hv. induction ps as [|p [|q rest] IH]; intros v Hv; [done|by apply Hm|].
  rewrite !getPath_cons, Hm by done. destruct (mapGet h v p) as [nx|] eqn:E; [|done].
  destruct (isMap nx); [|done]. apply IH. by eapply closed_mapGet.
Qed.

Lemma alloc_ok h o : ok_heap h → (∀ c, child o c → vlt (nxt h) c) → ok_heap (alloc o h).1.
Proof.
  intros [H1 H2 H3 H4 H5] Ho. split; simpl.
  - intros l o' [[<- _]|[_ Hl]]%lookup_insert_Some; [lia|]. apply H1 in Hl. lia.
  - intros l o' c Hl Hl' Hc l' Hl2. simpl in Hl'. apply lookup_insert_Some in Hl' as [[_ <-]|[_ Hl']].
    + specialize (Ho _ Hc _ Hl2). lia.
    + assert (l' < nxt h)%N; [|lia]. eapply H2; eauto.
  - intros l m Hl%H3. lia.
  - intros l m Hl%H4. lia.
  - intros l m [Ha Hb]%H5. split; [intros d Hd; specialize (Ha d Hd); lia|done].
Qed.

Lemma mapPut_ok h v p x h' : ok_heap h → vlt (nxt h) x → mapPut h v p x = Some h' → ok_heap h'.
Proof.
  intros [H1 H2 H3 H4 H5] Hx (l&o&o'&Hl&Ho&->&_&_&Hch)%mapPut_spec. split; simpl; try done.
  - intros l' o2 [[<- _]|[_ ?]]%lookup_insert_Some; eauto.
  - intros l' o2 c Hl' Hl2 Hc. simpl in Hl2. apply lookup_insert_Some in Hl2 as [[<- <-]|[_ Hl2]].
    + apply Hch in Hc as [->|Hc]; [done|]. eapply H2; eauto.
    + eapply H2; eauto.
Qed.

(** The locations a [setPath] may write: those on the path, and new ones. *)
Definition on_path h v l : Prop := ∃ ps y, descend h v ps = Some y ∧ vloc y = Some l.

Lemma setPath_cons h v p q rest x :
  setPath h v (p :: q :: rest) x =
  if isMap v then
    match mapGet h v p with
    | None =>
        let '(h1, l) := alloc (OMapS ∅) h in
        match mapPut h1 v p (VMapS (Some l)) with
        | Some h2 => setPath h2 (VMapS (Some l)) (q :: rest) x
        | None => (SetPanic, h1)
        end
    | Some next => if isMap next then setPath h next (q :: rest) x else (SetConflict p, h)
    end
  else (SetConflict p, h).
Proof. done. Qed.

Lemma setPath_frame h v parts x r h' l :
  ok_heap h → vlt (nxt h) v → setPath h v parts x = (r, h') → (l < nxt h)%N → ¬ on_path h v l →
  objs h' !! l = objs h !! l.
Proof.
  revert h v. induction parts as [|p [|q rest] IH]; intros h v Hok Hv Hs Hl Hn.
  - by simplify_eq/=.
  - simpl in Hs. destruct (isMap v); [|by simplify_eq].
    destruct (mapPut h v p x) as [h2|] eqn:Hp; [|by simplify_eq]. injection Hs as _ <-.
    apply mapPut_spec in Hp as (l'&o&o'&Hl'&?&->&_). simpl. rewrite lookup_insert_ne; [done|]. intros ->. apply Hn. by exists [], v.
  - rewrite setPath_cons in Hs. destruct (isMap v); [|by simplify_eq].
    destruct (mapGet h v p) as [nx|] eqn:Hg.
    + destruct (isMap nx); [|by simplify_eq].
      eapply (IH _ nx Hok); [|done|done|]; [by eapply closed_mapGet; [apply Hok| |]|].
      intros (ps&y&Hd&Hy). apply Hn. exists (p :: ps), y. simpl. by rewrite Hg.
    + destruct (alloc (OMapS ∅) h) as [h1 ln] eqn:Ha.
      pose proof (alloc_ok h (OMapS ∅) Hok) as Hok1. rewrite Ha in Hok1. simpl in Hok1.
      unfold alloc in Ha. injection Ha as Ha <-.
      assert (Hok1' : ok_heap h1) by (apply Hok1; intros c [k Hk]; by rewrite lookup_empty in Hk). clear Hok1.
      destruct (mapPut h1 v p (VMapS (Some (nxt h)))) as [h2|] eqn:Hp.
      2:{ injection Hs as _ <-. subst h1. simpl. rewrite lookup_insert_ne; [done|lia]. }
      assert (Hok2 : ok_heap h2).
      { eapply mapPut_ok; [exact Hok1'| |exact Hp]. eapply vlt_ref; [done|]. rewrite <-Ha. simpl. lia. }
      apply mapPut_spec in Hp as (lv&o&o'&Hlv&Ho&->&_). pose proof (Hv lv Hlv) as Hlv'.
      rewrite (IH _ (VMapS (Some (nxt h))) Hok2 ltac:(eapply vlt_ref; [done|]; rewrite <-Ha; simpl; lia) Hs); subst h1; simpl; [|lia|].
      * rewrite lookup_insert_ne by (intros ->; apply Hn; by exists [], v).
        rewrite lookup_insert_ne; [done|lia].
      * intros ([|p' ps]&y&Hd&Hy); simpl in Hd; [simplify_eq/=; lia|].
        rewrite lookup_insert_ne, lookup_insert_eq, lookup_empty in Hd by lia. done.
Qed.

Lemma fin_flat_or h n v l : fin h n v → vloc v = Some l → ∃ m, n = S m.
Proof. inversion 1; intros; simplify_eq; eauto. Qed.

(** A successful [setPath] is seen by [getPath] on the same path. *)
Lemma set_get h n v parts x h' :
  ok_heap h → vlt (nxt h) v → fin h n v → parts ≠ [] → setPath h v parts x = (SetOk, h') →
  getPath h' v parts = Some x.
Proof.
  revert h n v. induction parts as [|p [|q rest] IH]; intros h n v Hok Hv Hf Hne Hs; [done| |].
  - simpl in *. destruct (isMap v); [|done]. destruct (mapPut h v p x) eqn:Hp; simplify_eq.
    by eapply mapGet_put_eq.
  - clear Hne. rewrite setPath_cons in Hs. destruct (isMap v) eqn:Hm; [|by simplify_eq].
    destruct (mapGet h v p) as [nx|] eqn:Hg.
    + destruct (isMap nx) eqn:Hnx; [|by simplify_eq].
      destruct (fin_mapGet _ _ _ _ _ Hf Hg) as (m&->&Hfm).
      assert (vlt (nxt h) nx) as Hvn by (eapply closed_mapGet; [apply Hok| |]; done).
      assert (mapGet h' v p = Some nx) as Hg'.
      { rewrite <-Hg. apply mapGet_ext. intros l Hl. eapply (setPath_frame h nx); try done; [by apply Hv|].
        intros (ps&y&Hd&Hy). assert (descend h v (p :: ps) = Some y) as Hd' by (simpl; by rewrite Hg).
        destruct (fin_descend _ _ _ _ _ Hf Hd') as (k&Hk&Hky).
        destruct (mapGet_child _ _ _ _ Hg) as (l0&o&Hl0&Ho&Hkind&_). simplify_eq.
        assert (y = v) as ->; [|by eapply fin_acyclic].
        inversion Hky; simplify_eq. destruct v, y; simpl in *; simplify_eq; try done; by destruct o. }
      cbn [getPath]. rewrite Hg', Hnx. by eapply IH.
    + destruct (alloc (OMapS ∅) h) as [h1 ln] eqn:Ha.
      pose proof (alloc_ok h (OMapS ∅) Hok) as Hok1. rewrite Ha in Hok1. simpl in Hok1.
      unfold alloc in Ha. injection Ha as Ha <-.
      assert (Hok1' : ok_heap h1) by (apply Hok1; intros c [k Hk]; by rewrite lookup_empty in Hk). clear Hok1.
      destruct (mapPut h1 v p (VMapS (Some (nxt h)))) as [h2|] eqn:Hp; [|by simplify_eq].
      assert (Hok2 : ok_heap h2).
      { eapply mapPut_ok; [exact Hok1'| |exact Hp]. eapply vlt_ref; [done|]. rewrite <-Ha. simpl. lia. }
      pose proof (mapGet_put_eq _ _ _ _ _ Hp) as Hg2.
      pose proof (mapPut_spec _ _ _ _ _ Hp) as (lv&o&o'&Hlv&Ho&Hh2&_). pose proof (Hv lv Hlv) as Hlv'.
      assert (Hnew : objs h2 !! nxt h = Some (OMapS ∅)).
      { rewrite Hh2. simpl. rewrite lookup_insert_ne by lia. rewrite <-Ha. simpl. by rewrite lookup_insert_eq. }
      assert (Hn2 : nxt h2 = (nxt h + 1)%N) by (rewrite Hh2, <-Ha; done).
      assert (mapGet h' v p = Some (VMapS (Some (nxt h)))) as Hg'.
      { rewrite <-Hg2. apply mapGet_ext. intros l Hl. assert (l = lv) as -> by congruence.
        eapply (setPath_frame h2 (VMapS (Some (nxt h)))); try done; [eapply vlt_ref; [done|lia]|lia|].
        intros ([|p' ps]&y&Hd&Hy); simpl in Hd; [simplify_eq/=; lia|]. by rewrite Hnew in Hd. }
      cbn [getPath]. rewrite Hg'. cbn [isMap].
      eapply (IH h2 1%nat); [done|eapply vlt_ref; [done|lia]| |done|done].
      eapply fin_ref; [done|exact Hnew|done|]. intros c [k Hk]. by rewrite lookup_empty in Hk.
Qed.
End theory.

(** ** Properties *)

(** what [Set] stores, [Get] reads. On finite data (in a well-formed heap), a [Set]
    that succeeds makes [Get] on the same dotted key return the value, whatever maps of
    either shape the path goes through or has to create. *)
Theorem get_after_set h n m key x h' l :
  ok_heap h → msgs h !! l = Some m → fin h n (VMapS (Data m)) →
  Set_ h m key x = (SetOk, h') → Get h' m key = Some x.
Proof.
  intros Hok Hm Hf Hs. unfold Get, Set_ in *. eapply set_get; [done| |done| |done].
  - intros d Hd. by eapply (ok_msg _ Hok).
  - destruct key as [|c key]; simpl; [done|]. case_match; [done|]. by destruct (splitDot key).
Qed.
