(* ===== verification/Clone.v ===== *)
(** * pkg/gears/native/conductor/gear.go: copying and pruning message data

    The conductor parks a copy of a request ([cloneMsg]) and then strips fields from
    the message it sends on ([deletePath]).  Both work on the shared heap of
    [FluxMsg].  [cloneValue] recurses through the data with a fuel; data of depth [n]
    ([fin h n v]) needs [n + 1], and on cyclic data the Go function does not return
    either.  The order in which Go ranges over a map only renames locations; the model
    ranges in the order of [map_to_list] and allocates a map when its entries are
    ready. *)
From S2P Require Import Prelude FluxMsg.
Open Scope Z_scope.

(** ** deletePath *)

Definition mapDelete (h : heap) (container : val) (key : string) : heap :=
  match container with
  | VMapS (Some l) =>
      match objs h !! l with Some (OMapS m) => setObjs (<[l := OMapS (delete key m)]> (objs h)) h | _ => h end
  | VMapA (Some l) =>
      match objs h !! l with Some (OMapA m) => setObjs (<[l := OMapA (delete (KStr key) m)]> (objs h)) h | _ => h end
  | _ => h
  end.

Definition mapLen (h : heap) (container : val) : Z :=
  match container with
  | VMapS None | VMapA None => 0
  | VMapS (Some l) => match objs h !! l with Some (OMapS m) => Z.of_nat (size m) | _ => -1 end
  | VMapA (Some l) => match objs h !! l with Some (OMapA m) => Z.of_nat (size m) | _ => -1 end
  | _ => -1
  end.

Fixpoint deleteNested (h : heap) (container : val) (parts : list string) : heap * bool :=
  match parts with
  | [] => (h, false)
  | [part] => let h1 := mapDelete h container part in (h1, mapLen h1 container =? 0)
  | part :: rest =>
      match mapGet h container part with
      | None => (h, mapLen h container =? 0)
      | Some child =>
          let '(h1, empty) := deleteNested h child rest in
          let h2 := if empty then mapDelete h1 container part else h1 in
          (h2, mapLen h2 container =? 0)
      end
  end.

Definition deletePath (h : heap) (root : option loc) (path : string) : heap :=
  (deleteNested h (VMapS root) (splitDot path)).1.

(** ** cloneMsg *)

Section entries.
Context (clone : heap → val → option (heap * val)).

Fixpoint cloneList (h : heap) (l : list val) : option (heap * list val) :=
  match l with
  | [] => Some (h, [])
  | v :: l =>
      match clone h v with
      | None => None
      | Some (h1, v') => match cloneList h1 l with
                         | None => None
                         | Some (h2, l') => Some (h2, v' :: l')
                         end
      end
  end.

(** [for k, v := range m { out[k] = cloneValue(v) }] *)
Definition cloneEntries `{Countable K} (h : heap) (m : gmap K val) : option (heap * gmap K val) :=
  match cloneList h (map_to_list m).*2 with
  | None => None
  | Some (h', vs) => Some (h', list_to_map (zip (map_to_list m).*1 vs))
  end.
End entries.

Definition allocVal (mk : option loc → val) (o : obj) (h : heap) : heap * val :=
  let '(h', l) := alloc o h in (h', mk (Some l)).

(** The body of [cloneValue], [rec] its recursive calls. *)
Definition cloneStep (rec : heap → val → option (heap * val)) (h : heap) (v : val) : option (heap * val) :=
  match v with
  | VMapS None => Some (h, VMapS None)
  | VMapS (Some l) =>
      match objs h !! l with
      | Some (OMapS m) =>
          match cloneEntries rec h m with
          | Some (h1, m') => Some (allocVal VMapS (OMapS m') h1)
          | None => None
          end
      | _ => None
      end
  | VMapA None => Some (allocVal VMapA (OMapA ∅) h)
  | VMapA (Some l) =>
      match objs h !! l with
      | Some (OMapA m) =>
          match cloneEntries rec h m with
          | Some (h1, m') => Some (allocVal VMapA (OMapA m') h1)
          | None => None
          end
      | _ => None
      end
  | VSlice None => Some (allocVal VSlice (OSlice []) h)
  | VSlice (Some l) =>
      match objs h !! l with
      | Some (OSlice vs) =>
          match cloneList rec h vs with
          | Some (h1, vs') => Some (allocVal VSlice (OSlice vs') h1)
          | None => None
          end
      | _ => None
      end
  | _ => Some (h, v)
  end.

Fixpoint cloneValue (fuel : nat) (h : heap) (v : val) : option (heap * val) :=
  match fuel with
  | O => None
  | S fuel => cloneStep (cloneValue fuel) h v
  end.

(** [deepCloneMap]: [cloneValue] on a [map[string]any]. *)
Definition deepCloneMap (fuel : nat) (h : heap) (m : option loc) : option (heap * option loc) :=
  match cloneValue fuel h (VMapS m) with
  | Some (h', VMapS m') => Some (h', m')
  | _ => None
  end.

Definition readMeta (h : heap) (m : option loc) : gmap string string :=
  default ∅ (m ≫= λ l, metas h !! l).

(** [make(map[string]string)] with the given entries. *)
Definition allocMeta (m : gmap string string) (h : heap) : heap * loc :=
  (mkHeap (nxt h + 1) (objs h) (<[nxt h := m]> (metas h)) (msgs h), nxt h).

Definition allocMsg (m : FluxMsg) (h : heap) : heap * loc :=
  (mkHeap (nxt h + 1) (objs h) (metas h) (<[nxt h := m]> (msgs h)), nxt h).

Definition cloneMeta (h : heap) (m : option loc) : heap * option loc :=
  if bool_decide (readMeta h m = ∅) then (h, None)
  else let '(h', l) := allocMeta (readMeta h m) h in (h', Some l).

Definition setData (d : option loc) (m : FluxMsg) : FluxMsg :=
  mkFluxMsg (FluxID m) (RefFluxID m) (TraceID m) (SrcGearID m) (Metadata m) d (Flags m)
    (RawPayload m) (Path m) (TSInit m).

Definition setMetadata (d : option loc) (m : FluxMsg) : FluxMsg :=
  mkFluxMsg (FluxID m) (RefFluxID m) (TraceID m) (SrcGearID m) d (Data m) (Flags m)
    (RawPayload m) (Path m) (TSInit m).

(** [cloneMsg msg]: the copy's location, [None] when the data has no finite depth
    within the fuel. *)
Definition cloneMsg (fuel : nat) (h : heap) (msg : loc) : option (heap * loc) :=
  match msgs h !! msg with
  | None => None
  | Some m =>
      match deepCloneMap fuel h (Data m) with
      | None => None
      | Some (h1, data) =>
          let '(h2, meta) := cloneMeta h1 (Metadata m) in
          Some (allocMsg (setMetadata meta (setData data m)) h2)
      end
  end.

(** [returnContext]: the metadata a reply needs to go home. *)
Definition isCodecKey (k : string) : bool :=
  String.prefix "iso8583." k || String.prefix "codec." k.

Definition returnContext (m : gmap string string) : gmap string string :=
  filter (λ kv : string * string, isCodecKey kv.1 = false) m.

(** ** A copy *)

(** The data beneath [v] in [h] and beneath [v'] in [h'] are the same; a nil
    [map[any]any] or [[]any] may correspond to an empty one. *)
Inductive same (h h' : heap) : val → val → Prop :=
  | same_flat v : vloc v = None → same h h' v v
  | same_nilA l' : objs h' !! l' = Some (OMapA ∅) → same h h' (VMapA None) (VMapA (Some l'))
  | same_nilL l' : objs h' !! l' = Some (OSlice []) → same h h' (VSlice None) (VSlice (Some l'))
  | same_S l l' m m' : objs h !! l = Some (OMapS m) → objs h' !! l' = Some (OMapS m') →
      dom m = dom m' → (∀ k v v', m !! k = Some v → m' !! k = Some v' → same h h' v v') →
      same h h' (VMapS (Some l)) (VMapS (Some l'))
  | same_A l l' m m' : objs h !! l = Some (OMapA m) → objs h' !! l' = Some (OMapA m') →
      dom m = dom m' → (∀ k v v', m !! k = Some v → m' !! k = Some v' → same h h' v v') →
      same h h' (VMapA (Some l)) (VMapA (Some l'))
  | same_L l l' vs vs' : objs h !! l = Some (OSlice vs) → objs h' !! l' = Some (OSlice vs') →
      length vs = length vs' → (∀ i v v', vs !! i = Some v → vs' !! i = Some v' → same h h' v v') →
      same h h' (VSlice (Some l)) (VSlice (Some l')).

(** Every object beneath [v] lies at or above [b]. *)
Inductive above (h : heap) (b : N) : val → Prop :=
  | above_flat v : vloc v = None → above h b v
  | above_ref v l o : vloc v = Some l → (b ≤ l)%N → objs h !! l = Some o →
      (∀ c, child o c → above h b c) → above h b v.

Section copy_theory.
Implicit Types (h : heap) (v : val) (b : N).

(** [h'] adds objects to [h]. *)
Record ext h h' : Prop := {
  ext_objs : objs h ⊆ objs h';
  ext_old : ∀ l, (l < nxt h)%N → objs h' !! l = objs h !! l;
  ext_nxt : (nxt h ≤ nxt h')%N;
  ext_metas : metas h' = metas h;
  ext_msgs : msgs h' = msgs h;
}.

Lemma ext_refl h : ext h h.
Proof. by split. Qed.

Lemma ext_trans h1 h2 h3 : ext h1 h2 → ext h2 h3 → ext h1 h3.
Proof.
  intros [A1 A0 A2 A3 A4] [B1 B0 B2 B3 B4]. split; [by etrans| |lia|congruence|congruence].
  intros l Hl. rewrite B0 by lia. by apply A0.
Qed.

Lemma ext_alloc h o : ok_heap h → ext h (alloc o h).1.
Proof.
  intros Hok. split; simpl; [|intros l Hl; rewrite lookup_insert_ne; [done|lia]|lia|done|done].
  apply insert_subseteq. destruct (objs h !! nxt h) eqn:E; [|done]. apply (ok_dom _ Hok) in E. lia.
Qed.

Lemma ext_lookup h h' l o : ext h h' → objs h !! l = Some o → objs h' !! l = Some o.
Proof. intros [He _ _ _ _] Hl. by eapply lookup_weaken. Qed.

Lemma above_ext h h' b v : objs h ⊆ objs h' → above h b v → above h' b v.
Proof.
  intros He. induction 1; [by constructor|]. eapply above_ref; eauto. by eapply lookup_weaken.
Qed.

Lemma same_ext h h1 h2 v v' : objs h1 ⊆ objs h2 → same h h1 v v' → same h h2 v v'.
Proof.
  intros He. induction 1; [by constructor|..];
    [eapply same_nilA|eapply same_nilL|eapply same_S|eapply same_A|eapply same_L]; eauto using lookup_weaken.
Qed.

Lemma vlt_mono b b' v : (b ≤ b')%N → vlt b v → vlt b' v.
Proof. intros Hb Hv l Hl. specialize (Hv l Hl). lia. Qed.

(** A copied value: made of objects at or above [b], the same data as [v] in [h0]. *)
Definition copied h0 b h v v' : Prop := vlt (nxt h) v' ∧ above h b v' ∧ same h0 h v v'.

Lemma copied_ext h0 b h h' v v' : ext h h' → copied h0 b h v v' → copied h0 b h' v v'.
Proof.
  intros He (Hv&Ha&Hs). split_and!; [|eapply above_ext; [apply He|done]|eapply same_ext; [apply He|done]].
  eapply vlt_mono; [|done]. apply He.
Qed.

(** The result of a cloning step from [h], for base heap [h0]. *)
Definition clone_ok h0 b (clone : heap → val → option (heap * val)) v : Prop :=
  ∀ h, ok_heap h → ext h0 h → (b ≤ nxt h)%N →
    ∃ h' v', clone h v = Some (h', v') ∧ ok_heap h' ∧ ext h h' ∧ copied h0 b h' v v'.

Lemma cloneList_ok h0 b clone l h :
  Forall (clone_ok h0 b clone) l → ok_heap h → ext h0 h → (b ≤ nxt h)%N →
  ∃ h' l', cloneList clone h l = Some (h', l') ∧ ok_heap h' ∧ ext h h' ∧ Forall2 (copied h0 b h') l l'.
Proof.
  intros Hl. revert h. induction Hl as [|v l Hv _ IH]; intros h Hok He Hb; simpl.
  { exists h, []. split_and!; auto using ext_refl. }
  destruct (Hv h Hok He Hb) as (h1&v1&->&Hok1&He1&Hc1).
  destruct (IH h1) as (h2&l2&->&Hok2&He2&Hc2); [done|by eapply ext_trans|destruct He1; lia|].
  exists h2, (v1 :: l2). split_and!; eauto using ext_trans. constructor; [|done]. by eapply copied_ext.
Qed.

Lemma lookup_zip_list_to_map `{Countable K} {A B} (R : A → B → Prop) (m : gmap K A) (l' : list B) k :
  Forall2 R (map_to_list m).*2 l' →
  option_relation R (λ _, False) (λ _, False) (m !! k)
    ((list_to_map (zip (map_to_list m).*1 l') : gmap K B) !! k).
Proof.
  intros Hf. pose proof (NoDup_fst_map_to_list m) as Hnd.
  rewrite <-(list_to_map_to_list m) at 1. revert l' Hf.
  induction (map_to_list m) as [|[k' x] es IH]; intros l' Hf; inversion Hf; subst; simpl; [constructor|].
  apply NoDup_cons in Hnd as [_ Hnd].
  destruct (decide (k' = k)) as [->|]; [rewrite !lookup_insert_eq; simpl in *; done|].
  rewrite !lookup_insert_ne by done. by apply IH.
Qed.

Lemma alloc_copied h0 b h h1 mk v o :
  ok_heap h1 → ext h h1 → (b ≤ nxt h)%N → vloc (mk (Some (nxt h1))) = Some (nxt h1) →
  (∀ c, child o c → vlt (nxt h1) c ∧ above h1 b c) →
  (let h' := (alloc o h1).1 in same h0 h' v (mk (Some (nxt h1)))) →
  ∃ h' v', Some (allocVal mk o h1) = Some (h', v') ∧ ok_heap h' ∧ ext h h' ∧ copied h0 b h' v v'.
Proof.
  intros Hok He Hb Hmk Hch Hs. exists (alloc o h1).1, (mk (Some (nxt h1))).
  assert (ext h1 (alloc o h1).1) as He1 by by apply ext_alloc.
  split_and!; [done|apply alloc_ok; [done|]; by intros c [? _]%Hch|by eapply ext_trans|].
  split_and!; [|..|done].
  - eapply vlt_ref; [done|]. simpl. lia.
  - eapply above_ref; [done|destruct He; lia|simpl; apply lookup_insert_eq|].
    intros c Hc%Hch. eapply above_ext; [apply He1|apply Hc].
Qed.

Lemma cloneEntries_ok `{Countable K} h0 b clone (m : gmap K val) h :
  (∀ k v, m !! k = Some v → clone_ok h0 b clone v) → ok_heap h → ext h0 h → (b ≤ nxt h)%N →
  ∃ h' m', cloneEntries clone h m = Some (h', m') ∧ ok_heap h' ∧ ext h h' ∧
    ∀ k, option_relation (copied h0 b h') (λ _, False) (λ _, False) (m !! k) (m' !! k).
Proof.
  intros Hm Hok He Hb. unfold cloneEntries.
  destruct (cloneList_ok h0 b clone (map_to_list m).*2 h) as (h'&l'&->&?&?&Hf); try done.
  { apply Forall_forall. intros v ([k v']&->&Hkv%elem_of_map_to_list)%list_elem_of_fmap. eauto. }
  eexists h', _. split_and!; try done. intros k. by apply lookup_zip_list_to_map.
Qed.

(** What the entries of a cloned map owe to those of the original. *)
Lemma entries_copied `{Countable K} h0 b h (m m' : gmap K val) :
  (∀ k, option_relation (copied h0 b h) (λ _, False) (λ _, False) (m !! k) (m' !! k)) →
  dom m = dom m' ∧ (∀ k v v', m !! k = Some v → m' !! k = Some v' → same h0 h v v') ∧
  (∀ k v', m' !! k = Some v' → vlt (nxt h) v' ∧ above h b v').
Proof.
  intros Hr. split_and!.
  - apply set_eq. intros k. rewrite !elem_of_dom. specialize (Hr k).
    destruct (m !! k), (m' !! k); simpl in Hr; try done; split; intros [? ?]; eauto; done.
  - intros k v v' Hv Hv'. specialize (Hr k). rewrite Hv, Hv' in Hr. apply Hr.
  - intros k v' Hv'. specialize (Hr k). rewrite Hv' in Hr. destruct (m !! k); [|done].
    destruct Hr as (?&?&_). done.
Qed.

(** Cloning data of depth [n] with fuel [n + 1] succeeds with a copy. *)
Lemma cloneValue_ok h0 b n v : fin h0 n v → clone_ok h0 b (cloneValue (S n)) v.
Proof.
  intros Hf. induction Hf as [n v Hl|n v l o Hl Ho Hk _ IH]; intros h Hok He Hb.
  - assert (same h0 h v v) by by constructor.
    destruct v as [| | | | |[]|[]|[]|]; simpl in *; try done;
      try (eexists h, _; split_and!; [done|done|apply ext_refl|]; split_and!;
           [by intros ? |by constructor|done]).
    + eapply (alloc_copied _ _ h h VMapA); auto using ext_refl.
      * intros c [k Hk]. by rewrite lookup_empty in Hk.
      * apply same_nilA. simpl. apply lookup_insert_eq.
    + eapply (alloc_copied _ _ h h VSlice); auto using ext_refl.
      * intros c Hc. simpl in Hc. by apply elem_of_nil in Hc.
      * apply same_nilL. simpl. apply lookup_insert_eq.
  - pose proof (ext_lookup _ _ _ _ He Ho) as Ho'. change (cloneValue (S (S n)) h v) with (cloneStep (cloneValue (S n)) h v). unfold cloneStep.
    destruct v as [| | | | |[l0|]|[l0|]|[l0|]|], o as [m|m|vs]; simpl in Hk, Hl; try done; simplify_eq;
      rewrite Ho'.
    + destruct (cloneEntries_ok h0 b (cloneValue (S n)) m h) as (h1&m'&->&Hok1&He1&Hr); try done.
      { intros k v Hv. apply IH. by exists k. }
      apply entries_copied in Hr as (Hd&Hs&Hc).
      eapply (alloc_copied _ _ h h1 VMapS); try done; [intros c [k ?]; eauto|].
      eapply same_S; [done|apply lookup_insert_eq|done|].
      intros. eapply same_ext; [by apply ext_objs, ext_alloc|]. eauto.
    + destruct (cloneEntries_ok h0 b (cloneValue (S n)) m h) as (h1&m'&->&Hok1&He1&Hr); try done.
      { intros k v Hv. apply IH. by exists k. }
      apply entries_copied in Hr as (Hd&Hs&Hc).
      eapply (alloc_copied _ _ h h1 VMapA); try done; [intros c [k ?]; eauto|].
      eapply same_A; [done|apply lookup_insert_eq|done|].
      intros. eapply same_ext; [by apply ext_objs, ext_alloc|]. eauto.
    + destruct (cloneList_ok h0 b (cloneValue (S n)) vs h) as (h1&vs'&->&Hok1&He1&Hr); try done.
      { apply Forall_forall. intros v Hv. by apply IH. }
      eapply (alloc_copied _ _ h h1 VSlice); try done.
      * intros c Hc. simpl in Hc. apply list_elem_of_lookup in Hc as [i Hi].
        destruct (Forall2_lookup_r _ _ _ _ _ Hr Hi) as (v&_&?&?&_). done.
      * eapply same_L; [done|apply lookup_insert_eq|by eapply Forall2_length|].
        intros i v v' Hv Hv'. eapply same_ext; [by apply ext_objs, ext_alloc|].
        by destruct (Forall2_lookup_lr _ _ _ _ _ _ Hr Hv Hv') as (_&_&?).
Qed.

(** ** Isolation: a copy survives any change below it *)

Definition agree_above b h h' : Prop := ∀ l, (b ≤ l)%N → objs h' !! l = objs h !! l.

Lemma above_frame b h h' v : agree_above b h h' → above h b v → above h' b v.
Proof.
  intros Hag. induction 1 as [|v l o Hl Hb Ho _ IH]; [by constructor|].
  eapply above_ref; [done|done|by rewrite Hag|done].
Qed.

Lemma same_frame b h0 h h' v v' :
  agree_above b h h' → above h b v' → same h0 h v v' → same h0 h' v v'.
Proof.
  intros Hag Ha Hs. revert Ha.
  induction Hs as [v Hl|l' Hl'|l' Hl'|l l' m m' Hl Hl' Hd _ IH|l l' m m' Hl Hl' Hd _ IH|l l' m m' Hl Hl' Hd _ IH];
    intros Ha; [by apply same_flat|..]; inversion Ha as [? Hv|? l2 o Hv Hb Ho Hch]; simplify_eq/=;
    rewrite <-(Hag _ Hb) in Hl'.
  - by eapply same_nilA.
  - by eapply same_nilL.
  - eapply same_S; [done|done|done|]. intros k v v' Hv Hv'. eapply IH; [done..|]. apply Hch. by exists k.
  - eapply same_A; [done|done|done|]. intros k v v' Hv Hv'. eapply IH; [done..|]. apply Hch. by exists k.
  - eapply same_L; [done|done|done|]. intros k v v' Hv Hv'. eapply IH; [done..|].
    apply Hch. by eapply list_elem_of_lookup_2.
Qed.

Lemma same_isMap h h' v v' : same h h' v v' → isMap v = isMap v'.
Proof. by destruct 1. Qed.

Lemma dom_relation `{Countable K} (R : val → val → Prop) (m m' : gmap K val) k :
  dom m = dom m' → (∀ v v', m !! k = Some v → m' !! k = Some v' → R v v') →
  option_relation R (λ _, False) (λ _, False) (m !! k) (m' !! k).
Proof.
  intros Hd HR. assert (is_Some (m !! k) ↔ is_Some (m' !! k)) as Hdom by (rewrite <-!elem_of_dom; by rewrite Hd).
  destruct (m !! k) eqn:E1, (m' !! k) eqn:E2; simpl; eauto; destruct Hdom as [H1 H2];
    [destruct H1|destruct H2]; eauto; done.
Qed.

Lemma same_mapGet h h' v v' p :
  same h h' v v' → option_relation (same h h') (λ _, False) (λ _, False) (mapGet h v p) (mapGet h' v' p).
Proof.
  destruct 1 as [v Hl|l' Hl'|l' Hl'|l l' m m' Hl Hl' Hd Hs|l l' m m' Hl Hl' Hd Hs|l l' m m' Hl Hl' Hd Hs];
    simpl; rewrite ?Hl', ?Hl; try done.
  - by destruct v as [| | | | |[]|[]|[]|].
  - apply dom_relation; eauto.
  - apply dom_relation; eauto.
Qed.

(** Dotted paths read the same through a copy. *)
Lemma same_getPath h h' v v' ps :
  same h h' v v' → option_relation (same h h') (λ _, False) (λ _, False) (getPath h v ps) (getPath h' v' ps).
Proof.
  revert v v'. induction ps as [|p [|q rest] IH]; intros v v' Hs; [done|by apply same_mapGet|].
  cbn [getPath]. pose proof (same_mapGet _ _ _ _ p Hs) as Hp.
  destruct (mapGet h v p) as [x|], (mapGet h' v' p) as [x'|]; simpl in Hp; try done.
  rewrite <-(same_isMap _ _ _ _ Hp). destruct (isMap x); [by apply IH|done].
Qed.

(** ** Deleting *)

(** The maps of [h'] hold entries of those of [h], and nothing else changed. *)
Record shrinks h h' : Prop := {
  sh_get : ∀ v p x, mapGet h' v p = Some x → mapGet h v p = Some x;
  sh_nxt : nxt h' = nxt h;
  sh_metas : metas h' = metas h;
  sh_msgs : msgs h' = msgs h;
  sh_dom : dom (objs h') = dom (objs h);
  sh_child : ∀ l o' c, objs h' !! l = Some o' → child o' c → ∃ o, objs h !! l = Some o ∧ child o c;
}.

Lemma shrinks_refl h : shrinks h h.
Proof. split; eauto. Qed.

Lemma shrinks_trans h1 h2 h3 : shrinks h1 h2 → shrinks h2 h3 → shrinks h1 h3.
Proof.
  intros [A1 A2 A3 A4 A5 A6] [B1 B2 B3 B4 B5 B6]. split; eauto; try congruence.
  intros l o c Hl Hc. destruct (B6 _ _ _ Hl Hc) as (o2&?&?). eauto.
Qed.

Lemma shrinks_getPath h h' v ps x : shrinks h h' → getPath h' v ps = Some x → getPath h v ps = Some x.
Proof.
  intros Hsh. revert v. induction ps as [|p [|q rest] IH]; intros v; [done|apply Hsh|].
  cbn [getPath]. destruct (mapGet h' v p) as [y|] eqn:Hy; [|done].
  rewrite (sh_get _ _ Hsh _ _ _ Hy). destruct (isMap y); [apply IH|done].
Qed.

Lemma mapDelete_shrinks h v p : shrinks h (mapDelete h v p).
Proof.
  destruct v as [| | | | |[l|]|[l|]| |]; simpl; try apply shrinks_refl;
    destruct (objs h !! l) as [[m|m|]|] eqn:Hl; try apply shrinks_refl.
  - split; simpl; try done.
    + intros [| | | | |[l'|]|[l'|]| |] q x; simpl; try done; destruct (decide (l = l')) as [->|];
        rewrite ?lookup_insert_eq, ?lookup_insert_ne, ?Hl by done; try done.
      by intros [_ ?]%lookup_delete_Some.
    + rewrite dom_insert_lookup_L; [done|by eexists].
    + intros l' o c [[<- <-]|[_ ?]]%lookup_insert_Some Hc; [|by eauto].
      destruct Hc as [k [_ Hk]%lookup_delete_Some]. eexists. split; [done|by exists k].
  - split; simpl; try done.
    + intros [| | | | |[l'|]|[l'|]| |] q x; simpl; try done; destruct (decide (l = l')) as [->|];
        rewrite ?lookup_insert_eq, ?lookup_insert_ne, ?Hl by done; try done.
      by intros [_ ?]%lookup_delete_Some.
    + rewrite dom_insert_lookup_L; [done|by eexists].
    + intros l' o c [[<- <-]|[_ ?]]%lookup_insert_Some Hc; [|by eauto].
      destruct Hc as [k [_ Hk]%lookup_delete_Some]. eexists. split; [done|by exists k].
Qed.

Lemma mapDelete_gone h v p : mapGet (mapDelete h v p) v p = None.
Proof.
  destruct v as [| | | | |[l|]|[l|]| |]; simpl; try done; destruct (objs h !! l) as [[m|m|]|] eqn:Hl;
    rewrite ?Hl; try done; simpl; rewrite lookup_insert_eq; apply lookup_delete_eq.
Qed.

Lemma mapDelete_frame b h v p : vlt b v → agree_above b h (mapDelete h v p).
Proof.
  intros Hv l Hl. destruct v as [| | | | |[l'|]|[l'|]| |]; simpl; try done;
    destruct (objs h !! l') as [[m|m|]|]; try done; simpl;
    (rewrite lookup_insert_ne; [done|]); intros ->; specialize (Hv l eq_refl); lia.
Qed.

Lemma shrinks_closed b h h' : shrinks h h' → closed b h → closed b h'.
Proof.
  intros Hsh Hc l o c Hl Ho Hch. destruct (sh_child _ _ Hsh _ _ _ Ho Hch) as (o'&?&?). by eapply Hc.
Qed.

Lemma shrinks_ok h h' : shrinks h h' → ok_heap h → ok_heap h'.
Proof.
  intros Hsh [H1 H2 H3 H4 H5]. pose proof (shrinks_closed (nxt h) _ _ Hsh H2).
  destruct Hsh as [_ S2 S3 S4 S5 _]. rewrite <-S2 in *. split; rewrite ?S3, ?S4; try done.
  intros l o Hl. assert (l ∈ dom (objs h)) as [o' Ho']%elem_of_dom; [|by eauto].
  rewrite <-S5. by apply elem_of_dom.
Qed.

Lemma deleteNested_cons h v p q rest :
  deleteNested h v (p :: q :: rest) =
  match mapGet h v p with
  | None => (h, mapLen h v =? 0)
  | Some c =>
      let '(h1, empty) := deleteNested h c (q :: rest) in
      let h2 := if empty then mapDelete h1 v p else h1 in (h2, mapLen h2 v =? 0)
  end.
Proof. done. Qed.

Lemma deleteNested_shrinks h v ps : shrinks h (deleteNested h v ps).1.
Proof.
  revert h v. induction ps as [|p [|q rest] IH]; intros h v; [apply shrinks_refl|apply mapDelete_shrinks|].
  rewrite deleteNested_cons. destruct (mapGet h v p) as [c|]; [|apply shrinks_refl].
  specialize (IH h c). destruct (deleteNested h c (q :: rest)) as [h1 []]; simpl in *; [|done].
  eapply shrinks_trans; [done|apply mapDelete_shrinks].
Qed.

(** After [deleteNested] the path is gone. *)
Lemma deleteNested_gone h v ps : getPath (deleteNested h v ps).1 v ps = None.
Proof.
  revert h v. induction ps as [|p [|q rest] IH]; intros h v; [done|apply mapDelete_gone|].
  pose proof (deleteNested_shrinks h v (p :: q :: rest)) as Hsh.
  rewrite deleteNested_cons in *. destruct (mapGet h v p) as [c|] eqn:Hc.
  2:{ simpl. by rewrite Hc. }
  specialize (IH h c). destruct (deleteNested h c (q :: rest)) as [h1 e] eqn:Hd. cbn [fst] in *.
  set (h2 := if e then mapDelete h1 v p else h1) in *.
  assert (shrinks h1 h2) as Hsh2 by (unfold h2; destruct e; [apply mapDelete_shrinks|apply shrinks_refl]).
  change (getPath h2 v (p :: q :: rest)) with
    (match mapGet h2 v p with Some nx => if isMap nx then getPath h2 nx (q :: rest) else None | None => None end).
  destruct (mapGet h2 v p) as [c'|] eqn:Hc'; [|done]. apply (sh_get _ _ Hsh) in Hc'. simplify_eq.
  destruct (isMap c); [|done]. destruct (getPath h2 c (q :: rest)) as [x|] eqn:Hx; [|done].
  apply (shrinks_getPath _ _ _ _ _ Hsh2) in Hx. congruence.
Qed.

Lemma deleteNested_frame b h v ps :
  closed b h → vlt b v → agree_above b h (deleteNested h v ps).1.
Proof.
  revert h v. induction ps as [|p [|q rest] IH]; intros h v Hc Hv; [done|by apply mapDelete_frame|].
  rewrite deleteNested_cons. destruct (mapGet h v p) as [c|] eqn:Hg; [|done].
  assert (vlt b c) as Hvc by by eapply closed_mapGet.
  specialize (IH h c Hc Hvc). destruct (deleteNested h c (q :: rest)) as [h1 []]; simpl in *; [|done].
  intros l Hl. rewrite (mapDelete_frame b h1 v p Hv l Hl). by apply IH.
Qed.
End copy_theory.
