(* ===== verification/Keys.v ===== *)
(** * pkg/sdk/helpers.go: correlation and routing keys

    [FieldToKeyPart] renders a field value, [JoinKeys] joins the parts of a key with
    netstring length prefixes.  [fmt.Sprint] of a map or a slice (whose order of keys
    of mixed types is not fixed by Go) is the parameter [sprint]; of the other types it
    is written out. *)
From Stdlib Require Import Ascii.
From S2P Require Import Prelude FluxMsg.
Open Scope Z_scope.

Definition FieldToKeyPart (sprint : heap → val → string) (h : heap) (v : val) : string :=
  match v with
  | VStr s => s
  | VBytes s => s
  | VNil => "<nil>"
  | VBool b => if b then "true" else "false"
  | VInt z => pretty z
  | VOther t => t
  | VMapS _ | VMapA _ | VSlice _ => sprint h v
  end.

(** [strconv.Itoa(len(p))] *)
Definition Itoa (n : nat) : string := pretty (N.of_nat n).

Fixpoint JoinKeys (parts : list string) : string :=
  match parts with
  | [] => ""
  | p :: rest => Itoa (String.length p) +:+ String ":" (p +:+ JoinKeys rest)
  end.

(** ** No two sequences of parts join alike *)

(** The characters of a string. *)
Fixpoint hasChar (c : ascii) (s : string) : bool :=
  match s with
  | EmptyString => false
  | String c' s' => Ascii.eqb c c' || hasChar c s'
  end.

(** A key split at its first dot. *)
Lemma splitDot_cut p s : hasChar "." p = false → splitDot (p +:+ String "." s) = p :: splitDot s.
Proof.
  induction p as [|c p IH]; [done|]. cbn [hasChar splitDot]. intros [Hc Hp]%orb_false_iff.
  change (String c p +:+ String "." s) with (String c (p +:+ String "." s)). cbn [splitDot].
  rewrite Ascii.eqb_sym, Hc, IH by done. done.
Qed.

(** A character that is no digit is not in a printed number. *)
Definition noDigit (c : ascii) : Prop := ∀ x, Ascii.eqb c (pretty_N_char x) = false.

Lemma colon_noDigit : noDigit ":".
Proof. intros x. unfold pretty_N_char. by repeat case_match. Qed.
Lemma dash_noDigit : noDigit "-".
Proof. intros x. unfold pretty_N_char. by repeat case_match. Qed.

Lemma pretty_N_go_no_char c x s : noDigit c → hasChar c s = false → hasChar c (pretty_N_go x s) = false.
Proof.
  intros Hc. revert s. induction (N.lt_wf_0 x) as [x _ IH]; intros s Hs.
  destruct (decide (x = 0)%N) as [->|Hx]; [by rewrite pretty_N_go_0|].
  rewrite pretty_N_go_step by lia. apply IH; [apply N.div_lt; lia|].
  simpl. rewrite Hs, orb_false_r. apply Hc.
Qed.

Lemma Itoa_no_char c n : noDigit c → hasChar c (Itoa n) = false.
Proof.
  intros Hc. unfold Itoa, pretty, pretty_N. case_decide; [|by apply pretty_N_go_no_char].
  simpl. by rewrite (Hc 0%N : Ascii.eqb c "0" = false).
Qed.

Lemma char_split c a b x y :
  hasChar c a = false → hasChar c b = false →
  a +:+ String c x = b +:+ String c y → a = b ∧ x = y.
Proof.
  revert b. induction a as [|d a IH]; intros [|e b] Ha Hb E; simpl in *; simplify_eq; try done.
  - by rewrite Ascii.eqb_refl in Hb.
  - by rewrite Ascii.eqb_refl in Ha.
  - apply orb_false_iff in Ha as [_ Ha], Hb as [_ Hb]. by destruct (IH b Ha Hb) as [-> ->].
Qed.

Lemma append_split (a b x y : string) :
  String.length a = String.length b → a +:+ x = b +:+ y → a = b ∧ x = y.
Proof.
  revert b. induction a as [|c a IH]; intros [|d b] Hl E; simpl in *; simplify_eq; try done.
  destruct (IH b) as [-> ->]; auto.
Qed.

Lemma JoinKeys_inj ps qs : JoinKeys ps = JoinKeys qs → ps = qs.
Proof.
  revert qs. induction ps as [|p ps IH]; intros [|q qs] E; simpl in E; [done|..].
  - by destruct (Itoa (String.length q)).
  - by destruct (Itoa (String.length p)).
  - apply char_split in E as [E1 E2]; [|apply Itoa_no_char, colon_noDigit..].
    apply (inj (pretty ∘ N.of_nat)) in E1. apply append_split in E2 as [-> E2]; [|done].
    by rewrite (IH qs).
Qed.

(** correlation keys are unambiguous. Two sequences of key parts, of any lengths
    and with any bytes in them, join to the same key only if they are the same
    sequence. *)
Theorem join_keys_injective ps qs : JoinKeys ps = JoinKeys qs ↔ ps = qs.
Proof. split; [apply JoinKeys_inj|by intros ->]. Qed.
