(* ===== verification/Conductor.v ===== *)
(** * pkg/gears/native/conductor/gear.go: the conductor gear

    The gear's handlers over the valet engine ([Valet]), the destination trees
    ([Tree]) and the message heap ([FluxMsg], [Clone]).  A handler is a function from
    the gear's state to its state and result; every call that changes state is in it,
    in the order of the code.  Each call of [Emit] appends an [emission] to the log:
    the port, the message and, for the theorems, the state of the gear at that moment.

    Parameters: [emits], whether the emitter accepts an emission (given those before
    it); [sprint], [fmt.Sprint] of a composite value; [ParseDuration],
    [time.ParseDuration].  [fuel] bounds the depth of the data a clone copies. *)
From Stdlib Require Import Ascii.
From S2P Require Import Prelude Valet ValetInv ValetSpec Tree FluxMsg Clone Keys.
Open Scope Z_scope.

Definition reasonNoRoute := "no_route"%string.
Definition reasonNoDestination := "no_destination"%string.
Definition reasonNoKey := "no_key"%string.
Definition reasonTimeout := "timeout"%string.
Definition reasonUnmatchedReply := "unmatched_reply"%string.
Definition reasonInvalidOrigin := "invalid_origin"%string.
Definition reasonOverloaded := "overloaded"%string.

Definition portResponse := "out_response"%string.
Definition portError := "error"%string.
Definition metaOrigin := "conductor.origin"%string.
Definition metaReason := "error.reason"%string.

(** The character class of [originPattern]. *)
Definition originChar (c : ascii) : bool :=
  let n := N_of_ascii c in
  ((65 <=? n) && (n <=? 90) || (97 <=? n) && (n <=? 122) || (48 <=? n) && (n <=? 57) ||
   (n =? 95) || (n =? 45))%N.

Fixpoint allChars (p : ascii → bool) (s : string) : bool :=
  match s with EmptyString => true | String c s' => p c && allChars p s' end.

(** [originPattern.MatchString]: one to 128 of those characters, matched in full. *)
Definition originMatches (s : string) : bool :=
  (1 <=? Z.of_nat (String.length s)) && (Z.of_nat (String.length s) <=? 128) && allChars originChar s.

Record Gear := mkGear {
  origin : string;
  corrKey : list string;
  parkFields : list string;
  routes : list route;
  knownOrigins : gset string;
}.

Definition setRoutes (rs : list route) (g : Gear) : Gear :=
  mkGear (origin g) (corrKey g) (parkFields g) rs (knownOrigins g).

Definition setTree (t : destNode) (r : route) : route :=
  {| r_name := r_name r; matchField := matchField r; matchPrefix := matchPrefix r; r_tree := t;
     r_leaves := r_leaves r; needsLoad := needsLoad r |}.

(** ** Configuration *)

Inductive initErr :=
  | EInitKey | EInitKeyEntry | EInitPark | EInitRoutes (e : routeErr) | EInitStore
  | EInitDuration (key : string) | EInitMaxInFlight | EInitEngine (e : Err).

Definition asInt (v : cfgval) : option Z :=
  match v with
  | CInt z => Some z
  | CFloat (Some z) => Some z
  | _ => None
  end.

(** [known_origins]: the non-empty strings of the list. *)
Definition parseKnown (cfg : list (string * cfgval)) : gset string :=
  match cfgGet cfg "known_origins" with
  | Some (CList l) =>
      foldl (λ acc v, match v with CStr s => if decide (s = ""%string) then acc else {[s]} ∪ acc | _ => acc end) ∅ l
  | _ => ∅
  end.

(** A list of non-empty field ids. *)
Fixpoint parseFields (l : list cfgval) : option (list string) :=
  match l with
  | [] => Some []
  | CStr s :: rest =>
      if decide (s = ""%string) then None
      else match parseFields rest with Some fs => Some (s :: fs) | None => None end
  | _ => None
  end.

(** [park_fields]: optional; an entry that is no field id is an error. *)
Definition parsePark (cfg : list (string * cfgval)) : option (list string) :=
  match cfgGet cfg "park_fields" with
  | Some (CList l) => parseFields l
  | _ => Some []
  end.

Section init.
Context (ParseDuration : string → option Z).

Definition parseDuration (m : list (string * cfgval)) (key : string) : option Z :=
  match cfgGet m key with
  | None => Some 0
  | Some (CStr s) => ParseDuration s
  | Some _ => None
  end.

(** The [valet] section of the configuration. *)
Definition parseValet (cfg : list (string * cfgval)) : initErr + Config Memory.MemoryStore :=
  let base := {| cfg_DefaultTTL := 0; cfg_MaxTTL := 0; cfg_MaxInFlight := 0; cfg_RetainAfterClose := 0;
                 cfg_OnExpire := true; cfg_Store := Memory.NewMemoryStore |} in
  match cfgGet cfg "valet" with
  | Some (CMap vm) =>
      let store := default ""%string (cfgStr vm "store") in
      if negb (bool_decide (store = ""%string)) && negb (bool_decide (store = "memory"%string))
      then inl EInitStore else
      match parseDuration vm "default_ttl" with
      | None => inl (EInitDuration "default_ttl")
      | Some ttl =>
          match parseDuration vm "retain_after_close" with
          | None => inl (EInitDuration "retain_after_close")
          | Some retain =>
              let with_limit mif :=
                inr {| cfg_DefaultTTL := ttl; cfg_MaxTTL := 0; cfg_MaxInFlight := mif;
                       cfg_RetainAfterClose := retain; cfg_OnExpire := true;
                       cfg_Store := Memory.NewMemoryStore |} in
              match cfgGet vm "max_in_flight" with
              | None => with_limit 0
              | Some raw =>
                  match asInt raw with
                  | Some mif => if mif <? 0 then inl EInitMaxInFlight else with_limit mif
                  | None => inl EInitMaxInFlight
                  end
              end
          end
      end
  | _ => inr base
  end.

Definition Init (cfg : list (string * cfgval)) : initErr + Gear * Engine Memory.MemoryStore :=
  let orig := default ""%string (cfgStr cfg "origin") in
  let known := parseKnown cfg in
  match cfgGet cfg "correlation_key" with
  | Some (CList ((_ :: _) as rawKey)) =>
      match parseFields rawKey with
      | None => inl EInitKeyEntry
      | Some key =>
          match parsePark cfg with
          | None => inl EInitPark
          | Some park =>
              match parseRoutes (default CNull (cfgGet cfg "routes")) with
              | inl e => inl (EInitRoutes e)
              | inr rs =>
                  match parseValet cfg with
                  | inl e => inl e
                  | inr vcfg =>
                      match Valet.New vcfg with
                      | inl e => inl (EInitEngine e)
                      | inr eng => inr (mkGear orig key park rs known, eng)
                      end
                  end
              end
          end
      end
  | _ => inl EInitKey
  end.
End init.

(** ** The gear at work *)

Section gear.
Context {S : Type} `{StoreLaws S}.

(** What [Emit] was called with, and the gear's state at the call. *)
Record emission := mkEmission {
  e_port : string; e_msg : loc; e_heap : heap; e_engine : Engine S; e_world : World loc }.

Record gstate := mkState {
  gear : Gear;
  engine : Engine S;
  world : World loc;
  hp : heap;
  linkStates : gmap string bool;
  log : list emission;
}.

Definition setHp (h : heap) (st : gstate) : gstate :=
  mkState (gear st) (engine st) (world st) h (linkStates st) (log st).
Definition setGear (g : Gear) (st : gstate) : gstate :=
  mkState g (engine st) (world st) (hp st) (linkStates st) (log st).
Definition setEngine (e : Engine S) (w : World loc) (st : gstate) : gstate :=
  mkState (gear st) e w (hp st) (linkStates st) (log st).
Definition setLink (port : string) (up : bool) (st : gstate) : gstate :=
  mkState (gear st) (engine st) (world st) (hp st) (<[port := up]> (linkStates st)) (log st).

Context (sprint : heap → val → string).
Context (emits : list emission → string → loc → bool).
(** The availability of ports that are not bound to a local I/O gear. *)
Context (base : string → bool).

Definition availability (st : gstate) (port : string) : bool :=
  match linkStates st !! port with Some up => up | None => base port end.

(** The link-state consumer of [Start]: one event. *)
Definition onLink (port cmd : string) (st : gstate) : gstate :=
  setLink port (bool_decide (cmd = "conn.up"%string)) st.

(** What a handler returns: [HErr] an error to the runtime, [HPanic] a Go panic,
    [HFuel] data deeper than the clone's fuel. *)
Inductive hresult := HOk | HErr (what : string) | HPanic | HFuel.

Definition emit (st : gstate) (port : string) (msg : loc) : gstate * bool :=
  (mkState (gear st) (engine st) (world st) (hp st) (linkStates st)
     (log st ++ [mkEmission port msg (hp st) (engine st) (world st)]),
   emits (log st) port msg).

Definition msgOf (st : gstate) (msg : loc) : option FluxMsg := msgs (hp st) !! msg.

(** [if msg.Metadata == nil { msg.Metadata = make(...) }; msg.Metadata[k] = v] *)
Definition putMeta (h : heap) (msg : loc) (k v : string) : heap :=
  match msgs h !! msg with
  | None => h
  | Some m =>
      match Metadata m with
      | Some l => setMetas (alter (λ mm, <[k := v]> mm) l (metas h)) h
      | None =>
          let '(h1, l) := allocMeta {[k := v]} h in
          setMsgs (<[msg := setMetadata (Some l) m]> (msgs h1)) h1
      end
  end.

Definition emitError (st : gstate) (msg : option loc) (reason : string) : gstate :=
  match msg with
  | None => st
  | Some p => (emit (setHp (putMeta (hp st) p metaReason reason) st) portError p).1
  end.

Fixpoint keyParts (h : heap) (m : FluxMsg) (fields : list string) : option (list string) :=
  match fields with
  | [] => Some []
  | f :: rest =>
      match FluxMsg.Get h m f with
      | None => None
      | Some v => match keyParts h m rest with
                  | Some ps => Some (FieldToKeyPart sprint h v :: ps)
                  | None => None
                  end
      end
  end.

Definition buildKey (st : gstate) (msg : option loc) : option string :=
  match msg ≫= msgOf st with
  | None => None
  | Some m =>
      if decide (Data m = None) then None
      else JoinKeys <$> keyParts (hp st) m (corrKey (gear st))
  end.

Definition matches (h : heap) (r : route) (m : option FluxMsg) : bool :=
  if decide (matchField r = ""%string) then true else
  match m with
  | None => false
  | Some m =>
      if decide (Data m = None) then false else
      match FluxMsg.Get h m (matchField r) with
      | None => false
      | Some v => HasPrefix (FieldToKeyPart sprint h v) (matchPrefix r)
      end
  end.

(** The index and the first route that matches. *)
Definition matchRoute (st : gstate) (m : option FluxMsg) : option (nat * route) :=
  list_find (λ r, matches (hp st) r m = true) (routes (gear st)).

Definition stripParked (st : gstate) (msg : loc) : gstate :=
  match msgOf st msg with
  | None => st
  | Some m =>
      if decide (Data m = None) then st
      else setHp (foldl (λ h f, deletePath h (Data m) f) (hp st) (parkFields (gear st))) st
  end.

(** Each parked field present in the request is set on the reply; a conflict is
    ignored, a write to a nil map panics ([false]). *)
Fixpoint restoreFields (h : heap) (req reply : FluxMsg) (fields : list string) : heap * bool :=
  match fields with
  | [] => (h, true)
  | f :: rest =>
      match FluxMsg.Get h req f with
      | None => restoreFields h req reply rest
      | Some v =>
          match Set_ h reply f v with
          | (SetPanic, h') => (h', false)
          | (_, h') => restoreFields h' req reply rest
          end
      end
  end.

Definition restoreParked (st : gstate) (t : Ticket loc) (reply : loc) : gstate * bool :=
  match parkFields (gear st), Request t ≫= msgOf st, msgOf st reply with
  | [], _, _ | _, None, _ => (st, true)
  | _, _, None => (st, false)
  | fields, Some req, Some r =>
      match Data r with
      | Some _ => let '(h, ok) := restoreFields (hp st) req r fields in (setHp h st, ok)
      | None =>
          let '(h1, l) := alloc (OMapS ∅) (hp st) in
          let r' := setData (Some l) r in
          let h2 := setMsgs (<[reply := r']> (msgs h1)) h1 in
          let '(h, ok) := restoreFields h2 req r' fields in (setHp h st, ok)
      end
  end.

(** Merge the return context over the response's metadata. *)
Definition mergeCtx (h : heap) (msg : loc) (ctx : gmap string string) : heap :=
  if bool_decide (ctx = ∅) then h else
  match msgs h !! msg with
  | None => h
  | Some m =>
      match Metadata m with
      | Some l => setMetas (alter (λ mm, ctx ∪ mm) l (metas h)) h
      | None =>
          let '(h1, l) := allocMeta ctx h in
          setMsgs (<[msg := setMetadata (Some l) m]> (msgs h1)) h1
      end
  end.

(** [base] is never nil: an outcome is a reply [buildKey] accepted. *)
Definition finishResponse (fuel : nat) (st : gstate) (t : Ticket loc) (b : option loc)
    : gstate * (hresult + loc) :=
  match b with
  | None => (st, inl HPanic)
  | Some bp =>
      match cloneMsg fuel (hp st) bp with
      | None => (st, inl HFuel)
      | Some (h1, resp) =>
          let '(st1, ok) := restoreParked (setHp h1 st) t resp in
          if ok then (setHp (mergeCtx (hp st1) resp (ReturnCtx t)) st1, inr resp)
          else (st1, inl HPanic)
      end
  end.

Definition responsePortFor (g : Gear) (t : Ticket loc) : string + string :=
  let o := default ""%string (ReturnCtx t !! metaOrigin) in
  if decide (o = ""%string ∨ o = origin g) then inr portResponse
  else if negb (originMatches o) then inl "not a valid peer identifier"%string
  else if negb (bool_decide (knownOrigins g = ∅)) && negb (bool_decide (o ∈ knownOrigins g))
  then inl "not a known peer"%string
  else inr (portResponse +:+ "_" +:+ o).

(** ** Requests *)

(** The load signal of a pick: the snapshot of the engine's counts when the tree
    balances by load, zero otherwise. *)
Definition loadOf (st : gstate) (r : route) (port : string) : Z :=
  if needsLoad r then default 0 (InFlightSnapshot (r_leaves r) (engine st) !! port) else 0.

Definition pickDest (st : gstate) (i : nat) (r : route) : gstate * string :=
  let '(port, tree') := pick {| available := availability st; load := loadOf st r |} (r_tree r) in
  (setGear (setRoutes (<[i := setTree tree' r]> (routes (gear st))) (gear st)) st, port).

(** The parked branch: strip, stamp, emit, and release the ticket when the emission
    fails. *)
Definition sendParked (st : gstate) (msg : loc) (dest key : string) : gstate * hresult :=
  let st1 := stripParked st msg in
  let st2 := if decide (origin (gear st1) = ""%string) then st1
             else setHp (putMeta (hp st1) msg metaOrigin (origin (gear st1))) st1 in
  let '(st3, ok) := emit st2 dest msg in
  if ok then (st3, HOk)
  else let '(e', w', _) := Release key (engine st3) (world st3) in
       (setEngine e' w' st3, HErr "emit").

Definition replay (fuel : nat) (st : gstate) (msg : option loc) (t : Ticket loc) : gstate * hresult :=
  match responsePortFor (gear st) t with
  | inl _ => (emitError st msg reasonInvalidOrigin, HOk)
  | inr port =>
      match finishResponse fuel st t (Outcome t) with
      | (st1, inl r) => (st1, r)
      | (st1, inr resp) => let '(st2, ok) := emit st1 port resp in (st2, if ok then HOk else HErr "emit")
      end
  end.

(** Everything after a destination is chosen. *)
Definition parkRequest (fuel : nat) (st : gstate) (msg : loc) (dest key : string) : gstate * hresult :=
  match cloneMsg fuel (hp st) msg with
  | None => (st, HFuel)
  | Some (h1, parked) =>
      let ctx := match msgs (hp st) !! msg with
                 | Some m => returnContext (readMeta (hp st) (Metadata m))
                 | None => ∅
                 end in
      let pr := mkParkRequest key dest (Some parked) ctx 0 in
      let '(e', w', res) := Park pr (engine st) (world st) in
      let st1 := setEngine e' w' (setHp h1 st) in
      match res with
      | inl ErrOverloaded => (emitError st1 (Some msg) reasonOverloaded, HOk)
      | inl _ => (st1, HErr "park")
      | inr (Parked, _) => sendParked st1 msg dest key
      | inr (AttachedOpen, _) => (st1, HOk)
      | inr (ReplayedClosed, t) => replay fuel st1 (Some msg) (deref (world st1) t)
      end
  end.

Definition handleRequest (fuel : nat) (st : gstate) (msg : option loc) : gstate * hresult :=
  match buildKey st msg, msg with
  | Some key, Some p =>
      match matchRoute st (msgOf st p) with
      | None => (emitError st msg reasonNoRoute, HOk)
      | Some (i, r) =>
          let '(st1, dest) := pickDest st i r in
          if decide (dest = ""%string) then (emitError st1 msg reasonNoDestination, HOk)
          else parkRequest fuel st1 p dest key
      end
  | _, _ => (emitError st msg reasonNoKey, HOk)
  end.

(** ** Replies *)

Definition handleReply (fuel : nat) (st : gstate) (msg : option loc) : gstate * hresult :=
  match buildKey st msg with
  | None => (emitError st msg reasonUnmatchedReply, HOk)
  | Some key =>
      let '(e', w', res) := Redeem key msg (engine st) (world st) in
      let st1 := setEngine e' w' st in
      match res with
      | inl (ErrUnmatched | ErrAlreadyRedeemed) => (emitError st1 msg reasonUnmatchedReply, HOk)
      | inl _ => (st1, HErr "redeem")
      | inr t =>
          let tk := deref (world st1) t in
          match responsePortFor (gear st1) tk with
          | inl _ => (emitError st1 msg reasonInvalidOrigin, HOk)
          | inr port =>
              match finishResponse fuel st1 tk msg with
              | (st2, inl r) => (st2, r)
              | (st2, inr resp) =>
                  let '(st3, ok) := emit st2 port resp in (st3, if ok then HOk else HErr "emit")
              end
          end
      end
  end.

Definition ProcessPort (fuel : nat) (st : gstate) (port : string) (msg : option loc) : gstate * hresult :=
  if decide (port = "in"%string) then handleRequest fuel st msg
  else if decide (port = "in_reply"%string) then handleReply fuel st msg
  else (st, HErr "unexpected input port").

(** ** Expiry *)

(** The engine's [OnExpire] callback. *)
Definition onExpire_ (st : gstate) (t : Ticket loc) : gstate :=
  match Request t with
  | None => st
  | Some msg =>
      match msgOf st msg with
      | None => st
      | Some m =>
          let filled := readMeta (hp st) (Metadata m) ∪ ReturnCtx t in
          let h1 := match Metadata m with
                    | Some l => setMetas (<[l := <[metaReason := reasonTimeout]> filled]> (metas (hp st))) (hp st)
                    | None =>
                        let '(h1, l) := allocMeta (<[metaReason := reasonTimeout]> filled) (hp st) in
                        setMsgs (<[msg := setMetadata (Some l) m]> (msgs h1)) h1
                    end in
          (emit (setHp h1 st) portError msg).1
      end
  end.

(** The [i]-th of the timer goroutines waiting to run, with the callback it makes. *)
Definition runExpiry (st : gstate) (i : nat) : gstate :=
  match fired (world st) !! i with
  | None => st
  | Some fn =>
      let '(e', w', cb) := runTimer fn (engine st) (setFired (delete i (fired (world st))) (world st)) in
      let st1 := setEngine e' w' st in
      match cb with
      | Some t => onExpire_ st1 (deref w' t)
      | None => st1
      end
  end.

Definition DrainGear (st : gstate) : gstate * option Err :=
  let '(r, e') := Valet.Drain (engine st) in (setEngine e' (world st) st, r).

Definition StopGear (st : gstate) : gstate :=
  let '(e', w') := Close (engine st) (world st) in setEngine e' w' st.
End gear.
