(* ===== verification/ConductorSpec.v ===== *)
(** * pkg/gears/native/conductor/gear.go: what the conductor promises

    Theorems about the handlers of [Conductor].  The first part lifts the lemmas on
    data ([Clone]) to messages; the second follows a request, a reply and a timeout
    through the gear. *)
From Stdlib Require Import Ascii.
From S2P Require Import Prelude Valet ValetInv ValetSpec Tree FluxMsg Clone Keys Conductor.
Open Scope Z_scope.

Section messages.
Implicit Types (h : heap) (p q : N).

Lemma allocMeta_ok h mm : ok_heap h → ok_heap (allocMeta mm h).1.
Proof.
  intros [H1 H2 H3 H4 H5]. split; simpl.
  - intros l o Hl%H1. lia.
  - intros l o c Hl Ho Hc l' Hl'. specialize (H2 l o c (H1 _ _ Ho) Ho Hc l' Hl'). lia.
  - intros l m [[<- _]|[_ Hl%H3]]%lookup_insert_Some; lia.
  - intros l m Hl%H4. lia.
  - intros l m [Ha Hb]%H5. split; [intros d Hd; specialize (Ha d Hd); lia|].
    intros d Hd. destruct (decide (nxt h = d)) as [<-|]; [by rewrite lookup_insert_eq|].
    rewrite lookup_insert_ne by done. by apply Hb.
Qed.

Lemma allocMsg_ok h m :
  ok_heap h → (∀ d, Data m = Some d → (d < nxt h)%N) → (∀ d, Metadata m = Some d → is_Some (metas h !! d)) →
  ok_heap (allocMsg m h).1.
Proof.
  intros [H1 H2 H3 H4 H5] Hd Hm. split; simpl.
  - intros l o Hl%H1. lia.
  - intros l o c Hl Ho Hc l' Hl'. specialize (H2 l o c (H1 _ _ Ho) Ho Hc l' Hl'). lia.
  - intros l m' Hl%H3. lia.
  - intros l m' [[<- _]|[_ Hl%H4]]%lookup_insert_Some; lia.
  - intros l m' [[<- <-]|[_ [Ha Hb]%H5]]%lookup_insert_Some; (split; [|done]); intros d Hd';
      [specialize (Hd d Hd')|specialize (Ha d Hd')]; lia.
Qed.

(** [q] holds, in [h'], an independent copy of what message [m] held in [h]: same data,
    same metadata, every object of it at or above [b]. *)
Record msg_copy (h : heap) (b : N) (m : FluxMsg) (h' : heap) (q : N) : Prop := {
  mc_msg : ∃ mq, msgs h' !! q = Some mq ∧ mq = setMetadata (Metadata mq) (setData (Data mq) m) ∧
    same h h' (VMapS (Data m)) (VMapS (Data mq)) ∧ above h' b (VMapS (Data mq)) ∧
    readMeta h' (Metadata mq) = readMeta h (Metadata m) ∧
    (∀ l, Metadata mq = Some l → (b ≤ l)%N);
  mc_loc : (b ≤ q)%N;
}.

Lemma cloneMsg_ok h n p m :
  ok_heap h → msgs h !! p = Some m → fin h n (VMapS (Data m)) →
  ∃ h' q, cloneMsg (S n) h p = Some (h', q) ∧ ok_heap h' ∧ msg_copy h (nxt h) m h' q ∧
    (∀ l, (l < nxt h)%N → objs h' !! l = objs h !! l) ∧ metas h ⊆ metas h' ∧ (nxt h ≤ nxt h')%N ∧
    (∀ l, l ≠ q → msgs h' !! l = msgs h !! l) ∧
    (∀ l, (l < nxt h)%N → metas h' !! l = metas h !! l).
Proof.
  intros Hok Hm Hf. unfold cloneMsg, deepCloneMap. rewrite Hm.
  destruct (cloneValue_ok h (nxt h) n _ Hf h Hok (ext_refl h) ltac:(lia)) as (h1&v'&->&Hok1&He&Hv&Ha&Hs).
  assert (∃ d, v' = VMapS d) as [d ->] by (inversion Hs; eauto).
  destruct He as [He1 He0 He2 He3 He4].
  assert (Hrm : readMeta h1 (Metadata m) = readMeta h (Metadata m)) by (unfold readMeta; by rewrite He3).
  unfold cloneMeta. rewrite Hrm. case_bool_decide as Hempty.
  - eexists _, _. split; [done|]. split_and!; simpl; try done; try lia.
    + apply allocMsg_ok; simpl; [done|intros l ->; by apply Hv|done].
    + split; simpl; [|lia]. eexists. rewrite lookup_insert_eq. split_and!; simpl; try done.
      * by eapply same_ext; [|done].
      * by eapply above_ext; [|done].
    + by rewrite He3.
    + intros l Hl. by rewrite lookup_insert_ne, He4.
    + intros l Hl. by rewrite He3.
  - assert (Hfr : metas h1 !! nxt h1 = None).
    { destruct (metas h1 !! nxt h1) eqn:E; [|done]. apply (ok_metas _ Hok1) in E. lia. }
    eexists _, _. split; [done|]. split_and!; simpl; try done; try lia.
    + apply (allocMsg_ok (allocMeta (readMeta h (Metadata m)) h1).1 (setMetadata (Some (nxt h1)) (setData d m)));
        simpl; [by apply (allocMeta_ok h1)|intros l ->; specialize (Hv l eq_refl); lia|].
      intros l [= <-]. by rewrite lookup_insert_eq.
    + split; simpl; [|lia]. eexists. rewrite lookup_insert_eq. split_and!; simpl; try done.
      * by eapply same_ext; [|done].
      * by eapply above_ext; [|done].
      * unfold readMeta at 1. simpl. by rewrite lookup_insert_eq.
      * intros l [= <-]. lia.
    + rewrite <-He3. by apply insert_subseteq.
    + intros l Hl. by rewrite lookup_insert_ne, He4.
    + intros l Hl. rewrite lookup_insert_ne by lia. by rewrite He3.
Qed.

(** ** Stripping and stamping *)

Lemma strip_spec b h root fields :
  closed b h → vlt b (VMapS root) →
  let h' := foldl (λ h f, deletePath h root f) h fields in
  shrinks h h' ∧ agree_above b h h' ∧
  ∀ f, f ∈ fields → getPath h' (VMapS root) (splitDot f) = None.
Proof.
  revert h. induction fields as [|f fields IH]; intros h Hc Hv; simpl.
  { split_and!; [apply shrinks_refl|done|set_solver]. }
  pose proof (deleteNested_shrinks h (VMapS root) (splitDot f)) as Hsh.
  pose proof (deleteNested_frame b h (VMapS root) (splitDot f) Hc Hv) as Hfr.
  pose proof (deleteNested_gone h (VMapS root) (splitDot f)) as Hgone.
  fold (deletePath h root f) in Hsh, Hfr, Hgone.
  destruct (IH (deletePath h root f)) as (Hsh2&Hfr2&Hgone2); [by eapply shrinks_closed|done|].
  split_and!.
  - by eapply shrinks_trans.
  - intros l Hl. by rewrite (Hfr2 l Hl), (Hfr l Hl).
  - intros f' [->|Hf']%elem_of_cons; [|by apply Hgone2].
    apply eq_None_not_Some. intros [x Hx]. apply (shrinks_getPath _ _ _ _ _ Hsh2) in Hx. congruence.
Qed.

Lemma putMeta_spec h p m k v :
  ok_heap h → msgs h !! p = Some m →
  let h' := putMeta h p k v in
  ok_heap h' ∧ objs h' = objs h ∧ (nxt h ≤ nxt h')%N ∧
  (∀ q, q ≠ p → msgs h' !! q = msgs h !! q) ∧
  (∀ l, (l < nxt h)%N → Metadata m ≠ Some l → metas h' !! l = metas h !! l) ∧
  ∃ m', msgs h' !! p = Some m' ∧ m' = setMetadata (Metadata m') m ∧
    readMeta h' (Metadata m') = <[k := v]> (readMeta h (Metadata m)) ∧
    (∀ l, Metadata m' = Some l → Metadata m = Some l ∨ (nxt h ≤ l)%N).
Proof.
  intros Hok Hm h'. subst h'. unfold putMeta. rewrite Hm.
  pose proof (ok_msg _ Hok _ _ Hm) as [Hd Hmd].
  destruct (Metadata m) as [l|] eqn:El.
  - destruct (Hmd l eq_refl) as [mm Hmm]. split_and!; simpl; try done.
    + destruct Hok as [H1 H2 H3 H4 H5]. split; simpl; try done.
      * intros l' x. rewrite lookup_alter_Some. intros [[<- (?&?&_)]|[_ ?]]; eauto.
      * intros l' m' [Ha Hb]%H5. split; [done|]. intros d Hd'. rewrite lookup_alter_is_Some. by apply Hb.
    + intros l' _ Hne. by rewrite lookup_alter_ne by congruence.
    + exists m. split_and!; [done|by destruct m| |rewrite El; auto].
      rewrite El. unfold readMeta. simpl. by rewrite lookup_alter_eq, Hmm.
  - assert (p < nxt h)%N as Hp by by eapply ok_msgs. split_and!; simpl; try done.
    + pose proof (allocMeta_ok h {[k := v]} Hok) as [H1 H2 H3 H4 H5]. split; simpl in *; try done.
      * intros l m' [[<- _]|[_ ?]]%lookup_insert_Some; [lia|eauto].
      * intros l m' [[<- <-]|[_ ?]]%lookup_insert_Some; [|eauto]. simpl.
        split; [intros d Hd'; specialize (Hd d Hd'); lia|]. intros d [= <-]. by rewrite lookup_insert_eq.
    + lia.
    + intros q Hq. by rewrite lookup_insert_ne.
    + intros l Hl _. rewrite lookup_insert_ne; [done|lia].
    + eexists. rewrite lookup_insert_eq. split_and!; simpl; try done.
      * unfold readMeta. simpl. by rewrite lookup_insert_eq.
      * intros l [= <-]. right. lia.
Qed.
End messages.

(** ** What [Init] establishes *)

Lemma parseFields_spec l fs :
  parseFields l = Some fs → length fs = length l ∧ Forall (λ f, f ≠ ""%string) fs.
Proof.
  revert fs. induction l as [|v l IH]; intros fs; simpl; [intros [= <-]; by split|].
  destruct v; try done. case_decide; [done|]. destruct (parseFields l) as [fs'|]; [|done].
  intros [= <-]. destruct (IH fs' eq_refl) as [Hl Hf]. split; [simpl; lia|by constructor].
Qed.

Lemma cfgGet_small m k v : small (CMap m) → cfgGet m k = Some v → small v.
Proof.
  intros Hs Hg. inversion Hs as [|? Hf| | | | |]; subst. unfold cfgGet in Hg.
  destruct (list_find _ m) as [[i [k' v']]|] eqn:E; simplify_eq/=.
  apply list_find_Some in E as (Hi&_&_). rewrite Forall_fmap, Forall_lookup in Hf. apply (Hf i (k', v) Hi).
Qed.

(** A parsed route: its tree is well formed and its precomputed load data matches it. *)
Definition route_ok (r : route) : Prop :=
  wf 0 (r_tree r) ∧ (∀ p, p ∈ leaves (r_tree r) → HasPrefix p "out" = true) ∧
  needsLoad r = containsLeastLoaded (r_tree r) ∧ (needsLoad r = true → r_leaves r = leaves (r_tree r)).

Lemma parseRoute_ok i v r : small v → parseRoute i v = inr r → route_ok r.
Proof.
  intros Hs. unfold parseRoute. destruct v as [|rm| | | | |]; try done.
  destruct (parseMatch _ rm) as [e|[f p]]; [done|].
  destruct (cfgGet rm "destination") as [dv|] eqn:Hd; [|done].
  destruct (parseDest dv) as [e|tree] eqn:Hp; [done|]. intros [= <-].
  destruct (parseDest_wf dv tree) as [Hw Hout]; [by eapply cfgGet_small|done|].
  split_and!; simpl; try done. by intros ->.
Qed.

Lemma parseRoutes_ok v rs : small v → parseRoutes v = inr rs → rs ≠ [] ∧ Forall route_ok rs.
Proof.
  intros Hs. unfold parseRoutes. destruct v as [| |l| | | |]; try done. destruct l as [|x l]; [done|].
  inversion Hs as [? _ Hf| | | | | |]; subst. intros Hp.
  assert (∀ l i rs, Forall small l → parseRoutesFrom i l = inr rs → length rs = length l ∧ Forall route_ok rs) as Hall.
  { clear. induction l as [|v l IH]; intros i rs Hf Hp; simpl in Hp; [by simplify_eq|].
    inversion Hf; subst. destruct (parseRoute i v) as [|r] eqn:Hr; [done|].
    destruct (parseRoutesFrom (S i) l) as [|rs'] eqn:Hrs; [done|]. simplify_eq.
    destruct (IH (S i) rs') as [Hl Hok]; [done|done|]. split; [simpl; lia|].
    constructor; [by eapply parseRoute_ok|done]. }
  destruct (Hall _ _ _ Hf Hp) as [Hl Hok]. split; [by destruct rs|done].
Qed.

(** a gear [Init] accepts is ready to run. The correlation key is a non-empty list
    of non-empty fields and so are the parked fields; there is at least one route and
    every route's tree is well formed over output ports, with its load data
    precomputed; the engine is a running one that satisfies its invariant, holds no
    ticket and reports expiries. *)
Theorem init_ready PD cfg g e now :
  Init PD cfg = inr (g, e) → small (CMap cfg) →
  corrKey g ≠ [] ∧ Forall (λ f, f ≠ ""%string) (corrKey g ++ parkFields g) ∧
  routes g ≠ [] ∧ Forall route_ok (routes g) ∧
  Inv (Msg := N) e (mkWorld ∅ 0 now ∅ 0 []) ∧ state e = engineRunning ∧
  contents (store e) = ∅ ∧ retained e = ∅ ∧ onExpire e = true ∧ 0 < defaultTTL e.
Proof.
  intros Hi Hs. unfold Init in Hi.
  destruct (cfgGet cfg "correlation_key") as [[| |[|k0 kl]| | | |]|]; try done.
  destruct (parseFields (k0 :: kl)) as [key|] eqn:Hk; [|done].
  destruct (parsePark cfg) as [park|] eqn:Hp; [|done].
  destruct (parseRoutes (default CNull (cfgGet cfg "routes"))) as [|rs] eqn:Hr; [done|].
  destruct (parseValet PD cfg) as [|vcfg] eqn:Hv; [done|].
  destruct (Valet.New vcfg) as [|eng] eqn:He; simplify_eq. simpl.
  apply parseFields_spec in Hk as [Hlk Hfk].
  assert (Forall (λ f, f ≠ ""%string) park) as Hfp.
  { unfold parsePark in Hp. destruct (cfgGet cfg "park_fields") as [[| |l| | | |]|]; simplify_eq; try constructor.
    by apply parseFields_spec in Hp as [_ ?]. }
  assert (small (default CNull (cfgGet cfg "routes"))) as Hsr.
  { destruct (cfgGet cfg "routes") eqn:E; [by eapply cfgGet_small|constructor]. }
  destruct (parseRoutes_ok _ _ Hsr Hr) as [Hne Hok].
  assert (cfg_Store vcfg = Memory.NewMemoryStore ∧ cfg_OnExpire vcfg = true) as [Hst Hcb].
  { unfold parseValet in Hv. repeat (case_match; simplify_eq); done. }
  assert (Inv (Msg := N) e (mkWorld ∅ 0 now ∅ 0 [])) as I.
  { apply initial_inv. exists vcfg, now. by rewrite Hst. }
  split_and!; try done; [by destruct key|by apply Forall_app|..]; unfold Valet.New in He;
    repeat (case_match; simplify_eq); simpl; try done; rewrite ?Hst; try done; unfold DefaultTTL; lia.
Qed.

Section requests.
Context {S : Type} `{StoreLaws S}.
Context (sprint : heap → val → string) (emits : list (@emission S) → string → N → bool) (base : string → bool).
Implicit Types (st : @gstate S) (g : Gear) (em : @emission S).

(** The message [m] at [p] as it leaves the gear: parked fields gone, the gear's origin
    stamped, no field that was not there before. *)
Definition sent_as g (h : heap) (p : N) (m : FluxMsg) (h' : heap) : Prop :=
  ∃ m', msgs h' !! p = Some m' ∧ m' = setMetadata (Metadata m') m ∧
    (∀ f, f ∈ parkFields g → Get h' m' f = None) ∧
    (∀ k x, Get h' m' k = Some x → Get h m k = Some x) ∧
    readMeta h' (Metadata m') =
      (if decide (origin g = ""%string) then readMeta h (Metadata m)
       else <[metaOrigin := origin g]> (readMeta h (Metadata m))).

(** The heap after stripping and stamping: the message as sent, and nothing at or above
    [b] touched. *)
Record outbound g (h : heap) (b : N) (p : N) (m : FluxMsg) (h' : heap) : Prop := {
  ob_ok : ok_heap h';
  ob_msg : sent_as g h p m h';
  ob_above : agree_above b h h';
  ob_msgs : ∀ q, q ≠ p → msgs h' !! q = msgs h !! q;
  ob_metas : ∀ l, (b ≤ l)%N → (l < nxt h)%N → metas h' !! l = metas h !! l;
}.

Lemma strip_outbound g h b p m :
  ok_heap h → closed b h → msgs h !! p = Some m → Data m ≠ None → vlt b (VMapS (Data m)) →
  (∀ l, Metadata m = Some l → (l < b)%N) →
  let h1 := foldl (λ h f, deletePath h (Data m) f) h (parkFields g) in
  outbound g h b p m
    (if decide (origin g = ""%string) then h1 else putMeta h1 p metaOrigin (origin g)).
Proof.
  intros Hok Hcl Hm Hd Hv Hmd h1.
  destruct (strip_spec b h (Data m) (parkFields g) Hcl Hv) as (Hsh&Hag&Hgone). fold h1 in Hsh, Hag, Hgone.
  assert (ok_heap h1) as Hok1 by by eapply shrinks_ok.
  assert (msgs h1 !! p = Some m) as Hm1 by by rewrite (sh_msgs _ _ Hsh).
  assert (∀ mm, readMeta h1 mm = readMeta h mm) as Hrm by (intros; unfold readMeta; by rewrite (sh_metas _ _ Hsh)).
  case_decide as Ho.
  - split; [done| |done|by rewrite (sh_msgs _ _ Hsh)|by rewrite (sh_metas _ _ Hsh)].
    exists m. split_and!; [done|by destruct m|exact Hgone| |by rewrite decide_True].
    intros k x. unfold Get. by apply shrinks_getPath.
  - destruct (putMeta_spec h1 p m metaOrigin (origin g) Hok1 Hm1)
      as (Hok2&Hob&Hnx&Hms&Hmt&m'&Hm'&Heq&Hread&Hloc).
    set (h2 := putMeta h1 p metaOrigin (origin g)) in *.
    assert (Hget : ∀ k, Get h2 m' k = Get h1 m k).
    { intros k. rewrite Heq. unfold Get. change (Data (setMetadata (Metadata m') m)) with (Data m).
      by apply getPath_objs. }
    split; [done| | |intros q Hq; by rewrite (Hms q Hq), (sh_msgs _ _ Hsh)|].
    + exists m'. split_and!; [done|done| | |by rewrite decide_False, Hread, Hrm].
      * intros f Hf. rewrite Hget. by apply Hgone.
      * intros k x. rewrite Hget. unfold Get. by apply shrinks_getPath.
    + intros l Hl. rewrite Hob. by apply Hag.
    + intros l Hb Hl. rewrite <-(sh_metas _ _ Hsh). apply Hmt; [by rewrite (sh_nxt _ _ Hsh)|].
      intros Hl'. specialize (Hmd l Hl'). lia.
Qed.

Lemma sendParked_spec st p m b dest key st' r :
  ok_heap (hp st) → closed b (hp st) → msgs (hp st) !! p = Some m → Data m ≠ None →
  vlt b (VMapS (Data m)) → (∀ l, Metadata m = Some l → (l < b)%N) →
  sendParked emits st p dest key = (st', r) →
  ∃ h', outbound (gear st) (hp st) b p m h' ∧ hp st' = h' ∧ gear st' = gear st ∧
    log st' = log st ++ [mkEmission dest p h' (engine st) (world st)] ∧
    (if emits (log st) dest p then engine st' = engine st ∧ world st' = world st ∧ r = HOk
     else ∃ res, Release key (engine st) (world st) = (engine st', world st', res) ∧ r = HErr "emit").
Proof.
  intros Hok Hcl Hm Hd Hv Hmd. unfold sendParked, stripParked, msgOf. rewrite Hm, (decide_False (P := Data m = None)) by done.
  cbv zeta. cbn [gear setHp hp].
  pose proof (strip_outbound (gear st) (hp st) b p m Hok Hcl Hm Hd Hv Hmd) as Hob. cbv zeta in Hob.
  set (h1 := foldl _ _ _) in *.
  destruct (decide (origin (gear st) = ""%string)); unfold emit; cbn [gear setHp hp log engine world];
    (destruct (emits (log st) dest p) eqn:E;
      [intros [= <- <-]|destruct (Release key (engine st) (world st)) as [[e' w'] res] eqn:Er; intros [= <- <-]]);
    (eexists; split; [exact Hob|]; split_and!; try done; eauto).
Qed.

Lemma msg_copy_frame h b m h1 h2 q :
  ok_heap h1 → msg_copy h b m h1 q → agree_above b h1 h2 → msgs h2 !! q = msgs h1 !! q →
  (∀ l, (b ≤ l)%N → (l < nxt h1)%N → metas h2 !! l = metas h1 !! l) → msg_copy h b m h2 q.
Proof.
  intros Hok [(mq&Hq&Heq&Hs&Ha&Hr&Hl) Hb] Hag Hms Hmt. split; [|done]. exists mq.
  split_and!; [by rewrite Hms|done|by eapply same_frame|by eapply above_frame| |done].
  rewrite <-Hr. unfold readMeta. destruct (Metadata mq) as [l|] eqn:E; [|done]. simpl.
  rewrite Hmt; [done|by apply Hl|]. destruct (proj2 (ok_msg _ Hok _ _ Hq) l E) as [mm Hmm].
  by eapply ok_metas.
Qed.

Lemma keyParts_length h m fields ps : keyParts sprint h m fields = Some ps → length ps = length fields.
Proof.
  revert ps. induction fields as [|f fields IH]; intros ps Hk; simpl in *; simplify_eq; [done|].
  destruct (FluxMsg.Get h m f); [|done]. destruct (keyParts sprint h m fields); simplify_eq/=. by rewrite IH.
Qed.

Lemma buildKey_inv st p key :
  buildKey sprint st (Some p) = Some key → ∃ m parts, msgs (hp st) !! p = Some m ∧ Data m ≠ None ∧
    keyParts sprint (hp st) m (corrKey (gear st)) = Some parts ∧ key = JoinKeys parts.
Proof.
  unfold buildKey, msgOf. simpl. destruct (msgs (hp st) !! p) as [m|]; [|done].
  case_decide; [done|]. destruct (keyParts sprint (hp st) m _) eqn:E; simpl; [|done].
  intros [= <-]. eauto 10.
Qed.

Lemma buildKey_nonempty st p key :
  corrKey (gear st) ≠ [] → buildKey sprint st (Some p) = Some key → key ≠ ""%string.
Proof.
  intros Hne (m&parts&_&_&Hk&->)%buildKey_inv. apply keyParts_length in Hk.
  destruct parts as [|x parts]; [by destruct (corrKey (gear st))|].
  simpl. by destruct (Itoa (String.length x)).
Qed.

(** A request the engine accepts: cloned, parked, stripped, stamped and sent. *)
Lemma parkRequest_parked n st p m dest key st' res :
  ok_heap (hp st) → Inv (engine st) (world st) → msgs (hp st) !! p = Some m → Data m ≠ None →
  fin (hp st) n (VMapS (Data m)) → key ≠ ""%string →
  state (engine st) = engineRunning →
  contents (store (engine st)) !! key = None → retained (engine st) !! key = None →
  (0 < maxInFlight (engine st) → openCount (engine st) < maxInFlight (engine st)) →
  parkRequest emits (1 + n) st p dest key = (st', res) →
  ∃ h' e' w' t q,
    log st' = log st ++ [mkEmission dest p h' e' w'] ∧
    contents (store e') = <[key := t]> (contents (store (engine st))) ∧
    (∃ id ttl, deref w' t = setTimer id (mkTicket key dest (returnContext (readMeta (hp st) (Metadata m)))
      (Some q) None (now (world st)) (now (world st) + ttl) 0 TicketOpen None)) ∧
    msg_copy (hp st) (nxt (hp st)) m h' q ∧ sent_as (gear st) (hp st) p m h' ∧
    hp st' = h' ∧ ok_heap h' ∧
    (if emits (log st) dest p then engine st' = e' ∧ world st' = w' ∧ res = HOk
     else contents (store (engine st')) = contents (store (engine st)) ∧ res = HErr "emit").
Proof.
  intros Hok I Hm Hd Hf Hkey Hrun Hfree Hret Hlim Hp.
  assert (∃ d, Data m = Some d) as [d Hdm] by (destruct (Data m); [eauto|done]).
  assert (d < nxt (hp st))%N as Hdlt by by eapply (ok_msg _ Hok).
  assert (p < nxt (hp st))%N as Hplt by by eapply (ok_msgs _ Hok).
  assert (∀ l, Metadata m = Some l → (l < nxt (hp st))%N) as Hmdlt.
  { intros l Hl. destruct (proj2 (ok_msg _ Hok _ _ Hm) l Hl). by eapply ok_metas. }
  destruct (cloneMsg_ok (hp st) n p m Hok Hm Hf) as (h1&q&Hclone&Hok1&Hcp&Hob&Hmet&Hnx&Hoth&_).
  assert (q ≠ p) as Hqp by (destruct Hcp; lia).
  unfold parkRequest in Hp. change (1 + n)%nat with (Datatypes.S n) in Hp. rewrite Hclone, Hm in Hp.
  set (pr := mkParkRequest _ _ _ _ _) in Hp.
  destruct (Park_fresh pr (engine st) (world st)) as (e'&w'&Hpark); [done..|]. rewrite Hpark in Hp.
  destruct (Park_ok _ _ _ _ _ _ I Hpark) as (Ht&_&_&_&Hco&Hre'&_&_&_&_&id&Htk).
  pose proof (Park_inv _ _ _ _ _ _ I Hpark) as I'.
  set (st1 := setEngine e' w' (setHp h1 st)) in Hp.
  assert (closed (nxt (hp st)) h1) as Hcl.
  { intros l o c Hl Ho Hc. rewrite Hob in Ho by done. by eapply (ok_closed _ Hok). }
  assert (msgs h1 !! p = Some m) as Hm1 by by rewrite Hoth.
  destruct (sendParked_spec st1 p m (nxt (hp st)) dest key st' res) as (h'&Hout&Hh'&Hg'&Hlog&Hres);
    try done; [rewrite Hdm; by eapply vlt_ref|].
  pose proof Hout as [_ _ Hag Hms Hmt]. cbn in Hag, Hms, Hmt.
  exists h', e', w', (nextTicket (world st)), q. split_and!; try done.
  - eexists _, _. exact Htk.
  - eapply msg_copy_frame; [exact Hok1|done|done|by apply Hms|done].
  - destruct Hout as [_ (m'&?&?&?&Hget&Hrm) _ _ _]. exists m'. cbn in Hget, Hrm. split_and!; try done.
    + intros k x Hx%Hget. unfold Get in *. rewrite <-Hx. symmetry.
      eapply getPath_below; [apply Hok| |done]. rewrite Hdm. by eapply vlt_ref.
    + rewrite Hrm. assert (readMeta h1 (Metadata m) = readMeta (hp st) (Metadata m)) as ->; [|done].
      unfold readMeta. destruct (Metadata m) as [l|] eqn:El; [|done]. simpl.
      destruct (proj2 (ok_msg _ Hok _ _ Hm) l El) as [mm Hmm]. by rewrite Hmm, (lookup_weaken _ _ _ _ Hmm Hmet).
  - apply Hout.
  - cbn in Hres. destruct (emits (log st) dest p); [done|]. destruct Hres as (rs&Hrel&->).
    destruct (Release_ok key e' w' (nextTicket (world st)) I') as (e2&w2&Hr2&Hco2&_);
      [by rewrite Hco, lookup_insert_eq|done|].
    assert (engine st' = e2) as -> by congruence. split; [|done].
    rewrite Hco2, Hco, delete_insert_id; done.
Qed.

(** The signals the pick of route [r] consults. *)
Definition signals st (r : route) : selection :=
  {| available := availability base st; load := loadOf st r |}.

(** A request that reaches its route's destination tree: a well-formed gear and message,
    a key, a matching route, and an available port beneath it. *)
Record routable (n : nat) (B : Z) st (p : N) (m : FluxMsg) (key : string) (i : nat) (r : route) : Prop := {
  rq_heap : ok_heap (hp st);
  rq_inv : Inv (engine st) (world st);
  rq_msg : msgs (hp st) !! p = Some m;
  rq_fin : fin (hp st) n (VMapS (Data m));
  rq_corr : corrKey (gear st) ≠ [];
  rq_key : buildKey sprint st (Some p) = Some key;
  rq_route : matchRoute sprint st (Some m) = Some (i, r);
  rq_tree : wf B (r_tree r);
  rq_bound : B + 2 ^ 32 < 2 ^ 64;
  rq_reach : reach (signals st r) (r_tree r);
}.

(** The engine takes a new ticket for [key]. *)
Record accepts (e : Engine S) (key : string) : Prop := {
  ac_run : state e = engineRunning;
  ac_free : contents (store e) !! key = None;
  ac_retained : retained e !! key = None;
  ac_limit : 0 < maxInFlight e → openCount e < maxInFlight e;
}.

Lemma handleRequest_routed n B st p m key i r :
  routable n B st p m key i r →
  ∃ dest st1, pickDest base st i r = (st1, dest) ∧ dest ≠ ""%string ∧ dest ∈ leaves (r_tree r) ∧
    availability base st dest = true ∧
    gear st1 = setRoutes (routes (gear st1)) (gear st) ∧ hp st1 = hp st ∧ engine st1 = engine st ∧
    world st1 = world st ∧ log st1 = log st ∧
    ∀ fuel, handleRequest sprint emits base fuel st (Some p) = parkRequest emits fuel st1 p dest key.
Proof.
  intros [Hok I Hm Hf Hc Hk Hr Hw Hb Hreach].
  destruct (pickF_ok B (height (r_tree r)) (signals st r) (r_tree r) Hb Hw ltac:(done)) as (_&_&_&Hport).
  fold (pick (signals st r) (r_tree r)) in Hport.
  unfold pickDest. fold (signals st r).
  destruct (pick (signals st r) (r_tree r)) as [dest tree'] eqn:Hp. simpl in Hport. case_decide; [done|].
  destruct Hport as [Hin Hav]. eexists dest, _. split; [done|]. split_and!; try done.
  intros fuel. unfold handleRequest. rewrite Hk. unfold msgOf. rewrite Hm, Hr. unfold pickDest.
  fold (signals st r). rewrite Hp. by rewrite decide_False.
Qed.

Lemma request_parks n B st p m key i r st' res :
  routable n B st p m key i r → accepts (engine st) key →
  handleRequest sprint emits base (1 + n) st (Some p) = (st', res) →
  ∃ dest h' e' w' t q,
    dest ∈ leaves (r_tree r) ∧ availability base st dest = true ∧
    log st' = log st ++ [mkEmission dest p h' e' w'] ∧
    contents (store e') = <[key := t]> (contents (store (engine st))) ∧
    (∃ id ttl, deref w' t = setTimer id (mkTicket key dest (returnContext (readMeta (hp st) (Metadata m)))
      (Some q) None (now (world st)) (now (world st) + ttl) 0 TicketOpen None)) ∧
    msg_copy (hp st) (nxt (hp st)) m h' q ∧ sent_as (gear st) (hp st) p m h' ∧
    hp st' = h' ∧ ok_heap h' ∧
    (if emits (log st) dest p then engine st' = e' ∧ world st' = w' ∧ res = HOk
     else contents (store (engine st')) = contents (store (engine st)) ∧ res = HErr "emit").
Proof.
  intros Hq [Hrun Hfree Hret Hlim] Hh.
  destruct (handleRequest_routed _ _ _ _ _ _ _ _ Hq) as (dest&st1&_&_&Hin&Hav&Hg&Hhp&He&Hw&Hlog&Heq).
  destruct Hq as [Hok I Hm Hf Hc Hk Hr _ _ _]. rewrite Heq in Hh.
  pose proof (buildKey_nonempty _ _ _ Hc Hk) as Hne.
  destruct (buildKey_inv _ _ _ Hk) as (m2&_&Hm2&Hd&_). assert (m2 = m) as -> by congruence.
  destruct (parkRequest_parked n st1 p m dest key st' res)
    as (h'&e'&w'&t&q&R1&R2&R3&R4&R5&R6&R7&R8); rewrite ?Hhp, ?He, ?Hw; try done.
  rewrite Hhp, He, Hw, Hlog in *. exists dest, h', e', w', t, q.
  split_and!; try done. rewrite Hg in R5. exact R5.
Qed.

(** C4: a request is parked before it is sent, and sent once. For a request with a key,
    a matching route and an available port on a running engine with room, the handler
    makes exactly one emission, of the same message, to an available port of the
    matched route's tree; at that moment the engine already holds an open ticket for
    the key, with that destination and the request's return context. The message
    leaves without any of the parked fields and with the gear's origin stamp. *)
Theorem request_parked_then_sent n B st p m key i r st' res :
  routable n B st p m key i r → accepts (engine st) key →
  handleRequest sprint emits base (1 + n) st (Some p) = (st', res) →
  ∃ dest h' e' w' t,
    dest ∈ leaves (r_tree r) ∧ availability base st dest = true ∧
    log st' = log st ++ [mkEmission dest p h' e' w'] ∧
    contents (store e') = <[key := t]> (contents (store (engine st))) ∧
    t_state (deref w' t) = TicketOpen ∧ Key (deref w' t) = key ∧ Destination (deref w' t) = dest ∧
    ReturnCtx (deref w' t) = returnContext (readMeta (hp st) (Metadata m)) ∧
    sent_as (gear st) (hp st) p m h'.
Proof.
  intros Hq Ha Hh. destruct (request_parks _ _ _ _ _ _ _ _ _ _ Hq Ha Hh)
    as (dest&h'&e'&w'&t&q&?&?&?&?&(id&ttl&Htk)&_&?&_).
  exists dest, h', e', w', t. rewrite Htk. done.
Qed.

(** the parked request stays pristine. After the handler has stripped, stamped and
    sent the message, the ticket's request is another message with the fields, the
    metadata and the data the request arrived with: every dotted path reads what it
    read before, and nothing of it is shared with the message that was sent. *)
Theorem parked_request_pristine n B st p m key i r st' res :
  routable n B st p m key i r → accepts (engine st) key →
  handleRequest sprint emits base (1 + n) st (Some p) = (st', res) →
  ∃ em t q mq, log st' = log st ++ [em] ∧ contents (store (e_engine em)) !! key = Some t ∧
    Request (deref (e_world em) t) = Some q ∧ q ≠ p ∧
    msgs (hp st') !! q = Some mq ∧ mq = setMetadata (Metadata mq) (setData (Data mq) m) ∧
    readMeta (hp st') (Metadata mq) = readMeta (hp st) (Metadata m) ∧
    same (hp st) (hp st') (VMapS (Data m)) (VMapS (Data mq)) ∧
    (∀ k, option_relation (same (hp st) (hp st')) (λ _, False) (λ _, False) (Get (hp st) m k) (Get (hp st') mq k)) ∧
    above (hp st') (nxt (hp st)) (VMapS (Data mq)).
Proof.
  intros Hq Ha Hh. destruct (request_parks _ _ _ _ _ _ _ _ _ _ Hq Ha Hh)
    as (dest&h'&e'&w'&t&q&_&_&Hlog&Hco&(id&ttl&Htk)&[(mq&Hmq&Heq&Hs&Hab&Hrm&_) Hb]&_&->&_).
  assert (p < nxt (hp st))%N by (eapply (ok_msgs _ (rq_heap _ _ _ _ _ _ _ _ Hq)), Hq).
  eexists _, t, q, mq. split; [exact Hlog|]. simpl. rewrite Hco, Htk, lookup_insert_eq.
  split_and!; try done; [intros ->; lia|]. intros k. by apply same_getPath.
Qed.

(** a request that could not be sent leaves no ticket. When the emitter refuses the
    message, the handler reports the error and the engine's open tickets are those of
    before, so that a redelivery is parked and sent afresh instead of being absorbed as
    a retransmission. *)
Theorem failed_send_releases n B st p m key i r st' res :
  routable n B st p m key i r → accepts (engine st) key →
  (∀ l port, emits l port p = false) →
  handleRequest sprint emits base (1 + n) st (Some p) = (st', res) →
  res = HErr "emit" ∧ contents (store (engine st')) = contents (store (engine st)) ∧
  contents (store (engine st')) !! key = None.
Proof.
  intros Hq Ha Hno Hh. destruct (request_parks _ _ _ _ _ _ _ _ _ _ Hq Ha Hh)
    as (dest&h'&e'&w'&t&q&_&_&_&_&_&_&_&_&_&Hres).
  rewrite Hno in Hres. destruct Hres as [Hco ->]. rewrite Hco. split_and!; try done. apply Ha.
Qed.

Lemma Park_attached pr (e : Engine S) (w : World N) t :
  Inv e w → pr_Key pr ≠ ""%string → contents (store e) !! pr_Key pr = Some t →
  Park pr e w = (e, w, inr (AttachedOpen, t)).
Proof.
  intros I Hne Hk. unfold Park. rewrite bool_decide_false by done.
  rewrite bool_decide_false.
  - by rewrite (Get_law (store e)), Hk.
  - intros Hc. by rewrite (proj1 (inv_closed _ _ I Hc)) in Hk.
Qed.

(** a retransmission of a request still in flight is absorbed. With a ticket open
    for its key and a port available, the handler succeeds without an emission, the
    engine and its tickets unchanged, and neither the message nor any other message of
    before modified. *)
Theorem retransmission_absorbed n B st p m key i r t st' res :
  routable n B st p m key i r → contents (store (engine st)) !! key = Some t →
  handleRequest sprint emits base (1 + n) st (Some p) = (st', res) →
  res = HOk ∧ log st' = log st ∧ engine st' = engine st ∧ world st' = world st ∧
  (∀ l, (l < nxt (hp st))%N → objs (hp st') !! l = objs (hp st) !! l ∧ msgs (hp st') !! l = msgs (hp st) !! l) ∧
  metas (hp st) ⊆ metas (hp st').
Proof.
  intros Hq Hk Hh.
  destruct (handleRequest_routed _ _ _ _ _ _ _ _ Hq) as (dest&st1&_&_&_&_&Hg&Hhp&He&Hw&Hlog&Heq).
  destruct Hq as [Hok I Hm Hf Hc Hkey Hr _ _ _]. rewrite Heq in Hh.
  pose proof (buildKey_nonempty _ _ _ Hc Hkey) as Hne.
  unfold parkRequest in Hh. rewrite Hhp in Hh. change (1 + n)%nat with (Datatypes.S n) in Hh.
  destruct (cloneMsg_ok (hp st) n p m Hok Hm Hf) as (h1&q&Hclone&Hok1&[_ Hb]&Hob&Hmet&_&Hoth&_).
  rewrite Hclone, Hm, He, Hw in Hh. rewrite (Park_attached _ _ _ t) in Hh by done.
  simplify_eq. simpl. rewrite Hlog. split_and!; try done. intros l Hl. split; [by apply Hob|].
  apply Hoth. lia.
Qed.

(** What happens to a retransmission while no port is available: it goes to the error
    port as [no_destination] although its ticket is open (the pick comes before the
    park). *)
Lemma retransmission_without_port fuel st p m key i r :
  msgs (hp st) !! p = Some m → buildKey sprint st (Some p) = Some key →
  matchRoute sprint st (Some m) = Some (i, r) → (pick (signals st r) (r_tree r)).1 = ""%string →
  ∃ st', handleRequest sprint emits base fuel st (Some p) = (st', HOk) ∧
    engine st' = engine st ∧ world st' = world st ∧
    log st' = log st ++ [mkEmission portError p (putMeta (hp st) p metaReason reasonNoDestination)
                           (engine st) (world st)].
Proof.
  intros Hm Hk Hr Hp. unfold handleRequest. rewrite Hk. unfold msgOf. rewrite Hm, Hr.
  unfold pickDest. fold (signals st r). destruct (pick (signals st r) (r_tree r)) as [dest tree'].
  simpl in Hp. rewrite decide_True by done. by eexists.
Qed.

(** ** Errors *)

(** What [emitError] does: the message itself, annotated, leaves on the error port. *)
Lemma emitError_spec st p m reason :
  ok_heap (hp st) → msgs (hp st) !! p = Some m →
  let st' := emitError emits st (Some p) reason in
  engine st' = engine st ∧ world st' = world st ∧ gear st' = gear st ∧
  log st' = log st ++ [mkEmission portError p (hp st') (engine st) (world st)] ∧
  objs (hp st') = objs (hp st) ∧
  ∃ m', msgs (hp st') !! p = Some m' ∧ m' = setMetadata (Metadata m') m ∧
    readMeta (hp st') (Metadata m') = <[metaReason := reason]> (readMeta (hp st) (Metadata m)).
Proof.
  intros Hok Hm st'. subst st'. simpl.
  destruct (putMeta_spec (hp st) p m metaReason reason Hok Hm) as (_&Hob&_&_&_&m'&?&?&?&_).
  split_and!; try done. by exists m'.
Qed.

(** The reason a request is turned away before it gets a ticket. *)
Definition rejected st (p : N) : option string :=
  match buildKey sprint st (Some p) with
  | None => Some reasonNoKey
  | Some _ =>
      match matchRoute sprint st (msgOf st p) with
      | None => Some reasonNoRoute
      | Some (_, r) =>
          if decide ((pick (signals st r) (r_tree r)).1 = ""%string) then Some reasonNoDestination else None
      end
  end.

(** a request without a key, a route or an available port is surfaced, not lost. The
    handler succeeds; the engine takes no ticket; the message itself, its fields and
    data untouched and the reason in its metadata, is emitted once, on the error
    port. *)
Theorem rejected_request_surfaces fuel st p m reason st' res :
  ok_heap (hp st) → msgs (hp st) !! p = Some m → rejected st p = Some reason →
  handleRequest sprint emits base fuel st (Some p) = (st', res) →
  res = HOk ∧ engine st' = engine st ∧ world st' = world st ∧
  log st' = log st ++ [mkEmission portError p (hp st') (engine st) (world st)] ∧
  objs (hp st') = objs (hp st) ∧
  ∃ m', msgs (hp st') !! p = Some m' ∧ m' = setMetadata (Metadata m') m ∧
    readMeta (hp st') (Metadata m') = <[metaReason := reason]> (readMeta (hp st) (Metadata m)).
Proof.
  intros Hok Hm Hrej. unfold handleRequest, rejected in *.
  destruct (buildKey sprint st (Some p)) as [key|]; simplify_eq.
  2:{ intros [= <- <-]. destruct (emitError_spec st p m reasonNoKey Hok Hm) as (?&?&_&?&?&?). done. }
  destruct (matchRoute sprint st (msgOf st p)) as [[i r]|]; simplify_eq.
  2:{ intros [= <- <-]. destruct (emitError_spec st p m reasonNoRoute Hok Hm) as (?&?&_&?&?&?). done. }
  unfold pickDest. fold (signals st r). destruct (pick (signals st r) (r_tree r)) as [dest tree'].
  simpl in Hrej. case_decide; simplify_eq. intros [= <- <-].
  destruct (emitError_spec (setGear (setRoutes (<[i:=setTree tree' r]> (routes (gear st))) (gear st)) st)
    p m reasonNoDestination Hok Hm) as (?&?&_&?&?&?). done.
Qed.
End requests.
