(* ===== verification/ConductorReply.v ===== *)
(** * pkg/gears/native/conductor/gear.go: replies, responses and timeouts

    [finishResponse] builds the response on a fresh clone: what it leaves untouched,
    the metadata it carries and the parked field it restores.  Then the reply handler,
    the response port and the expiry callback. *)
From Stdlib Require Import Ascii.
From S2P Require Import Prelude Valet ValetInv ValetSpec Tree FluxMsg Clone Keys Conductor ConductorSpec.
Open Scope Z_scope.

Section writes.
Implicit Types (h : heap) (v x : val) (b : N).

Lemma above_descend h b v ps y : above h b v → descend h v ps = Some y → above h b y.
Proof.
  revert v. induction ps as [|p ps IH]; intros v Ha Hd; simpl in Hd; [by simplify_eq|].
  destruct (mapGet h v p) as [v'|] eqn:Hg; [|done]. eapply IH; [|done].
  apply mapGet_child in Hg as (l&o&Hl&Ho&_&Hc). inversion Ha; simplify_eq. eauto.
Qed.

Lemma above_loc h b v l : above h b v → vloc v = Some l → (b ≤ l)%N.
Proof. inversion 1; intros; by simplify_eq. Qed.

Lemma mapPut_above h b v p x h' y :
  mapPut h v p x = Some h' → above h b v → above h' b x → above h b y → above h' b y.
Proof.
  intros (l&o&o'&Hl&Ho&->&_&_&Hch)%mapPut_spec Hv Hx. induction 1 as [y Hy|y ly oy Hy Hb Hoy _ IH]; [by constructor|].
  destruct (decide (l = ly)) as [->|Hne].
  - eapply above_ref; [done|done|simpl; apply lookup_insert_eq|].
    intros c [->|Hc]%Hch; [done|]. apply IH. congruence.
  - eapply above_ref; [done|done|simpl; by rewrite lookup_insert_ne|done].
Qed.

(** A write beneath a value made of objects at or above [b] stays there. *)
Lemma setPath_above h b v ps x r h' :
  ok_heap h → (b ≤ nxt h)%N → vlt (nxt h) v → above h b v → vloc x = None →
  setPath h v ps x = (r, h') →
  ok_heap h' ∧ above h' b v ∧ (nxt h ≤ nxt h')%N ∧ metas h' = metas h ∧ msgs h' = msgs h ∧
  (∀ l, (l < b)%N → objs h' !! l = objs h !! l).
Proof.
  intros Hok Hb Hv Ha Hx Hs. assert (∀ l, (l < b)%N → objs h' !! l = objs h !! l) as Hfr.
  { intros l Hl. eapply setPath_frame; [done|exact Hv|done|lia|]. intros (qs&y&Hd&Hy).
    pose proof (above_loc _ _ _ _ (above_descend _ _ _ _ _ Ha Hd) Hy). lia. }
  enough (ok_heap h' ∧ (∀ y, above h b y → above h' b y) ∧ (nxt h ≤ nxt h')%N ∧ metas h' = metas h ∧ msgs h' = msgs h)
    as (?&?&?&?&?) by (split_and!; auto).
  clear Hfr. revert h v Hok Hb Hv Ha Hs. induction ps as [|p [|q rest] IH]; intros h v Hok Hb Hv Ha Hs.
  - by simplify_eq/=.
  - simpl in Hs. destruct (isMap v); [|by simplify_eq]. destruct (mapPut h v p x) as [h2|] eqn:Hp; [|by simplify_eq].
    injection Hs as _ <-. pose proof (mapPut_spec _ _ _ _ _ Hp) as (?&?&?&_&_&E&_).
    split_and!; [eapply mapPut_ok; [done| |done]; intros ? ?; congruence| |by subst..].
    intros y Hy. eapply mapPut_above; [done|done|by constructor|done].
  - rewrite setPath_cons in Hs. destruct (isMap v); [|by simplify_eq].
    destruct (mapGet h v p) as [nx|] eqn:Hg.
    + destruct (isMap nx); [|by simplify_eq]. eapply IH; [done|done| | |done].
      * by eapply closed_mapGet; [apply Hok| |].
      * eapply (above_descend _ _ _ [p]); [done|]. simpl. by rewrite Hg.
    + destruct (alloc (OMapS ∅) h) as [h1 ln] eqn:Hal.
      pose proof (alloc_ok h (OMapS ∅) Hok) as Hok1. pose proof (ext_alloc h (OMapS ∅) Hok) as He1.
      rewrite Hal in Hok1, He1. simpl in Hok1, He1. unfold alloc in Hal. injection Hal as Hal <-.
      assert (Hok1' : ok_heap h1) by (apply Hok1; intros c [k Hk]; by rewrite lookup_empty in Hk). clear Hok1.
      assert (Hn1 : nxt h1 = (nxt h + 1)%N) by (by rewrite <-Hal).
      assert (Hnew : objs h1 !! nxt h = Some (OMapS ∅)) by (rewrite <-Hal; apply lookup_insert_eq).
      destruct (mapPut h1 v p (VMapS (Some (nxt h)))) as [h2|] eqn:Hp.
      2:{ simplify_eq. split_and!; try done; [intros; by eapply above_ext; [apply He1|]|apply He1..]. }
      assert (Hok2 : ok_heap h2) by (eapply mapPut_ok; [done| |done]; eapply vlt_ref; [done|lia]).
      pose proof (mapPut_spec _ _ _ _ _ Hp) as (lv&o&o'&Hlv&_&Hh2&_). pose proof (Hv lv Hlv) as Hlv'.
      assert (Ha2 : above h2 b (VMapS (Some (nxt h)))).
      { eapply above_ref; [done|done| |].
        - rewrite Hh2. simpl. rewrite lookup_insert_ne by lia. exact Hnew.
        - intros c [k Hk]. by rewrite lookup_empty in Hk. }
      assert (Hup : ∀ y, above h b y → above h2 b y).
      { intros y Hy. eapply mapPut_above; [exact Hp|by eapply above_ext; [apply He1|]|done|].
        by eapply above_ext; [apply He1|]. }
      assert (nxt h2 = nxt h1 ∧ metas h2 = metas h1 ∧ msgs h2 = msgs h1) as (Hn2&Hm2&Hg2) by (by rewrite Hh2).
      destruct (IH h2 (VMapS (Some (nxt h)))) as (?&Hup2&?&Hm3&Hg3); [done|lia|eapply vlt_ref; [done|lia]|done|done|].
      destruct He1 as [_ _ _ Hm1 Hg1]. split_and!; [done|auto|lia|congruence|congruence].
Qed.

(** ** Data without nil maps *)

Inductive solid h : val → Prop :=
  | solid_flat v : vloc v = None → isMap v = false → solid h v
  | solid_ref v l o : vloc v = Some l → objs h !! l = Some o → kind_ok v o →
      (∀ c, child o c → solid h c) → solid h v.

Lemma solid_mapGet h v p x : solid h v → mapGet h v p = Some x → solid h x.
Proof. intros Hs (l&o&Hl&Ho&_&Hc)%mapGet_child. inversion Hs; simplify_eq. eauto. Qed.

Lemma solid_map h v : solid h v → isMap v = true → ∃ l o, vloc v = Some l ∧ objs h !! l = Some o ∧ kind_ok v o.
Proof. inversion 1; intros; simplify_eq; eauto. congruence. Qed.

Lemma mapPut_total h v p x : solid h v → isMap v = true → is_Some (mapPut h v p x).
Proof.
  intros Hs Hm. destruct (solid_map _ _ Hs Hm) as (l&o&Hl&Ho&Hk).
  destruct v as [| | | | |[l0|]|[l0|]| |], o; simpl in *; simplify_eq; try done; rewrite Ho; eauto.
Qed.

Lemma solid_ext h h' v : objs h ⊆ objs h' → solid h v → solid h' v.
Proof. intros He. induction 1; [by constructor|]. eapply solid_ref; eauto. by eapply lookup_weaken. Qed.

Lemma mapPut_solid h v p x h' y :
  mapPut h v p x = Some h' → solid h' x → solid h y → solid h' y.
Proof.
  intros (l&o&o'&Hl&Ho&->&Hk&Hk'&Hch)%mapPut_spec Hx.
  induction 1 as [y Hy|y ly oy Hy Hoy Hky _ IH]; [by constructor|].
  destruct (decide (l = ly)) as [->|Hne].
  - eapply solid_ref; [done|simpl; apply lookup_insert_eq| |].
    + assert (oy = o) as -> by congruence. destruct v, o, y, o'; simpl in *; done.
    + intros c [->|Hc]%Hch; [done|]. apply IH. congruence.
  - eapply solid_ref; [done|simpl; by rewrite lookup_insert_ne|done|done].
Qed.

(** On data without nil maps a [setPath] does not panic. *)
Lemma setPath_solid h v ps x r h' :
  ok_heap h → vlt (nxt h) v → solid h v → (vloc x = None ∧ isMap x = false) →
  setPath h v ps x = (r, h') → r ≠ SetPanic ∧ ∀ y, solid h y → solid h' y.
Proof.
  revert h v. induction ps as [|p [|q rest] IH]; intros h v Hok Hv Hsv [Hx1 Hx2] Hs.
  - by simplify_eq/=.
  - simpl in Hs. destruct (isMap v) eqn:Hm; [|by simplify_eq].
    destruct (mapPut_total h v p x Hsv Hm) as [h2 Hp]. rewrite Hp in Hs. simplify_eq. split; [done|].
    intros y Hy. eapply mapPut_solid; [done|by constructor|done].
  - rewrite setPath_cons in Hs. destruct (isMap v) eqn:Hm; [|by simplify_eq].
    destruct (mapGet h v p) as [nx|] eqn:Hg.
    + destruct (isMap nx); [|by simplify_eq]. eapply IH; [done| | |done|done].
      * by eapply closed_mapGet; [apply Hok| |].
      * by eapply solid_mapGet.
    + destruct (alloc (OMapS ∅) h) as [h1 ln] eqn:Hal.
      pose proof (alloc_ok h (OMapS ∅) Hok) as Hok1. pose proof (ext_alloc h (OMapS ∅) Hok) as He1.
      rewrite Hal in Hok1, He1. simpl in Hok1, He1. unfold alloc in Hal. injection Hal as Hal <-.
      assert (Hok1' : ok_heap h1) by (apply Hok1; intros c [k Hk]; by rewrite lookup_empty in Hk). clear Hok1.
      assert (Hn1 : nxt h1 = (nxt h + 1)%N) by (by rewrite <-Hal).
      assert (Hnew : objs h1 !! nxt h = Some (OMapS ∅)) by (rewrite <-Hal; apply lookup_insert_eq).
      assert (solid h1 v) as Hsv1 by (by eapply solid_ext; [apply He1|]).
      destruct (mapPut_total h1 v p (VMapS (Some (nxt h))) Hsv1 Hm) as [h2 Hp]. rewrite Hp in Hs.
      assert (Hok2 : ok_heap h2) by (eapply mapPut_ok; [done| |done]; eapply vlt_ref; [done|lia]).
      pose proof (mapPut_spec _ _ _ _ _ Hp) as (lv&o&o'&Hlv&_&Hh2&_). pose proof (Hv lv Hlv) as Hlv'.
      assert (Hs2 : solid h2 (VMapS (Some (nxt h)))).
      { eapply (solid_ref _ _ (nxt h) (OMapS ∅)); [done| |done|].
        - rewrite Hh2. simpl. rewrite lookup_insert_ne by lia. exact Hnew.
        - intros c [k Hk]. by rewrite lookup_empty in Hk. }
      assert (nxt h2 = nxt h1) as Hn2 by (by rewrite Hh2).
      destruct (IH h2 (VMapS (Some (nxt h)))) as [? Hup]; [done|eapply vlt_ref; [done|lia]|done|done|done|].
      split; [done|]. intros y Hy. apply Hup. eapply mapPut_solid; [done|done|by eapply solid_ext; [apply He1|]].
Qed.

Lemma same_solid h h' v v' : same h h' v v' → solid h v → solid h' v'.
Proof.
  induction 1 as [v Hl|l' Hl'|l' Hl'|l l' m m' Hl Hl' Hd _ IH|l l' m m' Hl Hl' Hd _ IH|l l' m m' Hl Hl' Hd _ IH];
    intros Hs.
  - inversion Hs; simplify_eq. by constructor.
  - by inversion Hs.
  - eapply solid_ref; [done|done|done|]. intros c Hc. simpl in Hc. by apply elem_of_nil in Hc.
  - inversion Hs as [|? ? ? ? ? ? Hc]; simplify_eq/=. eapply solid_ref; [done|done|done|].
    intros c [k Hk]. assert (is_Some (m !! k)) as [x Hx] by (apply elem_of_dom; rewrite Hd; by apply elem_of_dom).
    eapply IH; [done|done|]. apply Hc. by exists k.
  - inversion Hs as [|? ? ? ? ? ? Hc]; simplify_eq/=. eapply solid_ref; [done|done|done|].
    intros c [k Hk]. assert (is_Some (m !! k)) as [x Hx] by (apply elem_of_dom; rewrite Hd; by apply elem_of_dom).
    eapply IH; [done|done|]. apply Hc. by exists k.
  - inversion Hs as [|? ? ? ? ? ? Hc]; simplify_eq/=. eapply solid_ref; [done|done|done|].
    intros c Hc'. simpl in Hc'. apply list_elem_of_lookup in Hc' as [i Hi].
    destruct (lookup_lt_is_Some_2 m i) as [x Hx]; [rewrite Hd; by eapply lookup_lt_Some|].
    eapply IH; [done|done|]. apply Hc. by eapply list_elem_of_lookup_2.
Qed.

Lemma same_fin h h' n v v' : fin h n v → same h h' v v' → fin h' (S n) v'.
Proof.
  intros Hf Hs. revert n Hf.
  induction Hs as [v Hl|l' Hl'|l' Hl'|l l' m m' Hl Hl' Hd _ IH|l l' m m' Hl Hl' Hd _ IH|l l' m m' Hl Hl' Hd _ IH];
    intros n Hf.
  - by constructor.
  - eapply fin_ref; [done|done|done|]. intros c [k Hk]. by rewrite lookup_empty in Hk.
  - eapply fin_ref; [done|done|done|]. intros c Hc. simpl in Hc. by apply elem_of_nil in Hc.
  - inversion Hf as [|k ? ? ? ? ? ? Hc]; simplify_eq/=. eapply fin_ref; [done|done|done|].
    intros c [q Hk]. assert (is_Some (m !! q)) as [x Hx] by (apply elem_of_dom; rewrite Hd; by apply elem_of_dom).
    eapply IH; [done|done|]. apply Hc. by exists q.
  - inversion Hf as [|k ? ? ? ? ? ? Hc]; simplify_eq/=. eapply fin_ref; [done|done|done|].
    intros c [q Hk]. assert (is_Some (m !! q)) as [x Hx] by (apply elem_of_dom; rewrite Hd; by apply elem_of_dom).
    eapply IH; [done|done|]. apply Hc. by exists q.
  - inversion Hf as [|k ? ? ? ? ? ? Hc]; simplify_eq/=. eapply fin_ref; [done|done|done|].
    intros c Hc'. simpl in Hc'. apply list_elem_of_lookup in Hc' as [i Hi].
    destruct (lookup_lt_is_Some_2 m i) as [x Hx]; [rewrite Hd; by eapply lookup_lt_Some|].
    eapply IH; [done|done|]. apply Hc. by eapply list_elem_of_lookup_2.
Qed.

(** No value on the way of the path is something other than a map. *)
Fixpoint noConflict h v (ps : list string) : Prop :=
  match ps with
  | p :: (_ :: _) as rest =>
      match mapGet h v p with
      | None => True
      | Some nx => isMap nx = true ∧ noConflict h nx rest
      end
  | _ => True
  end.

Lemma noConflict_cons h v p q rest :
  noConflict h v (p :: q :: rest) =
  match mapGet h v p with None => True | Some nx => isMap nx = true ∧ noConflict h nx (q :: rest) end.
Proof. done. Qed.

Lemma same_noConflict h h' v v' ps : same h h' v v' → noConflict h v ps → noConflict h' v' ps.
Proof.
  revert v v'. induction ps as [|p [|q rest] IH]; intros v v' Hs; [done..|]. rewrite !noConflict_cons.
  pose proof (same_mapGet _ _ _ _ p Hs) as Hp. destruct (mapGet h v p), (mapGet h' v' p); simpl in Hp; try done.
  rewrite (same_isMap _ _ _ _ Hp). intros [? ?]. eauto.
Qed.

Lemma setPath_no_conflict h v ps x r h' :
  vlt (nxt h) v → ok_heap h → isMap v = true → noConflict h v ps → setPath h v ps x = (r, h') →
  ∀ part, r ≠ SetConflict part.
Proof.
  revert h v. induction ps as [|p [|q rest] IH]; intros h v Hv Hok Hm Hn Hs part; [by simplify_eq/=|..].
  - simpl in Hs. rewrite Hm in Hs. by destruct (mapPut h v p x); simplify_eq.
  - rewrite setPath_cons, Hm in Hs. rewrite noConflict_cons in Hn. destruct (mapGet h v p) as [nx|] eqn:Hg.
    + destruct Hn as [Hnx Hn]. rewrite Hnx in Hs. eapply (IH h nx); [|done|done|done|done].
      by eapply closed_mapGet; [apply Hok| |].
    + destruct (alloc (OMapS ∅) h) as [h1 ln] eqn:Hal.
      pose proof (alloc_ok h (OMapS ∅) Hok) as Hok1. rewrite Hal in Hok1. simpl in Hok1.
      unfold alloc in Hal. injection Hal as Hal <-.
      assert (Hok1' : ok_heap h1) by (apply Hok1; intros c [k Hk]; by rewrite lookup_empty in Hk). clear Hok1.
      assert (Hn1 : nxt h1 = (nxt h + 1)%N) by (by rewrite <-Hal).
      destruct (mapPut h1 v p (VMapS (Some (nxt h)))) as [h2|] eqn:Hp; [|by simplify_eq].
      assert (Hok2 : ok_heap h2) by (eapply mapPut_ok; [done| |done]; eapply vlt_ref; [done|lia]).
      pose proof (mapPut_spec _ _ _ _ _ Hp) as (lv&o&o'&Hlv&_&Hh2&_). pose proof (Hv lv Hlv) as Hlv'.
      assert (Hnew : objs h2 !! nxt h = Some (OMapS ∅)).
      { rewrite Hh2. simpl. rewrite lookup_insert_ne by lia. rewrite <-Hal. apply lookup_insert_eq. }
      eapply (IH h2 (VMapS (Some (nxt h)))); [eapply vlt_ref; [done|rewrite Hh2; simpl; lia]|done|done| |done].
      destruct rest as [|q' rest]; [done|]. rewrite noConflict_cons. simpl. by rewrite Hnew.
Qed.

Lemma splitDot_nonempty s : splitDot s ≠ [].
Proof. destruct s as [|c s]; simpl; [done|]. case_match; [done|]. by destruct (splitDot s). Qed.

(** ** Restoring *)

Definition scalar v : Prop := vloc v = None ∧ isMap v = false.

Lemma restoreFields_frame b h req r fields h' ok :
  ok_heap h → closed b h → (b ≤ nxt h)%N → vlt (nxt h) (VMapS (Data r)) → above h b (VMapS (Data r)) →
  vlt b (VMapS (Data req)) → (∀ f v, f ∈ fields → Get h req f = Some v → scalar v) →
  restoreFields h req r fields = (h', ok) → (solid h (VMapS (Data r)) → ok = true) ∧
  ok_heap h' ∧ above h' b (VMapS (Data r)) ∧ (nxt h ≤ nxt h')%N ∧ metas h' = metas h ∧ msgs h' = msgs h ∧
  (∀ l, (l < b)%N → objs h' !! l = objs h !! l).
Proof.
  revert h. induction fields as [|f fields IH]; intros h Hok Hc Hb Hv Ha Hreq Hflat Hr; simpl in Hr.
  { by simplify_eq. }
  assert (∀ f v, f ∈ fields → Get h req f = Some v → scalar v) as Hflat'
    by (intros g v Hg; apply Hflat; by right).
  destruct (Get h req f) as [v|] eqn:Hg; [|by apply (IH h)].
  destruct (Set_ h r f v) as [sr h1] eqn:Hs. unfold Set_ in Hs.
  assert (scalar v) as Hsc by (eapply (Hflat f); [by left|done]).
  destruct (setPath_above h b (VMapS (Data r)) _ v _ _ Hok Hb Hv Ha ltac:(apply Hsc) Hs)
    as (Hok1&Ha1&Hn1&Hm1&Hg1&Hf1).
  assert (solid h (VMapS (Data r)) → sr ≠ SetPanic ∧ solid h1 (VMapS (Data r))) as Hsol.
  { intros Hsr. destruct (setPath_solid _ _ _ _ _ _ Hok Hv Hsr Hsc Hs) as [? Hup]. auto. }
  assert (closed b h1) as Hc1 by (intros l o c Hl Ho Hch; rewrite Hf1 in Ho by done; by eapply Hc).
  assert (sr = SetPanic ∧ h' = h1 ∨ restoreFields h1 req r fields = (h', ok)) as [[-> ->]|Hr1]
    by (destruct sr; simplify_eq; auto).
  { split; [by intros [? _]%Hsol|done]. }
  destruct (IH h1) as (Hpan&?&?&?&?&?&Hf2); try done; [lia|by eapply vlt_mono| |].
  { intros g w Hg' Hgw. eapply Hflat'; [done|]. rewrite <-Hgw. unfold Get. symmetry. by eapply getPath_below. }
  split_and!; try done; [by intros [_ ?]%Hsol; apply Hpan|lia|congruence|congruence|].
  intros l Hl. rewrite (Hf2 l Hl). by apply Hf1.
Qed.
End writes.

Section responses.
Context {S : Type} `{StoreLaws S}.
Context (sprint : heap → val → string) (emits : list (@emission S) → string → N → bool) (base : string → bool).
Implicit Types (st : @gstate S) (g : Gear) (em : @emission S) (t : Ticket N).

Lemma mergeCtx_spec h b p m ctx :
  (∀ l, Metadata m = Some l → (b ≤ l)%N ∧ is_Some (metas h !! l)) → (b ≤ nxt h)%N →
  msgs h !! p = Some m →
  let h' := mergeCtx h p ctx in
  objs h' = objs h ∧ (∀ l, (l < b)%N → metas h' !! l = metas h !! l) ∧
  (∀ q, q ≠ p → msgs h' !! q = msgs h !! q) ∧
  ∃ m', msgs h' !! p = Some m' ∧ m' = setMetadata (Metadata m') m ∧
    readMeta h' (Metadata m') = ctx ∪ readMeta h (Metadata m).
Proof.
  intros Hmd Hb Hm h'. subst h'. unfold mergeCtx. rewrite Hm.
  case_bool_decide as He.
  { split_and!; try done. exists m. split_and!; [done|by destruct m|]. by rewrite He, (left_id_L ∅ (∪)). }
  destruct (Metadata m) as [l|] eqn:El.
  - destruct (Hmd l eq_refl) as [Hl [mm Hmm]]. split_and!; simpl; try done.
    + intros l' Hl'. rewrite lookup_alter_ne; [done|lia].
    + exists m. split_and!; [done|by destruct m|]. rewrite El. unfold readMeta. simpl.
      by rewrite lookup_alter_eq, Hmm.
  - split_and!; simpl; try done.
    + intros l' Hl'. rewrite lookup_insert_ne; [done|lia].
    + intros q Hq. by rewrite lookup_insert_ne.
    + eexists. rewrite lookup_insert_eq. split_and!; [done..|]. simpl. unfold readMeta; simpl.
      rewrite lookup_insert_eq. simpl. by rewrite (right_id_L ∅ (∪)).
Qed.

(** Fields of the request that are parked hold scalars, and its message exists. *)
Definition request_flat st t : Prop :=
  ∀ q, Request t = Some q → ∃ mq, msgs (hp st) !! q = Some mq ∧
    ∀ f v, f ∈ parkFields (gear st) → Get (hp st) mq f = Some v → scalar v.

(** [st'] holds everything [st] held, unchanged. *)
Definition keeps (h h' : heap) : Prop :=
  ∀ l, (l < nxt h)%N → objs h' !! l = objs h !! l ∧ metas h' !! l = metas h !! l ∧ msgs h' !! l = msgs h !! l.

Lemma restoreParked_spec st t h1 resp mr st1 ok :
  ok_heap (hp st) → ok_heap h1 → request_flat st t →
  (∀ l, (l < nxt (hp st))%N → objs h1 !! l = objs (hp st) !! l) → (nxt (hp st) ≤ nxt h1)%N →
  (∀ l, l ≠ resp → msgs h1 !! l = msgs (hp st) !! l) → (nxt (hp st) ≤ resp)%N →
  msgs h1 !! resp = Some mr → Data mr ≠ None → above h1 (nxt (hp st)) (VMapS (Data mr)) →
  restoreParked (setHp h1 st) t resp = (st1, ok) →
  ∃ h', st1 = setHp h' st ∧ (solid h1 (VMapS (Data mr)) → ok = true) ∧ ok_heap h' ∧ metas h' = metas h1 ∧ msgs h' = msgs h1 ∧ (nxt h1 ≤ nxt h')%N ∧
    (∀ l, (l < nxt (hp st))%N → objs h' !! l = objs (hp st) !! l) ∧
    (parkFields (gear st) = [] → h' = h1 ∧ ok = true) ∧
    (∀ f q mq v, parkFields (gear st) = [f] → Request t = Some q → msgs (hp st) !! q = Some mq →
       Get (hp st) mq f = Some v →
       (Set_ h1 mr f v).2 = h' ∧ (ok = true ↔ (Set_ h1 mr f v).1 ≠ SetPanic)).
Proof.
  intros Hok Hok1 Hreq Hob Hnx Hoth Hr Hm Hd Ha. unfold restoreParked, msgOf. cbn [hp setHp gear].
  assert (Hgetq : ∀ q mq f, msgs (hp st) !! q = Some mq → Get h1 mq f = Get (hp st) mq f).
  { intros q mq f Hq. unfold Get. eapply getPath_below; [apply Hok| |done].
    intros l Hl. eapply (ok_msg _ Hok); done. }
  destruct (parkFields (gear st)) as [|f0 fs] eqn:Hpf.
  { intros [= <- <-]. exists h1. split_and!; try done. }
  destruct (Request t) as [q|] eqn:Hq; cbn [mbind option_bind].
  2:{ intros [= <- <-]. exists h1. split_and!; try done. }
  destruct (Hreq q Hq) as (mq&Hmq&Hflat). rewrite Hpf in Hflat.
  assert (q ≠ resp) by (apply (ok_msgs _ Hok) in Hmq; lia).
  rewrite Hoth, Hmq, Hm by done. destruct (Data mr) as [d|] eqn:Hdm; [|done].
  destruct (restoreFields h1 mq mr (f0 :: fs)) as [h' ok'] eqn:Hrf. intros [= <- <-].
  destruct (restoreFields_frame (nxt (hp st)) h1 mq mr (f0 :: fs) h' ok') as (Hpan&?&_&?&?&?&Hfr); try done.
  - intros l o c Hl Ho Hc. rewrite Hob in Ho by done. by eapply (ok_closed _ Hok).
  - intros l Hl. rewrite Hdm in Hl. simplify_eq/=. eapply (ok_msg _ Hok1); done.
  - by rewrite Hdm.
  - intros l Hl. eapply (ok_msg _ Hok); done.
  - intros f v Hf Hg. rewrite (Hgetq _ _ _ Hmq) in Hg. by eapply Hflat.
  - exists h'. rewrite Hdm in Hpan. split_and!; try done; [intros l Hl; rewrite Hfr, Hob; done|].
    intros f q' mq' v Hf1 Hq' Hmq' Hg. simplify_eq. simpl in Hrf. rewrite (Hgetq _ _ _ Hmq), Hg in Hrf.
    destruct (Set_ h1 mr f v) as [[]]; simplify_eq; done.
Qed.

Lemma finishResponse_spec n st t bp mb st' resp :
  ok_heap (hp st) → msgs (hp st) !! bp = Some mb → Data mb ≠ None → fin (hp st) n (VMapS (Data mb)) →
  request_flat st t → finishResponse (1 + n) st t (Some bp) = (st', inr resp) →
  gear st' = gear st ∧ engine st' = engine st ∧ world st' = world st ∧ log st' = log st ∧
  keeps (hp st) (hp st') ∧ (nxt (hp st) ≤ resp)%N ∧
  ∃ mr, msgs (hp st') !! resp = Some mr ∧ mr = setMetadata (Metadata mr) (setData (Data mr) mb) ∧
    readMeta (hp st') (Metadata mr) = ReturnCtx t ∪ readMeta (hp st) (Metadata mb) ∧
    ∃ h1 mc, same (hp st) h1 (VMapS (Data mb)) (VMapS (Data mc)) ∧ ok_heap h1 ∧ Data mc = Data mr ∧
      msgs h1 !! resp = Some mc ∧
      (parkFields (gear st) = [] → objs (hp st') = objs h1) ∧
      (∀ f q mq v, parkFields (gear st) = [f] → Request t = Some q → msgs (hp st) !! q = Some mq →
         Get (hp st) mq f = Some v → objs (hp st') = objs (Set_ h1 mc f v).2).
Proof.
  intros Hok Hm Hd Hf Hreq. unfold finishResponse. change (1 + n)%nat with (Datatypes.S n).
  destruct (cloneMsg_ok (hp st) n bp mb Hok Hm Hf) as (h1&q&->&Hok1&[(mc&Hmc&Heq&Hs&Ha&Hrm&Hml) Hb]&Hob&_&Hnx&Hoth&Hmet).
  destruct (restoreParked (setHp h1 st) t q) as [st1 ok] eqn:Hrp. destruct ok; [|done]. intros [= <- <-].
  assert (Data mc ≠ None) as Hdc by (inversion Hs; congruence).
  destruct (restoreParked_spec st t h1 q mc st1 true Hok Hok1 Hreq Hob Hnx Hoth Hb Hmc Hdc Ha Hrp)
    as (h2&->&_&Hok2&Hm2&Hg2&Hn2&Hob2&Hnone&Hone).
  cbn [hp setHp gear engine world log].
  assert (msgs h2 !! q = Some mc) as Hmc2 by by rewrite Hg2.
  destruct (mergeCtx_spec h2 (nxt (hp st)) q mc (ReturnCtx t)) as (Hob3&Hmt3&Hms3&m'&Hm'&Heq'&Hread); [|lia|done|].
  { intros l Hl. split; [by apply Hml|]. by eapply (ok_msg _ Hok2). }
  assert (∀ mm, readMeta h2 mm = readMeta h1 mm) as Hrm2 by (intros; unfold readMeta; by rewrite Hm2).
  split_and!; try done.
  - intros l Hl. rewrite Hob3, Hob2, Hmt3, Hm2, Hms3, Hg2, Hoth by (done || lia). split_and!; try done.
    by apply Hmet.
  - exists m'. split_and!; [done| | |].
    + rewrite Heq', Heq. by destruct mb.
    + by rewrite Hread, Hrm2, Hrm.
    + exists h1, mc. split_and!; try done.
      * by rewrite Heq'.
      * intros Hnil. destruct (Hnone Hnil) as [-> _]. done.
      * intros f q' mq v Hf1 Hq' Hmq Hg. destruct (Hone f q' mq v Hf1 Hq' Hmq Hg) as [<- _]. done.
Qed.

Lemma finishResponse_total n st t bp mb :
  ok_heap (hp st) → msgs (hp st) !! bp = Some mb → Data mb ≠ None → fin (hp st) n (VMapS (Data mb)) →
  solid (hp st) (VMapS (Data mb)) → request_flat st t →
  ∃ st' resp, finishResponse (1 + n) st t (Some bp) = (st', inr resp).
Proof.
  intros Hok Hm Hd Hf Hsol Hreq. unfold finishResponse. change (1 + n)%nat with (Datatypes.S n).
  destruct (cloneMsg_ok (hp st) n bp mb Hok Hm Hf) as (h1&q&->&Hok1&[(mc&Hmc&Heq&Hs&Ha&Hrm&Hml) Hb]&Hob&_&Hnx&Hoth&_).
  destruct (restoreParked (setHp h1 st) t q) as [st1 ok] eqn:Hrp.
  assert (Data mc ≠ None) as Hdc by (inversion Hs; congruence).
  destruct (restoreParked_spec st t h1 q mc st1 ok Hok Hok1 Hreq Hob Hnx Hoth Hb Hmc Hdc Ha Hrp) as (h2&->&Hpan&_).
  rewrite Hpan by by eapply same_solid. eauto.
Qed.

Lemma Redeem_open k out (e : Engine S) (w : World N) (i : nat) :
  Inv e w → k ≠ ""%string → contents (store e) !! k = Some i →
  ∃ e' w', Redeem k out e w = (e', w', inr i).
Proof.
  intros I Hne Hk. unfold Redeem. rewrite !bool_decide_false; [|by intros Hc; rewrite (proj1 (inv_closed _ _ I Hc)) in Hk|done].
  pose proof (Take_law (store e) k) as HT. rewrite Hk in HT. destruct HT as (s&->&_).
  cbv zeta. case_match; eauto.
Qed.

(** A reply the gear can answer: a well-formed gear and message without nil maps, the key
    of an open ticket, and a return path. *)
Record answerable (n : nat) st (p : N) (m : FluxMsg) (key : string) (i : nat) (port : string) : Prop := {
  an_heap : ok_heap (hp st);
  an_inv : Inv (engine st) (world st);
  an_msg : msgs (hp st) !! p = Some m;
  an_fin : fin (hp st) n (VMapS (Data m));
  an_solid : solid (hp st) (VMapS (Data m));
  an_corr : corrKey (gear st) ≠ [];
  an_key : buildKey sprint st (Some p) = Some key;
  an_open : contents (store (engine st)) !! key = Some i;
  an_port : responsePortFor (gear st) (deref (world st) i) = inr port;
  an_req : request_flat st (deref (world st) i);
}.

Lemma handleReply_answers n st p m key i port st' res :
  answerable n st p m key i port → handleReply sprint emits (1 + n) st (Some p) = (st', res) →
  ∃ resp st1, finishResponse (1 + n) (setEngine (engine st') (world st') st)
      (deref (world st') i) (Some p) = (st1, inr resp) ∧
    hp st' = hp st1 ∧ gear st' = gear st ∧
    log st' = log st ++ [mkEmission port resp (hp st') (engine st') (world st')] ∧
    (∃ res, Redeem key (Some p) (engine st) (world st) = (engine st', world st', inr i) ∧ res = i) ∧
    ReturnCtx (deref (world st') i) = ReturnCtx (deref (world st) i) ∧
    Request (deref (world st') i) = Request (deref (world st) i) ∧
    res = (if emits (log st) port resp then HOk else HErr "emit").
Proof.
  intros [Hok I Hm Hf Hsol Hc Hk Ho Hp Hreq] Hh. unfold handleReply in Hh. rewrite Hk in Hh.
  pose proof (buildKey_nonempty _ _ _ _ Hc Hk) as Hne.
  destruct (buildKey_inv _ _ _ _ Hk) as (m2&_&Hm2&Hd&_). assert (m2 = m) as -> by congruence.
  destruct (Redeem_open key (Some p) _ _ i I Hne Ho) as (e'&w'&Hr). rewrite Hr in Hh.
  destruct (Redeem_ok _ _ _ _ _ _ _ I Hr) as (_&Hco&_&_&_&id&Htk).
  assert (ReturnCtx (deref w' i) = ReturnCtx (deref (world st) i)) as Hctx by (by rewrite Htk).
  assert (Request (deref w' i) = Request (deref (world st) i)) as Hrq by (by rewrite Htk).
  set (st0 := setEngine e' w' st) in Hh. cbn [gear world setEngine] in Hh.
  assert (responsePortFor (gear st) (deref w' i) = inr port) as Hp'.
  { rewrite <-Hp. unfold responsePortFor. by rewrite Hctx. }
  change (gear st0) with (gear st) in Hh. change (world st0) with w' in Hh. rewrite Hp' in Hh.
  destruct (finishResponse_total n st0 (deref w' i) p m) as (st1&resp&Hfin); try done.
  { intros q Hq. rewrite Hrq in Hq. by apply Hreq. }
  rewrite Hfin in Hh.
  destruct (finishResponse_spec n st0 (deref w' i) p m st1 resp Hok Hm Hd Hf) as (Hg1&He1&Hw1&Hl1&_);
    [intros q Hq; rewrite Hrq in Hq; by apply Hreq|done|].
  unfold emit in Hh. simplify_eq. simpl in *. rewrite Hl1, He1, Hw1. exists resp, st1. unfold st0 in *. simpl in *.
  split_and!; try done. eexists. eauto.
Qed.

(** C8: a reply is answered once, on the return path. For a reply whose key has an open
    ticket, the handler makes exactly one emission: a new message, on the ticket's
    response port, its metadata the reply's with the request's return context merged
    over it; the ticket is no longer open. Everything that existed before -- the reply,
    which the engine retains as the outcome, and the parked request -- is unchanged. *)
Theorem reply_answered n st p m key i port st' res :
  answerable n st p m key i port → handleReply sprint emits (1 + n) st (Some p) = (st', res) →
  ∃ resp mr, log st' = log st ++ [mkEmission port resp (hp st') (engine st') (world st')] ∧
    contents (store (engine st')) = delete key (contents (store (engine st))) ∧
    t_state (deref (world st') i) = TicketClosed ∧ Outcome (deref (world st') i) = Some p ∧
    (nxt (hp st) ≤ resp)%N ∧ keeps (hp st) (hp st') ∧
    msgs (hp st') !! resp = Some mr ∧ mr = setMetadata (Metadata mr) (setData (Data mr) m) ∧
    readMeta (hp st') (Metadata mr) = ReturnCtx (deref (world st) i) ∪ readMeta (hp st) (Metadata m) ∧
    res = (if emits (log st) port resp then HOk else HErr "emit").
Proof.
  intros Han Hh.
  destruct (handleReply_answers _ _ _ _ _ _ _ _ _ Han Hh) as (resp&st1&Hfin&Hhp&Hg&Hlog&(?&Hr&_)&Hctx&Hrq&->).
  destruct Han as [Hok I Hm Hf Hsol Hc Hk Ho Hp Hreq].
  destruct (buildKey_inv _ _ _ _ Hk) as (m2&_&Hm2&Hd&_). assert (m2 = m) as -> by congruence.
  destruct (Redeem_ok _ _ _ _ _ _ _ I Hr) as (_&Hco&_&_&_&id&Htk).
  destruct (finishResponse_spec n (setEngine (engine st') (world st') st) (deref (world st') i) p m st1 resp Hok Hm Hd Hf)
    as (_&_&_&_&Hkeep&Hnx&mr&Hmr&Heq&Hread&_);
    [intros q Hq; rewrite Hrq in Hq; by apply Hreq|exact Hfin|].
  exists resp, mr. rewrite Hhp, Htk in *. cbn [hp setEngine] in *. rewrite <-Hctx. done.
Qed.

(** merging the return context never clobbers the reply's own protocol fields. When
    the ticket's return context was captured from a request by [returnContext], every
    [iso8583.*] and [codec.*] entry of the response's metadata is the reply's. *)
Theorem response_keeps_codec_fields n st p m key i port st' res ctx k :
  answerable n st p m key i port → ReturnCtx (deref (world st) i) = returnContext ctx →
  isCodecKey k = true → handleReply sprint emits (1 + n) st (Some p) = (st', res) →
  ∃ resp mr, log st' = log st ++ [mkEmission port resp (hp st') (engine st') (world st')] ∧
    msgs (hp st') !! resp = Some mr ∧
    readMeta (hp st') (Metadata mr) !! k = readMeta (hp st) (Metadata m) !! k.
Proof.
  intros Han Hctx Hcodec Hh.
  destruct (handleReply_answers _ _ _ _ _ _ _ _ _ Han Hh) as (resp&st1&Hfin&Hhp&Hg&Hlog&_&Hctx'&Hrq&_).
  destruct Han as [Hok I Hm Hf Hsol Hc Hk Ho Hp Hreq].
  destruct (buildKey_inv _ _ _ _ Hk) as (m2&_&Hm2&Hd&_). assert (m2 = m) as -> by congruence.
  destruct (finishResponse_spec n (setEngine (engine st') (world st') st) (deref (world st') i) p m st1 resp Hok Hm Hd Hf)
    as (_&_&_&_&_&_&mr&Hmr&_&Hread&_);
    [intros q Hq; rewrite Hrq in Hq; by apply Hreq|exact Hfin|].
  exists resp, mr. rewrite Hhp in *. split_and!; try done. rewrite Hread, Hctx', Hctx.
  apply lookup_union_r. unfold returnContext. apply map_lookup_filter_None. right. intros x _. simpl. congruence.
Qed.

(** the parked field comes back. With one field parked, holding a scalar in the
    retained request, a reply with no conflicting value on the field's path yields a
    response that reads that scalar at the field. *)
Theorem parked_field_restored n st p m key i port st' res f q mq v :
  answerable n st p m key i port → handleReply sprint emits (1 + n) st (Some p) = (st', res) →
  parkFields (gear st) = [f] → Request (deref (world st) i) = Some q → msgs (hp st) !! q = Some mq →
  Get (hp st) mq f = Some v → noConflict (hp st) (VMapS (Data m)) (splitDot f) →
  ∃ resp mr, log st' = log st ++ [mkEmission port resp (hp st') (engine st') (world st')] ∧
    msgs (hp st') !! resp = Some mr ∧ Get (hp st') mr f = Some v.
Proof.
  intros Han Hh Hpf Hq Hmq Hg Hnc.
  destruct (handleReply_answers _ _ _ _ _ _ _ _ _ Han Hh) as (resp&st1&Hfin&Hhp&Hgear&Hlog&_&Hctx'&Hrq&_).
  destruct Han as [Hok I Hm Hf Hsol Hc Hk Ho Hp Hreq].
  destruct (buildKey_inv _ _ _ _ Hk) as (m2&_&Hm2&Hd&_). assert (m2 = m) as -> by congruence.
  destruct (finishResponse_spec n (setEngine (engine st') (world st') st) (deref (world st') i) p m st1 resp Hok Hm Hd Hf)
    as (_&_&_&_&_&_&mr&Hmr&_&_&h1&mc&Hs&Hok1&Hdc&Hmc&_&Hone);
    [intros q' Hq'; rewrite Hrq in Hq'; by apply Hreq|exact Hfin|].
  exists resp, mr. rewrite Hhp. split_and!; [by rewrite <-Hhp|done|].
  destruct (Hreq q Hq) as (mq'&Hmq'&Hflat). assert (mq' = mq) as -> by congruence.
  assert (scalar v) as Hsc by (eapply (Hflat f); [rewrite Hpf; by left|done]).
  unfold Get. rewrite (getPath_objs (Set_ h1 mc f v).2); [|eapply (Hone f q mq v); [done|by rewrite Hrq|done|done]].
  rewrite <-Hdc. destruct (Set_ h1 mc f v) as [sr h2] eqn:Hset. unfold Set_ in Hset.
  assert (vlt (nxt h1) (VMapS (Data mc))) as Hv1 by (intros l Hl; eapply (ok_msg _ Hok1); [exact Hmc|done]).
  destruct (setPath_solid _ _ _ _ _ _ Hok1 Hv1 (same_solid _ _ _ _ Hs Hsol) Hsc Hset) as [Hnp _].
  pose proof (setPath_no_conflict _ _ _ _ _ _ Hv1 Hok1 eq_refl (same_noConflict _ _ _ _ _ Hs Hnc) Hset) as Hncf.
  eapply set_get; [exact Hok1|exact Hv1|by eapply same_fin|apply splitDot_nonempty|].
  destruct sr; [exact Hset|by destruct (Hncf part)|done].
Qed.

(** ** Replies that match no ticket *)

(** a reply that matches no open ticket -- no key, no ticket, or one already
    answered or timed out -- is surfaced on the error port as [unmatched_reply] and
    changes nothing in the engine: it can never answer a request a second time. *)
Theorem unmatched_reply_surfaces fuel st p m st' res :
  ok_heap (hp st) → Inv (engine st) (world st) → state (engine st) ≠ engineClosed →
  msgs (hp st) !! p = Some m → corrKey (gear st) ≠ [] →
  (∀ key, buildKey sprint st (Some p) = Some key → contents (store (engine st)) !! key = None) →
  handleReply sprint emits fuel st (Some p) = (st', res) →
  res = HOk ∧ contents (store (engine st')) = contents (store (engine st)) ∧
  retained (engine st') = retained (engine st) ∧ openCount (engine st') = openCount (engine st) ∧
  world st' = world st ∧
  log st' = log st ++ [mkEmission portError p (hp st') (engine st') (world st')] ∧
  ∃ m', msgs (hp st') !! p = Some m' ∧
    readMeta (hp st') (Metadata m') !! metaReason = Some reasonUnmatchedReply.
Proof.
  intros Hok I Hst Hm Hc Hfree Hh. unfold handleReply in Hh.
  destruct (buildKey sprint st (Some p)) as [key|] eqn:Hk.
  2:{ simplify_eq. destruct (emitError_spec emits st p m reasonUnmatchedReply Hok Hm) as (He&Hw&_&Hl&_&m'&Hm'&_&Hr).
      rewrite He, Hw. split_and!; try done. exists m'. by rewrite Hr, lookup_insert_eq. }
  pose proof (buildKey_nonempty _ _ _ _ Hc Hk) as Hne. specialize (Hfree key eq_refl).
  assert (∃ e', Redeem key (Some p) (engine st) (world st) = (e', world st,
      match retained (engine st) !! key with Some _ => inl ErrAlreadyRedeemed | None => inl ErrUnmatched end) ∧
      contents (store e') = contents (store (engine st)) ∧ retained e' = retained (engine st) ∧
      openCount e' = openCount (engine st)) as (e'&Hr&Hco&Hre&Hoc).
  { unfold Redeem. rewrite !bool_decide_false by done.
    pose proof (Take_law (store (engine st)) key) as HT. rewrite Hfree in HT.
    rewrite HT. eexists. split_and!; try done. }
  rewrite Hr in Hh.
  assert (Hh' : (emitError emits (setEngine e' (world st) st) (Some p) reasonUnmatchedReply, HOk) = (st', res)).
  { rewrite <-Hh. by destruct (retained (engine st) !! key). }
  simplify_eq. destruct (emitError_spec emits (setEngine e' (world st) st) p m reasonUnmatchedReply Hok Hm)
    as (He&Hw&_&Hl&_&m'&Hm'&_&Hrd).
  rewrite He, Hw. split_and!; try done. exists m'. by rewrite Hrd, lookup_insert_eq.
Qed.

(** ** Timeouts *)

Lemma expire_open (e : Engine S) (w : World N) l (i : nat) :
  Inv e w → onExpire e = true → contents (store e) !! Key (deref w i) = Some i →
  ∃ e' w', expire i e (setFired l w) = (e', w', Some i).
Proof.
  intros I Hcb Hk. unfold expire. change (deref (setFired l w) i) with (deref w i).
  rewrite bool_decide_false by (intros Hc; by rewrite (proj1 (inv_closed _ _ I Hc)) in Hk).
  rewrite (Get_law (store e)), Hk, bool_decide_false by (intros Hn; by apply Hn).
  pose proof (Take_law (store e) (Key (deref w i))) as HT. rewrite Hk in HT. destruct HT as (s&->&_).
  rewrite Hcb. eauto.
Qed.

(** a timeout surfaces the original request, and only for a ticket still open. When
    the expiry of an open ticket runs, the ticket leaves the engine and its parked
    request is emitted once, on the error port: its data untouched, its metadata what
    it was with missing return-context entries filled in and the reason [timeout].
    When the ticket is no longer open, nothing is emitted. *)
Theorem timeout_surfaces_original st j i q m :
  ok_heap (hp st) → Inv (engine st) (world st) → onExpire (engine st) = true →
  fired (world st) !! j = Some (FExpire i) →
  Request (deref (world st) i) = Some q → msgs (hp st) !! q = Some m →
  let st' := runExpiry emits st j in
  (contents (store (engine st)) !! Key (deref (world st) i) = Some i →
   contents (store (engine st')) = delete (Key (deref (world st) i)) (contents (store (engine st))) ∧
   t_state (deref (world st') i) = TicketExpired ∧
   log st' = log st ++ [mkEmission portError q (hp st') (engine st') (world st')] ∧
   objs (hp st') = objs (hp st) ∧
   ∃ m', msgs (hp st') !! q = Some m' ∧ m' = setMetadata (Metadata m') m ∧
     readMeta (hp st') (Metadata m') =
       <[metaReason := reasonTimeout]> (readMeta (hp st) (Metadata m) ∪ ReturnCtx (deref (world st) i))) ∧
  (contents (store (engine st)) !! Key (deref (world st) i) ≠ Some i →
   log st' = log st ∧ contents (store (engine st')) = contents (store (engine st)) ∧ hp st' = hp st).
Proof.
  intros Hok I Hcb Hj Hq Hm st'. subst st'. unfold runExpiry. rewrite Hj. cbn [runTimer]. split.
  - intros Hk. destruct (expire_open _ _ (delete j (fired (world st))) i I Hcb Hk) as (e'&w'&Hx).
    rewrite Hx. destruct (expire_ok _ _ _ _ _ _ _ I Hx) as (_&_&Hco&_&_&Htk).
    unfold onExpire_. rewrite Htk. cbn [Request setState ReturnCtx]. rewrite Hq.
    unfold msgOf. cbn [hp setEngine]. rewrite Hm. unfold emit. cbn -[readMeta].
    split_and!; [done|by rewrite Htk|done|by case_match|].
    destruct (Metadata m) as [l|] eqn:El.
    + exists m. split_and!; [done|by destruct m|]. rewrite El. unfold readMeta at 1. simpl.
      by rewrite lookup_insert_eq.
    + eexists. cbn -[readMeta]. rewrite lookup_insert_eq. split_and!; [done|done|].
      unfold readMeta at 1. simpl. by rewrite lookup_insert_eq.
  - intros Hk. unfold expire. change (deref (setFired _ (world st)) i) with (deref (world st) i).
    rewrite (Get_law (store (engine st))). case_bool_decide; [done|].
    destruct (contents (store (engine st)) !! Key (deref (world st) i)) as [cur|] eqn:Hc; [|done].
    rewrite bool_decide_true by congruence. done.
Qed.

(** ** The return path *)

(** the response port is safe. A ticket's response goes to [out_response] or to
    [out_response_<o>] for the origin [o] its request arrived with, where [o] is one to
    128 letters, digits, hyphens or underscores -- so the port name holds no dot, the
    separator of wire endpoints -- and, when peers are configured, a known peer; any
    other origin is an error. *)
Theorem response_port_safe g t :
  match responsePortFor g t with
  | inr port =>
      hasChar "." port = false ∧
      (port = portResponse ∨
       ∃ o, ReturnCtx t !! metaOrigin = Some o ∧ o ≠ origin g ∧ port = (portResponse +:+ "_" +:+ o) ∧
         1 ≤ Z.of_nat (String.length o) ≤ 128 ∧ allChars originChar o = true ∧
         (knownOrigins g ≠ ∅ → o ∈ knownOrigins g))
  | inl _ =>
      ∃ o, ReturnCtx t !! metaOrigin = Some o ∧ o ≠ ""%string ∧ o ≠ origin g ∧
        (originMatches o = false ∨ knownOrigins g ≠ ∅ ∧ o ∉ knownOrigins g)
  end.
Proof.
  assert (∀ o, allChars originChar o = true → hasChar "." o = false) as Hdot.
  { induction o as [|c o IH]; [done|]. cbn [hasChar allChars]. intros [Hc Ho]%andb_true_iff. rewrite (IH Ho), orb_false_r.
    destruct (Ascii.eqb_spec "." c) as [<-|]; [by vm_compute in Hc|done]. }
  unfold responsePortFor. set (o := default ""%string (ReturnCtx t !! metaOrigin)).
  case_decide as Hown; [by split; [|left]|].
  assert (ReturnCtx t !! metaOrigin = Some o) as Ho.
  { unfold o in *. destruct (ReturnCtx t !! metaOrigin); [done|]. simpl in Hown. exfalso. apply Hown. by left. }
  assert (o ≠ ""%string ∧ o ≠ origin g) as [Hne Hno] by (split; intros E; apply Hown; auto).
  clearbody o. destruct (originMatches o) eqn:Hmt; simpl; [|eauto 10].
  unfold originMatches in Hmt. apply andb_true_iff in Hmt as [[H1 H2]%andb_true_iff Hch].
  case_bool_decide as Hkn; simpl; [|case_bool_decide; simpl; [|by eauto 10]];
    (split; [simpl; by apply Hdot|]); right; exists o; (split_and!; [done|done|done|lia|lia|done|done]).
Qed.
End responses.
