(* ===== verification/ConductorExample.v ===== *)
(** * A conductor at work

    A gear with one catch-all route, correlating on [stan] and parking [card.pan]: a
    request, the same request again, its reply, and its timeout.  The states satisfy
    the hypotheses of the theorems of [ConductorSpec] and [ConductorReply], which are
    applied to them. *)
From S2P Require Import Prelude Valet ValetInv ValetSpec Tree FluxMsg Clone Keys Conductor ConductorSpec ConductorReply.
Open Scope Z_scope.

Module Scene.
Abbreviation MS := Memory.MemoryStore.

Definition sprint (h : heap) (v : val) : string := "".
Definition yes (l : list (@emission MS)) (port : string) (m : N) : bool := true.
Definition no (l : list (@emission MS)) (port : string) (m : N) : bool := false.
Definition up (port : string) : bool := true.
Definition down (port : string) : bool := false.

Definition routeA : route :=
  {| r_name := "all"; matchField := ""; matchPrefix := ""; r_tree := leafNode "out_a"; r_leaves := [];
     needsLoad := false |}.

Definition gearA : Gear := mkGear "west" ["stan"%string] ["card.pan"%string] [routeA] {["east"%string]}.

Definition e0 : Engine MS :=
  mkEngine DefaultTTL 0 0 DefaultRetainAfterClose true Memory.NewMemoryStore engineRunning 0 ∅ ∅.
Definition w0 : World N := mkWorld ∅ 0 0 ∅ 0 [].

(** The request: message 3, metadata 0, data 1 with a nested [map[any]any] 2. *)
Definition reqMsg : FluxMsg := mkFluxMsg 11 0 "" 0 (Some 0%N) (Some 1%N) 0 "raw" [] 0.
Definition card : obj := OMapA {[KStr "pan" := VStr "42"]}.
Definition reqData : obj := OMapS {["stan"%string := VStr "7"; "card"%string := VMapA (Some 2%N)]}.
Definition reqMeta : gmap string string := {["conn.id"%string := "c1"%string; "iso8583.mti"%string := "0200"%string]}.
Definition h0 : heap :=
  mkHeap 4 (<[1%N := reqData]> {[2%N := card]}) {[0%N := reqMeta]} {[3%N := reqMsg]}.

Definition st0 : @gstate MS := mkState gearA e0 w0 h0 ∅ [].

(** Parked: the ticket 0 holds message 3. *)
Definition key := "1:7"%string.
Definition pr : ParkRequest N := mkParkRequest key "out_a" (Some 3%N) (returnContext reqMeta) 0.
Definition e1 : Engine MS := (Park pr e0 w0).1.1.
Definition w1 : World N := (Park pr e0 w0).1.2.
Definition st1 : @gstate MS := mkState gearA e1 w1 h0 ∅ [].

(** The reply: message 6, metadata 4, data 5. *)
Definition repMsg : FluxMsg := mkFluxMsg 12 0 "" 0 (Some 4%N) (Some 5%N) 0 "" [] 0.
Definition repMeta : gmap string string := {["iso8583.mti"%string := "0210"%string]}.
Definition h1 : heap :=
  mkHeap 7 (<[5%N := OMapS {["stan"%string := VStr "7"]}]> (<[1%N := reqData]> {[2%N := card]}))
    (<[4%N := repMeta]> {[0%N := reqMeta]}) (<[6%N := repMsg]> {[3%N := reqMsg]}).
Definition st2 : @gstate MS := mkState gearA e1 w1 h1 ∅ [].

(** A minute later, the expiry of the ticket about to run. *)
Definition w4 : World N :=
  setFired [FExpire 0] (Stop 0 (mkWorld (tickets w1) 1 (now w1 + DefaultTTL) (timers w1) 1 [])).
Definition st4 : @gstate MS := mkState gearA e1 w4 h0 ∅ [].

(** An executable check of [ok_heap]. *)
Definition vltb (b : N) (v : val) : bool := match vloc v with Some l => (l <? b)%N | None => true end.

Definition children (o : obj) : list val :=
  match o with OMapS m => (map_to_list m).*2 | OMapA m => (map_to_list m).*2 | OSlice l => l end.

Definition ok_heapb (h : heap) : bool :=
  forallb (λ x : N * obj, (x.1 <? nxt h)%N && forallb (vltb (nxt h)) (children x.2)) (map_to_list (objs h)) &&
  forallb (λ x : N * gmap string string, (x.1 <? nxt h)%N) (map_to_list (metas h)) &&
  forallb (λ x : N * FluxMsg, (x.1 <? nxt h)%N &&
    match Data x.2 with Some d => (d <? nxt h)%N | None => true end &&
    match Metadata x.2 with Some d => bool_decide (is_Some (metas h !! d)) | None => true end)
    (map_to_list (msgs h)).

Lemma child_children o c : child o c → c ∈ children o.
Proof.
  destruct o as [m|m|l]; simpl; [| |done]; intros [k Hk]; apply list_elem_of_fmap;
    (exists (k, c); split; [done|by apply elem_of_map_to_list]).
Qed.

Lemma ok_heapb_ok h : ok_heapb h = true → ok_heap h.
Proof.
  unfold ok_heapb. rewrite !andb_true_iff, !forallb_forall. setoid_rewrite <-list_elem_of_In.
  intros [[H1 H2] H3].
  assert (∀ l o, objs h !! l = Some o → (l < nxt h)%N ∧ ∀ c, child o c → vlt (nxt h) c) as Ho.
  { intros l o Hl. specialize (H1 (l, o) (proj2 (elem_of_map_to_list _ _ _) Hl)). simpl in H1.
    apply andb_true_iff in H1 as [?%N.ltb_lt Hc]. split; [done|]. intros c Hcc l' Hl'.
    rewrite forallb_forall in Hc. specialize (Hc c). rewrite <-list_elem_of_In in Hc.
    specialize (Hc (child_children _ _ Hcc)). unfold vltb in Hc. rewrite Hl' in Hc. by apply N.ltb_lt. }
  assert (∀ l m, msgs h !! l = Some m → (l < nxt h)%N ∧ (∀ d, Data m = Some d → (d < nxt h)%N) ∧
    ∀ d, Metadata m = Some d → is_Some (metas h !! d)) as Hm.
  { intros l m Hl. specialize (H3 (l, m) (proj2 (elem_of_map_to_list _ _ _) Hl)). simpl in H3.
    apply andb_true_iff in H3 as [[?%N.ltb_lt Hd]%andb_true_iff Hmd]. split_and!; [done|..].
    - intros d E. rewrite E in Hd. by apply N.ltb_lt.
    - intros d E. rewrite E in Hmd. by apply bool_decide_eq_true in Hmd. }
  split.
  - intros l o Hl. by destruct (Ho l o Hl).
  - intros l o c _ Hl Hc. destruct (Ho l o Hl) as [_ Hx]. by apply Hx.
  - intros l m Hl. specialize (H2 (l, m) (proj2 (elem_of_map_to_list _ _ _) Hl)). by apply N.ltb_lt.
  - intros l m Hl. by destruct (Hm l m Hl).
  - intros l m Hl. by destruct (Hm l m Hl) as (_&?&?).
Qed.

Ltac lookups H :=
  repeat (apply lookup_insert_Some in H as [[<- <-]|[_ H]]);
  try (apply lookup_singleton_Some in H as [<- <-]).

Lemma req_fin h : objs h !! 1%N = Some reqData → objs h !! 2%N = Some card → fin h 2 (VMapS (Some 1%N)).
Proof.
  intros H1 H2. eapply fin_ref; [done|exact H1|done|]. intros c [k Hk]. lookups Hk; [by constructor|].
  eapply fin_ref; [done|exact H2|done|]. intros c [k' Hk']. lookups Hk'. by constructor.
Qed.

Lemma inv0 : Inv e0 w0.
Proof. apply initial_inv. by exists (mkConfig 0 0 0 0 true Memory.NewMemoryStore), 0. Qed.

Lemma inv1 : Inv e1 w1.
Proof. eapply (Park_inv pr e0 w0); [apply inv0|]. vm_compute. reflexivity. Qed.

Lemma inv4 : Inv e1 w4.
Proof.
  assert (steps (Msg := N) (e1, w1) [LTick DefaultTTL; LFire (FExpire 0)] (e1, w4)) as Hs.
  { eapply steps_cons; [by constructor|]. apply steps_one.
    apply (step_fire e1 (mkWorld (tickets w1) 1 (now w1 + DefaultTTL) (timers w1) 1 [])
             0 DefaultTTL (FExpire 0)); [vm_compute; reflexivity|by vm_compute]. }
  apply (steps_inv _ _ _ Hs), inv1.
Qed.

Lemma routable_any e w : Inv e w → routable sprint up 2 0 (mkState gearA e w h0 ∅ []) 3 reqMsg key 0 routeA.
Proof.
  intros I. split; try done.
  - by apply ok_heapb_ok.
  - apply req_fin; done.
  - by constructor.
  - exists "out_a"%string. split; [by left|done].
Qed.

Lemma answerable2 : answerable sprint 1 st2 6 repMsg key 0 "out_response".
Proof.
  split; try done.
  - by apply ok_heapb_ok.
  - apply inv1.
  - eapply (fin_ref _ _ _ 5%N); [done|done|done|]. intros c [k Hk]. lookups Hk. by constructor.
  - eapply (solid_ref _ _ 5%N); [done|done|done|]. intros c [k Hk]. lookups Hk. by constructor.
  - intros q [= <-]. exists reqMsg. split; [done|]. intros f v Hf. apply list_elem_of_singleton in Hf as ->.
    vm_compute. by intros [= <-].
Qed.
End Scene.
Import Scene.

(** The states after the request, its retransmission and its reply. *)
Definition after0 := handleRequest sprint yes up 3 st0 (Some 3%N).
Definition refused0 := handleRequest sprint no up 3 st0 (Some 3%N).
Definition again1 := handleRequest sprint yes up 3 st1 (Some 3%N).
Definition after2 := handleReply sprint yes 2 st2 (Some 6%N).

Lemma request_parked_then_sent_witness :
  after0.2 = HOk ∧ ∃ h' e' w' t, log after0.1 = [mkEmission "out_a" 3%N h' e' w'] ∧
    contents (store e') !! key = Some t ∧ t_state (deref w' t) = TicketOpen ∧ sent_as gearA h0 3 reqMsg h'.
Proof.
  split; [vm_compute; reflexivity|].
  destruct (request_parked_then_sent sprint yes up 2 0 st0 3 reqMsg key 0 routeA after0.1 after0.2)
    as (dest&h'&e'&w'&t&Hd&_&Hl&Hc&Ho&_&_&_&Hs).
  - apply routable_any, inv0.
  - by split.
  - apply surjective_pairing.
  - apply list_elem_of_singleton in Hd as ->. exists h', e', w', t.
    split_and!; [exact Hl|rewrite Hc; apply lookup_insert_eq|exact Ho|exact Hs].
Defined.

Lemma parked_request_pristine_witness :
  ∃ mq q, q ≠ 3%N ∧ msgs (hp after0.1) !! q = Some mq ∧
    option_relation (same h0 (hp after0.1)) (λ _, False) (λ _, False)
      (Get h0 reqMsg "card.pan") (Get (hp after0.1) mq "card.pan") ∧
    Get h0 reqMsg "card.pan" = Some (VStr "42").
Proof.
  destruct (parked_request_pristine sprint yes up 2 0 st0 3 reqMsg key 0 routeA after0.1 after0.2)
    as (em&t&q&mq&_&_&_&Hne&Hq&_&_&_&Hget&_).
  - apply routable_any, inv0.
  - by split.
  - apply surjective_pairing.
  - exists mq, q. split_and!; [exact Hne|exact Hq|exact (Hget "card.pan"%string)|reflexivity].
Defined.

Lemma failed_send_releases_witness :
  refused0.2 = HErr "emit" ∧ contents (store (engine refused0.1)) !! key = None.
Proof.
  destruct (failed_send_releases sprint no up 2 0 st0 3 reqMsg key 0 routeA refused0.1 refused0.2) as (Hr&_&Hk).
  - apply routable_any, inv0.
  - by split.
  - done.
  - apply surjective_pairing.
  - split; [exact Hr|exact Hk].
Defined.

Lemma retransmission_absorbed_witness : again1.2 = HOk ∧ log again1.1 = [] ∧ engine again1.1 = e1.
Proof.
  destruct (retransmission_absorbed sprint yes up 2 0 st1 3 reqMsg key 0 routeA 0 again1.1 again1.2)
    as (Hr&Hl&He&_).
  - apply routable_any, inv1.
  - vm_compute. reflexivity.
  - apply surjective_pairing.
  - split_and!; [exact Hr|exact Hl|exact He].
Defined.

Lemma rejected_request_surfaces_witness :
  ∃ st' res m', handleRequest sprint yes down 3 st1 (Some 3%N) = (st', res) ∧ res = HOk ∧
    engine st' = e1 ∧ msgs (hp st') !! 3%N = Some m' ∧
    readMeta (hp st') (Metadata m') = <[metaReason := reasonNoDestination]> (readMeta h0 (Metadata reqMsg)).
Proof.
  destruct (handleRequest sprint yes down 3 st1 (Some 3%N)) as [st' res] eqn:Hh.
  destruct (rejected_request_surfaces sprint yes down 3 st1 3 reqMsg reasonNoDestination st' res)
    as (Hr&He&_&_&_&m'&Hm&_&Hread).
  - by apply ok_heapb_ok.
  - done.
  - vm_compute. reflexivity.
  - exact Hh.
  - exists st', res, m'. split_and!; [done|exact Hr|exact He|exact Hm|exact Hread].
Defined.

Lemma reply_answered_witness :
  after2.2 = HOk ∧ ∃ resp mr, msgs (hp after2.1) !! resp = Some mr ∧ keeps h1 (hp after2.1) ∧
    contents (store (engine after2.1)) = delete key (contents (store e1)) ∧
    readMeta (hp after2.1) (Metadata mr) =
      {["conn.id"%string := "c1"%string; "iso8583.mti"%string := "0210"%string]}.
Proof.
  split; [vm_compute; reflexivity|].
  destruct (reply_answered sprint yes 1 st2 6 repMsg key 0 "out_response" after2.1 after2.2)
    as (resp&mr&_&Hc&_&_&_&Hk&Hm&_&Hr&_).
  - apply answerable2.
  - apply surjective_pairing.
  - exists resp, mr. split_and!; [exact Hm|exact Hk|exact Hc|]. rewrite Hr. vm_compute. reflexivity.
Defined.

Lemma response_keeps_codec_fields_witness :
  ∃ resp mr, msgs (hp after2.1) !! resp = Some mr ∧
    readMeta (hp after2.1) (Metadata mr) !! "iso8583.mti"%string = Some "0210"%string.
Proof.
  destruct (response_keeps_codec_fields sprint yes 1 st2 6 repMsg key 0 "out_response" after2.1 after2.2
    reqMeta "iso8583.mti") as (resp&mr&_&Hm&Hr).
  - apply answerable2.
  - vm_compute. reflexivity.
  - reflexivity.
  - apply surjective_pairing.
  - exists resp, mr. split; [exact Hm|]. rewrite Hr. vm_compute. reflexivity.
Defined.

Lemma parked_field_restored_witness :
  Get h1 repMsg "card.pan" = None ∧
  ∃ resp mr, msgs (hp after2.1) !! resp = Some mr ∧ Get (hp after2.1) mr "card.pan" = Some (VStr "42").
Proof.
  split; [reflexivity|].
  destruct (parked_field_restored sprint yes 1 st2 6 repMsg key 0 "out_response" after2.1 after2.2
    "card.pan" 3 reqMsg (VStr "42")) as (resp&mr&_&Hm&Hg).
  - apply answerable2.
  - apply surjective_pairing.
  - reflexivity.
  - vm_compute. reflexivity.
  - reflexivity.
  - vm_compute. reflexivity.
  - vm_compute. exact I.
  - exists resp, mr. split; [exact Hm|exact Hg].
Defined.

Lemma unmatched_reply_surfaces_witness :
  (handleReply sprint yes 2 (setEngine e0 w0 st2) (Some 6%N)).2 = HOk.
Proof.
  destruct (unmatched_reply_surfaces sprint yes 2 (setEngine e0 w0 st2) 6 repMsg
    (handleReply sprint yes 2 (setEngine e0 w0 st2) (Some 6%N)).1
    (handleReply sprint yes 2 (setEngine e0 w0 st2) (Some 6%N)).2) as (Hr&_).
  - by apply ok_heapb_ok.
  - apply inv0.
  - done.
  - done.
  - done.
  - intros k _. apply lookup_empty.
  - apply surjective_pairing.
  - exact Hr.
Defined.

Lemma timeout_surfaces_original_witness :
  ∃ m', msgs (hp (runExpiry yes st4 0)) !! 3%N = Some m' ∧
    readMeta (hp (runExpiry yes st4 0)) (Metadata m') !! metaReason = Some reasonTimeout.
Proof.
  destruct (timeout_surfaces_original yes st4 0 0 3 reqMsg) as [Ho _].
  - by apply ok_heapb_ok.
  - apply inv4.
  - reflexivity.
  - reflexivity.
  - vm_compute. reflexivity.
  - reflexivity.
  - destruct Ho as (_&_&_&_&m'&Hm&_&Hr); [vm_compute; reflexivity|].
    exists m'. split; [exact Hm|]. rewrite Hr. vm_compute. reflexivity.
Defined.

(** The pick comes before the park: with its ticket open but no port available, a
    retransmission goes to the error port as [no_destination]. *)
Lemma retransmission_during_outage :
  contents (store (engine st1)) !! key = Some 0%nat ∧
  ∃ st', handleRequest sprint yes down 3 st1 (Some 3%N) = (st', HOk) ∧
    log st' = [mkEmission portError 3%N (putMeta h0 3 metaReason reasonNoDestination) e1 w1].
Proof.
  split; [vm_compute; reflexivity|].
  destruct (retransmission_without_port sprint yes down 3 st1 3 reqMsg key 0 routeA) as (st'&Hh&_&_&Hl).
  - reflexivity.
  - vm_compute. reflexivity.
  - vm_compute. reflexivity.
  - vm_compute. reflexivity.
  - exists st'. split; [exact Hh|exact Hl].
Qed.

(** A scenario configuration, as the YAML loader hands it over. *)
Definition cfgA : list (string * cfgval) :=
  [("origin", CStr "west"); ("correlation_key", CList [CStr "stan"; CStr "iso8583.field.11"]);
   ("park_fields", CList [CStr "card.pan"]);
   ("routes", CList [CMap [("name", CStr "all"); ("destination", TreeExample.cfg)]]);
   ("valet", CMap [("store", CStr "memory"); ("max_in_flight", CFloat (Some 1000))])]%string.

Lemma init_ready_witness :
  ∃ g e, Init (λ _, None) cfgA = inr (g, e) ∧ corrKey g ≠ [] ∧ Forall route_ok (routes g) ∧ maxInFlight e = 1000.
Proof.
  destruct (Init (λ _, None) cfgA) as [err|[g e]] eqn:Hi; [vm_compute in Hi; discriminate|].
  destruct (init_ready (λ _, None) cfgA g e 0 Hi) as (Hc&_&_&Hr&_).
  - repeat constructor; simpl; lia.
  - exists g, e. split_and!; [done|exact Hc|exact Hr|]. vm_compute in Hi. by injection Hi as <- <-.
Defined.

Lemma get_after_set_witness :
  ∃ h', Set_ h0 reqMsg "card.expiry" (VStr "2612") = (SetOk, h') ∧
    Get h' reqMsg "card.expiry" = Some (VStr "2612").
Proof.
  destruct (Set_ h0 reqMsg "card.expiry" (VStr "2612")) as [r h'] eqn:Hs.
  assert (r = SetOk) as -> by (vm_compute in Hs; by injection Hs as <- _).
  exists h'. split; [done|].
  apply (get_after_set h0 2 reqMsg "card.expiry" (VStr "2612") h' 3%N);
    [by apply ok_heapb_ok|reflexivity|by apply req_fin|exact Hs].
Defined.
