(* ===== verification/Bytes.v ===== *)
(** * Bytes, strings and hexadecimal

    What the framing code uses of Go's [[]byte], [string] and [encoding/hex].  A byte
    slice is a [list Z] with every element in 0..255; a string is a Rocq [string],
    whose characters are the bytes. *)
From Stdlib Require Import Ascii.
From S2P Require Import Prelude.
Open Scope Z_scope.

Abbreviation bytes := (list Z).

Definition byte_ok (b : Z) : Prop := 0 ≤ b < 256.

Definition byte_of (c : ascii) : Z := Z.of_N (N_of_ascii c).
Definition char_of (b : Z) : ascii := ascii_of_N (Z.to_N b).

(** [[]byte(s)] and [string(b)] *)
Fixpoint toBytes (s : string) : bytes :=
  match s with EmptyString => [] | String c s' => byte_of c :: toBytes s' end.

Fixpoint toString (b : bytes) : string :=
  match b with [] => EmptyString | x :: b' => String (char_of x) (toString b') end.

(** [data[from:to]] *)
Definition slice (data : bytes) (from to : nat) : bytes := take (to - from) (drop from data).

(** Byte [i] of the slice. *)
Definition at_ (data : bytes) (i : nat) : Z := nth i data 0.

(** ** Hexadecimal *)

Definition hexLower (n : Z) : ascii := char_of (if n <? 10 then n + 48 else n - 10 + 97).
Definition hexUpper (n : Z) : ascii := char_of (if n <? 10 then n + 48 else n - 10 + 65).

(** [hex.EncodeToString] *)
Fixpoint EncodeToString (b : bytes) : string :=
  match b with
  | [] => EmptyString
  | x :: b' => String (hexLower (x / 16)) (String (hexLower (x mod 16)) (EncodeToString b'))
  end.

(** The value of a hex digit, in either case. *)
Definition fromHexChar (c : ascii) : option Z :=
  let b := byte_of c in
  if (48 <=? b) && (b <=? 57) then Some (b - 48)
  else if (97 <=? b) && (b <=? 102) then Some (b - 97 + 10)
  else if (65 <=? b) && (b <=? 70) then Some (b - 65 + 10)
  else None.

(** [hex.DecodeString]: an invalid digit or an odd length is an error. *)
Fixpoint DecodeString (s : string) : option bytes :=
  match s with
  | EmptyString => Some []
  | String a (String b s') =>
      match fromHexChar a, fromHexChar b, DecodeString s' with
      | Some x, Some y, Some rest => Some (x * 16 + y :: rest)
      | _, _, _ => None
      end
  | String _ EmptyString => None
  end.

(** [%02X] of a byte *)
Definition hex02 (b : Z) : string := String (hexUpper (b / 16)) (String (hexUpper (b mod 16)) EmptyString).

(** [%X] of a byte slice *)
Fixpoint hexAll (b : bytes) : string :=
  match b with [] => EmptyString | x :: b' => hex02 x +:+ hexAll b' end.

(** [strings.CutPrefix] *)
Fixpoint CutPrefix (s p : string) : option string :=
  match p, s with
  | EmptyString, _ => Some s
  | String a p', String b s' => if Ascii.eqb a b then CutPrefix s' p' else None
  | String _ _, EmptyString => None
  end.

(** ** Lemmas *)

Lemma byte_of_char b : byte_ok b → byte_of (char_of b) = b.
Proof.
  intros [? ?]. unfold byte_of, char_of. rewrite N_ascii_embedding by lia. lia.
Qed.

Lemma char_of_byte c : char_of (byte_of c) = c.
Proof. unfold char_of, byte_of. rewrite N2Z.id. apply ascii_N_embedding. Qed.

Lemma byte_of_ok c : byte_ok (byte_of c).
Proof. unfold byte_ok, byte_of. pose proof (N_ascii_bounded c). lia. Qed.

Lemma toString_toBytes s : toString (toBytes s) = s.
Proof. induction s as [|c s IH]; simpl; [done|]. by rewrite char_of_byte, IH. Qed.

Lemma toBytes_toString b : Forall byte_ok b → toBytes (toString b) = b.
Proof. induction 1 as [|x b Hx _ IH]; simpl; [done|]. by rewrite byte_of_char, IH. Qed.

Lemma toBytes_ok s : Forall byte_ok (toBytes s).
Proof. induction s; simpl; constructor; auto using byte_of_ok. Qed.

Lemma length_toBytes s : length (toBytes s) = String.length s.
Proof. induction s; simpl; congruence. Qed.

Lemma toBytes_app s t : toBytes (s +:+ t) = toBytes s ++ toBytes t.
Proof. induction s as [|c s IH]; [done|]. simpl. by rewrite <-IH. Qed.

Lemma fromHex_lower n : 0 ≤ n < 16 → fromHexChar (hexLower n) = Some n.
Proof.
  intros Hn. unfold fromHexChar, hexLower. rewrite byte_of_char by (unfold byte_ok; destruct (Z.ltb_spec n 10); lia).
  destruct (Z.ltb_spec n 10).
  - rewrite (proj2 (Z.leb_le _ _)), (proj2 (Z.leb_le _ _)) by lia. simpl. f_equal. lia.
  - rewrite (proj2 (Z.leb_gt _ 57)), andb_false_r by lia.
    rewrite (proj2 (Z.leb_le _ _)), (proj2 (Z.leb_le _ _)) by lia. simpl. f_equal. lia.
Qed.

Lemma fromHex_upper n : 0 ≤ n < 16 → fromHexChar (hexUpper n) = Some n.
Proof.
  intros Hn. unfold fromHexChar, hexUpper. rewrite byte_of_char by (unfold byte_ok; destruct (Z.ltb_spec n 10); lia).
  destruct (Z.ltb_spec n 10).
  - rewrite (proj2 (Z.leb_le _ _)), (proj2 (Z.leb_le _ _)) by lia. simpl. f_equal. lia.
  - rewrite (proj2 (Z.leb_gt _ 57)), andb_false_r by lia.
    rewrite (proj2 (Z.leb_gt 97 _)) by lia. simpl.
    rewrite (proj2 (Z.leb_le _ _)), (proj2 (Z.leb_le _ _)) by lia. simpl. f_equal. lia.
Qed.

Lemma nibbles b : byte_ok b → 0 ≤ b / 16 < 16 ∧ 0 ≤ b mod 16 < 16 ∧ b / 16 * 16 + b mod 16 = b.
Proof.
  intros [? ?]. pose proof (Z.div_mod b 16). pose proof (Z.mod_pos_bound b 16).
  pose proof (Z.div_lt_upper_bound b 16 16). pose proof (Z.div_pos b 16). lia.
Qed.

(** Decoding undoes encoding. *)
Lemma Decode_Encode b : Forall byte_ok b → DecodeString (EncodeToString b) = Some b.
Proof.
  induction 1 as [|x b Hx _ IH]; [done|]. simpl. destruct (nibbles x Hx) as (H1&H2&H3).
  rewrite !fromHex_lower, IH, H3 by done. done.
Qed.

Lemma Decode_hexAll b : Forall byte_ok b → DecodeString (hexAll b) = Some b.
Proof.
  induction 1 as [|x b Hx _ IH]; [done|].
  change (hexAll (x :: b)) with (String (hexUpper (x / 16)) (String (hexUpper (x mod 16)) (hexAll b))).
  cbn [DecodeString]. destruct (nibbles x Hx) as (H1&H2&H3).
  rewrite !fromHex_upper, IH, H3 by done. done.
Qed.

Lemma length_Decode s b : DecodeString s = Some b → String.length s = (2 * length b)%nat.
Proof.
  revert b. induction s as [s IH] using (induction_ltof1 _ String.length); unfold ltof in IH; intros b Hs.
  destruct s as [|x [|y s]]; simpl in *; [by simplify_eq|done|].
  destruct (fromHexChar x), (fromHexChar y), (DecodeString s) as [b'|] eqn:E; simplify_eq.
  rewrite (IH s) with (b := b') by (done || lia). simpl. lia.
Qed.

Lemma fromHexChar_range c n : fromHexChar c = Some n → 0 ≤ n < 16.
Proof.
  unfold fromHexChar. repeat case_match; intros; simplify_eq;
    repeat match goal with H : _ && _ = true |- _ => apply andb_true_iff in H as [?%Z.leb_le ?%Z.leb_le] end; lia.
Qed.

Lemma Decode_ok s b : DecodeString s = Some b → Forall byte_ok b.
Proof.
  revert b. induction s as [s IH] using (induction_ltof1 _ String.length); unfold ltof in IH; intros b Hs.
  destruct s as [|x [|y s]]; simpl in *; [simplify_eq; constructor|done|].
  destruct (fromHexChar x) as [p|] eqn:Hp, (fromHexChar y) as [q|] eqn:Hq, (DecodeString s) as [b'|] eqn:E; simplify_eq.
  apply fromHexChar_range in Hp, Hq. constructor; [unfold byte_ok; lia|]. eapply (IH s); [lia|done].
Qed.

Lemma CutPrefix_app p s : CutPrefix (p +:+ s) p = Some s.
Proof. induction p as [|c p IH]; [by destruct s|]. simpl. by rewrite Ascii.eqb_refl, IH. Qed.

Lemma length_slice data from to :
  (from ≤ to)%nat → (to ≤ length data)%nat → length (slice data from to) = (to - from)%nat.
Proof. intros. unfold slice. rewrite length_take, length_drop. lia. Qed.

(** [(x << k) | y] with [y] below [2^k]. *)
Lemma lor_shiftl x y k : 0 ≤ k → 0 ≤ y < 2 ^ k → Z.lor (Z.shiftl x k) y = x * 2 ^ k + y.
Proof.
  intros Hk Hy. rewrite Z.shiftl_mul_pow2 by lia.
  assert (Z.land (x * 2 ^ k) y = 0) as Hl.
  { apply Z.bits_inj'. intros i Hi. rewrite Z.land_spec, Z.bits_0.
    destruct (Z.ltb_spec i k); [by rewrite Z.mul_pow2_bits_low|].
    destruct (decide (y = 0)) as [->|]; [by rewrite Z.bits_0, andb_false_r|].
    rewrite (Z.bits_above_log2 y i), andb_false_r; [done|lia|].
    assert (Z.log2 y < k); [|lia]. apply Z.log2_lt_pow2; lia. }
  by rewrite <-Z.lxor_lor, Z.add_nocarry_lxor by done.
Qed.

Lemma slice_app (a b c : bytes) : slice (a ++ b ++ c) (length a) (length a + length b) = b.
Proof.
  unfold slice. rewrite drop_app_length. replace (length a + length b - length a)%nat with (length b) by lia.
  apply take_app_length.
Qed.
