(* ===== verification/Frame.v ===== *)
(** * pkg/gears/native/iso8583/io/frame.go: ISO 8583 framing helpers

    Bitmaps (binary and hexadecimal, in ASCII or EBCDIC), the message type indicator,
    the Visa header, preserved raw headers and the TPDU swap. *)
From Stdlib Require Import Ascii Sorted.
From S2P Require Import Prelude Bytes.
Open Scope Z_scope.

(** The fields of [Config] the framing helpers read. *)
Record Config := mkConfig {
  Variant : string; TPDUEnabled : bool; TPDULength : Z; ProtocolHeaderSize : Z;
  VisaSrcID : string; VisaDstID : string }.

Definition VariantVisa := "visa"%string.
Definition VariantMastercard := "mastercard"%string.

(** ** Bitmaps *)

Definition isHexChar (b : Z) (encoding : string) : bool :=
  if decide (encoding = "ebcdic"%string)
  then (240 <=? b) && (b <=? 249) || (193 <=? b) && (b <=? 198) || (129 <=? b) && (b <=? 134)
  else (48 <=? b) && (b <=? 57) || (65 <=? b) && (b <=? 70) || (97 <=? b) && (b <=? 102).

Definition decodeHexNibble (b : Z) (encoding : string) : Z :=
  if decide (encoding = "ebcdic"%string) then
    if (240 <=? b) && (b <=? 249) then b - 240
    else if (193 <=? b) && (b <=? 198) then b - 193 + 10
    else if (129 <=? b) && (b <=? 134) then b - 129 + 10
    else 0
  else
    if (48 <=? b) && (b <=? 57) then b - 48
    else if (65 <=? b) && (b <=? 70) then b - 65 + 10
    else if (97 <=? b) && (b <=? 102) then b - 97 + 10
    else 0.

(** [(high << 4) | low] on bytes, for each of the eight pairs. *)
Definition decodeHexBitmap (data : bytes) (encoding : string) : bytes :=
  if negb (bool_decide (length data = 16%nat)) then replicate 8 0 else
  (λ i : nat, Z.lor (Z.shiftl (decodeHexNibble (at_ data (i * 2)) encoding) 4 mod 256)
                    (decodeHexNibble (at_ data (i * 2 + 1)) encoding)) <$> seq 0 8.

Definition extractFieldsFromBitmap (bitmap : bytes) (offset : Z) : list Z :=
  let fix go (i : nat) (l : bytes) : list Z :=
    match l with
    | [] => []
    | b :: rest =>
        (if b =? 0 then []
         else omap (λ bit : nat,
                if negb (Z.land b (Z.shiftr 128 (Z.of_nat bit)) =? 0)
                then Some (offset + Z.of_nat i * 8 + Z.of_nat bit + 1) else None) (seq 0 8))
        ++ go (S i) rest
    end in
  go 0%nat bitmap.

(** The test of the first 16 bytes for hex characters. *)
Definition isHexBitmap (data : bytes) (encoding : string) : bool :=
  (16 <=? Z.of_nat (length data)) && forallb (λ b, isHexChar b encoding) (take 16 data).

Definition extractHexBitmaps (data : bytes) (encoding : string) : nat * list Z * nat :=
  let f1 := extractFieldsFromBitmap (decodeHexBitmap (slice data 0 16) encoding) 0 in
  if match f1 with f :: _ => f =? 1 | [] => false end && (32 <=? length data)%nat then
    let f2 := f1 ++ extractFieldsFromBitmap (decodeHexBitmap (slice data 16 32) encoding) 64 in
    if existsb (λ f, f =? 65) f2 && (48 <=? length data)%nat then
      (3%nat, f2 ++ extractFieldsFromBitmap (decodeHexBitmap (slice data 32 48) encoding) 128, 48%nat)
    else (2%nat, f2, 32%nat)
  else (1%nat, f1, 16%nat).

Definition extractBinaryBitmaps (data : bytes) : nat * list Z * nat :=
  let pMap := slice data 0 8 in
  let f1 := extractFieldsFromBitmap pMap 0 in
  if negb (Z.land (at_ pMap 0) 128 =? 0) && (16 <=? length data)%nat then
    let sMap := slice data 8 16 in
    let f2 := f1 ++ extractFieldsFromBitmap sMap 64 in
    if negb (Z.land (at_ sMap 0) 128 =? 0) && (24 <=? length data)%nat then
      (3%nat, f2 ++ extractFieldsFromBitmap (slice data 16 24) 128, 24%nat)
    else (2%nat, f2, 16%nat)
  else (1%nat, f1, 8%nat).

(** Count of bitmaps, active fields, bytes consumed. *)
Definition extractBitmaps (data : bytes) (encoding : string) : nat * list Z * nat :=
  if (length data <? 8)%nat then (0%nat, [], 0%nat)
  else if isHexBitmap data encoding then extractHexBitmaps data encoding
  else extractBinaryBitmaps data.

(** ** MTI *)

Definition decodeMTI (payload : bytes) (offset : nat) (encoding : string) : string * nat :=
  if (length payload <? offset + 2)%nat then (""%string, 0%nat) else
  if bool_decide (encoding = "ebcdic"%string) && (offset + 4 <=? length payload)%nat then
    (toString ((λ b, if (240 <=? b) && (b <=? 249) then b - 192 else 63) <$> slice payload offset (offset + 4)), 4%nat)
  else
  let b0 := at_ payload offset in
  let b1 := at_ payload (offset + 1) in
  if bool_decide (encoding = "bcd"%string) then (hex02 b0 +:+ hex02 b1, 2%nat) else
  if bool_decide (encoding = "generic"%string) && (b0 <? 48) && (0 <? b0) then (hex02 b0 +:+ hex02 b1, 2%nat) else
  if (offset + 4 <=? length payload)%nat &&
     forallb (λ b, (48 <=? b) && (b <=? 57)) (slice payload offset (offset + 4))
  then (toString (slice payload offset (offset + 4)), 4%nat)
  else (hexAll (slice payload offset (offset + 2)), 2%nat).

(** ** Headers *)

(** [fmt.Sprintf("%d", n)] *)
Definition fmtInt (n : Z) : string := pretty n.

Definition hexRange (payload : bytes) (from to : nat) : string := hexAll (slice payload from to).

Definition ExtractHeader (payload : bytes) (cfg : Config) : gmap string string :=
  if bool_decide (Variant cfg = VariantVisa) && (22 <=? length payload)%nat then
    let headerLen := at_ payload 0 in
    let msgLen := Z.lor (Z.shiftl (at_ payload 3) 8) (at_ payload 4) in
    let meta : gmap string string :=
      <["iso8583.visa.header_length"%string := fmtInt headerLen]>
      (<["iso8583.visa.header_format"%string := hexRange payload 1 2]>
      (<["iso8583.visa.text_format"%string := hexRange payload 2 3]>
      (<["iso8583.visa.message_length"%string := fmtInt msgLen]>
      (<["iso8583.dst_id"%string := hexRange payload 5 8]>
      (<["iso8583.src_id"%string := hexRange payload 8 11]>
      (<["iso8583.visa.round_trip"%string := hexRange payload 11 12]>
      (<["iso8583.visa.flags"%string := hexRange payload 12 14]>
      (<["iso8583.visa.status_flags"%string := hexRange payload 14 17]>
      (<["iso8583.visa.batch_number"%string := hexRange payload 17 18]>
      (<["iso8583.visa.user_info"%string := hexRange payload 21 22]> ∅)))))))))) in
    if (26 <=? headerLen) && (26 <=? length payload)%nat then
      <["iso8583.visa.reject_code"%string := hexRange payload 24 26]>
      (<["iso8583.visa.reject_bitmap"%string := hexRange payload 22 24]> meta)
    else meta
  else ∅.

Definition GetHeaderOffset (payload : bytes) (cfg : Config) : Z :=
  if TPDUEnabled cfg && (TPDULength cfg <? Z.of_nat (length payload)) then TPDULength cfg
  else if (0 <? ProtocolHeaderSize cfg) && (ProtocolHeaderSize cfg <? Z.of_nat (length payload))
  then ProtocolHeaderSize cfg else 0.

(** [copy(res, data)] into [n] zero bytes. *)
Definition copyInto (n : nat) (data : bytes) : bytes := take n data ++ replicate (n - length data) 0.

Definition hexToBytesFixed (s : string) (n : nat) : bytes :=
  let s := if Z.odd (Z.of_nat (String.length s)) then "0" +:+ s else s in
  if bool_decide (s = ""%string) then replicate n 0
  else match DecodeString s with
       | Some data => copyInto n data
       | None => replicate n 0
       end.

Definition buildVisaHeader (cfg : Config) (dynSrc dynDst : string) (payloadLen : Z) : bytes :=
  let totalLen := 22 + payloadLen in
  let dst := if bool_decide (dynDst = ""%string) then VisaDstID cfg else dynDst in
  let src := if bool_decide (dynSrc = ""%string) then VisaSrcID cfg else dynSrc in
  [22; 1; 2; Z.shiftr totalLen 8 mod 256; totalLen mod 256] ++
  hexToBytesFixed dst 3 ++ hexToBytesFixed src 3 ++ replicate 11 0.

(** A nil header is [[]]. *)
Definition BuildHeader (cfg : Config) (dynamicSrc dynamicDst : string) (payloadLen : Z) : bytes :=
  if bool_decide (Variant cfg = VariantVisa) then buildVisaHeader cfg dynamicSrc dynamicDst payloadLen
  else [].

Definition decodeRawHeader (v : string) : bytes :=
  match CutPrefix v "hex:" with
  | Some s => match DecodeString s with Some b => b | None => [] end
  | None => toBytes v
  end.

Definition tpduSize : Z := 5.

Definition swapTPDU (h : bytes) (tpduLen : Z) : bytes :=
  if negb (tpduLen =? tpduSize) || (Z.of_nat (length h) <? tpduSize) then h
  else slice h 0 1 ++ slice h 3 5 ++ slice h 1 3 ++ drop 5 h.

(** [formatFieldList]: the numbers, comma separated, in brackets. *)
Definition formatFieldList (fields : list Z) : string :=
  "[" +:+ String.concat "," (fmtInt <$> fields) +:+ "]".

(** ** Lemmas on bitmaps *)

Lemma land_bit b (bit : nat) :
  (bit < 8)%nat → negb (Z.land b (Z.shiftr 128 (Z.of_nat bit)) =? 0) = Z.testbit b (7 - Z.of_nat bit).
Proof.
  intros Hb. replace (Z.shiftr 128 (Z.of_nat bit)) with (2 ^ (7 - Z.of_nat bit)).
  2:{ do 8 (destruct bit as [|bit]; [done|]). lia. }
  set (n := 7 - Z.of_nat bit). assert (0 ≤ n) by lia. clearbody n.
  assert (Z.land b (2 ^ n) = if Z.testbit b n then 2 ^ n else 0) as ->.
  { apply Z.bits_inj'. intros i Hi. rewrite Z.land_spec, Z.pow2_bits_eqb by done.
    destruct (Z.eqb_spec n i) as [<-|].
    - destruct (Z.testbit b n); simpl; [by rewrite Z.pow2_bits_true|by rewrite Z.bits_0].
    - rewrite andb_false_r. destruct (Z.testbit b n); [|by rewrite Z.bits_0].
      by rewrite Z.pow2_bits_false by lia. }
  destruct (Z.testbit b n); [|done]. rewrite (proj2 (Z.eqb_neq _ _)); [done|].
  pose proof (Z.pow_pos_nonneg 2 n). lia.
Qed.

(** The fields of one byte of a bitmap, at position [i]. *)
Definition byteFields (b offset : Z) (i : nat) : list Z :=
  omap (λ bit : nat, if Z.testbit b (7 - Z.of_nat bit)
                     then Some (offset + Z.of_nat i * 8 + Z.of_nat bit + 1) else None) (seq 0 8).

Fixpoint bitmapFields (bitmap : bytes) (offset : Z) (i : nat) : list Z :=
  match bitmap with
  | [] => []
  | b :: rest => byteFields b offset i ++ bitmapFields rest offset (S i)
  end.

Lemma omap_ext_in {A B} (f g : A → option B) (l : list A) : (∀ x, x ∈ l → f x = g x) → omap f l = omap g l.
Proof. intros Hfg. apply list_omap_ext, Forall_Forall2_diag, Forall_forall. auto. Qed.

Lemma extractFields_eq bitmap offset : extractFieldsFromBitmap bitmap offset = bitmapFields bitmap offset 0.
Proof.
  unfold extractFieldsFromBitmap.
  match goal with |- ?g 0%nat bitmap = _ => set (go := g) end.
  assert (∀ l i, go i l = bitmapFields l offset i) as Hgo; [|apply Hgo].
  induction l as [|b l IH]; intros i; [done|].
  change (go i (b :: l)) with ((if b =? 0 then []
         else omap (λ bit : nat,
                if negb (Z.land b (Z.shiftr 128 (Z.of_nat bit)) =? 0)
                then Some (offset + Z.of_nat i * 8 + Z.of_nat bit + 1) else None) (seq 0 8)) ++ go (S i) l).
  simpl bitmapFields. rewrite IH. f_equal. destruct (Z.eqb_spec b 0) as [->|].
  - unfold byteFields. rewrite (omap_ext_in _ (λ _, None)); [done|]. intros x _. by rewrite Z.bits_0.
  - apply omap_ext_in. intros x [_ Hx]%elem_of_seq. by rewrite land_bit.
Qed.

Lemma elem_byteFields f b offset i :
  f ∈ byteFields b offset i ↔
  ∃ bit : nat, (bit < 8)%nat ∧ Z.testbit b (7 - Z.of_nat bit) = true ∧ f = offset + Z.of_nat i * 8 + Z.of_nat bit + 1.
Proof.
  unfold byteFields. rewrite list_elem_of_omap. split.
  - intros (bit&Hin%elem_of_seq&Hb). destruct (Z.testbit _ _) eqn:E; simplify_eq. exists bit. split; [lia|done].
  - intros (bit&Hb&Ht&->). exists bit. rewrite Ht. split; [apply elem_of_seq; lia|done].
Qed.

Lemma elem_bitmapFields f bitmap offset k :
  f ∈ bitmapFields bitmap offset k ↔
  ∃ (i bit : nat) b, bitmap !! i = Some b ∧ (bit < 8)%nat ∧ Z.testbit b (7 - Z.of_nat bit) = true ∧
    f = offset + Z.of_nat (k + i) * 8 + Z.of_nat bit + 1.
Proof.
  revert k. induction bitmap as [|b l IH]; intros k; simpl.
  { split; [by intros ?%elem_of_nil|]. intros (i&bit&b&Hi&_). by rewrite lookup_nil in Hi. }
  rewrite elem_of_app, elem_byteFields, IH. split.
  - intros [(bit&?&?&->)|(i&bit&b'&?&?&?&->)].
    + exists 0%nat, bit, b. split_and!; try done. lia.
    + exists (S i), bit, b'. split_and!; try done. lia.
  - intros ([|i]&bit&b'&Hi&?&?&->); simplify_eq/=.
    + left. exists bit. split_and!; try done. lia.
    + right. exists i, bit, b'. split_and!; try done. lia.
Qed.

Lemma sorted_app (l1 l2 : list Z) :
  StronglySorted Z.lt l1 → StronglySorted Z.lt l2 → (∀ x y, x ∈ l1 → y ∈ l2 → x < y) →
  StronglySorted Z.lt (l1 ++ l2).
Proof.
  induction 1 as [|a l1 _ IH Ha]; intros H2 Hlt; [done|]. simpl. constructor.
  - apply IH; [done|]. intros x y Hx Hy. apply Hlt; [by right|done].
  - apply Forall_app. split; [done|]. apply Forall_forall. intros y Hy. apply Hlt; [by left|done].
Qed.

Lemma byteFields_sorted b offset i : StronglySorted Z.lt (byteFields b offset i).
Proof.
  assert (∀ n s, StronglySorted Z.lt (omap (λ bit : nat, if Z.testbit b (7 - Z.of_nat bit)
    then Some (offset + Z.of_nat i * 8 + Z.of_nat bit + 1) else None) (seq s n))) as Hall; [|apply Hall].
  intros n. induction n as [|n IH]; intros s; [constructor|].
  simpl. destruct (Z.testbit b _); [|apply IH]. constructor; [apply IH|].
  apply Forall_forall. intros y (k&[Hk _]%elem_of_seq&Hy)%list_elem_of_omap.
  destruct (Z.testbit b _); simplify_eq. lia.
Qed.

Lemma bitmapFields_sorted bitmap offset k : StronglySorted Z.lt (bitmapFields bitmap offset k).
Proof.
  revert k. induction bitmap as [|b l IH]; intros k; simpl; [constructor|].
  apply sorted_app; [apply byteFields_sorted|apply IH|].
  intros x y (bit&?&_&->)%elem_byteFields (i&bit'&b'&_&_&_&->)%elem_bitmapFields. lia.
Qed.

Lemma fields_range bitmap offset f :
  f ∈ extractFieldsFromBitmap bitmap offset → offset < f ≤ offset + 8 * Z.of_nat (length bitmap).
Proof.
  rewrite extractFields_eq, elem_bitmapFields. intros (i&bit&b&Hi&?&_&->).
  apply lookup_lt_Some in Hi. lia.
Qed.

Lemma fields_sorted bitmap offset : StronglySorted Z.lt (extractFieldsFromBitmap bitmap offset).
Proof. rewrite extractFields_eq. apply bitmapFields_sorted. Qed.

Lemma length_decodeHexBitmap data encoding : length (decodeHexBitmap data encoding) = 8%nat.
Proof. unfold decodeHexBitmap. by case_match. Qed.

(** Appending the fields of a further bitmap keeps the list sorted and in range. *)
Lemma fields_extend fs bitmap offset :
  StronglySorted Z.lt fs → Forall (λ f, 1 ≤ f ≤ offset) fs → length bitmap = 8%nat → 0 ≤ offset →
  let fs' := fs ++ extractFieldsFromBitmap bitmap offset in
  StronglySorted Z.lt fs' ∧ Forall (λ f, 1 ≤ f ≤ offset + 64) fs'.
Proof.
  intros Hs Hr Hl Ho fs'. rewrite Forall_forall in Hr. split.
  - apply sorted_app; [done|apply fields_sorted|]. intros x y Hx%Hr Hy%fields_range. lia.
  - apply Forall_app. split; apply Forall_forall; [intros x Hx%Hr; lia|].
    intros y Hy%fields_range. rewrite Hl in Hy. lia.
Qed.

(** The result of reading [n] bitmaps of [w] bytes each. *)
Definition bitmaps_ok (w n : nat) (fs : list Z) (used : nat) : Prop :=
  used = (n * w)%nat ∧ (n ≤ 3)%nat ∧ StronglySorted Z.lt fs ∧ Forall (λ f, 1 ≤ f ≤ 64 * Z.of_nat n) fs.

Lemma first_bitmap bitmap :
  length bitmap = 8%nat →
  StronglySorted Z.lt (extractFieldsFromBitmap bitmap 0) ∧ Forall (λ f, 1 ≤ f ≤ 64) (extractFieldsFromBitmap bitmap 0).
Proof. intros Hl. apply (fields_extend [] bitmap 0); [constructor|constructor|done|lia]. Qed.

Lemma binary_ok data n fs used :
  (8 ≤ length data)%nat → extractBinaryBitmaps data = (n, fs, used) →
  bitmaps_ok 8 n fs used ∧ (1 ≤ n)%nat ∧ (used ≤ length data)%nat.
Proof.
  intros Hd. unfold extractBinaryBitmaps.
  destruct (first_bitmap (slice data 0 8)) as [Hs1 Hr1]; [by rewrite length_slice by lia|].
  destruct (negb _ && _) eqn:E1; [|intros; simplify_eq; unfold bitmaps_ok; split_and!; simpl; try done; lia].
  apply andb_true_iff in E1 as [_ ?%Nat.leb_le].
  destruct (fields_extend _ (slice data 8 16) 64 Hs1 Hr1) as [Hs2 Hr2]; [by rewrite length_slice by lia|lia|].
  destruct (negb _ && _) eqn:E2; [|intros; simplify_eq; unfold bitmaps_ok; split_and!; simpl; try done; lia].
  apply andb_true_iff in E2 as [_ ?%Nat.leb_le].
  destruct (fields_extend _ (slice data 16 24) 128 Hs2 Hr2) as [Hs3 Hr3]; [by rewrite length_slice by lia|lia|].
  intros; simplify_eq. unfold bitmaps_ok. split_and!; simpl; try done; lia.
Qed.

Lemma hex_ok data encoding n fs used :
  (16 ≤ length data)%nat → extractHexBitmaps data encoding = (n, fs, used) →
  bitmaps_ok 16 n fs used ∧ (1 ≤ n)%nat ∧ (used ≤ length data)%nat.
Proof.
  intros Hd. unfold extractHexBitmaps.
  destruct (first_bitmap (decodeHexBitmap (slice data 0 16) encoding)) as [Hs1 Hr1];
    [apply length_decodeHexBitmap|].
  destruct (match _ with [] => _ | _ => _ end && _) eqn:E1;
    [|intros; simplify_eq; unfold bitmaps_ok; split_and!; simpl; try done; lia].
  apply andb_true_iff in E1 as [_ ?%Nat.leb_le].
  destruct (fields_extend _ (decodeHexBitmap (slice data 16 32) encoding) 64 Hs1 Hr1) as [Hs2 Hr2];
    [apply length_decodeHexBitmap|lia|].
  destruct (existsb _ _ && _) eqn:E2;
    [|intros; simplify_eq; unfold bitmaps_ok; split_and!; simpl; try done; lia].
  apply andb_true_iff in E2 as [_ ?%Nat.leb_le].
  destruct (fields_extend _ (decodeHexBitmap (slice data 32 48) encoding) 128 Hs2 Hr2) as [Hs3 Hr3];
    [apply length_decodeHexBitmap|lia|].
  intros; simplify_eq. unfold bitmaps_ok. split_and!; simpl; try done; lia.
Qed.

(** ** Properties *)

(** a bitmap yields exactly its active fields. Field [offset + 8i + j + 1] is listed
    for bit [j] (from the most significant) of byte [i] and for no other reason, and
    the fields come out in strictly increasing order. *)
Theorem bitmap_fields_exact bitmap offset f :
  (f ∈ extractFieldsFromBitmap bitmap offset ↔
   ∃ (i j : nat) b, bitmap !! i = Some b ∧ (j < 8)%nat ∧ Z.testbit b (7 - Z.of_nat j) = true ∧
     f = offset + 8 * Z.of_nat i + Z.of_nat j + 1) ∧
  StronglySorted Z.lt (extractFieldsFromBitmap bitmap offset).
Proof.
  split; [|apply fields_sorted]. rewrite extractFields_eq, elem_bitmapFields.
  split; intros (i&j&b&?&?&?&->); exists i, j, b; (split_and!; try done); lia.
Qed.

(** reading the bitmaps of any byte sequence stays within it. At most three bitmaps
    are read, of 8 bytes each or of 16 hex characters each; the bytes consumed are in
    bounds; and the fields are strictly increasing numbers between 1 and 64 per
    bitmap. Data shorter than a bitmap consumes nothing. *)
Theorem bitmaps_in_bounds data encoding n fs used :
  extractBitmaps data encoding = (n, fs, used) →
  (used ≤ length data)%nat ∧ (n ≤ 3)%nat ∧ (used = n * 8 ∨ used = n * 16)%nat ∧
  StronglySorted Z.lt fs ∧ Forall (λ f, 1 ≤ f ≤ 64 * Z.of_nat n) fs ∧
  ((8 ≤ length data)%nat ↔ (1 ≤ n)%nat).
Proof.
  unfold extractBitmaps. destruct (Nat.ltb_spec (length data) 8).
  { intros; simplify_eq. split_and!; try constructor; try lia. }
  destruct (isHexBitmap data encoding) eqn:Eh; intros Hx.
  - unfold isHexBitmap in Eh. apply andb_true_iff in Eh as [?%Z.leb_le _].
    destruct (hex_ok data encoding n fs used) as ((->&?&?&?)&?&?); [lia|done|]. split_and!; try done; lia.
  - destruct (binary_ok data n fs used) as ((->&?&?&?)&?&?); [done|done|]. split_and!; try done; lia.
Qed.

Lemma nibble_lower n : 0 ≤ n < 16 → decodeHexNibble (byte_of (hexLower n)) "ascii" = n.
Proof.
  intros Hn. unfold decodeHexNibble, hexLower. rewrite decide_False by done.
  rewrite byte_of_char by (unfold byte_ok; destruct (Z.ltb_spec n 10); lia).
  destruct (Z.ltb_spec n 10).
  - rewrite (proj2 (Z.leb_le _ _)), (proj2 (Z.leb_le _ _)) by lia. simpl. lia.
  - rewrite (proj2 (Z.leb_gt _ 57)), andb_false_r by lia.
    rewrite (proj2 (Z.leb_gt _ 70)), andb_false_r by lia.
    rewrite (proj2 (Z.leb_le _ _)), (proj2 (Z.leb_le _ _)) by lia. simpl. lia.
Qed.

Lemma lor_nibbles x y : 0 ≤ x < 16 → 0 ≤ y < 16 → Z.lor (Z.shiftl x 4 mod 256) y = x * 16 + y.
Proof.
  intros Hx Hy. rewrite Z.mod_small; [by apply (lor_shiftl x y 4)|]. rewrite Z.shiftl_mul_pow2; lia.
Qed.

Lemma Encode_app a b : EncodeToString (a ++ b) = EncodeToString a +:+ EncodeToString b.
Proof. induction a as [|x a IH]; [done|]. simpl. by rewrite IH. Qed.

Lemma length_Encode b : String.length (EncodeToString b) = (2 * length b)%nat.
Proof. induction b as [|x b IH]; [done|]. simpl. rewrite IH. lia. Qed.

(** Characters [2i] and [2i+1] of an encoded byte sequence. *)
Lemma Encode_at b i x :
  b !! i = Some x →
  at_ (toBytes (EncodeToString b)) (i * 2) = byte_of (hexLower (x / 16)) ∧
  at_ (toBytes (EncodeToString b)) (i * 2 + 1) = byte_of (hexLower (x mod 16)).
Proof.
  revert i. induction b as [|y b IH]; intros [|i] Hi; simplify_eq/=; [done|].
  destruct (IH i Hi) as [H1 H2]. split; [exact H1|exact H2].
Qed.

(** a hexadecimal bitmap reads as the binary one. The 16 hex characters of an 8-byte
    bitmap decode to its bytes, hence list the same fields. *)
Theorem hex_bitmap_roundtrip bitmap offset :
  length bitmap = 8%nat → Forall byte_ok bitmap →
  let hexed := toBytes (EncodeToString bitmap) in
  decodeHexBitmap hexed "ascii" = bitmap ∧
  extractFieldsFromBitmap (decodeHexBitmap hexed "ascii") offset = extractFieldsFromBitmap bitmap offset.
Proof.
  intros Hl Hb hexed. assert (decodeHexBitmap hexed "ascii" = bitmap) as Heq; [|by rewrite Heq].
  unfold decodeHexBitmap, hexed. rewrite length_toBytes, length_Encode, Hl. simpl negb.
  apply list_eq. intros i. rewrite list_lookup_fmap. destruct (decide (i < 8)%nat) as [Hi|Hi].
  - rewrite lookup_seq_lt by done. simpl. destruct (lookup_lt_is_Some_2 bitmap i) as [x Hx]; [lia|]. rewrite Hx.
    destruct (Encode_at bitmap i x Hx) as [-> ->].
    destruct (nibbles x) as (?&?&?); [by eapply Forall_lookup_1|].
    rewrite !nibble_lower, lor_nibbles by done. by f_equal.
  - rewrite lookup_seq_ge by lia. rewrite lookup_ge_None_2 by lia. done.
Qed.

Lemma length_copyInto n data : length (copyInto n data) = n.
Proof. unfold copyInto. rewrite length_app, length_take, length_replicate. lia. Qed.

Lemma length_hexToBytesFixed s n : length (hexToBytesFixed s n) = n.
Proof.
  unfold hexToBytesFixed. cbv zeta. case_bool_decide; [apply length_replicate|].
  destruct (DecodeString _); [apply length_copyInto|apply length_replicate].
Qed.

(** a Visa header built for an outgoing message reads back. The header has 22 bytes;
    from a message that starts with it, [ExtractHeader] recovers the destination and
    source ids (as the three bytes they were encoded to), the header length 22, the
    standard format and, for messages below 64 KiB, the total length. *)
Theorem visa_header_roundtrip cfg src dst payload :
  Variant cfg = VariantVisa → 22 + Z.of_nat (length payload) < 65536 →
  let h := BuildHeader cfg src dst (Z.of_nat (length payload)) in
  let meta := ExtractHeader (h ++ payload) cfg in
  length h = 22%nat ∧
  meta !! "iso8583.visa.header_length"%string = Some "22"%string ∧
  meta !! "iso8583.visa.header_format"%string = Some "01"%string ∧
  meta !! "iso8583.visa.message_length"%string = Some (fmtInt (22 + Z.of_nat (length payload))) ∧
  meta !! "iso8583.dst_id"%string =
    Some (hexAll (hexToBytesFixed (if bool_decide (dst = ""%string) then VisaDstID cfg else dst) 3)) ∧
  meta !! "iso8583.src_id"%string =
    Some (hexAll (hexToBytesFixed (if bool_decide (src = ""%string) then VisaSrcID cfg else src) 3)) ∧
  meta !! "iso8583.visa.reject_code"%string = None.
Proof.
  intros Hv Hlen h meta. subst h meta. unfold BuildHeader. rewrite Hv, bool_decide_true by done.
  unfold buildVisaHeader.
  set (d := hexToBytesFixed (if bool_decide (dst = ""%string) then _ else _) 3).
  set (s := hexToBytesFixed (if bool_decide (src = ""%string) then _ else _) 3).
  assert (length d = 3%nat) as Hd by apply length_hexToBytesFixed.
  assert (length s = 3%nat) as Hs by apply length_hexToBytesFixed.
  destruct d as [|d1 [|d2 [|d3 [|]]]]; try done. destruct s as [|s1 [|s2 [|s3 [|]]]]; try done.
  unfold ExtractHeader. rewrite Hv, bool_decide_true by done.
  simpl app. set (hi := Z.shiftr _ 8 mod 256). set (lo := _ mod 256).
  assert (Z.lor (Z.shiftl hi 8) lo = 22 + Z.of_nat (length payload)) as Htot.
  { rewrite (lor_shiftl hi lo 8) by (done || apply Z.mod_pos_bound; lia). unfold hi, lo.
    rewrite Z.shiftr_div_pow2 by done. change (2 ^ 8) with 256.
    rewrite (Z.mod_small (_ / 256)); [|split; [apply Z.div_pos; lia|apply Z.div_lt_upper_bound; lia]].
    pose proof (Z.div_mod (22 + Z.of_nat (length payload)) 256). lia. }
  split; [done|]. rewrite (proj2 (Nat.leb_le _ _)) by (simpl; lia). cbn [andb at_ nth].
  rewrite Htot. simpl Z.leb. cbn [andb].
  split_and!; try reflexivity.
Qed.

(** a preserved header survives its trip through the metadata. The hex form the
    server stores (the [hex:] form of [SetMetadataBytes]) decodes to the original
    bytes. *)
Theorem raw_header_roundtrip b :
  Forall byte_ok b → decodeRawHeader ("hex:" +:+ EncodeToString b) = b.
Proof. intros Hb. unfold decodeRawHeader. by rewrite CutPrefix_app, Decode_Encode. Qed.

Lemma swap_five id d1 d2 s1 s2 rest :
  swapTPDU (id :: d1 :: d2 :: s1 :: s2 :: rest) tpduSize = id :: s1 :: s2 :: d1 :: d2 :: rest.
Proof. unfold swapTPDU. simpl. by rewrite (proj2 (Z.ltb_ge _ _)) by (unfold tpduSize; lia). Qed.

(** the TPDU swap exchanges the two addresses and nothing else, and swapping twice
    gives the header back. *)
Theorem tpdu_swap h n :
  swapTPDU (swapTPDU h n) n = h ∧ length (swapTPDU h n) = length h ∧
  ∀ id d1 d2 s1 s2 rest, h = id :: d1 :: d2 :: s1 :: s2 :: rest →
    swapTPDU h tpduSize = id :: s1 :: s2 :: d1 :: d2 :: rest.
Proof.
  split_and!.
  - destruct (Z.eqb_spec n tpduSize) as [->|Hn].
    + destruct h as [|a [|b [|c [|d [|e h]]]]]; try done. by rewrite !swap_five.
    + unfold swapTPDU. by rewrite (proj2 (Z.eqb_neq _ _) Hn).
  - unfold swapTPDU. destruct (_ || _) eqn:E; [done|].
    apply orb_false_iff in E as [_ E%Z.ltb_ge]. unfold tpduSize in E.
    rewrite !length_app, !length_slice, length_drop by lia. lia.
  - intros. subst. apply swap_five.
Qed.

(** ** Witnesses *)

Definition visaCfg : Config := mkConfig VariantVisa false 5 22 "123456" "654321".

Lemma bitmaps_in_bounds_witness :
  extractBitmaps [130; 0; 0; 0; 0; 0; 0; 1; 64; 0; 0; 0; 0; 0; 0; 0; 7] "bcd" = (2%nat, [1; 7; 64; 66], 16%nat) ∧
  Forall (λ f, 1 ≤ f ≤ 64 * Z.of_nat 2) [1; 7; 64; 66].
Proof.
  split; [reflexivity|].
  eapply (bitmaps_in_bounds [130; 0; 0; 0; 0; 0; 0; 1; 64; 0; 0; 0; 0; 0; 0; 0; 7] "bcd" 2 [1; 7; 64; 66] 16).
  reflexivity.
Defined.

Lemma hex_bitmap_roundtrip_witness :
  decodeHexBitmap (toBytes "7020000000000001") "ascii" = [112; 32; 0; 0; 0; 0; 0; 1].
Proof.
  apply (hex_bitmap_roundtrip [112; 32; 0; 0; 0; 0; 0; 1] 0); [reflexivity|].
  repeat constructor; lia.
Defined.

Lemma visa_header_roundtrip_witness :
  ExtractHeader (BuildHeader visaCfg "" "00AB12" 2 ++ [8; 0]) visaCfg !! "iso8583.dst_id"%string
    = Some "00AB12"%string.
Proof.
  destruct (visa_header_roundtrip visaCfg "" "00AB12" [8; 0]) as (_&_&_&_&Hd&_).
  - reflexivity.
  - simpl. lia.
  - exact Hd.
Defined.

Lemma raw_header_roundtrip_witness : decodeRawHeader "hex:6000ff" = [96; 0; 255].
Proof. apply (raw_header_roundtrip [96; 0; 255]). repeat constructor; lia. Defined.
