(* ===== verification/Splitter.v ===== *)
(** * pkg/gears/native/io_tcp/splitter.go: stream framing

    The [bufio.SplitFunc]s that cut a TCP stream into messages: length prefixed (2 or 4
    bytes, big endian) and delimited (prefix or suffix).  A split function sees the
    buffered data and returns how far to advance and possibly a token; [scan] is the
    loop of [bufio.Scanner] over a complete input. *)
From S2P Require Import Prelude Bytes.
Open Scope Z_scope.

Record Config := mkConfig {
  Framing : string; Delimiter : bytes; DelimiterPosition : string; DelimiterInclude : bool }.

Definition FramingLengthPrefix2 := "length_prefix2"%string.
Definition FramingLengthPrefix4 := "length_prefix4"%string.

(** The result of a split function: advance, token ([None] is nil), error. *)
Inductive splitErr := EIncompleteHeader | EInvalidLength (n : Z) | EIncompleteMessage.

Record splitResult := mkSplit { advance : nat; token : option bytes; err : option splitErr }.

(** [bytes.Index]: the first occurrence of [sep], for a non-empty [sep]. *)
Definition hasPrefix (data sep : bytes) : bool := bool_decide (take (length sep) data = sep).

Fixpoint index (data sep : bytes) : option nat :=
  if hasPrefix data sep then Some 0%nat
  else match data with
       | [] => None
       | _ :: rest => match index rest sep with Some i => Some (S i) | None => None end
       end.

Definition returnToken (chunk : bytes) (include : bool) (delimLen : nat) (isPrefix : bool) : bytes :=
  if include then chunk else
  if isPrefix then (if (delimLen <=? length chunk)%nat then drop delimLen chunk else chunk)
  else (if (delimLen <=? length chunk)%nat then take (length chunk - delimLen) chunk else chunk).

(** The big-endian length in the first [headerLen] bytes. *)
Definition readLength (headerLen : nat) (data : bytes) : Z :=
  if (headerLen =? 2)%nat then Z.lor (Z.shiftl (at_ data 0) 8) (at_ data 1)
  else Z.lor (Z.lor (Z.lor (Z.shiftl (at_ data 0) 24) (Z.shiftl (at_ data 1) 16)) (Z.shiftl (at_ data 2) 8))
             (at_ data 3).

Definition makeLengthPrefixSplitter (headerLen : nat) (data : bytes) (atEOF : bool) : splitResult :=
  if atEOF && bool_decide (data = []) then mkSplit 0 None None else
  if (length data <? headerLen)%nat then
    if atEOF then mkSplit (length data) None (Some EIncompleteHeader) else mkSplit 0 None None
  else
  let n := readLength headerLen data in
  if (n <? 0) || (1024 * 1024 <? n) then mkSplit 0 None (Some (EInvalidLength n)) else
  let totalLen := (headerLen + Z.to_nat n)%nat in
  if (length data <? totalLen)%nat then
    if atEOF then mkSplit (length data) None (Some EIncompleteMessage) else mkSplit 0 None None
  else mkSplit totalLen (Some (slice data headerLen totalLen)) None.

(** The delimiter split function for a non-empty delimiter. *)
Definition delimSplitter (cfg : Config) (data : bytes) (atEOF : bool) : splitResult :=
  let delim := Delimiter cfg in
  if atEOF && bool_decide (data = []) then mkSplit 0 None None else
  if bool_decide (DelimiterPosition cfg = "prefix"%string) then
    match index data delim with
    | None => if atEOF then mkSplit (length data) None None else mkSplit 0 None None
    | Some (S i) => mkSplit (S i) None None
    | Some O =>
        match index (drop (length delim) data) delim with
        | None =>
            if atEOF
            then mkSplit (length data) (Some (returnToken data (DelimiterInclude cfg) (length delim) true)) None
            else mkSplit 0 None None
        | Some nextIdx =>
            let totalLen := (length delim + nextIdx)%nat in
            mkSplit totalLen
              (Some (returnToken (take totalLen data) (DelimiterInclude cfg) (length delim) true)) None
        end
    end
  else
    match index data delim with
    | Some idx =>
        let totalLen := (idx + length delim)%nat in
        mkSplit totalLen
          (Some (returnToken (take totalLen data) (DelimiterInclude cfg) (length delim) false)) None
    | None => if atEOF then mkSplit (length data) (Some data) None else mkSplit 0 None None
    end.

(** [bufio.ScanLines]: lines without their end-of-line, a final carriage return
    dropped. *)
Definition dropCR (line : bytes) : bytes :=
  match last line with Some 13 => removelast line | _ => line end.

Definition ScanLines (data : bytes) (atEOF : bool) : splitResult :=
  if atEOF && bool_decide (data = []) then mkSplit 0 None None else
  match index data [10] with
  | Some i => mkSplit (i + 1) (Some (dropCR (take i data))) None
  | None => if atEOF then mkSplit (length data) (Some (dropCR data)) None else mkSplit 0 None None
  end.

Definition MakeSplitter (cfg : Config) : bytes → bool → splitResult :=
  if bool_decide (Framing cfg = FramingLengthPrefix2) then makeLengthPrefixSplitter 2
  else if bool_decide (Framing cfg = FramingLengthPrefix4) then makeLengthPrefixSplitter 4
  else if bool_decide (Delimiter cfg = []) then ScanLines
  else delimSplitter cfg.

(** ** The scanner over a whole input *)

(** The tokens of a complete input, and the error that stops it. Every split of a
    non-empty input here either advances or stops, so the fuel [length data + 1] is
    enough. *)
Fixpoint scanF (fuel : nat) (split : bytes → bool → splitResult) (data : bytes)
    : list bytes * option splitErr :=
  match fuel with
  | O => ([], None)
  | S fuel =>
      match data with
      | [] => ([], None)
      | _ =>
          let r := split data true in
          match err r with
          | Some e => ([], Some e)
          | None =>
              let '(ts, e) := scanF fuel split (drop (advance r) data) in
              (match token r with Some t => t :: ts | None => ts end, e)
          end
      end
  end.

Definition scan (split : bytes → bool → splitResult) (data : bytes) : list bytes * option splitErr :=
  scanF (length data + 1) split data.

(** ** server.go: frameOutbound *)

(** [None] is the error of a payload too large for the prefix. *)
Definition frameOutbound (framing : string) (payload : bytes) : option bytes :=
  let len := Z.of_nat (length payload) in
  if bool_decide (framing = FramingLengthPrefix2) then
    if 65535 <? len then None
    else let n := len mod 2 ^ 16 in Some ([Z.shiftr n 8 mod 256; Z.land n 255] ++ payload)
  else if bool_decide (framing = FramingLengthPrefix4) then
    let n := len mod 2 ^ 32 in
    Some ([Z.shiftr n 24 mod 256; Z.shiftr n 16 mod 256; Z.shiftr n 8 mod 256; Z.land n 255] ++ payload)
  else Some payload.

(** ** Lemmas *)

Definition headerSize (framing : string) : nat :=
  if bool_decide (framing = FramingLengthPrefix2) then 2 else 4.

(** The bytes [frameOutbound] puts before a payload of [n] bytes. *)
Definition lengthHeader (headerLen : nat) (n : Z) : bytes :=
  if (headerLen =? 2)%nat then [n / 256; n mod 256]
  else [n / 16777216; n / 65536 mod 256; n / 256 mod 256; n mod 256].

(** Length-prefix framing of a payload the splitter accepts. *)
Definition prefixed (framing : string) : Prop :=
  framing = FramingLengthPrefix2 ∨ framing = FramingLengthPrefix4.

Lemma frameOutbound_eq framing payload :
  prefixed framing → Z.of_nat (length payload) ≤ 1024 * 1024 →
  (framing = FramingLengthPrefix2 → Z.of_nat (length payload) < 65536) →
  frameOutbound framing payload =
    Some (lengthHeader (headerSize framing) (Z.of_nat (length payload)) ++ payload).
Proof.
  intros Hp Hmax H2. unfold frameOutbound, headerSize. set (n := Z.of_nat (length payload)) in *.
  assert (0 ≤ n) by lia. clearbody n.
  assert (Z.land n 255 = n mod 256) as Hand by (change 255 with (Z.ones 8); by rewrite Z.land_ones).
  destruct Hp as [-> | ->].
  - rewrite !bool_decide_true by done. specialize (H2 eq_refl). rewrite (proj2 (Z.ltb_ge _ _)) by lia.
    rewrite (Z.mod_small n (2 ^ 16)) by lia. rewrite Hand, Z.shiftr_div_pow2 by done. change (2 ^ 8) with 256.
    rewrite (Z.mod_small (n / 256)); [done|]. split; [apply Z.div_pos; lia|apply Z.div_lt_upper_bound; lia].
  - rewrite bool_decide_false, bool_decide_true by done. rewrite (Z.mod_small n (2 ^ 32)) by lia.
    rewrite Hand, !Z.shiftr_div_pow2 by done.
    change (2 ^ 24) with 16777216. change (2 ^ 16) with 65536. change (2 ^ 8) with 256.
    rewrite (Z.mod_small (n / 16777216)); [done|]. split; [apply Z.div_pos; lia|apply Z.div_lt_upper_bound; lia].
Qed.

Lemma length_header headerLen n : (headerLen = 2 ∨ headerLen = 4)%nat → length (lengthHeader headerLen n) = headerLen.
Proof. intros [-> | ->]; done. Qed.

Lemma header_cases framing : prefixed framing → (headerSize framing = 2 ∨ headerSize framing = 4)%nat.
Proof. intros [-> | ->]; [by left|by right]. Qed.

(** Reading the length back. *)
Lemma readLength_header headerLen n rest :
  (headerLen = 2 ∨ headerLen = 4)%nat → 0 ≤ n ≤ 1024 * 1024 → (headerLen = 2%nat → n < 65536) →
  readLength headerLen (lengthHeader headerLen n ++ rest) = n.
Proof.
  intros [-> | ->] Hn H2; unfold readLength, lengthHeader, at_; cbn [Nat.eqb app nth].
  - specialize (H2 eq_refl). pose proof (Z.mod_pos_bound n 256 ltac:(lia)).
    rewrite (lor_shiftl _ _ 8) by lia.
    pose proof (Z.div_mod n 256). change (2 ^ 8) with 256. lia.
  - set (a := n / 16777216). set (b := n / 65536 mod 256). set (c := n / 256 mod 256). set (d := n mod 256).
    assert (0 ≤ b < 256 ∧ 0 ≤ c < 256 ∧ 0 ≤ d < 256) as (Hb&Hc&Hd) by (split_and!; apply Z.mod_pos_bound; lia).
    replace (Z.shiftl a 24) with (Z.shiftl (Z.shiftl a 8) 16) by (by rewrite Z.shiftl_shiftl).
    rewrite <-Z.shiftl_lor, (lor_shiftl a b 8) by done.
    replace (Z.shiftl (a * 2 ^ 8 + b) 16) with (Z.shiftl (Z.shiftl (a * 2 ^ 8 + b) 8) 8) by (by rewrite Z.shiftl_shiftl).
    rewrite <-Z.shiftl_lor, (lor_shiftl _ c 8), (lor_shiftl _ d 8) by done.
    change (2 ^ 8) with 256. unfold a, b, c, d.
    replace (n / 16777216) with (n / 65536 / 256) by (by rewrite Z.div_div by lia).
    replace (n / 65536) with (n / 256 / 256) by (by rewrite Z.div_div by lia).
    pose proof (Z.div_mod n 256). pose proof (Z.div_mod (n / 256) 256). pose proof (Z.div_mod (n / 256 / 256) 256). lia.
Qed.

(** One framed message at the front of the data, at end of stream or not. *)
Lemma split_framed headerLen payload rest eof :
  (headerLen = 2 ∨ headerLen = 4)%nat → Z.of_nat (length payload) ≤ 1024 * 1024 →
  (headerLen = 2%nat → Z.of_nat (length payload) < 65536) →
  makeLengthPrefixSplitter headerLen (lengthHeader headerLen (Z.of_nat (length payload)) ++ payload ++ rest) eof =
  mkSplit (headerLen + length payload) (Some payload) None.
Proof.
  intros Hh Hmax H2. pose proof (length_header headerLen (Z.of_nat (length payload)) Hh) as Hl.
  unfold makeLengthPrefixSplitter. set (hd := lengthHeader _ _) in *.
  rewrite (bool_decide_false (_ = [])), andb_false_r by (intros Hnil; apply (f_equal length) in Hnil; rewrite length_app in Hnil; simpl in Hnil; lia).
  rewrite (proj2 (Nat.ltb_ge _ _)) by (rewrite length_app; lia).
  assert (readLength headerLen (hd ++ payload ++ rest) = Z.of_nat (length payload)) as ->
    by (apply readLength_header; [done|lia|done]).
  rewrite (proj2 (Z.ltb_ge _ _)), (proj2 (Z.ltb_ge _ _)) by lia. cbn [orb]. cbv zeta. rewrite Nat2Z.id.
  rewrite (proj2 (Nat.ltb_ge _ _)) by (rewrite !length_app; lia).
  f_equal. f_equal. rewrite <-Hl at 1 2. apply slice_app.
Qed.

(** A message that has not arrived in full: the splitter waits, and consumes nothing. *)
Lemma split_partial headerLen payload k :
  (headerLen = 2 ∨ headerLen = 4)%nat → Z.of_nat (length payload) ≤ 1024 * 1024 →
  (headerLen = 2%nat → Z.of_nat (length payload) < 65536) → (k < headerLen + length payload)%nat →
  makeLengthPrefixSplitter headerLen
    (take k (lengthHeader headerLen (Z.of_nat (length payload)) ++ payload)) false = mkSplit 0 None None.
Proof.
  intros Hh Hmax H2 Hk. pose proof (length_header headerLen (Z.of_nat (length payload)) Hh) as Hl.
  unfold makeLengthPrefixSplitter. set (hd := lengthHeader _ _) in *. cbn [andb].
  destruct (Nat.ltb_spec (length (take k (hd ++ payload))) headerLen) as [|Hge]; [done|].
  rewrite length_take, length_app in Hge.
  assert (take k (hd ++ payload) = hd ++ take (k - headerLen) payload) as ->.
  { rewrite take_app, Hl, take_ge by lia. done. }
  assert (readLength headerLen (hd ++ take (k - headerLen) payload) = Z.of_nat (length payload)) as ->
    by (apply readLength_header; [done|lia|done]).
  rewrite (proj2 (Z.ltb_ge _ _)), (proj2 (Z.ltb_ge _ _)) by lia. cbn [orb]. cbv zeta. rewrite Nat2Z.id.
  rewrite (proj2 (Nat.ltb_lt _ _)); [done|]. rewrite length_app, length_take. lia.
Qed.

(** A scan whose split function delivers each of a series of chunks. *)
Lemma scan_chunks split (chunks : list (bytes * bytes)) fuel :
  (∀ c t rest, (c, t) ∈ chunks → c ≠ [] ∧ split (c ++ rest) true = mkSplit (length c) (Some t) None) →
  (length chunks < fuel)%nat →
  scanF fuel split (concat (chunks.*1)) = (chunks.*2, None).
Proof.
  revert fuel. induction chunks as [|[c t] chunks IH]; intros fuel Hc Hf; (destruct fuel as [|fuel]; [simpl in Hf; lia|]).
  { done. }
  destruct (Hc c t (concat chunks.*1)) as [Hne Hs]; [by left|]. cbn [scanF fmap list_fmap concat fst snd].
  destruct c as [|b c]; [done|]. cbn [app]. change (b :: c ++ concat chunks.*1) with ((b :: c) ++ concat chunks.*1).
  cbv zeta. rewrite Hs. cbn [err advance token]. rewrite drop_app_length.
  rewrite IH; [done| |simpl in Hf; lia]. intros c' t' rest Hin. apply Hc. by right.
Qed.

Lemma concat_long (chunks : list bytes) : Forall (λ c, c ≠ []) chunks → (length chunks ≤ length (concat chunks))%nat.
Proof.
  induction 1 as [|c chunks Hc _ IH]; [done|]. simpl. rewrite length_app. destruct c; [done|]. simpl. lia.
Qed.

Lemma scan_deliver split (chunks : list (bytes * bytes)) :
  (∀ c t rest, (c, t) ∈ chunks → c ≠ [] ∧ split (c ++ rest) true = mkSplit (length c) (Some t) None) →
  scan split (concat (chunks.*1)) = (chunks.*2, None).
Proof.
  intros Hc. apply scan_chunks; [done|]. pose proof (concat_long chunks.*1) as Hl.
  rewrite length_fmap in Hl. assert (Forall (λ c, c ≠ []) chunks.*1) as Hne; [|specialize (Hl Hne); lia].
  apply Forall_fmap, Forall_forall. intros [c t] Hin. by apply (Hc c t []).
Qed.

(** ** Properties *)

(** The messages a length-prefix framing can carry. *)
Definition sendable (framing : string) (payload : bytes) : Prop :=
  Z.of_nat (length payload) ≤ 1024 * 1024 ∧
  (framing = FramingLengthPrefix2 → Z.of_nat (length payload) < 65536).

(** length-prefix framing is lossless. The stream [frameOutbound] produces for any
    sequence of messages within the limits is cut by the splitter of the same
    configuration into exactly those messages; and while only part of a message has
    arrived, however the network splits it, the splitter asks for more and consumes
    nothing. *)
Theorem length_prefix_roundtrip cfg (payloads : list bytes) :
  prefixed (Framing cfg) → Forall (sendable (Framing cfg)) payloads →
  ∃ chunks, mapM (frameOutbound (Framing cfg)) payloads = Some chunks ∧
    scan (MakeSplitter cfg) (concat chunks) = (payloads, None) ∧
    ∀ i chunk k, chunks !! i = Some chunk → (k < length chunk)%nat →
      MakeSplitter cfg (take k chunk) false = mkSplit 0 None None.
Proof.
  intros Hp Hs. set (hl := headerSize (Framing cfg)).
  pose proof (header_cases _ Hp) as Hh. fold hl in Hh.
  assert (MakeSplitter cfg = makeLengthPrefixSplitter hl) as Hm.
  { unfold MakeSplitter, hl, headerSize. destruct Hp as [-> | ->]; done. }
  assert (Hhl2 : hl = 2%nat → Framing cfg = FramingLengthPrefix2).
  { unfold hl, headerSize. case_bool_decide; [done|lia]. }
  set (fr := λ p : bytes, lengthHeader hl (Z.of_nat (length p)) ++ p).
  exists (fr <$> payloads). split_and!.
  - apply mapM_Some. apply Forall2_fmap_r, Forall_Forall2_diag. eapply Forall_impl; [exact Hs|].
    intros p [H1 H2]. by apply frameOutbound_eq.
  - rewrite Hm. pose proof (scan_deliver (makeLengthPrefixSplitter hl) ((λ p, (fr p, p)) <$> payloads)) as Hd.
    rewrite <-!list_fmap_compose in Hd. unfold compose in Hd. simpl in Hd. rewrite list_fmap_id in Hd. apply Hd.
    intros c t rest (p&[= -> ->]&Hin)%list_elem_of_fmap. rewrite Forall_forall in Hs.
    destruct (Hs p Hin) as [H1 H2]. unfold fr. pose proof (length_header hl (Z.of_nat (length p)) Hh) as Hl.
    split; [intros Hnil; apply (f_equal length) in Hnil; rewrite length_app in Hnil; simpl in Hnil; lia|].
    rewrite <-app_assoc, split_framed by auto. by rewrite length_app, Hl.
  - intros i chunk k Hi Hk. rewrite list_lookup_fmap in Hi. destruct (payloads !! i) as [p|] eqn:Ep; simplify_eq/=.
    rewrite Forall_lookup in Hs. destruct (Hs i p Ep) as [H1 H2]. rewrite Hm.
    unfold fr in *. apply split_partial; auto.
    rewrite length_app, (length_header hl (Z.of_nat (length p)) Hh) in Hk. done.
Qed.

(** ** Delimiters *)

Lemma hasPrefix_app data sep rest :
  (length sep ≤ length data)%nat → hasPrefix (data ++ rest) sep = hasPrefix data sep.
Proof. intros Hl. unfold hasPrefix. by rewrite take_app_le by done. Qed.

Lemma index_nil sep : sep ≠ [] → index [] sep = None.
Proof. intros Hs. destruct sep; [done|]. simpl. by unfold hasPrefix; simpl. Qed.

Lemma index_lt data sep i : index data sep = Some i → (i + length sep ≤ length data)%nat.
Proof.
  revert i. induction data as [|b data IH]; intros i; simpl; destruct (hasPrefix _ sep) eqn:Hp.
  - intros [= <-]. unfold hasPrefix in Hp. apply bool_decide_eq_true in Hp. apply (f_equal length) in Hp.
    rewrite length_take in Hp. simpl in *. lia.
  - done.
  - intros [= <-]. unfold hasPrefix in Hp. apply bool_decide_eq_true in Hp. apply (f_equal length) in Hp.
    rewrite length_take in Hp. simpl in *. lia.
  - destruct (index data sep) as [j|]; [|done]. intros [= <-]. specialize (IH j eq_refl). lia.
Qed.

(** The first occurrence does not change when more data follows. *)
Lemma index_app data sep i rest :
  index data sep = Some i → index (data ++ rest) sep = Some i.
Proof.
  revert i. induction data as [|b data IH]; intros i Hi; pose proof (index_lt _ _ _ Hi) as Hlt.
  - simpl in Hlt. destruct sep; [|simpl in Hlt; lia]. simpl in Hi. destruct rest; simpl in *; done.
  - change ((b :: data) ++ rest) with (b :: (data ++ rest)). simpl in Hi |- *.
    change (b :: data ++ rest) with ((b :: data) ++ rest). rewrite hasPrefix_app by (simpl in *; lia).
    destruct (hasPrefix (b :: data) sep); [done|].
    destruct (index data sep) as [j|]; [|done]. by rewrite (IH j eq_refl).
Qed.

(** A message delimiter framing can carry: within the message and the delimiter that ends
    it, the delimiter first occurs at the end. *)
Definition delimitable (delim m : bytes) : Prop := index (m ++ delim) delim = Some (length m).

(** suffix-delimited framing is lossless. A stream of messages, each followed by the
    delimiter and none containing it, is cut into exactly those messages (with the
    delimiter when it is to be included), and what has arrived of a message without
    its delimiter is kept until the delimiter comes. *)
Theorem suffix_delimiter_roundtrip cfg (payloads : list bytes) :
  ¬ prefixed (Framing cfg) → Delimiter cfg ≠ [] → DelimiterPosition cfg ≠ "prefix"%string →
  Forall (delimitable (Delimiter cfg)) payloads →
  scan (MakeSplitter cfg) (concat ((λ m, m ++ Delimiter cfg) <$> payloads)) =
    ((λ m, if DelimiterInclude cfg then m ++ Delimiter cfg else m) <$> payloads, None) ∧
  ∀ data, index data (Delimiter cfg) = None → MakeSplitter cfg data false = mkSplit 0 None None.
Proof.
  intros Hf Hd Hpos Hall. set (d := Delimiter cfg) in *.
  assert (MakeSplitter cfg = delimSplitter cfg) as Hm.
  { unfold MakeSplitter. rewrite !bool_decide_false; [done|done|intros E; apply Hf; by right|intros E; apply Hf; by left]. }
  rewrite Hm. split.
  - pose proof (scan_deliver (delimSplitter cfg)
      ((λ m, (m ++ d, if DelimiterInclude cfg then m ++ d else m)) <$> payloads)) as Hs.
    rewrite <-!list_fmap_compose in Hs. apply Hs. clear Hs.
    intros c t rest (m&[= -> ->]&Hin)%list_elem_of_fmap. rewrite Forall_forall in Hall. specialize (Hall m Hin).
    split; [intros [_ ?]%app_eq_nil; done|]. unfold delimSplitter. fold d.
    rewrite (bool_decide_false (_ = [])) by (intros [[_ ?]%app_eq_nil _]%app_eq_nil; done). cbn [andb].
    rewrite bool_decide_false by done. unfold delimitable in Hall. rewrite (index_app _ _ _ rest Hall).
    cbv zeta. rewrite <-length_app, take_app_length. f_equal. f_equal. unfold returnToken.
    destruct (DelimiterInclude cfg); [done|].
    rewrite (proj2 (Nat.leb_le _ _)) by (rewrite length_app; lia).
    rewrite length_app. replace (length m + length d - length d)%nat with (length m) by lia. by rewrite take_app_length.
  - intros data Hi. unfold delimSplitter. fold d. cbn [andb]. rewrite bool_decide_false by done. by rewrite Hi.
Qed.

(** ** Witnesses *)

Definition prefix2 : Config := mkConfig FramingLengthPrefix2 [] "" false.
Definition etx : Config := mkConfig "delimiter" [3] "" false.

Lemma length_prefix_roundtrip_witness :
  scan (MakeSplitter prefix2) [0; 2; 7; 8; 0; 0; 0; 1; 9] = ([[7; 8]; []; [9]], None).
Proof.
  destruct (length_prefix_roundtrip prefix2 [[7; 8]; []; [9]]) as (chunks&Hc&Hs&_).
  - by left.
  - repeat constructor; simpl; lia.
  - vm_compute in Hc. injection Hc as <-. exact Hs.
Defined.

Lemma suffix_delimiter_roundtrip_witness :
  scan (MakeSplitter etx) [7; 8; 3; 3; 9; 3] = ([[7; 8]; []; [9]], None).
Proof.
  apply (suffix_delimiter_roundtrip etx [[7; 8]; []; [9]]).
  - intros [E|E]; discriminate E.
  - done.
  - done.
  - repeat constructor.
Defined.
