(* ===== verification/WasmSection.v ===== *)
(** * pkg/wasm/catalog/section.go: custom sections of a Wasm binary

    [AppendCustomSection] and [ExtractCustomSection], with [encoding/binary]'s varints.
    Go's [int] is 64 bits and [int(size)] of a varint may be negative, so the offsets of
    the walk are written with their wrap-around; an index or slice out of range is a
    panic.  The loop carries a fuel; for a well-formed module the length of the binary
    is enough ([custom_section_roundtrip]), while a crafted size can make the Go loop
    run forever ([extract_can_loop]). *)
From S2P Require Import Prelude Bytes.
Open Scope Z_scope.

Definition wasmMagic : bytes := [0; 97; 115; 109; 1; 0; 0; 0].

(** ** encoding/binary *)

(** [binary.PutUvarint]; ten bytes hold any uint64. *)
Fixpoint putUvarintF (fuel : nat) (x : Z) : bytes :=
  match fuel with
  | O => []
  | S fuel => if x <? 128 then [x] else Z.lor (x mod 256) 128 :: putUvarintF fuel (Z.shiftr x 7)
  end.

Definition PutUvarint (x : Z) : bytes := putUvarintF 10 x.

(** [binary.Uvarint]: value and bytes read; 0 bytes means the buffer is too small, a
    negative count an overflow. *)
Fixpoint uvarintF (i : nat) (x s : Z) (buf : bytes) : Z * Z :=
  match buf with
  | [] => (0, 0)
  | b :: rest =>
      if (i =? 10)%nat then (0, - (Z.of_nat i + 1))
      else if b <? 128 then
        if (i =? 9)%nat && (1 <? b) then (0, - (Z.of_nat i + 1))
        else (Z.lor x (Z.shiftl b s mod 2 ^ 64), Z.of_nat i + 1)
      else uvarintF (S i) (Z.lor x (Z.shiftl (Z.land b 127) s mod 2 ^ 64)) (s + 7) rest
  end.

Definition Uvarint (buf : bytes) : Z * Z := uvarintF 0 0 0 buf.

(** ** section.go *)

Inductive appendRes := AOk (out : bytes) | AInvalid | APanic.

(** A varint that does not fit the five bytes of [MaxVarintLen32] panics. *)
Definition AppendCustomSection (wasm : bytes) (name : string) (payload : bytes) : appendRes :=
  if negb (8 <=? length wasm)%nat || negb (bool_decide (take 8 wasm = wasmMagic)) then AInvalid else
  let nameLen := PutUvarint (Z.of_nat (String.length name)) in
  if (5 <? length nameLen)%nat then APanic else
  let sectionPayload := nameLen ++ toBytes name ++ payload in
  let size := PutUvarint (Z.of_nat (length sectionPayload)) in
  if (5 <? length size)%nat then APanic else
  AOk (wasm ++ [0] ++ size ++ sectionPayload).

Inductive extractRes := XOk (custom stripped : bytes) | XInvalid | XNotFound | XPanic | XFuel.

Section extract.
Context (wasm : bytes) (target : string).
Let len := Z.of_nat (length wasm).

(** [wasm[from:to]] with Go's bounds checks. *)
Definition sliceZ (from to : Z) : option bytes :=
  if (from <? 0) || (to <? from) || (len <? to) then None
  else Some (slice wasm (Z.to_nat from) (Z.to_nat to)).

(** The custom section with payload in [payloadStart, offset): its data, when it has
    the target's name. *)
Definition customAt (payloadStart offset : Z) : option (option bytes) :=
  let '(nameLen, nn) := Uvarint (drop (Z.to_nat payloadStart) wasm) in
  if (0 <? nn) && (int64 (payloadStart + nn + int64 nameLen) <=? offset) then
    let nameStart := payloadStart + nn in
    let nameEnd := int64 (nameStart + int64 nameLen) in
    match sliceZ nameStart nameEnd with
    | None => None
    | Some name =>
        if bool_decide (toString name = target) then
          match sliceZ nameEnd offset with None => None | Some d => Some (Some d) end
        else Some None
    end
  else Some None.

Fixpoint extractLoop (fuel : nat) (offset : Z) : extractRes :=
  match fuel with
  | O => XFuel
  | S fuel =>
      if negb (offset <? len) then XNotFound else
      if offset <? 0 then XPanic else
      let sectionStart := offset in
      let id := at_ wasm (Z.to_nat offset) in
      let o1 := offset + 1 in
      let '(size, n) := Uvarint (drop (Z.to_nat o1) wasm) in
      if n <=? 0 then XInvalid else
      let o2 := o1 + n in
      let o3 := int64 (o2 + int64 size) in
      if len <? o3 then XInvalid else
      if id =? 0 then
        match customAt o2 o3 with
        | None => XPanic
        | Some None => extractLoop fuel o3
        | Some (Some customData) =>
            match sliceZ 0 sectionStart, sliceZ o3 len with
            | Some before, Some after => XOk customData (before ++ after)
            | _, _ => XPanic
            end
        end
      else extractLoop fuel o3
  end.
End extract.

Definition ExtractCustomSection (fuel : nat) (wasm : bytes) (target : string) : extractRes :=
  if negb (8 <=? length wasm)%nat || negb (bool_decide (take 8 wasm = wasmMagic)) then XInvalid
  else extractLoop wasm target fuel 8.

(** ** Varints read back *)

Lemma land_127 b : 0 ≤ b → Z.land b 127 = b mod 128.
Proof. intros. change 127 with (Z.ones 7). by rewrite Z.land_ones. Qed.

Lemma lor_128 x : 0 ≤ x → Z.lor (x mod 256) 128 = x mod 128 + 128.
Proof.
  intros Hx. apply Z.bits_inj'. intros i Hi. rewrite Z.lor_spec.
  replace (x mod 128 + 128) with (Z.lor (Z.shiftl 1 7) (x mod 128))
    by (rewrite (lor_shiftl 1 _ 7); [lia|lia|change (2 ^ 7) with 128; apply Z.mod_pos_bound; lia]).
  rewrite Z.lor_spec. change (Z.shiftl 1 7) with 128. rewrite orb_comm.
  change 256 with (2 ^ 8). change 128 with (2 ^ 7).
  destruct (Z.ltb_spec i 7).
  - rewrite !Z.mod_pow2_bits_low by lia. done.
  - rewrite (Z.mod_pow2_bits_high x 7 i) by lia. rewrite orb_false_r.
    destruct (Z.eqb_spec i 7) as [->|].
    + by rewrite Z.pow2_bits_true.
    + rewrite Z.mod_pow2_bits_high by lia. by rewrite orb_false_r.
Qed.

(** The number of bytes of a varint, and that it reads back from any position. *)
Lemma uvarint_put fuel v i x rest :
  0 ≤ v < 2 ^ (7 * Z.of_nat fuel) → (i + fuel ≤ 9)%nat → (1 ≤ fuel)%nat →
  0 ≤ x < 2 ^ (7 * Z.of_nat i) →
  uvarintF i x (7 * Z.of_nat i) (putUvarintF fuel v ++ rest) =
    (x + v * 2 ^ (7 * Z.of_nat i), Z.of_nat i + Z.of_nat (length (putUvarintF fuel v))) ∧
  (1 ≤ length (putUvarintF fuel v) ≤ fuel)%nat.
Proof.
  revert v i x. induction fuel as [|fuel IH]; intros v i x Hv Hi Hf Hx; [lia|].
  assert (∀ y, 0 ≤ y < 128 → Z.lor x (Z.shiftl y (7 * Z.of_nat i) mod 2 ^ 64) = x + y * 2 ^ (7 * Z.of_nat i)) as Hlor.
  { intros y Hy. rewrite Z.mod_small.
    - rewrite Z.lor_comm, lor_shiftl by lia. lia.
    - rewrite Z.shiftl_mul_pow2 by lia. split; [nia|].
      assert (2 ^ (7 * Z.of_nat i) * 2 ^ 7 ≤ 2 ^ 64); [|nia].
      rewrite <-Z.pow_add_r by lia. apply Z.pow_le_mono_r; lia. }
  cbn [putUvarintF]. destruct (Z.ltb_spec v 128) as [Hlt|Hge].
  - cbn [app uvarintF length]. rewrite (proj2 (Nat.eqb_neq i 10)), (proj2 (Nat.eqb_neq i 9)) by lia.
    rewrite (proj2 (Z.ltb_lt v 128)) by done. cbn [andb]. rewrite Hlor by lia. split; [f_equal; lia|lia].
  - destruct fuel as [|fuel]; [change (2 ^ (7 * Z.of_nat 1)) with 128 in Hv; lia|].
    cbn [app uvarintF length]. rewrite (proj2 (Nat.eqb_neq i 10)) by lia. rewrite lor_128 by lia.
    pose proof (Z.mod_pos_bound v 128 ltac:(lia)) as Hm.
    rewrite (proj2 (Z.ltb_ge _ 128)) by lia. rewrite land_127 by lia.
    replace ((v mod 128 + 128) mod 128) with (v mod 128).
    2:{ rewrite Z.add_mod, Z.mod_same, Z.add_0_r, !Z.mod_mod by lia. done. }
    rewrite Hlor by lia. replace (7 * Z.of_nat i + 7) with (7 * Z.of_nat (S i)) by lia.
    rewrite Z.shiftr_div_pow2 by lia. change (2 ^ 7) with 128.
    assert (2 ^ (7 * Z.of_nat (S i)) = 128 * 2 ^ (7 * Z.of_nat i)) as Hpow.
    { replace (7 * Z.of_nat (S i)) with (7 + 7 * Z.of_nat i) by lia. rewrite Z.pow_add_r by lia. done. }
    pose proof (Z.div_mod v 128 ltac:(lia)) as Hdm.
    destruct (IH (v / 128) (S i) (x + v mod 128 * 2 ^ (7 * Z.of_nat i))) as [Hu Hl]; [|lia|lia|nia|].
    { split; [apply Z.div_pos; lia|]. apply Z.div_lt_upper_bound; [lia|].
      replace (7 * Z.of_nat (S (S fuel))) with (7 + 7 * Z.of_nat (S fuel)) in Hv by lia.
      rewrite Z.pow_add_r in Hv by lia. change (2 ^ 7) with 128 in Hv. lia. }
    rewrite Hu, Hpow. split; [f_equal; [|lia]|lia].
    replace (v * 2 ^ (7 * Z.of_nat i)) with ((128 * (v / 128) + v mod 128) * 2 ^ (7 * Z.of_nat i)) by (by rewrite <-Hdm).
    nia.
Qed.

Lemma put_fuel f g v :
  (1 ≤ f ≤ g)%nat → 0 ≤ v < 2 ^ (7 * Z.of_nat f) → putUvarintF g v = putUvarintF f v.
Proof.
  revert g v. induction f as [|f IH]; intros g v Hfg Hv; [lia|]. destruct g as [|g]; [lia|].
  cbn [putUvarintF]. destruct (Z.ltb_spec v 128) as [|Hge]; [done|].
  destruct f as [|f]; [change (2 ^ (7 * Z.of_nat 1)) with 128 in Hv; lia|]. f_equal.
  apply IH; [lia|]. rewrite Z.shiftr_div_pow2 by lia. change (2 ^ 7) with 128.
  split; [apply Z.div_pos; lia|]. apply Z.div_lt_upper_bound; [lia|].
  replace (7 * Z.of_nat (S (S f))) with (7 + 7 * Z.of_nat (S f)) in Hv by lia.
  rewrite Z.pow_add_r in Hv by lia. change (2 ^ 7) with 128 in Hv. lia.
Qed.

Lemma Uvarint_Put v rest :
  0 ≤ v < 2 ^ 35 →
  Uvarint (PutUvarint v ++ rest) = (v, Z.of_nat (length (PutUvarint v))) ∧ (1 ≤ length (PutUvarint v) ≤ 5)%nat.
Proof.
  intros Hv. unfold Uvarint, PutUvarint. rewrite (put_fuel 5 10 v) by (lia || done).
  destruct (uvarint_put 5 v 0 0 rest) as [Hu Hl]; [done|lia|lia|done|]. split; [|lia].
  change (7 * Z.of_nat 0) with 0 in Hu. rewrite Hu. f_equal. lia.
Qed.

(** ** Well-formed modules *)

Inductive section := SCustom (name : string) (data : bytes) | SPlain (id : Z) (body : bytes).

Definition body (s : section) : bytes :=
  match s with
  | SCustom name data => PutUvarint (Z.of_nat (String.length name)) ++ toBytes name ++ data
  | SPlain _ b => b
  end.

Definition sectionId (s : section) : Z := match s with SCustom _ _ => 0 | SPlain id _ => id end.

Definition encode (s : section) : bytes :=
  sectionId s :: PutUvarint (Z.of_nat (length (body s))) ++ body s.

Definition module (ss : list section) : bytes := wasmMagic ++ concat (encode <$> ss).

Definition section_ok (s : section) : Prop :=
  Z.of_nat (length (body s)) < 2 ^ 31 ∧ match s with SPlain id _ => id ≠ 0 | SCustom _ _ => True end.

(** The section [ExtractCustomSection] looks for. *)
Definition named (target : string) (s : section) : bool :=
  match s with SCustom name _ => bool_decide (name = target) | SPlain _ _ => false end.

Lemma sliceZ_mid (a b c : bytes) :
  sliceZ (a ++ b ++ c) (Z.of_nat (length a)) (Z.of_nat (length a + length b)) = Some b.
Proof.
  unfold sliceZ. rewrite !length_app.
  rewrite (proj2 (Z.ltb_ge _ _)), (proj2 (Z.ltb_ge _ _)), (proj2 (Z.ltb_ge _ _)) by lia. cbn [orb].
  by rewrite !Nat2Z.id, slice_app.
Qed.

Section walk.
Context (pre post : bytes) (s : section) (target : string).
Context (Hs : section_ok s) (Hlen : Z.of_nat (length (pre ++ encode s ++ post)) < 2 ^ 62).
Let wasm := pre ++ encode s ++ post.
Let start := Z.of_nat (length pre).
Let stop := Z.of_nat (length pre + length (encode s)).
Let o2 := start + 1 + Z.of_nat (length (PutUvarint (Z.of_nat (length (body s))))).

Lemma stop_eq : stop = o2 + Z.of_nat (length (body s)).
Proof. unfold stop, o2, start, encode. simpl. rewrite length_app. lia. Qed.

(** The name of a custom section. *)
Lemma customAt_spec name data :
  s = SCustom name data →
  customAt wasm target o2 stop = Some (if bool_decide (name = target) then Some data else None).
Proof.
  intros Es. pose proof stop_eq as Hstop. destruct Hs as [Hb _].
  set (ln := Z.of_nat (String.length name)). set (pn := PutUvarint ln).
  set (sz := PutUvarint (Z.of_nat (length (body s)))) in *.
  assert (Hbody : body s = pn ++ toBytes name ++ data) by (by rewrite Es).
  assert (0 ≤ ln < 2 ^ 35) as Hln.
  { rewrite Hbody, !length_app, length_toBytes in Hb. unfold ln. lia. }
  assert (Hw : wasm = (pre ++ sectionId s :: sz) ++ body s ++ post).
  { unfold wasm, encode. fold sz. by rewrite <-!app_assoc, <-!app_comm_cons, <-app_assoc. }
  assert (Ho2 : o2 = Z.of_nat (length (pre ++ sectionId s :: sz))) by (rewrite length_app; simpl; unfold o2, start; fold sz; lia).
  assert (Hdr : drop (Z.to_nat o2) wasm = pn ++ toBytes name ++ data ++ post).
  { by rewrite Ho2, Nat2Z.id, Hw, drop_app_length, Hbody, <-!app_assoc. }
  unfold customAt. rewrite Hdr.
  destruct (Uvarint_Put ln (toBytes name ++ data ++ post) Hln) as [Hu Hl]. fold pn in Hu, Hl. rewrite Hu.
  assert (Hlb : length (body s) = (length pn + String.length name + length data)%nat)
    by (rewrite Hbody, !length_app, length_toBytes; lia).
  assert (Z.of_nat (length pre) + Z.of_nat (length (body s)) < 2 ^ 62 ∧ 0 ≤ o2 ∧ stop < 2 ^ 62) as (?&?&?).
  { unfold encode in Hlen. rewrite length_app in Hlen. simpl in Hlen. rewrite !length_app in Hlen. fold sz in Hlen.
    unfold stop, encode, o2, start. simpl. rewrite length_app. fold sz. lia. }
  rewrite (int64_id ln) by (unfold ln; lia). rewrite int64_id by (unfold ln; lia).
  rewrite (proj2 (Z.ltb_lt _ _)), (proj2 (Z.leb_le _ _)) by (unfold ln; lia). cbn [andb]. cbv zeta.
  assert (Hw2 : wasm = (pre ++ sectionId s :: sz ++ pn) ++ toBytes name ++ data ++ post).
  { rewrite Hw, Hbody. by rewrite <-!app_assoc, <-!app_comm_cons, <-!app_assoc. }
  assert (Hns : o2 + Z.of_nat (length pn) = Z.of_nat (length (pre ++ sectionId s :: sz ++ pn))).
  { rewrite !length_app. simpl. rewrite length_app. unfold o2, start. fold sz. lia. }
  rewrite Hns. replace (Z.of_nat (length (pre ++ sectionId s :: sz ++ pn)) + ln) with
    (Z.of_nat (length (pre ++ sectionId s :: sz ++ pn) + length (toBytes name)))
    by (rewrite length_toBytes; unfold ln; lia).
  rewrite Hw2 at 1. rewrite sliceZ_mid, toString_toBytes. case_bool_decide; [|done].
  assert (Hw3 : wasm = ((pre ++ sectionId s :: sz ++ pn) ++ toBytes name) ++ data ++ post) by (by rewrite Hw2, <-!app_assoc).
  rewrite Hw3, <-length_app.
  replace stop with (Z.of_nat (length ((pre ++ sectionId s :: sz ++ pn) ++ toBytes name) + length data)).
  - by rewrite sliceZ_mid.
  - rewrite Hstop, length_app, length_toBytes. rewrite Nat2Z.inj_add, Nat2Z.inj_add, <-Hns. unfold ln in *. lia.
Qed.

(** One turn of the loop, at the start of the section. *)
Lemma extract_section fuel :
  extractLoop wasm target (S fuel) start =
  if named target s
  then XOk (match s with SCustom _ data => data | SPlain _ b => b end) (pre ++ post)
  else extractLoop wasm target fuel stop.
Proof.
  pose proof stop_eq as Hstop. pose proof Hs as [Hb Hid].
  set (sz := PutUvarint (Z.of_nat (length (body s)))) in *.
  assert (Hw : wasm = (pre ++ [sectionId s]) ++ sz ++ body s ++ post).
  { unfold wasm, encode. fold sz. rewrite <-app_assoc. cbn [app]. by rewrite <-app_assoc. }
  assert (Hlw : Z.of_nat (length wasm) = stop + Z.of_nat (length post)).
  { unfold wasm, stop. rewrite !length_app. lia. }
  assert (0 ≤ start ∧ stop < 2 ^ 62 ∧ start < stop) as (?&?&?).
  { fold wasm in Hlen. rewrite Hlw in Hlen. unfold stop, start in *. unfold encode in *. simpl in *. lia. }
  cbn [extractLoop]. rewrite (proj2 (Z.ltb_lt start _)) by (rewrite Hlw; lia). cbn [negb].
  rewrite (proj2 (Z.ltb_ge start 0)) by lia. cbv zeta.
  assert (Hat : at_ wasm (Z.to_nat start) = sectionId s).
  { unfold at_, wasm, encode, start. rewrite Nat2Z.id, app_nth2, Nat.sub_diag by lia. done. }
  assert (Hdr : drop (Z.to_nat (start + 1)) wasm = sz ++ body s ++ post).
  { replace (Z.to_nat (start + 1)) with (length (pre ++ [sectionId s]))
      by (rewrite length_app; simpl; unfold start; lia). by rewrite Hw, drop_app_length. }
  rewrite Hat, Hdr.
  destruct (Uvarint_Put (Z.of_nat (length (body s))) (body s ++ post)) as [Hu Hl]; [lia|]. fold sz in Hu, Hl. rewrite Hu.
  rewrite (proj2 (Z.leb_gt _ 0)) by lia. fold o2.
  replace (start + 1 + Z.of_nat (length sz)) with o2 by (unfold o2; fold sz; lia).
  rewrite (int64_id (Z.of_nat (length (body s)))) by lia. rewrite int64_id by (rewrite <-Hstop; lia).
  rewrite <-Hstop. rewrite (proj2 (Z.ltb_ge _ stop)) by (rewrite Hlw; lia).
  assert ((∃ name data, s = SCustom name data) ∨ ∃ id b, s = SPlain id b) as [(name&data&Es)|(id&b&Es)]
    by (destruct s; eauto).
  - assert (sectionId s = 0 ∧ named target s = bool_decide (name = target) ∧
      match s with SCustom _ data => data | SPlain _ b => b end = data) as (->&->&->) by (by rewrite Es).
    rewrite Z.eqb_refl, (customAt_spec name data Es). case_bool_decide; [|done].
    assert (sliceZ wasm 0 start = Some pre) as -> by exact (sliceZ_mid [] pre (encode s ++ post)).
    assert (sliceZ wasm stop (Z.of_nat (length wasm)) = Some post) as ->; [|done].
    replace stop with (Z.of_nat (length (pre ++ encode s))) by (rewrite length_app; done).
    replace (Z.of_nat (length wasm)) with (Z.of_nat (length (pre ++ encode s) + length post))
      by (unfold wasm; rewrite !length_app; lia).
    replace wasm with ((pre ++ encode s) ++ post ++ []) by (unfold wasm; by rewrite app_nil_r, app_assoc).
    apply sliceZ_mid.
  - assert (sectionId s = id ∧ named target s = false ∧ id ≠ 0) as (->&->&Hn)
      by (rewrite Es in Hid |- *; done). by rewrite (proj2 (Z.eqb_neq id 0)).
Qed.
End walk.

Lemma extract_walk ss1 name data ss2 pre fuel :
  let wasm := pre ++ concat (encode <$> ss1) ++ encode (SCustom name data) ++ concat (encode <$> ss2) in
  Z.of_nat (length wasm) < 2 ^ 62 → Forall section_ok ss1 → section_ok (SCustom name data) →
  Forall (λ s, named name s = false) ss1 → (length ss1 < fuel)%nat →
  extractLoop wasm name fuel (Z.of_nat (length pre)) =
    XOk data (pre ++ concat (encode <$> ss1) ++ concat (encode <$> ss2)).
Proof.
  revert pre fuel. induction ss1 as [|s ss1 IH]; intros pre fuel wasm Hl Hok Hc Hn Hf;
    (destruct fuel as [|fuel]; [simpl in Hf; lia|]).
  - unfold wasm in *. cbn [fmap list_fmap concat app] in *. rewrite extract_section by done.
    cbn [named]. by rewrite bool_decide_true.
  - inversion Hok as [|? ? Hs Hok']; inversion Hn as [|? ? Hns Hn']; subst.
    assert (wasm = pre ++ encode s ++ (concat (encode <$> ss1) ++ encode (SCustom name data) ++ concat (encode <$> ss2))) as Hw.
    { unfold wasm. cbn [fmap list_fmap concat]. by rewrite <-!app_assoc. }
    rewrite Hw in Hl |- *. rewrite extract_section, Hns by done.
    rewrite app_assoc in Hl |- *. rewrite <-length_app. rewrite (IH (pre ++ encode s)); try done; [|simpl in Hf; lia]. f_equal. cbn [fmap list_fmap concat]. by rewrite <-!app_assoc.
Qed.

(** ** Properties *)

(** a custom section added to a module is found again, and removing it gives the
    module back. For any well-formed module and a section name not in it,
    [AppendCustomSection] yields the module with the section at its end, and
    [ExtractCustomSection] on that returns exactly the payload and the original
    binary; more generally it finds the first section of the name wherever it stands
    and strips that section only. *)
Theorem custom_section_roundtrip ss name payload :
  Forall section_ok ss → section_ok (SCustom name payload) → Forall (λ s, named name s = false) ss →
  Z.of_nat (length (module (ss ++ [SCustom name payload]))) < 2 ^ 62 →
  AppendCustomSection (module ss) name payload = AOk (module (ss ++ [SCustom name payload])) ∧
  (let out := module (ss ++ [SCustom name payload]) in
   ExtractCustomSection (length out) out name = XOk payload (module ss)) ∧
  ∀ ss2, let out := module (ss ++ SCustom name payload :: ss2) in
    Z.of_nat (length out) < 2 ^ 62 →
    ExtractCustomSection (length out) out name = XOk payload (module (ss ++ ss2)).
Proof.
  intros Hok Hc Hn Hl.
  assert (Hgen : ∀ ss2, let out := module (ss ++ SCustom name payload :: ss2) in
    Z.of_nat (length out) < 2 ^ 62 → ExtractCustomSection (length out) out name = XOk payload (module (ss ++ ss2))).
  { intros ss2 out Hlo. unfold ExtractCustomSection.
    rewrite (proj2 (Nat.leb_le 8 _)) by (unfold out, module; simpl; lia).
    rewrite bool_decide_true by done. cbn [negb orb].
    assert (out = wasmMagic ++ concat (encode <$> ss) ++ encode (SCustom name payload) ++ concat (encode <$> ss2)) as Ho.
    { unfold out, module. by rewrite fmap_app, fmap_cons, concat_app. }
    assert (length ss < length out)%nat as Hf.
    { rewrite Ho, !length_app. assert (length ss ≤ length (concat (encode <$> ss)))%nat; [|simpl; lia].
      clear. induction ss as [|s ss IH]; [done|]. cbn [fmap list_fmap concat]. rewrite length_app. simpl. lia. }
    rewrite Ho in *. change 8 with (Z.of_nat (length wasmMagic)). rewrite extract_walk by done.
    unfold module. by rewrite fmap_app, concat_app. }
  split_and!; [|pose proof (Hgen [] Hl) as Hx; by rewrite app_nil_r in Hx|exact Hgen].
  unfold AppendCustomSection. rewrite (proj2 (Nat.leb_le 8 _)) by (unfold module; simpl; lia).
  rewrite bool_decide_true by done. cbn [negb orb]. destruct Hc as [Hb _]. cbn [body] in Hb.
  destruct (Uvarint_Put (Z.of_nat (String.length name)) []) as [_ Hl1].
  { rewrite !length_app, length_toBytes in Hb. lia. }
  rewrite (proj2 (Nat.ltb_ge 5 _)) by lia. cbv zeta.
  destruct (Uvarint_Put (Z.of_nat (length (body (SCustom name payload)))) []) as [_ Hl2]; [cbn [body]; lia|].
  cbn [body] in Hl2. rewrite (proj2 (Nat.ltb_ge 5 _)) by lia. f_equal. unfold module.
  rewrite fmap_app, concat_app. cbn [fmap list_fmap concat]. rewrite app_nil_r, <-app_assoc. done.
Qed.

(** A crafted section size makes the walk step back to its own start: the loop of
    [ExtractCustomSection] never ends. *)
Definition crafted : bytes := wasmMagic ++ [1] ++ PutUvarint (2 ^ 64 - 11).

Lemma extract_can_loop fuel name : ExtractCustomSection fuel crafted name = XFuel.
Proof.
  unfold ExtractCustomSection. assert (∀ fuel, extractLoop crafted name fuel 8 = XFuel) as Hloop; [|apply Hloop].
  clear. induction fuel as [|fuel IH]; [done|].
  assert (extractLoop crafted name (S fuel) 8 = extractLoop crafted name fuel 8) as ->; [|done].
  cbn [extractLoop]. reflexivity.
Qed.

(** ** Witness *)

Definition mod1 : list section := [SPlain 1 [96; 0; 0]; SCustom "name" [1; 2]].

Lemma custom_section_roundtrip_witness :
  AppendCustomSection (module mod1) "fluxrig" [7; 7; 7] = AOk (module (mod1 ++ [SCustom "fluxrig" [7; 7; 7]])) ∧
  ExtractCustomSection 40 (module (mod1 ++ [SCustom "fluxrig" [7; 7; 7]])) "fluxrig" = XOk [7; 7; 7] (module mod1).
Proof.
  destruct (custom_section_roundtrip mod1 "fluxrig" [7; 7; 7]) as (Ha&Hx&_).
  - repeat constructor; simpl; lia.
  - split; [simpl; lia|done].
  - repeat constructor.
  - simpl. lia.
  - split; [exact Ha|exact Hx].
Defined.
