(* ===== verification/Amount.v ===== *)
(** * pkg/translation/amount.go: amounts between ISO 8583 and ISO 20022

    Minor units to decimal amounts and back.  Strings are byte sequences here.
    [strings.TrimSpace] and [strings.ToUpper] are written out on UTF-8 bytes:
    [spaces] lists the encodings of Unicode white space, and [ToUpper] maps ASCII
    letters and the two other runes whose upper case is an ASCII letter (a rune with any
    other upper case stays outside ASCII, so outside every currency code). *)
From S2P Require Import Prelude Bytes.
Open Scope Z_scope.

Record currency := mkCur { alpha : bytes; numeric : bytes; exponent : nat }.

Definition cur (a n : string) (e : nat) : currency := mkCur (toBytes a) (toBytes n) e.

Definition currencies : list currency :=
  [cur "ARS" "032" 2; cur "AUD" "036" 2; cur "BHD" "048" 3; cur "BRL" "986" 2;
   cur "CAD" "124" 2; cur "CHF" "756" 2; cur "CLP" "152" 0; cur "CNY" "156" 2;
   cur "COP" "170" 2; cur "CZK" "203" 2; cur "DKK" "208" 2; cur "EUR" "978" 2;
   cur "GBP" "826" 2; cur "HKD" "344" 2; cur "INR" "356" 2; cur "JOD" "400" 3;
   cur "JPY" "392" 0; cur "KRW" "410" 0; cur "KWD" "414" 3; cur "MXN" "484" 2;
   cur "NOK" "578" 2; cur "NZD" "554" 2; cur "OMR" "512" 3; cur "PEN" "604" 2;
   cur "PLN" "985" 2; cur "PYG" "600" 0; cur "SEK" "752" 2; cur "SGD" "702" 2;
   cur "TND" "788" 3; cur "USD" "840" 2; cur "UYU" "858" 2; cur "ZAR" "710" 2].

(** ** What the code uses of [strings] *)

(** The UTF-8 encodings of [unicode.IsSpace]. *)
Definition spaces : list bytes :=
  [[9]; [10]; [11]; [12]; [13]; [32]; [194; 133]; [194; 160]; [225; 154; 128];
   [226; 128; 128]; [226; 128; 129]; [226; 128; 130]; [226; 128; 131]; [226; 128; 132]; [226; 128; 133];
   [226; 128; 134]; [226; 128; 135]; [226; 128; 136]; [226; 128; 137]; [226; 128; 138];
   [226; 128; 168]; [226; 128; 169]; [226; 128; 175]; [226; 129; 159]; [227; 128; 128]].

(** The length of the white space the data starts with. *)
Definition spaceAt (data : bytes) : option nat :=
  length <$> (snd <$> list_find (λ sp : bytes, take (length sp) data = sp) spaces).

Definition spaceEnd (data : bytes) : option nat :=
  length <$> (snd <$> list_find (λ sp : bytes, drop (length data - length sp) data = sp) spaces).

Fixpoint trimLeftF (fuel : nat) (data : bytes) : bytes :=
  match fuel with
  | O => data
  | S fuel => match spaceAt data with Some n => trimLeftF fuel (drop n data) | None => data end
  end.

Fixpoint trimRightF (fuel : nat) (data : bytes) : bytes :=
  match fuel with
  | O => data
  | S fuel => match spaceEnd data with Some n => trimRightF fuel (take (length data - n) data) | None => data end
  end.

Definition TrimSpace (data : bytes) : bytes :=
  let l := trimLeftF (length data) data in trimRightF (length l) l.

Fixpoint ToUpper (data : bytes) : bytes :=
  match data with
  | [] => []
  | 196 :: 177 :: rest => 73 :: ToUpper rest
  | 197 :: 191 :: rest => 83 :: ToUpper rest
  | b :: rest => (if (97 <=? b) && (b <=? 122) then b - 32 else b) :: ToUpper rest
  end.

(** [strings.TrimLeft(s, "0")] and [strings.TrimRight(s, "0")] *)
Fixpoint trimLeft0 (s : bytes) : bytes :=
  match s with 48 :: rest => trimLeft0 rest | _ => s end.

Definition trimRight0 (s : bytes) : bytes := reverse (trimLeft0 (reverse s)).

Definition zeros (n : nat) : bytes := replicate n 48.

(** [strings.Cut(s, ".")]: before and after the first point. *)
Fixpoint cutDot (s : bytes) : bytes * bytes :=
  match s with
  | [] => ([], [])
  | 46 :: rest => ([], rest)
  | b :: rest => let '(whole, frac) := cutDot rest in (b :: whole, frac)
  end.

(** ** amount.go *)

Definition findCurrency (code : bytes) : option currency :=
  let code := ToUpper (TrimSpace code) in
  snd <$> list_find (λ c, alpha c = code ∨ numeric c = code) currencies.

Definition iso8583AmountDigits : nat := 12.

Definition isDigit (b : Z) : bool := (48 <=? b) && (b <=? 57).

Definition digitsOnly (s : bytes) : bool := negb (bool_decide (s = [])) && forallb isDigit s.

Inductive amountErr := ECurrency | ENotMinor | ENotDecimal | ETooManyDecimals | ETooManyDigits.

Definition minorToDecimal (minor : bytes) (exp : nat) : bytes :=
  let m := trimLeft0 minor in
  let m := if (length m <=? exp)%nat then zeros (exp - length m + 1) ++ m else m in
  if (exp =? 0)%nat then m
  else take (length m - exp) m ++ [46] ++ drop (length m - exp) m.

Definition decimalToMinor (dec : bytes) (exp : nat) : amountErr + bytes :=
  let '(whole, frac) := cutDot dec in
  let whole := if bool_decide (whole = []) then [48] else whole in
  if negb (digitsOnly whole) || (negb (bool_decide (frac = [])) && negb (digitsOnly frac)) then inl ENotDecimal else
  if (exp <? length (trimRight0 frac))%nat then inl ETooManyDecimals else
  let frac := frac ++ zeros exp in
  let minor := trimLeft0 (whole ++ take exp frac) in
  inr (if bool_decide (minor = []) then [48] else minor).

Definition convertAmount (amount code : bytes) (targetKind : string) : amountErr + bytes * bytes :=
  match findCurrency code with
  | None => inl ECurrency
  | Some c =>
      let amount := TrimSpace amount in
      if decide (targetKind = "iso20022"%string) then
        if negb (digitsOnly amount) then inl ENotMinor
        else inr (minorToDecimal amount (exponent c), alpha c)
      else
        match decimalToMinor amount (exponent c) with
        | inl e => inl e
        | inr minor =>
            if (iso8583AmountDigits <? length minor)%nat then inl ETooManyDigits
            else inr (zeros (iso8583AmountDigits - length minor) ++ minor, numeric c)
        end
  end.

(** ** Lemmas *)

Definition digit (b : Z) : Prop := 48 ≤ b ≤ 57.

Lemma isDigit_iff b : isDigit b = true ↔ digit b.
Proof. unfold isDigit, digit. rewrite andb_true_iff, !Z.leb_le. done. Qed.

Lemma digitsOnly_iff s : digitsOnly s = true ↔ s ≠ [] ∧ Forall digit s.
Proof.
  unfold digitsOnly. rewrite andb_true_iff, negb_true_iff, bool_decide_eq_false, forallb_forall, Forall_forall.
  setoid_rewrite isDigit_iff. setoid_rewrite list_elem_of_In. done.
Qed.

Lemma trimLeft0_spec s : ∃ n, s = zeros n ++ trimLeft0 s ∧ head (trimLeft0 s) ≠ Some 48.
Proof.
  induction s as [|b s (n&Hn&Hh)]; [by exists 0%nat|].
  destruct (decide (b = 48)) as [->|Hb].
  - exists (S n). simpl. split; [by f_equal|done].
  - exists 0%nat. assert (trimLeft0 (b :: s) = b :: s) as ->; [|split; [done|simpl; congruence]].
    simpl. repeat case_match; done.
Qed.

Lemma trimLeft0_zeros n s : head s ≠ Some 48 → trimLeft0 (zeros n ++ s) = s.
Proof.
  intros Hh. induction n as [|n IH]; [|exact IH]. destruct s as [|b s]; [done|].
  cbn [zeros replicate app]. simpl in Hh. simpl. repeat case_match; done.
Qed.

Lemma trimLeft0_digits s : Forall digit s → Forall digit (trimLeft0 s).
Proof.
  intros Hs. destruct (trimLeft0_spec s) as (n&E&_). rewrite E in Hs. by apply Forall_app in Hs as [_ ?].
Qed.

Lemma length_trimRight0 s : (length (trimRight0 s) ≤ length s)%nat.
Proof.
  unfold trimRight0. rewrite length_reverse. destruct (trimLeft0_spec (reverse s)) as (n&E&_).
  apply (f_equal length) in E. rewrite length_app, length_reverse in E. lia.
Qed.

Lemma cutDot_digits s rest : Forall digit s → cutDot (s ++ 46 :: rest) = (s, rest).
Proof.
  induction 1 as [|b s Hb _ IH]; [done|]. unfold digit in Hb. cbn [app].
  assert (cutDot (b :: s ++ 46 :: rest) = let '(whole, frac) := cutDot (s ++ 46 :: rest) in (b :: whole, frac)) as ->.
  { simpl. repeat case_match; try done; lia. }
  by rewrite IH.
Qed.

Lemma cutDot_none s : Forall digit s → cutDot s = (s, []).
Proof.
  induction 1 as [|b s Hb _ IH]; [done|]. unfold digit in Hb.
  assert (cutDot (b :: s) = let '(whole, frac) := cutDot s in (b :: whole, frac)) as ->.
  { simpl. repeat case_match; try done; lia. }
  by rewrite IH.
Qed.

(** ** Round trip of the number *)

(** A digit string without its leading zeros; zero is one digit. *)
Definition canon (m : bytes) : bytes := let t := trimLeft0 m in if bool_decide (t = []) then [48] else t.

Lemma zeros_digits n : Forall digit (zeros n).
Proof. apply Forall_replicate. unfold digit. lia. Qed.

(** The digits [minorToDecimal] cuts: at least one before the point. *)
Lemma padded m exp :
  Forall digit m →
  let t := trimLeft0 m in
  let p := if (length t <=? exp)%nat then zeros (exp - length t + 1) ++ t else t in
  Forall digit p ∧ (exp < length p)%nat ∧ trimLeft0 p = t.
Proof.
  intros Hm t p. assert (Forall digit t) as Ht by by apply trimLeft0_digits.
  destruct (trimLeft0_spec m) as (n&_&Hh). fold t in Hh. unfold p.
  destruct (Nat.leb_spec (length t) exp).
  - split_and!; [apply Forall_app; auto using zeros_digits| |by apply trimLeft0_zeros].
    rewrite length_app. unfold zeros. rewrite length_replicate. lia.
  - split_and!; [done|done|]. by apply (trimLeft0_zeros 0).
Qed.

Lemma minor_decimal_minor m exp :
  Forall digit m → decimalToMinor (minorToDecimal m exp) exp = inr (canon m).
Proof.
  intros Hm. destruct (padded m exp Hm) as (Hp&Hl&Ht). unfold minorToDecimal. cbv zeta in *.
  set (p := if (length (trimLeft0 m) <=? exp)%nat then _ else _) in *. clearbody p.
  unfold decimalToMinor, canon. destruct exp as [|exp]; cbn [Nat.eqb].
  - rewrite cutDot_none by done. rewrite bool_decide_false by (intros ->; simpl in Hl; lia).
    assert (digitsOnly p = true) as -> by (apply digitsOnly_iff; split; [by intros ->; simpl in Hl; lia|done]).
    cbn [negb orb]. rewrite bool_decide_true by done. cbn [negb andb]. simpl.
    by rewrite app_nil_r, Ht.
  - set (k := (length p - S exp)%nat).
    assert (Forall digit (take k p) ∧ Forall digit (drop k p)) as [H1 H2] by (split; [by apply Forall_take|by apply Forall_drop]).
    assert (length (take k p) = k ∧ length (drop k p) = S exp) as [L1 L2]
      by (rewrite length_take, length_drop; unfold k; lia).
    change ([46] ++ drop k p) with (46 :: drop k p). rewrite cutDot_digits by done.
    rewrite bool_decide_false by (intros E; rewrite E in L1; simpl in L1; unfold k in *; lia).
    assert (digitsOnly (take k p) = true) as ->
      by (apply digitsOnly_iff; split; [intros E; rewrite E in L1; simpl in L1; unfold k in *; lia|done]).
    assert (digitsOnly (drop k p) = true) as -> by (apply digitsOnly_iff; split; [intros E; by rewrite E in L2|done]).
    cbn [negb]. rewrite andb_false_r. cbn [orb].
    pose proof (length_trimRight0 (drop k p)). rewrite (proj2 (Nat.ltb_ge _ _)) by lia.
    rewrite take_app_le, (take_ge (drop k p)), take_drop, Ht by lia. done.
Qed.

(** ** White space and digits *)

Lemma spaceAt_digit b s : digit b → spaceAt (b :: s) = None.
Proof.
  intros Hb. unfold spaceAt. rewrite !fmap_None. apply list_find_None.
  unfold digit in Hb. repeat constructor; simpl; intros E; injection E; intros; lia.
Qed.

Lemma spaceEnd_digit s b : digit b → spaceEnd (s ++ [b]) = None.
Proof.
  intros Hb. unfold spaceEnd. rewrite !fmap_None. apply list_find_None.
  assert (∀ sp, sp ∈ spaces → last sp ≠ Some b) as Hlast.
  { unfold digit in Hb. intros sp Hsp. unfold spaces in Hsp.
    repeat (apply elem_of_cons in Hsp as [->|Hsp]; [simpl; intros [= ?]; lia|]). by apply elem_of_nil in Hsp. }
  apply Forall_forall. intros sp Hsp E. apply (Hlast sp Hsp).
  assert (sp ≠ []) as Hne by (intros ->; unfold spaces in Hsp; repeat (apply elem_of_cons in Hsp as [?|Hsp]; [done|]); by apply elem_of_nil in Hsp).
  rewrite <-E, drop_app_le, last_snoc; [done|]. rewrite length_app. simpl. destruct sp; [done|]. simpl. lia.
Qed.

Lemma TrimSpace_digits s b1 b2 :
  head s = Some b1 → last s = Some b2 → digit b1 → digit b2 → TrimSpace s = s.
Proof.
  intros Hh Hl H1 H2. unfold TrimSpace. destruct s as [|b s]; [done|]. simplify_eq/=.
  rewrite spaceAt_digit by done. apply last_Some in Hl as [s' E]. rewrite E, length_app. simpl.
  rewrite Nat.add_1_r. simpl. by rewrite spaceEnd_digit.
Qed.

(** ** The conversion *)

Lemma findCurrency_table c : c ∈ currencies → findCurrency (alpha c) = Some c ∧ findCurrency (numeric c) = Some c.
Proof.
  intros Hc. unfold currencies in Hc.
  repeat (apply elem_of_cons in Hc as [->|Hc]; [by vm_compute|]). by apply elem_of_nil in Hc.
Qed.

Lemma findCurrency_in code c : findCurrency code = Some c → c ∈ currencies.
Proof.
  unfold findCurrency. destruct (list_find _ _) as [[i c']|] eqn:E; [|done]. intros [= <-].
  apply list_find_Some in E as (Hi&_). by eapply list_elem_of_lookup_2.
Qed.

Lemma canon_pad m : Forall digit m → m ≠ [] →
  (length (canon m) ≤ length m)%nat ∧ zeros (length m - length (canon m)) ++ canon m = m.
Proof.
  intros Hm Hne. unfold canon. destruct (trimLeft0_spec m) as (n&E&_). cbv zeta.
  pose proof (f_equal length E) as El. rewrite length_app in El. unfold zeros in El. rewrite length_replicate in El.
  case_bool_decide as Ht.
  - rewrite Ht, app_nil_r in E. rewrite Ht in El. simpl in El. destruct n as [|n]; [by rewrite E in Hne|].
    simpl length. split; [lia|]. rewrite E. unfold zeros. rewrite length_replicate.
    replace (S n - 1)%nat with n by lia. change [48] with (replicate 1 48).
    rewrite <-replicate_add. by rewrite Nat.add_1_r.
  - split; [lia|]. rewrite El at 1. replace (n + length (trimLeft0 m) - length (trimLeft0 m))%nat with n by lia. done.
Qed.

Lemma minorToDecimal_ends m exp : Forall digit m → m ≠ [] →
  ∃ b1 b2, head (minorToDecimal m exp) = Some b1 ∧ last (minorToDecimal m exp) = Some b2 ∧ digit b1 ∧ digit b2.
Proof.
  intros Hm Hne. destruct (padded m exp Hm) as (Hp&Hl&_). unfold minorToDecimal. cbv zeta in *.
  set (p := if (length (trimLeft0 m) <=? exp)%nat then _ else _) in *. clearbody p.
  assert (∀ s : bytes, s ≠ [] → Forall digit s → ∃ b1 b2, head s = Some b1 ∧ last s = Some b2 ∧ digit b1 ∧ digit b2) as Hends.
  { intros s Hs Hd. destruct s as [|b s]; [done|]. destruct (last (b :: s)) as [b2|] eqn:E.
    - exists b, b2. apply last_Some in E as [s' E]. rewrite E in Hd. split_and!; try done.
      + rewrite <-E in Hd. by inversion Hd.
      + apply Forall_app in Hd as [_ Hd]. by inversion Hd.
    - by apply last_None in E. }
  destruct (Nat.eqb_spec exp 0) as [->|Hexp]; [apply Hends; [by intros ->; simpl in Hl; lia|done]|].
  set (k := (length p - exp)%nat).
  assert (length (take k p) = k ∧ length (drop k p) = exp) as [L1 L2] by (rewrite length_take, length_drop; unfold k; lia).
  destruct (Hends (take k p)) as (b1&_&Hb1&_&Hd1&_); [intros E; rewrite E in L1; simpl in L1; unfold k in *; lia|by apply Forall_take|].
  destruct (Hends (drop k p)) as (_&b2&_&Hb2&_&Hd2); [intros E; rewrite E in L2; simpl in L2; lia|by apply Forall_drop|].
  exists b1, b2. split_and!; try done.
  - by destruct (take k p).
  - rewrite !last_app. by rewrite Hb2.
Qed.

(** ** Properties *)

(** converting an amount to ISO 20022 and back loses nothing. A 12-digit ISO 8583
    amount in any known currency converts to a decimal amount with the alphabetic
    code, which converts back to the same 12 digits with the numeric code. *)
Theorem amount_roundtrip amount code c :
  findCurrency code = Some c → Forall digit amount → length amount = iso8583AmountDigits →
  ∃ dec, convertAmount amount code "iso20022" = inr (dec, alpha c) ∧
    convertAmount dec (alpha c) "iso8583" = inr (amount, numeric c).
Proof.
  intros Hc Hd Hl. assert (amount ≠ []) as Hne by (by intros ->).
  assert (TrimSpace amount = amount) as Hts.
  { destruct amount as [|b s] eqn:E; [done|]. destruct (last (b :: s)) as [b2|] eqn:El; [|by apply last_None in El].
    eapply TrimSpace_digits; [done|done|by inversion Hd|]. apply last_Some in El as [s' El]. rewrite El in Hd.
    apply Forall_app in Hd as [_ Hd]. by inversion Hd. }
  exists (minorToDecimal amount (exponent c)). split.
  - unfold convertAmount. rewrite Hc, Hts. cbn [decide_rel]. rewrite decide_True by done.
    assert (digitsOnly amount = true) as -> by by apply digitsOnly_iff. done.
  - unfold convertAmount. destruct (findCurrency_table c (findCurrency_in _ _ Hc)) as [-> _].
    destruct (minorToDecimal_ends amount (exponent c) Hd Hne) as (b1&b2&?&?&?&?).
    rewrite (TrimSpace_digits _ b1 b2) by done. rewrite decide_False by done.
    rewrite minor_decimal_minor by done. destruct (canon_pad amount Hd Hne) as [Hle Hpad].
    rewrite (proj2 (Nat.ltb_ge _ _)) by lia. rewrite <-Hl, Hpad. done.
Qed.

Lemma amount_roundtrip_witness :
  ∃ dec, convertAmount (toBytes "000000001234") (toBytes "858") "iso20022" = inr (dec, toBytes "UYU") ∧
    convertAmount dec (toBytes "UYU") "iso8583" = inr (toBytes "000000001234", toBytes "858").
Proof.
  apply (amount_roundtrip (toBytes "000000001234") (toBytes "858") (cur "UYU" "858" 2)).
  - vm_compute. reflexivity.
  - repeat constructor; vm_compute; discriminate.
  - reflexivity.
Defined.
