(* ===== verification/Outbox.v ===== *)
(** * The bus outbox of a Rack (pkg/runtime/outbox.go)

    The bounded FIFO of emissions the bus refused, its drain, and the tail of the
    two emit paths that use it ([publishPort] and [publishEvent] of
    pkg/runtime/runtime.go).  The code runs these in several goroutines that share
    one mutex; here every critical section is one atomic step, the goroutines'
    local variables are program counters, and [step] interleaves them: what the
    bus answers, when timers fire and contexts end are inputs of a step.

    The history fields of [sys] ([parkLog], [drainLog], [dropLog], [busLog]) do not
    exist in the code: they record what happened so that the counters and the
    order can be stated.  No operation reads them. *)
From S2P Require Import Prelude.

(** ** Data *)

Definition defaultOutboxMaxMessages : Z := 10000.
Definition defaultOutboxDrainRetries : Z := 3.
Definition defaultOutboxBackpressure : Z := 1000000000.
Definition OutboxOrderSubject : string := "subject".
Definition OutboxOrderNone : string := "none".
Definition defaultOutboxOrder : string := OutboxOrderSubject.

(** An error is returned for any other order name. *)
Definition ValidateOutboxOrder (order : string) : bool :=
  bool_decide (order = "" ∨ order = OutboxOrderSubject ∨ order = OutboxOrderNone).

(** [ev_addr] is the address of the event object: [same] compares pointers. *)
Record outboxEvent := mkEvent { ev_addr : N; ev_data : list N; ev_id : N }.

(** [msg] is the address of the message ([None] is the nil pointer). *)
Record outboxItem := mkItem { subject : string; msg : option N; event : option outboxEvent }.

#[export] Instance outboxEvent_eq_dec : EqDecision outboxEvent.
Proof. solve_decision. Defined.
#[export] Instance outboxItem_eq_dec : EqDecision outboxItem.
Proof. solve_decision. Defined.

Abbreviation addr_t := (option N * option N)%type.
Definition addr (it : outboxItem) : addr_t := (msg it, ev_addr <$> event it).

Definition same (it other : outboxItem) : bool := bool_decide (addr it = addr other).

Inductive drainBusState := busUnknown | busUp | busDown.
#[export] Instance drainBusState_eq_dec : EqDecision drainBusState.
Proof. solve_decision. Defined.

(** [moved] counts how often the channel was closed and replaced: a waiter that
    captured channel [g] is woken exactly when [moved] is no longer [g]. *)
Record outbox := mkOutbox {
  items : list outboxItem; max : Z; retries : Z; ordered : bool; draining : bool;
  again : bool; againLoud : bool; busState : drainBusState; moved : N; wait : Z;
  dropped : Z; parked : Z; drained : Z }.

Definition orDefault (n d : Z) : Z := if (n <=? 0)%Z then d else n.

Definition newOutbox (maxMessages drainRetries : Z) : outbox :=
  {| items := []; max := orDefault maxMessages defaultOutboxMaxMessages;
     retries := orDefault drainRetries defaultOutboxDrainRetries;
     ordered := bool_decide (defaultOutboxOrder = OutboxOrderSubject);
     draining := false; again := false; againLoud := false; busState := busUnknown;
     moved := 0; wait := defaultOutboxBackpressure; dropped := 0; parked := 0; drained := 0 |}.

(** ** Record updates *)
Definition with_items (l : list outboxItem) (o : outbox) : outbox :=
  mkOutbox l (max o) (retries o) (ordered o) (draining o) (again o) (againLoud o) (busState o) (moved o) (wait o) (dropped o) (parked o) (drained o).
Definition with_counts (d p dd : Z) (o : outbox) : outbox :=
  mkOutbox (items o) (max o) (retries o) (ordered o) (draining o) (again o) (againLoud o) (busState o) (moved o) (wait o) d p dd.
Definition with_drain (dr ag al : bool) (b : drainBusState) (o : outbox) : outbox :=
  mkOutbox (items o) (max o) (retries o) (ordered o) dr ag al b (moved o) (wait o) (dropped o) (parked o) (drained o).
Definition signalMovedLocked (o : outbox) : outbox :=
  mkOutbox (items o) (max o) (retries o) (ordered o) (draining o) (again o) (againLoud o) (busState o) (N.succ (moved o)) (wait o) (dropped o) (parked o) (drained o).

(** ** The queue *)

Definition heldLocked (s : string) (o : outbox) : bool :=
  existsb (λ it, bool_decide (subject it = s)) (items o).

Definition isEvent (it : outboxItem) : bool := bool_decide (is_Some (event it)).

(** Remove the first element that satisfies [f]: what [items.Remove] does to the
    element a forward scan stopped at. *)
Fixpoint removeFirst (f : outboxItem → bool) (l : list outboxItem) : option (outboxItem * list outboxItem) :=
  match l with
  | [] => None
  | x :: l => if f x then Some (x, l)
              else '(y, l') ← removeFirst f l; Some (y, x :: l')
  end.

(** The victim of an eviction: the oldest event, or else the front. *)
Definition victim (l : list outboxItem) : option (outboxItem * list outboxItem) :=
  match removeFirst isEvent l with
  | Some r => Some r
  | None => removeFirst (λ _, true) l
  end.

(** The loop of [parkLocked]: the queue left and the victims, in eviction order. *)
Fixpoint evictF (fuel : nat) (mx : Z) (l : list outboxItem) : list outboxItem * list outboxItem :=
  match fuel with
  | O => (l, [])
  | S fuel =>
      if (Z.of_nat (length l) <? mx)%Z then (l, [])
      else match victim l with
           | None => (l, [])
           | Some (v, l') => let '(r, vs) := evictF fuel mx l' in (r, v :: vs)
           end
  end.
Definition evict (mx : Z) (l : list outboxItem) := evictF (length l) mx l.

Definition pushBack (it : outboxItem) (vs l : list outboxItem) (o : outbox) : outbox :=
  with_counts (dropped o + Z.of_nat (length vs)) (parked o + 1) (drained o)
    (with_items (l ++ [it]) o).

(** Returns the outbox and the victims. *)
Definition parkLocked (s : string) (m : N) (o : outbox) : outbox * list outboxItem :=
  let '(l, vs) := evict (max o) (items o) in
  (pushBack (mkItem s (Some m) None) vs l o, vs).

Definition park := parkLocked.

Definition parkEventLocked (s : string) (ev : outboxEvent) (o : outbox) : outbox * bool :=
  if (max o <=? Z.of_nat (length (items o)))%Z then (o, false)
  else (pushBack (mkItem s None (Some ev)) [] (items o) o, true).

Definition parkEvent := parkEventLocked.

(** [(held, parked)] of the code. *)
Definition parkEventIfHeld (s : string) (ev : outboxEvent) (o : outbox) : outbox * (bool * bool) :=
  if negb (ordered o) || negb (heldLocked s o) then (o, (false, false))
  else let '(o', ok) := parkEventLocked s ev o in (o', (true, ok)).

Definition hasEvents (o : outbox) : bool := existsb isEvent (items o).

(** [None] when the message was not parked. *)
Definition parkIfHeld (s : string) (m : N) (o : outbox) : option (outbox * list outboxItem) :=
  if negb (ordered o) || negb (heldLocked s o) then None else Some (parkLocked s m o).

(** The condition on which [waitClear] returns. *)
Definition waitOver (s : string) (o : outbox) : bool :=
  negb (ordered o) || negb (heldLocked s o) || negb (draining o) || bool_decide (busState o = busDown).

(** ** The drain's operations on the outbox *)

Definition beginDrain (quiet : bool) (o : outbox) : outbox * bool :=
  if draining o then (with_drain true true (againLoud o || negb quiet) (busState o) o, false)
  else (with_drain true (again o) (againLoud o) busUnknown o, true).

(** The end of a drain on an ended context and on an empty queue. *)
Definition stop (o : outbox) : outbox := signalMovedLocked (with_drain false false false busUnknown o).

Definition snapshotLocked (o : outbox) : list outboxItem := items o.

Definition holds (it : outboxItem) (o : outbox) : bool := existsb (λ x, same x it) (items o).

(** The item found, if any, and the outbox after it left. *)
Definition remove (it : outboxItem) (drop : bool) (o : outbox) : outbox * option outboxItem :=
  match removeFirst (λ x, same x it) (items o) with
  | None => (o, None)
  | Some (x, l) =>
      let o' := with_items l o in
      (signalMovedLocked
         (if drop then with_counts (dropped o + 1) (parked o) (drained o) o'
          else with_counts (dropped o) (parked o) (drained o + 1) o'), Some x)
  end.

Definition setBusState (st : drainBusState) (o : outbox) : outbox :=
  if bool_decide (busState o = st) then o
  else signalMovedLocked (with_drain (draining o) (again o) (againLoud o) st o).

Definition len (o : outbox) : Z := Z.of_nat (length (items o)).

(** ** The drain goroutine *)

(** What the bus answers to one publish. [errNoBus] is an ordinary refusal for the
    drain and for events. *)
Inductive answer := BusOk | BusInvalid | BusNone | BusRefused.

Inductive derr := ENil | EInvalid | ERefused | EEvicted | ECtx.

Definition errOf (a : answer) : derr :=
  match a with BusOk => ENil | BusInvalid => EInvalid | BusNone | BusRefused => ERefused end.

(** The locals of [runDrain]: the rest of the pass, [ordered] as snapshotted, the
    subjects held back in this pass, how many items left. *)
Record dlocals := mkLocals {
  quiet : bool; pass : list outboxItem; passOrdered : bool; held : gset string; forwarded : nat }.

(** Where the drain is.  [DTop]: the head of the outer loop.  [DNext]: the head of
    the range over the pass.  [DAttempt it n err]: the head of the retry loop.
    [DSending]: inside publish.  [DAnswered]: publish returned.  [DRetry]: the
    select after a refusal.  [DResult]: the switch on the outcome.  [DPassEnd]:
    the pass is over.  [DStopped]: no drain runs. *)
Inductive drainPC :=
| DStopped
| DTop (quiet : bool)
| DNext (l : dlocals)
| DAttempt (l : dlocals) (it : outboxItem) (n : Z) (err : derr)
| DSending (l : dlocals) (it : outboxItem) (n : Z)
| DAnswered (l : dlocals) (it : outboxItem) (n : Z) (err : derr)
| DRetry (l : dlocals) (it : outboxItem) (n : Z) (err : derr)
| DResult (l : dlocals) (it : outboxItem) (err : derr)
| DPassEnd (l : dlocals).

(** The inputs of a step: whether the context has ended, whether the timer has
    fired, and the bus's answer. *)
Record input := mkInput { ctxDone : bool; timerFired : bool; ans : answer }.

(** ** The emitting goroutines *)

(** What [publishPort] or [publishEvent] returns. *)
Inductive result := RNil | RNoBus | RFull.

(** [EEnter]: the entry of [waitClear].  [EWait]: the head of its loop.
    [EBlocked g]: its select, on channel [g].  [ECheck]: the park behind a held
    subject.  [EKick r]: [kickDrain(true)], then return [r].  [EPublish]: the
    publish to the bus.  [EPark]: the park after a refusal.  [ELen]: the check for
    a backlog after an accepted publish. *)
Inductive emitPC :=
| EEnter | EWait | EBlocked (g : N) | ECheck | EKick (r : result) | EPublish | EPark | ELen.

Record emitter := mkEmitter { e_item : outboxItem; e_pc : emitPC }.

(** ** The system *)

Record sys := mkSys {
  ob : outbox; dr : drainPC; em : gmap addr_t emitter; results : gmap addr_t result;
  used : gset addr_t;
  parkLog : list outboxItem; drainLog : list outboxItem; dropLog : list outboxItem;
  busLog : list outboxItem }.

Definition with_ob (o : outbox) (σ : sys) : sys :=
  mkSys o (dr σ) (em σ) (results σ) (used σ) (parkLog σ) (drainLog σ) (dropLog σ) (busLog σ).
Definition with_dr (d : drainPC) (σ : sys) : sys :=
  mkSys (ob σ) d (em σ) (results σ) (used σ) (parkLog σ) (drainLog σ) (dropLog σ) (busLog σ).
Definition with_em (e : gmap addr_t emitter) (σ : sys) : sys :=
  mkSys (ob σ) (dr σ) e (results σ) (used σ) (parkLog σ) (drainLog σ) (dropLog σ) (busLog σ).
Definition log_park (it : outboxItem) (vs : list outboxItem) (σ : sys) : sys :=
  mkSys (ob σ) (dr σ) (em σ) (results σ) (used σ) ((parkLog σ) ++ [it]) (drainLog σ) ((dropLog σ) ++ vs) (busLog σ).
Definition log_drain (l : list outboxItem) (σ : sys) : sys :=
  mkSys (ob σ) (dr σ) (em σ) (results σ) (used σ) (parkLog σ) ((drainLog σ) ++ l) (dropLog σ) (busLog σ).
Definition log_drop (l : list outboxItem) (σ : sys) : sys :=
  mkSys (ob σ) (dr σ) (em σ) (results σ) (used σ) (parkLog σ) (drainLog σ) ((dropLog σ) ++ l) (busLog σ).
Definition log_bus (l : list outboxItem) (σ : sys) : sys :=
  mkSys (ob σ) (dr σ) (em σ) (results σ) (used σ) (parkLog σ) (drainLog σ) (dropLog σ) ((busLog σ) ++ l).

(** Accepted by the bus: what [BusOk] adds to the log. *)
Definition acceptedBy (a : answer) (it : outboxItem) : list outboxItem :=
  match a with BusOk => [it] | _ => [] end.

(** [kickDrain]: the drain is marked, and its goroutine starts. *)
Definition kickDrain (q : bool) (σ : sys) : sys :=
  let '(o, started) := beginDrain q (ob σ) in
  let σ := with_ob o σ in if started then with_dr (DTop q) σ else σ.

(** *** One atomic step of [runDrain] and [publishWithRetries] *)

(** The head of the outer loop: stop, or take the snapshot. *)
Definition drainTop (i : input) (q : bool) (σ : sys) : sys :=
  if ctxDone i || bool_decide (items (ob σ) = []) then with_dr DStopped (with_ob (stop (ob σ)) σ)
  else with_dr (DNext (mkLocals q (snapshotLocked (ob σ)) (ordered (ob σ)) ∅ 0)) σ.

(** The range over the pass. *)
Definition drainNext (i : input) (l : dlocals) (σ : sys) : sys :=
  let '(mkLocals q p ord h f) := l in
  match p with
  | [] => with_dr (DPassEnd l) σ
  | it :: rest =>
      if ctxDone i then with_dr DStopped (with_ob (stop (ob σ)) σ)
      else if ord && bool_decide (subject it ∈ h) then with_dr (DNext (mkLocals q rest ord h f)) σ
      else with_dr (DAttempt (mkLocals q rest ord h f) it 0 ENil) σ
  end.

(** The head of the retry loop: the bound, the context, the eviction check. *)
Definition drainAttempt (i : input) (l : dlocals) (it : outboxItem) (n : Z) (err : derr) (σ : sys) : sys :=
  if (retries (ob σ) <? n)%Z then with_dr (DResult l it err) σ
  else if ctxDone i then with_dr (DResult l it ECtx) σ
  else if holds it (ob σ) then with_dr (DSending l it n) σ
  else with_dr (DResult l it EEvicted) σ.

Definition drainSending (i : input) (l : dlocals) (it : outboxItem) (n : Z) (σ : sys) : sys :=
  with_dr (DAnswered l it n (errOf (ans i))) (log_bus (acceptedBy (ans i) it) σ).

(** What the bus state becomes, and whether to try again. *)
Definition drainAnswered (l : dlocals) (it : outboxItem) (n : Z) (err : derr) (σ : sys) : sys :=
  match err with
  | ENil | EInvalid => with_dr (DResult l it err) (with_ob (setBusState busUp (ob σ)) σ)
  | _ => with_dr (DRetry l it n err) (with_ob (setBusState busDown (ob σ)) σ)
  end.

(** The select: the context's end is seen only when the input says so. *)
Definition drainRetry (i : input) (l : dlocals) (it : outboxItem) (n : Z) (err : derr) (σ : sys) : sys :=
  if ctxDone i then with_dr (DResult l it ECtx) σ else with_dr (DAttempt l it (n + 1) err) σ.

(** The switch on the outcome of one item. *)
Definition drainResult (l : dlocals) (it : outboxItem) (err : derr) (σ : sys) : sys :=
  let '(mkLocals q p ord h f) := l in
  match err with
  | EEvicted => with_dr (DNext l) σ
  | ENil => let '(o, x) := remove it false (ob σ) in
            with_dr (DNext (mkLocals q p ord h (S f))) (log_drain (option_list x) (with_ob o σ))
  | EInvalid => let '(o, x) := remove it true (ob σ) in
                with_dr (DNext (mkLocals q p ord h (S f))) (log_drop (option_list x) (with_ob o σ))
  | _ => with_dr (DNext (mkLocals q p ord ({[subject it]} ∪ h) f)) σ
  end.

(** The end of a pass: another one after progress or a request, else stop. *)
Definition drainPassEnd (l : dlocals) (σ : sys) : sys :=
  let o := ob σ in
  if bool_decide (forwarded l = 0) then
    if again o then
      with_dr (DTop (quiet l && negb (againLoud o))) (with_ob (with_drain (draining o) false false (busState o) o) σ)
    else with_dr DStopped (with_ob (signalMovedLocked (with_drain false (again o) false busUnknown o)) σ)
  else with_dr (DTop (quiet l)) σ.

Definition drainStep (i : input) (σ : sys) : option sys :=
  match dr σ with
  | DStopped => None
  | DTop q => Some (drainTop i q σ)
  | DNext l => Some (drainNext i l σ)
  | DAttempt l it n err => Some (drainAttempt i l it n err σ)
  | DSending l it n => Some (drainSending i l it n σ)
  | DAnswered l it n err => Some (drainAnswered l it n err σ)
  | DRetry l it n err => Some (drainRetry i l it n err σ)
  | DResult l it err => Some (drainResult l it err σ)
  | DPassEnd l => Some (drainPassEnd l σ)
  end.

(** *** One atomic step of an emission *)

Definition goto (k : addr_t) (it : outboxItem) (pc : emitPC) (σ : sys) : sys :=
  with_em (<[k := mkEmitter it pc]> (em σ)) σ.

Definition return_ (k : addr_t) (r : result) (σ : sys) : sys :=
  mkSys (ob σ) (dr σ) (delete k (em σ)) (<[k := r]> (results σ)) (used σ) (parkLog σ) (drainLog σ) (dropLog σ) (busLog σ).

(** [waitClear]: entry, loop head and select. [None] when the select blocks. *)
Definition waitClear (i : input) (k : addr_t) (it : outboxItem) (pc : emitPC) (σ : sys) : option sys :=
  match pc with
  | EEnter => Some (goto k it (if (wait (ob σ) <=? 0)%Z then ECheck else EWait) σ)
  | EWait => Some (goto k it (if waitOver (subject it) (ob σ) then ECheck else EBlocked (moved (ob σ))) σ)
  | EBlocked g =>
      if timerFired i || ctxDone i then Some (goto k it ECheck σ)
      else if bool_decide (moved (ob σ) = g) then None
      else Some (goto k it EWait σ)
  | _ => None
  end.

(** The rest of [publishPort] for the message at address [m]. *)
Definition publishPortTail (i : input) (k : addr_t) (it : outboxItem) (m : N) (pc : emitPC) (σ : sys) : option sys :=
  match pc with
  | EEnter | EWait | EBlocked _ => waitClear i k it pc σ
  | ECheck => Some match parkIfHeld (subject it) m (ob σ) with
                   | Some (o, vs) => goto k it (EKick RNil) (log_park it vs (with_ob o σ))
                   | None => goto k it EPublish σ
                   end
  | EPublish => Some match ans i with
                     | BusOk => goto k it ELen (log_bus [it] σ)
                     | BusNone => return_ k RNoBus σ
                     | _ => goto k it EPark σ
                     end
  | EPark => Some (let '(o, vs) := park (subject it) m (ob σ) in
                   return_ k RNil (log_park it vs (with_ob o σ)))
  | ELen => Some (if (0 <? len (ob σ))%Z then goto k it (EKick RNil) σ else return_ k RNil σ)
  | EKick r => Some (return_ k r (kickDrain true σ))
  end.

(** [publishEvent] for event [ev]. *)
Definition publishEvent (i : input) (k : addr_t) (it : outboxItem) (ev : outboxEvent) (pc : emitPC) (σ : sys) : option sys :=
  match pc with
  | EEnter | EWait | EBlocked _ => waitClear i k it pc σ
  | ECheck => Some match parkEventIfHeld (subject it) ev (ob σ) with
                   | (_, (false, _)) => goto k it EPublish σ
                   | (o, (true, true)) => goto k it (EKick RNil) (log_park it [] (with_ob o σ))
                   | (o, (true, false)) => goto k it (EKick RFull) (with_ob o σ)
                   end
  | EPublish => Some match ans i with
                     | BusOk => goto k it ELen (log_bus [it] σ)
                     | _ => goto k it EPark σ
                     end
  | EPark => Some match parkEvent (subject it) ev (ob σ) with
                  | (o, true) => return_ k RNil (log_park it [] (with_ob o σ))
                  | (o, false) => return_ k RFull (with_ob o σ)
                  end
  | ELen => Some (if (0 <? len (ob σ))%Z then goto k it (EKick RNil) σ else return_ k RNil σ)
  | EKick r => Some (return_ k r (kickDrain true σ))
  end.

Definition emitStep (i : input) (k : addr_t) (σ : sys) : option sys :=
  e ← em σ !! k;
  match msg (e_item e), event (e_item e) with
  | Some m, None => publishPortTail i k (e_item e) m (e_pc e) σ
  | None, Some ev => publishEvent i k (e_item e) ev (e_pc e) σ
  | _, _ => None
  end.

(** *** The manager's calls *)

Definition SetOutboxConfig (maxMessages drainRetries : Z) (order : string) (o : outbox) : option outbox :=
  if ValidateOutboxOrder order then
    let order := if bool_decide (order = "") then defaultOutboxOrder else order in
    Some (mkOutbox (items o) (orDefault maxMessages defaultOutboxMaxMessages)
            (orDefault drainRetries defaultOutboxDrainRetries)
            (bool_decide (order = OutboxOrderSubject)) (draining o) (again o) (againLoud o) (busState o) (moved o) (wait o) (dropped o) (parked o) (drained o))
  else None.

Definition SetOutboxBackpressure (w : Z) (o : outbox) : outbox :=
  mkOutbox (items o) (max o) (retries o) (ordered o) (draining o) (again o) (againLoud o) (busState o) (moved o) (if (w <? 0)%Z then defaultOutboxBackpressure else w) (dropped o) (parked o) (drained o).

(** A new emission is a new object: its address is one no earlier emission had. *)
Definition emitBegin (it : outboxItem) (σ : sys) : option sys :=
  match msg it, event it with
  | Some _, None | None, Some _ =>
      if decide (addr it ∈ used σ) then None
      else Some (mkSys (ob σ) (dr σ) (<[addr it := mkEmitter it EEnter]> (em σ)) (results σ) ({[addr it]} ∪ (used σ)) (parkLog σ) (drainLog σ) (dropLog σ) (busLog σ))
  | _, _ => None
  end.

(** The steps of the system. [LTick] is the tick of [retryParkedEvents]. *)
Inductive label :=
| LEmit (it : outboxItem)
| LEmitter (k : addr_t) (i : input)
| LDrain (i : input)
| LSetBus
| LTick
| LConfig (maxMessages drainRetries : Z) (order : string)
| LBackpressure (w : Z).

Definition step (a : label) (σ : sys) : option sys :=
  match a with
  | LEmit it => emitBegin it σ
  | LEmitter k i => emitStep i k σ
  | LDrain i => drainStep i σ
  | LSetBus => Some (kickDrain false σ)
  | LTick => Some (if hasEvents (ob σ) then kickDrain true σ else σ)
  | LConfig m r o => (λ ob', with_ob ob' σ) <$> SetOutboxConfig m r o (ob σ)
  | LBackpressure w => Some (with_ob (SetOutboxBackpressure w (ob σ)) σ)
  end.

Fixpoint steps (l : list label) (σ : sys) : option sys :=
  match l with
  | [] => Some σ
  | a :: l => σ' ← step a σ; steps l σ'
  end.

Definition initial (maxMessages drainRetries : Z) : sys :=
  mkSys (newOutbox maxMessages drainRetries) DStopped ∅ ∅ ∅ [] [] [] [].

(** Running the drain alone: [n] steps with the inputs of stream [inp]. *)
Fixpoint runDrain (n : nat) (inp : nat → input) (σ : sys) : sys :=
  match n with
  | O => σ
  | S n => match drainStep (inp 0) σ with
           | None => σ
           | Some σ' => runDrain n (λ j, inp (S j)) σ'
           end
  end.
