(* ===== verification/OutboxSpec.v ===== *)
(** * The outbox: conservation, order and eviction

    Invariants of every reachable state of the system of [Outbox], by induction on
    the steps, and the theorems they give: nothing parked is lost without being
    counted, and with subject order no emission overtakes a parked one. *)
From S2P Require Import Prelude Outbox.
From Stdlib Require Import Sorted.

Lemma sublist_nil_inv {A} (l : list A) : l `sublist_of` [] → l = [].
Proof. by inversion 1. Qed.

(** ** [x] comes before [y] *)
Definition before {A} (l : list A) (x y : A) : Prop := [x; y] `sublist_of` l.

Section before.
Context {A B : Type}.
Implicit Types (l k : list A) (x y z : A).

Lemma before_elem_l l x y : before l x y → x ∈ l.
Proof. intros H. eapply elem_of_sublist; [|exact H]. set_solver. Qed.
Lemma before_elem_r l x y : before l x y → y ∈ l.
Proof. intros H. eapply elem_of_sublist; [|exact H]. set_solver. Qed.
Lemma before_mono l k x y : before l x y → l `sublist_of` k → before k x y.
Proof. unfold before. intros ??. by etrans. Qed.
Lemma before_app l k x y : before l x y → before (l ++ k) x y.
Proof. intros H. eapply before_mono; [done|]. by apply sublist_inserts_r. Qed.

Lemma before_snoc l x z : x ∈ l → before (l ++ [z]) x z.
Proof.
  intros (l1 & l2 & ->)%list_elem_of_split. unfold before.
  replace ((l1 ++ x :: l2) ++ [z]) with ((l1 ++ [x]) ++ (l2 ++ [z])) by by rewrite <-!app_assoc.
  apply (sublist_app [x] _ [z]); by apply sublist_inserts_l.
Qed.

Lemma before_snoc_inv l x y z : before (l ++ [z]) x y → before l x y ∨ (y = z ∧ x ∈ l).
Proof.
  intros (k1 & k2 & Hk & H1 & H2)%sublist_app_r.
  apply sublist_cons_r in H2 as [H2|(k' & -> & H2)].
  - apply sublist_nil_inv in H2 as ->. rewrite app_nil_r in Hk. subst. by left.
  - apply sublist_nil_inv in H2 as ->. right. destruct k1 as [|? [|? k1]]; simplify_eq/=.
    + split; [done|]. eapply elem_of_sublist; [|exact H1]. set_solver.
    + by destruct k1.
Qed.

Lemma before_split l x y : before l x y → ∃ l1 l2, l = l1 ++ l2 ∧ x ∈ l1 ∧ y ∈ l2.
Proof.
  intros (l1 & l2 & -> & H1 & H2)%(sublist_app_l [x] [y]).
  exists l1, l2. split; [done|]. split; (eapply elem_of_sublist; [|eassumption]; set_solver).
Qed.

Lemma before_irrefl (f : A → B) l x y : NoDup (f <$> l) → before l x y → f x ≠ f y.
Proof.
  intros Hnd (l1 & l2 & -> & H1 & H2)%before_split E. rewrite fmap_app in Hnd.
  apply NoDup_app in Hnd as (_ & Hd & _). apply (Hd (f x)); [set_solver|]. rewrite E. set_solver.
Qed.

Lemma before_asym (f : A → B) l x y : NoDup (f <$> l) → before l x y → before l y x → False.
Proof.
  intros Hnd Hxy Hyx. induction l as [|z l IH].
  - by apply sublist_nil_inv in Hxy.
  - rewrite fmap_cons in Hnd. apply NoDup_cons in Hnd as [Hz Hnd].
    apply sublist_cons_r in Hxy as [Hxy|(k & Ek & Hxy)];
      apply sublist_cons_r in Hyx as [Hyx|(k' & Ek' & Hyx)]; simplify_eq.
    + auto.
    + apply Hz, list_elem_of_fmap_2. by eapply before_elem_r.
    + apply Hz, list_elem_of_fmap_2. by eapply before_elem_r.
    + apply Hz, list_elem_of_fmap_2. eapply elem_of_sublist; [|exact Hxy]. set_solver.
Qed.

Lemma sorted_sublist l k : k `sublist_of` l → StronglySorted (before l) k.
Proof.
  revert l. induction k as [|x k IH]; intros l H; constructor.
  - apply IH. etrans; [|exact H]. by apply sublist_cons.
  - apply Forall_forall. intros y Hy. unfold before. etrans; [|exact H].
    apply sublist_skip. by apply singleton_sublist_l.
Qed.
End before.

Lemma sorted_impl {A} (P Q : A → A → Prop) l :
  (∀ x y, P x y → Q x y) → StronglySorted P l → StronglySorted Q l.
Proof. intros H. induction 1; constructor; [done|]. eapply Forall_impl; [done|]. eauto. Qed.

(** ** The queue operations *)

Lemma removeFirst_spec f l x r :
  removeFirst f l = Some (x, r) →
  f x = true ∧ ∃ l1 l2, l = l1 ++ x :: l2 ∧ r = l1 ++ l2 ∧ Forall (λ y, f y = false) l1.
Proof.
  revert r. induction l as [|y l IH]; intros r H; simpl in H; [done|].
  destruct (f y) eqn:E.
  - simplify_eq. split; [done|]. by exists [], r.
  - apply bind_Some in H as ([z l'] & H & [= -> <-]).
    destruct (IH _ H) as (Hf & l1 & l2 & -> & -> & HF). split; [done|].
    exists (y :: l1), l2. eauto.
Qed.

Lemma removeFirst_none f l : removeFirst f l = None ↔ Forall (λ y, f y = false) l.
Proof.
  induction l as [|y l IH]; simpl; [done|]. rewrite Forall_cons. destruct (f y) eqn:E.
  - by split; [|intros [??]].
  - rewrite <-IH. destruct (removeFirst f l) as [[??]|]; naive_solver.
Qed.

Lemma removeFirst_sublist f l x r :
  removeFirst f l = Some (x, r) → r `sublist_of` l ∧ l ≡ₚ x :: r ∧ x ∈ l.
Proof.
  intros (_ & l1 & l2 & -> & -> & _)%removeFirst_spec. split_and!.
  - apply sublist_app; [done|]. by apply sublist_cons.
  - by rewrite Permutation_middle.
  - set_solver.
Qed.

(** The messages of a queue: what an eviction spares while an event is left. *)
Definition noEvents (l : list outboxItem) : Prop := Forall (λ y, isEvent y = false) l.

Lemma victim_spec l v r :
  victim l = Some (v, r) →
  r `sublist_of` l ∧ l ≡ₚ v :: r ∧ v ∈ l ∧ (isEvent v = false → noEvents l).
Proof.
  unfold victim. destruct (removeFirst isEvent l) as [[x l']|] eqn:E; intros H.
  - simplify_eq. destruct (removeFirst_sublist _ _ _ _ E) as (?&?&?). split_and!; try done.
    apply removeFirst_spec in E as [E _]. congruence.
  - destruct (removeFirst_sublist _ _ _ _ H) as (?&?&?). split_and!; try done.
    intros _. by apply removeFirst_none.
Qed.

Lemma victim_some l : l ≠ [] → is_Some (victim l).
Proof. unfold victim. intros ?. destruct (removeFirst isEvent l), l; eauto. done. Qed.

Lemma evictF_spec n mx l r vs :
  evictF n mx l = (r, vs) → (length l ≤ n)%nat → (0 < mx)%Z →
  r `sublist_of` l ∧ l ≡ₚ r ++ vs ∧ (Z.of_nat (length r) < mx)%Z ∧
  (∀ v, v ∈ vs → isEvent v = false → noEvents r).
Proof.
  revert l r vs. induction n as [|n IH]; intros l r vs H Hn Hm; simpl in H.
  - simplify_eq. destruct r; simpl in *; [|lia]. split_and!; [done|done|lia|set_solver].
  - destruct (Z.ltb_spec (Z.of_nat (length l)) mx).
    { simplify_eq. rewrite app_nil_r. split_and!; [done|done|lia|set_solver]. }
    assert (l ≠ []) as Hl by (intros ->; simpl in *; lia).
    destruct (victim_some l Hl) as [[v l'] Hv]. rewrite Hv in H.
    destruct (evictF n mx l') as [r' vs'] eqn:E. simplify_eq.
    destruct (victim_spec _ _ _ Hv) as (Hs & Hp & Hin & He).
    apply Permutation_length in Hp as Hlen. simpl in Hlen.
    destruct (IH _ _ _ E ltac:(lia) Hm) as (Hs' & Hp' & Hb & Hev). split_and!.
    + by etrans.
    + rewrite Hp, Hp'. by rewrite Permutation_middle.
    + done.
    + intros w [->|Hw]%elem_of_cons Hne; [|eauto]. specialize (He Hne).
      apply Forall_forall. intros y Hy. eapply (proj1 (Forall_forall _ _) He).
      eapply elem_of_sublist; [exact Hy|]. by etrans.
Qed.

Lemma evict_spec mx l r vs :
  evict mx l = (r, vs) → (0 < mx)%Z →
  r `sublist_of` l ∧ l ≡ₚ r ++ vs ∧ (Z.of_nat (length r) < mx)%Z ∧
  (∀ v, v ∈ vs → isEvent v = false → noEvents r).
Proof. intros H. by apply (evictF_spec (length l)). Qed.

Lemma evict_room mx l : (Z.of_nat (length l) < mx)%Z → evict mx l = (l, []).
Proof.
  intros H. unfold evict. generalize (length l) at 1 as n. intros [|n]; [done|]. cbn [evictF].
  destruct (Z.ltb_spec (Z.of_nat (length l)) mx); [done|lia].
Qed.

(** ** The conservation invariant *)

(** The queue against the history: counters, conservation, order and identity. *)
Record Core (o : outbox) (u : gset addr_t) (pl dl xl bl : list outboxItem) : Prop := {
  core_max : (0 < max o)%Z;
  core_dropped : dropped o = Z.of_nat (length xl);
  core_parked : parked o = Z.of_nat (length pl);
  core_drained : drained o = Z.of_nat (length dl);
  core_perm : pl ≡ₚ items o ++ dl ++ xl;
  core_sub : items o `sublist_of` pl;
  core_nodup : NoDup (addr <$> pl);
  core_used : ∀ x, x ∈ pl ∨ x ∈ bl → addr x ∈ u;
  core_sent : ∀ x, x ∈ dl → x ∈ bl }.

Lemma core_same o u pl dl xl bl x y :
  Core o u pl dl xl bl → x ∈ pl → y ∈ pl → addr x = addr y → x = y.
Proof.
  intros C Hx Hy E. apply list_elem_of_lookup in Hx as [i Hi], Hy as [j Hj].
  assert (i = j) as ->; [|congruence].
  eapply (NoDup_lookup (addr <$> pl)); [apply C| |]; rewrite list_lookup_fmap; [by rewrite Hi|].
  by rewrite Hj, E.
Qed.

(** Any change of the flags leaves [Core]. *)
Lemma core_flags o o' u pl dl xl bl :
  Core o u pl dl xl bl → (0 < max o')%Z → items o' = items o → dropped o' = dropped o →
  parked o' = parked o → drained o' = drained o → Core o' u pl dl xl bl.
Proof. intros [] ? E1 E2 E3 E4. split; rewrite ?E1, ?E2, ?E3, ?E4; done. Qed.

Lemma core_push o u pl dl xl bl it l vs :
  Core o u pl dl xl bl → l `sublist_of` items o → items o ≡ₚ l ++ vs →
  addr it ∈ u → (∀ x, x ∈ pl → addr x ≠ addr it) →
  Core (pushBack it vs l o) u (pl ++ [it]) dl (xl ++ vs) bl.
Proof.
  intros C Hs Hp Hu Hf. split; unfold pushBack; cbn; try apply C.
  - rewrite length_app, (core_dropped _ _ _ _ _ _ C). lia.
  - rewrite length_app, (core_parked _ _ _ _ _ _ C). simpl. lia.
  - rewrite (core_perm _ _ _ _ _ _ C), Hp. solve_Permutation.
  - apply sublist_app; [|done]. etrans; [done|]. apply C.
  - rewrite fmap_app. apply NoDup_app. split_and!; [apply C| |apply NoDup_singleton].
    intros a (x & -> & Hx)%list_elem_of_fmap E. apply (Hf x Hx). set_solver.
  - intros x [[Hx| ->%list_elem_of_singleton]%elem_of_app|Hx]; [|done|]; apply C; auto.
Qed.

Lemma core_bus o u pl dl xl bl l :
  Core o u pl dl xl bl → (∀ x, x ∈ l → addr x ∈ u) → Core o u pl dl xl (bl ++ l).
Proof.
  intros C Hl. split; try apply C.
  - intros x [Hx|[Hx|Hx]%elem_of_app]; [apply C; auto..|auto].
  - intros x Hx. apply elem_of_app. left. by apply C.
Qed.

Lemma remove_spec it d o o' x :
  remove it d o = (o', x) →
  max o' = max o ∧ retries o' = retries o ∧ ordered o' = ordered o ∧ draining o' = draining o ∧
  parked o' = parked o ∧
  dropped o' = (dropped o + if d then Z.of_nat (length (option_list x)) else 0)%Z ∧
  drained o' = (drained o + if d then 0 else Z.of_nat (length (option_list x)))%Z ∧
  items o' `sublist_of` items o ∧ items o ≡ₚ option_list x ++ items o' ∧
  (∀ y, x = Some y → addr y = addr it ∧ y ∈ items o) ∧
  (∀ y, y ∈ items o' → x = None → addr y ≠ addr it).
Proof.
  unfold remove. destruct (removeFirst _ _) as [[y l]|] eqn:E; intros H; simplify_eq/=.
  - destruct (removeFirst_sublist _ _ _ _ E) as (?&?&?).
    apply removeFirst_spec in E as [E%bool_decide_eq_true _].
    destruct d; cbn; split_and!; try done; try lia; by intros ? [= <-].
  - apply removeFirst_none in E. split_and!; try done; try (destruct d; lia).
    intros y Hy _ Ha. rewrite Forall_forall in E. specialize (E _ Hy).
    by apply bool_decide_eq_false in E.
Qed.

Lemma core_remove_drain o u pl dl xl bl it o' x :
  Core o u pl dl xl bl → remove it false o = (o', x) → it ∈ pl → it ∈ bl →
  Core o' u pl (dl ++ option_list x) xl bl.
Proof.
  intros C H Hit Hb. destruct (remove_spec _ _ _ _ _ H) as (E1&_&_&_&E2&E3&E4&Hs&Hp&Hx&_).
  split; rewrite ?E1, ?E2, ?E3, ?E4; try apply C.
  - rewrite (core_dropped _ _ _ _ _ _ C). lia.
  - rewrite (core_drained _ _ _ _ _ _ C), length_app. lia.
  - rewrite (core_perm _ _ _ _ _ _ C), Hp. solve_Permutation.
  - etrans; [done|apply C].
  - intros y [Hy|Hy]%elem_of_app; [by apply C|].
    destruct x as [z|]; [|set_solver]. apply list_elem_of_singleton in Hy as ->.
    destruct (Hx z eq_refl) as [Ha Hz]. replace z with it; [done|].
    eapply core_same; [done|done| |done]. eapply elem_of_sublist; [exact Hz|apply C].
Qed.

Lemma core_remove_drop o u pl dl xl bl it o' x :
  Core o u pl dl xl bl → remove it true o = (o', x) →
  Core o' u pl dl (xl ++ option_list x) bl.
Proof.
  intros C H. destruct (remove_spec _ _ _ _ _ H) as (E1&_&_&_&E2&E3&E4&Hs&Hp&_&_).
  split; rewrite ?E1, ?E2, ?E3, ?E4; try apply C.
  - rewrite (core_dropped _ _ _ _ _ _ C), length_app. lia.
  - rewrite (core_drained _ _ _ _ _ _ C). lia.
  - rewrite (core_perm _ _ _ _ _ _ C), Hp. solve_Permutation.
  - etrans; [done|apply C].
Qed.

(** *** The drain *)

(** The rest of a pass, the current item first: in parked order, and nothing
    queued before one of its items is unknown to the pass. *)
Record passInv (its pl todo : list outboxItem) (h : gset string) (ord : bool) : Prop := {
  pass_sorted : StronglySorted (before pl) todo;
  pass_parked : ∀ x, x ∈ todo → x ∈ pl;
  pass_front : ord = true → ∀ x t, x ∈ its → t ∈ todo → before pl x t → subject x ∈ h ∨ x ∈ todo }.

Lemma pass_shrink its its' pl todo h ord :
  passInv its pl todo h ord → (∀ x, x ∈ its' → x ∈ its) → passInv its' pl todo h ord.
Proof. intros [] Hi. split; eauto. Qed.

Lemma pass_push its its' pl todo h ord it :
  passInv its pl todo h ord → NoDup (addr <$> pl ++ [it]) →
  (∀ x, x ∈ its' → x ∈ its) → passInv (its' ++ [it]) (pl ++ [it]) todo h ord.
Proof.
  intros [H1 H2 H3] Hnd Hi. split.
  - eapply sorted_impl; [|done]. intros. by apply before_app.
  - intros x Hx. apply elem_of_app. auto.
  - intros Ho x t Hx Ht Hb.
    assert (t ∈ pl) as Htp by auto.
    apply before_snoc_inv in Hb as [Hb|[-> _]].
    + apply elem_of_app in Hx as [Hx| ->%list_elem_of_singleton]; [eauto|].
      apply before_elem_l in Hb. exfalso.
      rewrite fmap_app in Hnd. apply NoDup_app in Hnd as (_ & Hd & _).
      apply (Hd (addr it)); set_solver.
    + exfalso. rewrite fmap_app in Hnd. apply NoDup_app in Hnd as (_ & Hd & _).
      apply (Hd (addr it)); set_solver.
Qed.

(** Past the head: it left the queue, or its subject is held. *)
Lemma pass_next its its' pl it todo h h' ord :
  passInv its pl (it :: todo) h ord → h ⊆ h' → (∀ x, x ∈ its' → x ∈ its) →
  (ord = true → it ∈ its' → subject it ∈ h') → passInv its' pl todo h' ord.
Proof.
  intros [H1 H2 H3] Hh Hi Hit. apply StronglySorted_inv in H1 as [??]. split; [done|set_solver|].
  intros Ho x t Hx Ht Hb. destruct (H3 Ho x t) as [?|[->|?]%elem_of_cons]; try set_solver.
Qed.

Lemma pass_start o u pl dl xl bl ord :
  Core o u pl dl xl bl → passInv (items o) pl (items o) ∅ ord.
Proof.
  intros C. split; [by apply sorted_sublist, C| |by auto].
  intros x Hx. eapply elem_of_sublist; [exact Hx|apply C].
Qed.

(** The head of a pass, not held back, is the oldest of its subject. *)
Lemma pass_head_oldest its pl it todo h x :
  passInv its pl (it :: todo) h true → NoDup (addr <$> pl) → subject it ∉ h →
  x ∈ its → before pl x it → subject x ≠ subject it.
Proof.
  intros [H1 H2 H3] Hnd Hs Hx Hb E. apply StronglySorted_inv in H1 as [_ HF].
  destruct (H3 eq_refl x it Hx ltac:(set_solver) Hb) as [?|[->|Hin]%elem_of_cons].
  - congruence.
  - by apply (before_irrefl addr) in Hb.
  - rewrite Forall_forall in HF. by apply (before_asym addr pl it x), Hb; [|apply HF].
Qed.

Definition locals (d : drainPC) : option (dlocals * option outboxItem) :=
  match d with
  | DStopped | DTop _ => None
  | DNext l | DPassEnd l => Some (l, None)
  | DAttempt l it _ _ | DSending l it _ | DAnswered l it _ _ | DRetry l it _ _ | DResult l it _ => Some (l, Some it)
  end.

(** The error the retry loop carries says what the bus answered. *)
Definition errInv (d : drainPC) (its bl : list outboxItem) : Prop :=
  match d with
  | DAttempt _ _ n e => (0 ≤ n)%Z ∧ (n = 0%Z ∨ e ≠ ENil) ∧ e ≠ EEvicted
  | DSending _ _ n => (0 ≤ n)%Z
  | DAnswered _ it n e => (0 ≤ n)%Z ∧ (e = ENil → it ∈ bl) ∧ e ≠ EEvicted
  | DRetry _ _ n e => (0 ≤ n)%Z ∧ e ≠ ENil ∧ e ≠ EEvicted
  | DResult _ it e => (e = ENil → it ∈ bl) ∧ (e = EEvicted → ∀ y, y ∈ its → addr y ≠ addr it)
  | _ => True
  end.

Definition running (d : drainPC) : bool := match d with DStopped => false | _ => true end.

Record drInv (o : outbox) (d : drainPC) (pl bl : list outboxItem) : Prop := {
  dr_running : draining o = running d;
  dr_retries : (0 < retries o)%Z;
  dr_pass : ∀ l oi, locals d = Some (l, oi) →
    passInv (items o) pl (option_list oi ++ pass l) (held l) (passOrdered l) ∧
    ∀ it, oi = Some it → passOrdered l = true → subject it ∉ held l;
  dr_err : errInv d (items o) bl }.

(** *** The emissions *)

Definition present (pl bl : list outboxItem) (k : addr_t) : Prop :=
  ∃ x, addr x = k ∧ (x ∈ pl ∨ x ∈ bl).

(** An emission that is settled is in the history, any other is not. *)
Definition settled (pc : emitPC) : bool := match pc with EKick RNil | ELen => true | _ => false end.

Record emInv (e : gmap addr_t emitter) (rs : gmap addr_t result) (u : gset addr_t)
    (pl bl : list outboxItem) : Prop := {
  em_key : ∀ k x, e !! k = Some x → addr (e_item x) = k ∧ k ∈ u ∧ rs !! k = None;
  em_state : ∀ k x, e !! k = Some x →
    if settled (e_pc x) then present pl bl k else ¬ present pl bl k;
  em_result : ∀ k r, rs !! k = Some r →
    k ∈ u ∧ match r with RNil => present pl bl k | _ => ¬ present pl bl k end }.

Record Inv (σ : sys) : Prop := {
  inv_core : Core (ob σ) (used σ) (parkLog σ) (drainLog σ) (dropLog σ) (busLog σ);
  inv_dr : drInv (ob σ) (dr σ) (parkLog σ) (busLog σ);
  inv_em : emInv (em σ) (results σ) (used σ) (parkLog σ) (busLog σ) }.

(** *** Moves of an emission *)

Lemma em_ext e rs u pl bl pl' bl' :
  emInv e rs u pl bl → (∀ k, present pl' bl' k ↔ present pl bl k) → emInv e rs u pl' bl'.
Proof.
  intros [H1 H2 H3] Hp. split; [done| |].
  - intros k x Hx. specialize (H2 k x Hx). destruct (settled _); by rewrite Hp.
  - intros k r Hr. destruct (H3 k r Hr) as [? Hk]. split; [done|]. destruct r; by rewrite Hp.
Qed.

Lemma em_goto e rs u pl bl pl' bl' k it pc pc' :
  emInv e rs u pl bl → e !! k = Some (mkEmitter it pc) →
  (∀ k', k' ≠ k → present pl' bl' k' ↔ present pl bl k') →
  (if settled pc' then present pl' bl' k else ¬ present pl' bl' k) →
  emInv (<[k := mkEmitter it pc']> e) rs u pl' bl'.
Proof.
  intros [H1 H2 H3] He Hp Hk. destruct (H1 _ _ He) as (Ha & Hu & Hr). split.
  - intros k' x [[<- <-]|[? Hx]]%lookup_insert_Some; eauto.
  - intros k' x [[<- <-]|[Hne Hx]]%lookup_insert_Some; [done|].
    specialize (H2 _ _ Hx). destruct (settled _); by rewrite Hp.
  - intros k' r Hr'. destruct (decide (k' = k)) as [->|Hne]; [congruence|].
    destruct (H3 k' r Hr') as [? Hq]. split; [done|]. destruct r; by rewrite Hp.
Qed.

Lemma em_return e rs u pl bl pl' bl' k it pc r :
  emInv e rs u pl bl → e !! k = Some (mkEmitter it pc) →
  (∀ k', k' ≠ k → present pl' bl' k' ↔ present pl bl k') →
  match r with RNil => present pl' bl' k | _ => ¬ present pl' bl' k end →
  emInv (delete k e) (<[k := r]> rs) u pl' bl'.
Proof.
  intros [H1 H2 H3] He Hp Hk. destruct (H1 _ _ He) as (Ha & Hu & Hr). split.
  - intros k' x [Hne Hx]%lookup_delete_Some. rewrite lookup_insert_ne by done. eauto.
  - intros k' x [Hne Hx]%lookup_delete_Some.
    specialize (H2 _ _ Hx). destruct (settled _); by rewrite Hp.
  - intros k' r' [[<- <-]|[Hne Hr']]%lookup_insert_Some; [done|].
    destruct (H3 k' r' Hr') as [? Hq]. split; [done|]. destruct r'; by rewrite Hp.
Qed.

Lemma present_park pl bl it k : present (pl ++ [it]) bl k ↔ present pl bl k ∨ addr it = k.
Proof. unfold present. set_solver. Qed.

Lemma present_bus pl bl l k :
  present pl (bl ++ l) k ↔ present pl bl k ∨ ∃ it, it ∈ l ∧ addr it = k.
Proof. unfold present. set_solver. Qed.

Lemma parkLocked_spec s m o o' vs :
  parkLocked s m o = (o', vs) → (0 < max o)%Z →
  ∃ l, o' = pushBack (mkItem s (Some m) None) vs l o ∧ l `sublist_of` items o ∧ items o ≡ₚ l ++ vs ∧
       (Z.of_nat (length (items o')) ≤ max o)%Z ∧ (∀ v, v ∈ vs → isEvent v = false → noEvents l).
Proof.
  unfold parkLocked. destruct (evict _ _) as [l vs'] eqn:E. intros [= <- <-] Hm.
  destruct (evict_spec _ _ _ _ E Hm) as (?&?&?&?). exists l. split_and!; try done.
  cbn. rewrite length_app. simpl. lia.
Qed.

(** The drain's part of the invariant across a park. *)
Lemma dr_push o d pl bl it l vs u dl xl :
  drInv o d pl bl → Core (pushBack it vs l o) u (pl ++ [it]) dl xl bl → l `sublist_of` items o →
  drInv (pushBack it vs l o) d (pl ++ [it]) bl.
Proof.
  intros D C Hs. pose proof (core_nodup _ _ _ _ _ _ C) as Hnd. split; try apply D.
  - intros lc oi Hl. destruct (dr_pass _ _ _ _ D lc oi Hl) as [HP Ho]. split; [|done].
    eapply (pass_push _ _ _ _ _ _ _ HP); [done|]. intros x Hx. by eapply elem_of_sublist.
  - pose proof (dr_err _ _ _ _ D) as He. destruct d as [| | | | | | |lc x e|]; try done.
    destruct He as [He1 He2]. split; [done|]. cbn. intros ->.
    destruct (dr_pass _ _ _ _ D lc (Some x) eq_refl) as [HP _].
    assert (x ∈ pl) as Hx by (apply (pass_parked _ _ _ _ _ HP); set_solver).
    intros y [Hy| ->%list_elem_of_singleton]%elem_of_app.
    + apply He2; [done|]. by eapply elem_of_sublist.
    + intros Ha. rewrite fmap_app in Hnd. apply NoDup_app in Hnd as (_ & Hd & _).
      apply (Hd (addr x)); [set_solver|]. rewrite <-Ha. set_solver.
Qed.

(** The parts of the invariant that a park of [it] by its emitter keeps. *)
Lemma inv_park σ it l vs k pc :
  Inv σ → em σ !! k = Some (mkEmitter it pc) → settled pc = false →
  l `sublist_of` items (ob σ) → items (ob σ) ≡ₚ l ++ vs →
  let o' := pushBack it vs l (ob σ) in
  Core o' (used σ) (parkLog σ ++ [it]) (drainLog σ) (dropLog σ ++ vs) (busLog σ) ∧
  drInv o' (dr σ) (parkLog σ ++ [it]) (busLog σ) ∧
  (∀ k', k' ≠ k → present (parkLog σ ++ [it]) (busLog σ) k' ↔ present (parkLog σ) (busLog σ) k') ∧
  present (parkLog σ ++ [it]) (busLog σ) k.
Proof.
  intros [C D E] He Hpc Hs Hp. destruct (em_key _ _ _ _ _ E _ _ He) as (Hk & Hu & _). cbn in Hk.
  pose proof (em_state _ _ _ _ _ E _ _ He) as Hn. cbn in Hn. rewrite Hpc in Hn.
  assert (Core (pushBack it vs l (ob σ)) (used σ) (parkLog σ ++ [it]) (drainLog σ) (dropLog σ ++ vs) (busLog σ)) as C'.
  { apply core_push; try done; [by rewrite Hk|]. intros x Hx Hxa. apply Hn. exists x. split; [congruence|auto]. }
  split_and!; [done|by eapply dr_push| |].
  - intros k' Hne. rewrite present_park. naive_solver.
  - rewrite present_park. auto.
Qed.

(** *** The steps *)

Lemma dr_flags o o' d d' pl bl :
  drInv o d pl bl → items o' = items o → (0 < retries o')%Z → draining o' = running d' →
  (locals d' = None ∨ locals d' = locals d) → errInv d' (items o) bl → drInv o' d' pl bl.
Proof.
  intros [H1 H2 H3 H4] Ei Hr Hd Hl He. split; try done; [|by rewrite Ei]. intros l oi E. rewrite Ei.
  destruct Hl as [Hl|Hl]; rewrite Hl in E; [done|eauto].
Qed.

Lemma kick_inv q σ : Inv σ → Inv (kickDrain q σ).
Proof.
  intros [C D E]. unfold kickDrain, beginDrain. destruct (draining (ob σ)) eqn:Ed; cbn; split; cbn; try done.
  - eapply core_flags; [done|apply C|done..].
  - eapply dr_flags; [done|done|apply D| |by right|apply D]. cbn. rewrite <-Ed. apply D.
  - eapply core_flags; [done|apply C|done..].
  - eapply dr_flags; [done|done|apply D|done|by left|done].
Qed.

Lemma waitClear_inv i k it pc σ σ' :
  Inv σ → em σ !! k = Some (mkEmitter it pc) → waitClear i k it pc σ = Some σ' → Inv σ'.
Proof.
  intros [C D E] He H.
  assert (settled pc = false → ∀ pc', settled pc' = false → Inv (goto k it pc' σ)) as Hg.
  { intros Hpc pc' Hpc'. split; cbn; [done|done|]. eapply em_goto; [done..|]. rewrite Hpc'.
    pose proof (em_state _ _ _ _ _ E _ _ He) as Hn. cbn in Hn. by rewrite Hpc in Hn. }
  destruct pc; simpl in H; repeat case_match; simplify_eq; by apply Hg.
Qed.

Section emit_steps.
Context (i : input) (k : addr_t) (it : outboxItem) (pc : emitPC) (σ : sys).
Hypothesis I : Inv σ.
Hypothesis He : em σ !! k = Some (mkEmitter it pc).

Lemma goto_inv pc' : settled pc' = settled pc → Inv (goto k it pc' σ).
Proof.
  intros Hs. destruct I as [C D E]. split; cbn; [done|done|]. eapply em_goto; [done..|].
  rewrite Hs. apply (em_state _ _ _ _ _ E _ _ He).
Qed.

Lemma return_inv r :
  (if settled pc then r = RNil else r ≠ RNil) → Inv (return_ k r σ).
Proof.
  intros Hs. destruct I as [C D E]. split; cbn; [done|done|]. eapply em_return; [done..|].
  pose proof (em_state _ _ _ _ _ E _ _ He) as Hn. cbn in Hn.
  destruct (settled pc); [by subst|by destruct r].
Qed.

Lemma park_goto_inv l vs pc' :
  settled pc = false → settled pc' = true →
  l `sublist_of` items (ob σ) → items (ob σ) ≡ₚ l ++ vs →
  Inv (goto k it pc' (log_park it vs (with_ob (pushBack it vs l (ob σ)) σ))).
Proof.
  intros Hs Hs' Hl Hp. destruct (inv_park σ it l vs k pc I He Hs Hl Hp) as (C & D & P & Pk).
  split; cbn; [done..|]. eapply em_goto; [apply I|done|done|]. by rewrite Hs'.
Qed.

Lemma park_return_inv l vs :
  settled pc = false → l `sublist_of` items (ob σ) → items (ob σ) ≡ₚ l ++ vs →
  Inv (return_ k RNil (log_park it vs (with_ob (pushBack it vs l (ob σ)) σ))).
Proof.
  intros Hs Hl Hp. destruct (inv_park σ it l vs k pc I He Hs Hl Hp) as (C & D & P & Pk).
  split; cbn; [done..|]. eapply em_return; [apply I|done|done|done].
Qed.

Lemma sent_inv : settled pc = false → Inv (goto k it ELen (log_bus [it] σ)).
Proof.
  intros Hs. destruct I as [C D E]. destruct (em_key _ _ _ _ _ E _ _ He) as (Hk & Hu & _). cbn in Hk.
  split; cbn.
  - apply core_bus; [done|]. intros x ->%list_elem_of_singleton. by rewrite Hk.
  - destruct D as [D1 D2 D3 D4]. split; try done. destruct (dr σ); naive_solver set_solver.
  - eapply em_goto; [done..| |cbn [settled]]; intros; rewrite present_bus; set_solver.
Qed.

Lemma kicked_inv r :
  (if settled pc then r = RNil else r ≠ RNil) → Inv (return_ k r (kickDrain true σ)).
Proof.
  intros Hs. assert (em (kickDrain true σ) = em σ ∧ results (kickDrain true σ) = results σ ∧
    used (kickDrain true σ) = used σ ∧ parkLog (kickDrain true σ) = parkLog σ ∧
    busLog (kickDrain true σ) = busLog σ) as (E1 & E2 & E3 & E4 & E5).
  { unfold kickDrain. destruct (beginDrain _ _) as [? []]; done. }
  pose proof (kick_inv true _ I) as [C D E]. split; cbn; [done|done|]. eapply em_return; [done| | |].
  - rewrite E1. done.
  - done.
  - destruct I as [_ _ E']. rewrite E4, E5. pose proof (em_state _ _ _ _ _ E' _ _ He) as Hn. cbn in Hn.
    destruct (settled pc); [by subst|by destruct r].
Qed.

End emit_steps.

Lemma publishPortTail_inv i k it pc σ m σ' :
  Inv σ → em σ !! k = Some (mkEmitter it pc) → msg it = Some m → event it = None → publishPortTail i k it m pc σ = Some σ' → Inv σ'.
Proof.
  intros I He Hm Hev H. assert (mkItem (subject it) (Some m) None = it) as Eit by (destruct it; naive_solver).
  assert (0 < max (ob σ))%Z as Hmax by apply I.
  destruct pc; cbn [publishPortTail] in H; try by eapply waitClear_inv; [..|exact H].
  - unfold parkIfHeld in H. destruct (negb _ || negb _); simplify_eq; [by eapply goto_inv|].
    destruct (parkLocked _ _ _) as [o vs] eqn:Ep. simplify_eq.
    destruct (parkLocked_spec _ _ _ _ _ Ep Hmax) as (l & -> & ? & ? & _). rewrite Eit.
    by eapply park_goto_inv.
  - simplify_eq. eapply kicked_inv; [done..|]. pose proof (em_state _ _ _ _ _ (inv_em _ I) _ _ He) as Hn. by destruct r.
  - destruct (ans i); simplify_eq; try (by eapply goto_inv); [by eapply sent_inv|by eapply return_inv].
  - unfold park in H. destruct (parkLocked _ _ _) as [o vs] eqn:Ep. simplify_eq.
    destruct (parkLocked_spec _ _ _ _ _ Ep Hmax) as (l & -> & ? & ? & _). rewrite Eit.
    by eapply park_return_inv.
  - destruct (0 <? _)%Z; simplify_eq; [by eapply goto_inv|by eapply return_inv].
Qed.

Lemma publishEvent_inv i k it pc σ ev σ' :
  Inv σ → em σ !! k = Some (mkEmitter it pc) → msg it = None → event it = Some ev → publishEvent i k it ev pc σ = Some σ' → Inv σ'.
Proof.
  intros I He Hm Hev H. assert (mkItem (subject it) None (Some ev) = it) as Eit by (destruct it; naive_solver).
  assert (items (ob σ) ≡ₚ items (ob σ) ++ []) as Hnil by by rewrite app_nil_r.
  destruct pc; cbn [publishEvent] in H; try by eapply waitClear_inv; [..|exact H].
  - unfold parkEventIfHeld, parkEventLocked in H.
    destruct (negb _ || negb _); simplify_eq; [by eapply goto_inv|].
    destruct (_ <=? _)%Z; simplify_eq.
    + split; [apply I..|]. by eapply (goto_inv _ _ _ _ I He (EKick RFull)).
    + rewrite Eit. by eapply park_goto_inv.
  - simplify_eq. eapply kicked_inv; [done..|]. by destruct r.
  - destruct (ans i); simplify_eq; try (by eapply goto_inv). by eapply sent_inv.
  - unfold parkEvent, parkEventLocked in H. destruct (_ <=? _)%Z; simplify_eq.
    + split; [apply I..|]. by eapply (return_inv _ _ _ _ I He RFull).
    + rewrite Eit. by eapply park_return_inv.
  - destruct (0 <? _)%Z; simplify_eq; [by eapply goto_inv|by eapply return_inv].
Qed.

Lemma emitStep_inv i k σ σ' : Inv σ → emitStep i k σ = Some σ' → Inv σ'.
Proof.
  intros I H. apply bind_Some in H as ([it pc] & He & H). cbn in H.
  destruct (msg it) as [m|] eqn:Em, (event it) as [ev|] eqn:Ee; try done.
  - by eapply publishPortTail_inv.
  - by eapply publishEvent_inv.
Qed.

(** A step of the drain that changes only flags and the program counter. *)
Lemma inv_move σ d o :
  Inv σ → items o = items (ob σ) → max o = max (ob σ) → retries o = retries (ob σ) →
  dropped o = dropped (ob σ) → parked o = parked (ob σ) → drained o = drained (ob σ) →
  drInv o d (parkLog σ) (busLog σ) → Inv (with_dr d (with_ob o σ)).
Proof.
  intros [C D E] Ei Em Er E1 E2 E3 Hd. split; cbn; [|done|done].
  eapply core_flags; [done| |done..]. rewrite Em. apply C.
Qed.

Lemma inv_goto_dr σ d : Inv σ → drInv (ob σ) d (parkLog σ) (busLog σ) → Inv (with_dr d σ).
Proof. intros [C D E] Hd. by split. Qed.

(** The same locals and current item under another program counter. *)
Lemma dr_same o o' d d' pl bl :
  drInv o d pl bl → locals d' = locals d → running d = true → running d' = true →
  items o' = items o → retries o' = retries o → draining o' = draining o →
  errInv d' (items o) bl → drInv o' d' pl bl.
Proof.
  intros D Hl Hr Hr' Ei Er Ed He. eapply dr_flags; [done|done| | |by right|done].
  - rewrite Er. apply D.
  - rewrite Ed, Hr', (dr_running _ _ _ _ D). done.
Qed.

Lemma setBusState_fields st o :
  items (setBusState st o) = items o ∧ max (setBusState st o) = max o ∧
  retries (setBusState st o) = retries o ∧ draining (setBusState st o) = draining o ∧
  dropped (setBusState st o) = dropped o ∧ parked (setBusState st o) = parked o ∧
  drained (setBusState st o) = drained o ∧ ordered (setBusState st o) = ordered o ∧
  again (setBusState st o) = again o.
Proof. unfold setBusState. by case_bool_decide. Qed.

Lemma stopped_inv σ : Inv σ → Inv (with_dr DStopped (with_ob (stop (ob σ)) σ)).
Proof.
  intros I. apply inv_move; try done. eapply dr_flags; [apply I|done|apply I|done|by left|done].
Qed.

Lemma drainTop_inv i q σ : Inv σ → dr σ = DTop q → Inv (drainTop i q σ).
Proof.
  intros I Hd. unfold drainTop. destruct (_ || _); [by apply stopped_inv|].
  apply inv_goto_dr; [done|]. destruct I as [C D E]. rewrite Hd in D. split; try apply D.
  intros l oi [= <- <-]. cbn. split; [|done]. by eapply pass_start.
Qed.

Lemma drainNext_inv i l σ : Inv σ → dr σ = DNext l → Inv (drainNext i l σ).
Proof.
  intros I Hd. pose proof (inv_dr _ I) as D. rewrite Hd in D.
  destruct (dr_pass _ _ _ _ D l None eq_refl) as [HP _].
  unfold drainNext. destruct l as [q p ord h f]. cbn in HP.
  destruct p as [|it rest].
  { apply inv_goto_dr; [done|]. eapply dr_same; done. }
  destruct (ctxDone i); [by apply stopped_inv|].
  destruct (ord && _) eqn:Eh; apply inv_goto_dr; try done; split; try apply D; try done;
    try (intros l oi [= <- <-]; cbn).
  - apply andb_true_iff in Eh as [-> Eh%bool_decide_eq_true]. split; [|done].
    eapply pass_next; [done..|]. auto.
  - split; [done|]. intros x [= <-] ->. by apply bool_decide_eq_false in Eh.
  - split; [lia|auto].
Qed.

Lemma drainAttempt_inv i l it n err σ :
  Inv σ → dr σ = DAttempt l it n err → Inv (drainAttempt i l it n err σ).
Proof.
  intros I Hd. pose proof (inv_dr _ I) as D. rewrite Hd in D.
  destruct (dr_err _ _ _ _ D) as (Hn & He & Hv). pose proof (dr_retries _ _ _ _ D) as Hr.
  unfold drainAttempt. destruct (Z.ltb_spec (retries (ob σ)) n);
    [|destruct (ctxDone i); [|destruct (holds _ _) eqn:Hh]]; apply inv_goto_dr; try done;
    eapply dr_same; try done; cbn.
  - split; [|done]. destruct He as [->|He]; [lia|done].
  - split; [done|]. intros _ y Hy Ha. apply not_true_iff_false in Hh. apply Hh, existsb_exists.
    exists y. rewrite <-list_elem_of_In. split; [done|]. by apply bool_decide_eq_true.
Qed.

Lemma current_parked o d pl bl l it :
  drInv o d pl bl → locals d = Some (l, Some it) → it ∈ pl.
Proof. intros D H. destruct (dr_pass _ _ _ _ D _ _ H) as [HP _]. apply (pass_parked _ _ _ _ _ HP). set_solver. Qed.

Lemma drainSending_inv i l it n σ :
  Inv σ → dr σ = DSending l it n → Inv (drainSending i l it n σ).
Proof.
  intros [C D E] Hd. rewrite Hd in D. pose proof (current_parked _ _ _ _ _ _ D eq_refl) as Hit.
  assert (∀ x, x ∈ acceptedBy (ans i) it → x = it) as Hx by (destruct (ans i); set_solver).
  split; cbn.
  - apply core_bus; [done|]. intros x ->%Hx. apply C. auto.
  - destruct D as [D1 D2 D3 D4]. split; try done. cbn. split; [done|].
    destruct (ans i); cbn; (split; [|done]); try done. intros _. set_solver.
  - eapply em_ext; [done|]. intros k. rewrite present_bus. split; [|auto].
    intros [?|(x & ->%Hx & <-)]; [done|]. exists it. auto.
Qed.

Lemma drainAnswered_inv l it n err σ :
  Inv σ → dr σ = DAnswered l it n err → Inv (drainAnswered l it n err σ).
Proof.
  intros I Hd. pose proof (inv_dr _ I) as D. rewrite Hd in D. destruct (dr_err _ _ _ _ D) as (Hn & He & Hv).
  unfold drainAnswered. destruct err;
    (match goal with |- context [setBusState ?s _] =>
       destruct (setBusState_fields s (ob σ)) as (?&?&?&?&?&?&?&?&?) end);
    (apply inv_move; try done); eapply dr_same; try done.
Qed.

Lemma drainRetry_inv i l it n err σ :
  Inv σ → dr σ = DRetry l it n err → Inv (drainRetry i l it n err σ).
Proof.
  intros I Hd. pose proof (inv_dr _ I) as D. rewrite Hd in D. destruct (dr_err _ _ _ _ D) as (Hn & He & Hv).
  unfold drainRetry. destruct (ctxDone i); apply inv_goto_dr; try done; eapply dr_same; try done.
  cbn. split; [lia|auto].
Qed.

Lemma drainPassEnd_inv l σ : Inv σ → dr σ = DPassEnd l → Inv (drainPassEnd l σ).
Proof.
  intros I Hd. pose proof (inv_dr _ I) as D. rewrite Hd in D. pose proof (dr_running _ _ _ _ D) as Hr.
  unfold drainPassEnd. case_bool_decide; [destruct (again (ob σ)) eqn:Ea|].
  - apply inv_move; try done. eapply dr_flags; [done|done|apply D|done|by left|done].
  - apply inv_move; try done. eapply dr_flags; [done|done|apply D|done|by left|done].
  - apply inv_goto_dr; [done|]. eapply dr_flags; [done|done|apply D|done|by left|done].
Qed.

Lemma drainResult_inv l it err σ : Inv σ → dr σ = DResult l it err → Inv (drainResult l it err σ).
Proof.
  intros I Hd. pose proof I as [C D E]. rewrite Hd in D.
  pose proof (current_parked _ _ _ _ _ _ D eq_refl) as Hit.
  destruct (dr_pass _ _ _ _ D l (Some it) eq_refl) as [HP _]. pose proof (dr_running _ _ _ _ D) as Hr.
  unfold drainResult. destruct l as [q p ord h f]. cbn in HP.
  assert (∀ b o x, remove it b (ob σ) = (o, x) → ∀ y, y ∈ items o → y ∈ items (ob σ) ∧ y ≠ it) as Hrm.
  { intros b o x Hx. destruct (remove_spec _ _ _ _ _ Hx) as (_&_&_&_&_&_&_&Hs&Hp&H1&H2).
    intros y Hy. split; [by eapply elem_of_sublist|]. intros ->. destruct x as [z|]; [|by eapply H2].
    destruct (H1 z eq_refl) as [Ha Hz].
    pose proof (core_nodup _ _ _ _ _ _ C) as Hnd. rewrite (core_perm _ _ _ _ _ _ C), Hp in Hnd. simpl in Hnd.
    apply NoDup_cons in Hnd as [Hnd _]. apply Hnd. rewrite Ha. set_solver. }
  assert (∀ b o x bl, remove it b (ob σ) = (o, x) →
    drInv o (DNext (mkLocals q p ord h (S f))) (parkLog σ) bl) as Hdr.
  { intros b o x bl Hx. destruct (remove_spec _ _ _ _ _ Hx) as (_&Er&_&Ed&_). split; try done.
    - by rewrite Ed, Hr.
    - rewrite Er. apply D.
    - intros l oi [= <- <-]. split; [|done]. eapply pass_next; [exact HP|done| |].
      + intros y Hy. by eapply Hrm.
      + intros _ Hin. by destruct (Hrm _ _ _ Hx _ Hin). }
  destruct err.
  - destruct (remove it false (ob σ)) as [o x] eqn:Ex. split; cbn; [|by eapply Hdr|done].
    eapply core_remove_drain; try done. by apply (dr_err _ _ _ _ D).
  - destruct (remove it true (ob σ)) as [o x] eqn:Ex. split; cbn; [|by eapply Hdr|done].
    by eapply core_remove_drop.
  - apply inv_goto_dr; [done|]. split; try done; [apply D|]. intros l oi [= <- <-]. split; [|done]. cbn.
    eapply pass_next; [exact HP|set_solver|done|set_solver].
  - apply inv_goto_dr; [done|]. split; try done; [apply D|]. intros l oi [= <- <-]. split; [|done]. cbn.
    destruct (dr_err _ _ _ _ D) as [_ Hv]. eapply pass_next; [exact HP|done|done|].
    intros _ Hin. by destruct (Hv eq_refl it Hin).
  - apply inv_goto_dr; [done|]. split; try done; [apply D|]. intros l oi [= <- <-]. split; [|done]. cbn.
    eapply pass_next; [exact HP|set_solver|done|set_solver].
Qed.

Lemma drainStep_inv i σ σ' : Inv σ → drainStep i σ = Some σ' → Inv σ'.
Proof.
  intros I H. unfold drainStep in H. destruct (dr σ) eqn:Hd; simplify_eq;
    eauto using drainTop_inv, drainNext_inv, drainAttempt_inv, drainSending_inv, drainAnswered_inv,
      drainRetry_inv, drainResult_inv, drainPassEnd_inv.
Qed.

Lemma emitBegin_inv it σ σ' : Inv σ → emitBegin it σ = Some σ' → Inv σ'.
Proof.
  intros [C D E] H. unfold emitBegin in H.
  assert (addr it ∉ used σ → Inv (mkSys (ob σ) (dr σ) (<[addr it := mkEmitter it EEnter]> (em σ)) (results σ)
    ({[addr it]} ∪ used σ) (parkLog σ) (drainLog σ) (dropLog σ) (busLog σ))) as Hi.
  { intros Hn. split; cbn; [|done|].
    - destruct C. split; set_solver.
    - destruct E as [E1 E2 E3]. split.
      + intros k x [[<- <-]|[? Hx]]%lookup_insert_Some; [|set_solver].
        split_and!; [done|set_solver|]. apply eq_None_not_Some. intros [r Hr]. by apply E3 in Hr as [? _].
      + intros k x [[<- <-]|[? Hx]]%lookup_insert_Some; [|by apply E2]. cbn.
        intros (x & Ha & Hx). apply Hn. rewrite <-Ha. by apply C.
      + intros k r Hr. apply E3 in Hr as [??]. set_solver. }
  destruct (msg it), (event it); try done; case_decide; simplify_eq; by apply Hi.
Qed.

Lemma orDefault_pos n d : (0 < d)%Z → (0 < orDefault n d)%Z.
Proof. unfold orDefault. destruct (Z.leb_spec n 0); lia. Qed.

Lemma outbox_step_inv a σ σ' : Inv σ → step a σ = Some σ' → Inv σ'.
Proof.
  intros I H. destruct a; cbn in H.
  - by eapply emitBegin_inv.
  - by eapply emitStep_inv.
  - by eapply drainStep_inv.
  - simplify_eq. by apply kick_inv.
  - destruct (hasEvents _); simplify_eq; [by apply kick_inv|done].
  - unfold SetOutboxConfig in H. destruct (ValidateOutboxOrder order); simplify_eq/=.
    destruct I as [C D E]. split; cbn; [|by destruct D; split; [..|by apply orDefault_pos|done|done]|done].
    eapply core_flags; [done| |done..]. by apply orDefault_pos.
  - simplify_eq. destruct I as [C D E]. split; cbn; [|by destruct D; split|done].
    eapply core_flags; [done|apply C|done..].
Qed.

Lemma outbox_steps_inv l σ σ' : Inv σ → steps l σ = Some σ' → Inv σ'.
Proof.
  revert σ. induction l as [|a l IH]; intros σ I H; simplify_eq/=; [done|].
  apply bind_Some in H as (σ1 & H1 & H2). eauto using outbox_step_inv.
Qed.

Lemma outbox_initial_inv mx r : Inv (initial mx r).
Proof.
  split.
  - split; cbn; try done; [by apply orDefault_pos|constructor|set_solver].
  - split; cbn; try done. by apply orDefault_pos.
  - split; set_solver.
Qed.

(** A state the system can reach from a new outbox. *)
Definition reachable (mx r : Z) (l : list label) (σ : sys) : Prop := steps l (initial mx r) = Some σ.

Lemma outbox_reachable_inv mx r l σ : reachable mx r l σ → Inv σ.
Proof. apply outbox_steps_inv, outbox_initial_inv. Qed.

(** ** What a step can do to the queue and to the bus *)

(** Where an emission parks. *)
Definition parking (pc : emitPC) : bool := match pc with ECheck | EPark => true | _ => false end.

Lemma parking_unsettled pc : parking pc = true → settled pc = false.
Proof. by destruct pc. Qed.

Inductive effect (σ σ' : sys) : Prop :=
| eff_quiet :
    parkLog σ' = parkLog σ → busLog σ' = busLog σ → items (ob σ') `sublist_of` items (ob σ) → effect σ σ'
| eff_parked it k pc :
    em σ !! k = Some (mkEmitter it pc) → parking pc = true → parkLog σ' = parkLog σ ++ [it] →
    busLog σ' = busLog σ → (len (ob σ') ≤ max (ob σ))%Z →
    (∀ x, x ∈ items (ob σ') → x ∈ items (ob σ) ∨ x = it) → effect σ σ'
| eff_live it k :
    em σ !! k = Some (mkEmitter it EPublish) → parkLog σ' = parkLog σ → busLog σ' = busLog σ ++ [it] →
    items (ob σ') = items (ob σ) → effect σ σ'
| eff_drain l it n :
    dr σ = DSending l it n → parkLog σ' = parkLog σ → busLog σ' = busLog σ ++ [it] →
    items (ob σ') = items (ob σ) → effect σ σ'.

(** The parts a step leaves alone. *)
Record framed (σ σ' : sys) : Prop := {
  fr_max : max (ob σ') = max (ob σ);
  fr_ordered : ordered (ob σ') = ordered (ob σ);
  fr_drops : ∀ x, x ∈ dropLog σ → x ∈ dropLog σ';
  fr_locals : ∀ l oi, locals (dr σ') = Some (l, oi) →
    passOrdered l = ordered (ob σ) ∨ ∃ l' oi', locals (dr σ) = Some (l', oi') ∧ passOrdered l = passOrdered l' }.

Ltac framed_tac :=
  split; cbn; rewrite ?elem_of_app; eauto using or_introl;
  try (intros ? ?; rewrite ?elem_of_app; eauto; fail);
  try (let H := fresh in intros ? ? H; simplify_eq/=; try match goal with Hd : dr _ = _ |- _ => rewrite Hd end; eauto 8; fail).

Lemma kick_effect q σ : effect σ (kickDrain q σ) ∧ framed σ (kickDrain q σ).
Proof.
  unfold kickDrain, beginDrain. destruct (draining (ob σ)); cbn; split;
    first [by apply eff_quiet | by framed_tac].
Qed.

Lemma effect_return k r σ σ' : effect σ σ' → effect σ (return_ k r σ').
Proof.
  destruct 1; [by apply eff_quiet|by eapply eff_parked|by eapply eff_live|by eapply eff_drain].
Qed.

Lemma framed_return k r σ σ' : framed σ σ' → framed σ (return_ k r σ').
Proof. by destruct 1; split. Qed.

Lemma remove_fields it d o o' x :
  remove it d o = (o', x) → items o' `sublist_of` items o ∧ max o' = max o ∧ ordered o' = ordered o.
Proof. intros H. destruct (remove_spec _ _ _ _ _ H) as (?&?&?&?&?&?&?&?&_). done. Qed.

Lemma drainStep_effect i σ σ' : drainStep i σ = Some σ' → effect σ σ' ∧ framed σ σ'.
Proof.
  unfold drainStep. intros H. destruct (dr σ) eqn:Hd; simplify_eq.
  - unfold drainTop. destruct (_ || _); (split; [by apply eff_quiet|]); framed_tac.
  - unfold drainNext. destruct l as [q [|x p] ord h f]; [|destruct (ctxDone i); [|destruct (ord && _)]];
      (split; [by apply eff_quiet|]); framed_tac.
  - unfold drainAttempt. repeat case_match; (split; [by apply eff_quiet|]); framed_tac.
  - unfold drainSending. split; [|framed_tac].
    destruct (ans i); cbn; rewrite ?app_nil_r;
      [by eapply eff_drain|apply eff_quiet; cbn; rewrite ?app_nil_r; done..].
  - unfold drainAnswered. destruct err; (match goal with |- context [setBusState ?s _] =>
       destruct (setBusState_fields s (ob σ)) as (E&?&?&?&?&?&?&?&?) end);
      (split; [apply eff_quiet; cbn; rewrite ?E; done|]); framed_tac.
  - unfold drainRetry. repeat case_match; (split; [by apply eff_quiet|]); framed_tac.
  - unfold drainResult. destruct l as [q p ord h f].
    destruct err; try (split; [by apply eff_quiet|]; framed_tac);
    destruct (remove it _ (ob σ)) as [o x] eqn:E; destruct (remove_fields _ _ _ _ _ E) as (?&?&?);
      (split; [by apply eff_quiet|]); framed_tac.
  - unfold drainPassEnd. repeat case_match; (split; [by apply eff_quiet|]); framed_tac.
Qed.

Lemma waitClear_effect i k it pc σ σ' :
  waitClear i k it pc σ = Some σ' → effect σ σ' ∧ framed σ σ'.
Proof.
  destruct pc; simpl; intros; repeat case_match; simplify_eq; (split; [by apply eff_quiet|]); framed_tac.
Qed.

Lemma push_elems s m ev it l vs o :
  mkItem s m ev = it → l `sublist_of` items o →
  ∀ x, x ∈ items (pushBack (mkItem s m ev) vs l o) → x ∈ items o ∨ x = it.
Proof.
  intros -> Hl x [Hx| ->%list_elem_of_singleton]%elem_of_app; [left|by right].
  by eapply elem_of_sublist.
Qed.

Lemma publishPortTail_effect i k it m pc σ σ' :
  Inv σ → em σ !! k = Some (mkEmitter it pc) → msg it = Some m → event it = None →
  publishPortTail i k it m pc σ = Some σ' → effect σ σ' ∧ framed σ σ'.
Proof.
  intros I He Hm Hev H. assert (0 < max (ob σ))%Z as Hmax by apply I.
  assert (mkItem (subject it) (Some m) None = it) as Eit by (destruct it; naive_solver).
  destruct pc; cbn [publishPortTail] in H; try by eapply waitClear_effect.
  - unfold parkIfHeld in H. destruct (negb _ || negb _); simplify_eq.
    { split; [by apply eff_quiet|framed_tac]. }
    destruct (parkLocked _ _ _) as [o vs] eqn:Ep. simplify_eq.
    destruct (parkLocked_spec _ _ _ _ _ Ep Hmax) as (l & -> & Hl & ? & ? & _).
    split; [eapply eff_parked; try done; by eapply push_elems|framed_tac].
  - simplify_eq. destruct (kick_effect true σ). split; [by apply effect_return|by apply framed_return].
  - destruct (ans i); simplify_eq; (split; [|framed_tac]); first [by apply eff_quiet|by eapply eff_live].
  - unfold park in H. destruct (parkLocked _ _ _) as [o vs] eqn:Ep. simplify_eq.
    destruct (parkLocked_spec _ _ _ _ _ Ep Hmax) as (l & -> & Hl & ? & ? & _).
    split; [eapply eff_parked; try done; by eapply push_elems|framed_tac].
  - destruct (0 <? _)%Z; simplify_eq; (split; [by apply eff_quiet|framed_tac]).
Qed.

Lemma push_len it o :
  (Z.of_nat (length (items o)) < max o)%Z → (len (pushBack it [] (items o) o) ≤ max o)%Z.
Proof. intros. unfold len. cbn. rewrite length_app. simpl. lia. Qed.

Lemma publishEvent_effect i k it ev pc σ σ' :
  em σ !! k = Some (mkEmitter it pc) → msg it = None → event it = Some ev →
  publishEvent i k it ev pc σ = Some σ' → effect σ σ' ∧ framed σ σ'.
Proof.
  intros He Hm Hev H.
  assert (mkItem (subject it) None (Some ev) = it) as Eit by (destruct it; naive_solver).
  destruct pc; cbn [publishEvent] in H; try by eapply waitClear_effect.
  - unfold parkEventIfHeld, parkEventLocked in H.
    destruct (negb _ || negb _); simplify_eq; [split; [by apply eff_quiet|framed_tac]|].
    destruct (Z.leb_spec (max (ob σ)) (Z.of_nat (length (items (ob σ))))); simplify_eq.
    + split; [by apply eff_quiet|framed_tac].
    + split; [eapply eff_parked; try done; [by apply push_len|by eapply push_elems]|framed_tac].
  - simplify_eq. destruct (kick_effect true σ). split; [by apply effect_return|by apply framed_return].
  - destruct (ans i); simplify_eq; (split; [|framed_tac]); first [by apply eff_quiet|by eapply eff_live].
  - unfold parkEvent, parkEventLocked in H.
    destruct (Z.leb_spec (max (ob σ)) (Z.of_nat (length (items (ob σ))))); simplify_eq.
    + split; [by apply eff_quiet|framed_tac].
    + split; [eapply eff_parked; try done; [by apply push_len|by eapply push_elems]|framed_tac].
  - destruct (0 <? _)%Z; simplify_eq; (split; [by apply eff_quiet|framed_tac]).
Qed.

(** [SetOutboxConfig] is the one step that changes the cap or the order. *)
Definition isConfig (a : label) : bool := match a with LConfig _ _ _ => true | _ => false end.

Lemma outbox_step_effect a σ σ' :
  Inv σ → step a σ = Some σ' →
  effect σ σ' ∧ if isConfig a then dropLog σ' = dropLog σ ∧ dr σ' = dr σ else framed σ σ'.
Proof.
  intros I H. destruct a; cbn in H |- *.
  - unfold emitBegin in H. destruct (msg it), (event it); try done; case_decide; simplify_eq;
      (split; [by apply eff_quiet|framed_tac]).
  - apply bind_Some in H as ([it pc] & He & H). cbn in H.
    destruct (msg it) as [m|] eqn:Em, (event it) as [ev|] eqn:Ee; try done.
    + by eapply publishPortTail_effect.
    + by eapply publishEvent_effect.
  - by eapply drainStep_effect.
  - simplify_eq. apply kick_effect.
  - destruct (hasEvents _); simplify_eq; [apply kick_effect|]. split; [by apply eff_quiet|framed_tac].
  - apply fmap_Some in H as (o & H & ->). unfold SetOutboxConfig in H.
    destruct (ValidateOutboxOrder order); simplify_eq/=. split; [by apply eff_quiet|done].
  - simplify_eq. split; [by apply eff_quiet|framed_tac].
Qed.

Lemma len_sublist o o' : items o' `sublist_of` items o → (len o' ≤ len o)%Z.
Proof. intros H%sublist_length. unfold len. lia. Qed.

Lemma step_bound a σ σ' :
  Inv σ → step a σ = Some σ' → isConfig a = false →
  (len (ob σ) ≤ max (ob σ))%Z → (len (ob σ') ≤ max (ob σ'))%Z.
Proof.
  intros I H Ha Hb. destruct (outbox_step_effect _ _ _ I H) as [Heff Hfr]. rewrite Ha in Hfr.
  rewrite (fr_max _ _ Hfr). destruct Heff as [?? Hs| |??? ?? Hi|???? ?? Hi]; try lia.
  - apply len_sublist in Hs. lia.
  - unfold len in *. by rewrite Hi.
  - unfold len in *. by rewrite Hi.
Qed.

Lemma steps_bound l σ σ' :
  Inv σ → steps l σ = Some σ' → Forall (λ a, isConfig a = false) l →
  (len (ob σ) ≤ max (ob σ))%Z → (len (ob σ') ≤ max (ob σ'))%Z.
Proof.
  revert σ. induction l as [|a l IH]; intros σ I H Hl Hb; simplify_eq/=; [done|].
  apply bind_Some in H as (σ1 & H1 & H2). inversion_clear Hl. eauto using outbox_step_inv, step_bound.
Qed.

(** C6: the outbox accounts for every emission, under any interleaving of
    emissions, drains, bus answers and configuration changes: what was ever parked
    is exactly what is still queued, what the drain forwarded and what was dropped,
    each once, with the counters equal to those numbers; what counts as forwarded
    was accepted by the bus; an emission that was told success was either accepted
    by the bus or parked, and one that was told an error was neither; and without a
    configuration change the queue never exceeds its cap. *)
Theorem outbox_accounting mx r l σ :
  reachable mx r l σ →
  parked (ob σ) = (len (ob σ) + drained (ob σ) + dropped (ob σ))%Z ∧
  parkLog σ ≡ₚ items (ob σ) ++ drainLog σ ++ dropLog σ ∧
  NoDup (addr <$> items (ob σ) ++ drainLog σ ++ dropLog σ) ∧
  drained (ob σ) = Z.of_nat (length (drainLog σ)) ∧
  dropped (ob σ) = Z.of_nat (length (dropLog σ)) ∧
  (∀ x, x ∈ drainLog σ → x ∈ busLog σ) ∧
  (∀ k res, results σ !! k = Some res →
     (res = RNil ↔ ∃ x, addr x = k ∧ (x ∈ parkLog σ ∨ x ∈ busLog σ))) ∧
  (Forall (λ a, isConfig a = false) l → (len (ob σ) ≤ max (ob σ))%Z).
Proof.
  intros H. pose proof (outbox_reachable_inv _ _ _ _ H) as [C D E].
  destruct C as [Cm Cd Cp Cr Cperm Cs Cn Cu Ct]. split_and!; try done.
  - rewrite Cp, Cd, Cr, Cperm, !length_app. unfold len. lia.
  - by rewrite <-Cperm.
  - intros k res Hr. destruct (em_result _ _ _ _ _ E _ _ Hr) as [_ Hk]. by destruct res.
  - intros Hl. eapply steps_bound; [apply outbox_initial_inv|exact H|done|].
    apply Z.lt_le_incl. exact (core_max _ _ _ _ _ _ (inv_core _ (outbox_initial_inv mx r))).
Qed.

(** ** Order *)

(** The steps that leave subject order on. *)
Definition keepsOrder (a : label) : Prop :=
  match a with LConfig _ _ o => o ≠ OutboxOrderNone | _ => True end.

Lemma config_order a σ σ' :
  Inv σ → step a σ = Some σ' → keepsOrder a → ordered (ob σ) = true → ordered (ob σ') = true.
Proof.
  intros I H Hk Ho. destruct (isConfig a) eqn:Ea.
  - destruct a; try done. cbn in H. apply fmap_Some in H as (o & H & ->). unfold SetOutboxConfig in H.
    destruct (ValidateOutboxOrder order) eqn:Ev; simplify_eq/=.
    apply bool_decide_eq_true in Ev. destruct Ev as [->|[->| ->]]; done.
  - destruct (outbox_step_effect _ _ _ I H) as [_ Hf]. rewrite Ea in Hf. by rewrite (fr_ordered _ _ Hf).
Qed.

Record OrdInv (σ : sys) : Prop := {
  ord_on : ordered (ob σ) = true;
  ord_pass : ∀ l oi, locals (dr σ) = Some (l, oi) → passOrdered l = true;
  ord_bus : ∀ a b, before (parkLog σ) a b → subject a = subject b → b ∈ busLog σ →
    a ∈ dropLog σ ∨ before (busLog σ) a b }.

Lemma parked_where σ x : Inv σ → x ∈ parkLog σ → x ∈ items (ob σ) ∨ x ∈ drainLog σ ∨ x ∈ dropLog σ.
Proof. intros [C D E] Hx. rewrite (core_perm _ _ _ _ _ _ C) in Hx. set_solver. Qed.

(** An emission in the hands of its goroutine, not yet settled, left no trace. *)
Lemma unsettled_absent σ k it pc x :
  Inv σ → em σ !! k = Some (mkEmitter it pc) → settled pc = false →
  x ∈ parkLog σ ∨ x ∈ busLog σ → addr x ≠ addr it.
Proof.
  intros [C D E] He Hs Hx Ha. destruct (em_key _ _ _ _ _ E _ _ He) as (<- & _ & _).
  pose proof (em_state _ _ _ _ _ E _ _ He) as Hn. cbn in Hn. rewrite Hs in Hn. apply Hn. by exists x.
Qed.

Lemma step_ord a σ σ' :
  Inv σ → OrdInv σ → step a σ = Some σ' → keepsOrder a → OrdInv σ'.
Proof.
  intros I [O1 O2 O3] H Hk. pose proof (outbox_step_inv _ _ _ I H) as I'.
  destruct (outbox_step_effect _ _ _ I H) as [Heff Hfr].
  assert (∀ x, x ∈ dropLog σ → x ∈ dropLog σ') as Hdr.
  { destruct (isConfig a); [destruct Hfr as [-> _]; done|apply Hfr]. }
  split.
  - exact (config_order _ _ _ I H Hk O1).
  - intros l oi Hl. destruct (isConfig a).
    + destruct Hfr as [_ Hd]. rewrite Hd in Hl. eauto.
    + destruct (fr_locals _ _ Hfr _ _ Hl) as [->|(l' & oi' & Hl' & ->)]; eauto.
  - intros x y Hb Hs Hy. destruct Heff as [E1 E2 _|it k pc He Hpc E1 E2 _ _|it k He E1 E2 _|l it n Hd E1 E2 Ei].
    + rewrite E1 in Hb. rewrite E2 in Hy |- *. destruct (O3 x y Hb Hs Hy); auto.
    + rewrite E1 in Hb. rewrite E2 in Hy |- *. apply before_snoc_inv in Hb as [Hb|[-> _]].
      * destruct (O3 x y Hb Hs Hy); auto.
      * by destruct (unsettled_absent σ k it pc it I He (parking_unsettled _ Hpc) (or_intror Hy)).
    + rewrite E1 in Hb. rewrite E2 in Hy |- *. apply elem_of_app in Hy as [Hy| ->%list_elem_of_singleton].
      * destruct (O3 x y Hb Hs Hy); auto using before_app.
      * by destruct (unsettled_absent σ k it EPublish it I He eq_refl (or_introl (before_elem_r _ _ _ Hb))).
    + rewrite E1 in Hb. rewrite E2 in Hy |- *. apply elem_of_app in Hy as [Hy| ->%list_elem_of_singleton].
      { destruct (O3 x y Hb Hs Hy); auto using before_app. }
      pose proof (inv_dr _ I) as D. rewrite Hd in D, O2. specialize (O2 _ _ eq_refl).
      destruct (dr_pass _ _ _ _ D _ _ eq_refl) as [HP Hns]. rewrite O2 in HP.
      destruct (parked_where σ x I (before_elem_l _ _ _ Hb)) as [Hx|[Hx|Hx]]; [|right|left; auto].
      * by destruct (pass_head_oldest _ _ _ _ _ x HP (core_nodup _ _ _ _ _ _ (inv_core _ I)) (Hns _ eq_refl O2) Hx Hb).
      * apply before_snoc. by apply (core_sent _ _ _ _ _ _ (inv_core _ I)).
Qed.

(** *** Emissions that start behind a parked one *)

(** The goroutine of [b] has not yet decided between the queue and the bus. *)
Definition checking (pc : emitPC) : bool :=
  match pc with EEnter | EWait | EBlocked _ | ECheck => true | _ => false end.

Inductive stage (a b : outboxItem) (σ : sys) : Prop :=
| st_checking pc : em σ !! addr b = Some (mkEmitter b pc) → checking pc = true → stage a b σ
| st_behind : before (parkLog σ) a b → stage a b σ
| st_refused : ¬ present (parkLog σ) (busLog σ) (addr b) → addr b ∈ used σ →
    (em σ !! addr b = Some (mkEmitter b (EKick RFull)) ∨ em σ !! addr b = None) → stage a b σ
| st_gone : a ∉ items (ob σ) → stage a b σ.

Record Behind (a b : outboxItem) (σ : sys) : Prop := {
  bh_parked : a ∈ parkLog σ;
  bh_neq : addr a ≠ addr b;
  bh_subject : subject a = subject b;
  bh_bus : b ∈ busLog σ → a ∈ dropLog σ ∨ before (busLog σ) a b;
  bh_stage : stage a b σ }.

Lemma parkLog_mono a σ σ' x : Inv σ → step a σ = Some σ' → x ∈ parkLog σ → x ∈ parkLog σ'.
Proof. intros I H Hx. destruct (outbox_step_effect _ _ _ I H) as [[E1|????? E1|??? E1|???? E1] _]; rewrite E1; set_solver. Qed.

Lemma gone_step a σ σ' x :
  Inv σ → step a σ = Some σ' → x ∈ parkLog σ → x ∉ items (ob σ) → x ∉ items (ob σ').
Proof.
  intros I H Hp Hx Hx'. destruct (outbox_step_effect _ _ _ I H) as [[?? Hs|it k pc He Hpc ??? Hi|????? Hi|?????? Hi] _].
  - by apply Hx; eapply elem_of_sublist.
  - destruct (Hi _ Hx') as [?| ->]; [done|].
    by destruct (unsettled_absent σ k it pc it I He (parking_unsettled _ Hpc) (or_introl Hp)).
  - rewrite Hi in Hx'. done.
  - rewrite Hi in Hx'. done.
Qed.

Lemma kick_em q σ : em (kickDrain q σ) = em σ ∧ used (kickDrain q σ) = used σ ∧
  parkLog (kickDrain q σ) = parkLog σ ∧ busLog (kickDrain q σ) = busLog σ.
Proof. unfold kickDrain. by destruct (beginDrain _ _) as [? []]. Qed.

Lemma emitStep_frame i k σ σ' k' :
  emitStep i k σ = Some σ' → k' ≠ k → em σ' !! k' = em σ !! k' ∧ used σ' = used σ.
Proof.
  intros H Hne. apply bind_Some in H as ([it pc] & _ & H). cbn in H. pose proof (kick_em true σ) as (Ek & Eu & _).
  destruct (msg it) as [m|], (event it) as [ev|]; try done;
    destruct pc; cbn in H; repeat case_match; simplify_eq; cbn;
    rewrite ?Ek, ?Eu, ?lookup_insert_ne, ?lookup_delete_ne by done; done.
Qed.

Lemma drainStep_frame i σ σ' : drainStep i σ = Some σ' → em σ' = em σ ∧ used σ' = used σ.
Proof.
  unfold drainStep, drainTop, drainNext, drainAttempt, drainSending, drainAnswered, drainRetry, drainResult, drainPassEnd.
  intros H. repeat case_match; simplify_eq; done.
Qed.

Lemma step_frame c σ σ' k :
  step c σ = Some σ' → k ∈ used σ → (∀ i, c ≠ LEmitter k i) → em σ' !! k = em σ !! k ∧ k ∈ used σ'.
Proof.
  intros H Hu Hc. destruct c as [it|k' i|i| | | |]; cbn in H.
  - unfold emitBegin in H. destruct (msg it), (event it); try done; case_decide; simplify_eq/=;
      rewrite lookup_insert_ne by set_solver; set_solver.
  - destruct (emitStep_frame _ _ _ _ k H) as [-> ->]; [|done]. intros ->. by apply (Hc i).
  - by destruct (drainStep_frame _ _ _ H) as [-> ->].
  - simplify_eq. by destruct (kick_em false σ) as (-> & -> & _).
  - destruct (hasEvents _); simplify_eq; [|done]. by destruct (kick_em true σ) as (-> & -> & _).
  - by apply fmap_Some in H as (o & _ & ->).
  - by simplify_eq.
Qed.

(** An address nobody holds stays out of the history. *)
Lemma absent_step c σ σ' k :
  Inv σ → step c σ = Some σ' → ¬ present (parkLog σ) (busLog σ) k →
  (∀ it pc, em σ !! k = Some (mkEmitter it pc) → pc = EKick RFull) →
  ¬ present (parkLog σ') (busLog σ') k.
Proof.
  intros I H Hn Hem Hp. destruct (outbox_step_effect _ _ _ I H) as [[E1 E2 _|it k' pc He Hpc E1 E2 _ _|it k' He E1 E2 _|l it n Hd E1 E2 _] _];
    rewrite E1, E2 in Hp; [done|..].
  - apply present_park in Hp as [Hp|<-]; [done|].
    destruct (em_key _ _ _ _ _ (inv_em _ I) _ _ He) as (<- & _ & _). cbn in *.
    by rewrite (Hem _ _ He) in Hpc.
  - apply present_bus in Hp as [Hp|(x & ->%list_elem_of_singleton & <-)]; [done|].
    destruct (em_key _ _ _ _ _ (inv_em _ I) _ _ He) as (<- & _ & _). by apply Hem in He.
  - apply present_bus in Hp as [Hp|(x & ->%list_elem_of_singleton & <-)]; [done|]. apply Hn. exists it.
    split; [done|]. left. eapply current_parked; [apply I|]. by rewrite Hd.
Qed.

Lemma held_true a b σ :
  a ∈ items (ob σ) → subject a = subject b → ordered (ob σ) = true →
  negb (ordered (ob σ)) || negb (heldLocked (subject b) (ob σ)) = false.
Proof.
  intros Ha Hs ->. cbn. apply negb_false_iff, existsb_exists. exists a. rewrite <-list_elem_of_In.
  split; [done|]. by apply bool_decide_eq_true.
Qed.

Lemma waitClear_checking i k it pc σ σ' :
  waitClear i k it pc σ = Some σ' →
  ∃ pc', em σ' !! k = Some (mkEmitter it pc') ∧ checking pc' = true.
Proof.
  destruct pc; simpl; intros; repeat case_match; simplify_eq; cbn; eexists; (split; [apply lookup_insert_eq|done]).
Qed.

(** The step of [b]'s goroutine: past its check it is behind [a], or refused. *)
Lemma stage_own a b σ σ' i pc :
  Inv σ → em σ !! addr b = Some (mkEmitter b pc) → checking pc = true → emitStep i (addr b) σ = Some σ' →
  a ∈ items (ob σ) → subject a = subject b → ordered (ob σ) = true → stage a b σ'.
Proof.
  intros I He Hc H Ha Hs Ho. pose proof (outbox_step_inv (LEmitter (addr b) i) _ _ I H) as I'.
  assert (a ∈ parkLog σ) as Hp by (eapply elem_of_sublist; [exact Ha|apply I]).
  unfold emitStep in H. rewrite He in H. cbn in H.
  destruct (msg b) as [m|] eqn:Em, (event b) as [ev|] eqn:Ev; try done.
  - destruct pc; try done; cbn [publishPortTail] in H;
      try (apply waitClear_checking in H as (pc' & ? & ?); by eapply st_checking).
    unfold parkIfHeld in H. rewrite (held_true a b σ) in H by done.
    destruct (parkLocked _ _ _) as [o vs]. simplify_eq. apply st_behind. by apply before_snoc.
  - destruct pc; try done; cbn [publishEvent] in H;
      try (apply waitClear_checking in H as (pc' & ? & ?); by eapply st_checking).
    unfold parkEventIfHeld in H. rewrite (held_true a b σ) in H by done.
    destruct (parkEventLocked _ _ _) as [o []]; simplify_eq.
    + apply st_behind. by apply before_snoc.
    + apply st_refused; cbn.
      * pose proof (em_state _ _ _ _ _ (inv_em _ I) _ _ He) as Hn. done.
      * by destruct (em_key _ _ _ _ _ (inv_em _ I) _ _ He) as (_ & ? & _).
      * left. apply lookup_insert_eq.
Qed.

Lemma own_step c k : (∃ i, c = LEmitter k i) ∨ ∀ i, c ≠ LEmitter k i.
Proof. destruct c as [|k' i| | | | |]; try (by right). destruct (decide (k' = k)) as [->|]; [eauto|right; naive_solver]. Qed.

Lemma stage_step a b c σ σ' :
  Inv σ → OrdInv σ → step c σ = Some σ' → Behind a b σ → stage a b σ'.
Proof.
  intros I O H [B1 B2 B3 B4 B5].
  destruct (decide (a ∈ items (ob σ))) as [Ha|Ha]; [|by eapply st_gone, gone_step].
  destruct B5 as [pc He Hc|Hb|Hn Hu He|?]; [..|done].
  - destruct (em_key _ _ _ _ _ (inv_em _ I) _ _ He) as (_ & Hu & _).
    destruct (own_step c (addr b)) as [[i ->]|Hne].
    { eapply stage_own; [exact I|exact He|done|exact H|done|done|apply O]. }
    destruct (step_frame _ _ _ (addr b) H Hu) as [Ee _]; [done|].
    eapply st_checking; [by rewrite Ee|done].
  - apply st_behind. destruct (outbox_step_effect _ _ _ I H) as [[E1|????? E1|??? E1|???? E1] _]; rewrite E1;
      auto using before_app.
  - assert (∀ it pc, em σ !! addr b = Some (mkEmitter it pc) → pc = EKick RFull) as Hk by naive_solver.
    pose proof (absent_step _ _ _ _ I H Hn Hk) as Hn'.
    destruct (own_step c (addr b)) as [[i ->]|Hne].
    + cbn in H. unfold emitStep in H. destruct He as [He|He]; rewrite He in H; [|done]. cbn in H.
      pose proof (kick_em true σ) as (Ek & Eu & _).
      apply st_refused; [done| |right]; destruct (msg b), (event b); simplify_eq/=; try by rewrite Eu.
      all: apply lookup_delete_eq.
    + destruct (step_frame _ _ _ (addr b) H Hu) as [Ee Hu']; [done|].
      apply st_refused; [done..|]. by rewrite Ee.
Qed.

Lemma behind_step a b c σ σ' :
  Inv σ → OrdInv σ → step c σ = Some σ' → keepsOrder c → Behind a b σ → Behind a b σ'.
Proof.
  intros I O H Hk B. pose proof (outbox_step_inv _ _ _ I H) as I'. pose proof (step_ord _ _ _ I O H Hk) as O'.
  pose proof (stage_step _ _ _ _ _ I O H B) as Hst. destruct B as [B1 B2 B3 B4 B5].
  split; [exact (parkLog_mono _ _ _ _ I H B1)|done|done| |done].
  intros Hb. destruct (decide (a ∈ items (ob σ'))) as [Ha|Ha].
  - destruct Hst as [pc He Hc|Hbf|Hn _ _|?]; [|by apply O'|by destruct Hn; exists b; auto|done].
    by destruct (unsettled_absent σ' (addr b) b pc b I' He ltac:(by destruct pc) (or_intror Hb)).
  - destruct (parked_where σ' a I' (parkLog_mono _ _ _ _ I H B1)) as [?|[Hd|Hd]]; [done| |by left].
    apply (core_sent _ _ _ _ _ _ (inv_core _ I')) in Hd.
    assert (∀ x, x ∈ dropLog σ → x ∈ dropLog σ') as Hdr.
    { destruct (outbox_step_effect _ _ _ I H) as [_ Hfr].
      destruct (isConfig c); [destruct Hfr as [-> _]; done|apply Hfr]. }
    destruct (outbox_step_effect _ _ _ I H) as [[E1 E2 _|it k' pc He Hpc E1 E2 _ _|it k' He E1 E2 _|l it n Hl E1 E2 _] _];
      rewrite E2 in Hb, Hd |- *; try (destruct (B4 Hb); auto).
    all: apply elem_of_app in Hb as [Hb| ->%list_elem_of_singleton];
      [destruct (B4 Hb); auto using before_app|].
    all: apply elem_of_app in Hd as [Hd| ->%list_elem_of_singleton]; [|done]; right; by apply before_snoc.
Qed.

Lemma behind_steps a b l σ σ' :
  Inv σ → OrdInv σ → steps l σ = Some σ' → Forall keepsOrder l → Behind a b σ → Behind a b σ'.
Proof.
  revert σ. induction l as [|c l IH]; intros σ I O H Hl B; simplify_eq/=; [done|].
  apply bind_Some in H as (σ1 & H1 & H2). inversion_clear Hl.
  eauto using outbox_step_inv, step_ord, behind_step.
Qed.

Lemma steps_ord l σ σ' : Inv σ → OrdInv σ → steps l σ = Some σ' → Forall keepsOrder l → OrdInv σ'.
Proof.
  revert σ. induction l as [|c l IH]; intros σ I O H Hl; simplify_eq/=; [done|].
  apply bind_Some in H as (σ1 & H1 & H2). inversion_clear Hl. eauto using outbox_step_inv, step_ord.
Qed.

Lemma initial_ord mx r : OrdInv (initial mx r).
Proof. split; cbn; try done. intros a b Hb. by apply before_elem_l, elem_of_nil in Hb. Qed.

(** C3: no overtaking.  While the outbox keeps subject order, an emission [b] that
    starts when [a] is queued on the same subject never reaches the bus before [a],
    whatever other emissions, drains, bus answers, evictions and reconnections are
    interleaved: when the bus has accepted [b], it accepted [a] earlier, unless [a]
    was dropped and counted. *)
Theorem no_overtaking mx r l0 σ0 a b σ1 l σ :
  reachable mx r l0 σ0 → a ∈ items (ob σ0) → subject a = subject b →
  step (LEmit b) σ0 = Some σ1 → steps l σ1 = Some σ →
  Forall keepsOrder (l0 ++ l) → b ∈ busLog σ →
  a ∈ dropLog σ ∨ [a; b] `sublist_of` busLog σ.
Proof.
  intros H0 Ha Hs H1 H Hk Hb. apply Forall_app in Hk as [Hk0 Hk].
  pose proof (outbox_reachable_inv _ _ _ _ H0) as I0.
  pose proof (steps_ord _ _ _ (outbox_initial_inv mx r) (initial_ord mx r) H0 Hk0) as O0.
  pose proof (outbox_step_inv _ _ _ I0 H1) as I1. pose proof (step_ord _ _ _ I0 O0 H1 Logic.I) as O1.
  assert (a ∈ parkLog σ0) as Hp by (eapply elem_of_sublist; [exact Ha|apply I0]).
  assert ((addr b ∉ used σ0) ∧ em σ1 !! addr b = Some (mkEmitter b EEnter) ∧ parkLog σ1 = parkLog σ0 ∧
    busLog σ1 = busLog σ0) as (Hu & He & Ep & Eb).
  { cbn in H1. unfold emitBegin in H1. destruct (msg b), (event b); try done; case_decide; simplify_eq/=;
      rewrite lookup_insert_eq; auto. }
  assert (Behind a b σ1) as B.
  { split; [by rewrite Ep| |done| |by eapply st_checking].
    - intros E. apply Hu. rewrite <-E. apply (core_used _ _ _ _ _ _ (inv_core _ I0)). auto.
    - rewrite Eb. intros Hx. destruct Hu. apply (core_used _ _ _ _ _ _ (inv_core _ I0)). auto. }
  by apply (bh_bus _ _ _ (behind_steps _ _ _ _ _ I1 O1 H Hk B)).
Qed.

(** an eviction takes events first and never more than room requires.  A
    message parks whatever the queue holds; if any message is evicted for it, no
    event is left in the queue; the survivors keep their order, the new message
    is last, and the cap holds.  An event evicts nothing: with room it is appended,
    and a full outbox refuses it unchanged. *)
Theorem eviction_policy mx r l σ s m ev :
  reachable mx r l σ →
  (∀ o vs, park s m (ob σ) = (o, vs) →
     ∃ kept, items o = kept ++ [mkItem s (Some m) None] ∧ kept `sublist_of` items (ob σ) ∧
       items (ob σ) ≡ₚ kept ++ vs ∧ (len o ≤ max (ob σ))%Z ∧
       ((∃ v, v ∈ vs ∧ event v = None) → ∀ x, x ∈ kept → event x = None) ∧
       ((len (ob σ) < max (ob σ))%Z → vs = [])) ∧
  parkEvent s ev (ob σ) =
    (if (len (ob σ) <? max (ob σ))%Z
     then (pushBack (mkItem s None (Some ev)) [] (items (ob σ)) (ob σ), true) else (ob σ, false)).
Proof.
  intros H. pose proof (core_max _ _ _ _ _ _ (inv_core _ (outbox_reachable_inv _ _ _ _ H))) as Hm.
  assert (∀ x, isEvent x = false ↔ event x = None) as Hev.
  { intros x. unfold isEvent. rewrite bool_decide_eq_false. symmetry. apply eq_None_not_Some. }
  split.
  - intros o vs Hp. destruct (parkLocked_spec _ _ _ _ _ Hp Hm) as (kept & -> & Hs & Hpm & Hl & He).
    exists kept. split_and!; try done.
    + intros (v & Hv & Hn) x Hx. apply Hev in Hn. specialize (He v Hv Hn).
      unfold noEvents in He. rewrite Forall_forall in He. apply Hev. auto.
    + intros Hr. unfold park, parkLocked in Hp. rewrite evict_room in Hp by done. by simplify_eq.
  - unfold parkEvent, parkEventLocked, len.
    destruct (Z.leb_spec (max (ob σ)) (Z.of_nat (length (items (ob σ))))),
      (Z.ltb_spec (Z.of_nat (length (items (ob σ)))) (max (ob σ))); try lia; done.
Qed.
