(* ===== verification/OutboxDrain.v ===== *)
(** * The outbox's drain, running alone

    [runDrain] without interference: it terminates whatever the bus answers, by a
    lexicographic measure; a bus that refuses everything leaves the queue as it
    was; a bus that accepts everything empties it in order.  The witnesses of the
    outbox theorems close the file. *)
From S2P Require Import Prelude Outbox OutboxSpec.

(** ** Termination *)

Definition fwd (d : drainPC) : nat := match locals d with Some (l, _) => forwarded l | None => 0 end.

(** What shrinks from pass to pass: every pass that goes on has forwarded an item
    or used up a request for one more pass. *)
Definition outer (σ : sys) : nat := length (items (ob σ)) + fwd (dr σ) + Nat.b2n (again (ob σ)).

(** What shrinks within a pass. *)
Definition tries (σ : sys) (n : Z) : nat := Z.to_nat (retries (ob σ) + 1 - n).
Definition itemCost (σ : sys) : nat := 4 * Z.to_nat (retries (ob σ) + 1) + 5.
Definition inner (σ : sys) : nat :=
  match dr σ with
  | DStopped => 0
  | DPassEnd _ => 1
  | DTop _ => 3 + length (items (ob σ)) * itemCost σ
  | DNext l => 2 + length (pass l) * itemCost σ
  | DAttempt l _ n _ => 2 + length (pass l) * itemCost σ + 4 * tries σ n + 3
  | DSending l _ n => 2 + length (pass l) * itemCost σ + 4 * tries σ n + 2
  | DAnswered l _ n _ => 2 + length (pass l) * itemCost σ + 4 * tries σ n + 1
  | DRetry l _ n _ => 2 + length (pass l) * itemCost σ + 4 * tries σ n
  | DResult l _ _ => 2 + length (pass l) * itemCost σ + 1
  end.

Definition smaller (σ' σ : sys) : Prop :=
  outer σ' < outer σ ∨ (outer σ' = outer σ ∧ inner σ' < inner σ).

Lemma smaller_wf : well_founded smaller.
Proof.
  intros σ. remember (outer σ) as n eqn:En. revert σ En.
  induction n as [n IHn] using lt_wf_ind. intros σ En.
  remember (inner σ) as m eqn:Em. revert σ En Em.
  induction m as [m IHm] using lt_wf_ind. intros σ -> ->.
  constructor. intros σ' [H|[H1 H2]]; [by eapply IHn|]. by eapply IHm.
Qed.

(** Alone, what the pass still holds is still queued, and the retry count is in
    range. *)
Definition attemptOk (d : drainPC) (r : Z) : Prop :=
  match d with
  | DAttempt _ _ n _ => (0 ≤ n ≤ r + 1)%Z
  | DSending _ _ n | DAnswered _ _ n _ | DRetry _ _ n _ => (0 ≤ n ≤ r)%Z
  | _ => True
  end.

Record Alone (σ : sys) : Prop := {
  al_retries : (0 < retries (ob σ))%Z;
  al_nodup : NoDup (addr <$> items (ob σ));
  al_pass : ∀ l oi, locals (dr σ) = Some (l, oi) →
    (∀ x, x ∈ option_list oi ++ pass l → x ∈ items (ob σ)) ∧ NoDup (addr <$> option_list oi ++ pass l);
  al_attempt : attemptOk (dr σ) (retries (ob σ)) }.

Lemma remove_found it d o :
  it ∈ items o → NoDup (addr <$> items o) →
  ∃ o' l1 l2, remove it d o = (o', Some it) ∧ items o = l1 ++ it :: l2 ∧ items o' = l1 ++ l2 ∧
    retries o' = retries o ∧ again o' = again o.
Proof.
  intros Hin Hnd. unfold remove. destruct (removeFirst _ _) as [[y r]|] eqn:E.
  - apply removeFirst_spec in E as (Ey%bool_decide_eq_true & l1 & l2 & Ei & -> & _).
    assert (y = it) as ->.
    { assert (y ∈ items o) as Hy by (rewrite Ei; set_solver).
      apply list_elem_of_lookup in Hy as [i Hi], Hin as [j Hj].
      assert (i = j) as ->; [|congruence].
      eapply (NoDup_lookup (addr <$> items o)); [done| |]; rewrite list_lookup_fmap; [by rewrite Hi|].
      by rewrite Hj, Ey. }
    destruct d; eexists _, l1, l2; (split; [done|]); cbn; done.
  - apply removeFirst_none in E. rewrite Forall_forall in E. specialize (E it Hin).
    by apply bool_decide_eq_false in E.
Qed.

Lemma holds_in it o : it ∈ items o → holds it o = true.
Proof.
  intros H. apply existsb_exists. exists it. rewrite <-list_elem_of_In. split; [done|].
  by apply bool_decide_eq_true.
Qed.

Lemma tries_lt r n : (0 ≤ n ≤ r)%Z → Z.to_nat (r + 1 - (n + 1)) < Z.to_nat (r + 1 - n).
Proof. lia. Qed.

(** A move to a program counter with the same current item and pass. *)
Lemma alone_same σ d o :
  Alone σ → items o = items (ob σ) → retries o = retries (ob σ) →
  (locals d = None ∨ locals d = locals (dr σ)) → attemptOk d (retries o) → Alone (with_dr d (with_ob o σ)).
Proof.
  intros [A1 A2 A3 A4] Ei Er Hl Ha. split; cbn; rewrite ?Ei; try done; [by rewrite Er|].
  intros l oi E. destruct Hl as [Hl|Hl]; rewrite Hl in E; [done|eauto].
Qed.

Lemma with_ob_id σ : with_ob (ob σ) σ = σ.
Proof. by destruct σ. Qed.

Lemma alone_goto σ d :
  Alone σ → (locals d = None ∨ locals d = locals (dr σ)) → attemptOk d (retries (ob σ)) →
  Alone (with_dr d σ).
Proof. intros A Hl Ha. rewrite <-(with_ob_id σ) at 1. by apply alone_same. Qed.

Lemma smaller_inner σ σ' :
  length (items (ob σ')) = length (items (ob σ)) → again (ob σ') = again (ob σ) →
  fwd (dr σ') = fwd (dr σ) → inner σ' < inner σ → smaller σ' σ.
Proof. intros Ei Ea Ef Hi. right. unfold outer. rewrite Ei, Ea, Ef. done. Qed.

Ltac inner_tac Hd :=
  apply smaller_inner; cbn; rewrite ?Hd; try done; unfold inner; cbn; rewrite ?Hd; cbn;
  unfold tries, itemCost, snapshotLocked; cbn; try lia.

Lemma alone_stop σ :
  Alone σ → dr σ ≠ DStopped →
  Alone (with_dr DStopped (with_ob (stop (ob σ)) σ)) ∧ smaller (with_dr DStopped (with_ob (stop (ob σ)) σ)) σ.
Proof.
  intros A Hd. split; [apply alone_same; auto; done|].
  assert (0 < inner σ) as Hi by (unfold inner; destruct (dr σ); simpl; [congruence|lia..]).
  unfold smaller, outer. cbn [ob dr with_dr with_ob inner items again stop signalMovedLocked with_drain fwd locals]. cbn.
  destruct (fwd (dr σ)), (again (ob σ)); cbn; lia.
Qed.

Lemma alone_top i q σ : Alone σ → dr σ = DTop q → Alone (drainTop i q σ) ∧ smaller (drainTop i q σ) σ.
Proof.
  intros A Hd. unfold drainTop. destruct (_ || _); [apply alone_stop; [done|by rewrite Hd]|].
  split; [|inner_tac Hd]. destruct A as [A1 A2 A3 A4]. split; cbn; try done.
  intros l oi [= <- <-]. cbn. auto.
Qed.

Lemma alone_next i l σ : Alone σ → dr σ = DNext l → Alone (drainNext i l σ) ∧ smaller (drainNext i l σ) σ.
Proof.
  intros A Hd. destruct (al_pass _ A l None) as [Hp Hn]; [by rewrite Hd|]. cbn in Hp, Hn.
  pose proof (al_retries _ A) as Hr.
  unfold drainNext. destruct l as [q [|it p] ord h f].
  { split; [apply alone_goto; [done|rewrite Hd; auto|done]|inner_tac Hd]. }
  destruct (ctxDone i); [apply alone_stop; [done|by rewrite Hd]|].
  destruct (ord && _); (split; [|inner_tac Hd]); destruct A as [A1 A2 A3 A4]; split; cbn; try done;
    try (intros l oi [= <- <-]; cbn in *).
  - apply NoDup_cons in Hn as [_ Hn]. split; [set_solver|done].
  - done.
  - lia.
Qed.

Lemma alone_attempt i l it n err σ :
  Alone σ → dr σ = DAttempt l it n err →
  Alone (drainAttempt i l it n err σ) ∧ smaller (drainAttempt i l it n err σ) σ.
Proof.
  intros A Hd. pose proof (al_attempt _ A) as Hn. rewrite Hd in Hn. cbn in Hn.
  unfold drainAttempt. destruct (Z.ltb_spec (retries (ob σ)) n);
    [|destruct (ctxDone i); [|destruct (holds _ _)]];
    (split; [apply alone_goto; [done|rewrite Hd; auto|cbn; try done; lia]|inner_tac Hd]).
Qed.

Lemma alone_sending i l it n σ :
  Alone σ → dr σ = DSending l it n →
  Alone (drainSending i l it n σ) ∧ smaller (drainSending i l it n σ) σ.
Proof.
  intros A Hd. pose proof (al_attempt _ A) as Hn. rewrite Hd in Hn. cbn in Hn.
  split; [|unfold drainSending; inner_tac Hd].
  destruct A as [A1 A2 A3 A4]. rewrite Hd in A3. split; cbn; try done.
Qed.

Lemma alone_answered l it n err σ :
  Alone σ → dr σ = DAnswered l it n err →
  Alone (drainAnswered l it n err σ) ∧ smaller (drainAnswered l it n err σ) σ.
Proof.
  intros A Hd. pose proof (al_attempt _ A) as Hn. rewrite Hd in Hn. cbn in Hn.
  unfold drainAnswered. destruct err;
    (match goal with |- context [setBusState ?s _] =>
       destruct (setBusState_fields s (ob σ)) as (Ei&?&Er&?&?&?&?&?&Ea) end);
    (split; [apply alone_same; [done|done|done|rewrite Hd; auto|cbn; rewrite ?Er; done]|]);
    apply smaller_inner; cbn; rewrite ?Ei, ?Ea, ?Hd; try done; unfold inner, tries, itemCost; cbn;
    rewrite ?Hd, ?Er; lia.
Qed.

Lemma alone_retry i l it n err σ :
  Alone σ → dr σ = DRetry l it n err →
  Alone (drainRetry i l it n err σ) ∧ smaller (drainRetry i l it n err σ) σ.
Proof.
  intros A Hd. pose proof (al_attempt _ A) as Hn. rewrite Hd in Hn. cbn in Hn.
  unfold drainRetry. destruct (ctxDone i);
    (split; [apply alone_goto; [done|rewrite Hd; auto|cbn; try done; lia]|inner_tac Hd]).
Qed.

Lemma alone_passend l σ :
  Alone σ → dr σ = DPassEnd l → Alone (drainPassEnd l σ) ∧ smaller (drainPassEnd l σ) σ.
Proof.
  intros A Hd. unfold drainPassEnd. case_bool_decide as Hf; [destruct (again (ob σ)) eqn:Ea|].
  - split; [apply alone_same; auto; done|]. left. unfold outer. cbn. rewrite Ea, Hd. cbn. lia.
  - split; [apply alone_same; auto; done|]. right. unfold outer, inner. cbn. rewrite Ea, Hd. cbn. lia.
  - split; [apply alone_goto; auto; done|]. left. unfold outer. cbn. rewrite Hd. cbn. lia.
Qed.

Lemma alone_result l it err σ :
  Alone σ → dr σ = DResult l it err → Alone (drainResult l it err σ) ∧ smaller (drainResult l it err σ) σ.
Proof.
  intros A Hd. destruct (al_pass _ A l (Some it)) as [Hp Hn]; [by rewrite Hd|]. cbn in Hp, Hn.
  apply NoDup_cons in Hn as [Hit Hn]. assert (it ∈ items (ob σ)) as Hin by (apply Hp; set_solver).
  destruct l as [q p ord h f]. cbn in Hp, Hit, Hn. destruct A as [A1 A2 A3 A4].
  assert (∀ h' f', Alone (with_dr (DNext (mkLocals q p ord h' f')) σ)) as Hgo.
  { intros h' f'. split; cbn; try done. intros l oi [= <- <-]. cbn. split; [set_solver|done]. }
  assert (∀ o, (∃ l1 l2, items (ob σ) = l1 ++ it :: l2 ∧ items o = l1 ++ l2 ∧ retries o = retries (ob σ) ∧
    again o = again (ob σ)) → ∀ σ', ob σ' = o → dr σ' = DNext (mkLocals q p ord h (S f)) →
    Alone σ' ∧ smaller σ' σ) as Hrm.
  { intros o (l1 & l2 & E1 & E2 & Er & Ea) σ' <- Ed.
    assert (NoDup (addr <$> l1 ++ l2) ∧ addr it ∉ addr <$> l1 ++ l2) as [Hnd Hni].
    { rewrite E1, fmap_app, fmap_cons in A2. rewrite <-Permutation_middle, <-fmap_app in A2.
      apply NoDup_cons in A2. tauto. }
    split.
    - split; rewrite ?Er, ?E2, ?Ed; try done. intros l oi [= <- <-]. cbn. split; [|done].
      intros x Hx. assert (x ≠ it) by set_solver. rewrite E1 in Hp. set_solver.
    - right. unfold outer, inner, itemCost. rewrite Ed, Hd, E1, E2, Er, Ea, !length_app. cbn. lia. }
  unfold drainResult. destruct err.
  - destruct (remove_found it false (ob σ) Hin A2) as (o & l1 & l2 & -> & ?).
    by eapply Hrm; [eauto|..].
  - destruct (remove_found it true (ob σ) Hin A2) as (o & l1 & l2 & -> & ?).
    by eapply Hrm; [eauto|..].
  - split; [apply Hgo|inner_tac Hd].
  - split; [apply Hgo|inner_tac Hd].
  - split; [apply Hgo|inner_tac Hd].
Qed.

Lemma drainStep_alone i σ σ' : Alone σ → drainStep i σ = Some σ' → Alone σ' ∧ smaller σ' σ.
Proof.
  intros A H. unfold drainStep in H. destruct (dr σ) eqn:Hd; simplify_eq;
    eauto using alone_top, alone_next, alone_attempt, alone_sending, alone_answered, alone_retry,
      alone_result, alone_passend.
Qed.

Lemma drainStep_none i σ : drainStep i σ = None → dr σ = DStopped.
Proof. unfold drainStep. by destruct (dr σ). Qed.

(** The drain alone stops, in a state that satisfies any invariant of its steps. *)
Lemma run_stops (Q : input → Prop) (P : sys → Prop) :
  (∀ i σ σ', Q i → Alone σ → P σ → drainStep i σ = Some σ' → P σ') →
  ∀ σ inp, (∀ j, Q (inp j)) → Alone σ → P σ →
  ∃ n, dr (runDrain n inp σ) = DStopped ∧ P (runDrain n inp σ).
Proof.
  intros Hstep σ. induction (smaller_wf σ) as [σ _ IH]. intros inp HQ A HP.
  destruct (drainStep (inp 0) σ) as [σ'|] eqn:E.
  - destruct (drainStep_alone _ _ _ A E) as [A' Hs].
    destruct (IH σ' Hs (λ j, inp (S j))) as (n & Hn); [naive_solver..|].
    exists (S n). cbn. by rewrite E.
  - exists 0. cbn. split; [by eapply drainStep_none|done].
Qed.

(** A drain that has just started, in a reachable state. *)
Lemma alone_start σ q : Inv σ → dr σ = DTop q → Alone σ.
Proof.
  intros [C D E] Hd. split; rewrite ?Hd; cbn; try done; [apply D|].
  pose proof (core_nodup _ _ _ _ _ _ C) as Hn.
  rewrite (core_perm _ _ _ _ _ _ C), fmap_app in Hn. by apply NoDup_app in Hn as [? _].
Qed.

(** ** A bus that refuses everything *)

Definition refuses (i : input) : Prop := ans i = BusNone ∨ ans i = BusRefused.

Definition noAnswer (d : drainPC) : Prop :=
  match d with
  | DAttempt _ _ n err => n = 0%Z ∨ (err ≠ ENil ∧ err ≠ EInvalid)
  | DAnswered _ _ _ err | DRetry _ _ _ err | DResult _ _ err => err ≠ ENil ∧ err ≠ EInvalid
  | _ => True
  end.

Record Kept (σ0 σ : sys) : Prop := {
  kp_items : items (ob σ) = items (ob σ0);
  kp_counts : dropped (ob σ) = dropped (ob σ0) ∧ drained (ob σ) = drained (ob σ0) ∧ parked (ob σ) = parked (ob σ0);
  kp_logs : busLog σ = busLog σ0 ∧ dropLog σ = dropLog σ0 ∧ drainLog σ = drainLog σ0;
  kp_pc : noAnswer (dr σ) }.

Lemma kept_step σ0 i σ σ' :
  refuses i → Alone σ → Kept σ0 σ → drainStep i σ = Some σ' → Kept σ0 σ'.
Proof.
  intros Hr A [K1 K2 K3 K4] H. pose proof (al_retries _ A) as Hret. unfold drainStep in H.
  destruct (dr σ) eqn:Hd; simplify_eq; cbn in K4.
  - unfold drainTop. destruct (_ || _); by split.
  - unfold drainNext. destruct l as [q [|it p] ord h f]; [|destruct (ctxDone i); [|destruct (ord && _)]]; try by split.
    split; try done. by left.
  - unfold drainAttempt. destruct (Z.ltb_spec (retries (ob σ)) n);
      [|destruct (ctxDone i); [|destruct (holds _ _)]]; split; try done.
    destruct K4 as [->|?]; [lia|done].
  - unfold drainSending. destruct Hr as [-> | ->]; split; cbn; rewrite ?app_nil_r; done.
  - destruct K4 as [H1 H2]. unfold drainAnswered. destruct err; try done;
      destruct (setBusState_fields busDown (ob σ)) as (Ei&?&Er&?&E1&E2&E3&?&Ea); split; cbn;
      rewrite ?Ei, ?E1, ?E2, ?E3; done.
  - unfold drainRetry. destruct (ctxDone i); split; try done. by right.
  - destruct K4 as [H1 H2]. unfold drainResult. destruct l, err; by try split.
  - unfold drainPassEnd. repeat case_match; by split.
Qed.

(** ** A bus that accepts everything *)

Definition accepts (i : input) : Prop := ctxDone i = false ∧ ans i = BusOk.

(** The pass and the queue move together; the current item is on the bus from the
    moment it is answered. *)
Definition inStep (d : drainPC) (its : list outboxItem) (onBus : list outboxItem) : Prop :=
  match d with
  | DStopped => its = [] ∧ onBus = []
  | DTop _ => onBus = []
  | DNext l => its = pass l ∧ held l = ∅ ∧ onBus = []
  | DAttempt l it n _ => its = it :: pass l ∧ held l = ∅ ∧ n = 0%Z ∧ onBus = []
  | DSending l it _ => its = it :: pass l ∧ held l = ∅ ∧ onBus = []
  | DAnswered l it _ err | DResult l it err => its = it :: pass l ∧ held l = ∅ ∧ err = ENil ∧ onBus = [it]
  | DRetry _ _ _ _ => False
  | DPassEnd l => its = [] ∧ onBus = []
  end.

Record Sent (σ0 σ : sys) : Prop := {
  sn_split : ∃ sent cur, items (ob σ0) = sent ++ items (ob σ) ∧ busLog σ = busLog σ0 ++ sent ++ cur ∧
    inStep (dr σ) (items (ob σ)) cur;
  sn_drops : dropLog σ = dropLog σ0 ∧ dropped (ob σ) = dropped (ob σ0) }.

Lemma holds_head it l o : items o = it :: l → holds it o = true.
Proof. intros E. apply holds_in. rewrite E. set_solver. Qed.

Lemma remove_head it l o :
  items o = it :: l → ∃ o', remove it false o = (o', Some it) ∧ items o' = l ∧ dropped o' = dropped o.
Proof.
  intros E. unfold remove. rewrite E. cbn [removeFirst].
  unfold same. rewrite bool_decide_true by done. cbn. eauto.
Qed.

Lemma sent_step σ0 i σ σ' :
  accepts i → Alone σ → Sent σ0 σ → drainStep i σ = Some σ' → Sent σ0 σ'.
Proof.
  intros [Hc Ha] A [(sent & cur & S1 & S2 & S3) S4] H. pose proof (al_retries _ A) as Hret. unfold drainStep in H.
  destruct (dr σ) eqn:Hd; simplify_eq; cbn in S3.
  - subst cur. unfold drainTop. rewrite Hc. cbn. case_bool_decide; split; cbn; try done; exists sent, []; done.
  - destruct S3 as (E1 & E2 & ->). destruct l as [q [|it p] ord h f]; cbn in *; subst h.
    + split; cbn; [exists sent, []; done|done].
    + rewrite Hc, bool_decide_false, andb_false_r by set_solver. split; cbn; [exists sent, []; done|done].
  - destruct S3 as (E1 & E2 & -> & ->). unfold drainAttempt.
    destruct (Z.ltb_spec (retries (ob σ)) 0); [lia|]. rewrite Hc, (holds_head _ _ _ E1).
    split; cbn; [exists sent, []; done|done].
  - destruct S3 as (E1 & E2 & ->). unfold drainSending. rewrite Ha.
    split; cbn; [|done]. exists sent, [it]. rewrite S2, app_nil_r, <-!app_assoc. done.
  - destruct S3 as (E1 & E2 & -> & ->). cbn.
    destruct (setBusState_fields busUp (ob σ)) as (Ei&?&Er&?&E3&?&?&?&?). split; cbn; rewrite ?Ei, ?E3; [|done].
    exists sent, [it]. done.
  - done.
  - destruct S3 as (E1 & E2 & -> & ->). destruct l as [q p ord h f]. cbn in *. subst h.
    destruct (remove_head _ _ _ E1) as (o & -> & Ei & Ed). split; cbn; rewrite ?Ed; [|done].
    exists (sent ++ [it]), []. rewrite Ei, S1, E1, S2, app_nil_r, <-!app_assoc. done.
  - destruct S3 as (E1 & ->). unfold drainPassEnd. repeat case_match; split; cbn; try done; exists sent, []; done.
Qed.

(** ** The outcome *)

Lemma drain_items i σ σ' : drainStep i σ = Some σ' → items (ob σ') `sublist_of` items (ob σ).
Proof.
  intros H. destruct (drainStep_effect _ _ _ H) as [Heff _].
  assert (∀ it k pc, em σ !! k = Some (mkEmitter it pc) → parkLog σ' = parkLog σ ++ [it] → False) as Hno.
  { intros it k pc _ E. unfold drainStep in H.
    assert (parkLog σ' = parkLog σ) as E'.
    { unfold drainTop, drainNext, drainAttempt, drainSending, drainAnswered, drainRetry, drainResult, drainPassEnd in H.
      repeat case_match; by simplify_eq. }
    rewrite E' in E. apply (f_equal length) in E. rewrite length_app in E. simpl in E. lia. }
  destruct Heff as [?? Hs|it k pc He _ Hp _ _ _|????? ->|?????? ->]; [done|by destruct (Hno it k pc)|done..].
Qed.

(** C34: a drain that runs alone terminates, whatever the bus answers and whenever
    the context ends, and is then marked as finished; what it leaves is a
    subsequence of the queue it found.  A bus that refuses everything leaves the
    queue, the counters and the history exactly as they were; a bus that accepts
    everything receives the whole queue in order, and nothing is dropped. *)
Theorem drain_outcome mx r l σ q inp :
  reachable mx r l σ → dr σ = DTop q →
  ∃ n, let σ' := runDrain n inp σ in
    dr σ' = DStopped ∧ draining (ob σ') = false ∧ items (ob σ') `sublist_of` items (ob σ) ∧
    ((∀ j, refuses (inp j)) →
       items (ob σ') = items (ob σ) ∧ busLog σ' = busLog σ ∧ dropLog σ' = dropLog σ ∧
       dropped (ob σ') = dropped (ob σ) ∧ drained (ob σ') = drained (ob σ)) ∧
    ((∀ j, accepts (inp j)) →
       items (ob σ') = [] ∧ busLog σ' = busLog σ ++ items (ob σ) ∧ dropLog σ' = dropLog σ).
Proof.
  intros Hr Hd. pose proof (outbox_reachable_inv _ _ _ _ Hr) as I.
  destruct (run_stops (λ i, ∃ j, i = inp j) (λ σ', Inv σ' ∧ items (ob σ') `sublist_of` items (ob σ) ∧
    ((∀ j, refuses (inp j)) → Kept σ σ') ∧ ((∀ j, accepts (inp j)) → Sent σ σ')))
    with (σ := σ) (inp := inp) as (n & Hn & I' & Hs & HK & HS).
  - intros i σ1 σ2 [j ->] A (I1 & Hs & HK & HS) Hst. split_and!.
    + by eapply drainStep_inv.
    + etrans; [by eapply drain_items|done].
    + intros Hf. eapply kept_step; eauto.
    + intros Hf. eapply sent_step; eauto.
  - eauto.
  - by eapply alone_start.
  - split_and!; [done|done|..]; intros _; split; rewrite ?Hd; try done.
    exists [], []. cbn. by rewrite app_nil_r.
  - exists n. cbn. split_and!; [done| |done|..].
    + by rewrite (dr_running _ _ _ _ (inv_dr _ I')), Hn.
    + intros Hf. destruct (HK Hf) as [? (?&?&?) (?&?&?) _]. done.
    + intros Hf. destruct (HS Hf) as [(sent & cur & S1 & S2 & S3) [? _]]. rewrite Hn in S3. destruct S3 as [E ->].
      rewrite E in S1. rewrite app_nil_r in S1, S2. by rewrite S1.
Qed.

(** ** A concrete run: two messages on one subject, parked and forwarded *)
Module OutboxExample.
Definition ok : input := mkInput false false BusOk.
Definition no : input := mkInput false false BusRefused.
Definition a : outboxItem := mkItem "auth" (Some 1%N) None.
Definition b : outboxItem := mkItem "auth" (Some 2%N) None.

(** The bus refuses [a], which parks. *)
Definition l0 : list label :=
  LEmit a :: (LEmitter (addr a) <$> [ok; ok; ok; no; ok]).
Definition σ0 : sys := default (initial 2 1) (steps l0 (initial 2 1)).
Definition σ1 : sys := default σ0 (step (LEmit b) σ0).
(** [b] parks behind it and starts a drain, which forwards both. *)
Definition l1 : list label := (LEmitter (addr b) <$> [ok; ok; ok; ok]).
Definition σ2 : sys := default σ1 (steps l1 σ1).
Definition l2 : list label := LDrain <$> repeat ok 14.
Definition σ3 : sys := default σ2 (steps l2 σ2).

(** Concrete run for [outbox_accounting]. *)
Lemma outbox_accounting_witness :
  reachable 2 1 (l0 ++ LEmit b :: l1) σ2 ∧ len (ob σ2) = 2%Z ∧
  parked (ob σ2) = (len (ob σ2) + drained (ob σ2) + dropped (ob σ2))%Z.
Proof.
  assert (reachable 2 1 (l0 ++ LEmit b :: l1) σ2) as H by (vm_compute; reflexivity).
  split; [exact H|]. split; [vm_compute; reflexivity|]. apply (outbox_accounting _ _ _ _ H).
Defined.

(** Concrete run for [no_overtaking]. *)
Lemma no_overtaking_witness :
  b ∈ busLog σ3 ∧ (a ∈ dropLog σ3 ∨ [a; b] `sublist_of` busLog σ3).
Proof.
  assert (b ∈ busLog σ3) as Hb by (apply (bool_decide_unpack _); vm_compute; reflexivity).
  split; [exact Hb|].
  apply (no_overtaking 2 1 l0 σ0 a b σ1 (l1 ++ l2) σ3).
  - vm_compute. reflexivity.
  - apply (bool_decide_unpack _). vm_compute. reflexivity.
  - reflexivity.
  - vm_compute. reflexivity.
  - vm_compute. reflexivity.
  - repeat constructor.
  - exact Hb.
Defined.

(** Concrete run for [eviction_policy]: a full queue and a third message. *)
Lemma eviction_policy_witness :
  (park "auth" 3 (ob σ2)).2 = [a] ∧
  parkEvent "ev" (mkEvent 4 [] 0) (ob σ2) = (ob σ2, false).
Proof.
  split; [vm_compute; reflexivity|].
  assert (reachable 2 1 (l0 ++ LEmit b :: l1) σ2) as H by (vm_compute; reflexivity).
  rewrite (proj2 (eviction_policy 2 1 _ σ2 "ev" 3 (mkEvent 4 [] 0) H)). vm_compute. reflexivity.
Defined.

(** Concrete run for [drain_outcome]: the drain that [b] started. *)
Lemma drain_outcome_witness :
  dr σ2 = DTop true ∧ ∃ n, items (ob (runDrain n (λ _, ok) σ2)) = [].
Proof.
  assert (dr σ2 = DTop true) as Hd by (vm_compute; reflexivity). split; [exact Hd|].
  destruct (drain_outcome 2 1 (l0 ++ LEmit b :: l1) σ2 true (λ _, ok)) as (n & _ & _ & _ & _ & H).
  - vm_compute. reflexivity.
  - exact Hd.
  - exists n. apply H. intros _. split; reflexivity.
Defined.

(** An eviction that clears a subject does not wake who waits for it: the wait is
    over, and the channel a waiter holds is still the current one. *)
Lemma eviction_does_not_signal :
  let o := (park "other" 4 (park "other" 3 (ob σ2)).1).1 in
  waitOver "auth" (ob σ2) = false ∧ waitOver "auth" o = true ∧ moved o = moved (ob σ2).
Proof. vm_compute. auto. Qed.
End OutboxExample.
