(* ===== verification/Lane.v ===== *)
(** * The hot lane of a Rack (pkg/runtime/lane.go)

    Publishers, the goroutine of each subscription and the callers of
    [Unsubscribe], interleaved.  A channel operation, an atomic add and a section
    under the lane's mutex are one step each; which ready case a [select] takes,
    and when timers and contexts end, is the choice of a label.  Validation and the
    CBOR codec are parameters: the lane only moves the bytes. *)
From S2P Require Import Prelude.

(** ** Sums over a finite map *)
Section msum.
Context {K} `{Countable K} {A : Type} (f : A → Z).
Definition msum (m : gmap K A) : Z := map_fold (λ _ x s, (f x + s)%Z) 0%Z m.

Lemma msum_empty : msum ∅ = 0%Z.
Proof. apply map_fold_empty. Qed.
Lemma msum_insert m k x : m !! k = None → msum (<[k:=x]> m) = (f x + msum m)%Z.
Proof. intros Hk. unfold msum. rewrite map_fold_insert_L; [done| |done]. intros. lia. Qed.
Lemma msum_delete m k x : m !! k = Some x → msum (delete k m) = (msum m - f x)%Z.
Proof.
  intros Hk. rewrite <-(insert_delete_id m k x) at 2 by done.
  rewrite msum_insert by apply lookup_delete_eq. lia.
Qed.
Lemma msum_update m k x y : m !! k = Some x → msum (<[k:=y]> m) = (msum m - f x + f y)%Z.
Proof.
  intros Hk. rewrite <-(insert_delete_eq m k y), msum_insert by apply lookup_delete_eq.
  rewrite (msum_delete _ _ _ Hk). lia.
Qed.
Lemma msum_zero m : (∀ k x, m !! k = Some x → (0 ≤ f x)%Z) → (msum m ≤ 0)%Z →
  ∀ k x, m !! k = Some x → f x = 0%Z.
Proof.
  intros Hp. assert (∀ m', (∀ k x, m' !! k = Some x → (0 ≤ f x)%Z) → (0 ≤ msum m')%Z) as Hnn.
  { intros m'. induction m' as [|k x m' Hk IH] using map_ind; intros Hp'; [by rewrite msum_empty|].
    rewrite msum_insert by done. specialize (Hp' k x) as Hx. rewrite lookup_insert_eq in Hx.
    specialize (Hx eq_refl). assert (0 ≤ msum m')%Z; [|lia]. apply IH. intros k' y Hy.
    apply (Hp' k'). rewrite lookup_insert_ne; [done|]. by intros ->; rewrite Hk in Hy. }
  intros Hs k x Hk. pose proof (msum_delete _ _ _ Hk) as E. specialize (Hp k x Hk) as Hx.
  assert (0 ≤ msum (delete k m))%Z; [|lia]. apply Hnn. intros k' y [_ Hy]%lookup_delete_Some. eauto.
Qed.
End msum.

Definition defaultLaneQueueSize : Z := 1024.
Definition defaultLaneSendTimeout : Z := 5000000000.

Section Lane.
Context {Msg Data : Type}.
(** [msg.Validate()] and [cbor.Marshal]. *)
Context (Validate : Msg → bool) (Marshal : Msg → option Data).

Inductive laneErr := ErrInvalid | ErrEncode | ErrLaneFull | ErrLaneClosed | ErrCtx.

(** *** State *)

(** The goroutine of a subscription: at its select, in [deliver], or returned. *)
Inductive runPC := RSelect | RDeliver (d : Data) | RReturned.

(** [accepted] and [taken] are history: what entered the queue, and what left it,
    with [true] for the run loop and [false] for the drain of [Unsubscribe]. *)
Record laneSub := mkSub {
  subject : string; queue : list Data; qcap : nat; done_ : bool; once : bool; run : runPC;
  accepted : list Data; taken : list (Data * bool) }.

(** A call of [publish] past the snapshot of its targets.  [PNext]: the head of the
    loop.  [PTry s], [PSelect s]: the two selects of [enqueue]. *)
Inductive pubPC := PNext | PTry (s : nat) | PSelect (s : nat).
Record pub := mkPub {
  p_data : Data; p_rest : list nat; p_delivered : nat; p_err : option laneErr; p_pc : pubPC;
  p_total : nat }.

(** What [publish] returned, and (history) the number of subscribers there were. *)
Record outcome := mkOutcome { o_delivered : nat; o_err : option laneErr; o_total : nat }.

(** A call of [Unsubscribe]: before [once.Do], between its two effects, waiting, or
    draining the queue. *)
Inductive unsubPC := UOnce | URemove | UWait | UDrain.

Record localLane := mkLane {
  subs : gmap string (list nat); heap : gmap nat laneSub; queueSize : Z; sendTimeout : Z; pending : Z;
  pubs : gmap nat pub; outs : gmap nat outcome; unsubs : gmap nat (nat * unsubPC) }.

Definition setSubs x (l : localLane) := mkLane x (heap l) (queueSize l) (sendTimeout l) (pending l) (pubs l) (outs l) (unsubs l).
Definition setSub (s : nat) (x : laneSub) (l : localLane) :=
  mkLane (subs l) (<[s:=x]> (heap l)) (queueSize l) (sendTimeout l) (pending l) (pubs l) (outs l) (unsubs l).
Definition addPending (d : Z) (l : localLane) :=
  mkLane (subs l) (heap l) (queueSize l) (sendTimeout l) (pending l + d) (pubs l) (outs l) (unsubs l).
Definition setPub (p : nat) (x : pub) (l : localLane) :=
  mkLane (subs l) (heap l) (queueSize l) (sendTimeout l) (pending l) (<[p:=x]> (pubs l)) (outs l) (unsubs l).
Definition returned (p : nat) (o : outcome) (l : localLane) :=
  mkLane (subs l) (heap l) (queueSize l) (sendTimeout l) (pending l) (delete p (pubs l)) (<[p:=o]> (outs l)) (unsubs l).
Definition setUnsubs x (l : localLane) := mkLane (subs l) (heap l) (queueSize l) (sendTimeout l) (pending l) (pubs l) (outs l) x.

Definition configure (qs timeout : Z) (l : localLane) : localLane :=
  mkLane (subs l) (heap l) (if (qs <=? 0)%Z then defaultLaneQueueSize else qs)
    (if (timeout <=? 0)%Z then defaultLaneSendTimeout else timeout)
    (pending l) (pubs l) (outs l) (unsubs l).

Definition newLocalLane (qs timeout : Z) : localLane := configure qs timeout (mkLane ∅ ∅ 0 0 0 ∅ ∅ ∅).

(** *** Operations *)

(** [s] is the address of the new subscription. *)
Definition subscribe (sj : string) (s : nat) (l : localLane) : option localLane :=
  match heap l !! s with
  | Some _ => None
  | None =>
      let x := mkSub sj [] (Z.to_nat (queueSize l)) false false RSelect [] [] in
      Some (setSubs (<[sj := default [] (subs l !! sj) ++ [s]]> (subs l)) (setSub s x l))
  end.

(** [close(s.done)], the first effect of [once.Do]. *)
Definition closeDone (s : nat) (x : laneSub) (l : localLane) : localLane :=
  setSub s (mkSub (subject x) (queue x) (qcap x) true true (run x) (accepted x) (taken x)) l.

(** The second one: the subscription leaves the table. *)
Definition dropSub (s : nat) (x : laneSub) (l : localLane) : localLane :=
  let kept := filter (λ s', s' ≠ s) (default [] (subs l !! subject x)) in
  setSubs (if decide (kept = []) then delete (subject x) (subs l) else <[subject x := kept]> (subs l)) l.

(** A receive from the queue, by the run loop ([true]) or by [Unsubscribe]. *)
Definition receive (x : laneSub) (byRun : bool) : option (Data * laneSub) :=
  match queue x with
  | [] => None
  | d :: q => Some (d, mkSub (subject x) q (qcap x) (done_ x) (once x) (run x) (accepted x) (taken x ++ [(d, byRun)]))
  end.

Definition setRun (r : runPC) (x : laneSub) : laneSub :=
  mkSub (subject x) (queue x) (qcap x) (done_ x) (once x) r (accepted x) (taken x).

(** One step of [Unsubscribe]; [gaveUp] says that the wait has timed out. *)
Definition Unsubscribe (u : nat) (gaveUp : bool) (l : localLane) : option localLane :=
  '(s, pc) ← unsubs l !! u;
  x ← heap l !! s;
  match pc with
  | UOnce => Some (if once x then setUnsubs (<[u:=(s, UWait)]> (unsubs l)) l
                   else setUnsubs (<[u:=(s, URemove)]> (unsubs l)) (closeDone s x l))
  | URemove => Some (setUnsubs (<[u:=(s, UWait)]> (unsubs l)) (dropSub s x l))
  | UWait => match run x, gaveUp with
             | RReturned, _ | _, true => Some (setUnsubs (<[u:=(s, UDrain)]> (unsubs l)) l)
             | _, _ => None
             end
  | UDrain => Some match receive x false with
                   | Some (_, x') => addPending (-1) (setSub s x' l)
                   | None => setUnsubs (delete u (unsubs l)) l
                   end
  end.

(** One step of the goroutine of [s]; [stopNow] picks the [done] case. *)
Definition runStep (s : nat) (stopNow : bool) (l : localLane) : option localLane :=
  x ← heap l !! s;
  match run x with
  | RSelect =>
      if stopNow then if done_ x then Some (setSub s (setRun RReturned x) l) else None
      else '(d, x') ← receive x true; Some (setSub s (setRun (RDeliver d) x') l)
  | RDeliver _ => Some (addPending (-1) (setSub s (setRun RSelect x) l))
  | RReturned => None
  end.

(** The start of [publish]: the targets, then validation and encoding. *)
Definition publish (p : nat) (sj : string) (m : Msg) (l : localLane) : option localLane :=
  match pubs l !! p, outs l !! p with
  | None, None =>
      let targets := default [] (subs l !! sj) in
      match targets with
      | [] => Some (returned p (mkOutcome 0 None 0) l)
      | _ => if Validate m then
               match Marshal m with
               | Some d => Some (setPub p (mkPub d targets 0 None PNext (length targets)) l)
               | None => Some (returned p (mkOutcome 0 (Some ErrEncode) (length targets)) l)
               end
             else Some (returned p (mkOutcome 0 (Some ErrInvalid) (length targets)) l)
      end
  | _, _ => None
  end.

Inductive choice := CSend | CDone | CTimer | CCtx.

Definition send (d : Data) (x : laneSub) : laneSub :=
  mkSub (subject x) (queue x ++ [d]) (qcap x) (done_ x) (once x) (run x) (accepted x ++ [d]) (taken x).

Definition enqueued (p s : nat) (y : pub) (x : laneSub) (l : localLane) : localLane :=
  setPub p (mkPub (p_data y) (p_rest y) (S (p_delivered y)) (p_err y) PNext (p_total y)) (setSub s (send (p_data y) x) l).

Definition failed (p : nat) (y : pub) (e : laneErr) (l : localLane) : localLane :=
  addPending (-1) (setPub p (mkPub (p_data y) (p_rest y) (p_delivered y)
    (match p_err y with None => Some e | e0 => e0 end) PNext (p_total y)) l).

Definition room (x : laneSub) : bool := bool_decide (length (queue x) < qcap x).

(** [enqueue]: the non-blocking send, then the select with the timeout. *)
Definition enqueue (p s : nat) (c : choice) (y : pub) (x : laneSub) (l : localLane) : option localLane :=
  match p_pc y with
  | PTry _ => Some (if room x then enqueued p s y x l
                    else setPub p (mkPub (p_data y) (p_rest y) (p_delivered y) (p_err y) (PSelect s) (p_total y)) l)
  | PSelect _ =>
      match c with
      | CSend => if room x then Some (enqueued p s y x l) else None
      | CDone => if done_ x then Some (failed p y ErrLaneClosed l) else None
      | CTimer => Some (failed p y ErrLaneFull l)
      | CCtx => Some (failed p y ErrCtx l)
      end
  | PNext => None
  end.

(** One step of a running [publish]. *)
Definition publishStep (p : nat) (c : choice) (l : localLane) : option localLane :=
  y ← pubs l !! p;
  match p_pc y with
  | PNext => Some match p_rest y with
                  | [] => returned p (mkOutcome (p_delivered y) (p_err y) (p_total y)) l
                  | s :: rest => addPending 1 (setPub p (mkPub (p_data y) rest (p_delivered y) (p_err y) (PTry s) (p_total y)) l)
                  end
  | PTry s | PSelect s => x ← heap l !! s; enqueue p s c y x l
  end.

(** [quiesce] returns nil on a poll exactly when this holds. *)
Definition quiesced (l : localLane) : bool := negb (0 <? pending l)%Z.

(** *** Steps *)

Inductive label :=
| LConfigure (qs timeout : Z)
| LSubscribe (sj : string) (s : nat)
| LPublish (p : nat) (sj : string) (m : Msg)
| LPub (p : nat) (c : choice)
| LRun (s : nat) (stopNow : bool)
| LUnsub (u s : nat)
| LUnsubStep (u : nat) (gaveUp : bool).

Definition step (a : label) (l : localLane) : option localLane :=
  match a with
  | LConfigure qs t => Some (configure qs t l)
  | LSubscribe sj s => subscribe sj s l
  | LPublish p sj m => publish p sj m l
  | LPub p c => publishStep p c l
  | LRun s b => runStep s b l
  | LUnsub u s => match unsubs l !! u with
                  | None => Some (setUnsubs (<[u:=(s, UOnce)]> (unsubs l)) l)
                  | Some _ => None
                  end
  | LUnsubStep u b => Unsubscribe u b l
  end.

Fixpoint steps (ls : list label) (l : localLane) : option localLane :=
  match ls with
  | [] => Some l
  | a :: ls => l' ← step a l; steps ls l'
  end.

(** What the handler of a subscription was handed, in order. *)
Definition handed (x : laneSub) : list Data := omap (λ z : Data * bool, if z.2 then Some z.1 else None) (taken x).

(** *** Theory *)

Definition inHandler (r : runPC) : Z := match r with RDeliver _ => 1 | _ => 0 end.
Definition weight (x : laneSub) : Z := Z.of_nat (length (queue x)) + inHandler (run x).
Definition enqueuing (y : pub) : Z := match p_pc y with PNext => 0 | _ => 1 end.
Definition left_ (y : pub) : nat := length (p_rest y) + Z.to_nat (enqueuing y).

Definition sub_ok (x : laneSub) : Prop :=
  length (queue x) ≤ qcap x ∧ accepted x = (taken x).*1 ++ queue x.
Definition tally (n total : nat) (e : option laneErr) : Prop := n ≤ total ∧ (e = None ↔ n = total).

Record Inv (l : localLane) : Prop := {
  inv_pending : pending l = (msum weight (heap l) + msum enqueuing (pubs l))%Z;
  inv_subs : map_Forall (λ _, sub_ok) (heap l);
  inv_pubs : map_Forall (λ _ y, tally (p_delivered y + left_ y) (p_total y) (p_err y)) (pubs l);
  inv_outs : map_Forall (λ _ o, tally (o_delivered o) (o_total o) (o_err o)) (outs l) }.

(** The three moves every step is made of. *)
Lemma inv_sub l s x x' d :
  Inv l → heap l !! s = Some x → sub_ok x' → weight x' = (weight x + d)%Z →
  Inv (addPending d (setSub s x' l)).
Proof.
  intros [I1 I2 I3 I4] Hx Hok Hw. split; cbn; [|by apply map_Forall_insert_2|done|done].
  rewrite (msum_update _ _ _ _ _ Hx), I1. lia.
Qed.

Lemma inv_pub l p y y' d :
  Inv l → pubs l !! p = Some y → tally (p_delivered y' + left_ y') (p_total y') (p_err y') →
  enqueuing y' = (enqueuing y + d)%Z → Inv (addPending d (setPub p y' l)).
Proof.
  intros [I1 I2 I3 I4] Hy Hok Hw. split; cbn; [|done|by apply map_Forall_insert_2|done].
  rewrite (msum_update _ _ _ _ _ Hy), I1. lia.
Qed.

Lemma inv_return l p y o :
  Inv l → pubs l !! p = Some y → enqueuing y = 0%Z → tally (o_delivered o) (o_total o) (o_err o) →
  Inv (returned p o l).
Proof.
  intros [I1 I2 I3 I4] Hy He Ho. split; cbn; [|done|by apply map_Forall_delete|by apply map_Forall_insert_2].
  rewrite (msum_delete _ _ _ _ Hy), I1. lia.
Qed.

Lemma addPending_0 l : addPending 0 l = l.
Proof. destruct l. unfold addPending. cbn. by rewrite Z.add_0_r. Qed.

Lemma inv_subs_irrel l m : Inv l → Inv (setSubs m l).
Proof. by intros []; split. Qed.
Lemma inv_unsubs_irrel l m : Inv l → Inv (setUnsubs m l).
Proof. by intros []; split. Qed.

Lemma receive_ok x b d x' :
  sub_ok x → receive x b = Some (d, x') →
  sub_ok x' ∧ weight x' = (weight x - 1)%Z ∧ run x' = run x ∧ qcap x' = qcap x.
Proof.
  unfold receive, sub_ok, weight. destruct (queue x) as [|e q] eqn:E; intros [H1 H2] H; [done|].
  injection H as <- <-. cbn [queue run qcap accepted taken] in *. cbn [length] in *. split_and!; try lia.
  - rewrite H2, fmap_app, <-app_assoc. done.
  - done.
Qed.

Lemma run_ok x r : sub_ok x → sub_ok (setRun r x).
Proof. done. Qed.

Lemma runStep_inv s b l l' : Inv l → runStep s b l = Some l' → Inv l'.
Proof.
  intros I H. apply bind_Some in H as (x & Hx & H). pose proof (inv_subs _ I _ _ Hx) as Hok. cbn in Hok.
  destruct (run x) as [|d|] eqn:Er; [|simplify_eq|done].
  - destruct b; [destruct (done_ x); simplify_eq|].
    + rewrite <-(addPending_0 (setSub _ _ _)). eapply inv_sub; [done..|]. unfold weight. rewrite Er. cbn. lia.
    + apply bind_Some in H as ([d x'] & Hr & H). simplify_eq.
      destruct (receive_ok _ _ _ _ Hok Hr) as (H1 & H2 & H3 & H4).
      rewrite <-(addPending_0 (setSub _ _ _)). eapply inv_sub; [done..|].
      unfold weight in *. rewrite H3 in H2. rewrite Er in H2 |- *. cbn [queue run setRun inHandler] in *. lia.
  - eapply inv_sub; [done..|]. unfold weight. rewrite Er. cbn. lia.
Qed.

Lemma unsubscribe_inv u b l l' : Inv l → Unsubscribe u b l = Some l' → Inv l'.
Proof.
  intros I H. apply bind_Some in H as ([s pc] & Hu & H). apply bind_Some in H as (x & Hx & H).
  pose proof (inv_subs _ I _ _ Hx) as Hok. cbn in Hok. destruct pc.
  - destruct (once x); simplify_eq; apply inv_unsubs_irrel; [done|]. unfold closeDone.
    rewrite <-(addPending_0 (setSub _ _ _)). eapply inv_sub; [done..|]. unfold weight. cbn. lia.
  - simplify_eq. apply inv_unsubs_irrel. by apply inv_subs_irrel.
  - destruct (run x), b; simplify_eq; by apply inv_unsubs_irrel.
  - destruct (receive x false) as [[d x']|] eqn:Er; simplify_eq; [|by apply inv_unsubs_irrel].
    destruct (receive_ok _ _ _ _ Hok Er) as (? & ? & _). eapply inv_sub; [done..|]. lia.
Qed.

Lemma enqueued_inv p s y x l :
  Inv l → pubs l !! p = Some y → heap l !! s = Some x → enqueuing y = 1%Z → room x = true →
  Inv (enqueued p s y x l).
Proof.
  intros I Hy Hx He Hr. pose proof (inv_subs _ I _ _ Hx) as [Hl Ha].
  pose proof (inv_pubs _ I _ _ Hy) as Ht. cbn in Ht. unfold tally, left_ in Ht. rewrite He in Ht.
  apply bool_decide_eq_true in Hr. unfold enqueued. destruct I as [I1 I2 I3 I4]. split; cbn.
  - rewrite (msum_update _ _ _ _ _ Hx), (msum_update _ _ _ _ _ Hy), I1.
    assert (weight (send (p_data y) x) = weight x + 1)%Z as E.
    { unfold weight. cbn. rewrite length_app. simpl. lia. }
    rewrite E, He. cbn. lia.
  - apply map_Forall_insert_2; [|done]. split; cbn; [rewrite length_app; simpl; lia|].
    by rewrite Ha, <-app_assoc.
  - apply map_Forall_insert_2; [|done]. unfold tally, left_. cbn. destruct Ht as [? Ht]. split; [lia|].
    rewrite Ht. lia.
  - done.
Qed.

Lemma failed_inv p y e l :
  Inv l → pubs l !! p = Some y → enqueuing y = 1%Z → Inv (failed p y e l).
Proof.
  intros I Hy He. pose proof (inv_pubs _ I _ _ Hy) as Ht. cbn in Ht. unfold tally, left_ in Ht. rewrite He in Ht.
  eapply inv_pub; [done..| |rewrite He; cbn; lia].
  unfold tally, left_. cbn. destruct Ht as [Hle Ht]. split; [lia|]. destruct (p_err y); [|split; [done|]]; [split; [done|]|].
  all: intros; exfalso; naive_solver lia.
Qed.

Lemma publishStep_inv p c l l' : Inv l → publishStep p c l = Some l' → Inv l'.
Proof.
  intros I H. apply bind_Some in H as (y & Hy & H).
  pose proof (inv_pubs _ I _ _ Hy) as Ht. cbn in Ht.
  destruct (p_pc y) as [|s|s] eqn:Ep.
  - destruct (p_rest y) as [|s rest] eqn:Er; simplify_eq.
    + eapply inv_return; [done..| |]; unfold tally, left_, enqueuing in *; rewrite Ep in *; [done|].
      rewrite Er in Ht. cbn in *. destruct Ht as [? Ht]. rewrite Ht. lia.
    + eapply inv_pub; [done..| |unfold enqueuing; rewrite Ep; cbn; lia].
      unfold tally, left_, enqueuing in *. rewrite Ep, Er in Ht. cbn in *. destruct Ht as [? Ht]. rewrite Ht. lia.
  - apply bind_Some in H as (x & Hx & H). unfold enqueue in H. rewrite Ep in H.
    assert (enqueuing y = 1%Z) as He by (unfold enqueuing; by rewrite Ep).
    destruct (room x) eqn:Hr; simplify_eq; [by apply enqueued_inv|].
    rewrite <-(addPending_0 (setPub _ _ _)). eapply inv_pub; [done..| |rewrite He; cbn; lia].
    unfold tally, left_ in *. rewrite He in Ht. cbn in *. done.
  - apply bind_Some in H as (x & Hx & H). unfold enqueue in H. rewrite Ep in H.
    assert (enqueuing y = 1%Z) as He by (unfold enqueuing; by rewrite Ep).
    destruct c; [destruct (room x) eqn:Hr|destruct (done_ x)|..]; simplify_eq;
      first [by apply enqueued_inv|by apply failed_inv].
Qed.

Lemma returned_new_inv p o l :
  Inv l → pubs l !! p = None → tally (o_delivered o) (o_total o) (o_err o) → Inv (returned p o l).
Proof.
  intros [I1 I2 I3 I4] Hp Ho. split; cbn; [|done| |by apply map_Forall_insert_2];
    by rewrite delete_id by done.
Qed.

Lemma publish_inv p sj m l l' : Inv l → publish p sj m l = Some l' → Inv l'.
Proof.
  intros I H. unfold publish in H. destruct (pubs l !! p) eqn:Hp, (outs l !! p); try done.
  destruct (default [] (subs l !! sj)) as [|s ts].
  { simplify_eq. by apply returned_new_inv. }
  destruct (Validate m); [destruct (Marshal m) as [d|]|]; simplify_eq;
    try (apply returned_new_inv; [done..|]; unfold tally; cbn; split; [lia|done]).
  destruct I as [I1 I2 I3 I4]. split; cbn; [|done| |done].
  - by rewrite msum_insert, I1 by done.
  - apply map_Forall_insert_2; [|done]. unfold tally, left_. cbn. split; [lia|]. split; [lia|done].
Qed.

Lemma subscribe_inv sj s l l' : Inv l → subscribe sj s l = Some l' → Inv l'.
Proof.
  intros I H. unfold subscribe in H. destruct (heap l !! s) eqn:Hs; simplify_eq.
  apply inv_subs_irrel. destruct I as [I1 I2 I3 I4]. split; cbn; [| |done|done].
  - by rewrite msum_insert, I1 by done.
  - apply map_Forall_insert_2; [|done]. split; cbn; [lia|done].
Qed.

Lemma lane_step_inv a l l' : Inv l → step a l = Some l' → Inv l'.
Proof.
  intros I H. destruct a; cbn in H;
    eauto using subscribe_inv, publish_inv, publishStep_inv, runStep_inv, unsubscribe_inv.
  - simplify_eq. by destruct I; split.
  - destruct (unsubs l !! u); simplify_eq. by apply inv_unsubs_irrel.
Qed.

Lemma lane_steps_inv ls l l' : Inv l → steps ls l = Some l' → Inv l'.
Proof.
  revert l. induction ls as [|a ls IH]; intros l I H; simplify_eq/=; [done|].
  apply bind_Some in H as (l1 & H1 & H2). eauto using lane_step_inv.
Qed.

Lemma new_inv qs t : Inv (newLocalLane qs t).
Proof. split; cbn; [by rewrite !msum_empty|apply map_Forall_empty..]. Qed.

Lemma handed_sublist x : sub_ok x → handed x `sublist_of` accepted x.
Proof.
  intros [_ ->]. apply sublist_inserts_r. unfold handed.
  induction (taken x) as [|[d []] q IH]; cbn; [done|by apply sublist_skip|by apply sublist_cons].
Qed.

(** C9: the lane's bookkeeping, under any interleaving of subscriptions,
    publishers, handlers and [Unsubscribe]: the pending counter is what is queued,
    plus what is in a handler, plus the sends under way, so [quiesce] returns nil
    only when nothing is queued and no handler runs; a queue stays within its
    capacity; a subscriber is handed a subsequence of what was accepted for it, in
    that order and each at most once; and [publish] reports no error exactly when
    every subscriber it found accepted the message. *)
Theorem lane_sound qs t ls l :
  steps ls (newLocalLane qs t) = Some l →
  pending l = (msum weight (heap l) + msum enqueuing (pubs l))%Z ∧
  (quiesced l = true → ∀ s x, heap l !! s = Some x → queue x = [] ∧ ∀ d, run x ≠ RDeliver d) ∧
  (∀ s x, heap l !! s = Some x → length (queue x) ≤ qcap x ∧ handed x `sublist_of` accepted x) ∧
  (∀ p o, outs l !! p = Some o →
     o_delivered o ≤ o_total o ∧ (o_err o = None ↔ o_delivered o = o_total o)).
Proof.
  intros H. pose proof (lane_steps_inv _ _ _ (new_inv qs t) H) as [I1 I2 I3 I4]. split_and!; [done| | |].
  - intros Hq s x Hx. apply negb_true_iff, Z.ltb_ge in Hq.
    assert (∀ m : gmap nat pub, 0 ≤ msum enqueuing m)%Z as Hnn.
    { intros m. induction m as [|k y m Hk IH] using map_ind; [by rewrite msum_empty|].
      rewrite msum_insert by done. unfold enqueuing at 1. destruct (p_pc y); lia. }
    specialize (Hnn (pubs l)).
    assert (weight x = 0)%Z as Hw.
    { apply (msum_zero weight (heap l)) with s; [|lia|done].
      intros k z _. unfold weight. destruct (run z); cbn; lia. }
    unfold weight in Hw. destruct (run x) eqn:Er; cbn in Hw; (split; [|done]) || lia.
    all: apply length_zero_iff_nil; lia.
  - intros s x Hx. pose proof (I2 _ _ Hx) as Hok. cbn in Hok. split; [apply Hok|by apply handed_sublist].
  - intros p o Ho. apply (I4 _ _ Ho).
Qed.
End Lane.

(** ** Concrete runs *)
Module LaneExample.
Definition yes (_ : nat) : bool := true.
Definition enc (n : nat) : option nat := Some n.

(** One message through one subscription, handed over. *)
Definition run1 : list label :=
  [LSubscribe "s" 0; LPublish 0 "s" 7; LPub 0 CSend; LPub 0 CSend; LPub 0 CSend;
   LRun 0 false; LRun 0 false].
Definition l1 : localLane := default (newLocalLane 0 0) (steps yes enc run1 (newLocalLane 0 0)).

Lemma lane_sound_witness :
  steps yes enc run1 (newLocalLane 0 0) = Some l1 ∧ quiesced l1 = true ∧
  (∀ s x, heap l1 !! s = Some x → queue x = []) ∧ handed <$> (heap l1 !! 0) = Some [7].
Proof.
  assert (steps yes enc run1 (newLocalLane 0 0) = Some l1) as H by (vm_compute; reflexivity).
  assert (quiesced l1 = true) as Hq by (vm_compute; reflexivity).
  split; [exact H|]. split; [exact Hq|]. split; [|vm_compute; reflexivity].
  intros s x Hx. destruct (lane_sound yes enc 0 0 run1 l1 H) as (_ & Hz & _). apply (Hz Hq s x Hx).
Defined.

(** A publisher that took its targets before an [Unsubscribe] and sends after it:
    the non-blocking send finds room in the queue nobody reads any more.  The
    publish reports full delivery, nothing is handed over, and the pending count
    stays at one. *)
Definition run2 : list label :=
  [LSubscribe "s" 0; LPublish 0 "s" 7; LUnsub 0 0; LUnsubStep 0 false; LUnsubStep 0 false; LRun 0 true;
   LUnsubStep 0 false; LUnsubStep 0 false; LPub 0 CSend; LPub 0 CSend; LPub 0 CSend].
Definition l2 : localLane := default (newLocalLane 0 0) (steps yes enc run2 (newLocalLane 0 0)).

Lemma send_after_unsubscribe_is_stranded :
  steps yes enc run2 (newLocalLane 0 0) = Some l2 ∧
  outs l2 !! 0 = Some (mkOutcome 1 None 1) ∧ handed <$> (heap l2 !! 0) = Some [] ∧
  unsubs l2 !! 0 = None ∧ quiesced l2 = false ∧
  runStep 0 true l2 = None ∧ runStep 0 false l2 = None.
Proof. vm_compute. repeat split. Qed.
End LaneExample.
