(* ===== verification/Routes.v ===== *)
(** * Which wires use the bus, and where a port leads
    (pkg/runtime/routes.go, bindings.go and the wiring loop of runtime.go)

    A scenario is applied on every Rack.  The Rack that hosts a source decides which
    of its subjects are published to the bus ([busEmitSubjects]); the Rack that
    hosts a consumer decides whether it listens on the bus or in memory
    ([consumes], from [ApplyScenario]).  The two decisions are taken apart, on
    different machines, and must agree. *)
From S2P Require Import Prelude FluxMsg.

(** ** Scenarios (pkg/registry/scenario.go) *)

(** [Deploy] is [Some target] when the spec's value is a string. *)
Record GearSpec := mkGear { Name : string; Type_ : string; Deploy : option string }.
Record WireSpec := mkWire { From : string; To : string; Lane : string }.
Record Scenario := mkScenario { Gears : list GearSpec; Wires : list WireSpec }.

Definition LaneGuaranteed : string := "guaranteed".

(** [strings.Join(parts, ".")] *)
Fixpoint joinDot (l : list string) : string :=
  match l with
  | [] => ""
  | [x] => x
  | x :: l => x +:+ "." +:+ joinDot l
  end.

(** [(rack, gear, port)] *)
Definition parsePortRef (ref : string) : string * string * string :=
  match splitDot ref with
  | [gear; port] => ("", gear, port)
  | [rack; gear; port] => (rack, gear, port)
  | gear :: rest => ("", gear, joinDot rest)
  | [] => ("", "", "")
  end.

Definition deployOne (m : gmap string string) (g : GearSpec) : gmap string string :=
  match Deploy g with Some t => <[Name g := t]> m | None => m end.
Definition deployMap (sc : Scenario) : gmap string string := foldl deployOne ∅ (Gears sc).

(** A map read: the zero value when the key is absent. *)
Definition look (m : gmap string string) (k : string) : string := default "" (m !! k).

Definition wireOnLane (w : WireSpec) (sourceRack rack : string) : bool :=
  bool_decide (sourceRack = rack) && negb (bool_decide (Lane w = LaneGuaranteed)).

Fixpoint firstNonEmpty (values : list string) : string :=
  match values with
  | [] => ""
  | v :: vs => if bool_decide (v = "") then firstNonEmpty vs else v
  end.

(** [fmt.Sprintf("flux.msg.%s.%s.%s", rack, gear, port)] *)
Definition subjectOf (rack gear port : string) : string :=
  "flux.msg." +:+ rack +:+ "." +:+ gear +:+ "." +:+ port.

(** The body of the loop of [busEmitSubjects]: the subject to publish, if any. *)
Definition busEmit (rack : string) (gearDeploy : gmap string string) (w : WireSpec) : option string :=
  let '(fromRack, fromGear, fromPort) := parsePortRef (From w) in
  let '(toRack, toGear, _) := parsePortRef (To w) in
  let d := look gearDeploy fromGear in
  let emitsHere := bool_decide (fromRack = rack) ||
    (bool_decide (fromRack = "") && (bool_decide (d = rack) || bool_decide (d = ""))) in
  if negb emitsHere then None
  else
    let sourcePinned := negb (bool_decide (fromRack = "")) || negb (bool_decide (d = "")) in
    let consumerElsewhere :=
      (negb (bool_decide (toRack = "")) && negb (bool_decide (toRack = rack))) ||
      (bool_decide (toRack = "") && negb (bool_decide (look gearDeploy toGear = rack))) in
    if bool_decide (Lane w = LaneGuaranteed) || (sourcePinned && consumerElsewhere)
    then Some (subjectOf rack fromGear fromPort) else None.

Definition busEmitSubjects (sc : Scenario) (rack : string) (gearDeploy : gmap string string) : gset string :=
  list_to_set (omap (busEmit rack gearDeploy) (Wires sc)).

(** The body of the loop of [scenarioNeedsBus]. *)
Definition feedsFromBus (rack : string) (gearDeploy : gmap string string) (w : WireSpec) : bool :=
  let '(fromRack, fromGear, _) := parsePortRef (From w) in
  let '(toRack, toGear, _) := parsePortRef (To w) in
  let consumedHere := (bool_decide (toRack = "") || bool_decide (toRack = rack)) &&
    (bool_decide (look gearDeploy toGear = "") || bool_decide (look gearDeploy toGear = rack)) in
  let sourceRack := firstNonEmpty [fromRack; look gearDeploy fromGear; rack] in
  consumedHere && negb (wireOnLane w sourceRack rack).

Definition scenarioNeedsBus (sc : Scenario) (rack : string) (gearDeploy : gmap string string) : bool :=
  negb (bool_decide (busEmitSubjects sc rack gearDeploy = ∅)) ||
  existsb (feedsFromBus rack gearDeploy) (Wires sc).

Definition NeedsBus (rack : string) (sc : Scenario) : bool := scenarioNeedsBus sc rack (deployMap sc).

(** ** The wiring loop of [ApplyScenario] *)

(** The gears this Rack creates. *)
Definition activeGears (sc : Scenario) (rack : string) : list string :=
  omap (λ g, let target := default "" (Deploy g) in
             if negb (bool_decide (target = "")) && negb (bool_decide (target = rack)) then None
             else Some (Name g)) (Gears sc).

(** What the loop does with a wire: nothing, when it is not consumed here; fail the
    activation, when a gear that is not multi-port is wired on a role-bearing input;
    or subscribe to a subject, on the hot lane when the flag is [true]. *)
Inductive wiring := Skipped | BadInput | Subscribed (subj : string) (lane : bool).

(** [isPorted] says whether a gear implements [sdk.PortedGear]. *)
Definition consumes (isPorted : string → bool) (sc : Scenario) (rack : string) (w : WireSpec) : wiring :=
  let '(toRack, toGear, toPort) := parsePortRef (To w) in
  if negb (bool_decide (toRack = "")) && negb (bool_decide (toRack = rack)) then Skipped
  else if bool_decide (toGear ∈ activeGears sc rack) then
    let inPort := if bool_decide (toPort = "") then "in" else toPort in
    if negb (isPorted toGear) && String.prefix "in_" inPort then BadInput
    else
      let '(fromRack, fromGear, fromPort) := parsePortRef (From w) in
      let sourceRack := if bool_decide (fromRack = "") then look (deployMap sc) fromGear else fromRack in
      let sourceRack := if bool_decide (sourceRack = "") then rack else sourceRack in
      Subscribed (subjectOf sourceRack fromGear fromPort) (wireOnLane w sourceRack rack)
  else Skipped.

(** ** Where a port leads (bindings.go) *)

(** [TerminusOther] is any other string, the empty one of an unknown gear included. *)
Inductive TerminusKind := TerminusIO | TerminusOpaque | TerminusTransparent | TerminusOther (k : string).
Inductive PortBinding := BindingIO (gear : string) | BindingRemote (gear : string) | BindingUnbound.

Definition maxWalkDepth : nat := 32.

Section bindings.
Context (sc : Scenario) (rackName : string) (gearDeploy : gmap string string).
Context (terminusOf : string → TerminusKind).

(** The last gear of a name wins, as in the map [specs]. *)
Definition specs (gear : string) : option GearSpec :=
  last (filter (λ g, Name g = gear) (Gears sc)).

Definition wiresFrom (ref : string) : list string :=
  To <$> filter (λ w, From w = ref) (Wires sc).

Definition rackOf (gear : string) : string :=
  match gearDeploy !! gear with
  | Some r => if bool_decide (r = "") then rackName else r
  | None => rackName
  end.

(** [walk]; [fuel] is [maxWalkDepth + 1 - depth], so that no fuel is the code's
    depth guard. *)
Fixpoint walk (fuel : nat) (toRef : string) : PortBinding :=
  match fuel with
  | O => BindingUnbound
  | S fuel =>
      let '(_, gear, _) := parsePortRef toRef in
      match specs gear with
      | None => BindingUnbound
      | Some spec =>
          if bool_decide (rackOf gear = rackName) then
            match terminusOf (Type_ spec) with
            | TerminusIO => BindingIO gear
            | TerminusOpaque => BindingUnbound
            | _ =>
                match wiresFrom (gear +:+ ".out") with
                | [out] => walk fuel out
                | _ => BindingUnbound
                end
            end
          else BindingRemote gear
      end
  end.

(** The body of the loop over the wires. *)
Definition bindWire (out : gmap string (gmap string PortBinding)) (w : WireSpec) : gmap string (gmap string PortBinding) :=
  let '(_, fromGear, fromPort) := parsePortRef (From w) in
  if bool_decide (fromPort = "") || negb (String.prefix "out" fromPort) then out
  else if negb (bool_decide (rackOf fromGear = rackName)) then out
  else
    let ports := default ∅ (out !! fromGear) in
    let b := match ports !! fromPort with
             | Some _ => BindingUnbound
             | None => walk (S maxWalkDepth) (To w)
             end in
    <[fromGear := <[fromPort := b]> ports]> out.

Definition computeBindings : gmap string (gmap string PortBinding) :=
  foldl bindWire ∅ (Wires sc).
End bindings.

(** ** The two ends of a wire agree *)

Lemma deployMap_fold l m k :
  k ∉ (Name <$> l) →
  foldl deployOne m l !! k = m !! k.
Proof.
  revert m. induction l as [|g l IH]; intros m Hk; [done|]. cbn in *. apply not_elem_of_cons in Hk as [Hne Hk].
  rewrite IH by done. unfold deployOne. destruct (Deploy g); [|done]. by rewrite lookup_insert_ne.
Qed.

Lemma deployMap_lookup sc g :
  NoDup (Name <$> Gears sc) → g ∈ Gears sc → deployMap sc !! Name g = Deploy g.
Proof.
  intros Hnd (l1 & l2 & E)%list_elem_of_split. unfold deployMap. rewrite E in Hnd |- *.
  rewrite foldl_app. cbn. rewrite fmap_app, fmap_cons in Hnd.
  apply NoDup_app in Hnd as (_ & Hd & [Hn2 _]%NoDup_cons).
  assert (Name g ∉ Name <$> l1) as Hn1 by (intros Hin; apply (Hd _ Hin); set_solver).
  rewrite deployMap_fold by done. unfold deployOne at 1. destruct (Deploy g) eqn:Ed; [apply lookup_insert_eq|].
  by rewrite deployMap_fold, lookup_empty by done.
Qed.

Lemma active_deploy sc rack gear :
  NoDup (Name <$> Gears sc) → gear ∈ activeGears sc rack →
  look (deployMap sc) gear = "" ∨ look (deployMap sc) gear = rack.
Proof.
  intros Hnd (g & Hg & H)%list_elem_of_omap. cbv zeta in H. destruct (negb _ && negb _) eqn:E; simplify_eq.
  unfold look. rewrite (deployMap_lookup sc g) by done.
  apply andb_false_iff in E as [E|E]; apply negb_false_iff, bool_decide_eq_true in E; auto.
Qed.

(** The Rack whose subject a consumer on [rack] listens to. *)
Definition sourceRackOf (sc : Scenario) (rack : string) (w : WireSpec) : string :=
  let '(fromRack, fromGear, _) := parsePortRef (From w) in
  firstNonEmpty [fromRack; look (deployMap sc) fromGear; rack].

Lemma consumes_spec pd sc rack w subj lane :
  NoDup (Name <$> Gears sc) → consumes pd sc rack w = Subscribed subj lane →
  let '(fromRack, fromGear, fromPort) := parsePortRef (From w) in
  let '(toRack, toGear, _) := parsePortRef (To w) in
  let src := sourceRackOf sc rack w in
  subj = subjectOf src fromGear fromPort ∧ lane = wireOnLane w src rack ∧
  (toRack = "" ∨ toRack = rack) ∧
  (look (deployMap sc) toGear = "" ∨ look (deployMap sc) toGear = rack).
Proof.
  intros Hnd H. unfold consumes, sourceRackOf in *.
  destruct (parsePortRef (From w)) as [[fr fg] fp], (parsePortRef (To w)) as [[tr tg] tp].
  destruct (negb (bool_decide (tr = "")) && _) eqn:Et; [done|].
  case_bool_decide as Ha; [|done]. apply active_deploy in Ha; [|done].
  destruct (negb (pd tg) && _); [done|].
  assert (tr = "" ∨ tr = rack) as Htr.
  { apply andb_false_iff in Et as [E|E]; apply negb_false_iff, bool_decide_eq_true in E; auto. }
  assert ((if bool_decide ((if bool_decide (fr = "") then look (deployMap sc) fg else fr) = "") then rack
           else if bool_decide (fr = "") then look (deployMap sc) fg else fr)
          = firstNonEmpty [fr; look (deployMap sc) fg; rack]) as E.
  { cbn [firstNonEmpty]. repeat case_bool_decide; done. }
  rewrite E in H. by simplify_eq.
Qed.

(** A consumer that listens on the bus is served: its source's Rack publishes. *)
Lemma busEmit_serves pd sc rack w subj :
  NoDup (Name <$> Gears sc) → consumes pd sc rack w = Subscribed subj false →
  busEmit (sourceRackOf sc rack w) (deployMap sc) w = Some subj.
Proof.
  intros Hnd H. pose proof (consumes_spec _ _ _ _ _ _ Hnd H) as Hs. unfold sourceRackOf, busEmit in *.
  destruct (parsePortRef (From w)) as [[fr fg] fp], (parsePortRef (To w)) as [[tr tg] tp].
  destruct Hs as (-> & Hl & Ht & Hd). symmetry in Hl. unfold wireOnLane in Hl.
  set (d := look (deployMap sc) fg) in *. cbn [firstNonEmpty] in *.
  repeat case_bool_decide; simplify_eq; cbn in *; try done; (destruct Hd, Ht; congruence).
Qed.

Lemma feedsFromBus_complete pd sc rack w subj :
  NoDup (Name <$> Gears sc) → consumes pd sc rack w = Subscribed subj false →
  feedsFromBus rack (deployMap sc) w = true.
Proof.
  intros Hnd H. pose proof (consumes_spec _ _ _ _ _ _ Hnd H) as Hs. unfold sourceRackOf, feedsFromBus in *.
  destruct (parsePortRef (From w)) as [[fr fg] fp], (parsePortRef (To w)) as [[tr tg] tp].
  destruct Hs as (_ & <- & Ht & Hd). cbn [negb]. rewrite andb_true_r.
  repeat case_bool_decide; simplify_eq; naive_solver.
Qed.

(** C10: the two ends of every wire agree.  Where gear names are unique, a consumer
    that its Rack feeds from the bus listens on a subject that the Rack of its
    source publishes to the bus; a consumer fed from the hot lane listens on a
    subject of its own Rack; and a Rack told that it needs no bus publishes nothing
    to it and feeds every consumer from the hot lane. *)
Theorem wires_agree pd sc rack w :
  NoDup (Name <$> Gears sc) → w ∈ Wires sc →
  (∀ subj, consumes pd sc rack w = Subscribed subj false →
     subj ∈ busEmitSubjects sc (sourceRackOf sc rack w) (deployMap sc)) ∧
  (∀ subj, consumes pd sc rack w = Subscribed subj true → sourceRackOf sc rack w = rack) ∧
  (NeedsBus rack sc = false →
     busEmitSubjects sc rack (deployMap sc) = ∅ ∧
     ∀ subj lane, consumes pd sc rack w = Subscribed subj lane → lane = true).
Proof.
  intros Hnd Hw. split_and!.
  - intros subj H. apply elem_of_list_to_set, list_elem_of_omap. exists w.
    split; [done|]. by eapply busEmit_serves.
  - intros subj H. pose proof (consumes_spec _ _ _ _ _ _ Hnd H) as Hs. unfold sourceRackOf in *.
    destruct (parsePortRef (From w)) as [[fr fg] fp], (parsePortRef (To w)) as [[tr tg] tp].
    destruct Hs as (_ & Hl & _). unfold wireOnLane in Hl. symmetry in Hl.
    apply andb_true_iff in Hl as [Hl _]. by apply bool_decide_eq_true in Hl.
  - unfold NeedsBus, scenarioNeedsBus. intros [H1 H2]%orb_false_iff. split.
    { by apply negb_false_iff, bool_decide_eq_true in H1. }
    intros subj [] H; [done|]. apply feedsFromBus_complete in H; [|done].
    apply not_true_iff_false in H2. destruct H2. apply existsb_exists. exists w.
    split; [by apply list_elem_of_In|done].
Qed.

(** ** Bindings *)

Section bindings_theory.
Context (sc : Scenario) (rackName : string) (gearDeploy : gmap string string).
Context (terminusOf : string → TerminusKind).
Local Abbreviation walk := (walk sc rackName gearDeploy terminusOf).
Local Abbreviation rackOf := (rackOf rackName gearDeploy).

Definition gearOf (ref : string) : string := let '(_, gear, _) := parsePortRef ref in gear.

(** A gear of this Rack, by what the walk does at it. *)
Definition localKind (gear : string) (k : TerminusKind) : Prop :=
  ∃ spec, specs sc gear = Some spec ∧ rackOf gear = rackName ∧ terminusOf (Type_ spec) = k.

(** [leads n ref g]: from endpoint [ref], through [n] local pass-through gears with
    exactly one wire on their default output, to the local I/O gear [g]. *)
Inductive leads : nat → string → string → Prop :=
| leads_io ref : localKind (gearOf ref) TerminusIO → leads 0 ref (gearOf ref)
| leads_hop n ref k out g :
    localKind (gearOf ref) k → k ≠ TerminusIO → k ≠ TerminusOpaque →
    wiresFrom sc (gearOf ref +:+ ".out") = [out] → leads n out g → leads (S n) ref g.

Lemma walk_unfold f ref :
  walk (S f) ref =
  match specs sc (gearOf ref) with
  | None => BindingUnbound
  | Some spec =>
      if bool_decide (rackOf (gearOf ref) = rackName) then
        match terminusOf (Type_ spec) with
        | TerminusIO => BindingIO (gearOf ref)
        | TerminusOpaque => BindingUnbound
        | _ => match wiresFrom sc (gearOf ref +:+ ".out") with [out] => walk f out | _ => BindingUnbound end
        end
      else BindingRemote (gearOf ref)
  end.
Proof. unfold gearOf. cbn [Routes.walk]. by destruct (parsePortRef ref) as [[??]?]. Qed.

Lemma walk_exact f ref g : walk f ref = BindingIO g ↔ ∃ n, (n < f)%nat ∧ leads n ref g.
Proof.
  revert ref. induction f as [|f IH]; intros ref; [split; [done|]; intros (?&?&_); lia|].
  rewrite walk_unfold. split.
  - destruct (specs sc (gearOf ref)) as [spec|] eqn:Es; [|done]. case_bool_decide as Er; [|done].
    assert (∀ k, terminusOf (Type_ spec) = k → localKind (gearOf ref) k) as Hk by (intros k <-; by exists spec).
    destruct (terminusOf (Type_ spec)) as [| | |k] eqn:Ek; intros H.
    + simplify_eq. exists 0%nat. split; [lia|]. by constructor; apply Hk.
    + done.
    + destruct (wiresFrom sc _) as [|o [|]] eqn:Ew; try done. apply IH in H as (n & ? & ?).
      exists (S n). split; [lia|]. by apply (leads_hop n ref _ o g (Hk _ eq_refl)).
    + destruct (wiresFrom sc _) as [|o [|]] eqn:Ew; try done. apply IH in H as (n & ? & ?).
      exists (S n). split; [lia|]. by apply (leads_hop n ref _ o g (Hk _ eq_refl)).
  - intros (n & Hn & H). destruct H as [ref (spec & -> & Er & ->)|n ref k o g (spec & -> & Er & ->) H1 H2 Hw Hl].
    + by rewrite bool_decide_true.
    + rewrite bool_decide_true by done. rewrite Hw.
      assert (walk f o = BindingIO g) as Ho by (apply IH; exists n; split; [lia|done]).
      by destruct k.
Qed.

(** The wires out of one port, as [computeBindings] groups them. *)
Definition fromPort (gear port : string) (w : WireSpec) : Prop :=
  (parsePortRef (From w)).1.2 = gear ∧ (parsePortRef (From w)).2 = port.
#[local] Instance fromPort_dec gear port w : Decision (fromPort gear port w).
Proof. unfold fromPort. apply _. Defined.

Definition bound (gear port : string) (ws : list WireSpec) : option PortBinding :=
  match filter (fromPort gear port) ws with
  | [] => None
  | [w] => Some (walk (S maxWalkDepth) (To w))
  | _ => Some BindingUnbound
  end.

Definition bindable (gear port : string) : bool :=
  negb (bool_decide (port = "") || negb (String.prefix "out" port)) && bool_decide (rackOf gear = rackName).

Definition get2 (m : gmap string (gmap string PortBinding)) (gear port : string) : option PortBinding :=
  m !! gear ≫= (.!! port).

Lemma get2_insert m gear port b gear' port' :
  get2 (<[gear := <[port := b]> (default ∅ (m !! gear))]> m) gear' port' =
  if decide (gear = gear' ∧ port = port') then Some b else get2 m gear' port'.
Proof.
  unfold get2. destruct (decide (gear = gear')) as [<-|Hg].
  - rewrite lookup_insert_eq. cbn. destruct (decide (port = port')) as [<-|Hp].
    + rewrite lookup_insert_eq, decide_True by done. done.
    + rewrite lookup_insert_ne, decide_False by naive_solver. by destruct (m !! gear).
  - rewrite lookup_insert_ne, decide_False by naive_solver. done.
Qed.

Lemma bind_fold ws gear port :
  get2 (foldl (bindWire sc rackName gearDeploy terminusOf) ∅ ws) gear port =
  if bindable gear port then bound gear port ws else None.
Proof.
  induction ws as [|w ws IH] using rev_ind; [by destruct (bindable gear port)|].
  rewrite foldl_app. cbn [foldl]. set (m := foldl _ ∅ ws) in *. unfold bindWire, bound.
  rewrite filter_app. destruct (parsePortRef (From w)) as [[fr fg] fp] eqn:Ew.
  assert (filter (fromPort gear port) [w] = if decide (fg = gear ∧ fp = port) then [w] else []) as Ef.
  { assert (fromPort gear port w ↔ fg = gear ∧ fp = port) as Hf by (unfold fromPort; by rewrite Ew).
    rewrite filter_cons, filter_nil. repeat case_decide; tauto. }
  rewrite Ef. clear Ef.
  destruct (decide (fg = gear ∧ fp = port)) as [[-> ->]|Hne].
  - destruct (bool_decide (port = "") || negb (String.prefix "out" port)) eqn:Eo;
      [|destruct (bool_decide (rackOf gear = rackName)) eqn:Er]; cbn [negb];
      unfold bindable in *; rewrite ?Eo, ?Er in *; cbn [negb andb] in IH |- *; [exact IH| |exact IH].
    rewrite get2_insert, decide_True by done. unfold get2, bound in IH.
    assert (default ∅ (m !! gear) !! port = m !! gear ≫= (.!! port)) as -> by by destruct (m !! gear).
    rewrite IH. destruct (filter (fromPort gear port) ws) as [|x [|]]; reflexivity.
  - rewrite app_nil_r. destruct (_ || _); [done|]. destruct (negb _); [done|].
    by rewrite get2_insert, decide_False.
Qed.

(** a port is bound to an I/O gear exactly when the wiring says so: the port
    is a named output of a gear of this Rack, it has exactly one wire, and from
    there at most 32 local pass-through gears, each with exactly one wire on its
    default output, lead to that gear.  The depth bound of the walk is what makes
    it terminate on a cyclic wiring. *)
Theorem bindings_exact gear port g :
  computeBindings sc rackName gearDeploy terminusOf !! gear ≫= (.!! port) = Some (BindingIO g) ↔
  bindable gear port = true ∧
  ∃ w, filter (fromPort gear port) (Wires sc) = [w] ∧ ∃ n, (n ≤ 32)%nat ∧ leads n (To w) g.
Proof.
  change (computeBindings sc rackName gearDeploy terminusOf !! gear ≫= (.!! port)) with
    (get2 (computeBindings sc rackName gearDeploy terminusOf) gear port).
  unfold computeBindings. rewrite bind_fold. destruct (bindable gear port); [|naive_solver].
  unfold bound. destruct (filter (fromPort gear port) (Wires sc)) as [|w [|]] eqn:E; [naive_solver| |].
  - rewrite (inj_iff Some), walk_exact. unfold maxWalkDepth. split.
    + intros (n & ? & ?). split; [done|]. exists w. split; [done|]. exists n. split; [lia|done].
    + intros (_ & w' & [= <-] & n & ? & ?). exists n. split; [lia|done].
  - split; [done|]. intros (_ & w' & ? & _). done.
Qed.
End bindings_theory.

(** ** A scenario on two Racks *)
Module RoutesExample.
(** A TCP endpoint and a codec on [a], a conductor on [b]. *)
Definition sc : Scenario := mkScenario
  [mkGear "tcp" "io_tcp" (Some "a"); mkGear "codec" "iso8583" (Some "a"); mkGear "cond" "conductor" (Some "b")]
  [mkWire "codec.out" "cond.in" ""; mkWire "cond.out" "codec.in" ""; mkWire "tcp.out" "codec.in" ""].

Definition kindOf (t : string) : TerminusKind :=
  if bool_decide (t = "io_tcp") then TerminusIO else TerminusTransparent.

(** The codec's wire to the conductor crosses Racks: [a] publishes what [b] hears. *)
Lemma wires_agree_witness :
  consumes (λ _, true) sc "b" (mkWire "codec.out" "cond.in" "") = Subscribed "flux.msg.a.codec.out" false ∧
  "flux.msg.a.codec.out" ∈ busEmitSubjects sc "a" (deployMap sc).
Proof.
  split; [vm_compute; reflexivity|].
  apply (wires_agree (λ _, true) sc "b" (mkWire "codec.out" "cond.in" "")); [| |vm_compute; reflexivity].
  - apply (bool_decide_unpack _). vm_compute. reflexivity.
  - apply list_elem_of_In. left. reflexivity.
Defined.

Definition local : Scenario := mkScenario
  [mkGear "cond" "conductor" None; mkGear "codec" "iso8583" None; mkGear "tcp" "io_tcp" None]
  [mkWire "cond.out_a" "codec.in" ""; mkWire "codec.out" "tcp.in" ""].

Example bound_through_codec :
  computeBindings local "r" (deployMap local) kindOf !! "cond" ≫= (.!! "out_a") = Some (BindingIO "tcp").
Proof. vm_compute. reflexivity. Qed.
End RoutesExample.
