(* ===== verification/When.v ===== *)
(** * The [when] conditions of a codec specification
    (pkg/gears/native/iso8583/codec/sdl: when.go and eval.go)

    A small boolean language over one message: its scanner, its parser and its
    evaluator.  The parser's state keeps the unread source as [rest]
    ([p.src[p.pos:]]) beside the position.  The recursion of the parser follows the
    code's own depth guard: [n] is [maxWhenDepth + 1 - depth], and no [n] left is the
    guard's error.  The two loops carry a fuel, the length of the unread source, which
    always suffices ([When.ParseWhen] never reports [EFuel]; see [WhenSpec]).

    An error keeps its position and what it says; the wording is left out.
    [strconv.ParseFloat] and the comparison of its results are parameters. *)
From Stdlib Require Import Ascii.
From S2P Require Import Prelude Bytes Amount FluxMsg.
Open Scope Z_scope.

Definition maxWhenDepth : nat := 32.

(** [Pos] is the byte offset of the path in the source. *)
Record FieldRef := mkRef { DE : Z; Subs : list string; Pos : nat }.

(** ** Values (eval.go) *)

Record value := mkValue { absent : bool; isBool : bool; b : bool; s : string; numeric : bool }.
Definition boolValue (x : bool) : value := mkValue false true x "" false.
Definition strValue (x : string) : value := mkValue false false false x false.
Definition absentValue : value := mkValue true false false "" false.
Definition truth (v : value) : bool := isBool v && b v.

(** ** The tree *)

Inductive node :=
| orNode (l : list node)
| andNode (l : list node)
| notNode (inner : node)
| cmpNode (lhs rhs : node) (op : string)
| fieldNode (ref : FieldRef) (num : bool)
| presentNode (ref : FieldRef)
| mtiNode
| litNode (v : value).

(** ** Tokens *)

Inductive tokKind :=
  tokEOF | tokIdent | tokString | tokNumber | tokOp | tokAnd | tokOr | tokNot | tokLParen | tokRParen.
#[export] Instance tokKind_eq_dec : EqDecision tokKind.
Proof. solve_decision. Defined.

Record token := mkTok { kind : tokKind; text : string; tpos : nat }.

(** What an error says. *)
Inductive errWhat :=
| EUnclosed | ESingle (c : ascii) | ESingleEq | EChar (c : ascii)
| EDepth | EAfterEnd | ECloseParen | ENotCondition | EUnknownName (name : string) | EValue
| EOpenCall | EPathExpected | EPath | ECloseCall | EFuel.
Record werr := mkErr { epos : nat; what : errWhat }.

Record parser := mkParser {
  rest : string; pos : nat; tok : token; refs : list FieldRef; err : option werr }.

(** The first error stays. *)
Definition errAt (at_ : nat) (w : errWhat) (p : parser) : parser :=
  mkParser (rest p) (pos p) (tok p) (refs p) (match err p with None => Some (mkErr at_ w) | e => e end).

(** ** The scanner *)

Definition isDigitC (c : ascii) : bool := (48 <=? byte_of c) && (byte_of c <=? 57).
Definition isPathRune (c : ascii) : bool :=
  Ascii.eqb c "_" || Ascii.eqb c "." ||
  ((97 <=? byte_of c) && (byte_of c <=? 122)) || ((65 <=? byte_of c) && (byte_of c <=? 90)) || isDigitC c.
Definition isSpaceC (c : ascii) : bool :=
  Ascii.eqb c " " || Ascii.eqb c "009" || Ascii.eqb c "010".

Fixpoint isAllDigitsF (t : string) : bool :=
  match t with EmptyString => true | String c t => isDigitC c && isAllDigitsF t end.
Definition isAllDigits (t : string) : bool := isAllDigitsF t && bool_decide (t ≠ "").

(** The longest prefix of characters that satisfy [f], and what follows it. *)
Fixpoint span (f : ascii → bool) (t : string) : string * string :=
  match t with
  | EmptyString => ("", "")
  | String c t' => if f c then let '(x, y) := span f t' in (String c x, y) else ("", t)
  end.

Definition scanned (k : tokKind) (t : string) (start : nat) (r : string) (len : nat) (p : parser) : parser :=
  mkParser r (start + len) (mkTok k t start) (refs p) (err p).

(** [next], on the source after the blanks. *)
Definition nextTok (start : nat) (r : string) (p : parser) : parser :=
  match r with
  | EmptyString => mkParser "" start (mkTok tokEOF "" start) (refs p) (err p)
  | String c r' =>
      if Ascii.eqb c "(" then scanned tokLParen "(" start r' 1 p
      else if Ascii.eqb c ")" then scanned tokRParen ")" start r' 1 p
      else if Ascii.eqb c "'" then
        let '(body, after) := span (λ x, negb (Ascii.eqb x "'")) r' in
        match after with
        | EmptyString => errAt start EUnclosed (scanned tokEOF "" start "" (1 + String.length body) p)
        | String q after' =>
            scanned tokString ("'" +:+ body +:+ "'") start after' (2 + String.length body) p
        end
      else if Ascii.eqb c "&" || Ascii.eqb c "|" then
        match r' with
        | String c' r'' =>
            if Ascii.eqb c' c
            then scanned (if Ascii.eqb c "|" then tokOr else tokAnd) (String c (String c "")) start r'' 2 p
            else errAt start (ESingle c) (scanned tokEOF (String c "") start r' 1 p)
        | EmptyString => errAt start (ESingle c) (scanned tokEOF (String c "") start r' 1 p)
        end
      else if Ascii.eqb c "!" then
        match r' with
        | String "=" r'' => scanned tokOp "!=" start r'' 2 p
        | _ => scanned tokNot "!" start r' 1 p
        end
      else if Ascii.eqb c "=" || Ascii.eqb c "<" || Ascii.eqb c ">" then
        match r' with
        | String "=" r'' => scanned tokOp (String c "=") start r'' 2 p
        | _ => if Ascii.eqb c "=" then scanned tokEOF "=" start r' 1 (errAt start ESingleEq p)
               else scanned tokOp (String c "") start r' 1 p
        end
      else if isPathRune c then
        let '(t, after) := span isPathRune r in
        scanned (if isAllDigits t then tokNumber else tokIdent) t start after (String.length t) p
      else errAt start (EChar c) (scanned tokEOF (String c "") start r' 1 p)
  end.

Definition next (p : parser) : parser :=
  let '(blanks, r) := span isSpaceC (rest p) in nextTok (pos p + String.length blanks) r p.

(** ** Paths *)

(** The digits of a data element; [None] on any other character. *)
Fixpoint digitsOf (acc : Z) (t : string) : option Z :=
  match t with
  | EmptyString => Some acc
  | String c t => if isDigitC c then digitsOf (int64 (acc * 10 + (byte_of c - 48))) t else None
  end.

Definition parsePath (t : string) (at_ : nat) : option FieldRef :=
  match splitDot t with
  | [] => None
  | de :: subs =>
      if bool_decide (de = "") then None
      else match digitsOf 0 de with
           | None => None
           | Some z => if bool_decide ("" ∈ subs) then None else Some (mkRef z subs at_)
           end
  end.

(** [text[1:len(text)-1]] of a quoted literal. *)
Definition unquote (t : string) : string :=
  match t with
  | String "'" t' =>
      let n := String.length t' in
      if (1 <=? n)%nat && bool_decide (String.get (n - 1) t' = Some "'"%char)
      then String.substring 0 (n - 1) t' else t
  | _ => t
  end.

(** ** The parser *)

(** [inr n] is the parsed node; on failure the error is the parser's [err]. *)
Abbreviation presult := (parser * option node)%type.

Definition failAt (at_ : nat) (w : errWhat) (p : parser) : presult := (errAt at_ w p, None).

Definition parseCall (present_ : bool) (p : parser) : presult :=
  let p := next p in
  if bool_decide (kind (tok p) ≠ tokLParen) then failAt (tpos (tok p)) EOpenCall p
  else
    let p := next p in
    if bool_decide (kind (tok p) ≠ tokIdent ∧ kind (tok p) ≠ tokNumber) then failAt (tpos (tok p)) EPathExpected p
    else match parsePath (text (tok p)) (tpos (tok p)) with
         | None => failAt (tpos (tok p)) EPath p
         | Some ref =>
             let p := next (mkParser (rest p) (pos p) (tok p) (refs p ++ [ref]) (err p)) in
             if bool_decide (kind (tok p) ≠ tokRParen) then failAt (tpos (tok p)) ECloseCall p
             else (next p, Some (if present_ then presentNode ref else fieldNode ref false))
         end.

Definition parseOperand (p : parser) : presult :=
  match kind (tok p) with
  | tokIdent =>
      if bool_decide (text (tok p) = "field") then parseCall false p
      else if bool_decide (text (tok p) = "present") then parseCall true p
      else if bool_decide (text (tok p) = "mti") then (next p, Some mtiNode)
      else if bool_decide (text (tok p) = "true" ∨ text (tok p) = "false")
           then (next p, Some (litNode (boolValue (bool_decide (text (tok p) = "true")))))
      else failAt (tpos (tok p)) (EUnknownName (text (tok p))) p
  | tokString | tokNumber => (next p, Some (litNode (strValue (unquote (text (tok p))))))
  | _ => failAt (tpos (tok p)) EValue p
  end.

(** The right-hand side of a comparison whose operator is the current token. *)
Definition parseRhs (lhs : node) (p : parser) : presult :=
  let op := text (tok p) in
  match parseOperand (next p) with
  | (p, Some rhs) => (p, Some (cmpNode lhs rhs op))
  | r => r
  end.

(** A left-hand side that is a condition on its own, unless an operator follows. *)
Definition parseBare (r : presult) : presult :=
  match r with
  | (p, Some lhs) => if bool_decide (kind (tok p) = tokOp) then parseRhs lhs p else (p, Some lhs)
  | r => r
  end.

(** The part of [parsePrimary] that does not open a parenthesis. *)
Definition parseAtom (p : parser) : presult :=
  let t := tok p in
  if bool_decide (kind t = tokIdent ∧ text t = "present") then parseBare (parseCall true p)
  else if bool_decide (kind t = tokIdent ∧ (text t = "true" ∨ text t = "false"))
       then parseBare (next p, Some (litNode (boolValue (bool_decide (text t = "true")))))
  else match parseOperand p with
       | (p, Some lhs) =>
           if bool_decide (kind (tok p) = tokOp) then parseRhs lhs p
           else failAt (tpos t) ENotCondition p
       | r => r
       end.

(** The loops of [parseExpr] and [parseAnd]: items separated by [sep]. *)
Fixpoint sepLoop (item : parser → presult) (sep : tokKind) (fuel : nat) (acc : list node) (p : parser)
    : parser * option (list node) :=
  if bool_decide (kind (tok p) = sep) then
    match fuel with
    | O => (errAt (tpos (tok p)) EFuel p, None)
    | S fuel =>
        match item (next p) with
        | (p, Some n) => sepLoop item sep fuel (acc ++ [n]) p
        | (p, None) => (p, None)
        end
    end
  else (p, Some acc).

Definition parseSep (item : parser → presult) (sep : tokKind) (mk : list node → node) (p : parser) : presult :=
  match item p with
  | (p, None) => (p, None)
  | (p, Some first) =>
      match sepLoop item sep (String.length (rest p) + 1) [first] p with
      | (p, None) => (p, None)
      | (p, Some [n]) => (p, Some n)
      | (p, Some l) => (p, Some (mk l))
      end
  end.

Inductive level := LExpr | LAnd | LNot | LPrimary.

(** [parseExpr], [parseAnd], [parseNot] and [parsePrimary] at depth
    [maxWhenDepth + 1 - n]. *)
Fixpoint parseAt (n : nat) (l : level) (p : parser) : presult :=
  match n with
  | O => failAt (tpos (tok p)) EDepth p
  | S n =>
      match l with
      | LExpr => parseSep (parseAt n LAnd) tokOr orNode p
      | LAnd => parseSep (parseAt n LNot) tokAnd andNode p
      | LNot =>
          if bool_decide (kind (tok p) = tokNot) then
            match parseAt n LNot (next p) with
            | (p, Some inner) => (p, Some (notNode inner))
            | r => r
            end
          else parseAt n LPrimary p
      | LPrimary =>
          if bool_decide (kind (tok p) = tokLParen) then
            match parseAt n LExpr (next p) with
            | (p, Some inner) =>
                if bool_decide (kind (tok p) = tokRParen) then (next p, Some inner)
                else failAt (tpos (tok p)) ECloseParen p
            | r => r
            end
          else parseAtom p
      end
  end.

Definition parseExpr := parseAt (S maxWhenDepth) LExpr.

Record WhenExpr := mkWhen { Source : string; Refs : list FieldRef; root : node }.

Definition startParser (src : string) : parser :=
  next (mkParser src 0 (mkTok tokEOF "" 0) [] None).

Definition ParseWhen (src : string) : option werr + WhenExpr :=
  let '(p, r) := parseExpr (startParser src) in
  match r with
  | None => inl (err p)
  | Some n =>
      match err p with
      | Some e => inl (Some e)
      | None => if bool_decide (kind (tok p) = tokEOF) then inr (mkWhen src (refs p) n)
                else inl (err (errAt (tpos (tok p)) EAfterEnd p))
      end
  end.

(** ** Evaluation (eval.go) *)

(** The interface [Subject]. *)
Record Subject := mkSubject { MTI : string; Field : Z → list string → option string }.

Section eval.
(** [strconv.ParseFloat] of a string, and the order of float64. *)
Context {F : Type} (ParseFloat : string → option F) (feq flt fle : F → F → bool).

Definition asNumber (v : value) : option F :=
  if isBool v || absent v then None else ParseFloat (toString (TrimSpace (toBytes (s v)))).

(** The [==] of two present values. *)
Definition sameValue (l r : value) : bool :=
  if isBool l || isBool r then isBool l && isBool r && Bool.eqb (b l) (b r)
  else if numeric l || numeric r then
    match asNumber l, asNumber r with Some x, Some y => feq x y | _, _ => false end
  else bool_decide (s l = s r).

Definition evalCmp (op : string) (l r : value) : value :=
  if absent l || absent r then boolValue false
  else if bool_decide (op = "==") then boolValue (sameValue l r)
  else if bool_decide (op = "!=") then boolValue (negb (sameValue l r))
  else match asNumber l, asNumber r with
       | Some x, Some y =>
           boolValue (if bool_decide (op = "<") then flt x y
                      else if bool_decide (op = "<=") then fle x y
                      else if bool_decide (op = ">") then flt y x
                      else if bool_decide (op = ">=") then fle y x else false)
       | _, _ => boolValue false
       end.

Fixpoint eval (m : Subject) (n : node) : value :=
  match n with
  | orNode l => boolValue (existsb (λ c, truth (eval m c)) l)
  | andNode l => boolValue (forallb (λ c, truth (eval m c)) l)
  | notNode inner => boolValue (negb (truth (eval m inner)))
  | cmpNode lhs rhs op => evalCmp op (eval m lhs) (eval m rhs)
  | fieldNode ref num =>
      match Field m (DE ref) (Subs ref) with
      | Some x => mkValue false false false x num
      | None => absentValue
      end
  | presentNode ref => boolValue (bool_decide (is_Some (Field m (DE ref) (Subs ref))))
  | mtiNode => strValue (MTI m)
  | litNode v => v
  end.

Definition Eval (e : WhenExpr) (m : Subject) : bool := truth (eval m (root e)).
End eval.

Definition comparesNumerically (k : string) : bool :=
  bool_decide (k = "amount" ∨ k = "date" ∨ k = "time" ∨ k = "datetime" ∨ k = "numeric").

(** [walk] with the visitor of [BindKinds]. *)
Fixpoint bindNode (kindOf : FieldRef → string) (n : node) : node :=
  match n with
  | orNode l => orNode (bindNode kindOf <$> l)
  | andNode l => andNode (bindNode kindOf <$> l)
  | notNode inner => notNode (bindNode kindOf inner)
  | cmpNode lhs rhs op => cmpNode (bindNode kindOf lhs) (bindNode kindOf rhs) op
  | fieldNode ref _ => fieldNode ref (comparesNumerically (kindOf ref))
  | n => n
  end.

Definition BindKinds (kindOf : FieldRef → string) (e : WhenExpr) : WhenExpr :=
  mkWhen (Source e) (Refs e) (bindNode kindOf (root e)).
