(* ===== verification/WhenSpec.v ===== *)
(** * The [when] language: grammar, types and what a condition reads

    The parser of When.v against the grammar documented at the top of when.go, and
    against that grammar with [present(path)] added to its operands, which the comment in
    parsePrimary describes: an expression is accepted exactly when its token sequence
    derives from the second within the nesting limit, the tree is the derived one, and it
    derives from the first exactly when no comparison of the tree has such an operand.
    From it, every
    accepted expression is a well-typed condition whose [Refs] are the locations it
    reads, in order; its value depends on nothing else.  Every rejection carries an
    error that points into the source. *)
From Stdlib Require Import Ascii.
From S2P Require Import Prelude Bytes Amount FluxMsg When.
Open Scope Z_scope.

(** ** The grammar *)

(** The locations a tree reads, from left to right. *)
Fixpoint refsOf (x : node) : list FieldRef :=
  match x with
  | orNode l | andNode l => concat (refsOf <$> l)
  | notNode i => refsOf i
  | cmpNode l r _ => refsOf l ++ refsOf r
  | fieldNode ref _ | presentNode ref => [ref]
  | mtiNode | litNode _ => []
  end.

(** [operand], and the predicate [present], which the parser takes as an operand too. *)
Inductive operandG : node → list token → Prop :=
| g_call (f lp path rp : token) ref (pr : bool) :
    kind f = tokIdent → text f = (if pr then "present" else "field") →
    kind lp = tokLParen → (kind path = tokIdent ∨ kind path = tokNumber) →
    parsePath (text path) (tpos path) = Some ref → kind rp = tokRParen →
    operandG (if pr then presentNode ref else fieldNode ref false) [f; lp; path; rp]
| g_mti t : kind t = tokIdent → text t = "mti" → operandG mtiNode [t]
| g_bool t (v : bool) : kind t = tokIdent → text t = (if v then "true" else "false") →
    operandG (litNode (boolValue v)) [t]
| g_lit t : (kind t = tokString ∨ kind t = tokNumber) → operandG (litNode (strValue (unquote (text t)))) [t].

(** [operand] as the grammar at the top of when.go has it: [field_ref], [mti], a literal. *)
Definition isPresent (x : node) : bool := match x with presentNode _ => true | _ => false end.
Definition operandD (x : node) (ts : list token) : Prop := operandG x ts ∧ isPresent x = false.

(** [predicate] and [bool_lit]: what is a condition on its own. *)
Definition bareG (x : node) : bool :=
  match x with presentNode _ => true | litNode v => isBool v | _ => false end.

(** [R { sep R }]. *)
Inductive sepBy (R : node → list token → Prop) (sep : tokKind) : list node → list token → Prop :=
| sep_one x ts : R x ts → sepBy R sep [x] ts
| sep_more x ts t l ts' : R x ts → kind t = sep → sepBy R sep l ts' → sepBy R sep (x :: l) (ts ++ t :: ts').

(** One item stands for itself. *)
Definition collapse (mk : list node → node) (l : list node) : node :=
  match l with [x] => x | _ => mk l end.

(** The rules of the grammar over the operands [O], each using one level of the nesting
    limit, as the recursive calls of the parser do. *)
Inductive grammar (O : node → list token → Prop) : nat → level → node → list token → Prop :=
| g_expr n l ts : sepBy (grammar O n LAnd) tokOr l ts → grammar O (S n) LExpr (collapse orNode l) ts
| g_and n l ts : sepBy (grammar O n LNot) tokAnd l ts → grammar O (S n) LAnd (collapse andNode l) ts
| g_not n t x ts : kind t = tokNot → grammar O n LNot x ts → grammar O (S n) LNot (notNode x) (t :: ts)
| g_pos n x ts : grammar O n LPrimary x ts → grammar O (S n) LNot x ts
| g_paren n lp x ts rp : kind lp = tokLParen → grammar O n LExpr x ts → kind rp = tokRParen →
    grammar O (S n) LPrimary x (lp :: ts ++ [rp])
| g_bare n x ts : operandG x ts → bareG x = true → grammar O (S n) LPrimary x ts
| g_cmp n x ts t y ts' : O x ts → kind t = tokOp → O y ts' →
    grammar O (S n) LPrimary (cmpNode x y (text t)) (ts ++ t :: ts').

(** The documented grammar, and the one with [present(path)] among the operands. *)
Abbreviation documented := (grammar operandD).
Abbreviation derives := (grammar operandG).

(** No comparison has a [present(path)] operand. *)
Fixpoint plain (x : node) : bool :=
  match x with
  | orNode l | andNode l => forallb plain l
  | notNode i => plain i
  | cmpNode l r _ => negb (isPresent l) && negb (isPresent r)
  | _ => true
  end.

(** [eats p ts q]: scanning from [p] yields the tokens [ts] and leaves [q]. *)
Inductive eats : parser → list token → parser → Prop :=
| eats_nil p : eats p [] p
| eats_cons p ts q : kind (tok p) ≠ tokEOF → eats (next p) ts q → eats p (tok p :: ts) q.

(** The whole source is the token sequence [ts], without a scanner error. *)
Definition tokensOf (src : string) (ts : list token) : Prop :=
  ∃ q, eats (startParser src) ts q ∧ kind (tok q) = tokEOF ∧ err q = None.

(** ** The scanner *)

Definition addRefs (l : list FieldRef) (p : parser) : parser :=
  mkParser (rest p) (pos p) (tok p) (refs p ++ l) (err p).

Lemma addRefs_nil p : addRefs [] p = p.
Proof. destruct p. unfold addRefs; simpl. by rewrite app_nil_r. Qed.

Lemma addRefs_app l l' p : addRefs l' (addRefs l p) = addRefs (l ++ l') p.
Proof. unfold addRefs; simpl. by rewrite app_assoc. Qed.

Lemma addRefs_next l p : next (addRefs l p) = addRefs l (next p).
Proof.
  unfold next, addRefs; simpl. destruct (span isSpaceC (rest p)) as [bl r].
  unfold nextTok, scanned, errAt. repeat (case_match; simplify_eq/=; try done).
Qed.

Lemma addRefs_eats l p ts q : eats p ts q → eats (addRefs l p) ts (addRefs l q).
Proof.
  induction 1 as [|p ts q Hk _ IH]; [constructor|]. rewrite <-addRefs_next in IH.
  by apply (eats_cons (addRefs l p)).
Qed.

Lemma eats_addRefs l p ts q : eats (addRefs l p) ts q → ∃ q0, eats p ts q0 ∧ q = addRefs l q0.
Proof.
  intros H. remember (addRefs l p) as p' eqn:E. revert p E.
  induction H as [p'|p' ts q Hk H IH]; intros p ->; [by exists p; repeat constructor|].
  destruct (IH (next p)) as (q0 & ? & ->); [apply addRefs_next|].
  exists q0. split; [|done]. by apply (eats_cons p).
Qed.

Lemma eats_app p ts q ts' r : eats p ts q → eats q ts' r → eats p (ts ++ ts') r.
Proof. induction 1; simpl; [done|]. intros. constructor; auto. Qed.

Lemma eats_app_inv p ts ts' r : eats p (ts ++ ts') r → ∃ q, eats p ts q ∧ eats q ts' r.
Proof.
  revert p. induction ts as [|t ts IH]; simpl; intros p H; [by exists p; split; [constructor|]|].
  inversion H; subst. destruct (IH (next p)) as (q & ? & ?); [done|].
  exists q; split; [by constructor|done].
Qed.

Lemma eats_one p : kind (tok p) ≠ tokEOF → eats p [tok p] (next p).
Proof. intros. constructor; [done|constructor]. Qed.

Lemma eats_inv p t ts q : eats p (t :: ts) q → t = tok p ∧ kind t ≠ tokEOF ∧ eats (next p) ts q.
Proof. inversion 1; subst; auto. Qed.

Lemma span_length f t : (String.length (span f t).1 + String.length (span f t).2 = String.length t)%nat.
Proof. induction t as [|c t IH]; simpl; [done|]. case_match; [|done]. destruct (span f t); simpl in *. lia. Qed.

(** The position and the unread source always make up the whole source, and an error
    points into it. *)
Definition parser_ok (N : nat) (p : parser) : Prop :=
  (pos p + String.length (rest p) = N)%nat ∧ (tpos (tok p) ≤ N)%nat ∧
  match err p with None => True | Some e => (epos e ≤ N)%nat ∧ what e ≠ EFuel end.

Lemma errAt_ok N at_ w p : parser_ok N p → (at_ ≤ N)%nat → w ≠ EFuel → parser_ok N (errAt at_ w p).
Proof. intros (? & ? & ?) ??. unfold errAt. split_and!; [done..|]. simpl. by destruct (err p). Qed.

Lemma scanned_ok N k t start r len p :
  (start + len + String.length r = N)%nat → parser_ok N p → parser_ok N (scanned k t start r len p).
Proof. intros ? (? & ? & ?). split_and!; simpl; [done|lia|done]. Qed.

Lemma nextTok_ok N start r p :
  (start + String.length r = N)%nat → parser_ok N p → parser_ok N (nextTok start r p).
Proof.
  intros Hs Hp. unfold nextTok. destruct r as [|c r].
  { destruct Hp as (? & ? & ?). simpl in *. split_and!; simpl; [lia..|done]. }
  cbn [String.length] in Hs.
  pose proof (span_length (λ x, negb (Ascii.eqb x "'")) r) as Hq.
  pose proof (span_length isPathRune (String c r)) as Hr. cbn [String.length] in Hr.
  repeat case_match; subst; cbn [fst snd String.length] in *;
    repeat first [apply scanned_ok | apply errAt_ok]; simpl; try done; lia.
Qed.

Lemma next_ok N p : parser_ok N p → parser_ok N (next p).
Proof.
  intros Hp. unfold next. pose proof (span_length isSpaceC (rest p)) as Hl.
  destruct (span isSpaceC (rest p)) as [bl r]. simpl in Hl. apply nextTok_ok; [|done].
  destruct Hp as (? & _). lia.
Qed.

(** Scanning never grows the unread source, and a token shortens it. *)
Lemma next_shorter p :
  (String.length (rest (next p)) ≤ String.length (rest p))%nat ∧
  (kind (tok (next p)) ≠ tokEOF → (String.length (rest (next p)) < String.length (rest p))%nat).
Proof.
  unfold next. pose proof (span_length isSpaceC (rest p)) as Hl.
  destruct (span isSpaceC (rest p)) as [bl r]. simpl in Hl. unfold nextTok.
  destruct r as [|c r]; [simpl; split; [lia|done]|]. cbn [String.length] in Hl.
  pose proof (span_length (λ x, negb (Ascii.eqb x "'")) r) as Hq.
  pose proof (span_length isPathRune (String c r)) as Hr. cbn [String.length] in Hr.
  destruct (isPathRune c) eqn:Ec.
  all: cbn [span] in *; rewrite ?Ec in *.
  all: repeat (case_match; subst; cbn [fst snd String.length] in *; simplify_eq/=); try (split; [lia|]; intros; first [done|lia]).
Qed.

Lemma eats_shorter p ts q : eats p ts q → (String.length (rest q) ≤ String.length (rest p))%nat.
Proof. induction 1 as [|p ts q _ _ IH]; [done|]. pose proof (next_shorter p) as [? _]. lia. Qed.

(** As many tokens as characters, at most: a bound for the parser's loops. *)
Lemma eats_length p ts q :
  eats p ts q → ts ≠ [] → (length ts + String.length (rest q) ≤ S (String.length (rest p)))%nat.
Proof.
  induction 1 as [|p ts q _ He IH]; [done|]. intros _. pose proof (next_shorter p) as [Hle Hlt].
  destruct ts as [|t ts]; [apply eats_inv || inversion He; subst; simpl; lia|].
  destruct (eats_inv _ _ _ _ He) as (-> & Hk & _). specialize (IH ltac:(done)). simpl in *.
  specialize (Hlt Hk). lia.
Qed.

Lemma next_refs p : refs (next p) = refs p.
Proof.
  unfold next. destruct (span isSpaceC (rest p)) as [bl r]. unfold nextTok, scanned, errAt.
  repeat (case_match; simplify_eq/=; try done).
Qed.

Lemma eats_refs p ts q : eats p ts q → refs q = refs p.
Proof. induction 1 as [|p ts q _ _ IH]; [done|]. by rewrite IH, next_refs. Qed.

Lemma startParser_refs src : refs (startParser src) = [].
Proof. unfold startParser. by rewrite next_refs. Qed.

Lemma eats_ok N p ts q : eats p ts q → parser_ok N p → parser_ok N q.
Proof. induction 1; auto using next_ok. Qed.

Lemma addRefs_ok N l p : parser_ok N p → parser_ok N (addRefs l p).
Proof. done. Qed.

Lemma startParser_ok src : parser_ok (String.length src) (startParser src).
Proof. apply next_ok. split_and!; simpl; [lia..|done]. Qed.

(** ** The parser follows the grammar *)

(** What a call of a parsing function leaves: a consistent parser, and either a tree
    derived by [R] from the tokens it consumed, its reads recorded, or an error. *)
Definition parses (R : node → list token → Prop) (N : nat) (p : parser) (r : presult) : Prop :=
  parser_ok N p → parser_ok N r.1 ∧
  match r.2 with
  | Some x => ∃ ts q, R x ts ∧ ts ≠ [] ∧ eats p ts q ∧ r.1 = addRefs (refsOf x) q
  | None => err r.1 ≠ None
  end.

Lemma tok_not_eof p k : kind (tok p) = k → k ≠ tokEOF → kind (tok p) ≠ tokEOF.
Proof. by intros ->. Qed.

Lemma failAt_parses R N (w : errWhat) p0 p :
  (parser_ok N p0 → parser_ok N p) → w ≠ EFuel → parses R N p0 (failAt (tpos (tok p)) w p).
Proof.
  intros Hp Hw H0. specialize (Hp H0). split; [apply errAt_ok; [done|apply Hp|done]|].
  simpl. by destruct (err p).
Qed.

Lemma parses_mono (R R' : node → list token → Prop) N p r :
  (∀ x ts, R x ts → R' x ts) → parses R N p r → parses R' N p r.
Proof.
  intros HR H Hp. destruct (H Hp) as [? Hr]. split; [done|]. case_match; [|done].
  destruct Hr as (ts & q & ? & ?). exists ts, q. naive_solver.
Qed.

Lemma one_token (R : node → list token → Prop) N p x :
  kind (tok p) ≠ tokEOF → refsOf x = [] → R x [tok p] → parses R N p (next p, Some x).
Proof.
  intros Hk Hx HR Hp. split; [by apply next_ok|]. exists [tok p], (next p).
  rewrite Hx, addRefs_nil. eauto using eats_one.
Qed.

Lemma parseCall_parses N (pr : bool) p :
  kind (tok p) = tokIdent → text (tok p) = (if pr then "present" else "field") →
  parses operandG N p (parseCall pr p).
Proof.
  intros Hk Ht. unfold parseCall.
  case_bool_decide as H1; [apply failAt_parses; [apply next_ok|done]|].
  case_bool_decide as H2; [apply failAt_parses; [auto using next_ok|done]|].
  destruct (parsePath _ _) as [ref|] eqn:Hpath; [|apply failAt_parses; [auto using next_ok|done]].
  set (p2 := next (next p)) in *.
  change (mkParser (rest p2) (pos p2) (tok p2) (refs p2 ++ [ref]) (err p2)) with (addRefs [ref] p2).
  rewrite addRefs_next. set (p3 := next p2).
  case_bool_decide as H3; [apply failAt_parses; [|done]|].
  { intros. apply addRefs_ok. unfold p3, p2. auto using next_ok. }
  change (kind (tok p3) = tokRParen) in H3.
  intros Hp. rewrite addRefs_next. split; [apply addRefs_ok; unfold p3, p2; auto using next_ok|].
  exists [tok p; tok (next p); tok p2; tok p3], (next p3).
  assert (kind (tok p2) = tokIdent ∨ kind (tok p2) = tokNumber) as H2'
    by (destruct (kind (tok p2)) eqn:E; try (left; done); try (right; done); exfalso; by apply H2).
  split_and!; [by apply g_call|done| |by destruct pr].
  repeat (constructor; [first [by eapply tok_not_eof | by destruct H2' as [-> | ->]]|]). constructor.
Qed.

Lemma parseOperand_parses N p : parses operandG N p (parseOperand p).
Proof.
  unfold parseOperand. destruct (kind (tok p)) eqn:Hk; try (by apply failAt_parses).
  - case_bool_decide; [by apply (parseCall_parses N false)|].
    case_bool_decide; [by apply (parseCall_parses N true)|].
    case_bool_decide; [apply one_token; [by rewrite Hk|done|by constructor]|].
    case_bool_decide as Hb; [|by apply failAt_parses].
    apply one_token; [by rewrite Hk|done|]. apply g_bool; [done|].
    by destruct Hb as [-> | ->].
  - apply one_token; [by rewrite Hk|done|]. apply g_lit; auto.
  - apply one_token; [by rewrite Hk|done|]. apply g_lit; auto.
Qed.

(** A comparison after its left-hand side. *)
Lemma parseRhs_parses n N p lhs ts q :
  operandG lhs ts → ts ≠ [] → eats p ts q → kind (tok q) = tokOp →
  parser_ok N q → parses (derives (S n) LPrimary) N p (parseRhs lhs (addRefs (refsOf lhs) q)).
Proof.
  intros Hl Hts He Hk Hq. unfold parseRhs. rewrite addRefs_next. change (tok (addRefs _ q)) with (tok q).
  pose proof (parseOperand_parses N (addRefs (refsOf lhs) (next q)) ltac:(apply addRefs_ok; by apply next_ok))
    as [Hok Hr].
  destruct (parseOperand _) as [p' [rhs|]]; [|by intros _].
  intros Hp. split; [done|]. simpl in *. destruct Hr as (ts' & q' & Hrhs & Hts' & He' & ->).
  apply eats_addRefs in He' as (q0 & He' & ->).
  exists (ts ++ tok q :: ts'), q0. split_and!; [by constructor|by destruct ts| |by rewrite addRefs_app].
  eapply eats_app; [done|]. constructor; [by rewrite Hk|done].
Qed.

Lemma parseBare_parses n N p r :
  parses (λ x ts, operandG x ts ∧ bareG x = true) N p r → parses (derives (S n) LPrimary) N p (parseBare r).
Proof.
  intros H Hp. destruct (H Hp) as [Hok Hr]. destruct r as [p' [lhs|]]; [|done].
  simpl in *. destruct Hr as (ts & q & [Hl Hb] & Hts & He & ->). case_bool_decide as Hk.
  - by eapply parseRhs_parses.
  - split; [done|]. exists ts, q. split_and!; try done. by constructor.
Qed.

Lemma parseAtom_parses n N p : parses (derives (S n) LPrimary) N p (parseAtom p).
Proof.
  unfold parseAtom. case_bool_decide as H1; [apply parseBare_parses|].
  { destruct H1 as [Hk Ht]. pose proof (parseCall_parses N true p Hk Ht) as Hc. revert Hc.
    unfold parseCall. repeat case_bool_decide; simpl; try done; destruct (parsePath _ _); try done.
    repeat case_bool_decide; try done. intros Hc Hp. destruct (Hc Hp) as [? (ts & q & ? & ?)].
    split; [done|]. exists ts, q. naive_solver. }
  case_bool_decide as H2; [apply parseBare_parses|].
  { destruct H2 as [Hk Ht]. apply one_token; [by rewrite Hk|done|]. split; [|done].
    apply g_bool; [done|]. by destruct Ht as [-> | ->]. }
  intros Hp. pose proof (parseOperand_parses N p Hp) as [Hok Hr].
  destruct (parseOperand p) as [p' [lhs|]]; [|done]. simpl in *.
  destruct Hr as (ts & q & Hl & Hts & He & ->). case_bool_decide as Hk.
  - by eapply parseRhs_parses.
  - split; [apply errAt_ok; [done|apply Hp|done]|]. simpl. by destruct (err q).
Qed.

(** What follows the first item: nothing, or a separator and more items. *)
Definition sepTail (R : node → list token → Prop) (sep : tokKind) (l : list node) (ts : list token) : Prop :=
  (l = [] ∧ ts = []) ∨ ∃ t ts', ts = t :: ts' ∧ kind t = sep ∧ sepBy R sep l ts'.

Lemma sepBy_cons (R : node → list token → Prop) sep x ts l ts' :
  R x ts → sepTail R sep l ts' → sepBy R sep (x :: l) (ts ++ ts').
Proof.
  intros Hx [[-> ->]|(t & ts0 & -> & Ht & Hl)]; [rewrite app_nil_r; by constructor|by constructor].
Qed.

Definition reads (l : list node) : list FieldRef := concat (refsOf <$> l).

Lemma sepLoop_parses R N item sep fuel acc p :
  sep ≠ tokEOF → (∀ p, parses R N p (item p)) → parser_ok N p →
  (kind (tok p) = sep → (S (String.length (rest p)) ≤ fuel)%nat) →
  let r := sepLoop item sep fuel acc p in
  parser_ok N r.1 ∧
  match r.2 with
  | Some l => ∃ l' ts q, l = acc ++ l' ∧ sepTail R sep l' ts ∧ eats p ts q ∧ r.1 = addRefs (reads l') q
  | None => err r.1 ≠ None
  end.
Proof.
  intros Hsep Hitem. revert acc p. induction fuel as [|fuel IH]; intros acc p Hp Hf; simpl.
  all: case_bool_decide as Hk;
    [|split; [done|]; exists [], [], p; rewrite app_nil_r, addRefs_nil; split_and!; [done|by left|constructor|done]].
  { specialize (Hf Hk). lia. }
  specialize (Hf Hk). pose proof (next_shorter p) as [Hle _].
  destruct (Hitem (next p) (next_ok _ _ Hp)) as [Hok Hr].
  destruct (item (next p)) as [p' [x|]]; [|done]. simpl in *.
  destruct Hr as (ts & q & Hx & Hts & He & ->).
  destruct (IH (acc ++ [x]) (addRefs (refsOf x) q) Hok) as [Hok' Hr].
  { intros Hk'. change (kind (tok q) = sep) in Hk'. simpl.
    assert (String.length (rest q) < String.length (rest (next p)))%nat; [|lia].
    assert (eats (next p) (ts ++ [tok q]) (next q)) as He2
      by (eapply eats_app; [done|]; apply eats_one; by rewrite Hk').
    destruct ts as [|t0 ts0]; [done|]. destruct (eats_inv _ _ _ _ He) as (-> & _ & He1).
    destruct (decide (ts0 = [])) as [->|Hne].
    - inversion He1; subst. apply next_shorter. by rewrite Hk'.
    - pose proof (eats_length _ _ _ He1 Hne). pose proof (next_shorter (next p)) as [_ Hlt].
      destruct ts0; [done|]. destruct (eats_inv _ _ _ _ He1) as (-> & Hk1 & _). specialize (Hlt Hk1).
      pose proof (eats_shorter _ _ _ He1). lia. }
  split; [done|]. destruct (sepLoop _ _ _ _ _) as [p'' [l|]]; [|done]. simpl in *.
  destruct Hr as (l' & ts' & q' & -> & Htail & He' & ->). apply eats_addRefs in He' as (q0 & He' & ->).
  exists (x :: l'), (tok p :: ts ++ ts'), q0. rewrite <-app_assoc. split_and!; [done| | |by rewrite addRefs_app].
  - right. exists (tok p), (ts ++ ts'). split_and!; [done..|]. by apply sepBy_cons.
  - constructor; [by rewrite Hk|]. by eapply eats_app.
Qed.

Lemma parseSep_parses (R R' : node → list token → Prop) N item sep mk p :
  sep ≠ tokEOF → (∀ p, parses R N p (item p)) → (∀ l, refsOf (mk l) = reads l) →
  (∀ l ts, sepBy R sep l ts → R' (collapse mk l) ts) →
  parses R' N p (parseSep item sep mk p).
Proof.
  intros Hsep Hitem Hmk HR Hp. unfold parseSep. destruct (Hitem p Hp) as [Hok Hr].
  destruct (item p) as [p' [x|]]; [|done]. simpl in *. destruct Hr as (ts & q & Hx & Hts & He & ->).
  pose proof (sepLoop_parses R N item sep (String.length (rest (addRefs (refsOf x) q)) + 1) [x]
    (addRefs (refsOf x) q) Hsep Hitem Hok ltac:(intros; lia)) as [Hok' Hr].
  destruct (sepLoop _ _ _ _ _) as [p'' [l|]]; [|done]. simpl in *.
  destruct Hr as (l' & ts' & q' & -> & Htail & He' & ->). apply eats_addRefs in He' as (q0 & He' & ->).
  set (y := collapse mk (x :: l')).
  assert (parser_ok N (addRefs (refsOf y) q0) ∧
    ∃ ts q, R' y ts ∧ ts ≠ [] ∧ eats p ts q ∧ addRefs (refsOf y) q0 = addRefs (refsOf y) q) as Hy.
  { split; [apply addRefs_ok; exact (eats_ok _ _ _ _ (eats_app _ _ _ _ _ He He') Hp)|].
    exists (ts ++ ts'), q0. split_and!; [by apply HR, sepBy_cons|by destruct ts|by eapply eats_app|done]. }
  unfold y in Hy. rewrite addRefs_app in *.
  destruct l' as [|z l']; simpl in *; [rewrite app_nil_r; exact Hy|]. rewrite Hmk in *. exact Hy.
Qed.

Lemma parseAt_parses n N l p : parses (derives n l) N p (parseAt n l p).
Proof.
  revert l p. induction n as [|n IH]; intros l p; [by apply failAt_parses|]. destruct l.
  - eapply parseSep_parses; [done|apply (IH LAnd)|done|]. by constructor.
  - eapply parseSep_parses; [done|apply (IH LNot)|done|]. by constructor.
  - cbn [parseAt]. case_bool_decide as Hk.
    + intros Hp. destruct (IH LNot (next p) (next_ok _ _ Hp)) as [Hok Hr].
      destruct (parseAt _ _ _) as [p' [x|]]; [|done]. simpl in *.
      destruct Hr as (ts & q & Hx & _ & He & ->). split; [done|].
      exists (tok p :: ts), q. split_and!; [by constructor|done| |done]. constructor; [by rewrite Hk|done].
    + eapply parses_mono; [|apply IH]. by constructor.
  - cbn [parseAt]. case_bool_decide as Hk; [|apply parseAtom_parses].
    intros Hp. destruct (IH LExpr (next p) (next_ok _ _ Hp)) as [Hok Hr].
    destruct (parseAt _ _ _) as [p' [x|]]; [|done]. simpl in *.
    destruct Hr as (ts & q & Hx & _ & He & ->). case_bool_decide as Hk'.
    + split; [by apply next_ok|]. exists (tok p :: ts ++ [tok q]), (next q).
      split_and!; [by constructor|done| |apply addRefs_next].
      constructor; [by rewrite Hk|]. eapply eats_app; [done|]. apply eats_one.
      change (kind (tok q) = tokRParen) in Hk'. by rewrite Hk'.
    + by apply (failAt_parses _ _ _ _ (addRefs (refsOf x) q) (λ _, Hok)).
Qed.

(** ** The grammar is what the parser accepts *)

Lemma operandG_nonempty x ts : operandG x ts → ts ≠ [].
Proof. by destruct 1. Qed.

Lemma sepBy_nonempty (R : node → list token → Prop) sep l ts :
  (∀ x ts, R x ts → ts ≠ []) → sepBy R sep l ts → ts ≠ [].
Proof. intros HR. destruct 1 as [x ts Hx|x ts t l ts' Hx _ _]; [by eapply HR|]. by destruct ts. Qed.

Lemma derives_nonempty n l x ts : derives n l x ts → ts ≠ [].
Proof.
  revert l x ts. induction n as [|n IH]; intros l x ts; inversion 1; subst; try done.
  1-2: by (eapply sepBy_nonempty; [|done]; intros; eapply IH).
  - by eapply IH.
  - by eapply operandG_nonempty.
  - by destruct ts0.
Qed.

(** The token after a condition that would extend it. *)
Definition follows (l : level) (k : tokKind) : bool :=
  match l, k with
  | _, tokOp => true
  | (LExpr | LAnd), tokAnd => true
  | LExpr, tokOr => true
  | _, _ => false
  end.

Lemma parseCall_accepts pr p f lp path rp ref q :
  eats p [f; lp; path; rp] q → kind lp = tokLParen → (kind path = tokIdent ∨ kind path = tokNumber) →
  parsePath (text path) (tpos path) = Some ref → kind rp = tokRParen →
  parseCall pr p = (addRefs [ref] q, Some (if pr then presentNode ref else fieldNode ref false)).
Proof.
  intros He Hlp Hpath Href Hrp.
  apply eats_inv in He as (-> & _ & He). apply eats_inv in He as (-> & _ & He).
  apply eats_inv in He as (-> & _ & He). apply eats_inv in He as (-> & _ & He).
  inversion He; subst. unfold parseCall.
  rewrite bool_decide_eq_false_2 by (by intros []).
  rewrite bool_decide_eq_false_2 by (intros [??]; by destruct Hpath). rewrite Href.
  set (p2 := next (next p)) in *.
  change (mkParser (rest p2) (pos p2) (tok p2) (refs p2 ++ [ref]) (err p2)) with (addRefs [ref] p2).
  rewrite addRefs_next, bool_decide_eq_false_2 by (by intros []). by rewrite addRefs_next.
Qed.

Lemma parseOperand_accepts x ts p q :
  operandG x ts → eats p ts q → parseOperand p = (addRefs (refsOf x) q, Some x).
Proof.
  destruct 1 as [f lp path rp ref pr Hf Hn Hlp Hpath Href Hrp|t Hk Ht|t v Hk Ht|t Hk]; intros He.
  { pose proof (eats_inv _ _ _ _ He) as (-> & _ & _). unfold parseOperand. rewrite Hf, Hn.
    by destruct pr; simpl; erewrite parseCall_accepts by done. }
  all: apply eats_inv in He as (-> & _ & He); inversion He; subst; unfold parseOperand;
    simpl; rewrite addRefs_nil.
  - by rewrite Hk, Ht.
  - rewrite Hk, Ht. by destruct v.
  - by destruct Hk as [-> | ->].
Qed.

Lemma parseRhs_accepts lhs y ts p q :
  kind (tok p) = tokOp → operandG y ts → eats (next p) ts q →
  parseRhs lhs p = (addRefs (refsOf y) q, Some (cmpNode lhs y (text (tok p)))).
Proof. intros Hk Hy He. unfold parseRhs. by rewrite (parseOperand_accepts _ _ _ _ Hy He). Qed.

(** The atoms: what [parsePrimary] does once the left operand is read. *)
Lemma parseAtom_bare x ts p q :
  operandG x ts → eats p ts q →
  parseAtom p =
    if bool_decide (kind (tok q) = tokOp) then parseRhs x (addRefs (refsOf x) q)
    else if bareG x then (addRefs (refsOf x) q, Some x)
    else failAt (tpos (tok p)) ENotCondition (addRefs (refsOf x) q).
Proof.
  intros Hx He. pose proof (parseOperand_accepts x ts p q Hx He) as Hop. unfold parseAtom.
  destruct Hx as [f lp path rp ref pr Hf Hn Hlp Hpath Href Hrp|t Hk Ht|t v Hk Ht|t Hk];
    pose proof (eats_inv _ _ _ _ He) as (-> & _ & He').
  - rewrite Hf, Hn. destruct pr; simpl; [|by rewrite Hop].
    by erewrite parseCall_accepts by done.
  - rewrite Hk, Ht. simpl. by rewrite Hop.
  - inversion He'; subst. rewrite Hk, Ht. simpl. rewrite addRefs_nil.
    by destruct v; simpl; case_bool_decide.
  - rewrite (bool_decide_eq_false_2 (_ ∧ text _ = _)) by (intros [E _]; rewrite E in Hk; by destruct Hk).
    rewrite bool_decide_eq_false_2 by (intros [E _]; rewrite E in Hk; by destruct Hk).
    by rewrite Hop.
Qed.

(** [item] returns the tree [R] derives, when what follows does not extend it. *)
Definition accepts (R : node → list token → Prop) (fol : tokKind → bool) (item : parser → presult) : Prop :=
  ∀ x ts p q, R x ts → eats p ts q → fol (kind (tok q)) = false → item p = (addRefs (refsOf x) q, Some x).

Lemma sepTail_length R sep l ts : sepTail R sep l ts → (length l ≤ length ts)%nat.
Proof.
  intros [[-> ->]|(t & ts' & -> & _ & H)]; [done|]. simpl.
  induction H; simpl; [lia|]. rewrite length_app. simpl. lia.
Qed.

(** The items after the first, read one separator at a time. *)
Lemma sepTail_inv (R : node → list token → Prop) sep x l ts :
  sepTail R sep (x :: l) ts →
  ∃ t ts1 ts2, ts = t :: ts1 ++ ts2 ∧ kind t = sep ∧ R x ts1 ∧ sepTail R sep l ts2.
Proof.
  intros [[? _]|(t & ts' & -> & Ht & H)]; [done|]. inversion H; subst.
  - exists t, ts', []. rewrite app_nil_r. split_and!; [done..|by left].
  - eexists t, _, (_ :: _). split_and!; [done..|]. right. eauto.
Qed.

Lemma sepTail_head R sep l ts p q :
  sepTail R sep l ts → eats p ts q → l = [] ∨ kind (tok p) = sep.
Proof.
  intros [[-> ->]|(t & ts' & -> & Ht & _)] He; [by left|right].
  by apply eats_inv in He as (-> & _).
Qed.

Lemma sepLoop_accepts R fol item sep fuel acc l ts p q :
  accepts R fol item → fol sep = false → kind (tok q) ≠ sep → fol (kind (tok q)) = false →
  sepTail R sep l ts → eats p ts q → (length l ≤ fuel)%nat →
  sepLoop item sep fuel acc p = (addRefs (reads l) q, Some (acc ++ l)).
Proof.
  intros Hitem Hsep Hq Hfq. revert fuel acc ts p q Hq Hfq.
  induction l as [|x l IH]; intros fuel acc ts p q Hq Hfq Hl He Hf.
  - destruct Hl as [[_ ->]|(t & ts' & -> & _ & H)]; [|by inversion H]. inversion He; subst.
    rewrite addRefs_nil, app_nil_r. destruct fuel; simpl; by rewrite bool_decide_eq_false_2.
  - apply sepTail_inv in Hl as (t & ts1 & ts2 & -> & Ht & Hx & Hl).
    apply eats_inv in He as (-> & _ & He). apply eats_app_inv in He as (p1 & He1 & He2).
    destruct fuel as [|fuel]; simpl in *; [lia|]. rewrite bool_decide_eq_true_2 by done.
    rewrite (Hitem x ts1 (next p) p1 Hx He1).
    + rewrite (IH fuel (acc ++ [x]) ts2 _ (addRefs (refsOf x) q)); try done; [|by apply addRefs_eats|lia].
      by rewrite addRefs_app, <-app_assoc.
    + destruct (sepTail_head _ _ _ _ _ _ Hl He2) as [-> | ->]; [|done].
      destruct Hl as [[_ ->]|(? & ? & -> & _ & H)]; [|by inversion H]. by inversion He2; subst.
Qed.

Lemma sepBy_head (R : node → list token → Prop) sep l ts :
  sepBy R sep l ts → ∃ x l' ts1 ts2, l = x :: l' ∧ ts = ts1 ++ ts2 ∧ R x ts1 ∧ sepTail R sep l' ts2.
Proof.
  destruct 1 as [x ts Hx|x ts t l ts' Hx Ht Hl].
  - exists x, [], ts, []. rewrite app_nil_r. split_and!; [done..|by left].
  - exists x, l, ts, (t :: ts'). split_and!; [done..|]. right. eauto.
Qed.

Lemma parseSep_accepts R (fol : tokKind → bool) item sep mk l ts p q :
  accepts R fol item → fol sep = false → kind (tok q) ≠ sep → fol (kind (tok q)) = false →
  (∀ x ts, R x ts → ts ≠ []) → (∀ l, refsOf (mk l) = reads l) → sepBy R sep l ts → eats p ts q →
  parseSep item sep mk p = (addRefs (refsOf (collapse mk l)) q, Some (collapse mk l)).
Proof.
  intros Hitem Hsep Hq Hfq Hne Hmk Hl He. apply sepBy_head in Hl as (x & l' & ts1 & ts2 & -> & -> & Hx & Hl).
  apply eats_app_inv in He as (p1 & He1 & He2). unfold parseSep.
  assert (fol (kind (tok p1)) = false) as Hp1.
  { destruct (sepTail_head _ _ _ _ _ _ Hl He2) as [-> | ->]; [|done].
    destruct Hl as [[_ ->]|(? & ? & -> & _ & H)]; [|by inversion H]. by inversion He2; subst. }
  rewrite (Hitem x ts1 p p1 Hx He1 Hp1).
  rewrite (sepLoop_accepts R fol item sep _ [x] l' ts2 _ (addRefs (refsOf x) q)); try done;
    [|by apply addRefs_eats|].
  - simpl. destruct l' as [|y l']; simpl; rewrite addRefs_app; [by rewrite app_nil_r|]. by rewrite Hmk.
  - simpl. etrans; [by eapply sepTail_length|]. destruct ts2 as [|t ts2]; [simpl; lia|].
    pose proof (eats_length _ _ _ He2 ltac:(done)). simpl in *. lia.
Qed.

Lemma operandG_head x ts ts' p q :
  operandG x ts → eats p (ts ++ ts') q → kind (tok p) ≠ tokNot ∧ kind (tok p) ≠ tokLParen.
Proof.
  destruct 1 as [f lp path rp ref pr Hk|t Hk|t v Hk|t [Hk|Hk]]; intros He;
    apply eats_inv in He as (-> & _); by rewrite Hk.
Qed.

Lemma primary_head n x ts p q : derives n LPrimary x ts → eats p ts q → kind (tok p) ≠ tokNot.
Proof.
  inversion 1 as [| | | |? lp ? ? ? Hk|? ? ? Hx|? ? ? ? ? ? Hx]; subst; intros He.
  - apply eats_inv in He as (-> & _). by rewrite Hk.
  - rewrite <-(app_nil_r ts) in He. by eapply operandG_head in He as [? _].
  - by eapply operandG_head in He as [? _].
Qed.

Lemma parseAt_accepts n l : accepts (derives n l) (follows l) (parseAt n l).
Proof.
  revert l. induction n as [|n IH]; intros l x ts p q Hd He Hf; [by inversion Hd|].
  inversion Hd; subst; cbn [parseAt].
  - eapply (parseSep_accepts _ (follows LAnd) _ _ _ _ ts); [by apply IH|done|intros E; by rewrite E in Hf| | |done..].
    + revert Hf. by destruct (kind (tok q)).
    + intros. by eapply derives_nonempty.
  - eapply (parseSep_accepts _ (follows LNot) _ _ _ _ ts); [by apply IH|done|intros E; by rewrite E in Hf| | |done..].
    + revert Hf. by destruct (kind (tok q)).
    + intros. by eapply derives_nonempty.
  - apply eats_inv in He as (-> & _ & He). rewrite bool_decide_eq_true_2 by done.
    by erewrite IH by done.
  - rewrite bool_decide_eq_false_2; [by erewrite IH by done|]. by eapply primary_head.
  - apply eats_inv in He as (-> & _ & He). rewrite bool_decide_eq_true_2 by done.
    apply eats_app_inv in He as (p1 & He1 & He2). apply eats_inv in He2 as (-> & _ & He2). inversion He2; subst.
    rewrite (IH LExpr _ _ _ p1) by (try done; by match goal with H : kind (tok p1) = _ |- _ => rewrite H end).
    rewrite bool_decide_eq_true_2 by done. by rewrite addRefs_next.
  - assert (kind (tok p) ≠ tokLParen) as Hh.
    { pose proof He as Hh. rewrite <-(app_nil_r ts) in Hh. by eapply operandG_head in Hh as [_ ?]. }
    rewrite bool_decide_eq_false_2 by done. erewrite parseAtom_bare by done.
    rewrite bool_decide_eq_false_2 by (intros E; by rewrite E in Hf).
    by match goal with H : bareG _ = _ |- _ => rewrite H end.
  - assert (kind (tok p) ≠ tokLParen) as Hh by (by eapply operandG_head in He as [_ ?]).
    rewrite bool_decide_eq_false_2 by done. apply eats_app_inv in He as (p1 & He1 & He2).
    apply eats_inv in He2 as (-> & _ & He2). rewrite (parseAtom_bare x0 ts0 p p1 ltac:(eassumption) He1).
    rewrite bool_decide_eq_true_2 by done.
    apply (addRefs_eats (refsOf x0)) in He2. rewrite <-addRefs_next in He2.
    rewrite (parseRhs_accepts x0 y ts' (addRefs (refsOf x0) p1) _ ltac:(done) ltac:(eassumption) He2).
    by rewrite addRefs_app.
Qed.

(** ** What the language guarantees *)

Lemma parseWhen_exact src e :
  ParseWhen src = inr e ↔
  ∃ ts, tokensOf src ts ∧ derives (S maxWhenDepth) LExpr (root e) ts ∧
        Refs e = refsOf (root e) ∧ Source e = src.
Proof.
  unfold ParseWhen, parseExpr. pose proof (startParser_ok src) as Hok. split.
  - pose proof (parseAt_parses (S maxWhenDepth) (String.length src) LExpr (startParser src) Hok) as [_ Hr].
    destruct (parseAt _ _ _) as [p' [x|]]; [|done]. cbn [fst snd] in *.
    destruct Hr as (ts & q & Hd & _ & He & ->). intros H. destruct (err _) eqn:Herr; [done|].
    case_bool_decide as Hk; [|done]. simplify_eq/=. exists ts. split_and!; [|done| |done].
    + exists q. done.
    + rewrite (eats_refs _ _ _ He). by rewrite startParser_refs.
  - intros (ts & (q & He & Hk & Herr) & Hd & Hrefs & Hsrc).
    rewrite (parseAt_accepts _ _ _ _ _ _ Hd He) by (by rewrite Hk). cbn [fst snd].
    change (err (addRefs _ q)) with (err q). rewrite Herr, bool_decide_eq_true_2 by done.
    destruct e as [src' rf x]. simpl in *. subst. rewrite (eats_refs _ _ _ He). by rewrite startParser_refs.
Qed.

(** *** The documented grammar *)

Lemma sepBy_mono (R R' : node → list token → Prop) sep l ts :
  (∀ x ts, R x ts → R' x ts) → sepBy R sep l ts → sepBy R' sep l ts.
Proof. intros HR. induction 1; constructor; auto. Qed.

Lemma sepBy_plain (R : node → list token → Prop) sep l ts :
  (∀ x ts, R x ts → plain x = true) → sepBy R sep l ts → forallb plain l = true.
Proof. intros HR. induction 1; simpl; [rewrite andb_true_r; eauto|]. apply andb_true_iff; eauto. Qed.

Lemma plain_collapse mk l : (∀ l, plain (mk l) = forallb plain l) → plain (collapse mk l) = forallb plain l.
Proof. intros H. destruct l as [|x [|y l]]; simpl; try apply H. by rewrite andb_true_r. Qed.

Lemma operandG_plain x ts : operandG x ts → plain x = true.
Proof. destruct 1; try done. by destruct pr. Qed.

Lemma documented_derives n l x ts : documented n l x ts → derives n l x ts ∧ plain x = true.
Proof.
  revert l x ts. induction n as [|n IH]; intros l x ts; inversion 1; subst.
  - split; [constructor; eapply sepBy_mono; [|done]; apply IH|].
    rewrite plain_collapse by done. eapply sepBy_plain; [|done]; apply IH.
  - split; [constructor; eapply sepBy_mono; [|done]; apply IH|].
    rewrite plain_collapse by done. eapply sepBy_plain; [|done]; apply IH.
  - destruct (IH LNot x0 ts0); [done|]. split; [by apply g_not|done].
  - destruct (IH LPrimary x ts); [done|]. split; [by apply g_pos|done].
  - destruct (IH LExpr x ts0); [done|]. split; [by apply g_paren|done].
  - split; [by apply g_bare|by eapply operandG_plain].
  - split; [apply g_cmp; [|done|]; by match goal with H : operandD ?x _ |- operandG ?x _ => apply H end|].
    simpl. by repeat match goal with H : operandD _ _ |- _ => destruct H as [_ ->] end.
Qed.

Lemma sepBy_documented (R R' : node → list token → Prop) sep l ts :
  (∀ x ts, R x ts → plain x = true → R' x ts) → forallb plain l = true → sepBy R sep l ts → sepBy R' sep l ts.
Proof.
  intros HR Hl H. revert Hl. induction H; simpl; intros [Hx Hl]%andb_true_iff; constructor; auto.
Qed.

Lemma derives_documented n l x ts : derives n l x ts → plain x = true → documented n l x ts.
Proof.
  revert l x ts. induction n as [|n IH]; intros l x ts; inversion 1; subst; intros Hp.
  - rewrite plain_collapse in Hp by done. constructor. eapply sepBy_documented; [apply IH|done|done].
  - rewrite plain_collapse in Hp by done. constructor. eapply sepBy_documented; [apply IH|done|done].
  - constructor; auto.
  - constructor; auto.
  - constructor; auto.
  - by constructor.
  - simpl in Hp. apply andb_true_iff in Hp as [Hl%negb_true_iff Hr%negb_true_iff]. by constructor.
Qed.

(** C19: the parser accepts exactly its grammar.  An expression parses if and only if its
    characters scan without error to a token sequence that derives, within the nesting
    limit of 32 with every rule counting as a level, from the grammar documented at the
    top of when.go extended by one rule: [present(path)] may also be an operand of a
    comparison, as in [present(35) == false], which that grammar does not list and the
    comment in parsePrimary allows.  What is returned is the derived tree with the
    locations it reads, in order.  And the expression derives from the documented grammar
    itself if and only if it parses and no comparison of its tree has such an operand. *)
Theorem when_parser_exact src e :
  (ParseWhen src = inr e ↔
   ∃ ts, tokensOf src ts ∧ derives (S maxWhenDepth) LExpr (root e) ts ∧
         Refs e = refsOf (root e) ∧ Source e = src) ∧
  (ParseWhen src = inr e ∧ plain (root e) = true ↔
   ∃ ts, tokensOf src ts ∧ documented (S maxWhenDepth) LExpr (root e) ts ∧
         Refs e = refsOf (root e) ∧ Source e = src).
Proof.
  split; [apply parseWhen_exact|]. rewrite parseWhen_exact. split.
  - intros [(ts & ? & ? & ?) ?]. exists ts. split_and!; try tauto. by apply derives_documented.
  - intros (ts & ? & [? ?]%documented_derives & ?). split; [|done]. exists ts. tauto.
Qed.

(** The reference spec's condition, which the documented grammar does not derive. *)
Example present_operand_undocumented :
  ∃ e, ParseWhen "present(35) == false" = inr e ∧ plain (root e) = false.
Proof. eexists. by vm_compute. Qed.

(** every rejected expression is reported with an error whose position lies in
    the source (or at its end), and the loops of the parser always finish. *)
Theorem when_error_located src o :
  ParseWhen src = inl o →
  ∃ e, o = Some e ∧ (epos e ≤ String.length src)%nat ∧ what e ≠ EFuel.
Proof.
  unfold ParseWhen, parseExpr. pose proof (startParser_ok src) as Hok.
  pose proof (parseAt_parses (S maxWhenDepth) (String.length src) LExpr (startParser src) Hok) as [Hp Hr].
  destruct (parseAt _ _ _) as [p' [x|]]; cbn [fst snd] in *.
  - destruct (err p') as [e|] eqn:Herr; [|case_bool_decide; [done|]].
    + intros ?; simplify_eq. destruct Hp as (_ & _ & Hp). rewrite Herr in Hp. eauto.
    + intros ?; simplify_eq. eapply (errAt_ok _ _ EAfterEnd) in Hp as (_ & _ & Hp);
        [|apply Hp|done]. unfold errAt in *. rewrite Herr in *. simpl in *. eauto.
  - intros ?; simplify_eq. destruct Hp as (_ & _ & Hp). destruct (err p') as [e|]; [eauto|done].
Qed.

(** Conditions: what may stand in a boolean position. *)
Definition isOp (op : string) : bool := bool_decide (op ∈ ["=="; "!="; "<"; "<="; ">"; ">="]).
Definition operandOk (x : node) : bool :=
  match x with
  | fieldNode _ _ | presentNode _ | mtiNode => true
  | litNode v => negb (absent v)
  | _ => false
  end.
Fixpoint condition (x : node) : bool :=
  match x with
  | orNode l | andNode l => bool_decide (2 ≤ length l)%nat && forallb condition l
  | notNode i => condition i
  | cmpNode l r op => operandOk l && operandOk r && isOp op
  | presentNode _ => true
  | litNode v => isBool v && negb (absent v)
  | fieldNode _ _ | mtiNode => false
  end.

(** A token of kind [tokOp] is one of the six operators. *)
Definition opTok (t : token) : Prop := kind t = tokOp → isOp (text t) = true.

Lemma next_op p : opTok (tok (next p)).
Proof.
  unfold next, opTok. destruct (span isSpaceC (rest p)) as [bl r]. unfold nextTok.
  destruct r as [|c r]; [done|].
  destruct (Ascii.eqb c "(") eqn:?; [done|]. destruct (Ascii.eqb c ")") eqn:?; [done|].
  destruct (Ascii.eqb c "'") eqn:?; [by destruct (span _ r) as [? []]|].
  destruct (Ascii.eqb c "&" || Ascii.eqb c "|"); [repeat case_match; done|].
  destruct (Ascii.eqb c "!") eqn:?; [repeat case_match; subst; by vm_compute|].
  destruct (Ascii.eqb c "=" || Ascii.eqb c "<" || Ascii.eqb c ">") eqn:Hc.
  - apply orb_true_iff in Hc as [[Hc|Hc]%orb_true_iff|Hc]; apply Ascii.eqb_eq in Hc; subst c;
      repeat case_match; by vm_compute.
  - destruct (isPathRune c); [|done]. destruct (span isPathRune _) as [t after]. by case_match.
Qed.

Lemma eats_ops p ts q : opTok (tok p) → eats p ts q → Forall opTok ts.
Proof. intros H He. induction He as [|p ts q _ _ IH]; constructor; auto using next_op. Qed.

Lemma operandG_ok x ts : operandG x ts → operandOk x = true ∧ (bareG x = true → condition x = true).
Proof. destruct 1; try done. by destruct pr. Qed.

Lemma sepBy_Forall (R : node → list token → Prop) (P : node → Prop) (Q : token → Prop) sep l ts :
  (∀ x ts, R x ts → Forall Q ts → P x) → sepBy R sep l ts → Forall Q ts → Forall P l.
Proof.
  intros HR. induction 1 as [x ts Hx|x ts t l ts' Hx Ht Hl IH]; intros Hq; [by eauto using Forall|].
  apply Forall_app in Hq as [Hq1 Hq2]. inversion Hq2; subst. constructor; eauto.
Qed.

Lemma collapse_condition mk l :
  l ≠ [] → (∀ l, condition (mk l) = bool_decide (2 ≤ length l)%nat && forallb condition l) →
  Forall (λ x, condition x = true) l → condition (collapse mk l) = true.
Proof.
  intros Hl Hmk Hf. destruct l as [|x [|y l]]; [done|by inversion Hf|]. cbn [collapse]. rewrite Hmk.
  apply andb_true_iff; split; [by apply bool_decide_eq_true_2; simpl; lia|].
  apply forallb_forall. rewrite Forall_forall in Hf. intros z Hz. apply Hf. by apply list_elem_of_In.
Qed.

Lemma derives_condition n l x ts : derives n l x ts → Forall opTok ts → condition x = true.
Proof.
  revert l x ts. induction n as [|n IH]; intros l x ts Hd Hq; inversion Hd; subst.
  1-2: apply collapse_condition; [|done|eapply (sepBy_Forall _ _ opTok); [apply IH|done|done]];
         by match goal with H : sepBy _ _ _ _ |- _ => destruct H end.
  - inversion Hq; subst. by apply (IH LNot x0 ts0).
  - by apply (IH LPrimary x ts).
  - inversion Hq as [|?? _ Hq']; subst. apply Forall_app in Hq' as [? _]. by apply (IH LExpr x ts0).
  - by apply (operandG_ok x ts).
  - apply Forall_app in Hq as [_ Hq]. inversion Hq; subst. cbn [condition].
    rewrite (proj1 (operandG_ok x0 ts0 ltac:(done))), (proj1 (operandG_ok y ts' ltac:(done))).
    simpl. auto.
Qed.

(** Induction over a tree and the lists in it. *)
Lemma node_rect_list (P : node → Prop) :
  (∀ l, Forall P l → P (orNode l)) → (∀ l, Forall P l → P (andNode l)) →
  (∀ i, P i → P (notNode i)) → (∀ x y op, P x → P y → P (cmpNode x y op)) →
  (∀ r num, P (fieldNode r num)) → (∀ r, P (presentNode r)) → P mtiNode → (∀ v, P (litNode v)) →
  ∀ x, P x.
Proof.
  intros Hor Hand Hnot Hcmp Hf Hp Hm Hl. fix go 1. intros [l|l|i|x y op|r num|r| |v].
  - apply Hor. induction l; constructor; [apply go|done].
  - apply Hand. induction l; constructor; [apply go|done].
  - apply Hnot, go.
  - apply Hcmp; apply go.
  - apply Hf.
  - apply Hp.
  - apply Hm.
  - apply Hl.
Qed.

Lemma bindNode_condition k x : condition (bindNode k x) = condition x.
Proof.
  induction x as [l IH|l IH|i IH|x y op _ _|r num|r| |v] using node_rect_list; try done.
  - cbn [bindNode condition]. rewrite length_fmap. f_equal. induction IH as [|z l Hz _ IH]; [done|].
    cbn [fmap list_fmap forallb]. by rewrite Hz, IH.
  - cbn [bindNode condition]. rewrite length_fmap. f_equal. induction IH as [|z l Hz _ IH]; [done|].
    cbn [fmap list_fmap forallb]. by rewrite Hz, IH.
  - simpl. f_equal. f_equal; [by destruct x|by destruct y].
Qed.

Lemma bindNode_refs k x : refsOf (bindNode k x) = refsOf x.
Proof.
  induction x as [l IH|l IH|i IH|x y op Hx Hy|r num|r| |v] using node_rect_list; try done.
  1-2: cbn [bindNode refsOf]; rewrite <-list_fmap_compose; f_equal; by apply Forall_fmap_ext_1.
  simpl. congruence.
Qed.

Section eval.
Context {F : Type} (ParseFloat : string → option F) (feq flt fle : F → F → bool).
Abbreviation eval := (eval ParseFloat feq flt fle).
Abbreviation Eval := (Eval ParseFloat feq flt fle).

(** A condition always has a boolean value: the language is total. *)
Lemma condition_boolean m x :
  condition x = true → isBool (eval m x) = true ∧ absent (eval m x) = false.
Proof.
  destruct x as [l|l|i|x y op|r num|r| |v]; try done; simpl.
  - intros _. unfold evalCmp. by repeat case_match.
  - intros [? ?%negb_true_iff]%andb_true_iff. done.
Qed.

(** Two messages that agree on the type indicator and on what a tree reads give it
    the same value. *)
Lemma eval_reads m m' x :
  MTI m = MTI m' → (∀ r, r ∈ refsOf x → Field m (DE r) (Subs r) = Field m' (DE r) (Subs r)) →
  eval m x = eval m' x.
Proof.
  intros Hm. induction x as [l IH|l IH|i IH|x y op Hx Hy|r num|r| |v] using node_rect_list;
    simpl; intros Hr; try done; try (by rewrite (Hr r) by set_solver); try (by f_equal).
  - f_equal. induction IH as [|z l Hz _ IH]; [done|]. simpl in *. rewrite Hz, IH; set_solver.
  - f_equal. induction IH as [|z l Hz _ IH]; [done|]. simpl in *. rewrite Hz, IH; set_solver.
  - by rewrite IH.
  - rewrite Hx, Hy; set_solver.
Qed.

(** the type indicator and the locations an accepted expression lists in [Refs]
    are all it can see: two messages that agree on them get the same answer, however
    the expression was bound to a specification's kinds. *)
Theorem when_reads_only_refs src e kindOf m m' :
  ParseWhen src = inr e → MTI m = MTI m' →
  (∀ r, r ∈ Refs e → Field m (DE r) (Subs r) = Field m' (DE r) (Subs r)) →
  Eval e m = Eval e m' ∧ Eval (BindKinds kindOf e) m = Eval (BindKinds kindOf e) m'.
Proof.
  intros (ts & _ & _ & Hrefs & _)%parseWhen_exact Hm Hr. rewrite Hrefs in Hr.
  split; unfold When.Eval; f_equal; apply eval_reads; [done|done|done|].
  simpl. by rewrite bindNode_refs.
Qed.

(** every accepted expression is a well-typed condition (each comparison relates
    two operands with one of the six operators, each connective joins at least two
    conditions), binding it to a specification's kinds keeps it one, and its value on
    any message is a boolean: evaluation cannot fail. *)
Theorem when_typed src e kindOf m :
  ParseWhen src = inr e →
  condition (root e) = true ∧ condition (root (BindKinds kindOf e)) = true ∧
  isBool (eval m (root e)) = true ∧ isBool (eval m (root (BindKinds kindOf e))) = true.
Proof.
  intros (ts & (q & He & _) & Hd & _ & _)%parseWhen_exact.
  assert (condition (root e) = true) as Hc
    by (eapply derives_condition; [done|]; eapply eats_ops; [apply next_op|done]).
  assert (condition (root (BindKinds kindOf e)) = true) as Hc' by (simpl; by rewrite bindNode_condition).
  split_and!; [done..| |]; by apply condition_boolean.
Qed.
End eval.

(** ** Examples *)

Definition sampleSource : string := "present(35) == false && !(field(4) > 1000 || mti == '0100')".
Definition sampleWhen : WhenExpr :=
  mkWhen sampleSource [mkRef 35 [] 8; mkRef 4 [] 32]
    (andNode [cmpNode (presentNode (mkRef 35 [] 8)) (litNode (boolValue false)) "==";
              notNode (orNode [cmpNode (fieldNode (mkRef 4 [] 32) false) (litNode (strValue "1000")) ">";
                               cmpNode mtiNode (litNode (strValue "0100")) "=="])]).

(** Two requests that differ in an element the condition does not read. *)
Definition sampleRequest (pan : string) : Subject :=
  mkSubject "0200" (λ de subs, match de, subs with
    | 4, [] => Some "000000000900" | 2, [] => Some pan | _, _ => None end).

Definition sampleFloat (t : string) : option Z := match digitsOf 0 t with Some z => Some z | None => None end.
Abbreviation sampleEval := (When.Eval sampleFloat Z.eqb Z.ltb Z.leb).

(** A bare value is rejected where it starts. *)
Example bare_value_rejected :
  ParseWhen "true && field(39)" = inl (Some (mkErr 8 ENotCondition)).
Proof. vm_compute. reflexivity. Qed.

(** A comparison with an absent element is false for every operator. *)
Example absent_compares_false :
  match ParseWhen "field(39) != '00' || !(field(39) == '00')" with
  | inr e => (eval sampleFloat Z.eqb Z.ltb Z.leb (sampleRequest "1") <$> match root e with orNode l => l | _ => [] end)
             = [boolValue false; boolValue true]
  | inl _ => False
  end.
Proof. vm_compute. reflexivity. Qed.

Lemma when_reads_only_refs_witness :
  ParseWhen sampleSource = inr sampleWhen ∧
  sampleEval sampleWhen (sampleRequest "41") = sampleEval sampleWhen (sampleRequest "42") ∧
  sampleEval sampleWhen (sampleRequest "41") = true.
Proof.
  assert (ParseWhen sampleSource = inr sampleWhen) as Hp by (vm_compute; reflexivity).
  split; [exact Hp|]. split; [|vm_compute; reflexivity].
  apply (when_reads_only_refs sampleFloat Z.eqb Z.ltb Z.leb sampleSource sampleWhen (λ _, "amount")
           (sampleRequest "41") (sampleRequest "42") Hp); [reflexivity|].
  intros r Hr. cbn in Hr. apply list_elem_of_In in Hr. destruct Hr as [<-|[<-|[]]]; reflexivity.
Defined.

Lemma when_typed_witness :
  ParseWhen sampleSource = inr sampleWhen ∧ condition (root sampleWhen) = true.
Proof.
  assert (ParseWhen sampleSource = inr sampleWhen) as Hp by (vm_compute; reflexivity).
  split; [exact Hp|].
  apply (when_typed sampleFloat Z.eqb Z.ltb Z.leb sampleSource sampleWhen (λ _, "amount") (sampleRequest "41") Hp).
Defined.

Lemma when_error_located_witness :
  ∃ e, ParseWhen "field(39) = '00'" = inl (Some e) ∧ (epos e ≤ 16)%nat.
Proof.
  destruct (when_error_located "field(39) = '00'" (Some (mkErr 10 ESingleEq))) as (e & He & Hp & _);
    [vm_compute; reflexivity|].
  exists e. split; [|exact Hp]. rewrite <-He. vm_compute. reflexivity.
Defined.
