(* ===== verification/KV.v ===== *)
(** * pkg/bus: the key-value store of the coat check (kv.go, nats_kv.go, mock.go)

    [KeyValue] is the interface of kv.go with what its clients rely on, stated as a
    class.  [natsKV] implements it over JetStream, which is outside the repository:
    its operations are the class [JetStream], with the documented laws the
    implementation needs.  The in-memory store of mock.go is a second instance and
    the witness that the interface can be met.

    Values are byte sequences, held as strings.  A context that ends is one of the
    errors an operation may report. *)
From S2P Require Import Prelude.
Open Scope Z_scope.

(** ** The interface *)

(** [PutWithTTL] returns the revision, or [None] for an error; [Get] the value and its
    revision, [Some None] when the key holds nothing. *)
Class KeyValue (K : Type) := {
  PutWithTTL : K → string → string → string → Z → K * option Z;
  KVGet : K → string → string → option (option (string * Z));
  KVDelete : K → string → string → K * bool;
}.

(** A put that succeeds is read back, and touches no other key. *)
Class KeyValueLaws (K : Type) `{KeyValue K} : Prop := {
  put_get : ∀ (k k' : K) bucket key v ttl rev,
    PutWithTTL k bucket key v ttl = (k', Some rev) → ∃ r, KVGet k' bucket key = Some (Some (v, r));
  put_other : ∀ (k k' : K) bucket key v ttl rev bucket' key',
    PutWithTTL k bucket key v ttl = (k', Some rev) → (bucket', key') ≠ (bucket, key) →
    KVGet k' bucket' key' = KVGet k bucket' key';
}.

Definition KVPut `{KeyValue K} (k : K) (bucket key v : string) : K * option Z := PutWithTTL k bucket key v 0.

(** ** JetStream *)

Inductive createErr := ErrKeyExists | ErrCreate.
Inductive jsEntry := JFound (v : string) (rev : Z) | JNotFound | JError.

(** What natsKV calls of the JetStream client. [js_connected] is [k.js != nil] and
    [js_bucket] whether the bucket's handle can be had. *)
Class JetStream (J : Type) := {
  js_connected : J → bool;
  js_bucket : J → string → bool;
  js_Put : J → string → string → string → J * option Z;
  js_Create : J → string → string → string → Z → J * (createErr + Z);
  js_Get : J → string → string → jsEntry;
  js_Delete : J → string → string → J * bool;
}.

Class JetStreamLaws (J : Type) `{JetStream J} : Prop := {
  (** Writing does not close the connection or drop the bucket. *)
  js_put_alive : ∀ (j : J) b k v b', js_connected (js_Put j b k v).1 = js_connected j ∧
    js_bucket (js_Put j b k v).1 b' = js_bucket j b';
  js_create_alive : ∀ (j : J) b k v t b', js_connected (js_Create j b k v t).1 = js_connected j ∧
    js_bucket (js_Create j b k v t).1 b' = js_bucket j b';
  (** A write that was acknowledged is the entry's value, and only that entry's. *)
  js_put_get : ∀ (j j' : J) b k v r, js_Put j b k v = (j', Some r) → js_Get j' b k = JFound v r;
  js_put_other : ∀ (j j' : J) b k v r b' k', js_Put j b k v = (j', Some r) → (b', k') ≠ (b, k) →
    js_Get j' b' k' = js_Get j b' k';
  js_create_get : ∀ (j j' : J) b k v t r, js_Create j b k v t = (j', inr r) → js_Get j' b k = JFound v r;
  js_create_other : ∀ (j j' : J) b k v t e b' k', js_Create j b k v t = (j', e) →
    e ≠ inl ErrCreate → (b', k') ≠ (b, k) → js_Get j' b' k' = js_Get j b' k';
}.

(** ** natsKV *)

Record natsKV (J : Type) := mkNats { js : J }.
Arguments mkNats {J} _.
Arguments js {J} _.

Section nats.
Context {J : Type} `{JetStream J}.

(** The guard every operation starts with: connected, and the bucket's handle. *)
Definition natsReady (k : natsKV J) (bucket : string) : bool := js_connected (js k) && js_bucket (js k) bucket.

Definition natsPut (k : natsKV J) (bucket key v : string) : natsKV J * option Z :=
  let '(j, r) := js_Put (js k) bucket key v in (mkNats j, r).

Definition natsPutWithTTL (k : natsKV J) (bucket key v : string) (ttl : Z) : natsKV J * option Z :=
  if negb (natsReady k bucket) then (k, None)
  else if ttl <=? 0 then natsPut k bucket key v
  else match js_Create (js k) bucket key v ttl with
       | (j, inr rev) => (mkNats j, Some rev)
       | (j, inl ErrKeyExists) => natsPut (mkNats j) bucket key v
       | (j, inl ErrCreate) => (mkNats j, None)
       end.

Definition natsGet (k : natsKV J) (bucket key : string) : option (option (string * Z)) :=
  if negb (natsReady k bucket) then None
  else match js_Get (js k) bucket key with
       | JFound v rev => Some (Some (v, rev))
       | JNotFound => Some None
       | JError => None
       end.

Definition natsDelete (k : natsKV J) (bucket key : string) : natsKV J * bool :=
  if negb (natsReady k bucket) then (k, false)
  else let '(j, ok) := js_Delete (js k) bucket key in (mkNats j, ok).

#[export] Instance natsKV_KeyValue : KeyValue (natsKV J) :=
  {| PutWithTTL := natsPutWithTTL; KVGet := natsGet; KVDelete := natsDelete |}.

(** Both ways of writing end in one acknowledged write of the key. *)
Lemma natsPutWithTTL_inv k k' bucket key v ttl rev :
  natsPutWithTTL k bucket key v ttl = (k', Some rev) →
  natsReady k bucket = true ∧
  (js_Put (js k) bucket key v = (js k', Some rev) ∨
   js_Create (js k) bucket key v ttl = (js k', inr rev) ∨
   ∃ j, js_Create (js k) bucket key v ttl = (j, inl ErrKeyExists) ∧ js_Put j bucket key v = (js k', Some rev)).
Proof.
  unfold natsPutWithTTL, natsPut. destruct (natsReady k bucket); [|done]. cbn [negb]. intros E.
  split; [done|]. destruct (ttl <=? 0).
  - destruct (js_Put _ _ _ _) eqn:Hp. simplify_eq/=. by left.
  - right. destruct (js_Create _ _ _ _ _) as [j [[]|r]] eqn:Hc; simplify_eq/=; [|by left].
    right. exists j. split; [done|]. by destruct (js_Put _ _ _ _); simplify_eq/=.
Qed.

#[export] Instance natsKV_laws `{!JetStreamLaws J} : KeyValueLaws (natsKV J).
Proof.
  split.
  - intros k k' b key v ttl rev (Hr & Hw)%natsPutWithTTL_inv.
    assert (natsReady k' b = true) as Hr'.
    { unfold natsReady in *. destruct Hw as [Hp|[Hc|(j & Hc & Hp)]].
      - pose proof (js_put_alive (js k) b key v b) as [A B]. rewrite Hp in *. cbn [fst] in *. congruence.
      - pose proof (js_create_alive (js k) b key v ttl b) as [A B]. rewrite Hc in *. cbn [fst] in *. congruence.
      - pose proof (js_create_alive (js k) b key v ttl b) as [A B]. rewrite Hc in *.
        pose proof (js_put_alive j b key v b) as [C D]. rewrite Hp in *. cbn [fst] in *. congruence. }
    exists rev. cbn [KVGet natsKV_KeyValue]. unfold natsGet. rewrite Hr'. cbn [negb].
    destruct Hw as [Hp|[Hc|(j & _ & Hp)]].
    + by rewrite (js_put_get _ _ _ _ _ _ Hp).
    + by rewrite (js_create_get _ _ _ _ _ _ _ Hc).
    + by rewrite (js_put_get _ _ _ _ _ _ Hp).
  - intros k k' b key v ttl rev b' key' (Hr & Hw)%natsPutWithTTL_inv Hne.
    assert (natsReady k' b' = natsReady k b' ∧ js_Get (js k') b' key' = js_Get (js k) b' key') as [E1 E2].
    { unfold natsReady. destruct Hw as [Hp|[Hc|(j & Hc & Hp)]].
      - pose proof (js_put_alive (js k) b key v b') as [A B]. rewrite Hp in *. cbn [fst] in *.
        split; [congruence|by eapply js_put_other].
      - pose proof (js_create_alive (js k) b key v ttl b') as [A B]. rewrite Hc in *. cbn [fst] in *.
        split; [congruence|by eapply js_create_other].
      - pose proof (js_create_alive (js k) b key v ttl b') as [A B]. rewrite Hc in *.
        pose proof (js_put_alive j b key v b') as [C D]. rewrite Hp in *. cbn [fst] in *.
        split; [congruence|]. erewrite js_put_other by done. by eapply js_create_other. }
    cbn [KVGet natsKV_KeyValue]. unfold natsGet. by rewrite E1, E2.
Qed.
End nats.

(** ** MockKeyValue *)

Record MockKeyValue := mkMock { kvdata : gmap string (gmap string string) }.

Definition mockPutWithTTL (m : MockKeyValue) (bucket key v : string) (ttl : Z) : MockKeyValue * option Z :=
  (mkMock (<[bucket := <[key := v]> (default ∅ (kvdata m !! bucket))]> (kvdata m)), Some 1).

Definition mockGet (m : MockKeyValue) (bucket key : string) : option (option (string * Z)) :=
  Some (match kvdata m !! bucket ≫= (λ b, b !! key) with Some v => Some (v, 1) | None => None end).

#[export] Instance mock_KeyValue : KeyValue MockKeyValue :=
  {| PutWithTTL := mockPutWithTTL; KVGet := mockGet; KVDelete := λ m _ _, (m, true) |}.

#[export] Instance mock_laws : KeyValueLaws MockKeyValue.
Proof.
  split.
  - intros k k' b key v ttl rev E. injection E as <- <-. exists 1. cbn. unfold mockGet; simpl.
    by rewrite lookup_insert_eq; simpl; rewrite lookup_insert_eq.
  - intros k k' b key v ttl rev b' key' E Hne. injection E as <- <-. cbn. unfold mockGet; simpl.
    destruct (decide (b' = b)) as [->|Hb]; [|by rewrite lookup_insert_ne].
    rewrite lookup_insert_eq. simpl. rewrite lookup_insert_ne by congruence.
    by destruct (kvdata k !! b); simpl; [|rewrite lookup_empty].
Qed.
