(* ===== verification/Coatcheck.v ===== *)
(** * pkg/gears/native/coatcheck: storing and restoring (gear.go, store.go, restore.go)

    The store gear parks fields of a request under a correlation key and forwards the
    request without them; the restore gear merges them into the matching reply.  A gear
    owns the message it processes, so the message is a value here and its data a tree
    [dval]; the maps keep Go's two types, [map[string]any] and, after a bus hop,
    [map[any]any], nil maps included.

    Parameters: [ParseDuration] is [time.ParseDuration]; [sprint] is [fmt.Sprint] of a
    map; [uuidString] renders a UUID; [Marshal] and [Unmarshal] are the CBOR library;
    the store is any [KeyValue].  A goroutine's write is recorded in [detached] and
    performed by [runDetached], at any later point. *)
From Stdlib Require Import Ascii.
From S2P Require Import Prelude Bytes Amount FluxMsg Keys Tree KV.
Open Scope Z_scope.

(** ** Message data as a tree *)

Inductive leaf := LNil | LBool (b : bool) | LInt (z : Z) | LStr (s : string) | LBytes (s : string) | LOther (text : string).

Inductive dval :=
| DLeaf (v : leaf)
| DMapS (m : option (gmap string dval))
| DMapA (m : option (gmap akey dval)).

Abbreviation dmap := (gmap string dval).

(** [v[key]] for either map type. *)
Definition dget (d : dval) (key : string) : option dval :=
  match d with
  | DMapS (Some m) => m !! key
  | DMapA (Some m) => m !! KStr key
  | _ => None
  end.

(** [v[key] = x]; [None] when [d] is no map or the map is nil (a panic in Go). *)
Definition dput (d : dval) (key : string) (x : dval) : option dval :=
  match d with
  | DMapS (Some m) => Some (DMapS (Some (<[key := x]> m)))
  | DMapA (Some m) => Some (DMapA (Some (<[KStr key := x]> m)))
  | _ => None
  end.

Definition disMap (d : dval) : bool := match d with DLeaf _ => false | _ => true end.

(** [FluxMsg.Get] on the tree. *)
Fixpoint treeGet (d : dval) (parts : list string) : option dval :=
  match parts with
  | [] => None
  | [p] => dget d p
  | p :: rest =>
      match dget d p with
      | Some nx => if disMap nx then treeGet nx rest else None
      | None => None
      end
  end.

(** [FluxMsg.Set] on the tree: [None] is a key conflict or a write to a nil map. *)
Fixpoint treeSet (d : dval) (parts : list string) (x : dval) : option dval :=
  match parts with
  | [] => Some d
  | [p] => dput d p x
  | p :: rest =>
      let nx := match dget d p with Some nx => nx | None => DMapS (Some ∅) end in
      if disMap nx then treeSet nx rest x ≫= dput d p else None
  end.

(** [fluxmsg.AsDataMap]: [Some None] is a nil [map[string]any]. *)
Definition asData (d : dval) : option (option dmap) :=
  match d with
  | DLeaf _ => None
  | DMapS o => Some o
  | DMapA o => Some (Some (list_to_map (prod_map sprintKey id <$> map_to_list (default ∅ o))))
  end.

Record CoatMsg := mkCoat {
  c_FluxID : Z; c_RefFluxID : Z; c_TraceID : string; c_SrcGearID : Z;
  c_Metadata : option (gmap string string); c_Data : option dmap;
  c_RawPayload : string; c_TSInit : Z }.

Definition metaOf (m : CoatMsg) : gmap string string := default ∅ (c_Metadata m).

(** ** Configuration (gear.go) *)

Definition ModeStore := "store"%string.
Definition ModeRestore := "restore"%string.
Definition ModeDaemon := "daemon"%string.
Definition NormalizeTrim := "trim"%string.
Definition NormalizeNumeric := "numeric"%string.
Definition NormalizeNone := "none"%string.
Definition MetaCoatCheckTTL := "coatcheck.ttl"%string.

Record Config := mkConfig {
  Mode : string; Bucket : string; KeyFields : list string; KeyNormalize : string;
  AwaitStore : bool; StoreTimeout : Z; ValueFields : list string; MergeStrategy : string;
  OnMissing : string; Storage : string; Replicas : Z; DefaultTTL : Z; MaxTTL : Z; IncludeValues : bool }.

Definition second : Z := 1000000000.

Definition cfgBool (m : list (string * cfgval)) (k : string) : option bool :=
  match cfgGet m k with Some (CBool b) => Some b | _ => None end.

(** The strings of a list, other items skipped. *)
Definition cfgStrings (m : list (string * cfgval)) (k : string) : list string :=
  match cfgGet m k with
  | Some (CList l) => omap (λ v, match v with CStr s => Some s | _ => None end) l
  | _ => []
  end.

Inductive coatInitErr := EBucketRequired | EDaemon | EInvalidMode (mode : string).

Section gear.
Context (ParseDuration : string → option Z) (sprint : dval → string) (uuidString : Z → string).

(** A duration of the configuration, the default when absent or unreadable. *)
Definition cfgDuration (m : list (string * cfgval)) (k : string) (dflt : Z) : Z :=
  default dflt (cfgStr m k ≫= ParseDuration).

Definition loadConfig (cfg : list (string * cfgval)) : Config :=
  {| Mode := default "" (cfgStr cfg "mode");
     Bucket := default "" (cfgStr cfg "bucket");
     KeyFields := cfgStrings cfg "key_fields";
     KeyNormalize := default NormalizeTrim (cfgStr cfg "key_normalize");
     AwaitStore := default true (cfgBool cfg "await_store");
     StoreTimeout := cfgDuration cfg "store_timeout" (5 * second);
     ValueFields := cfgStrings cfg "value_fields";
     MergeStrategy := default "" (cfgStr cfg "merge_strategy");
     OnMissing := default "" (cfgStr cfg "on_missing");
     Storage := default "" (cfgStr cfg "storage");
     Replicas := match cfgGet cfg "replicas" with Some (CInt z) => z | _ => 0 end;
     DefaultTTL := cfgDuration cfg "default_ttl" (60 * second);
     MaxTTL := cfgDuration cfg "max_ttl" (300 * second);
     IncludeValues := default false (cfgBool cfg "include_values") |}.

(** [bucketReady] is what [EnsureBucket] answers the daemon. *)
Definition Init (bucketReady : Config → bool) (cfg : list (string * cfgval)) : coatInitErr + Config :=
  let c := loadConfig cfg in
  if bool_decide (Bucket c = "") then inl EBucketRequired
  else if bool_decide (Mode c = ModeStore) then inr c
  else if bool_decide (Mode c = ModeRestore) then inr c
  else if bool_decide (Mode c = ModeDaemon) then if bucketReady c then inr c else inl EDaemon
  else inl (EInvalidMode (Mode c)).

(** ** The correlation key *)

(** [sdk.GetValue] *)
Definition GetValue (m : CoatMsg) (path : string) : option dval :=
  if bool_decide (path = "payload") then Some (DLeaf (LStr (c_RawPayload m)))
  else if bool_decide (path = "flux_id") then Some (DLeaf (LOther (uuidString (c_FluxID m))))
  else if bool_decide (path = "trace_id") then Some (DLeaf (LStr (c_TraceID m)))
  else if bool_decide (path = "src_id") then Some (DLeaf (LOther (uuidString (c_SrcGearID m))))
  else match CutPrefix path "meta." with
       | Some rest => (DLeaf ∘ LStr) <$> metaOf m !! rest
       | None =>
           match CutPrefix path "data." with
           | Some rest => treeGet (DMapS (c_Data m)) (splitDot rest)
           | None => treeGet (DMapS (c_Data m)) (splitDot path)
           end
       end.

(** [sdk.FieldToKeyPart] of a value of the tree. *)
Definition keyPart (d : dval) : string :=
  match d with
  | DLeaf LNil => "<nil>"
  | DLeaf (LBool b) => if b then "true" else "false"
  | DLeaf (LInt z) => pretty z
  | DLeaf (LStr s) | DLeaf (LBytes s) | DLeaf (LOther s) => s
  | DMapS _ | DMapA _ => sprint d
  end.

Definition normalizeKeyPart (c : Config) (v : string) : string :=
  if bool_decide (KeyNormalize c = NormalizeNone) then v
  else if bool_decide (KeyNormalize c = NormalizeNumeric) then
    let trimmed := trimLeft0 (TrimSpace (toBytes v)) in
    if bool_decide (trimmed = []) then "0" else toString trimmed
  else toString (TrimSpace (toBytes v)).

(** [base64.RawURLEncoding.EncodeToString] *)
Definition b64char (n : Z) : ascii :=
  char_of (if n <? 26 then n + 65 else if n <? 52 then n - 26 + 97
           else if n <? 62 then n - 52 + 48 else if n =? 62 then 45 else 95).

Fixpoint RawURLEncoding (b : bytes) : string :=
  match b with
  | x :: y :: z :: rest =>
      String (b64char (x / 4)) (String (b64char (x mod 4 * 16 + y / 16))
        (String (b64char (y mod 16 * 4 + z / 64)) (String (b64char (z mod 64)) (RawURLEncoding rest))))
  | [x; y] =>
      String (b64char (x / 4)) (String (b64char (x mod 4 * 16 + y / 16)) (String (b64char (y mod 16 * 4)) ""))
  | [x] => String (b64char (x / 4)) (String (b64char (x mod 4 * 16)) "")
  | [] => ""
  end.

Inductive keyErr := ENoKeyFields | EMissingKeyField (field : string).

Fixpoint keyPartsOf (c : Config) (m : CoatMsg) (fields : list string) : keyErr + list string :=
  match fields with
  | [] => inr []
  | f :: rest =>
      match GetValue m f with
      | None => inl (EMissingKeyField f)
      | Some v =>
          match keyPartsOf c m rest with
          | inl e => inl e
          | inr ps => inr (normalizeKeyPart c (keyPart v) :: ps)
          end
      end
  end.

Definition extractKey (c : Config) (m : CoatMsg) : keyErr + string :=
  if bool_decide (KeyFields c = []) then inl ENoKeyFields
  else match keyPartsOf c m (KeyFields c) with
       | inl e => inl e
       | inr ps => inr (RawURLEncoding (toBytes (JoinKeys ps)))
       end.

(** [resolveTTL]: the message's own time to live when it parses, else the default,
    capped. *)
Definition resolveTTL (meta : gmap string string) (defaultTTL maxTTL : Z) : Z :=
  let ttl := match meta !! MetaCoatCheckTTL with
             | Some v => default defaultTTL (ParseDuration v)
             | None => defaultTTL
             end in
  if (0 <? maxTTL) && (maxTTL <? ttl) then maxTTL else ttl.
End gear.

(** ** Storing (store.go) *)

(** What [cbor.Marshal] is given: the whole message or the partial one. *)
Definition emptyCoat : CoatMsg := mkCoat 0 0 "" 0 (Some ∅) (Some ∅) "" 0.

Definition withMeta (meta : gmap string string) (m : CoatMsg) : CoatMsg :=
  mkCoat (c_FluxID m) (c_RefFluxID m) (c_TraceID m) (c_SrcGearID m) (Some meta) (c_Data m) (c_RawPayload m) (c_TSInit m).
Definition withData (data : option dmap) (m : CoatMsg) : CoatMsg :=
  mkCoat (c_FluxID m) (c_RefFluxID m) (c_TraceID m) (c_SrcGearID m) (c_Metadata m) data (c_RawPayload m) (c_TSInit m).

(** [m.Set(key, x)], its error ignored. *)
Definition setData (m : CoatMsg) (key : string) (x : dval) : CoatMsg :=
  match treeSet (DMapS (c_Data m)) (splitDot key) x with
  | Some (DMapS d) => withData d m
  | _ => m
  end.

(** [len(field) > 5 && field[:5] == "meta."]: the rest of the path. *)
Definition metaPath (field : string) : option string :=
  match CutPrefix field "meta." with
  | Some rest => if bool_decide (rest = "") then None else Some rest
  | None => None
  end.

Section store.
Context (ParseDuration : string → option Z) (sprint : dval → string) (uuidString : Z → string).

(** One field of [value_fields] copied into the partial message. *)
Definition addField (msg partial : CoatMsg) (field : string) : CoatMsg :=
  match GetValue uuidString msg field with
  | None => partial
  | Some x =>
      match metaPath field with
      | Some rest => match x with DLeaf (LStr s) => withMeta (<[rest := s]> (metaOf partial)) partial | _ => partial end
      | None =>
          match CutPrefix field "data." with
          | Some rest => setData partial rest x
          | None => setData partial field x
          end
      end
  end.

Definition partialOf (msg : CoatMsg) (fields : list string) : CoatMsg :=
  let start := mkCoat (c_FluxID msg) 0 "" 0
    (Some (match metaOf msg !! MetaCoatCheckTTL with Some t => {[MetaCoatCheckTTL := t]} | None => ∅ end))
    (Some ∅) "" (c_TSInit msg) in
  foldl (addField msg) start fields.

Definition coatOf (c : Config) (msg : CoatMsg) : CoatMsg :=
  if bool_decide (ValueFields c = []) then msg else partialOf msg (ValueFields c).

(** [deleteNested root parts]: the map after it and whether anything was removed. *)
Fixpoint deleteNested (root : dmap) (parts : list string) : dmap * bool :=
  match parts with
  | [] => (root, false)
  | [p] => match root !! p with Some _ => (delete p root, true) | None => (root, false) end
  | p :: rest =>
      match root !! p with
      | None => (root, false)
      | Some next =>
          match asData next with
          | None => (root, false)
          | Some None => (root, false)
          | Some (Some m) =>
              let '(m', removed) := deleteNested m rest in
              if removed && bool_decide (m' = ∅) then (delete p root, removed)
              else (<[p := DMapS (Some m')]> root, removed)
          end
      end
  end.

Definition dataParts (path : string) : list string :=
  match splitDot path with
  | "data" :: ((_ :: _) as rest) => rest
  | parts => parts
  end.

Definition deleteDotted (m : CoatMsg) (path : string) : CoatMsg :=
  match metaPath path with
  | Some rest =>
      match c_Metadata m with Some meta => withMeta (delete rest meta) m | None => m end
  | None =>
      match c_Data m with
      | Some d => withData (Some (deleteNested d (dataParts path)).1) m
      | None => m
      end
  end.

Definition strip (c : Config) (m : CoatMsg) : CoatMsg := foldl deleteDotted m (ValueFields c).

(** ** The gear's state and the bus *)

Context {K : Type} `{KeyValue K} (Marshal : CoatMsg → option string) (Unmarshal : string → option CoatMsg).

Record write := mkWrite { w_bucket : string; w_key : string; w_value : string; w_ttl : Z }.

(** The store, the writes still to be made by a goroutine, and the messages emitted. *)
Record CState := mkCState { kv : K; detached : list write; emitted : list CoatMsg }.

Inductive coatErr := EKey (e : keyErr) | ESerialize | EPutFailed | EDecode
  | EMissingContext (key : string) | EUnknownPolicy (policy : string).

(** The result of [Process]: an error, or the message was handled. *)
Abbreviation cresult := (CState * option coatErr)%type.

Definition emitMsg (m : CoatMsg) (st : CState) : CState :=
  mkCState (kv st) (detached st) (emitted st ++ [m]).

Definition StoreProcess (c : Config) (msg : CoatMsg) (st : CState) : cresult :=
  match extractKey sprint uuidString c msg with
  | inl e => (st, Some (EKey e))
  | inr key =>
      match Marshal (coatOf c msg) with
      | None => (st, Some ESerialize)
      | Some valBytes =>
          let storeTTL := resolveTTL ParseDuration (metaOf msg) (DefaultTTL c) (MaxTTL c) in
          if negb (AwaitStore c) then
            let w := mkWrite (Bucket c) key valBytes storeTTL in
            (emitMsg (strip c msg) (mkCState (kv st) (detached st ++ [w]) (emitted st)), None)
          else
            match PutWithTTL (kv st) (Bucket c) key valBytes storeTTL with
            | (k', None) => (mkCState k' (detached st) (emitted st), Some EPutFailed)
            | (k', Some _) => (emitMsg (strip c msg) (mkCState k' (detached st) (emitted st)), None)
            end
      end
  end.

(** A goroutine makes its write; a failure is only logged. *)
Definition runDetached (i : nat) (st : CState) : CState :=
  match detached st !! i with
  | None => st
  | Some w => mkCState (PutWithTTL (kv st) (w_bucket w) (w_key w) (w_value w) (w_ttl w)).1
                (delete i (detached st)) (emitted st)
  end.

(** ** Restoring (restore.go) *)

(** [deepMergeData] on one entry of [src]; [n] bounds the depth of [src], and the loop
    over its keys is the pointwise [merge], since an iteration touches its key only. *)
Definition mergeWith (f : option dval → dval → option dval) (dst src : dmap) : dmap :=
  merge (λ sv dv, match sv with None => dv | Some sv => f dv sv end) src dst.

Fixpoint mergeEntry (n : nat) (overwrite : bool) (dv : option dval) (sv : dval) : option dval :=
  let plain := match dv with Some d => if overwrite then Some sv else Some d | None => Some sv end in
  match n with
  | O => plain
  | S n =>
      match asData sv, dv ≫= asData with
      | Some sm, Some dm =>
          match dm with
          | Some dm => Some (DMapS (Some (mergeWith (mergeEntry n overwrite) dm (default ∅ sm))))
          | None => Some (DMapS None)
          end
      | _, _ => plain
      end
  end.

Definition deepMergeData (n : nat) (dst src : dmap) (overwrite : bool) : dmap :=
  mergeWith (mergeEntry n overwrite) dst src.

(** The saved entry that would be written into a nil map: Go panics on it. *)
Fixpoint entryPanics (n : nat) (dv : option dval) (sv : dval) : bool :=
  match n with
  | O => false
  | S n =>
      match asData sv, dv ≫= asData with
      | Some sm, Some None => negb (bool_decide (default ∅ sm = ∅))
      | Some sm, Some (Some dm) =>
          existsb (λ kv : string * dval, entryPanics n (dm !! kv.1) kv.2) (map_to_list (default ∅ sm))
      | _, _ => false
      end
  end.

Definition mergePanics (n : nat) (dst src : dmap) : bool :=
  existsb (λ kv : string * dval, entryPanics n (dst !! kv.1) kv.2) (map_to_list src).

Definition mergeMetadata (overwrite : bool) (meta saved : gmap string string) : gmap string string :=
  if overwrite then saved ∪ meta else meta ∪ saved.

(** The reply with the saved context merged in. *)
Definition restoreInto (n : nat) (c : Config) (msg saved : CoatMsg) : CoatMsg :=
  let ow := bool_decide (MergeStrategy c = "overwrite") in
  mkCoat (c_FluxID msg)
    (if c_RefFluxID msg =? 0 then c_FluxID saved else c_RefFluxID msg)
    (if bool_decide (c_TraceID msg = "") then c_TraceID saved else c_TraceID msg)
    (c_SrcGearID msg)
    (Some (mergeMetadata ow (metaOf msg) (metaOf saved)))
    (Some (deepMergeData n (default ∅ (c_Data msg)) (default ∅ (c_Data saved)) ow))
    (c_RawPayload msg) (c_TSInit msg).

Definition handleMissing (c : Config) (msg : CoatMsg) (key : string) (st : CState) : cresult :=
  if bool_decide (OnMissing c = "error" ∨ OnMissing c = "") then (st, Some (EMissingContext key))
  else if bool_decide (OnMissing c = "drop") then (st, None)
  else if bool_decide (OnMissing c = "forward") then (emitMsg msg st, None)
  else (st, Some (EUnknownPolicy (OnMissing c))).

(** [None] is the panic. *)
Definition RestoreProcess (n : nat) (c : Config) (msg : CoatMsg) (st : CState) : option cresult :=
  match extractKey sprint uuidString c msg with
  | inl e => Some (st, Some (EKey e))
  | inr key =>
      match KVGet (kv st) (Bucket c) key with
      | None | Some None => Some (handleMissing c msg key st)
      | Some (Some (valBytes, _)) =>
          match Unmarshal valBytes with
          | None => Some (st, Some EDecode)
          | Some saved =>
              if mergePanics n (default ∅ (c_Data msg)) (default ∅ (c_Data saved)) then None
              else Some (emitMsg (restoreInto n c msg saved) st, None)
          end
      end
  end.

(** [Process]: a daemon handles no input. *)
Definition Process (n : nat) (c : Config) (msg : CoatMsg) (st : CState) : option cresult :=
  if bool_decide (Mode c = ModeStore) then Some (StoreProcess c msg st)
  else if bool_decide (Mode c = ModeRestore) then RestoreProcess n c msg st
  else Some (st, None).
End store.
