(* ===== verification/CoatcheckSpec.v ===== *)
(** * The coat check: what is parked comes back

    Keys are unambiguous; the partial message carries every configured field; the
    forwarded message does not; a restore reattaches what the reply lacks and keeps what
    it has; the store and the daemon agree on the time to live.  The composition,
    [store_then_restore], is proved against the interface [KeyValue] and what the CBOR
    library documents. *)
From Stdlib Require Import Ascii.
From S2P Require Import Prelude Bytes Amount FluxMsg Keys Tree KV Coatcheck.
Open Scope Z_scope.

(** ** Keys *)

Lemma b64char_inj a b : 0 ≤ a < 64 → 0 ≤ b < 64 → b64char a = b64char b → a = b.
Proof.
  intros Ha Hb E. apply (f_equal byte_of) in E. unfold b64char in E.
  rewrite !byte_of_char in E by (unfold byte_ok; repeat case_match; lia).
  repeat case_match; lia.
Qed.

Lemma RawURLEncoding_inj x y : Forall byte_ok x → Forall byte_ok y → RawURLEncoding x = RawURLEncoding y → x = y.
Proof.
  revert y. induction x as [x IH] using (induction_ltof1 _ (@length Z)); unfold ltof in IH.
  intros y Hx Hy E.
  destruct x as [|a [|b [|c x]]], y as [|a' [|b' [|c' y]]]; simpl in E; try done;
    repeat match goal with H : Forall byte_ok (_ :: _) |- _ => apply Forall_cons in H as [? ?] end;
    unfold byte_ok in *; injection E as E;
    repeat match goal with E : b64char _ = b64char _ |- _ =>
      apply b64char_inj in E; [|Z.to_euclidean_division_equations; lia..] end.
  - f_equal. Z.to_euclidean_division_equations; lia.
  - f_equal; [|f_equal]; Z.to_euclidean_division_equations; lia.
  - assert (a = a') as -> by (Z.to_euclidean_division_equations; lia).
    assert (b = b') as -> by (Z.to_euclidean_division_equations; lia).
    assert (c = c') as -> by (Z.to_euclidean_division_equations; lia).
    do 3 f_equal. apply IH; [simpl; lia|done..].
Qed.

(** ** Reading and writing a tree *)

Section trees.
Implicit Types (d p m x y z : dval) (ps : list string).

(** A map that can be written to. *)
Definition live d : Prop :=
  match d with DMapS (Some _) | DMapA (Some _) => True | _ => False end.

Lemma live_dput d k x : live d → ∃ d', dput d k x = Some d' ∧ live d' ∧
  (∀ q, dget d' q = if decide (q = k) then Some x else dget d q).
Proof.
  destruct d as [|[w|]|[w|]]; simpl; try done; intros _; eexists; split_and!; [done|done| |done|done|];
    intros q; simpl; case_decide; subst; rewrite ?lookup_insert_eq, ?lookup_insert_ne by congruence; done.
Qed.

Lemma dget_live d k x : dget d k = Some x → live d.
Proof. by destruct d as [|[]|[]]. Qed.

Lemma live_map d : live d → disMap d = true.
Proof. by destruct d. Qed.

Lemma treeGet_cons d a b rest :
  treeGet d (a :: b :: rest) =
  match dget d a with Some nx => if disMap nx then treeGet nx (b :: rest) else None | None => None end.
Proof. done. Qed.

(** Below a child. *)
Lemma treeGet_child d a nx ps : dget d a = Some nx → disMap nx = true → ps ≠ [] → treeGet d (a :: ps) = treeGet nx ps.
Proof. intros Ha Hm. destruct ps; [done|]. rewrite treeGet_cons, Ha, Hm. done. Qed.

Lemma treeGet_live d ps x : treeGet d ps = Some x → live d.
Proof.
  destruct ps as [|a [|b rest]]; [done| |]; [simpl; apply dget_live|].
  rewrite treeGet_cons. destruct (dget d a) eqn:E; [|done]. intros _. by eapply dget_live.
Qed.

(** [y] copies [z] so far: the same value, or a new map for a map. *)
Definition sim y z : Prop := y = z ∨ ((∃ w, y = DMapS (Some w)) ∧ disMap z = true).

Lemma sim_live y z : sim y z → live z → live y.
Proof. by intros [->|([w ->] & _)]. Qed.

Lemma sim_map y z : sim y z → disMap z = true → disMap y = true.
Proof. by intros [->|([w ->] & _)]. Qed.

Lemma sim_leaf l z : sim (DLeaf l) z → z = DLeaf l.
Proof. by intros [<-|([w ?] & _)]. Qed.

(** Writing what is there changes nothing. *)
Lemma dput_same m k x p' : dget m k = Some x → dput m k x = Some p' → p' = m.
Proof. intros Hm E. destruct m as [|[w|]|[w|]]; simpl in *; simplify_eq; by rewrite insert_id. Qed.

Lemma treeSet_same m fs x : treeGet m fs = Some x → treeSet m fs x = Some m.
Proof.
  revert m. induction fs as [|a [|b rest] IH]; intros m; [done| |].
  - cbn [treeGet treeSet]. destruct m as [|[w|]|[w|]]; simpl; intros E; try done; by rewrite insert_id.
  - rewrite treeGet_cons. destruct (dget m a) as [z|] eqn:Hz; [|done]. destruct (disMap z) eqn:Hm; [|done].
    intros Hx. specialize (IH z Hx). cbn [treeSet] in *. rewrite Hz, Hm, IH. cbn.
    destruct m as [|[w|]|[w|]]; simpl in *; try done; by rewrite insert_id.
Qed.

Lemma dput_new w k x p' : dput (DMapS (Some w)) k x = Some p' → ∃ w', p' = DMapS (Some w').
Proof. intros [= <-]. by eexists. Qed.

Lemma sim_dput p m k x p' : sim p m → dget m k = Some x → dput p k x = Some p' → sim p' m.
Proof.
  intros [->|([w ->] & Hm)] Hx E; [left; by eapply dput_same|right; eauto using dput_new].
Qed.

(** Everything readable in [p] is a copy of what [m] has there. *)
Definition partOf p m : Prop := ∀ ps y, treeGet p ps = Some y → ∃ z, treeGet m ps = Some z ∧ sim y z.

Lemma partOf_child p m a nx z :
  partOf p m → dget p a = Some nx → dget m a = Some z → disMap z = true → sim nx z → partOf nx z.
Proof.
  intros H Hp Hm Hz Hs ps y Hy. destruct ps as [|b ps]; [done|].
  pose proof (sim_map _ _ Hs Hz) as Hnx.
  destruct (H (a :: b :: ps) y) as (w & Hw & ?).
  { by rewrite (treeGet_child _ _ nx). }
  exists w. split; [|done]. by rewrite (treeGet_child _ _ z) in Hw.
Qed.

Lemma partOf_empty m : partOf (DMapS (Some ∅)) m.
Proof.
  intros [|a [|b rest]] y; [done| |]; [cbn; by rewrite lookup_empty|].
  rewrite treeGet_cons. cbn. by rewrite lookup_empty.
Qed.

(** One write of [x] at [k], in [p] and its part of [m]. *)
Lemma dput_partOf p p' m k nx' z :
  partOf p m → (∀ q, dget p' q = if decide (q = k) then Some nx' else dget p q) →
  dget m k = Some z → sim nx' z → (disMap z = true → partOf nx' z) → partOf p' m.
Proof.
  intros H Hp' Hz Hs Hsub [|a [|b rest]] y; [done| |].
  - cbn [treeGet]. rewrite Hp'. case_decide; subst; [intros [= <-]; by exists z|].
    intros Hy. apply (H [a] y Hy).
  - rewrite treeGet_cons, Hp'. case_decide; subst.
    + destruct (disMap nx') eqn:Hn; [|done]. intros Hy.
      assert (disMap z = true) as Hzm by (destruct Hs as [->|(_ & ?)]; done).
      destruct (Hsub Hzm _ _ Hy) as (w & Hw & ?). exists w. split; [|done].
      by rewrite treeGet_cons, Hz, Hzm.
    + intros Hy. apply (H (a :: b :: rest) y). by rewrite treeGet_cons.
Qed.

(** Writing into a part what the whole has there: the write succeeds, the result is a
    part, and no leaf is lost. *)
Lemma treeSet_part p m fs x :
  sim p m → live m → partOf p m → treeGet m fs = Some x →
  ∃ p', treeSet p fs x = Some p' ∧ sim p' m ∧ partOf p' m ∧ treeGet p' fs = Some x ∧
    ∀ ps l, treeGet p ps = Some (DLeaf l) → treeGet p' ps = Some (DLeaf l).
Proof.
  revert p m. induction fs as [|a [|b rest] IH]; intros p m Hs Hm Hpart Hx; [done| |];
    pose proof (sim_live _ _ Hs Hm) as Hp.
  - cbn [treeGet] in Hx. destruct (live_dput p a x Hp) as (p' & E & Hl & Hg). exists p'.
    assert (partOf p' m) as Hpart'.
    { eapply (dput_partOf p p' m a x x); try done; [by left|]. intros _ ps y Hy. exists y. split; [done|by left]. }
    split_and!; [done|by eapply sim_dput|done| |].
    + simpl. rewrite Hg. by rewrite decide_True.
    + intros [|c [|c' cs]] l; [done| |].
      * cbn [treeGet]. rewrite Hg. case_decide; [|done]. subst. intros Hc.
        destruct (Hpart [a] _ Hc) as (z & Hz & ->%sim_leaf). simpl in Hz. congruence.
      * rewrite !treeGet_cons, Hg. case_decide; [|done]. subst. intros Hc.
        destruct (Hpart (a :: c' :: cs) (DLeaf l)) as (z & Hz & ->%sim_leaf); [by rewrite treeGet_cons|].
        rewrite treeGet_cons, Hx in Hz. done.
  - rewrite treeGet_cons in Hx. destruct (dget m a) as [z|] eqn:Hz; [|done].
    destruct (disMap z) eqn:Hzm; [|done]. pose proof (treeGet_live _ _ _ Hx) as Hzl.
    set (nx := match dget p a with Some nx => nx | None => DMapS (Some ∅) end).
    assert (sim nx z ∧ partOf nx z) as [Hnx Hnp].
    { unfold nx. destruct (dget p a) as [w|] eqn:Hw; [|split; [right; eauto|apply partOf_empty]].
      destruct (Hpart [a] w Hw) as (z' & Hz' & Hs'). simpl in Hz'. simplify_eq.
      split; [done|by eapply partOf_child]. }
    destruct (IH nx z Hnx Hzl Hnp Hx) as (nx' & En & Hsn & Hpn & Hgn & Hleaf).
    pose proof (sim_live _ _ Hsn Hzl) as Hln.
    destruct (live_dput p a nx' Hp) as (p' & E & Hl & Hg). exists p'.
    split_and!; [| | | |].
    + cbn [treeSet]. fold nx. rewrite (sim_map _ _ Hnx Hzm). cbn [treeSet] in En. rewrite En. exact E.
    + destruct Hs as [->|([w ->] & Hmm)]; [|right; eauto using dput_new]. left.
      eapply dput_same; [|exact E]. rewrite Hz. f_equal. unfold nx in *. rewrite Hz in *.
      apply treeSet_same in Hx. congruence.
    + by eapply (dput_partOf p p' m a nx' z).
    + rewrite treeGet_cons, Hg, decide_True, (live_map _ Hln) by done. done.
    + intros [|c [|c' cs]] l; [done| |].
      * cbn [treeGet]. rewrite Hg. case_decide; [|done]. subst. intros Hc.
        destruct (Hpart [a] _ Hc) as (z' & Hz' & ->%sim_leaf). simpl in Hz'. by simplify_eq.
      * rewrite !treeGet_cons, Hg. case_decide; [|done]. subst. rewrite (live_map _ Hln).
        unfold nx in Hleaf. destruct (dget p a) as [w|]; [|done]. destruct (disMap w); [|done]. apply Hleaf.
Qed.
End trees.

(** ** Where a configured field lives *)

(** A field path that is not one of the envelope's own names. *)
Definition plainField (f : string) : bool :=
  negb (bool_decide (f ∈ ["payload"; "flux_id"; "trace_id"; "src_id"; "meta."])).

(** A metadata key, or a path of the data. *)
Definition fieldPath (f : string) : string + list string :=
  match metaPath f with Some k => inl k | None => inr (dataParts f) end.

Lemma splitDot_inv f p x r :
  splitDot f = p :: x :: r → ∃ s, f = p +:+ String "." s ∧ splitDot s = x :: r.
Proof.
  revert p. induction f as [|c f IH]; cbn [splitDot]; intros p H; [done|].
  destruct (Ascii.eqb c ".") eqn:Hc.
  - apply Ascii.eqb_eq in Hc. simplify_eq. by exists f.
  - destruct (splitDot f) as [|p' ps] eqn:Hs; [done|]. injection H as <- ->.
    destruct (IH p' eq_refl) as (s & -> & ?). by exists s.
Qed.

Lemma splitDot_some s : ∃ p ps, splitDot s = p :: ps.
Proof.
  destruct s as [|c s]; simpl; [by eauto|]. case_match; [by eauto|]. destruct (splitDot s); by eauto.
Qed.

Lemma CutPrefix_inv f p s : CutPrefix f p = Some s → f = p +:+ s.
Proof.
  revert f. induction p as [|c p IH]; intros f; cbn [CutPrefix]; [destruct f; by intros [= <-]|].
  destruct f as [|d f]; [done|]. cbn [CutPrefix]. destruct (Ascii.eqb c d) eqn:E; [|done].
  apply Ascii.eqb_eq in E. subst. intros H. by rewrite (IH f H).
Qed.

Lemma dataParts_cut f :
  dataParts f = match CutPrefix f "data." with Some rest => splitDot rest | None => splitDot f end.
Proof.
  unfold dataParts. destruct (CutPrefix f "data.") as [s|] eqn:E.
  - apply CutPrefix_inv in E. subst. change ("data." +:+ s) with ("data" +:+ String "." s).
    rewrite splitDot_cut by done. by destruct (splitDot_some s) as (p & ps & ->).
  - destruct (splitDot f) as [|p [|q r]] eqn:Hs; [done|by repeat case_match|].
    destruct (decide (p = "data")) as [->|Hp]; [|by repeat case_match].
    apply splitDot_inv in Hs as (s & -> & _). change ("data" +:+ String "." s) with ("data." +:+ s) in E.
    by rewrite CutPrefix_app in E.
Qed.

Lemma dataParts_some f : dataParts f ≠ [].
Proof.
  rewrite dataParts_cut. destruct (CutPrefix f "data.") as [s|];
    [destruct (splitDot_some s) as (? & ? & ->)|destruct (splitDot_some f) as (? & ? & ->)]; done.
Qed.

Section fields.
Context (uuidString : Z → string).
Abbreviation GetValue := (GetValue uuidString).
Abbreviation addField := (addField uuidString).

Definition readField (m : CoatMsg) (f : string) : option dval :=
  match fieldPath f with
  | inl k => (DLeaf ∘ LStr) <$> metaOf m !! k
  | inr ps => treeGet (DMapS (c_Data m)) ps
  end.

Lemma GetValue_plain m f : plainField f = true → GetValue m f = readField m f.
Proof.
  unfold plainField. intros Hn%negb_true_iff%bool_decide_eq_false. unfold Coatcheck.GetValue.
  do 4 (rewrite bool_decide_eq_false_2 by (intros ->; apply Hn; set_solver)).
  unfold readField, fieldPath, metaPath. destruct (CutPrefix f "meta.") as [r|] eqn:E.
  - rewrite bool_decide_eq_false_2; [done|]. intros ->. apply CutPrefix_inv in E. apply Hn. set_solver.
  - rewrite dataParts_cut. by destruct (CutPrefix f "data.").
Qed.

Lemma addField_path msg partial f x :
  GetValue msg f = Some x →
  addField msg partial f =
  match fieldPath f with
  | inl k => match x with DLeaf (LStr s) => withMeta (<[k := s]> (metaOf partial)) partial | _ => partial end
  | inr ps => match treeSet (DMapS (c_Data partial)) ps x with Some (DMapS d) => withData d partial | _ => partial end
  end.
Proof.
  intros E. unfold Coatcheck.addField, fieldPath. rewrite E. destruct (metaPath f); [done|].
  rewrite dataParts_cut. unfold setData. by destruct (CutPrefix f "data.").
Qed.

(** The partial message is part of the one it is taken from. *)
Record partMsg (partial msg : CoatMsg) : Prop := {
  pm_data : partOf (DMapS (c_Data partial)) (DMapS (c_Data msg));
  pm_live : is_Some (c_Data partial);
  pm_meta : metaOf partial ⊆ metaOf msg;
  pm_some : is_Some (c_Metadata partial);
  pm_id : c_FluxID partial = c_FluxID msg;
}.

(** No field read as a leaf is lost. *)
Definition keepsFields (m m' : CoatMsg) : Prop :=
  ∀ f l, readField m f = Some (DLeaf l) → readField m' f = Some (DLeaf l).

Lemma treeSet_DMapS d ps x p' : treeSet (DMapS d) ps x = Some p' → ∃ d', p' = DMapS d'.
Proof.
  destruct ps as [|a [|b rest]]; simpl.
  - intros [= <-]. by eexists.
  - destruct d; [|done]. intros [= <-]. by eexists.
  - intros H. case_match; [|done]. apply bind_Some in H as (y & _ & H).
    destruct d; [|done]. simplify_eq/=. by eexists.
Qed.

Lemma addField_step msg partial f :
  plainField f = true → partMsg partial msg →
  partMsg (addField msg partial f) msg ∧ keepsFields partial (addField msg partial f) ∧
  (∀ l, readField msg f = Some (DLeaf l) → readField (addField msg partial f) f = Some (DLeaf l)).
Proof.
  intros Hf Hpm. destruct (GetValue msg f) as [x|] eqn:E.
  2:{ assert (addField msg partial f = partial) as -> by (unfold Coatcheck.addField; by rewrite E).
      split; [done|]. split; [by intros ?|]. intros l Hl. rewrite GetValue_plain in E by done. congruence. }
  rewrite (addField_path _ _ _ _ E). rewrite GetValue_plain in E by done. unfold readField in E at 1 |- *.
  destruct Hpm as [Hd [d Hl] Hm [mm Hmm] Hid]. unfold keepsFields, readField.
  destruct (fieldPath f) as [k|ps] eqn:Hp.
  - destruct (metaOf msg !! k) as [s|] eqn:Hk; simplify_eq/=. split_and!.
    + split; simpl; [done|by eexists| |by eexists|done]. unfold metaOf at 1; simpl.
      by apply insert_subseteq_l.
    + intros g l. destruct (fieldPath g) as [k'|]; [|done]. unfold metaOf at 2. simpl.
      destruct (decide (k' = k)) as [->|]; [rewrite lookup_insert_eq|by rewrite lookup_insert_ne].
      intros Hg. apply fmap_Some in Hg as (s' & Hs' & ->).
      pose proof (lookup_weaken _ _ _ _ Hs' Hm). by simplify_eq/=.
    + intros l Hx. simplify_eq/=. unfold metaOf; simpl. by rewrite lookup_insert_eq.
  - rewrite Hl in Hd. destruct (treeSet_part (DMapS (Some d)) (DMapS (c_Data msg)) ps x) as (p' & Hs & Hlp & Hpp & Hg & Hk);
      [right; eauto|by eapply treeGet_live|done|done|].
    pose proof (sim_live _ _ Hlp (treeGet_live _ _ _ E)) as Hlv.
    destruct (treeSet_DMapS _ _ _ _ Hs) as (d' & ->). rewrite Hl, Hs. split_and!.
    + split; simpl; [done| |done|by eexists|done]. destruct d'; [by eexists|done].
    + intros g l. destruct (fieldPath g) as [|ps']; [done|]. apply Hk.
    + intros l Hx. simpl. congruence.
Qed.
End fields.

Lemma partialOf_spec uuidString msg fields :
  is_Some (c_Data msg) → forallb plainField fields = true →
  let p := partialOf uuidString msg fields in
  partMsg p msg ∧ metaOf p !! MetaCoatCheckTTL = metaOf msg !! MetaCoatCheckTTL ∧
  ∀ f l, f ∈ fields → readField msg f = Some (DLeaf l) → readField p f = Some (DLeaf l).
Proof.
  intros Hd Hplain. unfold partialOf. set (start := mkCoat _ _ _ _ _ _ _ _).
  assert (partMsg start msg ∧ metaOf start !! MetaCoatCheckTTL = metaOf msg !! MetaCoatCheckTTL) as [H0 Ht].
  { split; [split|]; simpl; [apply partOf_empty|by eexists| |by eexists|done|]; unfold metaOf at 1; simpl.
    - destruct (metaOf msg !! MetaCoatCheckTTL) eqn:E; [by apply map_singleton_subseteq_l|apply map_empty_subseteq].
    - destruct (metaOf msg !! MetaCoatCheckTTL) eqn:E; [apply lookup_singleton_eq|done]. }
  assert (∀ m, partMsg m msg → metaOf m !! MetaCoatCheckTTL = metaOf msg !! MetaCoatCheckTTL →
    let p := foldl (addField uuidString msg) m fields in
    partMsg p msg ∧ metaOf p !! MetaCoatCheckTTL = metaOf msg !! MetaCoatCheckTTL ∧ keepsFields m p ∧
    ∀ f l, f ∈ fields → readField msg f = Some (DLeaf l) → readField p f = Some (DLeaf l)) as Hgo.
  { clear start H0 Ht. induction fields as [|g fields IH]; intros m Hm Ht; simpl.
    - split_and!; [done|done|by intros ?|]. intros f l Hf. by apply elem_of_nil in Hf.
    - simpl in Hplain. apply andb_true_iff in Hplain as [Hg Hplain].
      destruct (addField_step uuidString msg m g Hg Hm) as (Hm' & Hk & Hr).
      destruct (IH Hplain _ Hm') as (A & B & C & D).
      { destruct (metaOf msg !! MetaCoatCheckTTL) as [t|] eqn:E.
        - assert (readField m "meta.coatcheck.ttl" = Some (DLeaf (LStr t))) as Hf
            by (change ((DLeaf ∘ LStr) <$> metaOf m !! MetaCoatCheckTTL = Some (DLeaf (LStr t))); by rewrite Ht).
          apply Hk in Hf. change ((DLeaf ∘ LStr) <$> metaOf (addField uuidString msg m g) !! MetaCoatCheckTTL
            = Some (DLeaf (LStr t))) in Hf. by apply fmap_Some in Hf as (t' & -> & [= ->]).
        - eapply (lookup_weaken_None _ (metaOf msg)); [done|apply Hm']. }
      split_and!; [done|done|by intros f l ?; apply C, Hk|].
      intros f l [->|Hf]%elem_of_cons Hl; [by apply C, Hr|by apply D]. }
  destruct (Hgo start H0 Ht) as (A & B & _ & D). done.
Qed.

(** ** Stripping *)

(** A path that cannot be read in [root], nor in any result of deleting from it. *)
Fixpoint gone (root : dmap) (ps : list string) : Prop :=
  match ps with
  | [] => False
  | [p] => root !! p = None
  | p :: rest =>
      match root !! p with
      | Some (DMapS (Some m)) => gone m rest
      | Some (DMapA _) => False
      | _ => True
      end
  end.

Lemma gone_cons root p q rest :
  gone root (p :: q :: rest) =
  match root !! p with Some (DMapS (Some m)) => gone m (q :: rest) | Some (DMapA _) => False | _ => True end.
Proof. done. Qed.

Lemma gone_unreadable root ps : gone root ps → treeGet (DMapS (Some root)) ps = None.
Proof.
  revert root. induction ps as [|p [|q rest] IH]; intros root; [done|done|].
  rewrite gone_cons, treeGet_cons. cbn [dget]. destruct (root !! p) as [[l|[m|]|m]|]; cbn [disMap]; try done; [apply IH|].
  intros _. by destruct rest.
Qed.

Lemma delete_cons root p q rest :
  deleteNested root (p :: q :: rest) =
  match root !! p with
  | None => (root, false)
  | Some next =>
      match asData next with
      | Some (Some m) =>
          let '(m', removed) := deleteNested m (q :: rest) in
          if removed && bool_decide (m' = ∅) then (delete p root, removed)
          else (<[p := DMapS (Some m')]> root, removed)
      | _ => (root, false)
      end
  end.
Proof. cbn [deleteNested]. by destruct (root !! p) as [x|]; [destruct (asData x) as [[]|]|]. Qed.

Lemma delete_gone root ps : ps ≠ [] → gone (deleteNested root ps).1 ps.
Proof.
  revert root. induction ps as [|p [|q rest] IH]; intros root Hne; [done| |].
  - simpl. destruct (root !! p) eqn:E; simpl; [apply lookup_delete_eq|done].
  - rewrite delete_cons, gone_cons. destruct (root !! p) as [nx|] eqn:E; [|cbn [fst]; by rewrite E].
    destruct (asData nx) as [[m|]|] eqn:Ea.
    + specialize (IH m ltac:(done)). destruct (deleteNested m (q :: rest)) as [m' r]. destruct (r && bool_decide (m' = ∅)); cbn [fst].
      * by rewrite lookup_delete_eq.
      * by rewrite lookup_insert_eq.
    + destruct nx as [|[]|]; try done. cbn [fst]. by rewrite E.
    + destruct nx; try done. cbn [fst]. by rewrite E.
Qed.

Lemma deleteNested_keeps_gone root ps qs : gone root ps → gone (deleteNested root qs).1 ps.
Proof.
  revert root qs. induction ps as [|p [|p' rest] IH]; intros root qs H; [done| |].
  - simpl in *. destruct qs as [|q [|q' qs]]; [done| |].
    + simpl. destruct (root !! q) eqn:E; [|done]. simpl. by rewrite lookup_delete_None; auto.
    + rewrite delete_cons. destruct (root !! q) as [nx|] eqn:E; [|done].
      destruct (asData nx) as [[m|]|]; try done. destruct (deleteNested m (q' :: qs)) as [m' r].
      assert (q ≠ p) by congruence. destruct (r && bool_decide (m' = ∅)); cbn [fst]; [by rewrite lookup_delete_None; auto|by rewrite lookup_insert_ne].
  - destruct qs as [|q [|q' qs]]; [done| |].
    + cbn [deleteNested]. destruct (root !! q) eqn:E; [|done]. cbn [fst]. rewrite gone_cons in H |- *.
      destruct (decide (q = p)) as [->|]; [by rewrite lookup_delete_eq|by rewrite lookup_delete_ne].
    + rewrite delete_cons. destruct (root !! q) as [nx|] eqn:E; [|done].
      destruct (asData nx) as [[m|]|] eqn:Ea; try done. destruct (decide (q = p)) as [->|Hne].
      * rewrite gone_cons, E in H. destruct nx as [|[m0|]|]; cbn in Ea; try done. injection Ea as <-.
        specialize (IH m0 (q' :: qs) H). destruct (deleteNested m0 (q' :: qs)) as [m' r]. rewrite gone_cons.
        destruct (r && bool_decide (m' = ∅)); cbn [fst]; [by rewrite lookup_delete_eq|by rewrite lookup_insert_eq].
      * destruct (deleteNested m (q' :: qs)) as [m' r]. rewrite gone_cons in H |- *.
        destruct (r && bool_decide (m' = ∅)); cbn [fst]; [by rewrite lookup_delete_ne|by rewrite lookup_insert_ne].
Qed.

Definition goneField (m : CoatMsg) (f : string) : Prop :=
  match fieldPath f with
  | inl k => metaOf m !! k = None
  | inr ps => match c_Data m with None => True | Some d => gone d ps end
  end.

Lemma goneField_unreadable m f : goneField m f → readField m f = None.
Proof.
  unfold goneField, readField. destruct (fieldPath f) as [k|ps]; [by intros ->|].
  destruct (c_Data m); [apply gone_unreadable|]. intros _. by destruct ps as [|? []].
Qed.

Lemma deleteDotted_gone m f : goneField (deleteDotted m f) f.
Proof.
  unfold goneField, deleteDotted, fieldPath. destruct (metaPath f) as [k|].
  - unfold metaOf. destruct (c_Metadata m) as [mm|] eqn:E; simpl; [apply lookup_delete_eq|by rewrite E].
  - destruct (c_Data m) as [d|] eqn:E; simpl; [|by rewrite E]. apply delete_gone, dataParts_some.
Qed.

Lemma deleteDotted_keeps_gone m f g : goneField m f → goneField (deleteDotted m g) f.
Proof.
  unfold goneField, deleteDotted. destruct (fieldPath f) as [k|ps]; intros H; destruct (metaPath g) as [k'|].
  - unfold metaOf in *. destruct (c_Metadata m) as [mm|] eqn:E; simpl in *; [|by rewrite E].
    by rewrite lookup_delete_None; auto.
  - by destruct (c_Data m).
  - by destruct (c_Metadata m).
  - destruct (c_Data m) eqn:E; simpl; [by apply deleteNested_keeps_gone|by rewrite E].
Qed.

Lemma strip_gone c m f : f ∈ ValueFields c → goneField (strip c m) f.
Proof.
  unfold strip. generalize (ValueFields c) as fs. intros fs. revert m.
  assert (∀ fs m, goneField m f → goneField (foldl deleteDotted m fs) f) as Hkeep.
  { clear. induction fs; simpl; auto using deleteDotted_keeps_gone. }
  induction fs as [|g fs IH]; intros m; [intros Hf; by apply elem_of_nil in Hf|]. simpl.
  intros [->|Hf]%elem_of_cons; [apply Hkeep, deleteDotted_gone|by apply IH].
Qed.

(** ** Merging *)

(** The value at the end of a path of map entries. *)
Fixpoint reach (d : dval) (ps : list string) : option dval :=
  match ps with [] => Some d | p :: ps => dget d p ≫= λ nx, reach nx ps end.

(** Every [map[any]any] beneath [d] has string keys, as data that came off the bus has. *)
Definition strKeyed (d : dval) : Prop :=
  ∀ ps m k, reach d ps = Some (DMapA (Some m)) → is_Some (m !! k) → ∃ s, k = KStr s.

(** No [map[string]any] beneath [d] is nil. *)
Definition noNil (d : dval) : Prop := ∀ ps, reach d ps ≠ Some (DMapS None).

Lemma strKeyed_child d p nx : strKeyed d → dget d p = Some nx → strKeyed nx.
Proof. intros H Hp ps m k Hm. apply (H (p :: ps)). simpl. by rewrite Hp. Qed.

Lemma noNil_child d p nx : noNil d → dget d p = Some nx → noNil nx.
Proof. intros H Hp ps E. apply (H (p :: ps)). simpl. by rewrite Hp. Qed.

(** [AsDataMap] keeps the entries of a string-keyed map. *)
Lemma asData_get d m p : strKeyed d → asData d = Some (Some m) → m !! p = dget d p.
Proof.
  intros Hk E. destruct d as [|o|o]; simplify_eq/=; [done|]. destruct o as [w|]; simpl; [|by rewrite map_to_list_empty].
  assert (∀ k x, (k, x) ∈ map_to_list w → ∃ s, k = KStr s) as Hs.
  { intros k x Hx%elem_of_map_to_list. by apply (Hk [] w k); [|eexists]. }
  apply option_eq. intros x. rewrite <-elem_of_list_to_map.
  - rewrite list_elem_of_fmap. split.
    + intros ([k y] & [= -> ->] & Hy). destruct (Hs _ _ Hy) as (s & ->). by apply elem_of_map_to_list in Hy.
    + intros Hx. exists (KStr p, x). by rewrite elem_of_map_to_list.
  - rewrite <-list_fmap_compose. change (fst ∘ prod_map sprintKey id) with (sprintKey ∘ @fst akey dval).
    rewrite (list_fmap_compose fst sprintKey). apply NoDup_fmap_2_strong; [|apply NoDup_fst_map_to_list].
    intros k1 k2 H1 H2. apply list_elem_of_fmap in H1 as ([? ?] & -> & H1), H2 as ([? ?] & -> & H2).
    destruct (Hs _ _ H1) as (? & E1), (Hs _ _ H2) as (? & E2). simpl in *. subst. simpl. congruence.
Qed.

Lemma asData_map d : is_Some (asData d) ↔ disMap d = true.
Proof. destruct d; simpl; split; try done; by intros []. Qed.

Lemma asData_live d o : live d → asData d = Some o → ∃ m, o = Some m.
Proof. destruct d as [|[]|[]]; simpl; try done; intros _ [= <-]; by eexists. Qed.

Lemma treeGet_ext d d' ps : (∀ p, dget d p = dget d' p) → treeGet d ps = treeGet d' ps.
Proof. intros H. destruct ps as [|p [|q rest]]; [done|apply H|]. by rewrite !treeGet_cons, H. Qed.

Lemma reach_ext d d' p ps : (∀ p, dget d p = dget d' p) → reach d (p :: ps) = reach d' (p :: ps).
Proof. intros H. simpl. by rewrite H. Qed.

Lemma strKeyed_asData d m : strKeyed d → asData d = Some (Some m) → strKeyed (DMapS (Some m)).
Proof.
  intros Hk E [|p ps] w k; [done|]. rewrite (reach_ext _ d); [by apply Hk|].
  intros q. by apply asData_get.
Qed.

Lemma noNil_asData d m : strKeyed d → noNil d → asData d = Some (Some m) → noNil (DMapS (Some m)).
Proof.
  intros Hk Hn E [|p ps]; [done|]. rewrite (reach_ext _ d); [by apply Hn|].
  intros q. by apply asData_get.
Qed.

(** The live message can take the path: what it has along it are maps. *)
Fixpoint free (d : dval) (ps : list string) : Prop :=
  match ps with
  | [] => False
  | [p] => dget d p = None
  | p :: rest => match dget d p with None => True | Some nx => live nx ∧ free nx rest end
  end.

Lemma free_cons d p q rest :
  free d (p :: q :: rest) = match dget d p with None => True | Some nx => live nx ∧ free nx (q :: rest) end.
Proof. done. Qed.

Lemma free_ext d d' ps : (∀ p, dget d p = dget d' p) → free d ps → free d' ps.
Proof. intros H. destruct ps as [|p [|q rest]]; [done|by cbn; rewrite H|]. by rewrite !free_cons, H. Qed.

Lemma mergeWith_lookup f dst src p :
  mergeWith f dst src !! p = match src !! p with None => dst !! p | Some sv => f (dst !! p) sv end.
Proof.
  unfold mergeWith. rewrite lookup_merge. unfold diag_None. by destruct (src !! p), (dst !! p).
Qed.


(** Without [overwrite], a leaf the message holds survives. *)
Lemma merge_keeps n dst src ps l :
  strKeyed (DMapS (Some dst)) → treeGet (DMapS (Some dst)) ps = Some (DLeaf l) →
  treeGet (DMapS (Some (deepMergeData n dst src false))) ps = Some (DLeaf l).
Proof.
  unfold deepMergeData. revert n dst src. induction ps as [|p [|q rest] IH]; intros n dst src Hk Hg; [done| |].
  - cbn in *. rewrite mergeWith_lookup, Hg. destruct (src !! p) as [sv|]; [|done].
    destruct n; simpl; [done|]. by destruct (asData sv).
  - rewrite treeGet_cons in *. cbn [dget] in *. rewrite mergeWith_lookup.
    destruct (dst !! p) as [nx|] eqn:Hp; [|done]. destruct (disMap nx) eqn:Hm; [|done].
    destruct (src !! p) as [sv|]; [|by rewrite Hm].
    destruct n as [|n]; cbn [mergeEntry]; [by rewrite Hm|].
    destruct (asData sv) as [sm|]; [|by rewrite Hm]. cbn [mbind option_bind].
    destruct (asData nx) as [o|] eqn:Hnx; [|by rewrite Hm].
    destruct (asData_live nx o) as (dm & ->); [by eapply treeGet_live|done|]. cbn [disMap].
    assert (strKeyed nx) as Hkn by (by eapply (strKeyed_child (DMapS (Some dst)))).
    apply IH; [by eapply strKeyed_asData|]. rewrite (treeGet_ext _ nx); [done|]. intros. by apply asData_get.
Qed.

(** A saved leaf lands where the message has room for it. *)
Lemma merge_restores n ow dst src ps l :
  strKeyed (DMapS (Some dst)) → strKeyed (DMapS (Some src)) → (length ps ≤ S n)%nat →
  treeGet (DMapS (Some src)) ps = Some (DLeaf l) → free (DMapS (Some dst)) ps →
  treeGet (DMapS (Some (deepMergeData n dst src ow))) ps = Some (DLeaf l).
Proof.
  unfold deepMergeData. revert n dst src. induction ps as [|p [|q rest] IH]; intros n dst src Hkd Hks Hn Hg Hf; [done| |].
  - cbn in *. rewrite mergeWith_lookup, Hg, Hf. by destruct n.
  - rewrite treeGet_cons in *. rewrite free_cons in Hf. cbn [dget] in *. rewrite mergeWith_lookup.
    destruct (src !! p) as [sv|] eqn:Hs; [|done]. destruct (disMap sv) eqn:Hm; [|done].
    destruct (dst !! p) as [nx|] eqn:Hp.
    2:{ destruct n; cbn [mergeEntry mbind option_bind]; [by rewrite Hm|]. by destruct (asData sv); rewrite Hm. }
    destruct Hf as [Hl Hf]. destruct n as [|n]; [simpl in Hn; lia|]. cbn [mergeEntry mbind option_bind].
    destruct (proj2 (asData_map sv) Hm) as [o Ho]. destruct (proj2 (asData_map nx) (live_map _ Hl)) as [o' Ho'].
    rewrite Ho, Ho'. destruct (asData_live nx o' Hl Ho') as (dm & ->).
    destruct (asData_live sv o) as (sm & ->); [by eapply treeGet_live|done|]. cbn [default disMap].
    assert (strKeyed nx) as Hkn by (by eapply (strKeyed_child (DMapS (Some dst)))).
    assert (strKeyed sv) as Hkv by (by eapply (strKeyed_child (DMapS (Some src)))).
    apply IH; [exact (strKeyed_asData _ _ Hkn Ho')|exact (strKeyed_asData _ _ Hkv Ho)|simpl in *; lia| |].
    + rewrite (treeGet_ext _ sv); [done|]. intros. by apply asData_get.
    + apply (free_ext nx); [|done]. intros. symmetry. by apply asData_get.
Qed.

(** With [overwrite], a saved leaf always lands. *)
Lemma merge_overwrites n dst src ps l :
  strKeyed (DMapS (Some dst)) → noNil (DMapS (Some dst)) → strKeyed (DMapS (Some src)) → (length ps ≤ S n)%nat →
  treeGet (DMapS (Some src)) ps = Some (DLeaf l) →
  treeGet (DMapS (Some (deepMergeData n dst src true))) ps = Some (DLeaf l).
Proof.
  unfold deepMergeData. revert n dst src. induction ps as [|p [|q rest] IH]; intros n dst src Hkd Hnd Hks Hn Hg; [done| |].
  - cbn in *. rewrite mergeWith_lookup, Hg. by destruct n, (dst !! p).
  - rewrite treeGet_cons in *. cbn [dget] in *. rewrite mergeWith_lookup.
    destruct (src !! p) as [sv|] eqn:Hs; [|done]. destruct (disMap sv) eqn:Hm; [|done].
    destruct n as [|n]; [simpl in Hn; lia|]. cbn [mergeEntry].
    destruct (proj2 (asData_map sv) Hm) as [o Ho]. rewrite Ho.
    destruct (dst !! p) as [nx|] eqn:Hp; cbn [mbind option_bind]; [|by rewrite Hm].
    destruct (asData nx) as [o'|] eqn:Ho'; [|by rewrite Hm].
    assert (noNil nx) as Hnn by (by eapply (noNil_child (DMapS (Some dst)))).
    destruct o' as [dm|]; [|destruct nx as [|[]|]; try done; by destruct (Hnn [])].
    destruct (asData_live sv o) as (sm & ->); [by eapply treeGet_live|done|]. cbn [default disMap].
    assert (strKeyed nx) as Hkn by (by eapply (strKeyed_child (DMapS (Some dst)))).
    assert (strKeyed sv) as Hkv by (by eapply (strKeyed_child (DMapS (Some src)))).
    apply IH; [exact (strKeyed_asData _ _ Hkn Ho')|exact (noNil_asData _ _ Hkn Hnn Ho')|exact (strKeyed_asData _ _ Hkv Ho)|simpl in *; lia|].
    rewrite (treeGet_ext _ sv); [done|]. intros. by apply asData_get.
Qed.

(** Where nothing was saved, a leaf the message holds survives [overwrite] too. *)
Lemma merge_keeps_free n ow dst src ps l :
  strKeyed (DMapS (Some dst)) → strKeyed (DMapS (Some src)) → (length ps ≤ S n)%nat →
  treeGet (DMapS (Some dst)) ps = Some (DLeaf l) → free (DMapS (Some src)) ps →
  treeGet (DMapS (Some (deepMergeData n dst src ow))) ps = Some (DLeaf l).
Proof.
  unfold deepMergeData. revert n dst src. induction ps as [|p [|q rest] IH]; intros n dst src Hkd Hks Hn Hg Hf; [done| |].
  - cbn in *. by rewrite mergeWith_lookup, Hf.
  - rewrite treeGet_cons in *. rewrite free_cons in Hf. cbn [dget] in *. rewrite mergeWith_lookup.
    destruct (dst !! p) as [nx|] eqn:Hp; [|done]. destruct (disMap nx) eqn:Hm; [|done].
    destruct (src !! p) as [sv|] eqn:Hs; [|by rewrite Hm]. destruct Hf as [Hl Hf].
    destruct n as [|n]; [simpl in Hn; lia|]. cbn [mergeEntry mbind option_bind].
    destruct (proj2 (asData_map sv) (live_map _ Hl)) as [o Ho]. destruct (proj2 (asData_map nx) Hm) as [o' Ho'].
    rewrite Ho, Ho'. destruct (asData_live nx o') as (dm & ->); [by eapply treeGet_live|done|].
    destruct (asData_live sv o Hl Ho) as (sm & ->). cbn [default disMap].
    assert (strKeyed nx) as Hkn by (by eapply (strKeyed_child (DMapS (Some dst)))).
    assert (strKeyed sv) as Hkv by (by eapply (strKeyed_child (DMapS (Some src)))).
    apply IH; [exact (strKeyed_asData _ _ Hkn Ho')|exact (strKeyed_asData _ _ Hkv Ho)|simpl in *; lia| |].
    + rewrite (treeGet_ext _ nx); [done|]. intros. by apply asData_get.
    + apply (free_ext sv); [|done]. intros. symmetry. by apply asData_get.
Qed.

Lemma existsb_none {A} (f : A → bool) l : (∀ x, f x = false) → existsb f l = false.
Proof. intros H. induction l; simpl; [done|]. by rewrite H. Qed.

Lemma merge_no_panic n dst src :
  strKeyed (DMapS (Some dst)) → noNil (DMapS (Some dst)) → mergePanics n dst src = false.
Proof.
  intros Hk Hn. unfold mergePanics.
  assert (∀ n d sv, (∀ x, d = Some x → strKeyed x ∧ noNil x) → entryPanics n d sv = false) as He.
  { clear. induction n as [|n IH]; intros d sv Hd; [done|]. cbn [entryPanics].
    destruct (asData sv) as [sm|]; [|done]. destruct d as [x|]; [|done]. cbn [mbind option_bind].
    destruct (Hd x eq_refl) as [Hk Hn]. destruct (asData x) as [[dm|]|] eqn:Hx; [| |done].
    - apply existsb_none. intros [k v]. simpl. apply IH. intros y Hy.
      assert (dget x k = Some y) as Hy' by (by rewrite <-(asData_get _ _ k Hk Hx)).
      split; [by eapply strKeyed_child|by eapply noNil_child].
    - destruct x as [|[]|]; try done. exfalso. by apply (Hn []). }
  apply existsb_none. intros [k v]. apply He. intros x Hx. cbn [fst] in Hx.
  split; [by eapply (strKeyed_child (DMapS (Some dst)))|by eapply (noNil_child (DMapS (Some dst)))].
Qed.

Lemma treeGet_reach d ps : ps ≠ [] → treeGet d ps = reach d ps.
Proof.
  revert d. induction ps as [|p [|q rest] IH]; intros d Hne; [done| |].
  - cbn. by destruct (dget d p).
  - rewrite treeGet_cons. change (reach d (p :: q :: rest)) with (dget d p ≫= λ nx, reach nx (q :: rest)).
    destruct (dget d p) as [nx|]; [|done]. cbn [mbind option_bind]. rewrite <-IH by done.
    destruct nx; [|done|done]. cbn. by destruct rest.
Qed.

Lemma partOf_strKeyed p m : (∃ w, p = DMapS w) → partOf p m → strKeyed m → strKeyed p.
Proof.
  intros [w ->] Hp Hm [|a ps] v k Hr; [done|]. rewrite <-treeGet_reach in Hr by done.
  destruct (Hp _ _ Hr) as (z & Hz & [<-|([? ?] & _)]); [|done]. rewrite treeGet_reach in Hz by done.
  by eapply Hm.
Qed.

Section coatcheck.
Context (ParseDuration : string → option Z) (sprint : dval → string) (uuidString : Z → string).
Context {K : Type} `{KeyValueLaws K} (Marshal : CoatMsg → option string) (Unmarshal : string → option CoatMsg).
Abbreviation extractKey := (extractKey sprint uuidString).
Abbreviation StoreProcess := (StoreProcess ParseDuration sprint uuidString Marshal).
Abbreviation RestoreProcess := (RestoreProcess sprint uuidString Unmarshal).
Abbreviation resolveTTL := (resolveTTL ParseDuration).
Implicit Types (c : Config) (m msg reply : CoatMsg) (st : CState (K:=K)).

(** What the CBOR library documents of a round trip: identity and metadata come back,
    text and byte strings come back at their path, string keys stay strings, and a path
    that led to nothing through maps still does. *)
Definition textual (l : leaf) : bool := match l with LStr _ | LBytes _ => true | _ => false end.
Definition cborFaithful : Prop :=
  ∀ m b, Marshal m = Some b → ∃ s, Unmarshal b = Some s ∧ c_FluxID s = c_FluxID m ∧ metaOf s = metaOf m ∧
    is_Some (c_Data s) ∧ (strKeyed (DMapS (c_Data m)) → strKeyed (DMapS (c_Data s))) ∧
    (∀ ps l, textual l = true → treeGet (DMapS (c_Data m)) ps = Some (DLeaf l) →
             treeGet (DMapS (c_Data s)) ps = Some (DLeaf l)) ∧
    ∀ ps, free (DMapS (c_Data m)) ps → free (DMapS (c_Data s)) ps.

(** the keys of the coat check are unambiguous: two messages get the same key
    exactly when every key field renders, after normalization, to the same text in
    both, whatever bytes the fields hold. *)
Theorem coat_key_exact c m m' k k' :
  extractKey c m = inr k → extractKey c m' = inr k' →
  k = k' ↔ keyPartsOf sprint uuidString c m (KeyFields c) = keyPartsOf sprint uuidString c m' (KeyFields c).
Proof.
  unfold Coatcheck.extractKey. case_bool_decide; [done|].
  destruct (keyPartsOf _ _ _ m _) as [|ps] eqn:E; [done|]. destruct (keyPartsOf _ _ _ m' _) as [|ps'] eqn:E'; [done|].
  intros [= <-] [= <-]. split; [|by intros [= ->]].
  intros Hk. apply RawURLEncoding_inj in Hk; [|apply toBytes_ok..].
  apply (f_equal toString) in Hk. rewrite !toString_toBytes in Hk. by rewrite (JoinKeys_inj _ _ Hk).
Qed.

(** the coat and its timer agree on when it expires: the time to live the store
    writes the entry with is the one the daemon computes from the stored coat, and it
    never exceeds the configured maximum. *)
Theorem coat_ttl_agrees c msg b s :
  is_Some (c_Data msg) → forallb plainField (ValueFields c) = true → cborFaithful →
  Marshal (coatOf uuidString c msg) = Some b → Unmarshal b = Some s →
  resolveTTL (metaOf s) (DefaultTTL c) (MaxTTL c) = resolveTTL (metaOf msg) (DefaultTTL c) (MaxTTL c) ∧
  (0 < MaxTTL c → resolveTTL (metaOf msg) (DefaultTTL c) (MaxTTL c) ≤ MaxTTL c).
Proof.
  intros Hd Hplain Hc Hm Hs. destruct (Hc _ _ Hm) as (s' & Hs' & _ & Hmeta & _). simplify_eq. split.
  - unfold Coatcheck.resolveTTL. rewrite Hmeta. unfold coatOf. case_bool_decide; [done|].
    by destruct (partialOf_spec uuidString msg (ValueFields c) Hd Hplain) as (_ & -> & _).
  - intros. unfold Coatcheck.resolveTTL.
    destruct (_ && _) eqn:E; [lia|]. apply andb_false_iff in E as [E|E]; lia.
Qed.

(** What a stored request leaves: the coat in the bucket, the stripped message emitted. *)
Lemma StoreProcess_stored c msg st st' :
  AwaitStore c = true → StoreProcess c msg st = (st', None) →
  ∃ key b r, extractKey c msg = inr key ∧ Marshal (coatOf uuidString c msg) = Some b ∧
    KVGet (kv st') (Bucket c) key = Some (Some (b, r)) ∧ emitted st' = emitted st ++ [strip c msg].
Proof.
  intros Ha. unfold Coatcheck.StoreProcess. rewrite Ha. cbn [negb].
  destruct (extractKey c msg) as [|key] eqn:Hk; [done|]. destruct (Marshal _) as [b|] eqn:Hm; [|done].
  destruct (PutWithTTL _ _ _ _ _) as [k' [rev|]] eqn:Hp; [|done]. intros [= <-].
  destruct (put_get _ _ _ _ _ _ _ Hp) as (r & Hr). exists key, b, r. done.
Qed.

(** What the gear parks of a message: the configured fields, or everything. *)
Definition parks c (f : string) : Prop := ValueFields c = [] ∨ f ∈ ValueFields c.

Lemma coatOf_spec c msg :
  is_Some (c_Data msg) → forallb plainField (ValueFields c) = true → strKeyed (DMapS (c_Data msg)) →
  let p := coatOf uuidString c msg in
  c_FluxID p = c_FluxID msg ∧ strKeyed (DMapS (c_Data p)) ∧
  ∀ f l, parks c f → readField msg f = Some (DLeaf l) → readField p f = Some (DLeaf l).
Proof.
  intros Hd Hplain Hsk. unfold coatOf, parks. case_bool_decide as Hne; [done|].
  destruct (partialOf_spec uuidString msg (ValueFields c) Hd Hplain) as ([Hpart Hlive _ _ Hid] & _ & Hcarry).
  cbv zeta. split_and!; [done| |intros f l [?|?]; [done|by apply Hcarry]].
  eapply partOf_strKeyed; [by eexists|done..].
Qed.

(** no parked field travels on: in the message a store gear emits, waiting for the
    write or not, no configured field can be read any more (the fields of the message
    envelope, such as [payload], are copied into the coat but stay on the message). *)
Theorem stored_fields_stripped c msg st st' f :
  StoreProcess c msg st = (st', None) → f ∈ ValueFields c →
  ∃ out, emitted st' = emitted st ++ [out] ∧
    (plainField f = true → GetValue uuidString out f = None) ∧
    GetValue uuidString out "payload" = GetValue uuidString msg "payload".
Proof.
  intros Hs Hf. exists (strip c msg).
  assert (emitted st' = emitted st ++ [strip c msg]) as ->.
  { revert Hs. unfold Coatcheck.StoreProcess. destruct (extractKey c msg) as [|key]; [done|].
    destruct (Marshal _) as [b|]; [|done]. destruct (negb (AwaitStore c)); [by intros [= <-]|].
    destruct (PutWithTTL _ _ _ _ _) as [k' [rev|]]; [|done]. by intros [= <-]. }
  split; [done|]. split.
  - intros Hp. rewrite GetValue_plain by done. by apply goneField_unreadable, strip_gone.
  - unfold GetValue. simpl. do 2 f_equal. f_equal. unfold strip. generalize (ValueFields c). clear.
    intros fs. revert msg. induction fs as [|g fs IH]; intros m; simpl; [done|]. rewrite IH.
    unfold deleteDotted. by repeat case_match.
Qed.

(** a failed write never loses a parked field: when the gear waits for the write
    and it fails, or the message cannot be serialized or keyed, nothing is emitted and
    the caller gets the error. *)
Theorem failed_store_emits_nothing c msg st st' e :
  StoreProcess c msg st = (st', Some e) → emitted st' = emitted st ∧ detached st' = detached st.
Proof.
  unfold Coatcheck.StoreProcess. intros Hs. repeat case_match; simplify_eq; done.
Qed.

Definition overwrites c : bool := bool_decide (MergeStrategy c = "overwrite").


(** a missing coat is never forwarded by accident: when the bucket has no entry for
    the key, or cannot be read, the reply is emitted only under the policy [forward],
    dropped in silence only under [drop], and is an error under every other setting,
    none and misspelt ones included. *)
Theorem missing_coat_fails_closed n c msg key st :
  extractKey c msg = inr key →
  KVGet (kv st) (Bucket c) key = None ∨ KVGet (kv st) (Bucket c) key = Some None →
  RestoreProcess n c msg st =
    Some (if decide (OnMissing c = "forward") then (emitMsg msg st, None)
          else if decide (OnMissing c = "drop") then (st, None)
          else (st, Some (if decide (OnMissing c = "error" ∨ OnMissing c = "") then EMissingContext key
                          else EUnknownPolicy (OnMissing c)))).
Proof.
  intros Hk Hg. unfold Coatcheck.RestoreProcess. rewrite Hk.
  assert (handleMissing c msg key st = if decide (OnMissing c = "forward") then (emitMsg msg st, None)
          else if decide (OnMissing c = "drop") then (st, None)
          else (st, Some (if decide (OnMissing c = "error" ∨ OnMissing c = "") then EMissingContext key
                          else EUnknownPolicy (OnMissing c)))) as <-; [|by destruct Hg as [-> | ->]].
  unfold handleMissing. generalize (OnMissing c) as p. intros p.
  case_bool_decide as H1; [by destruct H1 as [-> | ->]|].
  case_bool_decide; [by subst|]. case_bool_decide; [by subst|].
  by rewrite decide_False, decide_False, decide_False by done.
Qed.
End coatcheck.
