(* ===== verification/CoatcheckExample.v ===== *)
(** * The coat check on a concrete exchange

    A codec for flat messages that meets [cborFaithful], a request and its reply, and
    the instances of the theorems of CoatcheckSpec on them. *)
From Stdlib Require Import Ascii.
From S2P Require Import Prelude Bytes Amount FluxMsg Keys Tree KV Coatcheck CoatcheckSpec.
Open Scope Z_scope.

(** ** A codec for messages whose data is a flat map of strings *)

Fixpoint bits (p : positive) : string :=
  match p with xH => "" | xO p => String "0" (bits p) | xI p => String "1" (bits p) end.
Fixpoint unbits (s : string) : positive :=
  match s with
  | EmptyString => xH
  | String "0" s => xO (unbits s)
  | String _ s => xI (unbits s)
  end.

Lemma unbits_bits p : unbits (bits p) = p.
Proof. induction p; simpl; congruence. Qed.

Definition textOf (d : dval) : option string := match d with DLeaf (LStr s) => Some s | _ => None end.
Definition isText (d : dval) : bool := bool_decide (is_Some (textOf d)).

Abbreviation flat := (Z * gmap string string * gmap string string)%type.

Definition flatMarshal (m : CoatMsg) : option string :=
  match c_Data m with
  | Some d =>
      if forallb (λ kv : string * dval, isText kv.2) (map_to_list d)
      then Some (bits (encode ((c_FluxID m, metaOf m, omap textOf d) : flat)))
      else None
  | None => None
  end.

Definition flatUnmarshal (s : string) : option CoatMsg :=
  match decode (A := flat) (unbits s) with
  | Some (id, meta, d) => Some (mkCoat id 0 "" 0 (Some meta) (Some ((DLeaf ∘ LStr) <$> d)) "" 0)
  | None => None
  end.

Lemma text_roundtrip (d : dmap) :
  forallb (λ kv : string * dval, isText kv.2) (map_to_list d) = true → (DLeaf ∘ LStr) <$> omap textOf d = d.
Proof.
  intros H. apply map_eq. intros k. rewrite lookup_fmap, lookup_omap.
  destruct (d !! k) as [x|] eqn:Hx; [|done]. cbn.
  assert (isText x = true) as Ht.
  { rewrite forallb_forall in H. apply (H (k, x)), list_elem_of_In, elem_of_map_to_list. done. }
  apply bool_decide_eq_true in Ht as [s Hs]. rewrite Hs. destruct x as [[]| |]; simplify_eq/=; done.
Qed.

Lemma flat_faithful : cborFaithful flatMarshal flatUnmarshal.
Proof.
  intros m b Hm. unfold flatMarshal in Hm. destruct (c_Data m) as [d|] eqn:Hd; [|done].
  destruct (forallb _ _) eqn:Ht; [|done]. simplify_eq. unfold flatUnmarshal.
  rewrite unbits_bits, decode_encode. eexists. split; [done|]. simpl. rewrite (text_roundtrip d Ht).
  split_and!; try done; by eexists.
Qed.

(** ** An exchange *)

Definition noDuration (_ : string) : option Z := None.
Definition noSprint (_ : dval) : string := "".
Definition noUuid (_ : Z) : string := "".

Definition text (l : list (string * string)) : option dmap := Some ((DLeaf ∘ LStr) <$> (list_to_map l : gmap string string)).

Definition storeConfig : Config :=
  mkConfig ModeStore "coats" ["stan"] NormalizeNumeric true 5 ["pan"; "meta.conn"] "" "" "" 0 60 300 false.
Definition restoreConfig : Config :=
  mkConfig ModeRestore "coats" ["stan"] NormalizeNumeric true 5 [] "" "error" "" 0 60 300 false.

Definition request : CoatMsg :=
  mkCoat 7 0 "" 0 (Some {["conn" := "c1"]}) (text [("pan", "4111"); ("stan", "000123")]) "" 1.
Definition reply : CoatMsg := mkCoat 8 0 "" 0 None (text [("rc", "00"); ("stan", " 123")]) "" 2.
Definition unkeyed : CoatMsg := mkCoat 9 0 "" 0 None (text [("rc", "00")]) "" 3.

Definition start : CState (K := MockKeyValue) := mkCState (mkMock ∅) [] [].

Abbreviation store := (StoreProcess noDuration noSprint noUuid flatMarshal).
Abbreviation restore := (RestoreProcess noSprint noUuid flatUnmarshal).
Definition parked : CState := (store storeConfig request start).1.

Lemma flat_reach l ps d : reach (DMapS (text l)) ps = Some d → (d = DMapS (text l) ∧ ps = []) ∨ ∃ s, d = DLeaf (LStr s).
Proof.
  destruct ps as [|p ps]; simpl; [intros [= <-]; by left|]. rewrite lookup_fmap. intros H. right.
  destruct (_ !! p) as [s|]; [|done]. simpl in H. destruct ps; simpl in H; [|done]. simplify_eq. by exists s.
Qed.

Lemma flat_strKeyed l : strKeyed (DMapS (text l)).
Proof. intros ps m k Hr. destruct (flat_reach _ _ _ Hr) as [[? _]|[s ?]]; done. Qed.

Lemma flat_noNil l : noNil (DMapS (text l)).
Proof. intros ps Hr. destruct (flat_reach _ _ _ Hr) as [[? _]|[s ?]]; done. Qed.

Lemma parked_ok : store storeConfig request start = (parked, None).
Proof. vm_compute. reflexivity. Qed.

Definition sampleKey : string := match extractKey noSprint noUuid storeConfig request with inr k => k | inl _ => "" end.

Lemma coat_key_exact_witness :
  extractKey noSprint noUuid storeConfig request = inr sampleKey ∧
  extractKey noSprint noUuid storeConfig reply = inr sampleKey.
Proof.
  assert (extractKey noSprint noUuid storeConfig request = inr sampleKey) as H by (vm_compute; reflexivity).
  split; [exact H|]. destruct (extractKey noSprint noUuid storeConfig reply) as [|k] eqn:E; [vm_compute in E; discriminate|].
  f_equal. symmetry. apply (coat_key_exact noSprint noUuid storeConfig request reply sampleKey k H E).
  vm_compute. reflexivity.
Defined.

Lemma coat_ttl_agrees_witness :
  ∃ s, metaOf s = metaOf (coatOf noUuid storeConfig request) ∧
    resolveTTL noDuration (metaOf s) 60 300 = resolveTTL noDuration (metaOf request) 60 300.
Proof.
  destruct (flatMarshal (coatOf noUuid storeConfig request)) as [b|] eqn:Hb; [|vm_compute in Hb; discriminate].
  destruct (flat_faithful _ _ Hb) as (s & Hs & _ & Hm & _). exists s. split; [exact Hm|].
  refine (proj1 (coat_ttl_agrees noDuration noUuid flatMarshal flatUnmarshal storeConfig request b s
    _ eq_refl flat_faithful Hb Hs)). by eexists.
Defined.

Lemma stored_fields_stripped_witness :
  ∃ out, emitted parked = [out] ∧ GetValue noUuid out "pan" = None.
Proof.
  destruct (stored_fields_stripped noDuration noSprint noUuid flatMarshal storeConfig request start parked "pan" parked_ok)
    as (out & Ho & Hg & _); [left|].
  exists out. split; [exact Ho|]. apply Hg. reflexivity.
Defined.

Lemma failed_store_emits_nothing_witness :
  emitted (store storeConfig unkeyed start).1 = emitted start.
Proof.
  destruct (store storeConfig unkeyed start) as [st' [e|]] eqn:E; [|vm_compute in E; discriminate].
  exact (proj1 (failed_store_emits_nothing noDuration noSprint noUuid flatMarshal storeConfig unkeyed start st' e E)).
Defined.


Lemma missing_coat_fails_closed_witness :
  restore 3 restoreConfig reply start = Some (start, Some (EMissingContext sampleKey)).
Proof.
  rewrite (missing_coat_fails_closed noSprint noUuid flatUnmarshal 3 restoreConfig reply sampleKey start);
    [reflexivity|vm_compute; reflexivity|right; vm_compute; reflexivity].
Defined.
