(* ===== verification/CoatDaemon.v ===== *)
(** * pkg/gears/native/coatcheck/daemon.go: expiring coats

    The daemon watches the bucket and keeps one timer per key.  [Daemon] is its state
    together with what it shares with the rest of the system: the clock, the runtime's
    timers, the bucket's content and the events of the watch not delivered yet (the
    subscription delivers them in order).  A timer that fires starts its callback in a
    goroutine of its own; the callback then waits for the mutex, so firing ([Fire]) and
    running ([Run]) are two steps, and other handlers may run between them.

    [dstep] is every interleaving.  [pstep] is the one in which a callback runs as its
    timer fires; under it the daemon implements the specification [specStep], a labelled
    transition function with one deadline per key and no timers.  [dstep] alone does not:
    see [late_callback_takes_fresh_coat]. *)
From S2P Require Import Prelude Tree FluxMsg Keys Bytes Amount KV Coatcheck.
Open Scope Z_scope.

Inductive phase := Pending | Fired | Finished.
#[export] Instance phase_eq_dec : EqDecision phase.
Proof. solve_decision. Defined.

(** A timer of the runtime: [KeyTimer] with what its callback captured. *)
Record KeyTimer := mkTimer { t_key : string; t_value : string; t_due : Z; t_phase : phase }.

(** The event a timeout emits. *)
Record timeoutEvent := mkEvent {
  ev_key : string; ev_bucket : string; ev_ctx : option (option dmap); ev_src : option Z; ev_raw : option string }.

Inductive notice := NPut (key value : string) | NDel (key : string).

Record Daemon := mkDaemon {
  timers : gmap string nat;       (* d.timers *)
  wheel : gmap nat KeyTimer;      (* the runtime's timers, by creation *)
  now : Z;
  coats : gmap string string;     (* the bucket *)
  queue : list notice;            (* notices not delivered yet *)
  subscribed : bool;              (* d.sub *)
  events : list (timeoutEvent * Z);   (* emitted, with the time *)
}.

Definition setTimers (m : gmap string nat) (d : Daemon) : Daemon :=
  mkDaemon m (wheel d) (now d) (coats d) (queue d) (subscribed d) (events d).
Definition setWheel (w : gmap nat KeyTimer) (d : Daemon) : Daemon :=
  mkDaemon (timers d) w (now d) (coats d) (queue d) (subscribed d) (events d).

Definition withPhase (p : phase) (t : KeyTimer) : KeyTimer := mkTimer (t_key t) (t_value t) (t_due t) p.

(** [timer.Stop()]: a timer that already fired is not stopped. *)
Definition stopTimer (i : nat) (w : gmap nat KeyTimer) : gmap nat KeyTimer :=
  match w !! i with
  | Some t => if bool_decide (t_phase t = Pending) then <[i := withPhase Finished t]> w else w
  | None => w
  end.

(** The first timer number not in use. *)
Definition freshTimer (d : Daemon) : nat := fresh (dom (wheel d) : gset nat).

Section daemon.
Context (ParseDuration : string → option Z) (Unmarshal : string → option CoatMsg) (c : Config).

(** [cancelExpiry] *)
Definition cancelExpiry (key : string) (d : Daemon) : Daemon :=
  match timers d !! key with
  | Some i => setTimers (delete key (timers d)) (setWheel (stopTimer i (wheel d)) d)
  | None => d
  end.

(** The time to live of a stored coat; an unreadable one gets the default. *)
Definition coatTTL (value : string) : Z :=
  resolveTTL ParseDuration (match Unmarshal value with Some m => metaOf m | None => ∅ end) (DefaultTTL c) (MaxTTL c).

Definition scheduleExpiry (key value : string) (d : Daemon) : Daemon :=
  let d := cancelExpiry key d in
  let i := freshTimer d in
  setTimers (<[key := i]> (timers d))
    (setWheel (<[i := mkTimer key value (now d + coatTTL value) Pending]> (wheel d)) d).

(** The event of [handleTimeout]. *)
Definition timeoutOf (key value : string) : timeoutEvent :=
  if IncludeValues c then
    match Unmarshal value with
    | Some orig => mkEvent key (Bucket c) (Some (c_Data orig)) (Some (c_SrcGearID orig)) None
    | None => mkEvent key (Bucket c) None None (Some value)
    end
  else mkEvent key (Bucket c) None None None.

(** [KV().Delete]: the entry goes and the watch will be told. *)
Definition kvDelete (key : string) (d : Daemon) : Daemon :=
  mkDaemon (timers d) (wheel d) (now d) (delete key (coats d)) (queue d ++ [NDel key]) (subscribed d) (events d).

Definition handleTimeout (key value : string) (d : Daemon) : Daemon :=
  let d := setTimers (delete key (timers d)) d in
  let d := mkDaemon (timers d) (wheel d) (now d) (coats d) (queue d) (subscribed d)
             (events d ++ [(timeoutOf key value, now d)]) in
  kvDelete key d.

(** The watch's handler: an empty value is a deletion. *)
Definition deliver (n : notice) (d : Daemon) : Daemon :=
  match n with
  | NPut key value => if bool_decide (value = "") then cancelExpiry key d else scheduleExpiry key value d
  | NDel key => cancelExpiry key d
  end.

(** [Stop]: unsubscribe, stop and forget every timer. *)
Definition Stop (d : Daemon) : Daemon :=
  mkDaemon ∅ (foldr (λ kv w, stopTimer kv.2 w) (wheel d) (map_to_list (timers d)))
    (now d) (coats d) (queue d) false (events d).

Definition popQueue (d : Daemon) : Daemon :=
  mkDaemon (timers d) (wheel d) (now d) (coats d) (tail (queue d)) (subscribed d) (events d).

(** A coat is written by a store gear: the bucket changes, the watch will be told. *)
Definition writeCoat (key value : string) (d : Daemon) : Daemon :=
  mkDaemon (timers d) (wheel d) (now d) (<[key := value]> (coats d)) (queue d ++ [NPut key value]) (subscribed d) (events d).

Definition tick (t : Z) (d : Daemon) : Daemon :=
  mkDaemon (timers d) (wheel d) t (coats d) (queue d) (subscribed d) (events d).

(** ** The steps *)

Inductive action :=
| Write (key value : string) | Deliver | Tick (t : Z) | Fire (i : nat) | Run (i : nat) | Halt.

Definition fireTimer (i : nat) (d : Daemon) : option Daemon :=
  match wheel d !! i with
  | Some t => if bool_decide (t_phase t = Pending ∧ t_due t ≤ now d)
              then Some (setWheel (<[i := withPhase Fired t]> (wheel d)) d) else None
  | None => None
  end.

Definition runTimer (i : nat) (d : Daemon) : option Daemon :=
  match wheel d !! i with
  | Some t => if bool_decide (t_phase t = Fired)
              then Some (handleTimeout (t_key t) (t_value t) (setWheel (<[i := withPhase Finished t]> (wheel d)) d))
              else None
  | None => None
  end.

(** One step of any interleaving, [None] when the action is not possible. *)
Definition dstep (a : action) (d : Daemon) : option Daemon :=
  match a with
  | Write key value => Some (writeCoat key value d)
  | Deliver =>
      match queue d with
      | n :: _ => if subscribed d then Some (deliver n (popQueue d)) else None
      | [] => None
      end
  | Tick t => if now d <=? t then Some (tick t d) else None
  | Fire i => fireTimer i d
  | Run i => runTimer i d
  | Halt => Some (Stop d)
  end.

Fixpoint dsteps (l : list action) (d : Daemon) : option Daemon :=
  match l with [] => Some d | a :: l => dstep a d ≫= dsteps l end.

Definition startDaemon (t : Z) : Daemon := mkDaemon ∅ ∅ t ∅ [] true [].

(** Steps in which a callback runs as soon as its timer fires. *)
Definition prompt (a : action) (d : Daemon) : option Daemon :=
  match a with
  | Fire i => fireTimer i d ≫= runTimer i
  | Run _ => None
  | a => dstep a d
  end.

Inductive pstep : Daemon → Daemon → Prop := p_step a d d' : prompt a d = Some d' → pstep d d'.
End daemon.

(** ** What the daemon promises *)

Section spec.
Context (ParseDuration : string → option Z) (Unmarshal : string → option CoatMsg) (c : Config).
Abbreviation coatTTL := (coatTTL ParseDuration Unmarshal c).
Abbreviation timeoutOf := (timeoutOf Unmarshal c).
Abbreviation dstep := (dstep ParseDuration Unmarshal c).
Abbreviation dsteps := (dsteps ParseDuration Unmarshal c).
Abbreviation prompt := (prompt ParseDuration Unmarshal c).
Abbreviation deliver := (deliver ParseDuration Unmarshal c).
Abbreviation scheduleExpiry := (scheduleExpiry ParseDuration Unmarshal c).
Implicit Types (d : Daemon) (k v : string) (i : nat) (t : KeyTimer).

(** ** The specification: one deadline per key *)

Abbreviation deadlines := (gmap string (string * Z)).

(** The value and the deadline of each key, the clock, the bucket, the notices of it to
    come, whether they are listened to, and the timeouts emitted. *)
Record Deadlines := mkDeadlines {
  sp_deadlines : deadlines; sp_now : Z; sp_coats : gmap string string;
  sp_notices : list notice; sp_listening : bool; sp_events : list (timeoutEvent * Z) }.

Inductive label := LWrite (key value : string) | LNotice | LTime (t : Z) | LExpire (key : string) | LHalt.

(** A notice of a value sets the key's deadline, one of a deletion (or of an empty value)
    clears it. *)
Definition noticed (time : Z) (n : notice) (m : deadlines) : deadlines :=
  match n with
  | NPut k v => if bool_decide (v = "") then delete k m else <[k := (v, time + coatTTL v)]> m
  | NDel k => delete k m
  end.

(** Each label has one step, where it is enabled.  A key expires at or after its
    deadline: its timeout is emitted, the deadline and the coat go, and the bucket will
    tell of the deletion. *)
Definition specStep (l : label) (s : Deadlines) : option Deadlines :=
  match l with
  | LWrite k v => Some (mkDeadlines (sp_deadlines s) (sp_now s) (<[k := v]> (sp_coats s))
                          (sp_notices s ++ [NPut k v]) (sp_listening s) (sp_events s))
  | LNotice =>
      match sp_notices s with
      | n :: q => if sp_listening s
                  then Some (mkDeadlines (noticed (sp_now s) n (sp_deadlines s)) (sp_now s) (sp_coats s) q true (sp_events s))
                  else None
      | [] => None
      end
  | LTime t => if sp_now s <=? t
               then Some (mkDeadlines (sp_deadlines s) t (sp_coats s) (sp_notices s) (sp_listening s) (sp_events s)) else None
  | LExpire k =>
      match sp_deadlines s !! k with
      | Some (v, due) =>
          if due <=? sp_now s
          then Some (mkDeadlines (delete k (sp_deadlines s)) (sp_now s) (delete k (sp_coats s))
                       (sp_notices s ++ [NDel k]) (sp_listening s) (sp_events s ++ [(timeoutOf k v, sp_now s)]))
          else None
      | None => None
      end
  | LHalt => Some (mkDeadlines ∅ (sp_now s) (sp_coats s) (sp_notices s) false (sp_events s))
  end.

(** The deadlines a daemon keeps. *)
Definition deadlineOf (w : gmap nat KeyTimer) (i : nat) : option (string * Z) :=
  t ← w !! i; Some (t_value t, t_due t).
Definition deadlinesOf d : deadlines := omap (deadlineOf (wheel d)) (timers d).

(** A daemon's state and its steps, as the specification has them. *)
Definition specOf d : Deadlines :=
  mkDeadlines (deadlinesOf d) (now d) (coats d) (queue d) (subscribed d) (events d).
Definition labelOf d (a : action) : label :=
  match a with
  | Write k v => LWrite k v
  | Deliver => LNotice
  | Tick t => LTime t
  | Fire i | Run i => LExpire (default "" (t_key <$> wheel d !! i))
  | Halt => LHalt
  end.

(** Each key's entry is its one pending timer. *)
Record pinv d : Prop := {
  pinv_entry : ∀ k i, timers d !! k = Some i →
    ∃ t, wheel d !! i = Some t ∧ t_key t = k ∧ t_phase t = Pending;
  pinv_pending : ∀ i t, wheel d !! i = Some t → t_phase t = Pending → timers d !! t_key t = Some i;
  pinv_fired : ∀ i t, wheel d !! i = Some t → t_phase t ≠ Fired;
}.

Lemma pinv_start time : pinv (startDaemon time).
Proof. split; intros *; simpl; by rewrite lookup_empty. Qed.

(** Only [timers] and [wheel] matter. *)
Lemma pinv_ext d d' : timers d' = timers d → wheel d' = wheel d → pinv d → pinv d'.
Proof. intros Ht Hw [A B C]. split; rewrite ?Ht, ?Hw; done. Qed.

Lemma deadlines_ext d d' : timers d' = timers d → wheel d' = wheel d → deadlinesOf d' = deadlinesOf d.
Proof. intros Ht Hw. unfold deadlinesOf. by rewrite Ht, Hw. Qed.

(** Distinct keys have distinct timers. *)
Lemma pinv_inj d k k' i : pinv d → timers d !! k = Some i → timers d !! k' = Some i → k = k'.
Proof.
  intros Hi H1 H2. destruct (pinv_entry _ Hi _ _ H1) as (t & Ht & <- & _).
  destruct (pinv_entry _ Hi _ _ H2) as (t' & Ht' & <- & _). congruence.
Qed.

(** Dropping a key together with its timer. *)
Lemma drop_key d k i t t' :
  pinv d → timers d !! k = Some i → wheel d !! i = Some t → t_key t' = t_key t → t_phase t' = Finished →
  let d' := setTimers (delete k (timers d)) (setWheel (<[i := t']> (wheel d)) d) in
  pinv d' ∧ deadlinesOf d' = delete k (deadlinesOf d).
Proof.
  intros Hi Hk Ht Hkey Hp. pose proof (pinv_entry _ Hi _ _ Hk) as (t0 & Ht0 & Hk0 & _). simplify_eq. split.
  - split; simpl.
    + intros k j [Hne Hj]%lookup_delete_Some. destruct (pinv_entry _ Hi _ _ Hj) as (tj & Hw & ? & ?).
      exists tj. rewrite lookup_insert_ne; [done|]. intros ->. congruence.
    + intros j tj [[<- <-]|[Hne Hj]]%lookup_insert_Some Hpj; [congruence|].
      rewrite lookup_delete_ne; [by eapply pinv_pending|]. intros E.
      pose proof (pinv_pending _ Hi _ _ Hj Hpj) as Hj'. rewrite <-E in Hj'. congruence.
    + intros j tj [[<- <-]|[Hne Hj]]%lookup_insert_Some; [congruence|]. by eapply pinv_fired.
  - apply map_eq. intros k. unfold deadlinesOf; simpl. rewrite lookup_omap.
    destruct (decide (k = t_key t)) as [->|Hne]; [by rewrite !lookup_delete_eq|].
    rewrite !lookup_delete_ne, lookup_omap by done. destruct (timers d !! k) as [j|] eqn:Hj; [|done]. simpl.
    unfold deadlineOf. rewrite lookup_insert_ne; [done|]. intros ->. apply Hne. by eapply pinv_inj.
Qed.

Lemma cancel_ok d k :
  pinv d → pinv (cancelExpiry k d) ∧ deadlinesOf (cancelExpiry k d) = delete k (deadlinesOf d) ∧
    timers (cancelExpiry k d) !! k = None.
Proof.
  intros Hi. unfold cancelExpiry. destruct (timers d !! k) as [i|] eqn:Hk.
  - destruct (pinv_entry _ Hi _ _ Hk) as (t & Ht & Hkey & Hp). unfold stopTimer.
    rewrite Ht, bool_decide_eq_true_2 by done.
    destruct (drop_key d k i t (withPhase Finished t) Hi Hk Ht) as [A B]; [done..|].
    split_and!; [done|done|]. simpl. apply lookup_delete_eq.
  - split_and!; [done| |done]. rewrite delete_id; [done|]. unfold deadlinesOf. by rewrite lookup_omap, Hk.
Qed.

Lemma schedule_ok d k v :
  pinv d → pinv (scheduleExpiry k v d) ∧
    deadlinesOf (scheduleExpiry k v d) = <[k := (v, now d + coatTTL v)]> (deadlinesOf d).
Proof.
  intros Hi. destruct (cancel_ok d k Hi) as (Hi1 & Hd1 & Hk1). unfold CoatDaemon.scheduleExpiry.
  assert (now (cancelExpiry k d) = now d) as Hnow by (unfold cancelExpiry; by case_match). rewrite Hnow.
  set (d1 := cancelExpiry k d) in *. set (i := freshTimer d1).
  assert (wheel d1 !! i = None) as Hfresh by (apply not_elem_of_dom, (is_fresh (dom (wheel d1) : gset nat))). split.
  - split; simpl.
    + intros k' j [[<- <-]|[Hne Hj]]%lookup_insert_Some.
      * eexists. by rewrite lookup_insert_eq.
      * destruct (pinv_entry _ Hi1 _ _ Hj) as (t & Ht & ? & ?). exists t.
        rewrite lookup_insert_ne; [done|]. intros <-. congruence.
    + intros j t [[<- <-]|[Hne Hj]]%lookup_insert_Some Hp; simpl; [by rewrite lookup_insert_eq|].
      pose proof (pinv_pending _ Hi1 _ _ Hj Hp) as Hj'. rewrite lookup_insert_ne; [done|]. intros E. congruence.
    + intros j t [[<- <-]|[Hne Hj]]%lookup_insert_Some; [done|]. by eapply pinv_fired.
  - apply map_eq. intros k'. destruct (decide (k' = k)) as [->|Hne].
    + rewrite lookup_insert_eq. unfold deadlinesOf; simpl. rewrite lookup_omap, lookup_insert_eq. simpl.
      unfold deadlineOf. by rewrite lookup_insert_eq.
    + rewrite lookup_insert_ne by done.
      transitivity (deadlinesOf d1 !! k'); [|rewrite Hd1; by rewrite lookup_delete_ne].
      unfold deadlinesOf; simpl. rewrite !lookup_omap, lookup_insert_ne by done.
      destruct (timers d1 !! k') as [j|] eqn:Hj; [|done]. simpl.
      unfold deadlineOf. rewrite lookup_insert_ne; [done|]. intros <-.
      destruct (pinv_entry _ Hi1 _ _ Hj) as (t & Ht & _). congruence.
Qed.

(** [Stop] leaves no timer pending. *)
Lemma stopTimer_lookup i j w t :
  stopTimer i w !! j = Some t →
  ∃ t', w !! j = Some t' ∧ (t = t' ∨ t = withPhase Finished t') ∧
    (i = j → t_phase t ≠ Pending).
Proof.
  unfold stopTimer. destruct (w !! i) as [u|] eqn:Hi; [case_bool_decide as Hp|]; intros Hj.
  - apply lookup_insert_Some in Hj as [[<- <-]|[Hne Hj]]; [exists u; split_and!; [done|by right|done]|].
    exists t. split_and!; [done|by left|done].
  - exists t. split_and!; [done|by left|]. intros <-. by simplify_eq.
  - exists t. split_and!; [done|by left|]. intros <-. congruence.
Qed.

Lemma stopAll_lookup (l : list (string * nat)) w j t :
  foldr (λ kv w, stopTimer kv.2 w) w l !! j = Some t →
  ∃ t', w !! j = Some t' ∧ (t = t' ∨ t = withPhase Finished t') ∧ (j ∈ l.*2 → t_phase t ≠ Pending).
Proof.
  revert t. induction l as [|[k i] l IH]; intros t; simpl; intros Hj.
  - exists t. split_and!; [done|by left|]. intros Hn. by apply elem_of_nil in Hn.
  - apply stopTimer_lookup in Hj as (t1 & H1 & Hc & Hi). destruct (IH _ H1) as (t' & H' & Hc' & Hl).
    exists t'. split_and!; [done| |].
    + destruct Hc as [-> | ->], Hc' as [-> | ->]; auto.
    + intros [->|Hin]%elem_of_cons; [by apply Hi|]. specialize (Hl Hin). by destruct Hc as [-> | ->].
Qed.

Lemma halt_ok d : pinv d → pinv (Stop d) ∧ deadlinesOf (Stop d) = ∅.
Proof.
  intros Hi. split; [|done]. split; simpl; [intros k i; by rewrite lookup_empty| |].
  - intros i t (t' & Ht & Hc & Hin)%stopAll_lookup Hp. exfalso. revert Hp.
    destruct Hc as [-> | ->]; [|done]. intros Hp. refine (Hin _ Hp).
    apply list_elem_of_fmap. exists (t_key t', i). split; [done|]. apply elem_of_map_to_list.
    by apply pinv_pending.
  - intros i t (t' & Ht & [-> | ->] & _)%stopAll_lookup; [by eapply pinv_fired|done].
Qed.

Lemma cancel_rest k d : now (cancelExpiry k d) = now d ∧ coats (cancelExpiry k d) = coats d ∧
  queue (cancelExpiry k d) = queue d ∧ subscribed (cancelExpiry k d) = subscribed d ∧ events (cancelExpiry k d) = events d.
Proof. unfold cancelExpiry. by destruct (timers d !! k). Qed.

(** A notice does to the deadlines what it says, and to nothing else. *)
Lemma deliver_ok n d :
  pinv d → pinv (deliver n d) ∧
  specOf (deliver n d) = mkDeadlines (noticed (now d) n (deadlinesOf d)) (now d) (coats d) (queue d) (subscribed d) (events d).
Proof.
  intros Hi. assert (∀ k, pinv (cancelExpiry k d) ∧
    specOf (cancelExpiry k d) = mkDeadlines (delete k (deadlinesOf d)) (now d) (coats d) (queue d) (subscribed d) (events d)) as Hc.
  { intros k. destruct (cancel_ok d k Hi) as (A & B & _). destruct (cancel_rest k d) as (E1 & E2 & E3 & E4 & E5).
    split; [done|]. unfold specOf. by rewrite B, E1, E2, E3, E4, E5. }
  destruct n as [k v|k]; cbn [CoatDaemon.deliver noticed]; [|apply Hc]. case_bool_decide as Hv; [apply Hc|].
  destruct (schedule_ok d k v Hi) as [A B]. split; [done|]. unfold specOf. rewrite B.
  destruct (cancel_rest k d) as (E1 & E2 & E3 & E4 & E5). unfold CoatDaemon.scheduleExpiry. simpl. by rewrite E1, E2, E3, E4, E5.
Qed.

(** A callback that runs as its timer fires. *)
Lemma deadline_expire_ok d i t :
  pinv d → wheel d !! i = Some t → t_phase t = Pending → t_due t ≤ now d →
  ∃ d', fireTimer i d ≫= runTimer Unmarshal c i = Some d' ∧ pinv d' ∧
    specOf d' = mkDeadlines (delete (t_key t) (deadlinesOf d)) (now d) (delete (t_key t) (coats d))
                  (queue d ++ [NDel (t_key t)]) (subscribed d) (events d ++ [(timeoutOf (t_key t) (t_value t), now d)]).
Proof.
  intros Hi Ht Hp Hdue. unfold fireTimer, runTimer. rewrite Ht, bool_decide_eq_true_2 by done. simpl.
  rewrite lookup_insert_eq. simpl. rewrite insert_insert_eq. eexists. split; [done|].
  pose proof (pinv_pending _ Hi _ _ Ht Hp) as Hk.
  destruct (drop_key d (t_key t) i t (withPhase Finished (withPhase Fired t)) Hi Hk Ht) as [A B]; [done..|].
  split; [by eapply (pinv_ext (setTimers _ _)); [..|exact A]|]. unfold specOf. simpl. f_equal. exact B.
Qed.

Lemma pending_deadline d i t :
  pinv d → wheel d !! i = Some t → t_phase t = Pending → deadlinesOf d !! t_key t = Some (t_value t, t_due t).
Proof.
  intros Hi Ht Hp. unfold deadlinesOf. rewrite lookup_omap, (pinv_pending _ Hi _ _ Ht Hp). simpl.
  unfold deadlineOf. by rewrite Ht.
Qed.

(** One prompt step is the step of its label in the specification. *)
Lemma prompt_ok a d d' :
  pinv d → prompt a d = Some d' → pinv d' ∧ specStep (labelOf d a) (specOf d) = Some (specOf d').
Proof.
  intros Hi Hs. destruct a as [k v| |time|i|i|]; simpl in Hs.
  - simplify_eq. split; [by apply (pinv_ext d)|done].
  - simpl. destruct (queue d) as [|n q] eqn:Hq; [done|]. destruct (subscribed d) eqn:Hu; [|done]. simplify_eq.
    assert (pinv (popQueue d)) as Hi' by by apply (pinv_ext d).
    destruct (deliver_ok n _ Hi') as [A ->]. split; [done|]. simpl. by rewrite Hq, Hu.
  - simpl. destruct (now d <=? time); [|done]. simplify_eq. split; [by apply (pinv_ext d)|done].
  - destruct (wheel d !! i) as [t|] eqn:Ht; [|unfold fireTimer in Hs; by rewrite Ht in Hs].
    destruct (decide (t_phase t = Pending ∧ t_due t ≤ now d)) as [[Hp Hdue]|Hn].
    2:{ unfold fireTimer in Hs. by rewrite Ht, bool_decide_eq_false_2 in Hs. }
    destruct (deadline_expire_ok d i t Hi Ht Hp Hdue) as (d1 & H1 & A & B). rewrite Hs in H1. injection H1 as <-. split; [done|].
    pose proof (pending_deadline d i t Hi Ht Hp) as Hk. apply Z.leb_le in Hdue. rewrite B. unfold labelOf. rewrite Ht.
    cbn [fmap option_fmap option_map default from_option id specStep specOf sp_deadlines sp_now]. rewrite Hk, Hdue. done.
  - done.
  - simplify_eq. destruct (halt_ok d Hi) as [A B]. split; [done|]. simpl. unfold specOf. by rewrite B.
Qed.

(** A step the specification allows is one the daemon can take. *)
Lemma prompt_enabled l d s' :
  pinv d → specStep l (specOf d) = Some s' → ∃ a d', labelOf d a = l ∧ prompt a d = Some d'.
Proof.
  intros Hi Hs. destruct l as [k v| |t|k|]; simpl in Hs.
  - by exists (Write k v), (writeCoat k v d).
  - exists Deliver. simpl. destruct (queue d); [done|]. destruct (subscribed d); [|done]. by eexists.
  - exists (Tick t), (tick t d). simpl. by destruct (now d <=? t).
  - destruct (deadlinesOf d !! k) as [[v due]|] eqn:Hk; [|done]. destruct (Z.leb_spec due (now d)) as [Hdue|]; [|done].
    unfold deadlinesOf in Hk. rewrite lookup_omap in Hk. destruct (timers d !! k) as [i|] eqn:Hj; [|done]. simpl in Hk.
    destruct (pinv_entry _ Hi _ _ Hj) as (t & Ht & Hkey & Hp). unfold deadlineOf in Hk. rewrite Ht in Hk. simplify_eq/=.
    destruct (deadline_expire_ok d i t Hi Ht Hp Hdue) as (d' & H1 & _). exists (Fire i), d'. simpl. by rewrite Ht.
  - by exists Halt, (Stop d).
Qed.

Lemma prompt_inv d d' : pinv d → rtc (pstep ParseDuration Unmarshal c) d d' → pinv d'.
Proof. intros H0 Hr. induction Hr as [|d0 d1 d2 [b ? ? Hb] _ IH]; [done|]. apply IH. by eapply prompt_ok. Qed.


(** ** Every interleaving *)

(** [value] was announced for [key] at [time], during the run [l]. *)
Definition announced (l : list action) d0 (key value : string) (time : Z) : Prop :=
  ∃ l1 l2 d1 q, l = l1 ++ Deliver :: l2 ∧ dsteps l1 d0 = Some d1 ∧ queue d1 = NPut key value :: q ∧ now d1 = time.

Lemma announced_snoc l a d0 key value time : announced l d0 key value time → announced (l ++ [a]) d0 key value time.
Proof.
  intros (l1 & l2 & d1 & q & -> & ?). exists l1, (l2 ++ [a]), d1, q. by rewrite <-app_assoc.
Qed.

Lemma dsteps_snoc l a d : dsteps (l ++ [a]) d = dsteps l d ≫= dstep a.
Proof.
  revert d. induction l as [|b l IH]; intros d; simpl; [by destruct (dstep a d)|].
  destruct (dstep b d); simpl; auto.
Qed.

(** Where timers and timeouts come from. *)
Record origins (l : list action) d0 d : Prop := {
  or_timer : ∀ i t, wheel d !! i = Some t →
    ∃ time, announced l d0 (t_key t) (t_value t) time ∧ t_due t = time + coatTTL (t_value t) ∧
      (t_phase t = Fired → t_due t ≤ now d);
  or_event : ∀ e time, (e, time) ∈ events d →
    ∃ key value time0, e = timeoutOf key value ∧ announced l d0 key value time0 ∧
      time0 + coatTTL value ≤ time ∧ time ≤ now d;
}.

(** A new timer, or one of the old ones, at most further along. *)
Definition timer_from d t : Prop :=
  ∃ i t0, wheel d !! i = Some t0 ∧ (t = t0 ∨ t = withPhase Finished t0).

Lemma cancel_wheel d k i t : wheel (cancelExpiry k d) !! i = Some t → timer_from d t.
Proof.
  unfold cancelExpiry. destruct (timers d !! k); simpl; [|intros; by exists i, t; auto].
  intros (t' & ? & ? & _)%stopTimer_lookup. by exists i, t'.
Qed.

Lemma origins_timer_from l d0 d t :
  origins l d0 d → timer_from d t →
  ∃ time, announced l d0 (t_key t) (t_value t) time ∧ t_due t = time + coatTTL (t_value t) ∧
    (t_phase t = Fired → t_due t ≤ now d).
Proof.
  intros Ho (i & t0 & Ht & Hc). destruct (or_timer _ _ _ Ho _ _ Ht) as (time & A & B & C).
  exists time. by destruct Hc as [-> | ->].
Qed.

(** Events and timers that a step leaves alone keep their origin. *)
Lemma origins_step l a d0 d d' :
  origins l d0 d → now d ≤ now d' → events d' = events d →
  (∀ i t, wheel d' !! i = Some t →
     timer_from d t ∨
     ∃ time, announced (l ++ [a]) d0 (t_key t) (t_value t) time ∧ t_due t = time + coatTTL (t_value t) ∧
       (t_phase t = Fired → t_due t ≤ now d')) →
  origins (l ++ [a]) d0 d'.
Proof.
  intros Ho Hn He Hw. split.
  - intros i t Ht. destruct (Hw i t Ht) as [Hf|?]; [|done].
    destruct (origins_timer_from _ _ _ _ Ho Hf) as (time & A & B & C). exists time.
    split_and!; [by apply announced_snoc|done|]. intros. etrans; [by apply C|done].
  - intros e time. rewrite He. intros Hin. destruct (or_event _ _ _ Ho _ _ Hin) as (k & v & t0 & ? & ? & ? & ?).
    exists k, v, t0. split_and!; [done|by apply announced_snoc|done|lia].
Qed.

Lemma origins_dsteps l d0 d :
  wheel d0 = ∅ → events d0 = [] → dsteps l d0 = Some d → origins l d0 d.
Proof.
  intros Hw0 He0. revert d. induction l as [|a l IH] using rev_ind; intros d.
  { intros [= <-]. split; [rewrite Hw0; intros i t; by rewrite lookup_empty|].
    rewrite He0. intros e time Hin. by apply elem_of_nil in Hin. }
  rewrite dsteps_snoc. destruct (dsteps l d0) as [d1|] eqn:Hl; [|done]. simpl. specialize (IH d1 eq_refl).
  assert (∀ i t, wheel d1 !! i = Some t → timer_from d1 t) as Hsame by (intros i t ?; exists i, t; auto).
  intros Hs. destruct a as [k v| |time|i|i|]; simpl in Hs.
  - simplify_eq. apply (origins_step l _ d0 d1); [done..|]. simpl. eauto.
  - destruct (queue d1) as [|n q] eqn:Hq; [done|]. destruct (subscribed d1); [|done]. simplify_eq.
    assert (∀ k, now (cancelExpiry k (popQueue d1)) = now d1 ∧ events (cancelExpiry k (popQueue d1)) = events d1)
      as Hce by (intros k; unfold cancelExpiry; by case_match).
    assert (∀ k, origins (l ++ [Deliver]) d0 (cancelExpiry k (popQueue d1))) as Hcancel.
    { intros k. destruct (Hce k) as [A B]. apply (origins_step l _ d0 d1); [done|lia|done|].
      intros i t Ht. left. by apply cancel_wheel in Ht. }
    destruct n as [k v|k]; [|apply Hcancel]. cbn [CoatDaemon.deliver]. case_bool_decide as Hv; [apply Hcancel|].
    destruct (Hce k) as [A B]. apply (origins_step l _ d0 d1); [done|simpl; lia|done|].
    intros i t. simpl. intros [[<- <-]|[_ Ht]]%lookup_insert_Some; [right|left; by apply cancel_wheel in Ht].
    exists (now d1). simpl. rewrite A. split_and!; [|done|done]. exists l, [], d1, q. done.
  - case_match; [|done]. simplify_eq. apply (origins_step l _ d0 d1); [done|simpl; lia|done|]. simpl. eauto.
  - unfold fireTimer in Hs. destruct (wheel d1 !! i) as [t|] eqn:Ht; [|done]. case_bool_decide as Hp; [|done].
    simplify_eq. apply (origins_step l _ d0 d1); [done..|]. simpl.
    intros j tj [[<- <-]|[_ ?]]%lookup_insert_Some; [right|eauto].
    destruct (or_timer _ _ _ IH _ _ Ht) as (time & A & B & C). exists time. simpl.
    split_and!; [by apply announced_snoc|done|naive_solver].
  - unfold runTimer in Hs. destruct (wheel d1 !! i) as [t|] eqn:Ht; [|done]. case_bool_decide as Hp; [|done].
    simplify_eq. destruct (or_timer _ _ _ IH _ _ Ht) as (time & A & B & C). split; simpl.
    + intros j tj [[<- <-]|[_ Hj]]%lookup_insert_Some; [exists time; split_and!; [by apply announced_snoc|done|done]|].
      destruct (or_timer _ _ _ IH _ _ Hj) as (time' & ? & ? & ?). exists time'. split_and!; [by apply announced_snoc|done|done].
    + intros e te [Hin|Hin]%elem_of_app.
      * destruct (or_event _ _ _ IH _ _ Hin) as (k & v & t0 & ? & ? & ? & ?). exists k, v, t0.
        split_and!; [done|by apply announced_snoc|done|done].
      * apply list_elem_of_singleton in Hin. simplify_eq. exists (t_key t), (t_value t), time.
        specialize (C Hp). split_and!; [done|by apply announced_snoc|lia|done].
  - simplify_eq. apply (origins_step l _ d0 d1); [done..|]. simpl.
    intros j t (t' & ? & ? & _)%stopAll_lookup. left. by exists j, t'.
Qed.

(** in every interleaving, no coat times out early: each timeout the daemon emits is
    for a coat whose write it was told of, at least that coat's time to live before. *)
Theorem timeout_never_early l time d e te :
  dsteps l (startDaemon time) = Some d → (e, te) ∈ events d →
  ∃ key value told, e = timeoutOf key value ∧ announced l (startDaemon time) key value told ∧
    told + coatTTL value ≤ te ≤ now d.
Proof.
  intros Hl Hin. destruct (origins_dsteps l (startDaemon time) d eq_refl eq_refl Hl) as [_ Hev].
  destruct (Hev _ _ Hin) as (k & v & t0 & ? & ? & ? & ?). exists k, v, t0. auto.
Qed.

End spec.

(** ** The race *)

Definition daemonConfig : Config :=
  mkConfig ModeDaemon "coats" [] NormalizeTrim true 5 [] "" "" "" 0 60 300 false.
Definition noDuration (_ : string) : option Z := None.
Definition noDecode (_ : string) : option CoatMsg := None.

(** The key's timer fires at 60; before its callback gets the mutex the key is written
    again and the daemon told. *)
Definition raceStart : list action := [Write "k" "old"; Deliver; Tick 60; Fire 0; Write "k" "new"; Deliver].

Abbreviation run := (dsteps noDuration noDecode daemonConfig).

(** a late callback takes a fresh coat: after a key is written again between its
    timer's firing and the callback, the callback deletes the new coat, 60 seconds before
    its deadline, and forgets the new timer, which stays armed and emits a second
    timeout for the coat that is gone. *)
Theorem late_callback_takes_fresh_coat :
  ∃ d d', run (raceStart ++ [Run 0]) (startDaemon 0) = Some d ∧
    announced noDuration noDecode daemonConfig raceStart (startDaemon 0) "k" "new" 60 ∧
    coatTTL noDuration noDecode daemonConfig "new" = 60 ∧ now d = 60 ∧
    coats d !! "k" = None ∧ timers d !! "k" = None ∧
    run [Deliver; Tick 120; Fire 1; Run 1] d = Some d' ∧ map fst (events d') =
      [timeoutOf noDecode daemonConfig "k" "old"; timeoutOf noDecode daemonConfig "k" "new"].
Proof.
  do 2 eexists. split; [vm_compute; reflexivity|]. split.
  - exists [Write "k" "old"; Deliver; Tick 60; Fire 0; Write "k" "new"], []. do 2 eexists.
    split; [reflexivity|]. split; [vm_compute; reflexivity|]. split; reflexivity.
  - split_and!; vm_compute; reflexivity.
Qed.


Lemma timeout_never_early_witness :
  ∃ d key value told, run [Write "k" "v"; Deliver; Tick 70; Fire 0; Run 0] (startDaemon 0) = Some d ∧
    announced noDuration noDecode daemonConfig [Write "k" "v"; Deliver; Tick 70; Fire 0; Run 0] (startDaemon 0) key value told ∧
    told + coatTTL noDuration noDecode daemonConfig value <= 70.
Proof.
  destruct (run [Write "k" "v"; Deliver; Tick 70; Fire 0; Run 0] (startDaemon 0)) as [d|] eqn:E; [|vm_compute in E; discriminate].
  destruct (timeout_never_early noDuration noDecode daemonConfig [Write "k" "v"; Deliver; Tick 70; Fire 0; Run 0] 0 d
    (timeoutOf noDecode daemonConfig "k" "v") 70 E) as (key & value & told & _ & Ha & Hb & _).
  - vm_compute in E. simplify_eq. simpl. left.
  - exists d, key, value, told. auto.
Defined.
