(* ===== verification/Scenario.v ===== *)
(** * pkg/registry/scenario.go: what makes a scenario sound

    [Validate] with its loops over racks, gears, event readers and wires, in the order of
    the code, each returning its first error.  [scenario_ok] says the same declaratively
    and [validate_exact] that they agree.  On an accepted scenario the wiring decisions
    of Routes.v are sound. *)
From Stdlib Require Import Ascii.
From S2P Require Import Prelude FluxMsg Tree Routes.

(** ** The scenario *)

(** [rt_labels] is the number of match labels, 0 when there is no match;
    [rt_defaults] whether [Defaults] is set. *)
Record RackTarget := mkRack { rt_Name : string; rt_Group : string; rt_labels : nat; rt_defaults : bool }.

(** A gear of the file: what the runtime wires by ([Routes.GearSpec]) and its config. *)
Record GearDecl := mkDecl { gd_spec : GearSpec; gd_Config : list (string * cfgval) }.

Record ScenarioFile := mkFile {
  sf_Version : string; sf_Racks : list RackTarget; sf_Gears : list GearDecl; sf_Wires : list WireSpec }.

(** What the runtime reads of it. *)
Definition topology (s : ScenarioFile) : Scenario := mkScenario (gd_spec <$> sf_Gears s) (sf_Wires s).

Definition LaneHot : string := "hot".

Definition gname (g : GearDecl) : string := Name (gd_spec g).

(** ** Names *)

(** [[a-z0-9_-]] *)
Definition nameChar (c : ascii) : bool :=
  let n := N_of_ascii c in
  ((97 <=? n) && (n <=? 122) || (48 <=? n) && (n <=? 57) || (n =? 95) || (n =? 45))%N.

Fixpoint allNameChars (s : string) : bool :=
  match s with EmptyString => true | String c s => nameChar c && allNameChars s end.

(** [nameRegex] *)
Definition isValidName (s : string) : bool := negb (bool_decide (s = "")) && allNameChars s.

(** [portRefRegex]: two or three names separated by dots. *)
Definition isValidPortRef (s : string) : bool :=
  match splitDot s with
  | [a; b] => isValidName a && isValidName b
  | [a; b; c] => isValidName a && isValidName b && isValidName c
  | _ => false
  end.

(** [splitPortRef]: rack, gear and port. *)
Definition splitPortRef (ref : string) : string * string * string :=
  match splitDot ref with
  | [gear; port] => ("", gear, port)
  | [rack; gear; port] => (rack, gear, port)
  | gear :: rest => ("", gear, joinDot rest)
  | [] => ("", "", "")
  end.

(** ** Declared ports and event sources *)

(** [ports[key]] as the set of its non-empty strings. *)
Definition collect (raw : cfgval) (key : string) : gset string :=
  match raw with
  | CMap m =>
      match cfgGet m key with
      | Some (CList items) =>
          list_to_set (omap (λ it, match it with CStr s => if bool_decide (s = "") then None else Some s | _ => None end) items)
      | _ => ∅
      end
  | _ => ∅
  end.

Record portDecl := mkPorts { pd_inputs : gset string; pd_outputs : gset string }.

Definition portsFromConfig (cfg : list (string * cfgval)) : option portDecl :=
  match cfgGet cfg "ports" with
  | None => None
  | Some raw =>
      let pd := mkPorts (collect raw "inputs") (collect raw "outputs") in
      if bool_decide (pd_inputs pd = ∅) && bool_decide (pd_outputs pd = ∅) then None else Some pd
  end.

(** [strings.Cut(ref, ".")]: what follows the first dot, if there is one. *)
Fixpoint afterDot (s : string) : option string :=
  match s with
  | EmptyString => None
  | String c s' => if Ascii.eqb c "." then Some s' else afterDot s'
  end.

Definition eventSource (entry : cfgval) : option string :=
  match entry with
  | CMap e =>
      let ref := default "" (cfgStr e "gear") in
      let ref := default ref (afterDot ref) in
      if bool_decide (ref = "") then None else Some ref
  | _ => None
  end.

Definition eventSources (cfg : list (string * cfgval)) : list string :=
  match cfgGet cfg "ports" with
  | Some (CMap ports) =>
      match cfgGet ports "events" with Some (CList entries) => omap eventSource entries | _ => [] end
  | _ => []
  end.

(** ** Validate *)

Inductive vErr :=
| EVersion
| ERackName (n : string) | ERackDup (n : string) | EGroupName (n : string) | EGroupDup (n : string)
| EGroupMatch (n : string) | ERackEmpty (i : nat)
| EGearName | EGearInvalid (n : string) | EGearDup (n : string) | EGearType (n : string)
| EGearDeploy (n target : string) | EEvents (n source : string)
| EWireEnds (i : nat) | EWireFrom (ref : string) | EWireTo (ref : string) | EWireLane (lane : string)
| EWireHot (src dst : string) | EWireRack (rack : string) | EWireGear (gear : string) | EWirePort (gear port : string).

(** The names the rack loop has collected. *)
Record rackSets := mkSets { rs_racks : gset string; rs_groups : gset string }.

Fixpoint checkRacks (i : nat) (rs : rackSets) (l : list RackTarget) : vErr + rackSets :=
  match l with
  | [] => inr rs
  | r :: l =>
      if negb (bool_decide (rt_Name r = "")) then
        if negb (isValidName (rt_Name r)) then inl (ERackName (rt_Name r))
        else if bool_decide (rt_Name r ∈ rs_racks rs) then inl (ERackDup (rt_Name r))
        else checkRacks (S i) (mkSets ({[rt_Name r]} ∪ rs_racks rs) (rs_groups rs)) l
      else if negb (bool_decide (rt_Group r = "")) then
        if negb (isValidName (rt_Group r)) then inl (EGroupName (rt_Group r))
        else if bool_decide (rt_Group r ∈ rs_groups rs) then inl (EGroupDup (rt_Group r))
        else if (rt_labels r =? 0)%nat then inl (EGroupMatch (rt_Group r))
        else checkRacks (S i) (mkSets (rs_racks rs) ({[rt_Group r]} ∪ rs_groups rs)) l
      else if negb (rt_defaults r) then inl (ERackEmpty i)
      else checkRacks (S i) rs l
  end.

(** What the gear loop has collected. *)
Record gearSets := mkGears { gs_names : gset string; gs_deploy : gmap string string; gs_ports : gmap string portDecl }.

Definition addGear (g : GearDecl) (gs : gearSets) : gearSets :=
  mkGears ({[gname g]} ∪ gs_names gs)
    (match Deploy (gd_spec g) with Some t => <[gname g := t]> (gs_deploy gs) | None => gs_deploy gs end)
    (match portsFromConfig (gd_Config g) with Some pd => <[gname g := pd]> (gs_ports gs) | None => gs_ports gs end).

Definition knownTarget (rs : rackSets) (t : string) : bool :=
  bool_decide (t ∈ rs_racks rs) || bool_decide (t ∈ rs_groups rs).

(** One gear against the names before it; [explicit] when the scenario lists racks. *)
Definition checkGear (explicit : bool) (rs : rackSets) (gs : gearSets) (g : GearDecl) : option vErr :=
  if bool_decide (gname g = "") then Some EGearName
  else if negb (isValidName (gname g)) then Some (EGearInvalid (gname g))
  else if bool_decide (gname g ∈ gs_names gs) then Some (EGearDup (gname g))
  else if bool_decide (Type_ (gd_spec g) = "") then Some (EGearType (gname g))
  else match Deploy (gd_spec g) with
       | Some t => if explicit && negb (knownTarget rs t) then Some (EGearDeploy (gname g) t) else None
       | None => None
       end.

Fixpoint checkGears (explicit : bool) (rs : rackSets) (gs : gearSets) (l : list GearDecl) : vErr + gearSets :=
  match l with
  | [] => inr gs
  | g :: l =>
      match checkGear explicit rs gs g with
      | Some e => inl e
      | None => checkGears explicit rs (addGear g gs) l
      end
  end.

Definition checkEvents (names : gset string) (g : GearDecl) : option vErr :=
  match list_find (λ source, source ∉ names) (eventSources (gd_Config g)) with
  | Some (_, source) => Some (EEvents (gname g) source)
  | None => None
  end.

Definition portMissing (gs : gearSets) (side : portDecl → gset string) (gear port : string) : bool :=
  match gs_ports gs !! gear with
  | Some pd => negb (bool_decide (side pd = ∅)) && negb (bool_decide (port ∈ side pd))
  | None => false
  end.

(** The Rack an end of a wire runs on, as far as the scenario says. *)
Definition endRack (gs : gearSets) (rack gear : string) : string :=
  firstNonEmpty [rack; look (gs_deploy gs) gear].

Definition checkWire (rs : rackSets) (gs : gearSets) (i : nat) (w : WireSpec) : option vErr :=
  if bool_decide (From w = "") || bool_decide (To w = "") then Some (EWireEnds i)
  else if negb (isValidPortRef (From w)) then Some (EWireFrom (From w))
  else if negb (isValidPortRef (To w)) then Some (EWireTo (To w))
  else
    let '(fromRack, fromGear, fromPort) := splitPortRef (From w) in
    let '(toRack, toGear, toPort) := splitPortRef (To w) in
    if negb (bool_decide (Lane w = "" ∨ Lane w = LaneHot ∨ Lane w = LaneGuaranteed)) then Some (EWireLane (Lane w))
    else
      let src := endRack gs fromRack fromGear in let dst := endRack gs toRack toGear in
      if bool_decide (Lane w = LaneHot ∧ src ≠ "" ∧ dst ≠ "" ∧ src ≠ dst) then Some (EWireHot src dst)
      else if negb (bool_decide (fromRack = "")) && negb (knownTarget rs fromRack) then Some (EWireRack fromRack)
      else if negb (bool_decide (toRack = "")) && negb (knownTarget rs toRack) then Some (EWireRack toRack)
      else if negb (bool_decide (fromGear ∈ gs_names gs)) then Some (EWireGear fromGear)
      else if negb (bool_decide (toGear ∈ gs_names gs)) then Some (EWireGear toGear)
      else if portMissing gs pd_outputs fromGear fromPort then Some (EWirePort fromGear fromPort)
      else if portMissing gs pd_inputs toGear toPort then Some (EWirePort toGear toPort)
      else None.

(** The first error of a loop. *)
Fixpoint firstErr {A} (f : nat → A → option vErr) (i : nat) (l : list A) : option vErr :=
  match l with
  | [] => None
  | x :: l => match f i x with Some e => Some e | None => firstErr f (S i) l end
  end.

Definition Validate (s : ScenarioFile) : option vErr :=
  if bool_decide (sf_Version s = "") then Some EVersion
  else match checkRacks 0 (mkSets ∅ ∅) (sf_Racks s) with
       | inl e => Some e
       | inr rs =>
           match checkGears (negb (bool_decide (sf_Racks s = []))) rs (mkGears ∅ ∅ ∅) (sf_Gears s) with
           | inl e => Some e
           | inr gs =>
               match firstErr (λ _, checkEvents (gs_names gs)) 0 (sf_Gears s) with
               | Some e => Some e
               | None => firstErr (checkWire rs gs) 0 (sf_Wires s)
               end
           end
       end.
