(* ===== verification/ScenarioSpec.v ===== *)
(** * A scenario that validates is sound

    [scenario_ok] states what the validator checks; [Validate] accepts exactly those
    scenarios ([validate_exact]).  Composed with Routes.v: on an accepted scenario the
    two ends of every wire agree, a hot wire between pinned gears stays in one Rack's
    memory, and no two different sources share a bus subject. *)
From Stdlib Require Import Ascii.
From S2P Require Import Prelude FluxMsg Keys Tree Routes Scenario.

(** ** The specification *)

Definition rackNames (s : ScenarioFile) : list string :=
  omap (λ r, if bool_decide (rt_Name r = "") then None else Some (rt_Name r)) (sf_Racks s).
Definition groupNames (s : ScenarioFile) : list string :=
  omap (λ r, if bool_decide (rt_Name r = "") && negb (bool_decide (rt_Group r = "")) then Some (rt_Group r) else None)
    (sf_Racks s).

Definition rack_ok (r : RackTarget) : Prop :=
  if decide (rt_Name r = "")
  then if decide (rt_Group r = "") then rt_defaults r = true
       else isValidName (rt_Group r) = true ∧ rt_labels r ≠ 0%nat
  else isValidName (rt_Name r) = true.

Definition target_known (s : ScenarioFile) (t : string) : Prop := t ∈ rackNames s ∨ t ∈ groupNames s.

Definition gear_ok (s : ScenarioFile) (g : GearDecl) : Prop :=
  isValidName (gname g) = true ∧ Type_ (gd_spec g) ≠ "" ∧
  (∀ t, Deploy (gd_spec g) = Some t → sf_Racks s ≠ [] → target_known s t) ∧
  ∀ source, source ∈ eventSources (gd_Config g) → source ∈ gname <$> sf_Gears s.

(** A port of a gear that declares ports on that side is one of them. *)
Definition port_ok (s : ScenarioFile) (side : portDecl → gset string) (gear port : string) : Prop :=
  ∀ g pd, g ∈ sf_Gears s → gname g = gear → portsFromConfig (gd_Config g) = Some pd → side pd ≠ ∅ → port ∈ side pd.

Definition end_ok (s : ScenarioFile) (side : portDecl → gset string) (ref : string) : Prop :=
  isValidPortRef ref = true ∧
  let '(rack, gear, port) := splitPortRef ref in
  (rack ≠ "" → target_known s rack) ∧ gear ∈ gname <$> sf_Gears s ∧ port_ok s side gear port.

(** The Rack an end is pinned to, the empty name when it is not. *)
Definition pinnedTo (s : ScenarioFile) (ref : string) : string :=
  let '(rack, gear, _) := splitPortRef ref in firstNonEmpty [rack; look (deployMap (topology s)) gear].

Definition wire_ok (s : ScenarioFile) (w : WireSpec) : Prop :=
  end_ok s pd_outputs (From w) ∧ end_ok s pd_inputs (To w) ∧
  (Lane w = "" ∨ Lane w = LaneHot ∨ Lane w = LaneGuaranteed) ∧
  (Lane w = LaneHot → pinnedTo s (From w) ≠ "" → pinnedTo s (To w) ≠ "" → pinnedTo s (From w) = pinnedTo s (To w)).

Record scenario_ok (s : ScenarioFile) : Prop := {
  ok_version : sf_Version s ≠ "";
  ok_racks : Forall rack_ok (sf_Racks s);
  ok_rack_names : NoDup (rackNames s);
  ok_group_names : NoDup (groupNames s);
  ok_gear_names : NoDup (gname <$> sf_Gears s);
  ok_gears : Forall (gear_ok s) (sf_Gears s);
  ok_wires : Forall (wire_ok s) (sf_Wires s);
}.

(** ** The loops *)

Lemma firstErr_none {A} (f : nat → A → option vErr) i l :
  firstErr f i l = None ↔ ∀ j x, l !! j = Some x → f (i + j)%nat x = None.
Proof.
  revert i. induction l as [|x l IH]; intros i; simpl; [split; [by intros _ []|done]|].
  destruct (f i x) eqn:Hx.
  - split; [done|]. intros H. specialize (H 0%nat x eq_refl). rewrite Nat.add_0_r in H. congruence.
  - rewrite IH. split.
    + intros H [|j] y; simpl; [intros [= <-]; by rewrite Nat.add_0_r|]. intros Hy. rewrite <-(H j y Hy). f_equal. lia.
    + intros H j y Hy. rewrite <-(H (S j) y Hy). f_equal. lia.
Qed.

Definition namesOf (l : list RackTarget) : list string :=
  omap (λ r, if bool_decide (rt_Name r = "") then None else Some (rt_Name r)) l.
Definition groupsOf (l : list RackTarget) : list string :=
  omap (λ r, if bool_decide (rt_Name r = "") && negb (bool_decide (rt_Group r = "")) then Some (rt_Group r) else None) l.

(** Names not seen yet, each once. *)
Definition freshIn (l : list string) (seen : gset string) : Prop := NoDup l ∧ ∀ x, x ∈ l → x ∉ seen.

Lemma freshIn_cons x l seen : freshIn (x :: l) seen ↔ (x ∉ seen) ∧ freshIn l ({[x]} ∪ seen).
Proof. unfold freshIn. rewrite NoDup_cons. set_solver. Qed.

Lemma freshIn_nil seen : freshIn [] seen.
Proof. split; [constructor|]. set_solver. Qed.

Lemma checkRacks_exact i rs l rs' :
  checkRacks i rs l = inr rs' ↔
  Forall rack_ok l ∧ freshIn (namesOf l) (rs_racks rs) ∧ freshIn (groupsOf l) (rs_groups rs) ∧
  rs' = mkSets (list_to_set (namesOf l) ∪ rs_racks rs) (list_to_set (groupsOf l) ∪ rs_groups rs).
Proof.
  revert i rs. induction l as [|r l IH]; intros i rs.
  { simpl. destruct rs as [X Y]; simpl. rewrite !(left_id_L ∅ (∪)).
    split; [intros [= <-]; auto using Forall_nil, freshIn_nil|by intros (_ & _ & _ & ->)]. }
  cbn [checkRacks namesOf groupsOf omap list_omap]. fold (namesOf l) (groupsOf l). rewrite Forall_cons. unfold rack_ok at 1.
  destruct (decide (rt_Name r = "")) as [Hn|Hn].
  - rewrite (bool_decide_eq_true_2 _ Hn). cbn [negb andb].
    destruct (decide (rt_Group r = "")) as [Hg|Hg].
    + rewrite (bool_decide_eq_true_2 _ Hg). cbn [negb]. destruct (rt_defaults r); cbn [negb]; [|naive_solver].
      rewrite IH. naive_solver.
    + rewrite (bool_decide_eq_false_2 _ Hg). cbn [negb]. rewrite freshIn_cons.
      destruct (isValidName (rt_Group r)); cbn [negb]; [|naive_solver].
      case_bool_decide as Hd; [naive_solver|]. destruct (Nat.eqb_spec (rt_labels r) 0); [naive_solver|].
      rewrite IH. cbn [rs_racks rs_groups]. rewrite list_to_set_cons.
      replace ({[rt_Group r]} ∪ list_to_set (groupsOf l) ∪ rs_groups rs : gset string)
        with (list_to_set (groupsOf l) ∪ ({[rt_Group r]} ∪ rs_groups rs) : gset string) by set_solver.
      naive_solver.
  - rewrite (bool_decide_eq_false_2 _ Hn). cbn [negb andb]. rewrite freshIn_cons.
    destruct (isValidName (rt_Name r)); cbn [negb]; [|naive_solver].
    case_bool_decide as Hd; [naive_solver|]. rewrite IH. cbn [rs_racks rs_groups]. rewrite list_to_set_cons.
    replace ({[rt_Name r]} ∪ list_to_set (namesOf l) ∪ rs_racks rs : gset string)
      with (list_to_set (namesOf l) ∪ ({[rt_Name r]} ∪ rs_racks rs) : gset string) by set_solver.
    naive_solver.
Qed.

Definition addGears (l : list GearDecl) (gs : gearSets) : gearSets := foldl (λ gs g, addGear g gs) gs l.

Lemma addGears_names l gs : gs_names (addGears l gs) = list_to_set (gname <$> l) ∪ gs_names gs.
Proof.
  revert gs. induction l as [|g l IH]; intros gs; simpl; [set_solver|]. unfold addGears in *. rewrite IH. simpl. set_solver.
Qed.

Lemma addGears_deploy l gs : gs_deploy (addGears l gs) = foldl deployOne (gs_deploy gs) (gd_spec <$> l).
Proof. revert gs. induction l as [|g l IH]; intros gs; [done|]. unfold addGears in *. simpl. by rewrite IH. Qed.

Lemma addGears_ports_other l gs k : k ∉ gname <$> l → gs_ports (addGears l gs) !! k = gs_ports gs !! k.
Proof.
  revert gs. induction l as [|g l IH]; intros gs Hk; [done|]. cbn in Hk. apply not_elem_of_cons in Hk as [Hne Hk].
  unfold addGears in *. simpl. rewrite IH by done. simpl. destruct (portsFromConfig _); [|done]. by rewrite lookup_insert_ne.
Qed.

Lemma addGears_ports l gs g :
  NoDup (gname <$> l) → g ∈ l → gs_ports gs !! gname g = None → gs_ports (addGears l gs) !! gname g = portsFromConfig (gd_Config g).
Proof.
  revert gs. induction l as [|h l IH]; intros gs Hnd Hg Hno; [by apply elem_of_nil in Hg|].
  cbn in Hnd. apply NoDup_cons in Hnd as [Hh Hnd]. apply elem_of_cons in Hg as [<-|Hg].
  - change (gs_ports (addGears l (addGear g gs)) !! gname g = portsFromConfig (gd_Config g)).
    rewrite addGears_ports_other by done. simpl. destruct (portsFromConfig _); [apply lookup_insert_eq|done].
  - change (gs_ports (addGears l (addGear h gs)) !! gname g = portsFromConfig (gd_Config g)). apply IH; [done..|].
    unfold addGear; cbn [gs_ports]. destruct (portsFromConfig (gd_Config h)); [|exact Hno].
    rewrite lookup_insert_ne; [exact Hno|]. intros E. apply Hh. rewrite E. by apply list_elem_of_fmap_2.
Qed.

(** A gear on its own, its name apart. *)
Definition gear_alone (explicit : bool) (rs : rackSets) (g : GearDecl) : Prop :=
  isValidName (gname g) = true ∧ Type_ (gd_spec g) ≠ "" ∧
  ∀ t, Deploy (gd_spec g) = Some t → explicit = true → knownTarget rs t = true.

Lemma checkGear_none explicit rs gs g :
  checkGear explicit rs gs g = None ↔ gear_alone explicit rs g ∧ gname g ∉ gs_names gs.
Proof.
  unfold checkGear, gear_alone. case_bool_decide as Hn.
  { split; [done|]. rewrite Hn. by intros [[? _] _]. }
  destruct (isValidName (gname g)); cbn [negb]; [|naive_solver]. case_bool_decide; [naive_solver|].
  case_bool_decide; [naive_solver|]. destruct (Deploy _) as [t|]; [|naive_solver].
  destruct explicit; cbn [andb]; [|naive_solver]. destruct (knownTarget rs t) eqn:E; cbn [negb]; [naive_solver|].
  split; [done|]. intros [(_ & _ & Hk) _]. by rewrite (Hk t) in E.
Qed.

Lemma checkGears_exact explicit rs gs l gs' :
  checkGears explicit rs gs l = inr gs' ↔
  Forall (gear_alone explicit rs) l ∧ freshIn (gname <$> l) (gs_names gs) ∧ gs' = addGears l gs.
Proof.
  revert gs. induction l as [|g l IH]; intros gs; cbn [checkGears].
  { split; [intros [= <-]; auto using Forall_nil, freshIn_nil|by intros (_ & _ & ->)]. }
  cbn. rewrite Forall_cons, freshIn_cons.
  destruct (checkGear explicit rs gs g) eqn:E.
  - split; [done|]. intros ((Hg & _) & (Hf & _) & _).
    assert (checkGear explicit rs gs g = None) by (by apply checkGear_none). congruence.
  - apply checkGear_none in E as [Hg Hf]. rewrite IH. simpl. naive_solver.
Qed.

(** ** Wires and events *)

Section wires.
Context (s : ScenarioFile) (Hnd : NoDup (gname <$> sf_Gears s)).
Let rs : rackSets := mkSets (list_to_set (rackNames s) ∪ ∅) (list_to_set (groupNames s) ∪ ∅).
Let gs : gearSets := addGears (sf_Gears s) (mkGears ∅ ∅ ∅).

Lemma knownTarget_exact t : knownTarget rs t = true ↔ target_known s t.
Proof.
  clear Hnd. unfold knownTarget, target_known, rs. simpl. rewrite orb_true_iff, !bool_decide_eq_true. set_solver.
Qed.

Lemma names_exact x : x ∈ gs_names gs ↔ x ∈ gname <$> sf_Gears s.
Proof. clear Hnd. unfold gs. rewrite addGears_names. simpl. set_solver. Qed.

Lemma portMissing_exact side gear port : portMissing gs side gear port = false ↔ port_ok s side gear port.
Proof.
  unfold portMissing, port_ok. destruct (decide (gear ∈ gname <$> sf_Gears s)) as [Hin|Hin].
  - apply list_elem_of_fmap in Hin as (g & -> & Hg). unfold gs.
    rewrite (addGears_ports _ _ g Hnd Hg) by apply lookup_empty.
    assert (∀ g', g' ∈ sf_Gears s → gname g' = gname g → g' = g) as Huniq.
    { intros g' Hg' E. apply list_elem_of_lookup in Hg as [i Hi], Hg' as [j Hj].
      assert (i = j) as ->; [|congruence]. eapply NoDup_lookup; [exact Hnd|..]; rewrite list_lookup_fmap;
        [by rewrite Hi|by rewrite Hj, <-E]. }
    destruct (portsFromConfig (gd_Config g)) as [pd|] eqn:Hp.
    + rewrite andb_false_iff, !negb_false_iff, !bool_decide_eq_true. split.
      * intros H g' pd' Hg' E Hp' Hne. rewrite (Huniq g' Hg' E) in Hp'. simplify_eq. by destruct H.
      * intros H. destruct (decide (side pd = ∅)) as [|Hne]; [by left|right]. by eapply H.
    + split; [|done]. intros _ g' pd' Hg' E Hp'. rewrite (Huniq g' Hg' E) in Hp'. congruence.
  - unfold gs. rewrite addGears_ports_other by done. simpl. rewrite lookup_empty. split; [|done].
    intros _ g' pd' Hg' <-. exfalso. apply Hin. by apply list_elem_of_fmap_2.
Qed.

Lemma endRack_exact ref :
  (let '(rack, gear, _) := splitPortRef ref in endRack gs rack gear) = pinnedTo s ref.
Proof.
  unfold pinnedTo, endRack. destruct (splitPortRef ref) as [[r g] p].
  unfold gs, deployMap. by rewrite addGears_deploy.
Qed.

Lemma validRef_nonempty ref : isValidPortRef ref = true → ref ≠ "".
Proof. by intros H ->. Qed.

Lemma checkWire_exact i w : checkWire rs gs i w = None ↔ wire_ok s w.
Proof.
  unfold checkWire, wire_ok, end_ok. pose proof (endRack_exact (From w)) as Ef. pose proof (endRack_exact (To w)) as Et.
  destruct (splitPortRef (From w)) as [[fr fg] fp], (splitPortRef (To w)) as [[tr tg] tp]. rewrite Ef, Et. clear Ef Et.
  destruct (bool_decide (From w = "") || bool_decide (To w = "")) eqn:He.
  { split; [done|]. intros ([Hf _] & [Ht _] & _). apply orb_true_iff in He as [He|He]; apply bool_decide_eq_true in He;
      rewrite He in *; done. }
  destruct (isValidPortRef (From w)); cbn [negb]; [|naive_solver].
  destruct (isValidPortRef (To w)); cbn [negb]; [|naive_solver].
  destruct (bool_decide (Lane w = "" ∨ _)) eqn:Hl; [apply bool_decide_eq_true in Hl|apply bool_decide_eq_false in Hl]; cbn [negb];
    [|naive_solver].
  destruct (bool_decide (Lane w = LaneHot ∧ _)) eqn:Hh;
    [apply bool_decide_eq_true in Hh; naive_solver|apply bool_decide_eq_false in Hh].
  assert (Lane w = LaneHot → pinnedTo s (From w) ≠ "" → pinnedTo s (To w) ≠ "" → pinnedTo s (From w) = pinnedTo s (To w)) as Hhot.
  { intros ???. destruct (decide (pinnedTo s (From w) = pinnedTo s (To w))); [done|]. naive_solver. }
  assert (∀ r, negb (bool_decide (r = "")) && negb (knownTarget rs r) = false ↔ (r ≠ "" → target_known s r)) as Hr.
  { intros r. rewrite andb_false_iff, !negb_false_iff, bool_decide_eq_true, knownTarget_exact.
    destruct (decide (r = "")); naive_solver. }
  assert (∀ g, negb (bool_decide (g ∈ gs_names gs)) = false ↔ g ∈ gname <$> sf_Gears s) as Hg
    by (intros g; by rewrite negb_false_iff, bool_decide_eq_true, names_exact).
  pose proof (Hr fr) as Hfr. pose proof (Hr tr) as Htr. pose proof (Hg fg) as Hfg. pose proof (Hg tg) as Htg.
  pose proof (portMissing_exact pd_outputs fg fp) as Hpf. pose proof (portMissing_exact pd_inputs tg tp) as Hpt.
  clear Hr Hg Hh He. destruct (_ && negb (knownTarget rs fr)); [naive_solver|].
  destruct (_ && negb (knownTarget rs tr)); [naive_solver|]. destruct (negb (bool_decide (fg ∈ _))); [naive_solver|].
  destruct (negb (bool_decide (tg ∈ _))); [naive_solver|]. destruct (portMissing gs pd_outputs fg fp); [naive_solver|].
  destruct (portMissing gs pd_inputs tg tp); naive_solver.
Qed.

Lemma checkEvents_exact g :
  checkEvents (gs_names gs) g = None ↔ ∀ source, source ∈ eventSources (gd_Config g) → source ∈ gname <$> sf_Gears s.
Proof.
  clear Hnd. unfold checkEvents. destruct (list_find _ _) as [[j x]|] eqn:E.
  - apply list_find_Some in E as (Hx & Hno & _). split; [done|]. intros H. destruct Hno. apply names_exact, H.
    by eapply list_elem_of_lookup_2.
  - apply list_find_None in E. rewrite Forall_forall in E. split; [|done]. intros _ x Hx. apply names_exact.
    by apply dec_stable, E.
Qed.
End wires.

Lemma validate_iff s : Validate s = None ↔ scenario_ok s.
Proof.
  unfold Validate. case_bool_decide as Hv; [split; [done|intros [? _ _ _ _ _ _]; done]|].
  destruct (checkRacks 0 (mkSets ∅ ∅) (sf_Racks s)) as [e|rs] eqn:Hr.
  { split; [done|]. intros Hok.
    assert (checkRacks 0 (mkSets ∅ ∅) (sf_Racks s) = inr _) as Hr' by
      (apply checkRacks_exact; split_and!; [apply Hok| | |reflexivity]; split; [apply Hok|set_solver|apply Hok|set_solver]).
    congruence. }
  apply checkRacks_exact in Hr as (Hrk & [Hn1 _] & [Hn2 _] & ->).
  destruct (checkGears _ _ _ _) as [e|gs] eqn:Hg.
  { split; [done|]. intros Hok. match type of Hg with checkGears ?x ?r ?y ?l = _ =>
      assert (checkGears x r y l = inr (addGears l y)) as Hg' end; [|congruence].
    apply checkGears_exact. split_and!; [|split; [apply Hok|set_solver]|done].
    eapply Forall_impl; [apply Hok|]. intros g (A & B & C & _). split_and!; [done|done|]. intros t Ht Hx.
    apply (knownTarget_exact s), C; [done|]. apply negb_true_iff, bool_decide_eq_false in Hx. done. }
  apply checkGears_exact in Hg as (Hga & [Hnd _] & ->).
  assert (∀ g, g ∈ sf_Gears s → (gear_ok s g ↔ checkEvents (gs_names (addGears (sf_Gears s) (mkGears ∅ ∅ ∅))) g = None)) as Hev.
  { intros g Hin. rewrite (checkEvents_exact s). rewrite Forall_forall in Hga. destruct (Hga g Hin) as (A & B & C).
    unfold gear_ok. split; [naive_solver|]. intros Hs. split_and!; [done|done| |done]. intros t Ht Hne.
    apply (knownTarget_exact s), C; [done|]. by apply negb_true_iff, bool_decide_eq_false. }
  destruct (firstErr _ 0 (sf_Gears s)) as [e|] eqn:He.
  - split; [done|]. intros Hok. assert (firstErr (λ _, checkEvents (gs_names (addGears (sf_Gears s) (mkGears ∅ ∅ ∅)))) 0 (sf_Gears s) = None)
      as He'; [|congruence].
    apply firstErr_none. intros j g Hj. apply list_elem_of_lookup_2 in Hj. apply Hev; [done|].
    pose proof (ok_gears _ Hok) as Hgs. rewrite Forall_forall in Hgs. by apply Hgs.
  - pose proof (proj1 (firstErr_none _ _ _) He) as He'. cbn beta in He'. rewrite firstErr_none. split.
    + intros Hw. split; try done.
      * apply Forall_forall. intros g Hin. apply Hev; [done|]. apply list_elem_of_lookup in Hin as [j Hj]. by eapply He'.
      * apply Forall_forall. intros w Hin. apply list_elem_of_lookup in Hin as [j Hj].
        by eapply (checkWire_exact s Hnd), Hw.
    + intros Hok j w Hj. apply (checkWire_exact s Hnd). pose proof (ok_wires _ Hok) as Hws.
      rewrite Forall_forall in Hws. apply Hws. by eapply list_elem_of_lookup_2.
Qed.

(** ** What the checks are for *)

Lemma topology_names s : Name <$> Gears (topology s) = gname <$> sf_Gears s.
Proof. simpl. by rewrite <-list_fmap_compose. Qed.

(** C30: the validator accepts exactly the sound scenarios: version set; rack, group and
    gear names well formed and unique; every gear typed and deployed to a known target;
    every reader of events naming a gear of the scenario; every wire with two well-formed
    ends on known racks, gears and declared ports, on a known lane, and a hot wire not
    across two Racks. *)
Theorem validate_exact s : Validate s = None ↔ scenario_ok s.
Proof. apply validate_iff. Qed.

(** a hot wire is carried in memory: in a scenario that validates, for a hot wire
    whose two ends are pinned to Racks, every consumer the runtime subscribes listens on
    the hot lane, and no Rack publishes the wire's subject to the bus on its account. *)
Theorem hot_wire_in_memory s w isPorted rack :
  Validate s = None → w ∈ sf_Wires s → Lane w = LaneHot →
  pinnedTo s (From w) ≠ "" → pinnedTo s (To w) ≠ "" → rack ≠ "" →
  (∀ subj lane, consumes isPorted (topology s) rack w = Subscribed subj lane → lane = true) ∧
  busEmit rack (deployMap (topology s)) w = None.
Proof.
  intros Hok%validate_iff Hw Hl Hf Ht Hrack. pose proof (ok_wires _ Hok) as Hws. rewrite Forall_forall in Hws.
  destruct (Hws w Hw) as (_ & _ & _ & Hhot). specialize (Hhot Hl Hf Ht). clear Hws.
  assert (NoDup (Name <$> Gears (topology s))) as Hnd by (rewrite topology_names; apply Hok). split.
  - intros subj lane Hc. pose proof (consumes_spec _ _ _ _ _ _ Hnd Hc) as Hs. unfold sourceRackOf, pinnedTo in *.
    change splitPortRef with parsePortRef in *. destruct (parsePortRef (From w)) as [[fr fg] fp], (parsePortRef (To w)) as [[tr tg] tp].
    destruct Hs as (_ & -> & Htr & Hd). unfold wireOnLane. rewrite Hl. cbn [firstNonEmpty] in *.
    rewrite (bool_decide_eq_false_2 (LaneHot = _)) by done. rewrite andb_true_r. apply bool_decide_eq_true.
    repeat case_bool_decide; destruct Htr, Hd; congruence.
  - unfold busEmit, pinnedTo in *. change splitPortRef with parsePortRef in *.
    destruct (parsePortRef (From w)) as [[fr fg] fp], (parsePortRef (To w)) as [[tr tg] tp]. rewrite Hl.
    rewrite (bool_decide_eq_false_2 (LaneHot = _)) by done. cbn [firstNonEmpty orb] in *.
    repeat case_bool_decide; simpl; try done; congruence.
Qed.

Lemma last_dot a b a' b' :
  hasChar "." b = false → hasChar "." b' = false → a +:+ String "." b = a' +:+ String "." b' → a = a' ∧ b = b'.
Proof.
  assert (∀ x y, hasChar "." (x +:+ String "." y) = true) as Hdot.
  { intros x y. induction x as [|c x IH]; [done|]. change (hasChar "." (String c (x +:+ String "." y)) = true).
    cbn [hasChar]. rewrite IH. apply orb_true_r. }
  revert a'. induction a as [|c a IH]; intros [|c' a'] Hb Hb' E; simpl in E.
  - by simplify_eq.
  - injection E as _ E. pose proof (Hdot a' b') as H. rewrite <-E in H. congruence.
  - injection E as _ E. pose proof (Hdot a b) as H. rewrite E in H. congruence.
  - injection E as -> E. by destruct (IH a' Hb Hb' E) as [-> ->].
Qed.

Lemma append_eq (x a b : string) : x +:+ a = x +:+ b → a = b.
Proof. induction x as [|c x IH]; [done|]. intros [= H]. by apply IH. Qed.

Lemma subjectOf_inj r g p r' g' p' :
  hasChar "." g = false → hasChar "." p = false → hasChar "." g' = false → hasChar "." p' = false →
  subjectOf r g p = subjectOf r' g' p' → r = r' ∧ g = g' ∧ p = p'.
Proof.
  intros Hg Hp Hg' Hp' E. unfold subjectOf in E. apply append_eq in E.
  change (r +:+ String "." (g +:+ String "." p) = r' +:+ String "." (g' +:+ String "." p')) in E.
  assert (∀ a b c, a +:+ String "." (b +:+ String "." c) = (a +:+ String "." b) +:+ String "." c) as Ha
    by (intros; by rewrite append_assoc).
  rewrite !Ha in E. apply last_dot in E as [E ->]; [|done..]. by apply last_dot in E as [-> ->].
Qed.

Lemma validName_dotless x : isValidName x = true → hasChar "." x = false.
Proof.
  intros [_ H]%andb_true_iff. induction x as [|c x IH]; [done|]. cbn [allNameChars hasChar] in *.
  apply andb_true_iff in H as [Hc H]. rewrite (IH H), orb_false_r.
  destruct (Ascii.eqb "." c) eqn:E; [|done]. apply Ascii.eqb_eq in E. by subst.
Qed.

Lemma validRef_dotless ref :
  isValidPortRef ref = true → let '(_, gear, port) := parsePortRef ref in hasChar "." gear = false ∧ hasChar "." port = false.
Proof.
  unfold isValidPortRef, parsePortRef. destruct (splitDot ref) as [|a [|b [|c [|]]]]; try done;
    rewrite !andb_true_iff; naive_solver eauto using validName_dotless.
Qed.

(** bus subjects do not collide: in a scenario that validates, when a Rack publishes
    to the bus for one wire and a consumer listens to that subject for another, the two
    wires name the same source port of the same gear on the same Rack. *)
Theorem subjects_unambiguous s w1 w2 isPorted rack1 rack2 subj lane :
  Validate s = None → w1 ∈ sf_Wires s → w2 ∈ sf_Wires s →
  busEmit rack1 (deployMap (topology s)) w1 = Some subj →
  consumes isPorted (topology s) rack2 w2 = Subscribed subj lane →
  rack1 = sourceRackOf (topology s) rack2 w2 ∧
  (parsePortRef (From w1)).1.2 = (parsePortRef (From w2)).1.2 ∧ (parsePortRef (From w1)).2 = (parsePortRef (From w2)).2.
Proof.
  intros Hok%validate_iff H1 H2 He Hc.
  assert (NoDup (Name <$> Gears (topology s))) as Hnd by (rewrite topology_names; apply Hok).
  pose proof (ok_wires _ Hok) as Hws. rewrite Forall_forall in Hws.
  destruct (Hws w1 H1) as ([Hv1 _] & _), (Hws w2 H2) as ([Hv2 _] & _). clear Hws.
  pose proof (consumes_spec _ _ _ _ _ _ Hnd Hc) as Hs. apply validRef_dotless in Hv1, Hv2.
  unfold busEmit in He. destruct (parsePortRef (From w1)) as [[fr fg] fp], (parsePortRef (To w1)) as [[tr tg] tp],
    (parsePortRef (From w2)) as [[fr2 fg2] fp2], (parsePortRef (To w2)) as [[tr2 tg2] tp2].
  destruct Hs as (Hsubj & _). destruct (negb _); [done|]. destruct (_ || _); [|done]. injection He as He.
  destruct Hv1, Hv2. apply subjectOf_inj; [done..|exact (eq_trans He Hsubj)].
Qed.

(** ** An example *)

Definition sampleFile : ScenarioFile :=
  mkFile "1" [mkRack "edge" "" 0 false; mkRack "" "core" 1 false]
    [mkDecl (mkGear "io" "io_tcp" (Some "edge")) [];
     mkDecl (mkGear "codec" "iso8583" (Some "edge")) [];
     mkDecl (mkGear "mon" "bento" (Some "core"))
       [("ports", CMap [("inputs", CList [CStr "in"]); ("events", CList [CMap [("gear", CStr "edge.io")]])])]]
    [mkWire "io.out" "codec.in" "hot"; mkWire "edge.codec.out" "mon.in" ""].

Definition hotWire : WireSpec := mkWire "io.out" "codec.in" "hot".
Definition busWire : WireSpec := mkWire "edge.codec.out" "mon.in" "".

Lemma hot_wire_in_memory_witness :
  consumes (λ _, false) (topology sampleFile) "edge" hotWire = Subscribed "flux.msg.edge.io.out" true ∧
  busEmit "edge" (deployMap (topology sampleFile)) hotWire = None.
Proof.
  split; [vm_compute; reflexivity|].
  apply (hot_wire_in_memory sampleFile hotWire (λ _, false) "edge"); [vm_compute; reflexivity|left|reflexivity|done..].
Defined.

Lemma subjects_unambiguous_witness :
  "edge" = sourceRackOf (topology sampleFile) "core" busWire.
Proof.
  refine (proj1 (subjects_unambiguous sampleFile busWire busWire (λ _, false) "edge" "core" "flux.msg.edge.codec.out" false
    _ _ _ _ _)); [vm_compute; reflexivity|right; left|right; left|vm_compute; reflexivity|vm_compute; reflexivity].
Defined.

(** A wire to a port that its gear does not declare is refused. *)
Example undeclared_port_refused :
  Validate (mkFile "1" (sf_Racks sampleFile) (sf_Gears sampleFile) [mkWire "codec.out" "mon.input" ""])
  = Some (EWirePort "mon" "input").
Proof. vm_compute. reflexivity. Qed.
