(* ===== verification/Bucket.v ===== *)
(** * pkg/registry/kvstore: the bucket (bucket.go) and programs over it

    A bucket keeps a value and a revision per key; every write gets the next revision of
    the bucket, and a conditional write succeeds only at the revision it names.  The
    in-memory bucket of bucket.go is the model: it states the semantics the JetStream
    adapter maps the server's answers to.

    A store operation makes several bucket calls, and other clients' calls may come
    between them.  So an operation is a program [prog]: a tree that ends in a result or
    makes a call and continues with its answer.  [exec] runs one program alone;
    [sched] interleaves any number of them call by call. *)
From S2P Require Import Prelude.
Open Scope Z_scope.

(** ** Keys and values *)

(** The keys of the registry bucket: [entityKey], [nameKey], [scenarioKey], [activeKey]. *)
Inductive rkey := KEntity (typeID machineID : Z) | KName (name : string) | KScenario (name : string) | KActive.

#[export] Instance rkey_eq_dec : EqDecision rkey.
Proof. solve_decision. Defined.

#[export] Instance rkey_countable : Countable rkey.
Proof.
  refine (inj_countable'
    (λ k, match k with KEntity t m => inl (t, m) | KName n => inr (inl n) | KScenario n => inr (inr (Some n)) | KActive => inr (inr None) end)
    (λ x, match x with inl (t, m) => KEntity t m | inr (inl n) => KName n | inr (inr (Some n)) => KScenario n | inr (inr None) => KActive end) _).
  by intros [].
Defined.

(** What an error of the bucket tells its caller. *)
Inductive berr := BNotFound | BConflict | BIO.

Section bucket.
Context {V : Type}.

(** [memItem] *)
Record memItem := mkItem { value : V; rev : Z; written : Z }.

Record MemoryBucket := mkBucket { brev : Z; maxAge : Z; items : gmap rkey memItem }.

Definition NewMemoryBucket (age : Z) : MemoryBucket := mkBucket 0 age ∅.

Implicit Types (b : MemoryBucket) (k : rkey) (v : V) (now : Z).

(** [live]: an expired key is removed as it is looked at. *)
Definition live now k b : MemoryBucket * option memItem :=
  match items b !! k with
  | None => (b, None)
  | Some it =>
      if (0 <? maxAge b) && (maxAge b <=? now - written it)
      then (mkBucket (brev b) (maxAge b) (delete k (items b)), None)
      else (b, Some it)
  end.

Definition write now k v b : MemoryBucket * Z :=
  (mkBucket (brev b + 1) (maxAge b) (<[k := mkItem v (brev b + 1) now]> (items b)), brev b + 1).

Definition bGet now k b : MemoryBucket * (berr + V * Z) :=
  match live now k b with
  | (b, Some it) => (b, inr (value it, rev it))
  | (b, None) => (b, inl BNotFound)
  end.

Definition bCreate now k v b : MemoryBucket * (berr + Z) :=
  match live now k b with
  | (b, Some _) => (b, inl BConflict)
  | (b, None) => let '(b, r) := write now k v b in (b, inr r)
  end.

Definition bUpdate now k v (r : Z) b : MemoryBucket * (berr + Z) :=
  match live now k b with
  | (b, Some it) => if rev it =? r then let '(b, r) := write now k v b in (b, inr r) else (b, inl BConflict)
  | (b, None) => (b, inl BConflict)
  end.

Definition bPut now k v b : MemoryBucket * (berr + Z) :=
  let '(b, r) := write now k v b in (b, inr r).

(** A non-zero revision makes it conditional. *)
Definition bDelete now k (r : Z) b : MemoryBucket * (berr + unit) :=
  let '(b, it) := live now k b in
  if negb (r =? 0) && negb (bool_decide (rev <$> it = Some r)) then (b, inl BConflict)
  else (mkBucket (brev b) (maxAge b) (delete k (items b)), inr ()).

(** The live keys of one kind, in some order. *)
Definition bKeys now (p : rkey → bool) b : MemoryBucket * (berr + list rkey) :=
  (b, inr (filter (λ k, p k = true ∧ is_Some ((live now k b).2)) (map_to_list (items b)).*1)).
End bucket.
Arguments memItem : clear implicits.
Arguments MemoryBucket : clear implicits.
