(* ===== verification/Registry.v ===== *)
(** * pkg/registry/kvstore/store.go: the registry of Racks

    Enrollment, approval, removal, status, heartbeats, scenario files and the active
    pointer, each as a program over the bucket (Bucket.v) that makes the calls of the
    code in its order.  A record is stored as a value: [encode] and [json.Unmarshal] of
    the store's own types are the constructors of [rvalue], and a key that holds a value
    of another kind is a decoding error.

    Parameters: [hash] is the hexadecimal SHA-256 of a secret; the calls [ONow],
    [ONewUUID] and [OSecret] are the clock, the UUID generator and the secret generator.
    A UUID is an integer, the nil UUID 0. *)
From S2P Require Import Prelude Bucket.
Open Scope Z_scope.

Definition typeMixer : Z := 2.
Definition typeRack : Z := 4.
Definition typeSnake : Z := 9.

(** ** Values for JSON *)

(** What CBOR decoding produces. [JFloat None] is NaN or an infinity; [JOther] a value of
    another type, with whether JSON encodes it and what it prints as. *)
Inductive jval :=
| JNil | JBool (b : bool) | JInt (z : Z) | JFloat (f : option string) | JStr (s : string)
| JMapS (m : list (string * jval)) | JMapA (m : list (string * jval)) | JList (l : list jval)
| JOther (encodable : bool) (printed : string).

(** [jsonSafe]; the key of a [JMapA] entry is what [fmt.Sprint] prints for it. *)
Fixpoint jsonSafe (v : jval) : jval :=
  match v with
  | JNil | JBool _ | JInt _ | JStr _ => v
  | JFloat None => JNil
  | JFloat (Some _) => v
  | JMapS m | JMapA m => JMapS (map (λ kv : string * jval, (kv.1, jsonSafe kv.2)) m)
  | JList l => JList (map jsonSafe l)
  | JOther true _ => v
  | JOther false s => JStr s
  end.

(** A [map[string]any], nil or not. *)
Abbreviation jmap := (option (list (string * jval))).
Definition jsonSafeMap (m : jmap) : jmap :=
  match m with None => None | Some m => match jsonSafe (JMapS m) with JMapS m => Some m | _ => None end end.

(** ** Records *)

Record record := mkRecord {
  EntityID : Z; TypeID : Z; MachineID : Z; MixerID : Z; Name : string; Status : string; SecretHash : string;
  Version : string; IP : string; Port : Z; FirstSeen : Z; UpdatedAt : Z; UpdateCount : Z;
  Config : jmap; Attributes : jmap }.

Record nameRef := mkRef { n_TypeID : Z; n_MachineID : Z }.
#[export] Instance nameRef_eq_dec : EqDecision nameRef.
Proof. solve_decision. Defined.

Record presence := mkPresence { p_LastSeen : Z; p_MixerID : Z }.
Record heartbeatState := mkHeartbeat { hb_stats : jmap; hb_config : jmap }.
Record ActiveScenario := mkActive { a_Name : string; a_Version : string; a_Content : string }.

Inductive rvalue :=
| VRecord (r : record) | VName (ref : nameRef) | VPresence (p : presence) | VScenario (content : string) | VActive (a : ActiveScenario).

(** [len(encode(active))], up to a constant: what the size check needs. *)
Record limits := mkLimits { MaxValueSize : Z; WriteRetries : nat }.

(** The API's view of an entity. *)
Record Rack := mkRack {
  k_MachineID : Z; k_Name : string; k_Status : string; k_Version : string; k_IP : string; k_Port : Z;
  k_Secret : string; k_SecretHash : string; k_Online : bool; k_FirstSeen : Z; k_LastSeen : Z; k_UpdateCount : Z;
  k_Stats : jmap; k_Config : jmap }.

Inductive serr :=
| ErrNotFound | ErrNameConflict | ErrBootstrapSecretMismatch | ErrIdentityMismatch
| ErrConflict | ErrStillConflicting (op : string) | ErrBucket | ErrDecode | ErrUUID | ErrSecret
| ErrPresence | ErrScenarioTooLarge | ErrNoTelemetry.

(** ** Programs *)

Inductive op : Type → Type :=
| OGet (k : rkey) : op (berr + rvalue * Z)
| OCreate (k : rkey) (v : rvalue) : op (berr + Z)
| OUpdate (k : rkey) (v : rvalue) (r : Z) : op (berr + Z)
| OPut (k : rkey) (v : rvalue) : op (berr + Z)
| ODelete (k : rkey) (r : Z) : op (berr + unit)
| OKeys (p : rkey → bool) : op (berr + list rkey)
| OLiveGet (k : rkey) : op (berr + rvalue * Z)
| OLivePut (k : rkey) (v : rvalue) : op (berr + Z)
| OLiveDelete (k : rkey) : op (berr + unit)
| OStatGet (k : rkey) : op (option heartbeatState)
| OStatPut (k : rkey) (hb : heartbeatState) : op unit
| OStatDelete (k : rkey) : op unit
| ONow : op Z
| ONewUUID : op (option Z)
| OSecret : op (option string)
| OAdmission : op (string * bool).   (* the bootstrap secret and auto-adoption *)

Inductive prog (A : Type) : Type :=
| Ret (a : A)
| Call {X} (o : op X) (k : X → prog A).
Arguments Ret {A} a.
Arguments Call {A X} o k.

Fixpoint bind {A B} (p : prog A) (f : A → prog B) : prog B :=
  match p with
  | Ret a => f a
  | Call o k => Call o (λ x, bind (k x) f)
  end.
Definition call {X} (o : op X) : prog X := Call o Ret.

#[export] Instance prog_mret : MRet prog := λ A, Ret.
#[export] Instance prog_mbind : MBind prog := λ A B f p, bind p f.

(** The result of a fallible operation. *)
Abbreviation result A := (serr + A)%type.

Definition liftErr (e : berr) : serr :=
  match e with BNotFound => ErrBucket | BConflict => ErrConflict | BIO => ErrBucket end.

Definition isConflict (e : serr) : bool := match e with ErrConflict => true | _ => false end.

(** [retry]: at most [retries] extra times after a revision conflict. *)
Fixpoint retry {A} (what : string) (retries : nat) (step : prog (result A)) : prog (result A) :=
  r ← step;
  match r with
  | inl ErrConflict =>
      match retries with
      | O => Ret (inl (ErrStillConflicting what))
      | S n => retry what n step
      end
  | r => Ret r
  end.

(** ** Records and names *)

Definition getRecord (typeID id : Z) : prog (result (record * Z)) :=
  r ← call (OGet (KEntity typeID id));
  Ret match r with
      | inr (VRecord rec, rev) => inr (rec, rev)
      | inr _ => inl ErrDecode
      | inl BNotFound => inl ErrNotFound
      | inl e => inl (liftErr e)
      end.

(** The name a key's value points at; [None] when it does not decode. *)
Definition heldBy (v : rvalue) : option nameRef := match v with VName ref => Some ref | _ => None end.

(** [claimName]; an undecodable key holds the zero reference. *)
Definition claimName (name : string) (ref : nameRef) : prog (result unit) :=
  if bool_decide (name = "") then Ret (inr ()) else
  c ← call (OCreate (KName name) (VName ref));
  match c with
  | inr _ => Ret (inr ())
  | inl BConflict =>
      g ← call (OGet (KName name));
      match g with
      | inl BNotFound => Ret (inl ErrConflict)
      | inl e => Ret (inl (liftErr e))
      | inr (v, rev) =>
          let held := default (mkRef 0 0) (heldBy v) in
          if bool_decide (held = ref) then Ret (inr ()) else
          h ← getRecord (n_TypeID held) (n_MachineID held);
          let takeOver :=
            u ← call (OUpdate (KName name) (VName ref) rev);
            Ret match u with inr _ => inr () | inl e => inl (liftErr e) end in
          match h with
          | inr (holder, _) => if bool_decide (Name holder = name) then Ret (inl ErrNameConflict) else takeOver
          | inl ErrNotFound => takeOver
          | inl e => Ret (inl e)
          end
      end
  | inl e => Ret (inl (liftErr e))
  end.

Definition moveName (name : string) (from to : nameRef) : prog (result unit) :=
  g ← call (OGet (KName name));
  match g with
  | inl BNotFound => c ← call (OCreate (KName name) (VName to));
                     Ret match c with inr _ => inr () | inl e => inl (liftErr e) end
  | inl e => Ret (inl (liftErr e))
  | inr (v, rev) =>
      if bool_decide (heldBy v = Some from) then
        u ← call (OUpdate (KName name) (VName to) rev);
        Ret match u with inr _ => inr () | inl e => inl (liftErr e) end
      else Ret (inl ErrConflict)
  end.

Definition releaseName (name : string) (ref : nameRef) : prog unit :=
  if bool_decide (name = "") then Ret () else
  g ← call (OGet (KName name));
  match g with
  | inr (v, rev) =>
      if bool_decide (heldBy v = Some ref) then _ ← call (ODelete (KName name) rev); Ret () else Ret ()
  | inl _ => Ret ()
  end.

Definition resolveName (name : string) : prog (result record) :=
  g ← call (OGet (KName name));
  match g with
  | inl BNotFound => Ret (inl ErrNotFound)
  | inl e => Ret (inl (liftErr e))
  | inr (v, _) =>
      match heldBy v with
      | None => Ret (inl ErrDecode)
      | Some ref =>
          r ← getRecord (n_TypeID ref) (n_MachineID ref);
          Ret match r with
              | inl e => inl e
              | inr (rec, _) => if bool_decide (Name rec = name) then inr rec else inl ErrNotFound
              end
      end
  end.

Section store.
Context (hash : string → string) (lim : limits) (mixerID : Z).

(** [security.SecretsEqual] and [registry.SecretMatches] *)
Definition SecretsEqual (a b : string) : bool :=
  negb (bool_decide (a = "")) && negb (bool_decide (b = "")) && bool_decide (a = b).
Definition SecretMatches (storedHash presented : string) : bool :=
  negb (bool_decide (storedHash = "")) && negb (bool_decide (presented = "")) && SecretsEqual storedHash (hash presented).

(** [toRack]: the record with presence and this Mixer's last heartbeat. *)
Definition toRack (rec : record) : prog Rack :=
  l ← call (OLiveGet (KEntity (TypeID rec) (MachineID rec)));
  let '(online, seen) := match l with
    | inr (VPresence p, _) => (true, Z.max (p_LastSeen p) (UpdatedAt rec))
    | _ => (false, UpdatedAt rec)
    end in
  s ← call (OStatGet (KEntity (TypeID rec) (MachineID rec)));
  let stats := match s with Some hb => hb_stats hb | None => None end in
  let config := match s with Some (mkHeartbeat _ (Some c)) => Some c | _ => Config rec end in
  Ret (mkRack (MachineID rec) (Name rec) (Status rec) (Version rec) (IP rec) (Port rec) "" (SecretHash rec)
         online (FirstSeen rec) seen (UpdateCount rec) stats config).

Definition withSecret (s : string) (r : Rack) : Rack :=
  mkRack (k_MachineID r) (k_Name r) (k_Status r) (k_Version r) (k_IP r) (k_Port r) s (k_SecretHash r)
    (k_Online r) (k_FirstSeen r) (k_LastSeen r) (k_UpdateCount r) (k_Stats r) (k_Config r).

(** The fields a Hello reports. *)
Record hello := mkHello { h_ip : string; h_port : Z; h_version : string; h_config : jmap; h_attrs : jmap }.

(** The record after a Hello of its own Rack at time [t], under machine [m]. *)
Definition refreshed (m t : Z) (h : hello) (rec : record) : record :=
  mkRecord (EntityID rec) (TypeID rec) m (MixerID rec) (Name rec) (Status rec) (SecretHash rec)
    (h_version h) (h_ip h) (h_port h) (FirstSeen rec) t (UpdateCount rec + 1) (h_config h) (h_attrs h).

Definition adopt (holder : record) (machineID : Z) (h : hello) (now : Z) : prog (result Rack) :=
  if bool_decide (machineID = 0 ∨ machineID = MachineID holder) then Ret (inl ErrIdentityMismatch) else
  g ← getRecord (TypeID holder) (MachineID holder);
  match g with
  | inl e => Ret (inl e)
  | inr (_, oldRev) =>
      let moved := refreshed machineID now h holder in
      c ← call (OCreate (KEntity (TypeID holder) machineID) (VRecord moved));
      match c with
      | inl e => Ret (inl (liftErr e))
      | inr newRev =>
          m ← moveName (Name holder) (mkRef (TypeID holder) (MachineID holder)) (mkRef (TypeID holder) machineID);
          match m with
          | inl e => _ ← call (ODelete (KEntity (TypeID holder) machineID) newRev); Ret (inl e)
          | inr _ =>
              _ ← call (ODelete (KEntity (TypeID holder) (MachineID holder)) oldRev);
              r ← toRack moved; Ret (inr r)
          end
      end
  end.

(** [entityID]: bytes 9..12 of the new UUID become the last four of the MachineID,
    byte 13 the entity type. *)
Definition withHint (typeID machineID u : Z) : Z :=
  Z.lor (Z.lor (Z.shiftl (Z.shiftr u 56) 56) (Z.shiftl (machineID mod 2 ^ 32) 24))
        (Z.lor (Z.shiftl (typeID mod 256) 16) (u mod 2 ^ 16)).
Definition entityID (typeID machineID : Z) : prog (result Z) :=
  u ← call ONewUUID;
  Ret match u with Some u => inr (withHint typeID machineID u) | None => inl ErrUUID end.

(** The third case of [registerOnce]: a fresh registration. *)
Definition registerFresh (typeID machineID : Z) (name secret : string) (h : hello) (mixer now : Z) : prog (result Rack) :=
  adm ← call OAdmission;
  let '(bootstrap, autoAdopt) := adm in
  if negb (SecretsEqual bootstrap secret) then Ret (inl ErrBootstrapSecretMismatch) else
  id ← (if bool_decide (machineID = 0) then call ONewUUID else Ret (Some machineID));
  match id with
  | None => Ret (inl ErrUUID)
  | Some machineID =>
      s ← call OSecret;
      match s with
      | None => Ret (inl ErrSecret)
      | Some issued =>
          e ← entityID typeID machineID;
          match e with
          | inl e => Ret (inl e)
          | inr eid =>
              let rec := mkRecord eid typeID machineID mixer name (if (autoAdopt : bool) then "active" else "pending")
                           (hash issued) (h_version h) (h_ip h) (h_port h) now now 0 (h_config h) (h_attrs h) in
              c ← call (OCreate (KEntity typeID machineID) (VRecord rec));
              match c with
              | inl e => Ret (inl (liftErr e))
              | inr rev =>
                  n ← claimName name (mkRef typeID machineID);
                  match n with
                  | inl e => _ ← call (ODelete (KEntity typeID machineID) rev); Ret (inl e)
                  | inr _ => r ← toRack rec; Ret (inr (withSecret issued r))
                  end
              end
          end
      end
  end.

(** The second case: the name may be taken. *)
Definition registerNamed (typeID machineID : Z) (name secret : string) (h : hello) (mixer now : Z) : prog (result Rack) :=
  if bool_decide (name = "") then registerFresh typeID machineID name secret h mixer now else
  r ← resolveName name;
  match r with
  | inr holder =>
      if bool_decide (TypeID holder = typeID) && SecretMatches (SecretHash holder) secret
      then adopt holder machineID h now else Ret (inl ErrNameConflict)
  | inl ErrNotFound => registerFresh typeID machineID name secret h mixer now
  | inl e => Ret (inl e)
  end.

Definition registerOnce (typeID machineID : Z) (name secret : string) (h : hello) (mixer : Z) : prog (result Rack) :=
  now ← call ONow;
  if bool_decide (machineID = 0) then registerNamed typeID machineID name secret h mixer now else
  g ← getRecord typeID machineID;
  match g with
  | inr (rec, rev) =>
      if negb (SecretMatches (SecretHash rec) secret) then Ret (inl ErrIdentityMismatch) else
      let rec := refreshed (MachineID rec) now h rec in
      u ← call (OUpdate (KEntity typeID machineID) (VRecord rec) rev);
      match u with
      | inl e => Ret (inl (liftErr e))
      | inr _ => r ← toRack rec; Ret (inr r)
      end
  | inl ErrNotFound => registerNamed typeID machineID name secret h mixer now
  | inl e => Ret (inl e)
  end.

Definition RegisterEntity (typeID machineID : Z) (name secret : string) (h : hello) (mixer : Z) : prog (result Rack) :=
  let h := mkHello (h_ip h) (h_port h) (h_version h) (jsonSafeMap (h_config h)) (jsonSafeMap (h_attrs h)) in
  retry "register" (WriteRetries lim) (registerOnce typeID machineID name secret h mixer).

Definition Register := RegisterEntity typeRack.

(** The Mixer's own entities: no secret, no name claimed. *)
Definition described (name : string) (t : Z) (ip : string) (port : Z) (version : string) (attrs : jmap) (count : Z) (rec : record) : record :=
  mkRecord (EntityID rec) (TypeID rec) (MachineID rec) (MixerID rec) name (Status rec) (SecretHash rec)
    version ip port (FirstSeen rec) t count (Config rec) attrs.

Definition UpsertSelf (typeID machineID : Z) (name ip : string) (port : Z) (version : string) (attrs : jmap) : prog (result unit) :=
  let attrs := jsonSafeMap attrs in
  retry "upsert self" (WriteRetries lim) (
    now ← call ONow;
    g ← getRecord typeID machineID;
    match g with
    | inl ErrNotFound =>
        e ← entityID typeID machineID;
        match e with
        | inl e => Ret (inl e)
        | inr eid =>
            let rec := mkRecord eid typeID machineID mixerID "" "active" "" "" "" 0 now 0 0 None None in
            c ← call (OCreate (KEntity typeID machineID) (VRecord (described name now ip port version attrs 0 rec)));
            Ret match c with inr _ => inr () | inl e => inl (liftErr e) end
        end
    | inl e => Ret (inl e)
    | inr (rec, rev) =>
        let rec := described name now ip port version attrs (UpdateCount rec + 1) rec in
        u ← call (OUpdate (KEntity typeID machineID) (VRecord rec) rev);
        Ret match u with inr _ => inr () | inl e => inl (liftErr e) end
    end).

(** The record renamed, activated, or with another status, at time [t]. *)
Definition renamed (name : string) (rec : record) : record :=
  mkRecord (EntityID rec) (TypeID rec) (MachineID rec) (MixerID rec) name (Status rec) (SecretHash rec)
    (Version rec) (IP rec) (Port rec) (FirstSeen rec) (UpdatedAt rec) (UpdateCount rec) (Config rec) (Attributes rec).
Definition withStatus (status : string) (t : Z) (rec : record) : record :=
  mkRecord (EntityID rec) (TypeID rec) (MachineID rec) (MixerID rec) (Name rec) status (SecretHash rec)
    (Version rec) (IP rec) (Port rec) (FirstSeen rec) t (UpdateCount rec) (Config rec) (Attributes rec).

(** The name of an approval: refused when another entity holds it. *)
Definition approvedName (id : Z) (oldName newName : string) : prog (result string) :=
  if bool_decide (newName = "" ∨ newName = oldName) then Ret (inr oldName) else
  h ← resolveName newName;
  Ret match h with
      | inr holder => if bool_decide (MachineID holder = id) then inr newName else inl ErrNameConflict
      | inl _ => inr newName
      end.

Definition approveOnce (id : Z) (newName : string) : prog (result Rack) :=
  g ← getRecord typeRack id;
  match g with
  | inl e => Ret (inl e)
  | inr (orig, rev) =>
      let ref := mkRef typeRack id in
      n ← approvedName id (Name orig) newName;
      match n with
      | inl e => Ret (inl e)
      | inr name =>
          now ← call ONow;
          let rec := withStatus "active" now (renamed name orig) in
          u ← call (OUpdate (KEntity typeRack id) (VRecord rec) rev);
          match u with
          | inl e => Ret (inl (liftErr e))
          | inr newRev =>
              if bool_decide (name = Name orig) then r ← toRack rec; Ret (inr r) else
              c ← claimName name ref;
              match c with
              | inl e => _ ← call (OUpdate (KEntity typeRack id) (VRecord orig) newRev); Ret (inl e)
              | inr _ => _ ← releaseName (Name orig) ref; r ← toRack rec; Ret (inr r)
              end
          end
      end
  end.

Definition Approve (id : Z) (newName : string) : prog (result Rack) :=
  retry "approve" (WriteRetries lim) (approveOnce id newName).

(** [Keys] with the prefix [entity.4.], [name.] and [scenario.]. *)
Definition isRackKey (k : rkey) : bool := match k with KEntity t _ => t =? typeRack | _ => false end.
Definition isNameKey (k : rkey) : bool := match k with KName _ => true | _ => false end.
Definition isScenarioKey (k : rkey) : bool := match k with KScenario _ => true | _ => false end.

Fixpoint listRacks (status : string) (keys : list rkey) : prog (list Rack) :=
  match keys with
  | [] => Ret []
  | KEntity t id :: keys =>
      g ← getRecord typeRack id;
      match g with
      | inl _ => listRacks status keys
      | inr (rec, _) =>
          if negb (bool_decide (status = "")) && negb (bool_decide (Status rec = status)) then listRacks status keys
          else r ← toRack rec; rest ← listRacks status keys; Ret (r :: rest)
      end
  | _ :: keys => listRacks status keys
  end.

Definition List_ (status : string) : prog (result (list Rack)) :=
  ks ← call (OKeys isRackKey);
  match ks with
  | inl e => Ret (inl (liftErr e))
  | inr keys => racks ← listRacks status keys; Ret (inr racks)
  end.

Definition GetEntity (typeID id : Z) : prog (result Rack) :=
  g ← getRecord typeID id;
  match g with inl e => Ret (inl e) | inr (rec, _) => r ← toRack rec; Ret (inr r) end.

Definition GetRackByName (name : string) : prog (result Z) :=
  r ← resolveName name;
  Ret match r with
      | inl e => inl e
      | inr rec => if bool_decide (TypeID rec ≠ typeRack ∨ Status rec ≠ "active") then inl ErrNotFound else inr (MachineID rec)
      end.

Definition HeartbeatEntity (typeID id : Z) (stats config : jmap) : prog (result unit) :=
  g ← getRecord typeID id;
  match g with
  | inl e => Ret (inl e)
  | inr _ =>
      now ← call ONow;
      p ← call (OLivePut (KEntity typeID id) (VPresence (mkPresence now mixerID)));
      match p with
      | inl _ => Ret (inl ErrPresence)
      | inr _ => _ ← call (OStatPut (KEntity typeID id) (mkHeartbeat (jsonSafeMap stats) (jsonSafeMap config))); Ret (inr ())
      end
  end.

Definition removeOnce (typeID id : Z) : prog (result unit) :=
  g ← getRecord typeID id;
  match g with
  | inl e => Ret (inl e)
  | inr (rec, rev) =>
      d ← call (ODelete (KEntity typeID id) rev);
      match d with
      | inl e => Ret (inl (liftErr e))
      | inr _ =>
          _ ← releaseName (Name rec) (mkRef typeID id);
          _ ← call (OLiveDelete (KEntity typeID id));
          _ ← call (OStatDelete (KEntity typeID id));
          Ret (inr ())
      end
  end.

Definition RemoveEntity (typeID id : Z) : prog (result unit) := retry "remove" (WriteRetries lim) (removeOnce typeID id).

Definition RemoveByName (name : string) : prog (result unit) :=
  r ← resolveName name;
  match r with
  | inl e => Ret (inl e)
  | inr rec => if bool_decide (TypeID rec = typeRack) then RemoveEntity typeRack (MachineID rec) else Ret (inl ErrNotFound)
  end.

Definition UpdateStatusEntity (typeID id : Z) (status : string) : prog (result unit) :=
  retry "update status" (WriteRetries lim) (
    g ← getRecord typeID id;
    match g with
    | inl e => Ret (inl e)
    | inr (rec, rev) =>
        now ← call ONow;
        u ← call (OUpdate (KEntity typeID id) (VRecord (withStatus status now rec)) rev);
        Ret match u with inr _ => inr () | inl e => inl (liftErr e) end
    end).

(** ** Scenario files and the active pointer *)

Definition tooLarge (n : Z) : bool := (0 <? MaxValueSize lim) && (MaxValueSize lim <? n).

Definition PutScenario (name content : string) : prog (result unit) :=
  if tooLarge (Z.of_nat (String.length content)) then Ret (inl ErrScenarioTooLarge) else
  p ← call (OPut (KScenario name) (VScenario content));
  Ret match p with inr _ => inr () | inl e => inl (liftErr e) end.

Definition GetScenario (name : string) : prog (result string) :=
  g ← call (OGet (KScenario name));
  Ret match g with
      | inr (VScenario c, _) => inr c
      | inr _ => inl ErrDecode
      | inl BNotFound => inl ErrNotFound
      | inl e => inl (liftErr e)
      end.

Definition ListScenarios : prog (result (list string)) :=
  ks ← call (OKeys isScenarioKey);
  Ret match ks with
      | inl e => inl (liftErr e)
      | inr keys => inr (omap (λ k, match k with KScenario n => Some n | _ => None end) (keys : list rkey))
      end.

(** [encodedLen] is the length of the encoded pointer. *)
Definition SetActive (encodedLen : ActiveScenario → Z) (a : ActiveScenario) : prog (result unit) :=
  if tooLarge (encodedLen a) then Ret (inl ErrScenarioTooLarge) else
  retry "set active" (WriteRetries lim) (
    g ← call (OGet KActive);
    match g with
    | inl BNotFound => c ← call (OCreate KActive (VActive a)); Ret match c with inr _ => inr () | inl e => inl (liftErr e) end
    | inl e => Ret (inl (liftErr e))
    | inr (_, rev) => u ← call (OUpdate KActive (VActive a) rev); Ret match u with inr _ => inr () | inl e => inl (liftErr e) end
    end).

Definition GetActive : prog (result ActiveScenario) :=
  g ← call (OGet KActive);
  Ret match g with
      | inr (VActive a, _) => inr a
      | inr _ => inl ErrDecode
      | inl BNotFound => inl ErrNotFound
      | inl e => inl (liftErr e)
      end.
End store.

(** ** Running programs *)

(** Everything a program can touch. [uuids] and [secrets] are the values the two
    generators will produce. *)
Record World := mkWorld {
  reg : MemoryBucket rvalue; liveness : MemoryBucket rvalue; stats : gmap rkey heartbeatState;
  now : Z; uuids : list Z; secrets : list string; bootstrap : string; autoAdopt : bool }.

Definition setReg (b : MemoryBucket rvalue) (w : World) : World :=
  mkWorld b (liveness w) (stats w) (now w) (uuids w) (secrets w) (bootstrap w) (autoAdopt w).
Definition setLive (b : MemoryBucket rvalue) (w : World) : World :=
  mkWorld (reg w) b (stats w) (now w) (uuids w) (secrets w) (bootstrap w) (autoAdopt w).
Definition setStats (s : gmap rkey heartbeatState) (w : World) : World :=
  mkWorld (reg w) (liveness w) s (now w) (uuids w) (secrets w) (bootstrap w) (autoAdopt w).

Definition onReg {A} (r : MemoryBucket rvalue * A) (w : World) : World * A := (setReg r.1 w, r.2).
Definition onLive {A} (r : MemoryBucket rvalue * A) (w : World) : World * A := (setLive r.1 w, r.2).

(** One call. *)
Definition doOp {X} (o : op X) (w : World) : World * X :=
  match o in op X return World * X with
  | OGet k => onReg (bGet (now w) k (reg w)) w
  | OCreate k v => onReg (bCreate (now w) k v (reg w)) w
  | OUpdate k v r => onReg (bUpdate (now w) k v r (reg w)) w
  | OPut k v => onReg (bPut (now w) k v (reg w)) w
  | ODelete k r => onReg (bDelete (now w) k r (reg w)) w
  | OKeys p => onReg (bKeys (now w) p (reg w)) w
  | OLiveGet k => onLive (bGet (now w) k (liveness w)) w
  | OLivePut k v => onLive (bPut (now w) k v (liveness w)) w
  | OLiveDelete k => onLive (bDelete (now w) k 0 (liveness w)) w
  | OStatGet k => (w, stats w !! k)
  | OStatPut k hb => (setStats (<[k := hb]> (stats w)) w, ())
  | OStatDelete k => (setStats (delete k (stats w)) w, ())
  | ONow => (w, now w)
  | ONewUUID =>
      (mkWorld (reg w) (liveness w) (stats w) (now w) (tail (uuids w)) (secrets w) (bootstrap w) (autoAdopt w), head (uuids w))
  | OSecret =>
      (mkWorld (reg w) (liveness w) (stats w) (now w) (uuids w) (tail (secrets w)) (bootstrap w) (autoAdopt w), head (secrets w))
  | OAdmission => (w, (bootstrap w, autoAdopt w))
  end.

(** A program alone. *)
Fixpoint exec {A} (p : prog A) (w : World) : World * A :=
  match p with
  | Ret a => (w, a)
  | Call o k => let '(w, x) := doOp o w in exec (k x) w
  end.

(** ** Interleaving programs *)

(** One call of a thread; [None] when it has ended. *)
Definition stepThread {A} (p : prog A) (w : World) : option (World * prog A) :=
  match p with
  | Ret _ => None
  | Call o k => let '(w, x) := doOp o w in Some (w, k x)
  end.

(** [sched] makes the threads named by the list take one call each, in that order. *)
Fixpoint sched {A} (l : list nat) (w : World) (ts : list (prog A)) : option (World * list (prog A)) :=
  match l with
  | [] => Some (w, ts)
  | i :: l =>
      match ts !! i ≫= λ p, stepThread p w with
      | Some (w, p) => sched l w (<[i := p]> ts)
      | None => None
      end
  end.

Definition finished {A} (p : prog A) : option A := match p with Ret a => Some a | _ => None end.
