(* ===== verification/RegistrySweep.v ===== *)
(** * pkg/registry/kvstore/sweep.go: repairing what a crash leaves

    [SweepOrphans] as a program: first every name key (a key whose entity is gone is
    deleted), then every Rack record whose own name does not resolve to it. *)
From S2P Require Import Prelude Bucket Registry.
Open Scope Z_scope.

Record SweepResult := mkSweep { Removed : Z; Repaired : Z; NameKeysRemoved : Z }.

(** [held]: the names that point at each entity, in the order of the keys. *)
Abbreviation held_t := (list (nameRef * string)).
Definition namesOf (held : held_t) (ref : nameRef) : list string :=
  omap (λ e : nameRef * string, if bool_decide (e.1 = ref) then Some e.2 else None) held.

(** The first loop; an unreadable key stops the sweep. *)
Fixpoint sweepNames (keys : list rkey) (held : held_t) (res : SweepResult) : prog (serr * SweepResult + held_t * SweepResult) :=
  match keys with
  | [] => Ret (inr (held, res))
  | KName name :: keys =>
      g ← call (OGet (KName name));
      match g with
      | inl BNotFound => sweepNames keys held res
      | inl e => Ret (inl (liftErr e, res))
      | inr (v, rev) =>
          match heldBy v with
          | None => Ret (inl (ErrDecode, res))
          | Some ref =>
              r ← getRecord (n_TypeID ref) (n_MachineID ref);
              match r with
              | inl ErrNotFound =>
                  d ← call (ODelete (KName name) rev);
                  match d with
                  | inr _ => sweepNames keys held (mkSweep (Removed res) (Repaired res) (NameKeysRemoved res + 1))
                  | inl _ => sweepNames keys held res
                  end
              | _ => sweepNames keys (held ++ [(ref, name)]) res
              end
          end
      end
  | _ :: keys => sweepNames keys held res
  end.

Fixpoint releaseAll (names : list string) (ref : nameRef) : prog unit :=
  match names with
  | [] => Ret ()
  | n :: names => _ ← releaseName n ref; releaseAll names ref
  end.

(** One Rack record of the second loop. *)
Definition sweepRack (grace id : Z) (held : held_t) (res : SweepResult) : prog (serr * SweepResult + SweepResult) :=
  g ← getRecord typeRack id;
  match g with
  | inl _ => Ret (inr res)
  | inr (rec, rev) =>
      if bool_decide (Name rec = "") then Ret (inr res) else
      now ← call ONow;
      if now - UpdatedAt rec <? grace then Ret (inr res) else
      let ref := mkRef typeRack id in
      let names := namesOf held ref in
      if bool_decide (Name rec ∈ names) then Ret (inr res) else
      match names with
      | [] =>
          d ← call (ODelete (KEntity typeRack id) rev);
          match d with
          | inr _ => _ ← call (OLiveDelete (KEntity typeRack id));
                     Ret (inr (mkSweep (Removed res + 1) (Repaired res) (NameKeysRemoved res)))
          | inl _ => Ret (inr res)
          end
      | old :: _ =>
          c ← claimName (Name rec) ref;
          match c with
          | inr _ =>
              _ ← releaseAll names ref;
              Ret (inr (mkSweep (Removed res) (Repaired res + 1) (NameKeysRemoved res)))
          | inl ErrNameConflict =>
              t ← call ONow;
              u ← call (OUpdate (KEntity typeRack id) (VRecord (withStatus (Status rec) t (renamed old rec))) rev);
              match u with
              | inr _ => Ret (inr (mkSweep (Removed res) (Repaired res + 1) (NameKeysRemoved res)))
              | inl _ => Ret (inr res)
              end
          | inl e => Ret (inl (e, res))
          end
      end
  end.

Fixpoint sweepRacks (grace : Z) (keys : list rkey) (held : held_t) (res : SweepResult) : prog (serr * SweepResult + SweepResult) :=
  match keys with
  | [] => Ret (inr res)
  | KEntity _ id :: keys =>
      r ← sweepRack grace id held res;
      match r with
      | inl e => Ret (inl e)
      | inr res => sweepRacks grace keys held res
      end
  | _ :: keys => sweepRacks grace keys held res
  end.

Definition SweepOrphans (grace : Z) : prog (serr * SweepResult + SweepResult) :=
  ns ← call (OKeys isNameKey);
  match ns with
  | inl e => Ret (inl (liftErr e, mkSweep 0 0 0))
  | inr keys =>
      h ← sweepNames keys [] (mkSweep 0 0 0);
      match h with
      | inl e => Ret (inl e)
      | inr (held, res) =>
          ks ← call (OKeys isRackKey);
          match ks with
          | inl e => Ret (inl (liftErr e, res))
          | inr keys => sweepRacks grace keys held res
          end
      end
  end.
