(* ===== verification/RegistryAuth.v ===== *)
(** * Who may enroll: what a registration can do, whatever the bucket answers

    [ensures p fs Q] quantifies over every answer each call of [p] may get, so over every
    bucket, every failure and every interleaving with other clients; [fs] collects what
    the program learned and wrote.  Under it a registration that succeeds was
    authenticated, and no registration gives itself a status or a secret. *)
From S2P Require Import Prelude Bucket Registry.
Open Scope Z_scope.

(** What a program learns or does. *)
Inductive fact :=
| FGot (k : rkey) (v : rvalue)
| FAdmit (bootstrap : string) (autoAdopt : bool)
| FSecret (s : string)
| FWrite (k : rkey) (v : rvalue)
| FDelete (k : rkey).

Definition factOf {X} (o : op X) : X → list fact :=
  match o in op X return X → list fact with
  | OGet k => λ x, match x with inr (v, _) => [FGot k v] | inl _ => [] end
  | OCreate k v => λ _, [FWrite k v]
  | OUpdate k v _ => λ _, [FWrite k v]
  | OPut k v => λ _, [FWrite k v]
  | ODelete k _ => λ _, [FDelete k]
  | OSecret => λ x, match x with Some s => [FSecret s] | None => [] end
  | OAdmission => λ x, [FAdmit x.1 x.2]
  | _ => λ _, []
  end.

Fixpoint ensures {A} (p : prog A) (fs : list fact) (Q : list fact → A → Prop) : Prop :=
  match p with
  | Ret a => Q fs a
  | Call o k => ∀ x, ensures (k x) (factOf o x ++ fs) Q
  end.

Lemma ensures_mono {A} (p : prog A) fs (Q Q' : list fact → A → Prop) :
  (∀ fs' a, fs ⊆ fs' → Q fs' a → Q' fs' a) → ensures p fs Q → ensures p fs Q'.
Proof.
  revert fs. induction p as [a|X o k IH]; intros fs HQ H; simpl in *; [by apply HQ|].
  intros x. apply IH; [|done]. intros fs' a Hs. apply HQ. set_solver.
Qed.

Lemma ensures_bind {A B} (p : prog A) (f : A → prog B) fs Q :
  ensures p fs (λ fs' a, ensures (f a) fs' Q) → ensures (p ≫= f) fs Q.
Proof.
  revert fs. induction p as [a|X o k IH]; intros fs H; [exact H|].
  change (∀ x, ensures (bind (k x) f) (factOf o x ++ fs) Q). intros x. apply IH. apply H.
Qed.

Lemma ensures_call {X B} (o : op X) (f : X → prog B) fs Q :
  (∀ x, ensures (f x) (factOf o x ++ fs) Q) → ensures (call o ≫= f) fs Q.
Proof. done. Qed.

(** What holds for every answer holds of a run. *)
Lemma ensures_exec {A} (p : prog A) fs Q w : ensures p fs Q → ∃ fs', Q fs' (exec p w).2.
Proof.
  revert fs w. induction p as [a|X o k IH]; intros fs w H; simpl in *; [by exists fs|].
  destruct (doOp o w) as [w' x]. by eapply IH.
Qed.

(** A property of the facts alone, true from the start and kept by every call. *)
Lemma ensures_retry {A} what n (step : prog (result A)) fs (Q : list fact → result A → Prop) :
  (∀ fs0, fs ⊆ fs0 → (fs0 = fs ∨ ∃ e, Q fs0 (inl e)) → ensures step fs0 Q) →
  (∀ fs0 e, Q fs0 (inl ErrConflict) → Q fs0 (inl e)) →
  ensures (retry what n step) fs Q.
Proof.
  intros Hstep Herr.
  assert (∀ n fs0, fs ⊆ fs0 → (fs0 = fs ∨ ∃ e, Q fs0 (inl e)) → ensures (retry what n step) fs0 Q) as Hgo.
  { clear n. induction n as [|n IH]; intros fs0 Hs H0; cbn [retry]; apply ensures_bind;
      (eapply ensures_mono; [|by apply Hstep]); intros fs' r Hs' HQ; destruct r as [e|a]; try done;
      destruct e; try done; cbn; [by eapply Herr|]. apply IH; [by etrans|right; eauto]. }
  apply Hgo; [done|by left].
Qed.

Section auth.
Context (hash : string → string) (lim : limits).
Abbreviation SecretMatches := (SecretMatches hash).
Implicit Types (fs : list fact) (rec : record) (rack : Rack).

(** ** The facts a registration may rest on *)

(** A record of the Rack's own, with a secret that matches. *)
Definition provedOwn (t m : Z) (secret : string) fs rack : Prop :=
  m ≠ 0 ∧ ∃ rec, FGot (KEntity t m) (VRecord rec) ∈ fs ∧ SecretMatches (SecretHash rec) secret = true ∧
    k_MachineID rack = MachineID rec ∧ k_Name rack = Name rec ∧ k_Status rack = Status rec ∧ k_Secret rack = "".

(** The record that holds the name, with a secret that matches. *)
Definition provedHolder (t m : Z) (name secret : string) fs rack : Prop :=
  ∃ t' m' rec, FGot (KEntity t' m') (VRecord rec) ∈ fs ∧ TypeID rec = t ∧ Name rec = name ∧
    SecretMatches (SecretHash rec) secret = true ∧ k_MachineID rack = m ∧ k_Name rack = name ∧
    k_Status rack = Status rec ∧ k_Secret rack = "".

(** The bootstrap secret, and a secret of its own. *)
Definition provedBootstrap (name secret : string) fs rack : Prop :=
  ∃ b auto s, FAdmit b auto ∈ fs ∧ SecretsEqual b secret = true ∧ FSecret s ∈ fs ∧
    k_Secret rack = s ∧ k_SecretHash rack = hash s ∧ k_Name rack = name ∧
    k_Status rack = (if (auto : bool) then "active" else "pending").

Definition authenticated (t m : Z) (name secret : string) fs (r : result Rack) : Prop :=
  ∀ rack, r = inr rack →
    provedOwn t m secret fs rack ∨ provedHolder t m name secret fs rack ∨ provedBootstrap name secret fs rack.

(** A record written by a registration keeps status and secret of one it read, or is a
    new one with the status admission gives and a secret just issued. *)
Definition unescalated fs : Prop :=
  ∀ k rec, FWrite k (VRecord rec) ∈ fs →
    (∃ k' old, FGot k' (VRecord old) ∈ fs ∧ Status rec = Status old ∧ SecretHash rec = SecretHash old ∧ Name rec = Name old) ∨
    (∃ b auto s, FAdmit b auto ∈ fs ∧ FSecret s ∈ fs ∧ SecretHash rec = hash s ∧
       Status rec = (if (auto : bool) then "active" else "pending")).

Lemma unescalated_app l fs :
  unescalated fs → (∀ k rec, FWrite k (VRecord rec) ∉ l) → unescalated (l ++ fs).
Proof.
  intros H Hl k rec [Hin|Hin]%elem_of_app; [by destruct (Hl _ _ Hin)|].
  destruct (H k rec Hin) as [(k' & old & ? & ?)|(b & auto & s & ? & ? & ?)]; [left|right].
  - exists k', old. split; [|done]. set_solver.
  - exists b, auto, s. split; [set_solver|]. split; [set_solver|done].
Qed.

(** What every step keeps. *)
Definition grows fs fs' : Prop := fs ⊆ fs' ∧ (unescalated fs → unescalated fs').

Lemma grows_refl fs : grows fs fs.
Proof. split; [done|auto]. Qed.

Lemma grows_trans fs1 fs2 fs3 : grows fs1 fs2 → grows fs2 fs3 → grows fs1 fs3.
Proof. intros [A B] [C D]. split; [set_solver|auto]. Qed.

Lemma grows_app l fs : (∀ k rec, FWrite k (VRecord rec) ∉ l) → grows fs (l ++ fs).
Proof. intros Hl. split; [set_solver|]. intros. by apply unescalated_app. Qed.

Lemma grows_cons f fs fs' : (∀ k rec, f ≠ FWrite k (VRecord rec)) → grows fs fs' → grows fs (f :: fs').
Proof.
  intros Hf Hg. eapply grows_trans; [done|]. apply (grows_app [f]). intros k rec Hin%list_elem_of_singleton. by eapply Hf.
Qed.

(** Calls that write no record. *)
Ltac no_record := cbn; repeat first [done | apply grows_refl | apply grows_cons; [intros; discriminate|]].

Lemma getRecord_ensures t m fs :
  ensures (getRecord t m) fs (λ fs' r, grows fs fs' ∧
    ∀ rec v, r = inr (rec, v) → FGot (KEntity t m) (VRecord rec) ∈ fs').
Proof.
  intros x. cbn. destruct x as [e|[v r]]; [split; [apply grows_refl|]; by destruct e|].
  split; [no_record|]. intros rec rv. destruct v; intros; simplify_eq. left.
Qed.

Lemma toRack_ensures rec fs :
  ensures (toRack rec) fs (λ fs' rack, fs' = fs ∧
    k_MachineID rack = MachineID rec ∧ k_Name rack = Name rec ∧ k_Status rack = Status rec ∧
    k_SecretHash rack = SecretHash rec ∧ k_Secret rack = "").
Proof. intros x. cbn. destruct x as [e|[[] r]]; intros y; cbn; done. Qed.

Lemma claimName_ensures name ref fs : ensures (claimName name ref) fs (λ fs' _, grows fs fs').
Proof.
  unfold claimName. case_bool_decide; [apply grows_refl|]. intros [e|r]; cbn; [|no_record].
  destruct e; [no_record| |no_record]. intros [e|[v r]]; cbn; [destruct e; no_record|].
  case_bool_decide; [cbn; no_record|].
  intros [e|[v' r']]; cbn; [destruct e; cbn; try no_record|destruct v'; cbn; try no_record; case_bool_decide; cbn; try no_record];
    intros [e|u]; cbn; no_record.
Qed.

Lemma moveName_ensures name from to fs : ensures (moveName name from to) fs (λ fs' _, grows fs fs').
Proof.
  intros [e|[v r]]; cbn.
  - destruct e; cbn; try apply grows_refl. intros []; cbn; no_record.
  - case_bool_decide; cbn; [|no_record]. intros []; cbn; no_record.
Qed.

Lemma resolveName_ensures name fs :
  ensures (resolveName name) fs (λ fs' r, grows fs fs' ∧
    ∀ rec, r = inr rec → Name rec = name ∧ ∃ t m, FGot (KEntity t m) (VRecord rec) ∈ fs').
Proof.
  apply ensures_call. intros [e|[v r]]; [destruct e; by split; [apply grows_refl|]|].
  destruct (heldBy v) as [ref|]; [|by split; [no_record|]]. apply ensures_bind.
  eapply ensures_mono; [|apply getRecord_ensures]. intros fs' res _ [Hg Hr]. cbn.
  assert (grows fs fs') as Hgr by (eapply grows_trans; [|done]; no_record).
  split; [done|]. intros rec. destruct res as [|[rec' rv]]; [done|]. case_bool_decide; [|done]. intros [= <-].
  split; [done|]. exists (n_TypeID ref), (n_MachineID ref). by eapply Hr.
Qed.

(** A record read and written back with its status, secret and name. *)
Lemma grows_rewrite k rec k0 old fs :
  FGot k0 (VRecord old) ∈ fs → Status rec = Status old → SecretHash rec = SecretHash old → Name rec = Name old →
  grows fs ([FWrite k (VRecord rec)] ++ fs).
Proof.
  intros Hold Hs Hh Hn. split; [set_solver|]. intros Hu k' rec' [Hin|Hin]%elem_of_app.
  - apply list_elem_of_singleton in Hin. simplify_eq. left. exists k0, old. split; [set_solver|done].
  - destruct (Hu k' rec' Hin) as [(k1 & o & ? & ?)|(b & a & s & ? & ? & ?)]; [left|right].
    + exists k1, o. split; [set_solver|done].
    + exists b, a, s. split; [set_solver|]. split; [set_solver|done].
Qed.

Lemma grows_new k rec b (auto : bool) s fs :
  FAdmit b auto ∈ fs → FSecret s ∈ fs → SecretHash rec = hash s → Status rec = (if auto then "active" else "pending") →
  grows fs ([FWrite k (VRecord rec)] ++ fs).
Proof.
  intros Ha Hs Hh Hst. split; [set_solver|]. intros Hu k' rec' [Hin|Hin]%elem_of_app.
  - apply list_elem_of_singleton in Hin. simplify_eq. right. exists b, auto, s. split; [set_solver|]. split; [set_solver|done].
  - destruct (Hu k' rec' Hin) as [(k1 & o & ? & ?)|(b' & a & s' & ? & ? & ?)]; [left|right].
    + exists k1, o. split; [set_solver|done].
    + exists b', a, s'. split; [set_solver|]. split; [set_solver|done].
Qed.

Definition outcome (t m : Z) (name secret : string) fs fs' (r : result Rack) : Prop :=
  grows fs fs' ∧ authenticated t m name secret fs' r.

Lemma outcome_err t m name secret fs fs' e : grows fs fs' → outcome t m name secret fs fs' (inl e).
Proof. by split. Qed.

Lemma adopt_ensures t m name secret holder t0 m0 h now fs :
  FGot (KEntity t0 m0) (VRecord holder) ∈ fs → TypeID holder = t → Name holder = name →
  SecretMatches (SecretHash holder) secret = true →
  ensures (adopt holder m h now) fs (outcome t m name secret fs).
Proof.
  intros Hgot Ht Hn Hs. unfold adopt. case_bool_decide; [by apply outcome_err, grows_refl|].
  apply ensures_bind. eapply ensures_mono; [|apply getRecord_ensures]. intros fs1 r Hsub [Hg1 _].
  destruct r as [e|[old rv]]; [by apply outcome_err|].
  set (moved := refreshed m now h holder). apply ensures_call. intros c.
  assert (grows fs (factOf (OCreate (KEntity (TypeID holder) m) (VRecord moved)) c ++ fs1)) as Hg2.
  { eapply grows_trans; [done|]. by eapply grows_rewrite; [apply Hsub|..]. }
  destruct c as [e|newRev]; [by apply outcome_err|]. apply ensures_bind.
  eapply ensures_mono; [|apply moveName_ensures]. intros fs3 r _ Hg3.
  destruct r as [e|[]]; apply ensures_call.
  - intros d. apply outcome_err. eapply grows_trans; [by eapply grows_trans|no_record].
  - intros d. apply ensures_bind. eapply ensures_mono; [|apply toRack_ensures].
    intros fs4 rack _ (-> & A & B & C & D & E). split.
    + eapply grows_trans; [by eapply grows_trans|no_record].
    + intros rack' [= <-]. right. left. exists t0, m0, holder. split_and!; try done; [|cbn in *; congruence].
      destruct Hg3 as [Hs3 _], Hg2 as [Hs2 _]. apply elem_of_app. right. by apply Hs3, Hs2.
Qed.

Lemma registerFresh_ensures t m m0 name secret h mixer now fs :
  ensures (registerFresh hash t m name secret h mixer now) fs (outcome t m0 name secret fs).
Proof.
  apply ensures_call. intros [b auto]. cbn [factOf fst snd]. set (fs1 := [FAdmit b auto] ++ fs).
  assert (grows fs fs1) as Hg1 by no_record. assert (FAdmit b auto ∈ fs1) as Ha by set_solver.
  destruct (SecretsEqual b secret) eqn:Hb; cbn [negb]; [|by apply outcome_err].
  apply ensures_bind. apply (ensures_mono _ _ (λ fs' _, fs' = fs1)); [|by case_bool_decide; [intros x|]].
  intros fs2 [id|] _ ->; [|by apply outcome_err]. apply ensures_call. intros s. cbn [factOf].
  destruct s as [s|]; [|by apply outcome_err]. set (fs2 := [FSecret s] ++ fs1).
  assert (grows fs fs2) as Hg2 by (eapply grows_trans; [done|no_record]).
  assert (FSecret s ∈ fs2) as Hs by set_solver. apply ensures_bind, ensures_call. intros u. cbn [factOf app].
  destruct u as [u|]; [|by apply outcome_err]. cbn [ensures]. cbv zeta.
  set (rec := mkRecord _ t id mixer name _ _ _ _ _ _ _ _ _ _). apply ensures_call. intros c.
  set (fs3 := factOf _ c ++ fs2). assert (grows fs fs3) as Hg3.
  { eapply grows_trans; [done|]. eapply (grows_new _ rec b auto s); [set_solver|done|done|done]. }
  destruct c as [e|rv]; [by apply outcome_err|]. apply ensures_bind.
  eapply ensures_mono; [|apply claimName_ensures]. intros fs4 r _ Hg4.
  destruct r as [e|[]].
  - apply ensures_call. intros d. apply outcome_err. eapply grows_trans; [by eapply grows_trans|no_record].
  - apply ensures_bind. eapply ensures_mono; [|apply toRack_ensures].
    intros fs5 rack _ (-> & A & B & C & D & E). split; [by eapply grows_trans|].
    intros rack' [= <-]. right. right. exists b, auto, s. destruct Hg4 as [Hs4 _].
    split_and!; try done; apply Hs4; set_solver.
Qed.

Lemma registerNamed_ensures t m name secret h mixer now fs :
  ensures (registerNamed hash t m name secret h mixer now) fs (outcome t m name secret fs).
Proof.
  unfold registerNamed. case_bool_decide; [apply registerFresh_ensures|]. apply ensures_bind.
  eapply ensures_mono; [|apply resolveName_ensures]. intros fs1 r _ [Hg Hr].
  assert (∀ fs' r', outcome t m name secret fs1 fs' r' → outcome t m name secret fs fs' r') as Hlift
    by (intros fs' r' [? ?]; split; [by eapply grows_trans|done]).
  destruct r as [e|holder].
  - destruct e; try (by apply outcome_err). eapply ensures_mono; [|apply registerFresh_ensures]. intros; by apply Hlift.
  - destruct (Hr holder eq_refl) as (Hn & t0 & m0 & Hgot).
    destruct (bool_decide (TypeID holder = t)) eqn:Ht; [|by apply outcome_err]. apply bool_decide_eq_true in Ht.
    destruct (SecretMatches (SecretHash holder) secret) eqn:Hs; [|by apply outcome_err]. cbn [andb].
    eapply ensures_mono; [|by eapply adopt_ensures]. intros; by apply Hlift.
Qed.

Lemma registerOnce_ensures t m name secret h mixer fs :
  ensures (registerOnce hash t m name secret h mixer) fs (outcome t m name secret fs).
Proof.
  apply ensures_call. intros now. cbn [factOf app]. case_bool_decide as Hm; [apply registerNamed_ensures|].
  apply ensures_bind. eapply ensures_mono; [|apply getRecord_ensures]. intros fs1 r _ [Hg Hr].
  destruct r as [e|[rec rv]].
  - destruct e; try (by apply outcome_err). eapply ensures_mono; [|apply registerNamed_ensures].
    intros fs' r' _ [? ?]. split; [by eapply grows_trans|done].
  - specialize (Hr rec rv eq_refl). destruct (SecretMatches (SecretHash rec) secret) eqn:Hs; cbn [negb]; [|by apply outcome_err].
    apply ensures_call. intros u. set (fs2 := factOf _ u ++ fs1). set (rec' := refreshed (MachineID rec) now h rec).
    assert (grows fs fs2) as Hg2 by (eapply grows_trans; [done|]; by eapply grows_rewrite).
    destruct u as [e|rv2]; [by apply outcome_err|]. apply ensures_bind. eapply ensures_mono; [|apply toRack_ensures].
    intros fs3 rack _ (-> & A & B & C & D & E). split; [done|]. intros rack' [= <-]. left. split; [done|].
    exists rec. split_and!; try done. set_solver.
Qed.

Lemma unescalated_nil : unescalated [].
Proof. intros k rec Hin. by apply elem_of_nil in Hin. Qed.

Lemma RegisterEntity_ensures t m name secret h mixer fs :
  ensures (RegisterEntity hash lim t m name secret h mixer) fs (outcome t m name secret fs).
Proof.
  unfold RegisterEntity. apply ensures_retry.
  - intros fs0 Hs H0. eapply ensures_mono; [|apply registerOnce_ensures]. intros fs' r _ [Hg Ha].
    split; [|done]. destruct H0 as [->|(e & Hg0 & _)]; [done|by eapply grows_trans].
  - intros fs0 e [Hg _]. by apply outcome_err.
Qed.

(** C33: only the authenticated enroll: whatever the bucket answers to each call, other
    clients and failures included, a registration that returns a Rack either read that
    machine's own record and was shown its secret, or read the record that holds the name
    and was shown its secret, or was shown the bootstrap secret and issued a new secret;
    and the Rack it returns has the name and the status that case allows. *)
Theorem enroll_authenticated t m name secret h mixer :
  ensures (RegisterEntity hash lim t m name secret h mixer) [] (authenticated t m name secret).
Proof. eapply ensures_mono; [|apply RegisterEntity_ensures]. by intros fs r _ [_ ?]. Qed.

(** no registration promotes itself: whatever the bucket answers, every record a
    registration writes keeps the status, the name and the secret of a record it read, or is
    a new record with a secret just issued, pending unless auto-adoption is on. *)
Theorem enroll_never_escalates t m name secret h mixer :
  ensures (RegisterEntity hash lim t m name secret h mixer) [] (λ fs _, unescalated fs).
Proof.
  eapply ensures_mono; [|apply RegisterEntity_ensures]. intros fs r _ [[_ Hu] _]. apply Hu, unescalated_nil.
Qed.

(** an unapproved Rack is never a deploy target: whatever the bucket answers, a name
    resolves to a Rack only through a record of that name whose status is active. *)
Theorem deploy_target_active name :
  ensures (GetRackByName name) [] (λ fs r, ∀ id, r = inr id →
    ∃ t m rec, FGot (KEntity t m) (VRecord rec) ∈ fs ∧ Name rec = name ∧ Status rec = "active" ∧
      TypeID rec = typeRack ∧ MachineID rec = id).
Proof.
  unfold GetRackByName. apply ensures_bind. eapply ensures_mono; [|apply resolveName_ensures].
  intros fs r _ [_ Hr] id. destruct r as [|rec]; [done|]. case_bool_decide as Hb; [done|]. intros [= <-].
  destruct (Hr rec eq_refl) as (Hn & t & m & Hgot). exists t, m, rec. split_and!; try done.
  - destruct (decide (Status rec = "active")); [done|]. destruct Hb. by right.
  - destruct (decide (TypeID rec = typeRack)); [done|]. destruct Hb. by left.
Qed.
End auth.
