(* ===== verification/RegistryNames.v ===== *)
(** * Concurrent registrations never share a name

    A small rely-guarantee logic for programs over the bucket: [safe] says that a program
    keeps the invariant and its guarantee at every call, whatever the other threads do
    within the rely between two calls.  With it: any number of machines registering at
    the same time, call by call interleaved, failing calls included, never end with one
    name held twice.  The last theorem shows that renames are not safe in this way. *)
From S2P Require Import Prelude Bucket Registry RegistrySweep.
Open Scope Z_scope.

(** ** Calls that may fail *)

(** The answer of a failed call, where the call can fail. *)
Definition ioFail {X} (o : op X) : option X :=
  match o in op X return option X with
  | OGet _ => Some (inl BIO) | OCreate _ _ => Some (inl BIO) | OUpdate _ _ _ => Some (inl BIO)
  | OPut _ _ => Some (inl BIO) | ODelete _ _ => Some (inl BIO) | OKeys _ => Some (inl BIO)
  | OLiveGet _ => Some (inl BIO) | OLivePut _ _ => Some (inl BIO) | OLiveDelete _ => Some (inl BIO)
  | ONewUUID => Some None | OSecret => Some None
  | _ => None
  end.

(** A call is made, or fails without effect. *)
Inductive ostep {X} (o : op X) (w : World) : World → X → Prop :=
| os_ok : ostep o w (doOp o w).1 (doOp o w).2
| os_fail x : ioFail o = Some x → ostep o w w x.

(** One thread of a pool makes one call. *)
Inductive pool_step {A} : World * list (prog A) → World * list (prog A) → Prop :=
| pool_call w ts i X (o : op X) k w' x :
    ts !! i = Some (Call o k) → ostep o w w' x → pool_step (w, ts) (w', <[i := k x]> ts).

(** ** Rely and guarantee *)

Section logic.
Context (Inv : World → Prop) (R : World → World → Prop) (G : World → World → Prop).

Definition stable (L : World → Prop) : Prop := ∀ w w', Inv w → Inv w' → L w → R w w' → L w'.

(** From a world in [L], [p] keeps [Inv] and [G] and ends in [Q]. *)
Fixpoint safe {A} (p : prog A) (L : World → Prop) (Q : A → World → Prop) : Prop :=
  match p with
  | Ret a => ∀ w, Inv w → L w → Q a w
  | Call o k => ∀ w, Inv w → L w → ∀ w' x, ostep o w w' x →
      Inv w' ∧ G w w' ∧ ∃ L', L' w' ∧ stable L' ∧ safe (k x) L' Q
  end.

Lemma safe_weaken {A} (p : prog A) L L' Q Q' :
  safe p L Q → (∀ w, Inv w → L' w → L w) → (∀ a w, Q a w → Q' a w) → safe p L' Q'.
Proof.
  revert L L'. induction p as [a|X o k IH]; intros L L' H HL HQ; simpl in *; [eauto|].
  intros w Hi Hl w' x Hs. destruct (H w Hi (HL w Hi Hl) w' x Hs) as (? & ? & L1 & ? & ? & ?).
  split_and!; [done|done|]. exists L1. split_and!; [done..|]. by eapply IH.
Qed.

Lemma safe_bind {A B} (p : prog A) (f : A → prog B) L Q :
  safe p L (λ a w, ∃ L', L' w ∧ safe (f a) L' Q) → safe (p ≫= f) L Q.
Proof.
  revert L. induction p as [a|X o k IH]; intros L H.
  - change (safe (f a) L Q). revert H. cbn [safe]. intros H.
    destruct (f a) as [b|Y o k]; cbn [safe] in *.
    + intros w Hi Hl. destruct (H w Hi Hl) as (L' & ? & Hs). by apply Hs.
    + intros w Hi Hl. destruct (H w Hi Hl) as (L' & ? & Hs). by apply Hs.
  - intros w Hi Hl w' x Hs. destruct (H w Hi Hl w' x Hs) as (? & ? & L' & ? & ? & ?).
    split_and!; [done|done|]. exists L'. split_and!; [done..|]. by apply IH.
Qed.

Lemma safe_call {X B} (o : op X) (f : X → prog B) L Q :
  (∀ w, Inv w → L w → ∀ w' x, ostep o w w' x →
     Inv w' ∧ G w w' ∧ ∃ L', L' w' ∧ stable L' ∧ safe (f x) L' Q) →
  safe (call o ≫= f) L Q.
Proof. done. Qed.
End logic.

(** ** The registration pool *)

Section names.
Context (hash : string → string) (lim : limits).

(** A machine that enrolls. *)
Record enrollee := mkEnrollee { e_machine : Z; e_name : string; e_secret : string; e_hello : hello; e_mixer : Z }.

Definition enroll (e : enrollee) : prog (result Rack) :=
  Register hash lim (e_machine e) (e_name e) (e_secret e) (e_hello e) (e_mixer e).

Definition regItems (w : World) : gmap rkey (memItem rvalue) := items (reg w).

(** The key of name [n] points at [ref]. *)
Definition pointsAt (w : World) (n : string) (ref : nameRef) : Prop :=
  ∃ it, regItems w !! KName n = Some it ∧ value it = VName ref.

(** The record of [ref] is [rec]. *)
Definition recordAt (w : World) (ref : nameRef) (rec : record) : Prop :=
  ∃ it, regItems w !! KEntity (n_TypeID ref) (n_MachineID ref) = Some it ∧ value it = VRecord rec.

(** Every name key points at a record that carries the name. *)
Definition namesConsistent (w : World) : Prop :=
  maxAge (reg w) = 0 ∧
  (∀ n, is_Some (regItems w !! KName n) → ∃ ref rec, pointsAt w n ref ∧ recordAt w ref rec ∧ Name rec = n) ∧
  (∀ t m, is_Some (regItems w !! KEntity t m) → ∃ rec, recordAt w (mkRef t m) rec).

(** No Rack was issued, and none will be, a secret that one of [ss] matches. *)
Definition secretsFresh (ss : list string) (w : World) : Prop :=
  (∀ ref rec s, recordAt w ref rec → s ∈ ss → SecretMatches hash (SecretHash rec) s = false) ∧
  (∀ issued s, issued ∈ secrets w → s ∈ ss → SecretMatches hash (hash issued) s = false).

Context (ss : list string).

Definition names_inv (w : World) : Prop := namesConsistent w ∧ secretsFresh ss w.

(** What the other threads leave alone for machine [m]: its record, every claimed name,
    and no key newly points at it. *)
Definition others (m : Z) (w w' : World) : Prop :=
  regItems w' !! KEntity typeRack m = regItems w !! KEntity typeRack m ∧
  (∀ n it, regItems w !! KName n = Some it → regItems w' !! KName n = Some it) ∧
  (∀ n, pointsAt w' n (mkRef typeRack m) → pointsAt w n (mkRef typeRack m)).

(** What the thread of machine [m] does: it writes its own record, and claims free names
    for itself. *)
Definition mine (m : Z) (w w' : World) : Prop :=
  ∀ k, regItems w' !! k = regItems w !! k ∨ k = KEntity typeRack m ∨
       ∃ n it, k = KName n ∧ regItems w !! k = None ∧ regItems w' !! k = Some it ∧ value it = VName (mkRef typeRack m).

Lemma mine_others m m' w w' : m ≠ m' → mine m w w' → others m' w w'.
Proof.
  intros Hm H. split_and!.
  - destruct (H (KEntity typeRack m')) as [?|[?|(? & ? & ? & _)]]; simplify_eq; done.
  - intros n it Hn. destruct (H (KName n)) as [He|[?|(? & ? & ? & ? & _)]]; simplify_eq; congruence.
  - intros n (it & Hit & Hv). destruct (H (KName n)) as [He|[?|(? & ? & ? & ? & ? & ?)]]; simplify_eq.
    + exists it. by rewrite <- He.
    + congruence.
Qed.

Lemma mine_same m w w' : regItems w' = regItems w → mine m w w'.
Proof. intros H k. left. by rewrite H. Qed.

Lemma inv_same w w' :
  regItems w' = regItems w → maxAge (reg w') = maxAge (reg w) → (∀ s, s ∈ secrets w' → s ∈ secrets w) →
  names_inv w → names_inv w'.
Proof.
  unfold names_inv, namesConsistent, secretsFresh, pointsAt, recordAt. intros -> -> Hs [H1 [H2 H3]].
  split_and!; try apply H1; [done|]. naive_solver.
Qed.

(** *** The calls *)

Lemma live_ageless {V} t k (b : MemoryBucket V) : maxAge b = 0 → live t k b = (b, items b !! k).
Proof. intros H. unfold live. rewrite H. by destruct (items b !! k). Qed.

(** The answer of a [Get]. *)
Definition answer (k : rkey) (w : World) : berr + rvalue * Z :=
  match regItems w !! k with Some it => inr (value it, rev it) | None => inl BNotFound end.

(** Calls that leave the registry bucket alone. *)
Definition quiet {X} (o : op X) : bool :=
  match o with OGet _ | OKeys _ | OLiveGet _ | OLivePut _ _ | OLiveDelete _ | OStatGet _ | OStatPut _ _
  | OStatDelete _ | ONow | ONewUUID | OSecret | OAdmission => true | _ => false end.

Lemma quiet_same {X} (o : op X) w w' x :
  quiet o = true → names_inv w → ostep o w w' x →
  regItems w' = regItems w ∧ maxAge (reg w') = maxAge (reg w) ∧ (∀ s, s ∈ secrets w' → s ∈ secrets w).
Proof.
  intros Hq [[Ha _] _] [|]; [|done].
  destruct o; try done; simpl; unfold regItems; simpl; rewrite ?live_ageless by done.
  - unfold bGet. rewrite live_ageless by done. by destruct (items (reg w) !! k).
  - split_and!; [done..|]. destruct (secrets w); set_solver.
Qed.

Abbreviation SAFE m := (safe names_inv (others m) (mine m)).
Abbreviation STABLE m := (stable names_inv (others m)).

Lemma safe_quiet m {X B} (o : op X) (f : X → prog B) L Q :
  quiet o = true → STABLE m L →
  (∀ w w' x, names_inv w → L w → ostep o w w' x → regItems w' = regItems w → L w' ∧
     ∃ L', L' w' ∧ STABLE m L' ∧ SAFE m (f x) L' Q) →
  SAFE m (call o ≫= f) L Q.
Proof.
  intros Hq Hst H. apply safe_call. intros w Hi Hl w' x Hs.
  destruct (quiet_same o w w' x Hq Hi Hs) as (Hr & Ha & Hsec).
  split_and!; [by eapply inv_same|by apply mine_same|]. by destruct (H w w' x Hi Hl Hs Hr) as [_ ?].
Qed.

(** A local assertion that speaks of the registry bucket only. *)
Definition regOnly (L : World → Prop) : Prop := ∀ w w', regItems w' = regItems w → L w → L w'.

Lemma safe_quiet_any m {X B} (o : op X) (f : X → prog B) L Q :
  quiet o = true → STABLE m L → regOnly L → (∀ x, SAFE m (f x) L Q) → SAFE m (call o ≫= f) L Q.
Proof.
  intros Hq Hst Hro H. apply safe_quiet; [done..|]. intros w w' x Hi Hl Hs Hr.
  split; [by eapply Hro|]. exists L. split_and!; [by eapply Hro|done|apply H].
Qed.

Lemma safe_get m {B} k (f : berr + rvalue * Z → prog B) L Q :
  STABLE m L → regOnly L → SAFE m (f (inl BIO)) L Q →
  (∀ w, names_inv w → L w → ∃ L', L' w ∧ STABLE m L' ∧ regOnly L' ∧ SAFE m (f (answer k w)) L' Q) →
  SAFE m (call (OGet k) ≫= f) L Q.
Proof.
  intros Hst Hro Hio H. apply safe_quiet; [done..|]. intros w w' x Hi Hl Hs Hr.
  split; [by eapply Hro|]. inversion Hs; simplify_eq/=.
  - destruct (H w Hi Hl) as (L' & ? & ? & Hro' & Hf). exists L'. split_and!; [by eapply Hro'|done|].
    replace (_ : berr + rvalue * Z) with (answer k w); [done|]. unfold answer, bGet.
    destruct Hi as [[Ha _] _]. rewrite live_ageless by done. unfold regItems. by destruct (items (reg w) !! k).
  - exists L. by split_and!.
Qed.

(** *** One registration *)

Section thread.
Context (m : Z) (n s : string) (Hm : m ≠ 0) (Hs : s ∈ ss).
Abbreviation me := (mkRef typeRack m).

(** No record yet; a record without its name; the record and its name. *)
Definition absent (w : World) : Prop := regItems w !! KEntity typeRack m = None.
Definition unnamed (w : World) : Prop :=
  (∃ rec, recordAt w me rec ∧ Name rec = n) ∧ ∀ n', ¬ pointsAt w n' me.
Definition owner (w : World) : Prop := (∃ rec, recordAt w me rec ∧ Name rec = n) ∧ pointsAt w n me.
Definition taken (it : memItem rvalue) (w : World) : Prop := unnamed w ∧ regItems w !! KName n = Some it.

Lemma absent_stable : STABLE m absent.
Proof. intros w w' _ _ H [Hr _]. unfold absent. by rewrite Hr. Qed.
Lemma unnamed_stable : STABLE m unnamed.
Proof.
  intros w w' _ _ [(rec & (it & Hit & Hv) & Hn) Hno] (Hr & Hk & Hp). split; [|naive_solver].
  exists rec. split; [|done]. exists it. split; [etrans; [exact Hr|exact Hit]|done].
Qed.
Lemma owner_stable : STABLE m owner.
Proof.
  intros w w' _ _ [(rec & (it & Hit & Hv) & Hn) (kt & Hkt & Hkv)] (Hr & Hk & Hp). split.
  - exists rec. split; [|done]. exists it. split; [etrans; [exact Hr|exact Hit]|done].
  - exists kt. eauto.
Qed.
Lemma taken_stable it : STABLE m (taken it).
Proof. intros w w' H H' [Hu Hk] Ho. split; [exact (unnamed_stable w w' H H' Hu Ho)|]. destruct Ho as (_ & Ho & _). by apply Ho. Qed.
Lemma true_stable : STABLE m (λ _, True).
Proof. done. Qed.

Lemma absent_reg : regOnly absent.
Proof. intros w w' H. unfold absent. by rewrite H. Qed.
Lemma unnamed_reg : regOnly unnamed.
Proof. intros w w' H. unfold unnamed, recordAt, pointsAt. by rewrite H. Qed.
Lemma owner_reg : regOnly owner.
Proof. intros w w' H. unfold owner, recordAt, pointsAt. by rewrite H. Qed.
Lemma taken_reg it : regOnly (taken it).
Proof. intros w w' H. unfold taken, unnamed, recordAt, pointsAt. by rewrite H. Qed.
Lemma true_reg : regOnly (λ _, True).
Proof. done. Qed.

#[local] Hint Resolve absent_stable unnamed_stable owner_stable taken_stable true_stable
  absent_reg unnamed_reg owner_reg taken_reg true_reg : core.

Lemma safe_toRack rec L : STABLE m L → regOnly L → SAFE m (toRack rec) L (λ _, L).
Proof.
  intros. unfold toRack. apply safe_quiet_any; [done..|]. intros l.
  destruct (match l with inr (VPresence p, _) => _ | _ => _ end) as [on seen].
  apply safe_quiet_any; [done..|]. intros st w _ Hl. exact Hl.
Qed.

Lemma absent_unpointed w : names_inv w → absent w → ∀ n', ¬ pointsAt w n' me.
Proof.
  intros [(_ & Hk & _) _] Hab n' (it & Hit & Hv). destruct (Hk n') as (ref & rec & (it' & Hit' & Hv') & (it2 & Hr & _) & _); [by eexists|].
  assert (ref = me) as -> by congruence. unfold absent in Hab. cbn in Hr. congruence.
Qed.

Definition knownSafe (rec : record) : Prop := ∀ s', s' ∈ ss → SecretMatches hash (SecretHash rec) s' = false.

(** Writing the own record keeps the invariant when no key points at it. *)
Lemma inv_write w b rec' it' :
  names_inv w → (∀ n', ¬ pointsAt w n' me) →
  maxAge b = 0 → items b = <[KEntity typeRack m := it']> (regItems w) → value it' = VRecord rec' → knownSafe rec' →
  names_inv (setReg b w).
Proof.
  intros [(Ha & Hk & He) [Hf Hg]] Hno Hb Hit Hv Hsafe.
  assert (∀ ref rec, recordAt (setReg b w) ref rec → rec = rec' ∨ recordAt w ref rec) as Hrec.
  { intros [t i] rec (it & Hl & Hr). unfold regItems in Hl. simpl in Hl. rewrite Hit in Hl.
    apply lookup_insert_Some in Hl as [[_ <-]|[_ Hl]]; [left; congruence|right; by exists it]. }
  split; split_and!; [done| | |naive_solver|done].
  - intros n'. unfold pointsAt, recordAt, regItems. simpl. rewrite Hit, lookup_insert_ne by done.
    intros Hn. destruct (Hk n' Hn) as (ref & rec & Hp & (it & Hr & Hvr) & ?). exists ref, rec. split; [done|]. split; [|done].
    exists it. rewrite lookup_insert_ne; [done|]. intros [= Ht Hi]. apply (Hno n'). by destruct ref; simplify_eq/=.
  - intros t i. unfold recordAt, regItems. simpl. rewrite Hit.
    destruct (decide (KEntity typeRack m = KEntity t i)) as [<-|Hne].
    + intros _. exists rec', it'. by rewrite lookup_insert, decide_True.
    + rewrite lookup_insert_ne by done. intros H. destruct (He t i H) as (rec & it & ? & ?). by exists rec, it.
Qed.

Lemma safe_createRecord {B} rec (f : berr + Z → prog B) Q :
  knownSafe rec → Name rec = n →
  SAFE m (f (inl BIO)) (λ _, True) Q → (∀ rv, SAFE m (f (inr rv)) unnamed Q) →
  SAFE m (call (OCreate (KEntity typeRack m) (VRecord rec)) ≫= f) absent Q.
Proof.
  intros Hsafe Hn Hio Hok. apply safe_call. intros w Hi Hab w' x Hst.
  pose proof (absent_unpointed w Hi Hab) as Hno. pose proof (proj1 (proj1 Hi)) as Hage.
  inversion Hst; simplify_eq/=; cycle 1.
  { split_and!; [done|by apply mine_same|]. by exists (λ _, True). }
  unfold bCreate. rewrite live_ageless by done. fold (regItems w). rewrite Hab. simpl.
  split_and!.
  - by eapply inv_write.
  - intros k. destruct (decide (KEntity typeRack m = k)) as [<-|Hne]; [by right; left|left].
    unfold regItems. simpl. by rewrite lookup_insert_ne.
  - exists unnamed. split_and!; [|done|apply Hok]. split.
    + exists rec. split; [|done]. eexists. unfold regItems. cbn. rewrite lookup_insert, decide_True by done. done.
    + intros n' (it & Hit & Hv). unfold regItems in Hit. simpl in Hit. rewrite lookup_insert_ne in Hit by done.
      apply (Hno n'). by exists it.
Qed.

(** Deleting the own record keeps the invariant when no key points at it. *)
Lemma safe_deleteRecord {B} rv (f : berr + unit → prog B) Q :
  (∀ x, SAFE m (f x) (λ _, True) Q) → SAFE m (call (ODelete (KEntity typeRack m) rv) ≫= f) unnamed Q.
Proof.
  intros Hf. apply safe_call. intros w Hi [_ Hno] w' x Hst. pose proof (proj1 (proj1 Hi)) as Hage.
  enough (names_inv w' ∧ mine m w w') as [? ?].
  { split_and!; [done|done|]. by exists (λ _, True). }
  inversion Hst; simplify_eq/=; [|by split; [|apply mine_same]].
  unfold bDelete. rewrite live_ageless by done.
  destruct (negb _ && negb _); simpl.
  { split; [by destruct w|by apply mine_same]. }
  destruct Hi as [(Ha & Hk & He) [Hfr Hg]].
  assert (∀ ref rec, recordAt (setReg (mkBucket (brev (reg w)) (maxAge (reg w)) (delete (KEntity typeRack m) (items (reg w)))) w) ref rec → recordAt w ref rec) as Hrec.
  { intros ref rec (it & Hl & Hv). exists it. unfold regItems in Hl. simpl in Hl. by apply lookup_delete_Some in Hl as [_ ?]. }
  split; [split; split_and!|]; [done| | |naive_solver|done|].
  - intros n'. unfold pointsAt, recordAt, regItems. simpl. rewrite lookup_delete_ne by done.
    intros Hn. destruct (Hk n' Hn) as (ref & rec & Hp & (it & Hr & Hvr) & ?). exists ref, rec. split; [done|]. split; [|done].
    exists it. rewrite lookup_delete_ne; [done|]. intros [= Ht Hi]. apply (Hno n'). by destruct ref; simplify_eq/=.
  - intros t i [it Hit]. unfold regItems in Hit. simpl in Hit. apply lookup_delete_Some in Hit as [Hne Hit]. destruct (He t i) as (rec & it' & ? & ?); [by exists it|].
    exists rec, it'. split; [|done]. unfold regItems. simpl. by rewrite lookup_delete_ne.
  - intros k. destruct (decide (KEntity typeRack m = k)) as [<-|Hne]; [by right; left|left].
    unfold regItems. simpl. by rewrite lookup_delete_ne.
Qed.

(** Claiming a free name for the own record. *)
Lemma safe_createName {B} (f : berr + Z → prog B) Q :
  SAFE m (f (inl BIO)) unnamed Q → (∀ it, SAFE m (f (inl BConflict)) (taken it) Q) → (∀ rv, SAFE m (f (inr rv)) owner Q) →
  SAFE m (call (OCreate (KName n) (VName me)) ≫= f) unnamed Q.
Proof.
  intros Hio Hcf Hok. apply safe_call. intros w Hi Hun w' x Hst. pose proof (proj1 (proj1 Hi)) as Hage.
  inversion Hst; simplify_eq/=; cycle 1.
  { split_and!; [done|by apply mine_same|]. by exists unnamed. }
  unfold bCreate. rewrite live_ageless by done. fold (regItems w).
  destruct (regItems w !! KName n) as [it|] eqn:Hn; simpl.
  { split_and!; [by destruct w|by apply mine_same|]. exists (taken it). split_and!; [|done|done]. by destruct w. }
  destruct Hun as [(rec & (it & Hit & Hv) & Hname) Hno]. destruct Hi as [(Ha & Hk & He) [Hf Hg]].
  set (w1 := setReg _ w).
  assert (∀ ref rec, recordAt w ref rec ↔ recordAt w1 ref rec) as Hrec.
  { intros ref r. unfold recordAt, w1, regItems. simpl. by rewrite lookup_insert_ne. }
  assert (pointsAt w1 n me) as Hp.
  { eexists. unfold w1, regItems. simpl. by rewrite lookup_insert, decide_True. }
  split_and!.
  - split; split_and!; [done| | |intros; by eapply Hf; [apply Hrec|]|done].
    + intros n' Hn'. destruct (decide (n = n')) as [<-|Hne].
      { exists me, rec. split_and!; [done| |done]. apply Hrec. by exists it. }
      unfold w1, regItems in Hn'. simpl in Hn'. rewrite lookup_insert_ne in Hn' by congruence.
      destruct (Hk n' Hn') as (ref & r & (kt & Hkt & ?) & ? & ?). exists ref, r. split_and!; [|by apply Hrec|done].
      exists kt. unfold w1, regItems. simpl. by rewrite lookup_insert_ne by congruence.
    + intros t i Hti. unfold w1, regItems in Hti. simpl in Hti. rewrite lookup_insert_ne in Hti by done.
      destruct (He t i Hti) as [r ?]. exists r. by apply Hrec.
  - intros k. destruct (decide (KName n = k)) as [<-|Hne].
    + right; right. exists n. eexists. split_and!; [done|done| |]; [unfold w1, regItems; simpl; by rewrite lookup_insert, decide_True|done].
    + left. unfold w1, regItems. simpl. by rewrite lookup_insert_ne.
  - exists owner. split_and!; [|done|apply Hok]. split; [|done]. exists rec. split; [|done]. apply Hrec. by exists it.
Qed.

(** [claimName] for the own record: its name, or nothing. *)
Lemma safe_claimName :
  SAFE m (claimName n me) unnamed (λ r w, match r with inr _ => n = "" ∨ owner w | inl _ => unnamed w end).
Proof.
  unfold claimName. case_bool_decide as Hn; [by intros w _ _; left|].
  apply safe_createName; [by intros w _ ?| |by intros rv w _ ?; right]. intros it.
  apply safe_get; [done..|by intros w _ [? _]|]. intros w Hi [Hun Hk]. exists (taken it). split_and!; [done..|].
  unfold answer. rewrite Hk.
  destruct (proj1 (proj2 (proj1 Hi)) n) as (ref & _ & (it' & Hit' & Hv) & _); [by eexists|].
  simplify_eq. rewrite Hv. cbn [heldBy from_option id]. rewrite bool_decide_false by (intros ->; apply (proj2 Hun n); by exists it).
  apply safe_bind, safe_get; [done..|by intros w' _ Ht; exists (taken it); split; [done|]; intros w'' _ [? _]|].
  intros w' Hi' Ht. exists (taken it). split_and!; [done..|].
  destruct (proj1 (proj2 (proj1 Hi')) n) as (ref' & rec & (kt & Hkt & Hkv) & (rt & Hrt & Hrv) & Hname); [exists it; by destruct Ht|].
  assert (ref' = ref) as -> by (destruct Ht as [_ Ht]; congruence).
  unfold answer. rewrite Hrt, Hrv. intros w2 _ Ht2. exists (taken it). split; [done|].
  rewrite bool_decide_true by done. by intros w3 _ [? _].
Qed.

(** The result of a registration. *)
Definition enrolled (r : result Rack) (w : World) : Prop := match r with inr _ => n = "" ∨ owner w | inl _ => True end.

Lemma safe_error e L : SAFE m (Ret (inl e)) L enrolled.
Proof. done. Qed.

(** What a thread reads of a record. *)
Lemma record_known w t i : names_inv w →
  answer (KEntity t i) w = inl BNotFound ∨ ∃ rec rv, answer (KEntity t i) w = inr (VRecord rec, rv) ∧ knownSafe rec.
Proof.
  intros [(_ & _ & He) [Hf _]]. unfold answer. destruct (regItems w !! KEntity t i) as [it|] eqn:E; [right|by left].
  destruct (He t i) as (rec & it' & Hit & Hv); [by exists it|]. cbn in Hit. simplify_eq. rewrite Hv.
  exists rec, (rev it). split; [done|]. intros s' ?. eapply (Hf (mkRef t i)); [by exists it|done].
Qed.

Lemma safe_getRecord {B} t i (f : result (record * Z) → prog B) L Q :
  STABLE m L → regOnly L →
  (∀ e, e ≠ ErrNotFound → SAFE m (f (inl e)) L Q) → SAFE m (f (inl ErrNotFound)) L Q →
  (∀ rec rv, knownSafe rec → SAFE m (f (inr (rec, rv))) L Q) →
  SAFE m (getRecord t i ≫= f) L Q.
Proof.
  intros Hst Hro He Hnf Hok. apply safe_bind, safe_get; [done..| |].
  - intros w _ Hl. exists L. split; [done|]. by apply He.
  - intros w Hi Hl. exists L. split_and!; [done..|].
    destruct (record_known w t i Hi) as [->|(rec & rv & -> & Hk)]; intros w' _ Hl'; exists L; split; auto.
Qed.

Lemma issued_secret w w' issued : ostep OSecret w w' (Some issued) → issued ∈ secrets w.
Proof. inversion 1; simplify_eq/=. destruct (secrets w); simplify_eq/=. set_solver. Qed.

Context (mixer : Z).

Lemma safe_registerFresh h t :
  SAFE m (registerFresh hash typeRack m n s h mixer t) absent enrolled.
Proof.
  unfold registerFresh. apply safe_quiet_any; [done..|]. intros [boot auto].
  destruct (negb (SecretsEqual boot s)); [apply safe_error|].
  rewrite bool_decide_false by done. cbn [mbind prog_mbind bind].
  apply safe_quiet; [done..|]. intros w w' x Hi Hab Hst Hr. split; [by eapply absent_reg|].
  exists absent. split_and!; [by eapply absent_reg|done|]. destruct x as [issued|]; [|apply safe_error].
  assert (issued ∈ secrets w) as Hin.
  { by apply (issued_secret w w'). }
  assert (∀ s', s' ∈ ss → SecretMatches hash (hash issued) s' = false) as Hfr.
  { intros s' ?. by apply (proj2 (proj2 Hi)). }
  apply safe_bind, safe_quiet_any; [done..|]. intros u w2 _ Hab2. exists absent. split; [done|].
  destruct u as [u|]; [|apply safe_error].
  apply safe_createRecord; [done..|apply safe_error|]. intros rv.
  apply safe_bind. eapply safe_weaken; [apply safe_claimName|done|]. intros [e|[]] w3 Hc; simpl in Hc.
  - exists unnamed. split; [done|]. apply safe_deleteRecord. intros. apply safe_error.
  - exists (λ w, n = "" ∨ owner w). split; [done|]. apply safe_bind. eapply safe_weaken; [apply (safe_toRack _ (λ w, n = "" ∨ owner w))| |].
    + intros w4 w5 ? ? [?|?] ?; [by left|right]. exact (owner_stable w4 w5 ltac:(done) ltac:(done) ltac:(done) ltac:(done)).
    + intros w4 w5 ? [?|?]; [by left|right]. by eapply owner_reg.
    + done.
    + intros r w4 H4. eexists. split; [exact H4|]. by intros w5 _ ?.
Qed.

Lemma safe_resolveName {B} (f : result record → prog B) L Q :
  STABLE m L → regOnly L →
  (∀ e, e ≠ ErrNotFound → SAFE m (f (inl e)) L Q) → SAFE m (f (inl ErrNotFound)) L Q →
  (∀ rec, knownSafe rec → SAFE m (f (inr rec)) L Q) →
  SAFE m (resolveName n ≫= f) L Q.
Proof.
  intros Hst Hro He Hnf Hok. unfold resolveName. apply safe_bind, safe_get; [done..| |].
  { intros w _ Hl. exists L. split; [done|]. by apply He. }
  intros w Hi Hl. exists L. split_and!; [done..|]. unfold answer.
  destruct (regItems w !! KName n) as [it|] eqn:En; [|by intros w' _ Hl'; exists L].
  destruct (heldBy (value it)) as [ref|]; [|intros w' _ Hl'; exists L; split; [done|by apply He]].
  apply safe_getRecord; [done..| | |].
  - intros e ? w' _ Hl'. exists L. split; [done|by apply He].
  - intros w' _ Hl'. by exists L.
  - intros rec rv Hk w' _ Hl'. exists L. split; [done|]. case_bool_decide; [by apply Hok|done].
Qed.

Lemma safe_registerNamed h t :
  SAFE m (registerNamed hash typeRack m n s h mixer t) absent enrolled.
Proof.
  unfold registerNamed. case_bool_decide; [apply safe_registerFresh|].
  apply safe_resolveName; [done..| | |].
  - intros e He. destruct e; try apply safe_error. done.
  - apply safe_registerFresh.
  - intros rec Hk. rewrite (Hk s Hs), andb_false_r. apply safe_error.
Qed.

Lemma safe_registerOnce h :
  SAFE m (registerOnce hash typeRack m n s h mixer) (λ _, True) enrolled.
Proof.
  unfold registerOnce. apply safe_quiet_any; [done..|]. intros t. rewrite bool_decide_false by done.
  apply safe_bind, safe_get; [done..|by intros w _ _; exists (λ _, True)|].
  intros w Hi _. destruct (record_known w typeRack m Hi) as [Ha|(rec & rv & Ha & Hk)].
  - exists absent. split_and!; [|done..|].
    + unfold absent. unfold answer in Ha. by destruct (regItems w !! KEntity typeRack m).
    + rewrite Ha. intros w' _ Hab. exists absent. split; [done|]. apply safe_registerNamed.
  - exists (λ _, True). split_and!; [done..|]. rewrite Ha. intros w' _ _. exists (λ _, True). split; [done|].
    rewrite (Hk s Hs). apply safe_error.
Qed.

Lemma safe_register h : SAFE m (Register hash lim m n s h mixer) (λ _, True) enrolled.
Proof.
  unfold Register, RegisterEntity. set (step := registerOnce _ _ _ _ _ _ _).
  assert (SAFE m step (λ _, True) enrolled) as Hstep by apply safe_registerOnce.
  induction (WriteRetries lim) as [|r IH]; cbn [retry]; apply safe_bind;
    (eapply safe_weaken; [exact Hstep|done|]); intros x w Hx; exists (λ w, enrolled x w).
  all: split; [done|].
  all: destruct x as [[]|k]; try (by intros ? _ ?).
  eapply safe_weaken; [apply IH|done|done].
Qed.
End thread.

(** *** The pool *)

(** Every thread is somewhere in its proof. *)
Definition covered (es : list enrollee) (w : World) (ts : list (prog (result Rack))) : Prop :=
  ∀ i p, ts !! i = Some p → ∃ e L, es !! i = Some e ∧ L w ∧ STABLE (e_machine e) L ∧
    SAFE (e_machine e) p L (enrolled (e_machine e) (e_name e)).

Lemma covered_step es w ts w' ts' :
  NoDup (e_machine <$> es) → names_inv w → covered es w ts → pool_step (w, ts) (w', ts') →
  names_inv w' ∧ covered es w' ts'.
Proof.
  intros Hnd Hi Hc. inversion 1 as [? ? i X o k ? x Hth Hst]; simplify_eq.
  destruct (Hc i _ Hth) as (e & L & He & Hl & Hsta & Hsafe).
  destruct (Hsafe w Hi Hl w' x Hst) as (Hi' & Hmine & L' & Hl' & Hsta' & Hsafe'). split; [done|].
  intros j p Hj. destruct (decide (i = j)) as [<-|Hne].
  - apply list_lookup_insert_Some in Hj as [(_ & <- & _)|[? _]]; [|done]. by exists e, L'.
  - rewrite list_lookup_insert_ne in Hj by done. destruct (Hc j p Hj) as (e' & L2 & He' & Hl2 & Hs2 & Hp).
    exists e', L2. split_and!; [done| |done|done].
    eapply Hs2; [exact Hi|done|done|]. apply (mine_others (e_machine e)); [|done].
    intros Heq. apply Hne. eapply (NoDup_lookup (e_machine <$> es)); [done| |].
    + by rewrite list_lookup_fmap, He.
    + rewrite list_lookup_fmap, He'. simpl. congruence.
Qed.

Lemma covered_steps es x y :
  NoDup (e_machine <$> es) → rtc pool_step x y → names_inv x.1 → covered es x.1 x.2 → names_inv y.1 ∧ covered es y.1 y.2.
Proof.
  intros Hnd. induction 1 as [|[w ts] [w1 ts1] z Hst _ IH]; [done|]. intros Hi Hc.
  destruct (covered_step es w ts w1 ts1) as [? ?]; [done..|]. by apply IH.
Qed.

Lemma covered_start es w :
  Forall (λ e, e_machine e ≠ 0 ∧ e_secret e ∈ ss) es → covered es w (enroll <$> es).
Proof.
  intros Hes i p Hp. rewrite list_lookup_fmap in Hp. destruct (es !! i) as [e|] eqn:He; simplify_eq/=.
  rewrite Forall_lookup in Hes. destruct (Hes i e He). exists e, (λ _, True). split_and!; [done..|]. by apply safe_register.
Qed.
End names.

(** C15: any number of distinct machines register at once, their bucket calls interleaved
    in any order and failing at any point.  Starting from a registry whose name keys all
    point at records that carry the name, and with no issued secret that an enrolling
    machine could present, every machine whose registration succeeded under a non-empty
    name owns it: its record carries the name and the name's key points at that record;
    and no two successful registrations have one name. *)
Theorem concurrent_registrations_own_names (hash : string → string) (lim : limits) (es : list enrollee) (w w' : World) ts :
  namesConsistent w → secretsFresh hash (e_secret <$> es) w →
  NoDup (e_machine <$> es) → Forall (λ e, e_machine e ≠ 0) es →
  rtc pool_step (w, enroll hash lim <$> es) (w', ts) →
  ∀ i e r, es !! i = Some e → ts !! i = Some (Ret (inr r)) → e_name e ≠ "" →
    (∃ rec, recordAt w' (mkRef typeRack (e_machine e)) rec ∧ Name rec = e_name e) ∧
    pointsAt w' (e_name e) (mkRef typeRack (e_machine e)) ∧
    ∀ j e' r', es !! j = Some e' → ts !! j = Some (Ret (inr r')) → e_name e' = e_name e → j = i.
Proof.
  intros Hc Hf Hnd Hnz Hsteps.
  destruct (covered_steps hash (e_secret <$> es) es (w, enroll hash lim <$> es) (w', ts)) as [Hi Hcov]; [done|done|done| |].
  { apply covered_start. rewrite Forall_forall in Hnz |- *. intros e He. split; [by apply Hnz|]. by apply list_elem_of_fmap_2. }
  assert (∀ i e r, es !! i = Some e → ts !! i = Some (Ret (inr r)) → e_name e ≠ "" →
    owner (e_machine e) (e_name e) w') as Hown.
  { intros i e r He Ht Hn. destruct (Hcov i _ Ht) as (e' & L & He' & Hl & _ & Hs). simplify_eq.
    by destruct (Hs w' Hi Hl). }
  intros i e r He Ht Hn. destruct (Hown i e r He Ht Hn) as [Hrec Hp]. split_and!; [done|done|].
  intros j e' r' He' Ht' Heq. destruct (Hown j e' r' He' Ht') as [_ Hp']; [congruence|].
  rewrite Heq in Hp'. destruct Hp as (it & Hit & Hv), Hp' as (it' & Hit' & Hv'). simplify_eq.
  assert (e_machine e' = e_machine e) as Hmm by congruence.
  eapply (NoDup_lookup (e_machine <$> es)); [done| |].
  - by rewrite list_lookup_fmap, He'.
  - rewrite list_lookup_fmap, He. simpl. congruence.
Qed.

(** ** Schedules are runs of the pool *)

Lemma sched_pool {A} l w (ts : list (prog A)) w' ts' : sched l w ts = Some (w', ts') → rtc pool_step (w, ts) (w', ts').
Proof.
  revert w ts. induction l as [|i l IH]; intros w ts H; cbn [sched] in H; [by simplify_eq|].
  destruct (ts !! i) as [p|] eqn:Hi; cbn in H; [|done]. destruct p as [a|X o k]; [done|]. cbn in H.
  destruct (doOp o w) as [w1 x] eqn:Ho. eapply rtc_l; [|by apply IH].
  eapply pool_call; [done|]. replace w1 with (doOp o w).1 by (by rewrite Ho). replace x with (doOp o w).2 by (by rewrite Ho).
  constructor.
Qed.

(** ** Two runs *)

Definition tag (s : string) : string := "h" +:+ s.
Definition noHello : hello := mkHello "" 0 "" None None.
Definition emptyWorld : World :=
  mkWorld (NewMemoryBucket 0) (NewMemoryBucket 30) ∅ 100 [11; 12; 13; 14; 15] ["s1"; "s2"; "s3"] "boot" true.
Definition someLimits : limits := mkLimits 1000 8.
Definition twoMachines : list enrollee := [mkEnrollee 1 "n" "boot" noHello 7; mkEnrollee 2 "n" "boot" noHello 7].

Lemma concurrent_registrations_own_names_witness : ∃ w' ts r,
  sched ((concat (replicate 10 [0; 1]) ++ [1])%nat) emptyWorld (enroll tag someLimits <$> twoMachines) = Some (w', ts) ∧
  ts = [Ret (inr r); Ret (inl ErrNameConflict)] ∧ pointsAt w' "n" (mkRef typeRack 1).
Proof.
  destruct (sched ((concat (replicate 10 [0; 1]) ++ [1])%nat) emptyWorld (enroll tag someLimits <$> twoMachines)) as [[w' ts]|] eqn:E.
  2: { apply (f_equal (λ o, bool_decide (is_Some o))) in E. vm_compute in E. done. }
  pose proof (f_equal (fmap snd) E) as Ets. vm_compute in Ets. injection Ets as <-.
  eexists w', _, _. split; [reflexivity|]. split; [reflexivity|].
  apply sched_pool in E.
  eapply (concurrent_registrations_own_names tag someLimits twoMachines emptyWorld w' _) with (i := 0%nat) (e := mkEnrollee 1 "n" "boot" noHello 7).
  - split_and!; [done|intros n [? H]; by vm_compute in H|intros t m [? H]]. unfold regItems in H. simpl in H. by rewrite lookup_empty in H.
  - split.
    + intros ref rec s (it & H & _). unfold regItems in H. simpl in H. by rewrite lookup_empty in H.
    + intros issued s Hi Hs. assert (s = "boot") as -> by set_solver.
      simpl in Hi. rewrite !elem_of_cons in Hi. destruct Hi as [->|[->|[->|Hi]]]; [done..|by apply elem_of_nil in Hi].
  - apply (bool_decide_unpack _). reflexivity.
  - repeat constructor; done.
  - exact E.
  - done.
  - reflexivity.
  - done.
Defined.

(** The record and the name of one machine after a run. *)
Definition nameAt (w : World) (m : Z) : option string :=
  match regItems w !! KEntity typeRack m with Some (mkItem (VRecord rec) _ _) => Some (Name rec) | _ => None end.
Definition holderOf (w : World) (n : string) : option nameRef := regItems w !! KName n ≫= λ it, heldBy (value it).
Definition succeeded (p : prog (result Rack)) : bool := match p with Ret (inr _) => true | _ => false end.

(** renames do not keep that promise.  Rack 1 is registered as "n".  While an
    approval renames it to "m", machine 2 registers as "n" and finds the key an orphan
    (Rack 1's record says "m"); a second approval renames Rack 1 back to "n", which
    succeeds without a write because the key still points at Rack 1; then machine 2's
    takeover goes through at the revision it read.  All three calls report success and
    two active Racks carry "n"; once the grace period of a sweep has passed, it deletes
    the approved Rack 1. *)
Theorem rename_race_shares_name :
  let w1 := (exec (Register tag someLimits 1 "n" "boot" noHello 7) emptyWorld).1 in
  ∃ schedule w' ts,
    sched schedule w1 [Approve someLimits 1 "m"; Register tag someLimits 2 "n" "boot" noHello 7; Approve someLimits 1 "n"] = Some (w', ts) ∧
    Forall (λ p, succeeded p = true) ts ∧
    nameAt w' 1 = Some "n" ∧ nameAt w' 2 = Some "n" ∧ holderOf w' "n" = Some (mkRef typeRack 2) ∧
    nameAt (exec (SweepOrphans 0) w').1 1 = None.
Proof.
  intros w1. set (l := (replicate 5 0 ++ replicate 11 1 ++ replicate 11 2 ++ replicate 3 1 ++ replicate 3 0)%nat).
  set (ts0 := [_; _; _]).
  assert (match sched l w1 ts0 with
    | Some (w', ts) => forallb succeeded ts && bool_decide ((nameAt w' 1, nameAt w' 2, holderOf w' "n", nameAt (exec (SweepOrphans 0) w').1 1)
        = (Some "n", Some "n", Some (mkRef typeRack 2), None))
    | None => false end = true) as H by (vm_compute; reflexivity).
  exists l. destruct (sched l w1 ts0) as [[w' ts]|]; [|done].
  apply andb_true_iff in H as [Hs Hn]. apply bool_decide_eq_true in Hn as [= ? ? ? ?].
  exists w', ts. split_and!; [done| |done..]. apply List.Forall_forall. by apply forallb_forall.
Qed.
