(* ===== verification/SdlCycles.v ===== *)
(** * sdl/resolve.go: the cycle check of the conditions

    [walk] and the loop of [checkWhenCycles] over the dependency map it builds, and the
    proof that the search is exact: it reports a cycle, one that exists, exactly when the
    dependencies have one. *)
From stdpp Require Import sorting.
From S2P Require Import Prelude.
Open Scope Z_scope.

Abbreviation deps_t := (gmap Z (gset Z)).

(** [sortedInts] *)
Definition sortedInts (s : gset Z) : list Z := merge_sort Z.le (elements s).

(** The colours of [state]; an unvisited field has none. *)
Inductive colour := OnPath | Done.
Abbreviation state_t := (gmap Z colour).

(** The part of [path] from the first [x]. *)
Fixpoint from (x : Z) (path : list Z) : option (list Z) :=
  match path with
  | [] => None
  | y :: path' => if bool_decide (y = x) then Some path else from x path'
  end.

Inductive walkRes := WOk (st : state_t) | WCycle (cyc : list Z) | WFuel.

(** The [for ... range] of [walk] over the dependencies of one field. *)
Fixpoint visit (f : Z → state_t → walkRes) (l : list Z) (st : state_t) : walkRes :=
  match l with
  | [] => WOk st
  | x :: l => match f x st with WOk st => visit f l st | r => r end
  end.

Section cycles.
Context (deps : deps_t).

Definition succs (x : Z) : gset Z := default ∅ (deps !! x).

(** [walk]; [path] is what the variable of the closure holds on entry, and again when
    the call returns without a cycle. *)
Fixpoint walk (n : nat) (path : list Z) (de : Z) (st : state_t) : walkRes :=
  match n with
  | O => WFuel
  | S n =>
      let path := path ++ [de] in
      match visit (λ next st,
              match st !! next with
              | Some OnPath => match from next path with Some l => WCycle (l ++ [next]) | None => WOk st end
              | Some Done => WOk st
              | None => walk n path next st
              end) (sortedInts (succs de)) (<[de := OnPath]> st) with
      | WOk st => WOk (<[de := Done]> st)
      | r => r
      end
  end.

(** Every field the search can visit. *)
Definition nodes : gset Z := dom deps ∪ ⋃ (map_to_list deps).*2.

Definition searchFuel : nat := S (size nodes).

(** The loop of [checkWhenCycles]: [None] when there is no cycle. *)
Fixpoint searchFrom (l : list Z) (st : state_t) : option (option (list Z)) :=
  match l with
  | [] => Some None
  | de :: l =>
      match st !! de with
      | Some _ => searchFrom l st
      | None => match walk searchFuel [] de st with
                | WOk st => searchFrom l st
                | WCycle cyc => Some (Some cyc)
                | WFuel => None
                end
      end
  end.

Definition findCycle : option (option (list Z)) := searchFrom (sortedInts (dom deps)) ∅.

(** ** The search is exact *)

(** Field [x] depends on field [y]. *)
Definition dep (x y : Z) : Prop := y ∈ succs x.

(** A path of dependencies. *)
Fixpoint chain (l : list Z) : Prop :=
  match l with
  | x :: (y :: _) as l => dep x y ∧ chain l
  | _ => True
  end.

(** A path that returns to where it began. *)
Definition cycle (l : list Z) : Prop := ∃ x l', l = x :: l' ++ [x] ∧ chain l.

Lemma elem_of_sortedInts x s : x ∈ sortedInts s ↔ x ∈ s.
Proof. unfold sortedInts. rewrite merge_sort_Permutation. apply elem_of_elements. Qed.

Lemma chain_app l1 x l2 : chain (l1 ++ [x]) → chain (x :: l2) → chain (l1 ++ x :: l2).
Proof.
  induction l1 as [|a [|b l1] IH]; [done| |]; simpl; [intros [H _] ?; done|].
  intros [H1 H2] H3. split; [done|]. by apply IH.
Qed.

Lemma chain_split l1 l2 : chain (l1 ++ l2) → chain l2.
Proof. induction l1 as [|a l1 IH]; [done|]. simpl. intros H. apply IH. by destruct (l1 ++ l2) as [|? ?]; [|destruct H]. Qed.

Lemma from_spec x path l : from x path = Some l → ∃ l1 l2, path = l1 ++ x :: l2 ∧ l = x :: l2.
Proof.
  revert l. induction path as [|y path IH]; intros l; [done|]. cbn [from]. case_bool_decide as E.
  - intros [= <-]. exists [], path. by rewrite E.
  - intros H. destruct (IH l H) as (l1 & l2 & -> & ->). by exists (y :: l1), l2.
Qed.

Lemma from_elem x path : x ∈ path → is_Some (from x path).
Proof.
  induction path as [|y path IH]; [by intros ?%elem_of_nil|]. cbn [from]. case_bool_decide; [by eexists|].
  intros [->|?]%elem_of_cons; [done|by apply IH].
Qed.

(** Nothing that is done lies on an infinite path of dependencies. *)
Definition settled (st : state_t) : Prop := ∀ x, st !! x = Some Done → Acc (λ y x, dep x y) x.
Definition onPath (path : list Z) (st : state_t) : Prop := ∀ x, st !! x = Some OnPath ↔ x ∈ path.

(** What a step of the search may do to the state. *)
Definition grown (st st' : state_t) : Prop := dom st ⊆ dom st' ∧ ∀ x, st !! x = Some Done → st' !! x = Some Done.

Definition unvisited (st : state_t) : nat := size (nodes ∖ dom st).

(** The outcome of visiting [de] from [path]. *)
Definition walked (path : list Z) (de : Z) (st : state_t) (r : walkRes) : Prop :=
  match r with
  | WOk st' => settled st' ∧ onPath path st' ∧ grown st st' ∧ st' !! de = Some Done
  | WCycle cyc => cycle cyc
  | WFuel => False
  end.

Lemma grown_refl st : grown st st.
Proof. done. Qed.
Lemma grown_trans st1 st2 st3 : grown st1 st2 → grown st2 st3 → grown st1 st3.
Proof. intros [? ?] [? ?]. split; [set_solver|auto]. Qed.

Lemma grown_unvisited st st' : grown st st' → (unvisited st' ≤ unvisited st)%nat.
Proof. intros [H _]. unfold unvisited. apply subseteq_size. set_solver. Qed.

Lemma succs_nodes x y : dep x y → y ∈ nodes.
Proof.
  unfold dep, succs, nodes. destruct (deps !! x) as [s|] eqn:E; simpl; [|set_solver]. intros Hy.
  apply elem_of_union. right. apply elem_of_union_list. exists s. split; [|done].
  apply list_elem_of_fmap. exists (x, s). split; [done|]. by apply elem_of_map_to_list.
Qed.

(** The outcome of visiting all of [l], with [path] on the path. *)
Definition visited (path l : list Z) (st : state_t) (r : walkRes) : Prop :=
  match r with
  | WOk st' => settled st' ∧ onPath path st' ∧ grown st st' ∧ ∀ x, x ∈ l → st' !! x = Some Done
  | WCycle cyc => cycle cyc
  | WFuel => False
  end.

(** A dependency on a field of the path closes a cycle. *)
Lemma closing_cycle path de x l :
  chain (path ++ [de]) → dep de x → from x (path ++ [de]) = Some l → cycle (l ++ [x]).
Proof.
  intros Hc Hd (l1 & l2 & Hp & ->)%from_spec. exists x, l2. split; [done|].
  assert (chain (x :: l2)) as Hch by (rewrite Hp in Hc; by apply chain_split in Hc).
  apply (f_equal last) in Hp. destruct l2 as [|z l2' _] using rev_ind.
  - rewrite !last_snoc in Hp. by simplify_eq/=.
  - rewrite app_comm_cons, app_assoc, !last_snoc in Hp. simplify_eq.
    change (chain (((x :: l2') ++ [z]) ++ [x])). rewrite <- app_assoc. by apply chain_app.
Qed.

(** The loop of one field, given that each visit of an unvisited successor is right. *)
Lemma visit_ok f path de l st :
  chain (path ++ [de]) → (∀ x, x ∈ l → dep de x) →
  settled st → onPath (path ++ [de]) st →
  (∀ x st1, x ∈ l → settled st1 → onPath (path ++ [de]) st1 → grown st st1 → st1 !! x = None → walked (path ++ [de]) x st1 (f x st1)) →
  (∀ x st1, st1 !! x = Some Done → f x st1 = WOk st1) →
  (∀ x st1, st1 !! x = Some OnPath → f x st1 = match from x (path ++ [de]) with Some l => WCycle (l ++ [x]) | None => WOk st1 end) →
  visited (path ++ [de]) l st (visit f l st).
Proof.
  intros Hc. revert st. induction l as [|x l IH]; intros st Hd Hs Ho Hw HD HO; cbn [visit].
  { split_and!; [done..|]. intros x Hx. by apply elem_of_nil in Hx. }
  assert (∀ st1, settled st1 → onPath (path ++ [de]) st1 → grown st st1 → st1 !! x = Some Done →
    visited (path ++ [de]) (x :: l) st (visit f l st1)) as Hrest.
  { intros st1 Hs1 Ho1 Hg1 Hx1.
    assert (visited (path ++ [de]) l st1 (visit f l st1)) as H.
    { apply IH; [intros; apply Hd; set_solver|done|done| |done|done].
      intros y st2 Hy ? ? Hg2 ?. apply Hw; [set_solver|done|done|by eapply grown_trans|done]. }
    destruct (visit f l st1) as [st'|cyc|]; [|done|done]. destruct H as (? & ? & Hg & Hl).
    split_and!; [done|done|by eapply grown_trans|]. intros y [->|Hy]%elem_of_cons; [by apply Hg|by apply Hl]. }
  destruct (st !! x) as [[]|] eqn:Hx.
  - rewrite HO by done. destruct (from_elem x (path ++ [de])) as [p Hp]; [by apply Ho|]. rewrite Hp.
    eapply closing_cycle; [exact Hc| |done]. apply Hd. set_solver.
  - rewrite HD by done. apply Hrest; [done..|apply grown_refl|done].
  - assert (walked (path ++ [de]) x st (f x st)) as Hw1 by (apply Hw; [set_solver|done|done|apply grown_refl|done]).
    destruct (f x st) as [st1|cyc|]; [|done|done]. destruct Hw1 as (? & ? & ? & ?). by apply Hrest.
Qed.

Lemma walk_ok n path de st :
  (unvisited st < n)%nat → de ∈ nodes → chain (path ++ [de]) → settled st → onPath path st → st !! de = None →
  walked path de st (walk n path de st).
Proof.
  revert path de st. induction n as [|n IH]; intros path de st Hn Hde Hc Hs Ho Hst; [lia|]. cbn [walk].
  assert (de ∉ path) as Hnew by (intros H; apply Ho in H; congruence).
  set (st1 := <[de := OnPath]> st).
  assert (settled st1) as Hs1.
  { intros x Hx. unfold st1 in Hx. apply lookup_insert_Some in Hx as [[_ ?]|[_ ?]]; [done|by apply Hs]. }
  assert (onPath (path ++ [de]) st1) as Ho1.
  { intros x. unfold st1. rewrite lookup_insert_Some, (Ho x), elem_of_app, list_elem_of_singleton.
    split; [naive_solver|]. intros [?|?]; [right; split; [naive_solver|done]|by left]. }
  assert (unvisited st1 < unvisited st)%nat as Hlt.
  { unfold unvisited, st1. rewrite dom_insert_L. apply subset_size. apply not_elem_of_dom in Hst. set_solver. }
  set (f := λ next st, _).
  assert (visited (path ++ [de]) (sortedInts (succs de)) st1 (visit f (sortedInts (succs de)) st1)) as Hv.
  { apply visit_ok; [done|by intros x ?%elem_of_sortedInts|done|done| | |]; [|by intros ? ? E; unfold f; rewrite E..].
    intros x st2 Hx ? ? Hg2 E. unfold f. rewrite E. apply elem_of_sortedInts in Hx.
    apply IH; [|by eapply succs_nodes| |done..].
    - apply grown_unvisited in Hg2. lia.
    - rewrite <- app_assoc. by apply chain_app. }
  destruct (visit f _ st1) as [st'|cyc|]; [|done|done]. destruct Hv as (Hs' & Ho' & [Hg' Hg2] & Hd'). split_and!.
  - intros x Hx. apply lookup_insert_Some in Hx as [[<- _]|[_ ?]]; [|by apply Hs'].
    constructor. intros y Hy. apply Hs', Hd'. by apply elem_of_sortedInts.
  - intros x. rewrite lookup_insert_Some, (Ho' x), elem_of_app, list_elem_of_singleton. naive_solver.
  - split; [unfold st1 in *; set_solver|]. intros x Hx. rewrite lookup_insert_ne by congruence. apply Hg2.
    unfold st1. rewrite lookup_insert_ne by congruence. done.
  - by rewrite lookup_insert, decide_True.
Qed.

Lemma searchFrom_ok l st :
  (∀ x, x ∈ l → x ∈ dom deps) → settled st → onPath [] st →
  match searchFrom l st with
  | Some None => ∀ x, x ∈ l ∨ st !! x = Some Done → Acc (λ y x, dep x y) x
  | Some (Some cyc) => cycle cyc
  | None => False
  end.
Proof.
  revert st. induction l as [|x l IH]; intros st Hl Hs Ho; cbn [searchFrom].
  { intros x [Hx|Hx]; [by apply elem_of_nil in Hx|by apply Hs]. }
  assert (∀ y, y ∈ l → y ∈ dom deps) as Hl' by (intros; apply Hl; set_solver).
  destruct (st !! x) as [c|] eqn:Hx.
  - pose proof (IH st Hl' Hs Ho) as H. destruct (searchFrom l st) as [[|]|]; [done| |done].
    intros y [[->|Hy]%elem_of_cons|Hy]; [|by apply H; left|by apply H; right]. apply H. right.
    destruct c; [|done]. apply Ho in Hx. by apply elem_of_nil in Hx.
  - assert (x ∈ nodes) as Hn by (unfold nodes; apply elem_of_union; left; apply Hl; set_solver).
    assert (walked [] x st (walk searchFuel [] x st)) as Hw.
    { apply walk_ok; [|done..]. unfold searchFuel, unvisited.
      assert (size (nodes ∖ dom st) ≤ size nodes)%nat by (apply subseteq_size; set_solver). lia. }
    destruct (walk searchFuel [] x st) as [st'|cyc|]; [|done|done]. destruct Hw as (Hs' & Ho' & [_ Hg] & Hx').
    pose proof (IH st' Hl' Hs' Ho') as H. destruct (searchFrom l st') as [[|]|]; [done| |done].
    intros y [[->|Hy]%elem_of_cons|Hy]; apply H; auto.
Qed.

Lemma chain_tc x l y : chain (x :: l ++ [y]) → tc dep x y.
Proof.
  revert x. induction l as [|z l IH]; intros x; simpl; [intros [? _]; by constructor|].
  intros [? ?]. eapply tc_l; [done|]. by apply IH.
Qed.

Lemma acc_irreflexive x : Acc (λ y x, dep x y) x → ¬ tc dep x x.
Proof.
  intros Hx. induction Hx as [x _ IH]. intros Hxx.
  assert (∃ z, dep x z ∧ tc dep z z) as (z & ? & ?); [|by eapply IH].
  inversion Hxx as [? ? H|? z ? H Hz]; subst; [by exists x|]. exists z. split; [done|]. eapply tc_r; [exact Hz|done].
Qed.

(** No field depends on itself, through any number of others. *)
Definition acyclic : Prop := ∀ x, ¬ tc dep x x.

(** The search ends; it finds a cycle, and one that is there, unless there is none. *)
Lemma findCycle_exact :
  (∃ cyc, findCycle = Some (Some cyc) ∧ cycle cyc ∧ ¬ acyclic) ∨ findCycle = Some None ∧ acyclic.
Proof.
  unfold findCycle. pose proof (searchFrom_ok (sortedInts (dom deps)) ∅) as H.
  destruct (searchFrom _ ∅) as [[cyc|]|].
  - left. exists cyc. assert (cycle cyc) as Hc; [|split_and!; [done|done|]].
    + apply H; [by intros x ?%elem_of_sortedInts|intros x; by rewrite lookup_empty|].
      intros x. rewrite lookup_empty. split; [done|by intros ?%elem_of_nil].
    + destruct Hc as (x & l & -> & Hc). intros Ha. apply (Ha x). by eapply chain_tc.
  - right. split; [done|]. intros x Hx.
    assert (x ∈ dom deps) as Hd.
    { assert (∃ y, dep x y) as [y Hy] by (inversion Hx; eauto). unfold dep, succs in Hy. apply elem_of_dom.
      destruct (deps !! x); [by eexists|set_solver]. }
    revert Hx. apply acc_irreflexive, H; [by intros y ?%elem_of_sortedInts|intros y; by rewrite lookup_empty| |].
    + intros y. rewrite lookup_empty. split; [done|by intros ?%elem_of_nil].
    + left. by apply elem_of_sortedInts.
  - exfalso. apply H; [by intros x ?%elem_of_sortedInts|intros x; by rewrite lookup_empty|].
    intros x. rewrite lookup_empty. split; [done|by intros ?%elem_of_nil].
Qed.
End cycles.
