(* ===== verification/Sdl.v ===== *)
(** * sdl/resolve.go, wire.go: a specification's semantic layer and its references

    The document as the resolver reads it, [resolveReferences] with every check in its
    order, and the metadata [load] derives.  YAML decoding is outside: the decoded
    document is the input.

    Where the code ranges over a Go map and keeps the order it sees, that order is a
    parameter, a permutation of the keys. *)
From stdpp Require Import sorting.
From S2P Require Import Prelude Bytes Amount Keys Tree When SdlCycles.
Open Scope Z_scope.

(** ** The document *)

Record valueEntry := mkEntry { ve_Name : string; ve_Meaning : string; Category : string }.
Record ValueSet := mkSet { Closed : bool; Values : gmap string valueEntry }.

Record Part := mkPart { Tag : string; pt_Name : string; pt_Meaning : string; pt_ValuesRef : string; pt_ValidValues : option ValueSet;
  pt_Alias : string   (* read by [load] only *) }.

(** The [any] of [mti]: a string, a list, or something else.  An element of the list that
    is no string is what [fmt.Sprint] prints for it. *)
Inductive mtiItem := ItemStr (code : string) | ItemOther (text : string).
Inductive mtiRef := MtiOne (code : string) | MtiList (codes : list mtiItem) | MtiOther.

Record MessageRule := mkRule {
  mr_MTI : mtiRef; Usage : string; mr_When : string; ResponseValue : string; mr_ValuesRef : string;
  mr_ValidValues : option ValueSet; mr_Note : string }.

(** The type [Field]. *)
Record FieldDecl := mkField {
  f_Name : string; Alias : string; f_Meaning : string; f_Note : string; f_Scope : string; Sensitivity : string;
  LogMask : option bool; ValuesRef : string; ValidValues : option ValueSet;
  Kind : string; Layout : string; CurrencyField : option Z;
  SubLayout : string; Parts : list Part; f_Messages : list MessageRule }.

Record Check := mkCheck { ck_MTI : list string; ck_Name : string; Assert : string; Severity : string; ck_Note : string }.
Record Message := mkMessage { m_Name : string; m_Meaning : string; Flow : string; PairsWith : string; Transitions : list string }.

Record simValue := mkSim { ChooseFrom : string; Weights : gmap string Z; Raw : string }.
Record simulation := mkSimulation { Mix : list (string * Z); Defaults : gmap Z simValue; Templates : gmap string (gmap Z simValue) }.
Record histogram := mkHistogram { h_Field : string; h_By : string; h_Unit : string }.

(** [Spec]; a value set under [enums] may be null. *)
Record Spec := mkSpec {
  sp_ID : string; sp_Version : string; sp_Protocol : string;
  Catalog : gmap string Message; Enums : gmap string (option ValueSet); Fields : gmap Z FieldDecl;
  Checks : list Check; Simulation : simulation; Dimensions : list string; Histograms : list histogram }.

Definition SeverityReject : string := "reject".
Definition SeverityWarn : string := "warn".

(** [Check.Level] *)
Definition Level (c : Check) : string := if bool_decide (Severity c = SeverityWarn) then SeverityWarn else SeverityReject.

(** [mtiCodes] and [MessageRule.Codes] *)
Definition mtiCodes (v : mtiRef) : list string :=
  match v with
  | MtiOne c => [c]
  | MtiList l => omap (λ i, match i with ItemStr c => Some c | ItemOther _ => None end) l
  | MtiOther => []
  end.
Definition Codes (r : MessageRule) : list string := mtiCodes (mr_MTI r).

(** [ValueSet.categorised] *)
Definition categorised (v : ValueSet) : bool :=
  negb (bool_decide (Values v = ∅)) && forallb (λ kv : string * valueEntry, negb (bool_decide (Category kv.2 = ""))) (map_to_list (Values v)).

(** [isSensitive] *)
Definition isSensitive (class : string) : bool :=
  bool_decide (class = "pan" ∨ class = "chd" ∨ class = "sad" ∨ class = "pii").

Definition currencyEnum : string := "currency_iso4217".

(** ** Errors *)

Inductive loc :=
| AtField (de : Z) | AtPart (de : Z) (label : string) | AtRule (de : Z) (i : nat) | AtCheck (i : nat)
| AtDefault (de : Z) | AtTemplate (mti : string) (de : Z).

Inductive rerr :=
| EEmptyCatalog (w : loc) | EBadSpecial (w : loc) (ref : string) | EUnknownSet (w : loc) (ref : string)
| EMaskOff (de : Z) | ECurrencyUndeclared (de cf : Z) | ECurrencyKind (de cf : Z)
| EUnknownMessage (w : loc) (code : string) | EResponseOnRequest (w : loc) (code : string)
| EWhenParse (w : loc) | EWhenField (w : loc) (de : Z) | EWhenSub (w : loc) (ref : FieldRef)
| EPairsWith (code to : string) | ETransition (code to : string) | ESeverity (w : loc) (s : string)
| EDimension (dim : string) | EUnbounded (dim : string)
| EHistogram (i : nat) | EHistogramBy (i : nat) | EHistogramCurrency (i : nat)
| EDrawSet (w : loc) (set : string) | EDrawWeight (w : loc) (code : string)
| EMix (i : nat) (use : string) | ECycle (cyc : list Z).

(** ** The checks of [resolveReferences] *)

Section resolve.
Context (rangeZ : list Z → list Z) (rangeS : list string → list string).
Context (s : Spec).

Definition fieldExists (de : Z) : bool := bool_decide (is_Some (Fields s !! de)).
Definition inCatalog (code : string) : bool := bool_decide (is_Some (Catalog s !! code)).

(** TLV parts are addressed by tag, positional ones by ordinal. *)
Definition partNamed (want : string) (i : nat) (p : Part) : bool :=
  bool_decide (Tag p = want) || bool_decide (Tag p = "") && bool_decide (Itoa (i + 1) = want).
Fixpoint findPart (want : string) (i : nat) (l : list Part) : option Part :=
  match l with
  | [] => None
  | p :: l => if partNamed want i p then Some p else findPart want (S i) l
  end.

Definition subExists (de : Z) (subs : list string) : bool :=
  match Fields s !! de with
  | None => false
  | Some f =>
      forallb (λ want, bool_decide (is_Some (findPart want 0 (Parts f)))) subs &&
      (bool_decide (subs = []) || negb (bool_decide (Parts f = [])))
  end.

Definition checkValuesRef (w : loc) (ref : string) : list rerr :=
  if bool_decide (ref = "") then []
  else if bool_decide (ref = "@messages") then (if bool_decide (Catalog s = ∅) then [EEmptyCatalog w] else [])
  else if HasPrefix ref "@" then [EBadSpecial w ref]
  else if bool_decide (is_Some (Enums s !! ref)) then [] else [EUnknownSet w ref].

Definition checkRef (w : loc) (ref : FieldRef) : list rerr :=
  if negb (fieldExists (DE ref)) then [EWhenField w (DE ref)]
  else if negb (bool_decide (Subs ref = [])) && negb (subExists (DE ref) (Subs ref)) then [EWhenSub w ref] else [].

Definition checkWhen (w : loc) (src : string) : list rerr :=
  if bool_decide (src = "") then [] else
  match ParseWhen src with
  | inl _ => [EWhenParse w]
  | inr e => concat (checkRef w <$> Refs e)
  end.

Definition partLabel (i : nat) (p : Part) : string := if bool_decide (Tag p = "") then Itoa (i + 1) else Tag p.

Definition checkCode (w : loc) (r : MessageRule) (code : string) : list rerr :=
  match Catalog s !! code with
  | None => [EUnknownMessage w code]
  | Some m => if negb (bool_decide (ResponseValue r = "")) && bool_decide (Flow m = "request")
              then [EResponseOnRequest w code] else []
  end.

Definition checkRule (de : Z) (i : nat) (r : MessageRule) : list rerr :=
  let w := AtRule de (i + 1) in
  checkValuesRef w (mr_ValuesRef r) ++ concat (checkCode w r <$> Codes r) ++ checkWhen w (mr_When r).

Definition checkCurrency (de : Z) (f : FieldDecl) : list rerr :=
  match CurrencyField f with
  | None => []
  | Some cf =>
      match Fields s !! cf with
      | None => [ECurrencyUndeclared de cf]
      | Some g => if bool_decide (ValuesRef g = currencyEnum) then [] else [ECurrencyKind de cf]
      end
  end.

Definition checkField (de : Z) (f : FieldDecl) : list rerr :=
  checkValuesRef (AtField de) (ValuesRef f) ++
  concat (imap (λ i p, checkValuesRef (AtPart de (partLabel i p)) (pt_ValuesRef p)) (Parts f)) ++
  (if bool_decide (LogMask f = Some false) && isSensitive (Sensitivity f) then [EMaskOff de] else []) ++
  checkCurrency de f ++
  concat (imap (checkRule de) (f_Messages f)).

Definition checkFields : list rerr :=
  concat ((λ de, match Fields s !! de with Some f => checkField de f | None => [] end) <$> sortedInts (dom (Fields s))).

(** [sortedKeys] *)
Definition sortedStrings (l : list string) : list string := merge_sort strLe l.

Definition checkMessage (code : string) (m : Message) : list rerr :=
  (if negb (bool_decide (PairsWith m = "")) && negb (inCatalog (PairsWith m)) then [EPairsWith code (PairsWith m)] else []) ++
  concat ((λ to, if inCatalog to then [] else [ETransition code to]) <$> Transitions m).

Definition checkCatalog : list rerr :=
  concat ((λ code, match Catalog s !! code with Some m => checkMessage code m | None => [] end)
    <$> sortedStrings (elements (dom (Catalog s)))).

Definition severityKnown (x : string) : bool := bool_decide (x = "" ∨ x = SeverityReject ∨ x = SeverityWarn).

Definition checkCheck (i : nat) (c : Check) : list rerr :=
  let w := AtCheck (i + 1) in
  concat ((λ code, if inCatalog code then [] else [EUnknownMessage w code]) <$> ck_MTI c) ++
  (if severityKnown (Severity c) then [] else [ESeverity w (Severity c)]) ++
  checkWhen w (Assert c).

(** [resolveDimension] *)
Fixpoint byAlias (dim : string) (ids : list Z) : option Z :=
  match ids with
  | [] => None
  | de :: ids => if bool_decide (Alias <$> Fields s !! de = Some dim) then Some de else byAlias dim ids
  end.
Definition resolveDimension (dim : string) : option (Z * list string) :=
  match parsePath dim 0 with
  | Some ref => if fieldExists (DE ref) then Some (DE ref, Subs ref) else None
  | None => (λ de, (de, [])) <$> byAlias dim (rangeZ (elements (dom (Fields s))))
  end.

Definition dimensionValueSet (de : Z) (subs : list string) : option ValueSet :=
  match Fields s !! de with
  | None => None
  | Some f =>
      let '(ref, inline) :=
        match subs with
        | [] => (ValuesRef f, ValidValues f)
        | want :: _ => match findPart want 0 (Parts f) with Some p => (pt_ValuesRef p, pt_ValidValues p) | None => (""%string, None) end
        end in
      match inline with
      | Some set => Some set
      | None => if bool_decide (ref = "@messages") then Some (mkSet true ∅)
                else if bool_decide (ref = "") then None
                else mjoin (Enums s !! ref)
      end
  end.

Definition dimensionIsBounded (de : Z) (subs : list string) : bool :=
  match dimensionValueSet de subs with
  | None => false
  | Some set => Closed set || categorised set
  end.

Definition checkDimension (dim : string) : list rerr :=
  if bool_decide (dim = "mti") then [] else
  match resolveDimension dim with
  | None => [EDimension dim]
  | Some (de, subs) => if dimensionIsBounded de subs then [] else [EUnbounded dim]
  end.

(** Grouping an amount by something other than its currency. *)
Definition groupsCurrency (subject by_ : Z) : bool :=
  match Fields s !! subject with
  | Some f =>
      if bool_decide (Kind f = "amount") then
        match CurrencyField f with
        | Some cf => bool_decide (cf = by_)
        | None => bool_decide (ValuesRef <$> Fields s !! by_ = Some currencyEnum)
        end
      else true
  | None => true
  end.

Definition checkHistogram (i : nat) (h : histogram) : list rerr :=
  match resolveDimension (h_Field h) with
  | None => [EHistogram (i + 1)]
  | Some (subject, _) =>
      if bool_decide (h_By h = "") then [] else
      match resolveDimension (h_By h) with
      | None => [EHistogramBy (i + 1)]
      | Some (by_, _) => if groupsCurrency subject by_ then [] else [EHistogramCurrency (i + 1)]
      end
  end.

(** [checkDraw]; a null value set has no values to look in. *)
Definition checkDraw (w : loc) (v : simValue) : list rerr :=
  if bool_decide (ChooseFrom v = "") then [] else
  match Enums s !! ChooseFrom v with
  | None => [EDrawSet w (ChooseFrom v)]
  | Some None => []
  | Some (Some set) =>
      concat ((λ code, if bool_decide (is_Some (Values set !! code)) then [] else [EDrawWeight w code])
        <$> rangeS (elements (dom (Weights v))))
  end.

(** Looking a weight up in a null value set is a nil dereference. *)
Definition drawPanics (v : simValue) : bool :=
  negb (bool_decide (ChooseFrom v = "")) && match Enums s !! ChooseFrom v with Some None => true | _ => false end && negb (bool_decide (Weights v = ∅)).

Definition draws (w : Z → loc) (m : gmap Z simValue) : list rerr :=
  concat ((λ de, match m !! de with Some v => checkDraw (w de) v | None => [] end) <$> sortedInts (dom m)).

Definition checkSimulation : list rerr :=
  draws AtDefault (Defaults (Simulation s)) ++
  concat ((λ mti, match Templates (Simulation s) !! mti with Some m => draws (AtTemplate mti) m | None => [] end)
    <$> sortedStrings (elements (dom (Templates (Simulation s))))) ++
  concat (imap (λ i (m : string * Z), if bool_decide (m.1 = "") || inCatalog m.1 then [] else [EMix (i + 1) m.1]) (Mix (Simulation s))).

(** The fields the conditions of field [de] read, itself left out. *)
Definition ruleReads (r : MessageRule) : list Z :=
  if bool_decide (mr_When r = "") then [] else
  match ParseWhen (mr_When r) with inl _ => [] | inr e => DE <$> Refs e end.
Definition fieldReads (de : Z) (f : FieldDecl) : gset Z := list_to_set (concat (ruleReads <$> f_Messages f)) ∖ {[de]}.

(** [deps] of [checkWhenCycles] *)
Definition whenDeps : deps_t :=
  map_imap (λ de f, let r := fieldReads de f in if bool_decide (r = ∅) then None else Some r) (Fields s).

Definition checkWhenCycles : list rerr :=
  match findCycle whenDeps with Some (Some cyc) => [ECycle cyc] | _ => [] end.

Definition simPanics : bool :=
  existsb (λ kv : Z * simValue, drawPanics kv.2) (map_to_list (Defaults (Simulation s))) ||
  existsb (λ t : string * gmap Z simValue, existsb (λ kv : Z * simValue, drawPanics kv.2) (map_to_list t.2)) (map_to_list (Templates (Simulation s))).

(** [resolveReferences]: every problem, or [None] for a panic. *)
Definition resolveReferences : option (list rerr) :=
  if simPanics then None else Some (
  checkFields ++ checkCatalog ++
  concat (imap checkCheck (Checks s)) ++
  concat (checkDimension <$> Dimensions s) ++
  concat (imap checkHistogram (Histograms s)) ++
  checkSimulation ++ checkWhenCycles).
End resolve.

(** ** What [load] derives for the pipeline *)

Record FieldMeta := mkMeta {
  Aliases : gmap Z string; SubAliases : gmap Z (gmap string string); IDByAlias : gmap string Z; SecureIDs : gset Z }.

(** The parts with an alias. *)
Fixpoint subAliases (i : nat) (l : list Part) (m : gmap string string) : gmap string string :=
  match l with
  | [] => m
  | p :: l => subAliases (S i) l (if bool_decide (pt_Alias p = "") then m else <[partLabel i p := pt_Alias p]> m)
  end.

(** [log_mask] is false when it is absent. *)
Definition secure (f : FieldDecl) : bool := bool_decide (LogMask f = Some true) || isSensitive (Sensitivity f).

Definition addMeta (s : Spec) (meta : FieldMeta) (id : Z) : FieldMeta :=
  match Fields s !! id with
  | None => meta
  | Some f =>
      let subs := subAliases 0 (Parts f) ∅ in
      mkMeta (if bool_decide (Alias f = "") then Aliases meta else <[id := Alias f]> (Aliases meta))
             (if bool_decide (subs = ∅) then SubAliases meta else <[id := subs]> (SubAliases meta))
             (if bool_decide (Alias f = "") then IDByAlias meta else <[Alias f := id]> (IDByAlias meta))
             (if secure f then {[id]} ∪ SecureIDs meta else SecureIDs meta)
  end.

Definition fieldMeta (s : Spec) : FieldMeta :=
  foldl (addMeta s) (mkMeta ∅ ∅ ∅ ∅) (sortedInts (dom (Fields s))).
