(* ===== verification/SdlSpec.v ===== *)
(** * A specification resolves exactly when it is consistent

    [consistent] says what the checks of resolve.go are for, without the code's lists,
    orders and searches; [resolve_exact] that the code reports no error exactly then,
    fields conditioned on themselves aside. *)
From stdpp Require Import sorting.
From S2P Require Import Prelude Bytes Amount Keys Tree When SdlCycles Sdl.
Open Scope Z_scope.

(** ** No error in a list of checks *)

Lemma concat_fmap_nil {A B} (f : A → list B) l : concat (f <$> l) = [] ↔ ∀ x, x ∈ l → f x = [].
Proof.
  induction l as [|a l IH]; simpl; [split; [by intros _ x ?%elem_of_nil|done]|].
  rewrite app_nil, IH. split; [|intros H; split; [|intros]; apply H; set_solver].
  intros [Ha Hl] x [->|?]%elem_of_cons; auto.
Qed.

Lemma concat_imap_nil {A B} (f : nat → A → list B) l : concat (imap f l) = [] ↔ ∀ i x, l !! i = Some x → f i x = [].
Proof.
  revert f. induction l as [|a l IH]; intros f; simpl; [done|]. rewrite app_nil, IH. split.
  - intros [Ha Hl] [|i] x Hx; simplify_eq/=; [done|]. by apply (Hl i).
  - intros H. split; [by apply (H 0%nat)|]. intros i x Hx. by apply (H (S i)).
Qed.

Lemma if_nil {B} (c : bool) (x : B) : (if c then [x] else []) = [] ↔ c = false.
Proof. by destruct c. Qed.
Lemma if_nil' {B} (c : bool) (x : B) : (if c then [] else [x]) = [] ↔ c = true.
Proof. by destruct c. Qed.

Lemma elem_of_sortedStrings x l : x ∈ sortedStrings l ↔ x ∈ l.
Proof. unfold sortedStrings. by rewrite merge_sort_Permutation. Qed.

(** A check for every entry of a map, in some order of its keys. *)
Lemma concat_keys_nil `{Countable K} {A B} (m : gmap K A) (f : K → A → list B) (l : list K) :
  (∀ k, k ∈ l ↔ k ∈ dom m) →
  concat ((λ k, match m !! k with Some x => f k x | None => [] end) <$> l) = [] ↔ ∀ k x, m !! k = Some x → f k x = [].
Proof.
  intros Hl. rewrite concat_fmap_nil. split.
  - intros Hc k x Hk. specialize (Hc k). rewrite Hk in Hc. apply Hc, Hl. by apply elem_of_dom_2 in Hk.
  - intros Hc k Hk. apply Hl, elem_of_dom in Hk as [x Hk]. rewrite Hk. by apply Hc.
Qed.

Lemma existsb_map_false `{Countable K} {A} (p : A → bool) (m : gmap K A) :
  existsb (λ kv : K * A, p kv.2) (map_to_list m) = false ↔ ∀ k x, m !! k = Some x → p x = false.
Proof.
  split.
  - intros He k x Hk. destruct (p x) eqn:Hp; [|done]. exfalso. apply not_true_iff_false in He. apply He, existsb_exists.
    exists (k, x). split; [|done]. by apply list_elem_of_In, elem_of_map_to_list.
  - intros Hm. apply not_true_iff_false. intros ([k x] & Hin & Hp)%existsb_exists.
    apply list_elem_of_In, elem_of_map_to_list in Hin. simpl in Hp. by rewrite (Hm k x Hin) in Hp.
Qed.

(** ** What a consistent document is *)

Section consistent.
Context (s : Spec).

(** A named value set is declared, or is the catalog of messages. *)
Definition valuesRefOk (ref : string) : Prop :=
  ref = "" ∨ ref = "@messages" ∧ Catalog s ≠ ∅ ∨ HasPrefix ref "@" = false ∧ is_Some (Enums s !! ref).

(** A condition parses, and every place it reads is declared. *)
Definition partAt (f : FieldDecl) (want : string) : Prop :=
  ∃ i p, Parts f !! i = Some p ∧ (Tag p = want ∨ Tag p = "" ∧ Itoa (i + 1) = want).
Definition refOk (r : FieldRef) : Prop :=
  ∃ f, Fields s !! DE r = Some f ∧ ∀ want, want ∈ Subs r → partAt f want.
Definition whenOk (src : string) : Prop :=
  src = "" ∨ ∃ e, ParseWhen src = inr e ∧ ∀ r, r ∈ Refs e → refOk r.

Definition ruleOk (r : MessageRule) : Prop :=
  valuesRefOk (mr_ValuesRef r) ∧ whenOk (mr_When r) ∧
  ∀ code, code ∈ Codes r → ∃ m, Catalog s !! code = Some m ∧ (ResponseValue r = "" ∨ Flow m ≠ "request").

Record fieldOk (f : FieldDecl) : Prop := {
  ok_values : valuesRefOk (ValuesRef f);
  ok_parts : ∀ p, p ∈ Parts f → valuesRefOk (pt_ValuesRef p);
  ok_mask : isSensitive (Sensitivity f) = true → LogMask f ≠ Some false;
  ok_currency : ∀ cf, CurrencyField f = Some cf → ValuesRef <$> Fields s !! cf = Some currencyEnum;
  ok_rules : ∀ r, r ∈ f_Messages f → ruleOk r }.

Definition messageOk (m : Message) : Prop :=
  (PairsWith m = "" ∨ is_Some (Catalog s !! PairsWith m)) ∧ ∀ to, to ∈ Transitions m → is_Some (Catalog s !! to).

Definition checkOk (c : Check) : Prop :=
  (∀ code, code ∈ ck_MTI c → is_Some (Catalog s !! code)) ∧
  (Severity c = "" ∨ Severity c = SeverityReject ∨ Severity c = SeverityWarn) ∧ whenOk (Assert c).

(** The field a name of the telemetry section stands for: the one its path starts at,
    or the one it is the alias of. *)
Definition namesField (dim : string) (de : Z) (subs : list string) : Prop :=
  match parsePath dim 0 with
  | Some ref => de = DE ref ∧ subs = Subs ref ∧ is_Some (Fields s !! de)
  | None => Alias <$> Fields s !! de = Some dim ∧ subs = []
  end.

Definition dimensionOk (dim : string) : Prop :=
  dim = "mti" ∨ ∃ de subs, namesField dim de subs ∧ dimensionIsBounded s de subs = true.

(** An amount is grouped by its currency. *)
Definition groupOk (subject by_ : Z) : Prop :=
  ∀ f, Fields s !! subject = Some f → Kind f = "amount" →
    match CurrencyField f with Some cf => cf = by_ | None => ValuesRef <$> Fields s !! by_ = Some currencyEnum end.

Definition histogramOk (h : histogram) : Prop :=
  ∃ subject subs, namesField (h_Field h) subject subs ∧
    (h_By h = "" ∨ ∃ by_ subs', namesField (h_By h) by_ subs' ∧ groupOk subject by_).

(** A generator draws from a declared set, and weighs values of that set. *)
Definition drawOk (v : simValue) : Prop :=
  ChooseFrom v = "" ∨
  Enums s !! ChooseFrom v = Some None ∧ Weights v = ∅ ∨
  ∃ set, Enums s !! ChooseFrom v = Some (Some set) ∧ ∀ code, is_Some (Weights v !! code) → is_Some (Values set !! code).

(** A condition on the presence of field [x] reads field [y], which may be [x] itself. *)
Definition conditionReads (x y : Z) : Prop :=
  ∃ f r e, Fields s !! x = Some f ∧ r ∈ f_Messages f ∧ mr_When r ≠ "" ∧
    ParseWhen (mr_When r) = inr e ∧ y ∈ DE <$> Refs e.

Record consistent : Prop := {
  co_fields : ∀ de f, Fields s !! de = Some f → fieldOk f;
  co_catalog : ∀ code m, Catalog s !! code = Some m → messageOk m;
  co_checks : ∀ c, c ∈ Checks s → checkOk c;
  co_dimensions : ∀ dim, dim ∈ Dimensions s → dimensionOk dim;
  co_histograms : ∀ h, h ∈ Histograms s → histogramOk h;
  co_defaults : ∀ de v, Defaults (Simulation s) !! de = Some v → drawOk v;
  co_templates : ∀ mti m de v, Templates (Simulation s) !! mti = Some m → m !! de = Some v → drawOk v;
  co_mix : ∀ use weight, (use, weight) ∈ Mix (Simulation s) → use = "" ∨ is_Some (Catalog s !! use);
  co_acyclic : ∀ x, ¬ tc conditionReads x x }.

(** No field's condition reads the field itself.  [checkWhenCycles] leaves such
    references out, for a check that does not exist: see [self_condition_accepted]. *)
Definition noSelfCondition : Prop := ∀ x, ¬ conditionReads x x.

(** No alias the telemetry section uses is that of two fields. *)
Definition unambiguous : Prop :=
  ∀ dim de de', (dim ∈ Dimensions s ∨ ∃ h, h ∈ Histograms s ∧ (dim = h_Field h ∨ dim = h_By h)) →
    Alias <$> Fields s !! de = Some dim → Alias <$> Fields s !! de' = Some dim → de = de'.

(** ** Each check is exact *)

Lemma valuesRef_exact w ref : checkValuesRef s w ref = [] ↔ valuesRefOk ref.
Proof.
  unfold checkValuesRef, valuesRefOk. destruct (decide (ref = "")) as [->|Hn]; [rewrite bool_decide_true by done; naive_solver|].
  rewrite bool_decide_false by done. destruct (decide (ref = "@messages")) as [->|Hm].
  { rewrite bool_decide_true by done. case_bool_decide; split; naive_solver. }
  rewrite bool_decide_false by done. destruct (HasPrefix ref "@"); [naive_solver|].
  case_bool_decide; naive_solver.
Qed.

Lemma findPart_spec want i l :
  is_Some (findPart want i l) ↔ ∃ j p, l !! j = Some p ∧ (Tag p = want ∨ Tag p = "" ∧ Itoa (i + j + 1) = want).
Proof.
  revert i. induction l as [|p l IH]; intros i; cbn [findPart].
  { split; [by intros []|]. by intros (j & p & H & _). }
  assert (partNamed want i p = true ↔ Tag p = want ∨ Tag p = "" ∧ Itoa (i + 1) = want) as Hp.
  { unfold partNamed. rewrite orb_true_iff, andb_true_iff, !bool_decide_eq_true. done. }
  destruct (partNamed want i p).
  - split; [|by eexists]. intros _. exists 0%nat, p. rewrite Nat.add_0_r. naive_solver.
  - rewrite IH. split; intros (j & q & Hq & Hw).
    + exists (S j), q. split; [done|]. by replace (i + S j + 1)%nat with (S i + j + 1)%nat by lia.
    + destruct j as [|j]; simplify_eq/=.
      * rewrite Nat.add_0_r in Hw. naive_solver.
      * exists j, q. split; [done|]. by replace (S (i + j + 1)) with (i + S j + 1)%nat by lia.
Qed.

Lemma ref_exact w r : checkRef s w r = [] ↔ refOk r.
Proof.
  unfold checkRef, refOk, fieldExists, subExists. destruct (Fields s !! DE r) as [f|] eqn:Hf.
  2: { rewrite bool_decide_false by (by intros []). simpl. split; [done|]. by intros (f & ? & _). }
  rewrite bool_decide_true by (by eexists). simpl.
  assert (∀ want, partAt f want ↔ is_Some (findPart want 0 (Parts f))) as Hat.
  { intros want. rewrite findPart_spec. done. }
  destruct (decide (Subs r = [])) as [->|Hne].
  { rewrite bool_decide_true by done. simpl. split; [|done]. intros _. exists f. split; [done|]. by intros w' ?%elem_of_nil. }
  rewrite (bool_decide_false (Subs r = [])) by done. simpl. rewrite if_nil, negb_false_iff, andb_true_iff, negb_true_iff, forallb_forall.
  split.
  - intros [Ha _]. exists f. split; [done|]. intros want Hw. apply Hat. eapply bool_decide_eq_true, Ha. by apply list_elem_of_In.
  - intros (g & ? & Hg). simplify_eq. split.
    + intros want Hw%list_elem_of_In. apply bool_decide_eq_true. by apply Hat, Hg.
    + apply bool_decide_eq_false. intros Hp. destruct (Subs r) as [|want l]; [done|].
      destruct (Hg want) as (i & p & Hi & _); [set_solver|]. by rewrite Hp in Hi.
Qed.

Lemma when_exact w src : checkWhen s w src = [] ↔ whenOk src.
Proof.
  unfold checkWhen, whenOk. case_bool_decide as Hs; [naive_solver|].
  destruct (ParseWhen src) as [o|e]; [naive_solver|]. rewrite concat_fmap_nil.
  split; [intros H; right; exists e; split; [done|]; intros r Hr; by apply (ref_exact w), H|].
  intros [?|(e' & [= <-] & H)]; [done|]. intros r Hr. by apply ref_exact, H.
Qed.

Lemma rule_exact de i r : checkRule s de i r = [] ↔ ruleOk r.
Proof.
  unfold checkRule, ruleOk. rewrite !app_nil, valuesRef_exact, when_exact, concat_fmap_nil.
  enough (∀ code, checkCode s (AtRule de (i + 1)) r code = [] ↔
    ∃ m, Catalog s !! code = Some m ∧ (ResponseValue r = "" ∨ Flow m ≠ "request")) as Hc.
  { setoid_rewrite Hc. tauto. }
  intros code. unfold checkCode. destruct (Catalog s !! code) as [m|]; [|naive_solver].
  rewrite if_nil, andb_false_iff, negb_false_iff, bool_decide_eq_true, bool_decide_eq_false. naive_solver.
Qed.

Lemma currency_exact de f :
  checkCurrency s de f = [] ↔ ∀ cf, CurrencyField f = Some cf → ValuesRef <$> Fields s !! cf = Some currencyEnum.
Proof.
  unfold checkCurrency. destruct (CurrencyField f) as [cf|]; [|naive_solver].
  destruct (Fields s !! cf) as [g|] eqn:Hg.
  - rewrite if_nil', bool_decide_eq_true. split; [intros ? ? [= <-]; rewrite Hg; simpl; congruence|].
    intros H. specialize (H cf eq_refl). rewrite Hg in H. by simplify_eq/=.
  - split; [done|]. intros H. specialize (H cf eq_refl). by rewrite Hg in H.
Qed.

Lemma field_exact de f : checkField s de f = [] ↔ fieldOk f.
Proof.
  unfold checkField. rewrite !app_nil, valuesRef_exact, currency_exact, !concat_imap_nil, if_nil, andb_false_iff, bool_decide_eq_false.
  setoid_rewrite valuesRef_exact. setoid_rewrite rule_exact. split.
  - intros (Hv & Hp & Hm & Hc & Hr). split; [done| | |done|].
    + intros p [i Hi]%list_elem_of_lookup. by eapply Hp.
    + intros Hsens [=]. destruct Hm as [?|?]; congruence.
    + intros r [i Hi]%list_elem_of_lookup. by eapply Hr.
  - intros [Hv Hp Hm Hc Hr]. split_and!; [done| | |done|].
    + intros i p Hi. apply Hp. by eapply list_elem_of_lookup_2.
    + destruct (isSensitive (Sensitivity f)); [left; by apply Hm|by right].
    + intros i r Hi. apply Hr. by eapply list_elem_of_lookup_2.
Qed.

Lemma inCatalog_spec code : inCatalog s code = true ↔ is_Some (Catalog s !! code).
Proof. apply bool_decide_eq_true. Qed.

Lemma message_exact code m : checkMessage s code m = [] ↔ messageOk m.
Proof.
  unfold checkMessage, messageOk. rewrite app_nil, if_nil, concat_fmap_nil, andb_false_iff, !negb_false_iff, bool_decide_eq_true.
  setoid_rewrite if_nil'. by setoid_rewrite inCatalog_spec.
Qed.

Lemma check_exact i c : checkCheck s i c = [] ↔ checkOk c.
Proof.
  unfold checkCheck, checkOk, severityKnown. rewrite !app_nil, if_nil', concat_fmap_nil, when_exact, bool_decide_eq_true.
  setoid_rewrite if_nil'. by setoid_rewrite inCatalog_spec.
Qed.

Lemma checks_exact : concat (imap (checkCheck s) (Checks s)) = [] ↔ ∀ c, c ∈ Checks s → checkOk c.
Proof.
  rewrite concat_imap_nil. setoid_rewrite check_exact. split.
  - intros H c [i Hi]%list_elem_of_lookup. by eapply H.
  - intros H i c Hi. apply H. by eapply list_elem_of_lookup_2.
Qed.

Lemma group_exact subject by_ : is_Some (Fields s !! subject) → groupsCurrency s subject by_ = true ↔ groupOk subject by_.
Proof.
  intros [f Hf]. unfold groupsCurrency, groupOk. rewrite Hf. case_bool_decide as Hk; [|naive_solver].
  destruct (CurrencyField f) as [cf|] eqn:Hc; rewrite bool_decide_eq_true.
  - split; [intros -> g [= <-]; by rewrite Hc|]. intros H. specialize (H f eq_refl Hk). by rewrite Hc in H.
  - split; [intros H g [= <-]; by rewrite Hc|]. intros H. specialize (H f eq_refl Hk). by rewrite Hc in H.
Qed.

Lemma conditionReads_dep x y : dep (whenDeps s) x y ↔ x ≠ y ∧ conditionReads x y.
Proof.
  unfold dep, succs, whenDeps, conditionReads. rewrite map_lookup_imap. destruct (Fields s !! x) as [f|]; simpl.
  2: { split; [set_solver|]. by intros (_ & ? & ? & ? & ? & _). }
  transitivity (y ∈ fieldReads x f).
  { case_bool_decide as He; simpl; [rewrite He|]; done. }
  unfold fieldReads. rewrite elem_of_difference, elem_of_list_to_set, elem_of_singleton, list_elem_of_In, in_concat. split.
  - intros [(l & Hl & Hy) Hne]. apply list_elem_of_In, list_elem_of_fmap in Hl as (r & -> & Hr). split; [done|].
    unfold ruleReads in Hy. case_bool_decide; [done|]. destruct (ParseWhen (mr_When r)) as [|e] eqn:He; [done|].
    exists f, r, e. split_and!; [done..|]. by apply list_elem_of_In.
  - intros (Hne & g & r & e & [= <-] & Hr & Hw & He & Hy). split; [|done]. exists (ruleReads r). split.
    + apply list_elem_of_In, list_elem_of_fmap. by exists r.
    + unfold ruleReads. rewrite bool_decide_false, He by done. by apply list_elem_of_In.
Qed.

Lemma cycles_exact : noSelfCondition → checkWhenCycles s = [] ↔ ∀ x, ¬ tc conditionReads x x.
Proof.
  intros Hself. assert (acyclic (whenDeps s) ↔ ∀ x, ¬ tc conditionReads x x) as Ha.
  { unfold acyclic. split; intros H x Hx; apply (H x); revert Hx; apply (tc_congruence id); intros y z Hyz.
    - apply conditionReads_dep. simpl. split; [|done]. intros ->. by apply (Hself z).
    - by apply conditionReads_dep in Hyz as [_ ?]. }
  unfold checkWhenCycles. destruct (findCycle_exact (whenDeps s)) as [(cyc & -> & _ & Hn)|[-> Hac]]; naive_solver.
Qed.

(** *** Where the code ranges over maps *)

Context (rangeZ : list Z → list Z) (rangeS : list string → list string).
Context (HrangeZ : ∀ l, rangeZ l ≡ₚ l) (HrangeS : ∀ l, rangeS l ≡ₚ l).

Lemma byAlias_spec dim ids :
  match byAlias s dim ids with
  | Some de => de ∈ ids ∧ Alias <$> Fields s !! de = Some dim
  | None => ∀ de, de ∈ ids → Alias <$> Fields s !! de ≠ Some dim
  end.
Proof.
  induction ids as [|de ids IH]; cbn [byAlias]; [by intros ? ?%elem_of_nil|]. case_bool_decide as E; [set_solver|].
  destruct (byAlias s dim ids); [set_solver|]. intros d [->|?]%elem_of_cons; [done|by apply IH].
Qed.

Lemma resolveDimension_spec dim :
  match resolveDimension rangeZ s dim with
  | Some (de, subs) => namesField dim de subs ∧ is_Some (Fields s !! de)
  | None => ∀ de subs, ¬ namesField dim de subs
  end.
Proof.
  unfold resolveDimension, namesField. destruct (parsePath dim 0) as [ref|].
  - unfold fieldExists. case_bool_decide as E; [done|]. by intros de subs (-> & _ & ?).
  - pose proof (byAlias_spec dim (rangeZ (elements (dom (Fields s))))) as H. destruct (byAlias _ _ _) as [de|]; simpl.
    + destruct H as [_ H]. split; [done|]. by destruct (Fields s !! de).
    + intros de subs [Ha _]. apply (H de); [|done]. rewrite HrangeZ. apply elem_of_elements, elem_of_dom.
      by destruct (Fields s !! de).
Qed.

Lemma namesField_unique dim de de' subs subs' :
  unambiguous → dim ∈ Dimensions s ∨ (∃ h, h ∈ Histograms s ∧ (dim = h_Field h ∨ dim = h_By h)) →
  namesField dim de subs → namesField dim de' subs' → de = de' ∧ subs = subs'.
Proof.
  intros Hu Hd. unfold namesField. destruct (parsePath dim 0) as [ref|]; [naive_solver|].
  intros [? ->] [? ->]. split; [by eapply Hu|done].
Qed.

Lemma dimension_exact dim : unambiguous → dim ∈ Dimensions s → checkDimension rangeZ s dim = [] ↔ dimensionOk dim.
Proof.
  intros Hu Hd. unfold checkDimension, dimensionOk. case_bool_decide as Hm; [naive_solver|].
  pose proof (resolveDimension_spec dim) as Hr. destruct (resolveDimension _ _ _) as [[de subs]|].
  - rewrite if_nil'. split; [intros; right; exists de, subs; split; [apply Hr|done]|].
    intros [?|(de' & subs' & Hn & Hb)]; [done|]. destruct Hr as [Hr _].
    destruct (namesField_unique dim de de' subs subs') as [-> ->]; auto.
  - split; [done|]. intros [?|(de & subs & Hn & _)]; [done|]. by apply Hr in Hn.
Qed.

Lemma histogram_exact i h : unambiguous → h ∈ Histograms s → checkHistogram rangeZ s i h = [] ↔ histogramOk h.
Proof.
  intros Hu Hh. unfold checkHistogram, histogramOk.
  pose proof (resolveDimension_spec (h_Field h)) as Hr. destruct (resolveDimension _ _ (h_Field h)) as [[subj subs]|].
  2: { split; [done|]. intros (? & ? & Hn & _). by apply Hr in Hn. }
  destruct Hr as [Hr Hf].
  assert (∀ d t, namesField (h_Field h) d t → d = subj ∧ t = subs) as Hun.
  { intros d t Hn. eapply namesField_unique; [done| |done|done]. right. exists h. auto. }
  case_bool_decide as Hb; [split; [|done]; intros _; exists subj, subs; auto|].
  pose proof (resolveDimension_spec (h_By h)) as Hr2. destruct (resolveDimension _ _ (h_By h)) as [[b bs]|].
  2: { split; [done|]. intros (? & ? & _ & [?|(? & ? & Hn & _)]); [done|]. by apply Hr2 in Hn. }
  destruct Hr2 as [Hr2 _]. rewrite if_nil', group_exact by done. split.
  - intros Hg. exists subj, subs. split; [done|]. right. by exists b, bs.
  - intros (d & t & Hn & [?|(b' & bs' & Hn' & Hg)]); [done|]. destruct (Hun d t Hn) as [-> ->].
    destruct (namesField_unique (h_By h) b b' bs bs') as [-> ->]; [done| |done..]. right. exists h. auto.
Qed.

Lemma draw_exact w v : drawPanics s v = false ∧ checkDraw rangeS s w v = [] ↔ drawOk v.
Proof.
  unfold drawPanics, checkDraw, drawOk. case_bool_decide as Hn; simpl; [naive_solver|].
  destruct (Enums s !! ChooseFrom v) as [[set|]|] eqn:He; simpl.
  - rewrite concat_fmap_nil. setoid_rewrite HrangeS. setoid_rewrite elem_of_elements. setoid_rewrite elem_of_dom.
    setoid_rewrite if_nil'. setoid_rewrite bool_decide_eq_true. naive_solver.
  - rewrite negb_false_iff, bool_decide_eq_true. naive_solver.
  - naive_solver.
Qed.

Lemma draws_exact w m :
  (∀ de v, m !! de = Some v → drawPanics s v = false) ∧ draws rangeS s w m = [] ↔ ∀ de v, m !! de = Some v → drawOk v.
Proof.
  unfold draws. rewrite concat_keys_nil by (intros; apply elem_of_sortedInts). split.
  - intros [H1 H2] de v Hv. apply (draw_exact (w de)). eauto.
  - intros H. split; intros de v Hv; by apply (draw_exact (w de)), (H de).
Qed.

Lemma mix_exact :
  concat (imap (λ i (m : string * Z), if bool_decide (m.1 = "") || inCatalog s m.1 then [] else [EMix (i + 1) m.1]) (Mix (Simulation s))) = [] ↔
  ∀ use weight, (use, weight) ∈ Mix (Simulation s) → use = "" ∨ is_Some (Catalog s !! use).
Proof.
  rewrite concat_imap_nil. setoid_rewrite if_nil'. setoid_rewrite orb_true_iff. setoid_rewrite bool_decide_eq_true. split.
  - intros H use weight [i Hi]%list_elem_of_lookup. by apply (H i (use, weight)).
  - intros H i [use weight] Hi. eapply H. by eapply list_elem_of_lookup_2.
Qed.

Lemma simulation_exact :
  simPanics s = false ∧ checkSimulation rangeS s = [] ↔
  (∀ de v, Defaults (Simulation s) !! de = Some v → drawOk v) ∧
  (∀ mti m de v, Templates (Simulation s) !! mti = Some m → m !! de = Some v → drawOk v) ∧
  (∀ use weight, (use, weight) ∈ Mix (Simulation s) → use = "" ∨ is_Some (Catalog s !! use)).
Proof.
  unfold simPanics, checkSimulation. rewrite orb_false_iff, (existsb_map_false (drawPanics s)), !app_nil, mix_exact.
  rewrite (existsb_map_false (λ m, existsb (λ kv : Z * simValue, drawPanics s kv.2) (map_to_list m))).
  setoid_rewrite (existsb_map_false (drawPanics s)).
  rewrite concat_keys_nil by (intros; rewrite elem_of_sortedStrings; apply elem_of_elements).
  pose proof (draws_exact AtDefault (Defaults (Simulation s))) as Hd. split.
  - intros ((H1 & H2) & H3 & H4 & H5). split_and!; [by apply Hd| |done].
    intros mti m de v Hm. apply (draws_exact (AtTemplate mti)). eauto.
  - intros (H1 & H2 & H3). apply Hd in H1 as [? ?].
    assert (∀ mti m, Templates (Simulation s) !! mti = Some m →
      (∀ de v, m !! de = Some v → drawPanics s v = false) ∧ draws rangeS s (AtTemplate mti) m = []) as Ht.
    { intros mti m Hm. apply draws_exact. eauto. }
    split_and!; [done| |done| |done]; intros mti m Hm; by apply (Ht mti m).
Qed.

Lemma resolve_iff : unambiguous → noSelfCondition → resolveReferences rangeZ rangeS s = Some [] ↔ consistent.
Proof.
  intros Hu Hself. unfold resolveReferences.
  transitivity (simPanics s = false ∧ checkFields s ++ checkCatalog s ++ concat (imap (checkCheck s) (Checks s)) ++
    concat (checkDimension rangeZ s <$> Dimensions s) ++ concat (imap (checkHistogram rangeZ s) (Histograms s)) ++
    checkSimulation rangeS s ++ checkWhenCycles s = []).
  { destruct (simPanics s); split; [done|by intros []|intros [= H]; split; [done|exact H]|by intros [_ ->]]. }
  unfold checkFields, checkCatalog. rewrite !app_nil, checks_exact, (cycles_exact Hself).
  rewrite (concat_keys_nil (Fields s)) by (intros; apply elem_of_sortedInts).
  rewrite (concat_keys_nil (Catalog s)) by (intros; rewrite elem_of_sortedStrings; apply elem_of_elements).
  setoid_rewrite field_exact. setoid_rewrite message_exact. rewrite concat_fmap_nil, concat_imap_nil.
  pose proof simulation_exact as Hsim. split.
  - intros (Hp & Hf & Hc & Hck & Hd & Hh & Hs & Hcy). destruct Hsim as [Hsim _].
    destruct Hsim as (? & ? & ?); [done|]. split; try done.
    + intros dim Hdim. apply dimension_exact; auto.
    + intros h Hin. pose proof Hin as [i Hi]%list_elem_of_lookup. eapply histogram_exact; [done|done|]. by apply (Hh i).
  - intros [Hf Hc Hck Hd Hh H1 H2 H3 Hcy]. destruct Hsim as [_ Hsim]. destruct Hsim as [? ?]; [done|].
    split_and!; try done.
    + intros dim Hdim. apply dimension_exact; auto.
    + intros i h Hi. assert (h ∈ Histograms s) by (by eapply list_elem_of_lookup_2). apply histogram_exact; auto.
Qed.
End consistent.


(** ** Masking *)

Lemma fieldMeta_secure s id : id ∈ SecureIDs (fieldMeta s) ↔ ∃ f, Fields s !! id = Some f ∧ secure f = true.
Proof.
  unfold fieldMeta.
  enough (∀ l meta, id ∈ SecureIDs (foldl (addMeta s) meta l) ↔
    id ∈ SecureIDs meta ∨ id ∈ l ∧ ∃ f, Fields s !! id = Some f ∧ secure f = true) as H.
  { rewrite H, elem_of_sortedInts, elem_of_dom. set_solver. }
  induction l as [|x l IH]; intros meta; simpl; [set_solver|]. rewrite IH.
  assert (id ∈ SecureIDs (addMeta s meta x) ↔ id ∈ SecureIDs meta ∨ id = x ∧ ∃ f, Fields s !! id = Some f ∧ secure f = true) as ->.
  { unfold addMeta. destruct (Fields s !! x) as [f|] eqn:Hx; [|naive_solver]. simpl.
    destruct (secure f) eqn:Hsec; [rewrite elem_of_union, elem_of_singleton|]; split.
    - intros [->|?]; [right; by eauto|by left].
    - intros [?|[-> _]]; [by right|by left].
    - by left.
    - intros [?|(-> & g & Hg & Hsg)]; [done|]. congruence. }
  rewrite elem_of_cons. tauto.
Qed.

(** A classified field of a document that resolves is masked, whatever the document
    says about its log mask. *)
Theorem sensitive_fields_masked (rangeZ : list Z → list Z) (rangeS : list string → list string) (s : Spec) errs de f :
  resolveReferences rangeZ rangeS s = Some errs → Fields s !! de = Some f → isSensitive (Sensitivity f) = true →
  de ∈ SecureIDs (fieldMeta s) ∧ (LogMask f = Some false → EMaskOff de ∈ errs).
Proof.
  unfold resolveReferences. intros Hr Hf Hs. destruct (simPanics s); simplify_eq. split.
  - apply fieldMeta_secure. exists f. split; [done|]. unfold secure. by rewrite Hs, orb_true_r.
  - intros Hm. apply elem_of_app. left. unfold checkFields. apply list_elem_of_In, in_concat.
    exists (checkField s de f). split.
    + apply list_elem_of_In, list_elem_of_fmap. exists de. rewrite Hf. split; [done|].
      apply elem_of_sortedInts. by apply elem_of_dom_2 in Hf.
    + apply list_elem_of_In. unfold checkField. rewrite (bool_decide_true _ Hm), Hs. set_solver.
Qed.

(** ** A document, and one with a condition on itself *)

Definition plainField (alias : string) (rules : list MessageRule) : FieldDecl :=
  mkField "" alias "" "" "" "" None "" None "" "" None "" [] rules.
Definition whenRule (usage cond : string) : MessageRule := mkRule (MtiOne "0100") usage cond "" "" None "".
Definition docOf (fields : gmap Z FieldDecl) (checks : list Check) : Spec :=
  mkSpec "demo" "1.0.0" "" {["0100" := mkMessage "" "" "request" "" []]} ∅ fields checks
    (mkSimulation [] ∅ ∅) [] [].

Definition twoFields : Spec := docOf {[2 := plainField "pan" []; 4 := plainField "amount" [whenRule "mandatory" "present(2)"]]} [].

Lemma twoFields_noSelf : noSelfCondition twoFields.
Proof.
  intros x (f & r & e & Hf & Hr & _ & He & Hx). change (Fields twoFields) with
    ({[2 := plainField "pan" []; 4 := plainField "amount" [whenRule "mandatory" "present(2)"]]} : gmap Z FieldDecl) in Hf.
  destruct (decide (x = 2)) as [->|H2].
  - rewrite lookup_insert_eq in Hf. injection Hf as <-. by apply elem_of_nil in Hr.
  - rewrite lookup_insert_ne in Hf by done. apply lookup_singleton_Some in Hf as [<- <-].
    apply list_elem_of_singleton in Hr as ->. vm_compute in He. injection He as <-.
    apply list_elem_of_singleton in Hx. done.
Qed.


(** A field whose presence depends on itself is not reported, though the document is not
    consistent: the check leaves the field's own references out, and nothing else looks
    for them. *)
Theorem self_condition_accepted :
  let s := docOf {[4 := plainField "amount" [whenRule "mandatory" "present(4)"]]} [] in
  resolveReferences id id s = Some [] ∧ conditionReads s 4 4 ∧ ¬ consistent s.
Proof.
  intros s. split; [vm_compute; reflexivity|]. assert (conditionReads s 4 4) as Hc.
  { eexists _, (whenRule "mandatory" "present(4)"), _. split_and!; [reflexivity|by left|done|vm_compute; reflexivity|by left]. }
  split; [done|]. intros Hs. apply (co_acyclic s Hs 4). by apply tc_once.
Qed.
