(* ===== verification/SdlValidate.v ===== *)
(** * sdl/validate.go: the rules of a specification applied to messages

    [NewValidator] compiles a document's conditions once; [Validate] applies them to a
    message.  The theorems: what a compiled validator reports is what the document's
    rules say of the message, with the first entry that holds deciding each field, unless
    a later entry that holds asks for more; and a document that resolved compiles. *)
From stdpp Require Import sorting.
From S2P Require Import Prelude Bytes Amount Keys Tree When SdlCycles Sdl SdlSpec.
Open Scope Z_scope.

Definition ViolationUsage : string := "usage".
Definition ViolationValue : string := "value".
Definition ViolationCheck : string := "check".

(** [Violation]; the text of the reason is left out. *)
Record Violation := mkViolation { v_Severity : string; v_Kind : string; v_DE : Z; v_Path : string; v_Rule : string }.

Record compiledRule := mkCompiled { cr_de : Z; cr_path : string; cr_usage : string; cr_when : option WhenExpr; cr_values : option ValueSet }.
Record compiledCheck := mkCompiledCheck { cc_name : string; cc_severity : string; cc_assert : WhenExpr; cc_note : string }.

Record Validator := mkValidator {
  byMTI : gmap string (list compiledRule); checks : gmap string (list compiledCheck);
  closed : gmap string ValueSet; paths : gmap Z string }.

(** ** Compiling *)

(** [valueSetFor] *)
Definition valueSetFor (s : Spec) (ref : string) (inline : option ValueSet) : option ValueSet :=
  match inline with
  | Some set => Some set
  | None => if bool_decide (ref = "") then None else mjoin (Enums s !! ref)
  end.

(** The closure [kindOf] of [NewValidator]. *)
Definition kindOf (s : Spec) (ref : FieldRef) : string :=
  match Fields s !! DE ref with
  | None => ""
  | Some f => if bool_decide (Subs ref = []) then Kind f else ""
  end.

Definition pathOf (de : Z) : string := pretty de.

(** [v.m[code] = append(v.m[code], x)] for each code. *)
Definition appendAt {A} (codes : list string) (x : A) (m : gmap string (list A)) : gmap string (list A) :=
  foldl (λ m code, <[code := default [] (m !! code) ++ [x]]> m) m codes.

Definition isBlank (src : string) : bool := bool_decide (toString (TrimSpace (toBytes src)) = "").

(** The condition of a rule; a blank one is none. *)
Definition compileWhen (s : Spec) (src : string) : option werr + option WhenExpr :=
  if isBlank src then inr None else
  match ParseWhen src with inl e => inl e | inr e => inr (Some (BindKinds (kindOf s) e)) end.

Inductive compileErr := ERule (de : Z) (e : option werr) | ECheck (i : nat) (e : option werr).

Fixpoint compileRules (s : Spec) (de : Z) (rules : list MessageRule) (m : gmap string (list compiledRule))
    : compileErr + gmap string (list compiledRule) :=
  match rules with
  | [] => inr m
  | r :: rules =>
      match compileWhen s (mr_When r) with
      | inl e => inl (ERule de e)
      | inr w =>
          let rule := mkCompiled de (pathOf de) (Usage r) w (valueSetFor s (mr_ValuesRef r) (mr_ValidValues r)) in
          compileRules s de rules (appendAt (Codes r) rule m)
      end
  end.

Fixpoint compileFields (s : Spec) (ids : list Z) (v : Validator) : compileErr + Validator :=
  match ids with
  | [] => inr v
  | de :: ids =>
      match Fields s !! de with
      | None => compileFields s ids v
      | Some f =>
          let cl := match valueSetFor s (ValuesRef f) (ValidValues f) with
                    | Some set => if Closed set then <[pathOf de := set]> (closed v) else closed v
                    | None => closed v
                    end in
          match compileRules s de (f_Messages f) (byMTI v) with
          | inl e => inl e
          | inr m => compileFields s ids (mkValidator m (checks v) cl (<[de := pathOf de]> (paths v)))
          end
      end
  end.

Definition checkName (i : nat) (c : Check) : string :=
  if bool_decide (ck_Name c = "") then "check " +:+ Itoa (i + 1) else ck_Name c.

Fixpoint compileChecks (s : Spec) (i : nat) (l : list Check) (m : gmap string (list compiledCheck))
    : compileErr + gmap string (list compiledCheck) :=
  match l with
  | [] => inr m
  | c :: l =>
      match ParseWhen (Assert c) with
      | inl e => inl (ECheck (i + 1) e)
      | inr e =>
          let cc := mkCompiledCheck (checkName i c) (Level c) (BindKinds (kindOf s) e) (ck_Note c) in
          compileChecks s (S i) l (appendAt (ck_MTI c) cc m)
      end
  end.

Definition NewValidator (s : Spec) : compileErr + Validator :=
  match compileFields s (sortedInts (dom (Fields s))) (mkValidator ∅ ∅ ∅ ∅) with
  | inl e => inl e
  | inr v =>
      match compileChecks s 0 (Checks s) (checks v) with
      | inl e => inl e
      | inr m => inr (mkValidator (byMTI v) m (closed v) (paths v))
      end
  end.

(** ** Validating *)

Section validate.
Context {F : Type} (ParseFloat : string → option F) (feq flt fle : F → F → bool).
Abbreviation Eval := (When.Eval ParseFloat feq flt fle).

(** One field rule of the loop of [Validate]. *)
Definition ruleViolations (cl : gmap string ValueSet) (m : Subject) (r : compiledRule) : list Violation :=
  if match cr_when r with Some e => negb (Eval e m) | None => false end then [] else
  let valueCheck (x : string) :=
    match (match cr_values r with Some set => Some set | None => cl !! cr_path r end) with
    | Some set => if Closed set && bool_decide (Values set !! x = None)
                  then [mkViolation SeverityReject ViolationValue (cr_de r) (cr_path r) ""] else []
    | None => []
    end in
  let usage := mkViolation SeverityReject ViolationUsage (cr_de r) (cr_path r) "" in
  match Field m (cr_de r) [] with
  | Some x => if bool_decide (cr_usage r = "forbidden") then [usage] else valueCheck x
  | None => if bool_decide (cr_usage r = "mandatory") then [usage] else []
  end.

Definition checkViolations (m : Subject) (c : compiledCheck) : list Violation :=
  if Eval (cc_assert c) m then [] else [mkViolation (cc_severity c) ViolationCheck 0 "" (cc_name c)].

Definition Validate (v : Validator) (m : Subject) : list Violation :=
  concat (ruleViolations (closed v) m <$> default [] (byMTI v !! MTI m)) ++
  concat (checkViolations m <$> default [] (checks v !! MTI m)).

Definition Rejects (vs : list Violation) : bool := existsb (λ v, bool_decide (v_Severity v = SeverityReject)) vs.

(** [applyRules] of the gear: the number of violations found, and whether the message is
    rejected. *)
Definition applyRules (enforcing : bool) (v : Validator) (m : Subject) : nat * bool :=
  let vs := Validate v m in (length vs, enforcing && Rejects vs).

(** ** What the rules say *)

(** The condition of a rule holds. *)
Definition conditionHolds (s : Spec) (src : string) (m : Subject) : Prop :=
  isBlank src = true ∨ ∃ e, ParseWhen src = inr e ∧ Eval (BindKinds (kindOf s) e) m = true.

(** The value set that governs a field under a rule: the rule's own, or the field's. *)
Definition domainOf (s : Spec) (f : FieldDecl) (r : MessageRule) : option ValueSet :=
  match valueSetFor s (mr_ValuesRef r) (mr_ValidValues r) with
  | Some set => Some set
  | None => valueSetFor s (ValuesRef f) (ValidValues f)
  end.

(** What message [m] does wrong under rule [r] of field [de]. *)
Inductive breaks (s : Spec) (m : Subject) (de : Z) (f : FieldDecl) (r : MessageRule) : Violation → Prop :=
| b_missing : Usage r = "mandatory" → Field m de [] = None →
    breaks s m de f r (mkViolation SeverityReject ViolationUsage de (pathOf de) "")
| b_forbidden x : Usage r = "forbidden" → Field m de [] = Some x →
    breaks s m de f r (mkViolation SeverityReject ViolationUsage de (pathOf de) "")
| b_value x set : Usage r ≠ "forbidden" → Field m de [] = Some x → domainOf s f r = Some set → Closed set = true →
    Values set !! x = None → breaks s m de f r (mkViolation SeverityReject ViolationValue de (pathOf de) "").

Definition ruleBroken (s : Spec) (m : Subject) (viol : Violation) : Prop :=
  ∃ de f r, Fields s !! de = Some f ∧ r ∈ f_Messages f ∧ MTI m ∈ Codes r ∧
    conditionHolds s (mr_When r) m ∧ breaks s m de f r viol.

(** The entries of a field that hold for a message, in the document's order.  The
    documents have the first of them decide. *)
Definition applies (s : Spec) (m : Subject) (r : MessageRule) : bool :=
  bool_decide (MTI m ∈ Codes r) &&
  (isBlank (mr_When r) || match ParseWhen (mr_When r) with inr e => Eval (BindKinds (kindOf s) e) m | inl _ => false end).
Definition applying (s : Spec) (m : Subject) (f : FieldDecl) : list MessageRule := List.filter (applies s m) (f_Messages f).

(** What the message does wrong under the deciding entry of a field, and under another. *)
Definition decidedBroken (s : Spec) (m : Subject) (viol : Violation) : Prop :=
  ∃ de f r, Fields s !! de = Some f ∧ head (applying s m f) = Some r ∧ breaks s m de f r viol.
Definition overriddenBroken (s : Spec) (m : Subject) (viol : Violation) : Prop :=
  ∃ de f r, Fields s !! de = Some f ∧ r ∈ tail (applying s m f) ∧ breaks s m de f r viol.

(** A later entry [r'] that asks nothing more than the deciding entry [r]. *)
Definition harmless (s : Spec) (f : FieldDecl) (r r' : MessageRule) : Prop :=
  (Usage r' = Usage r ∨ Usage r' ≠ "mandatory" ∧ Usage r' ≠ "forbidden") ∧
  (∀ set, domainOf s f r' = Some set → Closed set = true → domainOf s f r = Some set ∧ Usage r ≠ "forbidden").

(** Of each field, the entries that hold for the message after the first are harmless. *)
Definition oneRule (s : Spec) (m : Subject) : Prop :=
  ∀ de f, Fields s !! de = Some f →
    match applying s m f with r :: l => ∀ r', r' ∈ l → harmless s f r r' | [] => True end.

Definition checkBroken (s : Spec) (m : Subject) (viol : Violation) : Prop :=
  ∃ i c e, Checks s !! i = Some c ∧ MTI m ∈ ck_MTI c ∧ ParseWhen (Assert c) = inr e ∧
    Eval (BindKinds (kindOf s) e) m = false ∧
    viol = mkViolation (Level c) ViolationCheck 0 "" (checkName i c).

(** ** What is compiled *)

Lemma elem_appendAt {A} codes (x y : A) m code :
  y ∈ default [] (appendAt codes x m !! code) ↔ y ∈ default [] (m !! code) ∨ code ∈ codes ∧ y = x.
Proof.
  unfold appendAt. revert m. induction codes as [|c codes IH]; intros m; simpl; [set_solver|]. rewrite IH.
  destruct (decide (c = code)) as [->|Hne].
  - rewrite lookup_insert, decide_True by done. cbn [from_option id]. rewrite elem_of_app, list_elem_of_singleton, elem_of_cons. naive_solver.
  - rewrite lookup_insert_ne, elem_of_cons by done. naive_solver.
Qed.

Definition compiled (s : Spec) (de : Z) (r : MessageRule) (w : option WhenExpr) : compiledRule :=
  mkCompiled de (pathOf de) (Usage r) w (valueSetFor s (mr_ValuesRef r) (mr_ValidValues r)).

Lemma compileRules_spec s de rules m m' : compileRules s de rules m = inr m' →
  ∀ code x, x ∈ default [] (m' !! code) ↔ x ∈ default [] (m !! code) ∨
    ∃ r w, r ∈ rules ∧ compileWhen s (mr_When r) = inr w ∧ code ∈ Codes r ∧ x = compiled s de r w.
Proof.
  revert m. induction rules as [|r rules IH]; intros m; cbn [compileRules].
  { intros [= <-] code x. split; [by left|]. intros [?|(? & ? & ?%elem_of_nil & _)]; done. }
  destruct (compileWhen s (mr_When r)) as [e|w] eqn:Hw; [done|]. intros H code x.
  rewrite (IH _ H code x), elem_appendAt. split.
  - intros [[?|[? ->]]|(r' & w' & ? & ? & ? & ->)]; [by left|right; exists r, w; set_solver|right; exists r', w'; set_solver].
  - intros [?|(r' & w' & [->|?]%elem_of_cons & ? & ? & ->)]; [auto| |right; by exists r', w'].
    assert (w' = w) as -> by congruence. left; right. by split.
Qed.

(** The closed set of a field. *)
Definition closedOf (s : Spec) (de : Z) : option ValueSet :=
  f ← Fields s !! de; set ← valueSetFor s (ValuesRef f) (ValidValues f); if Closed set then Some set else None.

Lemma pathOf_inj de de' : pathOf de = pathOf de' → de = de'.
Proof. apply (inj pretty). Qed.

Lemma compileFields_spec s ids v v' : compileFields s ids v = inr v' →
  checks v' = checks v ∧
  (∀ de, closed v' !! pathOf de = (if decide (de ∈ ids) then closedOf s de ∪ closed v !! pathOf de else closed v !! pathOf de)) ∧
  (∀ code x, x ∈ default [] (byMTI v' !! code) ↔ x ∈ default [] (byMTI v !! code) ∨
    ∃ de f r w, de ∈ ids ∧ Fields s !! de = Some f ∧ r ∈ f_Messages f ∧ compileWhen s (mr_When r) = inr w ∧
      code ∈ Codes r ∧ x = compiled s de r w).
Proof.
  revert v. induction ids as [|d ids IH]; intros v; cbn [compileFields].
  { intros [= <-]. split_and!; [done|done|]. intros code x. split; [by left|].
    intros [?|(? & ? & ? & ? & ?%elem_of_nil & _)]; done. }
  destruct (Fields s !! d) as [f|] eqn:Hf.
  2: { intros H. destruct (IH v H) as (? & Hc & Hb). split_and!; [done| |].
    - intros de. rewrite Hc. destruct (decide (de = d)) as [->|Hne].
      + destruct (decide (d ∈ d :: ids)) as [_|?]; [|set_solver]. unfold closedOf. rewrite Hf. simpl.
        destruct (decide (d ∈ ids)); by destruct (closed v !! pathOf d).
      + destruct (decide (de ∈ ids)), (decide (de ∈ d :: ids)); set_solver.
    - intros code x. rewrite Hb. split; intros [?|(de & g & r & w & ? & ? & ?)]; [by left| |by left|]; right; exists de, g, r, w; set_solver. }
  destruct (compileRules s d (f_Messages f) (byMTI v)) as [e|m] eqn:Hm; [done|]. intros H.
  destruct (IH _ H) as (Hk & Hc & Hb). cbn [checks closed byMTI] in *.
  split_and!; [done| |].
  - set (cl := match valueSetFor s (ValuesRef f) (ValidValues f) with Some set => _ | None => _ end) in *.
    assert (∀ de, cl !! pathOf de = if decide (de = d) then closedOf s d ∪ closed v !! pathOf d else closed v !! pathOf de) as Hcl.
    { intros de. unfold cl, closedOf. rewrite Hf. cbn [mbind option_bind].
      destruct (valueSetFor s (ValuesRef f) (ValidValues f)) as [set|]; cbn [mbind option_bind].
      2: { destruct (decide (de = d)) as [->|]; [by destruct (closed v !! pathOf d)|done]. }
      destruct (Closed set).
      - destruct (decide (de = d)) as [->|Hne]; [rewrite lookup_insert, decide_True by done; by destruct (closed v !! pathOf d)|].
        rewrite lookup_insert_ne; [done|]. by intros ?%pathOf_inj.
      - destruct (decide (de = d)) as [->|]; [by destruct (closed v !! pathOf d)|done]. }
    intros de. rewrite Hc, Hcl. destruct (decide (de = d)) as [->|Hne].
    + destruct (decide (d ∈ d :: ids)) as [_|?]; [|set_solver]. destruct (decide (d ∈ ids)); [|done].
      by destruct (closedOf s d), (closed v !! pathOf d).
    + destruct (decide (de ∈ ids)), (decide (de ∈ d :: ids)); set_solver.
  - intros code x. rewrite Hb, (compileRules_spec _ _ _ _ _ Hm). split.
    + intros [[?|(r & w & ? & ? & ? & ->)]|(de & g & r & w & ? & ? & ?)]; [by left| |]; right; [exists d, f, r, w|exists de, g, r, w]; set_solver.
    + intros [?|(de & g & r & w & [->|?]%elem_of_cons & ? & ? & ? & ? & ->)]; [by left; left| |].
      * left; right. simplify_eq. by exists r, w.
      * right. by exists de, g, r, w.
Qed.

Lemma compileChecks_spec s i l m m' : compileChecks s i l m = inr m' →
  ∀ code x, x ∈ default [] (m' !! code) ↔ x ∈ default [] (m !! code) ∨
    ∃ j c e, l !! j = Some c ∧ ParseWhen (Assert c) = inr e ∧ code ∈ ck_MTI c ∧
      x = mkCompiledCheck (checkName (i + j) c) (Level c) (BindKinds (kindOf s) e) (ck_Note c).
Proof.
  revert i m. induction l as [|c l IH]; intros i m; cbn [compileChecks].
  { intros [= <-] code x. split; [by left|]. by intros [?|(? & ? & ? & ? & _)]. }
  destruct (ParseWhen (Assert c)) as [e|e] eqn:He; [done|]. intros H code x.
  rewrite (IH _ _ H code x), elem_appendAt. split.
  - intros [[?|[? ->]]|(j & c' & e' & ? & ? & ? & ->)]; [by left| |].
    + right. exists 0%nat, c, e. by rewrite Nat.add_0_r.
    + right. exists (S j), c', e'. by rewrite Nat.add_succ_r.
  - intros [?|([|j] & c' & e' & Hj & ? & ? & ->)]; [by left; left| |]; simplify_eq/=.
    + left; right. rewrite Nat.add_0_r. split; [done|]. congruence.
    + right. exists j, c', e'. by rewrite Nat.add_succ_r.
Qed.

(** ** What is reported *)

Lemma elem_of_concat_fmap {A B} (f : A → list B) l y : y ∈ concat (f <$> l) ↔ ∃ x, x ∈ l ∧ y ∈ f x.
Proof.
  rewrite list_elem_of_In, in_concat. split.
  - intros (z & (x & -> & Hx)%list_elem_of_In%list_elem_of_fmap & Hy). exists x. split; [done|]. by apply list_elem_of_In.
  - intros (x & Hx & Hy). exists (f x). rewrite <- !list_elem_of_In. split; [|done]. apply list_elem_of_fmap. eauto.
Qed.

Lemma compiledWhen_holds s src w m : compileWhen s src = inr w →
  match w with Some e => negb (Eval e m) | None => false end = false ↔ conditionHolds s src m.
Proof.
  unfold compileWhen, conditionHolds. destruct (isBlank src) eqn:Hb; [intros [= <-]; naive_solver|].
  destruct (ParseWhen src) as [e|e] eqn:He; [done|]. intros [= <-]. rewrite negb_false_iff. naive_solver.
Qed.

Lemma ruleViolations_spec s cl m de f r w viol :
  Fields s !! de = Some f → compileWhen s (mr_When r) = inr w → cl !! pathOf de = closedOf s de →
  viol ∈ ruleViolations cl m (compiled s de r w) ↔ conditionHolds s (mr_When r) m ∧ breaks s m de f r viol.
Proof.
  intros Hf Hw Hcl. unfold ruleViolations, compiled. cbn [cr_when cr_values cr_path cr_de cr_usage].
  pose proof (compiledWhen_holds s (mr_When r) w m Hw) as Hc.
  destruct (match w with Some e => negb (Eval e m) | None => false end).
  { split; [by intros ?%elem_of_nil|]. intros [Hh _]. by apply Hc in Hh. }
  assert (∀ P : Prop, (conditionHolds s (mr_When r) m ∧ P) ↔ P) as -> by (intros; split; [by intros [_ ?]|intros; split; [by apply Hc|done]]).
  destruct (Field m de []) as [x|] eqn:Hx.
  2: { case_bool_decide as Hu; split.
       - intros ->%list_elem_of_singleton. by constructor.
       - intros Hb. apply list_elem_of_singleton. by inversion Hb; simplify_eq.
       - by intros ?%elem_of_nil.
       - intros Hb. by inversion Hb; simplify_eq. }
  destruct (bool_decide (Usage r = "forbidden")) eqn:Hu; [apply bool_decide_eq_true in Hu|apply bool_decide_eq_false in Hu].
  { split; [intros ->%list_elem_of_singleton; by econstructor|]. intros Hb. apply list_elem_of_singleton.
    by inversion Hb; simplify_eq. }
  rewrite Hcl. unfold closedOf. rewrite Hf. cbn [mbind option_bind].
  assert (∀ set, domainOf s f r = Some set → Closed set = true → Values set !! x = None →
    breaks s m de f r (mkViolation SeverityReject ViolationValue de (pathOf de) "")) as Hval by (intros; by econstructor).
  assert (∀ viol, breaks s m de f r viol → viol = mkViolation SeverityReject ViolationValue de (pathOf de) "" ∧
    ∃ set, domainOf s f r = Some set ∧ Closed set = true ∧ Values set !! x = None) as Hinv.
  { intros vi Hb. inversion Hb; simplify_eq. eauto. }
  unfold domainOf in *. destruct (valueSetFor s (mr_ValuesRef r) (mr_ValidValues r)) as [set|].
  - destruct (Closed set) eqn:Hs, (bool_decide (Values set !! x = None)) eqn:Hv; simpl; rewrite ?list_elem_of_singleton.
    all: split; [intros Hin; try by apply elem_of_nil in Hin|intros (-> & set' & ? & ? & ?)%Hinv; simplify_eq; try congruence; try done].
    + subst viol. eapply Hval; [done|done|by apply bool_decide_eq_true in Hv].
    + by apply bool_decide_eq_false in Hv.
  - destruct (valueSetFor s (ValuesRef f) (ValidValues f)) as [set|]; cbn [mbind option_bind].
    2: { split; [by intros ?%elem_of_nil|]. by intros (-> & set' & ? & ? & ?)%Hinv. }
    destruct (Closed set) eqn:Hs; [rewrite Hs; destruct (bool_decide (Values set !! x = None)) eqn:Hv|]; simpl; rewrite ?list_elem_of_singleton.
    all: split; [intros Hin; try by apply elem_of_nil in Hin|intros (-> & set' & ? & ? & ?)%Hinv; simplify_eq; try congruence; try done].
    + subst viol. eapply Hval; [done|done|by apply bool_decide_eq_true in Hv].
    + by apply bool_decide_eq_false in Hv.
Qed.

Lemma validate_spec s v m viol : NewValidator s = inr v → viol ∈ Validate v m ↔ ruleBroken s m viol ∨ checkBroken s m viol.
Proof.
  unfold NewValidator. destruct (compileFields _ _ _) as [e|v1] eqn:Hf; [done|].
  destruct (compileChecks _ _ _ _) as [e|ms] eqn:Hk; [done|]. intros [= <-].
  destruct (compileFields_spec _ _ _ _ Hf) as (Hck & Hcl & Hb). rewrite Hck in Hk.
  pose proof (compileChecks_spec _ _ _ _ _ Hk) as Hc. cbn [closed byMTI checks] in *.
  unfold Validate. cbn [closed byMTI checks]. rewrite elem_of_app, !elem_of_concat_fmap. setoid_rewrite Hb. setoid_rewrite Hc.
  rewrite !lookup_empty. cbn [from_option].
  assert (∀ de f, Fields s !! de = Some f → closed v1 !! pathOf de = closedOf s de) as Hcl'.
  { intros de f Hd. rewrite Hcl, decide_True, lookup_empty by (apply elem_of_sortedInts; by apply elem_of_dom_2 in Hd).
    by destruct (closedOf s de). }
  unfold ruleBroken, checkBroken. split.
  - intros [(x & [?%elem_of_nil|(de & f & r & w & _ & Hd & Hr & Hw & Hm & ->)] & Hv)|(x & [?%elem_of_nil|(j & c & e & Hj & He & Hm & ->)] & Hv)]; [done| |done|].
    + left. exists de, f, r. apply (ruleViolations_spec s _ m de f) in Hv; [|done|done|by eapply Hcl']. naive_solver.
    + right. exists j, c, e. unfold checkViolations in Hv. cbn [cc_assert cc_severity cc_name] in Hv.
      destruct (Eval _ m) eqn:Hev; [by apply elem_of_nil in Hv|]. apply list_elem_of_singleton in Hv. naive_solver.
  - intros [(de & f & r & Hd & Hr & Hm & Hh & Hbr)|(j & c & e & Hj & Hm & He & Hev & ->)].
    + left.
      assert (∃ w, compileWhen s (mr_When r) = inr w) as [w Hw].
      { unfold compileWhen. destruct Hh as [->|(e & -> & _)]; [by eexists|]. destruct (isBlank _); by eexists. }
      exists (compiled s de r w). split.
      * right. exists de, f, r, w. split_and!; [|done..]. apply elem_of_sortedInts. by apply elem_of_dom_2 in Hd.
      * apply (ruleViolations_spec s _ m de f); [done|done|by eapply Hcl'|done].
    + right. eexists. split; [right; by exists j, c, e|]. unfold checkViolations. cbn [cc_assert cc_severity cc_name].
      rewrite Hev. by apply list_elem_of_singleton.
Qed.

(** *** The first match *)

Lemma applies_spec s m r : applies s m r = true ↔ MTI m ∈ Codes r ∧ conditionHolds s (mr_When r) m.
Proof.
  unfold applies, conditionHolds. rewrite andb_true_iff, orb_true_iff, bool_decide_eq_true.
  destruct (ParseWhen (mr_When r)) as [e|e]; naive_solver.
Qed.

Lemma elem_applying s m f r : r ∈ applying s m f ↔ r ∈ f_Messages f ∧ applies s m r = true.
Proof. unfold applying. rewrite !list_elem_of_In. apply filter_In. Qed.

Lemma ruleBroken_split s m viol : ruleBroken s m viol ↔ decidedBroken s m viol ∨ overriddenBroken s m viol.
Proof.
  unfold ruleBroken, decidedBroken, overriddenBroken. split.
  - intros (de & f & r & Hf & Hr & Hm & Hh & Hb).
    assert (r ∈ applying s m f) as Ha by (apply elem_applying; split; [done|by apply applies_spec]).
    destruct (applying s m f) as [|r0 l] eqn:E; [by apply elem_of_nil in Ha|].
    apply elem_of_cons in Ha as [->|Ha]; [left|right]; exists de, f; eexists; rewrite E; by split_and!.
  - intros [(de & f & r & Hf & Hr & Hb)|(de & f & r & Hf & Hr & Hb)]; exists de, f, r;
      (assert (r ∈ applying s m f) as [? [? ?]%applies_spec]%elem_applying;
        [destruct (applying s m f) as [|r0 l]; [by try apply elem_of_nil in Hr|]; simplify_eq/=; set_solver|by split_and!]).
Qed.

(** A later entry that is harmless reports nothing the deciding one does not. *)
Lemma harmless_breaks s m de f r r' viol : harmless s f r r' → breaks s m de f r' viol → breaks s m de f r viol.
Proof.
  intros [Hu Hv]. destruct 1 as [H1 H2|x H1 H2|x set H1 H2 H3 H4 H5].
  - apply b_missing; [|done]. destruct Hu as [<-|[? _]]; done.
  - eapply b_forbidden; [|done]. destruct Hu as [<-|[_ ?]]; done.
  - destruct (Hv set H3 H4) as [? ?]. by eapply b_value.
Qed.

End validate.

(** ** Documents that resolved compile *)

Lemma resolve_conditions rangeZ rangeS s : resolveReferences rangeZ rangeS s = Some [] →
  (∀ de f, Fields s !! de = Some f → fieldOk s f) ∧ (∀ c, c ∈ Checks s → checkOk s c).
Proof.
  unfold resolveReferences. destruct (simPanics s); [done|]. intros [= H]. rewrite !app_nil, checks_exact in H.
  destruct H as (Hf & _ & Hc & _). split; [|done]. intros de f Hd. apply (field_exact s de). revert de f Hd.
  unfold checkFields in Hf. by rewrite (concat_keys_nil (Fields s)) in Hf by (intros; apply elem_of_sortedInts).
Qed.

Lemma compileRules_ok s de rules m : (∀ r, r ∈ rules → whenOk s (mr_When r)) → ∃ m', compileRules s de rules m = inr m'.
Proof.
  revert m. induction rules as [|r rules IH]; intros m H; cbn [compileRules]; [by eexists|].
  assert (∃ w, compileWhen s (mr_When r) = inr w) as [w ->].
  { unfold compileWhen. destruct (H r) as [->|(e & -> & _)]; [set_solver|by eexists|]. destruct (isBlank _); by eexists. }
  apply IH. set_solver.
Qed.

Lemma compileFields_ok s ids v : (∀ de f, Fields s !! de = Some f → fieldOk s f) → ∃ v', compileFields s ids v = inr v'.
Proof.
  intros H. revert v. induction ids as [|de ids IH]; intros v; cbn [compileFields]; [by eexists|].
  destruct (Fields s !! de) as [f|] eqn:Hf; [|done].
  destruct (compileRules_ok s de (f_Messages f) (byMTI v)) as [m ->]; [|apply IH].
  intros r Hr. by apply (ok_rules s f (H de f Hf)).
Qed.

Lemma compileChecks_ok s i l m : (∀ c, c ∈ l → ∃ e, ParseWhen (Assert c) = inr e) → ∃ m', compileChecks s i l m = inr m'.
Proof.
  revert i m. induction l as [|c l IH]; intros i m H; cbn [compileChecks]; [by eexists|].
  destruct (H c) as [e ->]; [set_solver|]. apply IH. set_solver.
Qed.

(** a document that resolves without an error and whose checks all have an assertion
    compiles into a validator; so a Rack that accepted it never finds, when a message
    comes, a rule it cannot read. *)
Theorem resolved_compiles (rangeZ : list Z → list Z) (rangeS : list string → list string) (s : Spec) :
  resolveReferences rangeZ rangeS s = Some [] → (∀ c, c ∈ Checks s → Assert c ≠ "") →
  ∃ v, NewValidator s = inr v.
Proof.
  intros Hr Ha. destruct (resolve_conditions _ _ _ Hr) as [Hf Hc]. unfold NewValidator.
  destruct (compileFields_ok s (sortedInts (dom (Fields s))) (mkValidator ∅ ∅ ∅ ∅) Hf) as [v ->].
  destruct (compileChecks_ok s 0 (Checks s) (checks v)) as [m ->]; [|by eexists].
  intros c Hin. destruct (Hc c Hin) as (_ & _ & [He|(e & He & _)]); [by apply Ha in He|by exists e].
Qed.

(** ** Examples *)

Definition noFloat (x : string) : option Z := None.
Definition demoSubject (fields : gmap Z string) : Subject := mkSubject "0100" (λ de _, fields !! de).
Abbreviation validate := (Validate noFloat Z.eqb Z.ltb Z.leb).

Definition demoSpec : Spec :=
  docOf {[2 := plainField "pan" [whenRule "mandatory" "present(4)"; whenRule "optional" ""]; 4 := plainField "amount" []]}
    [mkCheck ["0100"] "" "present(4)" "warn" ""].

Definition demoMessage : Subject := demoSubject {[4 := "100"]}.
Definition demoBroken : Violation := mkViolation SeverityReject ViolationUsage 2 "2" "".

(** Both entries of field 2 hold; the first decides, the default asks nothing. *)
Lemma demo_oneRule : oneRule noFloat Z.eqb Z.ltb Z.leb demoSpec demoMessage.
Proof.
  intros de f Hf. change (Fields demoSpec) with ({[2 := plainField "pan" [whenRule "mandatory" "present(4)"; whenRule "optional" ""]; 4 := plainField "amount" []]} : gmap Z FieldDecl) in Hf.
  destruct (decide (de = 2)) as [->|H2].
  - rewrite lookup_insert_eq in Hf. injection Hf as <-.
    assert (applying noFloat Z.eqb Z.ltb Z.leb demoSpec demoMessage (plainField "pan" [whenRule "mandatory" "present(4)"; whenRule "optional" ""])
      = [whenRule "mandatory" "present(4)"; whenRule "optional" ""]) as -> by (vm_compute; reflexivity).
    intros r' ->%list_elem_of_singleton. split; [by right|]. intros set Hs. by vm_compute in Hs.
  - rewrite lookup_insert_ne in Hf by done. apply lookup_singleton_Some in Hf as [<- <-]. done.
Qed.


Lemma resolved_compiles_witness : ∃ v, NewValidator demoSpec = inr v.
Proof.
  apply (resolved_compiles id id demoSpec); [vm_compute; reflexivity|].
  intros c [->|Hc]%elem_of_cons; [done|]. by apply elem_of_nil in Hc.
Defined.

(** Without an assertion a check resolves and does not compile: [resolveReferences]
    skips the empty condition, and [NewValidator] parses it. *)
Theorem empty_assertion_resolves :
  let s := docOf ∅ [mkCheck ["0100"] "c" "" "" ""] in
  resolveReferences id id s = Some [] ∧ ∃ e, NewValidator s = inl (ECheck 1 e).
Proof. split; [vm_compute; reflexivity|]. eexists. vm_compute. reflexivity. Qed.

(** Every rule whose condition holds is applied, not the first one only: here the field
    is mandatory when field 4 is present and forbidden otherwise, and a message with both
    fields breaks the second rule. *)
Theorem later_rules_also_apply :
  let s := docOf {[2 := plainField "pan" [whenRule "mandatory" "present(4)"; whenRule "forbidden" ""]; 4 := plainField "amount" []]} [] in
  ∃ v, NewValidator s = inr v ∧ Rejects (validate v (demoSubject {[2 := "1"; 4 := "100"]})) = true.
Proof. eexists. split; [vm_compute; reflexivity|]. vm_compute. reflexivity. Qed.
