(* ===== verification/Shipper.v ===== *)
(** * pkg/telemetry/wal/wal.go, shipper/cursor.go, shipper/shipper.go: shipping the log

    Telemetry records are appended to a write-ahead log and shipped to the bus by one
    goroutine that keeps a cursor, saved to disk once a second and on Stop.  The log
    itself is a third-party package, an interface here ([WalLog]) with what its
    documentation promises ([WalLaws]); so is the disk of the cursor, one cell.

    The system makes one step per event: an append, a start, a part of the loop, a save,
    a stop, or a crash, which loses everything but the log, the saved cursor and the bus.
    An event carries what the outside answers: whether a save, a publish or a truncation
    succeeds, and whether a publish that reports an error was received. *)
From S2P Require Import Prelude.
Open Scope Z_scope.

(** ** The log *)

Inductive readRes := RData (d : string) | RNotFound | RError.

(** The calls of github.com/tidwall/wal that wal.go makes. *)
Class WalLog (L : Type) := {
  log_first : L → option Z;
  log_last : L → option Z;
  log_write : L → Z → string → option L;
  log_read : L → Z → readRes;
  log_truncate : L → Z → option L }.

(** Its documentation: a log holds entries at consecutive indices; [Read] finds the ones
    it holds; [Write] appends; [TruncateFront] makes the entry at the index the first. An
    empty log has the indices 0. *)
Class WalLaws (L : Type) `{WalLog L} := {
  contents : L → gmap Z string;
  law_first l n : log_first l = Some n →
    contents l = ∅ ∧ n = 0 ∨ is_Some (contents l !! n) ∧ ∀ i, is_Some (contents l !! i) → n ≤ i;
  law_last l n : log_last l = Some n →
    contents l = ∅ ∧ n = 0 ∨ is_Some (contents l !! n) ∧ ∀ i, is_Some (contents l !! i) → i ≤ n;
  law_write l i d l' : log_write l i d = Some l' → contents l' = <[i := d]> (contents l);
  law_read l i d : log_read l i = RData d → contents l !! i = Some d;
  law_missing l i : log_read l i = RNotFound → contents l !! i = None;
  law_truncate l i l' j : log_truncate l i = Some l' → contents l' !! j = if j <? i then None else contents l !! j }.

(** [WAL.Write]; the payload is already encoded. *)
Definition walWrite `{WalLog L} (l : L) (d : string) : option L :=
  last ← log_last l; log_write l (last + 1) d.

(** ** The shipper *)

Section shipper.
Context `{WalLog L}.
(** [cbor.Unmarshal] of a record: the [type] of its metadata, where it has one. *)
Context (decode : string → option (option string)).

Definition truncateEvery : Z := 1000.

(** Where the loop is. *)
Inductive pc := Top | Got (target : Z) (d : string) | Shipped (target : Z) | Truncating.

(** A running shipper: its in-memory cursor, the loop's [index] and its place. *)
Record running := mkRunning { cursor : Z; index : Z; at_ : pc }.

(** [wal]: the log; [disk]: the saved offset, 0 when there is no file; [bus]: what the
    bus received, each with its index in the log; [hist]: everything ever appended. *)
Record system := mkSystem { wal : L; disk : Z; run : option running; bus : list (Z * (string * string)); hist : list string }.

Definition suffixOf (typ : option string) : string :=
  if bool_decide (typ = Some "telemetry.metric"%string) then ".metrics" else ".logs".

(** [NewCursor] and the beginning of [loop]. *)
Definition boot (l : L) (offset : Z) : running :=
  if offset =? 0 then
    match log_first l with
    | Some first => if 1 <? first then mkRunning (first - 1) (first - 1) Top else mkRunning offset offset Top
    | None => mkRunning offset offset Top
    end
  else mkRunning offset offset Top.

Inductive event :=
| EAppend (d : string)
| EStart
| ESave (ok : bool)                        (* the ticker, at the top of the loop *)
| ERead                                     (* Read, an error or the end of the log *)
| EPublish (received acked : bool)          (* process *)
| EAdvance                                  (* index and cursor move on *)
| ETruncate (ok : bool)
| EStop (saved : bool)
| ECrash.

Definition setRun (r : option running) (σ : system) : system := mkSystem (wal σ) (disk σ) r (bus σ) (hist σ).
Definition setDisk (n : Z) (σ : system) : system := mkSystem (wal σ) n (run σ) (bus σ) (hist σ).
Definition goto (p : pc) (r : running) (σ : system) : system := setRun (Some (mkRunning (cursor r) (index r) p)) σ.

Definition received (i : Z) (subject d : string) (σ : system) : system :=
  mkSystem (wal σ) (disk σ) (run σ) (bus σ ++ [(i, (subject, d))]) (hist σ).

(** [process]: a record that does not decode is skipped (its alarm metric is best effort
    and left out). *)
Definition process (target : Z) (d : string) (rcv ack : bool) (r : running) (σ : system) : system :=
  match decode d with
  | None => goto (Shipped target) r σ
  | Some typ =>
      let σ := if rcv then received target (suffixOf typ) d σ else σ in
      if rcv && ack then goto (Shipped target) r σ else goto Top r σ
  end.

Definition shipStep (e : event) (σ : system) : option system :=
  match e, run σ with
  | EAppend d, _ =>
      match walWrite (wal σ) d with
      | Some l => Some (mkSystem l (disk σ) (run σ) (bus σ) (hist σ ++ [d]))
      | None => Some σ
      end
  | EStart, None => Some (setRun (Some (boot (wal σ) (disk σ))) σ)
  | ESave ok, Some (mkRunning c i Top) => Some (if ok : bool then setDisk c σ else σ)
  | ERead, Some (mkRunning c i Top as r) =>
      match log_read (wal σ) (i + 1) with
      | RData d => Some (goto (Got (i + 1) d) r σ)
      | _ => Some σ
      end
  | EPublish rcv ack, Some (mkRunning c i (Got t d) as r) => Some (process t d rcv ack r σ)
  | EAdvance, Some (mkRunning c i (Shipped t)) =>
      Some (setRun (Some (mkRunning t t (if t mod truncateEvery =? 0 then Truncating else Top))) σ)
  | ETruncate ok, Some (mkRunning c i Truncating as r) =>
      let σ := goto Top r σ in
      Some (match (if ok : bool then log_truncate (wal σ) i else None) with
            | Some l => mkSystem l (disk σ) (run σ) (bus σ) (hist σ)
            | None => σ
            end)
  | EStop saved, Some (mkRunning c i Top) => Some (setRun None (if saved : bool then setDisk c σ else σ))   (* the loop returns at its top *)
  | ECrash, Some r => Some (setRun None σ)
  | _, _ => None
  end.

Fixpoint shipSteps (l : list event) (σ : system) : option system :=
  match l with [] => Some σ | e :: l => shipStep e σ ≫= shipSteps l end.

(** A new log, no cursor file. *)
Definition initialSystem (l : L) : system := mkSystem l 0 None [] [].
End shipper.

(** ** What the shipper promises *)

Section spec.
Context {L : Type} {HW : WalLog L} {HL : WalLaws L} (decode : string → option (option string)).
Abbreviation system := (Shipper.system (L := L)).
Implicit Types σ : system.

(** The record at an index. *)
Definition entry σ (i : Z) : option string := if 1 <=? i then hist σ !! Z.to_nat (i - 1) else None.

(** The bus has the record, or it cannot be decoded. *)
Definition settled σ (i : Z) : Prop :=
  ∃ d, entry σ i = Some d ∧ (decode d = None ∨ ∃ subject, (i, (subject, d)) ∈ bus σ).

Definition settledUpTo σ (n : Z) : Prop := ∀ i, 1 <= i <= n → settled σ i.

(** The log holds the records after [lo]. *)
Definition holdsAfter σ (lo : Z) : Prop :=
  0 <= lo ∧ (lo < Z.of_nat (length (hist σ)) ∨ hist σ = [] ∧ lo = 0) ∧
  ∀ i, contents (wal σ) !! i = if lo <? i then entry σ i else None.

(** What the bus received. *)
Definition inOrder σ : Prop :=
  ∀ l1 i subject d l2, bus σ = l1 ++ (i, (subject, d)) :: l2 →
    entry σ i = Some d ∧ subject = suffixOf (default None (decode d)) ∧
    ∀ j d', 1 <= j < i → entry σ j = Some d' → decode d' = None ∨ ∃ sb, (j, (sb, d')) ∈ l1.

Definition runOk σ (r : running) : Prop :=
  0 <= index r ∧ cursor r = index r ∧ settledUpTo σ (index r) ∧
  match at_ r with
  | Top => True
  | Got t d => t = index r + 1 ∧ entry σ t = Some d
  | Shipped t => t = index r + 1 ∧ settled σ t
  | Truncating => 1 <= index r
  end.

Record shipInv σ : Prop := {
  inv_log : ∃ lo, holdsAfter σ lo ∧ settledUpTo σ lo;
  inv_order : inOrder σ;
  inv_disk : 0 <= disk σ ∧ settledUpTo σ (disk σ);
  inv_run : ∀ r, run σ = Some r → runOk σ r }.

(** ** What the steps preserve *)

Definition grows σ σ' : Prop := (∃ h, hist σ' = hist σ ++ h) ∧ ∃ b, bus σ' = bus σ ++ b.

Lemma entry_grows σ σ' i d : grows σ σ' → entry σ i = Some d → entry σ' i = Some d.
Proof. intros [[h Hh] _]. unfold entry. destruct (1 <=? i); [|done]. rewrite Hh. apply lookup_app_l_Some. Qed.

Lemma settled_grows σ σ' i : grows σ σ' → settled σ i → settled σ' i.
Proof.
  intros Hg (d & Hd & Hs). exists d. split; [by eapply entry_grows|]. destruct Hs as [?|[sb Hs]]; [by left|right].
  exists sb. destruct Hg as [_ [b ->]]. set_solver.
Qed.

Lemma settledUpTo_grows σ σ' n : grows σ σ' → settledUpTo σ n → settledUpTo σ' n.
Proof. intros Hg Hs i Hi. by eapply settled_grows, Hs. Qed.

Lemma grows_same σ σ' : hist σ' = hist σ → bus σ' = bus σ → grows σ σ'.
Proof. intros Hh Hb. split; exists []; by rewrite app_nil_r. Qed.

Lemma entry_bound σ i d : entry σ i = Some d → 1 <= i <= Z.of_nat (length (hist σ)).
Proof. unfold entry. destruct (Z.leb_spec 1 i); [|done]. intros Hd%lookup_lt_Some. lia. Qed.

Lemma settledUpTo_bound σ n : 0 <= n → settledUpTo σ n → n <= Z.of_nat (length (hist σ)).
Proof.
  intros Hn Hs. destruct (decide (n = 0)); [lia|]. destruct (Hs n) as (d & Hd & _); [lia|]. apply entry_bound in Hd. lia.
Qed.

(** A state that differs in its cursors only. *)
Lemma inv_frame σ σ' :
  wal σ' = wal σ → hist σ' = hist σ → bus σ' = bus σ → shipInv σ →
  (0 <= disk σ' ∧ settledUpTo σ' (disk σ')) → (∀ r, run σ' = Some r → runOk σ' r) → shipInv σ'.
Proof.
  intros Hw Hh Hb [(lo & (H0 & H1 & H2) & Hs) Ho _ _] Hd Hr. pose proof (grows_same σ σ' Hh Hb) as Hg.
  assert (∀ i, entry σ' i = entry σ i) as He by (intros; unfold entry; by rewrite Hh).
  split; [| |done|done].
  - exists lo. split; [|by eapply settledUpTo_grows]. split_and!; [done|by rewrite Hh|]. intros i. rewrite Hw, He. apply H2.
  - intros l1 i sb d l2. rewrite Hb, He. intros Hl. destruct (Ho _ _ _ _ _ Hl) as (? & ? & Hj). split_and!; [done..|].
    intros j d' Hlt. rewrite He. by apply Hj.
Qed.

Lemma runOk_grows σ σ' r : grows σ σ' → runOk σ r → runOk σ' r.
Proof.
  intros Hg (? & ? & ? & Hp). split_and!; [done|done|by eapply settledUpTo_grows|]. destruct (at_ r); [done| |naive_solver eauto using settled_grows|done].
  destruct Hp. split; [done|by eapply entry_grows].
Qed.

Lemma append_holds σ d l lo : holdsAfter σ lo → walWrite (wal σ) d = Some l →
  let σ' := mkSystem l (disk σ) (run σ) (bus σ) (hist σ ++ [d]) in
  holdsAfter σ' lo ∧ ∀ i, entry σ' i = if i =? Z.of_nat (length (hist σ)) + 1 then Some d else entry σ i.
Proof.
  intros (H0 & H1 & H2) Hw σ'.
  unfold walWrite in Hw. destruct (log_last (wal σ)) as [last|] eqn:Hlast; [|done]. simpl in Hw.
  assert (last = Z.of_nat (length (hist σ))) as ->.
  { apply law_last in Hlast as [[He ->]|[[x Hx] Hmax]].
    - destruct H1 as [H1|[-> _]]; [|done]. specialize (H2 (Z.of_nat (length (hist σ)))). rewrite He, lookup_empty in H2.
      rewrite (proj2 (Z.ltb_lt _ _)) in H2 by lia. unfold entry in H2. rewrite (proj2 (Z.leb_le _ _)) in H2 by lia.
      symmetry in H2. apply lookup_ge_None in H2. lia.
    - rewrite H2 in Hx. destruct (lo <? last) eqn:El; [|done]. pose proof (entry_bound _ _ _ Hx) as Hb.
      specialize (Hmax (Z.of_nat (length (hist σ)))). rewrite H2, (proj2 (Z.ltb_lt _ _)) in Hmax by lia.
      unfold entry in Hmax. rewrite (proj2 (Z.leb_le _ _)) in Hmax by lia.
      destruct (lookup_lt_is_Some_2 (hist σ) (Z.to_nat (Z.of_nat (length (hist σ)) - 1))) as [y Hy]; [lia|].
      rewrite Hy in Hmax. specialize (Hmax ltac:(by eexists)). lia. }
  apply law_write in Hw.
  assert (∀ i, entry σ' i = if i =? Z.of_nat (length (hist σ)) + 1 then Some d else entry σ i) as He.
  { intros i. unfold entry, σ'. simpl. destruct (Z.leb_spec 1 i), (Z.eqb_spec i (Z.of_nat (length (hist σ)) + 1)); try lia; try done.
    - subst i. rewrite list_lookup_middle by lia. done.
    - destruct (decide (Z.to_nat (i - 1) < length (hist σ))%nat); [by rewrite lookup_app_l|].
      rewrite (lookup_ge_None_2 (hist σ)) by lia. apply lookup_ge_None_2. rewrite length_app. simpl. lia. }
  split; [|done]. split_and!; [done|left; simpl; rewrite length_app; simpl; destruct H1 as [?|[-> ->]]; simpl; lia|].
  intros i. simpl. rewrite Hw, He. destruct (Z.eqb_spec i (Z.of_nat (length (hist σ)) + 1)) as [->|Hne].
  - rewrite lookup_insert, decide_True, (proj2 (Z.ltb_lt _ _)) by (done || destruct H1 as [?|[-> ->]]; simpl; lia). done.
  - rewrite lookup_insert_ne by done. apply H2.
Qed.

Lemma append_inv σ d l : shipInv σ → walWrite (wal σ) d = Some l →
  shipInv (mkSystem l (disk σ) (run σ) (bus σ) (hist σ ++ [d])).
Proof.
  intros [(lo & Hlo & Hs) Ho [Hd0 Hd] Hr] Hw. destruct (append_holds σ d l lo Hlo Hw) as [Hlo' He]. set (σ' := mkSystem _ _ _ _ _) in *.
  assert (grows σ σ') as Hg by (split; [by exists [d]|exists []; by rewrite app_nil_r]).
  split.
  - exists lo. split; [done|by eapply settledUpTo_grows].
  - intros l1 i sb d0 l2 Hb. destruct (Ho _ _ _ _ _ Hb) as (Hi & Hsb & Hj). split_and!; [by eapply entry_grows|done|].
    intros j d' Hlt Hd'. apply (Hj j); [done|]. rewrite He in Hd'. destruct (Z.eqb_spec j (Z.of_nat (length (hist σ)) + 1)); [|done].
    apply entry_bound in Hi. lia.
  - split; [done|]. by eapply settledUpTo_grows.
  - intros r Hrun. by eapply runOk_grows, Hr.
Qed.

Lemma process_inv σ r t d rcv ack :
  shipInv σ → runOk σ r → at_ r = Got t d → shipInv (process decode t d rcv ack r σ).
Proof.
  intros Hi Hr Hat. pose proof Hr as (H0 & Hc & Hs & Hp). rewrite Hat in Hp. destruct Hp as [-> He].
  unfold process. destruct (decode d) as [typ|] eqn:Hd.
  2: { apply (inv_frame σ); try done; [apply Hi|]. intros r' [= <-]. split_and!; [done..|]. split; [done|]. exists d. auto. }
  assert (shipInv (received (index r + 1) (suffixOf typ) d σ) ∧ settled (received (index r + 1) (suffixOf typ) d σ) (index r + 1) ∧
    runOk (received (index r + 1) (suffixOf typ) d σ) r) as (Hi' & Hset & Hr').
  { set (σ' := received _ _ _ σ).
    assert (grows σ σ') as Hg by (split; [exists []; by rewrite app_nil_r|by eexists]).
    destruct Hi as [(lo & Hlo & Hsl) Ho [Hd0 Hdk] Hrun]. split_and!.
    - split; [exists lo; split; [done|by eapply settledUpTo_grows]| |split; [done|by eapply settledUpTo_grows]|
        intros r' Hr'; by eapply runOk_grows, Hrun].
      intros l1 i sb d0 l2 Hb. unfold σ', received in Hb. simpl in Hb.
      destruct l2 as [|y l2 _] using rev_ind.
      + apply app_inj_tail in Hb as [<- [= <- <- <-]]. rewrite Hd. split_and!; [done|done|].
        intros j d' Hj Hd'. destruct (Hs j) as (d'' & Hd'' & Hx); [lia|]. change (entry σ j = Some d') in Hd'. by simplify_eq.
      + rewrite app_comm_cons, app_assoc in Hb. apply app_inj_tail in Hb as [Hb _]. by apply (Ho l1 i sb d0 l2).
    - exists d. split; [done|]. right. exists (suffixOf typ). set_solver.
    - by eapply runOk_grows. }
  destruct rcv; simpl; [|apply (inv_frame σ); try done; [apply Hi|]; intros r' [= <-]; by split_and!].
  destruct ack; (apply (inv_frame (received (index r + 1) (suffixOf typ) d σ)); try done; [apply Hi'|]; intros r' [= <-]).
  - split_and!; [done|done|apply Hr'|]. by split.
  - split_and!; [done|done|apply Hr'|done].
Qed.

Lemma truncate_holds σ r l lo : holdsAfter σ lo → runOk σ r → at_ r = Truncating → log_truncate (wal σ) (index r) = Some l →
  holdsAfter (mkSystem l (disk σ) (Some (mkRunning (cursor r) (index r) Top)) (bus σ) (hist σ)) (Z.max lo (index r - 1)).
Proof.
  intros (H0 & H1 & H2) (Hi & Hc & Hs & Hp) Hat Ht. rewrite Hat in Hp. split_and!; [lia| |].
  - left. apply settledUpTo_bound in Hs; [|done]. simpl. destruct H1 as [?|[Hn ->]]; [lia|]. rewrite Hn in *. simpl in *. lia.
  - intros i. simpl. rewrite (law_truncate _ _ _ _ Ht). specialize (H2 i).
    destruct (Z.ltb_spec i (index r)), (Z.ltb_spec (Z.max lo (index r - 1)) i); try lia; [done| |].
    + rewrite H2, (proj2 (Z.ltb_lt _ _)) by lia. done.
    + rewrite H2. destruct (Z.ltb_spec lo i); [lia|done].
Qed.

Lemma truncate_inv σ r l : shipInv σ → runOk σ r → at_ r = Truncating → log_truncate (wal σ) (index r) = Some l →
  shipInv (mkSystem l (disk σ) (Some (mkRunning (cursor r) (index r) Top)) (bus σ) (hist σ)).
Proof.
  intros [(lo & Hlo & Hsl) Ho Hd _] Hok Hat Ht. pose proof (truncate_holds σ r l lo Hlo Hok Hat Ht) as Hlo'.
  destruct Hok as (Hi & Hc & Hs & Hp). split; [|done|done|intros r' [= <-]; by split_and!].
  exists (Z.max lo (index r - 1)). split; [done|].
  intros i Hi'. destruct (decide (i <= lo)); [apply Hsl; lia|apply Hs; lia].
Qed.

Lemma boot_index σ lo : holdsAfter σ lo → 0 <= disk σ →
  boot (wal σ) (disk σ) = mkRunning (disk σ) (disk σ) Top ∨ disk σ = 0 ∧ boot (wal σ) (disk σ) = mkRunning lo lo Top.
Proof.
  intros (H0 & H1 & H2) Hd. unfold boot. destruct (Z.eqb_spec (disk σ) 0) as [E|]; [|by left].
  destruct (log_first (wal σ)) as [n|] eqn:Hf; [|by left]. destruct (Z.ltb_spec 1 n); [|by left]. right. split; [done|].
  enough (n = lo + 1) as -> by (by replace (lo + 1 - 1) with lo by lia).
  apply law_first in Hf as [[_ ?]|[[x Hx] Hmin]]; [lia|]. rewrite H2 in Hx. destruct (Z.ltb_spec lo n); [|done].
  destruct H1 as [H1|[Hn _]]; [|apply entry_bound in Hx; rewrite Hn in Hx; simpl in Hx; lia].
  specialize (Hmin (lo + 1)). rewrite H2, (proj2 (Z.ltb_lt _ _)) in Hmin by lia. unfold entry in Hmin.
  rewrite (proj2 (Z.leb_le _ _)) in Hmin by lia.
  assert (n <= lo + 1); [|lia]. apply Hmin. apply lookup_lt_is_Some. lia.
Qed.

Lemma shipStep_inv e σ σ' : shipInv σ → shipStep decode e σ = Some σ' → shipInv σ'.
Proof.
  intros Hi Hst. pose proof Hi as [(lo & Hlo & Hsl) Ho [Hd0 Hd] Hr].
  destruct e, (run σ) as [[c i p]|] eqn:Hrun; cbn [shipStep] in Hst; rewrite Hrun in Hst; try done;
    try (destruct p; try done).
  all: try (destruct (walWrite (wal σ) d) as [l|] eqn:Hw in Hst; simplify_eq; [rewrite <- Hrun; by apply append_inv|done]).
  - (* start *) simplify_eq. apply (inv_frame σ); try done. intros r [= <-].
    destruct (boot_index σ lo Hlo Hd0) as [->|[_ ->]]; split_and!; try done. by destruct Hlo.
  - (* save *) specialize (Hr _ eq_refl) as (? & Hc & ? & _). simpl in *. destruct ok; simplify_eq; [|done].
    apply (inv_frame σ); try done. intros r' Hr'. simpl in Hr'. rewrite Hrun in Hr'. simplify_eq. by split_and!.
  - (* read *) pose proof (Hr _ eq_refl) as (? & ? & ? & _). simpl in *. destruct (log_read (wal σ) (i + 1)) as [d| |] eqn:Hrd; simplify_eq; [|done..].
    apply (inv_frame σ); try done. intros r' [= <-]. split_and!; [done..|]. split; [done|].
    apply law_read in Hrd. destruct Hlo as (_ & _ & Hlo). rewrite Hlo in Hrd. by destruct (lo <? i + 1).
  - (* publish *) simplify_eq. apply process_inv; [done|by apply Hr|done].
  - (* advance *) simplify_eq. pose proof (Hr _ eq_refl) as (? & ? & Hs & [-> Hset]). simpl in *. apply (inv_frame σ); try done. intros r' [= <-].
    assert (settledUpTo σ (i + 1)) as Hs' by (intros j Hj; destruct (decide (j = i + 1)) as [->|]; [done|apply Hs; lia]).
    split_and!; simpl; [lia|done|done|]. destruct (_ =? 0); [lia|done].
  - (* truncate *) pose proof (Hr _ eq_refl) as Hok. destruct (if ok then _ else None) as [l|] eqn:Ht in Hst; simplify_eq.
    + destruct ok; [|done]. by apply (truncate_inv σ (mkRunning c i Truncating)).
    + apply (inv_frame σ); try done. intros r' [= <-]. destruct Hok as (? & ? & ? & _). by split_and!.
  - (* stop *) pose proof (Hr _ eq_refl) as (? & Hc & ? & _). simpl in *. destruct saved; simplify_eq; apply (inv_frame σ); done.
  - simplify_eq. by apply (inv_frame σ).
  - simplify_eq. by apply (inv_frame σ).
  - simplify_eq. by apply (inv_frame σ).
  - simplify_eq. by apply (inv_frame σ).
Qed.

Lemma initial_shipInv l : contents l = ∅ → shipInv (initialSystem l).
Proof.
  intros He. split.
  - exists 0. split; [|intros i ?; lia]. split_and!; [done|by right|]. intros i. simpl. rewrite He, lookup_empty.
    destruct (0 <? i); [|done]. unfold entry. by destruct (1 <=? i).
  - intros l1 i sb d l2 Hb. by destruct l1.
  - split; [done|]. intros i ?. simpl in *. lia.
  - done.
Qed.

Lemma shipSteps_inv evs σ σ' : shipInv σ → shipSteps decode evs σ = Some σ' → shipInv σ'.
Proof.
  revert σ. induction evs as [|e evs IH]; intros σ Hi Hs; cbn [shipSteps] in Hs; [by simplify_eq|].
  destruct (shipStep decode e σ) as [σ1|] eqn:H1; [|done]. eapply IH; [|exact Hs]. by eapply shipStep_inv.
Qed.

(** C29: whatever happens (appends, starts, stops, crashes at any point of the loop,
    saves, publishes and truncations that fail, publishes that are received but not
    acknowledged), no record is lost: each appended record has been received by the bus,
    or cannot be decoded, or is still in the log; all up to the saved cursor, and all up
    to the running cursor, are of the first two kinds; and each record reaches the bus
    with its own payload and subject, after every decodable record before it. *)
Theorem shipper_loses_nothing (l : L) evs σ :
  contents l = ∅ → shipSteps decode evs (initialSystem l) = Some σ →
  (∀ i d, entry σ i = Some d → settled σ i ∨ contents (wal σ) !! i = Some d) ∧
  settledUpTo σ (disk σ) ∧ (∀ r, run σ = Some r → settledUpTo σ (cursor r)) ∧ inOrder σ.
Proof.
  intros He Hs. destruct (shipSteps_inv evs _ σ (initial_shipInv l He) Hs) as [(lo & Hlo & Hsl) Ho [_ Hd] Hr].
  split_and!; [|done| |done].
  - intros i d Hi. destruct (decide (i <= lo)) as [Hle|Hgt].
    + left. apply Hsl. apply entry_bound in Hi. lia.
    + right. destruct Hlo as (_ & _ & Hlo). rewrite Hlo, (proj2 (Z.ltb_lt _ _)) by lia. done.
  - intros r Hrun. destruct (Hr r Hrun) as (_ & -> & ? & _). done.
Qed.

(** ** Progress *)

(** The next event of a running loop when reads, publishes and truncations succeed. *)
Definition healthy (r : running) : event :=
  match at_ r with
  | Top => ERead
  | Got _ _ => EPublish true true
  | Shipped _ => EAdvance
  | Truncating => ETruncate true
  end.

Fixpoint loopRun (n : nat) σ : system :=
  match n with
  | O => σ
  | S n => match run σ with
           | Some r => match shipStep decode (healthy r) σ with Some σ' => loopRun n σ' | None => σ end
           | None => σ
           end
  end.

(** No crash, and no stop whose last save failed. *)
Definition orderly (e : event) : bool := match e with ECrash | EStop false => false | _ => true end.

(** The shipper is not behind the first record of the log. *)
Definition caught σ : Prop :=
  ∃ lo, holdsAfter σ lo ∧ match run σ with Some r => lo <= index r | None => lo <= disk σ end.

(** A step that leaves the log alone and does not move the cursor back. *)
Lemma caught_frame σ σ' : wal σ' = wal σ → hist σ' = hist σ →
  (∀ lo, match run σ with Some r => lo <= index r | None => lo <= disk σ end →
     match run σ' with Some r => lo <= index r | None => lo <= disk σ' end) →
  caught σ → caught σ'.
Proof.
  intros Hw Hh Hm (lo & (? & ? & Hc) & Hl). exists lo. split; [|by apply Hm]. split_and!; [done|by rewrite Hh|].
  intros i. rewrite Hw, Hc. unfold entry. by rewrite Hh.
Qed.

Lemma process_frame t d rcv ack r σ : wal (process decode t d rcv ack r σ) = wal σ ∧ hist (process decode t d rcv ack r σ) = hist σ ∧
  ∃ p, run (process decode t d rcv ack r σ) = Some (mkRunning (cursor r) (index r) p).
Proof. unfold process. destruct (decode d), rcv, ack; (split_and!; [done|done|by eexists]). Qed.

Lemma caught_step e σ σ' : shipInv σ → caught σ → orderly e = true → shipStep decode e σ = Some σ' → caught σ'.
Proof.
  intros [_ _ [Hd0 _] Hr] Hca Hor Hst.
  destruct e, (run σ) as [[c i p]|] eqn:Hrun; cbn [shipStep] in Hst; rewrite Hrun in Hst; try done; try (destruct p; try done).
  all: try (destruct (walWrite (wal σ) d) as [l|] eqn:Hw in Hst; simplify_eq; [|done];
    destruct Hca as (lo & Hlo & Hm); exists lo; rewrite Hrun in Hm; split; [rewrite <- Hrun; by apply append_holds|done]).
  - simplify_eq. destruct Hca as (lo & Hlo & Hm). rewrite Hrun in Hm. exists lo. split; [done|]. simpl.
    destruct (boot_index σ lo Hlo Hd0) as [->|[_ ->]]; done.
  - destruct ok; simplify_eq; [|done]. apply (caught_frame σ); try done. simpl. by rewrite Hrun.
  - destruct (log_read (wal σ) (i + 1)); simplify_eq; [|done..]. apply (caught_frame σ); try done. by rewrite Hrun.
  - simplify_eq. destruct (process_frame target d received0 acked (mkRunning c i (Got target d)) σ) as (? & ? & p & Hp).
    apply (caught_frame σ); [done..| |done]. by rewrite Hrun, Hp.
  - simplify_eq. destruct (Hr _ eq_refl) as (_ & _ & _ & [-> _]). apply (caught_frame σ); try done. rewrite Hrun. simpl. lia.
  - pose proof (Hr _ eq_refl) as Hok. destruct Hca as (lo & Hlo & Hm). rewrite Hrun in Hm. simpl in Hm.
    destruct (if ok then _ else None) as [l|] eqn:Ht in Hst; simplify_eq; [destruct ok; [|done]|by exists lo].
    exists (Z.max lo (i - 1)). split; [|simpl; lia]. by apply (truncate_holds σ (mkRunning c i Truncating)).
  - destruct (Hr _ eq_refl) as (_ & Hc & _). simpl in Hc. subst c. destruct saved; simplify_eq. apply (caught_frame σ); try done. by rewrite Hrun.
Qed.

Lemma caught_steps evs σ σ' : shipInv σ → caught σ → forallb orderly evs = true → shipSteps decode evs σ = Some σ' → caught σ'.
Proof.
  revert σ. induction evs as [|e evs IH]; intros σ Hi Hc Ho Hs; cbn [shipSteps forallb] in *; [by simplify_eq|].
  apply andb_true_iff in Ho as [? ?]. destruct (shipStep decode e σ) as [σ1|] eqn:H1; [|done].
  eapply IH; [by eapply shipStep_inv|by eapply caught_step|done|done].
Qed.

(** How much the loop still has to do. *)
Definition todo σ (r : running) : nat :=
  4 * Z.to_nat (Z.of_nat (length (hist σ)) - index r) +
  match at_ r with Top => 0 | Got _ _ => 0 | Shipped _ => 0 | Truncating => 1 end -
  match at_ r with Top | Truncating => 0 | Got _ _ => 1 | Shipped _ => 2 end.

(** One healthy event of a loop that is not behind and has something to do. *)
Lemma healthy_step σ r : (∀ l i, log_read l i ≠ RError) →
  shipInv σ → caught σ → run σ = Some r → index r < Z.of_nat (length (hist σ)) →
  ∃ σ' r', shipStep decode (healthy r) σ = Some σ' ∧ run σ' = Some r' ∧ hist σ' = hist σ ∧ (todo σ' r' < todo σ r)%nat.
Proof.
  intros Hread Hi (lo & (_ & _ & Hlo) & Hm) Hrun Hdo. destruct (inv_run _ Hi r Hrun) as (H0 & Hc & Hs & Hp).
  rewrite Hrun in Hm. destruct r as [c i p]. unfold healthy, todo, shipStep. simpl in *. destruct p as [|t d|t|].
  - rewrite Hrun.
    destruct (log_read (wal σ) (i + 1)) as [d| |] eqn:E; [| |by apply Hread in E].
    + eexists _, _. split_and!; [done|done|done|]. simpl. lia.
    + apply law_missing in E. rewrite Hlo, (proj2 (Z.ltb_lt _ _)) in E by lia. unfold entry in E.
      rewrite (proj2 (Z.leb_le _ _)) in E by lia. apply lookup_ge_None in E. lia.
  - destruct Hp as [-> He]. apply entry_bound in He. rewrite Hrun. unfold process. destruct (decode d).
    + eexists _, _. split_and!; [done|done|done|]. simpl. lia.
    + eexists _, _. split_and!; [done|done|done|]. simpl. lia.
  - destruct Hp as [-> (d & He & _)]. apply entry_bound in He. rewrite Hrun. eexists _, _. split_and!; [done|done|done|]. simpl.
    destruct (_ =? 0); simpl; lia.
  - rewrite Hrun. destruct (log_truncate (wal σ) i).
    + eexists _, _. split_and!; [done|done|done|]. simpl. lia.
    + eexists _, _. split_and!; [done|done|done|]. simpl. lia.
Qed.

Lemma loopRun_catches σ r : (∀ l i, log_read l i ≠ RError) → shipInv σ → caught σ → run σ = Some r →
  ∃ n r', run (loopRun n σ) = Some r' ∧ hist (loopRun n σ) = hist σ ∧ shipInv (loopRun n σ) ∧
    Z.of_nat (length (hist σ)) <= index r'.
Proof.
  intros Hread. remember (todo σ r) as k eqn:Hk. revert σ r Hk.
  induction k as [k IH] using lt_wf_ind. intros σ r -> Hi Hc Hrun.
  destruct (decide (index r < Z.of_nat (length (hist σ)))) as [Hdo|Hdone].
  2: { exists 0%nat, r. split_and!; [done..|]. lia. }
  destruct (healthy_step σ r Hread Hi Hc Hrun Hdo) as (σ1 & r1 & Hst & Hr1 & Hh & Hlt).
  assert (orderly (healthy r) = true) by (unfold healthy; by destruct (at_ r)).
  destruct (IH (todo σ1 r1) Hlt σ1 r1) as (n & r' & ? & Hh' & ? & ?);
    [done|by eapply shipStep_inv|by eapply caught_step|done|].
  exists (S n), r'. cbn [loopRun]. rewrite Hrun, Hst. rewrite <- Hh. by split_and!.
Qed.

(** C36: a shipper that was never killed and whose stops saved the cursor, running on a
    log that reads what it holds and a bus that accepts what it is sent, ships the whole
    log: after some number of its own steps its cursor is at the last record and every
    decodable record has been received. *)
Theorem shipper_catches_up (l : L) evs σ r :
  contents l = ∅ → shipSteps decode evs (initialSystem l) = Some σ → forallb orderly evs = true →
  run σ = Some r → (∀ l i, log_read l i ≠ RError) →
  ∃ n r', run (loopRun n σ) = Some r' ∧ hist (loopRun n σ) = hist σ ∧
    cursor r' = Z.of_nat (length (hist σ)) ∧ settledUpTo (loopRun n σ) (Z.of_nat (length (hist σ))).
Proof.
  intros He Hs Ho Hrun Hread. pose proof (initial_shipInv l He) as Hi0.
  assert (caught (initialSystem l)) as Hc0.
  { destruct (inv_log _ Hi0) as (lo & Hlo & _). exists lo. split; [done|]. destruct Hlo as (? & [?|[_ ->]] & _); simpl in *; lia. }
  destruct (loopRun_catches σ r Hread) as (n & r' & Hr' & Hh & Hi & Hge);
    [by eapply shipSteps_inv|by eapply (caught_steps evs (initialSystem l))|done|].
  exists n, r'. destruct (inv_run _ Hi r' Hr') as (? & Hcur & Hset & _).
  pose proof (settledUpTo_bound _ _ ltac:(done) Hset) as Hle. rewrite Hh in Hle.
  assert (index r' = Z.of_nat (length (hist σ))) as Heq by lia. rewrite Hcur, <- Heq. by split_and!.
Qed.
End spec.

(** ** A log in memory *)

(** The entries after index [lo]. *)
Record memLog := mkMem { m_lo : nat; m_entries : list string }.

#[export] Instance memLog_log : WalLog memLog := {
  log_first l := Some (if bool_decide (m_entries l = []) then 0 else Z.of_nat (m_lo l) + 1);
  log_last l := Some (if bool_decide (m_entries l = []) then 0 else Z.of_nat (m_lo l + length (m_entries l)));
  log_write l i d := if i =? Z.of_nat (m_lo l + length (m_entries l)) + 1 then Some (mkMem (m_lo l) (m_entries l ++ [d])) else None;
  log_read l i := if i <=? Z.of_nat (m_lo l) then RNotFound
                  else match m_entries l !! Z.to_nat (i - Z.of_nat (m_lo l) - 1) with Some d => RData d | None => RNotFound end;
  log_truncate l i := if (Z.of_nat (m_lo l) <? i) && (i <=? Z.of_nat (m_lo l + length (m_entries l)))
                      then Some (mkMem (Z.to_nat (i - 1)) (drop (Z.to_nat (i - 1) - m_lo l) (m_entries l))) else None }.

Definition memContents (l : memLog) : gmap Z string := map_seqZ (Z.of_nat (m_lo l) + 1) (m_entries l).

Lemma memContents_lookup l i :
  memContents l !! i = if i <=? Z.of_nat (m_lo l) then None else m_entries l !! Z.to_nat (i - Z.of_nat (m_lo l) - 1).
Proof.
  unfold memContents. destruct (Z.leb_spec i (Z.of_nat (m_lo l))).
  - apply lookup_map_seqZ_None. lia.
  - destruct (m_entries l !! Z.to_nat (i - Z.of_nat (m_lo l) - 1)) as [d|] eqn:E.
    + apply lookup_map_seqZ_Some. split; [lia|]. by replace (Z.to_nat (i - (Z.of_nat (m_lo l) + 1))) with (Z.to_nat (i - Z.of_nat (m_lo l) - 1)) by lia.
    + apply lookup_map_seqZ_None. right. apply lookup_ge_None in E. lia.
Qed.

#[export] Instance memLog_laws : WalLaws memLog.
Proof.
  refine {| contents := memContents |}; cbn [log_first log_last log_write log_read log_truncate memLog_log].
  - intros l n [= <-]. case_bool_decide as E; [left; split; [unfold memContents; by rewrite E|done]|right]. split.
    + rewrite memContents_lookup. destruct (Z.leb_spec (Z.of_nat (m_lo l) + 1) (Z.of_nat (m_lo l))); [lia|].
      replace (Z.to_nat _) with 0%nat by lia. destruct (m_entries l); [done|by eexists].
    + intros i. rewrite memContents_lookup. destruct (Z.leb_spec i (Z.of_nat (m_lo l))); [by intros []|lia].
  - intros l n [= <-]. case_bool_decide as E; [left; split; [unfold memContents; by rewrite E|done]|right].
    assert (0 < length (m_entries l))%nat by (destruct (m_entries l); [done|simpl; lia]). split.
    + rewrite memContents_lookup. destruct (Z.leb_spec (Z.of_nat (m_lo l + length (m_entries l))) (Z.of_nat (m_lo l))); [lia|].
      apply lookup_lt_is_Some. lia.
    + intros i. rewrite memContents_lookup. destruct (Z.leb_spec i (Z.of_nat (m_lo l))); [by intros []|].
      intros Hs%lookup_lt_is_Some. lia.
  - intros l i d l' Hw. destruct (Z.eqb_spec i (Z.of_nat (m_lo l + length (m_entries l)) + 1)) as [->|]; [|done]. simplify_eq.
    apply map_eq. intros j. rewrite memContents_lookup, lookup_insert, memContents_lookup. simpl. case_decide as E.
    + subst j. destruct (Z.leb_spec (Z.of_nat (m_lo l + length (m_entries l)) + 1) (Z.of_nat (m_lo l))); [lia|].
      replace (Z.to_nat _) with (length (m_entries l)) by lia. by apply list_lookup_middle.
    + destruct (Z.leb_spec j (Z.of_nat (m_lo l))); [done|].
      destruct (decide (Z.to_nat (j - Z.of_nat (m_lo l) - 1) < length (m_entries l))%nat); [by rewrite lookup_app_l|].
      rewrite !lookup_ge_None_2; [done|lia|]. rewrite length_app. simpl. lia.
  - intros l i d. rewrite memContents_lookup. destruct (i <=? Z.of_nat (m_lo l)); [done|].
    destruct (m_entries l !! _); naive_solver.
  - intros l i. rewrite memContents_lookup. destruct (i <=? Z.of_nat (m_lo l)); [done|].
    destruct (m_entries l !! _); naive_solver.
  - intros l i l' j Ht. destruct (Z.ltb_spec (Z.of_nat (m_lo l)) i); [|done].
    destruct (Z.leb_spec i (Z.of_nat (m_lo l + length (m_entries l)))); [|done]. simplify_eq/=.
    rewrite !memContents_lookup. simpl. rewrite lookup_drop.
    destruct (Z.leb_spec j (Z.of_nat (Z.to_nat (i - 1)))), (Z.ltb_spec j i); try lia; [done|].
    destruct (Z.leb_spec j (Z.of_nat (m_lo l))); [lia|]. f_equal. lia.
Defined.

(** ** Runs *)

Definition plain (d : string) : option (option string) := Some None.
Definition emptyLog : memLog := mkMem 0 [].
Definition shipOne : list event := [ERead; EPublish true true; EAdvance].
Definition shipMany (n : nat) : list event := concat (replicate n shipOne).

(** Five records shipped and the cursor saved; then the records up to 1001 appended and
    shipped up to 1000, which truncates the log; then a crash and a start. *)
Definition crashRun : list event :=
  replicate 5 (EAppend "x") ++ [EStart] ++ shipMany 5 ++ [ESave true] ++
  replicate 996 (EAppend "x") ++ shipMany 995 ++ [ETruncate true; ECrash; EStart].

Lemma shipper_loses_nothing_witness : ∃ σ,
  shipSteps plain [EAppend "a"; EAppend "b"; EStart; ERead; EPublish true false; ECrash; EStart; ERead; EPublish true true; EAdvance] (initialSystem emptyLog) = Some σ ∧
  settled plain σ 1 ∧ contents (wal σ) !! 2 = Some "b".
Proof.
  eexists. split; [vm_compute; reflexivity|].
  edestruct (shipper_loses_nothing plain emptyLog
    [EAppend "a"; EAppend "b"; EStart; ERead; EPublish true false; ECrash; EStart; ERead; EPublish true true; EAdvance])
    as (Hl & _ & Hr & _); [reflexivity|vm_compute; reflexivity|].
  split; [apply (Hr (mkRunning 1 1 Top) eq_refl); simpl; lia|].
  destruct (Hl 2 "b" eq_refl) as [(d & Hd & [Hn|(sb & Hin)])|Hc]; [by vm_compute in Hn| |exact Hc].
  exfalso. cbn [bus] in Hin. rewrite !elem_of_cons in Hin. destruct Hin as [Hin|[Hin|Hin]]; [done|done|by apply elem_of_nil in Hin].
Defined.

Lemma shipper_catches_up_witness : ∃ n, ∀ σ, shipSteps plain [EAppend "a"; EAppend "b"; EStart] (initialSystem emptyLog) = Some σ →
  settledUpTo plain (loopRun plain n σ) 2.
Proof.
  destruct (shipper_catches_up plain emptyLog [EAppend "a"; EAppend "b"; EStart]
    (mkSystem (mkMem 0 ["a"; "b"]) 0 (Some (mkRunning 0 0 Top)) [] ["a"; "b"]) (mkRunning 0 0 Top)) as (n & r' & _ & _ & _ & Hs);
    [reflexivity|vm_compute; reflexivity|reflexivity|reflexivity| |].
  { intros l i. cbn [log_read memLog_log]. destruct (i <=? _); [done|]. by destruct (m_entries l !! _). }
  exists n. intros σ Hσ. assert (σ = mkSystem (mkMem 0 ["a"; "b"]) 0 (Some (mkRunning 0 0 Top)) [] ["a"; "b"]) as ->.
  { vm_compute in Hσ. by simplify_eq. }
  exact Hs.
Defined.

(** A crash can leave the saved cursor behind the first record of the log: the log is
    truncated up to the running cursor, which is saved only once a second.  Started
    again with such a cursor (and not with none, which the code moves forward), the
    shipper asks for a record the log no longer has, takes the answer for the end of the
    log, and stays there for good: record 1001 is in the log and is never shipped. *)
Theorem crash_after_truncation_stalls : ∃ σ,
  shipSteps plain crashRun (initialSystem emptyLog) = Some σ ∧
  (∀ n, loopRun plain n σ = σ) ∧ contents (wal σ) !! 1001 = Some "x"%string ∧ ¬ settled plain σ 1001.
Proof.
  assert (match shipSteps plain crashRun (initialSystem emptyLog) with
    | Some σ => match run σ with Some (mkRunning 5 5 Top) => true | _ => false end &&
        match log_read (wal σ) 6, log_read (wal σ) 1001 with RNotFound, RData "x" => true | _, _ => false end &&
        forallb (λ x : Z * (string * string), negb (x.1 =? 1001)) (bus σ)
    | None => false end = true) as H by (vm_compute; reflexivity).
  destruct (shipSteps plain crashRun (initialSystem emptyLog)) as [σ|]; [|done]. exists σ.
  apply andb_true_iff in H as [[Hrun Hread]%andb_true_iff Hbus].
  assert (run σ = Some (mkRunning 5 5 Top)) as Hr by (by repeat case_match).
  assert (log_read (wal σ) 6 = RNotFound ∧ log_read (wal σ) 1001 = RData "x") as [H6 H1001].
  { destruct (log_read (wal σ) 6); try done. split; [done|]. by repeat case_match. }
  split_and!; [done| |by apply law_read|].
  - induction n as [|n IH]; [done|]. cbn [loopRun]. rewrite Hr. cbn [healthy at_ shipStep]. rewrite Hr.
    change (5 + 1) with 6. by rewrite H6.
  - intros (d & _ & [Hn|(sb & Hin)]); [done|]. rewrite forallb_forall in Hbus.
    apply list_elem_of_In, Hbus in Hin. done.
Qed.
