(* ===== verification/Manager.v ===== *)
(** * pkg/runtime/runtime.go: applying a scenario

    [ApplyScenario], [waitForConvergence], [stopAll] and [Shutdown] of the Manager.  A
    gear is an instance, a number; what happens to instances and subscriptions is a
    trace.  ApplyScenario holds the Manager's mutex except while it waits for its bus
    subjects to converge, so a call is three steps with other calls in between: up to
    the wait ([applyLocked]), the snapshot of the subjects, and what follows
    ([applyStart] or the clean-up).

    Left out: port and gear ids, the spans and counters of the handlers, the purge of
    the stream, logging. *)
From S2P Require Import Prelude FluxMsg Routes.
Open Scope Z_scope.

(** ** State *)

Inductive act :=
| AInit (inst : nat) (name : string) (ok : bool)
| AStart (inst : nat) (ok : bool)
| AStop (inst : nat)
| ARelease (name : string)                       (* the gear's commands *)
| ASubscribe (sub : nat) (subject : string) (lane : bool)
| AUnsubscribe (sub : nat).

(** [activeGears], [activeSubs], [hotSubjects] (a channel is a number) and
    [busSubjects]; [closedChans] the channels that were closed, [fresh_] the next number. *)
Record Manager := mkManager {
  m_gears : gmap string nat; m_subs : list nat; m_hot : gmap string nat; m_busSubjects : gset string;
  closedChans : gset nat; fresh_ : nat; trace : list act }.

Definition NewManager : Manager := mkManager ∅ [] ∅ ∅ ∅ 0 [].

(** What the gears, the factory and the bus answer. *)
Record answers := mkAnswers {
  createOk : string → bool;      (* factory.Create, of a gear type *)
  configOk : string → bool;      (* factory.ValidateConfig, of a gear *)
  initOk : string → bool; startOk : string → bool; subscribeOk : string → bool;
  isPorted : string → bool }.

Section manager.
Context (rackName : string).
(** The order in which Go ranges over the gears. *)
Context (range : list string → list string).

Definition record_ (l : list act) (m : Manager) : Manager :=
  mkManager (m_gears m) (m_subs m) (m_hot m) (m_busSubjects m) (closedChans m) (fresh_ m) (trace m ++ l).

(** ** [stopAll] *)

Definition stopGear (gears : gmap string nat) (name : string) : list act :=
  match gears !! name with Some g => [AStop g; ARelease name] | None => [] end.

Definition stopAll (m : Manager) : Manager :=
  let unsubs := AUnsubscribe <$> m_subs m in
  let stops := concat (stopGear (m_gears m) <$> range (elements (dom (m_gears m)))) in
  mkManager ∅ [] ∅ ∅ (closedChans m) (fresh_ m) (trace m ++ unsubs ++ stops).

(** ** The parts of [ApplyScenario] *)

Inductive applyErr := ECreate (name : string) | EConfig (name : string) | EInit (name : string)
| EInput (to : string) | ESubscribe (subject : string) | EStartGear (name : string) | EConvergence.

Definition isLocal (g : GearSpec) : bool :=
  let target := default "" (Deploy g) in bool_decide (target = "") || bool_decide (target = rackName).

(** The loop that creates and initialises the gears of this Rack. *)
Fixpoint initGears (a : answers) (l : list GearSpec) (m : Manager) : Manager * option applyErr :=
  match l with
  | [] => (m, None)
  | g :: l =>
      if negb (isLocal g) then initGears a l m
      else if negb (createOk a (Type_ g)) then (m, Some (ECreate (Name g)))
      else if negb (configOk a (Name g)) then (m, Some (EConfig (Name g)))
      else
        let inst := fresh_ m in
        let m := mkManager (m_gears m) (m_subs m) (m_hot m) (m_busSubjects m) (closedChans m) (S inst)
                   (trace m ++ [AInit inst (Name g) (initOk a (Name g))]) in
        if negb (initOk a (Name g)) then (m, Some (EInit (Name g)))
        else initGears a l (mkManager (<[Name g := inst]> (m_gears m)) (m_subs m) (m_hot m) (m_busSubjects m)
                              (closedChans m) (fresh_ m) (trace m))
  end.

(** The loop that subscribes the wires; [consumes] is its decision for one wire. *)
Fixpoint wireUp (a : answers) (sc : Scenario) (l : list WireSpec) (m : Manager) : Manager * option applyErr :=
  match l with
  | [] => (m, None)
  | w :: l =>
      match consumes (isPorted a) sc rackName w with
      | Skipped => wireUp a sc l m
      | BadInput => (m, Some (EInput (To w)))
      | Subscribed subject lane =>
          if negb lane && negb (subscribeOk a subject) then (m, Some (ESubscribe subject)) else
          let sub := fresh_ m in
          let hot := if lane then m_hot m else <[subject := S sub]> (m_hot m) in
          wireUp a sc l (mkManager (m_gears m) (m_subs m ++ [sub]) hot (m_busSubjects m) (closedChans m)
                           (S (S sub)) (trace m ++ [ASubscribe sub subject lane]))
      end
  end.

(** Up to the wait. The clean-up of an error is [stopAll]. *)
Definition applyLocked (a : answers) (sc : Scenario) (m : Manager) : Manager * option applyErr :=
  let m := stopAll m in
  let m := mkManager (m_gears m) (m_subs m) (m_hot m) (busEmitSubjects sc rackName (deployMap sc))
             (closedChans m) (fresh_ m) (trace m) in
  let '(m, e) := initGears a (Gears sc) m in
  match e with
  | Some e => (stopAll m, Some e)
  | None =>
      let '(m, e) := wireUp a sc (Wires sc) m in
      match e with
      | Some e => (stopAll m, Some e)
      | None => (m, None)
      end
  end.

(** The loop that starts the gears. *)
Fixpoint startGears (a : answers) (l : list string) (m : Manager) : Manager * option applyErr :=
  match l with
  | [] => (m, None)
  | name :: l =>
      match m_gears m !! name with
      | None => startGears a l m
      | Some g =>
          let m := record_ [AStart g (startOk a name)] m in
          if startOk a name then startGears a l m else (m, Some (EStartGear name))
      end
  end.

Definition applyStart (a : answers) (m : Manager) : Manager * option applyErr :=
  let '(m, e) := startGears a (range (elements (dom (m_gears m)))) m in
  match e with Some e => (stopAll m, Some e) | None => (m, None) end.

(** The probe handler: the subject's channel is closed and forgotten. *)
Definition probe (subject : string) (m : Manager) : Manager :=
  match m_hot m !! subject with
  | Some ch => mkManager (m_gears m) (m_subs m) (delete subject (m_hot m)) (m_busSubjects m) ({[ch]} ∪ closedChans m) (fresh_ m) (trace m)
  | None => m
  end.

(** ** Calls in progress *)

Inductive call_pc :=
| CSnap                                    (* the mutex is released *)
| CWait (pending : gmap string nat)        (* the subjects as they were *)
| CDone (r : option applyErr).

Record rt := mkRt { mgr : Manager; calls : list call_pc }.

Inductive rtEvent :=
| VApply (a : answers) (sc : Scenario)     (* a call begins, and runs up to its wait *)
| VSnap (i : nat)
| VConverged (i : nat) (a : answers)       (* every subject of the snapshot is hot *)
| VGiveUp (i : nat)                        (* timeout, or the context ends *)
| VProbe (subject : string)
| VShutdown.

Definition allClosed (pending : gmap string nat) (m : Manager) : bool :=
  forallb (λ kv : string * nat, bool_decide (kv.2 ∈ closedChans m)) (map_to_list pending).

Definition setCall (i : nat) (c : call_pc) (m : Manager) (r : rt) : rt := mkRt m (<[i := c]> (calls r)).

Definition rtStep (e : rtEvent) (r : rt) : option rt :=
  match e with
  | VApply a sc =>
      let '(m, err) := applyLocked a sc (mgr r) in
      Some (mkRt m (calls r ++ [match err with Some e => CDone (Some e) | None => CSnap end]))
  | VSnap i =>
      match calls r !! i with Some CSnap => Some (setCall i (CWait (m_hot (mgr r))) (mgr r) r) | _ => None end
  | VConverged i a =>
      match calls r !! i with
      | Some (CWait pending) =>
          if allClosed pending (mgr r) then
            let '(m, err) := applyStart a (mgr r) in Some (setCall i (CDone err) m r)
          else None
      | _ => None
      end
  | VGiveUp i =>
      match calls r !! i with
      | Some (CWait pending) =>
          if bool_decide (pending = ∅) then None else Some (setCall i (CDone (Some EConvergence)) (stopAll (mgr r)) r)
      | _ => None
      end
  | VProbe s => Some (mkRt (probe s (mgr r)) (calls r))
  | VShutdown => Some (mkRt (stopAll (mgr r)) (calls r))
  end.

Fixpoint rtSteps (l : list rtEvent) (r : rt) : option rt :=
  match l with [] => Some r | e :: l => rtStep e r ≫= rtSteps l end.
End manager.
