(* ===== verification/ManagerSpec.v ===== *)
(** * Applying a scenario leaks nothing and starts nothing early

    An invariant of every interleaving of ApplyScenario calls, probes and shutdowns, and
    the outcome of a call that no other call overlaps. *)
From S2P Require Import Prelude FluxMsg Routes Manager.
Open Scope Z_scope.

Section spec.
Context (rackName : string) (range : list string → list string) (Hrange : ∀ l, range l ≡ₚ l).
Abbreviation stopAll := (Manager.stopAll range).
Abbreviation applyLocked := (Manager.applyLocked rackName range).
Abbreviation applyStart := (Manager.applyStart range).
Implicit Types m : Manager.

(** A gear of this Rack, with the names of [activeGears]. *)
Lemma activeGears_cons g l wires :
  activeGears (mkScenario (g :: l) wires) rackName =
  if isLocal rackName g then Name g :: activeGears (mkScenario l wires) rackName else activeGears (mkScenario l wires) rackName.
Proof.
  unfold activeGears, isLocal. simpl. by destruct (bool_decide _), (bool_decide _).
Qed.

(** An instance is started only between its initialisation and its stop. *)
Definition startsInOrder (t : list act) : Prop :=
  ∀ l1 g ok l2, t = l1 ++ AStart g ok :: l2 → (∃ name, AInit g name true ∈ l1) ∧ AStop g ∉ l1.

Definition mentions (n : nat) (a : act) : Prop :=
  match a with
  | AInit g _ _ | AStart g _ | AStop g => g = n
  | ASubscribe s _ _ | AUnsubscribe s => s = n
  | ARelease _ => False
  end.

Record minv m : Prop := {
  mi_fresh : ∀ a n, a ∈ trace m → mentions n a → (n < fresh_ m)%nat;
  mi_subsf : ∀ n, n ∈ m_subs m → (n < fresh_ m)%nat;
  mi_chans : ∀ c, (c ∈ closedChans m ∨ ∃ s, m_hot m !! s = Some c) → (c < fresh_ m)%nat;
  mi_hot : ∀ s s' c, m_hot m !! s = Some c → (c ∉ closedChans m) ∧ (m_hot m !! s' = Some c → s = s');
  mi_gears : ∀ name g, m_gears m !! name = Some g → AInit g name true ∈ trace m ∧ AStop g ∉ trace m;
  mi_stopped : ∀ name g, AInit g name true ∈ trace m → AStop g ∈ trace m ∨ m_gears m !! name = Some g;
  mi_subs : ∀ sub s lane, ASubscribe sub s lane ∈ trace m → AUnsubscribe sub ∈ trace m ∨ sub ∈ m_subs m;
  mi_start : startsInOrder (trace m) }.

(** ** The operations *)

Lemma startsInOrder_app t l : startsInOrder t → (∀ g ok, AStart g ok ∉ l) → startsInOrder (t ++ l).
Proof.
  intros Ht Hl l1 g ok l2 Heq. apply app_eq_app in Heq as (k & [[Ht1 Hk]|[Hl1 Hk]]).
  - destruct k as [|x k]; simpl in Hk.
    + exfalso. apply (Hl g ok). rewrite <- Hk. set_solver.
    + injection Hk as <- ->. by apply (Ht l1 g ok k).
  - exfalso. apply (Hl g ok). rewrite Hk. set_solver.
Qed.

Lemma elem_stops g (gears : gmap string nat) l :
  AStop g ∈ concat (stopGear gears <$> l) ↔ ∃ name, name ∈ l ∧ gears !! name = Some g.
Proof.
  rewrite list_elem_of_In, in_concat. split.
  - intros (x & (name & -> & Hn)%list_elem_of_In%list_elem_of_fmap & Hin). unfold stopGear in Hin. exists name.
    destruct (gears !! name) as [h|] eqn:E; [|done]. destruct Hin as [[= <-]|[?|[]]]; done.
  - intros (name & Hn & Hg). exists (stopGear gears name). split.
    + apply list_elem_of_In, list_elem_of_fmap. eauto.
    + unfold stopGear. rewrite Hg. by left.
Qed.

Lemma elem_stops_other a (gears : gmap string nat) l :
  a ∈ concat (stopGear gears <$> l) → (∃ g name, a = AStop g ∧ gears !! name = Some g) ∨ ∃ name, a = ARelease name.
Proof.
  rewrite list_elem_of_In, in_concat. intros (x & (name & -> & Hn)%list_elem_of_In%list_elem_of_fmap & Hin).
  unfold stopGear in Hin. destruct (gears !! name) as [h|] eqn:E; [|done]. destruct Hin as [<-|[<-|[]]]; eauto.
Qed.

Lemma stopAll_trace m a : a ∈ trace (stopAll m) ↔ a ∈ trace m ∨ (∃ s, a = AUnsubscribe s ∧ s ∈ m_subs m) ∨
  a ∈ concat (stopGear (m_gears m) <$> range (elements (dom (m_gears m)))).
Proof. unfold Manager.stopAll. simpl. rewrite !elem_of_app, list_elem_of_fmap. naive_solver. Qed.

Lemma stopAll_stops m g : AStop g ∈ trace (stopAll m) ↔ AStop g ∈ trace m ∨ ∃ name, m_gears m !! name = Some g.
Proof.
  rewrite stopAll_trace, elem_stops. split.
  - intros [?|[(? & ? & _)|(name & _ & ?)]]; [by left|done|right; eauto].
  - intros [?|(name & Hn)]; [by left|]. right; right. exists name. split; [|done]. rewrite Hrange.
    apply elem_of_elements. by apply elem_of_dom_2 in Hn.
Qed.

Lemma stopAll_inv m : minv m → minv (stopAll m).
Proof.
  intros [Hf Hsf Hc Hh Hg Hs Hsub Hst]. split; try done.
  - intros a n Ha Hm. apply stopAll_trace in Ha as [Ha|[(s & -> & Hin)|Ha]]; [by eapply Hf| |].
    + simpl in Hm. subst s. by apply Hsf.
    + apply elem_stops_other in Ha as [(g & name & -> & Hn)|(name & ->)]; [|done].
      simpl in Hm. subst g. apply Hg in Hn as [Hn _]. by apply (Hf _ n Hn).
  - intros n Hn. simpl in Hn. inversion Hn.
  - intros c [Hin|(s & Hs')]; [by apply Hc; left|]. simpl in Hs'. by rewrite lookup_empty in Hs'.
  - intros name g Ha. left. apply stopAll_stops. apply stopAll_trace in Ha as [Ha|[(s & ? & _)|Ha]]; [|done|].
    + apply Hs in Ha as [?|?]; [by left|right; eauto].
    + apply elem_stops_other in Ha as [(? & ? & ? & _)|(? & ?)]; done.
  - intros sub s lane Ha. left. apply stopAll_trace. apply stopAll_trace in Ha as [Ha|[(s' & ? & _)|Ha]]; [|done|].
    + apply Hsub in Ha as [?|?]; [by left|right; left; eauto].
    + apply elem_stops_other in Ha as [(? & ? & ? & _)|(? & ?)]; done.
  - apply startsInOrder_app; [done|]. intros g ok Hin. apply elem_of_app in Hin as [Hin|Hin].
    + apply list_elem_of_fmap in Hin as (? & ? & _). done.
    + apply elem_stops_other in Hin as [(? & ? & ? & _)|(? & ?)]; done.
Qed.

(** One gear is initialised; it is recorded when that succeeds. *)
Lemma init_inv m name ok : minv m → m_gears m !! name = None →
  minv (mkManager (if ok : bool then <[name := fresh_ m]> (m_gears m) else m_gears m) (m_subs m) (m_hot m) (m_busSubjects m)
          (closedChans m) (S (fresh_ m)) (trace m ++ [AInit (fresh_ m) name ok])).
Proof.
  intros [Hf Hsf Hc Hh Hg Hs Hsub Hst] Hn.
  assert (∀ a, a ∈ trace m → ¬ mentions (fresh_ m) a) as Hnew.
  { intros a Ha Hm. apply (Hf _ _ Ha) in Hm. lia. }
  split; simpl; try done.
  - intros a n [Ha| ->%list_elem_of_singleton]%elem_of_app Hm; [|simpl in Hm; lia]. pose proof (Hf a n Ha Hm). lia.
  - intros n Hin. apply Hsf in Hin. lia.
  - intros c Hin. apply Hc in Hin. lia.
  - intros nm g Hin. assert (g = fresh_ m ∧ nm = name ∧ ok = true ∨ m_gears m !! nm = Some g) as [(-> & -> & ->)|Hin'].
    { destruct ok; [|by right]. apply lookup_insert_Some in Hin as [[-> <-]|[_ ?]]; [by left|by right]. }
    + split; [set_solver|]. intros [Ha|Ha%list_elem_of_singleton]%elem_of_app; [|done]. by apply (Hnew _ Ha).
    + apply Hg in Hin' as [Hi Hst']. split; [set_solver|]. intros [Ha|Ha%list_elem_of_singleton]%elem_of_app; done.
  - intros nm g [Ha|Ha%list_elem_of_singleton]%elem_of_app.
    + apply Hs in Ha as [?|Hin]; [left; set_solver|right]. destruct ok; [|done].
      rewrite lookup_insert_ne; [done|]. by intros ->; simplify_eq.
    + injection Ha as -> -> <-. right. by rewrite lookup_insert_eq.
  - intros sub s lane [Ha|Ha%list_elem_of_singleton]%elem_of_app; [|done].
    apply Hsub in Ha as [?|?]; [left; set_solver|by right].
  - apply startsInOrder_app; [done|]. intros g k Hin. by apply list_elem_of_singleton in Hin.
Qed.

(** One wire is subscribed; one of the bus gets a channel. *)
Lemma wired_inv m s (lane : bool) : minv m →
  minv (mkManager (m_gears m) (m_subs m ++ [fresh_ m]) (if lane then m_hot m else <[s := S (fresh_ m)]> (m_hot m)) (m_busSubjects m)
          (closedChans m) (S (S (fresh_ m))) (trace m ++ [ASubscribe (fresh_ m) s lane])).
Proof.
  intros [Hf Hsf Hc Hh Hg Hs Hsub Hst].
  assert (∀ k c, (if lane then m_hot m else <[s := S (fresh_ m)]> (m_hot m)) !! k = Some c →
    k = s ∧ c = S (fresh_ m) ∨ m_hot m !! k = Some c) as Hk.
  { intros k c Hin. destruct lane; [by right|]. apply lookup_insert_Some in Hin as [[-> <-]|[_ ?]]; [by left|by right]. }
  split; simpl; try done.
  - intros a n [Ha| ->%list_elem_of_singleton]%elem_of_app Hm; [|simpl in Hm; lia]. pose proof (Hf a n Ha Hm). lia.
  - intros n [Hin|Hin%list_elem_of_singleton]%elem_of_app; [apply Hsf in Hin|]; lia.
  - intros c [Hin|(k & [[_ ->]|Hin]%Hk)]; [| |]; [|lia|]; [pose proof (Hc c (or_introl Hin)); lia|].
    pose proof (Hc c (or_intror (ex_intro _ k Hin))). lia.
  - intros k k' c Hin. pose proof (λ c H, Hc c (or_introl H)) as Hc1. pose proof (λ k c H, Hc c (or_intror (ex_intro _ k H))) as Hc2.
    apply Hk in Hin as [[-> ->]|Hin].
    + split; [intros H%Hc1; lia|]. intros [[-> _]|H%Hc2]%Hk; [done|lia].
    + split; [by apply (Hh k k c Hin)|]. intros [[-> ->]|H]%Hk; [apply Hc2 in Hin; lia|]. by apply (Hh k k' c Hin).
  - intros nm g (Hi & Hst')%Hg. split; [set_solver|]. intros [Ha|Ha%list_elem_of_singleton]%elem_of_app; done.
  - intros nm g [Ha|Ha%list_elem_of_singleton]%elem_of_app; [|done]. apply Hs in Ha as [?|?]; [left; set_solver|by right].
  - intros sub k l' [Ha|Ha%list_elem_of_singleton]%elem_of_app; [|injection Ha as -> -> ->; right; set_solver].
    apply Hsub in Ha as [?|?]; [left|right]; set_solver.
  - apply startsInOrder_app; [done|]. intros g k Hin. by apply list_elem_of_singleton in Hin.
Qed.

(** A gear that is active is started. *)
Lemma start_inv m name g ok : minv m → m_gears m !! name = Some g → minv (record_ [AStart g ok] m).
Proof.
  intros [Hf Hsf Hc Hh Hg Hs Hsub Hst] Hn. apply Hg in Hn as [Hi Hns].
  split; simpl; try done.
  - intros a n [Ha| ->%list_elem_of_singleton]%elem_of_app Hm; [by eapply Hf|]. simpl in Hm. subst g. by apply (Hf _ n Hi).
  - intros nm h (Hi' & Hst')%Hg. split; [set_solver|]. intros [Ha|Ha%list_elem_of_singleton]%elem_of_app; done.
  - intros nm h [Ha|Ha%list_elem_of_singleton]%elem_of_app; [|done]. apply Hs in Ha as [?|?]; [left; set_solver|by right].
  - intros sub k l' [Ha|Ha%list_elem_of_singleton]%elem_of_app; [|done]. apply Hsub in Ha as [?|?]; [left; set_solver|by right].
  - intros l1 h k l2 Heq. destruct (decide (l2 = [])) as [->|Hne].
    + apply app_inj_tail in Heq as [<- [= <- <-]]. eauto.
    + destruct (exists_last Hne) as (l2' & x & ->). rewrite app_comm_cons, app_assoc in Heq.
      apply app_inj_tail in Heq as [Heq _]. by apply (Hst l1 h k l2').
Qed.

Lemma probe_inv m s : minv m → minv (probe s m).
Proof.
  intros H. unfold probe. destruct (m_hot m !! s) as [c|] eqn:E; [|done].
  destruct H as [Hf Hsf Hc Hh Hg Hs Hsub Hst]. split; simpl; try done.
  - intros c' [[->%elem_of_singleton|Hin]%elem_of_union|(k & [_ Hk]%lookup_delete_Some)].
    + apply Hc. eauto.
    + apply Hc. by left.
    + apply Hc. eauto.
  - intros k k' c' [Hne Hk]%lookup_delete_Some. destruct (Hh k k' c' Hk) as [H1 H2]. split.
    + rewrite not_elem_of_union, not_elem_of_singleton. split; [|done]. intros ->. apply Hne. by apply (Hh s k c E).
    + intros [_ Hk']%lookup_delete_Some. by apply H2.
Qed.

(** ** The loops *)

Lemma initGears_inv a l wires m : minv m → NoDup (activeGears (mkScenario l wires) rackName) →
  (∀ n, n ∈ activeGears (mkScenario l wires) rackName → m_gears m !! n = None) → minv (initGears rackName a l m).1.
Proof.
  revert m. induction l as [|g l IH]; intros m Hm Hnd Hnew; [done|]. rewrite activeGears_cons in Hnd, Hnew. simpl.
  destruct (isLocal rackName g); simpl; [|by apply IH].
  destruct (createOk a _); simpl; [|done]. destruct (configOk a _); simpl; [|done].
  apply NoDup_cons in Hnd as [Hnot Hnd].
  pose proof (init_inv m (Name g) (initOk a (Name g)) Hm (Hnew _ (list_elem_of_here _ _))) as Hi.
  destruct (initOk a (Name g)); simpl; [|done]. apply IH; [done|done|].
  intros n Hn. simpl. rewrite lookup_insert_ne by (intros <-; done). apply Hnew. by right.
Qed.

Lemma initGears_ok a l wires m m' : initGears rackName a l m = (m', None) →
  dom (m_gears m') = dom (m_gears m) ∪ list_to_set (activeGears (mkScenario l wires) rackName) ∧
  m_hot m' = m_hot m ∧ m_subs m' = m_subs m.
Proof.
  revert m. induction l as [|g l IH]; intros m H; [simplify_eq/=; set_solver|]. rewrite activeGears_cons. simpl in H.
  destruct (isLocal rackName g); simpl in H; [|by apply IH].
  destruct (createOk a _); simpl in H; [|done]. destruct (configOk a _); simpl in H; [|done].
  destruct (initOk a (Name g)); simpl in H; [|done]. apply IH in H as (Hd & Hh & Hs). simpl in *.
  split; [|done]. rewrite Hd, dom_insert_L. set_solver.
Qed.

Lemma wireUp_inv a sc l m : minv m → minv (wireUp rackName a sc l m).1.
Proof.
  revert m. induction l as [|w l IH]; intros m Hm; [done|]. simpl.
  destruct (consumes _ _ _ _) as [| |s lane]; [by apply IH|done|].
  destruct (negb lane && _); [done|]. apply IH. by apply wired_inv.
Qed.

(** The subjects consumed over the bus by the wires [l]. *)
Definition onBus (a : answers) (sc : Scenario) (l : list WireSpec) (s : string) : Prop :=
  ∃ w, w ∈ l ∧ consumes (isPorted a) sc rackName w = Subscribed s false.

Lemma onBus_cons a sc w l s :
  onBus a sc (w :: l) s ↔ consumes (isPorted a) sc rackName w = Subscribed s false ∨ onBus a sc l s.
Proof.
  unfold onBus. setoid_rewrite elem_of_cons. split.
  - intros (w' & [->|Hw] & Hc); eauto.
  - intros [Hc|(w' & ? & ?)]; eauto.
Qed.

Lemma wireUp_ok a sc l m m' : wireUp rackName a sc l m = (m', None) →
  m_gears m' = m_gears m ∧ (∀ s, is_Some (m_hot m' !! s) ↔ is_Some (m_hot m !! s) ∨ onBus a sc l s).
Proof.
  revert m. induction l as [|w l IH]; intros m H.
  { simplify_eq/=. split; [done|]. intros s. split; [by left|]. intros [?|(w & Hw & _)]; [done|]. inversion Hw. }
  simpl in H. setoid_rewrite onBus_cons. destruct (consumes _ _ _ _) as [| |s lane] eqn:E; [|done|].
  - apply IH in H as [Hg Hh]. split; [done|]. intros k. rewrite Hh. split; [intros [?|?]|intros [?|[?|?]]]; auto; done.
  - destruct (negb lane && _); [done|]. apply IH in H as [Hg Hh]. split; [done|]. intros k. rewrite Hh. simpl.
    assert (is_Some ((if lane then m_hot m else <[s:=S (fresh_ m)]> (m_hot m)) !! k)
      ↔ is_Some (m_hot m !! k) ∨ Subscribed s lane = Subscribed k false) as ->; [|tauto].
    destruct lane; [split; [by left|intros [?|?]; done]|]. destruct (decide (k = s)) as [->|Hne].
    + rewrite lookup_insert_eq. split; eauto.
    + rewrite lookup_insert_ne by done. split; [by left|]. intros [?|?]; [done|congruence].
Qed.

Lemma startGears_inv a l m : minv m → minv (startGears a l m).1.
Proof.
  revert m. induction l as [|n l IH]; intros m Hm; [done|]. simpl. destruct (m_gears m !! n) as [g|] eqn:E; [|by apply IH].
  pose proof (start_inv m n g (startOk a n) Hm E). destruct (startOk a n); simpl; [by apply IH|done].
Qed.

Lemma startGears_ok a l m m' : startGears a l m = (m', None) →
  m_gears m' = m_gears m ∧ (∀ e, e ∈ trace m → e ∈ trace m') ∧
  ∀ n g, n ∈ l → m_gears m !! n = Some g → AStart g true ∈ trace m'.
Proof.
  revert m. induction l as [|n l IH]; intros m H.
  { simplify_eq/=. split_and!; [done|done|]. intros n g Hn. inversion Hn. }
  simpl in H. destruct (m_gears m !! n) as [g|] eqn:E.
  - destruct (startOk a n); [|done]. apply IH in H as (Hg & Ht & Hs). simpl in *. split_and!; [done|set_solver|].
    intros k h [->|Hin]%elem_of_cons Hk; [|by eapply Hs]. simplify_eq. apply Ht. set_solver.
  - apply IH in H as (Hg & Ht & Hs). split_and!; [done|done|].
    intros k h [->|Hin]%elem_of_cons Hk; [congruence|by eapply Hs].
Qed.

(** ** Whole steps *)

Definition idle m : Prop := m_gears m = ∅ ∧ m_subs m = [].

Lemma applyLocked_outcome a sc m m' e : minv m → NoDup (activeGears sc rackName) → applyLocked a sc m = (m', e) →
  minv m' ∧ match e with
            | Some _ => idle m'
            | None => dom (m_gears m') = list_to_set (activeGears sc rackName) ∧
                      ∀ s, is_Some (m_hot m' !! s) ↔ onBus a sc (Wires sc) s
            end.
Proof.
  intros Hm Hnd H. unfold Manager.applyLocked in H.
  set (m0 := mkManager _ _ _ (busEmitSubjects _ _ _) _ _ _) in H.
  assert (minv m0) as H0 by (apply stopAll_inv in Hm as []; by split).
  assert (minv (initGears rackName a (Gears sc) m0).1) as H1.
  { apply (initGears_inv _ _ (Wires sc)); [done|by destruct sc|]. intros n _. by apply lookup_empty. }
  destruct (initGears rackName a (Gears sc) m0) as [m1 [e1|]] eqn:E1; simpl in H1.
  { simplify_eq. split; [by apply stopAll_inv|done]. }
  apply (initGears_ok _ _ (Wires sc)) in E1 as (Hd & Hh & _).
  pose proof (wireUp_inv a sc (Wires sc) m1 H1) as H2.
  destruct (wireUp rackName a sc (Wires sc) m1) as [m2 [e2|]] eqn:E2; simpl in H2; simplify_eq.
  { split; [by apply stopAll_inv|done]. }
  apply wireUp_ok in E2 as [Hg Hs]. split; [done|]. split.
  - rewrite Hg, Hd. destruct sc. simpl. set_solver.
  - intros s. rewrite Hs, Hh. simpl. rewrite lookup_empty. split; [intros [[? ?]|?]; done|by right].
Qed.

Lemma applyStart_outcome a m m' e : minv m → applyStart a m = (m', e) →
  minv m' ∧ match e with
            | Some _ => idle m'
            | None => m_gears m' = m_gears m ∧ ∀ n g, m_gears m' !! n = Some g → AStart g true ∈ trace m'
            end.
Proof.
  intros Hm H. unfold Manager.applyStart in H.
  pose proof (startGears_inv a (range (elements (dom (m_gears m)))) m Hm) as H1.
  destruct (startGears a _ m) as [m1 [e1|]] eqn:E; simpl in H1; simplify_eq; [split; [by apply stopAll_inv|done]|].
  apply startGears_ok in E as (Hg & _ & Hs). split_and!; [done|done|]. intros n g Hn. rewrite Hg in Hn.
  apply (Hs n g); [|done]. rewrite Hrange. apply elem_of_elements. by apply elem_of_dom_2 in Hn.
Qed.

Abbreviation rtSteps := (Manager.rtSteps rackName range).

Definition distinct (e : rtEvent) : Prop :=
  match e with VApply _ sc => NoDup (activeGears sc rackName) | _ => True end.

Lemma rtStep_inv e r r' : minv (mgr r) → distinct e → rtStep rackName range e r = Some r' → minv (mgr r').
Proof.
  intros Hm Hd H. destruct e as [a sc|i|i a|i|s|]; simpl in H.
  - destruct (applyLocked a sc (mgr r)) as [m' err] eqn:E. simplify_eq. simpl.
    by apply (applyLocked_outcome a sc (mgr r) m' err).
  - destruct (calls r !! i) as [[]|]; by simplify_eq.
  - destruct (calls r !! i) as [[]|]; try done. destruct (allClosed _ _); [|done].
    destruct (applyStart a (mgr r)) as [m' err] eqn:E. simplify_eq. simpl. by apply (applyStart_outcome a (mgr r) m' err).
  - destruct (calls r !! i) as [[]|]; try done. case_bool_decide; simplify_eq. simpl. by apply stopAll_inv.
  - simplify_eq. by apply probe_inv.
  - simplify_eq. by apply stopAll_inv.
Qed.

Lemma rtSteps_inv l r r' : minv (mgr r) → Forall distinct l → rtSteps l r = Some r' → minv (mgr r').
Proof.
  revert r. induction l as [|e l IH]; intros r Hm Hd H; simpl in H; [by simplify_eq|].
  apply Forall_cons in Hd as [He Hd]. apply bind_Some in H as (r1 & H1 & H). eapply IH; [|done|done].
  by eapply rtStep_inv.
Qed.

Lemma NewManager_inv : minv NewManager.
Proof.
  split; simpl; try done.
  - intros a n H. inversion H.
  - intros n H. inversion H.
  - intros c [H|(s & H)]; [set_solver|by rewrite lookup_empty in H].
  - intros name g H. inversion H.
  - intros sub s lane H. inversion H.
  - intros l1 g ok l2 H. by destruct l1.
Qed.

Definition fresh : rt := mkRt NewManager [].

(** C28: Under any interleaving of ApplyScenario calls, probes, convergence waits, timeouts
    and shutdowns, of scenarios whose gears on this Rack have distinct names, nothing
    leaks: a gear whose Init succeeded has been stopped or is active under its name, and
    a subscription has been unsubscribed or is held.  A gear is started only after its
    Init succeeded and never after its Stop, and an active gear has not been stopped.  A
    shutdown leaves no gear running and no subscription open. *)
Theorem scenario_lifecycle l r :
  Forall distinct l → rtSteps l fresh = Some r →
  let m := mgr r in
  (∀ g name, AInit g name true ∈ trace m → AStop g ∈ trace m ∨ m_gears m !! name = Some g) ∧
  (∀ sub s lane, ASubscribe sub s lane ∈ trace m → AUnsubscribe sub ∈ trace m ∨ sub ∈ m_subs m) ∧
  startsInOrder (trace m) ∧
  (∀ name g, m_gears m !! name = Some g → AInit g name true ∈ trace m ∧ AStop g ∉ trace m) ∧
  ∀ r', rtStep rackName range VShutdown r = Some r' →
    (∀ g name, AInit g name true ∈ trace (mgr r') → AStop g ∈ trace (mgr r')) ∧
    (∀ sub s lane, ASubscribe sub s lane ∈ trace (mgr r') → AUnsubscribe sub ∈ trace (mgr r')).
Proof.
  intros Hd H. pose proof (rtSteps_inv l fresh r NewManager_inv Hd H) as Hm. cbv zeta.
  pose proof Hm as [_ _ _ _ Hg Hs Hsub Hst]. split_and!; eauto.
  intros r' Hr'. assert (minv (mgr r')) as [_ _ _ _ _ Hs' Hsub' _] by (by apply (rtStep_inv VShutdown r)).
  simpl in Hr'. simplify_eq. split.
  - intros g name Hin. apply Hs' in Hin as [?|Hin]; [done|]. simpl in Hin. by rewrite lookup_empty in Hin.
  - intros sub s lane Hin. apply Hsub' in Hin as [?|Hin]; [done|]. inversion Hin.
Qed.

(** ** One call *)

Definition probes (ps : list string) (m : Manager) : Manager := foldl (λ m s, probe s m) m ps.

Lemma rtSteps_app l1 l2 r : rtSteps (l1 ++ l2) r = rtSteps l1 r ≫= rtSteps l2.
Proof. revert r. induction l1 as [|e l1 IH]; intros r; simpl; [done|]. destruct (rtStep _ _ e r); simpl; [apply IH|done]. Qed.

Lemma rtSteps_probes ps r : rtSteps (VProbe <$> ps) r = Some (mkRt (probes ps (mgr r)) (calls r)).
Proof. revert r. induction ps as [|s ps IH]; intros r; simpl; [by destruct r|]. by rewrite IH. Qed.

(** What probes do to a subject that waits: its channel is closed, or it still waits. *)
Lemma probes_spec ps m : minv m →
  minv (probes ps m) ∧ m_gears (probes ps m) = m_gears m ∧
  (∀ c, c ∈ closedChans m → c ∈ closedChans (probes ps m)) ∧
  ∀ s, m_hot (probes ps m) !! s = (if decide (s ∈ ps) then None else m_hot m !! s) ∧
       ∀ c, s ∈ ps → m_hot m !! s = Some c → c ∈ closedChans (probes ps m).
Proof.
  revert m. induction ps as [|p ps IH]; intros m Hm.
  { split_and!; try done. intros s. split; [by rewrite decide_False by (intros H; inversion H)|]. intros c H. inversion H. }
  simpl. destruct (IH (probe p m) (probe_inv m p Hm)) as (Hi & Hg & Hc & Hs).
  assert (m_gears (probe p m) = m_gears m ∧ (∀ c, c ∈ closedChans m → c ∈ closedChans (probe p m)) ∧
    m_hot (probe p m) = delete p (m_hot m) ∧ ∀ c, m_hot m !! p = Some c → c ∈ closedChans (probe p m)) as (Hg1 & Hc1 & Hh1 & Hp1).
  { unfold probe. destruct (m_hot m !! p) eqn:E; simpl; [|by rewrite delete_id]. set_solver. }
  split_and!; [done|congruence|auto|]. intros s. destruct (Hs s) as [Hs1 Hs2]. fold (probes ps (probe p m)). split.
  - rewrite Hs1, Hh1. destruct (decide (s = p)) as [->|Hne].
    + rewrite lookup_delete_eq, (decide_True (P := p ∈ p :: ps)) by set_solver. by destruct (decide _).
    + rewrite lookup_delete_ne by done. destruct (decide (s ∈ ps)); [by rewrite decide_True by set_solver|].
      by rewrite decide_False by set_solver.
  - intros c [->|Hin]%elem_of_cons Hh; [by apply Hc, Hp1|]. destruct (decide (s = p)) as [->|Hne]; [by apply Hc, Hp1|].
    apply Hs2; [done|]. by rewrite Hh1, lookup_delete_ne.
Qed.

Lemma allClosed_spec pending m : allClosed pending m = true ↔ ∀ s c, pending !! s = Some c → c ∈ closedChans m.
Proof.
  unfold allClosed. rewrite forallb_forall. split.
  - intros H s c Hs. apply elem_of_map_to_list, list_elem_of_In in Hs. apply H in Hs. by apply bool_decide_eq_true in Hs.
  - intros H [s c] Hin. apply bool_decide_eq_true. simpl. apply (H s). by apply elem_of_map_to_list, list_elem_of_In.
Qed.

(** Probes before and after the snapshot: the wait is over when every subject was probed. *)
Lemma converges_iff ps1 ps2 m : minv m →
  allClosed (m_hot (probes ps1 m)) (probes ps2 (probes ps1 m)) = true ↔ ∀ s, is_Some (m_hot m !! s) → s ∈ ps1 ++ ps2.
Proof.
  intros Hm. destruct (probes_spec ps1 m Hm) as (H1 & _ & _ & Hs1).
  destruct (probes_spec ps2 _ H1) as (H2 & _ & _ & Hs2). rewrite allClosed_spec. split.
  - intros H s (c & Hc). rewrite elem_of_app. destruct (decide (s ∈ ps1)) as [|Hn1]; [by left|]. right.
    destruct (decide (s ∈ ps2)) as [|Hn2]; [done|]. exfalso.
    assert (m_hot (probes ps1 m) !! s = Some c) as Hp by (by rewrite (proj1 (Hs1 s)), decide_False).
    assert (m_hot (probes ps2 (probes ps1 m)) !! s = Some c) as Hq by (by rewrite (proj1 (Hs2 s)), decide_False).
    by apply (mi_hot _ H2 s s c Hq), (H s).
  - intros H s c Hp. destruct (decide (s ∈ ps1)) as [Hin|Hn]; rewrite (proj1 (Hs1 s)) in Hp.
    + by rewrite decide_True in Hp.
    + rewrite decide_False in Hp by done. apply (Hs2 s).
      * specialize (H s ltac:(eauto)). apply elem_of_app in H as [|]; done.
      * by rewrite (proj1 (Hs1 s)), decide_False.
Qed.

(** The run of one call that no other call overlaps, up to its last step. *)
Definition call (a : answers) (sc : Scenario) (ps1 ps2 : list string) (i : nat) : list rtEvent :=
  VApply a sc :: (VProbe <$> ps1) ++ VSnap i :: (VProbe <$> ps2).

Lemma call_reaches_wait a sc ps1 ps2 r m :
  applyLocked a sc (mgr r) = (m, None) →
  rtSteps (call a sc ps1 ps2 (length (calls r))) r =
  Some (mkRt (probes ps2 (probes ps1 m)) (calls r ++ [CWait (m_hot (probes ps1 m))])).
Proof.
  intros E. unfold call. simpl. rewrite E. simpl. rewrite rtSteps_app, rtSteps_probes. simpl.
  rewrite list_lookup_middle by done. simpl. rewrite rtSteps_probes. simpl.
  by rewrite insert_app_r_alt, Nat.sub_diag by lia.
Qed.

(** A call of ApplyScenario that no other overlaps, on a Manager in any reachable
    state.  If it fails before it waits, it leaves no active gear and no subscription.
    Otherwise it can proceed past the wait exactly when each subject this Rack consumes
    over the bus has delivered a probe; it then either succeeds, with exactly the
    scenario's gears of this Rack active, all of them started, or fails with nothing left
    active; and giving up the wait leaves nothing active. *)
Theorem apply_outcome l r a a' sc ps1 ps2 :
  Forall distinct l → rtSteps l fresh = Some r → NoDup (activeGears sc rackName) →
  let i := length (calls r) in
  (∀ m e, applyLocked a sc (mgr r) = (m, Some e) → idle m) ∧
  ∀ m, applyLocked a sc (mgr r) = (m, None) →
    ∃ r1, rtSteps (call a sc ps1 ps2 i) r = Some r1 ∧
      (is_Some (rtStep rackName range (VConverged i a') r1) ↔ ∀ s, onBus a sc (Wires sc) s → s ∈ ps1 ++ ps2) ∧
      (∀ r2, rtStep rackName range (VConverged i a') r1 = Some r2 →
         (calls r2 !! i = Some (CDone None) ∧ dom (m_gears (mgr r2)) = list_to_set (activeGears sc rackName) ∧
          ∀ n g, m_gears (mgr r2) !! n = Some g → AStart g true ∈ trace (mgr r2)) ∨
         (∃ e, calls r2 !! i = Some (CDone (Some e)) ∧ idle (mgr r2))) ∧
      (∀ r2, rtStep rackName range (VGiveUp i) r1 = Some r2 →
         calls r2 !! i = Some (CDone (Some EConvergence)) ∧ idle (mgr r2)).
Proof.
  intros Hd H Hnd i. pose proof (rtSteps_inv l fresh r NewManager_inv Hd H) as Hm. split.
  { intros m e E. by apply (applyLocked_outcome a sc (mgr r) m (Some e)). }
  intros m E. pose proof (applyLocked_outcome a sc (mgr r) m None Hm Hnd E) as (Hm1 & Hdom & Hbus).
  eexists. split; [by apply call_reaches_wait|]. set (m1 := probes ps1 m).
  destruct (probes_spec ps1 m Hm1) as (Hp1 & Hg1 & _). destruct (probes_spec ps2 m1 Hp1) as (Hp2 & Hg2 & _).
  simpl. unfold i. rewrite list_lookup_middle by done. split_and!.
  - rewrite <- (forall_proper _ _ (λ s, imp_iff_compat_r _ (Hbus s))), <- (converges_iff ps1 ps2 m Hm1). fold m1.
    destruct (allClosed _ _); [|split; [intros [? ?]|]; done]. destruct (applyStart a' _) as [? ?]. split; eauto.
  - intros r2 Hr. destruct (allClosed _ _); [|done]. destruct (applyStart a' _) as [m2 e] eqn:Es. simplify_eq. simpl.
    apply applyStart_outcome in Es as [_ Hs]; [|done]. rewrite list_lookup_insert_eq by (rewrite length_app; simpl; lia).
    destruct e as [e|]; [right; eauto|left]. destruct Hs as [Hg Hs]. split_and!; [done| |done].
    rewrite Hg, Hg2. unfold m1. by rewrite Hg1.
  - intros r2 Hr. case_bool_decide; simplify_eq. simpl.
    by rewrite list_lookup_insert_eq by (rewrite length_app; simpl; lia).
Qed.
End spec.

(** ** A Rack with two gears and a wire on the guaranteed lane *)
Module ManagerExample.
Definition sc : Scenario :=
  mkScenario [mkGear "src" "io_tcp" (Some "r1"); mkGear "dst" "conductor" (Some "r1"); mkGear "far" "io_tcp" (Some "r2")]
    [mkWire "src.out" "dst.in" LaneGuaranteed].
Definition yes : answers :=
  mkAnswers (λ _, true) (λ _, true) (λ _, true) (λ _, true) (λ _, true) (λ _, true).
Definition subject : string := "flux.msg.r1.src.out".
Definition apply1 : list rtEvent := [VApply yes sc; VProbe subject; VSnap 0; VConverged 0 yes].

Lemma run1 : ∃ r, Manager.rtSteps "r1" id apply1 fresh = Some r ∧ dom (m_gears (mgr r)) = {["src"; "dst"]} ∧
  trace (mgr r) = [AInit 0 "src" true; AInit 1 "dst" true; ASubscribe 2 subject false; AStart 0 true; AStart 1 true].
Proof. eexists. split; [vm_compute; reflexivity|]. split; vm_compute; reflexivity. Qed.

Lemma distinct_sc : NoDup (activeGears sc "r1").
Proof. vm_compute. repeat constructor; set_solver. Qed.

Lemma scenario_lifecycle_witness :
  ∃ r, Manager.rtSteps "r1" id (apply1 ++ [VApply yes sc]) fresh = Some r ∧ AStop 0 ∈ trace (mgr r) ∧ startsInOrder (trace (mgr r)).
Proof.
  eexists. split; [vm_compute; reflexivity|].
  split; [vm_compute; repeat constructor|].
  apply (scenario_lifecycle "r1" id (λ l, reflexivity l) (apply1 ++ [VApply yes sc])).
  - repeat apply Forall_cons_2; first [apply Forall_nil_2 | apply distinct_sc | exact I].
  - vm_compute. reflexivity.
Defined.

Lemma apply_outcome_witness :
  ∃ r1 r2, Manager.rtSteps "r1" id (call yes sc [subject] [] 0) fresh = Some r1 ∧
    Manager.rtStep "r1" id (VConverged 0 yes) r1 = Some r2 ∧ calls r2 !! 0%nat = Some (CDone None) ∧
    (∀ n g, m_gears (mgr r2) !! n = Some g → AStart g true ∈ trace (mgr r2)).
Proof.
  destruct (apply_outcome "r1" id (λ l, reflexivity l) [] fresh yes yes sc [subject] [] (Forall_nil_2 _) eq_refl distinct_sc)
    as [_ Hok].
  destruct (Hok _ eq_refl) as (r1 & Hr1 & _ & Hc & _). vm_compute in Hr1. injection Hr1 as <-.
  do 2 eexists. split; [vm_compute; reflexivity|]. split; [vm_compute; reflexivity|]. split; [vm_compute; reflexivity|].
  edestruct Hc as [(_ & _ & Hs)|(e & He & _)]; [vm_compute; reflexivity|exact Hs|]. vm_compute in He. discriminate He.
Defined.

(** The mutex is not held during the wait, and the waits of two calls may overlap: a call
    that gives up then stops the gears of a later call that has succeeded, and a call
    that proceeds starts the later call's gears a second time. *)
Theorem overlapping_call_stops_gears :
  (∃ r r', Manager.rtSteps "r1" id [VApply yes sc; VSnap 0; VApply yes sc; VSnap 1; VProbe subject; VConverged 1 yes] fresh = Some r ∧
     calls r !! 1%nat = Some (CDone None) ∧ dom (m_gears (mgr r)) = {["src"; "dst"]} ∧
     Manager.rtStep "r1" id (VGiveUp 0) r = Some r' ∧ idle (mgr r')) ∧
  (∃ r l1 l2 l3 g, Manager.rtSteps "r1" id [VApply yes sc; VApply yes sc; VSnap 0; VSnap 1; VProbe subject; VConverged 0 yes; VConverged 1 yes] fresh = Some r ∧
     trace (mgr r) = l1 ++ AStart g true :: l2 ++ AStart g true :: l3 ∧ AStop g ∉ trace (mgr r)).
Proof.
  split.
  - do 2 eexists. split; [vm_compute; reflexivity|]. split; [done|]. split; [vm_compute; reflexivity|].
    split; [vm_compute; reflexivity|done].
  - eexists.
    exists [AInit 0 "src" true; AInit 1 "dst" true; ASubscribe 2 subject false; AUnsubscribe 2; AStop 0; ARelease "src";
            AStop 1; ARelease "dst"; AInit 4 "src" true; AInit 5 "dst" true; ASubscribe 6 subject false],
           [AStart 5 true], [AStart 5 true], 4%nat.
    split; [vm_compute; reflexivity|]. split; [done|]. vm_compute. set_solver.
Qed.
End ManagerExample.
