(* ===== verification/MsgTree.v ===== *)
(** * Message data without sharing

    The data of a message that a codec has just decoded is a tree: no map in it is
    reached by two paths.  On such data [Set] is an update of one path: it changes what
    [Get] reads at that path and at no path that is not comparable with it, and the data
    stays a tree ([setPath_wrote]).  A sequence of writes in the order of its keys then
    leaves each key readable ([setAll_reads]). *)
From Stdlib Require Import Ascii.
From S2P Require Import Prelude FluxMsg.

Section tree.
Implicit Types (h : heap) (v x : val) (l : N) (ps qs : list string).

(** The path [ps] leads from [v] to the object at [l]. *)
Definition reach h v ps l : Prop := ∃ y, descend h v ps = Some y ∧ vloc y = Some l.
Definition unshared h v : Prop := ∀ ps qs l, reach h v ps l → reach h v qs l → ps = qs.

(** Neither path is a prefix of the other. *)
Definition apart ps qs : Prop := ¬ ps `prefix_of` qs ∧ ¬ qs `prefix_of` ps.

Lemma apart_cons p ps qs : apart (p :: ps) (p :: qs) ↔ apart ps qs.
Proof.
  unfold apart. split; intros [H1 H2]; split; intros H; [by apply H1, prefix_cons|by apply H2, prefix_cons| |].
  - apply H1. by apply prefix_cons_inv_2 in H.
  - apply H2. by apply prefix_cons_inv_2 in H.
Qed.

Lemma apart_sym ps qs : apart ps qs → apart qs ps.
Proof. unfold apart. tauto. Qed.

Lemma reach_nil h v l : reach h v [] l ↔ vloc v = Some l.
Proof. unfold reach. simpl. naive_solver. Qed.

Lemma reach_cons h v p ps l : reach h v (p :: ps) l ↔ ∃ y, mapGet h v p = Some y ∧ reach h y ps l.
Proof. unfold reach. simpl. destruct (mapGet h v p); naive_solver. Qed.

Lemma reach_bound h v ps l : ok_heap h → vlt (nxt h) v → reach h v ps l → (l < nxt h)%N.
Proof.
  intros Hok. revert v. induction ps as [|p ps IH]; intros v Hv; [rewrite reach_nil; apply Hv|].
  rewrite reach_cons. intros (y & Hy & Hr). apply (IH y); [|done]. by eapply closed_mapGet; [apply Hok| |].
Qed.

(** A subtree is unshared, disjoint from its siblings and from its parent. *)
Lemma unshared_child h v p y : unshared h v → mapGet h v p = Some y → unshared h y.
Proof.
  intros Hu Hy ps qs l H1 H2. assert (p :: ps = p :: qs) as [=]; [|done].
  apply (Hu _ _ l); apply reach_cons; eauto.
Qed.

Lemma unshared_root h v p ps y l : unshared h v → mapGet h v p = Some y → vloc v = Some l → ¬ reach h y ps l.
Proof.
  intros Hu Hy Hl Hr. assert (p :: ps = []) as [=]. apply (Hu _ _ l); [apply reach_cons; eauto|by apply reach_nil].
Qed.

Lemma unshared_sibling h v p q ps qs y z l : unshared h v → p ≠ q →
  mapGet h v p = Some y → mapGet h v q = Some z → reach h y ps l → ¬ reach h z qs l.
Proof.
  intros Hu Hne Hy Hz H1 H2. assert (p :: ps = q :: qs) as [=]; [|done]. apply (Hu _ _ l); apply reach_cons; eauto.
Qed.

(** What is reachable from a value decides what is read from it. *)
Definition agree h h' v : Prop := ∀ ps l, reach h v ps l → objs h' !! l = objs h !! l.

Lemma agree_mapGet h h' v p : agree h h' v → mapGet h' v p = mapGet h v p.
Proof. intros Ha. apply mapGet_ext. intros l Hl. apply (Ha []). by apply reach_nil. Qed.

Lemma agree_child h h' v p y : agree h h' v → mapGet h v p = Some y → agree h h' y.
Proof. intros Ha Hy ps l Hr. apply (Ha (p :: ps)). apply reach_cons. eauto. Qed.

Lemma agree_descend h h' v ps : agree h h' v → descend h' v ps = descend h v ps.
Proof.
  revert v. induction ps as [|p ps IH]; intros v Ha; [done|]. simpl. rewrite (agree_mapGet h h') by done.
  destruct (mapGet h v p) eqn:E; [|done]. eapply IH, agree_child; eauto.
Qed.

Lemma agree_reach h h' v ps l : agree h h' v → reach h' v ps l → reach h v ps l.
Proof. intros Ha (y & Hy & Hl). exists y. by rewrite <-(agree_descend h h'). Qed.

Lemma agree_getPath h h' v ps : agree h h' v → getPath h' v ps = getPath h v ps.
Proof.
  revert v. induction ps as [|p [|q rest] IH]; intros v Ha; [done|by apply agree_mapGet|].
  rewrite !getPath_cons, (agree_mapGet h h') by done. destruct (mapGet h v p) eqn:E; [|done].
  case_match; [|done]. eapply IH, agree_child; eauto.
Qed.

(** ** One write *)

Record wrote h v ps x h' : Prop := {
  w_ok : ok_heap h';
  w_nxt : (nxt h ≤ nxt h')%N;
  w_rest : metas h' = metas h ∧ msgs h' = msgs h;
  w_frame : ∀ l, (l < nxt h)%N → (∀ qs, ¬ reach h v qs l) → objs h' !! l = objs h !! l;
  w_reach : ∀ qs l, reach h' v qs l → reach h v qs l ∨ (nxt h ≤ l)%N;
  w_unshared : unshared h' v;
  w_get : getPath h' v ps = Some x;
  w_other : ∀ qs, apart ps qs → getPath h' v qs = getPath h v qs;
}.

Lemma mapGet_put_ne h v p x h' q : mapPut h v p x = Some h' → p ≠ q → mapGet h' v q = mapGet h v q.
Proof.
  intros H Hne. destruct v as [| | | | |[l|]|[l|]| |]; simpl in H; break_in H; simpl;
    rewrite ?lookup_insert_eq; repeat case_match; simplify_eq; by rewrite ?lookup_insert_ne by congruence.
Qed.

Lemma leaf_reach h x ps l : vloc x = None → ¬ reach h x ps l.
Proof.
  intros Hx (y & Hy & Hl). destruct ps as [|p ps]; simpl in Hy; [congruence|].
  destruct (mapGet h x p) as [z|] eqn:E; [|done]. apply mapGet_child in E as (? & ? & ? & _). congruence.
Qed.

(** A write at the root's own map. *)
Lemma put_agree h v p x h' q y : ok_heap h → unshared h v → mapPut h v p x = Some h' → mapGet h v q = Some y → agree h h' y.
Proof.
  intros Hok Hu (l & o & o' & Hl & Ho & -> & _)%mapPut_spec Hy ps l' Hr. simpl.
  rewrite lookup_insert_ne; [done|]. intros ->. by eapply unshared_root.
Qed.

Lemma put_wrote h v p x h' : ok_heap h → vlt (nxt h) v → unshared h v → vloc x = None →
  mapPut h v p x = Some h' → wrote h v [p] x h'.
Proof.
  intros Hok Hv Hu Hx Hp. pose proof (mapPut_spec _ _ _ _ _ Hp) as (l & o & o' & Hl & Ho & Hh & _).
  assert (∀ qs l', reach h' v qs l' → reach h v qs l') as Hr.
  { intros [|q qs] l' Hr; [by apply reach_nil; apply reach_nil in Hr|]. apply reach_cons in Hr as (y & Hy & Hr).
    apply reach_cons. destruct (decide (p = q)) as [<-|Hne].
    - rewrite (mapGet_put_eq _ _ _ _ _ Hp) in Hy. simplify_eq. by apply leaf_reach in Hr.
    - rewrite (mapGet_put_ne _ _ _ _ _ _ Hp Hne) in Hy. exists y. split; [done|].
      eapply agree_reach; [|done]. by eapply put_agree. }
  split.
  - eapply mapPut_ok; [done| |done]. intros l' Hl'. congruence.
  - by rewrite Hh.
  - by rewrite Hh.
  - intros l' _ Hn. rewrite Hh. simpl. rewrite lookup_insert_ne; [done|]. intros ->. by apply (Hn []), reach_nil.
  - intros qs l' Hr'. left. by apply Hr.
  - intros ps qs l' H1 H2. by apply (Hu _ _ l'); apply Hr.
  - simpl. by eapply mapGet_put_eq.
  - intros [|q qs] [H1 H2]; [by destruct H2; apply prefix_nil|].
    assert (p ≠ q) as Hne by (intros ->; apply H1; apply prefix_cons, prefix_nil).
    destruct qs as [|q' qs]; [by eapply mapGet_put_ne|]. rewrite !getPath_cons, (mapGet_put_ne _ _ _ _ _ _ Hp Hne).
    destruct (mapGet h v q) as [y|] eqn:Hy; [|done]. case_match; [|done]. eapply agree_getPath. by eapply put_agree.
Qed.

(** Below an entry that exists. *)
Lemma below_agree h v p y ps x h' q z : ok_heap h → vlt (nxt h) v → unshared h v → mapGet h v p = Some y →
  wrote h y ps x h' → p ≠ q → mapGet h v q = Some z → agree h h' z.
Proof.
  intros Hok Hv Hu Hy Hw Hne Hz qs l Hr. apply (w_frame _ _ _ _ _ Hw).
  - eapply (reach_bound h z qs); [done| |done]. by eapply closed_mapGet; [apply Hok| |].
  - intros qs' Hr'. by eapply (unshared_sibling h v p q).
Qed.

Lemma below_wrote h v p y ps x h' : ok_heap h → vlt (nxt h) v → unshared h v → mapGet h v p = Some y → isMap y = true →
  ps ≠ [] → wrote h y ps x h' → wrote h v (p :: ps) x h'.
Proof.
  intros Hok Hv Hu Hy Hmap Hps Hw. pose proof (below_agree h v p y ps x h') as Hag.
  assert (∀ q, mapGet h' v q = mapGet h v q) as Hroot.
  { intros q. apply mapGet_ext. intros l Hl. apply (w_frame _ _ _ _ _ Hw); [by apply Hv|].
    intros qs. by eapply unshared_root. }
  assert (∀ q qs l, p ≠ q → reach h' v (q :: qs) l → reach h v (q :: qs) l) as Hother.
  { intros q qs l Hne (z & Hz & Hr)%reach_cons. apply reach_cons. rewrite Hroot in Hz. exists z.
    split; [done|]. eapply agree_reach; [|done]. by eapply (Hag q z). }
  assert (∀ qs l, reach h' v qs l → reach h v qs l ∨ (nxt h ≤ l)%N ∧ ∃ r, qs = p :: r ∧ reach h' y r l) as Hreach.
  { intros [|q qs] l Hr; [left; by apply reach_nil; apply reach_nil in Hr|].
    destruct (decide (p = q)) as [<-|Hne]; [|left; by apply Hother].
    apply reach_cons in Hr as (z & Hz & Hr). rewrite Hroot, Hy in Hz. simplify_eq.
    destruct (w_reach _ _ _ _ _ Hw _ _ Hr); [left; apply reach_cons; eauto|right; eauto]. }
  destruct ps as [|p2 ps]; [done|]. split; try apply Hw.
  - intros l Hl Hn. apply (w_frame _ _ _ _ _ Hw); [done|]. intros qs Hr. apply (Hn (p :: qs)), reach_cons. eauto.
  - intros qs l [?|[? _]]%Hreach; auto.
  - intros qs1 qs2 l [H1|[Hb1 (r1 & -> & H1)]]%Hreach [H2|[Hb2 (r2 & -> & H2)]]%Hreach.
    + by apply (Hu _ _ l).
    + apply reach_bound in H1; [lia|done|done].
    + apply reach_bound in H2; [lia|done|done].
    + f_equal. by apply (w_unshared _ _ _ _ _ Hw _ _ l).
  - rewrite getPath_cons, Hroot, Hy, Hmap. apply Hw.
  - intros [|q [|q2 qs]] Ha.
    + by destruct Ha as [_ []]; apply prefix_nil.
    + simpl. apply Hroot.
    + rewrite !getPath_cons, Hroot. destruct (mapGet h v q) as [z|] eqn:Hz; [|done]. case_match; [|done].
      destruct (decide (p = q)) as [<-|Hne]; [|apply agree_getPath; by eapply (Hag q z)].
      simplify_eq. apply (w_other _ _ _ _ _ Hw). by apply apart_cons in Ha.
Qed.

(** An entry that is missing is created as an empty map first. *)
Lemma create_spec h v p h2 : ok_heap h → vlt (nxt h) v → unshared h v → mapGet h v p = None →
  mapPut (alloc (OMapS ∅) h).1 v p (VMapS (Some (nxt h))) = Some h2 →
  ok_heap h2 ∧ nxt h2 = (nxt h + 1)%N ∧ (metas h2 = metas h ∧ msgs h2 = msgs h) ∧ unshared h2 v ∧
  mapGet h2 v p = Some (VMapS (Some (nxt h))) ∧
  (∀ l, (l < nxt h)%N → (∀ qs, ¬ reach h v qs l) → objs h2 !! l = objs h !! l) ∧
  (∀ qs l, reach h2 v qs l → reach h v qs l ∨ l = nxt h ∧ qs = [p]) ∧
  (∀ qs, apart [p] qs → getPath h2 v qs = getPath h v qs) ∧
  (∀ q qs, getPath h2 v (p :: q :: qs) = None).
Proof.
  intros Hok Hv Hu Hg Hp. set (h1 := (alloc (OMapS ∅) h).1) in Hp.
  assert (ok_heap h1) as Hok1.
  { apply alloc_ok; [done|]. intros c [k Hk]. by rewrite lookup_empty in Hk. }
  pose proof (mapPut_spec _ _ _ _ _ Hp) as (l & o & o' & Hl & Ho & Hh2 & _). pose proof (Hv l Hl) as Hlb.
  assert (∀ l', (l' < nxt h)%N → l' ≠ l → objs h2 !! l' = objs h !! l') as Hobjs.
  { intros l' Hb Hne. rewrite Hh2. simpl. rewrite lookup_insert_ne by done. rewrite lookup_insert_ne; [done|lia]. }
  assert (∀ q, p ≠ q → mapGet h2 v q = mapGet h v q) as Hroot.
  { intros q Hne. rewrite (mapGet_put_ne _ _ _ _ _ _ Hp Hne). apply mapGet_ext. intros l' Hl'. simpl.
    rewrite lookup_insert_ne; [done|]. specialize (Hv l' Hl'). lia. }
  assert (∀ q z, mapGet h v q = Some z → agree h h2 z) as Hag.
  { intros q z Hz qs l' Hr. apply Hobjs.
    - eapply (reach_bound h z qs); [done| |done]. by eapply closed_mapGet; [apply Hok| |].
    - intros ->. by eapply unshared_root. }
  assert (objs h2 !! nxt h = Some (OMapS ∅)) as Hnew.
  { rewrite Hh2. simpl. rewrite lookup_insert_ne by lia. by rewrite lookup_insert_eq. }
  assert (nxt h2 = (nxt h + 1)%N ∧ metas h2 = metas h ∧ msgs h2 = msgs h) as (Hn2 & Hm2 & Hg2) by (by rewrite Hh2). clear Hh2.
  pose proof (mapGet_put_eq _ _ _ _ _ Hp) as Hentry.
  assert (∀ qs l, reach h2 v qs l → reach h v qs l ∨ l = nxt h ∧ qs = [p]) as Hreach.
  { intros [|q qs] l' Hr; [left; by apply reach_nil; apply reach_nil in Hr|]. apply reach_cons in Hr as (z & Hz & Hr).
    destruct (decide (p = q)) as [<-|Hne].
    - rewrite Hentry in Hz. simplify_eq. destruct qs as [|q qs]; [apply reach_nil in Hr; simplify_eq/=; by right|].
      apply reach_cons in Hr as (y & Hy & _). simpl in Hy. by rewrite Hnew in Hy.
    - left. rewrite Hroot in Hz by done. apply reach_cons. exists z. split; [done|]. eapply agree_reach; [|done]. by eapply Hag. }
  split_and!; [|done|done|done| |done| |done| |].
  - eapply mapPut_ok; [done| |done]. eapply vlt_ref; [done|]. simpl. lia.
  - intros qs1 qs2 l' [H1|[-> ->]]%Hreach [H2|[Hb ->]]%Hreach; [by apply (Hu _ _ l')| | |done].
    + subst l'. apply reach_bound in H1; [lia|done|done].
    + apply reach_bound in H2; [lia|done|done].
  - intros l' Hb Hn. apply Hobjs; [done|]. intros ->. by apply (Hn []), reach_nil.
  - intros [|q [|q2 qs]] [H1 H2].
    + by destruct H2; apply prefix_nil.
    + simpl. apply Hroot. intros ->. by apply H1.
    + assert (p ≠ q) as Hne by (intros ->; apply H1, prefix_cons, prefix_nil).
      rewrite !getPath_cons, Hroot by done. destruct (mapGet h v q) as [z|] eqn:Hz; [|done]. case_match; [|done].
      apply agree_getPath. by eapply Hag.
  - intros q qs. rewrite getPath_cons, Hentry. simpl. destruct qs; simpl; by rewrite Hnew.
Qed.

(** ** A successful [Set] *)
Lemma setPath_wrote h v ps x h' : ok_heap h → vlt (nxt h) v → unshared h v → vloc x = None → ps ≠ [] →
  setPath h v ps x = (SetOk, h') → wrote h v ps x h'.
Proof.
  revert h v. induction ps as [|p [|q rest] IH]; intros h v Hok Hv Hu Hx Hne Hs; [done| |].
  - simpl in Hs. destruct (isMap v); [|done]. destruct (mapPut h v p x) eqn:Hp; simplify_eq. by apply put_wrote.
  - rewrite setPath_cons in Hs. destruct (isMap v); [|done]. destruct (mapGet h v p) as [y|] eqn:Hg.
    + destruct (isMap y) eqn:Hm; [|done]. eapply below_wrote; [done|done|done|done|done|done|].
      apply IH; try done; [by eapply closed_mapGet; [apply Hok| |]|by eapply unshared_child].
    + destruct (alloc (OMapS ∅) h) as [h1 ln] eqn:Ha. pose proof (create_spec h v p) as Hc. rewrite Ha in Hc. simpl in Hc.
      unfold alloc in Ha. injection Ha as _ <-.
      destruct (mapPut h1 v p (VMapS (Some (nxt h)))) as [h2|] eqn:Hp; [|done].
      destruct (Hc h2 Hok Hv Hu Hg eq_refl) as (Hok2 & Hn2 & [Hm2 Hg2] & Hu2 & He2 & Hf2 & Hr2 & Ho2 & Hz2).
      assert (vlt (nxt h2) v) as Hv2 by (intros l Hl; specialize (Hv l Hl); lia).
      assert (wrote h2 v (p :: q :: rest) x h') as [W1 W2 W3 W4 W5 W6 W7 W8].
      { eapply below_wrote; [done|done|done|exact He2|done|done|].
        apply IH; try done; [eapply vlt_ref; [done|lia]|by eapply unshared_child]. }
      split; try done; [lia|destruct W3; split; congruence| | |].
      * intros l Hl Hn. rewrite W4; [by apply Hf2|lia|]. intros qs [?|[-> _]]%Hr2; [by apply (Hn qs)|lia].
      * intros qs l [[?|[-> _]]%Hr2|?]%W5; [by left|right; lia|right; lia].
      * intros qs Ha. rewrite W8 by done. destruct qs as [|r [|r2 qs]]; [by destruct Ha as [_ []]; apply prefix_nil| |].
        -- apply Ho2. split; intros Hpre; apply Ha.
           ++ apply prefix_cons_inv_1 in Hpre as ->. apply prefix_cons, prefix_nil.
           ++ apply prefix_cons_inv_1 in Hpre as ->. apply prefix_cons, prefix_nil.
        -- destruct (decide (p = r)) as [<-|Hner].
           ++ transitivity (None : option val); [apply Hz2|]. by rewrite getPath_cons, Hg.
           ++ apply Ho2. split; intros Hpre; apply prefix_cons_inv_1 in Hpre; congruence.
Qed.

(** A path that is written does not go through a value that is no map. *)
Lemma set_through h v ps p rest x h' y : setPath h v (ps ++ p :: rest) x = (SetOk, h') → ps ≠ [] →
  getPath h v ps = Some y → isMap y = true.
Proof.
  revert v. induction ps as [|r ps IH]; intros v Hs Hne Hg; [done|]. clear Hne. destruct ps as [|r2 ps].
  - simpl app in Hs. rewrite setPath_cons in Hs. simpl in Hg. rewrite Hg in Hs. destruct (isMap v); [|done].
    by destruct (isMap y).
  - change ((r :: r2 :: ps) ++ p :: rest) with (r :: r2 :: (ps ++ p :: rest)) in Hs. rewrite setPath_cons in Hs.
    rewrite getPath_cons in Hg. destruct (isMap v); [|done]. destruct (mapGet h v r) as [z|]; [|done].
    destruct (isMap z) eqn:Hz; [|done]. by apply (IH z).
Qed.
End tree.

(** ** Keys in their order *)

Lemma splitDot_ne s : splitDot s ≠ [].
Proof. destruct s as [|c s]; simpl; [done|]. case_match; [done|]. by case_match. Qed.

(** A prefix in components comes first. *)
Lemma splitDot_prefix a b : splitDot a `prefix_of` splitDot b → strLe a b.
Proof.
  revert b. induction a as [|c a IH]; intros b Hp; [by destruct b|]. pose proof (splitDot_ne a) as Ha.
  destruct b as [|d b]; simpl in Hp.
  - destruct (Ascii.eqb c "."); [|case_match; by apply prefix_cons_inv_1 in Hp].
    apply prefix_cons_inv_2, prefix_nil_inv in Hp. done.
  - pose proof (splitDot_ne b) as Hb. destruct (Ascii.eqb_spec c "."), (Ascii.eqb_spec d "."); subst.
    + apply strLe_cons, IH. by apply prefix_cons_inv_2 in Hp.
    + destruct (splitDot b); by apply prefix_cons_inv_1 in Hp.
    + destruct (splitDot a); by apply prefix_cons_inv_1 in Hp.
    + specialize (IH b). destruct (splitDot a) as [|x xs]; [done|]. destruct (splitDot b) as [|y ys]; [done|].
      pose proof (prefix_cons_inv_1 _ _ _ _ Hp) as [= -> ->]. apply prefix_cons_inv_2 in Hp.
      apply strLe_cons, IH. by apply prefix_cons.
Qed.
