(* ===== verification/Iso20022Spec.v ===== *)
(** * pkg/iso20022/spec: protocol specs of ISO 20022 messages

    [Load] after the YAML is decoded: the checks in their order, every problem reported,
    and the aliases of each message.  The message definitions and the element paths of a
    message come from the wire library (rtp.Lookup, rtp.ElementPaths, which walk the
    types of a third-party library), so they are parameters.  Documentation texts and the
    hash of the document are left out, problems are constructors. *)
From Stdlib Require Import Ascii.
From stdpp Require Import sorting.
From S2P Require Import Prelude FluxMsg Bytes Amount.

(** ** The document *)

Definition UsageMandatory : string := "mandatory".
Definition UsageOptional : string := "optional".
Definition UsageForbidden : string := "forbidden".
Definition WireSource : string := "moov-rtp20022".

Record Message := mkMessage { m_Flow : string; PairsWith : string }.
Record Value := mkValue { v_Name : string; v_Category : string }.
Record ValueSet := mkSet { Closed : bool; Values : gmap string Value }.
Record Format := mkFormat { Kind : string; CurrencyField : string }.
Record MessageRule := mkRule { mr_Message : string; mr_Usage : string }.
Record Field := mkField {
  Alias : string; Scope : string; Sensitivity : string; LogMask : option bool; ValuesRef : string;
  f_Format : Format; Messages : list MessageRule }.
Record Check := mkCheck { ck_Message : list string; ck_Name : string; Assert : string; Severity : string }.

(** [aliases] is the map of aliases to paths, for each message. *)
Record Spec := mkSpec {
  ID : string; Version : string; Wire : string; Catalog : gmap string Message; Enums : gmap string (option ValueSet);
  Fields : gmap string Field; Checks : list Check; Unlisted : string; aliases : gmap string (gmap string string) }.

Record document := mkDocument {
  d_Kind : string; d_ID : string; d_Version : string; d_Source : string; d_Catalog : gmap string Message;
  d_Enums : gmap string (option ValueSet); d_Fields : gmap string Field; d_Checks : list Check; d_Unlisted : string }.

Inductive problem :=
| PKind | PID | PVersion | PWire | PUnlisted | PEmptyCatalog
| PDefinition (id : string) | PPairMissing (id : string) | PPairOneWay (id : string)
| PNowhere (path : string) | PValuesRef (path : string) | PLogMask (path : string) | PSensitivity (path : string)
| PScope (path : string) | PCurrency (path : string) | PFormat (path : string) | PAlias (path m : string)
| PRuleMessage (path m : string) | PRuleUsage (path m : string) | PRuleElement (path m : string)
| PCheckName (i : nat) | PAssert (i : nat) | PSeverity (i : nat) | PCheckMessage (i : nat) (m : string).

(** [versionRe]: three dot-separated runs of digits. *)
Definition isDigits (s : string) : bool := digitsOnly (toBytes s).
Definition versionOk (s : string) : bool :=
  match splitDot s with [a; b; c] => isDigits a && isDigits b && isDigits c | _ => false end.

Definition sensitive (class : string) : bool :=
  bool_decide (class = "pan" ∨ class = "chd" ∨ class = "sad" ∨ class = "pii").

(** [Masked] *)
Definition Masked (f : Field) : bool := match LogMask f with Some b => b | None => sensitive (Sensitivity f) end.

Definition sortedKeys {A} (m : gmap string A) : list string := merge_sort strLe (elements (dom m)).
Definition unless (b : bool) (p : problem) : list problem := if b then [] else [p].

Section load.
Context (Lookup : string → bool) (ElementPaths : string → option (list string)).

(** ** Reading a spec *)

Definition AliasPath (s : Spec) (message alias : string) : option string := default ∅ (aliases s !! message) !! alias.
Definition Aliases (s : Spec) (message : string) : gmap string string := default ∅ (aliases s !! message).

Definition rulesAt (s : Spec) (path : string) : list MessageRule :=
  match Fields s !! path with Some f => Messages f | None => [] end.

Definition Usage (s : Spec) (message path : string) : string :=
  match find (λ r, bool_decide (mr_Message r = message)) (rulesAt s path) with Some r => mr_Usage r | None => Unlisted s end.

(** The paths of a message, none when the library does not know it. *)
Definition pathsOf (message : string) : list string := default [] (ElementPaths message).

Definition InMessage (s : Spec) (message path : string) : bool :=
  match Fields s !! path with
  | None => false
  | Some f =>
      if bool_decide (Messages f = []) then bool_decide (path ∈ pathsOf message)
      else existsb (λ r, bool_decide (mr_Message r = message) && negb (bool_decide (mr_Usage r = UsageForbidden))) (Messages f)
  end.

(** ** The checks *)

Definition checkHeader (s : Spec) : list problem :=
  unless (negb (bool_decide (ID s = ""))) PID ++
  unless (versionOk (Version s)) PVersion ++
  unless (bool_decide (Wire s = WireSource)) PWire ++
  unless (bool_decide (Unlisted s = UsageOptional ∨ Unlisted s = UsageForbidden)) PUnlisted.

Definition checkPair (s : Spec) (id : string) (m : Message) : list problem :=
  if bool_decide (PairsWith m = "") then [] else
  match Catalog s !! PairsWith m with
  | None => [PPairMissing id]
  | Some p => unless (bool_decide (PairsWith p = id)) (PPairOneWay id)
  end.

Definition checkEntry (s : Spec) (id : string) : list problem :=
  match Catalog s !! id with
  | None => []
  | Some m => unless (Lookup id) (PDefinition id) ++ checkPair s id m
  end.

Definition checkCatalog (s : Spec) : list problem :=
  unless (negb (bool_decide (Catalog s = ∅))) PEmptyCatalog ++ concat (checkEntry s <$> sortedKeys (Catalog s)).

Definition usageKnown (u : string) : bool := bool_decide (u = UsageMandatory ∨ u = UsageOptional ∨ u = UsageForbidden).

(** What one rule of the matrix gives: the message, when the field belongs to it. *)
Definition ruleMessage (s : Spec) (path : string) (r : MessageRule) : list string * list problem :=
  if bool_decide (Catalog s !! mr_Message r = None) then ([], [PRuleMessage path (mr_Message r)]) else
  let e := unless (usageKnown (mr_Usage r)) (PRuleUsage path (mr_Message r)) in
  if negb (bool_decide (path ∈ pathsOf (mr_Message r))) then ([], e ++ [PRuleElement path (mr_Message r)])
  else (if bool_decide (mr_Usage r = UsageForbidden) then [] else [mr_Message r], e).

Definition messagesOf (s : Spec) (path : string) (f : Field) : list string * list problem :=
  if bool_decide (Messages f = []) then (filter (λ id, path ∈ pathsOf id) (sortedKeys (Catalog s)), [])
  else (concat ((ruleMessage s path <$> Messages f).*1), concat ((ruleMessage s path <$> Messages f).*2)).

Definition anyMessageHas (s : Spec) (path : string) : bool :=
  existsb (λ id, bool_decide (path ∈ pathsOf id)) (elements (dom (Catalog s))).

Definition formatProblems (s : Spec) (path : string) (f : Format) : list problem :=
  if bool_decide (Kind f = "") then []
  else if bool_decide (Kind f = "amount") then
    unless (bool_decide (CurrencyField f = "") || bool_decide (is_Some (Fields s !! CurrencyField f)) || anyMessageHas s (CurrencyField f))
      (PCurrency path)
  else [PFormat path].

Definition fieldProblems (s : Spec) (path : string) (f : Field) : list problem :=
  (messagesOf s path f).2 ++
  unless (negb (bool_decide ((messagesOf s path f).1 = []))) (PNowhere path) ++
  unless (bool_decide (ValuesRef f = "") || bool_decide (is_Some (Enums s !! ValuesRef f))) (PValuesRef path) ++
  unless (negb (bool_decide (LogMask f = Some false) && sensitive (Sensitivity f))) (PLogMask path) ++
  unless (bool_decide (Sensitivity f ∈ ["" ; "none"; "pii"; "pan"; "chd"; "sad"])) (PSensitivity path) ++
  unless (bool_decide (Scope f ∈ [""; "public"; "private"])) (PScope path) ++
  formatProblems s path (f_Format f).

Abbreviation alias_t := (gmap string (gmap string string)).

(** The loop that names the field in each of its messages. *)
Fixpoint addAliases (path alias : string) (msgs : list string) (al : alias_t) : alias_t * list problem :=
  match msgs with
  | [] => (al, [])
  | m :: msgs =>
      let names := default ∅ (al !! m) in
      if bool_decide (is_Some (names !! alias)) then
        let '(al, e) := addAliases path alias msgs al in (al, PAlias path m :: e)
      else addAliases path alias msgs (<[m := <[alias := path]> names]> al)
  end.

Fixpoint checkFields (s : Spec) (l : list string) (al : alias_t) : alias_t * list problem :=
  match l with
  | [] => (al, [])
  | path :: l =>
      match Fields s !! path with
      | None => checkFields s l al
      | Some f =>
          let '(al, e) := if bool_decide (Alias f = "") then (al, []) else addAliases path (Alias f) (messagesOf s path f).1 al in
          let '(al, e') := checkFields s l al in
          (al, fieldProblems s path f ++ e ++ e')
      end
  end.

Definition checkOne (s : Spec) (i : nat) (c : Check) : list problem :=
  unless (negb (bool_decide (ck_Name c = ""))) (PCheckName i) ++
  unless (negb (bool_decide (TrimSpace (toBytes (Assert c)) = []))) (PAssert i) ++
  unless (bool_decide (Severity c = "reject" ∨ Severity c = "warn")) (PSeverity i) ++
  concat ((λ m, unless (bool_decide (is_Some (Catalog s !! m))) (PCheckMessage i m)) <$> ck_Message c).

Definition checkChecks (s : Spec) : list problem := concat (imap (checkOne s) (Checks s)).

(** [Load] *)
Definition Load (d : document) : list problem + Spec :=
  let unlisted := if bool_decide (d_Unlisted d = "") then UsageOptional else d_Unlisted d in
  let spec := mkSpec (d_ID d) (d_Version d) (d_Source d) (d_Catalog d) (d_Enums d) (d_Fields d) (d_Checks d) unlisted in
  let s := spec ∅ in
  let '(al, e) := checkFields s (sortedKeys (Fields s)) ∅ in
  let errs := unless (bool_decide (d_Kind d = "" ∨ d_Kind d = "protocol")) PKind ++
              checkHeader s ++ checkCatalog s ++ e ++ checkChecks s in
  match errs with [] => inr (spec al) | _ => inl errs end.
End load.

(** ** What a loaded spec promises *)
Section exact.
Context (Lookup : string → bool) (ElementPaths : string → option (list string)).
Abbreviation messagesOf := (messagesOf ElementPaths).
Abbreviation InMessage := (InMessage ElementPaths).

Lemma unless_nil b p : unless b p = [] ↔ b = true.
Proof. by destruct b. Qed.

Lemma concat_nil {A} (l : list (list A)) : concat l = [] ↔ ∀ x, x ∈ l → x = [].
Proof.
  induction l as [|a l IH]; simpl; [split; [intros _ x Hx; inversion Hx|done]|]. rewrite app_nil, IH.
  split; [intros [-> H] x [->|?]%elem_of_cons; auto|]. intros H. split; [apply H; by left|]. intros x Hx. apply H. by right.
Qed.

Lemma elem_concat {A} (l : list (list A)) y : y ∈ concat l ↔ ∃ x, x ∈ l ∧ y ∈ x.
Proof. rewrite list_elem_of_In, in_concat. setoid_rewrite list_elem_of_In. done. Qed.

Lemma elem_sortedKeys {A} (m : gmap string A) k : k ∈ sortedKeys m ↔ is_Some (m !! k).
Proof. unfold sortedKeys. by rewrite merge_sort_Permutation, elem_of_elements, elem_of_dom. Qed.

Lemma NoDup_sortedKeys {A} (m : gmap string A) : NoDup (sortedKeys m).
Proof. unfold sortedKeys. rewrite merge_sort_Permutation. apply NoDup_elements. Qed.

(** The messages a field is named in are the catalog's messages it belongs to. *)
Lemma messagesOf_spec s path f m : Fields s !! path = Some f → (messagesOf s path f).2 = [] →
  m ∈ (messagesOf s path f).1 ↔ is_Some (Catalog s !! m) ∧ InMessage s m path = true.
Proof.
  intros Hf He. unfold Iso20022Spec.messagesOf, Iso20022Spec.InMessage in *. rewrite Hf. case_bool_decide as Hm; simpl in *.
  - rewrite list_elem_of_filter, elem_sortedKeys, bool_decide_eq_true. tauto.
  - rewrite existsb_exists, elem_concat. setoid_rewrite andb_true_iff. setoid_rewrite negb_true_iff.
    setoid_rewrite bool_decide_eq_true. setoid_rewrite bool_decide_eq_false.
    assert (∀ r, r ∈ Messages f → (ruleMessage ElementPaths s path r).2 = []) as Hr.
    { intros r Hr. rewrite concat_nil in He. apply He. rewrite <-list_fmap_compose. by apply (list_elem_of_fmap_2 (snd ∘ _)). }
    assert (∀ r, r ∈ Messages f → is_Some (Catalog s !! mr_Message r) ∧
      (ruleMessage ElementPaths s path r).1 = if bool_decide (mr_Usage r = UsageForbidden) then [] else [mr_Message r]) as Hr'.
    { intros r Hin. specialize (Hr r Hin). unfold ruleMessage in *. case_bool_decide as Hc; [done|].
      case_bool_decide; simpl in *; [|by apply app_nil in Hr as [_ ?]]. split; [|done].
      by apply not_eq_None_Some. }
    rewrite <-list_fmap_compose. split.
    + intros (x & (r & -> & Hin)%list_elem_of_fmap & Hx). destruct (Hr' r Hin) as [Hc E]. simpl in Hx. rewrite E in Hx.
      case_bool_decide; [inversion Hx|]. apply list_elem_of_singleton in Hx as ->. split; [done|].
      exists r. by rewrite <-list_elem_of_In.
    + intros (Hc & r & Hin & Hrm & Hu). rewrite <-list_elem_of_In in Hin. destruct (Hr' r Hin) as [_ E].
      eexists. split; [by apply (list_elem_of_fmap_2 (fst ∘ _))|]. simpl. rewrite E, bool_decide_eq_false_2 by done. subst m. set_solver.
Qed.

Definition named (al : gmap string (gmap string string)) (m a p : string) : Prop := default ∅ (al !! m) !! a = Some p.

Lemma addAliases_spec path alias msgs al al' : addAliases path alias msgs al = (al', []) →
  ∀ m a p, named al' m a p ↔ named al m a p ∨ (m ∈ msgs ∧ a = alias ∧ p = path).
Proof.
  revert al. induction msgs as [|m0 msgs IH]; intros al H m a p; simpl in H.
  { simplify_eq. split; [by left|]. intros [?|[Hm _]]; [done|inversion Hm]. }
  case_bool_decide as Hd; [by destruct (addAliases _ _ _ _)|]. rewrite (IH _ H m a p). unfold named.
  rewrite elem_of_cons. destruct (decide (m = m0)) as [->|Hm].
  - rewrite lookup_insert_eq. simpl. destruct (decide (a = alias)) as [->|Ha].
    + rewrite lookup_insert_eq. apply eq_None_not_Some in Hd. rewrite Hd. naive_solver.
    + rewrite lookup_insert_ne by done. naive_solver.
  - rewrite lookup_insert_ne by done. naive_solver.
Qed.

Lemma checkFields_spec s l al al' : checkFields ElementPaths s l al = (al', []) →
  (∀ path f, path ∈ l → Fields s !! path = Some f → fieldProblems ElementPaths s path f = []) ∧
  ∀ m a p, named al' m a p ↔ named al m a p ∨
    (a ≠ "" ∧ p ∈ l ∧ ∃ f, Fields s !! p = Some f ∧ Alias f = a ∧ m ∈ (messagesOf s p f).1).
Proof.
  revert al. induction l as [|path l IH]; intros al H; simpl in H.
  { simplify_eq. split; [intros ? ? Hin; inversion Hin|]. intros m a p. split; [by left|]. intros [?|(_ & Hp & _)]; [done|inversion Hp]. }
  destruct (Fields s !! path) as [f|] eqn:Hf.
  - destruct (if bool_decide _ then _ else _) as [al1 e] eqn:E1. destruct (checkFields _ s l al1) as [al2 e'] eqn:E2.
    injection H as -> [Hfp [-> ->]%app_nil]%app_nil. destruct (IH _ E2) as [Hm Hn]. split.
    + intros p g [->|Hin]%elem_of_cons Hg; [by simplify_eq|by apply Hm].
    + intros m a p. rewrite Hn.
      assert (named al1 m a p ↔ named al m a p ∨ (a ≠ "" ∧ p = path ∧ Alias f = a ∧ m ∈ (messagesOf s path f).1)) as ->.
      { case_bool_decide as Ha; [simplify_eq; naive_solver|]. rewrite (addAliases_spec _ _ _ _ _ E1). naive_solver. }
      rewrite elem_of_cons. naive_solver.
  - destruct (IH _ H) as [Hm Hn]. split; [intros p g [->|Hin]%elem_of_cons Hg; [congruence|by apply Hm]|].
    intros m a p. rewrite Hn, elem_of_cons. naive_solver.
Qed.

Lemma fieldProblems_nil s path f : fieldProblems ElementPaths s path f = [] →
  (messagesOf s path f).2 = [] ∧ (sensitive (Sensitivity f) = true → Masked f = true).
Proof.
  unfold fieldProblems. intros [Hm [_ [_ [Hl _]%app_nil]%app_nil]%app_nil]%app_nil. split; [done|].
  apply unless_nil, negb_true_iff, andb_false_iff in Hl. intros Hs. unfold Masked.
  destruct (LogMask f) as [[|]|]; [done| |done]. rewrite Hs in Hl. by destruct Hl.
Qed.

Lemma checkCatalog_pairs s id m : checkCatalog Lookup s = [] → Catalog s !! id = Some m → PairsWith m ≠ "" →
  ∃ m', Catalog s !! PairsWith m = Some m' ∧ PairsWith m' = id.
Proof.
  unfold checkCatalog. intros [_ Hcat]%app_nil Hid Hp. rewrite concat_nil in Hcat.
  assert (checkEntry Lookup s id = []) as He.
  { apply Hcat, list_elem_of_fmap. exists id. split; [done|]. apply elem_sortedKeys. by exists m. }
  unfold checkEntry, checkPair in He. rewrite Hid, bool_decide_eq_false_2 in He by done. apply app_nil in He as [_ He].
  destruct (Catalog s !! PairsWith m) as [m'|]; [|done]. exists m'. split; [done|].
  by apply unless_nil, bool_decide_eq_true in He.
Qed.

(** In an ISO 20022 spec that loads, an alias names a path in a message exactly when
    the message is in the catalog, the field at that path has the alias and the field
    belongs to the message, by the per-message matrix or, without one, by the wire
    library's paths; so no two fields of a message share an alias.  The pairs of the
    catalog are mutual, and no field classified as sensitive is logged unmasked. *)
Theorem aliases_exact d s : Load Lookup ElementPaths d = inr s →
  (∀ m a p, AliasPath s m a = Some p ↔
     a ≠ "" ∧ is_Some (Catalog s !! m) ∧ InMessage s m p = true ∧ ∃ f, Fields s !! p = Some f ∧ Alias f = a) ∧
  (∀ id m, Catalog s !! id = Some m → PairsWith m ≠ "" → ∃ m', Catalog s !! PairsWith m = Some m' ∧ PairsWith m' = id) ∧
  (∀ p f, Fields s !! p = Some f → sensitive (Sensitivity f) = true → Masked f = true).
Proof.
  unfold Load. set (s0 := mkSpec _ _ _ _ _ _ _ _ ∅). destruct (checkFields _ s0 _ ∅) as [al e] eqn:E.
  destruct (_ ++ _) eqn:Herr; [|done]. intros [= <-].
  apply app_nil in Herr as [_ [_ [Hcat [-> _]%app_nil]%app_nil]%app_nil].
  split_and!.
  - intros m a p. destruct (checkFields_spec _ _ _ _ E) as [Hm Hn].
    etransitivity; [exact (Hn m a p)|]. rewrite elem_sortedKeys.
    assert (∀ f, Fields s0 !! p = Some f → m ∈ (messagesOf s0 p f).1 ↔ is_Some (Catalog s0 !! m) ∧ InMessage s0 m p = true) as Hf.
    { intros f Hf. apply messagesOf_spec; [done|]. apply fieldProblems_nil, Hm; [|done]. by apply elem_sortedKeys. }
    split.
    + intros [Hx|(Ha & _ & f & Hp & Hal & Hin)]; [unfold named in Hx; rewrite lookup_empty in Hx; done|].
      apply Hf in Hin as [? ?]; [|done]. naive_solver.
    + intros (Ha & Hc & Hi & f & Hp & Hal). right. split; [done|]. split; [by exists f|]. exists f. rewrite Hf by done. done.
  - intros id m. by apply (checkCatalog_pairs s0).
  - intros p f Hp. apply (fieldProblems_nil s0 p). apply (checkFields_spec _ _ _ _ E); [|done]. apply elem_sortedKeys. by exists f.
Qed.
End exact.
