(* ===== verification/Translation.v ===== *)
(** * pkg/translation: translation specs

    [Load] after the YAML is decoded, with every check; [LoadLookups]; [Select]; [Apply]
    on a message in the heap.  A protocol is an interface ([Protocol]); protocol.go has an
    instance for each family, over [Sdl] and [Iso20022Spec].  Resolving and loading a
    referenced spec is a parameter, and so are [fmt.Sprint] of a composite value and what
    [generate] yields (clock, random numbers, the RTP library).  Problems are
    constructors. *)
From Stdlib Require Import Ascii.
From stdpp Require Import sorting.
From S2P Require Import Prelude FluxMsg Clone Keys Bytes Amount Sdl Iso20022Spec.

(** ** protocol.go *)

Record Required := mkRequired { rq_Alias : string; rq_Path : string }.

(** The interface.  Both families name a message in a metadata key ([messageKey]) and
    may carry the name in the data too ([identity]). *)
Record Protocol := mkProtocol {
  p_ID : string; p_Version : string; p_Kind : string;
  HasMessage : string → bool; p_PairsWith : string → string; HasAlias : string → string → bool;
  CurrencyAlias : string → string → option string;
  RequiredOf : string → list Required;
  messageKey : string; identity : option string }.

Definition byPath (a b : Required) : Prop := strLe (rq_Path a) (rq_Path b).
#[export] Instance byPath_dec : RelDecision byPath := λ a b, decide (strLe (rq_Path a) (rq_Path b)).

(** [mtiIn] *)
Definition mtiIn (v : mtiRef) (m : string) : bool :=
  match v with
  | MtiOne c => bool_decide (c = m)
  | MtiList l => existsb (λ i, match i with ItemStr c | ItemOther c => bool_decide (c = m) end) l
  | MtiOther => false
  end.

Definition iso8583Required (sem : Sdl.Spec) (meta : FieldMeta) (m : string) : list Required :=
  merge_sort byPath (concat ((λ kv : Z * FieldDecl,
    if bool_decide (kv.1 = 0%Z) then [] else
    concat ((λ r, if bool_decide (Sdl.Usage r = "mandatory") && bool_decide (mr_When r = "") && mtiIn (mr_MTI r) m
                  then [mkRequired (default "" (Sdl.Aliases meta !! kv.1)) ("iso8583.field." +:+ pretty kv.1)] else [])
            <$> f_Messages kv.2)) <$> map_to_list (Sdl.Fields sem))).

Definition iso8583Currency (sem : Sdl.Spec) (meta : FieldMeta) (amount : string) : option string :=
  de ← IDByAlias meta !! amount; f ← Sdl.Fields sem !! de; cur ← Sdl.CurrencyField f; Sdl.Aliases meta !! cur.

Definition iso8583Protocol (id version : string) (sem : Sdl.Spec) (meta : FieldMeta) : Protocol :=
  mkProtocol id version "iso8583"
    (λ m, bool_decide (is_Some (Sdl.Catalog sem !! m)))
    (λ m, match Sdl.Catalog sem !! m with Some e => Sdl.PairsWith e | None => "" end)
    (λ _ a, bool_decide (is_Some (IDByAlias meta !! a)))
    (λ _ amount, iso8583Currency sem meta amount)
    (iso8583Required sem meta) "iso8583.mti" (Sdl.Aliases meta !! 0%Z).

(** The range over the aliases of a message stops at the first that names the path. *)
Definition iso20022Currency (s : Iso20022Spec.Spec) (m amount : string) : option string :=
  path ← AliasPath s m amount; f ← Iso20022Spec.Fields s !! path;
  let cur := CurrencyField (f_Format f) in
  if bool_decide (cur = "") then None
  else fst <$> find (λ kv : string * string, bool_decide (kv.2 = cur)) (map_to_list (Iso20022Spec.Aliases s m)).

Definition iso20022Required (ElementPaths : string → option (list string)) (s : Iso20022Spec.Spec) (m : string) : list Required :=
  merge_sort byPath (concat ((λ kv : string * Iso20022Spec.Field,
    if bool_decide (Iso20022Spec.Usage s m kv.1 = UsageMandatory) && InMessage ElementPaths s m kv.1 then
      let a := Iso20022Spec.Alias kv.2 in
      [mkRequired (if negb (bool_decide (a = "")) && bool_decide (AliasPath s m a = Some kv.1) then a else "")
                  ("iso20022." +:+ kv.1)]
    else []) <$> map_to_list (Iso20022Spec.Fields s))).

Definition iso20022Protocol (ElementPaths : string → option (list string)) (s : Iso20022Spec.Spec) : Protocol :=
  mkProtocol (Iso20022Spec.ID s) (Iso20022Spec.Version s) "iso20022"
    (λ m, bool_decide (is_Some (Iso20022Spec.Catalog s !! m)))
    (λ m, match Iso20022Spec.Catalog s !! m with Some e => Iso20022Spec.PairsWith e | None => "" end)
    (λ m a, bool_decide (is_Some (AliasPath s m a)))
    (iso20022Currency s)
    (iso20022Required ElementPaths s) "iso20022.message" None.

(** ** translation.go: data *)

Record Binding := mkBinding {
  To : string; From : list string; b_Value : option string; Lookup_ : string; Generate : string;
  Table : string; b_Format : string; Currency : string }.

Record table := mkTable { values : gmap string string; def : option string }.

Abbreviation records_t := (gmap string (gmap string string)).
Record lookup_ := mkLookup { keySpec : string; keyAlias : string; lk_fields : list string; lk_source : string; records : option records_t }.

Record Translation := mkTranslation {
  t_Name : string; FromSpec : string; t_From : string; ToSpec : string; t_To : string; Bindings : list Binding;
  fromProto : option Protocol; toProto : option Protocol }.

Record TSpec := mkTSpec {
  s_ID : string; s_Version : string; s_Hash : string; ParticipantID : string;
  Translations : gmap string Translation; tables : gmap string table; lookups : gmap string lookup_ }.

Record lookupDoc := mkLookupDoc { ld_Key : string; ld_Fields : list string; ld_Source : string }.
Record translationDoc := mkTranslationDoc { td_From : string; td_To : string; td_Bindings : list Binding }.
Record tdocument := mkTDocument {
  td_Kind : string; td_ID : string; td_Version : string; td_Specs : gmap string string; td_Participant : string;
  td_Lookups : gmap string lookupDoc; td_Tables : gmap string (gmap string string);
  td_Translations : gmap string translationDoc }.

Inductive tproblem :=
| QKind | QID | QVersion | QParticipant | QNoSpecs | QSpec (name : string)
| QLookupKey (name : string) | QLookupSource (name : string) | QLookupFields (name : string)
| QFrom (t : string) | QFromMessage (t : string) | QToSpec (t : string) | QToMessage (t : string)
| QNoTo (t : string) (i : nat) | QTwice (t : string) (i : nat) | QToAlias (t : string) (i : nat)
| QFromAlias (t : string) (i : nat) (a : string) | QLookupRef (t : string) (i : nat) | QLookupField (t : string) (i : nat)
| QLookupKeyAlias (t : string) (i : nat) | QGenerate (t : string) (i : nat) | QInstrID (t : string) (i : nat)
| QSources (t : string) (i : nat) | QTable (t : string) (i : nat) | QStrayCurrency (t : string) (i : nat)
| QAmount (t : string) (i : nat) | QCurrencyAlias (t : string) (i : nat) | QNoCurrency (t : string) (i : nat) | QFormat (t : string) (i : nat)
| QPairing (t : string).

Definition ensure (b : bool) (p : tproblem) : list tproblem := if b then [] else [p].

(** [strings.Cut(s, sep)] with a separator of one byte. *)
Fixpoint Cut (sep : ascii) (s : string) : string * string * bool :=
  match s with
  | EmptyString => ("", "", false)
  | String c s' =>
      if Ascii.eqb c sep then ("", s', true)
      else let '(a, b, ok) := Cut sep s' in (String c a, b, ok)
  end.

Definition splitRef (ref : string) : string * string := let '(spec, msg, _) := Cut ":" ref in (spec, msg).

(** [participantRe]: 11 upper-case letters or digits. *)
Definition participantOk (s : string) : bool :=
  bool_decide (String.length s = 11%nat) &&
  forallb (λ b, ((65 <=? b) && (b <=? 90) || (48 <=? b) && (b <=? 57))%Z) (toBytes s).

(** ** The checks *)

Section load.
Context (lookups_ : gmap string lookup_) (tables_ : gmap string table) (participant : string).

Definition lookupProblems (t : Translation) (fp : Protocol) (i : nat) (b : Binding) : list tproblem :=
  let '(name, field, ok) := Cut "." (Lookup_ b) in
  match lookups_ !! name, ok with
  | Some l, true =>
      if negb (bool_decide (field ∈ lk_fields l)) then [QLookupField (t_Name t) i]
      else ensure (bool_decide (keySpec l = FromSpec t) && HasAlias fp (t_From t) (keyAlias l)) (QLookupKeyAlias (t_Name t) i)
  | _, _ => [QLookupRef (t_Name t) i]
  end.

Definition generateProblems (t : Translation) (tp : Protocol) (i : nat) (g : string) : list tproblem :=
  if bool_decide (g = "now" ∨ g = "today" ∨ g = "uuid") then []
  else if bool_decide (g = "instr_id") then
    ensure (bool_decide (p_Kind tp = "iso20022") && negb (bool_decide (participant = ""))) (QInstrID (t_Name t) i)
  else [QGenerate (t_Name t) i].

(** How many of from, value, lookup and generate are given. *)
Definition kinds (b : Binding) : nat :=
  (if bool_decide (From b = []) then 0 else 1) + (if bool_decide (b_Value b = None) then 0 else 1) +
  (if bool_decide (Lookup_ b = "") then 0 else 1) + (if bool_decide (Generate b = "") then 0 else 1).

Definition formatProblems (t : Translation) (fp tp : Protocol) (i : nat) (b : Binding) : list tproblem :=
  if bool_decide (b_Format b = "") then ensure (bool_decide (Currency b = "")) (QStrayCurrency (t_Name t) i)
  else if bool_decide (b_Format b = "amount") then
    (if bool_decide (length (From b) ≠ 1%nat) || bool_decide (Currency b = "") then [QAmount (t_Name t) i]
     else ensure (HasAlias fp (t_From t) (Currency b)) (QCurrencyAlias (t_Name t) i)) ++
    ensure (bool_decide (is_Some (CurrencyAlias tp (t_To t) (To b)))) (QNoCurrency (t_Name t) i)
  else [QFormat (t_Name t) i].

Definition bindingProblems (t : Translation) (fp tp : Protocol) (seen : list string) (i : nat) (b : Binding) : list tproblem :=
  if bool_decide (To b = "") then [QNoTo (t_Name t) i] else
  ensure (negb (bool_decide (To b ∈ seen))) (QTwice (t_Name t) i) ++
  ensure (HasAlias tp (t_To t) (To b)) (QToAlias (t_Name t) i) ++
  concat ((λ f, ensure (HasAlias fp (t_From t) f) (QFromAlias (t_Name t) i f)) <$> From b) ++
  (if bool_decide (Lookup_ b = "") then [] else lookupProblems t fp i b) ++
  (if bool_decide (Generate b = "") then [] else generateProblems t tp i (Generate b)) ++
  ensure (bool_decide (kinds b = 1%nat)) (QSources (t_Name t) i) ++
  ensure (bool_decide (Table b = "") || bool_decide (is_Some (tables_ !! Table b))) (QTable (t_Name t) i) ++
  formatProblems t fp tp i b.

Fixpoint bindingsProblems (t : Translation) (fp tp : Protocol) (seen : list string) (i : nat) (l : list Binding) : list tproblem :=
  match l with
  | [] => []
  | b :: l =>
      bindingProblems t fp tp seen i b ++
      bindingsProblems t fp tp (if bool_decide (To b = "") then seen else To b :: seen) (S i) l
  end.

Definition checkTranslation (t : Translation) : list tproblem :=
  match fromProto t with
  | None => [QFrom (t_Name t)]
  | Some fp => ensure (HasMessage fp (t_From t)) (QFromMessage (t_Name t))
  end ++
  match toProto t with
  | None => [QToSpec (t_Name t)]
  | Some tp => ensure (HasMessage tp (t_To t)) (QToMessage (t_Name t))
  end ++
  match fromProto t, toProto t with
  | Some fp, Some tp => bindingsProblems t fp tp [] 1 (Bindings t)
  | _, _ => []
  end.
End load.

(** [checkPairing]; the two ranges are over maps, so the order of the problems is not
    fixed. *)
Definition pairProblems (a b : Translation) : list tproblem :=
  match fromProto a, toProto a with
  | Some fp, Some tp =>
      let srcPair := p_PairsWith fp (t_From a) in let dstPair := p_PairsWith tp (t_To a) in
      if bool_decide (srcPair = "") || bool_decide (dstPair = "") then [] else
      if bool_decide (FromSpec b = ToSpec a) && bool_decide (ToSpec b = FromSpec a) &&
         bool_decide (t_From b = dstPair) && negb (bool_decide (t_To b = srcPair)) then [QPairing (t_Name b)] else []
  | _, _ => []
  end.

Definition checkPairing (ts : gmap string Translation) : list tproblem :=
  let l := (map_to_list ts).*2 in concat ((λ a, concat (pairProblems a <$> l)) <$> l).

Definition makeTable (vals : gmap string string) : table := mkTable (delete "default" vals) (vals !! "default").

Definition makeLookup (name : string) (l : lookupDoc) : option lookup_ :=
  let '(spec, alias, ok) := Cut ":" (ld_Key l) in
  if ok : bool then Some (mkLookup spec alias (ld_Fields l) (ld_Source l) None) else None.

Definition lookupDocProblems (name : string) (l : lookupDoc) : list tproblem :=
  match makeLookup name l with
  | None => [QLookupKey name]
  | Some _ => ensure (negb (bool_decide (ld_Source l = ""))) (QLookupSource name) ++
              ensure (negb (bool_decide (ld_Fields l = []))) (QLookupFields name)
  end.

Definition makeTranslation (protocols : gmap string Protocol) (name : string) (raw : translationDoc) : Translation :=
  let '(fs, fm) := splitRef (td_From raw) in let '(ts, tm) := splitRef (td_To raw) in
  mkTranslation name fs fm ts tm (td_Bindings raw) (protocols !! fs) (protocols !! ts).

(** What a loop over the sorted keys of a map reports. *)
Definition eachKey {A} (m : gmap string A) (f : string → A → list tproblem) : list tproblem :=
  concat ((λ k, match m !! k with Some a => f k a | None => [] end) <$> sortedKeys m).

(** [Load]; [loadSpec] resolves a reference and loads the protocol spec, [hash] is that of
    the content. *)
Definition Load (loadSpec : string → option Protocol) (hash : string) (d : tdocument) : list tproblem + TSpec :=
  let protocols := omap loadSpec (td_Specs d) in
  let tables_ := makeTable <$> td_Tables d in
  let lookups_ := map_imap makeLookup (td_Lookups d) in
  let translations := map_imap (λ name raw, Some (makeTranslation protocols name raw)) (td_Translations d) in
  let errs :=
    ensure (bool_decide (td_Kind d = "translation")) QKind ++
    ensure (negb (bool_decide (td_ID d = ""))) QID ++
    ensure (versionOk (td_Version d)) QVersion ++
    ensure (bool_decide (td_Participant d = "") || participantOk (td_Participant d)) QParticipant ++
    ensure (negb (bool_decide (td_Specs d = ∅))) QNoSpecs ++
    eachKey (td_Specs d) (λ name ref, ensure (bool_decide (is_Some (loadSpec ref))) (QSpec name)) ++
    eachKey (td_Lookups d) lookupDocProblems ++
    eachKey translations (λ _ t, checkTranslation lookups_ tables_ (td_Participant d) t) ++
    checkPairing translations in
  match errs with
  | [] => inr (mkTSpec (td_ID d) (td_Version d) hash (td_Participant d) translations tables_ lookups_)
  | _ => inl errs
  end.

(** [LoadLookups]: [None] is an error, a source that does not resolve or decode or a
    record with a field that is not declared.  The records of an empty document are nil. *)
Definition recordsOk (l : lookup_) (recs : records_t) : bool :=
  forallb (λ kr : string * gmap string string, forallb (λ f, bool_decide (f ∈ lk_fields l)) (elements (dom kr.2))) (map_to_list recs).

Definition withRecords (l : lookup_) (recs : option records_t) : lookup_ :=
  mkLookup (keySpec l) (keyAlias l) (lk_fields l) (lk_source l) recs.

Fixpoint loadLookups (resolve : string → option (option records_t)) (names : list string) (ls : gmap string lookup_) : option (gmap string lookup_) :=
  match names with
  | [] => Some ls
  | name :: names =>
      match ls !! name with
      | None => loadLookups resolve names ls
      | Some l =>
          recs ← resolve (lk_source l);
          if recordsOk l (default ∅ recs) then loadLookups resolve names (<[name := withRecords l recs]> ls) else None
      end
  end.

Definition LoadLookups (resolve : string → option (option records_t)) (s : TSpec) : option TSpec :=
  ls ← loadLookups resolve (sortedKeys (lookups s)) (lookups s);
  Some (mkTSpec (s_ID s) (s_Version s) (s_Hash s) (ParticipantID s) (Translations s) (tables s) ls).

(** [References] of a decoded document. *)
Definition References (d : tdocument) : option (list string) :=
  if bool_decide (td_Kind d = "translation") then
    Some (omap (λ n, td_Specs d !! n) (sortedKeys (td_Specs d)) ++
          filter (λ src, src ≠ "") (omap (λ n, ld_Source <$> td_Lookups d !! n) (sortedKeys (td_Lookups d))))
  else None.

(** ** Messages *)

(** [msg.Metadata[k] = v]; the map is not nil where the code writes it. *)
Definition putMeta (h : heap) (m : FluxMsg) (k v : string) : heap :=
  match Metadata m with Some l => setMetas (alter (λ mm, <[k := v]> mm) l (metas h)) h | None => h end.

Definition getMeta (h : heap) (m : FluxMsg) (k : string) : string := default "" (readMeta h (Metadata m) !! k).

(** The maps of the message exist: nil ones are made. *)
Definition ensureMeta (h : heap) (l : N) (m : FluxMsg) : heap * FluxMsg :=
  match Metadata m with
  | Some _ => (h, m)
  | None => let '(h, mm) := allocMeta ∅ h in let m := setMetadata (Some mm) m in (setMsgs (<[l := m]> (msgs h)) h, m)
  end.

Definition ensureData (h : heap) (l : N) (m : FluxMsg) : heap * FluxMsg :=
  match Data m with
  | Some _ => (h, m)
  | None => let '(h, d) := alloc (OMapS ∅) h in let m := setData (Some d) m in (setMsgs (<[l := m]> (msgs h)) h, m)
  end.

Definition ensureMaps (h : heap) (l : N) (m : FluxMsg) : heap * FluxMsg :=
  let '(h, m) := ensureMeta h l m in ensureData h l m.

(** ** Select *)

Inductive selected := Selected (t : Translation) | NotInSpec | AutoMatches (n : nat) | SelectPanic.

Definition SourceMessage (h : heap) (m : FluxMsg) (p : Protocol) : string := getMeta h m (messageKey p).

Definition matching (h : heap) (m : FluxMsg) (s : TSpec) : list Translation :=
  filter (λ t, (λ p, bool_decide (SourceMessage h m p = t_From t)) <$> fromProto t = Some true) (map_to_list (Translations s)).*2.

Definition Select (s : TSpec) (name : string) (h : heap) (m : FluxMsg) : selected :=
  if negb (bool_decide (name = "")) && negb (bool_decide (name = "auto")) then
    match Translations s !! name with Some t => Selected t | None => NotInSpec end
  else if existsb (λ t, negb (bool_decide (is_Some (fromProto t)))) (map_to_list (Translations s)).*2 then SelectPanic
  else match matching h m s with [t] => Selected t | l => AutoMatches (length l) end.

(** ** Apply *)

Inductive applyErr := EBindLookup (name : string) | EBindTable (name v : string) | EBindAmount (e : amountErr)
| EWrite (alias : string).

(** What a binding yields: a value, nothing, an error, or a nil dereference. *)
Inductive bound := BValue (v : string) | BNothing | BError (e : applyErr) | BPanic.

Section apply.
Context (sprint : heap → val → string) (generated : Binding → string).
Context (s : TSpec).

Definition readString (h : heap) (m : FluxMsg) (key : string) : string :=
  match Get h m key with
  | None | Some VNil | Some (VMapS _) | Some (VMapA _) => ""
  | Some (VBytes b) => sprint h (VBytes b)
  | Some v => FieldToKeyPart sprint h v
  end.

(** [strings.Join(parts, "/")] *)
Fixpoint joinSlash (l : list string) : string :=
  match l with [] => "" | [x] => x | x :: l => x +:+ "/" +:+ joinSlash l end.

Definition sourced (h : heap) (m : FluxMsg) (b : Binding) : bound :=
  match b_Value b with
  | Some v => BValue v
  | None =>
      if negb (bool_decide (From b = [])) then
        match filter (λ x, x ≠ "") (readString h m <$> From b) with [] => BNothing | parts => BValue (joinSlash parts) end
      else if negb (bool_decide (Lookup_ b = "")) then
        let '(name, field, _) := Cut "." (Lookup_ b) in
        match lookups s !! name with
        | None => BPanic
        | Some l =>
            match records l with
            | None => BError (EBindLookup name)
            | Some recs =>
                match recs !! readString h m (keyAlias l) with
                | None => BNothing
                | Some rec => let v := default "" (rec !! field) in if bool_decide (v = "") then BNothing else BValue v
                end
            end
        end
      else if bool_decide (Generate b ∈ ["instr_id"; "now"; "today"; "uuid"]) then BValue (generated b)
      else BValue ""
  end.

Definition value (h : heap) (m : FluxMsg) (b : Binding) : bound :=
  match sourced h m b with
  | BValue v =>
      if bool_decide (Table b = "") then BValue v else
      let tb := default (mkTable ∅ None) (tables s !! Table b) in
      match values tb !! v, def tb with
      | Some out, _ => BValue out
      | None, Some d => BValue d
      | None, None => BError (EBindTable (Table b) v)
      end
  | r => r
  end.

(** The writes of one binding, from the message as it arrived. *)
Definition bind1 (t : Translation) (tp : Protocol) (h : heap) (m : FluxMsg) (b : Binding) (writes : gmap string string) : applyErr + option (gmap string string) :=
  match value h m b with
  | BPanic => inr None
  | BError e => inl e
  | BNothing => inr (Some writes)
  | BValue v =>
      if bool_decide (b_Format b = "amount") then
        match convertAmount (toBytes v) (toBytes (readString h m (Currency b))) (p_Kind tp) with
        | inl e => inl (EBindAmount e)
        | inr (amount, cur) =>
            let writes := match CurrencyAlias tp (t_To t) (To b) with Some ca => <[ca := toString cur]> writes | None => writes end in
            inr (Some (<[To b := toString amount]> writes))
        end
      else inr (Some (<[To b := v]> writes))
  end.

(** [inr None] is a panic. *)
Fixpoint bindAll (t : Translation) (tp : Protocol) (h : heap) (m : FluxMsg) (l : list Binding) (writes : gmap string string) : applyErr + option (gmap string string) :=
  match l with
  | [] => inr (Some writes)
  | b :: l => match bind1 t tp h m b writes with inr (Some writes) => bindAll t tp h m l writes | r => r end
  end.

Inductive wres := WOk | WConflict (alias : string) | WPanic.

Fixpoint writeAll (h : heap) (m : FluxMsg) (l : list (string * string)) : wres * heap :=
  match l with
  | [] => (WOk, h)
  | (alias, v) :: l =>
      match Set_ h m alias (VStr v) with
      | (SetOk, h) => writeAll h m l
      | (SetConflict _, h) => (WConflict alias, h)
      | (SetPanic, h) => (WPanic, h)
      end
  end.

Definition sortedWrites (writes : gmap string string) : list (string * string) :=
  omap (λ k, (λ v, (k, v)) <$> writes !! k) (sortedKeys writes).

(** [SetMessage]; the result of the write to the data is ignored, a panic is not. *)
Definition SetMessage (h : heap) (m : FluxMsg) (p : Protocol) (message : string) : heap * bool :=
  let h := putMeta h m (messageKey p) message in
  match identity p with
  | None => (h, true)
  | Some a => match Set_ h m a (VStr message) with (SetPanic, h) => (h, false) | (_, h) => (h, true) end
  end.

(** The metadata written after a translation. *)
Definition stamp (t : Translation) (tp : Protocol) (h : heap) (m : FluxMsg) : heap :=
  let h := if bool_decide (p_Kind tp = "iso20022") && negb (bool_decide (ParticipantID s = ""))
           then putMeta h m "iso20022.participant_id" (ParticipantID s) else h in
  let h := putMeta h m "translate.spec_id" (s_ID s) in
  let h := putMeta h m "translate.spec_version" (s_Version s) in
  let h := putMeta h m "translate.spec_hash" (s_Hash s) in
  putMeta h m "translate.name" (t_Name t).

Definition specFinding (t : Translation) (fp : Protocol) (h : heap) (m : FluxMsg) : list string :=
  let id := getMeta h m "codec.spec_id" in let v := getMeta h m "codec.spec_version" in
  if negb (bool_decide (id = "")) && (negb (bool_decide (id = p_ID fp)) || negb (bool_decide (v = p_Version fp)))
  then ["the message was decoded with " +:+ id +:+ " " +:+ v +:+ "; translation " +:+ t_Name t +:+ " is for " +:+ p_ID fp +:+ " " +:+ p_Version fp]
  else [].

Definition satisfied (h : heap) (m : FluxMsg) (r : Required) : bool :=
  negb (bool_decide (rq_Alias r = "")) && negb (bool_decide (readString h m (rq_Alias r) = "")) ||
  negb (bool_decide (readString h m (rq_Path r) = "")).

Definition missing (t : Translation) (r : Required) : string :=
  (if bool_decide (rq_Alias r = "") then rq_Path r else rq_Alias r) +:+ " is required in " +:+ t_To t +:+
  " and empty after translation " +:+ t_Name t.

Inductive applied := Applied (findings : list string) | Failed (e : applyErr) | ApplyPanic.

Definition Apply (t : Translation) (h : heap) (l : N) (m : FluxMsg) : applied * heap * FluxMsg :=
  let '(h, m) := ensureMaps h l m in
  match fromProto t, toProto t with
  | Some fp, Some tp =>
      let findings := specFinding t fp h m in
      match bindAll t tp h m (Bindings t) ∅ with
      | inl e => (Failed e, h, m)
      | inr None => (ApplyPanic, h, m)
      | inr (Some writes) =>
          match writeAll h m (sortedWrites writes) with
          | (WPanic, h) => (ApplyPanic, h, m)
          | (WConflict a, h) => (Failed (EWrite a), h, m)
          | (WOk, h) =>
              let '(h, ok) := SetMessage h m tp (t_To t) in
              if negb ok then (ApplyPanic, h, m) else
              let h := stamp t tp h m in
              (Applied (merge_sort strLe (findings ++ (missing t <$> filter (λ r, satisfied h m r = false) (RequiredOf tp (t_To t))))), h, m)
          end
      end
  | _, _ => (ApplyPanic, h, m)
  end.
End apply.

(** ** The translate gear *)

Record gear := mkGear {
  g_name : string; g_spec : TSpec; g_translation : string; g_validation : string; g_onError : string }.

(** The configuration's entries that are strings. *)
Record gearConfig := mkConfig { c_spec_path : option string; c_translation : option string; c_validation : option string; c_on_error : option string }.

Definition stringOr (v : option string) (def : string) : string :=
  match v with Some x => if bool_decide (x = "") then def else x | None => def end.

Inductive initErr := IMissingSpec | ISpec | ITranslation | IValidation | IOnError.

(** [Init]; [loadRef] resolves and loads a translation spec with its lookups. *)
Definition Init (loadRef : string → option TSpec) (name : string) (cfg : gearConfig) : initErr + gear :=
  let ref := default "" (c_spec_path cfg) in
  if bool_decide (ref = "") then inl IMissingSpec else
  match loadRef ref with
  | None => inl ISpec
  | Some s =>
      let t := stringOr (c_translation cfg) "auto" in
      if negb (bool_decide (t = "auto")) && negb (bool_decide (is_Some (Translations s !! t))) then inl ITranslation else
      let v := stringOr (c_validation cfg) "off" in
      if negb (bool_decide (v = "off" ∨ v = "warn" ∨ v = "enforce")) then inl IValidation else
      let e := stringOr (c_on_error cfg) "drop" in
      if negb (bool_decide (e = "drop" ∨ e = "reject" ∨ e = "kill")) then inl IOnError
      else inr (mkGear name s t v e)
  end.

(** Forwarded, dropped, emitted on the error port, returned with its error, or a panic. *)
Inductive outcome := Forward | Drop | Reject | Kill | Panicked.
Inductive processErr := ESelect (e : selected) | EApply (e : applyErr) | EViolation (findings : list string).

(** [strings.Join(l, "; ")] *)
Fixpoint joinSemi (l : list string) : string :=
  match l with [] => "" | [x] => x | x :: l => x +:+ "; " +:+ joinSemi l end.

Section process.
Context (sprint : heap → val → string) (generated : Binding → string) (errText : processErr → string).

Definition ReasonViolation : string := "violation".
Definition ReasonFailed : string := "translation_failed".

(** What becomes of a message that failed. *)
Definition failWith (g : gear) (reason : string) (e : processErr) (h : heap) (m : FluxMsg) : outcome * heap * FluxMsg :=
  if bool_decide (g_onError g = "drop") then (Drop, h, m)
  else if bool_decide (g_onError g = "reject") then
    (Reject, putMeta (putMeta (putMeta h m "error.reason" reason) m "error.gear" (g_name g)) m "error.message" (errText e), m)
  else (Kill, h, m).

Definition Process (g : gear) (h : heap) (l : N) (m : FluxMsg) : outcome * heap * FluxMsg :=
  let '(h, m) := ensureMaps h l m in
  match Select (g_spec g) (g_translation g) h m with
  | SelectPanic => (Panicked, h, m)
  | Selected t =>
      match Apply sprint generated (g_spec g) t h l m with
      | (ApplyPanic, h, m) => (Panicked, h, m)
      | (Failed e, h, m) => failWith g ReasonFailed (EApply e) h m
      | (Applied findings, h, m) =>
          if bool_decide (g_validation g = "off") || bool_decide (findings = []) then (Forward, h, m) else
          let h := putMeta h m "translate.violations" (joinSemi findings) in
          if bool_decide (g_validation g = "enforce") then failWith g ReasonViolation (EViolation findings) h m else (Forward, h, m)
      end
  | e => failWith g ReasonFailed (ESelect e) h m
  end.
End process.

(** [isHex] and [isStoreRef]; [exists_] says whether a file has the name. *)
Definition isHex (s : string) : bool :=
  (32 <=? String.length s)%nat && forallb (λ b, ((48 <=? b) && (b <=? 57) || (97 <=? b) && (b <=? 102))%Z) (toBytes s).

Definition hasSuffix (suf s : string) : bool :=
  let n := String.length s in let k := String.length suf in
  (k <=? n)%nat && bool_decide (String.substring (n - k) k s = suf).

Definition isStoreRef (exists_ : string → bool) (ref : string) : bool :=
  if existsb (λ b, (b =? 47) || (b =? 92))%Z (toBytes ref) || hasSuffix ".yaml" ref || hasSuffix ".yml" ref then false
  else if exists_ ref then false
  else existsb (λ b, (b =? 58))%Z (toBytes ref) || isHex ref.
