(* ===== verification/TranslationSpec.v ===== *)
(** * What a translation does to a message

    On a message whose data is a tree ([MsgTree]), a translation that succeeds has
    written each binding's value, computed from the message as it arrived, and has left
    every other field alone; one that fails before it writes has changed nothing. *)
From Stdlib Require Import Ascii.
From stdpp Require Import sorting.
From S2P Require Import Prelude FluxMsg MsgTree Clone Keys Bytes Amount Sdl Iso20022Spec Translation.

Abbreviation root m := (VMapS (Data m)).

(** ** Writing in the order of the keys *)

Lemma splitDot_inj a b : splitDot a = splitDot b → a = b.
Proof. intros E. apply (anti_symm strLe); apply splitDot_prefix; by rewrite E. Qed.

Lemma strict_prefix a b : splitDot a `prefix_of` splitDot b → a ≠ b → ∃ p rest, splitDot b = splitDot a ++ p :: rest.
Proof.
  intros [[|p rest] E] Hne; [|eauto]. rewrite app_nil_r in E. by apply splitDot_inj in E.
Qed.

(** A later key of the order leaves an earlier one readable, when both are written. *)
Lemma set_keeps h m q s k x h' : ok_heap h → vlt (nxt h) (root m) → unshared h (root m) → vloc x = None →
  Set_ h m k x = (SetOk, h') → strLe q k → q ≠ k → Get h m q = Some (VStr s) → Get h' m q = Some (VStr s).
Proof.
  intros Hok Hv Hu Hx Hs Hle Hne Hg. unfold Set_, Get in *.
  pose proof (setPath_wrote _ _ _ _ _ Hok Hv Hu Hx (splitDot_ne k) Hs) as Hw.
  rewrite (w_other _ _ _ _ _ Hw); [done|]. split; intros Hp.
  - apply Hne, (anti_symm strLe); [done|]. by apply splitDot_prefix.
  - apply strict_prefix in Hp as (p & rest & E); [|done]. rewrite E in Hs.
    by apply (set_through _ _ _ _ _ _ _ _ Hs (splitDot_ne q)) in Hg.
Qed.

Record wroteAll h m (l : list (string * string)) h' : Prop := {
  wa_ok : ok_heap h';
  wa_nxt : (nxt h ≤ nxt h')%N;
  wa_unshared : unshared h' (root m);
  wa_rest : metas h' = metas h ∧ msgs h' = msgs h;
  wa_reads : ∀ k v, (k, v) ∈ l → Get h' m k = Some (VStr v);
  wa_keeps : ∀ q s, Get h m q = Some (VStr s) → (∀ k, k ∈ l.*1 → strLe q k ∧ q ≠ k) → Get h' m q = Some (VStr s);
  wa_other : ∀ q, (∀ k, k ∈ l.*1 → apart (splitDot k) (splitDot q)) → Get h' m q = Get h m q;
}.

Lemma writeAll_wrote h m l h' : ok_heap h → vlt (nxt h) (root m) → unshared h (root m) →
  StronglySorted strLe l.*1 → NoDup l.*1 → writeAll h m l = (WOk, h') → wroteAll h m l h'.
Proof.
  revert h. induction l as [|[k v] l IH]; intros h Hok Hv Hu Hsort Hnd Hw.
  { simpl in Hw. simplify_eq. split; try done. intros k v H. inversion H. }
  simpl in Hw. destruct (Set_ h m k (VStr v)) as [[| |] h1] eqn:Hs; try done.
  pose proof (setPath_wrote _ _ _ (VStr v) _ Hok Hv Hu eq_refl (splitDot_ne k) Hs) as [O1 N1 R1 _ _ U1 G1 X1].
  simpl in Hsort, Hnd. apply StronglySorted_inv in Hsort as [Hsort Hle]. apply NoDup_cons in Hnd as [Hk Hnd].
  rewrite Forall_forall in Hle.
  destruct (IH h1) as [O2 N2 U2 R2 G2 K2 X2]; try done; [intros d Hd; specialize (Hv d Hd); lia|].
  assert (∀ k', k' ∈ l.*1 → strLe k k' ∧ k ≠ k') as Hlater.
  { intros k' Hin. split; [by apply Hle|]. by intros ->. }
  split; try done; [lia|destruct R1, R2; split; congruence| | |].
  - intros k' v' [[= -> ->]|Hin]%elem_of_cons; [|by apply G2]. by apply K2.
  - intros q s Hq Hall. apply K2.
    + destruct (Hall k) as [??]; [by left|]. by eapply (set_keeps h m q s k (VStr v)).
    + intros k' Hin. apply Hall. by right.
  - intros q Hall. rewrite X2 by (intros k' Hin; apply Hall; by right). apply X1. apply Hall. by left.
Qed.

Lemma merge_sort_nil (l : list string) : merge_sort strLe l = [] ↔ l = [].
Proof.
  split; intros H; [|by subst].  apply Permutation_nil_r. rewrite <-H. symmetry. apply merge_sort_Permutation.
Qed.

Lemma filter_nil_iff {A} (P : A → Prop) `{∀ x, Decision (P x)} (l : list A) : filter P l = [] ↔ ∀ x, x ∈ l → ¬ P x.
Proof.
  split.
  - intros Hf x Hx Hp. assert (x ∈ filter P l) as Hin by (by apply list_elem_of_filter). rewrite Hf in Hin. inversion Hin.
  - intros Hall. destruct (filter P l) as [|x r] eqn:E; [done|]. assert (x ∈ filter P l) as Hin by (rewrite E; by left).
    apply list_elem_of_filter in Hin as [Hp Hx]. by destruct (Hall x Hx).
Qed.

Lemma fmap_nil_iff {A B} (f : A → B) l : f <$> l = [] ↔ l = [].
Proof. by destruct l. Qed.

Lemma sortedWrites_elem w k v : (k, v) ∈ sortedWrites w ↔ w !! k = Some v.
Proof.
  unfold sortedWrites. rewrite list_elem_of_omap. split.
  - intros (k' & _ & H). apply fmap_Some in H as (v' & Hv & [= -> ->]). done.
  - intros Hv. exists k. split; [apply elem_sortedKeys; eauto|]. by rewrite Hv.
Qed.

Lemma sortedWrites_keys w : (sortedWrites w).*1 = sortedKeys w.
Proof.
  unfold sortedWrites. assert (∀ k, k ∈ sortedKeys w → is_Some (w !! k)) as Hin by (intros k; by rewrite elem_sortedKeys).
  induction (sortedKeys w) as [|k l IH]; [done|]. simpl. destruct (Hin k) as [v Hv]; [by left|]. rewrite Hv. simpl.
  f_equal. apply IH. intros k' Hk'. apply Hin. by right.
Qed.

Lemma sortedWrites_wrote h m w h' : ok_heap h → vlt (nxt h) (root m) → unshared h (root m) →
  writeAll h m (sortedWrites w) = (WOk, h') → wroteAll h m (sortedWrites w) h'.
Proof.
  intros. apply writeAll_wrote; try done; rewrite sortedWrites_keys.
  - apply (StronglySorted_merge_sort strLe).
  - apply NoDup_sortedKeys.
Qed.

(** ** Metadata *)

Lemma putMeta_effect h m k v l : ok_heap h → Metadata m = Some l → is_Some (metas h !! l) →
  ok_heap (putMeta h m k v) ∧ objs (putMeta h m k v) = objs h ∧ msgs (putMeta h m k v) = msgs h ∧ nxt (putMeta h m k v) = nxt h ∧
  is_Some (metas (putMeta h m k v) !! l) ∧ readMeta (putMeta h m k v) (Metadata m) = <[k := v]> (readMeta h (Metadata m)).
Proof.
  intros [O1 O2 O3 O4 O5] Hm [mm Hmm]. unfold putMeta, readMeta. rewrite Hm. simpl.
  rewrite lookup_alter_eq, Hmm. simpl. split_and!; try done.
  split; simpl; try done.
  - intros l' m'. rewrite lookup_alter_Some. intros [(<- & x & ? & _)|[_ ?]]; by eapply O3.
  - intros l' m' Hl'. destruct (O5 l' m' Hl') as [H1 H2]. split; [done|]. intros d Hd.
    destruct (decide (l = d)) as [<-|Hne]; [rewrite lookup_alter_eq, Hmm; by eexists|rewrite lookup_alter_ne by done; auto].
Qed.

(** The metadata after a translation. *)
Definition stamped (s : TSpec) (t : Translation) (tp : Protocol) (mm : gmap string string) : gmap string string :=
  let mm := if bool_decide (p_Kind tp = "iso20022") && negb (bool_decide (ParticipantID s = ""))
            then <["iso20022.participant_id" := ParticipantID s]> mm else mm in
  <["translate.name" := t_Name t]> (<["translate.spec_hash" := s_Hash s]>
    (<["translate.spec_version" := s_Version s]> (<["translate.spec_id" := s_ID s]> mm))).

Record stampedBy (f : gmap string string → gmap string string) h m h' : Prop := {
  sb_ok : ok_heap h'; sb_objs : objs h' = objs h; sb_msgs : msgs h' = msgs h; sb_nxt : nxt h' = nxt h;
  sb_some : ∀ l, Metadata m = Some l → is_Some (metas h' !! l);
  sb_meta : readMeta h' (Metadata m) = f (readMeta h (Metadata m)) }.

Lemma putMeta_stamped f h0 m h k v : is_Some (Metadata m) → stampedBy f h0 m h →
  stampedBy (λ mm, <[k := v]> (f mm)) h0 m (putMeta h m k v).
Proof.
  intros [l Hl] [S1 S2 S3 S4 S5 S6]. destruct (putMeta_effect h m k v l S1 Hl (S5 l Hl)) as (P1 & P2 & P3 & P4 & P5 & P6).
  split; try congruence; intros; simplify_eq; done.
Qed.

Lemma stamp_spec s t tp h m : ok_heap h → is_Some (Metadata m) → (∀ l, Metadata m = Some l → is_Some (metas h !! l)) →
  stampedBy (stamped s t tp) h m (stamp s t tp h m).
Proof.
  intros Hok Hm Hs. unfold stamp, stamped. cbv zeta. do 4 (apply (putMeta_stamped (λ mm, _)); [done|]).
  assert (stampedBy id h m h) as H0 by (by split).
  destruct (_ && _); [|done]. by apply (putMeta_stamped id).
Qed.

(** ** One binding *)
Section apply.
Context (sprint : heap → val → string) (generated : Binding → string) (s : TSpec).
Abbreviation value := (Translation.value sprint generated s).
Abbreviation readString := (Translation.readString sprint).
Abbreviation bind1 := (Translation.bind1 sprint generated s).
Abbreviation bindAll := (Translation.bindAll sprint generated s).
Abbreviation Apply := (Translation.Apply sprint generated s).

(** The aliases a binding may write. *)
Definition targetsOf (tp : Protocol) (t : Translation) (b : Binding) : list string :=
  To b :: (if bool_decide (b_Format b = "amount") then option_list (CurrencyAlias tp (t_To t) (To b)) else []).
Definition targets (tp : Protocol) (t : Translation) (l : list Binding) : list string := concat (targetsOf tp t <$> l).

(** The binding's value, from the message as it arrived, is what [read] gives. *)
Definition bindsTo (tp : Protocol) (t : Translation) h m (read : string → option string) (b : Binding) : Prop :=
  match value h m b with
  | BNothing => True
  | BValue v =>
      if bool_decide (b_Format b = "amount") then
        ∃ amount cur, convertAmount (toBytes v) (toBytes (readString h m (Currency b))) (p_Kind tp) = inr (amount, cur) ∧
          read (To b) = Some (toString amount) ∧
          ∀ ca, CurrencyAlias tp (t_To t) (To b) = Some ca → read ca = Some (toString cur)
      else read (To b) = Some v
  | BError _ | BPanic => False
  end.

Lemma bindsTo_mono tp t h m (read read' : string → option string) b :
  (∀ k v, k ∈ targetsOf tp t b → read k = Some v → read' k = Some v) → bindsTo tp t h m read b → bindsTo tp t h m read' b.
Proof.
  unfold bindsTo, targetsOf. intros He. destruct (value h m b); try done. case_bool_decide.
  - intros (a & c & Hc & Ha & Hcur). exists a, c. split; [done|]. split; [apply He; [by left|done]|].
    intros ca Hca. apply He; [|by apply Hcur]. rewrite Hca. right. by left.
  - apply He. by left.
Qed.

Lemma bind1_spec tp t h m b w w' : NoDup (targetsOf tp t b) → bind1 t tp h m b w = inr (Some w') →
  (∀ k, k ∉ targetsOf tp t b → w' !! k = w !! k) ∧ (∀ k, is_Some (w' !! k) → is_Some (w !! k) ∨ k ∈ targetsOf tp t b) ∧
  bindsTo tp t h m (λ k, w' !! k) b.
Proof.
  unfold Translation.bind1, bindsTo, targetsOf. intros Hnd H. destruct (value h m b) as [v| | |]; simplify_eq; [|by auto].
  case_bool_decide as Hf.
  - destruct (convertAmount _ _ _) as [|[amount cur]]; [done|]. injection H as <-. split_and!.
    + intros k Hk. destruct (CurrencyAlias tp (t_To t) (To b)) as [ca|]; simpl in *; rewrite !lookup_insert_ne by set_solver; done.
    + intros k Hk. destruct (CurrencyAlias tp (t_To t) (To b)) as [ca|]; simpl in *; rewrite ?lookup_insert_is_Some in Hk; set_solver.
    + exists amount, cur. split; [done|]. rewrite lookup_insert_eq. split; [done|]. intros ca Hca. rewrite Hca in *. simpl in Hnd.
      apply NoDup_cons in Hnd as [Hne _]. rewrite lookup_insert_ne by set_solver. by rewrite lookup_insert_eq.
  - injection H as <-. split_and!; [|intros k Hk; rewrite lookup_insert_is_Some in Hk; set_solver|by rewrite lookup_insert_eq].
    intros k Hk. rewrite lookup_insert_ne by set_solver. done.
Qed.

Lemma bindAll_spec tp t h m l w w' : NoDup (targets tp t l) → bindAll t tp h m l w = inr (Some w') →
  (∀ k, k ∉ targets tp t l → w' !! k = w !! k) ∧ (∀ k, is_Some (w' !! k) → is_Some (w !! k) ∨ k ∈ targets tp t l) ∧
  ∀ b, b ∈ l → bindsTo tp t h m (λ k, w' !! k) b.
Proof.
  revert w. induction l as [|b l IH]; intros w Hnd H; simpl in H.
  { simplify_eq. split_and!; try done; [by left|]. intros b Hb. inversion Hb. }
  change (targets tp t (b :: l)) with (targetsOf tp t b ++ targets tp t l) in *. apply NoDup_app in Hnd as (Hb & Hdisj & Hnd).
  destruct (bind1 t tp h m b w) as [|[w1|]] eqn:E; try done. apply bind1_spec in E as (E1 & E2 & E3); [|done].
  destruct (IH w1 Hnd H) as (I1 & I2 & I3). split_and!.
  - intros k Hk. rewrite elem_of_app in Hk. rewrite I1, E1 by tauto. done.
  - intros k [Hk|Hk]%I2; rewrite elem_of_app; [apply E2 in Hk|]; tauto.
  - intros b' [->|Hin]%elem_of_cons; [|by apply I3]. eapply bindsTo_mono; [|exact E3].
    intros k v Hk <-. apply I1. by apply Hdisj.
Qed.

(** ** A whole translation *)

(** A message whose maps exist. *)
Record whole h (m : FluxMsg) : Prop := {
  wh_ok : ok_heap h;
  wh_meta : ∃ l, Metadata m = Some l ∧ is_Some (metas h !! l);
  wh_data : ∃ d, Data m = Some d ∧ (d < nxt h)%N;
  wh_tree : unshared h (root m) }.

Lemma whole_vlt h m : whole h m → vlt (nxt h) (root m).
Proof. intros [_ _ (d & Hd & Hlt) _] l Hl. simpl in Hl. congruence. Qed.

Lemma ensureMaps_whole h l m : whole h m → ensureMaps h l m = (h, m).
Proof. intros [_ (ml & Hm & _) (d & Hd & _) _]. unfold ensureMaps, ensureMeta, ensureData. by rewrite Hm, Hd. Qed.

Lemma unshared_objs h h' v : objs h' = objs h → unshared h v → unshared h' v.
Proof.
  intros He Hu ps qs l H1 H2. assert (agree h h' v) as Ha by (intros ? ? _; by rewrite He).
  apply (Hu ps qs l); by eapply agree_reach.
Qed.

(** A conflict changes nothing. *)
Lemma setPath_fresh h l ps x : (l < nxt h)%N → objs h !! l = Some (OMapS ∅) → ps ≠ [] → (setPath h (VMapS (Some l)) ps x).1 = SetOk.
Proof.
  revert h l. induction ps as [|p [|q rest] IH]; intros h l Hb Hl Hne; [done| |].
  - simpl. by rewrite Hl.
  - rewrite setPath_cons. simpl isMap. unfold mapGet. rewrite Hl, lookup_empty. cbn [alloc mapPut objs].
    rewrite lookup_insert_ne, Hl by lia. apply IH; [simpl; lia| |done]. simpl. rewrite lookup_insert_ne by lia. by rewrite lookup_insert_eq.
Qed.

Lemma setPath_conflict h v ps x p h' : ok_heap h → vlt (nxt h) v → setPath h v ps x = (SetConflict p, h') → h' = h.
Proof.
  revert h v. induction ps as [|r [|q rest] IH]; intros h v Hok Hv H; [done| |].
  - simpl in H. destruct (isMap v); [|by simplify_eq]. by destruct (mapPut h v r x).
  - rewrite setPath_cons in H. destruct (isMap v); [|by simplify_eq]. destruct (mapGet h v r) as [y|] eqn:Hg.
    + destruct (isMap y); [|by simplify_eq]. eapply IH; [done| |done]. by eapply closed_mapGet; [apply Hok| |].
    + cbn [alloc] in H. destruct (mapPut _ v r _) as [h2|] eqn:Hp; [|done]. exfalso.
      apply mapPut_spec in Hp as (lv & o & o' & Hlv & Ho & -> & _). specialize (Hv lv Hlv).
      match type of H with setPath ?h2 _ _ _ = _ => pose proof (setPath_fresh h2 (nxt h) (q :: rest) x) as Hf end.
      rewrite H in Hf. simpl in Hf. discriminate Hf; [lia| |done].
      rewrite lookup_insert_ne by lia. by rewrite lookup_insert_eq.
Qed.

(** What stands in the way of a write leaves nothing to read at its path. *)
Lemma setPath_conflict_get h v ps x p h' : ok_heap h → vlt (nxt h) v → setPath h v ps x = (SetConflict p, h') → getPath h v ps = None.
Proof.
  intros Hok Hv H. pose proof (setPath_conflict _ _ _ _ _ _ Hok Hv H) as ->. revert v Hv H.
  assert (∀ v k, isMap v = false → mapGet h v k = None) as Hnm by (by intros []).
  induction ps as [|r [|q rest] IH]; intros v Hv H; [done| |].
  - simpl in *. destruct (isMap v) eqn:Ev; [by destruct (mapPut h v r x)|by apply Hnm].
  - rewrite getPath_cons. rewrite setPath_cons in H. destruct (isMap v) eqn:Ev; [|by rewrite Hnm].
    destruct (mapGet h v r) as [y|] eqn:Hg; [|done]. destruct (isMap y); [|done]. apply IH; [|done]. by eapply closed_mapGet; [apply Hok| |].
Qed.

(** [SetMessage] names the message in the metadata and writes at most the identity alias. *)
Lemma SetMessage_spec h m p message h' : whole h m → SetMessage h m p message = (h', true) →
  ok_heap h' ∧ (∀ l, Metadata m = Some l → is_Some (metas h' !! l)) ∧
  readMeta h' (Metadata m) = <[messageKey p := message]> (readMeta h (Metadata m)) ∧
  (∀ q, (∀ a, identity p = Some a → apart (splitDot a) (splitDot q)) → Get h' m q = Get h m q) ∧
  ∀ a, identity p = Some a → Get h' m a = Some (VStr message) ∨ Get h' m a = None.
Proof.
  intros Hw H. pose proof Hw as [Hok (l & Hl & Hm) Hd Ht]. unfold SetMessage in H.
  destruct (putMeta_effect h m (messageKey p) message l Hok Hl Hm) as (P1 & P2 & P3 & P4 & P5 & P6).
  set (h1 := putMeta h m (messageKey p) message) in *.
  assert (∀ q, Get h1 m q = Get h m q) as Hget by (intros q; by apply getPath_objs).
  assert (vlt (nxt h1) (root m)) as Hv by (rewrite P4; by apply whole_vlt).
  destruct (identity p) as [a|]; [|simplify_eq; split_and!; auto; [intros ? ?; by simplify_eq|done]].
  unfold Set_ in H. destruct (setPath h1 (root m) (splitDot a) (VStr message)) as [[| |] h2] eqn:E; simplify_eq.
  - pose proof (setPath_wrote _ _ _ (VStr message) _ P1 Hv (unshared_objs _ _ _ P2 Ht) eq_refl (splitDot_ne a) E) as [W1 _ [W2 _] _ _ _ W4 W3].
    rewrite <-W2 in P5. split_and!; [done|intros ? ?; by simplify_eq| | |].
    + rewrite <-P6. unfold readMeta. by rewrite W2.
    + intros q Hq. rewrite <-Hget. apply W3. by apply Hq.
    + intros a' [= <-]. by left.
  - pose proof (setPath_conflict_get _ _ _ _ _ _ P1 Hv E) as Hno. apply setPath_conflict in E as ->; [|done|done].
    split_and!; auto; intros ? ?; simplify_eq; [done|by right].
Qed.

Lemma specFinding_nil t fp h m : specFinding t fp h m = [] ↔
  getMeta h m "codec.spec_id" = "" ∨ getMeta h m "codec.spec_id" = p_ID fp ∧ getMeta h m "codec.spec_version" = p_Version fp.
Proof. unfold specFinding. repeat case_bool_decide; naive_solver. Qed.

End apply.

(** ** What loads *)

Section load.
Implicit Types (b : Binding) (t : Translation) (fp tp : Protocol).

(** A binding has one source, and every name in it is declared. *)
Record bindingOk (ls : gmap string lookup_) (ts : gmap string table) (participant : string) t fp tp b : Prop := {
  bo_to : To b ≠ "" ∧ HasAlias tp (t_To t) (To b) = true;
  bo_from : ∀ f, f ∈ From b → HasAlias fp (t_From t) f = true;
  bo_lookup : Lookup_ b ≠ "" → ∃ name field l, Cut "." (Lookup_ b) = (name, field, true) ∧ ls !! name = Some l ∧
    field ∈ lk_fields l ∧ keySpec l = FromSpec t ∧ HasAlias fp (t_From t) (keyAlias l) = true;
  bo_generate : Generate b ≠ "" → Generate b ∈ ["now"; "today"; "uuid"] ∨
    Generate b = "instr_id" ∧ p_Kind tp = "iso20022" ∧ participant ≠ "";
  bo_one : kinds b = 1%nat;
  bo_table : Table b ≠ "" → is_Some (ts !! Table b);
  bo_format : b_Format b = "" ∧ Currency b = "" ∨
    b_Format b = "amount" ∧ length (From b) = 1%nat ∧ Currency b ≠ "" ∧ HasAlias fp (t_From t) (Currency b) = true ∧
    is_Some (CurrencyAlias tp (t_To t) (To b)) }.

Definition translationOk ls ts participant t : Prop :=
  ∃ fp tp, fromProto t = Some fp ∧ toProto t = Some tp ∧ HasMessage fp (t_From t) = true ∧ HasMessage tp (t_To t) = true ∧
    NoDup (To <$> Bindings t) ∧ ∀ b, b ∈ Bindings t → bindingOk ls ts participant t fp tp b.

(** A translation of the reply to a translated request goes back to the request's reply. *)
Definition pairingOk (ts : gmap string Translation) : Prop :=
  ∀ na a nb (b : Translation) fp tp, ts !! na = Some a → ts !! nb = Some b → fromProto a = Some fp → toProto a = Some tp →
    p_PairsWith fp (t_From a) ≠ "" → p_PairsWith tp (t_To a) ≠ "" →
    FromSpec b = ToSpec a → ToSpec b = FromSpec a → t_From b = p_PairsWith tp (t_To a) → t_To b = p_PairsWith fp (t_From a).

Lemma ensure_nil c p : ensure c p = [] ↔ c = true.
Proof. by destruct c. Qed.

Lemma eachKey_nil {A} (m : gmap string A) f : eachKey m f = [] ↔ ∀ k a, m !! k = Some a → f k a = [].
Proof.
  unfold eachKey. rewrite concat_nil. split.
  - intros H k a Hk. specialize (H (f k a)). apply H, list_elem_of_fmap. exists k. rewrite Hk. split; [done|]. apply elem_sortedKeys. eauto.
  - intros H x (k & -> & _)%list_elem_of_fmap. destruct (m !! k) as [a|] eqn:E; [by apply H|done].
Qed.

Lemma lookupProblems_nil ls t fp i b : lookupProblems ls t fp i b = [] ↔
  ∃ name field l, Cut "." (Lookup_ b) = (name, field, true) ∧ ls !! name = Some l ∧
    field ∈ lk_fields l ∧ keySpec l = FromSpec t ∧ HasAlias fp (t_From t) (keyAlias l) = true.
Proof.
  unfold lookupProblems. destruct (Cut "." (Lookup_ b)) as [[name field] ok]. split.
  - destruct (ls !! name) as [l|] eqn:E, ok; try done. case_bool_decide; [|done]. simpl.
    rewrite ensure_nil, andb_true_iff, bool_decide_eq_true. intros [? ?]. by exists name, field, l.
  - intros (n & f & l & [= <- <- ->] & -> & Hf & Hk & Ha). rewrite bool_decide_eq_true_2 by done. simpl.
    by rewrite Ha, bool_decide_eq_true_2.
Qed.

Lemma generateProblems_nil participant t tp i g : generateProblems participant t tp i g = [] ↔
  g ∈ ["now"; "today"; "uuid"] ∨ g = "instr_id" ∧ p_Kind tp = "iso20022" ∧ participant ≠ "".
Proof.
  unfold generateProblems. rewrite !elem_of_cons. case_bool_decide as H1; [naive_solver|].
  case_bool_decide as H2.
  - rewrite ensure_nil, andb_true_iff, negb_true_iff, bool_decide_eq_true, bool_decide_eq_false.
    split; [by right|]. intros [[?|[?|[?|Hn]]]|(_ & ? & ?)]; [tauto..|inversion Hn|done].
  - split; [done|]. intros [[?|[?|[?|Hn]]]|[? _]]; [tauto..|inversion Hn|done].
Qed.

Lemma formatProblems_nil t fp tp i b : formatProblems t fp tp i b = [] ↔
  b_Format b = "" ∧ Currency b = "" ∨
  b_Format b = "amount" ∧ length (From b) = 1%nat ∧ Currency b ≠ "" ∧ HasAlias fp (t_From t) (Currency b) = true ∧
    is_Some (CurrencyAlias tp (t_To t) (To b)).
Proof.
  unfold formatProblems. case_bool_decide as H1.
  { rewrite ensure_nil, bool_decide_eq_true. rewrite H1. naive_solver. }
  case_bool_decide as H2; [|split; [done|naive_solver]].
  rewrite app_nil, ensure_nil, bool_decide_eq_true.
  destruct (bool_decide (length (From b) ≠ 1%nat)) eqn:E1; [apply bool_decide_eq_true in E1; naive_solver|].
  apply bool_decide_eq_false in E1. simpl. case_bool_decide; [naive_solver|].
  rewrite ensure_nil. assert (length (From b) = 1%nat) by (destruct (decide (length (From b) = 1%nat)); tauto). naive_solver.
Qed.

Lemma gated_nil (x : string) (l : list tproblem) (P : Prop) : (l = [] ↔ P) → ((if bool_decide (x = "") then [] else l) = [] ↔ (x ≠ "" → P)).
Proof. intros HP. case_bool_decide; [tauto|]. rewrite HP. tauto. Qed.

Lemma bindingProblems_nil ls ts participant t fp tp seen i b :
  bindingProblems ls ts participant t fp tp seen i b = [] ↔ (To b ∉ seen) ∧ bindingOk ls ts participant t fp tp b.
Proof.
  unfold bindingProblems. case_bool_decide as H0; [split; [done|intros [_ [[? _] _ _ _ _ _ _]]; done]|].
  rewrite !app_nil, !ensure_nil, negb_true_iff, bool_decide_eq_false, bool_decide_eq_true.
  rewrite (gated_nil _ _ _ (lookupProblems_nil ls t fp i b)), (gated_nil _ _ _ (generateProblems_nil participant t tp i (Generate b))).
  rewrite formatProblems_nil, orb_true_iff, !bool_decide_eq_true, concat_nil.
  assert ((∀ x, x ∈ ((λ f, ensure (HasAlias fp (t_From t) f) (QFromAlias (t_Name t) i f)) <$> From b) → x = []) ↔
    (∀ f, f ∈ From b → HasAlias fp (t_From t) f = true)) as ->.
  { split.
    - intros Hx f Hf. eapply ensure_nil, Hx, list_elem_of_fmap. eauto.
    - intros Hf x (f & -> & Hin)%list_elem_of_fmap. apply ensure_nil. auto. }
  split.
  - intros (? & ? & ? & ? & ? & ? & Ht & ?). split; [done|]. split; try done. destruct Ht; done.
  - intros [? [[??] ? ? ? ? Ht ?]]. split_and!; try done. destruct (decide (Table b = "")); auto.
Qed.

Lemma bindingsProblems_nil ls ts participant t fp tp seen i l :
  bindingsProblems ls ts participant t fp tp seen i l = [] ↔
  NoDup (To <$> l) ∧ (∀ b, b ∈ l → To b ∉ seen) ∧ ∀ b, b ∈ l → bindingOk ls ts participant t fp tp b.
Proof.
  revert seen i. induction l as [|b l IH]; intros seen i; simpl.
  { split; [|done]. intros _. split_and!; [constructor|intros b H; inversion H|intros b H; inversion H]. }
  rewrite app_nil, bindingProblems_nil, IH, NoDup_cons. setoid_rewrite elem_of_cons. split.
  - intros ((Hs & Hb) & Hnd & Hseen & Hall). destruct (bo_to _ _ _ _ _ _ _ Hb) as [Hto _]. rewrite bool_decide_eq_false_2 in Hseen by done.
    split_and!; [|done| |].
    + intros (b' & Heq & Hin)%list_elem_of_fmap. apply (Hseen b' Hin). rewrite <-Heq. by left.
    + intros b' [->|Hin]; [done|]. intros Hin'. apply (Hseen b' Hin). by right.
    + intros b' [->|Hin]; auto.
  - intros ([Hnot Hnd] & Hseen & Hall). pose proof (Hall b (or_introl eq_refl)) as Hb.
    destruct (bo_to _ _ _ _ _ _ _ Hb) as [Hto _]. rewrite bool_decide_eq_false_2 by done. split_and!; auto.
    intros b' Hin [Heq|Hin']%elem_of_cons; [|by apply (Hseen b'); auto]. apply Hnot. rewrite <-Heq. by apply list_elem_of_fmap_2.
Qed.

Lemma checkTranslation_nil ls ts participant t : checkTranslation ls ts participant t = [] ↔ translationOk ls ts participant t.
Proof.
  unfold checkTranslation, translationOk. destruct (fromProto t) as [fp|], (toProto t) as [tp|];
    [|rewrite !app_nil; split; [intros (? & ? & ?); done|intros (? & ? & ? & ? & _); done]..].
  rewrite !app_nil, !ensure_nil, bindingsProblems_nil. split.
  - intros (? & ? & ? & _ & ?). by exists fp, tp.
  - intros (fp' & tp' & [= <-] & [= <-] & ? & ? & ? & ?). split_and!; try done. intros b _ Hb. inversion Hb.
Qed.

Lemma pairProblems_nil a (b : Translation) : pairProblems a b = [] ↔
  ∀ fp tp, fromProto a = Some fp → toProto a = Some tp → p_PairsWith fp (t_From a) ≠ "" → p_PairsWith tp (t_To a) ≠ "" →
    FromSpec b = ToSpec a → ToSpec b = FromSpec a → t_From b = p_PairsWith tp (t_To a) → t_To b = p_PairsWith fp (t_From a).
Proof.
  unfold pairProblems. destruct (fromProto a) as [fp|], (toProto a) as [tp|]; [|split; [intros; simplify_eq|done]..].
  set (sp := p_PairsWith fp (t_From a)). set (dp := p_PairsWith tp (t_To a)). split.
  - intros H fp' tp' [= <-] [= <-] Hs Hd H1 H2 H3. fold sp dp in Hs, Hd, H3 |- *.
    rewrite !bool_decide_eq_false_2 in H by done. simpl in H. rewrite !bool_decide_eq_true_2 in H by done. simpl in H.
    by destruct (bool_decide_reflect (t_To b = sp)).
  - intros H. destruct (bool_decide_reflect (sp = "")) as [|Hs]; [done|]. destruct (bool_decide_reflect (dp = "")) as [|Hd]; [done|].
    simpl. destruct (_ && _) eqn:E; [|done]. rewrite !andb_true_iff, negb_true_iff, !bool_decide_eq_true, bool_decide_eq_false in E.
    destruct E as [[[H1 H2] H3] H4]. destruct H4. exact (H fp tp eq_refl eq_refl Hs Hd H1 H2 H3).
Qed.

Lemma checkPairing_nil ts : checkPairing ts = [] ↔ pairingOk ts.
Proof.
  unfold checkPairing, pairingOk. rewrite concat_nil.
  assert (∀ t, t ∈ (map_to_list ts).*2 ↔ ∃ n, ts !! n = Some t) as Hin.
  { intros t. rewrite list_elem_of_fmap. split; [intros ([n t'] & -> & ?%elem_of_map_to_list); eauto|].
    intros [n Hn]. exists (n, t). by rewrite elem_of_map_to_list. }
  split.
  - intros H na a nb b fp tp Ha Hb. specialize (H (concat (pairProblems a <$> (map_to_list ts).*2))).
    rewrite concat_nil in H. specialize (H ltac:(apply list_elem_of_fmap; exists a; rewrite Hin; eauto) (pairProblems a b)).
    apply pairProblems_nil, H, list_elem_of_fmap. exists b. rewrite Hin. eauto.
  - intros H x (a & -> & [na Ha]%Hin)%list_elem_of_fmap. apply concat_nil. intros x (b & -> & [nb Hb]%Hin)%list_elem_of_fmap.
    apply pairProblems_nil. intros fp tp. by apply (H na a nb b).
Qed.

Record documentOk (loadSpec : string → option Protocol) (d : tdocument) : Prop := {
  do_head : td_Kind d = "translation" ∧ td_ID d ≠ "" ∧ versionOk (td_Version d) = true ∧
    (td_Participant d = "" ∨ participantOk (td_Participant d) = true);
  do_specs : td_Specs d ≠ ∅ ∧ ∀ name ref, td_Specs d !! name = Some ref → is_Some (loadSpec ref);
  do_lookups : ∀ name l, td_Lookups d !! name = Some l →
    (∃ spec alias, Cut ":" (ld_Key l) = (spec, alias, true)) ∧ ld_Source l ≠ "" ∧ ld_Fields l ≠ [];
  do_translations : ∀ name raw, td_Translations d !! name = Some raw →
    translationOk (map_imap makeLookup (td_Lookups d)) (makeTable <$> td_Tables d) (td_Participant d)
      (makeTranslation (omap loadSpec (td_Specs d)) name raw);
  do_pairing : pairingOk (map_imap (λ name raw, Some (makeTranslation (omap loadSpec (td_Specs d)) name raw)) (td_Translations d)) }.

Lemma lookupDocProblems_nil name l : lookupDocProblems name l = [] ↔
  (∃ spec alias, Cut ":" (ld_Key l) = (spec, alias, true)) ∧ ld_Source l ≠ "" ∧ ld_Fields l ≠ [].
Proof.
  unfold lookupDocProblems, makeLookup. destruct (Cut ":" (ld_Key l)) as [[spec alias] [|]]; [|split; [done|intros [(? & ? & ?) _]; done]].
  rewrite app_nil, !ensure_nil, !negb_true_iff, !bool_decide_eq_false. naive_solver.
Qed.

Lemma Load_inr loadSpec hash d : (∃ s, Load loadSpec hash d = inr s) ↔ documentOk loadSpec d.
Proof.
  unfold Load. set (ts := map_imap _ (td_Translations d)).
  assert (∀ (e : list tproblem) x, (∃ s, match e with [] => inr x | _ => inl e end = inr s :> (list tproblem + TSpec)) ↔ e = []) as ->.
  { intros [|p e] x; split; try done; [by eexists|]. by intros [? ?]. }
  rewrite !app_nil, !ensure_nil, !eachKey_nil, checkPairing_nil, orb_true_iff, !negb_true_iff, !bool_decide_eq_false, !bool_decide_eq_true.
  setoid_rewrite lookupDocProblems_nil. setoid_rewrite checkTranslation_nil. setoid_rewrite ensure_nil. setoid_rewrite bool_decide_eq_true.
  assert ((∀ k t, ts !! k = Some t → translationOk (map_imap makeLookup (td_Lookups d)) (makeTable <$> td_Tables d) (td_Participant d) t) ↔
    ∀ name raw, td_Translations d !! name = Some raw →
      translationOk (map_imap makeLookup (td_Lookups d)) (makeTable <$> td_Tables d) (td_Participant d)
        (makeTranslation (omap loadSpec (td_Specs d)) name raw)) as ->.
  { unfold ts. split.
    - intros H name raw Hraw. apply (H name). by rewrite map_lookup_imap, Hraw.
    - intros H name t. rewrite map_lookup_imap. destruct (td_Translations d !! name) as [raw|] eqn:E; [|done]. intros [= <-]. auto. }
  split.
  - intros (? & ? & ? & ? & ? & ? & ? & ? & ?). by split.
  - intros [(? & ? & ? & ?) [? ?] ? ? ?]. by split_and!.
Qed.
End load.

(** What a document that loads becomes. *)
Definition specOf (loadSpec : string → option Protocol) (hash : string) (d : tdocument) : TSpec :=
  mkTSpec (td_ID d) (td_Version d) hash (td_Participant d)
    (map_imap (λ name raw, Some (makeTranslation (omap loadSpec (td_Specs d)) name raw)) (td_Translations d))
    (makeTable <$> td_Tables d) (map_imap makeLookup (td_Lookups d)).

Lemma Load_specOf loadSpec hash d s : Load loadSpec hash d = inr s → s = specOf loadSpec hash d.
Proof. unfold Load. destruct (_ ++ _); [|done]. by intros [= <-]. Qed.

(** A translation spec loads exactly when it is well formed: a translation document
    with an id, a version and protocol specs that load; lookups with a key, a source and
    fields; translations between messages the two protocols have, whose bindings write
    distinct aliases of the target, each from exactly one source, from aliases, lookups,
    tables and currencies that are declared; and replies that go back as the reply of the
    message they answer. *)
Theorem translation_load_exact loadSpec hash d : (∃ s, Load loadSpec hash d = inr s) ↔ documentOk loadSpec d.
Proof. apply Load_inr. Qed.

(** ** What a loaded spec cannot do *)

Lemma loadLookups_spec resolve names ls ls' n l' : NoDup names → loadLookups resolve names ls = Some ls' → ls' !! n = Some l' →
  ∃ l, ls !! n = Some l ∧ if decide (n ∈ names) then ∃ recs, resolve (lk_source l) = Some recs ∧ l' = withRecords l recs else l' = l.
Proof.
  revert ls. induction names as [|x names IH]; intros ls Hnd H Hn; simpl in H.
  { simplify_eq. exists l'. split; [done|]. rewrite decide_False; [done|]. intros Hx. inversion Hx. }
  apply NoDup_cons in Hnd as [Hx Hnd]. destruct (ls !! x) as [lx|] eqn:Ex.
  - destruct (resolve (lk_source lx)) as [recs|] eqn:Er; simpl in H; [|done]. destruct (recordsOk _ _); [|done].
    destruct (IH _ Hnd H Hn) as (l & Hl & Hd). destruct (decide (n = x)) as [->|Hne].
    + rewrite lookup_insert_eq in Hl. simplify_eq. exists lx. split; [done|]. rewrite decide_True by (by left).
      rewrite decide_False in Hd by done. eauto.
    + rewrite lookup_insert_ne in Hl by done. exists l. split; [done|]. destruct (decide (n ∈ names)).
      * rewrite decide_True by (by right). done.
      * rewrite decide_False by (by intros [?|?]%elem_of_cons). done.
  - destruct (IH _ Hnd H Hn) as (l & Hl & Hd). exists l. split; [done|].
    assert (n ≠ x) by congruence. destruct (decide (n ∈ names)).
    + rewrite decide_True by (by right). done.
    + rewrite decide_False by (by intros [?|?]%elem_of_cons). done.
Qed.

Lemma loadLookups_keeps resolve names ls ls' n : loadLookups resolve names ls = Some ls' → is_Some (ls !! n) → is_Some (ls' !! n).
Proof.
  revert ls. induction names as [|x names IH]; intros ls H Hn; simpl in H; [by simplify_eq|].
  destruct (ls !! x) as [lx|]; [|by eapply IH]. destruct (resolve _) as [recs|]; simpl in H; [|done].
  destruct (recordsOk _ _); [|done]. eapply IH; [done|]. apply lookup_insert_is_Some. destruct (decide (x = n)); auto.
Qed.

(** What every operation on a message keeps of the heap. *)
Record kept h0 (m : FluxMsg) h : Prop := {
  k_ok : ok_heap h; k_nxt : (nxt h0 ≤ nxt h)%N; k_meta : ∀ ml, Metadata m = Some ml → is_Some (metas h !! ml) }.

Lemma whole_kept h m : whole h m → kept h m h.
Proof. intros [Hok (l & Hl & Hs) _ _]. split; [done|done|]. intros ml Hml. by simplify_eq. Qed.

Lemma put_kept h0 m h k v : whole h0 m → kept h0 m h → kept h0 m (putMeta h m k v).
Proof.
  intros Hw [K1 K2 K3]. pose proof (wh_meta _ _ Hw) as (ml & Hml & _).
  destruct (putMeta_effect h m k v ml K1 Hml (K3 ml Hml)) as (P1 & _ & _ & P4 & P5 & _).
  split; [done|by rewrite P4|intros; by simplify_eq].
Qed.

Lemma setPath_heap h v ps x r h' : ok_heap h → vlt (nxt h) v → vloc x = None → setPath h v ps x = (r, h') →
  ok_heap h' ∧ (nxt h ≤ nxt h')%N ∧ metas h' = metas h.
Proof.
  revert h v. induction ps as [|p [|q rest] IH]; intros h v Hok Hv Hx H.
  - by simplify_eq/=.
  - simpl in H. destruct (isMap v); [|by simplify_eq]. destruct (mapPut h v p x) as [h1|] eqn:E; simplify_eq; [|done].
    split_and!; [eapply mapPut_ok; [done| |done]; intros l Hl; congruence|..]; by apply mapPut_spec in E as (? & ? & ? & _ & _ & -> & _).
  - rewrite setPath_cons in H. destruct (isMap v); [|by simplify_eq]. destruct (mapGet h v p) as [y|] eqn:Hg.
    + destruct (isMap y); [|by simplify_eq]. eapply IH; [done| |done|done]. by eapply closed_mapGet; [apply Hok| |].
    + cbn [alloc] in H. set (h1 := mkHeap _ _ _ _) in H.
      assert (ok_heap h1) as Hok1.
      { apply (alloc_ok h (OMapS ∅) Hok). intros c [k Hk]. by rewrite lookup_empty in Hk. }
      destruct (mapPut h1 v p _) as [h2|] eqn:E; [|simplify_eq; split_and!; [done|simpl; lia|done]].
      assert (ok_heap h2) as Hok2 by (eapply mapPut_ok; [done| |done]; eapply vlt_ref; [done|simpl; lia]).
      apply mapPut_spec in E as (? & ? & ? & _ & _ & -> & _).
      apply IH in H as (? & Hn & ?); [|done|eapply vlt_ref; [done|simpl; lia]|done]. split_and!; [done|simpl in Hn; lia|done].
Qed.

Lemma set_kept h0 m h k v r h' : whole h0 m → kept h0 m h → Set_ h m k (VStr v) = (r, h') → kept h0 m h'.
Proof.
  intros Hw [K1 K2 K3] H. apply setPath_heap in H as (? & ? & Hm); [|done| |done].
  - split; [done|lia|]. by rewrite Hm.
  - intros d Hd. pose proof (whole_vlt h0 m Hw d Hd). lia.
Qed.

Lemma writeAll_kept h0 m h l r h' : whole h0 m → kept h0 m h → writeAll h m l = (r, h') → kept h0 m h'.
Proof.
  intros Hw. revert h. induction l as [|[k v] l IH]; intros h K H; simpl in H; [by simplify_eq|].
  destruct (Set_ h m k (VStr v)) as [sr h1] eqn:Es. apply (set_kept h0) in Es; [|done|done].
  destruct sr; [by eapply IH|by simplify_eq..].
Qed.

Lemma SetMessage_kept h0 m h p msg h' ok : whole h0 m → kept h0 m h → SetMessage h m p msg = (h', ok) → kept h0 m h'.
Proof.
  intros Hw K H. unfold SetMessage in H. apply (put_kept h0 m h (messageKey p) msg Hw) in K.
  destruct (identity p) as [a|]; [|by simplify_eq]. destruct (Set_ _ m a (VStr msg)) as [sr h1] eqn:Es.
  apply (set_kept h0) in Es; [|done|done]. by destruct sr; simplify_eq.
Qed.

(** ** Maps that are nil *)

(** A map that cannot be written: a nil one. *)
Definition writable h (y : val) : Prop := ∀ k x, is_Some (mapPut h y k x).

(** Somewhere in the data of the message there is a nil map. *)
Definition nilMap h (m : FluxMsg) : Prop :=
  ∃ ps y, descend h (root m) ps = Some y ∧ isMap y = true ∧ ¬ writable h y.

(** A set of map values that can be written, closed under the maps in them. *)
Record writables h (P : val → Prop) : Prop := {
  ws_put : ∀ y, P y → writable h y;
  ws_get : ∀ y k c, P y → mapGet h y k = Some c → isMap c = true → P c;
  ws_vlt : ∀ y, P y → vlt (nxt h) y }.

Lemma writable_kind h y l o : vloc y = Some l → objs h !! l = Some o → writable h y → kind_ok y o.
Proof. intros Hl Ho Hw. destruct (Hw "" VNil) as [h' (l' & o' & ? & ? & ? & _ & ? & _)%mapPut_spec]. by simplify_eq. Qed.

Lemma writable_same h y z l : vloc y = Some l → vloc z = Some l → writable h y → writable h z → y = z.
Proof.
  intros Hy Hz Wy Wz. specialize (Wy "" VNil). specialize (Wz "" VNil).
  destruct y as [| | | | |[ly|]|[ly|]| |], z as [| | | | |[lz|]|[lz|]| |]; simpl in *; simplify_eq; try done;
    destruct Wy as [? Wy], Wz as [? Wz]; by repeat case_match.
Qed.

Lemma put_writable h v p x h' y : mapPut h v p x = Some h' → writable h y → writable h' y.
Proof.
  intros Hp Hy k z. destruct (Hy k z) as [h2 Hk]. clear Hy.
  destruct v as [| | | | |[lv|]|[lv|]| |], y as [| | | | |[ly|]|[ly|]| |]; simpl in *; try done;
    repeat case_match; simplify_eq; destruct (decide (lv = ly)) as [<-|Hne]; simplify_eq; simpl in *;
    rewrite ?lookup_insert_eq, ?lookup_insert_ne in * by done; simplify_eq; eauto.
Qed.

Lemma put_writables h P v p x h' : writables h P → P v → (isMap x = true → P x) → mapPut h v p x = Some h' → writables h' P.
Proof.
  intros [W1 W2 W3] Hv Hx Hp. split.
  - intros y Hy. eapply put_writable; eauto.
  - intros y k c Hy Hg Hc. destruct (decide (vloc y = vloc v)) as [E|E].
    + assert (y = v) as ->.
      { pose proof Hp as (l & _ & _ & Hl & _)%mapPut_spec. apply (writable_same h y v l); [congruence|done|by apply W1..]. }
      destruct (decide (p = k)) as [<-|Hne].
      * rewrite (mapGet_put_eq _ _ _ _ _ Hp) in Hg. injection Hg as <-. auto.
      * rewrite (mapGet_put_ne _ _ _ _ _ _ Hp Hne) in Hg. eauto.
    + apply mapPut_spec in Hp as (l & o & o' & Hl & Ho & -> & _). assert (mapGet h y k = Some c); [|by eauto].
      rewrite <-Hg. symmetry. apply mapGet_ext. intros l' Hl'. simpl. rewrite lookup_insert_ne; [done|]. congruence.
  - intros y Hy. apply mapPut_spec in Hp as (l & o & o' & _ & _ & -> & _). by apply W3.
Qed.

Lemma alloc_writables h P : writables h P → writables (alloc (OMapS ∅) h).1 (λ y, P y ∨ y = VMapS (Some (nxt h))).
Proof.
  intros [W1 W2 W3]. assert (∀ y, P y → ∀ l, vloc y = Some l → objs (alloc (OMapS ∅) h).1 !! l = objs h !! l) as He.
  { intros y Hy l Hl. specialize (W3 y Hy l Hl). simpl. rewrite lookup_insert_ne; [done|lia]. }
  split.
  - intros y [Hy| ->] k x; [|simpl; rewrite lookup_insert_eq; eauto]. destruct (W1 y Hy k x) as [h' Hp]. specialize (He y Hy).
    destruct y as [| | | | |[l|]|[l|]| |]; simpl in *; try done; rewrite (He l eq_refl); case_match; try done; case_match; eauto.
  - intros y k c [Hy| ->] Hg Hc; [|simpl in Hg; by rewrite lookup_insert_eq, lookup_empty in Hg].
    left. apply (W2 y k); [done| |done]. rewrite <-Hg. symmetry. apply mapGet_ext. by apply He.
  - intros y [Hy| ->] l Hl; simpl; [specialize (W3 y Hy l Hl); lia|]. injection Hl as <-. lia.
Qed.

(** A write among them does not panic and leaves them so. *)
Lemma setPath_writables h P v ps x : writables h P → P v → isMap x = false →
  (setPath h v ps x).1 ≠ SetPanic ∧ ∃ P' : val → Prop, writables (setPath h v ps x).2 P' ∧ ∀ y, P y → P' y.
Proof.
  revert h P v. induction ps as [|p [|q rest] IH]; intros h P v W Hv Hx; [by split; eauto| |].
  - simpl. destruct (isMap v); [|by split; eauto]. destruct (ws_put _ _ W v Hv p x) as [h' Hp]. rewrite Hp. split; [done|].
    exists P. split; [|done]. apply (put_writables h P v p x h'); [done|done| |done]. by rewrite Hx.
  - rewrite setPath_cons. destruct (isMap v); [|by split; eauto]. destruct (mapGet h v p) as [y|] eqn:Hg.
    + destruct (isMap y) eqn:Ey; [|by split; eauto]. apply IH; [done| |done]. by eapply ws_get.
    + cbn [alloc]. pose proof (alloc_writables h P W) as W1. unfold alloc in W1. cbn [fst] in W1. set (h1 := mkHeap _ _ _ _) in *.
      destruct (ws_put _ _ W1 v (or_introl Hv) p (VMapS (Some (nxt h)))) as [h2 Hp]. rewrite Hp.
      apply (put_writables _ _ _ _ _ _ W1 (or_introl Hv) (λ _, or_intror eq_refl)) in Hp.
      destruct (IH h2 _ (VMapS (Some (nxt h))) Hp) as (H1 & P' & H2 & H3); [by right|done|]. split; [done|]. exists P'. auto.
Qed.

Lemma writeAll_writables h P m l : writables h P → P (root m) →
  (writeAll h m l).1 ≠ WPanic ∧ ∃ P' : val → Prop, writables (writeAll h m l).2 P' ∧ P' (root m).
Proof.
  revert h P. induction l as [|[k v] l IH]; intros h P W Hr; simpl; [by split; eauto|].
  destruct (setPath_writables h P (root m) (splitDot k) (VStr v) W Hr eq_refl) as (H1 & P' & H2 & H3).
  unfold Set_. destruct (setPath _ _ _ _) as [[| |] h1]; simpl in *; [|by split; eauto|done]. by apply (IH h1 P'); [|apply H3].
Qed.

Lemma SetMessage_writables h P m p msg : writables h P → P (root m) → (SetMessage h m p msg).2 = true.
Proof.
  intros [W1 W2 W3] Hr. unfold SetMessage. destruct (identity p) as [a|]; [|done].
  assert (objs (putMeta h m (messageKey p) msg) = objs h ∧ nxt (putMeta h m (messageKey p) msg) = nxt h) as [Ho Hn].
  { unfold putMeta. by destruct (Metadata m). }
  set (h1 := putMeta h m (messageKey p) msg) in *.
  assert (∀ y k, mapGet h1 y k = mapGet h y k) as Hg by (intros; apply mapGet_ext; intros; by rewrite Ho).
  destruct (setPath_writables h1 P (root m) (splitDot a) (VStr msg)) as [H _]; [|done|done|].
  - split; [|intros y k c Hy; rewrite Hg; eauto|intros y Hy; rewrite Hn; auto]. intros y Hy k x. destruct (W1 y Hy k x) as [h' Hp].
    destruct y as [| | | | |[l|]|[l|]| |]; simpl in *; try done; rewrite Ho; case_match; try done; case_match; eauto.
  - unfold Set_. by destruct (setPath _ _ _ _) as [[| |] ?].
Qed.

(** The maps of a message without nil maps are such a set. *)
Lemma whole_writables h m : whole h m → ¬ nilMap h m →
  writables h (λ y, isMap y = true ∧ ∃ ps, descend h (root m) ps = Some y).
Proof.
  intros Hw Hn. assert (∀ ps y p z, descend h y ps = Some z → descend h y (ps ++ [p]) = mapGet h z p) as Hsnoc.
  { intros ps. induction ps as [|q ps IH]; intros y p z; simpl; [intros [= ->]; by destruct (mapGet _ _ _)|].
    destruct (mapGet h y q); [apply IH|done]. }
  split.
  - intros y [Hm (ps & Hd)]. destruct (decide (is_Some (mapPut h y "" VNil))) as [Hs|Hs].
    + intros k x. destruct Hs as [h' Hs]. destruct y as [| | | | |[l|]|[l|]| |]; simpl in *; try done; by repeat case_match.
    + destruct Hn. exists ps, y. split_and!; [done|done|]. intros Hy. apply Hs, Hy.
  - intros y k c [_ (ps & Hd)] Hg Hc. split; [done|]. exists (ps ++ [k]). by rewrite (Hsnoc _ _ _ _ Hd).
  - intros y [_ (ps & Hd)] l Hl. eapply (reach_bound h (root m) ps l); [apply Hw|by apply whole_vlt|]. by exists y.
Qed.

Section safe.
Context (sprint : heap → val → string) (generated : Binding → string).

(** What a binding of a loaded translation can come to: the writes, or an error for a
    reason; never a nil dereference. *)
Definition boundSafely (s : TSpec) (resolve : string → option (option records_t)) (tp : Protocol) h m (b : Binding)
    (r : applyErr + option (gmap string string)) : Prop :=
  match r with
  | inr (Some _) => True
  | inr None => False
  | inl (EBindLookup name) => (Cut "." (Lookup_ b)).1.1 = name ∧ ∃ l, lookups s !! name = Some l ∧ resolve (lk_source l) = Some None
  | inl (EBindTable tb v) => tb = Table b ∧ ∃ tbl, tables s !! tb = Some tbl ∧ values tbl !! v = None ∧ def tbl = None
  | inl (EBindAmount e) => b_Format b = "amount" ∧ ∃ v, value sprint generated s h m b = BValue v ∧
      convertAmount (toBytes v) (toBytes (readString sprint h m (Currency b))) (p_Kind tp) = inl e
  | inl (EWrite _) => False
  end.

Lemma value_safe s resolve t tp b h m w :
  (Lookup_ b ≠ "" → ∃ name field l, Cut "." (Lookup_ b) = (name, field, true) ∧ lookups s !! name = Some l ∧
     resolve (lk_source l) = Some (records l)) →
  (Table b ≠ "" → is_Some (tables s !! Table b)) → boundSafely s resolve tp h m b (bind1 sprint generated s t tp h m b w).
Proof.
  intros Hl Ht.
  assert (match sourced sprint generated s h m b with
    | BPanic => False | BValue _ | BNothing => True
    | BError (EBindLookup name) => (Cut "." (Lookup_ b)).1.1 = name ∧ ∃ l, lookups s !! name = Some l ∧ resolve (lk_source l) = Some None
    | BError _ => False end) as Hs.
  { unfold sourced. destruct (b_Value b); [done|]. case_bool_decide; simpl; [|by destruct (filter _ _)].
    case_bool_decide as Hlk; simpl; [by case_bool_decide|].
    destruct (Hl Hlk) as (name & field & l & Hcut & Hlo & Hr). rewrite Hcut, Hlo.
    destruct (records l) as [recs|]; [|simpl; eauto]. destruct (recs !! _); [|done]. by case_bool_decide. }
  assert (match value sprint generated s h m b with
    | BError (EBindAmount _) => False | BPanic => False | BValue _ | BNothing => True
    | BError e => boundSafely s resolve tp h m b (inl e) end) as Hv.
  { unfold value. destruct (sourced _ _ _ h m b) as [v| |e|]; try done; [|by destruct e].
    case_bool_decide as Htb; [done|]. destruct (Ht Htb) as [tbl Htbl]. rewrite Htbl. simpl.
    destruct (values tbl !! v) eqn:Ev; [done|]. destruct (def tbl) eqn:Ed; [done|]. simpl. eauto. }
  unfold bind1. destruct (value sprint generated s h m b) as [v| |[]|] eqn:E; try done.
  case_bool_decide; [|done]. destruct (convertAmount _ _ _) as [e|[amount cur]] eqn:Ec; [|done]. simpl. rewrite E. eauto.
Qed.

Lemma bindAll_no_panic s t tp h m l w : (∀ b, b ∈ l → value sprint generated s h m b ≠ BPanic) →
  bindAll sprint generated s t tp h m l w ≠ inr None.
Proof.
  revert w. induction l as [|b l IH]; intros w Hb; simpl; [done|]. assert (bind1 sprint generated s t tp h m b w ≠ inr None) as H1.
  { specialize (Hb b ltac:(left)). unfold bind1. repeat case_match; done. }
  destruct (bind1 _ _ _ _ _ _ _ _ _) as [|[w'|]]; try done. apply IH. intros b' Hin. apply Hb. by right.
Qed.

(** [Apply] panics only for a protocol that is not there, a lookup that is not there, or
    a nil map in the message. *)
Lemma Apply_no_panic s t fp tp h l m : whole h m → fromProto t = Some fp → toProto t = Some tp →
  (∀ b, b ∈ Bindings t → value sprint generated s h m b ≠ BPanic) → ¬ nilMap h m →
  (Apply sprint generated s t h l m).1.1 ≠ ApplyPanic.
Proof.
  intros Hw Hf Ht Hb Hn. unfold Apply. rewrite (ensureMaps_whole h l m Hw), Hf, Ht.
  pose proof (bindAll_no_panic s t tp h m (Bindings t) ∅ Hb) as Hp. destruct (bindAll _ _ _ _ _ _ _ _ _) as [|[w|]]; try done.
  destruct (writeAll_writables h _ m (sortedWrites w) (whole_writables h m Hw Hn)) as (H1 & P' & H2 & H3); [split; [done|by exists []]|].
  destruct (writeAll h m (sortedWrites w)) as [[| |] h1]; try done. simpl in H2.
  pose proof (SetMessage_writables h1 P' m tp (t_To t) H2 H3) as Hs. destruct (SetMessage _ _ _ _) as [h2 ok]. simpl in Hs. by subst ok.
Qed.

(** C38: A translation of a spec that loaded, with its lookups, is safe to apply: both
    protocols are there, selecting a translation never panics, and no binding dereferences
    a lookup that is not declared, on any message.  A binding can fail only because its
    table, which is declared, has neither the entry nor a default, because the records of
    its lookup, which is declared, are an empty document, or, for an amount, because the
    value or the currency it read cannot be converted.  On a message whose maps exist and
    whose data is a tree without nil maps, applying the translation does not panic. *)
Theorem loaded_translation_safe loadSpec hash d s resolve s' n t :
  Load loadSpec hash d = inr s → LoadLookups resolve s = Some s' → Translations s' !! n = Some t →
  is_Some (fromProto t) ∧ is_Some (toProto t) ∧
  (∀ name h m, Select s' name h m ≠ SelectPanic) ∧
  (∀ tp b h m w, toProto t = Some tp → b ∈ Bindings t → boundSafely s' resolve tp h m b (bind1 sprint generated s' t tp h m b w)) ∧
  ∀ h l m, whole h m → ¬ nilMap h m → (Apply sprint generated s' t h l m).1.1 ≠ ApplyPanic.
Proof.
  intros HL HLL Ht. assert (documentOk loadSpec d) as Hd by (apply (Load_inr _ hash); eauto).
  unfold Load in HL. destruct (_ ++ _) in HL; [|done]. injection HL as <-.
  unfold LoadLookups in HLL. apply bind_Some in HLL as (ls & Hls & [= <-]). simpl in *.
  assert (∀ k t, map_imap (λ name raw, Some (makeTranslation (omap loadSpec (td_Specs d)) name raw)) (td_Translations d) !! k = Some t →
    translationOk (map_imap makeLookup (td_Lookups d)) (makeTable <$> td_Tables d) (td_Participant d) t) as Hall.
  { intros k t' Hk. rewrite map_lookup_imap in Hk. destruct (td_Translations d !! k) eqn:E; [|done]. simplify_eq/=.
    by apply (do_translations _ _ Hd). }
  destruct (Hall n t Ht) as (fp & tp & Hfp & Htp & _ & _ & _ & Hb).
  assert (∀ b h m w, b ∈ Bindings t → boundSafely (mkTSpec (td_ID d) (td_Version d) hash (td_Participant d)
    (map_imap (λ name raw, Some (makeTranslation (omap loadSpec (td_Specs d)) name raw)) (td_Translations d))
    (makeTable <$> td_Tables d) ls) resolve tp h m b (bind1 sprint generated (mkTSpec (td_ID d) (td_Version d) hash (td_Participant d)
    (map_imap (λ name raw, Some (makeTranslation (omap loadSpec (td_Specs d)) name raw)) (td_Translations d))
    (makeTable <$> td_Tables d) ls) t tp h m b w)) as Hsafe.
  { intros b h m w Hin. specialize (Hb b Hin). apply value_safe; [|apply (bo_table _ _ _ _ _ _ _ Hb)]. intros Hlk. simpl.
    destruct (bo_lookup _ _ _ _ _ _ _ Hb Hlk) as (name & field & l & Hcut & Hl & _).
    destruct (loadLookups_keeps _ _ _ _ name Hls) as [l' Hl']; [eauto|].
    destruct (loadLookups_spec _ _ _ _ _ _ (NoDup_sortedKeys _) Hls Hl') as (l0 & Hl0 & Hd0). simplify_eq.
    rewrite decide_True in Hd0 by (apply elem_sortedKeys; eauto). destruct Hd0 as (recs & Hr & ->). by exists name, field, (withRecords l recs). }
  split_and!; [eauto|eauto| |intros tp' b h m w Htp' Hin; simplify_eq; by apply Hsafe|].
  2:{ intros h l m Hw Hn. eapply Apply_no_panic; [done|done|done| |done]. intros b Hin Hp. specialize (Hsafe b h m ∅ Hin).
      unfold bind1 in Hsafe. by rewrite Hp in Hsafe. }
  - intros name h m. unfold Select. simpl. destruct (negb _ && _); [by case_match|].
    destruct (existsb _ _) eqn:Ex; [|destruct (matching h m _) as [|? []]; done].
    apply existsb_exists in Ex as (t' & Hin & Hn%negb_true_iff%bool_decide_eq_false). destruct Hn.
    apply list_elem_of_In, list_elem_of_fmap in Hin as ([k t''] & -> & Hk%elem_of_map_to_list).
    destruct (Hall k t'' Hk) as (fp' & ? & Hf & _). simpl. rewrite Hf. eauto.
Qed.

(** ** The gear *)
Context (errText : processErr → string).

(** The message is translated, and its findings do not stop it. *)
Definition accepts (g : gear) h l m : Prop :=
  ∃ t fs, Select (g_spec g) (g_translation g) h m = Selected t ∧ (Apply sprint generated (g_spec g) t h l m).1.1 = Applied fs ∧
    (fs = [] ∨ g_validation g ≠ "enforce").

(** The cases of [Apply] that the gear tells apart. *)
Lemma Apply_cases s t h l m r h' m' : whole h m → Apply sprint generated s t h l m = (r, h', m') →
  m' = m ∧ kept h m h' ∧ match r with Failed (EWrite _) | Applied _ | ApplyPanic => True | Failed _ => h' = h end.
Proof.
  intros Hw H. unfold Apply in H. rewrite (ensureMaps_whole h l m Hw) in H. pose proof (whole_kept h m Hw) as K0.
  destruct (fromProto t), (toProto t) as [tp|]; [|by simplify_eq..].
  destruct (bindAll _ _ _ _ _ _ _ _ _) as [e|[w|]] eqn:Eb; [|destruct (writeAll h m (sortedWrites w)) as [wr h1] eqn:Ew|by simplify_eq].
  { simplify_eq. split_and!; try done. by destruct e. }
  apply (writeAll_kept h m h) in Ew as K1; [|done|done]. destruct wr; [|by simplify_eq..].
  destruct (SetMessage h1 m tp (t_To t)) as [h2 ok] eqn:Es. apply (SetMessage_kept h m h1) in Es as K2; [|done..].
  destruct ok; simpl in H; injection H as <- <- <-; [|done]. split_and!; try done.
  destruct K2 as [K2o K2d K2m]. pose proof (wh_meta _ _ Hw) as (ml & Hml & _).
  destruct (stamp_spec s t tp h2 m K2o ltac:(eauto) K2m) as [S1 S2 S3 S4 S5 S6]. split; [done| |done]. by rewrite S4.
Qed.

(** What on_error makes of a message. *)
Definition byOnError (g : gear) : outcome :=
  if bool_decide (g_onError g = "drop") then Drop else if bool_decide (g_onError g = "reject") then Reject else Kill.

Lemma byOnError_not g : byOnError g ≠ Forward ∧ byOnError g ≠ Panicked.
Proof. unfold byOnError. by repeat case_bool_decide. Qed.

Lemma failWith_spec g reason e h0 m h o h' m' : whole h0 m → kept h0 m h → failWith errText g reason e h m = (o, h', m') →
  m' = m ∧ o = byOnError g ∧
  (o = Reject → g_onError g = "reject" ∧ readMeta h' (Metadata m) !! "error.gear" = Some (g_name g) ∧
     readMeta h' (Metadata m) !! "error.reason" = Some reason ∧ ∀ q, Get h' m q = Get h m q).
Proof.
  intros Hw [K1 K2 K3] H. unfold failWith, byOnError in *. case_bool_decide as Hd; [by simplify_eq|].
  case_bool_decide as Hr; injection H as <- <- <-; [|by split_and!]. split_and!; try done. intros _.
  pose proof (wh_meta _ _ Hw) as (ml & Hml & _). assert (is_Some (Metadata m)) as Hs by eauto.
  assert (stampedBy id h m h) as S0 by (by split).
  apply (putMeta_stamped _ _ _ _ "error.reason" reason Hs), (putMeta_stamped _ _ _ _ "error.gear" (g_name g) Hs),
    (putMeta_stamped _ _ _ _ "error.message" (errText e) Hs) in S0 as [_ S2 _ _ _ S6]. rewrite S6.
  rewrite (lookup_insert_ne _ _ "error.gear"), lookup_insert_eq, !lookup_insert_ne, lookup_insert_eq by done. split_and!; try done.
  intros q. by apply getPath_objs.
Qed.

(** A nil map in the message, or what loading a spec rules out: a protocol or a lookup that
    is not there. *)
Definition mayPanic (g : gear) h m : Prop :=
  Select (g_spec g) (g_translation g) h m = SelectPanic ∨
  ∃ t, Select (g_spec g) (g_translation g) h m = Selected t ∧
    (fromProto t = None ∨ toProto t = None ∨ (∃ b, b ∈ Bindings t ∧ value sprint generated (g_spec g) h m b = BPanic) ∨ nilMap h m).

Lemma Apply_mayPanic g h l m t : whole h m → Select (g_spec g) (g_translation g) h m = Selected t → ¬ mayPanic g h m →
  (Apply sprint generated (g_spec g) t h l m).1.1 ≠ ApplyPanic.
Proof.
  intros Hw Hs Hn. destruct (fromProto t) as [fp|] eqn:Hf; [|destruct Hn; right; eauto].
  destruct (toProto t) as [tp|] eqn:Ht; [|destruct Hn; right; eauto].
  apply (Apply_no_panic (g_spec g) t fp tp h l m); try done.
  - intros b Hb Hp. apply Hn. right. eauto 8.
  - intros Hnil. apply Hn. right. eauto 8.
Qed.

(** C39: The translate gear forwards a message, whose maps exist and whose data shares no
    map between two paths, exactly when a translation is selected, applies, and has no
    findings that validation enforces.  The gear can panic only for a nil map in the
    message's data or for a protocol or lookup that is not there, which loading rules
    out.  Any message that is not forwarded and does not panic goes by on_error: dropped,
    returned with its error, or emitted on the error port with the reason and the gear's
    name; and unless it was translated or a write conflicted, a rejected message has all
    its fields as they arrived. *)
Theorem translate_outcome g h l m o h' m' : whole h m → Process sprint generated errText g h l m = (o, h', m') →
  m' = m ∧
  (o = Forward ↔ accepts g h l m) ∧
  (¬ mayPanic g h m → o ≠ Panicked) ∧
  (o ≠ Forward → o ≠ Panicked → o = byOnError g) ∧
  (o = Reject → g_onError g = "reject" ∧
     readMeta h' (Metadata m) !! "error.gear" = Some (g_name g) ∧
     (readMeta h' (Metadata m) !! "error.reason" = Some ReasonViolation ∧ (∃ t fs, Select (g_spec g) (g_translation g) h m = Selected t ∧
        (Apply sprint generated (g_spec g) t h l m).1.1 = Applied fs) ∨
      readMeta h' (Metadata m) !! "error.reason" = Some ReasonFailed ∧
      ((∃ t a, Select (g_spec g) (g_translation g) h m = Selected t ∧ (Apply sprint generated (g_spec g) t h l m).1.1 = Failed (EWrite a)) ∨
       ∀ q, Get h' m q = Get h m q))).
Proof.
  intros Hw H. unfold Process in H. rewrite (ensureMaps_whole h l m Hw) in H. unfold accepts.
  destruct (Select (g_spec g) (g_translation g) h m) as [t| | |] eqn:Es.
  - destruct (Apply sprint generated (g_spec g) t h l m) as [[r h1] m1] eqn:Ea.
    destruct (Apply_cases _ _ _ _ _ _ _ _ Hw Ea) as (-> & K & Hr). destruct r as [fs|e|].
    + destruct (bool_decide (g_validation g = "off") || bool_decide (fs = [])) eqn:Ev.
      { injection H as <- <- <-. split_and!; try done. split; [|done]. intros _. exists t, fs. rewrite Ea. split_and!; try done.
        apply orb_true_iff in Ev as [Ev%bool_decide_eq_true|Ev%bool_decide_eq_true]; [right; by rewrite Ev|by left]. }
      apply orb_false_iff in Ev as [_ Hfs%bool_decide_eq_false].
      case_bool_decide as Hv.
      * apply (failWith_spec _ _ _ h) in H as (? & -> & HR); [|done|by apply put_kept]. split_and!; try done.
        -- split; [intros Ho; by destruct (byOnError_not g)|]. intros (t' & fs' & [= <-] & Hap & Hor). rewrite Ea in Hap. injection Hap as <-. tauto.
        -- intros _ Ho; by destruct (byOnError_not g).
        -- intros Ho. destruct (HR Ho) as (? & ? & ? & _). split_and!; try done. left. split; [done|]. exists t, fs. by rewrite Ea.
      * injection H as <- <- <-. split_and!; try done. split; [|done]. intros _. exists t, fs. rewrite Ea. auto.
    + apply (failWith_spec _ _ _ h) in H as (? & -> & HR); [|done|done]. split_and!; try done.
      * split; [intros Ho; by destruct (byOnError_not g)|]. intros (t' & fs & [= <-] & Hap & _). rewrite Ea in Hap. done.
      * intros _ Ho; by destruct (byOnError_not g).
      * intros Ho. destruct (HR Ho) as (? & ? & ? & Hq). split_and!; try done. right. split; [done|].
        destruct e as [n|n v|ae|a]; [right..|left]; subst; try done. exists t, a. by rewrite Ea.
    + injection H as <- <- <-. split_and!; try done.
      * split; [done|]. intros (t' & fs & [= <-] & Hap & _). by rewrite Ea in Hap.
      * intros Hn. destruct (Apply_mayPanic g h l m t Hw Es Hn). by rewrite Ea.
  - apply (failWith_spec _ _ _ h) in H as (? & -> & HR); [|done|by apply whole_kept]. split_and!; try done.
    + split; [intros Ho; by destruct (byOnError_not g)|]. by intros (? & ? & ? & _).
    + intros _ Ho; by destruct (byOnError_not g).
    + intros Ho. destruct (HR Ho) as (? & ? & ? & Hq). split_and!; try done. right. auto.
  - apply (failWith_spec _ _ _ h) in H as (? & -> & HR); [|done|by apply whole_kept]. split_and!; try done.
    + split; [intros Ho; by destruct (byOnError_not g)|]. by intros (? & ? & ? & _).
    + intros _ Ho; by destruct (byOnError_not g).
    + intros Ho. destruct (HR Ho) as (? & ? & ? & Hq). split_and!; try done. right. auto.
  - injection H as <- <- <-. split_and!; try done; [|intros Hn; destruct Hn; by left]. split; [done|]. by intros (? & ? & ? & _).
Qed.
End safe.
