(* ===== verification/TranslationExample.v ===== *)
(** * A card request translated to a payment

    An ISO 8583 purchase becomes an ISO 20022 credit transfer: the theorems of
    [Iso20022Spec] and [TranslationSpec] applied to concrete specs and a message. *)
From stdpp Require Import sorting.
From S2P Require Import Prelude FluxMsg MsgTree Clone Keys Bytes Amount Sdl Iso20022Spec Translation TranslationSpec.

Module TranslationExample.

(** ** The two protocols *)

Definition pacs : string := "pacs.008.001.08".
Definition elements_ (m : string) : option (list string) :=
  if bool_decide (m = pacs) then Some ["CdtTrf.Amt"; "CdtTrf.Ccy"; "PmtId.EndToEnd"] else None.
Definition known (m : string) : bool := bool_decide (m = pacs).

Definition field20022 (alias : string) (f : Format) : Iso20022Spec.Field :=
  Iso20022Spec.mkField alias "" "" None "" f [Iso20022Spec.mkRule pacs UsageMandatory].

Definition payment : document :=
  mkDocument "" "rtp" "1.0.0" WireSource {[pacs := Iso20022Spec.mkMessage "request" ""]} ∅
    (<["CdtTrf.Amt" := field20022 "instd_amount" (mkFormat "amount" "CdtTrf.Ccy")]>
      (<["CdtTrf.Ccy" := field20022 "instd_currency" (mkFormat "" "")]>
        {["PmtId.EndToEnd" := field20022 "end_to_end_id" (mkFormat "" "")]})) [] "".

Definition rtp : Iso20022Spec.Spec :=
  match Iso20022Spec.Load known elements_ payment with inr s => s | inl _ => mkSpec "" "" "" ∅ ∅ ∅ [] "" ∅ end.

Definition field8583 (alias ref : string) (cur : option Z) : FieldDecl :=
  Sdl.mkField "" alias "" "" "" "" None ref None (match cur with Some _ => "amount" | None => "" end) "" cur "" [] [].

Definition card : Sdl.Spec :=
  Sdl.mkSpec "card" "1.0.0" "iso8583" {["0200" := Sdl.mkMessage "purchase" "" "request" "" []]} {[currencyEnum := None]}
    (<[4%Z := field8583 "amount" "" (Some 49%Z)]> (<[11%Z := field8583 "stan" "" None]> {[49%Z := field8583 "currency" currencyEnum None]}))
    [] (mkSimulation [] ∅ ∅) [] [].

Definition cardProtocol : Protocol := iso8583Protocol "card" "1.0.0" card (fieldMeta card).
Definition rtpProtocol : Protocol := iso20022Protocol elements_ rtp.

Definition specs (ref : string) : option Protocol :=
  if bool_decide (ref = "card.yaml") then Some cardProtocol else if bool_decide (ref = "rtp.yaml") then Some rtpProtocol else None.

(** ** The translation *)

Definition plain (to from : string) : Binding := mkBinding to [from] None "" "" "" "" "".
Definition amountBinding : Binding := mkBinding "instd_amount" ["amount"] None "" "" "" "amount" "currency".

Definition doc (bindings : list Binding) : tdocument :=
  mkTDocument "translation" "card-rtp" "1.0.0" (<["card" := "card.yaml"]> {["rtp" := "rtp.yaml"]}) "" ∅ ∅
    {["pay" := mkTranslationDoc "card:0200" ("rtp:" +:+ pacs) bindings]}.

Definition loads (d : tdocument) : bool := match Load specs "hash" d with inr _ => true | inl _ => false end.

Lemma loads_spec d : loads d = true → Load specs "hash" d = inr (specOf specs "hash" d).
Proof. unfold loads. destruct (Load specs "hash" d) as [|s] eqn:E; [done|]. by apply Load_specOf in E as ->. Qed.

Definition bindings : list Binding := [plain "end_to_end_id" "stan"; amountBinding].
Definition payWith (bs : list Binding) : Translation := mkTranslation "pay" "card" "0200" "rtp" pacs bs (Some cardProtocol) (Some rtpProtocol).
Definition spec : TSpec := specOf specs "hash" (doc bindings).
Definition pay : Translation := payWith bindings.

Lemma makes_pay bs : makeTranslation (omap specs (<["card" := "card.yaml"]> {["rtp" := "rtp.yaml"]})) "pay"
  (mkTranslationDoc "card:0200" ("rtp:" +:+ pacs) bs) = payWith bs.
Proof.
  unfold makeTranslation. simpl. rewrite !lookup_omap, lookup_insert_eq, lookup_insert_ne, lookup_singleton_eq by done. done.
Qed.

Lemma has_pay bs : Translations (specOf specs "hash" (doc bs)) !! "pay" = Some (payWith bs).
Proof. simpl. rewrite map_lookup_imap, lookup_singleton_eq. rewrite <-makes_pay. done. Qed.

(** ** A message *)

Definition msg : FluxMsg := mkFluxMsg 0 0 "" 0 (Some 1%N) (Some 2%N) 0 "" [] 0.
Definition heap_ : heap :=
  mkHeap 3 {[2%N := OMapS (<["amount" := VStr "000000012345"]> (<["currency" := VStr "840"]> {["stan" := VStr "000123"]}))]}
    {[1%N := {["iso8583.mti" := "0200"]}]} {[0%N := msg]}.
Definition sprint (_ : heap) (_ : val) : string := "".
Definition generated (_ : Binding) : string := "".
Definition errText (_ : processErr) : string := "error".

Lemma flat_unshared h v l m : vloc v = Some l → objs h !! l = Some (OMapS m) → (∀ k x, m !! k = Some x → vloc x = None) → unshared h v.
Proof.
  intros Hv Hl Hm. assert (∀ ps l', reach h v ps l' → ps = []) as Hr; [|intros ps qs l' H1%Hr H2%Hr; by subst].
  intros [|p ps] l' H; [done|]. apply reach_cons in H as (y & Hy & H).
  destruct v as [| | | | |[lv|]|[lv|]| |]; simpl in *; simplify_eq; rewrite Hl in Hy; [|done].
  apply Hm in Hy. by apply leaf_reach in H.
Qed.

Lemma whole_msg : whole heap_ msg.
Proof.
  assert (∀ k x, (<["amount" := VStr "000000012345"]> (<["currency" := VStr "840"]> {["stan" := VStr "000123"]}) : gmap string val) !! k = Some x → vloc x = None) as Hflat.
  { intros k x. rewrite !lookup_insert_Some, lookup_singleton_Some. naive_solver. }
  split.
  - split; simpl.
    + intros l o [<- _]%lookup_singleton_Some. lia.
    + intros l o c _ Hl Hc l' Hl'. simpl in Hl. apply lookup_singleton_Some in Hl as [<- <-]. destruct Hc as [k Hk]. rewrite (Hflat k c Hk) in Hl'. done.
    + intros l m [<- _]%lookup_singleton_Some. lia.
    + intros l m [<- _]%lookup_singleton_Some. lia.
    + intros l m [<- <-]%lookup_singleton_Some. split; [intros d [= <-]; lia|intros d [= <-]; by eexists].
  - exists 1%N. split; [done|]. by eexists.
  - exists 2%N. split; [done|]. simpl. lia.
  - by eapply (flat_unshared _ _ 2%N); [done| |exact Hflat].
Qed.

(** ** The theorems applied *)

Lemma payment_loads : Iso20022Spec.Load known elements_ payment = inr rtp.
Proof. vm_compute. reflexivity. Qed.

Lemma aliases_exact_witness : AliasPath rtp pacs "end_to_end_id" = Some "PmtId.EndToEnd" ∧
  is_Some (Iso20022Spec.Catalog rtp !! pacs).
Proof.
  split; [vm_compute; reflexivity|].
  apply (aliases_exact known elements_ payment rtp payment_loads) with (a := "end_to_end_id") (p := "PmtId.EndToEnd").
  vm_compute. reflexivity.
Defined.

Definition result : applied * heap * FluxMsg := Apply sprint generated spec pay heap_ 0 msg.


(** No value of the message is a nil map. *)
Lemma no_nil_msg : ¬ nilMap heap_ msg.
Proof.
  intros ([|p ps] & y & Hd & Hm & Hn).
  - simpl in Hd. injection Hd as <-. apply Hn. intros k x. simpl. eauto.
  - cbn [descend] in Hd. destruct (mapGet heap_ (root msg) p) as [z|] eqn:Hz; [|done].
    assert (isMap z = false ∧ ∀ q, mapGet heap_ z q = None) as [Hf Hg].
    { revert Hz. unfold mapGet. simpl. rewrite lookup_singleton_eq, !lookup_insert_Some, lookup_singleton_Some. naive_solver. }
    destruct ps as [|q ps]; cbn [descend] in Hd; [injection Hd as <-; congruence|]. by rewrite Hg in Hd.
Qed.

Lemma loaded_translation_safe_witness : Translations spec !! "pay" = Some pay ∧
  ((Apply sprint generated spec pay heap_ 0 msg).1.1 ≠ ApplyPanic).
Proof.
  split; [apply has_pay|].
  eapply (loaded_translation_safe sprint generated specs "hash" (doc bindings) spec (λ _, None) spec "pay" pay).
  - apply loads_spec. vm_compute. reflexivity.
  - reflexivity.
  - apply has_pay.
  - exact whole_msg.
  - exact no_nil_msg.
Defined.

Definition gear_ (onError : string) : gear := mkGear "translate" spec "auto" "enforce" onError.

(** A message of another type is rejected with its fields as they arrived. *)
Definition other : heap := setMetas {[1%N := {["iso8583.mti" := "0400"]}]} heap_.

Lemma whole_other : whole other msg.
Proof.
  destruct whole_msg as [[O1 O2 O3 O4 O5] H2 H3 H4]. split; [|exists 1%N; split; [done|by eexists]|done|].
  - split; try done; simpl.
    + intros l m [<- _]%lookup_singleton_Some. lia.
    + intros l m [<- <-]%lookup_singleton_Some. split; [intros d [= <-]; lia|intros d [= <-]; by eexists].
  - by apply (unshared_objs heap_).
Qed.

Lemma translate_outcome_witness :
  (Process sprint generated errText (gear_ "drop") heap_ 0 msg).1.1 = Forward ∧
  accepts sprint generated (gear_ "drop") heap_ 0 msg ∧
  readMeta (Process sprint generated errText (gear_ "reject") other 0 msg).1.2 (Metadata msg) !! "error.gear" = Some "translate".
Proof.
  split; [vm_compute; reflexivity|]. split.
  - apply (translate_outcome sprint generated errText (gear_ "drop") heap_ 0%N msg Forward
      (Process sprint generated errText (gear_ "drop") heap_ 0 msg).1.2 msg whole_msg); vm_compute; reflexivity.
  - destruct (translate_outcome sprint generated errText (gear_ "reject") other 0%N msg Reject
      (Process sprint generated errText (gear_ "reject") other 0 msg).1.2 msg whole_other) as (_ & _ & _ & _ & Hr); [vm_compute; reflexivity|].
    by apply Hr.
Defined.

(** ** What loading does not see *)

(** The check that no alias is written twice looks at the targets and not at the
    currencies written beside amounts: a second binding to the currency loads, and the
    order of the bindings decides which value the message gets. *)
Definition fixedCurrency : Binding := mkBinding "instd_currency" [] (Some "XXX") "" "" "" "" "".

Theorem currency_written_twice :
  let bs1 := [plain "end_to_end_id" "stan"; amountBinding; fixedCurrency] in
  let bs2 := [plain "end_to_end_id" "stan"; fixedCurrency; amountBinding] in
  let run bs := Apply sprint generated (specOf specs "hash" (doc bs)) (payWith bs) heap_ 0 msg in
  Load specs "hash" (doc bs1) = inr (specOf specs "hash" (doc bs1)) ∧ Load specs "hash" (doc bs2) = inr (specOf specs "hash" (doc bs2)) ∧
  Get (run bs1).1.2 msg "instd_currency" = Some (VStr "XXX") ∧ Get (run bs2).1.2 msg "instd_currency" = Some (VStr "USD").
Proof. cbv zeta. split_and!; [apply loads_spec; vm_compute; reflexivity..|vm_compute; reflexivity|vm_compute; reflexivity]. Qed.

(** A binding to the alias of the message type loads, and its value is lost: naming the
    message writes the alias after it. *)
Definition cardMti : Sdl.Spec :=
  Sdl.mkSpec "card" "1.0.0" "iso8583" (Sdl.Catalog card) ∅
    {[0%Z := field8583 "mti" "" None; 11%Z := field8583 "stan" "" None]} [] (mkSimulation [] ∅ ∅) [] [].
Definition mtiProtocol : Protocol := iso8583Protocol "card" "1.0.0" cardMti (fieldMeta cardMti).
Definition mtiBindings : list Binding := [mkBinding "mti" [] (Some "0999") "" "" "" "" ""; plain "stan" "stan"].
Definition mtiDoc : tdocument :=
  mkTDocument "translation" "card-card" "1.0.0" {["card" := "card.yaml"]} "" ∅ ∅
    {["pay" := mkTranslationDoc "card:0200" "card:0200" mtiBindings]}.

Example mti_binding_lost :
  let specs _ := Some mtiProtocol in
  let t := mkTranslation "pay" "card" "0200" "card" "0200" mtiBindings (Some mtiProtocol) (Some mtiProtocol) in
  let s := specOf specs "hash" mtiDoc in
  Load specs "hash" mtiDoc = inr s ∧ Apply sprint generated s t heap_ 0 msg =
    (Applied [], (Apply sprint generated s t heap_ 0 msg).1.2, msg) ∧
  Get (Apply sprint generated s t heap_ 0 msg).1.2 msg "mti" = Some (VStr "0200").
Proof.
  cbv zeta. split_and!; [|vm_compute; reflexivity..].
  destruct (Load _ "hash" mtiDoc) as [e|s] eqn:E; [by vm_compute in E|]. by apply Load_specOf in E as ->.
Qed.

(** The records of an empty document are nil: the lookup loads, and every message that
    needs it fails because the lookup is not loaded. *)
Definition lookupBindings : list Binding := [mkBinding "end_to_end_id" [] None "parties.name" "" "" "" ""].
Definition lookupDoc_ : tdocument :=
  let d := doc lookupBindings in
  mkTDocument (td_Kind d) (td_ID d) (td_Version d) (td_Specs d) (td_Participant d)
    {["parties" := mkLookupDoc "card:stan" ["name"] "parties.yaml"]} ∅ (td_Translations d).

Theorem empty_lookup_loads :
  ∃ s', Load specs "hash" lookupDoc_ = inr (specOf specs "hash" lookupDoc_) ∧
    LoadLookups (λ _, Some None) (specOf specs "hash" lookupDoc_) = Some s' ∧
    (Apply sprint generated s' (payWith lookupBindings) heap_ 0 msg).1.1 = Failed (EBindLookup "parties").
Proof.
  eexists. split; [apply loads_spec; vm_compute; reflexivity|]. split; [reflexivity|].
  vm_compute. reflexivity.
Qed.
End TranslationExample.
