(* ===== verification/Artifacts.v ===== *)
(** * pkg/manager and pkg/manager/cas: the store of specs and scenarios

    A manager files documents under name:tag in an index (index.json) and their bytes in
    a content-addressed directory.  Several managers, of several processes, share both:
    each keeps the index it has read in memory and changes the shared one under a lock
    file.  The index operations are functions; an import is a sequence of steps
    (opening the blob, writing it, the update under the locks), and [sysStep] interleaves
    the imports of any number of managers with starts, crashes and failing calls.

    Parameters: golang.org/x/mod/semver is the class [Semver] with its documented laws;
    the SHA-256 of a content, in hexadecimal, is [hash]; yaml decoding of a document's
    header is [unmarshal].  The index on disk is kept decoded; an unreadable one is an
    answer of the step.  The clock is an input.  Error texts are constructors. *)
From stdpp Require Export sorting.
From Stdlib Require Import Ascii.
From S2P Require Import Prelude Tree.
Open Scope Z_scope.

(** ** Strings *)

(** [strings.Cut] at the first byte [c], and at the last. *)
Fixpoint cutFirst (c : ascii) (s : string) : option (string * string) :=
  match s with
  | EmptyString => None
  | String d r =>
      if Ascii.eqb d c then Some (EmptyString, r)
      else match cutFirst c r with Some (a, b) => Some (String d a, b) | None => None end
  end.

Fixpoint cutLast (c : ascii) (s : string) : option (string * string) :=
  match s with
  | EmptyString => None
  | String d r =>
      match cutLast c r with
      | Some (a, b) => Some (String d a, b)
      | None => if Ascii.eqb d c then Some (EmptyString, r) else None
      end
  end.

(** [strings.SplitN(s, ":", n)] for a positive [n]. *)
Fixpoint SplitN (n : nat) (s : string) : list string :=
  match n with
  | S (S _ as m) => match cutFirst ":" s with Some (a, b) => a :: SplitN m b | None => [s] end
  | _ => [s]
  end.

Fixpoint sdrop (n : nat) (s : string) : string :=
  match n, s with S m, String _ r => sdrop m r | _, _ => s end.

Fixpoint stake (n : nat) (s : string) : string :=
  match n, s with S m, String c r => String c (stake m r) | _, _ => EmptyString end.

(** ** References *)

Inductive artErr : Type :=
  | EFormat | EKind | ENotFound | ENoVersions | ENoVersion | EHash | EFile
  | ENoName | EMkdir | EBlobWrite | ELock | ERead | EVersion (tag : string) | EVersionExists | EWrite.

Definition urnFluxPrefix : string := "urn:flux:".

Definition nameTag (s : string) : artErr + (string * string) :=
  match cutLast ":" s with
  | None => inl EFormat
  | Some (name, tag) => if bool_decide (name = "" ∨ tag = "") then inl EFormat else inr (name, tag)
  end.

Definition parseURN (urn : string) : artErr + (string * string) :=
  if bool_decide (urn = "") then inl EFormat
  else if HasPrefix urn urnFluxPrefix then
    match SplitN 3 (sdrop (String.length urnFluxPrefix) urn) with
    | kind :: p1 :: p2 :: _ =>
        if bool_decide (kind ≠ "spec" ∧ kind ≠ "scenario") then inl EKind
        else nameTag (p1 +:+ String ":" p2)
    | _ => inl EFormat
    end
  else nameTag urn.

(** [filepath.Base] and [filepath.Ext] of a path, and the name a file lends. *)
Fixpoint trimSlashes (s : string) : string :=
  match s with
  | EmptyString => EmptyString
  | String c r =>
      match trimSlashes r with
      | EmptyString => if Ascii.eqb c "/" then EmptyString else String c EmptyString
      | t => String c t
      end
  end.

Definition Base (path : string) : string :=
  if bool_decide (path = "") then "."
  else match trimSlashes path with
  | EmptyString => "/"
  | p => match cutLast "/" p with Some (_, b) => b | None => p end
  end.

Definition fallbackName (filePath : string) : string :=
  let base := Base filePath in
  match cutLast "." base with Some (stem, _) => stem | None => base end.

(** ** Versions *)

Class Semver := {
  IsValid : string → bool;
  Compare : string → string → Z;
  Canonical : string → string;
  Sort : list string → list string
}.

(** [fmt.Sprintf("v%d.%d.%d", …)] *)
Definition fmtVersion (major minor patch : Z) : string :=
  "v" +:+ pretty major +:+ "." +:+ pretty minor +:+ "." +:+ pretty patch.

Definition isDigit (c : ascii) : bool :=
  (48 <=? N_of_ascii c)%N && (N_of_ascii c <=? 57)%N.

Definition digitHead (s : string) : bool :=
  match s with String c _ => isDigit c | EmptyString => false end.

(** Order of [semver.Sort]: precedence, then the strings. *)
Definition semLe `{Semver} (v w : string) : Prop := Compare v w < 0 ∨ Compare v w = 0 ∧ strLe v w.

(** The major, minor and patch number of a version, as its canonical form spells them. *)
Definition coreOf `{Semver} (v : string) (major minor patch : Z) : Prop :=
  0 ≤ major ∧ 0 ≤ minor ∧ 0 ≤ patch ∧
  ∃ rest, Canonical v = fmtVersion major minor patch +:+ rest ∧ digitHead rest = false.

Class SemverLaws `{Semver} : Prop := {
  sort_perm l : Sort l ≡ₚ l;
  sort_sorted l : StronglySorted semLe (Sort l);
  compare_antisym v w : Compare v w = - Compare w v;
  compare_trans u v w : Compare u v ≤ 0 → Compare v w ≤ 0 → Compare u w ≤ 0;
  valid_core v : IsValid v = true → ∃ major minor patch, coreOf v major minor patch;
  valid_colon v : IsValid v = true → cutFirst ":" v = None;
  valid_latest : IsValid "latest" = false;
  valid_empty : IsValid "" = false;
  valid_fmt major minor patch :
    0 ≤ major → 0 ≤ minor → 0 ≤ patch →
    IsValid (fmtVersion major minor patch) = true ∧
    Canonical (fmtVersion major minor patch) = fmtVersion major minor patch;
  compare_minor v w major minor patch minor' patch' :
    IsValid v = true → IsValid w = true →
    coreOf v major minor patch → coreOf w major minor' patch' → minor < minor' → Compare v w < 0
}.

(** [fmt.Sscanf(c, "v%d.%d.%d", …)] on a canonical version, which has no spaces: an
    optional sign and digits for each number, an error when one leaves 64 bits. *)
Fixpoint scanDigits (acc : Z) (s : string) : Z * string :=
  match s with
  | String c r => if isDigit c then scanDigits (10 * acc + Z.of_N (N_of_ascii c - 48)) r else (acc, s)
  | EmptyString => (acc, s)
  end.

Definition scanInt (s : string) : option (Z * string) :=
  let '(sign, s) := match s with
    | String c r => if Ascii.eqb c "-" then (-1, r) else if Ascii.eqb c "+" then (1, r) else (1, s)
    | EmptyString => (1, s)
    end in
  if digitHead s then
    let '(n, r) := scanDigits 0 s in
    if bool_decide (- 2 ^ 63 ≤ sign * n < 2 ^ 63) then Some (sign * n, r) else None
  else None.

Definition scanLit (c : ascii) (s : string) : option string :=
  match s with String d r => if Ascii.eqb d c then Some r else None | EmptyString => None end.

Definition scanVersion (s : string) : option (Z * Z * Z) :=
  match scanLit "v" s with
  | None => None
  | Some s =>
  match scanInt s with
  | None => None
  | Some (major, s) =>
  match scanLit "." s with
  | None => None
  | Some s =>
  match scanInt s with
  | None => None
  | Some (minor, s) =>
  match scanLit "." s with
  | None => None
  | Some s =>
  match scanInt s with
  | None => None
  | Some (patch, _) => Some (major, minor, patch)
  end end end end end end.

(** ** The index *)

Abbreviation tagMap := (gmap string string).
Abbreviation artMap := (gmap string (gmap string string)).

Record ArtifactAttrs := mkAttrs { ImportedAt : Z; Size : Z; aTitle : string; aProtocol : string }.

Record Index := mkIndex { Specs : artMap; Scenarios : artMap; Attrs : gmap string ArtifactAttrs }.

Definition emptyIndex : Index := mkIndex ∅ ∅ ∅.

Inductive Kind := KindSpec | KindScenario.
#[export] Instance Kind_eq_dec : EqDecision Kind.
Proof. solve_decision. Defined.

Definition kindString (k : Kind) : string :=
  match k with KindSpec => "spec" | KindScenario => "scenario" end.

Definition attrKey (k : Kind) (name tag : string) : string :=
  kindString k +:+ "/" +:+ name +:+ ":" +:+ tag.

Definition artifacts (k : Kind) (idx : Index) : artMap :=
  match k with KindSpec => Specs idx | KindScenario => Scenarios idx end.

Definition withArtifacts (k : Kind) (m : artMap) (idx : Index) : Index :=
  match k with
  | KindSpec => mkIndex m (Scenarios idx) (Attrs idx)
  | KindScenario => mkIndex (Specs idx) m (Attrs idx)
  end.

(** The hash filed under a kind, name and tag. *)
Definition entry (k : Kind) (idx : Index) (name tag : string) : option string :=
  artifacts k idx !! name ≫= λ tags, tags !! tag.

(** for k, v := range src \{ dst[k] = v \} *)
Definition copyInto {A} (dst src : gmap string A) : gmap string A :=
  map_fold (λ k v m, <[k := v]> m) dst src.

Definition mergeArtifacts (dst src : artMap) : artMap :=
  map_fold (λ name tags m, <[name := copyInto (default ∅ (m !! name)) tags]> m) dst src.

Definition mergeIndex (a b : Index) : Index :=
  mkIndex (mergeArtifacts (mergeArtifacts ∅ (Specs a)) (Specs b))
          (mergeArtifacts (mergeArtifacts ∅ (Scenarios a)) (Scenarios b))
          (copyInto (copyInto ∅ (Attrs a)) (Attrs b)).

Section manager.
Context `{Semver}.

Definition resolveLatest (tags : tagMap) : string :=
  let versions := filter (λ t, IsValid t = true) (map_to_list tags).*1 in
  default "" (last (Sort versions)).

Definition resolveLatestHash (tags : tagMap) : string :=
  let tag := resolveLatest tags in
  if bool_decide (tag = "") then "" else default "" (tags !! tag).

Definition calcNextMinorFrom (index : artMap) (name : string) : string :=
  let tags := default ∅ (index !! name) in
  if bool_decide (tags = ∅) then "v0.1.0"
  else
    let latest := resolveLatest tags in
    if bool_decide (latest = "") then "v0.1.0"
    else
      let c := Canonical latest in
      if bool_decide (c = "") then "v0.1.0"
      else match scanVersion c with
      | None => "v0.1.0"
      | Some (major, minor, patch) => fmtVersion major (int64 (minor + 1)) 0
      end.

Definition semverTag (v : string) : string :=
  if bool_decide (v = "") || HasPrefix v "v" then v else "v" +:+ v.

(** ** What a document declares *)

Record document := mkDocument {
  specID : string; specName : string; specVersion : string; specProtocol : string;
  metaName : string; metaVersion : string; docName : string; docVersion : string
}.

Record SpecHeader := mkHeader { hName : string; hVersion : string; hTitle : string; hProtocol : string }.

Context (unmarshal : string → option document).

Definition parseHeader (content : string) : SpecHeader :=
  match unmarshal content with
  | None => mkHeader "" "" "" ""
  | Some doc =>
      foldl (λ h c, mkHeader (if bool_decide (hName h = "") then c.1 else hName h)
                             (if bool_decide (hVersion h = "") then c.2 else hVersion h)
                             (hTitle h) (hProtocol h))
        (mkHeader "" "" (specName doc) (specProtocol doc))
        [(specID doc, specVersion doc); (specName doc, specVersion doc);
         (metaName doc, metaVersion doc); (docName doc, docVersion doc)]
  end.

(** A call of Import, ImportContent or ImportScenario: the bytes in hand, the name the
    file lends (empty for ImportContent), the overrides. *)
Record request := mkRequest {
  rKind : Kind; rContent : string; rFallback : string; rName : string; rTag : string
}.

Definition orElse (s t : string) : string := if bool_decide (s = "") then t else s.

Definition finalName (r : request) : string :=
  orElse (orElse (rName r) (hName (parseHeader (rContent r)))) (rFallback r).

Definition finalTag (r : request) (index : artMap) : string :=
  orElse (orElse (semverTag (rTag r)) (semverTag (hVersion (parseHeader (rContent r)))))
         (calcNextMinorFrom index (finalName r)).

(** The change an import makes to the current index, and the tag it files under.  Nothing
    has been changed when it fails. *)
Definition importChange (r : request) (hsh : string) (now : Z) (idx : Index) : artErr + (Index * string) :=
  let header := parseHeader (rContent r) in
  let name := finalName r in
  let index := artifacts (rKind r) idx in
  let tag := finalTag r index in
  if negb (IsValid tag) then inl (EVersion tag)
  else
    let tags := default ∅ (index !! name) in
    if bool_decide (is_Some (tags !! tag) ∧ tags !! tag ≠ Some hsh) then inl EVersionExists
    else
      let tags := <[tag := hsh]> tags in
      let tags := <["latest" := resolveLatestHash tags]> tags in
      let idx := withArtifacts (rKind r) (<[name := tags]> index) idx in
      let key := attrKey (rKind r) name tag in
      let attrs := if bool_decide (is_Some (Attrs idx !! key)) then Attrs idx
        else <[key := mkAttrs now (Z.of_nat (String.length (rContent r))) (hTitle header) (hProtocol header)]>
               (Attrs idx) in
      inr (mkIndex (Specs idx) (Scenarios idx) attrs, tag).

(** What the lock file and the file system answer to one update. *)
Inductive io := LockFails | ReadFails | WriteFails | AllFine.

(** The manager's index, the file, and the result.  The change is made in the object
    the manager has adopted, before it is written. *)
Definition updateIndex {A} (ans : io) (change : Index → artErr + (Index * A)) (mem : Index) (disk : option Index)
  : Index * option Index * (artErr + A) :=
  match ans with
  | LockFails => (mem, disk, inl ELock)
  | ReadFails => (mem, disk, inl ERead)
  | _ =>
      let current := mergeIndex mem (default emptyIndex disk) in
      match change current with
      | inl e => (current, disk, inl e)
      | inr (idx, a) =>
          match ans with
          | WriteFails => (idx, disk, inl EWrite)
          | _ => (idx, Some idx, inr a)
          end
      end
  end.

(** ** The content-addressed directory *)

Definition isLowerHex (c : ascii) : bool :=
  isDigit c || (97 <=? N_of_ascii c)%N && (N_of_ascii c <=? 102)%N.

Definition validHex (s : string) : bool :=
  (String.length s =? 64)%nat && forallb isLowerHex (String.list_ascii_of_string s).

Abbreviation blobMap := (gmap string string).

Definition Get (blobs : blobMap) (hsh : string) : artErr + string :=
  if negb (validHex hsh) then inl EHash
  else match blobs !! hsh with Some b => inr b | None => inl EFile end.

Definition Has (blobs : blobMap) (hsh : string) : bool :=
  validHex hsh && bool_decide (is_Some (blobs !! hsh)).

(** os.WriteFile opens with O_TRUNC, then writes from the start of the file. *)
Definition openTrunc (hsh : string) (blobs : blobMap) : blobMap := <[hsh := EmptyString]> blobs.

Definition writeAt0 (hsh content : string) (n : nat) (blobs : blobMap) : blobMap :=
  let old := default EmptyString (blobs !! hsh) in
  <[hsh := stake n content +:+ sdrop n old]> blobs.

Definition ShortHash (hsh : string) : string :=
  if (String.length hsh <? 12)%nat then hsh else stake 12 hsh.

Definition Ref (name tag hsh : string) : string := name +:+ ":" +:+ tag +:+ "@" +:+ ShortHash hsh.

(** ** Reading *)

Definition Load (idx : Index) (blobs : blobMap) (urn : string) : artErr + string :=
  if Has blobs urn then Get blobs urn
  else match parseURN urn with
  | inl e => inl e
  | inr (name, tag) =>
      match (match Specs idx !! name with Some tags => Some tags | None => Scenarios idx !! name end) with
      | None => inl ENotFound
      | Some tags =>
          match tags !! tag with
          | Some hsh => Get blobs hsh
          | None =>
              if bool_decide (tag = "latest") then
                let tag := resolveLatest tags in
                if bool_decide (tag = "") then inl ENoVersions
                else Get blobs (default "" (tags !! tag))
              else inl ENoVersion
          end
      end
  end.

(** Export's part that is not the output file. *)
Definition Export (idx : Index) (blobs : blobMap) (urn : string) (written : bool) : artErr + string :=
  match Load idx blobs urn with
  | inl e => inl e
  | inr content => if written then inr content else inl EFile
  end.

Record ArtifactInfo := mkInfo {
  iKind : Kind; iName : string; iTag : string; iHash : string;
  iAttrs : option ArtifactAttrs; iLatest : bool
}.

(** The order in which Go ranges over the maps is any; the listings are sorted after. *)
Definition collect (idx : Index) (k : Kind) (index : artMap) : list ArtifactInfo :=
  flat_map (λ nt,
    let '(name, tags) := nt in
    let latest := default "" (tags !! "latest") in
    flat_map (λ th,
      let '(tag, hsh) := th in
      if bool_decide (tag = "latest") then []
      else [mkInfo k name tag hsh (Attrs idx !! attrKey k name tag)
              (bool_decide (latest ≠ "" ∧ latest = hsh))])
      (map_to_list tags))
    (map_to_list index).

(** [sort.Slice]: some permutation in which no element is less than an earlier one. *)
Definition artLess (a b : ArtifactInfo) : bool :=
  if bool_decide (iKind a ≠ iKind b) then bool_decide (¬ strLe (kindString (iKind b)) (kindString (iKind a)))
  else if bool_decide (iName a ≠ iName b) then bool_decide (¬ strLe (iName b) (iName a))
  else bool_decide (Compare (iTag a) (iTag b) > 0).

Definition tagLess (a b : ArtifactInfo) : bool := bool_decide (Compare (iTag a) (iTag b) > 0).

Definition notAfter (less : ArtifactInfo → ArtifactInfo → bool) (a b : ArtifactInfo) : Prop := less b a = false.
#[export] Instance notAfter_dec less : RelDecision (notAfter less) := λ a b, decide (less b a = false).

Definition sortArtifacts (l : list ArtifactInfo) : list ArtifactInfo := merge_sort (notAfter artLess) l.

Definition List_ (idx : Index) : list ArtifactInfo :=
  sortArtifacts (collect idx KindSpec (Specs idx) ++ collect idx KindScenario (Scenarios idx)).

Definition History (idx : Index) (k : Kind) (name : string) : artErr + list ArtifactInfo :=
  match artifacts k idx !! name with
  | None => inl ENotFound
  | Some tags => inr (merge_sort (notAfter tagLess) (collect idx k {[ name := tags ]}))
  end.

(** ** Managers that share a store *)

Context (hash : string → string).

Inductive ipc := PPut | POpened | PUpdate.

(** An import in progress: the manager it runs in, its request, where it is. *)
Record import := mkImport { iProc : nat; iReq : request; iPc : ipc }.

Inductive outcome :=
  | Imported (hsh name tag : string)
  | Failed (e : artErr)
  | Crashed (opened : bool).

Record report := mkReport { pProc : nat; pReq : request; pOut : outcome }.

Record sys := mkSys {
  blobs : blobMap;
  disk : option Index;
  mems : gmap nat Index;
  imports : gmap nat import;
  reports : list report
}.

Definition sysInit : sys := mkSys ∅ None ∅ ∅ [].

(** The import [i] ends with an outcome. *)
Definition finish (i : nat) (x : import) (o : outcome) (s : sys) : sys :=
  mkSys (blobs s) (disk s) (mems s) (delete i (imports s)) (reports s ++ [mkReport (iProc x) (iReq x) o]).

Definition advance (i : nat) (x : import) (pc : ipc) (b : blobMap) (s : sys) : sys :=
  mkSys b (disk s) (mems s) (<[i := mkImport (iProc x) (iReq x) pc]> (imports s)) (reports s).

Definition setBlobs (b : blobMap) (s : sys) : sys := mkSys b (disk s) (mems s) (imports s) (reports s).

Definition isOpened (pc : ipc) : bool := match pc with POpened => true | _ => false end.

Definition crashReport (x : import) : report := mkReport (iProc x) (iReq x) (Crashed (isOpened (iPc x))).

Inductive event :=
  | EvStart (p : nat)
  | EvCrash (p : nat)
  | EvBegin (i p : nat) (r : request)
  | EvMkdirFails (i : nat)
  | EvOpen (i : nat)
  | EvWrite (i n : nat)
  | EvUpdate (i : nat) (ans : io) (now : Z).

(** NewManager: a readable index is adopted, none starts empty. *)
Definition NewManager (disk : option Index) : Index := default emptyIndex disk.

(** One step of importArtifact, of a start or of a crash; [None] where it cannot happen.
    The mutex of the manager and the lock file make the update one step. *)
Definition sysStep (s : sys) (ev : event) : option sys :=
  match ev with
  | EvStart p =>
      if bool_decide (is_Some (mems s !! p)) then None
      else Some (mkSys (blobs s) (disk s) (<[p := NewManager (disk s)]> (mems s)) (imports s) (reports s))
  | EvCrash p =>
      Some (mkSys (blobs s) (disk s) (delete p (mems s))
              (filter (λ ix, iProc ix.2 ≠ p) (imports s))
              (reports s ++ (crashReport ∘ snd <$> filter (λ ix, iProc ix.2 = p) (map_to_list (imports s)))))
  | EvBegin i p r =>
      if bool_decide (is_Some (mems s !! p)) && bool_decide (imports s !! i = None) then
        if bool_decide (finalName r = "") then
          Some (mkSys (blobs s) (disk s) (mems s) (imports s) (reports s ++ [mkReport p r (Failed ENoName)]))
        else Some (mkSys (blobs s) (disk s) (mems s) (<[i := mkImport p r PPut]> (imports s)) (reports s))
      else None
  | EvMkdirFails i =>
      match imports s !! i with
      | Some x => match iPc x with PPut => Some (finish i x (Failed EMkdir) s) | _ => None end
      | None => None
      end
  | EvOpen i =>
      match imports s !! i with
      | Some x =>
          match iPc x with
          | PPut => Some (advance i x POpened (openTrunc (hash (rContent (iReq x))) (blobs s)) s)
          | _ => None
          end
      | None => None
      end
  | EvWrite i n =>
      match imports s !! i with
      | Some x =>
          match iPc x with
          | POpened =>
              let content := rContent (iReq x) in
              let b := writeAt0 (hash content) content n (blobs s) in
              if (String.length content <=? n)%nat then Some (advance i x PUpdate b s)
              else Some (finish i x (Failed EBlobWrite) (setBlobs b s))
          | _ => None
          end
      | None => None
      end
  | EvUpdate i ans now =>
      match imports s !! i with
      | Some x =>
          match iPc x, mems s !! iProc x with
          | PUpdate, Some mem =>
              let hsh := hash (rContent (iReq x)) in
              let '(mem', disk', res) := updateIndex ans (importChange (iReq x) hsh now) mem (disk s) in
              let o := match res with
                       | inl e => Failed e
                       | inr tag => Imported hsh (finalName (iReq x)) tag
                       end in
              Some (finish i x o (mkSys (blobs s) disk' (<[iProc x := mem']> (mems s)) (imports s) (reports s)))
          | _, _ => None
          end
      | None => None
      end
  end.

Fixpoint sysSteps (s : sys) (evs : list event) : option sys :=
  match evs with
  | [] => Some s
  | ev :: evs => match sysStep s ev with Some s' => sysSteps s' evs | None => None end
  end.

Definition reachable (s : sys) : Prop := ∃ evs, sysSteps sysInit evs = Some s.

(** What a manager answers to Load. *)
Definition LoadAt (s : sys) (p : nat) (urn : string) : option (artErr + string) :=
  match mems s !! p with Some idx => Some (Load idx (blobs s) urn) | None => None end.

End manager.
