(* ===== verification/ArtifactsSpec.v ===== *)
(** * What the store of specs and scenarios promises

    Versions are immutable and never lost, over any interleaving of managers, crashes and
    failing calls; what was imported loads; "latest" is the highest version; an import
    without a version gets a new, higher one; a listing is the index. *)
From Stdlib Require Import Ascii.
From S2P Require Import Prelude Tree Artifacts.
Open Scope Z_scope.

(** ** Merging *)

Lemma copyInto_union {A} (dst src : gmap string A) : copyInto dst src = src ∪ dst.
Proof.
  unfold copyInto. apply (map_fold_weak_ind (λ r m, r = m ∪ dst)).
  - by rewrite (left_id_L ∅ (∪)).
  - intros k v m r _ ->. by rewrite insert_union_l.
Qed.

Lemma mergeArtifacts_lookup dst src n :
  mergeArtifacts dst src !! n =
  match src !! n with Some tags => Some (tags ∪ default ∅ (dst !! n)) | None => dst !! n end.
Proof.
  unfold mergeArtifacts.
  apply (map_fold_weak_ind (λ r m, r !! n = match m !! n with Some tags => Some (tags ∪ default ∅ (dst !! n)) | None => dst !! n end)).
  - by rewrite lookup_empty.
  - intros k v m r Hk IH. destruct (decide (k = n)) as [->|Hne].
    + rewrite !lookup_insert_eq, copyInto_union, IH, Hk. done.
    + by rewrite !lookup_insert_ne.
Qed.

Lemma artifacts_merge k a b :
  artifacts k (mergeIndex a b) = mergeArtifacts (mergeArtifacts ∅ (artifacts k a)) (artifacts k b).
Proof. by destruct k. Qed.

(** the entries of a merge: those of the second index, then those of the first. *)
Lemma entry_merge k a b n t :
  entry k (mergeIndex a b) n t = match entry k b n t with Some h => Some h | None => entry k a n t end.
Proof.
  unfold entry. rewrite artifacts_merge, !mergeArtifacts_lookup, lookup_empty.
  destruct (artifacts k b !! n) as [tb|] eqn:Eb, (artifacts k a !! n) as [ta|] eqn:Ea; simpl; try done.
  - rewrite (right_id_L ∅ (∪)), lookup_union. by destruct (tb !! t), (ta !! t).
  - rewrite (right_id_L ∅ (∪)). by destruct (tb !! t).
  - by rewrite (right_id_L ∅ (∪)).
Qed.

Lemma artifacts_withArtifacts k k' m idx :
  artifacts k' (withArtifacts k m idx) = if decide (k' = k) then m else artifacts k' idx.
Proof. by destruct k, k'. Qed.

(** ** One import's change *)
Section change.
Context `{SV : Semver} {SL : SemverLaws} (unmarshal : string → option document).
Abbreviation importChange := (importChange unmarshal).
Abbreviation finalName := (finalName unmarshal).
Abbreviation finalTag := (finalTag unmarshal).

(** What a change that succeeds does to the entries. *)
Lemma importChange_inr r h now idx idx' t :
  importChange r h now idx = inr (idx', t) →
  let tags := default ∅ (artifacts (rKind r) idx !! finalName r) in
  let tags1 := <[t := h]> tags in
  t = finalTag r (artifacts (rKind r) idx) ∧ IsValid t = true ∧
  (tags !! t = None ∨ tags !! t = Some h) ∧
  ∀ k, artifacts k idx' =
    if decide (k = rKind r)
    then <[finalName r := <["latest" := resolveLatestHash tags1]> tags1]> (artifacts k idx)
    else artifacts k idx.
Proof.
  unfold Artifacts.importChange. intros E.
  destruct (IsValid _) eqn:Hv; simpl in E; [|done]. case_bool_decide as Hc; [done|]. simplify_eq.
  split; [done|]. split; [done|]. split.
  - destruct (default ∅ _ !! _) as [h'|] eqn:Eh in |- *; [|by left]. right.
    destruct (decide (h' = h)) as [->|Hne]; [done|]. exfalso. apply Hc.
    rewrite Eh. split; [done|congruence].
  - intros k. assert (∀ a b c, artifacts k (mkIndex a b c) = match k with KindSpec => a | KindScenario => b end) as -> by done.
    by destruct k, (rKind r).
Qed.

Lemma importChange_entry r h now idx idx' t k n t' :
  importChange r h now idx = inr (idx', t) →
  t' ≠ "latest" →
  entry k idx' n t' = if decide (k = rKind r ∧ n = finalName r ∧ t' = t) then Some h else entry k idx n t'.
Proof.
  intros E Hl. apply importChange_inr in E as (-> & Hv & Hold & Hart). unfold entry. rewrite Hart.
  destruct (decide (k = rKind r)) as [->|Hk]; [|by rewrite decide_False by naive_solver].
  destruct (decide (n = finalName r)) as [->|Hn].
  - rewrite lookup_insert_eq. simpl. rewrite lookup_insert_ne by done.
    destruct (decide (t' = finalTag r (artifacts (rKind r) idx))) as [->|Ht].
    + by rewrite lookup_insert_eq, decide_True.
    + rewrite lookup_insert_ne, decide_False by naive_solver.
      by destruct (artifacts (rKind r) idx !! finalName r).
  - by rewrite lookup_insert_ne, decide_False by naive_solver.
Qed.

(** An entry that is there stays, whatever is imported. *)
Lemma importChange_keeps r h now idx idx' t k n t' h' :
  importChange r h now idx = inr (idx', t) → t' ≠ "latest" →
  entry k idx n t' = Some h' → entry k idx' n t' = Some h'.
Proof.
  intros E Hl He. rewrite (importChange_entry _ _ _ _ _ _ _ _ _ E Hl). case_decide as Hd; [|done].
  destruct Hd as (-> & -> & ->). apply importChange_inr in E as (_ & _ & Hold & _).
  unfold entry in He. destruct (artifacts (rKind r) idx !! finalName r) as [tags|]; simpl in *; [|done].
  rewrite He in Hold. destruct Hold; congruence.
Qed.

(** ** Every update: the file only grows, the manager's index follows it *)

(** [disk'] and [mem'] keep the entries of the file, and the imported version is in both. *)
Definition entriesLe (a b : Index) : Prop :=
  ∀ k n t h, t ≠ "latest" → entry k a n t = Some h → entry k b n t = Some h.

Abbreviation diskIndex d := (default emptyIndex d).

Lemma updateIndex_spec r h now ans mem disk mem' disk' res :
  updateIndex ans (importChange r h now) mem disk = (mem', disk', res) →
  entriesLe (diskIndex disk) (diskIndex disk') ∧
  (mem' = mem ∨ entriesLe (diskIndex disk) mem') ∧
  (∀ t, res = inr t → IsValid t = true ∧ disk' = Some mem' ∧ entry (rKind r) mem' (finalName r) t = Some h) ∧
  (ans = WriteFails ∨ disk' = disk ∨ disk' = Some mem').
Proof.
  assert (∀ a b, entriesLe b (mergeIndex a b)) as Hm.
  { intros a b k n t h' _ E. by rewrite entry_merge, E. }
  assert (∀ a, entriesLe a a) as Hrefl by (intros a k n t h' _ E; exact E).
  assert (∀ idx t, importChange r h now (mergeIndex mem (diskIndex disk)) = inr (idx, t) →
    entriesLe (diskIndex disk) idx) as Hc.
  { intros idx t Ec k n t' h' Hl He. eapply importChange_keeps; [done..|by apply Hm]. }
  unfold updateIndex. intros E.
  destruct ans; simplify_eq; [naive_solver..| |];
    destruct (importChange r h now _) as [e|[idx t]] eqn:Ec; simplify_eq.
  - naive_solver.
  - naive_solver.
  - naive_solver.
  - split; [by eapply Hc|]. split; [right; by eapply Hc|]. split; [|by auto].
    intros t' [= <-]. pose proof (importChange_inr _ _ _ _ _ _ Ec) as (Et & Hv & _).
    split; [done|]. split; [done|]. assert (t ≠ "latest") by (pose proof valid_latest; congruence).
    by rewrite (importChange_entry _ _ _ _ _ _ _ _ _ Ec), decide_True.
Qed.
End change.

(** ** Any number of managers *)
Section system.
Context `{SV : Semver} {SL : SemverLaws} (unmarshal : string → option document) (hash : string → string).
Abbreviation finalName := (finalName unmarshal).
Abbreviation sysStep := (sysStep unmarshal hash).
Abbreviation sysSteps := (sysSteps unmarshal hash).
Abbreviation reachable := (reachable unmarshal hash).
Abbreviation diskIndex d := (default emptyIndex d).

(** The report says that the import filed its content under this kind, name and tag. *)
Definition filed (s : sys) (e : report) (k : Kind) (n t h : string) : Prop :=
  e ∈ reports s ∧ rKind (pReq e) = k ∧ pOut e = Imported h n t.

Record inv (s : sys) : Prop := {
  inv_named i x : imports s !! i = Some x → finalName (iReq x) ≠ "";
  inv_filed e k n t h : filed s e k n t h →
    IsValid t = true ∧ n = finalName (pReq e) ∧ n ≠ "" ∧ h = hash (rContent (pReq e)) ∧
    entry k (diskIndex (disk s)) n t = Some h ∧
    ∀ m, mems s !! pProc e = Some m → entry k m n t = Some h
}.

Lemma valid_not_latest t : IsValid t = true → t ≠ "latest".
Proof. pose proof valid_latest. congruence. Qed.

(** Adding reports that file nothing, forgetting managers and imports keeps it. *)
Lemma inv_weaken s b ms xs rs :
  inv s → (∀ p m, ms !! p = Some m → mems s !! p = Some m ∨ m = diskIndex (disk s)) →
  (∀ i x, xs !! i = Some x → finalName (iReq x) ≠ "") →
  (∀ e, e ∈ rs → e ∈ reports s ∨ ∀ h n t, pOut e ≠ Imported h n t) →
  inv (mkSys b (disk s) ms xs rs).
Proof.
  intros [Hn Hf] Hms His Hrs. split; simpl; [exact His|].
  intros e k n t h (He & Hk & Ho). destruct (Hrs e He) as [He'|Hno]; [|by destruct (Hno h n t)].
  destruct (Hf e k n t h) as (? & ? & ? & ? & Hd & Hm); [done|]. repeat split; try done.
  intros m Em. destruct (Hms _ _ Em) as [?| ->]; auto.
Qed.

Lemma inv_update s i x mem ans now mem' disk' res :
  inv s → imports s !! i = Some x → mems s !! iProc x = Some mem →
  updateIndex ans (importChange unmarshal (iReq x) (hash (rContent (iReq x))) now) mem (disk s) = (mem', disk', res) →
  inv (finish i x (match res with inl e => Failed e | inr tag => Imported (hash (rContent (iReq x))) (finalName (iReq x)) tag end)
         (mkSys (blobs s) disk' (<[iProc x := mem']> (mems s)) (imports s) (reports s))).
Proof.
  intros [Hn Hf] Hi Hm Hu. apply updateIndex_spec in Hu as (Hle & Hmem & Hok & _).
  split; simpl; [intros j y [_ Hj]%lookup_delete_Some; eauto|].
  intros e k n t h (He & Hk & Ho). apply elem_of_app in He as [He|He]; simpl in *.
  - destruct (Hf e k n t h) as (Hv & ? & ? & ? & Hd & Hms); [done|].
    pose proof (valid_not_latest _ Hv). repeat split; try done; [by apply Hle|].
    intros m [[E ->]|[_ E]]%lookup_insert_Some; [|eauto]. destruct Hmem as [->|Hmem]; [|by apply Hmem].
    apply Hms. by rewrite <-E.
  - apply list_elem_of_singleton in He as ->. simpl in *. destruct res as [?|t']; [done|]. simplify_eq.
    destruct (Hok t) as (Hv & -> & Ht); [done|]. repeat split; eauto.
    intros m. rewrite lookup_insert_eq. by intros [= <-].
Qed.

Lemma inv_step s ev s' : inv s → sysStep s ev = Some s' → inv s'.
Proof.
  intros Hi. pose proof (inv_named s Hi) as Hn.
  assert (∀ e o, e ∈ reports s ++ [o] → (∀ h n t, pOut o ≠ Imported h n t) →
    e ∈ reports s ∨ ∀ h n t, pOut e ≠ Imported h n t) as Hadd.
  { intros e o [?|Hx%list_elem_of_singleton]%elem_of_app; subst; auto. }
  assert (∀ i j x, delete i (imports s) !! j = Some x → finalName (iReq x) ≠ "") as Hdel.
  { intros i j x [_ ?]%lookup_delete_Some. eauto. }
  assert (∀ i x pc, imports s !! i = Some x → ∀ j y,
    <[i := mkImport (iProc x) (iReq x) pc]> (imports s) !! j = Some y → finalName (iReq y) ≠ "") as Hins.
  { intros i x pc Hx j y [[_ <-]|[_ ?]]%lookup_insert_Some; simpl; eauto. }
  destruct ev as [p|p|i p r|i|i|i n|i ans now]; simpl; intros E.
  - case_bool_decide; simplify_eq. apply inv_weaken; auto.
    intros q m [[_ <-]|[_ ?]]%lookup_insert_Some; auto.
  - simplify_eq. apply inv_weaken; auto.
    + intros q m [_ ?]%lookup_delete_Some. auto.
    + intros i x [? _]%map_lookup_filter_Some. eauto.
    + intros e [?|Hc]%elem_of_app; [auto|]. right.
      apply list_elem_of_fmap in Hc as (x & -> & _). done.
  - case_match eqn:Eb; [|done]. case_bool_decide as Hname; simplify_eq.
    + apply inv_weaken; eauto.
    + apply inv_weaken; eauto. intros j x [[_ <-]|[_ ?]]%lookup_insert_Some; simpl; eauto.
  - destruct (imports s !! i) as [x|] eqn:Ex; [|done]. destruct (iPc x); simplify_eq.
    apply inv_weaken; eauto.
  - destruct (imports s !! i) as [x|] eqn:Ex; [|done]. destruct (iPc x); simplify_eq.
    apply inv_weaken; eauto.
  - destruct (imports s !! i) as [x|] eqn:Ex; [|done]. destruct (iPc x); try done.
    case_match; simplify_eq; apply (inv_weaken s); eauto.
  - destruct (imports s !! i) as [x|] eqn:Ex; [|done]. destruct (iPc x); try done.
    destruct (mems s !! iProc x) as [mem|] eqn:Em; [|done].
    destruct (updateIndex _ _ _ _) as [[mem' disk'] res] eqn:Eu. simplify_eq. eapply inv_update; eauto.
Qed.

Lemma sysSteps_snoc s evs ev :
  sysSteps s (evs ++ [ev]) = match sysSteps s evs with Some s' => sysStep s' ev | None => None end.
Proof.
  revert s. induction evs as [|e evs IH]; intros s; simpl.
  - by destruct (sysStep s ev).
  - by destruct (sysStep s e).
Qed.

(** Induction over the runs, last step first. *)
Lemma reachable_ind (P : sys → Prop) :
  P sysInit → (∀ s ev s', reachable s → P s → sysStep s ev = Some s' → P s') → ∀ s, reachable s → P s.
Proof.
  intros Hinit HS s [evs E]. revert s E. induction evs as [|ev evs IH] using rev_ind; intros s E.
  - by simplify_eq/=.
  - rewrite sysSteps_snoc in E. destruct (sysSteps sysInit evs) as [s1|] eqn:E1; [|done].
    eapply HS; [by exists evs|by apply IH|done].
Qed.

Lemma inv_reachable s : reachable s → inv s.
Proof.
  revert s. apply reachable_ind.
  - split; simpl; [done|]. intros e k n t h (He & _). by apply elem_of_nil in He.
  - intros s ev s' _ Hi E. by eapply inv_step.
Qed.

(** C32: versions are immutable and never lost. Whatever managers, in whatever processes,
    import at the same time, crash, restart and fail to lock, read or write the index:
    the version an import has reported is in the index file with the hash of the
    imported content, and in the memory of its own manager; and two imports that
    reported the same kind, name and version imported contents of the same hash. *)
Theorem versions_immutable s e k n t h :
  reachable s → filed s e k n t h →
  IsValid t = true ∧ h = hash (rContent (pReq e)) ∧
  (∃ d, disk s = Some d ∧ entry k d n t = Some h) ∧
  (∀ m, mems s !! pProc e = Some m → entry k m n t = Some h) ∧
  ∀ e' h', filed s e' k n t h' → hash (rContent (pReq e')) = hash (rContent (pReq e)).
Proof.
  intros Hr Hf. apply inv_reachable in Hr.
  destruct (inv_filed s Hr _ _ _ _ _ Hf) as (Hv & _ & _ & Hh & Hd & Hm).
  split; [done|]. split; [done|]. split; [|split; [done|]].
  - destruct (disk s) as [d|]; [eauto|]. unfold entry in Hd. by destruct k.
  - intros e' h' Hf'. destruct (inv_filed s Hr _ _ _ _ _ Hf') as (_ & _ & _ & Hh' & Hd' & _). congruence.
Qed.
End system.
