(* ===== verification/ArtifactsLoad.v ===== *)
(** * What was imported loads

    References read back as the name and tag they spell; a blob is complete unless a write
    of it is in progress or was interrupted; so an import that reported success loads with
    the bytes it was given. *)
From Stdlib Require Import Ascii.
From S2P Require Import Prelude Tree Artifacts ArtifactsSpec.
Open Scope Z_scope.

(** ** References *)

Lemma cutLast_none c s : cutFirst c s = None → cutLast c s = None.
Proof.
  induction s as [|d s IH]; simpl; [done|]. destruct (Ascii.eqb d c); [done|].
  destruct (cutFirst c s) as [[? ?]|]; [done|]. by intros; rewrite IH.
Qed.

(** The last separator is the one before a part without any. *)
Lemma cutLast_app c a b : cutFirst c b = None → cutLast c (a +:+ String c b) = Some (a, b).
Proof.
  intros Hb. induction a as [|d a IH]; simpl.
  - rewrite cutLast_none, Ascii.eqb_refl by done. done.
  - by rewrite IH.
Qed.

Lemma cutFirst_app c a b : cutFirst c a = None → cutFirst c (a +:+ String c b) = Some (a, b).
Proof.
  intros Ha. induction a as [|d a IH]; simpl in *; [by rewrite Ascii.eqb_refl|].
  destruct (Ascii.eqb d c); [done|]. destruct (cutFirst c a) as [[? ?]|]; [done|]. by rewrite IH.
Qed.

(** Some cut exists where the separator occurs. *)
Lemma cutFirst_mid c a b : ∃ x y, cutFirst c (a +:+ String c b) = Some (x, y) ∧ x +:+ String c y = a +:+ String c b.
Proof.
  induction a as [|d a IH]; simpl.
  - rewrite Ascii.eqb_refl. by exists "", b.
  - destruct (Ascii.eqb d c) eqn:E.
    + apply Ascii.eqb_eq in E as ->. by exists "", (a +:+ String c b).
    + destruct IH as (x & y & -> & E'). exists (String d x), y. split; [done|]. exact (f_equal (String d) E').
Qed.

Lemma nameTag_app n t : n ≠ "" → t ≠ "" → cutFirst ":" t = None → nameTag (n +:+ String ":" t) = inr (n, t).
Proof.
  intros Hn Ht Hc. unfold nameTag. rewrite cutLast_app by done.
  by rewrite bool_decide_false by naive_solver.
Qed.

(** The two ways to write a reference. *)
Definition shortRef (n t : string) : string := n +:+ String ":" t.
Definition fullRef (k : Kind) (n t : string) : string := urnFluxPrefix +:+ kindString k +:+ String ":" (n +:+ String ":" t).

Lemma parse_short n t :
  n ≠ "" → t ≠ "" → cutFirst ":" t = None → HasPrefix (shortRef n t) urnFluxPrefix = false →
  parseURN (shortRef n t) = inr (n, t).
Proof.
  intros Hn Ht Hc Hp. unfold parseURN. rewrite bool_decide_false, Hp by (by destruct n).
  by apply nameTag_app.
Qed.

Lemma parse_full k n t :
  n ≠ "" → t ≠ "" → cutFirst ":" t = None → parseURN (fullRef k n t) = inr (n, t).
Proof.
  intros Hn Ht Hc. destruct (cutFirst_mid ":" n t) as (x & y & E & Exy).
  assert (parseURN (fullRef k n t) = nameTag (x +:+ String ":" y)) as ->; [|by rewrite Exy; apply nameTag_app].
  destruct k; unfold parseURN, fullRef; simpl; rewrite E; done.
Qed.

(** A reference is not a hash. *)
Lemma list_ascii_app a b :
  String.list_ascii_of_string (a +:+ b) = String.list_ascii_of_string a ++ String.list_ascii_of_string b.
Proof. induction a as [|c a IH]; [done|exact (f_equal (cons c) IH)]. Qed.

Lemma colon_not_hex a b : validHex (a +:+ String ":" b) = false.
Proof. unfold validHex. rewrite list_ascii_app, forallb_app. simpl. by rewrite !andb_false_r. Qed.

Lemma fullRef_colon k n t : ∃ a b, fullRef k n t = a +:+ String ":" b.
Proof. unfold fullRef. by exists "urn", ("flux:" +:+ kindString k +:+ String ":" (n +:+ String ":" t)). Qed.

(** ** Writing a blob *)

Lemma stake_all n s : (String.length s ≤ n)%nat → stake n s = s.
Proof. revert n. induction s as [|c s IH]; intros [|n] Hl; simpl in *; [done..|lia|]. by rewrite IH by lia. Qed.

Lemma sdrop_all n s : (String.length s ≤ n)%nat → sdrop n s = "".
Proof. revert n. induction s as [|c s IH]; intros [|n] Hl; simpl in *; [done..|lia|]. by rewrite IH by lia. Qed.

Lemma append_empty s : s +:+ "" = s.
Proof. induction s as [|c s IH]; [done|exact (f_equal (String c) IH)]. Qed.

Lemma length_append a b : String.length (a +:+ b) = (String.length a + String.length b)%nat.
Proof. induction a as [|c a IH]; [done|exact (f_equal S IH)]. Qed.

Lemma length_overwrite n c b :
  (String.length b ≤ String.length c)%nat → (String.length (stake n c +:+ sdrop n b) ≤ String.length c)%nat.
Proof.
  rewrite length_append. revert c b. induction n as [|n IH]; intros c b Hl; simpl; [lia|].
  destruct c as [|x c], b as [|y b]; simpl in *; try lia.
  - specialize (IH c ""). rewrite sdrop_all in IH by (simpl; lia). simpl in IH. lia.
  - specialize (IH c b). lia.
Qed.

Lemma length_default_blob (o : option string) c :
  (∀ b, o = Some b → (String.length b ≤ String.length c)%nat) →
  (String.length (default "" o) ≤ String.length c)%nat.
Proof. intros Hl. destruct o; simpl; [by apply Hl|lia]. Qed.

Section load.
Context `{SV : Semver} {SL : SemverLaws} (unmarshal : string → option document) (hash : string → string).
Abbreviation sysStep := (sysStep unmarshal hash).
Abbreviation reachable := (reachable unmarshal hash).

(** Contents the imports so far were given. *)
Definition seen (s : sys) (c : string) : Prop :=
  (∃ i x, imports s !! i = Some x ∧ rContent (iReq x) = c) ∨
  (∃ e, e ∈ reports s ∧ rContent (pReq e) = c).

(** A write of the blob of [c] is in progress; one has been interrupted. *)
Definition opening (s : sys) (c : string) : Prop :=
  ∃ i x, imports s !! i = Some x ∧ iPc x = POpened ∧ rContent (iReq x) = c.

Definition interrupted (s : sys) (c : string) : Prop :=
  ∃ e, e ∈ reports s ∧ (pOut e = Failed EBlobWrite ∨ pOut e = Crashed true) ∧ rContent (pReq e) = c.

(** Some import of [c] is past its write. *)
Definition stored (s : sys) (c : string) : Prop :=
  (∃ i x, imports s !! i = Some x ∧ iPc x = PUpdate ∧ rContent (iReq x) = c) ∨
  (∃ e h n t, e ∈ reports s ∧ pOut e = Imported h n t ∧ rContent (pReq e) = c).

Definition alone (s : sys) (c : string) : Prop := ∀ c', seen s c' → hash c' = hash c → c' = c.

Record blobInv (c : string) (s : sys) : Prop := {
  blob_len b : blobs s !! hash c = Some b → (String.length b ≤ String.length c)%nat;
  blob_full : opening s c ∨ interrupted s c ∨ blobs s !! hash c = Some c ∨ ¬ stored s c
}.

(** Crashes report the imports they end. *)
Lemma crash_reports s p e :
  e ∈ (crashReport ∘ snd <$> filter (λ ix, iProc ix.2 = p) (map_to_list (imports s))) ↔
  ∃ i x, imports s !! i = Some x ∧ iProc x = p ∧ e = crashReport x.
Proof.
  rewrite list_elem_of_fmap. split.
  - intros ([i x] & -> & [Hp Hx]%list_elem_of_filter). apply elem_of_map_to_list in Hx. eauto.
  - intros (i & x & Hx & Hp & ->). exists (i, x). split; [done|]. apply list_elem_of_filter.
    split; [done|]. by apply elem_of_map_to_list.
Qed.

(** Steps that leave the blob of [c] alone. *)
Lemma blobInv_frame c s s' :
  blobInv c s → blobs s' !! hash c = blobs s !! hash c →
  (opening s c → opening s' c ∨ interrupted s' c) → (interrupted s c → interrupted s' c) →
  (stored s' c → stored s c) → blobInv c s'.
Proof. intros [Hl Hf] Eb Ho Hi Hs. split; rewrite Eb; [done|]. naive_solver. Qed.

Lemma interrupted_app s b d ms xs rs c :
  interrupted s c → interrupted (mkSys b d ms xs (reports s ++ rs)) c.
Proof. intros (e & He & Ht & Hc). exists e. simpl. rewrite elem_of_app. auto. Qed.

Lemma stored_finish s i x o b d ms c :
  stored (finish i x o (mkSys b d ms (imports s) (reports s))) c →
  stored s c ∨ (∃ h n t, o = Imported h n t) ∧ rContent (iReq x) = c.
Proof.
  unfold stored. simpl.
  intros [(j & y & [_ Hy]%lookup_delete_Some & Hu & Hc)|(e & h & n & t & He & Hout & Hc)]; [eauto 10|].
  apply elem_of_app in He as [He|He]; [left; right; eauto 10|].
  apply list_elem_of_singleton in He. subst e. eauto 10.
Qed.

Lemma opening_finish s i x o b d ms c :
  imports s !! i = Some x → opening s c →
  opening (finish i x o (mkSys b d ms (imports s) (reports s))) c ∨ iPc x = POpened ∧ rContent (iReq x) = c.
Proof.
  intros Hx (j & y & Hy & Hop & Hc). destruct (decide (i = j)) as [<-|Hne]; [right; by simplify_eq|].
  left. exists j, y. simpl. by rewrite lookup_delete_ne.
Qed.

(** An import leaves its place, with a report that is no import of it, or with one. *)
Lemma blobInv_finish c s i x o b d ms :
  blobInv c s → imports s !! i = Some x → b !! hash c = blobs s !! hash c → iPc x ≠ POpened →
  (∀ h n t, o = Imported h n t → iPc x = PUpdate) →
  blobInv c (finish i x o (mkSys b d ms (imports s) (reports s))).
Proof.
  intros Hb Hx Eb Hpc Ho. eapply blobInv_frame; eauto; simpl.
  - intros Hop. destruct (opening_finish s i x o b d ms c Hx Hop) as [|[? _]]; [auto|done].
  - apply (interrupted_app s).
  - intros [|[(h & n & t & ->) Hc]]%stored_finish; [done|]. left. exists i, x. eauto.
Qed.

Lemma blobInv_open c s i x :
  blobInv c s → alone s c → imports s !! i = Some x → iPc x = PPut →
  blobInv c (advance i x POpened (openTrunc (hash (rContent (iReq x))) (blobs s)) s).
Proof.
  intros Hb Ha Hx Hpc. destruct (decide (hash (rContent (iReq x)) = hash c)) as [E|E].
  - rewrite E. split; simpl; unfold openTrunc.
    + intros b. rewrite lookup_insert_eq. intros [= <-]. simpl. lia.
    + left. exists i, (mkImport (iProc x) (iReq x) POpened). simpl. rewrite lookup_insert_eq.
      split; [done|]. split; [done|]. apply Ha; [|done]. left. eauto.
  - eapply blobInv_frame; eauto; simpl.
    + unfold openTrunc. by rewrite lookup_insert_ne.
    + intros (j & y & Hy & Hop & Hc). left. exists j, y. split; [|done]. simpl.
      rewrite lookup_insert_ne; [done|]. congruence.
    + intros [(j & y & Hy & Hu & Hc)|Hr]; [|by right]. simpl in Hy. left.
      apply lookup_insert_Some in Hy as [[_ <-]|[_ ?]]; [done|eauto].
Qed.

Lemma blobInv_written c s i x :
  blobInv c s → alone s c → imports s !! i = Some x → iPc x = POpened → ∀ n,
  (String.length (rContent (iReq x)) ≤ n)%nat →
  blobInv c (advance i x PUpdate (writeAt0 (hash (rContent (iReq x))) (rContent (iReq x)) n (blobs s)) s).
Proof.
  intros Hb Ha Hx Hpc n Hn. destruct (decide (hash (rContent (iReq x)) = hash c)) as [E|E].
  - assert (rContent (iReq x) = c) as Ec by (apply Ha; [left; eauto|done]).
    assert (writeAt0 (hash (rContent (iReq x))) (rContent (iReq x)) n (blobs s) !! hash c = Some c) as Ew.
    { unfold writeAt0. rewrite E, Ec, lookup_insert_eq. rewrite Ec in Hn.
      rewrite (stake_all n c), sdrop_all, append_empty; [done| |done].
      etransitivity; [|exact Hn]. apply length_default_blob. apply Hb. }
    split; simpl; rewrite Ew; [|auto]. intros b [= <-]. done.
  - eapply blobInv_frame; eauto; simpl.
    + unfold writeAt0. by rewrite lookup_insert_ne.
    + intros (j & y & Hy & Hop & Hc). left. exists j, y. split; [|done]. simpl.
      rewrite lookup_insert_ne; [done|]. congruence.
    + intros [(j & y & Hy & Hu & Hc)|Hr]; [|by right]. simpl in Hy. left.
      apply lookup_insert_Some in Hy as [[_ <-]|[_ ?]]; [simpl in *; congruence|eauto].
Qed.

Lemma blobInv_torn c s i x :
  blobInv c s → alone s c → imports s !! i = Some x → iPc x = POpened → ∀ n,
  blobInv c (finish i x (Failed EBlobWrite)
    (setBlobs (writeAt0 (hash (rContent (iReq x))) (rContent (iReq x)) n (blobs s)) s)).
Proof.
  intros Hb Ha Hx Hpc n. destruct (decide (hash (rContent (iReq x)) = hash c)) as [E|E].
  - assert (rContent (iReq x) = c) as Ec by (apply Ha; [left; eauto|done]).
    split; simpl; unfold writeAt0.
    + intros b. rewrite E, Ec, lookup_insert_eq. intros [= <-].
      apply length_overwrite, length_default_blob. apply Hb.
    + right. left. exists (mkReport (iProc x) (iReq x) (Failed EBlobWrite)).
      simpl. rewrite elem_of_app, list_elem_of_singleton. auto.
  - eapply blobInv_frame; eauto; simpl.
    + unfold writeAt0. by rewrite lookup_insert_ne.
    + intros Hop. edestruct (opening_finish s i x) as [Ho|[_ Ec]]; [done..|by left; exact Ho|congruence].
    + apply (interrupted_app s).
    + intros [|[(h & m & t & ?) _]]%stored_finish; done.
Qed.
Lemma blobInv_crash c s p s' : blobInv c s → sysStep s (EvCrash p) = Some s' → blobInv c s'.
Proof.
  intros Hb E. simplify_eq/=. eapply blobInv_frame; [done|done|..].
  - intros (i & x & Hx & Hop & Hc). destruct (decide (iProc x = p)) as [Hp|Hp].
    + right. exists (crashReport x). simpl. rewrite elem_of_app, crash_reports.
      split; [right; by exists i, x|]. split; [right; by rewrite Hop|done].
    + left. exists i, x. simpl. by rewrite map_lookup_filter_Some.
  - apply interrupted_app.
  - unfold stored. simpl.
    intros [(i & x & [Hx _]%map_lookup_filter_Some & Hu & Hc)|(e & h & n & t & He & Ho & Hc)]; [left; eauto|].
    apply elem_of_app in He as [He|He]; [right; eauto 10|]. by apply crash_reports in He as (i & x & _ & _ & ->).
Qed.

Lemma blobInv_begin c s i p r s' : blobInv c s → sysStep s (EvBegin i p r) = Some s' → blobInv c s'.
Proof.
  intros Hb E. simpl in E. destruct (_ && _) eqn:Eg; [|done].
  apply andb_true_iff in Eg as [_ Hfree%bool_decide_eq_true].
  case_bool_decide; simplify_eq; eapply blobInv_frame; eauto; simpl.
  - apply interrupted_app.
  - unfold stored. simpl. intros [?|(e & h & n & t & He & Ho & Hc)]; [by left|].
    apply elem_of_app in He as [He|He]; [right; eauto 10|]. apply list_elem_of_singleton in He. by subst e.
  - intros (j & y & Hy & Hop). left. exists j, y. simpl. rewrite lookup_insert_ne; [done|]. congruence.
  - unfold stored. simpl. intros [(j & y & Hy & Hu & Hc)|?]; [|by right]. left.
    apply lookup_insert_Some in Hy as [[_ <-]|[_ ?]]; [done|eauto].
Qed.

Lemma blobInv_step c s ev s' : alone s c → blobInv c s → sysStep s ev = Some s' → blobInv c s'.
Proof.
  intros Ha Hb. destruct ev as [p|p|i p r|i|i|i n|i ans now];
    [|by apply blobInv_crash|by apply blobInv_begin|..]; simpl; intros E.
  1: { case_bool_decide; simplify_eq. by eapply blobInv_frame; eauto. }
  all: destruct (imports s !! i) as [x|] eqn:Ex; [|done]; destruct (iPc x) eqn:Epc; simplify_eq.
  - eapply blobInv_finish; eauto; congruence.
  - by apply blobInv_open.
  - case_match eqn:En; simplify_eq; [apply blobInv_written; eauto; by apply Nat.leb_le|by apply blobInv_torn].
  - destruct (mems s !! iProc x); [|done]. destruct (updateIndex _ _ _ _) as [[mem' disk'] res]. simplify_eq.
    eapply blobInv_finish; eauto; congruence.
Qed.

(** The contents given stay on record. *)
Lemma seen_step s ev s' c : sysStep s ev = Some s' → seen s c → seen s' c.
Proof.
  assert (∀ i x pc b, imports s !! i = Some x → seen s c → seen (advance i x pc b s) c) as Hadv.
  { intros i x pc b Hx [(j & y & Hy & Hc)|He]; [|by right]. left.
    destruct (decide (i = j)) as [<-|Hne].
    - simplify_eq. eexists i, _. simpl. by rewrite lookup_insert_eq.
    - exists j, y. simpl. by rewrite lookup_insert_ne. }
  assert (∀ i x o b d ms, imports s !! i = Some x → seen s c →
    seen (finish i x o (mkSys b d ms (imports s) (reports s))) c) as Hfin.
  { intros i x o b d ms Hx [(j & y & Hy & Hc)|(e & He & Hc)]; unfold seen; simpl.
    - destruct (decide (i = j)) as [<-|Hne].
      + right. simplify_eq. eexists (mkReport _ _ _). rewrite elem_of_app, list_elem_of_singleton. eauto.
      + left. exists j, y. by rewrite lookup_delete_ne.
    - right. exists e. rewrite elem_of_app. auto. }
  destruct ev as [p|p|i p r|i|i|i n|i ans now]; simpl; intros E Hs.
  1: { by case_bool_decide; simplify_eq. }
  1: { simplify_eq. destruct Hs as [(j & y & Hy & Hc)|(e & He & Hc)]; unfold seen; simpl.
    - destruct (decide (iProc y = p)).
      + right. exists (crashReport y). rewrite elem_of_app, crash_reports. eauto 10.
      + left. exists j, y. by rewrite map_lookup_filter_Some.
    - right. exists e. rewrite elem_of_app. auto. }
  1: { destruct (_ && _) eqn:Eg; [|done]. apply andb_true_iff in Eg as [_ Hfree%bool_decide_eq_true].
    case_bool_decide; simplify_eq; destruct Hs as [(j & y & Hy & Hc)|(e & He & Hc)]; unfold seen; simpl.
    - left. eauto.
    - right. exists e. rewrite elem_of_app. auto.
    - left. exists j, y. rewrite lookup_insert_ne; [done|]. congruence.
    - right. eauto. }
  all: destruct (imports s !! i) as [x|] eqn:Ex; [|done]; destruct (iPc x) eqn:Epc; simplify_eq; eauto.
  - case_match; simplify_eq; eauto.
  - destruct (mems s !! iProc x); [|done]. destruct (updateIndex _ _ _ _) as [[mem' disk'] res]. simplify_eq.
    by apply Hfin.
Qed.

Lemma blobInv_reachable c s : reachable s → alone s c → blobInv c s.
Proof.
  revert s. apply (reachable_ind unmarshal hash (λ s, alone s c → blobInv c s)).
  - intros _. split; simpl; [done|]. do 3 right.
    intros [(i & x & Hx & _)|(e & h & n & t & He & _)]; [done|by apply elem_of_nil in He].
  - intros s ev s' _ IH E Ha. assert (alone s c) as Ha' by (intros c' Hs; apply Ha; by eapply seen_step).
    by eapply (blobInv_step c s); auto.
Qed.

(** What a manager answers to a reference whose name it knows. *)
Lemma Load_ref idx bs urn k n t c :
  validHex (hash c) = true → validHex urn = false → parseURN urn = inr (n, t) →
  entry k idx n t = Some (hash c) → (k = KindSpec ∨ Specs idx !! n = None) → bs !! hash c = Some c →
  Load idx bs urn = inr c.
Proof.
  intros Hx Hu Hp He Hk Hb. unfold Load, Has. rewrite Hu, Hp. simpl. unfold entry in He.
  assert (Get bs (hash c) = inr c) as Hget by (unfold Get; by rewrite Hx, Hb).
  destruct k; simpl in He.
  - destruct (Specs idx !! n) as [tags|]; [|done]. simpl in He. by rewrite He.
  - destruct Hk as [?| ->]; [done|]. destruct (Scenarios idx !! n) as [tags|]; [|done]. simpl in He. by rewrite He.
Qed.

(** what was imported loads. An import that reported success is answered, by its own
    manager and by any manager whose index has the version, with exactly the bytes it was
    given, under the full reference and, unless the name itself starts like one, under
    name:tag. The blob must not be in the middle of a write, nor left torn by an
    interrupted one, no other content may have the same hash, and no spec may hide a
    scenario of that name. *)
Theorem import_then_load s e k n t h p idx :
  (∀ c, validHex (hash c) = true) →
  reachable s → filed s e k n t h →
  alone s (rContent (pReq e)) → ¬ opening s (rContent (pReq e)) → ¬ interrupted s (rContent (pReq e)) →
  mems s !! p = Some idx → (p = pProc e ∨ entry k idx n t = Some h) →
  (k = KindSpec ∨ Specs idx !! n = None) →
  LoadAt s p (fullRef k n t) = Some (inr (rContent (pReq e))) ∧
  (HasPrefix (shortRef n t) urnFluxPrefix = false →
   LoadAt s p (shortRef n t) = Some (inr (rContent (pReq e)))).
Proof.
  intros Hx Hr Hf Ha Hno Hni Hp Hw Hk. pose proof (blobInv_reachable _ s Hr Ha) as [_ Hfull].
  destruct (inv_filed _ _ s (inv_reachable _ _ s Hr) _ _ _ _ _ Hf) as (Hv & Hn & Hn0 & Hh & _ & Hmem).
  assert (stored s (rContent (pReq e))) as Hst.
  { right. destruct Hf as (? & _ & ?). eauto 10. }
  assert (blobs s !! hash (rContent (pReq e)) = Some (rContent (pReq e))) as Hb by naive_solver.
  assert (entry k idx n t = Some (hash (rContent (pReq e)))) as He.
  { destruct Hw as [->|?]; [|congruence]. rewrite <-Hh. by apply Hmem. }
  pose proof (valid_colon _ Hv) as Hc. assert (t ≠ "") as Ht by (pose proof valid_empty; congruence).
  unfold LoadAt. rewrite Hp. split.
  - f_equal. eapply Load_ref; eauto using parse_full. destruct (fullRef_colon k n t) as (a & b & ->). apply colon_not_hex.
  - intros Hpre. f_equal. eapply Load_ref; eauto using parse_short. apply colon_not_hex.
Qed.
End load.
