(* ===== verification/ArtifactsLatest.v ===== *)
(** * Versions: the latest, the next, the listing *)
From Stdlib Require Import Ascii.
From S2P Require Import Prelude Tree Artifacts ArtifactsSpec ArtifactsLoad.
Open Scope Z_scope.

(** ** Reading numbers back *)

Lemma digit_of x : (x < 10)%N → isDigit (pretty_N_char x) = true ∧ Z.of_N (N_of_ascii (pretty_N_char x) - 48) = Z.of_N x.
Proof.
  intros Hx. assert (x = 0 ∨ x = 1 ∨ x = 2 ∨ x = 3 ∨ x = 4 ∨ x = 5 ∨ x = 6 ∨ x = 7 ∨ x = 8 ∨ x = 9)%N as Hc by lia.
  by repeat destruct Hc as [->|Hc]; [..|subst x].
Qed.

Lemma pretty_go_app x s rest : pretty_N_go x s +:+ rest = pretty_N_go x (s +:+ rest).
Proof.
  revert s. induction (N.lt_wf_0 x) as [x _ IH]; intros s.
  destruct (decide (x = 0)%N) as [->|Hx]; [by rewrite !pretty_N_go_0|].
  rewrite !(pretty_N_go_step x) by lia. by rewrite IH by (apply N.div_lt; lia).
Qed.

Lemma scanDigits_go x s : scanDigits 0 (pretty_N_go x s) = scanDigits (Z.of_N x) s.
Proof.
  revert s. induction (N.lt_wf_0 x) as [x _ IH]; intros s.
  destruct (decide (x = 0)%N) as [->|Hx]; [by rewrite pretty_N_go_0|].
  rewrite (pretty_N_go_step x) by lia. rewrite IH by (apply N.div_lt; lia). simpl.
  pose proof (N.mod_lt x 10). destruct (digit_of (x `mod` 10)) as [-> ->]; [lia|]. f_equal.
  rewrite N2Z.inj_div, N2Z.inj_mod. simpl. pose proof (Z.div_mod (Z.of_N x) 10). lia.
Qed.

Lemma digitHead_go x s : x ≠ 0%N ∨ digitHead s = true → digitHead (pretty_N_go x s) = true.
Proof.
  revert s. induction (N.lt_wf_0 x) as [x _ IH]; intros s Hs.
  destruct (decide (x = 0)%N) as [->|Hx]; [rewrite pretty_N_go_0; naive_solver|].
  rewrite (pretty_N_go_step x) by lia. apply IH; [apply N.div_lt; lia|]. right. simpl.
  apply digit_of, N.mod_lt. done.
Qed.

Lemma scanDigits_stop z s : digitHead s = false → scanDigits z s = (z, s).
Proof. destruct s as [|c s]; simpl; [done|]. by intros ->. Qed.

Lemma pretty_nonneg z rest : 0 ≤ z →
  ∃ s, pretty z +:+ rest = s ∧ digitHead s = true ∧ (digitHead rest = false → scanDigits 0 s = (z, rest)).
Proof.
  intros Hz. eexists. split; [done|]. destruct z as [|p|p]; [|clear Hz|lia].
  - change (pretty 0 +:+ rest) with (String "0" rest). simpl. split; [done|]. by apply scanDigits_stop.
  - change (pretty (Z.pos p)) with (pretty (N.pos p)). unfold pretty, pretty_N. rewrite decide_False by done.
    rewrite pretty_go_app. change ("" +:+ rest) with rest. split; [apply digitHead_go; by left|].
    intros Hr. rewrite scanDigits_go. by apply scanDigits_stop.
Qed.

Lemma scanInt_pretty z rest :
  0 ≤ z < 2 ^ 63 → digitHead rest = false → scanInt (pretty z +:+ rest) = Some (z, rest).
Proof.
  intros Hz Hr. destruct (pretty_nonneg z rest) as (s & -> & Hd & Hs); [lia|]. specialize (Hs Hr).
  unfold scanInt. destruct s as [|c s]; [done|].
  assert (Ascii.eqb c "-" = false ∧ Ascii.eqb c "+" = false) as [-> ->].
  { split; apply Ascii.eqb_neq; intros ->; done. }
  rewrite Hd, Hs. rewrite bool_decide_true by lia. repeat f_equal; lia.
Qed.

Lemma fmtVersion_app major minor patch rest :
  fmtVersion major minor patch +:+ rest =
  String "v" (pretty major +:+ String "." (pretty minor +:+ String "." (pretty patch +:+ rest))).
Proof.
  assert (∀ a b c : string, (a +:+ b) +:+ c = a +:+ (b +:+ c)) as Hassoc.
  { intros a b c. induction a as [|x a IH]; [done|exact (f_equal (String x) IH)]. }
  unfold fmtVersion. by rewrite !Hassoc.
Qed.

Lemma scanVersion_fmt major minor patch rest :
  0 ≤ major < 2 ^ 63 → 0 ≤ minor < 2 ^ 63 → 0 ≤ patch < 2 ^ 63 → digitHead rest = false →
  scanVersion (fmtVersion major minor patch +:+ rest) = Some (major, minor, patch).
Proof.
  intros H1 H2 H3 Hr. unfold scanVersion. rewrite fmtVersion_app.
  simpl. rewrite scanInt_pretty by done. simpl. rewrite scanInt_pretty by done. simpl. by rewrite scanInt_pretty.
Qed.

(** ** The highest version *)
Section latest.
Context `{SV : Semver} {SL : SemverLaws}.

Lemma compare_refl v : Compare v v = 0.
Proof. pose proof (compare_antisym v v). lia. Qed.

Lemma semLe_refl v : semLe v v.
Proof. right. split; [apply compare_refl|]. by destruct (strLe_total v v). Qed.

Lemma semLe_antisym v w : semLe v w → semLe w v → v = w.
Proof.
  unfold semLe. rewrite (compare_antisym w v). intros [?|[? ?]] [?|[? ?]]; try lia. by apply strLe_antisym.
Qed.

Lemma semLe_compare v w : semLe v w → Compare v w ≤ 0.
Proof. intros [?|[? _]]; lia. Qed.

Lemma compare_le_lt u v w : Compare u v ≤ 0 → Compare v w < 0 → Compare u w < 0.
Proof.
  intros H1 H2. assert (Compare u w ≤ 0) as H3 by (apply (compare_trans u v w); lia).
  destruct (decide (Compare u w = 0)) as [E|]; [|lia]. exfalso.
  assert (Compare w v ≤ 0); [|rewrite compare_antisym in H2; lia].
  apply (compare_trans w u v); [|done]. rewrite compare_antisym. lia.
Qed.

Lemma last_sorted (l : list string) x y : StronglySorted semLe l → last l = Some y → x ∈ l → semLe x y.
Proof.
  induction 1 as [|z l Hl IH Hall]; [done|]. intros Hy Hx. apply elem_of_cons in Hx as [->|Hx].
  - destruct l as [|z' l]; simplify_eq/=; [apply semLe_refl|].
    rewrite Forall_forall in Hall. apply Hall. by apply last_Some_elem_of.
  - apply IH; [|done]. destruct l; [by apply elem_of_nil in Hx|done].
Qed.

(** [resolveLatest]: the highest valid tag, or none. *)
Lemma resolveLatest_spec (tags : tagMap) :
  (resolveLatest tags = "" ∧ ∀ t, is_Some (tags !! t) → IsValid t = false) ∨
  (IsValid (resolveLatest tags) = true ∧ is_Some (tags !! resolveLatest tags) ∧
   ∀ t, is_Some (tags !! t) → IsValid t = true → semLe t (resolveLatest tags)).
Proof.
  unfold resolveLatest. set (vs := filter _ _).
  assert (∀ t, t ∈ Sort vs ↔ is_Some (tags !! t) ∧ IsValid t = true) as Hin.
  { intros t. rewrite sort_perm. unfold vs. rewrite list_elem_of_filter, list_elem_of_fmap. split.
    - intros [Hv ([t' h] & -> & Ht)]. apply elem_of_map_to_list in Ht. eauto.
    - intros [[h Ht] Hv]. split; [done|]. exists (t, h). split; [done|]. by apply elem_of_map_to_list. }
  destruct (last (Sort vs)) as [y|] eqn:El; simpl.
  - right. destruct (Hin y) as [Hy _]. destruct Hy as [? ?]; [by apply last_Some_elem_of|].
    split; [done|]. split; [done|]. intros t Ht Hv. eapply last_sorted; [apply sort_sorted|done|]. by apply Hin.
  - left. split; [done|]. intros t Ht. apply last_None in El. destruct (IsValid t) eqn:Hv; [|done].
    assert (t ∈ Sort vs) as Hx by (by apply Hin). rewrite El in Hx. by apply elem_of_nil in Hx.
Qed.

(** [t] is the highest version of [tags], filed with hash [h]. *)
Definition highest (tags : tagMap) (t h : string) : Prop :=
  IsValid t = true ∧ tags !! t = Some h ∧
  ∀ t', is_Some (tags !! t') → IsValid t' = true → Compare t' t ≤ 0.

Definition latestOk (tags : tagMap) : Prop := ∃ t h, highest tags t h ∧ tags !! "latest" = Some h.

Lemma latestOk_insert (tags : tagMap) t0 :
  IsValid t0 = true → is_Some (tags !! t0) → latestOk (<["latest" := resolveLatestHash tags]> tags).
Proof.
  intros Hv0 Ht0. destruct (resolveLatest_spec tags) as [[_ Hno]|(Hv & [h Hh] & Hmax)].
  { rewrite Hno in Hv0 by done. done. }
  assert (∀ t, IsValid t = true → t ≠ "latest") as Hl by (intros t ?; by apply valid_not_latest).
  exists (resolveLatest tags), h. split; [split; [done|split]|].
  - rewrite lookup_insert_ne; [done|]. symmetry. auto.
  - intros t' Ht' Hv'. apply semLe_compare, Hmax; [|done]. rewrite lookup_insert_ne in Ht'; [done|]. symmetry. auto.
  - rewrite lookup_insert_eq. f_equal. unfold resolveLatestHash. rewrite bool_decide_false, Hh; [done|].
    intros E. rewrite E, valid_empty in Hv. done.
Qed.

(** ** The next version *)

Context (unmarshal : string → option document).
Abbreviation importChange := (importChange unmarshal).
Abbreviation finalName := (finalName unmarshal).
Abbreviation finalTag := (finalTag unmarshal).

(** The numbers of a version fit a Go int, with room for the next minor. *)
Definition inRange (t : string) : Prop :=
  ∀ major minor patch, coreOf t major minor patch → major < 2 ^ 63 ∧ minor + 1 < 2 ^ 63 ∧ patch < 2 ^ 63.

Lemma fmtVersion_core major minor patch :
  0 ≤ major → 0 ≤ minor → 0 ≤ patch → coreOf (fmtVersion major minor patch) major minor patch.
Proof.
  intros H1 H2 H3. split; [done|]. split; [done|]. split; [done|]. exists "".
  rewrite append_empty. split; [by apply valid_fmt|done].
Qed.

Lemma calcNextMinor_spec (index : artMap) name :
  let tags := default ∅ (index !! name) in
  (∀ t, is_Some (tags !! t) → IsValid t = true → inRange t) →
  IsValid (calcNextMinorFrom index name) = true ∧
  ∀ t, is_Some (tags !! t) → IsValid t = true → Compare t (calcNextMinorFrom index name) < 0.
Proof.
  intros tags Hr. unfold calcNextMinorFrom. fold tags.
  assert (IsValid "v0.1.0" = true) as H010 by (apply (valid_fmt 0 1 0); lia).
  case_bool_decide as He.
  { split; [done|]. intros t [h Ht]. by rewrite He in Ht. }
  destruct (resolveLatest_spec tags) as [[-> Hno]|(Hv & Hin & Hmax)].
  { rewrite bool_decide_true by done. split; [done|]. intros t Ht Hv. rewrite Hno in Hv by done. done. }
  set (l := resolveLatest tags) in *.
  rewrite bool_decide_false by (intros E; rewrite E, valid_empty in Hv; done).
  destruct (valid_core l Hv) as (major & minor & patch & Hc). pose proof (Hr l Hin Hv _ _ _ Hc) as (R1 & R2 & R3).
  pose proof Hc as (P1 & P2 & P3 & rest & Ec & Hd).
  rewrite bool_decide_false by (by rewrite Ec). rewrite Ec, scanVersion_fmt by (done || lia).
  rewrite int64_id by lia.
  assert (IsValid (fmtVersion major (minor + 1) 0) = true) as Hvn by (apply valid_fmt; lia).
  split; [done|]. intros t Ht Hvt. apply (compare_le_lt t l); [by apply semLe_compare, Hmax|].
  eapply (compare_minor _ _ major minor patch (minor + 1) 0); eauto; [|lia]. apply fmtVersion_core; lia.
Qed.

(** an import without a version gets a new and higher one. A document that declares no
    version, imported without a tag, is always filed: under a tag that no content had
    before, of higher precedence than every version of that name in the index, as long as
    the version numbers there are below 2^63 - 1. *)
Theorem unversioned_import_is_next r h now idx :
  let tags := default ∅ (artifacts (rKind r) idx !! finalName r) in
  rTag r = "" → hVersion (parseHeader unmarshal (rContent r)) = "" →
  (∀ t, is_Some (tags !! t) → IsValid t = true → inRange t) →
  ∃ idx' t, importChange r h now idx = inr (idx', t) ∧
    IsValid t = true ∧ tags !! t = None ∧ entry (rKind r) idx' (finalName r) t = Some h ∧
    ∀ t', is_Some (tags !! t') → IsValid t' = true → Compare t' t < 0.
Proof.
  intros tags Ht Hh Hr. destruct (calcNextMinor_spec _ _ Hr) as [Hv Hlt].
  set (t := calcNextMinorFrom (artifacts (rKind r) idx) (finalName r)) in *.
  assert (finalTag r (artifacts (rKind r) idx) = t) as Et by (unfold Artifacts.finalTag; by rewrite Ht, Hh).
  assert (tags !! t = None) as Hnew.
  { destruct (tags !! t) eqn:E; [|done]. pose proof (Hlt t (mk_is_Some _ _ E) Hv). rewrite compare_refl in *. lia. }
  destruct (importChange r h now idx) as [e|[idx' t']] eqn:Ec.
  - exfalso. unfold Artifacts.importChange in Ec. rewrite Et, Hv in Ec. simpl in Ec.
    case_bool_decide as Hc; [|done]. destruct Hc as [[? Hc] _]. fold tags in Hc. congruence.
  - pose proof (importChange_inr _ _ _ _ _ _ _ Ec) as (Et' & _). rewrite Et in Et'. subst t'.
    exists idx', t. repeat split; try done.
    rewrite (importChange_entry _ _ _ _ _ _ _ _ _ _ Ec), decide_True; [done..|]. by apply valid_not_latest.
Qed.

(** ** The latest version, over any run in which no index write failed *)

Context (hash : string → string).
Abbreviation sysStep := (sysStep unmarshal hash).
Abbreviation reachable := (reachable unmarshal hash).
Abbreviation diskIndex d := (default emptyIndex d).

(** Every name and tag of [a] is one of [b]. *)
Definition keysLe (a b : Index) : Prop :=
  ∀ k n tags, artifacts k a !! n = Some tags → ∃ tags', artifacts k b !! n = Some tags' ∧ dom tags ⊆ dom tags'.

Definition allLatest (idx : Index) : Prop := ∀ k n tags, artifacts k idx !! n = Some tags → latestOk tags.

Lemma keysLe_refl a : keysLe a a.
Proof. intros k n tags E. eauto. Qed.

Lemma keysLe_trans a b c : keysLe a b → keysLe b c → keysLe a c.
Proof.
  intros Hab Hbc k n tags E. destruct (Hab _ _ _ E) as (tb & Eb & Sb). destruct (Hbc _ _ _ Eb) as (tc & Ec & Sc).
  exists tc. split; [done|]. by etransitivity.
Qed.

(** Merging an older copy changes nothing. *)
Lemma merge_older k a b : keysLe a b → artifacts k (mergeIndex a b) = artifacts k b.
Proof.
  intros Hle. rewrite artifacts_merge. apply map_eq. intros n. rewrite !mergeArtifacts_lookup, lookup_empty.
  destruct (artifacts k a !! n) as [ta|] eqn:Ea.
  - destruct (Hle _ _ _ Ea) as (tb & -> & Hsub). f_equal. simpl. rewrite (right_id_L ∅ (∪)).
    apply map_eq. intros t. rewrite lookup_union. destruct (tb !! t) as [h|] eqn:Eb; [by destruct (ta !! t)|].
    destruct (ta !! t) as [h|] eqn:Et; [|done].
    assert (t ∈ dom tb) as Hd by (apply Hsub, elem_of_dom; eauto). apply elem_of_dom in Hd as [? ?]. congruence.
  - destruct (artifacts k b !! n) as [tb|]; simpl; [|done]. by rewrite (right_id_L ∅ (∪)).
Qed.

Lemma change_latest r h now idx idx' t d :
  (∀ k, artifacts k idx = artifacts k d) → allLatest d →
  importChange r h now idx = inr (idx', t) → allLatest idx' ∧ keysLe d idx'.
Proof.
  intros Ed Hd Ec. pose proof (importChange_inr _ _ _ _ _ _ _ Ec) as (_ & Hv & _ & Hart). split; intros k n tags.
  - rewrite Hart. destruct (decide (k = rKind r)) as [->|_]; rewrite Ed; [|apply Hd].
    intros [[_ <-]|[_ E]]%lookup_insert_Some; [|by eapply Hd].
    eapply latestOk_insert; [done|]. by rewrite lookup_insert_eq.
  - intros E. rewrite Hart. destruct (decide (k = rKind r)) as [->|_]; rewrite ?Ed; [|eauto].
    destruct (decide (n = finalName r)) as [->|Hn].
    + rewrite lookup_insert_eq, E. eexists. split; [done|]. simpl. rewrite !dom_insert_L. set_solver.
    + rewrite lookup_insert_ne by done. eauto.
Qed.

(** The file and every manager's copy have the right latest, and no copy is ahead. *)
Record latestInv (s : sys) : Prop := {
  latest_disk : allLatest (diskIndex (disk s));
  latest_mem p m : mems s !! p = Some m → allLatest m ∧ keysLe m (diskIndex (disk s))
}.

Definition noFailedWrite (s : sys) : Prop := ∀ e, e ∈ reports s → pOut e ≠ Failed EWrite.

Lemma update_latest r h now ans mem disk mem' disk' res :
  allLatest (diskIndex disk) → allLatest mem → keysLe mem (diskIndex disk) →
  updateIndex ans (importChange r h now) mem disk = (mem', disk', res) → res ≠ inl EWrite →
  allLatest (diskIndex disk') ∧ allLatest mem' ∧ keysLe mem' (diskIndex disk') ∧
  keysLe (diskIndex disk) (diskIndex disk').
Proof.
  intros Hd Hm Hle E Hw. unfold updateIndex in E.
  assert (∀ k, artifacts k (mergeIndex mem (diskIndex disk)) = artifacts k (diskIndex disk)) as Hmerge
    by (intros; by apply merge_older).
  assert (allLatest (mergeIndex mem (diskIndex disk))) as Hml by (intros k n tags; rewrite Hmerge; apply Hd).
  assert (keysLe (mergeIndex mem (diskIndex disk)) (diskIndex disk)) as Hmk
    by (intros k n tags; rewrite Hmerge; apply keysLe_refl).
  destruct ans; simplify_eq; [by auto using keysLe_refl..| |];
    destruct (importChange r h now _) as [e|[idx t]] eqn:Ec; simplify_eq; [by auto using keysLe_refl..|].
  destruct (change_latest _ _ _ _ _ _ _ Hmerge Hd Ec). by auto using keysLe_refl.
Qed.

Lemma latestInv_mem s s' :
  latestInv s → disk s' = disk s → (∀ p m, mems s' !! p = Some m → mems s !! p = Some m ∨ m = diskIndex (disk s)) →
  latestInv s'.
Proof.
  intros [Hd Hm] Ed Hms. split; rewrite Ed; [done|]. intros p m E.
  destruct (Hms _ _ E) as [E'| ->]; [by eapply Hm|by auto using keysLe_refl].
Qed.

Lemma latestInv_step s ev s' : latestInv s → noFailedWrite s' → sysStep s ev = Some s' → latestInv s'.
Proof.
  intros Hi Hw E. destruct ev as [p|p|i p r|i|i|i n|i ans now]; simpl in E.
  - case_bool_decide; simplify_eq. eapply latestInv_mem; [done|done|]. simpl.
    intros q m [[_ <-]|[_ ?]]%lookup_insert_Some; auto.
  - simplify_eq. eapply latestInv_mem; [done|done|]. simpl. intros q m [_ ?]%lookup_delete_Some. auto.
  - break_in E; eapply latestInv_mem; eauto.
  - break_in E; eapply latestInv_mem; eauto.
  - break_in E; eapply latestInv_mem; eauto.
  - break_in E; eapply latestInv_mem; eauto.
  - destruct (imports s !! i) as [x|] eqn:Ex; [|done]. destruct (iPc x); try done.
    destruct (mems s !! iProc x) as [mem|] eqn:Em; [|done]. destruct Hi as [Hd Hm].
    destruct (updateIndex _ _ _ _) as [[mem' disk'] res] eqn:Eu. simplify_eq.
    destruct (Hm _ _ Em) as [Hml Hmk].
    eapply update_latest in Eu as (Hd' & Hm' & Hk' & Hdd); eauto.
    + split; simpl; [done|]. intros p m [[_ <-]|[_ E]]%lookup_insert_Some; [done|].
      destruct (Hm _ _ E). split; [done|]. by eapply keysLe_trans.
    + intros ->. eapply (Hw (mkReport _ _ (Failed EWrite))); [|done]. simpl. rewrite elem_of_app, list_elem_of_singleton. by right.
Qed.

Lemma reports_step s ev s' : sysStep s ev = Some s' → ∀ e, e ∈ reports s → e ∈ reports s'.
Proof.
  intros E e He. destruct ev; simpl in E; break_in E; simplify_eq; simpl; rewrite ?elem_of_app; auto.
Qed.

Lemma latestInv_reachable s : reachable s → noFailedWrite s → latestInv s.
Proof.
  revert s. apply (reachable_ind unmarshal hash (λ s, noFailedWrite s → latestInv s)).
  - intros _. split; simpl; [|done]. by intros [] n tags E.
  - intros s ev s' _ IH E Hw. eapply latestInv_step; eauto. apply IH. intros e He. eapply Hw, reports_step; eauto.
Qed.

(** latest is the highest version. In any run in which no index write has failed, in
    every manager's index and for every artefact in it, "latest" is filed with the hash of
    a version than which no other version of the artefact has higher precedence, whatever
    the order of the imports; and a reference to "latest" loads that version's blob. *)
Theorem latest_is_highest s p m k n tags :
  reachable s → noFailedWrite s → mems s !! p = Some m → artifacts k m !! n = Some tags → n ≠ "" →
  (k = KindSpec ∨ Specs m !! n = None) →
  ∃ t h, highest tags t h ∧ tags !! "latest" = Some h ∧
    LoadAt s p (fullRef k n "latest") = Some (Get (blobs s) h).
Proof.
  intros Hr Hw Hp Hn Hne Hk. destruct (latestInv_reachable s Hr Hw) as [_ Hm].
  destruct (Hm _ _ Hp) as [Hl _]. destruct (Hl _ _ _ Hn) as (t & h & Hh & Hlat). exists t, h.
  split; [done|]. split; [done|]. unfold LoadAt. rewrite Hp. f_equal. unfold Load, Has.
  destruct (fullRef_colon k n "latest") as (a & b & E). rewrite E, colon_not_hex, <-E, parse_full by done. simpl.
  destruct k; simpl in Hn; [by rewrite Hn, Hlat|]. destruct Hk as [?| ->]; [done|]. by rewrite Hn, Hlat.
Qed.
End latest.

(** ** Listings *)
Section listing.
Context `{SV : Semver} {SL : SemverLaws}.

(** What the listing shows of one version. *)
Definition infoOf (idx : Index) (k : Kind) (n t h : string) : ArtifactInfo :=
  let latest := default "" (entry k idx n "latest") in
  mkInfo k n t h (Attrs idx !! attrKey k n t) (bool_decide (latest ≠ "" ∧ latest = h)).

Lemma elem_of_collect idx k index info :
  info ∈ collect idx k index ↔
  ∃ n tags t h, index !! n = Some tags ∧ tags !! t = Some h ∧ t ≠ "latest" ∧
    info = mkInfo k n t h (Attrs idx !! attrKey k n t)
             (bool_decide (default "" (tags !! "latest") ≠ "" ∧ default "" (tags !! "latest") = h)).
Proof.
  unfold collect. rewrite list_elem_of_In, in_flat_map. split.
  - intros ([n tags] & Hn & Hi). rewrite <-list_elem_of_In, elem_of_map_to_list in Hn.
    apply in_flat_map in Hi as ([t h] & Ht & Hi). rewrite <-list_elem_of_In, elem_of_map_to_list in Ht.
    case_bool_decide; [done|]. destruct Hi as [<-|[]]. eauto 10.
  - intros (n & tags & t & h & Hn & Ht & Hl & ->). exists (n, tags).
    rewrite <-list_elem_of_In, elem_of_map_to_list. split; [done|]. apply in_flat_map. exists (t, h).
    rewrite <-list_elem_of_In, elem_of_map_to_list. split; [done|]. destruct (bool_decide_reflect (t = "latest")); [done|by left].
Qed.

Lemma elem_of_collect_kind idx k info :
  info ∈ collect idx k (artifacts k idx) ↔
  ∃ n t h, t ≠ "latest" ∧ entry k idx n t = Some h ∧ info = infoOf idx k n t h.
Proof.
  rewrite elem_of_collect. unfold infoOf, entry. split.
  - intros (n & tags & t & h & Hn & Ht & Hl & ->). exists n, t, h. rewrite Hn. simpl. by split_and!.
  - intros (n & t & h & Hl & He & ->). destruct (artifacts k idx !! n) as [tags|] eqn:Hn; [|done].
    exists n, tags, t, h. by split_and!.
Qed.

(** Newest first within a name. *)
Definition newer (a b : ArtifactInfo) : Prop := Compare (iTag b) (iTag a) ≤ 0.

Lemma notAfter_lex a b :
  notAfter artLess a b ↔
  iKind a ≠ iKind b ∧ strLe (kindString (iKind a)) (kindString (iKind b)) ∨
  iKind a = iKind b ∧ (iName a ≠ iName b ∧ strLe (iName a) (iName b) ∨ iName a = iName b ∧ newer a b).
Proof.
  unfold notAfter, artLess, newer. rewrite (compare_antisym (iTag b)).
  case_bool_decide as Hk; [case_bool_decide; naive_solver|].
  case_bool_decide as Hn; [case_bool_decide; naive_solver|].
  case_bool_decide; [|naive_solver lia]. split; [done|]. naive_solver lia.
Qed.

#[local] Instance notAfter_total : Total (notAfter artLess).
Proof.
  intros a b. rewrite !notAfter_lex. destruct (decide (iKind a = iKind b)) as [Ek|Ek].
  - destruct (decide (iName a = iName b)) as [En|En].
    + unfold newer. rewrite (compare_antisym (iTag b)). destruct (decide (Compare (iTag a) (iTag b) < 0)).
      * right. right. split; [done|]. right. split; [done|]. lia.
      * left. right. split; [done|]. right. split; [done|]. lia.
    + destruct (strLe_total (iName a) (iName b)); naive_solver.
  - destruct (strLe_total (kindString (iKind a)) (kindString (iKind b))); naive_solver.
Qed.

Lemma kindString_inj k k' : kindString k = kindString k' → k = k'.
Proof. by destruct k, k'. Qed.

#[local] Instance notAfter_trans : Transitive (notAfter artLess).
Proof.
  intros a b c. rewrite !notAfter_lex. unfold newer.
  assert (∀ x y z : string, x ≠ y → strLe x y → y ≠ z → strLe y z → x ≠ z ∧ strLe x z) as Hs.
  { intros x y z Hxy Lxy Hyz Lyz. split; [|by etransitivity]. intros ->. apply Hxy. by apply strLe_antisym. }
  intros [[Nab Lab]|[Eab [[Nn Ln]|[En Cn]]]] [[Nbc Lbc]|[Ebc [[Nm Lm]|[Em Cm]]]]; try (by left; split; congruence).
  - left. destruct (Hs _ _ _ (λ E, Nab (kindString_inj _ _ E)) Lab (λ E, Nbc (kindString_inj _ _ E)) Lbc) as [N L].
    split; [congruence|done].
  - right. split; [congruence|]. left. by eapply Hs.
  - right. split; [congruence|]. left. by rewrite <-Em.
  - right. split; [congruence|]. left. by rewrite En.
  - right. split; [congruence|]. right. split; [congruence|]. by eapply compare_trans.
Qed.

(** the listing is the index. List returns exactly the versions of both kinds that the
    index has, each with its hash and recorded attributes and the mark of the latest, the
    alias "latest" left out; sorted by kind, then name, and newest version first. *)
Theorem listing_exact idx :
  (∀ info, info ∈ List_ idx ↔
     ∃ k n t h, t ≠ "latest" ∧ entry k idx n t = Some h ∧ info = infoOf idx k n t h) ∧
  StronglySorted (λ a b,
    strLe (kindString (iKind a)) (kindString (iKind b)) ∧
    (iKind a = iKind b → strLe (iName a) (iName b) ∧ (iName a = iName b → newer a b))) (List_ idx).
Proof.
  unfold List_, sortArtifacts. split.
  - intros info. rewrite merge_sort_Permutation, elem_of_app, (elem_of_collect_kind idx KindSpec),
      (elem_of_collect_kind idx KindScenario). split; [naive_solver|]. intros ([] & ?); naive_solver.
  - induction (StronglySorted_merge_sort (notAfter artLess) (collect idx KindSpec (Specs idx) ++ collect idx KindScenario (Scenarios idx)))
      as [|a l _ IH Hall]; constructor; [done|]. eapply Forall_impl; [done|]. intros b Hab%notAfter_lex. simpl.
    assert (∀ x y : string, x = y → strLe x y) as Hrefl by (intros x y ->; by destruct (strLe_total y y)).
    destruct Hab as [[? ?]|[Ek [[? ?]|[En ?]]]]; split; auto; try done; try (apply Hrefl; by rewrite Ek).
Qed.
End listing.
