(* ===== verification/ArtifactsExample.v ===== *)
(** * A concrete store: versions vM.m.p, two managers, and runs of theirs *)
From Stdlib Require Import Ascii.
From S2P Require Import Prelude Tree Artifacts ArtifactsSpec ArtifactsLoad ArtifactsLatest.
Open Scope Z_scope.

Module ArtifactsExample.

(** ** Versions without shorthands, pre-releases and build metadata *)

Definition parseV (s : string) : option (list Z) :=
  match scanLit "v" s with
  | None => None
  | Some s =>
      let '(a, s) := scanDigits 0 s in
      match scanLit "." s with
      | None => None
      | Some s =>
          let '(b, s) := scanDigits 0 s in
          match scanLit "." s with
          | None => None
          | Some s => Some [a; b; (scanDigits 0 s).1]
          end
      end
  end.

Definition spell (l : list Z) : string :=
  match l with [a; b; c] => fmtVersion a b c | _ => "" end.

Definition valid (s : string) : bool :=
  match parseV s with Some l => String.eqb (spell l) s | None => false end.

Definition key (s : string) : list Z := if valid s then default [] (parseV s) else [].

Fixpoint lex (l m : list Z) : Z :=
  match l, m with
  | [], [] => 0
  | [], _ => -1
  | _, [] => 1
  | x :: l, y :: m => if x <? y then -1 else if y <? x then 1 else lex l m
  end.

Definition cmp (v w : string) : Z := lex (key v) (key w).

Definition vle (v w : string) : Prop := cmp v w < 0 ∨ cmp v w = 0 ∧ strLe v w.
#[export] Instance vle_dec : RelDecision vle.
Proof. intros v w. unfold vle. apply _. Defined.

#[export] Instance plainSemver : Semver := {|
  IsValid := valid; Compare := cmp; Canonical := λ v, if valid v then v else ""; Sort := merge_sort vle
|}.

Lemma lex_antisym l m : lex l m = - lex m l.
Proof.
  revert m. induction l as [|x l IH]; intros [|y m]; simpl; try lia.
  destruct (Z.ltb_spec x y), (Z.ltb_spec y x); try lia. apply IH.
Qed.

Lemma lex_trans l m n : lex l m ≤ 0 → lex m n ≤ 0 → lex l n ≤ 0.
Proof.
  revert m n. induction l as [|x l IH]; intros [|y m] [|z n]; simpl; try lia.
  destruct (Z.ltb_spec x y), (Z.ltb_spec y x), (Z.ltb_spec y z), (Z.ltb_spec z y), (Z.ltb_spec x z), (Z.ltb_spec z x);
    try lia. apply IH.
Qed.

#[local] Instance vle_total : Total vle.
Proof.
  intros v w. unfold vle, cmp. rewrite (lex_antisym (key w)).
  destruct (strLe_total v w); destruct (Z.lt_total (lex (key v) (key w)) 0) as [|[|]]; lia || (right; lia) || (left; lia) || naive_solver lia.
Qed.

#[local] Instance vle_trans : Transitive vle.
Proof.
  intros u v w Huv Hvw. unfold vle, cmp in *.
  pose proof (lex_trans (key u) (key v) (key w)) as T1. pose proof (lex_trans (key v) (key w) (key u)) as T2.
  pose proof (lex_trans (key w) (key u) (key v)) as T3.
  pose proof (lex_antisym (key u) (key v)). pose proof (lex_antisym (key v) (key w)). pose proof (lex_antisym (key u) (key w)).
  destruct (decide (lex (key u) (key w) < 0)) as [|Hn]; [by left|]. right.
  destruct Huv as [Huv|[Euv Luv]], Hvw as [Hvw|[Evw Lvw]]; try (exfalso; lia).
  split; [lia|]. by etransitivity.
Qed.

Lemma parseV_fmt a b c rest :
  0 ≤ a → 0 ≤ b → 0 ≤ c → digitHead rest = false → parseV (fmtVersion a b c +:+ rest) = Some [a; b; c].
Proof.
  intros Ha Hb Hc Hr. unfold parseV. rewrite fmtVersion_app. simpl.
  destruct (pretty_nonneg a (String "." (pretty b +:+ String "." (pretty c +:+ rest))) Ha) as (s1 & -> & _ & E1).
  rewrite E1 by done. simpl.
  destruct (pretty_nonneg b (String "." (pretty c +:+ rest)) Hb) as (s2 & -> & _ & E2). rewrite E2 by done. simpl.
  destruct (pretty_nonneg c rest Hc) as (s3 & -> & _ & E3). by rewrite E3.
Qed.

Lemma valid_spelled a b c : 0 ≤ a → 0 ≤ b → 0 ≤ c → valid (fmtVersion a b c) = true ∧ key (fmtVersion a b c) = [a; b; c].
Proof.
  intros Ha Hb Hc. pose proof (parseV_fmt a b c "" Ha Hb Hc eq_refl) as E. rewrite append_empty in E.
  assert (valid (fmtVersion a b c) = true) as Hv by (unfold valid; rewrite E; apply String.eqb_refl).
  split; [done|]. unfold key. by rewrite Hv, E.
Qed.

Lemma scanDigits_nonneg z s : 0 ≤ z → 0 ≤ (scanDigits z s).1.
Proof. revert z. induction s as [|c s IH]; intros z Hz; simpl; [done|]. destruct (isDigit c); [apply IH; lia|done]. Qed.

Lemma valid_inv v : valid v = true → ∃ a b c, 0 ≤ a ∧ 0 ≤ b ∧ 0 ≤ c ∧ v = fmtVersion a b c.
Proof.
  unfold valid. destruct (parseV v) as [l|] eqn:E; [|done]. intros Es%String.eqb_eq. unfold parseV in E.
  destruct (scanLit "v" v) as [s|]; [|done]. pose proof (scanDigits_nonneg 0 s).
  destruct (scanDigits 0 s) as [a s1]. destruct (scanLit "." s1) as [s2|]; [|done].
  pose proof (scanDigits_nonneg 0 s2). destruct (scanDigits 0 s2) as [b s3].
  destruct (scanLit "." s3) as [s4|]; [|done]. pose proof (scanDigits_nonneg 0 s4). simplify_eq/=.
  exists a, b, (scanDigits 0 s4).1. by auto with lia.
Qed.

Lemma no_colon_app a b : cutFirst ":" a = None → cutFirst ":" b = None → cutFirst ":" (a +:+ b) = None.
Proof.
  intros Ha Hb. induction a as [|d a IH]; [done|]. change (String d a +:+ b) with (String d (a +:+ b)).
  simpl in *. destruct (Ascii.eqb d ":"); [done|]. destruct (cutFirst ":" a) as [[? ?]|]; [done|]. by rewrite IH.
Qed.

Lemma no_colon_pretty z : 0 ≤ z → cutFirst ":" (pretty z) = None.
Proof.
  assert (∀ x s, cutFirst ":" s = None → cutFirst ":" (pretty_N_go x s) = None) as Hgo.
  { intros x. induction (N.lt_wf_0 x) as [x _ IH]; intros s Hs.
    destruct (decide (x = 0)%N) as [->|Hx]; [by rewrite pretty_N_go_0|].
    rewrite pretty_N_go_step by lia. apply IH; [apply N.div_lt; lia|]. simpl. rewrite Hs.
    destruct (digit_of (x `mod` 10)) as [Hd _]; [by apply N.mod_lt|].
    destruct (Ascii.eqb_spec (pretty_N_char (x `mod` 10)) ":") as [E|]; [by rewrite E in Hd|done]. }
  intros Hz. destruct z as [|p|p]; [done| |lia]. by apply (Hgo (N.pos p)).
Qed.

Lemma plain_laws : SemverLaws.
Proof.
  split; simpl.
  - apply merge_sort_Permutation.
  - apply (StronglySorted_merge_sort vle).
  - intros v w. apply lex_antisym.
  - intros u v w. apply lex_trans.
  - intros v Hv. destruct (valid_inv v Hv) as (a & b & c & Ha & Hb & Hc & ->). exists a, b, c.
    split; [done|]. split; [done|]. split; [done|]. exists "". simpl. by rewrite Hv, append_empty.
  - intros v Hv. destruct (valid_inv v Hv) as (a & b & c & Ha & Hb & Hc & ->). unfold fmtVersion.
    repeat apply no_colon_app; try done; by apply no_colon_pretty.
  - done.
  - done.
  - intros a b c Ha Hb Hc. destruct (valid_spelled a b c) as [-> _]; done.
  - intros v w a b c b' c' Hv Hw (Ha & Hb & Hc & r & Er & Hr) (_ & Hb' & Hc' & r' & Er' & Hr') Hlt. simpl in *.
    rewrite Hv in Er. rewrite Hw in Er'. unfold cmp, key. rewrite Hv, Hw, Er, Er', !parseV_fmt by done. simpl.
    rewrite Z.ltb_irrefl. destruct (Z.ltb_spec b b'); lia.
Qed.
(** ** Documents and runs *)

Fixpoint repeatChar (n : nat) (c : ascii) : string :=
  match n with O => EmptyString | S m => String c (repeatChar m c) end.

Definition sha (c : string) : string :=
  repeatChar 64 (if bool_decide (c = "A") then "a"%char else if bool_decide (c = "B") then "b"%char
                 else if bool_decide (c = "N") then "c"%char else "0"%char).

(** A declares visa 1.0.0, B visa 2.0.0, N visa without a version, S the scenario visa. *)
Definition yaml (c : string) : option document :=
  let doc v := Some (mkDocument "visa" "Visa" v "iso8583" "" "" "" "") in
  if bool_decide (c = "A") then doc "1.0.0" else if bool_decide (c = "B") then doc "2.0.0"
  else if bool_decide (c = "N") then doc "" else if bool_decide (c = "S") then
    Some (mkDocument "" "" "" "" "visa" "1.0.0" "" "") else None.

Definition spec (c : string) : request := mkRequest KindSpec c "" "" "".
Definition scenario (c : string) : request := mkRequest KindScenario c "" "" "".

(** An import of [r] by manager [p], from its begin to the answer of the update. *)
Definition importAll (i p : nat) (r : request) (ans : io) : list event :=
  [EvBegin i p r; EvOpen i; EvWrite i 10; EvUpdate i ans 7].

Abbreviation run evs := (sysSteps yaml sha sysInit evs).
Definition after (evs : list event) : sys := default sysInit (run evs).

(** The second manager files B while the first files A; then N, without a version. *)
Definition twoManagers : list event :=
  [EvStart 0; EvStart 1; EvBegin 1 1 (spec "B"); EvBegin 0 0 (spec "A"); EvOpen 1; EvOpen 0; EvWrite 1 1;
   EvUpdate 1 AllFine 5; EvWrite 0 1; EvUpdate 0 AllFine 6]%nat ++ importAll 2 1 (spec "N") AllFine.

Lemma reachable_after evs s : run evs = Some s → Artifacts.reachable yaml sha (after evs).
Proof. intros E. exists evs. unfold after. by rewrite E. Qed.

Lemma reports_twoManagers :
  reports (after twoManagers) =
  [mkReport 1 (spec "B") (Imported (sha "B") "visa" "v2.0.0"); mkReport 0 (spec "A") (Imported (sha "A") "visa" "v1.0.0");
   mkReport 1 (spec "N") (Imported (sha "N") "visa" "v2.1.0")].
Proof. vm_compute. reflexivity. Qed.

Lemma twoManagers_reachable : Artifacts.reachable yaml sha (after twoManagers).
Proof. eapply reachable_after. vm_compute. reflexivity. Qed.

Lemma twoManagers_quiet : imports (after twoManagers) = ∅.
Proof. vm_compute. reflexivity. Qed.

Lemma filed_A :
  filed (after twoManagers) (mkReport 0 (spec "A") (Imported (sha "A") "visa" "v1.0.0")) KindSpec "visa" "v1.0.0" (sha "A").
Proof. split; [|done]. rewrite reports_twoManagers. set_solver. Qed.

Lemma versions_immutable_witness :
  ∃ d, disk (after twoManagers) = Some d ∧ entry KindSpec d "visa" "v1.0.0" = Some (sha "A").
Proof.
  pose proof (versions_immutable (SL := plain_laws) yaml sha _ _ _ _ _ _ twoManagers_reachable filed_A)
    as (_ & _ & Hd & _). exact Hd.
Defined.

Lemma sha_hex c : validHex (sha c) = true.
Proof. unfold sha. by repeat case_bool_decide. Qed.

Lemma alone_A : alone sha (after twoManagers) "A".
Proof.
  intros c' [(i & x & Hx & _)|(e & He & <-)]; [by rewrite twoManagers_quiet in Hx|].
  rewrite reports_twoManagers in He. intros E.
  apply elem_of_cons in He as [->|[->|[->|He]%elem_of_cons]%elem_of_cons]; [..|by apply elem_of_nil in He];
    first [reflexivity | vm_compute in E; congruence].
Qed.

Lemma import_then_load_witness : LoadAt (after twoManagers) 0 "visa:v1.0.0" = Some (inr "A").
Proof.
  refine (proj2 (import_then_load (SL := plain_laws) yaml sha (after twoManagers) _ KindSpec "visa" "v1.0.0" (sha "A") 0
    (default emptyIndex (mems (after twoManagers) !! 0%nat)) sha_hex twoManagers_reachable filed_A alone_A _ _ _ _ _) _).
  - intros (i & x & Hx & _). by rewrite twoManagers_quiet in Hx.
  - intros (e & He & Ht & _). rewrite reports_twoManagers in He.
    apply elem_of_cons in He as [->|[->|[->|He]%elem_of_cons]%elem_of_cons]; [..|by apply elem_of_nil in He];
      destruct Ht; done.
  - vm_compute. reflexivity.
  - by left.
  - by left.
  - reflexivity.
Defined.

Lemma latest_is_highest_witness :
  ∃ t h, highest (<["v2.0.0" := sha "B"]> (<["v1.0.0" := sha "A"]> (<["v2.1.0" := sha "N"]> {["latest" := sha "N"]}))) t h ∧
    LoadAt (after twoManagers) 1 "urn:flux:spec:visa:latest" = Some (Get (blobs (after twoManagers)) h).
Proof.
  edestruct (latest_is_highest (SL := plain_laws) yaml sha (after twoManagers) 1
    (default emptyIndex (mems (after twoManagers) !! 1%nat)) KindSpec "visa"
    (<["v2.0.0" := sha "B"]> (<["v1.0.0" := sha "A"]> (<["v2.1.0" := sha "N"]> {["latest" := sha "N"]}))))
    as (t & h & Hh & _ & Hl).
  - exact twoManagers_reachable.
  - intros e He. rewrite reports_twoManagers in He.
    apply elem_of_cons in He as [->|[->|[->|He]%elem_of_cons]%elem_of_cons]; [done..|by apply elem_of_nil in He].
  - vm_compute. reflexivity.
  - vm_compute. reflexivity.
  - done.
  - by left.
  - exists t, h. split; [exact Hh|exact Hl].
Defined.

Lemma core_key t a b c : valid t = true → coreOf t a b c → key t = [a; b; c].
Proof.
  intros Hv (Ha & Hb & Hc & r & Er & Hr). simpl in Er. rewrite Hv in Er. unfold key.
  by rewrite Hv, Er, parseV_fmt.
Qed.

(** The index with visa 1.0.0 and 2.0.0, and an import without a version. *)
Definition twoVersions : Index :=
  mkIndex {["visa" := <["v2.0.0" := sha "B"]> (<["v1.0.0" := sha "A"]> {["latest" := sha "B"]})]} ∅ ∅.

Lemma twoVersions_inRange t :
  is_Some ((<["v2.0.0" := sha "B"]> (<["v1.0.0" := sha "A"]> {["latest" := sha "B"]}) : tagMap) !! t) →
  IsValid t = true → inRange t.
Proof.
  intros [h Ht] Hv a b c Hc. apply core_key in Hc; [|done].
  apply lookup_insert_Some in Ht as [[<- _]|[_ [[<- _]|[_ [<- _]%lookup_singleton_Some]]%lookup_insert_Some]];
    [vm_compute in Hc..|done]; simplify_eq; lia.
Qed.

Lemma unversioned_import_is_next_witness :
  ∃ idx' t, importChange yaml (spec "N") (sha "N") 7 twoVersions = inr (idx', t) ∧
    entry KindSpec idx' "visa" t = Some (sha "N") ∧ Compare "v2.0.0" t < 0.
Proof.
  destruct (unversioned_import_is_next (SL := plain_laws) yaml (spec "N") (sha "N") 7 twoVersions)
    as (idx' & t & E & _ & _ & He & Hlt); [done..|exact twoVersions_inRange|].
  exists idx', t. split; [exact E|]. split; [exact He|]. apply Hlt; [by eexists|reflexivity].
Defined.

(** ** Runs in which the store does less than its comments say *)

(** An import whose index write failed reports the error, and the manager serves its
    version all the same; another manager files other content under that version; the
    first one serves its own until its next import. *)
Definition failedWrite : list event :=
  [EvStart 0; EvStart 1]%nat ++ importAll 0 0 (spec "A") WriteFails ++
  importAll 1 1 (mkRequest KindSpec "B" "" "" "1.0.0") AllFine.

Lemma failed_write_is_served :
  let s := after failedWrite in
  reports s = [mkReport 0 (spec "A") (Failed EWrite);
               mkReport 1 (mkRequest KindSpec "B" "" "" "1.0.0") (Imported (sha "B") "visa" "v1.0.0")] ∧
  LoadAt s 0 "visa:v1.0.0" = Some (inr "A") ∧ LoadAt s 1 "visa:v1.0.0" = Some (inr "B").
Proof. vm_compute. done. Qed.

(** Without the second manager, the next import of another document files it after all. *)
Lemma failed_write_is_filed_later :
  let s := after ([EvStart 0]%nat ++ importAll 0 0 (spec "A") WriteFails ++ importAll 1 0 (spec "B") AllFine) in
  pOut <$> reports s = [Failed EWrite; Imported (sha "B") "visa" "v2.0.0"] ∧
  (disk s ≫= λ d, entry KindSpec d "visa" "v1.0.0") = Some (sha "A").
Proof. vm_compute. done. Qed.

(** Importing the same bytes again empties the blob before it is written: whoever loads
    the version in between, or after a crash there, gets no bytes and no error. *)
Lemma reimport_truncates :
  let s := after ([EvStart 0]%nat ++ importAll 0 0 (spec "A") AllFine ++
                  [EvBegin 1 0 (spec "A"); EvOpen 1; EvCrash 0; EvStart 0]%nat) in
  LoadAt s 0 "visa:v1.0.0" = Some (inr "") ∧ pOut <$> reports s = [Imported (sha "A") "visa" "v1.0.0"; Crashed true].
Proof. vm_compute. done. Qed.

(** A reference to a scenario yields the spec of the same name. *)
Lemma spec_hides_scenario :
  let s := after ([EvStart 0]%nat ++ importAll 0 0 (spec "A") AllFine ++ importAll 1 0 (scenario "S") AllFine) in
  LoadAt s 0 "urn:flux:scenario:visa:v1.0.0" = Some (inr "A") ∧
  entry KindScenario (default emptyIndex (mems s !! 0%nat)) "visa" "v1.0.0" = Some (sha "S").
Proof. vm_compute. done. Qed.
End ArtifactsExample.
