(* ===== verification/Controller.v ===== *)
(** * pkg/controller: scenarios and enrollment in the Mixer

    scenario.go: importing, activating, restoring and pushing a scenario, with the names,
    targets, entity ids and specs a push needs.  The controller is a transition system:
    Activate holds its mutex over the commit and all its pushes, while the pushes that
    follow an enrollment run beside it and meet it only at the delivery record.
    enrollment.go: the throttle of Hellos, and the handlers of Hello and Heartbeat as
    programs over the registry (Registry.v).

    Parameters: YAML decoding and encoding of a scenario, the References of a spec, the
    answers of the registry, of the topology store and of the bus, the clock, fresh ids.
    A write that another process makes may fail after it took effect: a publish, the
    storing of a file, and the write of the pointer, which SetActive checks against the
    revision it read and which may also take effect later.  One Mixer owns the pointer to the active scenario.  Logging is left out. *)
From Stdlib Require Import Ascii.
From S2P Require Import Prelude Utf8 FluxMsg Tree Routes Scenario Artifacts.
Open Scope Z_scope.

(** ** Names *)

(** [strings.ReplaceAll(s, "..", "")] *)
Fixpoint dropDots (s : string) : string :=
  match s with
  | String c (String d r as t) => if Ascii.eqb c "." && Ascii.eqb d "." then dropDots r else String c (dropDots t)
  | _ => s
  end.

Fixpoint replaceByte (c d : ascii) (s : string) : string :=
  match s with EmptyString => EmptyString | String x r => String (if Ascii.eqb x c then d else x) (replaceByte c d r) end.

(** [[a-zA-Z0-9\-_]] *)
Definition safeChar (c : ascii) : bool :=
  inB 97 122 c || inB 65 90 c || inB 48 57 c || Ascii.eqb c "-" || Ascii.eqb c "_".

(** Every rune outside the class becomes one underscore; [skip] counts the bytes left of
    the rune being replaced. *)
Fixpoint maskRunes (skip : nat) (s : string) : string :=
  match s with
  | EmptyString => EmptyString
  | String c r =>
      match skip with
      | S k => maskRunes k r
      | O => if safeChar c then String c (maskRunes 0 r) else String "_" (maskRunes (pred (runeWidth s)) r)
      end
  end.

Definition trimmed (c : ascii) : bool := Ascii.eqb c "_" || Ascii.eqb c "-".

Fixpoint trimLeft (s : string) : string :=
  match s with String c r => if trimmed c then trimLeft r else s | EmptyString => EmptyString end.

Fixpoint trimRight (s : string) : string :=
  match s with
  | EmptyString => EmptyString
  | String c r =>
      match trimRight r with
      | EmptyString => if trimmed c then EmptyString else String c EmptyString
      | t => String c t
      end
  end.

Definition sanitizeName (name : string) : string :=
  let s := replaceByte "\" "_" (replaceByte "/" "_" (dropDots name)) in
  let s := trimLeft (trimRight (maskRunes 0 s)) in
  if bool_decide (s = "") then "unnamed" else s.

(** The subject of the reply to a Hello. *)
Definition replyTopic (name nonce : string) : string :=
  "flux.agent.enrollment." +:+ sanitizeName name +:+ String "." (sanitizeName nonce).

(** ** Scenarios with their entity ids *)

(** [cg_other]: the deploy value is neither nil nor a string. The nil id is 0. *)
Record cGear := mkCGear { cg_decl : GearDecl; cg_other : bool; cg_ID : Z; cg_Ports : gmap string Z }.
Record cWire := mkCWire { cw_wire : WireSpec; cw_ID : Z }.
Record cScenario := mkCScenario {
  cs_Name : string; cs_Version : string; cs_Racks : list RackTarget; cs_Gears : list cGear; cs_Wires : list cWire }.

Definition toFile (s : cScenario) : ScenarioFile :=
  mkFile (cs_Version s) (cs_Racks s) (cg_decl <$> cs_Gears s) (cw_wire <$> cs_Wires s).

Definition deployOf (g : cGear) : option string := Deploy (gd_spec (cg_decl g)).
Definition gearName (g : cGear) : string := Routes.Name (gd_spec (cg_decl g)).

Definition scenarioName (s : cScenario) : string :=
  if bool_decide (cs_Name s = "") then "scenario-" +:+ cs_Version s else cs_Name s.

Inductive ctlErr :=
| EParse | EValidate (e : vErr) | EStore | EScenarioNotFound | ELoad | EList
| EUnknownTarget (gear target : string) | EGroupTarget (gear target : string)
| EClear | ERegister | ERackMissing (rack : string) | EEncode | EPointer | ENoBus | ENoRackReached (n : nat).

(** ** Deploy targets *)

(** The first gear whose target is no active Rack. *)
Fixpoint checkTargets (active groups : gset string) (gs : list cGear) : option ctlErr :=
  match gs with
  | [] => None
  | g :: gs =>
      match deployOf g with
      | Some target =>
          if bool_decide (target ∈ active) then checkTargets active groups gs
          else if bool_decide (target ∈ groups) then Some (EGroupTarget (gearName g) target)
          else Some (EUnknownTarget (gearName g) target)
      | None => checkTargets active groups gs
      end
  end.

(** [racks]: [None] without a directory, else what List("active") answers. *)
Definition validateDeployTargets (racks : option (option (list string))) (s : cScenario) : option ctlErr :=
  match racks with
  | None => None
  | Some None => Some EList
  | Some (Some names) =>
      checkTargets (list_to_set (filter (λ n, n ≠ "") names))
        (list_to_set (filter (λ n, n ≠ "") (rt_Group <$> cs_Racks s))) (cs_Gears s)
  end.

Definition hasGlobalGear (s : cScenario) : bool :=
  existsb (λ g, match deployOf g with Some d => bool_decide (d = "") | None => negb (cg_other g) end) (cs_Gears s).

Definition addTarget (targets : list string) (name : string) : list string :=
  if bool_decide (name ≠ "") && negb (bool_decide (name ∈ targets)) then targets ++ [name] else targets.

(** The Racks an activation pushes to; [active] is what List("active") answers, [None]
    when it fails or there is no directory. *)
Definition pushTargets (s : cScenario) (active : option (list string)) : list string :=
  let t := foldl addTarget [] (rt_Name <$> cs_Racks s) in
  let t := foldl addTarget t (omap deployOf (cs_Gears s)) in
  if hasGlobalGear s then foldl addTarget t (default [] active) else t.

(** [waitForRack]: what GetRackByName answers to the polls made before the deadline or
    the end of the context. *)
Fixpoint waitForRack (polls : list (option Z)) : option Z :=
  match polls with
  | [] => None
  | Some mid :: _ => Some mid
  | None :: polls => waitForRack polls
  end.

(** ** The specs that travel with a scenario *)

Record SpecArtifact := mkArtifact { sa_Name : string; sa_Tag : string; sa_Content : string }.

Definition specRefFromConfig (cfg : list (string * cfgval)) : string :=
  let get k := match cfgGet cfg k with Some (CStr s) => s | _ => "" end in
  if bool_decide (get "spec_path" ≠ "") then get "spec_path" else get "spec".

Fixpoint containsByte (c : ascii) (s : string) : bool :=
  match s with EmptyString => false | String d r => Ascii.eqb d c || containsByte c r end.

Fixpoint HasSuffix (s suffix : string) : bool :=
  String.eqb s suffix || match s with String _ r => HasSuffix r suffix | EmptyString => false end.

Definition storeRef (ref : string) : option (string * string) :=
  if containsByte "/" ref || containsByte "\" ref || HasSuffix ref ".yaml" || HasSuffix ref ".yml" then None
  else match cutLast ":" ref with
  | Some (name, tag) => if bool_decide (name = "" ∨ tag = "") then None else Some (name, tag)
  | None => None
  end.

Section specs.
Context (load : string → option string) (refsOf : string → option (list string)).

(** The work list of collectSpecs; [None] when the fuel ends first. *)
Fixpoint collectWork (fuel : nat) (seen : gset string) (work : list string) (out : list SpecArtifact)
  : option (list SpecArtifact) :=
  match fuel with
  | O => None
  | S fuel =>
      match work with
      | [] => Some out
      | ref :: work =>
          match storeRef ref with
          | None => collectWork fuel seen work out
          | Some (name, tag) =>
              if bool_decide (ref ∈ seen) then collectWork fuel seen work out
              else
                let seen := {[ ref ]} ∪ seen in
                match load ref with
                | None => collectWork fuel seen work out
                | Some content =>
                    collectWork fuel seen (work ++ default [] (refsOf content)) (out ++ [mkArtifact name tag content])
                end
          end
      end
  end.

Definition specRefs (s : cScenario) : list string :=
  filter (λ r, r ≠ "") ((λ g, specRefFromConfig (gd_Config (cg_decl g))) <$> cs_Gears s).

Definition collectSpecs (fuel : nat) (s : cScenario) : option (list SpecArtifact) :=
  collectWork fuel ∅ (specRefs s) [].
End specs.

(** ** Entity ids and topology rows *)

Inductive row :=
| RScenario (id : Z) (name version : string)
| RPort (id : Z) (name : string) (input : bool) (gear machine : Z)
| RGear (id : Z) (name type mode bind connect : string) (machine : Z) (ports : gmap string Z)
| RWire (id : Z) (from to : string) (fromID toID machine : Z).

Section register.
(** [GetEntityIDByName], the ids minted in turn. *)
Context (lookup : string → option Z) (fresh : nat → Z).

(** An id that is there, else the registered one, else a new one. *)
Definition keepID (id : Z) (name : string) (n : nat) : Z * nat :=
  if bool_decide (id ≠ 0) then (id, n)
  else match lookup name with Some id => (id, n) | None => (fresh n, S n) end.

Definition machineOf (machines : gmap string Z) (g : cGear) : Z :=
  match deployOf g with Some target => default 0 (machines !! target) | None => 0 end.

Definition registerGear (machines : gmap string Z) (n : nat) (g : cGear) : cGear * list row * nat :=
  let name := gearName g in
  let '(id, n) := keepID (cg_ID g) name n in
  let machine := machineOf machines g in
  let str k := default "" (cfgStr (gd_Config (cg_decl g)) k) in
  let '(inID, n) := keepID (default 0 (cg_Ports g !! "in")) (name +:+ ".in") n in
  let '(outID, n) := keepID (default 0 (cg_Ports g !! "out")) (name +:+ ".out") n in
  let ports := <["in" := inID]> {["out" := outID]} in
  (mkCGear (cg_decl g) (cg_other g) id ports,
   [RPort inID (name +:+ ".in") true id machine; RPort outID (name +:+ ".out") false id machine;
    RGear id name (Type_ (gd_spec (cg_decl g))) (str "mode") (str "bind") (str "connect") machine ports], n).

Fixpoint registerGears (machines : gmap string Z) (n : nat) (gs : list cGear) : list cGear * list row * nat :=
  match gs with
  | [] => ([], [], n)
  | g :: gs =>
      let '(g, rows, n) := registerGear machines n g in
      let '(gs, rows', n) := registerGears machines n gs in
      (g :: gs, rows ++ rows', n)
  end.

(** [resolvePortID]: the id of gear.port; of no port for anything else. *)
Definition resolvePortID (gs : list cGear) (endpoint : string) : Z :=
  match cutLast "." endpoint with
  | None => 0
  | Some (gear, port) =>
      match last (filter (λ g, gearName g = gear) gs) with
      | Some g => default 0 (cg_Ports g !! port)
      | None => 0
      end
  end.

Definition wireMachine (machines : gmap string Z) (gs : list cGear) (from : string) : Z :=
  let source := match cutLast "." from with Some (gear, _) => gear | None => from end in
  match head (filter (λ g, gearName g = source) gs) with Some g => machineOf machines g | None => 0 end.

Fixpoint registerWires (machines : gmap string Z) (gs : list cGear) (n : nat) (ws : list cWire) : list cWire * list row * nat :=
  match ws with
  | [] => ([], [], n)
  | w :: ws =>
      let '(id, n) := if bool_decide (cw_ID w ≠ 0) then (cw_ID w, n) else (fresh n, S n) in
      let from := From (cw_wire w) in
      let to := To (cw_wire w) in
      let r := RWire id from to (resolvePortID gs from) (resolvePortID gs to) (wireMachine machines gs from) in
      let '(ws, rows, n) := registerWires machines gs n ws in
      (mkCWire (cw_wire w) id :: ws, r :: rows, n)
  end.

(** The machines of the scenario's named Racks: a Rack that is missing is an error, unless
    a starting Mixer restores. *)
Fixpoint rackMachines (restoring : bool) (rackID : string → option Z) (racks : list RackTarget) (m : gmap string Z)
  : ctlErr + gmap string Z :=
  match racks with
  | [] => inr m
  | r :: racks =>
      if bool_decide (rt_Name r = "") then rackMachines restoring rackID racks m
      else match rackID (rt_Name r) with
      | Some mid => rackMachines restoring rackID racks (<[rt_Name r := mid]> m)
      | None => if restoring then rackMachines restoring rackID racks m else inl (ERackMissing (rt_Name r))
      end
  end.

(** The rows written, and the scenario with its ids. Failing to write a port, a gear or a
    wire is only logged. *)
Definition registerScenarioEntities (restoring scenarioOk : bool) (rackID : string → option Z) (s : cScenario)
  : list row * (ctlErr + cScenario) :=
  let scenario := RScenario (fresh 0) (scenarioName s) (cs_Version s) in
  if negb scenarioOk then ([], inl ERegister)
  else match rackMachines restoring rackID (cs_Racks s) ∅ with
  | inl e => ([scenario], inl e)
  | inr machines =>
      let '(gs, rows, n) := registerGears machines 1 (cs_Gears s) in
      let '(ws, rows', _) := registerWires machines gs n (cs_Wires s) in
      (scenario :: rows ++ rows', inr (mkCScenario (cs_Name s) (cs_Version s) (cs_Racks s) gs ws))
  end.
End register.

(** ** The controller *)

Record pointer := mkPointer { pt_Name : string; pt_Version : string; pt_Content : string }.

(** The answer to a write that another process makes: done, refused without effect, or
    none, so that the caller has an error and the write may take effect. *)
Inductive writeAnswer := Written | Refused | Unanswered.

(** History: under which activation the bytes of a push were read, the values the pointer
    had had by then, and those of them written since the last confirmed one by Activates
    that returned an error. *)
Record reading := mkReading { rd_act : Z; rd_hist : list pointer; rd_unsure : list pointer }.

(** A publication of a scenario: to which Rack and machine, the bytes, the specs, and when
    the bytes were read. *)
Record sent := mkSent { s_rack : string; s_machine : Z; s_content : string; s_specs : list SpecArtifact; s_read : reading }.
Definition s_act (x : sent) : Z := rd_act (s_read x).

(** A write to the delivery record: for which publication, under which activation, when. *)
Record noted := mkNoted { n_sent : sent; n_act : Z; n_at : Z }.

(** The pushes of an activation, made while it holds [mu]: the Racks left, a publication
    not recorded yet, the number delivered. *)
Record pushing := mkPushing {
  pu_s : cScenario; pu_content : string; pu_read : reading; pu_targets : list string; pu_left : list string;
  pu_note : option sent; pu_delivered : nat }.

(** A call of PushActiveToRackSince for a named Rack; no [since] is the zero time. *)
Inductive pushPC :=
| PRead
| PCheck (s : cScenario) (content : string) (rd : reading)
| PSend (s : cScenario) (content : string) (rd : reading)
| PNote (x : sent).

Record push := mkPush { ph_rack : string; ph_since : option Z; ph_pc : pushPC }.

Record ctl := mkCtl {
  active : option (cScenario * string);
  activation : Z;
  deliveredTo : gmap string (Z * Z);
  repo : gmap string string;
  ptr : option pointer;
  topoRows : list row;
  clock : Z;
  holder : option pushing;
  pushes : gmap nat push;
  answers : list (option ctlErr);   (* what the calls of Activate returned *)
  skipped : list (string * Z);      (* pushes left out as already delivered, and their since *)
  sentLog : list sent;
  noteLog : list noted;             (* of this process *)
  pointers : list pointer;          (* every value the pointer has had *)
  inflight : list (nat * pointer);  (* unanswered writes of it, and the revision each is checked against *)
  unconfirmed : list pointer        (* values since the last confirmed one, by Activates that failed *)
}.

(** Field updates. *)
Definition setClock (t : Z) (st : ctl) : ctl :=
  mkCtl (active st) (activation st) (deliveredTo st) (repo st) (ptr st) (topoRows st) t (holder st)
    (pushes st) (answers st) (skipped st) (sentLog st) (noteLog st) (pointers st) (inflight st) (unconfirmed st).
Definition setRepo (r : gmap string string) (st : ctl) : ctl :=
  mkCtl (active st) (activation st) (deliveredTo st) r (ptr st) (topoRows st) (clock st) (holder st)
    (pushes st) (answers st) (skipped st) (sentLog st) (noteLog st) (pointers st) (inflight st) (unconfirmed st).
Definition setSkipped (l : list (string * Z)) (st : ctl) : ctl :=
  mkCtl (active st) (activation st) (deliveredTo st) (repo st) (ptr st) (topoRows st) (clock st) (holder st)
    (pushes st) (answers st) l (sentLog st) (noteLog st) (pointers st) (inflight st) (unconfirmed st).
Definition setActive (a : option (cScenario * string)) (st : ctl) : ctl :=
  mkCtl a (activation st) (deliveredTo st) (repo st) (ptr st) (topoRows st) (clock st) (holder st) (pushes st)
    (answers st) (skipped st) (sentLog st) (noteLog st) (pointers st) (inflight st) (unconfirmed st).
Definition setHolder (h : option pushing) (st : ctl) : ctl :=
  mkCtl (active st) (activation st) (deliveredTo st) (repo st) (ptr st) (topoRows st) (clock st) h (pushes st)
    (answers st) (skipped st) (sentLog st) (noteLog st) (pointers st) (inflight st) (unconfirmed st).
Definition setPushes (ps : gmap nat push) (st : ctl) : ctl :=
  mkCtl (active st) (activation st) (deliveredTo st) (repo st) (ptr st) (topoRows st) (clock st)
    (holder st) ps (answers st) (skipped st) (sentLog st) (noteLog st) (pointers st) (inflight st) (unconfirmed st).
Definition setTopo (rows : list row) (st : ctl) : ctl :=
  mkCtl (active st) (activation st) (deliveredTo st) (repo st) (ptr st) rows (clock st) (holder st)
    (pushes st) (answers st) (skipped st) (sentLog st) (noteLog st) (pointers st) (inflight st) (unconfirmed st).
Definition answer (e : option ctlErr) (st : ctl) : ctl :=
  mkCtl (active st) (activation st) (deliveredTo st) (repo st) (ptr st) (topoRows st) (clock st) (holder st)
    (pushes st) (answers st ++ [e]) (skipped st) (sentLog st) (noteLog st) (pointers st) (inflight st) (unconfirmed st).
Definition publish (x : sent) (st : ctl) : ctl :=
  mkCtl (active st) (activation st) (deliveredTo st) (repo st) (ptr st) (topoRows st) (clock st) (holder st)
    (pushes st) (answers st) (skipped st) (sentLog st ++ [x]) (noteLog st) (pointers st) (inflight st) (unconfirmed st).

(** [recordDelivery] *)
Definition recordDelivery (x : sent) (st : ctl) : ctl :=
  mkCtl (active st) (activation st) (<[s_rack x := (activation st, clock st)]> (deliveredTo st)) (repo st)
    (ptr st) (topoRows st) (clock st) (holder st) (pushes st) (answers st) (skipped st) (sentLog st)
    (noteLog st ++ [mkNoted x (activation st) (clock st)]) (pointers st) (inflight st) (unconfirmed st).

(** Steps 3 and 4 of Activate: the pointer, then the memory and the count. *)
Definition commit (s : cScenario) (p : pointer) (st : ctl) : ctl :=
  mkCtl (Some (s, pt_Content p)) (activation st + 1) (deliveredTo st) (repo st) (Some p) (topoRows st)
    (clock st) (holder st) (pushes st) (answers st) (skipped st) (sentLog st) (noteLog st)
    (pointers st ++ [p]) (inflight st) [].

(** The revision of the pointer: how many values it has had. *)
Definition revision (st : ctl) : nat := length (pointers st).

(** A write of the pointer that is not answered, checked against the revision it read. *)
Definition unanswered (p : pointer) (st : ctl) : ctl :=
  mkCtl (active st) (activation st) (deliveredTo st) (repo st) (ptr st) (topoRows st) (clock st) (holder st)
    (pushes st) (answers st) (skipped st) (sentLog st) (noteLog st) (pointers st)
    (inflight st ++ [(revision st, p)]) (unconfirmed st).

(** Such a write takes effect, if the pointer was not written since. *)
Definition land (i : nat) (st : ctl) : option ctl :=
  match inflight st !! i with
  | Some (rev, p) =>
      if bool_decide (rev = revision st) then
        Some (mkCtl (active st) (activation st) (deliveredTo st) (repo st) (Some p) (topoRows st) (clock st) (holder st)
          (pushes st) (answers st) (skipped st) (sentLog st) (noteLog st) (pointers st ++ [p])
          (inflight st) (unconfirmed st ++ [p]))
      else None
  | None => None
  end.

(** What is in memory was read back from the pointer. *)
Definition confirm (st : ctl) : ctl :=
  mkCtl (active st) (activation st) (deliveredTo st) (repo st) (ptr st) (topoRows st) (clock st) (holder st)
    (pushes st) (answers st) (skipped st) (sentLog st) (noteLog st) (pointers st) (inflight st) [].

Definition readNow (st : ctl) : reading := mkReading (activation st) (pointers st) (unconfirmed st).

Definition ctlInit : ctl := mkCtl None 0 ∅ ∅ None [] 0 None ∅ [] [] [] [] [] [] [].

(** What the world answers to a push to one Rack: the polls of the directory ([None]
    without one), the spec store with the fuel for its walk, whether the payload encodes,
    and the publish. *)
Record pushAnswer := mkPushAnswer {
  an_polls : option (list (option Z)); an_load : string → option string; an_fuel : nat;
  an_encodes : bool; an_publishes : writeAnswer }.

(** What it answers to Activate: the repository can be read; the Racks; the topology
    store ([None] without one): cleared, scenario registered, names, Racks found; the
    write of the pointer; there is a bus; the active Racks for global gears. *)
Record topoAnswer := mkTopoAnswer {
  ta_cleared : bool; ta_registered : bool; ta_lookup : string → option Z; ta_rackID : string → option Z;
  ta_fresh : nat → Z }.

Record actAnswer := mkActAnswer {
  aa_readable : bool; aa_racks : option (option (list string)); aa_topo : option topoAnswer;
  aa_pointer : writeAnswer; aa_bus : bool; aa_active : option (list string) }.

Section controller.
Context (decode : string → option cScenario) (encode : cScenario → option string)
        (refsOf : string → option (list string)).

(** Import: the name it files under, and what is stored. *)
Definition Import (content : string) (dryRun : bool) (stored : writeAnswer) (r : gmap string string) : gmap string string * (ctlErr + string) :=
  match decode content with
  | None => (r, inl EParse)
  | Some s =>
      match Validate (toFile s) with
      | Some e => (r, inl (EValidate e))
      | None =>
          if dryRun then (r, inr "")
          else
            let safeName := sanitizeName (scenarioName s) in
            match stored with
            | Written => (<[safeName := content]> r, inr safeName)
            | Refused => (r, inl EStore)
            | Unanswered => (<[safeName := content]> r, inl EStore)
            end
      end
  end.

(** The topology rows for [s]; without a store there are none. *)
Definition registerIn (restoring : bool) (ta : option topoAnswer) (rows : list row) (s : cScenario)
  : list row * (ctlErr + cScenario) :=
  match ta with
  | None => (rows, inr s)
  | Some ta =>
      if negb (ta_cleared ta) then (rows, inl EClear)
      else registerScenarioEntities (ta_lookup ta) (ta_fresh ta) restoring (ta_registered ta) (ta_rackID ta) s
  end.

(** Activate up to the write of the pointer: the rows, and an error or the scenario with
    its bytes. *)
Definition prepare (aa : actAnswer) (name : string) (st : ctl) : list row * (ctlErr + cScenario * pointer) :=
  let safeName := sanitizeName name in
  if negb (aa_readable aa) then (topoRows st, inl ELoad)
  else match repo st !! safeName with
  | None => (topoRows st, inl EScenarioNotFound)
  | Some content =>
      match decode content with
      | None => (topoRows st, inl EParse)
      | Some s =>
          match validateDeployTargets (aa_racks aa) s with
          | Some e => (topoRows st, inl e)
          | None =>
              match registerIn false (aa_topo aa) (topoRows st) s with
              | (rows, inl e) => (rows, inl e)
              | (rows, inr s) =>
                  match encode s with
                  | None => (rows, inl EEncode)
                  | Some registered => (rows, inr (s, mkPointer safeName (cs_Version s) registered))
                  end
              end
          end
      end
  end.

(** LoadActive: the rows, and an error, nothing to restore, or the scenario with its bytes. *)
Definition restore (readable : bool) (ta : option topoAnswer) (st : ctl) : list row * (ctlErr + option (cScenario * string)) :=
  if negb readable then (topoRows st, inl EPointer)
  else match ptr st with
  | None => (topoRows st, inr None)
  | Some p =>
      let fromImport := bool_decide (pt_Content p = "") in
      match (if fromImport then repo st !! pt_Name p else Some (pt_Content p)) with
      | None => (topoRows st, inl ELoad)
      | Some content =>
          match decode content with
          | None => (topoRows st, inl EParse)
          | Some s =>
              match registerIn true ta (topoRows st) s with
              | (rows, inl e) => (rows, inl e)
              | (rows, inr s) =>
                  match (if fromImport then encode s else Some content) with
                  | None => (rows, inl EEncode)
                  | Some content => (rows, inr (Some (s, content)))
                  end
              end
          end
      end
  end.

(** One Rack of pushScenarioToRacks: [None] when the fuel for the specs ends; else what
    goes out, and whether the publish returned without an error. *)
Definition pushOne (an : pushAnswer) (s : cScenario) (content rack : string) (rd : reading) : option (option sent * bool) :=
  match (match an_polls an with None => Some 0 | Some polls => waitForRack polls end) with
  | None => Some (None, false)
  | Some machine =>
      match collectSpecs (an_load an) refsOf (an_fuel an) s with
      | None => None
      | Some specs =>
          let x := mkSent rack machine content specs rd in
          Some (if an_encodes an then
                  match an_publishes an with Written => (Some x, true) | Refused => (None, false) | Unanswered => (Some x, false) end
                else (None, false))
      end
  end.
Definition publishMaybe (x : option sent) (st : ctl) : ctl := match x with Some x => publish x st | None => st end.

Inductive cevent :=
| EvTick (d : Z)
| EvImport (content : string) (dryRun : bool) (stored : writeAnswer)
| EvActivate (name : string) (aa : actAnswer)
| EvPushNext (an : pushAnswer)
| EvPushNote
| EvPushDone
| EvEnroll (i : nat) (rack : string) (since : option Z)
| EvRead (i : nat)
| EvCheck (i : nat)
| EvSend (i : nat) (bus : bool) (an : pushAnswer)
| EvNote (i : nat)
| EvLand (i : nat)
| EvRestart
| EvLoadActive (readable : bool) (ta : option topoAnswer).

(** One step; [None] where it cannot be taken. Import, Activate, LoadActive and the read of
    PushActiveToRackSince need [mu], which [holder] keeps until its pushes are done. *)
Definition ctlStep (st : ctl) (ev : cevent) : option ctl :=
  match ev with
  | EvTick d =>
      if 0 <? d then Some (setClock (clock st + d) st) else None
  | EvImport content dryRun stored =>
      match holder st with
      | Some _ => None
      | None => let r := (Import content dryRun stored (repo st)).1 in Some (setRepo r st)
      end
  | EvActivate name aa =>
      match holder st with
      | Some _ => None
      | None =>
          match prepare aa name st with
          | (rows, inl e) => Some (answer (Some e) (setTopo rows st))
          | (rows, inr (s, p)) =>
              match aa_pointer aa with
              | Refused => Some (answer (Some EPointer) (setTopo rows st))
              | Unanswered => Some (answer (Some EPointer) (unanswered p (setTopo rows st)))
              | Written =>
                  let st := commit s p (setTopo rows st) in
                  if aa_bus aa then
                    let targets := pushTargets s (aa_active aa) in
                    Some (setHolder (Some (mkPushing s (pt_Content p) (readNow st) targets targets None 0)) st)
                  else Some (answer None st)
              end
          end
      end
  | EvPushNext an =>
      match holder st with
      | Some (mkPushing s content rd targets (rack :: rest) None n) =>
          match pushOne an s content rack rd with
          | None => None
          | Some (Some x, true) => Some (setHolder (Some (mkPushing s content rd targets rest (Some x) (S n))) (publish x st))
          | Some (x, _) => Some (setHolder (Some (mkPushing s content rd targets rest None n)) (publishMaybe x st))
          end
      | _ => None
      end
  | EvPushNote =>
      match holder st with
      | Some (mkPushing s content rd targets rest (Some x) n) =>
          Some (setHolder (Some (mkPushing s content rd targets rest None n)) (recordDelivery x st))
      | _ => None
      end
  | EvPushDone =>
      match holder st with
      | Some (mkPushing s content rd targets [] None n) =>
          let e := if bool_decide (targets ≠ [] ∧ n = 0%nat) then Some (ENoRackReached (length targets)) else None in
          Some (answer e (setHolder None st))
      | _ => None
      end
  | EvEnroll i rack since =>
      if bool_decide (rack ≠ "" ∧ pushes st !! i = None) then Some (setPushes (<[i := mkPush rack since PRead]> (pushes st)) st) else None
  | EvRead i =>
      match holder st, pushes st !! i with
      | None, Some (mkPush rack since PRead) =>
          match active st with
          | None => Some (setPushes (delete i (pushes st)) st)
          | Some (s, content) => Some (setPushes (<[i := mkPush rack since (PCheck s content (readNow st))]> (pushes st)) st)
          end
      | _, _ => None
      end
  | EvCheck i =>
      match pushes st !! i with
      | Some (mkPush rack since (PCheck s content rd)) =>
          let go := Some (setPushes (<[i := mkPush rack since (PSend s content rd)]> (pushes st)) st) in
          match since, deliveredTo st !! rack with
          | Some t, Some (a, at_) =>
              if bool_decide (a = activation st ∧ t < at_) then
                let st := setPushes (delete i (pushes st)) st in Some (setSkipped (skipped st ++ [(rack, t)]) st)
              else go
          | _, _ => go
          end
      | _ => None
      end
  | EvSend i bus an =>
      match pushes st !! i with
      | Some (mkPush rack since (PSend s content rd)) =>
          if negb bus then Some (setPushes (delete i (pushes st)) st)
          else match pushOne an s content rack rd with
          | None => None
          | Some (Some x, true) => Some (setPushes (<[i := mkPush rack since (PNote x)]> (pushes st)) (publish x st))
          | Some (x, _) => Some (setPushes (delete i (pushes st)) (publishMaybe x st))
          end
      | _ => None
      end
  | EvNote i =>
      match pushes st !! i with
      | Some (mkPush rack since (PNote x)) => Some (setPushes (delete i (pushes st)) (recordDelivery x st))
      | _ => None
      end
  | EvLand i => land i st
  | EvRestart =>
      Some (mkCtl None 0 ∅ (repo st) (ptr st) (topoRows st) (clock st) None ∅ (answers st) (skipped st) (sentLog st) []
              (pointers st) (inflight st) [])
  | EvLoadActive readable ta =>
      match holder st, active st with
      | None, None =>
          if bool_decide (activation st = 0) then
            match restore readable ta st with
            | (rows, inr (Some (s, content))) => Some (confirm (setActive (Some (s, content)) (setTopo rows st)))
            | (rows, _) => Some (setTopo rows st)
            end
          else None
      | _, _ => None
      end
  end.

Fixpoint ctlSteps (st : ctl) (evs : list cevent) : option ctl :=
  match evs with
  | [] => Some st
  | ev :: evs => match ctlStep st ev with Some st' => ctlSteps st' evs | None => None end
  end.

Definition ctlReachable (st : ctl) : Prop := ∃ evs, ctlSteps ctlInit evs = Some st.
End controller.
