(* ===== verification/ControllerSpec.v ===== *)
(** * What the scenario controller promises

    The bytes a Rack receives were made durable first, and a restart pushes the same
    bytes; a push is left out only for a Rack that was sent the active scenario. *)
From S2P Require Import Prelude FluxMsg Tree Routes Scenario Artifacts Controller.
Open Scope Z_scope.

Section ctl.
Context (decode : string → option cScenario) (encode : cScenario → option string)
        (refsOf : string → option (list string)).
(** A YAML encoding of a scenario is not empty. *)
Context (encode_nonempty : ∀ s c, encode s = Some c → c ≠ "").
Abbreviation ctlStep := (ctlStep decode encode refsOf).
Abbreviation ctlSteps := (ctlSteps decode encode refsOf).
Abbreviation ctlReachable := (ctlReachable decode encode refsOf).
Implicit Types (st : ctl) (x : sent) (n : noted).

(** The bytes [c] were in memory when [rd] was recorded: the last confirmed value of the
    pointer by then, with only values of Activates that returned an error after it. *)
Definition wasRead st (c : string) (rd : reading) : Prop :=
  (∃ l p, rd_hist rd = l ++ p :: rd_unsure rd ∧ pt_Content p = c) ∧ rd_hist rd `prefix_of` pointers st.

(** And they are the active ones if read under the activation that is current. *)
Definition readAt st (c : string) (rd : reading) : Prop :=
  rd_act rd ≤ activation st ∧ wasRead st c rd ∧ (rd_act rd = activation st → snd <$> active st = Some c).

Definition sentOk st x : Prop := x ∈ sentLog st ∧ readAt st (s_content x) (s_read x).

Definition pcOk st (pc : pushPC) : Prop :=
  match pc with
  | PRead => True
  | PCheck s c rd | PSend s c rd => readAt st c rd
  | PNote x => sentOk st x
  end.

Definition holderOk st (h : pushing) : Prop :=
  active st = Some (pu_s h, pu_content h) ∧ readAt st (pu_content h) (pu_read h) ∧ rd_act (pu_read h) = activation st ∧
  ∀ x, pu_note h = Some x → sentOk st x ∧ s_act x = activation st.

(** The pointer and the memory. *)
Definition ptrOk st : Prop :=
  (∀ s c, active st = Some (s, c) → ∃ l p, pointers st = l ++ p :: unconfirmed st ∧ pt_Content p = c) ∧
  ptr st = last (pointers st) ∧
  (∀ p, p ∈ pointers st → pt_Content p ≠ "") ∧ (∀ rev p, (rev, p) ∈ inflight st → pt_Content p ≠ "").

Record cinv st : Prop := {
  ci_ptr : ptrOk st;
  ci_idle : active st = None → holder st = None ∧ noteLog st = [] ∧ ∀ i p, pushes st !! i = Some p → ph_pc p = PRead;
  ci_holder h : holder st = Some h → holderOk st h;
  ci_push i p : pushes st !! i = Some p → pcOk st (ph_pc p);
  ci_sent x : x ∈ sentLog st → wasRead st (s_content x) (s_read x);
  ci_note n : n ∈ noteLog st → sentOk st (n_sent n) ∧ s_act (n_sent n) ≤ n_act n ≤ activation st;
  ci_delivered r a t : deliveredTo st !! r = Some (a, t) →
    ∃ n, n ∈ noteLog st ∧ s_rack (n_sent n) = r ∧ n_act n = a ∧ n_at n = t
}.

(** Steps that keep the active scenario. *)
Record keeps st st' : Prop := {
  k_active : active st' = active st;
  k_activation : activation st' = activation st;
  k_pointers : pointers st `prefix_of` pointers st';
  k_sent x : x ∈ sentLog st → x ∈ sentLog st'
}.

Lemma wasRead_keeps st st' c rd : pointers st `prefix_of` pointers st' → wasRead st c rd → wasRead st' c rd.
Proof. intros Hp [? ?]. split; [done|by etrans]. Qed.

Lemma readAt_keeps st st' c rd : keeps st st' → readAt st c rd → readAt st' c rd.
Proof. intros [Ea En Ep _] (? & ? & ?). unfold readAt. rewrite Ea, En. split_and!; [done|by eapply wasRead_keeps|done]. Qed.

Lemma sentOk_keeps st st' x : keeps st st' → sentOk st x → sentOk st' x.
Proof. intros Hk [Hin Hr]. split; [by apply Hk|by eapply readAt_keeps]. Qed.

Lemma pcOk_keeps st st' pc : keeps st st' → pcOk st pc → pcOk st' pc.
Proof. destruct pc; simpl; eauto using readAt_keeps, sentOk_keeps. Qed.

Lemma holderOk_keeps st st' h : keeps st st' → holderOk st h → holderOk st' h.
Proof.
  intros Hk (Ha & Hr & He & Hn). pose proof (k_active _ _ Hk). pose proof (k_activation _ _ Hk).
  split_and!; [congruence|by eapply readAt_keeps|congruence|]. intros x Hx. destruct (Hn x Hx). split; [by eapply sentOk_keeps|congruence].
Qed.

(** What is left to show of such a step: the pointer, the new holder, pushes, publications, notes and
    delivery records. *)
Lemma cinv_keeps st st' :
  cinv st → keeps st st' → ptrOk st' →
  (∀ h, holder st' = Some h → holder st = Some h ∨ holderOk st' h ∧ active st ≠ None) →
  (∀ i p, pushes st' !! i = Some p → pushes st !! i = Some p ∨ pcOk st' (ph_pc p) ∧ (active st = None → ph_pc p = PRead)) →
  (∀ x, x ∈ sentLog st' → x ∈ sentLog st ∨ wasRead st' (s_content x) (s_read x)) →
  (∀ n, n ∈ noteLog st' → n ∈ noteLog st ∨
     sentOk st' (n_sent n) ∧ s_act (n_sent n) ≤ n_act n ≤ activation st' ∧ active st ≠ None) →
  (∀ n, n ∈ noteLog st → n ∈ noteLog st') →
  (∀ r a t, deliveredTo st' !! r = Some (a, t) → deliveredTo st !! r = Some (a, t) ∨
     ∃ n, n ∈ noteLog st' ∧ s_rack (n_sent n) = r ∧ n_act n = a ∧ n_at n = t) →
  cinv st'.
Proof.
  intros Hi Hk Ho Hh Hp Hs Hn Hn' Hd. pose proof Hk as [Ea En Ep _]. split.
  - done.
  - rewrite Ea. intros Hnone. destruct (ci_idle _ Hi Hnone) as (H1 & H2 & H3). split_and!.
    + destruct (holder st') as [h|] eqn:E; [|done]. destruct (Hh h eq_refl) as [?|[_ ?]]; congruence.
    + destruct (noteLog st') as [|n l] eqn:E; [done|]. exfalso.
      destruct (Hn n) as [Hx|(_ & _ & Hx)]; [by left|rewrite H2 in Hx; by apply elem_of_nil in Hx|done].
    + intros i p E. destruct (Hp i p E) as [?|[_ ?]]; eauto.
  - intros h E. destruct (Hh h E) as [?|[? _]]; [|done]. eapply holderOk_keeps; [done|]. by apply Hi.
  - intros i p E. destruct (Hp i p E) as [?|[? _]]; [|done]. eapply pcOk_keeps; [done|]. by eapply Hi.
  - intros x Hx. destruct (Hs x Hx) as [?|?]; [|done]. eapply wasRead_keeps; [done|]. by apply Hi.
  - intros n Hx. destruct (Hn n Hx) as [Hx'|(? & ? & _)]; [|done]. rewrite En.
    destruct (ci_note _ Hi n Hx') as [? ?]. split; [by eapply sentOk_keeps|done].
  - intros r a t E. destruct (Hd _ _ _ E) as [E'|?]; [|done].
    destruct (ci_delivered _ Hi _ _ _ E') as (n & ? & ?). eauto.
Qed.

Lemma readAt_commit st s p c rd : readAt st c rd → readAt (commit s p st) c rd.
Proof.
  intros (Hle & Hw & _). split_and!; simpl; [lia| |lia]. eapply wasRead_keeps; [|done]. simpl. by apply prefix_app_r.
Qed.

Lemma sentOk_commit st s p x : sentOk st x → sentOk (commit s p st) x.
Proof. intros [? ?]. split; [done|by apply readAt_commit]. Qed.

Lemma ptrOk_snoc st p l : ptrOk st → pt_Content p ≠ "" → l = pointers st ++ [p] →
  Some p = last l ∧ (∀ q, q ∈ l → pt_Content q ≠ "").
Proof.
  intros (_ & _ & Hn & _) Hp ->. split; [by rewrite last_snoc|].
  intros q [Hq|Hq]%elem_of_app; [by apply Hn|by apply list_elem_of_singleton in Hq as ->].
Qed.

Lemma cinv_commit st s p : cinv st → holder st = None → pt_Content p ≠ "" → cinv (commit s p st).
Proof.
  intros Hi Hh Hp. destruct (ptrOk_snoc st p _ (ci_ptr _ Hi) Hp eq_refl) as [H1 H2]. split; simpl; try done.
  - split_and!; simpl; [|done|done|apply (ci_ptr _ Hi)]. intros s' c [= <- <-]. by exists (pointers st), p.
  - intros h. by rewrite Hh.
  - intros i q E. pose proof (ci_push _ Hi i q E) as Hpc.
    destruct (ph_pc q); simpl in *; auto using readAt_commit, sentOk_commit.
  - intros x Hx. eapply wasRead_keeps, (ci_sent _ Hi x Hx). simpl. by apply prefix_app_r.
  - intros n Hx. destruct (ci_note _ Hi n Hx) as [? ?]. split; [by apply sentOk_commit|simpl; lia].
  - intros r a t E. by apply (ci_delivered _ Hi).
Qed.

Lemma keeps_refl st : keeps st st.
Proof. by split. Qed.

(** Steps that change only the rows, the answers, the clock, the repository or the list of
    pushes left out. *)
Lemma cinv_same st st' :
  cinv st → keeps st st' → ptrOk st' → holder st' = holder st → pushes st' = pushes st → sentLog st' = sentLog st →
  noteLog st' = noteLog st → deliveredTo st' = deliveredTo st → cinv st'.
Proof.
  intros Hi Hk Ho E1 E2 E3 E4 E5. eapply cinv_keeps; [done|done|done|..]; rewrite ?E1, ?E2, ?E3, ?E4, ?E5; auto.
Qed.

Lemma cinv_setPushes st ps :
  cinv st → (∀ i p, ps !! i = Some p → pushes st !! i = Some p ∨ pcOk st (ph_pc p) ∧ (active st = None → ph_pc p = PRead)) →
  cinv (setPushes ps st).
Proof.
  intros Hi Hps. assert (keeps st (setPushes ps st)) as Hk by (by split).
  eapply cinv_keeps; [done|done|apply (ci_ptr _ Hi)|..]; simpl; auto.
Qed.

Lemma cinv_drop st i : cinv st → cinv (setPushes (delete i (pushes st)) st).
Proof. intros Hi. apply cinv_setPushes; [done|]. intros j p [_ ?]%lookup_delete_Some. by left. Qed.

Lemma cinv_putPush st i q :
  cinv st → pcOk st (ph_pc q) → (active st = None → ph_pc q = PRead) → cinv (setPushes (<[i := q]> (pushes st)) st).
Proof. intros Hi Hq Hn. apply cinv_setPushes; [done|]. intros j p [[_ <-]|[_ ?]]%lookup_insert_Some; auto. Qed.

Lemma cinv_setHolder st h :
  cinv st → (∀ h', h = Some h' → holderOk st h' ∧ active st ≠ None) → cinv (setHolder h st).
Proof.
  intros Hi Hh. assert (keeps st (setHolder h st)) as Hk by (by split).
  eapply cinv_keeps; [done|done|apply (ci_ptr _ Hi)|..]; simpl; auto. intros h' E. destruct (Hh h' E). right.
  split; [by eapply holderOk_keeps|done].
Qed.

Lemma publish_keeps st x : keeps st (publish x st).
Proof. split; simpl; try done. intros y Hy. rewrite elem_of_app. auto. Qed.

Lemma cinv_publish st x : cinv st → readAt st (s_content x) (s_read x) → cinv (publish x st) ∧ sentOk (publish x st) x.
Proof.
  intros Hi Hr. pose proof (publish_keeps st x) as Hk. split.
  - eapply cinv_keeps; [done|done|apply (ci_ptr _ Hi)|..]; simpl; auto. intros y [?|Hy]%elem_of_app; [by left|].
    apply list_elem_of_singleton in Hy as ->. right. apply Hr.
  - split; [simpl; rewrite elem_of_app, list_elem_of_singleton; by right|by eapply readAt_keeps].
Qed.

Lemma cinv_record st x : cinv st → sentOk st x → active st ≠ None → cinv (recordDelivery x st).
Proof.
  intros Hi Hx Ha. assert (keeps st (recordDelivery x st)) as Hk by (by split).
  set (n := mkNoted x (activation st) (clock st)).
  assert (n ∈ noteLog (recordDelivery x st)) as Hn by (simpl; rewrite elem_of_app, list_elem_of_singleton; by right).
  eapply cinv_keeps; [done|done|apply (ci_ptr _ Hi)|..]; simpl; auto.
  - intros m [?|Hm]%elem_of_app; [by left|]. apply list_elem_of_singleton in Hm as ->. right. simpl.
    split; [by eapply sentOk_keeps|]. split; [|done]. destruct Hx as [_ (? & _)]. unfold s_act. simpl in *. lia.
  - intros m Hm. rewrite elem_of_app. auto.
  - intros r a t [[<- [= <- <-]]|[_ ?]]%lookup_insert_Some; [|by left]. right. by exists n.
Qed.

Lemma pushOne_sent an s c r rd x b : pushOne refsOf an s c r rd = Some (Some x, b) → s_rack x = r ∧ s_content x = c ∧ s_read x = rd.
Proof. unfold pushOne. intros E. break_in E; by simplify_eq. Qed.

Lemma readAt_active st s c : cinv st → active st = Some (s, c) → readAt st c (readNow st).
Proof. intros Hi E. split_and!; [done|split; [by apply (proj1 (ci_ptr _ Hi) s)|done]|]. by rewrite E. Qed.

Lemma cinv_publishMaybe st (x : option sent) : cinv st → (∀ y, x = Some y → readAt st (s_content y) (s_read y)) →
  cinv (publishMaybe x st) ∧ keeps st (publishMaybe x st).
Proof.
  intros Hi Hx. destruct x as [y|]; simpl; [|by split]. split; [|apply publish_keeps]. by apply cinv_publish, Hx.
Qed.

(** A write without an answer, and its taking effect. *)
Lemma cinv_unanswered st p : cinv st → pt_Content p ≠ "" → cinv (unanswered p st).
Proof.
  intros Hi Hp. eapply cinv_same; [done|by split|..]; try done. destruct (ci_ptr _ Hi) as (? & ? & ? & Hf).
  split_and!; try done. simpl. intros rev q [Hq|Hq]%elem_of_app; [by eapply Hf|apply list_elem_of_singleton in Hq; by simplify_eq].
Qed.

Lemma cinv_land st i st' : cinv st → land i st = Some st' → cinv st'.
Proof.
  intros Hi. unfold land. destruct (inflight st !! i) as [[rev p]|] eqn:Ef; [|done]. case_bool_decide; [|done]. intros [= <-].
  destruct (ci_ptr _ Hi) as (Ha & _ & _ & Hf). assert (pt_Content p ≠ "") as Hp by (eapply Hf; by eapply list_elem_of_lookup_2).
  destruct (ptrOk_snoc st p _ (ci_ptr _ Hi) Hp eq_refl) as [H1 H2].
  eapply cinv_same; [done| | |done..].
  - split; simpl; try done. by apply prefix_app_r.
  - split_and!; simpl; try done. intros s c E. destruct (Ha s c E) as (l & q & -> & Ec). exists l, q. by rewrite <-app_assoc.
Qed.

Lemma prepare_content aa name st rows s p : prepare decode encode aa name st = (rows, inr (s, p)) → pt_Content p ≠ "".
Proof. unfold prepare. intros E. break_in E; simplify_eq; simpl; by eapply encode_nonempty. Qed.

Lemma restore_content readable ta st rows s c :
  cinv st → restore decode encode readable ta st = (rows, inr (Some (s, c))) → ∃ p, ptr st = Some p ∧ pt_Content p = c.
Proof.
  intros Hi. unfold restore. destruct (ptr st) as [p|] eqn:Ep; [|by destruct readable].
  destruct (ci_ptr _ Hi) as (_ & Hl & Hne & _). rewrite Ep in Hl. symmetry in Hl. apply last_Some in Hl as [l Hl].
  rewrite bool_decide_false by (apply Hne; rewrite Hl, elem_of_app; right; by left). intros E. break_in E; simplify_eq; eauto.
Qed.

Lemma cinv_activate st name aa st' : cinv st → ctlStep st (EvActivate name aa) = Some st' → cinv st'.
Proof.
  intros Hi. simpl. destruct (holder st) as [h|] eqn:Eh; [done|].
  destruct (prepare decode encode aa name st) as [rows [e|[s p]]] eqn:Ep; [intros [= <-]; by eapply cinv_same; [done|by split|apply (ci_ptr _ Hi)|..]|].
  pose proof (prepare_content _ _ _ _ _ _ Ep) as Hp.
  assert (cinv (setTopo rows st)) as Ht by by eapply cinv_same; [done|by split|apply (ci_ptr _ Hi)|..].
  destruct (aa_pointer aa); [|intros [= <-]; by eapply (cinv_same (setTopo rows st)); [done|by split|apply (ci_ptr _ Ht)|..]|].
  - assert (cinv (commit s p (setTopo rows st))) as Hc by by apply cinv_commit.
    destruct (aa_bus aa); intros [= <-]; [|by eapply (cinv_same (commit s p (setTopo rows st))); [done|by split|apply (ci_ptr _ Hc)|..]].
    apply cinv_setHolder; [done|]. intros h' [= <-]. split; [|done]. split_and!; [done|by eapply readAt_active|done|done].
  - intros [= <-]. assert (cinv (unanswered p (setTopo rows st))) as Hu by by apply cinv_unanswered.
    by eapply (cinv_same (unanswered p (setTopo rows st))); [done|by split|apply (ci_ptr _ Hu)|..].
Qed.

Lemma cinv_pushNext st an st' : cinv st → ctlStep st (EvPushNext an) = Some st' → cinv st'.
Proof.
  intros Hi. simpl. destruct (holder st) as [[s c rd targets [|r rest] [y|] n]|] eqn:Eh; try done.
  destruct (ci_holder _ Hi _ Eh) as (Ha & Hr & He & _). simpl in Ha, Hr, He.
  destruct (pushOne refsOf an s c r rd) as [[x b]|] eqn:Ex; [|done].
  assert (∀ y, x = Some y → readAt st (s_content y) (s_read y)) as Hx.
  { intros y ->. by apply pushOne_sent in Ex as (_ & -> & ->). }
  assert (cinv (setHolder (Some (mkPushing s c rd targets rest None n)) (publishMaybe x st))) as Hgo.
  { destruct (cinv_publishMaybe st x Hi Hx) as [Hi' Hk]. apply cinv_setHolder; [done|]. intros h [= <-].
    split; [|rewrite (k_active _ _ Hk); congruence]. eapply holderOk_keeps; [exact Hk|]. by split_and!. }
  destruct x as [x|]; [|intros [= <-]; exact Hgo]. destruct b; intros [= <-]; [|exact Hgo].
  specialize (Hx x eq_refl). apply pushOne_sent in Ex as (Er & Ec & En).
  destruct (cinv_publish st x Hi Hx) as [Hi' Hs]. apply cinv_setHolder; [done|]. intros h [= <-].
  split; [|simpl; congruence]. split_and!; [done|by eapply readAt_keeps; [apply publish_keeps|]|done|].
  intros x' [= <-]. split; [done|]. unfold s_act. by rewrite En.
Qed.

Lemma cinv_send st i bus an st' : cinv st → ctlStep st (EvSend i bus an) = Some st' → cinv st'.
Proof.
  intros Hi. simpl. destruct (pushes st !! i) as [[r since [| |s c rd|]]|] eqn:Ep; try done.
  pose proof (ci_push _ Hi _ _ Ep) as Hr. simpl in Hr.
  destruct bus; simpl; [|intros [= <-]; by apply cinv_drop].
  destruct (pushOne refsOf an s c r rd) as [[x b]|] eqn:Ex; [|done].
  assert (∀ y, x = Some y → readAt st (s_content y) (s_read y)) as Hx.
  { intros y ->. by apply pushOne_sent in Ex as (_ & -> & ->). }
  assert (cinv (setPushes (delete i (pushes st)) (publishMaybe x st))) as Hgo.
  { destruct (cinv_publishMaybe st x Hi Hx) as [Hi' _]. pose proof (cinv_drop _ i Hi') as Hd. by destruct x. }
  destruct x as [x|]; [|intros [= <-]; exact Hgo]. destruct b; intros [= <-]; [|exact Hgo].
  destruct (cinv_publish st x Hi (Hx x eq_refl)) as [Hi' Hs]. apply (cinv_putPush (publish x st)); [done|done|].
  intros Hn. destruct (ci_idle _ Hi Hn) as (_ & _ & Hq). by specialize (Hq _ _ Ep).
Qed.

Lemma cinv_loadActive st readable ta st' : cinv st → ctlStep st (EvLoadActive readable ta) = Some st' → cinv st'.
Proof.
  intros Hi. simpl. destruct (holder st) eqn:Eh; [done|]. destruct (active st) eqn:Ea; [done|].
  destruct (ci_idle _ Hi Ea) as (_ & Hn & Hp).
  case_bool_decide as Hz; [|done]. destruct (restore decode encode readable ta st) as [rows [e|[[s c]|]]] eqn:Er; intros [= <-].
  - by eapply cinv_same; [done|by split|apply (ci_ptr _ Hi)|..].
  - pose proof (restore_content _ _ _ _ _ _ Hi Er) as (p & Ep & Ec). destruct (ci_ptr _ Hi) as (_ & Hl & H3 & H4). split; simpl; try done.
    + split_and!; simpl; try done. intros s' c' [= <- <-]. rewrite Ep in Hl. symmetry in Hl. apply last_Some in Hl as [l Hl]. by exists l, p.
    + by rewrite Eh.
    + intros i q E. specialize (Hp i q E). by rewrite Hp.
    + apply Hi.
    + rewrite Hn. intros n Hx. by apply elem_of_nil in Hx.
    + apply Hi.
  - by eapply cinv_same; [done|by split|apply (ci_ptr _ Hi)|..].
Qed.

Lemma cinv_step st ev st' : cinv st → ctlStep st ev = Some st' → cinv st'.
Proof.
  intros Hi. destruct ev as [d|c dr so|name aa|an| | |i r since|i|i|i bus an|i|i| |rd ta]; intros E;
    [| |by eapply cinv_activate|by eapply cinv_pushNext| | | | | |by eapply cinv_send| |by eapply cinv_land| |by eapply cinv_loadActive];
    simpl in E.
  - destruct (0 <? d); simplify_eq. by eapply cinv_same; [done|by split|apply (ci_ptr _ Hi)|..].
  - destruct (holder st) eqn:Eh; simplify_eq. by eapply cinv_same; [done|by split|apply (ci_ptr _ Hi)|..].
  - destruct (holder st) as [[s c rd targets rest [x|] n]|] eqn:Eh; simplify_eq.
    destruct (ci_holder _ Hi _ Eh) as (Ha & Hr & He & Hx). destruct (Hx x eq_refl). simpl in *.
    assert (active st ≠ None) as Hne by congruence.
    apply cinv_setHolder; [by apply cinv_record|]. intros h [= <-]. by split; [split_and!|].
  - destruct (holder st) as [[s c rd targets [|] [x|] n]|] eqn:Eh; simplify_eq.
    assert (cinv (setHolder None st)) as Hh by by apply cinv_setHolder.
    by eapply (cinv_same (setHolder None st)); [done|by split|apply (ci_ptr _ Hh)|..].
  - case_bool_decide; simplify_eq. by apply cinv_putPush.
  - destruct (holder st) eqn:Eh; [done|]. destruct (pushes st !! i) as [[r since []]|] eqn:Ep; try done.
    destruct (active st) as [[s c]|] eqn:Ea; simplify_eq; [|by apply cinv_drop].
    apply cinv_putPush; [done|by eapply readAt_active|congruence].
  - destruct (pushes st !! i) as [[r since [|s c rd| |]]|] eqn:Ep; try done.
    assert (cinv (setPushes (<[i := mkPush r since (PSend s c rd)]> (pushes st)) st)) as Hgo.
    { apply cinv_putPush; [done|by apply (ci_push _ Hi _ _ Ep)|].
      intros Hn. destruct (ci_idle _ Hi Hn) as (_ & _ & Hq). by specialize (Hq _ _ Ep). }
    destruct since as [t|]; [|by simplify_eq]. destruct (deliveredTo st !! r) as [[a' t']|]; [|by simplify_eq].
    case_bool_decide; simplify_eq; [|done]. pose proof (cinv_drop st i Hi) as Hd.
    by eapply (cinv_same (setPushes (delete i (pushes st)) st)); [done|by split|apply (ci_ptr _ Hd)|..].
  - destruct (pushes st !! i) as [[r since [| | |x]]|] eqn:Ep; simplify_eq.
    apply (cinv_drop (recordDelivery x st)). apply cinv_record; [done|by apply (ci_push _ Hi _ _ Ep)|].
    intros Hn. destruct (ci_idle _ Hi Hn) as (_ & _ & Hq). by specialize (Hq _ _ Ep).
  - simplify_eq. destruct (ci_ptr _ Hi) as (_ & H2 & H3 & H4). split; simpl; try done; [apply Hi|].
    intros n Hx. by apply elem_of_nil in Hx.
Qed.

Lemma cinv_reachable st : ctlReachable st → cinv st.
Proof.
  intros [evs E]. assert (cinv ctlInit) as H0.
  { split; simpl; try done; [split_and!; simpl; try done; [intros p Hp|intros rev p Hp]; by apply elem_of_nil in Hp|..]; intros ? Hx; by apply elem_of_nil in Hx. }
  revert E. generalize ctlInit H0. clear H0. induction evs as [|ev evs IH]; intros st0 Hi E; simpl in E; [by simplify_eq|].
  destruct (ctlStep st0 ev) as [st1|] eqn:E1; [|done]. eapply IH; [|done]. by eapply cinv_step.
Qed.

(** C31: what is pushed was written to the pointer first, and a restart pushes the bytes
    of the pointer, whatever calls fail, with or without effect, and whatever enrollment
    pushes run beside an activation.  The stored pointer is the newest of the values it
    has had.  The scenario active in memory is, byte for byte, one of those values, and
    every value after it was written by an Activate that returned an error (its write was
    not answered): so when no such write took effect since the last Activate that wrote
    the pointer without an error, or the restart, it is the one the pointer holds.  The same holds of every scenario
    ever sent to a Rack, at the moment its bytes were read: they were the pointer's then,
    up to the writes of Activates that had returned an error.  What a restarted Mixer
    restores, and so pushes, are the bytes of the pointer. *)
Theorem pushed_is_durable st :
  ctlReachable st →
  ptr st = last (pointers st) ∧
  (∀ s c, active st = Some (s, c) → ∃ l p, pointers st = l ++ p :: unconfirmed st ∧ pt_Content p = c) ∧
  (∀ s c, active st = Some (s, c) → unconfirmed st = [] → ∃ p, ptr st = Some p ∧ pt_Content p = c) ∧
  (∀ x, x ∈ sentLog st → rd_hist (s_read x) `prefix_of` pointers st ∧
     ∃ l p, rd_hist (s_read x) = l ++ p :: rd_unsure (s_read x) ∧ pt_Content p = s_content x) ∧
  (∀ readable ta st1 st2, ctlStep st EvRestart = Some st1 → ctlStep st1 (EvLoadActive readable ta) = Some st2 →
     ∀ s c, active st2 = Some (s, c) → ∃ p, ptr st = Some p ∧ pt_Content p = c).
Proof.
  intros Hr%cinv_reachable. assert (∀ st s c, cinv st → active st = Some (s, c) → unconfirmed st = [] → ∃ p, ptr st = Some p ∧ pt_Content p = c) as Hm.
  { clear. intros st s c Hi Ea Hu. destruct (ci_ptr _ Hi) as (Ha & Hl & _). destruct (Ha s c Ea) as (l & p & E & Ec).
    exists p. split; [|done]. by rewrite Hl, E, Hu, last_snoc. }
  split_and!; [apply (ci_ptr _ Hr)|apply (ci_ptr _ Hr)|intros s c; by apply Hm|intros x Hx; destruct (ci_sent _ Hr x Hx); by split|].
  intros readable ta st1 st2 E1 E2 s c Ea. assert (ptr st1 = ptr st) as Ep by (simpl in E1; by simplify_eq).
  pose proof (cinv_step _ _ _ Hr E1) as H1. rewrite <-Ep.
  assert (ptr st2 = ptr st1 ∧ unconfirmed st2 = []) as [<- Hu]; [|by apply (Hm st2 s c (cinv_step _ _ _ H1 E2))].
  simpl in E1. simplify_eq. simpl in E2. break_in E2; by simplify_eq.
Qed.

(** a push is left out only when it is not needed. When an enrollment push skips a Rack
    because the record says the Rack has this activation since then, the Rack was sent the
    active scenario and the record was made after that time, provided no enrollment push
    of this process was overtaken by an activation between its read and its record. *)
Theorem skipped_push_delivered st i st' r t :
  ctlReachable st → (∀ n, n ∈ noteLog st → s_act (n_sent n) = n_act n) →
  ctlStep st (EvCheck i) = Some st' → skipped st' = skipped st ++ [(r, t)] →
  ∃ n s c, active st = Some (s, c) ∧ n ∈ noteLog st ∧ n_sent n ∈ sentLog st ∧
    s_rack (n_sent n) = r ∧ s_content (n_sent n) = c ∧ t < n_at n.
Proof.
  intros Hr%cinv_reachable Hclean E Hsk. simpl in E.
  assert (∀ A (l : list A) y, l ≠ l ++ [y]) as Happ.
  { intros A l y Hl. apply (f_equal length) in Hl. rewrite length_app in Hl. simpl in Hl. lia. }
  destruct (pushes st !! i) as [[r' since [|s c a| |]]|] eqn:Ep; try done.
  destruct since as [t'|]; [|simplify_eq; simpl in Hsk; by apply Happ in Hsk].
  destruct (deliveredTo st !! r') as [[a' t2]|] eqn:Ed; [|simplify_eq; simpl in Hsk; by apply Happ in Hsk].
  case_bool_decide as Hb; simplify_eq; simpl in Hsk; [|by apply Happ in Hsk].
  apply (inj _) in Hsk. simplify_eq. destruct Hb as [-> Hlt].
  destruct (ci_delivered _ Hr _ _ _ Ed) as (n & Hn & Erk & Ea & Et).
  destruct (ci_note _ Hr n Hn) as [[Hin (_ & _ & Hact)] _].
  change (rd_act (s_read (n_sent n))) with (s_act (n_sent n)) in Hact. rewrite (Hclean n Hn), Ea in Hact. specialize (Hact eq_refl).
  destruct (active st) as [[s' c']|] eqn:Eac; [|done]. simpl in Hact. simplify_eq.
  exists n, s', (s_content (n_sent n)). by split_and!.
Qed.
End ctl.
