(* ===== verification/ControllerParts.v ===== *)
(** * The parts of a push: names, targets, specs, ids *)
From Stdlib Require Import Ascii.
From S2P Require Import Prelude FluxMsg Tree Routes Scenario Artifacts Controller.
Open Scope Z_scope.

(** ** Targets *)

Lemma addTarget_spec ts n :
  NoDup ts → NoDup (addTarget ts n) ∧ ∀ m, m ∈ addTarget ts n ↔ m ∈ ts ∨ m = n ∧ n ≠ "".
Proof.
  intros Hnd. unfold addTarget. case_bool_decide as Hn; simpl; [case_bool_decide as Hin; simpl|].
  - split; [done|]. intros m. split; [by left|]. intros [?|[-> _]]; done.
  - split.
    + apply NoDup_app. split; [done|]. split; [set_solver|apply NoDup_singleton].
    + intros m. rewrite elem_of_app, list_elem_of_singleton. naive_solver.
  - split; [done|]. intros m. naive_solver.
Qed.

Lemma addTargets_spec ns ts :
  NoDup ts → NoDup (foldl addTarget ts ns) ∧ ∀ m, m ∈ foldl addTarget ts ns ↔ m ∈ ts ∨ m ∈ ns ∧ m ≠ "".
Proof.
  revert ts. induction ns as [|n ns IH]; intros ts Hnd; simpl.
  - split; [done|]. intros m. set_solver.
  - destruct (addTarget_spec ts n Hnd) as [Hnd' Hin]. destruct (IH _ Hnd') as [Hnd'' Hin']. split; [done|].
    intros m. rewrite Hin', Hin, elem_of_cons. naive_solver.
Qed.

(** The targets of a push: the named Racks, the pins, and the active Racks when a gear has
    no pin; each once. *)
Lemma pushTargets_spec s act :
  NoDup (pushTargets s act) ∧
  ∀ n, n ∈ pushTargets s act ↔
    n ≠ "" ∧ (n ∈ rt_Name <$> cs_Racks s ∨ (∃ g, g ∈ cs_Gears s ∧ deployOf g = Some n) ∨
              hasGlobalGear s = true ∧ n ∈ default [] act).
Proof.
  unfold pushTargets.
  destruct (addTargets_spec (rt_Name <$> cs_Racks s) [] (NoDup_nil_2)) as [N1 E1].
  destruct (addTargets_spec (omap deployOf (cs_Gears s)) _ N1) as [N2 E2].
  destruct (addTargets_spec (default [] act) _ N2) as [N3 E3].
  destruct (hasGlobalGear s); (split; [done|]); intros n; rewrite ?E3, E2, E1, elem_of_nil, list_elem_of_omap; naive_solver.
Qed.

Lemma checkTargets_spec active groups gs :
  checkTargets active groups gs = None ↔ ∀ g t, g ∈ gs → deployOf g = Some t → t ∈ active.
Proof.
  induction gs as [|g gs IH]; simpl; [set_solver|].
  destruct (deployOf g) as [t|] eqn:Ed; [case_bool_decide as Ht|].
  - rewrite IH. split; [|set_solver]. intros H g' t' [->|Hg]%elem_of_cons Ed'; [congruence|eauto].
  - split; [by destruct (bool_decide _)|]. intros H. exfalso. eapply Ht, H; [by left|done].
  - rewrite IH. split; [|set_solver]. intros H g' t' [->|Hg]%elem_of_cons Ed'; [congruence|eauto].
Qed.

(** ** Registration keeps what the scenario declares, and keeps the ids it has *)
Section register.
Context (lookup : string → option Z) (fresh : nat → Z).

Definition hasIDs (g : cGear) : Prop :=
  cg_ID g ≠ 0 ∧ ∃ i o, cg_Ports g = <["in" := i]> {["out" := o]} ∧ i ≠ 0 ∧ o ≠ 0.

Lemma keepID_id id name n : id ≠ 0 → keepID lookup fresh id name n = (id, n).
Proof. intros H. unfold keepID. by rewrite bool_decide_true. Qed.

Lemma registerGear_decl m n g : cg_decl (registerGear lookup fresh m n g).1.1 = cg_decl g ∧ cg_other (registerGear lookup fresh m n g).1.1 = cg_other g.
Proof. unfold registerGear. by repeat (destruct (keepID lookup fresh _ _ _)). Qed.

Lemma registerGears_decl m n gs : cg_decl <$> (registerGears lookup fresh m n gs).1.1 = cg_decl <$> gs.
Proof.
  revert n. induction gs as [|g gs IH]; intros n; simpl; [done|].
  destruct (registerGear_decl m n g) as [Hd _]. destruct (registerGear lookup fresh m n g) as [[g' rows] n'].
  specialize (IH n'). destruct (registerGears lookup fresh m n' gs) as [[gs' rows'] n'']. simpl in *. f_equal; [exact Hd|exact IH].
Qed.

Context (Hfresh : ∀ n, fresh n ≠ 0) (Hlookup : ∀ name id, lookup name = Some id → id ≠ 0).

Lemma keepID_nonnil id name n : (keepID lookup fresh id name n).1 ≠ 0.
Proof. unfold keepID. case_bool_decide; [done|]. destruct (lookup name) eqn:E; simpl; eauto. Qed.

Lemma registerGear_ids m n g : hasIDs (registerGear lookup fresh m n g).1.1.
Proof.
  unfold registerGear. pose proof (keepID_nonnil (cg_ID g) (gearName g) n).
  destruct (keepID lookup fresh (cg_ID g) _ _) as [id n1].
  pose proof (keepID_nonnil (default 0 (cg_Ports g !! "in")) (gearName g +:+ ".in") n1).
  destruct (keepID lookup fresh _ _ n1) as [i n2].
  pose proof (keepID_nonnil (default 0 (cg_Ports g !! "out")) (gearName g +:+ ".out") n2).
  destruct (keepID lookup fresh _ _ n2) as [o n3]. simpl in *. split; [done|]. by exists i, o.
Qed.

Lemma registerGears_ids m n gs : Forall hasIDs (registerGears lookup fresh m n gs).1.1.
Proof.
  revert n. induction gs as [|g gs IH]; intros n; simpl; [done|]. pose proof (registerGear_ids m n g).
  destruct (registerGear lookup fresh m n g) as [[g' rows] n']. specialize (IH n').
  destruct (registerGears lookup fresh m n' gs) as [[gs' rows'] n'']. by constructor.
Qed.

Lemma registerWires_ids m gs n ws : Forall (λ w, cw_ID w ≠ 0) (registerWires fresh m gs n ws).1.1.
Proof.
  revert n. induction ws as [|w ws IH]; intros n; simpl; [done|].
  case_bool_decide; [specialize (IH n)|specialize (IH (S n))];
    destruct (registerWires fresh m gs _ ws) as [[ws' rows] n']; constructor; simpl; auto.
Qed.
End register.

(** A scenario with its ids registers as it is, whatever the store and the generator say. *)
Lemma registerGear_fix lookup fresh m n g : hasIDs g → (registerGear lookup fresh m n g).1.1 = g ∧ (registerGear lookup fresh m n g).2 = n.
Proof.
  intros [Hid (i & o & Hp & Hi & Ho)]. unfold registerGear. rewrite keepID_id by done.
  assert (cg_Ports g !! "in" = Some i) as -> by (by rewrite Hp).
  assert (cg_Ports g !! "out" = Some o) as -> by (by rewrite Hp).
  simpl. rewrite !keepID_id by done. simpl. split; [|done]. destruct g. simpl in *. by subst.
Qed.

Lemma registerGears_fix lookup fresh m n gs :
  Forall hasIDs gs → (registerGears lookup fresh m n gs).1.1 = gs ∧ (registerGears lookup fresh m n gs).2 = n.
Proof.
  intros H. revert n. induction H as [|g gs Hg Hgs IH]; intros n; simpl; [done|].
  destruct (registerGear_fix lookup fresh m n g Hg) as [E1 E2].
  destruct (registerGear lookup fresh m n g) as [[g' rows] n']. simpl in *. subst. specialize (IH n) as [E3 E4].
  destruct (registerGears lookup fresh m n gs) as [[gs' rows'] n'']. simpl in *. by subst.
Qed.

Lemma registerWires_fix fresh m gs n ws :
  Forall (λ w, cw_ID w ≠ 0) ws → (registerWires fresh m gs n ws).1.1 = ws.
Proof.
  intros H. revert n. induction H as [|w ws Hw Hws IH]; intros n; simpl; [done|]. rewrite bool_decide_true by done.
  specialize (IH n). destruct (registerWires fresh m gs n ws) as [[ws' rows] n']. simpl in *. subst. by destruct w.
Qed.

(** entity ids survive a restart. A scenario registered at its activation has an id for
    every gear, every port and every wire, declares what it declared before, and is
    restored by a starting Mixer exactly as it is: with no Rack waited for, whatever the
    topology store answers and whatever ids it would mint. *)
Theorem registered_ids_kept lookup fresh ok rackID s s' rows :
  (∀ n, fresh n ≠ 0) → (∀ name id, lookup name = Some id → id ≠ 0) →
  registerScenarioEntities lookup fresh false ok rackID s = (rows, inr s') →
  toFile s' = toFile s ∧ Forall hasIDs (cs_Gears s') ∧ Forall (λ w, cw_ID w ≠ 0) (cs_Wires s') ∧
  ∀ lookup' fresh' rackID', ∃ rows',
    registerScenarioEntities lookup' fresh' true true rackID' s' = (rows', inr s').
Proof.
  intros Hf Hl. unfold registerScenarioEntities. destruct ok; simpl; [|done].
  destruct (rackMachines _ _ _ _) as [|machines]; [done|].
  pose proof (registerGears_ids lookup fresh Hf Hl machines 1 (cs_Gears s)) as Hg.
  pose proof (registerGears_decl lookup fresh machines 1 (cs_Gears s)) as Hd.
  destruct (registerGears lookup fresh machines 1 (cs_Gears s)) as [[gs r1] n1]. simpl in *.
  pose proof (registerWires_ids fresh Hf machines gs n1 (cs_Wires s)) as Hw.
  assert (cw_wire <$> (registerWires fresh machines gs n1 (cs_Wires s)).1.1 = cw_wire <$> cs_Wires s) as Hwd.
  { clear Hw. generalize (cs_Wires s), n1. intros ws. induction ws as [|w ws IH]; intros n; simpl; [done|].
    destruct (if bool_decide _ then _ else _) as [id n2]. specialize (IH n2).
    destruct (registerWires fresh machines gs n2 ws) as [[ws' rs] n3]. simpl in *. f_equal; exact IH. }
  destruct (registerWires fresh machines gs n1 (cs_Wires s)) as [[ws r2] n2]. simpl in *. intros [= <- <-]. simpl.
  split; [unfold toFile; simpl; by rewrite Hd, Hwd|]. split; [done|]. split; [done|]. intros lookup' fresh' rackID'.
  assert (∀ m, ∃ m', rackMachines true rackID' (cs_Racks s) m = inr m') as Hr.
  { induction (cs_Racks s) as [|r rs IH]; intros m; simpl; [eauto|]. case_bool_decide; [done|].
    destruct (rackID' (rt_Name r)); eauto. }
  destruct (Hr ∅) as [m' ->].
  destruct (registerGears_fix lookup' fresh' m' 1 gs Hg) as [E1 E2].
  destruct (registerGears lookup' fresh' m' 1 gs) as [[gs' r3] n3]. simpl in *. subst.
  pose proof (registerWires_fix fresh' m' gs 1 ws Hw) as E3.
  destruct (registerWires fresh' m' gs 1 ws) as [[ws' r4] n4]. simpl in *. subst. eauto.
Qed.

(** ** The specs that travel *)
Section specs.
Context (load : string → option string) (refsOf : string → option (list string)).
Abbreviation collectWork := (collectWork load refsOf).

(** What the scenario names, and what the specs it names name. *)
Inductive needed (roots : list string) : string → Prop :=
| needed_root r : r ∈ roots → needed roots r
| needed_ref p c r : needed roots p → is_Some (storeRef p) → load p = Some c → r ∈ default [] (refsOf c) → needed roots r.

Definition artefactOf (r : string) (a : SpecArtifact) : Prop :=
  storeRef r = Some (sa_Name a, sa_Tag a) ∧ load r = Some (sa_Content a).

(** The state of the walk. *)
Record walk (roots : list string) (seen : gset string) (work : list string) (out : list SpecArtifact) : Prop := {
  w_work r : r ∈ work → needed roots r;
  w_seen r : r ∈ seen → needed roots r ∧ is_Some (storeRef r);
  w_out a : a ∈ out ↔ ∃ r, r ∈ seen ∧ artefactOf r a;
  w_roots r : r ∈ roots → r ∈ work ∨ r ∈ seen ∨ storeRef r = None;
  w_refs p c r : p ∈ seen → load p = Some c → r ∈ default [] (refsOf c) → r ∈ work ∨ r ∈ seen ∨ storeRef r = None
}.

Lemma walk_drop roots seen r work out :
  walk roots seen (r :: work) out → storeRef r = None ∨ r ∈ seen → walk roots seen work out.
Proof.
  intros [H1 H2 H3 H4 H5] Hr. split; [set_solver|done|done| |].
  - intros q Hq. destruct (H4 q Hq) as [[->|?]%elem_of_cons|?]; naive_solver.
  - intros p c q Hp Hc Hq. destruct (H5 p c q Hp Hc Hq) as [[->|?]%elem_of_cons|?]; naive_solver.
Qed.

Lemma walk_add roots seen r work out n t :
  walk roots seen (r :: work) out → storeRef r = Some (n, t) → r ∉ seen →
  walk roots ({[r]} ∪ seen)
    (match load r with Some c => work ++ default [] (refsOf c) | None => work end)
    (match load r with Some c => out ++ [mkArtifact n t c] | None => out end).
Proof.
  intros [H1 H2 H3 H4 H5] Hr Hs. assert (needed roots r) as Hn by (apply H1; by left).
  assert (∀ q, q ∈ work ∨ q ∈ seen ∨ storeRef q = None ∨ q = r →
    q ∈ match load r with Some c => work ++ default [] (refsOf c) | None => work end ∨ q ∈ {[r]} ∪ seen ∨ storeRef q = None) as Hgo.
  { intros q Hq. destruct (load r); set_solver. }
  split.
  - intros q Hq. destruct (load r) as [c|] eqn:El; [|apply H1; by right].
    apply elem_of_app in Hq as [Hq|Hq]; [apply H1; by right|]. eapply needed_ref; eauto.
  - intros q [->%elem_of_singleton|Hq]%elem_of_union; [eauto|by apply H2].
  - intros a. assert ((∃ q, q ∈ ({[r]} ∪ seen : gset string) ∧ artefactOf q a) ↔ artefactOf r a ∨ ∃ q, q ∈ seen ∧ artefactOf q a) as ->
      by set_solver. rewrite <-H3. unfold artefactOf at 1. rewrite Hr.
    destruct (load r) as [c|] eqn:El; [|naive_solver]. rewrite elem_of_app, list_elem_of_singleton.
    destruct a; simpl. naive_solver.
  - intros q Hq. apply Hgo. destruct (H4 q Hq) as [[->|?]%elem_of_cons|[?|?]]; auto.
  - intros p c q [->%elem_of_singleton|Hp]%elem_of_union Hc Hq.
    + rewrite Hc, elem_of_app. auto.
    + apply Hgo. destruct (H5 p c q Hp Hc Hq) as [[->|?]%elem_of_cons|[?|?]]; auto.
Qed.

(** Enough fuel, where only finitely many references can come up. *)
Lemma collectWork_total (U : gset string) roots :
  (∀ r c, r ∈ U → load r = Some c → ∀ q, q ∈ default [] (refsOf c) → q ∈ U) →
  ∀ seen work out, (∀ r, r ∈ work → r ∈ U) → walk roots seen work out →
  ∃ fuel0 seen' out', walk roots seen' [] out' ∧ ∀ fuel, (fuel0 ≤ fuel)%nat → collectWork fuel seen work out = Some out'.
Proof.
  intros HU seen. remember (size (U ∖ seen)) as k eqn:Ek. revert seen Ek.
  induction (lt_wf k) as [k _ IHk]. intros seen ->. induction work as [|r work IHw]; intros out Hwork Hw.
  - exists 1%nat, seen, out. split; [done|]. intros [|fuel] Hf; [lia|done].
  - assert (∀ q, q ∈ work → q ∈ U) as Hwork' by set_solver.
    assert (storeRef r = None ∨ r ∈ seen → ∃ fuel0 seen' out', walk roots seen' [] out' ∧
      ∀ fuel, (fuel0 ≤ fuel)%nat → collectWork fuel seen (r :: work) out = Some out') as Hskip.
    { intros Hr. destruct (IHw out Hwork' (walk_drop _ _ _ _ _ Hw Hr)) as (f & s' & o' & Hw' & Hf).
      exists (S f), s', o'. split; [done|]. intros [|fuel] Hle; [lia|]. simpl.
      destruct (storeRef r) as [[n t]|] eqn:Er; [|apply Hf; lia]. destruct Hr as [?|Hr]; [done|].
      rewrite bool_decide_true by done. apply Hf. lia. }
    destruct (storeRef r) as [[n t]|] eqn:Er; [|by apply Hskip; left].
    destruct (decide (r ∈ seen)) as [Hs|Hs]; [by apply Hskip; right|].
    pose proof (walk_add _ _ _ _ _ _ _ Hw Er Hs) as Hw'.
    assert (r ∈ U) as HrU by (apply Hwork; by left).
    destruct (IHk (size (U ∖ ({[r]} ∪ seen))) ltac:(apply subset_size; set_solver) _ eq_refl
      (match load r with Some c => work ++ default [] (refsOf c) | None => work end)
      (match load r with Some c => out ++ [mkArtifact n t c] | None => out end)) as (f & s' & o' & Hw'' & Hf); [|done|].
    { intros q Hq. destruct (load r) as [c|] eqn:El; [|by apply Hwork']. apply elem_of_app in Hq as [Hq|Hq]; [by apply Hwork'|].
      by eapply HU. }
    exists (S f), s', o'. split; [done|]. intros [|fuel] Hle; [lia|]. simpl. rewrite Er, bool_decide_false by done.
    specialize (Hf fuel ltac:(lia)). by destruct (load r).
Qed.

(** what a scenario needs travels with it. Over a store with finitely many contents the
    walk ends, and the specs it sends are exactly those that the gears name, or that a
    translation spec that travels names, by name and tag, and that the store has: each
    with the bytes the store gives for that reference. *)
Theorem specs_travel s (contents : list string) :
  (∀ r c, load r = Some c → c ∈ contents) →
  ∃ fuel0 out, (∀ fuel, (fuel0 ≤ fuel)%nat → collectSpecs load refsOf fuel s = Some out) ∧
    ∀ a, a ∈ out ↔ ∃ r, needed (specRefs s) r ∧ artefactOf r a.
Proof.
  intros Hc.
  set (U := list_to_set (specRefs s ++ (contents ≫= λ c, default [] (refsOf c))) : gset string).
  destruct (collectWork_total U (specRefs s)) with (seen := ∅ : gset string) (work := specRefs s) (out := [] : list SpecArtifact)
    as (f & seen & out & [_ H2 H3 H4 H5] & Hf).
  - intros r c _ El q Hq. unfold U. rewrite elem_of_list_to_set, elem_of_app, list_elem_of_bind. right. eauto.
  - intros r Hr. unfold U. rewrite elem_of_list_to_set, elem_of_app. by left.
  - split; [by constructor|set_solver|set_solver|by left|set_solver].
  - exists f, out. split; [exact Hf|]. intros a. rewrite H3. split.
    + intros (r & Hr & Ha). exists r. split; [by apply H2|done].
    + intros (r & Hn & Ha). exists r. split; [|done].
      assert (r ∈ seen ∨ storeRef r = None) as [?|Hnone]; [|done|by destruct Ha; congruence].
      clear Ha. induction Hn as [r Hr|p c r Hn IH Hs El Hq].
      * destruct (H4 r Hr) as [Hx|?]; [by apply elem_of_nil in Hx|done].
      * destruct IH as [Hp|Hp]; [|rewrite Hp in Hs; by destruct Hs].
        destruct (H5 p c r Hp El Hq) as [Hx|?]; [by apply elem_of_nil in Hx|done].
Qed.
End specs.

(** ** Names in subjects *)

Fixpoint allSafe (s : string) : bool :=
  match s with EmptyString => true | String c r => safeChar c && allSafe r end.

Lemma maskRunes_safe k s : allSafe (maskRunes k s) = true.
Proof.
  revert k. induction s as [|c s IH]; intros [|k]; try done; [|apply IH].
  cbn [maskRunes]. destruct (safeChar c) eqn:E; cbn [allSafe]; rewrite IH, andb_true_r; done.
Qed.

Lemma trimLeft_safe s : allSafe s = true → allSafe (trimLeft s) = true.
Proof. induction s as [|c s IH]; simpl; [done|]. intros [Hc Hs]%andb_true_iff. case_match; [auto|]. simpl. by rewrite Hc. Qed.

Lemma trimRight_safe s : allSafe s = true → allSafe (trimRight s) = true.
Proof.
  induction s as [|c s IH]; simpl; [done|]. intros [Hc Hs]%andb_true_iff. specialize (IH Hs).
  destruct (trimRight s) as [|d t]; [case_match; simpl; by rewrite ?Hc|]. simpl in *. by rewrite Hc.
Qed.

Lemma sanitizeName_safe n : allSafe (sanitizeName n) = true ∧ sanitizeName n ≠ "".
Proof.
  unfold sanitizeName. case_bool_decide as H; [done|]. split; [|done].
  apply trimLeft_safe, trimRight_safe, maskRunes_safe.
Qed.

Lemma splitDot_safe a : allSafe a = true → splitDot a = [a].
Proof.
  induction a as [|c a IH]; simpl; [done|]. intros [Hc Ha]%andb_true_iff. rewrite IH by done.
  destruct (Ascii.eqb_spec c "."); [by subst|done].
Qed.

Lemma splitDot_safe_cons a s : allSafe a = true → splitDot (a +:+ String "." s) = a :: splitDot s.
Proof.
  induction a as [|c a IH]; [done|]. change (String c a +:+ String "." s) with (String c (a +:+ String "." s)).
  simpl. intros [Hc Ha]%andb_true_iff. rewrite IH by done. destruct (Ascii.eqb_spec c "."); [by subst|done].
Qed.

(** a reply cannot be routed elsewhere. Whatever name and nonce a Hello carries, the
    subject of the reply has exactly the tokens flux, agent, enrollment and two more, each
    not empty and of letters, digits, dashes and underscores only: no separator and no
    wildcard comes through. *)
Theorem reply_topic_safe name nonce :
  splitDot (replyTopic name nonce) = ["flux"; "agent"; "enrollment"; sanitizeName name; sanitizeName nonce] ∧
  Forall (λ t, allSafe t = true ∧ t ≠ "") (splitDot (replyTopic name nonce)).
Proof.
  destruct (sanitizeName_safe name) as [H1 H2], (sanitizeName_safe nonce) as [H3 H4].
  assert (splitDot (replyTopic name nonce) = ["flux"; "agent"; "enrollment"; sanitizeName name; sanitizeName nonce]) as ->.
  { unfold replyTopic. change ("flux.agent.enrollment." +:+ ?x) with ("flux" +:+ String "." ("agent" +:+ String "." ("enrollment" +:+ String "." x))).
    rewrite !splitDot_safe_cons, splitDot_safe by done. done. }
  split; [done|]. by repeat constructor.
Qed.
