(* ===== verification/Enrollment.v ===== *)
(** * pkg/controller/enrollment.go: Hellos and heartbeats

    The throttle is a state machine over the clock; the handlers are programs over the
    registry's bucket (Registry.v), with the answers of signing, encoding and publishing as
    inputs.  What a handler publishes, whether the bus should deliver the message again,
    and the Rack the active scenario is then pushed to are its result. *)
From Stdlib Require Import Sorted.
From S2P Require Import Prelude Bucket Registry RegistryAuth Controller.
Open Scope Z_scope.

(** Nanoseconds. *)
Definition helloThrottle : Z := 1000000000.

(** ** The throttle *)

Record throttle := mkThrottle { processedHellos : gmap string Z; lastSweep : Z }.

Definition newThrottle : throttle := mkThrottle ∅ 0.

(** One call at time [now]. The calls are one after the other. *)
Definition throttled (st : throttle) (key : string) (now : Z) : throttle * bool :=
  if match processedHellos st !! key with Some t => bool_decide (now - t < helloThrottle) | None => false end
  then (st, true)
  else
    let m := <[key := now]> (processedHellos st) in
    if bool_decide (helloThrottle ≤ now - lastSweep st) then
      (mkThrottle (filter (λ kv, now - kv.2 < helloThrottle) m) now, false)
    else (mkThrottle m (lastSweep st), false).

(** The calls in turn, with their decisions. *)
Fixpoint throttleRun (st : throttle) (calls : list (string * Z)) : throttle * list bool :=
  match calls with
  | [] => (st, [])
  | (k, now) :: calls =>
      let '(st, d) := throttled st k now in
      let '(st, ds) := throttleRun st calls in
      (st, d :: ds)
  end.

(** ** The handlers *)

(** [hello] of Registry.v holds the address, version and configuration. *)
Record HelloPayload := mkHelloP {
  h_Name : string; h_Nonce : string; h_MachineID : Z; h_Secret : string; h_details : hello }.

Record HeartbeatPayload := mkHeartbeatP { b_MachineID : Z; b_Secret : string; b_Stats : jmap; b_Config : jmap }.

(** The state a passport signs. *)
Record RackState := mkState {
  rs_MixerID : Z; rs_MachineID : Z; rs_Name : string; rs_Status : string; rs_Secret : string;
  rs_CreatedAt : Z; rs_UpdatedAt : Z; rs_UpdateCount : Z }.

Inductive response :=
| RDenied
| RWelcome (status : string) (passport : RackState)
| RStatus (status command : string).

(** Published messages, whether an error is returned (the message comes again), and the
    Rack to push the active scenario to. *)
Record handled := mkHandled { published : list (string * response); again : bool; pushTo : option string }.

Definition dropped : handled := mkHandled [] false None.

Section handlers.
Context (hash : string → string) (lim : limits) (mixerID : Z) (showID : Z → string).

Definition passportOf (r : Rack) : RackState :=
  mkState mixerID (k_MachineID r) (k_Name r) (k_Status r) (k_Secret r) (k_FirstSeen r) (k_LastSeen r) (k_UpdateCount r).

(** [signed]: signing and the encodings succeed; [sent]: the bus takes the reply;
    [scenario]: there is a scenario provider. *)
Definition HandleHello (h : option HelloPayload) (isThrottled signed sent scenario : bool) : prog handled :=
  match h with
  | None => Ret dropped
  | Some h =>
      if isThrottled then Ret dropped
      else
        r ← Register hash lim (h_MachineID h) (h_Name h) (h_Secret h) (h_details h) mixerID;
        let topic := replyTopic (h_Name h) (h_Nonce h) in
        Ret match r with
            | inl ErrNameConflict => dropped
            | inl ErrBootstrapSecretMismatch => mkHandled (if sent then [(topic, RDenied)] else []) false None
            | inl _ => mkHandled [] true None
            | inr rack =>
                if signed && sent then
                  mkHandled [(topic, RWelcome (k_Status rack) (passportOf rack))] false
                    (if scenario then Some (k_Name rack) else None)
                else mkHandled [] true None
            end
  end.

Definition HandleHeartbeat (hb : option HeartbeatPayload) (encoded sent : bool) : prog handled :=
  match hb with
  | None => Ret dropped
  | Some hb =>
      g ← GetEntity typeRack (b_MachineID hb);
      match g with
      | inl _ => Ret dropped
      | inr rack =>
          if negb (SecretMatches hash (k_SecretHash rack) (b_Secret hb)) then Ret dropped
          else
            r ← HeartbeatEntity mixerID typeRack (b_MachineID hb) (b_Stats hb) (b_Config hb);
            Ret match r with
                | inl _ => dropped
                | inr _ =>
                    if negb encoded then mkHandled [] true None
                    else
                      let command := if bool_decide (k_Status rack = "inactive") then "sleep" else "" in
                      mkHandled (if sent then [("flux.agent.notify." +:+ showID (b_MachineID hb), RStatus (k_Status rack) command)] else [])
                        false None
                end
      end
  end.
End handlers.

(** ** What enrollment promises *)

(** ** The throttle *)

(** The decision with every processed Hello remembered. *)
Definition recent (acc : list (string * Z)) (k : string) (now : Z) : bool :=
  existsb (λ kt, bool_decide (kt.1 = k) && bool_decide (now - kt.2 < helloThrottle)) acc.

Fixpoint throttleAll (acc : list (string * Z)) (calls : list (string * Z)) : list bool :=
  match calls with
  | [] => []
  | (k, now) :: calls =>
      let d := recent acc k now in d :: throttleAll (if d then acc else (k, now) :: acc) calls
  end.

Lemma recent_true acc k now : recent acc k now = true ↔ ∃ t, (k, t) ∈ acc ∧ now - t < helloThrottle.
Proof.
  unfold recent. rewrite existsb_exists. split.
  - intros ([k' t] & Hin & [Hk%bool_decide_eq_true Ht%bool_decide_eq_true]%andb_true_iff). simpl in *. subst k'. exists t. by rewrite list_elem_of_In.
  - intros (t & Hin & Ht). exists (k, t). rewrite <-list_elem_of_In. split; [done|]. simpl.
    by rewrite !bool_decide_true.
Qed.

(** The map holds processed Hellos, all those that still count, and none swept. *)
Record throttleInv (st : throttle) (acc : list (string * Z)) (now : Z) : Prop := {
  ti_sound k t : processedHellos st !! k = Some t → (k, t) ∈ acc;
  ti_recent k t : (k, t) ∈ acc → now - t < helloThrottle → ∃ t', processedHellos st !! k = Some t' ∧ t ≤ t';
  ti_past k t : (k, t) ∈ acc → t ≤ now;
  ti_swept k t : processedHellos st !! k = Some t → lastSweep st - t < helloThrottle;
  ti_last : lastSweep st ≤ now
}.

Lemma throttled_spec st acc now0 k now :
  throttleInv st acc now0 → now0 ≤ now →
  let r := throttled st k now in
  r.2 = recent acc k now ∧
  throttleInv r.1 (if r.2 then acc else (k, now) :: acc) now ∧
  (r.2 = false → ∀ k' t, processedHellos r.1 !! k' = Some t → now - t < 2 * helloThrottle).
Proof.
  intros [H1 H2 H3 H4 H5] Hle r. unfold r, throttled.
  assert (match processedHellos st !! k with Some t => bool_decide (now - t < helloThrottle) | None => false end = recent acc k now) as ->.
  { apply eq_bool_prop_intro. rewrite !Is_true_true, recent_true. split.
    - destruct (processedHellos st !! k) as [t|] eqn:E; [|done]. intros ?%bool_decide_eq_true. eauto.
    - intros (t & Hin & Ht). destruct (H2 k t Hin) as (t' & -> & ?); [lia|]. apply bool_decide_eq_true. lia. }
  destruct (recent acc k now) eqn:Er; simpl.
  { split; [done|]. split; [|done]. split; [done| | |done|lia].
    - intros k' t Hin Ht. apply (H2 k' t Hin). lia.
    - intros k' t Hin. specialize (H3 _ _ Hin). lia. }
  assert (∀ k' t, <[k := now]> (processedHellos st) !! k' = Some t → (k', t) ∈ (k, now) :: acc) as Hs.
  { intros k' t [[<- <-]|[_ ?]]%lookup_insert_Some; [by left|right; auto]. }
  assert (∀ k' t, (k', t) ∈ (k, now) :: acc → now - t < helloThrottle →
    ∃ t', <[k := now]> (processedHellos st) !! k' = Some t' ∧ t ≤ t') as Hr.
  { intros k' t [[= -> ->]|Hin]%elem_of_cons Ht; [exists now; by rewrite lookup_insert_eq|].
    destruct (decide (k = k')) as [<-|Hne]; [exists now; rewrite lookup_insert_eq; split; [done|by eapply Z.le_trans; [apply (H3 _ _ Hin)|]]|].
    rewrite lookup_insert_ne by done. apply (H2 k' t Hin). lia. }
  assert (∀ k' t, (k', t) ∈ (k, now) :: acc → t ≤ now) as Hp.
  { intros k' t [[= -> ->]|Hin]%elem_of_cons; [done|]. specialize (H3 _ _ Hin). lia. }
  case_bool_decide as Hsw; simpl; (split; [done|]); split.
  - split; simpl; try done.
    + intros k' t [? _]%map_lookup_filter_Some. by apply Hs.
    + intros k' t Hin Ht. destruct (Hr k' t Hin Ht) as (t' & E & ?). exists t'. split; [|done].
      apply map_lookup_filter_Some. simpl. split; [done|lia].
    + intros k' t [_ ?]%map_lookup_filter_Some. done.
  - intros _ k' t [_ ?]%map_lookup_filter_Some. simpl in *. unfold helloThrottle in *. lia.
  - split; simpl; try done; [|lia]. intros k' t [[_ <-]|[_ E]]%lookup_insert_Some; [unfold helloThrottle in *; lia|eauto].
  - intros _ k' t [[_ <-]|[_ E]]%lookup_insert_Some; [unfold helloThrottle; lia|].
    specialize (H4 _ _ E). unfold helloThrottle in *. lia.
Qed.

(** the throttle is exact and small. For Hellos at times that do not go back, the
    swept map makes the very decisions that remembering every processed Hello makes: one
    is ignored exactly when the same name and machine had one processed less than the
    window before. After a processed Hello the map holds only keys of the last two
    windows. *)
Theorem throttle_exact calls st ds :
  Forall (λ c, 0 ≤ c.2) calls → StronglySorted (λ c d, c.2 ≤ d.2) calls →
  throttleRun newThrottle calls = (st, ds) →
  ds = throttleAll [] calls ∧
  (last ds = Some false → ∀ k t, processedHellos st !! k = Some t →
     ∃ c, last calls = Some c ∧ c.2 - t < 2 * helloThrottle).
Proof.
  intros H0 Hs E.
  assert (∀ st0 acc now0, throttleInv st0 acc now0 → Forall (λ c, now0 ≤ c.2) calls →
    ∀ st ds, throttleRun st0 calls = (st, ds) → ds = throttleAll acc calls ∧
    (last ds = Some false → ∀ k t, processedHellos st !! k = Some t →
       ∃ c, last calls = Some c ∧ c.2 - t < 2 * helloThrottle)) as Hgo.
  { clear - Hs. induction Hs as [|[k now] calls Hs IH Hall]; intros st0 acc now0 Hi Hf st ds E; simpl in *; [by simplify_eq|].
    apply Forall_cons in Hf as [Hle Hf]. simpl in *. destruct (throttled_spec st0 acc now0 k now Hi Hle) as (Hd & Hi' & Hb).
    destruct (throttled st0 k now) as [st1 d]. simpl in *. subst d.
    destruct (throttleRun st1 calls) as [st2 ds2] eqn:E2. simplify_eq.
    destruct (IH _ _ _ Hi' Hall _ _ E2) as [-> Hlast]. split; [done|].
    destruct calls as [|[k2 n2] calls]; simpl in *; [|exact Hlast]. simplify_eq. intros [= Hr] k' t Hk. exists (k, now). eauto. }
  apply (Hgo newThrottle [] 0); try done. split; simpl; try done; intros k t Hx; by apply elem_of_nil in Hx.
Qed.

(** ** The handlers *)

Definition writes {X} (o : op X) : bool :=
  match o with
  | OCreate _ _ | OUpdate _ _ _ | OPut _ _ | ODelete _ _ | OLivePut _ _ | OLiveDelete _ | OStatPut _ _ | OStatDelete _ => true
  | _ => false
  end.

(** Whatever the answers, no call that writes is made before the facts satisfy [P]. *)
Fixpoint guarded {A} (P : list fact → Prop) (p : prog A) (fs : list fact) : Prop :=
  match p with
  | Ret _ => True
  | Call o k => (writes o = true → P fs) ∧ ∀ x, guarded P (k x) (factOf o x ++ fs)
  end.

Lemma guarded_bind {A B} P (p : prog A) (f : A → prog B) fs :
  guarded P p fs → ensures p fs (λ fs' a, guarded P (f a) fs') → guarded P (p ≫= f) fs.
Proof.
  revert fs. induction p as [a|X o k IH]; intros fs Hp Hf; [exact Hf|]. destruct Hp as [Hw Hp].
  change (guarded P (Call o (λ x, bind (k x) f)) fs). split; [exact Hw|]. intros x. apply IH; [apply Hp|apply Hf].
Qed.

(** Once the facts suffice they go on to. *)
Lemma guarded_always {A} (P : list fact → Prop) (p : prog A) fs :
  (∀ fs1 fs2, fs1 ⊆ fs2 → P fs1 → P fs2) → P fs → guarded P p fs.
Proof.
  intros Hm. revert fs. induction p as [a|X o k IH]; intros fs HP; [done|]. split; [done|].
  intros x. apply IH. eapply Hm; [|done]. set_solver.
Qed.

Section handlers.
Context (hash : string → string) (lim : limits) (mixerID : Z) (showID : Z → string).

(** The record of the machine was read, and the secret shown is its own. *)
Definition showed (id : Z) (secret : string) (fs : list fact) : Prop :=
  ∃ rec, FGot (KEntity typeRack id) (VRecord rec) ∈ fs ∧ SecretMatches hash (SecretHash rec) secret = true.

Lemma GetEntity_ensures t id fs :
  ensures (GetEntity t id) fs (λ fs' r, ∀ rack, r = inr rack →
    ∃ rec, FGot (KEntity t id) (VRecord rec) ∈ fs' ∧ k_SecretHash rack = SecretHash rec ∧ k_Status rack = Status rec).
Proof.
  unfold GetEntity, getRecord. apply ensures_bind. simpl. intros [[]|[[rec| | | |] rev]]; simpl; try done.
  intros l. destruct l as [e|[[] ?]]; simpl; intros st rack [= <-]; exists rec; simpl; set_solver.
Qed.

(** a heartbeat changes nothing unless it is authenticated. Whatever the registry
    answers to each call, handling a heartbeat makes no call that writes, to the registry,
    to the presence or to the statistics, before it has read the record of that machine
    and the secret in the heartbeat has matched the hash in it; and it replies only then. *)
Theorem heartbeat_authenticated hb encoded sent :
  guarded (showed (b_MachineID hb) (b_Secret hb)) (HandleHeartbeat hash mixerID showID (Some hb) encoded sent) [] ∧
  ensures (HandleHeartbeat hash mixerID showID (Some hb) encoded sent) [] (λ fs r,
    published r ≠ [] → showed (b_MachineID hb) (b_Secret hb) fs).
Proof.
  assert (∀ fs1 fs2, fs1 ⊆ fs2 → showed (b_MachineID hb) (b_Secret hb) fs1 → showed (b_MachineID hb) (b_Secret hb) fs2) as Hm.
  { intros fs1 fs2 Hs (rec & ? & ?). exists rec. set_solver. }
  unfold HandleHeartbeat. split.
  - apply guarded_bind.
    + unfold GetEntity, getRecord. simpl. split; [done|]. intros [[]|[[rec| | | |] rev]]; try done.
      simpl. split; [done|]. by intros [e|[[] ?]].
    + eapply ensures_mono; [|apply GetEntity_ensures]. intros fs r _ Hr. destruct r as [e|rack]; [done|].
      destruct (Hr rack eq_refl) as (rec & Hin & Hh & _). destruct (SecretMatches hash _ _) eqn:Es; cbn [negb]; [|done].
      apply guarded_always; [done|]. exists rec. by rewrite <-Hh.
  - apply ensures_bind. eapply ensures_mono; [|apply GetEntity_ensures]. intros fs r _ Hr. destruct r as [e|rack]; [by intros []|].
    destruct (Hr rack eq_refl) as (rec & Hin & Hh & _). destruct (SecretMatches hash _ _) eqn:Es; cbn [negb]; [|by intros []].
    apply ensures_bind. eapply (ensures_mono _ fs (λ fs' _, showed (b_MachineID hb) (b_Secret hb) fs')).
    + intros fs' [e|u] Hs Hok; simpl; [by intros []|]. by destruct encoded, sent.
    + assert (∀ A (p : prog A) fs0, showed (b_MachineID hb) (b_Secret hb) fs0 →
        ensures p fs0 (λ fs' _, showed (b_MachineID hb) (b_Secret hb) fs')) as Hall.
      { intros A p. induction p as [a|X o k IH]; intros fs0 H0; [exact H0|]. intros x. apply IH. eapply Hm; [|done]. set_solver. }
      apply Hall. exists rec. by rewrite <-Hh.
Qed.

(** a passport is only for a Rack the registry admitted. Whatever the registry answers, a
    welcome carries the state of a Rack whose registration was authenticated, on the
    subject of that Hello; a denial carries no passport; the active scenario is pushed only
    to a Rack that was welcomed. *)
Theorem hello_reply h signed sent scenario :
  ensures (HandleHello hash lim mixerID (Some h) false signed sent scenario) [] (λ fs r,
    (∀ topic status p, (topic, RWelcome status p) ∈ published r →
       topic = replyTopic (h_Name h) (h_Nonce h) ∧
       ∃ rack, authenticated hash typeRack (h_MachineID h) (h_Name h) (h_Secret h) fs (inr rack) ∧
         p = passportOf mixerID rack ∧ status = k_Status rack) ∧
    ∀ n, pushTo r = Some n → ∃ topic status p, published r = [(topic, RWelcome status p)] ∧ rs_Name p = n).
Proof.
  unfold HandleHello. apply ensures_bind. eapply ensures_mono; [|apply RegisterEntity_ensures].
  intros fs r _ [_ Ha]. simpl. destruct r as [[]|rack]; simpl; try (split; [set_solver|done]).
  - split; [|done]. destruct sent; set_solver.
  - destruct signed, sent; simpl; try (split; [set_solver|done]). split.
    + intros topic status p Hin. apply list_elem_of_singleton in Hin. simplify_eq. eauto 10.
    + intros n E. destruct scenario; [|done]. simplify_eq. by do 3 eexists.
Qed.
End handlers.
