(* ===== verification/Deployment.v ===== *)
(** * From the Mixer's store to the Rack's: the specs of a scenario

    pkg/controller sends the specs a scenario names; the handler of scenario updates in
    cmd/fluxrig/commands/run.go files each with ImportContent under the name and tag it
    arrived with; the gears then resolve the scenario's own references with Load.  What the
    two stores need for this to give the same bytes, and where it does not. *)
From Stdlib Require Import Ascii.
From S2P Require Import Prelude Tree Artifacts ArtifactsSpec ArtifactsLoad ArtifactsLatest ArtifactsExample Scenario Controller ControllerParts.
Open Scope Z_scope.

(** The import the Rack makes of an artefact it received. *)
Definition fileArtifact (a : SpecArtifact) : request :=
  mkRequest KindSpec (sa_Content a) "" (sa_Name a) (sa_Tag a).

Lemma cutLast_inv c s a b : cutLast c s = Some (a, b) → s = a +:+ String c b ∧ cutFirst c b = None.
Proof.
  revert a b. induction s as [|d s IH]; simpl; [done|]. intros a b.
  destruct (cutLast c s) as [[a' b']|] eqn:E.
  - intros [= <- <-]. destruct (IH _ _ eq_refl) as [-> ?]. split; [|done]. reflexivity.
  - destruct (Ascii.eqb_spec d c) as [->|]; [|done]. intros [= <- <-]. split; [done|].
    clear IH. induction s as [|x s IHs]; simpl in *; [done|].
    destruct (cutLast c s) as [[? ?]|]; [done|]. destruct (Ascii.eqb x c); [done|]. by rewrite IHs.
Qed.

Lemma storeRef_short r name tag :
  storeRef r = Some (name, tag) → r = shortRef name tag ∧ name ≠ "" ∧ tag ≠ "" ∧ cutFirst ":" tag = None.
Proof.
  unfold storeRef. destruct (_ || _); [done|]. destruct (cutLast ":" r) as [[a b]|] eqn:E; [|done].
  case_bool_decide as Hb; [done|]. intros [= -> ->]. apply cutLast_inv in E as [-> ?]. by naive_solver.
Qed.

Section deploy.
Context `{SV : Semver} {SL : SemverLaws} (unmarshal : string → option document) (hash : string → string).

(** what the Mixer sends, the Rack resolves. For a reference name:tag to a version, what
    travels for it is filed by the Rack under that very tag, unless the Rack has other
    content there, and the reference the scenario uses then loads, from the Rack's store,
    the bytes the Mixer's store gave for it. *)
Theorem spec_resolves_on_rack load r a idx bs now :
  artefactOf load r a → HasPrefix r urnFluxPrefix = false → HasPrefix (sa_Tag a) "v" = true → IsValid (sa_Tag a) = true →
  (entry KindSpec idx (sa_Name a) (sa_Tag a) = None ∨ entry KindSpec idx (sa_Name a) (sa_Tag a) = Some (hash (sa_Content a))) →
  validHex (hash (sa_Content a)) = true → bs !! hash (sa_Content a) = Some (sa_Content a) →
  ∃ idx', importChange unmarshal (fileArtifact a) (hash (sa_Content a)) now idx = inr (idx', sa_Tag a) ∧
    load r = Some (sa_Content a) ∧ Load idx' bs r = inr (sa_Content a).
Proof.
  intros [Hr Hl] Hp Hv Hok He Hx Hb. apply storeRef_short in Hr as (-> & Hn & Ht & Hc).
  assert (finalName unmarshal (fileArtifact a) = sa_Name a) as En.
  { unfold finalName, fileArtifact, orElse. simpl. by rewrite !bool_decide_false by (rewrite ?bool_decide_false; done). }
  assert (∀ index, finalTag unmarshal (fileArtifact a) index = sa_Tag a) as Et.
  { intros index. unfold finalTag, fileArtifact, orElse, semverTag. simpl. rewrite Hv, orb_true_r.
    by rewrite !bool_decide_false by (rewrite ?bool_decide_false; done). }
  destruct (importChange unmarshal (fileArtifact a) (hash (sa_Content a)) now idx) as [e|[idx' t]] eqn:Ec.
  - exfalso. unfold importChange in Ec. rewrite Et, Hok, En in Ec. simpl in Ec. case_bool_decide as Hbad; [|done].
    unfold entry in He. simpl in He. destruct (Specs idx !! sa_Name a) as [tags|]; simpl in *.
    + destruct Hbad as [[? Hs] Hne]. naive_solver.
    + destruct Hbad as [[? Hs] _]. done.
  - pose proof (importChange_inr _ _ _ _ _ _ _ Ec) as (-> & _). rewrite Et in *. exists idx'. split; [done|]. split; [done|].
    eapply (Load_ref hash _ _ _ KindSpec); [done|apply colon_not_hex|by apply parse_short| |by left|done].
    rewrite (importChange_entry _ _ _ _ _ _ _ _ _ _ Ec), En, decide_True; [done..|]. by apply valid_not_latest.
Qed.
End deploy.
