(* ===== verification/ControllerExample.v ===== *)
(** * Concrete scenarios: the controller's theorems applied, and runs that surprise *)
From Stdlib Require Import Ascii Sorted.
From S2P Require Import Prelude FluxMsg Tree Routes Scenario Artifacts ArtifactsLoad ArtifactsExample Controller ControllerSpec ControllerParts Deployment Enrollment.
Open Scope Z_scope.

Module ControllerExample.
#[local] Existing Instance ArtifactsExample.plainSemver.

(** Two scenarios of one gear pinned to the Rack edge, which names a translation spec. *)
Definition gear (deploy : option string) : cGear :=
  mkCGear (mkDecl (mkGear "in" "io_tcp" deploy) [("spec", CStr "tr:v1.0.0")]) false 0 ∅.

Definition flow (name : string) (deploy : option string) : cScenario :=
  mkCScenario name "1" [] [gear deploy] [mkCWire (mkWire "in.out" "in.in" "") 0].

Definition decode (c : string) : option cScenario :=
  if bool_decide (c = "one" ∨ c = "yaml one") then Some (flow "one" (Some "edge"))
  else if bool_decide (c = "two" ∨ c = "yaml two") then Some (flow "two" (Some "edge")) else None.

Definition encode (s : cScenario) : option string := Some ("yaml " +:+ cs_Name s).

Lemma encode_nonempty s c : encode s = Some c → c ≠ "".
Proof. by intros [= <-]. Qed.

(** The spec store: a translation spec that names a protocol spec. *)
Definition store (r : string) : option string :=
  if bool_decide (r = "tr:v1.0.0") then Some "T" else if bool_decide (r = "visa:v1.0.0") then Some "A" else None.
Definition refs (c : string) : option (list string) := if bool_decide (c = "T") then Some ["visa:v1.0.0"; "tr:v1.0.0"] else None.

Definition ok : pushAnswer := mkPushAnswer (Some [None; Some 7]) store 10 true Written.
Definition act : actAnswer := mkActAnswer true (Some (Some ["edge"])) None Written true None.

(** An activation that reaches edge and returns. *)
Definition activated (name : string) : list cevent :=
  [EvActivate name act; EvPushNext ok; EvTick 1; EvPushNote; EvPushDone].

Definition start : list cevent := [EvImport "one" false Written; EvImport "two" false Written; EvTick 10] ++ activated "one".

Abbreviation steps := (ctlSteps decode encode refs ctlInit).
Definition reached (evs : list cevent) : ctl := default ctlInit (steps evs).

Lemma start_reachable : ctlReachable decode encode refs (reached start).
Proof. exists start. vm_compute. reflexivity. Qed.

Lemma pushed_is_durable_witness :
  ∃ p, ptr (reached start) = Some p ∧ pt_Content p = "yaml one".
Proof.
  destruct (pushed_is_durable decode encode refs encode_nonempty _ start_reachable) as (_ & _ & Hm & _).
  destruct (active (reached start)) as [[s c]|] eqn:E; [|vm_compute in E; discriminate E].
  destruct (Hm s c eq_refl) as (p & Hp & Hc); [vm_compute; reflexivity|].
  exists p. split; [exact Hp|]. rewrite Hc. vm_compute in E. injection E as _ <-. reflexivity.
Defined.

(** The write of the pointer to two takes effect but is not answered: Activate returns an
    error and the memory keeps one, while the pointer holds two.  A Rack that says Hello
    is sent one, and a restart makes two the active scenario. *)
Definition lost : actAnswer := mkActAnswer true (Some (Some ["edge"])) None Unanswered true None.
Definition divided : list cevent :=
  start ++ [EvActivate "two" lost; EvLand 0; EvEnroll 0 "edge" None; EvRead 0; EvCheck 0; EvSend 0 true ok].

Lemma unanswered_pointer_divides :
  answers (reached divided) = [None; Some EPointer] ∧
  snd <$> active (reached divided) = Some "yaml one" ∧ pt_Content <$> ptr (reached divided) = Some "yaml two" ∧
  s_content <$> sentLog (reached divided) = ["yaml one"; "yaml one"] ∧
  snd <$> active (reached (divided ++ [EvRestart; EvLoadActive true None])) = Some "yaml two".
Proof. vm_compute. done. Qed.

(** edge says Hello before the activation records its delivery: the push is left out. *)
Definition helloed : list cevent := start ++ [EvEnroll 0 "edge" (Some 10); EvRead 0].

Lemma skipped_push_delivered_witness :
  ∃ n s c, active (reached helloed) = Some (s, c) ∧ n ∈ noteLog (reached helloed) ∧ n_sent n ∈ sentLog (reached helloed) ∧
    s_rack (n_sent n) = "edge" ∧ s_content (n_sent n) = c ∧ 10 < n_at n.
Proof.
  apply (skipped_push_delivered decode encode refs encode_nonempty (reached helloed) 0
    (default ctlInit (ctlStep decode encode refs (reached helloed) (EvCheck 0)))).
  - exists helloed. vm_compute. reflexivity.
  - intros n Hn. vm_compute in Hn. apply elem_of_cons in Hn as [->|Hn]; [reflexivity|by apply elem_of_nil in Hn].
  - vm_compute. reflexivity.
  - vm_compute. reflexivity.
Defined.

(** An enrollment push reads scenario one; scenario two is activated and reaches the Rack;
    then the push sends one, and records it as the current activation. The Rack is left
    with one while two is active, and its next Hello is not answered with a push. *)
Definition overtaken : list cevent :=
  start ++ [EvEnroll 0 "edge" (Some 20); EvRead 0; EvCheck 0] ++ activated "two" ++
  [EvSend 0 true ok; EvTick 10; EvNote 0; EvEnroll 1 "edge" (Some 15); EvRead 1; EvCheck 1].

Lemma overtaken_push_wins :
  snd <$> active (reached overtaken) = Some "yaml two" ∧
  s_content <$> sentLog (reached overtaken) = ["yaml one"; "yaml two"; "yaml one"] ∧
  deliveredTo (reached overtaken) !! "edge" = Some (2, 22) ∧ skipped (reached overtaken) = [("edge", 15)] ∧
  pushes (reached overtaken) = ∅.
Proof. vm_compute. done. Qed.

(** A gear with an empty deploy runs on every Rack, and its scenario cannot be activated. *)
Lemma empty_deploy_refused :
  let s := flow "any" (Some "") in
  Validate (toFile s) = None ∧ hasGlobalGear s = true ∧
  validateDeployTargets (Some (Some ["edge"])) s = Some (EUnknownTarget "in" "").
Proof. vm_compute. done. Qed.

(** ** Specs *)

Lemma specs_travel_witness :
  ∃ fuel0 out, (∀ fuel, (fuel0 ≤ fuel)%nat → collectSpecs store refs fuel (flow "one" None) = Some out) ∧
    ∀ a, a ∈ out ↔ ∃ r, needed store refs ["tr:v1.0.0"] r ∧ artefactOf store r a.
Proof.
  apply (specs_travel store refs (flow "one" None) ["T"; "A"]).
  intros r c. unfold store. repeat case_bool_decide; intros [= <-]; set_solver.
Defined.

Lemma spec_resolves_on_rack_witness :
  ∃ idx', importChange ArtifactsExample.yaml (fileArtifact (mkArtifact "visa" "v1.0.0" "A")) (ArtifactsExample.sha "A") 7 emptyIndex
      = inr (idx', "v1.0.0") ∧
    store "visa:v1.0.0" = Some "A" ∧ Load idx' {[ArtifactsExample.sha "A" := "A"]} "visa:v1.0.0" = inr "A".
Proof.
  apply (spec_resolves_on_rack (SL := ArtifactsExample.plain_laws) ArtifactsExample.yaml ArtifactsExample.sha store
    "visa:v1.0.0" (mkArtifact "visa" "v1.0.0" "A") emptyIndex {[ArtifactsExample.sha "A" := "A"]} 7);
    [by split|done|done|done|by left|done|apply lookup_singleton_eq].
Defined.

(** A reference to the latest version travels, and the Rack refuses to file it. *)
Lemma latest_does_not_deploy :
  storeRef "visa:latest" = Some ("visa", "latest") ∧
  importChange ArtifactsExample.yaml (fileArtifact (mkArtifact "visa" "latest" "A")) (ArtifactsExample.sha "A") 7 emptyIndex
    = inl (EVersion "vlatest").
Proof. vm_compute. done. Qed.

(** A full reference travels under a name the Rack never looks for. *)
Lemma full_reference_does_not_deploy :
  let r := "urn:flux:spec:visa:v1.0.0" in
  let bs := {[ArtifactsExample.sha "A" := "A"]} in
  storeRef r = Some ("urn:flux:spec:visa", "v1.0.0") ∧
  match importChange ArtifactsExample.yaml (fileArtifact (mkArtifact "urn:flux:spec:visa" "v1.0.0" "A")) (ArtifactsExample.sha "A") 7 emptyIndex with
  | inr (idx', _) => Load idx' bs r = inl ENotFound
  | inl _ => False
  end.
Proof. vm_compute. done. Qed.

(** ** Ids and Hellos *)

Lemma registered_ids_kept_witness :
  ∃ s' rows, registerScenarioEntities (λ _, None) (λ n, 1 + Z.of_nat n) false true (λ _, None) (flow "one" None) = (rows, inr s') ∧
    toFile s' = toFile (flow "one" None) ∧ Forall hasIDs (cs_Gears s').
Proof.
  destruct (registerScenarioEntities (λ _, None) (λ n, 1 + Z.of_nat n) false true (λ _, None) (flow "one" None))
    as [rows [e|s']] eqn:E; [vm_compute in E; discriminate|].
  exists s', rows. split; [reflexivity|].
  destruct (registered_ids_kept (λ _, None) (λ n, 1 + Z.of_nat n) true (λ _, None) (flow "one" None) s' rows) as (Hf & Hi & _);
    [intros n; lia|done|exact E|]. split; [exact Hf|exact Hi].
Defined.

Lemma throttle_exact_witness :
  (throttleRun newThrottle [("a|1", 0); ("a|1", 500000000); ("b|2", 900000000); ("a|1", 1000000000)]).2 =
  throttleAll [] [("a|1", 0); ("a|1", 500000000); ("b|2", 900000000); ("a|1", 1000000000)].
Proof.
  destruct (throttleRun newThrottle [("a|1", 0); ("a|1", 500000000); ("b|2", 900000000); ("a|1", 1000000000)]) as [st ds] eqn:E.
  apply (throttle_exact [("a|1", 0); ("a|1", 500000000); ("b|2", 900000000); ("a|1", 1000000000)] st ds); [| |exact E].
  - repeat constructor; simpl; lia.
  - repeat constructor; simpl; lia.
Defined.
End ControllerExample.
