(* ===== verification/MsgValidate.v ===== *)
(** * pkg/fluxmsg: what a message may hold (struct.go)

    The limits, [Validate] and the writers of metadata.  Metadata and Data are
    maps in the heap (FluxMsg); a Go map is ranged over in an unspecified order, so of a
    message with several texts that are not UTF-8 [Validate] reports any one: the model
    keeps which of the two maps it was in.  Lengths are far below 2^63. *)
From Stdlib Require Import Ascii.
From S2P Require Import Prelude Utf8 Bytes FluxMsg.
Open Scope Z_scope.

Record limits := mkLimits { MaxHops : Z; MaxPayloadSize : Z }.
Definition defaultLimits : limits := mkLimits 64 (2 * 1024 * 1024).
Definition SetLimits (maxHops maxPayloadSize : Z) (_ : limits) : limits := mkLimits maxHops maxPayloadSize.

Definition len (s : string) : Z := Z.of_nat (String.length s).

(** The contents of the two maps; a nil map ranges over nothing. *)
Definition metaOf (h : heap) (m : FluxMsg) : gmap string string :=
  match Metadata m with Some l => default ∅ (metas h !! l) | None => ∅ end.
Definition dataOf (h : heap) (m : FluxMsg) : gmap string val :=
  match Data m with Some l => match objs h !! l with Some (OMapS d) => d | _ => ∅ end | None => ∅ end.

(** *** Validate *)

Definition metaSize (mt : gmap string string) : Z := map_fold (λ k v n, n + (len k + len v)) 0 mt.

(** A string or a byte slice counts; other values are not looked into. *)
Definition valSize (v : val) : Z := match v with VStr s | VBytes s => len s | _ => 0 end.
Definition dataSize (d : gmap string val) : Z := map_fold (λ k v n, n + (len k + valSize v)) 0 d.

Definition msgSize (h : heap) (m : FluxMsg) : Z :=
  len (RawPayload m) + metaSize (metaOf h m) + dataSize (dataOf h m).

Inductive validateErr := EHops | ESize | EMetaUtf8 | EDataUtf8.

Definition Validate (lim : limits) (h : heap) (m : FluxMsg) : option validateErr :=
  if MaxHops lim <? Z.of_nat (length (Path m)) then Some EHops
  else if MaxPayloadSize lim <? msgSize h m then Some ESize
  else if negb (forallb (λ '(k, v), ValidString k && ValidString v) (map_to_list (metaOf h m))) then Some EMetaUtf8
  else if negb (forallb (λ '(k, _), ValidString k) (map_to_list (dataOf h m))) then Some EDataUtf8
  else None.

(** *** Writing metadata *)

Definition hexValue (v : string) : string := "hex:" +:+ EncodeToString (toBytes v).

(** [m.Metadata[k] = v]; [None] is the panic of a write to a nil map. *)
Definition putMeta (h : heap) (m : FluxMsg) (k v : string) : option heap :=
  match Metadata m with
  | Some l => match metas h !! l with Some mt => Some (setMetas (<[l := <[k := v]> mt]> (metas h)) h) | None => None end
  | None => None
  end.

Definition SetMetadata (h : heap) (m : FluxMsg) (k v : string) : option heap :=
  putMeta h m k (if ValidString v then v else hexValue v).

Definition SetMetadataBytes (h : heap) (m : FluxMsg) (k v : string) : option heap := putMeta h m k (hexValue v).

(** ** What Validate accepts *)

(** The message fits the limits and its keys and metadata are text. *)
Record acceptable (lim : limits) (h : heap) (m : FluxMsg) : Prop := mkAcceptable {
  acc_hops : Z.of_nat (length (Path m)) ≤ MaxHops lim;
  acc_size : msgSize h m ≤ MaxPayloadSize lim;
  acc_meta : ∀ k v, metaOf h m !! k = Some v → ValidString k = true ∧ ValidString v = true;
  acc_data : ∀ k, is_Some (dataOf h m !! k) → ValidString k = true }.

Lemma forallb_map {A} (f : string * A → bool) (mp : gmap string A) :
  forallb f (map_to_list mp) = true ↔ ∀ k v, mp !! k = Some v → f (k, v) = true.
Proof.
  rewrite forallb_forall. split.
  - intros H k v Hk. by apply H, list_elem_of_In, elem_of_map_to_list.
  - intros H [k v] Hin. by apply H, elem_of_map_to_list, list_elem_of_In.
Qed.

Lemma validate_acceptable lim h m : Validate lim h m = None ↔ acceptable lim h m.
Proof.
  unfold Validate.
  destruct (Z.ltb_spec (MaxHops lim) (Z.of_nat (length (Path m)))); [split; [done|intros []; lia]|].
  destruct (Z.ltb_spec (MaxPayloadSize lim) (msgSize h m)); [split; [done|intros []; lia]|].
  destruct (forallb _ (map_to_list (metaOf h m))) eqn:Em; cbn.
  2:{ split; [done|]. intros [_ _ Hm _]. apply not_true_iff_false in Em. destruct Em. apply forallb_map.
      intros k v Hk. by apply andb_true_iff, Hm. }
  destruct (forallb _ (map_to_list (dataOf h m))) eqn:Ed; cbn.
  2:{ split; [done|]. intros [_ _ _ Hd]. apply not_true_iff_false in Ed. destruct Ed. apply forallb_map.
      intros k v Hk. apply Hd. eauto. }
  rewrite forallb_map in Em. rewrite forallb_map in Ed. split; [|done]. intros _. split; [done|done| |].
  - intros k v Hk. by apply andb_true_iff, (Em k v).
  - intros k [v Hk]. by apply (Ed k v).
Qed.

(** ** Writers of metadata *)

Lemma hex_ascii b : Forall byte_ok b → Forall (λ c, codeZ c < 128) (String.list_ascii_of_string (EncodeToString b)).
Proof.
  induction 1 as [|x b Hx _ IH]; [constructor|]. destruct (nibbles x Hx) as (H1 & H2 & _). simpl.
  assert (∀ n, 0 ≤ n < 16 → codeZ (hexLower n) < 128) as Hn.
  { intros n Hn. unfold hexLower. change codeZ with byte_of. destruct (Z.ltb_spec n 10); rewrite byte_of_char; unfold byte_ok; lia. }
  repeat constructor; [by apply Hn|by apply Hn|done].
Qed.

Lemma hexValue_text v : ValidString (hexValue v) = true.
Proof. unfold hexValue. apply ValidString_app; [done|]. apply ValidString_ascii, hex_ascii, toBytes_ok. Qed.

Lemma hexValue_back v : CutPrefix (hexValue v) "hex:" ≫= DecodeString = Some (toBytes v).
Proof. unfold hexValue. rewrite CutPrefix_app. simpl. apply Decode_Encode, toBytes_ok. Qed.

Lemma putMeta_inv h m k v h' : putMeta h m k v = Some h' →
  metaOf h' m = <[k := v]> (metaOf h m) ∧ dataOf h' m = dataOf h m.
Proof.
  unfold putMeta, metaOf, dataOf. destruct (Metadata m) as [l|]; [|done].
  destruct (metas h !! l) as [mt|] eqn:E; [|done]. intros [= <-]. cbn. by rewrite lookup_insert_eq.
Qed.

(** Metadata whose keys and values are all UTF-8. *)
Definition textual (mt : gmap string string) : Prop :=
  map_Forall (λ k v, ValidString k = true ∧ ValidString v = true) mt.

(** whatever bytes are written, metadata stays text: [SetMetadata] under a UTF-8 key
    keeps every key and value UTF-8, stores a UTF-8 value unchanged, and any other value
    as [hex:] and digits from which the original bytes are read back. *)
Theorem set_metadata_text h m k v h' :
  SetMetadata h m k v = Some h' → ValidString k = true → textual (metaOf h m) →
  textual (metaOf h' m) ∧ dataOf h' m = dataOf h m ∧
  ∃ w, metaOf h' m !! k = Some w ∧
    if ValidString v then w = v else CutPrefix w "hex:" ≫= DecodeString = Some (toBytes v).
Proof.
  intros [E Ed]%putMeta_inv Hk Ht. rewrite E, Ed. split_and!; [|done|].
  - apply map_Forall_insert_2; [|done]. split; [done|]. destruct (ValidString v) eqn:Ev; [done|apply hexValue_text].
  - eexists. rewrite lookup_insert_eq. split; [done|]. destruct (ValidString v); [done|apply hexValue_back].
Qed.

(** ** The sizes of maps *)
Section sizes.
Context {A : Type} (f : string → A → Z).
Definition sizeOf (mp : gmap string A) : Z := map_fold (λ k v n, n + f k v) 0 mp.
Lemma sizeOf_insert mp k v : mp !! k = None → sizeOf (<[k := v]> mp) = sizeOf mp + f k v.
Proof. intros Hk. unfold sizeOf. rewrite map_fold_insert_L; [done| |done]. intros. lia. Qed.
Lemma sizeOf_empty : sizeOf ∅ = 0.
Proof. apply map_fold_empty. Qed.
End sizes.

Lemma metaSize_insert mt k v : mt !! k = None → metaSize (<[k := v]> mt) = metaSize mt + (len k + len v).
Proof. apply (sizeOf_insert (λ k v, len k + len v)). Qed.
Lemma dataSize_insert d k v : d !! k = None → dataSize (<[k := v]> d) = dataSize d + (len k + valSize v).
Proof. apply (sizeOf_insert (λ k v, len k + valSize v)). Qed.
