(* ===== verification/Dial.v ===== *)
(** * pkg/bus: the first connection (nats.go, dialWithRetry)

    The loop that connects to the server and retries with growing waits.  Time is in
    nanoseconds; a connection attempt takes what the server makes of it and at most the
    timeout it is given, and a wait may last longer than asked: both are parameters.
    The next wait, a product of floats in the code, is exact while it stays below 2^52
    nanoseconds (52 days). *)
From S2P Require Import Prelude.
Open Scope Z_scope.

Record dialOptions := mkDial {
  ConnectTimeout : Z; InitialRetryWait : Z; InitialRetryAttempts : Z; InitialRetryTimeout : Z }.

Definition defaultInitialRetryWait : Z := 500000000.
Definition defaultInitialRetryAttempts : Z := 10.

(** What attempt [i] meets: whether it connects, how long that takes, how much too long
    the wait after it lasts, and when into that wait the caller's context ends, if it does. *)
Record dialEnv := mkEnv { connects : nat → bool; takes : nat → Z; overshoot : nat → Z; cancelled : nat → option Z }.

Inductive dialResult := DialOk | DialAttempts | DialTime | DialCancelled | DialFuel.

(** The timeout of one attempt: clamped to the time left, but never below a millisecond. *)
Definition attemptTimeout (o : dialOptions) (deadline : option Z) (now : Z) : Z :=
  match deadline with
  | None => ConnectTimeout o
  | Some dl =>
      let remaining := dl - now in
      if (remaining <? ConnectTimeout o) || (ConnectTimeout o =? 0) then Z.max remaining 1000000 else ConnectTimeout o
  end.

(** [nats.Connect] with that timeout; 0 is no timeout. *)
Definition attemptEnd (o : dialOptions) (env : dialEnv) (deadline : option Z) (i : nat) (now : Z) : Z :=
  let t := attemptTimeout o deadline now in
  now + (if t <=? 0 then takes env i else Z.min (takes env i) t).

(** The attempts made, the result and the time it is returned. *)
Fixpoint dialLoop (fuel : nat) (o : dialOptions) (env : dialEnv) (attempts : Z) (deadline : option Z)
    (attempt : nat) (wait now : Z) : nat * dialResult * Z :=
  match fuel with
  | O => (attempt, DialFuel, now)
  | S fuel =>
      let now := attemptEnd o env deadline attempt now in
      if connects env attempt then (attempt, DialOk, now)
      else if attempts <=? Z.of_nat attempt then (attempt, DialAttempts, now)
      else if match deadline with Some dl => dl <? now + wait | None => false end then (attempt, DialTime, now)
      else match cancelled env attempt with
           | Some after => (attempt, DialCancelled, now + Z.max 0 (Z.min after wait))
           | None => dialLoop fuel o env attempts deadline (S attempt) (wait * 3 / 2) (now + wait + overshoot env attempt)
           end
  end.

Definition dialAttempts (o : dialOptions) : Z :=
  if InitialRetryAttempts o =? 0 then defaultInitialRetryAttempts else InitialRetryAttempts o.
Definition dialWait (o : dialOptions) : Z :=
  if InitialRetryWait o =? 0 then defaultInitialRetryWait else InitialRetryWait o.
Definition dialDeadline (o : dialOptions) (now : Z) : option Z :=
  if 0 <? InitialRetryTimeout o then Some (now + InitialRetryTimeout o) else None.

(** One unit of fuel per attempt allowed is enough ([dial_bounded]). *)
Definition dialWithRetry (o : dialOptions) (env : dialEnv) (now : Z) : nat * dialResult * Z :=
  dialLoop (S (Z.to_nat (dialAttempts o))) o env (dialAttempts o) (dialDeadline o now) 1 (dialWait o) now.

(** ** The loop *)

Lemma dialLoop_attempts fuel o env attempts deadline attempt wait now :
  (0 < attempt)%nat → Z.max 1 attempts - Z.of_nat attempt < Z.of_nat fuel → Z.of_nat attempt ≤ Z.max 1 attempts →
  let '(k, r, t) := dialLoop fuel o env attempts deadline attempt wait now in
  r ≠ DialFuel ∧ (attempt ≤ k)%nat ∧ Z.of_nat k ≤ Z.max 1 attempts ∧
  (r = DialOk ↔ connects env k = true) ∧ (∀ i, (attempt ≤ i < k)%nat → connects env i = false).
Proof.
  revert attempt wait now. induction fuel as [|fuel IH]; intros attempt wait now H0 Hf Ha; [lia|].
  cbn [dialLoop]. cbv zeta. set (now' := attemptEnd o env deadline attempt now).
  destruct (connects env attempt) eqn:Ec; [split_and!; (done || lia)|].
  destruct (Z.leb_spec attempts (Z.of_nat attempt)); [split_and!; (done || lia || by rewrite Ec)|].
  destruct (match deadline with Some dl => dl <? now' + wait | None => false end); [split_and!; (done || lia || by rewrite Ec)|].
  destruct (cancelled env attempt); [split_and!; (done || lia || by rewrite Ec)|].
  specialize (IH (S attempt) (wait * 3 / 2) (now' + wait + overshoot env attempt)).
  destruct (dialLoop _ _ _ _ _ _ _ _) as [[k r] t]. destruct IH as (? & ? & ? & ? & Hi); [lia..|].
  split_and!; try done; [lia|]. intros i Hi'. destruct (decide (i = attempt)) as [->|]; [done|]. apply Hi. lia.
Qed.

Lemma attempt_in_time o env dl i now late : 0 ≤ ConnectTimeout o → now ≤ dl + late → 0 ≤ late →
  attemptEnd o env (Some dl) i now ≤ dl + late + 1000000.
Proof.
  intros Hc Hn Hl. unfold attemptEnd, attemptTimeout.
  destruct (Z.ltb_spec (dl - now) (ConnectTimeout o)), (Z.eqb_spec (ConnectTimeout o) 0); cbn [orb];
    match goal with |- context [?a <=? 0] => destruct (Z.leb_spec a 0) end; lia.
Qed.

Lemma dialLoop_time fuel o env attempts dl attempt wait now late :
  0 ≤ ConnectTimeout o → 0 ≤ wait → (∀ i, 0 ≤ overshoot env i ≤ late) → now ≤ dl + late →
  (dialLoop fuel o env attempts (Some dl) attempt wait now).2 ≤ dl + late + 1000000.
Proof.
  intros Hc Hw Hlate. assert (0 ≤ late) as Hl by (specialize (Hlate 0%nat); lia).
  revert attempt wait now Hw. induction fuel as [|fuel IH]; intros attempt wait now Hw Hn; cbn [dialLoop]; [cbn; lia|].
  pose proof (attempt_in_time o env dl attempt now late Hc Hn Hl) as Ha. cbv zeta. set (now' := attemptEnd _ _ _ _ _) in *.
  destruct (connects env attempt); [done|]. destruct (attempts <=? Z.of_nat attempt); [done|].
  destruct (Z.ltb_spec dl (now' + wait)); [done|]. destruct (cancelled env attempt); [cbn; lia|].
  specialize (Hlate attempt). apply IH; [apply Z.div_pos; lia|lia].
Qed.

(** the first connection is bounded whatever the server does: the loop ends, after at
    most the configured attempts (ten by default, and at least one), connected exactly
    when its last attempt connected; and with a total timeout set it returns no later than
    a millisecond after that timeout, plus what a wait overslept. *)
Theorem dial_bounded o env now late :
  0 ≤ ConnectTimeout o → 0 ≤ InitialRetryWait o → (∀ i, 0 ≤ overshoot env i ≤ late) →
  let '(k, r, t) := dialWithRetry o env now in
  r ≠ DialFuel ∧ (1 ≤ k)%nat ∧ Z.of_nat k ≤ Z.max 1 (dialAttempts o) ∧
  (r = DialOk ↔ connects env k = true) ∧ (∀ i, (1 ≤ i < k)%nat → connects env i = false) ∧
  (0 < InitialRetryTimeout o → t ≤ now + InitialRetryTimeout o + late + 1000000).
Proof.
  intros Hc Hw Hl. unfold dialWithRetry. pose proof (dialLoop_attempts (S (Z.to_nat (dialAttempts o))) o env (dialAttempts o)
    (dialDeadline o now) 1 (dialWait o) now ltac:(lia) ltac:(lia) ltac:(lia)) as Ha.
  assert (0 < InitialRetryTimeout o → (dialLoop (S (Z.to_nat (dialAttempts o))) o env (dialAttempts o)
    (dialDeadline o now) 1 (dialWait o) now).2 ≤ now + InitialRetryTimeout o + late + 1000000) as Ht.
  { intros H. unfold dialDeadline. destruct (Z.ltb_spec 0 (InitialRetryTimeout o)); [|lia].
    pose proof (Hl 0%nat). apply dialLoop_time; [done| |done|lia].
    unfold dialWait. destruct (_ =? 0); [done|lia]. }
  destruct (dialLoop _ _ _ _ _ _ _ _) as [[k r] t]. destruct Ha as (? & ? & ? & ? & ?). by split_and!.
Qed.

(** A server that refuses twice, with three attempts allowed. *)
Definition flaky : dialEnv := mkEnv (λ i, (3 <=? i)%nat) (λ _, 7) (λ _, 0) (λ _, None).

Lemma dial_bounded_witness :
  dialWithRetry (mkDial 5 10 3 1000) flaky 0 = (3%nat, DialOk, 40) ∧ (3 <= 3)%nat.
Proof.
  pose proof (dial_bounded (mkDial 5 10 3 1000) flaky 0 0 ltac:(cbn; lia) ltac:(cbn; lia) ltac:(cbn; lia)) as H.
  split; [vm_compute; reflexivity|]. change (dialWithRetry (mkDial 5 10 3 1000) flaky 0) with (3%nat, DialOk, 40) in H.
  destruct H as (_ & _ & H & _). cbn in H. lia.
Defined.
