(* ===== verification/Delivery.v ===== *)
(** * pkg/bus: the guaranteed lane (nats.go, dlq.go)

    [NatsBus] publishes messages to a JetStream stream and consumes them with explicit
    acknowledgement, a bound on deliveries and a dead letter stream.  Modelled: what
    Connect makes of its options, Publish and PublishRaw on the heap of messages, the
    consumers Subscribe, SubscribeDurable and SubscribeRaw ask for, and the callback that
    handles a delivery, step by step, with Unsubscribe and crashes between any two steps.

    The server is a parameter, the class [Consumer]: which deliveries it makes and which
    acknowledgements reach it is its choice, within the laws it documents for one
    consumer with [AckExplicitPolicy] and [MaxDeliver] (it counts deliveries, stops at the
    bound, at an acknowledgement or a termination, when the message has left the stream,
    and when the consumer has been deleted).  CBOR, the trace propagator and the text of
    a UUID are parameters too.  Logging is left out. *)
From Stdlib Require Import Ascii.
From S2P Require Import Prelude Utf8 FluxMsg MsgValidate.
Open Scope Z_scope.

(** ** Connecting *)

Record ConnectOptions := mkOptions {
  SubscriptionRetryAttempts : Z; InactiveThreshold : Z;
  DLQEnabled : bool; DLQSubject : string; DLQPublishTimeout : Z }.

(** The fields that [finalizeConnect] fills in. *)
Record NatsBus := mkBus {
  streamName : string; retryAttempts : Z; inactiveThreshold : Z;
  dlqEnabled : bool; dlqSubject : string; dlqPublishTimeout : Z }.

Definition dlqDefaultSubject : string := "flux.dlq".
Definition defaultDLQPublishTimeout : Z := 5000000000.
Definition maxGuaranteedRedeliveries : nat := 5.

Definition finalizeConnect (stream : string) (o : ConnectOptions) : NatsBus :=
  mkBus stream
    (if SubscriptionRetryAttempts o <=? 0 then 1 else SubscriptionRetryAttempts o)
    (InactiveThreshold o)
    (DLQEnabled o)
    (if bool_decide (DLQSubject o = "") then dlqDefaultSubject else DLQSubject o)
    (if DLQPublishTimeout o <=? 0 then defaultDLQPublishTimeout else DLQPublishTimeout o).

(** ** The subject of a dead letter *)

(** [strings.TrimSuffix(s, ".")] *)
Fixpoint trimDot (s : string) : string :=
  match s with
  | EmptyString => EmptyString
  | String c EmptyString => if Ascii.eqb c "." then EmptyString else s
  | String c r => String c (trimDot r)
  end.

Definition deadLetterSubject (prefix originSubject : string) : string :=
  let prefix := if bool_decide (prefix = "") then dlqDefaultSubject else prefix in
  trimDot prefix +:+ "." +:+ originSubject.

(** ** Publishing *)

Inductive busErr := ENotConnected | EInvalidMessage | EBus | EPanic.

(** What the server is sent. *)
Record wire (Data : Type) := mkWire { w_subject : string; w_data : Data; w_msgID : string }.
Arguments mkWire {Data} _ _ _.
Arguments w_subject {Data} _.
Arguments w_data {Data} _.
Arguments w_msgID {Data} _.

(** The answer to one publish: stored, over the payload limit, or any other error. *)
Inductive jsAnswer := JSOk | JSMaxPayload | JSFail.

Definition setMetadataMap (mt : option loc) (m : FluxMsg) : FluxMsg :=
  mkFluxMsg (FluxID m) (RefFluxID m) (TraceID m) (SrcGearID m) mt (FluxMsg.Data m) (Flags m) (RawPayload m) (Path m) (TSInit m).

(** [if msg.Metadata == nil { msg.Metadata = make(...) }], on the message at [l]. *)
Definition ensureMeta (h : heap) (l : loc) (m : FluxMsg) : heap * FluxMsg :=
  match Metadata m with
  | Some _ => (h, m)
  | None =>
      let m' := setMetadataMap (Some (nxt h)) m in
      (mkHeap (nxt h + 1) (objs h) (<[nxt h := ∅]> (metas h)) (<[l := m']> (msgs h)), m')
  end.

(** The propagator writes its fields through a [MapCarrier]. *)
Definition setFields (fields : list (string * string)) (mt : gmap string string) : gmap string string :=
  foldl (λ mt '(k, v), <[k := v]> mt) mt fields.

Definition carry (h : heap) (m : FluxMsg) (fields : list (string * string)) : heap :=
  match Metadata m with
  | Some lm => setMetas (<[lm := setFields fields (default ∅ (metas h !! lm))]> (metas h)) h
  | None => h
  end.

(** [fields]: what the propagator writes for the context; [None] for a nil context. *)
Definition injectTrace (h : heap) (l : loc) (m : FluxMsg) (fields : option (list (string * string))) : heap * FluxMsg :=
  match fields with
  | None => (h, m)
  | Some fs => let '(h1, m1) := ensureMeta h l m in (carry h1 m1 fs, m1)
  end.

Section publish.
Context {Data : Type} (lim : limits) (Marshal : heap → FluxMsg → option Data) (idString : Z → string).

Definition msgID (m : FluxMsg) (subject : string) : string :=
  idString (FluxID m) +:+ "-" +:+ pretty (N.of_nat (length (Path m))) +:+ "-" +:+ subject.

Definition rawMsgID (fluxID : Z) (subject : string) : string := idString fluxID +:+ "-" +:+ subject.

(** The heap after the call, what was sent, and the error returned. *)
Definition Publish (connected : bool) (h : heap) (subject : string) (l : loc)
    (fields : option (list (string * string))) (answer : jsAnswer) : heap * option (wire Data) * option busErr :=
  if negb connected then (h, None, Some ENotConnected)
  else match msgs h !! l with
  | None => (h, None, Some EPanic)
  | Some m =>
      match Validate lim h m with
      | Some _ => (h, None, Some EInvalidMessage)
      | None =>
          let '(h1, m1) := injectTrace h l m fields in
          match Marshal h1 m1 with
          | None => (h1, None, Some EInvalidMessage)
          | Some data =>
              (h1, Some (mkWire subject data (msgID m1 subject)),
               match answer with JSOk => None | JSMaxPayload => Some EInvalidMessage | JSFail => Some EBus end)
          end
      end
  end.

Definition PublishRaw (connected : bool) (subject : string) (data : Data) (fluxID : Z) (answer : jsAnswer)
    : option (wire Data) * option busErr :=
  if negb connected then (None, Some ENotConnected)
  else (Some (mkWire subject data (rawMsgID fluxID subject)), match answer with JSOk => None | _ => Some EBus end).
End publish.

(** ** Consumers *)

Inductive deliverPolicy := DeliverNew | DeliverAll.
Inductive ackPolicy := AckExplicit | AckNone.

(** [cc_MaxDeliver = None]: the field is left unset, no bound. *)
Record ConsumerConfig := mkConsumer {
  cc_Durable : option string; cc_FilterSubject : string; cc_Deliver : deliverPolicy; cc_Ack : ackPolicy;
  cc_MaxAckPending : option Z; cc_MaxDeliver : option nat; cc_Inactive : option Z }.

Definition subscribeConfig (n : NatsBus) (subject : string) : ConsumerConfig :=
  mkConsumer None subject DeliverNew AckExplicit (Some 10000) (Some maxGuaranteedRedeliveries) (Some (inactiveThreshold n)).
Definition durableConfig (subject durableName : string) : ConsumerConfig :=
  mkConsumer (Some durableName) subject DeliverAll AckExplicit None (Some maxGuaranteedRedeliveries) None.
Definition rawConfig (n : NatsBus) (subject : string) : ConsumerConfig :=
  mkConsumer None subject DeliverNew AckNone None None (Some (inactiveThreshold n)).

(** The retry loop of Subscribe over the answers to [CreateOrUpdateConsumer]: the
    attempts made, and whether a consumer was created.  [finalizeConnect] leaves at least
    one attempt. *)
Fixpoint createLoop (attempts : nat) (answers : nat → bool) (i : nat) : nat * bool :=
  match attempts with
  | O => (i, false)
  | S k => if answers i then (S i, true) else createLoop k answers (S i)
  end.
Definition createConsumer (n : NatsBus) (answers : nat → bool) : nat * bool :=
  createLoop (Z.to_nat (retryAttempts n)) answers 0.

(** *** The server's side *)

Inductive settle := SAck | SNak | STerm.

(** One consumer of a stream.  [c_content]: the subject and bytes that were stored under
    a sequence number.  [c_kept]: the stream still has them (Purge and the stream's limits
    remove messages).  [c_count]: deliveries made of it.  [c_settled]: acknowledged or
    terminated.  [c_max]: [MaxDeliver].  [c_exists]: the consumer has not been deleted.
    [c_deliver]: the server sends the message, if it may.  [c_settle]: an answer of the
    client arrives.  [c_delete]: the consumer is deleted.  [c_other]: anything else the
    server does (messages stored, purged or aged out, waits that run out). *)
Class Consumer (J Data : Type) := {
  c_content : J → N → option (string * Data);
  c_count : J → N → nat;
  c_kept : J → N → bool;
  c_settled : J → N → bool;
  c_max : J → nat;
  c_exists : J → bool;
  c_deliver : J → N → option J;
  c_settle : J → N → settle → J;
  c_delete : J → J;
  c_other : J → N → J }.

(** What the server documents of such a consumer. *)
Class ConsumerLaws (J Data : Type) `{!Consumer J Data} := {
  deliver_law j q j' : c_deliver j q = Some j' →
    is_Some (c_content j q) ∧ c_settled j q = false ∧ (c_count j q < c_max j)%nat ∧
    c_exists j = true ∧ c_kept j q = true ∧ c_exists j' = true ∧
    c_count j' q = S (c_count j q) ∧ (∀ q', q' ≠ q → c_count j' q' = c_count j q') ∧
    (∀ q', c_settled j' q' = c_settled j q') ∧ (∀ q', c_content j' q' = c_content j q') ∧ c_max j' = c_max j;
  settle_law j q a :
    (∀ q', c_settled (c_settle j q a) q' =
       c_settled j q' || (c_exists j && bool_decide (q' = q) && match a with SNak => false | _ => true end)) ∧
    (∀ q', c_count (c_settle j q a) q' = c_count j q') ∧
    (∀ q', c_content (c_settle j q a) q' = c_content j q') ∧ c_max (c_settle j q a) = c_max j ∧
    c_exists (c_settle j q a) = c_exists j;
  delete_law j :
    c_exists (c_delete j) = false ∧ (∀ q, c_settled (c_delete j) q = c_settled j q) ∧
    (∀ q, c_count (c_delete j) q = c_count j q) ∧ (∀ q, c_content (c_delete j) q = c_content j q) ∧
    c_max (c_delete j) = c_max j;
  other_law j i :
    (∀ q, c_settled (c_other j i) q = c_settled j q) ∧ (∀ q, c_count (c_other j i) q = c_count j q) ∧
    (∀ q x, c_content j q = Some x → c_content (c_other j i) q = Some x) ∧ c_max (c_other j i) = c_max j ∧
    c_exists (c_other j i) = c_exists j }.

(** *** The client's side *)

Inductive dlqReason := DLQReasonDecode | DLQReasonValidate | DLQReasonRedeliveryExhausted.
#[export] Instance dlqReason_eq_dec : EqDecision dlqReason.
Proof. solve_decision. Defined.

(** A message as it reaches the client; [d_num] is [NumDelivered] of its metadata. *)
Record delivery (Data : Type) := mkDelivery { d_seq : N; d_subject : string; d_data : Data; d_num : nat }.
Arguments mkDelivery {Data} _ _ _ _.
Arguments d_seq {Data} _.
Arguments d_subject {Data} _.
Arguments d_data {Data} _.
Arguments d_num {Data} _.

(** A dead letter, with its headers; [dl_seq] (history) is the message it is for. *)
Record deadLetterMsg (Data : Type) := mkDead {
  dl_subject : string; dl_data : Data; dl_origin : string; dl_reason : dlqReason; dl_deliveries : nat; dl_seq : N }.
Arguments mkDead {Data} _ _ _ _ _ _.
Arguments dl_subject {Data} _.
Arguments dl_data {Data} _.
Arguments dl_origin {Data} _.
Arguments dl_reason {Data} _.
Arguments dl_deliveries {Data} _.
Arguments dl_seq {Data} _.

(** Where the callback stands: idle, at the top, in the handler, reading the metadata
    after a failed handler, publishing a dead letter, or sending its answer. *)
Inductive callbackPC (Data Msg : Type) :=
  | CIdle
  | CTop (d : delivery Data)
  | CHandler (d : delivery Data) (m : Msg)
  | CFailed (d : delivery Data)
  | CDead (d : delivery Data) (r : dlqReason) (n : nat)
  | CSettle (d : delivery Data) (a : settle).
Arguments CIdle {Data Msg}.
Arguments CTop {Data Msg} _.
Arguments CHandler {Data Msg} _ _.
Arguments CFailed {Data Msg} _.
Arguments CDead {Data Msg} _ _ _.
Arguments CSettle {Data Msg} _ _.

(** History: why a message may be neither handled nor dead-lettered. *)
Inductive fault := FDLQOff | FDLQFailed | FNoMetadata | FAnswerLost | FInterrupted.

Record subscription (J Data Msg : Type) := mkSubscription {
  s_server : J;
  s_active : bool;
  s_inbox : list (delivery Data);
  s_pc : callbackPC Data Msg;
  s_calls : list (N * bool);
  s_dead : list (deadLetterMsg Data);
  s_faults : list (N * fault) }.
Arguments mkSubscription {J Data Msg} _ _ _ _ _ _ _.
Arguments s_server {J Data Msg} _.
Arguments s_active {J Data Msg} _.
Arguments s_inbox {J Data Msg} _.
Arguments s_pc {J Data Msg} _.
Arguments s_calls {J Data Msg} _.
Arguments s_dead {J Data Msg} _.
Arguments s_faults {J Data Msg} _.

Section callback.
Context {J Data Msg : Type} `{!Consumer J Data}.
(** [cbor.Unmarshal] into a FluxMsg, and whether [Validate] accepts it. *)
Context (Unmarshal : Data → option Msg) (valid : Msg → bool).
(** [filter]: the subject subscribed to, which may hold wildcards. *)
Context (n : NatsBus) (isDurable : bool) (filter : string).
Abbreviation sub := (subscription J Data Msg).

(** The steps.  [EDeliver q]: the server sends message [q].  [ETake]: the library calls
    the callback with the next message.  [EDecide meta]: decode and validate
    ([meta]: whether the metadata could be read for the dead letter's header).  [EHandle
    ok]: the handler returns.  [EMeta ok]: the metadata is read, or cannot be.  [EDead stored
    acked]: the publish of the dead letter.  [EAnswer arrives]: Ack, Nak or Term is sent.
    [EServer]: another step of the server.  [EUnsubscribe deleted]: Unsubscribe stops the
    consuming, drops what it buffered, and asks for the deletion of an ephemeral consumer
    ([deleted]: whether that took effect; its error is only logged).  [ECrash]: the
    process ends.  [EExpire]: the server deletes an ephemeral consumer that was inactive
    for [InactiveThreshold].  [EResume]: a durable consumer is subscribed to again. *)
Inductive event :=
  | EDeliver (q : N) | ETake | EDecide (meta : bool) | EHandle (ok : bool) | EMeta (ok : bool)
  | EDead (stored acked : bool) | EAnswer (arrives : bool) | EServer (i : N)
  | EUnsubscribe (deleted : bool) | ECrash | EExpire | EResume.

Definition with_pc (pc : callbackPC Data Msg) (s : sub) : sub :=
  mkSubscription (s_server s) (s_active s) (s_inbox s) pc (s_calls s) (s_dead s) (s_faults s).
Definition with_fault (q : N) (f : fault) (s : sub) : sub :=
  mkSubscription (s_server s) (s_active s) (s_inbox s) (s_pc s) (s_calls s) (s_dead s) ((q, f) :: s_faults s).
Definition with_call (q : N) (ok : bool) (s : sub) : sub :=
  mkSubscription (s_server s) (s_active s) (s_inbox s) (s_pc s) ((q, ok) :: s_calls s) (s_dead s) (s_faults s).
Definition with_server (j : J) (s : sub) : sub :=
  mkSubscription j (s_active s) (s_inbox s) (s_pc s) (s_calls s) (s_dead s) (s_faults s).
Definition with_dead (d : deadLetterMsg Data) (s : sub) : sub :=
  mkSubscription (s_server s) (s_active s) (s_inbox s) (s_pc s) (s_calls s) (d :: s_dead s) (s_faults s).

Definition deliveryCount (readable : bool) (d : delivery Data) : nat := if readable then d_num d else 0.

(** Decode, then validate. *)
Definition ingress (x : Data) : dlqReason + Msg :=
  match Unmarshal x with
  | None => inl DLQReasonDecode
  | Some m => if valid m then inr m else inl DLQReasonValidate
  end.

(** [routeToDLQ]: the bytes unchanged, the failure in the headers. *)
Definition routeToDLQ (d : delivery Data) (r : dlqReason) (deliveries : nat) : deadLetterMsg Data :=
  mkDead (deadLetterSubject (dlqSubject n) filter) (d_data d) filter r deliveries (d_seq d).

(** [deadLetter], then Term whatever it returned.  A publish that is acknowledged is
    stored; one that times out may be stored too. *)
Definition deadLetter (d : delivery Data) (r : dlqReason) (deliveries : nat) (stored acked : bool) (s : sub) : sub :=
  let s := with_pc (CSettle d STerm) s in
  if negb (dlqEnabled n) then with_fault (d_seq d) FDLQOff s
  else if stored || acked then with_dead (routeToDLQ d r deliveries) s
  else with_fault (d_seq d) FDLQFailed s.

(** The deliveries the client holds: the one in the callback and those buffered. *)
Definition held (pc : callbackPC Data Msg) : list (delivery Data) :=
  match pc with
  | CIdle => []
  | CTop d | CHandler d _ | CFailed d | CDead d _ _ | CSettle d _ => [d]
  end.
Definition outstanding (s : sub) : list (delivery Data) := held (s_pc s) ++ s_inbox s.

Definition interrupt (ds : list (delivery Data)) : list (N * fault) := (λ d, (d_seq d, FInterrupted)) <$> ds.

Definition receive (j : J) (q : N) (sj : string) (x : Data) (s : sub) : sub :=
  mkSubscription j (s_active s) (s_inbox s ++ [mkDelivery q sj x (c_count j q)]) (s_pc s) (s_calls s) (s_dead s) (s_faults s).

(** Stop the consuming, then ask for the deletion of an ephemeral consumer. *)
Definition Unsubscribe (deleted : bool) (s : sub) : sub :=
  mkSubscription (if negb isDurable && deleted then c_delete (s_server s) else s_server s)
    false [] (s_pc s) (s_calls s) (s_dead s) (interrupt (s_inbox s) ++ s_faults s).

Definition step (e : event) (s : sub) : option sub :=
  match e, s_pc s with
  | EDeliver q, _ =>
      if s_active s then
        match c_deliver (s_server s) q, c_content (s_server s) q with
        | Some j, Some (sj, x) => Some (receive j q sj x s)
        | _, _ => None
        end
      else None
  | ETake, CIdle =>
      match s_inbox s with
      | d :: ds => Some (mkSubscription (s_server s) (s_active s) ds (CTop d) (s_calls s) (s_dead s) (s_faults s))
      | [] => None
      end
  | EDecide meta, CTop d =>
      Some match ingress (d_data d) with
           | inl r => with_pc (CDead d r (deliveryCount meta d)) s
           | inr m => with_pc (CHandler d m) s
           end
  | EHandle ok, CHandler d m =>
      Some (with_call (d_seq d) ok (with_pc (if ok then CSettle d SAck else CFailed d) s))
  | EMeta ok, CFailed d =>
      let deliveries := deliveryCount ok d in
      Some (if (maxGuaranteedRedeliveries <=? deliveries)%nat
            then with_pc (CDead d DLQReasonRedeliveryExhausted deliveries) s
            else let s := with_pc (CSettle d SNak) s in
                 if ok then s else with_fault (d_seq d) FNoMetadata s)
  | EDead stored acked, CDead d r deliveries => Some (deadLetter d r deliveries stored acked s)
  | EAnswer arrives, CSettle d a =>
      Some (if arrives then with_pc CIdle (with_server (c_settle (s_server s) (d_seq d) a) s)
            else with_pc CIdle (with_fault (d_seq d) FAnswerLost s))
  | EServer i, _ => Some (with_server (c_other (s_server s) i) s)
  | EUnsubscribe deleted, _ => Some (Unsubscribe deleted s)
  | ECrash, _ =>
      Some (mkSubscription (s_server s) false [] CIdle (s_calls s) (s_dead s) (interrupt (outstanding s) ++ s_faults s))
  | EExpire, _ => if isDurable then None else Some (with_server (c_delete (s_server s)) s)
  | EResume, CIdle => if isDurable && negb (s_active s) then
        Some (mkSubscription (s_server s) true (s_inbox s) (s_pc s) (s_calls s) (s_dead s) (s_faults s)) else None
  | _, _ => None
  end.

Fixpoint steps (es : list event) (s : sub) : option sub :=
  match es with [] => Some s | e :: es => match step e s with Some s' => steps es s' | None => None end end.

(** A consumer just created: it exists, nothing was delivered or settled through it, and
    it has the bound of its configuration. *)
Definition fresh (cfg : ConsumerConfig) (j : J) : Prop :=
  (∀ q, c_count j q = 0%nat ∧ c_settled j q = false) ∧ cc_MaxDeliver cfg = Some (c_max j) ∧ c_exists j = true.

Definition started (j : J) : sub := mkSubscription j true [] CIdle [] [] [].
End callback.
