(* ===== verification/DeliverySpec.v ===== *)
(** * The guarantees of the guaranteed lane

    An invariant of the subscriptions of Delivery.v, over every interleaving of the
    server, the callback, Unsubscribe (which deletes an ephemeral consumer), crashes and
    expiry: who holds a message that the server
    will not send again, what a settled message has become, what is in the dead letter
    stream, and how often a handler ran.  From it: the accounting of messages, the bound
    on handler calls, the faithfulness of dead letters, and that callbacks finish. *)
From S2P Require Import Prelude Utf8 FluxMsg MsgValidate Delivery.
Open Scope nat_scope.

(** How often a number occurs in a list. *)
Fixpoint occ (q : N) (l : list N) : nat :=
  match l with [] => 0 | x :: l => (if N.eqb x q then 1 else 0) + occ q l end.

Lemma occ_app q l l' : occ q (l ++ l') = occ q l + occ q l'.
Proof. induction l as [|x l IH]; cbn; [done|]. rewrite IH. lia. Qed.

Section spec.
Context {J Data Msg : Type} `{!Consumer J Data} `{!ConsumerLaws J Data}.
Context (Unmarshal : Data → option Msg) (valid : Msg → bool).
Context (n : NatsBus) (isDurable : bool) (filter_ : string).
Abbreviation sub := (subscription J Data Msg).
Abbreviation step := (step Unmarshal valid n isDurable filter_).
Abbreviation steps := (steps Unmarshal valid n isDurable filter_).
Abbreviation ingress := (ingress Unmarshal valid).
Abbreviation MaxD := maxGuaranteedRedeliveries.

(** The server was not told, or told on an unreadable count: a delivery was interrupted,
    an answer was lost, or the metadata could not be read. *)
Definition faulted (s : sub) (q : N) : Prop :=
  ∃ f, (q, f) ∈ s_faults s ∧ match f with FDLQOff | FDLQFailed => False | _ => True end.
Definition handled (s : sub) (q : N) : Prop := (q, true) ∈ s_calls s.
Definition failedOnce (s : sub) (q : N) : Prop := (q, false) ∈ s_calls s.
Definition deadLettered (s : sub) (q : N) : Prop := ∃ dl, dl ∈ s_dead s ∧ dl_seq dl = q.
(** The dead letter stream did not take the message: switched off, or the publish failed. *)
Definition undeliverable (s : sub) (q : N) : Prop := (q, FDLQOff) ∈ s_faults s ∨ (q, FDLQFailed) ∈ s_faults s.

Definition outcome (s : sub) (q : N) : Prop := handled s q ∨ deadLettered s q ∨ undeliverable s q.
(** The client holds the fifth delivery. *)
Definition inHand (s : sub) (q : N) : Prop := ∃ d, d ∈ outstanding s ∧ d_seq d = q ∧ d_num d = MaxD.
(** The server may deliver the message again, and the subscription takes deliveries, or
    will when a durable one is subscribed to again. *)
Definition stillToCome (s : sub) (q : N) : Prop :=
  c_exists (s_server s) = true ∧ c_kept (s_server s) q = true ∧ c_count (s_server s) q < MaxD ∧ (s_active s = true ∨ isDurable = true).
(** An ephemeral subscription that was given up, or whose consumer was deleted. *)
Definition ended (s : sub) : Prop := isDurable = false ∧ (s_active s = false ∨ c_exists (s_server s) = false).
Definition ends (e : event) : Prop := match e with EUnsubscribe _ | ECrash | EExpire => True | _ => False end.

(** What a reason for a dead letter says of the message. *)
Definition justified (s : sub) (q : N) (x : Data) (r : dlqReason) (deliveries : nat) : Prop :=
  match r with
  | DLQReasonDecode => Unmarshal x = None
  | DLQReasonValidate => ∃ m, Unmarshal x = Some m ∧ valid m = false
  | DLQReasonRedeliveryExhausted =>
      (∃ m, Unmarshal x = Some m ∧ valid m = true) ∧ failedOnce s q ∧ deliveries = MaxD
  end.

Definition pc_ok (s : sub) : Prop :=
  match s_pc s with
  | CIdle | CTop _ => True
  | CHandler d m => ingress (d_data d) = inr m
  | CFailed d => failedOnce s (d_seq d) ∧ ∃ m, ingress (d_data d) = inr m
  | CDead d r k => justified s (d_seq d) (d_data d) r k
  | CSettle d SAck => handled s (d_seq d)
  | CSettle d STerm => deadLettered s (d_seq d) ∨ undeliverable s (d_seq d)
  | CSettle d SNak => d_num d < MaxD ∨ faulted s (d_seq d)
  end.

(** Deliveries whose handler has not been called. *)
Definition unhandled (s : sub) : list (delivery Data) :=
  match s_pc s with CTop d | CHandler d _ => [d] | _ => [] end ++ s_inbox s.

Definition callsOf (s : sub) (q : N) : nat := occ q (map fst (s_calls s)).
Definition pendingOf (s : sub) (q : N) : nat := occ q (map d_seq (unhandled s)).

Record inv (s : sub) : Prop := mkInv {
  i_max : c_max (s_server s) = MaxD;
  i_count q : c_count (s_server s) q ≤ MaxD;
  i_out d : d ∈ outstanding s →
    d_num d ≤ c_count (s_server s) (d_seq d) ∧
    c_content (s_server s) (d_seq d) = Some (d_subject d, d_data d);
  i_exists : isDurable = true → c_exists (s_server s) = true;
  i_last q : c_exists (s_server s) = true → c_settled (s_server s) q = false → c_count (s_server s) q = MaxD →
    inHand s q ∨ faulted s q;
  i_final q : c_count (s_server s) q = MaxD → inHand s q ∨ faulted s q ∨ outcome s q;
  i_pc : pc_ok s;
  i_settled q : c_settled (s_server s) q = true → outcome s q;
  i_dead dl : dl ∈ s_dead s →
    dl_origin dl = filter_ ∧ dl_subject dl = deadLetterSubject (dlqSubject n) filter_ ∧
    (∃ sj, c_content (s_server s) (dl_seq dl) = Some (sj, dl_data dl)) ∧
    justified s (dl_seq dl) (dl_data dl) (dl_reason dl) (dl_deliveries dl);
  i_calls q b : (q, b) ∈ s_calls s →
    ∃ sj x m, c_content (s_server s) q = Some (sj, x) ∧ Unmarshal x = Some m ∧ valid m = true;
  i_bound q : callsOf s q + pendingOf s q ≤ c_count (s_server s) q }.

Lemma ingress_inr x m : ingress x = inr m → Unmarshal x = Some m ∧ valid m = true.
Proof. unfold Delivery.ingress. destruct (Unmarshal x) as [m'|]; [|done]. destruct (valid m') eqn:E; [|done]. by intros [= ->]. Qed.

Lemma ingress_inl s q x r k : ingress x = inl r → justified s q x r k.
Proof.
  unfold Delivery.ingress. destruct (Unmarshal x) as [m|] eqn:E; [|by intros [= <-]].
  destruct (valid m) eqn:Ev; [done|]. intros [= <-]. cbn. eauto.
Qed.

(** [justified] only grows with the record of calls. *)
Lemma justified_mono s s' q x r k : (∀ c, c ∈ s_calls s → c ∈ s_calls s') → justified s q x r k → justified s' q x r k.
Proof. intros H. destruct r; [done|done|]. intros (? & ? & ?). split_and!; [done| |done]. by apply H. Qed.

(** ** The initial state *)

Lemma started_inv j cfg : cc_MaxDeliver cfg = Some MaxD → fresh cfg j → inv (started j).
Proof.
  intros Hm (H0 & Hc & He). rewrite Hm in Hc. injection Hc as Hc. split; cbn; try done.
  - intros q. rewrite (proj1 (H0 q)). lia.
  - by intros d ?%not_elem_of_nil.
  - intros q _ _ Hq. by rewrite (proj1 (H0 q)) in Hq.
  - intros q Hq. by rewrite (proj1 (H0 q)) in Hq.
  - intros q. by rewrite (proj2 (H0 q)).
  - by intros dl ?%not_elem_of_nil.
  - by intros q b ?%not_elem_of_nil.
  - intros q. lia.
Qed.

(** ** Histories only grow *)

Record extends (s s' : sub) : Prop := mkExtends {
  x_calls c : c ∈ s_calls s → c ∈ s_calls s';
  x_dead d : d ∈ s_dead s → d ∈ s_dead s';
  x_faults f : f ∈ s_faults s → f ∈ s_faults s' }.

Lemma faulted_mono s s' q : extends s s' → faulted s q → faulted s' q.
Proof. intros X (f & Hf & ?). exists f. split; [by apply (x_faults _ _ X)|done]. Qed.
Lemma outcome_mono s s' q : extends s s' → outcome s q → outcome s' q.
Proof.
  intros X [H|[(d & Hd & E)|[H|H]]].
  - left. by apply (x_calls _ _ X).
  - right; left. exists d. split; [by apply (x_dead _ _ X)|done].
  - right; right; left. by apply (x_faults _ _ X).
  - right; right; right. by apply (x_faults _ _ X).
Qed.

(** A letter of the dead letter stream, as [i_dead] has it. *)
Definition letter_ok (s : sub) (dl : deadLetterMsg Data) : Prop :=
  dl_origin dl = filter_ ∧ dl_subject dl = deadLetterSubject (dlqSubject n) filter_ ∧
  (∃ sj, c_content (s_server s) (dl_seq dl) = Some (sj, dl_data dl)) ∧
  justified s (dl_seq dl) (dl_data dl) (dl_reason dl) (dl_deliveries dl).

(** A step of the callback that neither takes nor gives up a delivery. *)
Lemma local_inv s s' :
  inv s → extends s s' → s_server s' = s_server s → outstanding s' = outstanding s → pc_ok s' →
  (∀ dl, dl ∈ s_dead s' → dl ∈ s_dead s ∨ letter_ok s' dl) →
  (∀ c, c ∈ s_calls s' → c ∈ s_calls s ∨ ∃ d m, d ∈ outstanding s ∧ d_seq d = c.1 ∧ ingress (d_data d) = inr m) →
  (∀ q, callsOf s' q + pendingOf s' q ≤ callsOf s q + pendingOf s q) → inv s'.
Proof.
  intros I X Es Eo Hp Hd Hc Hb. destruct I as [I1 I2 I3 Ie I4 If I5 I6 I7 I8 I9]. split; unfold inHand; rewrite ?Es, ?Eo; try done.
  - intros q H0 H1 H2. destruct (I4 q H0 H1 H2); [by left|right]. by apply (faulted_mono s).
  - intros q H2. destruct (If q H2) as [?|[?|?]]; [by left|right; left|right; right]; [by apply (faulted_mono s)|by apply (outcome_mono s)].
  - intros q Hq. eapply outcome_mono, I6; eauto.
  - intros dl Hdl. destruct (Hd dl Hdl) as [H|(?&?&H3&?)]; [|by rewrite Es in H3].
    destruct (I7 dl H) as (? & ? & ? & ?). split_and!; try done. eapply justified_mono; [apply X|done].
  - intros q b Hq. destruct (Hc _ Hq) as [H|(d & m & Hd' & Eq & Hm)]; [eauto|]. cbn in Eq. subst q.
    destruct (I3 d Hd') as [_ ?]. destruct (ingress_inr _ _ Hm). eauto 10.
  - intros q. specialize (I9 q). specialize (Hb q). lia.
Qed.

Lemma extends_refl s s' : s_calls s' = s_calls s → s_dead s' = s_dead s → s_faults s' = s_faults s → extends s s'.
Proof. intros E1 E2 E3. split; intros x; by rewrite ?E1, ?E2, ?E3. Qed.

Lemma step_take s s' : inv s → step ETake s = Some s' → inv s'.
Proof.
  intros I H. cbn in H. destruct (s_pc s) eqn:Ep; try done. destruct (s_inbox s) as [|d ds] eqn:Ei; [done|]. injection H as <-.
  apply (local_inv s); [done|by apply extends_refl|done| |done|by left|by left|].
  - unfold outstanding. cbn. by rewrite Ep, Ei.
  - intros q. unfold callsOf, pendingOf, unhandled. cbn. by rewrite Ep, Ei.
Qed.

Lemma step_decide meta s s' : inv s → step (EDecide meta) s = Some s' → inv s'.
Proof.
  intros I H. cbn in H. destruct (s_pc s) as [|d| | | |] eqn:Ep; try done. injection H as <-.
  destruct (ingress (d_data d)) as [r|m] eqn:Ei.
  - apply (local_inv s); [done|by apply extends_refl|done| | |by left|by left|].
    + unfold outstanding. cbn. by rewrite Ep.
    + cbn. by apply ingress_inl.
    + intros q. unfold callsOf, pendingOf, unhandled. cbn. rewrite Ep. cbn. lia.
  - apply (local_inv s); [done|by apply extends_refl|done| |done|by left|by left|].
    + unfold outstanding. cbn. by rewrite Ep.
    + intros q. unfold callsOf, pendingOf, unhandled. cbn. by rewrite Ep.
Qed.

Lemma step_handle ok s s' : inv s → step (EHandle ok) s = Some s' → inv s'.
Proof.
  intros I H. cbn in H. destruct (s_pc s) as [| |d m| | |] eqn:Ep; try done. injection H as <-.
  pose proof (i_pc _ I) as Hp. unfold pc_ok in Hp. rewrite Ep in Hp.
  assert (d ∈ outstanding s) as Hd. { unfold outstanding. rewrite Ep. apply elem_of_app; left. by apply list_elem_of_singleton. }
  apply (local_inv s); [done| |done| | |by left| |].
  - split; cbn; [|done|done]. intros c Hc. by right.
  - unfold outstanding. cbn. rewrite Ep. by destruct ok.
  - destruct ok; cbn; [left|split; [left|eauto]].
  - cbn. intros c [->|Hc]%elem_of_cons; [right; eauto 10|by left].
  - intros q. unfold callsOf, pendingOf, unhandled. cbn. rewrite Ep. destruct ok; cbn; destruct (N.eqb _ q); lia.
Qed.

Lemma held_outstanding (s : sub) d : held (s_pc s) = [d] → d ∈ outstanding s.
Proof. intros E. unfold outstanding. rewrite E. by left. Qed.

Lemma step_meta ok s s' : inv s → step (EMeta ok) s = Some s' → inv s'.
Proof.
  intros I H. unfold Delivery.step in H. destruct (s_pc s) as [| | |d| |] eqn:Ep; try done. apply (inj Some) in H as <-.
  pose proof (i_pc _ I) as Hp. unfold pc_ok in Hp. rewrite Ep in Hp. destruct Hp as [Hf [m Hm]].
  destruct (i_out _ I d) as [Hn _]; [apply held_outstanding; by rewrite Ep|]. pose proof (i_count _ I (d_seq d)) as Hc.
  assert (deliveryCount ok d = d_num d ∨ ok = false ∧ deliveryCount ok d = 0) as Hk by (destruct ok; cbn; auto).
  destruct (Nat.leb_spec MaxD (deliveryCount ok d)) as [Hle|Hlt]; [|destruct ok].
  - apply (local_inv s); [done|by apply extends_refl|done| | |by left|by left|].
    + unfold outstanding. cbn. by rewrite Ep.
    + cbn. split_and!; [apply ingress_inr in Hm; eauto|done|]. destruct Hk as [Hk|[_ Hk]]; rewrite Hk in *; [lia|]. unfold MaxD in *. lia.
    + intros q. unfold callsOf, pendingOf, unhandled. cbn. by rewrite Ep.
  - apply (local_inv s); [done|by apply extends_refl|done| | |by left|by left|].
    + unfold outstanding. cbn. by rewrite Ep.
    + cbn. by left.
    + intros q. unfold callsOf, pendingOf, unhandled. cbn. by rewrite Ep.
  - apply (local_inv s); [done| |done| | |by left|by left|].
    + split; cbn; [done|done|]. intros f Hf'. by right.
    + unfold outstanding. cbn. by rewrite Ep.
    + cbn. right. exists FNoMetadata. split; [by left|done].
    + intros q. unfold callsOf, pendingOf, unhandled. cbn. by rewrite Ep.
Qed.

Lemma step_dead a b s s' : inv s → step (EDead a b) s = Some s' → inv s'.
Proof.
  intros I H. cbn in H. destruct (s_pc s) as [| | | |d r k|] eqn:Ep; try done. injection H as <-.
  pose proof (i_pc _ I) as Hp. unfold pc_ok in Hp. rewrite Ep in Hp.
  destruct (i_out _ I d) as [_ Hx]; [apply held_outstanding; by rewrite Ep|].
  unfold deadLetter. destruct (dlqEnabled n); cbn; [destruct (a || b)|]; (apply (local_inv s); [done| |done| | | |by left|]);
    try (unfold outstanding; cbn; by rewrite Ep); try (intros q; unfold callsOf, pendingOf, unhandled; cbn; by rewrite Ep);
    try (split; cbn; intros; solve [done|by right]).
  - cbn. left. eexists. split; [by left|done].
  - cbn. intros dl [->|Hdl]%elem_of_cons; [right|by left]. split_and!; cbn; eauto.
  - cbn. right; right. by left.
  - by left.
  - cbn. right; left. by left.
  - by left.
Qed.

Lemma step_answer arrives s s' : inv s → step (EAnswer arrives) s = Some s' → inv s'.
Proof.
  intros I H. cbn in H. destruct (s_pc s) as [| | | | |d a] eqn:Ep; try done.
  pose proof (i_pc _ I) as Hp. unfold pc_ok in Hp. rewrite Ep in Hp.
  assert (outstanding s = d :: s_inbox s) as Eo by (unfold outstanding; by rewrite Ep).
  assert (d_num d = MaxD → faulted s (d_seq d) ∨ outcome s (d_seq d)) as Hlast.
  { unfold outcome. destruct a; intros ?; [tauto| |tauto]. destruct Hp; [lia|by left]. }
  destruct I as [I1 I2 I3 Ie I4 If I5 I6 I7 I8 I9].
  assert (∀ q, callsOf s q + occ q (map d_seq (s_inbox s)) ≤ c_count (s_server s) q) as Hb.
  { intros q. specialize (I9 q). unfold pendingOf, unhandled in I9. by rewrite Ep in I9. }
  destruct arrives; injection H as <-.
  - destruct (settle_law (s_server s) (d_seq d) a) as (L1 & L2 & L3 & L4 & L5).
    split; cbn; rewrite ?L4, ?L5; try done.
    + intros q. by rewrite L2.
    + intros d' Hd'. rewrite L2, L3. apply I3. rewrite Eo. by right.
    + intros q He. rewrite L1, L2, He. intros [Hs Hn]%orb_false_iff Hc.
      destruct (I4 q He Hs Hc) as [(d' & Hd' & <- & En)|?]; [|by right]. rewrite Eo in Hd'.
      apply elem_of_cons in Hd' as [->|Hd']; [|left; by exists d']. rewrite bool_decide_eq_true_2 in Hn by done.
      destruct a; [done| |done]. destruct Hp as [?|Hf]; [lia|by right].
    + intros q. rewrite L2. intros Hc. destruct (If q Hc) as [(d' & Hd' & <- & En)|?]; [|by right]. rewrite Eo in Hd'.
      apply elem_of_cons in Hd' as [->|Hd']; [right; by apply Hlast|left; by exists d'].
    + intros q. rewrite L1. intros [Hs|[[_ ->%bool_decide_eq_true]%andb_true_iff Hs]%andb_true_iff]%orb_true_iff; [by apply I6|].
      destruct a; [by left|done|by right].
    + intros dl Hdl. rewrite L3. by apply I7.
    + intros q b Hq. rewrite L3. by apply (I8 q b).
    + intros q. rewrite L2. apply Hb.
  - split; cbn; try done.
    + intros d' Hd'. apply I3. rewrite Eo. by right.
    + intros q He Hs Hc. destruct (I4 q He Hs Hc) as [(d' & Hd' & <- & En)|?].
      * rewrite Eo in Hd'. apply elem_of_cons in Hd' as [->|Hd']; [right|left; by exists d']. exists FAnswerLost. split; [by left|done].
      * right. destruct H as (f & Hf & ?). exists f. split; [by right|done].
    + intros q Hc. destruct (If q Hc) as [(d' & Hd' & <- & En)|[?|?]].
      * rewrite Eo in Hd'. apply elem_of_cons in Hd' as [->|Hd']; [right; left|left; by exists d']. exists FAnswerLost. split; [by left|done].
      * right; left. destruct H as (f & Hf & ?). exists f. split; [by right|done].
      * right; right. eapply outcome_mono; [|done]. split; cbn; [done|done|]. intros f Hf. by right.
    + intros q Hs. eapply outcome_mono, I6, Hs. split; cbn; [done|done|]. intros f Hf. by right.
Qed.

Lemma step_deliver q s s' : inv s → step (EDeliver q) s = Some s' → inv s'.
Proof.
  intros I H. unfold Delivery.step in H. destruct (s_active s); [|done].
  destruct (c_deliver (s_server s) q) as [j|] eqn:Ed; [|done].
  destruct (c_content (s_server s) q) as [[sj x]|] eqn:Ex; [|done]. apply (inj Some) in H as <-.
  destruct (deliver_law _ _ _ Ed) as (_ & Hset & Hlt & Hex & _ & L0 & L1 & L2 & L3 & L4 & L5).
  destruct I as [I1 I2 I3 Ie I4 If I5 I6 I7 I8 I9].
  set (d := mkDelivery q sj x (c_count j q)). set (s' := receive j q sj x s).
  assert (outstanding s' = outstanding s ++ [d]) as Eo by (unfold outstanding; cbn; by rewrite app_assoc).
  assert (∀ q', c_count (s_server s) q' ≤ c_count j q') as Hmon.
  { intros q'. destruct (decide (q' = q)) as [->|Hq]; [lia|]. by rewrite L2. }
  split; unfold inHand; cbn; rewrite ?Eo.
  - by rewrite L5.
  - intros q'. destruct (decide (q' = q)) as [->|Hq]; [rewrite L1; lia|]. by rewrite L2.
  - intros d' [Hd'|Hd'%list_elem_of_singleton]%elem_of_app; [|subst d'; cbn; rewrite L4; by split].
    destruct (I3 d' Hd'). rewrite L4. split; [|done]. specialize (Hmon (d_seq d')). lia.
  - done.
  - intros q' _. rewrite L3. intros Hs Hc. destruct (decide (q' = q)) as [->|Hq].
    + left. exists d. split_and!; [|done|done]. apply elem_of_app; right. by left.
    + rewrite L2 in Hc by done. destruct (I4 q' Hex Hs Hc) as [(d' & ? & ?)|?]; [left|by right].
      exists d'. split; [|done]. apply elem_of_app; by left.
  - intros q' Hc. destruct (decide (q' = q)) as [->|Hq].
    + left. exists d. split_and!; [|done|done]. apply elem_of_app; right. by left.
    + rewrite L2 in Hc by done. destruct (If q' Hc) as [(d' & ? & ?)|?]; [left|by right].
      exists d'. split; [|done]. apply elem_of_app; by left.
  - done.
  - intros q'. rewrite L3. apply I6.
  - intros dl Hdl. rewrite L4. by apply I7.
  - intros q' b Hq. rewrite L4. by apply (I8 q' b).
  - intros q'. specialize (I9 q'). unfold callsOf, pendingOf, unhandled in *. cbn.
    rewrite !map_app, !occ_app in *. cbn. destruct (N.eqb_spec q q') as [<-|Hq]; [lia|]. rewrite L2 by done. lia.
Qed.

Lemma step_server i s s' : inv s → step (EServer i) s = Some s' → inv s'.
Proof.
  intros I H. unfold Delivery.step in H. apply (inj Some) in H as <-. destruct I as [I1 I2 I3 Ie I4 If I5 I6 I7 I8 I9].
  destruct (other_law (s_server s) i) as (L1 & L2 & L3 & L4 & L5). split; cbn; rewrite ?L4, ?L5; try done.
  - intros q. by rewrite L2.
  - intros d Hd. rewrite L2. destruct (I3 d Hd). split; [done|]. by apply L3.
  - intros q. rewrite L1, L2. apply I4.
  - intros q. rewrite L2. apply If.
  - intros q. rewrite L1. apply I6.
  - intros dl Hdl. destruct (I7 dl Hdl) as (? & ? & [sj ?] & ?). split_and!; try done. exists sj. by apply L3.
  - intros q b Hq. destruct (I8 q b Hq) as (sj & x & m & ? & ?). exists sj, x, m. split; [by apply L3|done].
  - intros q. rewrite L2. apply I9.
Qed.

Lemma interrupted (ds : list (delivery Data)) d : d ∈ ds → (d_seq d, FInterrupted) ∈ interrupt ds.
Proof. intros H. apply list_elem_of_fmap. eauto. Qed.

(** Deliveries are dropped ([lost]) and recorded; the callback may go with them. *)
Lemma drop_inv s s' lost :
  inv s → s_server s' = s_server s → s_calls s' = s_calls s → s_dead s' = s_dead s →
  s_faults s' = interrupt lost ++ s_faults s → pc_ok s' →
  (∀ d, d ∈ outstanding s' → d ∈ outstanding s) →
  (∀ d, d ∈ outstanding s → d ∈ outstanding s' ∨ d ∈ lost) →
  (∀ q, pendingOf s' q ≤ pendingOf s q) → inv s'.
Proof.
  intros I Es Ec Ed Ef Hp Ho Hl Hb. assert (extends s s') as X.
  { split; intros x; rewrite ?Ec, ?Ed, ?Ef; [done|done|]. intros. by apply elem_of_app; right. }
  assert (∀ q, inHand s q → inHand s' q ∨ faulted s' q) as Hh.
  { intros q (d & Hd & <- & En). destruct (Hl d Hd) as [?|Hd']; [left; by exists d|right]. exists FInterrupted. rewrite Ef.
    split; [|done]. apply elem_of_app; left. by apply interrupted. }
  destruct I as [I1 I2 I3 Ie I4 If I5 I6 I7 I8 I9]. split; rewrite ?Es; try done.
  - intros d Hd. by apply I3, Ho.
  - intros q H0 H1 H2. destruct (I4 q H0 H1 H2) as [?|?]; [by apply Hh|right; by apply (faulted_mono s)].
  - intros q H2. destruct (If q H2) as [Hi|[?|?]].
    + destruct (Hh q Hi) as [?|?]; [by left|right; by left].
    + right; left. by apply (faulted_mono s).
    + right; right. by apply (outcome_mono s).
  - intros q Hq. eapply outcome_mono, I6; eauto.
  - intros dl. rewrite Ed. intros Hdl. destruct (I7 dl Hdl) as (? & ? & ? & ?). split_and!; try done.
    eapply justified_mono; [apply X|done].
  - intros q b. rewrite Ec. apply I8.
  - intros q. specialize (I9 q). specialize (Hb q). unfold callsOf in *. rewrite Ec. lia.
Qed.

(** The consumer of an ephemeral subscription is deleted. *)
Lemma delete_inv s : isDurable = false → inv s → inv (with_server (c_delete (s_server s)) s).
Proof.
  intros Hd [I1 I2 I3 Ie I4 If I5 I6 I7 I8 I9]. destruct (delete_law (s_server s)) as (L1 & L2 & L3 & L4 & L5).
  split; cbn; rewrite ?L1, ?L5; try done.
  - intros q. by rewrite L3.
  - intros d. rewrite L3, L4. apply I3.
  - by rewrite Hd.
  - intros q. rewrite L3. apply If.
  - intros q. rewrite L2. apply I6.
  - intros dl. rewrite L4. apply I7.
  - intros q b. rewrite L4. apply I8.
  - intros q. rewrite L3. apply I9.
Qed.

(** What the client does in Unsubscribe before the deletion. *)
Definition stopped (s : sub) : sub :=
  mkSubscription (s_server s) false [] (s_pc s) (s_calls s) (s_dead s) (interrupt (s_inbox s) ++ s_faults s).

Lemma stopped_dinv s : inv s → inv (stopped s).
Proof.
  intros I. apply (drop_inv s _ (s_inbox s)); try done; unfold outstanding; cbn.
  - pose proof (i_pc _ I) as Hp. unfold pc_ok in *. cbn. unfold handled, failedOnce, deadLettered, faulted, undeliverable, justified in *. cbn.
    destruct (s_pc s) as [|?|?|?|? [] ?|? []]; try done; rewrite ?elem_of_app; [|naive_solver].
    destruct Hp as [?|(f & ? & ?)]; [by left|right; exists f]. rewrite elem_of_app. split; [by right|done].
  - intros d. rewrite app_nil_r, elem_of_app. by left.
  - intros d. rewrite app_nil_r, elem_of_app. done.
  - intros q. unfold pendingOf, unhandled. cbn. rewrite !map_app, !occ_app. cbn. lia.
Qed.

Lemma step_unsubscribe b s s' : inv s → step (EUnsubscribe b) s = Some s' → inv s'.
Proof.
  intros I H. unfold Delivery.step in H. apply (inj Some) in H as <-. apply stopped_dinv in I. unfold Unsubscribe.
  destruct (negb isDurable && b) eqn:E; [|done].
  apply andb_true_iff in E as [E _]. apply (delete_inv (stopped s)); [by destruct isDurable|done].
Qed.

Lemma step_expire s s' : inv s → step EExpire s = Some s' → inv s'.
Proof.
  intros I H. unfold Delivery.step in H. destruct isDurable eqn:E; [done|]. apply (inj Some) in H as <-. by apply delete_inv.
Qed.

Lemma step_crash s s' : inv s → step ECrash s = Some s' → inv s'.
Proof.
  intros I H. unfold Delivery.step in H. apply (inj Some) in H as <-.
  apply (drop_inv s _ (outstanding s)); try done; unfold outstanding; cbn.
  - by intros d ?%not_elem_of_nil.
  - by right.
  - intros q. unfold pendingOf, unhandled. cbn. lia.
Qed.

Lemma step_resume s s' : inv s → step EResume s = Some s' → inv s'.
Proof.
  intros I H. unfold Delivery.step in H. destruct (s_pc s) eqn:Ep; try done.
  destruct (isDurable && negb (s_active s)); [|done]. apply (inj Some) in H as <-.
  assert (∀ q, inHand s q → inHand (mkSubscription (s_server s) true (s_inbox s) CIdle (s_calls s) (s_dead s) (s_faults s)) q) as Hh.
  { intros q (d & ? & ?). exists d. unfold outstanding in *. by rewrite Ep in *. }
  destruct I as [I1 I2 I3 Ie I4 If I5 I6 I7 I8 I9]. split; cbn; try done.
  - intros d Hd. apply I3. unfold outstanding in *. cbn in Hd. by rewrite Ep.
  - intros q H0 H1 H2. destruct (I4 q H0 H1 H2) as [?|?]; [left|by right]. by apply Hh.
  - intros q H2. destruct (If q H2) as [?|?]; [left|by right]. by apply Hh.
  - intros q. specialize (I9 q). unfold pendingOf, unhandled in *. cbn. by rewrite Ep in *.
Qed.
Lemma sub_step_inv e s s' : inv s → step e s = Some s' → inv s'.
Proof.
  intros I. destruct e.
  - by apply step_deliver.
  - by apply step_take.
  - by apply step_decide.
  - by apply step_handle.
  - by apply step_meta.
  - by apply step_dead.
  - by apply step_answer.
  - by apply step_server.
  - by apply step_unsubscribe.
  - by apply step_crash.
  - by apply step_expire.
  - by apply step_resume.
Qed.

Lemma sub_steps_inv es s s' : inv s → steps es s = Some s' → inv s'.
Proof.
  revert s. induction es as [|e es IH]; intros s I; cbn [Delivery.steps]; [by intros [= <-]|].
  destruct (step e s) as [s1|] eqn:E; [|done]. apply IH. by apply (sub_step_inv e s).
Qed.

(** The consumer Subscribe or SubscribeDurable asked for. *)
Definition guaranteedConfig (name : string) : ConsumerConfig :=
  if isDurable then durableConfig filter_ name else subscribeConfig n filter_.

Lemma lane_reachable_inv name j es s : fresh (guaranteedConfig name) j → steps es (started j) = Some s → inv s.
Proof.
  intros Hf Hs. apply (sub_steps_inv es (started j)); [|done]. apply (started_inv j (guaranteedConfig name)); [|done].
  unfold guaranteedConfig. by destruct isDurable.
Qed.

(** ** Theorems *)

(** A step that ends a subscription is one of the three that may. *)
Lemma step_ended e s s' : inv s → step e s = Some s' → ended s' → ended s ∨ ends e.
Proof.
  intros I H [Hd He]. destruct e; try (by right); left; (split; [done|]); unfold Delivery.step in H.
  - destruct (s_active s) eqn:Ea; [|done]. destruct (c_deliver (s_server s) q) as [j|] eqn:Ed; [|done].
    destruct (c_content (s_server s) q) as [[sj x]|]; [|done]. apply (inj Some) in H as <-. cbn in He. rewrite Ea in He.
    destruct (deliver_law _ _ _ Ed) as (_ & _ & _ & _ & _ & L & _). rewrite L in He. by destruct He.
  - destruct (s_pc s); try done. destruct (s_inbox s); [done|]. by apply (inj Some) in H as <-.
  - destruct (s_pc s); try done. apply (inj Some) in H as <-. by destruct (ingress _).
  - destruct (s_pc s); try done. by apply (inj Some) in H as <-.
  - destruct (s_pc s); try done. apply (inj Some) in H as <-. revert He. by repeat case_match.
  - destruct (s_pc s); try done. apply (inj Some) in H as <-. unfold deadLetter in He. revert He. by repeat case_match.
  - destruct (s_pc s); try done. apply (inj Some) in H as <-. destruct arrives; [|done]. cbn in He.
    by rewrite (proj2 (proj2 (proj2 (proj2 (settle_law _ _ _))))) in He.
  - apply (inj Some) in H as <-. cbn in He. by rewrite (proj2 (proj2 (proj2 (proj2 (other_law _ _))))) in He.
  - destruct (s_pc s); try done. by rewrite Hd in H.
Qed.

Lemma steps_ended es s s' : inv s → steps es s = Some s' → ended s' → ended s ∨ ∃ e, e ∈ es ∧ ends e.
Proof.
  revert s. induction es as [|e es IH]; intros s I; cbn [Delivery.steps]; [by intros [= <-]; left|].
  destruct (step e s) as [s1|] eqn:E; [|done]. intros Hs He.
  destruct (IH s1 (sub_step_inv e s s1 I E) Hs He) as [H1|(e' & ? & ?)]; [|right; exists e'; split; [by right|done]].
  destruct (step_ended e s s1 I E H1); [by left|right]. exists e. split; [by left|done].
Qed.

(** C14: no message of the guaranteed lane goes missing unaccounted for, over any
    interleaving of the server, the callback, Unsubscribe, crashes and expiry.  A message
    the server has been told to forget was handled without error, or is in the dead
    letter stream, or that stream is switched off or did not take it.  Any other message
    has deliveries still to come (the stream and the consumer exist, fewer than five were
    made, the subscription consumes or is durable), or its fifth is in the client's hands,
    or the client was interrupted, its answer lost or the delivery count unreadable, or
    the message has left the stream, or the subscription was ephemeral and has ended.
    That happens only by Unsubscribe, which deletes the consumer whatever is still to be
    redelivered, by a crash or by expiry; a durable consumer outlives all three.  A message
    without fault whose five deliveries are used up and that the client no longer holds
    was handled or dead-lettered, also when the subscription has ended. *)
Theorem guaranteed_accounting name j es s q :
  fresh (guaranteedConfig name) j → steps es (started j) = Some s →
  (c_settled (s_server s) q = true → handled s q ∨ deadLettered s q ∨ undeliverable s q) ∧
  (c_settled (s_server s) q = false →
     stillToCome s q ∨ inHand s q ∨ faulted s q ∨ c_kept (s_server s) q = false ∨ ended s) ∧
  (ended s → isDurable = false ∧ ∃ e, e ∈ es ∧ ends e) ∧
  (isDurable = true → c_exists (s_server s) = true) ∧
  (c_count (s_server s) q = MaxD → outstanding s = [] → (∀ f, (q, f) ∉ s_faults s) → handled s q ∨ deadLettered s q).
Proof.
  intros Hf Hs. pose proof (lane_reachable_inv _ _ _ _ Hf Hs) as I. split_and!.
  - apply (i_settled _ I).
  - intros Hu. pose proof (i_count _ I q). pose proof (i_exists _ I) as Hx. unfold stillToCome, ended.
    destruct (decide (c_count (s_server s) q = MaxD)) as [E|].
    + destruct (c_exists (s_server s)) eqn:Ex; [destruct (i_last _ I q Ex Hu E); tauto|]. destruct isDurable; [by specialize (Hx eq_refl)|tauto].
    + destruct (c_exists (s_server s)), (c_kept (s_server s) q), isDurable, (s_active s); try (left; split_and!; (done || lia || tauto)); try tauto;
        by specialize (Hx eq_refl).
  - intros He. split; [apply He|]. destruct (steps_ended es (started j) s) as [[_ [?|Hn]]|?]; try done.
    + apply (started_inv j (guaranteedConfig name)); [|done]. unfold guaranteedConfig. by destruct isDurable.
    + cbn in Hn. destruct Hf as (_ & _ & Hf). by rewrite Hf in Hn.
  - apply (i_exists _ I).
  - intros Hc Ho Hn. destruct (i_final _ I q Hc) as [(d & Hd & _)|[(f & Hf' & _)|[?|[?|[?|?]]]]].
    + rewrite Ho in Hd. by apply not_elem_of_nil in Hd.
    + by destruct (Hn f).
    + by left.
    + by right.
    + by destruct (Hn FDLQOff).
    + by destruct (Hn FDLQFailed).
Qed.

(** a handler is called at most once per delivery, so at most five times for one
    message, however it fails; and never with a message that does not decode or that
    Validate refuses. *)
Theorem handler_calls_bounded name j es s q :
  fresh (guaranteedConfig name) j → steps es (started j) = Some s →
  callsOf s q ≤ c_count (s_server s) q ∧ c_count (s_server s) q ≤ MaxD ∧
  ∀ b, (q, b) ∈ s_calls s →
    ∃ sj x m, c_content (s_server s) q = Some (sj, x) ∧ Unmarshal x = Some m ∧ valid m = true.
Proof.
  intros Hf Hs. pose proof (lane_reachable_inv _ _ _ _ Hf Hs) as I. split_and!.
  - pose proof (i_bound _ I q). lia.
  - apply (i_count _ I).
  - apply (i_calls _ I).
Qed.

(** every dead letter is the stored message itself: byte for byte what the stream
    was given, under the dead letter subject of the subscription, with a reason that is true
    of it: it does not decode, it decodes and Validate refuses it, or a handler failed on
    it and it was delivered five times. *)
Theorem dead_letters_faithful name j es s dl :
  fresh (guaranteedConfig name) j → steps es (started j) = Some s → dl ∈ s_dead s →
  dl_origin dl = filter_ ∧ dl_subject dl = deadLetterSubject (dlqSubject n) filter_ ∧
  (∃ sj, c_content (s_server s) (dl_seq dl) = Some (sj, dl_data dl)) ∧
  justified s (dl_seq dl) (dl_data dl) (dl_reason dl) (dl_deliveries dl).
Proof. intros Hf Hs. pose proof (lane_reachable_inv _ _ _ _ Hf Hs) as I. apply (i_dead _ I). Qed.

(** ** Callbacks finish *)

(** The steps of the client while it works through what it holds. *)
Definition clientStep (e : event) : bool :=
  match e with ETake | EDecide _ | EHandle _ | EMeta _ | EDead _ _ | EAnswer _ => true | _ => false end.

Definition pcWork (pc : callbackPC Data Msg) : nat :=
  match pc with CIdle => 0 | CTop _ => 5 | CHandler _ _ => 4 | CFailed _ => 3 | CDead _ _ _ => 2 | CSettle _ _ => 1 end.
Definition work (s : sub) : nat := pcWork (s_pc s) + 6 * length (s_inbox s).

Lemma client_work e s s' : clientStep e = true → step e s = Some s' → work s' < work s.
Proof.
  intros Hc H. unfold work. destruct e; try done; unfold Delivery.step in H; destruct (s_pc s) eqn:Ep; try done.
  - destruct (s_inbox s); [done|]. apply (inj Some) in H as <-. cbn. lia.
  - apply (inj Some) in H as <-. destruct (ingress (d_data d)); cbn; lia.
  - apply (inj Some) in H as <-. destruct ok; cbn; lia.
  - apply (inj Some) in H as <-. repeat case_match; cbn; lia.
  - apply (inj Some) in H as <-. unfold deadLetter. repeat case_match; cbn; lia.
  - apply (inj Some) in H as <-. destruct arrives; cbn; lia.
Qed.

(** The client has a next step while it holds work. *)
Lemma client_enabled s : 0 < work s → ∃ e s', clientStep e = true ∧ step e s = Some s'.
Proof.
  intros Hw. unfold work in Hw. destruct (s_pc s) eqn:Ep.
  - destruct (s_inbox s) eqn:Ei; [cbn in Hw; lia|]. exists ETake. eexists. split; [done|]. cbn. by rewrite Ep, Ei.
  - exists (EDecide true). eexists. split; [done|]. cbn. by rewrite Ep.
  - exists (EHandle true). eexists. split; [done|]. cbn. by rewrite Ep.
  - exists (EMeta true). eexists. split; [done|]. cbn. by rewrite Ep.
  - exists (EDead true true). eexists. split; [done|]. cbn. by rewrite Ep.
  - exists (EAnswer true). eexists. split; [done|]. cbn. by rewrite Ep.
Qed.

Lemma work_zero s : work s = 0 → outstanding s = [].
Proof. unfold work, outstanding. destruct (s_pc s), (s_inbox s); cbn; (done || lia). Qed.

Lemma client_finishes k s : work s ≤ k → ∃ es s', Forall (λ e, clientStep e = true) es ∧
  length es ≤ work s ∧ steps es s = Some s' ∧ outstanding s' = [].
Proof.
  revert s. induction k as [|k IH]; intros s Hk.
  { exists [], s. split_and!; [constructor|cbn; lia|done|apply work_zero; lia]. }
  destruct (decide (work s = 0)) as [E|E]; [exists [], s; split_and!; [constructor|cbn; lia|done|by apply work_zero]|].
  destruct (client_enabled s) as (e & s1 & He & H1); [lia|]. pose proof (client_work _ _ _ He H1) as Hlt.
  destruct (IH s1) as (es & s' & Hes & Hl & Hs & Ho); [lia|]. exists (e :: es), s'.
  split_and!; [by constructor|cbn; lia|cbn [Delivery.steps]; by rewrite H1|done].
Qed.

(** the client never hangs on what it holds: whatever the handler, the metadata, the
    dead letter stream and the server answer, it works through its deliveries in at most
    six steps each, and from any state a run of its own steps empties its hands. *)
Theorem callbacks_finish (s : sub) :
  (∀ es s', Forall (λ e, clientStep e = true) es → steps es s = Some s' → length es ≤ 6 * length (outstanding s)) ∧
  ∃ es s', Forall (λ e, clientStep e = true) es ∧ steps es s = Some s' ∧ outstanding s' = [].
Proof.
  assert (work s ≤ 6 * length (outstanding s)) as Hw.
  { unfold work, outstanding. rewrite length_app. destruct (s_pc s); cbn; lia. }
  split; [|destruct (client_finishes (work s) s) as (es & s' & ? & _ & ? & ?); eauto 10].
  intros es. assert (∀ es s s', Forall (λ e, clientStep e = true) es → steps es s = Some s' → length es + work s' ≤ work s) as Hb.
  { clear. induction es as [|e es IH]; intros s s' Hes; cbn [Delivery.steps]; [intros [= <-]; cbn; lia|].
    apply Forall_cons in Hes as [He Hes]. destruct (step e s) as [s1|] eqn:E; [|done]. intros Hs.
    pose proof (client_work _ _ _ He E). specialize (IH _ _ Hes Hs). cbn. lia. }
  intros s' Hes Hs. specialize (Hb _ _ _ Hes Hs). lia.
Qed.
End spec.
