(* ===== verification/DeliveryPublish.v ===== *)
(** * From Publish to the handler

    The two ends of the guaranteed lane together: what Publish sends, the key JetStream
    removes duplicates by, and what the callback at the other end makes of the bytes.
    CBOR enters by the class [Cbor]: it decodes what it encoded, when all text in the
    message is UTF-8. *)
From Stdlib Require Import Ascii.
From S2P Require Import Prelude Utf8 FluxMsg Keys MsgValidate Delivery.
Open Scope Z_scope.

(** ** The deduplication key *)

(** [uuid.UUID.String]: 36 characters, one text per id of 128 bits. *)
Definition uuid_ok (z : Z) : Prop := 0 ≤ z < 2 ^ 128.
Class UuidText (idString : Z → string) := {
  id_length z : String.length (idString z) = 36%nat;
  id_inj y z : uuid_ok y → uuid_ok z → idString y = idString z → y = z }.

(** the deduplication key names one logical emission: two publishes share it exactly
    when message id, number of hops and subject agree.  A message fanned out to two
    ports, or sent on after another hop, is never taken for a duplicate, and the same
    message sent to the same port again always is. *)
Theorem dedup_key_exact idString `{!UuidText idString} m m' sj sj' :
  uuid_ok (FluxID m) → uuid_ok (FluxID m') →
  msgID idString m sj = msgID idString m' sj' ↔
  FluxID m = FluxID m' ∧ length (Path m) = length (Path m') ∧ sj = sj'.
Proof.
  intros Hm Hm'. unfold msgID. split; [|by intros (-> & -> & ->)]. intros H.
  apply append_split in H as [E1 H]; [|by rewrite !id_length]. apply id_inj in E1; [|done..]. injection H as H.
  apply (char_split "-" (Itoa _) (Itoa _)) in H as [E2 ->]; [|apply Itoa_no_char, dash_noDigit..].
  split_and!; [done| |done]. apply (inj pretty) in E2. lia.
Qed.

(** ** What crosses the wire *)

(** A value as Validate looks at it: text and bytes, nothing of the rest. *)
Definition shallow (v : val) : val := match v with VStr _ | VBytes _ => v | _ => VNil end.

Definition sameContent (a b : heap * FluxMsg) : Prop :=
  FluxID a.2 = FluxID b.2 ∧ Flags a.2 = Flags b.2 ∧ RawPayload a.2 = RawPayload b.2 ∧ Path a.2 = Path b.2 ∧
  metaOf a.1 a.2 = metaOf b.1 b.2 ∧ shallow <$> dataOf a.1 a.2 = shallow <$> dataOf b.1 b.2.

(** The CBOR library. [allText]: every text in the message is UTF-8. *)
Class Cbor (Data : Type) := {
  Marshal : heap → FluxMsg → option Data;
  Unmarshal : Data → option (heap * FluxMsg);
  allText : heap → FluxMsg → Prop;
  cbor_law h m d : Marshal h m = Some d → allText h m → ∃ x, Unmarshal d = Some x ∧ sameContent (h, m) x }.

Lemma dataSize_shallow d : dataSize d = dataSize (shallow <$> d).
Proof.
  induction d as [|k v d Hk IH] using map_ind; [by rewrite fmap_empty|]. rewrite fmap_insert.
  rewrite !dataSize_insert by (by rewrite ?lookup_fmap, ?Hk). rewrite IH. by destruct v.
Qed.

(** Validate looks at nothing else. *)
Lemma acceptable_content lim h m h' m' : sameContent (h, m) (h', m') → acceptable lim h m → acceptable lim h' m'.
Proof.
  intros (_ & _ & Er & Ep & Em & Ed) [H1 H2 H3 H4]. cbn in *. split.
  - by rewrite <-Ep.
  - unfold msgSize in *. by rewrite <-Er, <-Em, dataSize_shallow, <-Ed, <-dataSize_shallow.
  - by rewrite <-Em.
  - intros k Hk. apply H4. rewrite <-(fmap_is_Some shallow), <-lookup_fmap, Ed, lookup_fmap. by apply fmap_is_Some.
Qed.

Lemma sameContent_sym a b : sameContent a b → sameContent b a.
Proof. intros (? & ? & ? & ? & ? & ?). by split_and!. Qed.

(** *** The trace context *)

Definition fieldsOf (fields : option (list (string * string))) : list (string * string) := default [] fields.

Lemma setFields_textual fs mt :
  Forall (λ f, ValidString f.1 = true ∧ ValidString f.2 = true) fs → textual mt → textual (setFields fs mt).
Proof.
  intros Hf. revert mt. induction Hf as [|[k v] fs Hkv _ IH]; intros mt Hm; [done|]. apply IH.
  by apply map_Forall_insert_2.
Qed.

Lemma inject_effect h l m fields h1 m1 : msgs h !! l = Some m → injectTrace h l m fields = (h1, m1) →
  msgs h1 !! l = Some m1 ∧ metaOf h1 m1 = setFields (fieldsOf fields) (metaOf h m) ∧ dataOf h1 m1 = dataOf h m ∧
  FluxID m1 = FluxID m ∧ Path m1 = Path m ∧ RawPayload m1 = RawPayload m ∧ Flags m1 = Flags m.
Proof.
  intros Hl. destruct fields as [fs|]; cbn; [|by intros [= <- <-]]. unfold ensureMeta. destruct (Metadata m) as [lm|] eqn:Em.
  - intros [= <- <-]. unfold carry, metaOf, dataOf. rewrite Em. cbn. by rewrite lookup_insert_eq.
  - intros [= <- <-]. unfold carry, metaOf, dataOf. rewrite Em. cbn. by rewrite !lookup_insert_eq.
Qed.

Section lane.
Context {Data : Type} `{!Cbor Data} (lim : limits) (idString : Z → string).

(** The Validate of the callback, on what was decoded. *)
Definition validDecoded (x : heap * FluxMsg) : bool := bool_decide (Validate lim x.1 x.2 = None).

(** a message that Publish reported as sent arrives: the bytes on the wire carry the
    message with the trace context in its metadata, and the callback at the other end
    hands an equal message to the handler, provided its text is UTF-8 and it still fits
    the size limit with the trace context added.  When it does not fit, the callback
    dead-letters it as invalid, although Publish checked it. *)
Theorem published_reaches_handler h sj l fields h1 w :
  Publish lim Marshal idString true h sj l fields JSOk = (h1, Some w, None) →
  Forall (λ f, ValidString f.1 = true ∧ ValidString f.2 = true) (fieldsOf fields) →
  ∃ m m1, msgs h !! l = Some m ∧ msgs h1 !! l = Some m1 ∧
    w_subject w = sj ∧ w_msgID w = msgID idString m sj ∧
    metaOf h1 m1 = setFields (fieldsOf fields) (metaOf h m) ∧
    (allText h1 m1 →
       if msgSize h1 m1 <=? MaxPayloadSize lim
       then ∃ x, ingress Unmarshal validDecoded (w_data w) = inr x ∧ sameContent (h1, m1) x
       else ingress Unmarshal validDecoded (w_data w) = inl DLQReasonValidate).
Proof.
  unfold Publish. cbn [negb]. destruct (msgs h !! l) as [m|] eqn:El; [|done].
  destruct (Validate lim h m) eqn:Ev; [done|]. destruct (injectTrace h l m fields) as [h' m1] eqn:Ei.
  destruct (Marshal h' m1) as [d|] eqn:Ed; [|done]. intros [= <- <-] Hf.
  destruct (inject_effect _ _ _ _ _ _ El Ei) as (Hl & Hm & Hdt & Hid & Hp & Hr & _).
  exists m, m1. unfold msgID. rewrite Hid, Hp. split_and!; try done. intros Ht.
  destruct (cbor_law _ _ _ Ed Ht) as ([h2 m2] & Eu & Hs). unfold ingress, w_data. rewrite Eu.
  apply validate_acceptable in Ev. destruct (Z.leb_spec (msgSize h' m1) (MaxPayloadSize lim)) as [Hle|Hgt].
  - exists (h2, m2). split; [|done]. unfold validDecoded. cbn. rewrite bool_decide_eq_true_2; [done|].
    apply validate_acceptable, (acceptable_content lim h' m1); [done|]. destruct Ev as [V1 V2 V3 V4].
    split; [by rewrite Hp|done| |by rewrite Hdt]. rewrite Hm. intros k v. by apply setFields_textual.
  - unfold validDecoded. cbn. rewrite bool_decide_eq_false_2; [done|]. intros Hv%validate_acceptable.
    apply sameContent_sym in Hs. destruct (acceptable_content _ _ _ _ _ Hs Hv). lia.
Qed.
End lane.
