(* ===== verification/DeliveryExample.v ===== *)
(** * The guaranteed lane, run

    An instance of each parameter of the guaranteed lane (a consumer that keeps the laws
    of [ConsumerLaws], a codec, the text of a UUID as RFC 9562 writes it), runs of the
    lane on it, and what they show. *)
From Stdlib Require Import Ascii.
From S2P Require Import Prelude Utf8 Bytes FluxMsg Keys MsgValidate Delivery DeliverySpec DeliveryPublish.
Open Scope Z_scope.

Module DeliveryExample.

(** ** A consumer *)

Record plainConsumer := mkPlain {
  p_content : gmap N (string * string); p_count : gmap N nat; p_settled : gset N; p_max : nat; p_exists : bool }.

Definition plainDeliver (j : plainConsumer) (q : N) : option plainConsumer :=
  if p_exists j && bool_decide (is_Some (p_content j !! q)) && negb (bool_decide (q ∈ p_settled j)) &&
     (default 0 (p_count j !! q) <? p_max j)%nat
  then Some (mkPlain (p_content j) (<[q := S (default 0%nat (p_count j !! q))]> (p_count j)) (p_settled j) (p_max j) true)
  else None.

Definition plainSettle (j : plainConsumer) (q : N) (a : settle) : plainConsumer :=
  match a with
  | SNak => j
  | _ => if p_exists j then mkPlain (p_content j) (p_count j) ({[q]} ∪ p_settled j) (p_max j) true else j
  end.

#[export] Instance plain : Consumer plainConsumer string := {|
  c_content j q := p_content j !! q;
  c_count j q := default 0%nat (p_count j !! q);
  c_kept j q := bool_decide (is_Some (p_content j !! q));
  c_settled j q := bool_decide (q ∈ p_settled j);
  c_max := p_max;
  c_exists := p_exists;
  c_deliver := plainDeliver;
  c_settle := plainSettle;
  c_delete j := mkPlain (p_content j) (p_count j) (p_settled j) (p_max j) false;
  c_other j _ := j |}.

#[export] Instance plain_laws : ConsumerLaws plainConsumer string.
Proof.
  split; cbn.
  - intros j q j'. unfold plainDeliver. destruct (p_exists j) eqn:E0; [|done]. cbn [andb]. destruct (bool_decide (is_Some (p_content j !! q))) eqn:E1; [|done]. cbn [negb andb].
    destruct (bool_decide (q ∈ p_settled j)) eqn:E2; [done|]. cbn [negb andb].
    destruct (Nat.ltb_spec (default 0%nat (p_count j !! q)) (p_max j)); [|done]. intros [= <-]. cbn.
    rewrite lookup_insert_eq. split_and!; try done; [by apply bool_decide_eq_true in E1|].
    intros q' Hq. by rewrite lookup_insert_ne.
  - intros j q a. unfold plainSettle. destruct (p_exists j) eqn:E0, a; cbn; rewrite ?E0; split_and!; try done; intros q'; cbn [andb];
      rewrite ?andb_false_r, ?orb_false_r; try done;
      apply eq_bool_prop_intro; rewrite !Is_true_true, orb_true_iff, andb_true_r, !bool_decide_eq_true; set_solver.
  - intros j. by split_and!.
  - intros j i. by split_and!.
Qed.

Definition holding (content : gmap N (string * string)) : plainConsumer := mkPlain content ∅ ∅ 5 true.

Definition lane : NatsBus := finalizeConnect "flux-msg" (mkOptions 0 0 true "" 0).
Definition laneNoDLQ : NatsBus := finalizeConnect "flux-msg" (mkOptions 0 0 false "" 0).

(** Messages are texts; an empty text does not decode, one that starts with [!] is
    invalid. *)
Definition decodeText (x : string) : option string := if bool_decide (x = "") then None else Some x.
Definition validText (m : string) : bool := match m with String c _ => negb (Ascii.eqb c "!") | EmptyString => true end.

Definition three : gmap N (string * string) :=
  {[1%N := ("flux.msg.a", "fine"); 2%N := ("flux.msg.a", ""); 3%N := ("flux.msg.a", "poison")]}.

Abbreviation runOn n j es := (steps decodeText validText n false "flux.msg.a" es (started j)).

(** One delivery that the handler refuses, with everything else going well. *)
Definition refused (q : N) : list event := [EDeliver q; ETake; EDecide true; EHandle false; EMeta true; EAnswer true].
Definition refusedLast (q : N) : list event :=
  [EDeliver q; ETake; EDecide true; EHandle false; EMeta true; EDead true true; EAnswer true].

(** A good message, one that does not decode, and one whose handler always fails. *)
Definition allThree : list event :=
  [EDeliver 1; EDeliver 2; ETake; EDecide true; EHandle true; EAnswer true;
   ETake; EDecide true; EDead true true; EAnswer true] ++
  refused 3 ++ refused 3 ++ refused 3 ++ refused 3 ++ refusedLast 3.

Definition after (es : list event) : subscription plainConsumer string string :=
  default (started (holding three)) (runOn lane (holding three) es).

Lemma fresh_holding c : fresh (guaranteedConfig lane false "flux.msg.a" "") (holding c).
Proof. split_and!; [|done|done]. by intros q. Qed.

Lemma guaranteed_accounting_witness :
  runOn lane (holding three) allThree = Some (after allThree) ∧ outstanding (after allThree) = [] ∧
  c_count (s_server (after allThree)) 3 = 5%nat ∧
  (handled (after allThree) 3 ∨ deadLettered (after allThree) 3) ∧ (handled (after allThree) 1 ∨ deadLettered (after allThree) 1 ∨ undeliverable (after allThree) 1).
Proof.
  assert (runOn lane (holding three) allThree = Some (after allThree)) as H by (vm_compute; reflexivity).
  split; [exact H|]. split; [vm_compute; reflexivity|]. split; [vm_compute; reflexivity|]. split.
  - refine (proj2 (proj2 (proj2 (proj2 (guaranteed_accounting decodeText validText lane false "flux.msg.a" "" (holding three) allThree
      (after allThree) 3 (fresh_holding three) H)))) _ _ _); [vm_compute; reflexivity|vm_compute; reflexivity|].
    intros f Hf. change (s_faults (after allThree)) with (@nil (N * fault)) in Hf. by apply not_elem_of_nil in Hf.
  - refine (proj1 (guaranteed_accounting decodeText validText lane false "flux.msg.a" "" (holding three) allThree
      (after allThree) 1 (fresh_holding three) H) _). vm_compute; reflexivity.
Defined.

Lemma handler_calls_bounded_witness :
  runOn lane (holding three) allThree = Some (after allThree) ∧ callsOf (after allThree) 3 = 5%nat ∧
  (callsOf (after allThree) 3 <= c_count (s_server (after allThree)) 3)%nat.
Proof.
  assert (runOn lane (holding three) allThree = Some (after allThree)) as H by (vm_compute; reflexivity).
  split; [exact H|]. split; [vm_compute; reflexivity|].
  exact (proj1 (handler_calls_bounded decodeText validText lane false "flux.msg.a" "" (holding three) allThree
      (after allThree) 3 (fresh_holding three) H)).
Defined.

(** The dead letter of the poison message, with its headers. *)
Definition poisonLetter : deadLetterMsg string :=
  mkDead "flux.dlq.flux.msg.a" "poison" "flux.msg.a" DLQReasonRedeliveryExhausted 5 3.

Lemma dead_letters_faithful_witness :
  poisonLetter ∈ s_dead (after allThree) ∧ dl_origin poisonLetter = "flux.msg.a".
Proof.
  assert (runOn lane (holding three) allThree = Some (after allThree)) as H by (vm_compute; reflexivity).
  assert (poisonLetter ∈ s_dead (after allThree)) as Hd by (vm_compute; left).
  split; [exact Hd|].
  exact (proj1 (dead_letters_faithful decodeText validText lane false "flux.msg.a" "" (holding three) allThree
      (after allThree) poisonLetter (fresh_holding three) H Hd)).
Defined.

(** A crash in the handler on the fifth delivery: the server sends the message no more,
    and it is not in the dead letter stream; [guaranteed_accounting] has it as interrupted. *)
Definition crashOnLast : list event :=
  refused 3 ++ refused 3 ++ refused 3 ++ refused 3 ++ [EDeliver 3; ETake; EDecide true; ECrash].

Lemma crash_on_last_delivery :
  runOn lane (holding three) (crashOnLast) = Some (after crashOnLast) ∧
  c_settled (s_server (after crashOnLast)) 3 = false ∧ c_deliver (s_server (after crashOnLast)) 3 = None ∧
  s_dead (after crashOnLast) = [] ∧ s_faults (after crashOnLast) = [(3%N, FInterrupted)].
Proof. vm_compute. by split_and!. Qed.

(** Unsubscribe after a handler that failed: the ephemeral consumer is deleted, and the
    message, refused once, is delivered no more; [guaranteed_accounting] has the
    subscription as ended. *)
Definition unsubscribed : list event := refused 3 ++ [EUnsubscribe true].

Lemma unsubscribe_drops_redelivery :
  runOn lane (holding three) unsubscribed = Some (after unsubscribed) ∧
  c_settled (s_server (after unsubscribed)) 3 = false ∧ c_count (s_server (after unsubscribed)) 3 = 1%nat ∧
  c_deliver (s_server (after unsubscribed)) 3 = None ∧ s_faults (after unsubscribed) = [].
Proof. vm_compute. by split_and!. Qed.

(** A subscription to a wildcard: the dead letter names the pattern as its origin, not
    the subject the message was sent to. *)
Definition telemetry : gmap N (string * string) := {[1%N := ("flux.telemetry.logs.rack1", "")]}.

Lemma dead_letter_names_filter :
  ∃ s, steps decodeText validText lane false "flux.telemetry.>"
         [EDeliver 1; ETake; EDecide true; EDead true true; EAnswer true] (started (holding telemetry)) = Some s ∧
    s_dead s = [mkDead "flux.dlq.flux.telemetry.>" "" "flux.telemetry.>" DLQReasonDecode 1 1].
Proof. eexists. vm_compute. by split. Qed.

(** ** UUIDs *)

(** [n] hexadecimal digits, the most significant first. *)
Fixpoint hexN (n : nat) (z : Z) : string :=
  match n with O => "" | S k => hexN k (z / 16) +:+ String (hexLower (z mod 16)) "" end.

Definition uuidText (z : Z) : string :=
  hexN 8 (z / 2 ^ 96) +:+ String "-" (hexN 4 (z / 2 ^ 80) +:+ String "-" (hexN 4 (z / 2 ^ 64) +:+
  String "-" (hexN 4 (z / 2 ^ 48) +:+ String "-" (hexN 12 z)))).

Lemma length_app_str (a b : string) : String.length (a +:+ b) = (String.length a + String.length b)%nat.
Proof. induction a as [|c a IH]; [done|]. simpl. by rewrite IH. Qed.

Lemma length_hexN k z : String.length (hexN k z) = k.
Proof. revert z. induction k as [|k IH]; intros z; [done|]. simpl. rewrite length_app_str, IH. simpl. lia. Qed.

Lemma hexN_inj k y z : hexN k y = hexN k z → y mod 16 ^ Z.of_nat k = z mod 16 ^ Z.of_nat k.
Proof.
  revert y z. induction k as [|k IH]; intros y z; [by rewrite !Z.mod_1_r|]. simpl hexN. intros H.
  apply append_split in H as [H1 H2]; [|by rewrite !length_hexN]. apply IH in H1. injection H2 as H2.
  assert (y mod 16 = z mod 16) as E.
  { pose proof (Z.mod_pos_bound y 16 ltac:(lia)). pose proof (Z.mod_pos_bound z 16 ltac:(lia)).
    apply (f_equal fromHexChar) in H2. rewrite !fromHex_lower in H2 by lia. by injection H2. }
  rewrite Nat2Z.inj_succ, Z.pow_succ_r by lia. rewrite !Z.rem_mul_r by lia. by rewrite E, H1.
Qed.

#[export] Instance uuidText_ok : UuidText uuidText.
Proof.
  split.
  - intros z. unfold uuidText. by repeat first [rewrite length_app_str|rewrite length_hexN|progress cbn [String.length]].
  - intros y z Hy Hz H. unfold uuidText in H. assert (∀ c a b, String c a = String c b → a = b) as Htl by (by intros c a b [= ->]).
    apply append_split in H as [H1 H%Htl]; [|by rewrite !length_hexN].
    apply append_split in H as [H2 H%Htl]; [|by rewrite !length_hexN].
    apply append_split in H as [H3 H%Htl]; [|by rewrite !length_hexN].
    apply append_split in H as [H4 H5%Htl]; [|by rewrite !length_hexN].
    apply hexN_inj in H1, H2, H3, H4, H5. unfold uuid_ok in *.
    change (16 ^ Z.of_nat 8) with (2 ^ 32) in *. change (16 ^ Z.of_nat 4) with (2 ^ 16) in *. change (16 ^ Z.of_nat 12) with (2 ^ 48) in *.
    assert (∀ x, 0 ≤ x < 2 ^ 128 → x = x / 2 ^ 96 mod 2 ^ 32 * 2 ^ 96 + x / 2 ^ 80 mod 2 ^ 16 * 2 ^ 80 + x / 2 ^ 64 mod 2 ^ 16 * 2 ^ 64 + x / 2 ^ 48 mod 2 ^ 16 * 2 ^ 48 + x mod 2 ^ 48) as E.
    { intros x Hx. Z.to_euclidean_division_equations. lia. }
    rewrite (E y Hy), (E z Hz). congruence.
Qed.

Definition sent (id : Z) (path : list Hop) : FluxMsg := mkFluxMsg id 0 "" 0 None None 0 "" path 0.

Lemma dedup_key_exact_witness :
  msgID uuidText (sent 7 []) "flux.msg.a" ≠ msgID uuidText (sent 7 []) "flux.msg.b".
Proof.
  intros H. destruct (proj1 (dedup_key_exact uuidText (sent 7 []) (sent 7 []) "flux.msg.a" "flux.msg.b" ltac:(by split) ltac:(by split)) H) as (_ & _ & E).
  discriminate E.
Defined.

(** ** Publishing *)

(** A codec whose encoding of a message is the message. *)
#[export] Instance mirror : Cbor (heap * FluxMsg) := {|
  Marshal h m := Some (h, m); Unmarshal x := Some x; allText _ _ := True;
  cbor_law h m d H _ := ex_intro _ d (conj eq_refl (eq_ind _ (sameContent (h, m)) ltac:(by split_and!) _ (f_equal (default (h, m)) H))) |}.

(** A message with six bytes of payload, and the trace context of a span. *)
Definition empty : heap := mkHeap 0 ∅ ∅ ∅.
Definition hp : heap := setMsgs {[9%N := mkFluxMsg 7 0 "" 0 None None 0 "abcdef" [] 0]} (mkHeap 20 ∅ ∅ ∅).
Definition trace : list (string * string) := [("traceparent", "00-1-2-01")].
Definition published (lim : limits) := Publish lim Marshal uuidText true hp "flux.msg.a" 9%N (Some trace) JSOk.

Definition sentHeap : heap := (published defaultLimits).1.1.
Definition sentWire : wire (heap * FluxMsg) := default (mkWire "" (hp, sent 0 []) "") (published defaultLimits).1.2.

Lemma published_reaches_handler_witness :
  published defaultLimits = (sentHeap, Some sentWire, None) ∧
  ∃ x, ingress Unmarshal (validDecoded defaultLimits) (w_data sentWire) = inr x ∧
    metaOf x.1 x.2 = setFields trace ∅.
Proof.
  assert (published defaultLimits = (sentHeap, Some sentWire, None)) as E by (vm_compute; reflexivity).
  split; [exact E|].
  destruct (published_reaches_handler defaultLimits uuidText hp "flux.msg.a" 9%N (Some trace) sentHeap sentWire E)
    as (m & m1 & H0 & H1 & _ & _ & Hm & H); [repeat constructor|].
  specialize (H I). assert (m = mkFluxMsg 7 0 "" 0 None None 0 "abcdef" [] 0) as ->.
  { change (Some (mkFluxMsg 7 0 "" 0 None None 0 "abcdef" [] 0) = Some m) in H0. by injection H0. }
  assert (m1 = mkFluxMsg 7 0 "" 0 (Some 20%N) None 0 "abcdef" [] 0) as ->.
  { change (Some (mkFluxMsg 7 0 "" 0 (Some 20%N) None 0 "abcdef" [] 0) = Some m1) in H1. by injection H1. }
  change (msgSize sentHeap _ <=? _) with true in H. cbn [ingress] in H. destruct H as (x & Hx & (_ & _ & _ & _ & Hs & _)).
  exists x. split; [exact Hx|]. rewrite <-Hs. exact Hm.
Defined.

(** At a limit of ten bytes the message passes Publish, which then adds twenty bytes of
    trace context; the callback refuses what arrives. *)
Definition tight : limits := mkLimits 64 10.
Lemma traced_message_is_refused :
  (published tight).2 = None ∧
  (λ w, ingress Unmarshal (validDecoded tight) (w_data w)) <$> (published tight).1.2 = Some (inl DLQReasonValidate).
Proof. by vm_compute. Qed.

(** A string in Data that is not UTF-8 passes Validate. *)
Definition badText : string := String (ascii_of_N 255) "".
Definition hpBad : heap := mkHeap 20 {[1%N := OMapS {["f" := VStr badText]}]} ∅ ∅.
Lemma data_values_unchecked :
  ValidString badText = false ∧
  Validate defaultLimits hpBad (mkFluxMsg 7 0 "" 0 None (Some 1%N) 0 "" [] 0) = None.
Proof. by vm_compute. Qed.

(** A payload over the server's limit is marked invalid by Publish, and not by PublishRaw. *)
Lemma raw_oversize_unmarked :
  (Publish defaultLimits Marshal uuidText true hp "flux.events" 9%N None JSMaxPayload).2 = Some EInvalidMessage ∧
  (PublishRaw uuidText true "flux.events" hp 7 JSMaxPayload).2 = Some EBus.
Proof. by vm_compute. Qed.

Definition hpMeta : heap := mkHeap 20 ∅ {[1%N := ∅]} ∅.
Definition withMeta : FluxMsg := mkFluxMsg 7 0 "" 0 (Some 1%N) None 0 "" [] 0.
Lemma set_metadata_text_witness :
  ∃ h', SetMetadata hpMeta withMeta "k" badText = Some h' ∧ metaOf h' withMeta !! "k" = Some "hex:ff" ∧ textual (metaOf h' withMeta).
Proof.
  destruct (SetMetadata hpMeta withMeta "k" badText) as [h'|] eqn:E; [|discriminate E].
  exists h'. split; [reflexivity|]. split; [vm_compute in E; injection E as <-; reflexivity|].
  refine (proj1 (set_metadata_text hpMeta withMeta "k" badText h' E eq_refl _)). intros k v Hk. discriminate Hk.
Defined.
End DeliveryExample.
