(* ===== verification/RackScenario.v ===== *)
(** * A Rack's own copy of its scenario (runtime/localscenario.go)

    [LocalScenarioStore] on a disk that may fail at every operation and lose what was not
    synced in a crash.  The file that holds the copy and the temporary file of a running
    Save are modelled; CBOR is a parameter with its round trip as a law. *)
From S2P Require Import Prelude Scenario Controller.
Open Scope Z_scope.

Record ScenarioPayload := mkPayload {
  Version : string; Name : string; RackName : string; MachineID : Z; Scenario_ : string; Timestamp : Z;
  Specs : list SpecArtifact }.

(** [kept := *p; kept.Specs = nil] *)
Definition withoutSpecs (p : ScenarioPayload) : ScenarioPayload :=
  mkPayload (Version p) (Name p) (RackName p) (MachineID p) (Scenario_ p) (Timestamp p) [].

(** CBOR of a payload. *)
Class PayloadCodec := {
  encode : ScenarioPayload → option string;
  decode : string → option ScenarioPayload;
  decode_encode p x : encode p = Some x → decode x = Some p }.

(** ** The disk *)

(** [durable]: the content has been synced. *)
Record file := mkFile { content : string; durable : bool }.
Record disk := mkDisk { saved : option file; temp : option file }.

(** A crash leaves anything in a file that was not synced. *)
Definition crashFile (garble : string → string) (f : file) : file :=
  if durable f then f else mkFile (garble (content f)) true.
Definition crash (garble : string → string) (d : disk) : disk :=
  mkDisk (crashFile garble <$> saved d) (crashFile garble <$> temp d).

(** ** Save *)

(** How the operations of one Save end. [a_write = Some k]: the write fails after [k]
    bytes.  [a_remove]: whether the temporary file can be removed afterwards. *)
Record answers := mkAnswers {
  a_mkdir : bool; a_create : bool; a_chmod : bool; a_write : option nat; a_sync : bool; a_close : bool;
  a_rename : bool; a_remove : bool }.

Definition cleanup (a : answers) (d : disk) : disk := if a_remove a then mkDisk (saved d) None else d.

Definition withTemp (x : string) (b : bool) (d : disk) : disk := mkDisk (saved d) (Some (mkFile x b)).

Section store.
Context `{PayloadCodec}.

(** The states the disk goes through, in order, and whether Save returned nil. *)
Definition Save (a : answers) (p : option ScenarioPayload) (d : disk) : list disk * bool :=
  match p with
  | None => ([d], false)
  | Some p =>
      if bool_decide (Scenario_ p = "") then ([d], false)
      else match encode (withoutSpecs p) with
      | None => ([d], false)
      | Some data =>
          if negb (a_mkdir a) then ([d], false)
          else if negb (a_create a) then ([d], false)
          else
            let d1 := withTemp "" false d in
            if negb (a_chmod a) then ([d; d1; cleanup a d1], false)
            else match a_write a with
            | Some k => let d2 := withTemp (String.substring 0 k data) false d in ([d; d1; d2; cleanup a d2], false)
            | None =>
                let d2 := withTemp data false d in
                if negb (a_sync a) then ([d; d1; d2; cleanup a d2], false)
                else
                  let d3 := withTemp data true d in
                  if negb (a_close a) then ([d; d1; d2; d3; cleanup a d3], false)
                  else if negb (a_rename a) then ([d; d1; d2; d3; cleanup a d3], false)
                  else ([d; d1; d2; d3; mkDisk (Some (mkFile data true)) None], true)
            end
      end
  end.

(** The disk when Save has returned. *)
Definition afterSave (a : answers) (p : option ScenarioPayload) (d : disk) : disk := List.last (Save a p d).1 d.

(** ** Load *)

Inductive loadErr := LRead | LDecode | LEmpty | LMismatch.

(** [readable]: whether a file that exists can be read. *)
Definition Load (readable : bool) (d : disk) (machineID : Z) (rackName : string) : loadErr + option ScenarioPayload :=
  match saved d with
  | None => inr None
  | Some f =>
      if negb readable then inl LRead
      else match decode (content f) with
      | None => inl LDecode
      | Some p =>
          if bool_decide (Scenario_ p = "") then inl LEmpty
          else if bool_decide (MachineID p = machineID ∧ RackName p = rackName) then inr (Some p) else inl LMismatch
      end
  end.

(** ** Lemmas *)

(** Whatever is at the path has been synced. *)
Definition synced (d : disk) : Prop := ∀ f, saved d = Some f → durable f = true.

Lemma cleanup_saved a d : saved (cleanup a d) = saved d.
Proof. unfold cleanup. by destruct (a_remove a). Qed.

Lemma saves_states a p d d' : d' ∈ (Save a p d).1 →
  saved d' = saved d ∨ (Save a p d).2 = true ∧ ∃ q x, p = Some q ∧ encode (withoutSpecs q) = Some x ∧ saved d' = Some (mkFile x true).
Proof.
  assert (∀ l (P : Prop), Forall (λ e, saved e = saved d) l → d' ∈ l → saved d' = saved d ∨ P) as Hl.
  { intros l P HF Hin. left. by apply (proj1 (Forall_forall _ l) HF d'). }
  unfold Save. destruct p as [p|]; [|apply Hl; by repeat constructor].
  destruct (bool_decide _); [apply Hl; by repeat constructor|]. destruct (encode _) as [x|] eqn:Ex; [|apply Hl; by repeat constructor].
  destruct (a_mkdir a); [|apply Hl; by repeat constructor]. destruct (a_create a); [|apply Hl; by repeat constructor].
  destruct (a_chmod a); [|apply Hl; repeat constructor; by rewrite ?cleanup_saved].
  destruct (a_write a); [apply Hl; repeat constructor; by rewrite ?cleanup_saved|].
  destruct (a_sync a); [|apply Hl; repeat constructor; by rewrite ?cleanup_saved].
  destruct (a_close a); [|apply Hl; repeat constructor; by rewrite ?cleanup_saved].
  destruct (a_rename a); [|apply Hl; repeat constructor; by rewrite ?cleanup_saved].
  intros Hin. apply (elem_of_app [d; withTemp "" false d; withTemp x false d; withTemp x true d]) in Hin as [Hin|Hin].
  - revert Hin. apply Hl. by repeat constructor.
  - apply list_elem_of_singleton in Hin as ->. right. split; [done|]. by exists p, x.
Qed.

Lemma save_result a p d :
  saved (afterSave a p d) =
    if (Save a p d).2 then (λ x, mkFile x true) <$> (p ≫= λ q, encode (withoutSpecs q)) else saved d.
Proof.
  unfold afterSave, Save, cleanup. destruct p as [p|]; [|done]. cbn [mbind option_bind].
  destruct (bool_decide _); [done|]. destruct (encode _) as [x|]; [|done].
  repeat case_match; cbn in *; try done.
Qed.

Lemma save_synced a p d : synced d → ∀ d', d' ∈ (Save a p d).1 → synced d'.
Proof.
  intros Hs d' Hd f Hf. destruct (saves_states _ _ _ _ Hd) as [E|(_ & q & x & _ & _ & E)]; rewrite E in Hf; [by apply Hs|].
  by injection Hf as <-.
Qed.

Lemma after_in a p d : afterSave a p d ∈ (Save a p d).1.
Proof.
  unfold afterSave. assert ((Save a p d).1 ≠ []) as Hn by (unfold Save; by repeat case_match).
  apply list_elem_of_In. destruct (exists_last Hn) as (l & x & ->). rewrite last_last. apply in_or_app. right. by left.
Qed.

(** Save is atomic: at whatever point it stops, by a failure or by a crash that
    spoils everything not synced, the Rack finds its previous copy or the new one, never a
    part of either; when Save reports success the new one is in place, and when it reports
    an error the previous one. *)
Theorem save_atomic a p d garble :
  synced d →
  (∀ d', d' ∈ (Save a p d).1 → ∀ readable m r,
     Load readable (crash garble d') m r = Load readable d m r ∨
     Load readable (crash garble d') m r = Load readable (afterSave a p d) m r) ∧
  (∀ q x, p = Some q → (Save a p d).2 = true → encode (withoutSpecs q) = Some x →
     Load true (afterSave a p d) (MachineID q) (RackName q) = inr (Some (withoutSpecs q))) ∧
  ((Save a p d).2 = false → saved (afterSave a p d) = saved d).
Proof.
  intros Hs. assert (∀ d d', saved d' = saved d → synced d → ∀ b m r, Load b (crash garble d') m r = Load b d m r) as Hc.
  { intros e e' E He b m r. unfold Load, crash. cbn. rewrite E. destruct (saved e) as [f|] eqn:Ef; [|done]. cbn.
    unfold crashFile. by rewrite (He f Ef). }
  split_and!.
  - intros d' Hd b m r. destruct (saves_states _ _ _ _ Hd) as [E|(Hok & q & x & -> & Hx & E)]; [left; by apply Hc|right].
    apply Hc; [|by apply (save_synced a (Some q) d Hs), after_in]. rewrite save_result, Hok. cbn. by rewrite Hx.
  - intros q x -> Hok Hx. unfold Load. rewrite save_result, Hok. cbn. rewrite Hx. cbn. rewrite (decode_encode _ _ Hx).
    assert (Scenario_ q ≠ "") as Hn. { intros E. unfold Save in Hok. by rewrite bool_decide_eq_true_2 in Hok. }
    cbn. by rewrite bool_decide_eq_false_2, bool_decide_eq_true_2.
  - intros Hf. by rewrite save_result, Hf.
Qed.
End store.
