(* ===== verification/RackSession.v ===== *)
(** * The scenario of a Rack session (cmd/fluxrig/commands/run_resume.go, run.go)

    Three ways a Rack comes to run a scenario: the Mixer sends one, the Rack resumes its
    own copy when its session starts, or a pending Rack is promoted and applies the one it
    cached.  The handler of updates runs under the session's mutex, beside the main
    goroutine, which first resumes and then serves promotions; a promotion takes several
    steps and not the mutex.  What the Manager makes of a scenario, whether the YAML parses
    and whether it needs the bus are parameters. *)
From S2P Require Import Prelude Scenario Controller RackScenario.
Open Scope Z_scope.

(** ApplyScenario: applied, or failed with the gears stopped, or failed before it touched
    the gears that run. *)
Inductive applyAnswer := Applied | FailedStopped | FailedKept.

(** A promotion: none, about to apply the cached scenario, about to save its payload. *)
Inductive promotion := PIdle | PApply | PSave.

(** [s_last]: [lastScenario] and [pendingPayload].  [s_running]: the YAML the Manager runs.
    [s_booted]: the session is past its resume.  History: [s_newest], the last update the
    session accepted; [s_broken], the last apply failed; [s_good], the payloads that were
    applied; [s_applies], the number of calls of ApplyScenario. *)
Record session := mkSession {
  s_disk : disk; s_store : bool; s_mixerSent : bool; s_resumed : option string;
  s_active : bool; s_started : bool; s_last : option ScenarioPayload; s_running : option string;
  s_booted : bool; s_promo : promotion;
  s_newest : option ScenarioPayload; s_broken : bool; s_good : list ScenarioPayload; s_applies : nat }.

Section session.
Context `{PayloadCodec} (parses needsBus : string → bool).
Context (machineID : Z) (rackName : string).

(** The Manager's answer to [yaml]. *)
Definition apply (ans : applyAnswer) (yaml : string) (s : session) : session :=
  mkSession (s_disk s) (s_store s) (s_mixerSent s) (s_resumed s) (s_active s) (s_started s) (s_last s)
    match ans with Applied => Some yaml | FailedStopped => None | FailedKept => s_running s end
    (s_booted s) (s_promo s) (s_newest s)
    match ans with Applied => false | _ => true end (s_good s) (S (s_applies s)).

(** [scenarioSession.save]: nothing without a store; a failure leaves the copy. *)
Definition save (a : answers) (p : ScenarioPayload) (s : session) : session :=
  if s_store s then
    mkSession (afterSave a (Some p) (s_disk s)) (s_store s) (s_mixerSent s) (s_resumed s) (s_active s) (s_started s) (s_last s)
      (s_running s) (s_booted s) (s_promo s) (s_newest s) (s_broken s) (s_good s) (s_applies s)
  else s.

(** [consumeResumed] *)
Definition consumeResumed (yaml : string) (s : session) : bool * session :=
  (bool_decide (s_resumed s = Some yaml),
   mkSession (s_disk s) (s_store s) true None (s_active s) (s_started s) (s_last s)
     (s_running s) (s_booted s) (s_promo s) (s_newest s) (s_broken s) (s_good s) (s_applies s)).

Definition with_flags (active started : bool) (promo : promotion) (s : session) : session :=
  mkSession (s_disk s) (s_store s) (s_mixerSent s) (s_resumed s) active started (s_last s)
    (s_running s) (s_booted s) promo (s_newest s) (s_broken s) (s_good s) (s_applies s).

(** History: the update was accepted, and the scenario it brought was applied. *)
Definition accepted (p : ScenarioPayload) (broken : bool) (s : session) : session :=
  mkSession (s_disk s) (s_store s) (s_mixerSent s) (s_resumed s) (s_active s) (s_started s) (s_last s)
    (s_running s) (s_booted s) (s_promo s) (Some p) broken (s_good s) (s_applies s).
Definition good (p : ScenarioPayload) (s : session) : session :=
  mkSession (s_disk s) (s_store s) (s_mixerSent s) (s_resumed s) (s_active s) (s_started s) (s_last s)
    (s_running s) (s_booted s) (s_promo s) (s_newest s) (s_broken s) (p :: s_good s) (s_applies s).
Definition cache (p : ScenarioPayload) (s : session) : session :=
  mkSession (s_disk s) (s_store s) (s_mixerSent s) (s_resumed s) (s_active s) (s_started s) (Some p)
    (s_running s) (s_booted s) (s_promo s) (s_newest s) (s_broken s) (s_good s) (s_applies s).

(** The handler of scenario updates; [p] is [None] when the payload does not parse,
    [specsOk] whether its specs could be filed.  The result: whether it returned nil (an
    error makes the bus deliver the update again). *)
Definition onUpdate (p : option ScenarioPayload) (specsOk : bool) (ans : applyAnswer) (a : answers) (s : session) : bool * session :=
  match p with
  | None => (false, s)
  | Some p =>
      if negb specsOk then (false, s)
      else if negb (parses (Scenario_ p)) then (false, s)
      else if s_active s then
        let '(same, s) := consumeResumed (Scenario_ p) s in
        if same then (true, accepted p false (with_flags (s_active s) true (s_promo s) s))
        else
          let s := apply ans (Scenario_ p) s in
          match ans with
          | Applied =>
              let s := with_flags (s_active s) true (s_promo s) s in
              (true, save a p (good p (accepted p false s)))
          | _ => (false, s)
          end
      else (true, accepted p (s_broken s) (cache p s))
  end.

(** [resumeLocalScenario]: the YAML applied, if any. *)
Definition resumeLocalScenario (withoutBus readable : bool) (ans : applyAnswer) (s : session) : option string * session :=
  if s_mixerSent s then (None, s)
  else match Load readable (s_disk s) machineID rackName with
  | inr (Some p) =>
      if negb (parses (Scenario_ p)) then (None, s)
      else if withoutBus && needsBus (Scenario_ p) then (None, s)
      else let s := apply ans (Scenario_ p) s in
           match ans with Applied => (Some (Scenario_ p), s) | _ => (None, s) end
  | _ => (None, s)
  end.

Definition with_resumed (y : option string) (s : session) : session :=
  mkSession (s_disk s) (s_store s) (s_mixerSent s) y (s_active s) (s_started s) (s_last s)
    (s_running s) (s_booted s) (s_promo s) (s_newest s) (s_broken s) (s_good s) (s_applies s).

(** [resume] ([withoutBus = false]) and [resumeWithoutBus]. *)
Definition resume (withoutBus readable : bool) (ans : applyAnswer) (s : session) : bool * session :=
  if negb (s_store s) then (false, s)
  else match s_resumed s with
  | Some _ => (withoutBus, s)
  | None =>
      match resumeLocalScenario withoutBus readable ans s with
      | (Some y, s) => (true, with_resumed (Some y) s)
      | (None, s) => (false, s)
      end
  end.

(** [reinitRuntime] for another identity: the Manager is shut down and replaced. *)
Definition stopRuntime (s : session) : session :=
  mkSession (s_disk s) (s_store s) (s_mixerSent s) (s_resumed s) (s_active s) (s_started s) (s_last s)
    None (s_booted s) (s_promo s) (s_newest s) true (s_good s) (s_applies s).

Definition boot (s : session) : session :=
  mkSession (s_disk s) (s_store s) (s_mixerSent s) (s_resumed s) (s_active s) (s_started s) (s_last s)
    (s_running s) true (s_promo s) (s_newest s) (s_broken s) (s_good s) (s_applies s).

(** A session that starts: [carried] keeps the Manager and the session's view of its
    scenario (the bus is back after a start without it), otherwise both are new. *)
Definition newSession (active carried : bool) (d : disk) (s : session) : session :=
  if carried
  then mkSession d (s_store s) (s_mixerSent s) (s_resumed s) active active None (s_running s) false PIdle None false (s_good s) (s_applies s)
  else mkSession d (s_store s) false None active active None None false PIdle None false (s_good s) (s_applies s).

Inductive sEvent :=
  | SUpdate (p : option ScenarioPayload) (specsOk : bool) (ans : applyAnswer) (a : answers)
  | SResume (withoutBus readable : bool) (ans : applyAnswer)
  | SReinit
  | SPromote (rotated : bool)
  | SPromoteApply (ans : applyAnswer)
  | SPromoteSave (a : answers)
  | SNewSession (active carried : bool) (garble : string → string).

Definition sStep (e : sEvent) (s : session) : option session :=
  match e with
  | SUpdate p specsOk ans a => Some (onUpdate p specsOk ans a s).2
  | SResume withoutBus readable ans =>
      if s_booted s then None
      else Some (boot (if s_active s
                       then let '(ok, s) := resume withoutBus readable ans s in with_flags (s_active s) (ok || s_started s) (s_promo s) s
                       else s))
  | SReinit => if s_booted s then None else Some (stopRuntime s)
  | SPromote rotated =>
      match s_promo s with
      | PIdle => if negb (s_booted s) then None
                 else if s_active s && s_started s then None
                 else let s := if rotated then stopRuntime s else s in
                      Some (with_flags true (s_started s) match s_last s with Some _ => PApply | None => PIdle end s)
      | _ => None
      end
  | SPromoteApply ans =>
      match s_promo s, s_last s with
      | PApply, Some p =>
          let s := apply ans (Scenario_ p) s in
          Some match ans with
               | Applied => with_flags (s_active s) true PSave (good p s)
               | _ => with_flags false false PIdle s
               end
      | _, _ => None
      end
  | SPromoteSave a =>
      match s_promo s, s_last s with
      | PSave, Some p => Some (with_flags true (s_started s) PIdle (save a p s))
      | _, _ => None
      end
  | SNewSession active carried garble => Some (newSession active carried (crash garble (s_disk s)) s)
  end.

(** [calm]: no update is handled between the steps of a promotion, and while a scenario
    resumed from the copy is marked as running no promotion applies another and the
    runtime is not replaced. *)
Definition calm (e : sEvent) (s : session) : bool :=
  match e, s_promo s with
  | SUpdate _ _ _ _, PIdle => true
  | SUpdate _ _ _ _, _ => false
  | SPromoteApply _, _ | SPromote true, _ | SReinit, _ => bool_decide (s_resumed s = None)
  | _, _ => true
  end.

Fixpoint sSteps (es : list sEvent) (s : session) : option session :=
  match es with [] => Some s | e :: es => match sStep e s with Some s' => sSteps es s' | None => None end end.

Fixpoint calmRun (es : list sEvent) (s : session) : bool :=
  match es with [] => true | e :: es => calm e s && match sStep e s with Some s' => calmRun es s' | None => true end end.

Definition firstSession (store active : bool) (d : disk) : session :=
  mkSession d store false None active active None None false PIdle None false [] 0.
End session.
