(* ===== verification/RackSessionSpec.v ===== *)
(** * What a Rack runs, and what its copy holds

    Invariants of the sessions of RackSession.v.  Outside the cases the examples show, an active Rack runs the newest scenario it accepted;
    and in every run the copy on disk is one that was applied. *)
From S2P Require Import Prelude Scenario Controller RackScenario RackSession.
Open Scope Z_scope.

Section spec.
Context `{PayloadCodec} (parses needsBus : string → bool) (machineID : Z) (rackName : string).
Abbreviation sStep := (sStep parses needsBus machineID rackName).
Abbreviation sSteps := (sSteps parses needsBus machineID rackName).
Abbreviation calmRun := (calmRun parses needsBus machineID rackName).

(** The newest update is what runs. *)
Definition current (s : session) : Prop :=
  s_broken s = false → ∀ p, s_newest s = Some p → s_running s = Some (Scenario_ p).

Record ok (s : session) : Prop := mkOk {
  k_promo : match s_promo s with
            | PIdle => (s_active s = true → current s ∧ (s_started s = true ∨ s_last s = None)) ∧
                       (s_active s = false → s_newest s = s_last s)
            | PApply => s_booted s = true ∧ s_newest s = s_last s ∧ s_active s = true
            | PSave => s_booted s = true ∧ s_newest s = s_last s ∧ s_active s = true ∧ s_started s = true ∧ current s
            end;
  k_boot : s_booted s = false → s_active s = true → is_Some (s_newest s) → s_mixerSent s = true;
  k_resumed y : s_resumed s = Some y → s_running s = Some y }.

Lemma first_ok store active d : ok (firstSession store active d).
Proof.
  split; cbn; [|by intros _ _ [? [=]]|done]. split; [|done]. intros ->. split; [done|by left].
Qed.

Lemma save_ok a p s : ok (save a p s) ↔ ok s.
Proof. unfold save. destruct (s_store s); [|done]. split; intros [K1 K2 K3]; by split. Qed.

Lemma update_ok p b ans a s : s_promo s = PIdle → ok s → ok (onUpdate parses p b ans a s).2.
Proof.
  intros Hp K. unfold onUpdate. destruct p as [p|]; [|exact K]. destruct b; [|exact K].
  destruct (parses (Scenario_ p)); [|exact K]. cbn [negb]. destruct K as [K1 K2 K3]. rewrite Hp in K1. destruct K1 as [K1 K1'].
  destruct (s_active s) eqn:Ea.
  - destruct (K1 eq_refl) as [Hc Hst]. cbn. case_bool_decide as Hr.
    + cbn. split; cbn; rewrite ?Hp, ?Ea; [|done|done]. split; [|done]. intros _. split; [|by left]. intros _ q [= <-]. cbn. by apply K3.
    + destruct ans; cbn.
      * apply save_ok. split; cbn; rewrite ?Hp, ?Ea; [|done|done]. split; [|done]. intros _. split; [|by left]. by intros _ q [= <-].
      * split; cbn; rewrite ?Hp, ?Ea; [|done|done]. split; [|done]. intros _. by split.
      * split; cbn; rewrite ?Hp, ?Ea; [|done|done]. split; [|done]. intros _. by split.
  - split; cbn; rewrite ?Hp, ?Ea; [by split|done|done].
Qed.

(** What a resume does to the fields the invariant reads. *)
Lemma resume_effect wb rd ans s b s' : resume parses needsBus machineID rackName wb rd ans s = (b, s') →
  s_promo s' = s_promo s ∧ s_active s' = s_active s ∧ s_started s' = s_started s ∧ s_last s' = s_last s ∧
  s_newest s' = s_newest s ∧ s_booted s' = s_booted s ∧ s_good s' = s_good s ∧ s_disk s' = s_disk s ∧
  s_mixerSent s' = s_mixerSent s ∧
  (s_mixerSent s = true → s' = s) ∧ (∀ y, s_resumed s' = Some y → s_resumed s = Some y ∧ s' = s ∨ s_running s' = Some y).
Proof.
  unfold resume, resumeLocalScenario. destruct (s_store s); cbn [negb]; [|intros [= <- <-]; naive_solver].
  destruct (s_resumed s) as [y|] eqn:Er; [intros [= <- <-]; split_and!; try done; intros z Hz; left; by rewrite Hz in Er|].
  destruct (s_mixerSent s) eqn:Em; [intros [= <- <-]; split_and!; try done; by rewrite Er|].
  destruct (Load rd (s_disk s) machineID rackName) as [e|[p|]]; try (intros [= <- <-]; split_and!; try done; by rewrite Er).
  destruct (parses (Scenario_ p)); cbn [negb]; [|intros [= <- <-]; split_and!; try done; by rewrite Er].
  destruct (wb && needsBus (Scenario_ p)); [intros [= <- <-]; split_and!; try done; by rewrite Er|].
  destruct ans; intros [= <- <-]; cbn; split_and!; try done; rewrite ?Er; try done. intros y [= <-]. by right.
Qed.

Lemma resume_ok wb rd ans s : s_booted s = false → ok s →
  ok (boot (if s_active s
            then let '(b, s) := resume parses needsBus machineID rackName wb rd ans s in with_flags (s_active s) (b || s_started s) (s_promo s) s
            else s)).
Proof.
  intros Hb [K1 K2 K3]. destruct (s_active s) eqn:Ea; [|split; cbn; [|done|done]].
  2:{ destruct (s_promo s) eqn:Ep; cbn; rewrite ?Ea in *; naive_solver. }
  destruct (resume _ _ _ _ wb rd ans s) as [b s'] eqn:E.
  destruct (resume_effect _ _ _ _ _ _ E) as (E1 & E2 & E3 & E4 & E5 & E6 & _ & _ & E7 & Hm & Hr).
  split; cbn; [|done|]; rewrite ?E1, ?E2, ?E3, ?E4, ?E5.
  - destruct (s_promo s) eqn:Ep; rewrite ?Hb in *; [|by destruct K1..]. destruct K1 as [K1 K1']. rewrite Ea in *.
    split; [|done]. intros _. destruct (K1 eq_refl) as [Hc Hs]. split.
    + intros Hbr p Hn. cbn in *. rewrite E5 in Hn. rewrite Hm in * by (apply K2; eauto). by apply Hc.
    + destruct Hs as [->|?]; [left; by rewrite orb_true_r|by right].
  - intros y Hy. destruct (Hr y Hy) as [[? ->]|?]; [by apply K3|done].
Qed.

Lemma stop_ok s : s_resumed s = None → ok s → ok (stopRuntime s).
Proof.
  intros Hr [K1 K2 K3]. split; cbn; [|done|by rewrite Hr]. destruct (s_promo s); [|done|].
  - destruct K1 as [K1 K1']. split; [|done]. intros Ha. split; [done|by apply K1].
  - by destruct K1 as (? & ? & ? & ? & _).
Qed.

Lemma step_ok e s s' : calm e s = true → ok s → sStep e s = Some s' → ok s'.
Proof.
  intros Hc K. destruct e as [p b ans a|wb rd ans| |ro|ans|a|ac ca g]; unfold RackSession.sStep.
  - intros [= <-]. apply update_ok; [|done]. cbn in Hc. by destruct (s_promo s).
  - destruct (s_booted s) eqn:Hb; [done|]. intros [= <-]. by apply resume_ok.
  - destruct (s_booted s) eqn:Hb; [done|]. intros [= <-]. apply stop_ok; [|done]. cbn in Hc. by apply bool_decide_eq_true in Hc.
  - destruct (s_promo s) eqn:Ep; try done. destruct (s_booted s) eqn:Hb; [|done]. cbn [negb].
    destruct (s_active s && s_started s) eqn:Ea; [done|]. intros [= <-].
    assert (ok (if ro then stopRuntime s else s)) as K'.
    { destruct ro; [|done]. apply stop_ok; [|done]. cbn in Hc. by apply bool_decide_eq_true in Hc. }
    assert (s_started (if ro then stopRuntime s else s) = s_started s ∧ s_active (if ro then stopRuntime s else s) = s_active s ∧
      s_booted (if ro then stopRuntime s else s) = s_booted s ∧ s_promo (if ro then stopRuntime s else s) = s_promo s) as (E1 & E2 & E3 & E4)
      by (by destruct ro).
    revert Ep Hb Ea K'. rewrite <-E1, <-E2, <-E3, <-E4. clear. generalize (if ro then stopRuntime s else s). clear s. intros s Ep Hb Ea [K1 K2 K3].
    rewrite Ep in K1. destruct K1 as [K1 K1'].
    split; cbn; [|by rewrite Hb|done]. destruct (s_last s) as [q|] eqn:El; cbn.
    + split_and!; try done. destruct (s_active s) eqn:Ea'; [|by rewrite K1'].
      destruct (K1 eq_refl) as [_ [Hs|?]]; [by rewrite Hs in Ea|done].
    + split; [|done]. intros _. split; [|by right]. destruct (s_active s) eqn:Ea'; [by apply K1|]. intros _ p. cbn. by rewrite K1'.
  - destruct K as [K1 K2 K3]. cbn in Hc. destruct (s_promo s) eqn:Ep; try done. destruct (s_last s) as [q|] eqn:El; [|done].
    apply bool_decide_eq_true in Hc. destruct K1 as (Hb & Hn & Ha). intros [= <-].
    destruct ans; (split; cbn; [|by rewrite Hb|by rewrite Hc]).
    + split_and!; [done|by rewrite El|done|done|]. intros _ p. cbn. by rewrite Hn; intros [= <-].
    + split; [done|]. intros _. by rewrite El.
    + split; [done|]. intros _. by rewrite El.
  - destruct K as [K1 K2 K3]. destruct (s_promo s) eqn:Ep; try done. destruct (s_last s) as [q|] eqn:El; [|done].
    intros [= <-]. destruct K1 as (Hb & Hn & Ha & Hs & Hcur). assert (ok (with_flags true (s_started s) PIdle s)) as K.
    { split; cbn; [|by rewrite Hb|done]. split; [|done]. intros _. split; [done|by left]. }
    unfold save. destruct (s_store s); [|done]. destruct K as [Q1 Q2 Q3]. by split.
  - intros [= <-]. unfold newSession. destruct K as [K1 K2 K3].
    destruct ca; (split; cbn; [|by intros _ _ [? [=]]|done]); (split; [|done]); intros ->; (split; [done|by left]).
Qed.

Lemma steps_ok es s s' : calmRun es s = true → ok s → sSteps es s = Some s' → ok s'.
Proof.
  revert s. induction es as [|e es IH]; intros s Hc K; cbn [RackSession.sSteps RackSession.calmRun] in *; [by intros [= <-]|].
  apply andb_true_iff in Hc as [Hc Hr]. destruct (sStep e s) as [s1|] eqn:E; [|done]. apply IH; [done|]. by apply (step_ok e s).
Qed.

(** ** Theorems *)

(** an active Rack runs the newest scenario it accepted, whether it was sent while the
    Rack was active or cached before a promotion, and whatever copy it resumed or kept: a
    copy never lands on top of the Mixer's scenario, and a scenario that is already
    running is not started again.  Excepted are a failed apply or a replaced
    runtime since, and the cases that [calm] leaves out. *)
Theorem rack_runs_newest store active d es s p :
  sSteps es (firstSession store active d) = Some s → calmRun es (firstSession store active d) = true →
  s_promo s = PIdle → s_active s = true → s_broken s = false → s_newest s = Some p →
  s_running s = Some (Scenario_ p) ∧
  ∀ wb rd ans, s_booted s = false → (resume parses needsBus machineID rackName wb rd ans s).2 = s.
Proof.
  intros Hs Hc Hp Ha Hb Hn. destruct (steps_ok _ _ _ Hc (first_ok store active d) Hs) as [K1 K2 K3]. rewrite Hp in K1.
  split; [by apply (proj1 (proj1 K1 Ha))|]. intros wb rd ans Hbo.
  destruct (resume _ _ _ _ wb rd ans s) as [b s'] eqn:E. destruct (resume_effect _ _ _ _ _ _ E) as (_&_&_&_&_&_&_&_&_&Hm&_).
  apply Hm, K2; [done|done|]. by rewrite Hn.
Qed.

(** ** The copy *)

Section copy.
Context (d0 : disk).

(** The file is the one the Rack began with, or holds a payload that was applied. *)
Definition copied (d : disk) (applied : list ScenarioPayload) : Prop :=
  saved d = saved d0 ∨
  ∃ q x, q ∈ applied ∧ encode (withoutSpecs q) = Some x ∧ saved d = Some (mkFile x true).

Record copy_ok (s : session) : Prop := mkCopyOk {
  c_synced : synced (s_disk s);
  c_copied : copied (s_disk s) (s_good s);
  c_promo : match s_promo s with
            | PIdle => True
            | PApply => s_active s = true
            | PSave => s_active s = true ∧ ∃ p, s_last s = Some p ∧ p ∈ s_good s
            end }.

Lemma copied_more d l p : copied d l → copied d (p :: l).
Proof. intros [?|(q & x & Hq & ?)]; [by left|right]. exists q, x. split; [by right|done]. Qed.

Lemma copied_saved a p d l : p ∈ l → copied d l → copied (afterSave a (Some p) d) l.
Proof.
  intros Hp Hc. destruct (saves_states a (Some p) d _ (after_in _ _ _)) as [E|(_ & q & x & [= <-] & Hx & E)].
  - unfold copied. by rewrite E.
  - right. by exists p, x.
Qed.

Lemma save_copy a p s : p ∈ s_good s → copy_ok s → copy_ok (save a p s).
Proof.
  intros Hp [C1 C2 C3]. unfold save. destruct (s_store s); [|done]. split; cbn; [|by apply copied_saved|done].
  by apply (save_synced a (Some p) (s_disk s)), after_in.
Qed.

Lemma update_copy p b ans a s : copy_ok s → copy_ok (onUpdate parses p b ans a s).2.
Proof.
  intros C. unfold onUpdate. destruct p as [p|]; [|exact C]. destruct b; [|exact C].
  destruct (parses (Scenario_ p)); [|exact C]. cbn [negb]. destruct C as [C1 C2 C3]. destruct (s_active s) eqn:Ea.
  - cbn. case_bool_decide; [by split; cbn; rewrite ?Ea|]. destruct ans; cbn; [|by split; cbn; rewrite ?Ea..].
    apply save_copy; [by left|]. split; cbn; [done|by apply copied_more|]. rewrite ?Ea.
    destruct (s_promo s); [done|done|]. destruct C3 as (_ & q & ? & ?). split; [done|]. exists q. split; [done|by right].
  - split; cbn; [done|done|]. rewrite Ea. destruct (s_promo s); [done|by destruct C3..].
Qed.

Lemma step_copy e s s' : copy_ok s → sStep e s = Some s' → copy_ok s'.
Proof.
  intros C. destruct e as [p b ans a|wb rd ans| |ro|ans|a|ac ca g]; unfold RackSession.sStep.
  - intros [= <-]. by apply update_copy.
  - destruct (s_booted s); [done|]. intros [= <-]. destruct C as [C1 C2 C3]. destruct (s_active s) eqn:Ea.
    + destruct (resume _ _ _ _ wb rd ans s) as [b s'] eqn:E.
      destruct (resume_effect _ _ _ _ _ _ E) as (E1 & E2 & E3 & E4 & E5 & E6 & E7 & E8 & _).
      split; cbn; rewrite ?E8, ?E7, ?E1, ?E2, ?E4, ?Ea; done.
    + split; cbn; rewrite ?Ea; done.
  - destruct (s_booted s); [done|]. intros [= <-]. by destruct C.
  - destruct C as [C1 C2 C3]. destruct (s_promo s); try done. destruct (negb _); [done|]. destruct (_ && _); [done|].
    intros [= <-]. by destruct ro; split; cbn; destruct (s_last s).
  - destruct C as [C1 C2 C3]. destruct (s_promo s) eqn:Ep; try done. destruct (s_last s) as [q|] eqn:El; [|done]. intros [= <-].
    destruct ans; split; cbn; try done; [by apply copied_more|]. split; [done|]. exists q. rewrite El. split; [done|by left].
  - destruct C as [C1 C2 C3]. destruct (s_promo s) eqn:Ep; try done. destruct (s_last s) as [q|] eqn:El; [|done]. intros [= <-].
    destruct C3 as (Ha & q' & [= <-] & Hq). assert (copy_ok (save a q s)) as [Q1 Q2 _]; [|by split; unfold save in *; destruct (s_store s)].
    apply save_copy; [done|]. split; [done|done|]. rewrite Ep. eauto.
  - intros [= <-]. destruct C as [C1 C2 C3].
    assert (saved (crash g (s_disk s)) = saved (s_disk s)) as E.
    { unfold crash. cbn. destruct (saved (s_disk s)) as [f|] eqn:Ef; [|done]. cbn. unfold crashFile. by rewrite (C1 f Ef). }
    unfold newSession. destruct ca; split; cbn -[crash]; try done; unfold synced, copied; by rewrite E.
Qed.

Lemma steps_copy es s s' : copy_ok s → sSteps es s = Some s' → copy_ok s'.
Proof.
  revert s. induction es as [|e es IH]; intros s C; cbn [RackSession.sSteps] in *; [by intros [= <-]|].
  destruct (sStep e s) as [s1|] eqn:E; [|done]. apply IH. by apply (step_copy e s).
Qed.
End copy.

(** what a Rack can resume was applied: over any sequence of updates, promotions,
    resumes, failed saves, crashes and restarts, in any interleaving, the copy a Rack
    loads is the one it began with or a payload, less its specs, that this Rack applied;
    and it was projected for this Rack. *)
Theorem copy_was_applied store active d es s rd p :
  synced d → sSteps es (firstSession store active d) = Some s →
  Load rd (s_disk s) machineID rackName = inr (Some p) →
  MachineID p = machineID ∧ RackName p = rackName ∧
  (Load rd d machineID rackName = inr (Some p) ∨ ∃ q, q ∈ s_good s ∧ p = withoutSpecs q).
Proof.
  intros Hd Hs Hl. assert (copy_ok d (firstSession store active d)) as C0 by (split; cbn; [done|by left|done]).
  destruct (steps_copy _ _ _ _ C0 Hs) as [_ [E|(q & x & Hq & Hx & E)] _].
  - unfold Load in *. rewrite <-E. destruct (saved (s_disk s)) as [f|]; [|done]. destruct rd; [|done]. cbn [negb] in *.
    destruct (decode (content f)) as [p'|]; [|done]. destruct (bool_decide (Scenario_ p' = "")); [done|].
    case_bool_decide as Hm; [|done]. injection Hl as <-. destruct Hm. eauto.
  - unfold Load in Hl. rewrite E in Hl. destruct rd; [|done]. cbn in Hl. rewrite (decode_encode _ _ Hx) in Hl. cbn in Hl.
    destruct (bool_decide (Scenario_ q = "")); [done|]. case_bool_decide as Hm; [|done]. injection Hl as <-. destruct Hm. eauto 10.
Qed.
End spec.

(** ** Runs *)
Module RackExample.

#[local] Instance artifact_eq_dec : EqDecision SpecArtifact.
Proof. solve_decision. Defined.
#[local] Instance payload_eq_dec : EqDecision ScenarioPayload.
Proof. solve_decision. Defined.

(** Two payloads for the Rack edge, and a codec that knows them. *)
Definition one : ScenarioPayload := mkPayload "1" "shop" "edge" 7 "one" 0 [].
Definition two : ScenarioPayload := mkPayload "2" "shop" "edge" 7 "two" 0 [].

Definition enc (p : ScenarioPayload) : option string :=
  if bool_decide (p = one) then Some "1" else if bool_decide (p = two) then Some "2" else None.
Definition dec (x : string) : option ScenarioPayload :=
  if bool_decide (x = "1") then Some one else if bool_decide (x = "2") then Some two else None.

#[export] Instance codec : PayloadCodec.
Proof.
  refine {| encode := enc; decode := dec |}. intros p x. unfold enc, dec.
  case_bool_decide as E1; [subst; by intros [= <-]|]. case_bool_decide as E2; [subst; by intros [= <-]|done].
Defined.

Definition fine : answers := mkAnswers true true true None true true true true.
Definition anyYaml (_ : string) : bool := true.
Definition noBus (_ : string) : bool := false.
Definition blank : disk := mkDisk None None.
Definition holdsOne : disk := mkDisk (Some (mkFile "1" true)) None.

Abbreviation runR es s := (sSteps anyYaml noBus 7 "edge" es s).

(** A write that stops half way, and a crash that spoils what it left. *)
Lemma save_atomic_witness :
  (Save (mkAnswers true true true (Some 0%nat) true true true false) (Some two) holdsOne).2 = false ∧
  ∀ d', d' ∈ (Save (mkAnswers true true true (Some 0%nat) true true true false) (Some two) holdsOne).1 →
    Load true (crash (λ _, "?") d') 7 "edge" = inr (Some one).
Proof.
  split; [vm_compute; reflexivity|]. intros d' Hd.
  destruct (save_atomic (mkAnswers true true true (Some 0%nat) true true true false) (Some two) holdsOne (λ _, "?")) as (H & _).
  { intros f [= <-]. reflexivity. }
  destruct (H d' Hd true 7 "edge") as [E|E]; rewrite E; vm_compute; reflexivity.
Defined.

(** The Rack resumes its copy, and the Mixer sends a newer scenario. *)
Definition resumeThenUpdate : list sEvent := [SResume false true Applied; SUpdate (Some two) true Applied fine].
Definition updated : session := default (firstSession true true holdsOne) (runR resumeThenUpdate (firstSession true true holdsOne)).

Lemma rack_runs_newest_witness :
  runR resumeThenUpdate (firstSession true true holdsOne) = Some updated ∧ s_running updated = Some "two".
Proof.
  assert (runR resumeThenUpdate (firstSession true true holdsOne) = Some updated) as H by (vm_compute; reflexivity).
  split; [exact H|].
  exact (proj1 (rack_runs_newest anyYaml noBus 7 "edge" true true holdsOne resumeThenUpdate updated two H
    ltac:(vm_compute; reflexivity) ltac:(vm_compute; reflexivity) ltac:(vm_compute; reflexivity)
    ltac:(vm_compute; reflexivity) ltac:(vm_compute; reflexivity))).
Defined.

Lemma copy_was_applied_witness :
  Load true (s_disk updated) 7 "edge" = inr (Some two) ∧
  (Load true holdsOne 7 "edge" = inr (Some two) ∨ ∃ q, q ∈ s_good updated ∧ two = withoutSpecs q).
Proof.
  assert (runR resumeThenUpdate (firstSession true true holdsOne) = Some updated) as H by (vm_compute; reflexivity).
  assert (Load true (s_disk updated) 7 "edge" = inr (Some two)) as Hl by (vm_compute; reflexivity).
  split; [exact Hl|].
  refine (proj2 (proj2 (copy_was_applied anyYaml noBus 7 "edge" true true holdsOne resumeThenUpdate updated true two _ H Hl))).
  intros f [= <-]. reflexivity.
Defined.

(** A promotion does not take the mutex: an update handled between its decision to apply
    the cached scenario and the apply is overwritten by the older one, which is also what
    the copy then holds. *)
Definition overtaken : list sEvent :=
  [SResume false true Applied; SUpdate (Some one) true Applied fine; SPromote false;
   SUpdate (Some two) true Applied fine; SPromoteApply Applied; SPromoteSave fine].
Lemma promotion_lands_on_newer :
  ∃ s, runR overtaken (firstSession true false blank) = Some s ∧ s_newest s = Some two ∧ s_promo s = PIdle ∧
    s_broken s = false ∧ s_running s = Some "one" ∧ Load true (s_disk s) 7 "edge" = inr (Some one).
Proof. eexists. by vm_compute. Qed.

(** The mark of a resumed scenario outlives the gears: the bus comes back, the Rack's
    identity has changed and its runtime is replaced.  It neither resumes its copy, because
    the mark says it runs, nor applies the same scenario when the Mixer sends it. *)
Definition replaced : list sEvent :=
  [SResume true true Applied; SNewSession true true (λ x, x); SReinit; SResume false true Applied;
   SUpdate (Some one) true Applied fine].
Lemma replaced_runtime_stays_empty :
  ∃ s, runR replaced (firstSession true true holdsOne) = Some s ∧ s_newest s = Some one ∧ s_active s = true ∧
    s_running s = None.
Proof. eexists. by vm_compute. Qed.
End RackExample.
