(* ===== verification/ControlPlane.v ===== *)
(** * pkg/ctrl: commands between gears (late.go, nats.go)

    [LateControlPlane]: subscriptions that are made before there is a connection and
    attached when one is bound, commands in memory meanwhile.  A method under the mutex is
    one step; a Publish without a connection sends to the listeners it found after it gave
    up the mutex, one step each.  The connection's side is the table of live subscriptions
    (made by Subscribe, ended by Unsubscribe); whether a subscription can be made is an
    input.  Commands are opaque, and JSON is a parameter: a message decodes to one or not. *)
From S2P Require Import Prelude.
Open Scope nat_scope.

Section ctrl.
Context {Command : Type}.

(** The buffer of a listener's channel. *)
Definition queueSize : nat := 100.

(** [sub]: the subscription on the connection, once attached. *)
Record lateSub := mkLate { gearID : string; out : list Command; sub : option nat }.

(** A live subscription of a connection, and the listener its callback feeds. *)
Record natsSub := mkNatsSub { n_conn : nat; n_gear : string; n_target : nat }.

(** [subs]: the listeners kept, by address.  [calls]: Publishes under way in memory, with
    the listeners still to serve. *)
Record plane := mkPlane {
  nc : option nat; subs : list nat; objs : gmap nat lateSub; live : gmap nat natsSub; next : nat;
  calls : gmap nat (list nat * Command) }.

Definition setSub (a : nat) (x : option nat) (p : plane) : plane :=
  mkPlane (nc p) (subs p) (alter (λ s, mkLate (gearID s) (out s) x) a (objs p)) (live p) (next p) (calls p).

(** [ch <- cmd] in a select with a default: a full queue drops the command. *)
Definition send (a : nat) (c : Command) (p : plane) : bool * plane :=
  match objs p !! a with
  | Some s =>
      if length (out s) <? queueSize
      then (true, mkPlane (nc p) (subs p) (<[a := mkLate (gearID s) (out s ++ [c]) (sub s)]> (objs p)) (live p) (next p) (calls p))
      else (false, p)
  | None => (false, p)
  end.

(** [attach]: [subscribeInto] on the bound connection; [ok] is its answer. *)
Definition attach (ok : nat → bool) (a : nat) (p : plane) : plane :=
  match nc p, objs p !! a with
  | Some conn, Some s =>
      if ok a then
        mkPlane (nc p) (subs p) (<[a := mkLate (gearID s) (out s) (Some (next p))]> (objs p))
          (<[next p := mkNatsSub conn (gearID s) a]> (live p)) (S (next p)) (calls p)
      else p
  | _, _ => p
  end.

(** [s.sub.Unsubscribe()] and [s.sub = nil] *)
Definition detach (a : nat) (p : plane) : plane :=
  match objs p !! a ≫= sub with
  | Some i => setSub a None (mkPlane (nc p) (subs p) (objs p) (delete i (live p)) (next p) (calls p))
  | None => p
  end.

Definition attachMissing (ok : nat → bool) (a : nat) (p : plane) : plane :=
  match objs p !! a ≫= sub with Some _ => p | None => attach ok a p end.

Definition forAll (f : nat → plane → plane) (l : list nat) (p : plane) : plane := foldl (λ p a, f a p) p l.

Definition Bind (conn : option nat) (ok : nat → bool) (p : plane) : plane :=
  match conn with
  | None => p
  | Some c =>
      let p := if bool_decide (nc p = Some c) then p
               else forAll detach (subs p) (mkPlane (Some c) (subs p) (objs p) (live p) (next p) (calls p)) in
      forAll (attachMissing ok) (subs p) p
  end.

Definition Bound (p : plane) : bool := bool_decide (is_Some (nc p)).

Definition ofGear (g : string) (p : plane) (a : nat) : bool := bool_decide (gearID <$> objs p !! a = Some g).

(** [if s.sub != nil { s.sub.Unsubscribe() }] *)
Definition unsubscribe (a : nat) (p : plane) : plane :=
  match objs p !! a ≫= sub with
  | Some i => mkPlane (nc p) (subs p) (objs p) (delete i (live p)) (next p) (calls p)
  | None => p
  end.

(** The listeners of other gears are kept, in order. *)
Definition Release (g : string) (p : plane) : plane :=
  let gone := List.filter (ofGear g p) (subs p) in
  let kept := List.filter (λ a, negb (ofGear g p a)) (subs p) in
  let p := forAll unsubscribe gone p in
  mkPlane (nc p) kept (objs p) (live p) (next p) (calls p).

(** Publish up to the end of its critical section: over the connection, offline, or in
    memory to the listeners found. *)
Inductive pubResult := OverBus | Offline | InMemory (l : list nat).
Definition PublishStart (g : string) (p : plane) : pubResult :=
  match nc p with
  | Some _ => OverBus
  | None => match List.filter (ofGear g p) (subs p) with [] => Offline | l => InMemory l end
  end.

(** The new listener's address and the plane, or the error of [attach]. *)
Definition Subscribe (g : string) (ok : bool) (p : plane) : option (nat * plane) :=
  let a := next p in
  let p := mkPlane (nc p) (subs p) (<[a := mkLate g [] None]> (objs p)) (live p) (S a) (calls p) in
  match nc p with
  | Some _ => if ok then let p := attach (λ _, true) a p in
                         Some (a, mkPlane (nc p) (subs p ++ [a]) (objs p) (live p) (next p) (calls p))
              else None
  | None => Some (a, mkPlane (nc p) (subs p ++ [a]) (objs p) (live p) (next p) (calls p))
  end.

(** The callback of [subscribeInto] for a message that arrives on subscription [i], with
    the command it decodes to, if it does: whether a reply is sent to acknowledge it, and
    the plane. *)
Definition arrive (i : nat) (c : option Command) (wantsReply : bool) (p : plane) : bool * plane :=
  match live p !! i, c with
  | Some n, Some c => let '(queued, p) := send (n_target n) c p in (queued && wantsReply, p)
  | _, _ => (false, p)
  end.

(** A gear reads its channel. *)
Definition receive (a : nat) (p : plane) : option (Command * plane) :=
  match objs p !! a with
  | Some s =>
      match out s with
      | c :: q => Some (c, mkPlane (nc p) (subs p) (<[a := mkLate (gearID s) q (sub s)]> (objs p)) (live p) (next p) (calls p))
      | [] => None
      end
  | None => None
  end.

(** *** Steps *)
Inductive cEvent :=
  | CBind (conn : option nat) (ok : nat → bool) | CRelease (g : string) | CSubscribe (g : string) (ok : bool)
  | CPublish (k : nat) (g : string) (c : Command) | CSend (k : nat)
  | CArrive (i : nat) (c : option Command) (wantsReply : bool) | CRead (a : nat).

Definition cStep (e : cEvent) (p : plane) : option plane :=
  match e with
  | CBind conn ok => Some (Bind conn ok p)
  | CRelease g => Some (Release g p)
  | CSubscribe g ok => Some match Subscribe g ok p with Some (_, p) => p | None => p end
  | CPublish k g c =>
      match calls p !! k, PublishStart g p with
      | None, InMemory l => Some (mkPlane (nc p) (subs p) (objs p) (live p) (next p) (<[k := (l, c)]> (calls p)))
      | None, _ => Some p
      | Some _, _ => None
      end
  | CSend k =>
      match calls p !! k with
      | Some (a :: l, c) =>
          let p := (send a c p).2 in Some (mkPlane (nc p) (subs p) (objs p) (live p) (next p) (<[k := (l, c)]> (calls p)))
      | Some ([], _) => Some (mkPlane (nc p) (subs p) (objs p) (live p) (next p) (delete k (calls p)))
      | None => None
      end
  | CArrive i c r => Some (arrive i c r p).2
  | CRead a => snd <$> receive a p
  end.

Fixpoint cSteps (es : list cEvent) (p : plane) : option plane :=
  match es with [] => Some p | e :: es => match cStep e p with Some p' => cSteps es p' | None => None end end.

Definition newPlane : plane := mkPlane None [] ∅ ∅ 0 ∅.
End ctrl.

(** ** What the control plane promises *)

Section spec.
Context {Command : Type}.
Abbreviation plane := (@plane Command).
Implicit Types p : plane.

(** [C]: which connections a live subscription may be on. *)
Record inv (C : nat → Prop) p : Prop := mkInv {
  v_live i n : live p !! i = Some n →
    C (n_conn n) ∧ n_target n ∈ subs p ∧
    ∃ s, objs p !! n_target n = Some s ∧ gearID s = n_gear n ∧ sub s = Some i;
  v_sub a s i : a ∈ subs p → objs p !! a = Some s → sub s = Some i → ∃ c, live p !! i = Some (mkNatsSub c (gearID s) a);
  v_obj a : a ∈ subs p → is_Some (objs p !! a);
  v_fresh : (∀ a s, objs p !! a = Some s → a < next p) ∧ (∀ i n, live p !! i = Some n → i < next p);
  v_nodup : NoDup (subs p);
  v_queue a s : objs p !! a = Some s → length (out s) ≤ queueSize }.

Definition planeInv p : Prop := inv (λ c, nc p = Some c) p.

Lemma inv_mono (C D : nat → Prop) p : (∀ c, C c → D c) → inv C p → inv D p.
Proof. intros H [V1 V2 V3 V4 V5 V6]. split; try done. intros i n Hi. destruct (V1 i n Hi) as (? & ?). auto. Qed.

Lemma plane_new_inv : planeInv newPlane.
Proof. split; cbn; try done; [by intros a ?%not_elem_of_nil..|apply NoDup_nil_2]. Qed.

(** Only the queue of an object changes. *)
Lemma queue_inv C p a s q : objs p !! a = Some s → length q ≤ queueSize → inv C p →
  inv C (mkPlane (nc p) (subs p) (<[a := mkLate (gearID s) q (sub s)]> (objs p)) (live p) (next p) (calls p)).
Proof.
  intros Ha Hq [V1 V2 V3 [V4 V4'] V5 V6]. split; cbn.
  - intros i n Hi. destruct (V1 i n Hi) as (? & ? & s' & Hs & ? & ?). split_and!; [done|done|].
    destruct (decide (n_target n = a)) as [E|]; [|exists s'; by rewrite lookup_insert_ne].
    rewrite E in *. simplify_eq. eexists. by rewrite lookup_insert_eq.
  - intros b t i Hb. rewrite lookup_insert_Some. intros [[<- <-]|[? ?]]; [|by apply V2]. cbn. by apply V2.
  - intros b Hb. rewrite lookup_insert_is_Some'. right. by apply V3.
  - split; [|done]. intros b t. rewrite lookup_insert_Some. intros [[<- _]|[_ ?]]; eauto.
  - done.
  - intros b t. rewrite lookup_insert_Some. intros [[_ <-]|[_ ?]]; eauto.
Qed.

Lemma send_inv C a c p : inv C p → inv C (send a c p).2.
Proof.
  intros V. unfold send. destruct (objs p !! a) as [s|] eqn:E; [|done].
  destruct (Nat.ltb_spec (length (out s)) queueSize); [|done]. cbn. apply queue_inv; [done| |done].
  rewrite length_app. cbn. unfold queueSize in *. lia.
Qed.

Lemma send_frame a c p : nc (send a c p).2 = nc p ∧ subs (send a c p).2 = subs p ∧ live (send a c p).2 = live p.
Proof. unfold send. repeat case_match; by cbn. Qed.

(** *** Attaching and detaching *)

Lemma attach_inv ok a p : a ∈ subs p → objs p !! a ≫= sub = None → planeInv p → planeInv (attach ok a p).
Proof.
  intros Ha Hn V. unfold attach. destruct (nc p) as [conn|] eqn:Ec; [|exact V].
  destruct (objs p !! a) as [s|] eqn:Es; [|exact V]. destruct (ok a); [|exact V]. cbn in Hn.
  destruct V as [V1 V2 V3 [V4 V4'] V5 V6]. rewrite Ec in V1. split; cbn.
  - intros i n. rewrite lookup_insert_Some. intros [[<- <-]|[Hi Hl]]; cbn.
    + split_and!; [done|done|]. eexists. by rewrite lookup_insert_eq.
    + destruct (V1 i n Hl) as (? & ? & t & Ht & ? & Hs). split_and!; [done|done|]. exists t. rewrite lookup_insert_ne; [done|].
      intros E. rewrite <-E in Ht. simplify_eq.
  - intros b t i Hb. rewrite lookup_insert_Some. intros [[<- <-]|[Hne Hb']] Hs; cbn in *.
    + injection Hs as <-. exists conn. by rewrite lookup_insert_eq.
    + destruct (V2 b t i Hb Hb' Hs) as [c Hc]. exists c. rewrite lookup_insert_ne; [done|]. specialize (V4' _ _ Hc). lia.
  - intros b Hb. rewrite lookup_insert_is_Some'. right. by apply V3.
  - split; intros b t; rewrite lookup_insert_Some; intros [[<- _]|[_ Hb]]; [specialize (V4 _ _ Es); lia|specialize (V4 _ _ Hb); lia|lia|specialize (V4' _ _ Hb); lia].
  - done.
  - intros b t. rewrite lookup_insert_Some. intros [[_ <-]|[_ ?]]; cbn; eauto.
Qed.

Lemma attachMissing_inv ok a p : a ∈ subs p → planeInv p → planeInv (attachMissing ok a p).
Proof. intros Ha V. unfold attachMissing. destruct (objs p !! a ≫= sub) eqn:E; [done|]. by apply attach_inv. Qed.

Lemma attach_frame ok a p : subs (attachMissing ok a p) = subs p ∧ nc (attachMissing ok a p) = nc p.
Proof. unfold attachMissing, attach. by repeat case_match. Qed.

Lemma attachAll_inv ok l p : (∀ a, a ∈ l → a ∈ subs p) → planeInv p → planeInv (forAll (attachMissing ok) l p).
Proof.
  revert p. induction l as [|a l IH]; intros p Hl V; [done|]. cbn. apply IH.
  - intros b Hb. rewrite (proj1 (attach_frame ok a p)). apply Hl. by right.
  - apply attachMissing_inv; [apply Hl; by left|done].
Qed.

Lemma detach_inv C a p : a ∈ subs p → inv C p → inv C (detach a p).
Proof.
  intros Ha V. unfold detach. destruct (objs p !! a) as [s|] eqn:Es; [|done]. cbn. destruct (sub s) as [i|] eqn:Ei; [|done].
  destruct V as [V1 V2 V3 [V4 V4'] V5 V6]. destruct (V2 a s i Ha Es Ei) as [ca Hca]. unfold setSub. split; cbn.
  - intros j n. rewrite lookup_delete_Some. intros [Hj Hl]. destruct (V1 j n Hl) as (? & ? & t & Ht & ? & Hs).
    split_and!; [done|done|]. exists t. rewrite lookup_alter_ne; [done|]. intros E. rewrite <-E in Ht. simplify_eq. 
  - intros b t j Hb. rewrite lookup_alter_Some. intros [(<- & t' & _ & ->)|[Hne Hb']] Hs; [done|].
    destruct (V2 b t j Hb Hb' Hs) as [c Hc]. exists c. apply lookup_delete_Some. split; [|done]. intros ->. simplify_eq.
  - intros b Hb. rewrite lookup_alter_is_Some. by apply V3.
  - split; [|intros j n [_ ?]%lookup_delete_Some; eauto]. intros b t. rewrite lookup_alter_Some. intros [(<- & t' & ? & _)|[_ ?]]; eauto.
  - done.
  - intros b t. rewrite lookup_alter_Some. intros [(<- & t' & ? & ->)|[_ ?]]; cbn; eauto.
Qed.

Lemma detach_frame a p : subs (detach a p) = subs p ∧ nc (detach a p) = nc p.
Proof. unfold detach. by destruct (_ ≫= _). Qed.

(** A detached listener stays detached while others are. *)
Lemma detach_keeps a b p : objs p !! a ≫= sub = None → objs (detach b p) !! a ≫= sub = None.
Proof.
  intros Ha. unfold detach. destruct (objs p !! b ≫= sub); [|done]. cbn. destruct (decide (a = b)) as [->|Hne].
  - rewrite lookup_alter_eq. by destruct (objs p !! b).
  - by rewrite lookup_alter_ne.
Qed.
Lemma detach_done a p : objs (detach a p) !! a ≫= sub = None.
Proof. unfold detach. destruct (objs p !! a ≫= sub) eqn:E; [|done]. cbn. rewrite lookup_alter_eq. by destruct (objs p !! a). Qed.

Lemma detachAll C l p : (∀ a, a ∈ l → a ∈ subs p) → inv C p →
  inv C (forAll detach l p) ∧ subs (forAll detach l p) = subs p ∧ nc (forAll detach l p) = nc p ∧
  ∀ a, a ∈ l ∨ objs p !! a ≫= sub = None → objs (forAll detach l p) !! a ≫= sub = None.
Proof.
  revert p. induction l as [|b l IH]; intros p Hl V.
  { split_and!; try done. intros a [?%not_elem_of_nil|?]; done. }
  change (forAll detach (b :: l) p) with (forAll detach l (detach b p)). destruct (detach_frame b p) as [E1 E2]. destruct (IH (detach b p)) as (W1 & W2 & W3 & W4).
  - intros a Ha. rewrite E1. apply Hl. by right.
  - apply detach_inv; [apply Hl; by left|done].
  - rewrite W2, W3. split_and!; try done. intros a [[->|Ha]%elem_of_cons|Ha]; apply W4; [right; apply detach_done|by left|right; by apply detach_keeps].
Qed.

(** With every listener detached, nothing is live. *)
Lemma none_live C p : inv C p → (∀ a, a ∈ subs p → objs p !! a ≫= sub = None) → ∀ i, live p !! i = None.
Proof.
  intros V Hn i. destruct (live p !! i) as [n|] eqn:E; [|done]. destruct (v_live _ _ V i n E) as (_ & Hs & s & Ho & _ & Hi).
  specialize (Hn _ Hs). rewrite Ho in Hn. cbn in Hn. congruence.
Qed.

Lemma bind_inv conn ok p : planeInv p → planeInv (Bind conn ok p).
Proof.
  intros V. unfold Bind. destruct conn as [c|]; [|done]. case_bool_decide as Hc; [by apply attachAll_inv|].
  set (p1 := mkPlane (Some c) (subs p) (objs p) (live p) (next p) (calls p)).
  assert (inv (λ _, True) p1) as V1. { apply (inv_mono _ (λ _, True)) in V; [|done]. destruct V. by split. }
  destruct (detachAll _ (subs p) p1 (λ a Ha, Ha) V1) as (W1 & W2 & W3 & W4).
  apply attachAll_inv; [done|]. pose proof (none_live _ _ W1) as Hl. rewrite W2 in Hl.
  assert (∀ i, live (forAll detach (subs p) p1) !! i = None) as Hnone by (apply Hl; intros a Ha; apply W4; by left).
  destruct W1 as [X1 X2 X3 X4 X5 X6]. split; try done. intros i n Hi. by rewrite Hnone in Hi.
Qed.

Lemma release_live (l : list nat) p i n :
  let p' := forAll unsubscribe l p in
  nc p' = nc p ∧ subs p' = subs p ∧ objs p' = objs p ∧ next p' = next p ∧ calls p' = calls p ∧
  (live p' !! i = Some n ↔ live p !! i = Some n ∧ ∀ a, a ∈ l → objs p !! a ≫= sub ≠ Some i).
Proof.
  cbn zeta. revert p. induction l as [|a l IH]; intros p.
  { split_and!; try done. split; [|by intros [? _]]. intros ?. split; [done|]. by intros b ?%not_elem_of_nil. }
  change (forAll unsubscribe (a :: l) p) with (forAll unsubscribe l (unsubscribe a p)). set (p1 := unsubscribe a p).
  assert (nc p1 = nc p ∧ subs p1 = subs p ∧ objs p1 = objs p ∧ next p1 = next p ∧ calls p1 = calls p) as (F1 & F2 & F3 & F4 & F5)
    by (unfold p1, unsubscribe; by destruct (objs p !! a ≫= sub)).
  assert (live p1 !! i = Some n ↔ live p !! i = Some n ∧ objs p !! a ≫= sub ≠ Some i) as Hl.
  { unfold p1, unsubscribe. destruct (objs p !! a ≫= sub) as [j|]; cbn; [|naive_solver]. rewrite lookup_delete_Some. naive_solver. }
  destruct (IH p1) as (E1 & E2 & E3 & E4 & E5 & E6). rewrite E1, E2, E3, E4, E5, E6, F1, F2, F3, F4, F5, Hl. split_and!; try done.
  setoid_rewrite elem_of_cons. naive_solver.
Qed.

Lemma release_inv g p : planeInv p → planeInv (Release g p).
Proof.
  intros [V1 V2 V3 [V4 V4'] V5 V6]. unfold Release.
  pose proof (release_live (List.filter (ofGear g p) (subs p)) p) as R. cbn zeta in *. set (p' := forAll _ _ p) in *.
  destruct (R 0 (mkNatsSub 0 "" 0)) as (F1 & F2 & F3 & F4 & F5 & _).
  assert (∀ i n, live p' !! i = Some n ↔ live p !! i = Some n ∧ ∀ a, a ∈ List.filter (ofGear g p) (subs p) → objs p !! a ≫= sub ≠ Some i) as Hl by (intros i n; apply R).
  clear R. assert (∀ a, a ∈ List.filter (λ a, negb (ofGear g p a)) (subs p) → a ∈ subs p ∧ ofGear g p a = false) as Hk.
  { intros a [Ha Hg%negb_true_iff]%list_elem_of_In%filter_In. split; [by apply list_elem_of_In|done]. }
  split; cbn; rewrite ?F3, ?F1, ?F4.
  - intros i n [Hi Hno]%Hl. destruct (V1 i n Hi) as (? & Hs & s & Ho & Hg & Hsub). split_and!; [done| |eauto].
    apply list_elem_of_In, filter_In. split; [by apply list_elem_of_In|]. destruct (ofGear g p (n_target n)) eqn:Eg; [|done].
    destruct (Hno (n_target n)); [|by rewrite Ho]. apply list_elem_of_In, filter_In. split; [by apply list_elem_of_In|done].
  - intros a s i [Ha Hg]%Hk Ho Hi. destruct (V2 a s i Ha Ho Hi) as [c Hc]. exists c. apply Hl. split; [done|].
    intros b [Hb Hgb]%list_elem_of_In%filter_In Hbi. destruct (objs p !! b) as [t|] eqn:Et; [|done]. cbn in Hbi.
    destruct (V2 b t i) as [c' Hc']; [by apply list_elem_of_In|done|done|]. simplify_eq. congruence.
  - intros a [Ha _]%Hk. by apply V3.
  - split; [done|]. intros i n [Hi _]%Hl. eauto.
  - apply NoDup_ListNoDup, List.NoDup_filter, NoDup_ListNoDup. done.
  - done.
Qed.

Lemma plane_subscribe_inv g ok p a p' : planeInv p → Subscribe g ok p = Some (a, p') → planeInv p'.
Proof.
  intros V. unfold Subscribe. cbv zeta.
  set (p1 := mkPlane (nc p) (subs p ++ [next p]) (<[next p := mkLate g [] None]> (objs p)) (live p) (S (next p)) (calls p)).
  assert (planeInv p1) as V1.
  { destruct V as [V1 V2 V3 [V4 V4'] V5 V6].
    assert (next p ∉ subs p) as Hf. { intros Ha. destruct (V3 _ Ha) as [s Hs]. specialize (V4 _ _ Hs). lia. }
    split; cbn.
    - intros i n Hi. destruct (V1 i n Hi) as (? & Hs & s & Ho & ? & ?). split_and!; [done|apply elem_of_app; by left|].
      exists s. rewrite lookup_insert_ne; [done|]. by intros E; rewrite <-E in Hs.
    - intros b s i Hb. rewrite lookup_insert_Some. intros [[<- <-]|[Hne Ho]]; [done|]. apply V2; [|done].
      apply elem_of_app in Hb as [?|Hb%list_elem_of_singleton]; [done|congruence].
    - intros b [Hb|Hb%list_elem_of_singleton]%elem_of_app; rewrite lookup_insert_is_Some'; [right; by apply V3|by left].
    - split; [|intros i n Hi; specialize (V4' _ _ Hi); lia]. intros b s. rewrite lookup_insert_Some.
      intros [[<- _]|[_ Ho]]; [lia|specialize (V4 _ _ Ho); lia].
    - apply NoDup_app. split_and!; [done| |apply NoDup_singleton]. intros b Hb Hn%list_elem_of_singleton. by subst.
    - intros b s. rewrite lookup_insert_Some. intros [[_ <-]|[_ Ho]]; [cbn; lia|eauto]. }
  destruct (nc p) as [c|] eqn:Ec; cbn; [|intros [= <- <-]; by subst p1]. destruct ok; [|done].
  pose proof (attach_inv (λ _, true) (next p) p1) as Ha. unfold attach in *. subst p1. cbn in *. rewrite lookup_insert_eq in *. cbn in *.
  intros [= <- <-]. apply Ha; [|done|done]. apply elem_of_app; right. by left.
Qed.

Lemma calls_inv p k : planeInv p → planeInv (mkPlane (nc p) (subs p) (objs p) (live p) (next p) k).
Proof. intros []. by split. Qed.

Lemma cStep_inv e p p' : planeInv p → cStep e p = Some p' → planeInv p'.
Proof.
  intros V. destruct e as [conn ok|g|g ok|k g c|k|i c r|a]; cbn [cStep].
  - intros [= <-]. by apply bind_inv.
  - intros [= <-]. by apply release_inv.
  - intros [= <-]. destruct (Subscribe g ok p) as [[a p1]|] eqn:E; [|done]. by apply (plane_subscribe_inv g ok p a).
  - destruct (calls p !! k); [done|]. destruct (PublishStart g p); intros [= <-]; [done|done|by apply calls_inv].
  - destruct (calls p !! k) as [[[|a l] c]|]; [|cbv zeta|done]; intros [= <-]; [by apply calls_inv|].
    apply calls_inv. unfold planeInv. destruct (send_frame a c p) as (-> & _). by apply send_inv.
  - intros [= <-]. unfold arrive. destruct (live p !! i) as [n|]; [|done]. destruct c as [c|]; [|done]. destruct (send (n_target n) c p) as [b p1] eqn:E. cbn.
    pose proof (send_frame (n_target n) c p) as F. pose proof (send_inv (λ x, nc p = Some x) (n_target n) c p V) as W. rewrite E in F, W. cbn in *.
    unfold planeInv. by destruct F as (-> & _).
  - unfold receive. destruct (objs p !! a) as [s|] eqn:E; [|done]. destruct (out s) as [|c q] eqn:Eq; [done|]. intros [= <-].
    apply queue_inv; [done| |done]. pose proof (v_queue _ _ V a s E) as Hq. rewrite Eq in Hq. cbn in Hq. lia.
Qed.

Lemma cSteps_inv es p p' : planeInv p → cSteps es p = Some p' → planeInv p'.
Proof.
  revert p. induction es as [|e es IH]; intros p V; cbn; [by intros [= <-]|].
  destruct (cStep e p) as [p1|] eqn:E; [|done]. apply IH. by apply (cStep_inv e p).
Qed.

(** *** Binding attaches everyone *)

Definition attached p (a : nat) : Prop := is_Some (objs p !! a ≫= sub).

Lemma attach_keeps ok a b p : attached p a → attached (attachMissing ok b p) a.
Proof.
  unfold attached, attachMissing, attach. intros Ha. destruct (objs p !! b ≫= sub) eqn:Eb; [done|].
  destruct (nc p); [|done]. destruct (objs p !! b) as [s|] eqn:Es; [|done]. destruct (ok b); [|done]. cbn.
  destruct (decide (a = b)) as [->|]; [by rewrite lookup_insert_eq|by rewrite lookup_insert_ne].
Qed.

Lemma attachAll_done ok l p : is_Some (nc p) → (∀ a, a ∈ l → ok a = true ∧ is_Some (objs p !! a)) →
  ∀ a, a ∈ l ∨ attached p a → attached (forAll (attachMissing ok) l p) a.
Proof.
  revert p. induction l as [|b l IH]; intros p Hc Hl a Ha; [by destruct Ha as [?%not_elem_of_nil|?]|].
  change (forAll (attachMissing ok) (b :: l) p) with (forAll (attachMissing ok) l (attachMissing ok b p)).
  apply IH.
  - by rewrite (proj2 (attach_frame ok b p)).
  - intros x Hx. destruct (Hl x) as [? Ho]; [by right|]. split; [done|]. unfold attachMissing, attach. repeat case_match; cbn; try done.
    rewrite lookup_insert_is_Some'. by right.
  - destruct Ha as [[->|Ha]%elem_of_cons|Ha]; [right|by left|right; by apply attach_keeps].
    destruct (Hl b) as [Hok [s Hs]]; [by left|]. unfold attached, attachMissing, attach. destruct Hc as [c Hc].
    rewrite Hs. cbn. destruct (sub s) eqn:E; [by rewrite Hs; cbn; rewrite E|]. rewrite Hc, Hok. cbn. by rewrite lookup_insert_eq.
Qed.

Lemma attachAll_frame ok l p : subs (forAll (attachMissing ok) l p) = subs p ∧ nc (forAll (attachMissing ok) l p) = nc p.
Proof.
  revert p. induction l as [|a l IH]; intros p; [done|].
  change (forAll (attachMissing ok) (a :: l) p) with (forAll (attachMissing ok) l (attachMissing ok a p)).
  destruct (IH (attachMissing ok a p)) as [-> ->]. apply attach_frame.
Qed.

Lemma bind_attaches c ok p : planeInv p → (∀ a, a ∈ subs p → ok a = true) →
  subs (Bind (Some c) ok p) = subs p ∧ nc (Bind (Some c) ok p) = Some c ∧ ∀ a, a ∈ subs p → attached (Bind (Some c) ok p) a.
Proof.
  intros V Hok. cbn [Bind]. case_bool_decide as Hc.
  - destruct (attachAll_frame ok (subs p) p) as [-> ->]. split_and!; [done|done|]. intros a Ha. apply attachAll_done; [by rewrite Hc| |by left].
    intros b Hb. split; [by apply Hok|by apply (v_obj _ _ V)].
  - set (p1 := mkPlane (Some c) (subs p) (objs p) (live p) (next p) (calls p)).
    assert (inv (λ _, True) p1) as V1. { apply (inv_mono _ (λ _, True)) in V; [|done]. destruct V. by split. }
    destruct (detachAll _ (subs p) p1 (λ a Ha, Ha) V1) as (W1 & W2 & W3 & _).
    destruct (attachAll_frame ok (subs (forAll detach (subs p) p1)) (forAll detach (subs p) p1)) as [-> ->]. rewrite W2, W3.
    split_and!; [done|done|]. intros a Ha. apply attachAll_done; [by rewrite W3| |by left].
    intros b Hb. split; [by apply Hok|]. apply (v_obj _ _ W1). by rewrite W2.
Qed.

(** over any interleaving of gears, connections and commands: a live subscription is
    on the bound connection and feeds a listener that is kept, for its own gear, and no
    two feed the same listener, so a command sent over the connection reaches a listener
    at most once; once Bind could make its subscriptions, every listener is attached to
    the connection; a released gear hears nothing; and a command is acknowledged exactly
    when it was queued for a listener. *)
Theorem listeners_exact es p :
  cSteps es newPlane = Some p →
  (∀ i n, live p !! i = Some n → nc p = Some (n_conn n) ∧ n_target n ∈ subs p ∧ ofGear (n_gear n) p (n_target n) = true) ∧
  (∀ i j n n', live p !! i = Some n → live p !! j = Some n' → n_target n = n_target n' → i = j) ∧
  (∀ c ok, (∀ a, a ∈ subs p → ok a = true) → ∀ a, a ∈ subs p →
     ∃ i g, live (Bind (Some c) ok p) !! i = Some (mkNatsSub c g a)) ∧
  (∀ g i n, live (Release g p) !! i = Some n → n_gear n ≠ g) ∧
  (∀ i cmd, (arrive i (Some cmd) true p).1 = true ↔
     ∃ n s, live p !! i = Some n ∧ objs p !! n_target n = Some s ∧ length (out s) < queueSize).
Proof.
  intros Hs. pose proof (cSteps_inv _ _ _ plane_new_inv Hs) as V. split_and!.
  - intros i n Hi. destruct (v_live _ _ V i n Hi) as (? & ? & s & Ho & Hg & _). split_and!; [done|done|].
    unfold ofGear. rewrite Ho. cbn. by rewrite Hg, bool_decide_eq_true_2.
  - intros i j n n' Hi Hj E. destruct (v_live _ _ V i n Hi) as (_ & _ & s & Ho & _ & E1).
    destruct (v_live _ _ V j n' Hj) as (_ & _ & s' & Ho' & _ & E2). rewrite E in Ho. congruence.
  - intros c ok Hok a Ha. destruct (bind_attaches c ok p V Hok) as (E1 & E2 & H). destruct (H a Ha) as [i Hi].
    pose proof (bind_inv (Some c) ok p V) as W. destruct (objs (Bind (Some c) ok p) !! a) as [s|] eqn:Eo; [|done]. cbn in Hi.
    destruct (v_sub _ _ W a s i) as [c' Hl]; [by rewrite E1|done|done|]. exists i, (gearID s).
    destruct (v_live _ _ W _ _ Hl) as (Hc & _). cbv beta in Hc. rewrite E2 in Hc. cbn in Hc. by injection Hc as <-.
  - intros g i n Hi En. pose proof (release_inv g p V) as W. destruct (v_live _ _ W i n Hi) as (_ & Ht & s & Ho & Hg & _).
    cbn in Ht. apply list_elem_of_In, filter_In in Ht as [_ Ht%negb_true_iff].
    destruct (release_live (List.filter (ofGear g p) (subs p)) p 0 (mkNatsSub 0 "" 0)) as (_ & _ & F3 & _).
    unfold Release in Ho. cbn in Ho, F3. rewrite F3 in Ho. unfold ofGear in Ht. rewrite Ho in Ht. cbn in Ht. subst g.
    rewrite Hg in Ht. by rewrite bool_decide_eq_true_2 in Ht.
  - intros i cmd. unfold arrive, send. destruct (live p !! i) as [n|] eqn:El; [|naive_solver].
    destruct (objs p !! n_target n) as [s|] eqn:Eo; [|cbn; naive_solver].
    destruct (Nat.ltb_spec (length (out s)) queueSize) as [Hlt|Hge].
    + split; [intros _; by exists n, s|done].
    + split; [done|]. intros (n' & s' & ? & ? & ?). simplify_eq. lia.
Qed.
End spec.

(** A gear subscribes before the connection is there; the connection comes. *)
Module ControlExample.
Definition late : list (@cEvent string) := [CSubscribe "conductor" true; CPublish 0 "conductor" "link.down"; CSend 0; CSend 0; CBind (Some 1) (λ _, true)].
Definition bound : @plane string := default newPlane (cSteps late newPlane).

Lemma listeners_exact_witness :
  cSteps late newPlane = Some bound ∧ live bound !! 1 = Some (mkNatsSub 1 "conductor" 0) ∧ 0 ∈ subs bound ∧
  out <$> objs bound !! 0 = Some ["link.down"].
Proof.
  assert (cSteps late newPlane = Some bound) as H by (vm_compute; reflexivity).
  assert (live bound !! 1 = Some (mkNatsSub 1 "conductor" 0)) as Hl by (vm_compute; reflexivity).
  split; [exact H|]. split; [exact Hl|]. split; [|vm_compute; reflexivity].
  destruct (listeners_exact late bound H) as (Hlive & _). exact (proj1 (proj2 (Hlive 1 _ Hl))).
Defined.
End ControlExample.
