(* ===== verification/Codec.v ===== *)
(** * iso8583/codec/gear.go: the codec gear

    [Process] with its direction, error and validation modes, [decode], [encode], the
    subject the spec's rules are applied to, and the small functions around them.  The
    ISO 8583 library is the class [Iso8583]: a packed message, its fields and what the
    calls return.  A call that may panic says so in its result ([res]): [decode] recovers
    panics, [encode] does not.  Logging and telemetry are left out ([traceFields] is kept
    for what it prints of a secure field); a Go map is ranged over in some order, which
    is an argument. *)
From Stdlib Require Import Ascii.
From stdpp Require Import sorting.
From S2P Require Import Prelude Utf8 Bytes Keys Tree When SdlCycles Sdl SdlValidate FluxMsg MsgValidate.
Open Scope Z_scope.

(** What a call of the library returns. *)
Inductive res (A : Type) := Ok (a : A) | Err (e : string) | Panic (p : string).
Arguments Ok {A} a.
Arguments Err {A} e.
Arguments Panic {A} p.

Inductive fieldType := TString | TNumeric | TComposite | TOther.

(** [field.Spec]; the prefix is kept as what [Inspect] returns. *)
Record FieldSpec := mkFieldSpec { sp_Length : Z; sp_Pad : option (string → Z → string); sp_Pref : option string }.

(** The library, for the compiled spec of one gear.  The maps it returns are listed in
    the order the range over them visits. *)
Class Iso8583 := {
  Message : Type;
  IsoField : Type;
  NewMessage : option Message;
  Unpack : Message → string → res Message;
  IsoString : Message → Z → res string;
  IsoBytes : Message → Z → res string;
  GetField : Message → Z → option IsoField;
  IsoBitmap : Message → option (Z → bool);
  UnknownTags : Message → list (string * IsoField);
  SetField : Message → Z → string → Message * res unit;
  BinaryField : Message → Z → string → Message * res unit;
  Pack : Message → res string;
  typeOf : IsoField → fieldType;
  specOf : IsoField → option FieldSpec;
  fieldString : IsoField → res string;
  fieldBytes : IsoField → res string;
  GetSubfields : IsoField → list (string * option IsoField) }.

(** The part of [FieldMeta] that names the contract. *)
Record Contract := mkContract { SpecHash : string; SpecID : string; SpecVersion : string; Protocol : string }.

Record Gear := mkGear {
  g_name : string; g_direction : string; g_onError : string; g_validation : string;
  g_validator : option Validator; g_contract : Contract; g_meta : FieldMeta }.

(** ** Helpers *)

Fixpoint HasSuffix (s suffix : string) : bool :=
  String.eqb s suffix || match s with String _ r => HasSuffix r suffix | EmptyString => false end.

Section lib.
Context `{Iso8583}.

(** [sdl.FixedWidth] *)
Definition FixedWidth (f : option IsoField) (v : string) : string :=
  match f with
  | None => v
  | Some f =>
      match typeOf f with
      | TString | TNumeric =>
          match specOf f with
          | None => v
          | Some sp =>
              match sp_Pad sp, sp_Pref sp with
              | Some pad, Some pref =>
                  if sp_Length sp <=? 0 then v
                  else if negb (HasSuffix pref ".Fixed") || (sp_Length sp <=? len v) then v
                  else pad v (sp_Length sp)
              | _, _ => v
              end
          end
      | _ => v
      end
  end.

(** [storable]; a failed [Bytes] leaves the text. *)
Definition storable (v : string) (raw : res string) : val :=
  match raw with
  | Ok b => if ValidString v then VStr v else VBytes b
  | _ => VStr v
  end.

(** [for len(mti) < 4 { mti = "0" + mti }] on a text that is not empty. *)
Definition padMTI (mti : string) : string :=
  match mti with
  | "" => ""
  | _ => Nat.iter (4 - String.length mti) (String "0") mti
  end.

Definition fieldKey (i : Z) : string := "iso8583.field." +:+ pretty i.
Definition subKeyOf (i : Z) (sub : string) : string := fieldKey i +:+ "." +:+ sub.
Definition unknownTagsKey : string := "iso8583.unknown_tags".

(** [for i := lo; i <= 128; i++] *)
Definition fieldRange (lo : nat) : list Z := Z.of_nat <$> seq lo (129 - lo).

(** [_ = msg.Set(key, x)] for each pair: an error is ignored, a panic stops. *)
Fixpoint setAll (h : heap) (m : FluxMsg) (l : list (string * val)) : heap * res unit :=
  match l with
  | [] => (h, Ok ())
  | (k, x) :: l =>
      match Set_ h m k x with
      | (SetPanic, h) => (h, Panic "assignment to entry in nil map")
      | (_, h) => setAll h m l
      end
  end.

(** ** decode *)

Section decode.
Context (meta : FieldMeta) (m : FluxMsg) (iso : Message).

(** The function literal of one subfield; its own recovery drops a panic. *)
Definition decodeSubfield (i : Z) (h : heap) (sub : string * option IsoField) : heap :=
  match sub.2 with
  | None => h
  | Some f =>
      match specOf f with
      | None => h
      | Some _ =>
          match fieldString f, fieldBytes f with
          | Ok s, Ok raw =>
              let stored := storable (FixedWidth (Some f) s) (Ok raw) in
              (setAll h m ((subKeyOf i sub.1, stored) ::
                 match SubAliases meta !! i ≫= (.!! sub.1) with Some a => [(a, stored)] | None => [] end)).1
          | _, _ => h
          end
      end
  end.

Definition decodeSubfields (i : Z) (h : heap) : heap :=
  match GetField iso i with
  | Some f => match typeOf f with TComposite => foldl (decodeSubfield i) h (GetSubfields f) | _ => h end
  | None => h
  end.

(** One turn of the loop: whether the field landed. *)
Definition decodeField (bit : Z → bool) (h : heap) (i : Z) : heap * res bool :=
  if (0 <? i) && negb (bit i) then (h, Ok false) else
  match IsoString iso i with
  | Panic p => (h, Panic p)
  | Err _ => (h, Ok false)
  | Ok v =>
      match IsoBytes iso i with
      | Panic p => (h, Panic p)
      | raw =>
          let stored := storable (FixedWidth (GetField iso i) v) raw in
          match setAll h m (match Aliases meta !! i with Some a => [(a, stored)] | None => [] end ++ [(fieldKey i, stored)]) with
          | (h, Panic p) => (h, Panic p)
          | (h, _) => (decodeSubfields i h, Ok true)
          end
      end
  end.

Fixpoint decodeFields (bit : Z → bool) (h : heap) (ids : list Z) (present : list Z) : heap * res (list Z) :=
  match ids with
  | [] => (h, Ok present)
  | i :: ids =>
      match decodeField bit h i with
      | (h, Panic p) => (h, Panic p)
      | (h, Ok true) => decodeFields bit h ids (present ++ [i])
      | (h, _) => decodeFields bit h ids present
      end
  end.

(** The tags whose bytes could be read; [Panic] when reading one panics. *)
Fixpoint readTags (l : list (string * IsoField)) : res (gmap string string) :=
  match l with
  | [] => Ok ∅
  | (path, f) :: l =>
      match fieldBytes f with
      | Panic p => Panic p
      | Err _ => readTags l
      | Ok raw => match readTags l with Ok t => Ok (<[path := raw]> t) | r => r end
      end
  end.

(** What [fmt] prints for a [[]byte] and for a [map[string][]byte], whose keys it sorts. *)
Definition sprintBytes (s : string) : string :=
  "[" +:+ String.concat " " ((λ z : Z, pretty z) <$> toBytes s) +:+ "]".
Definition sprintTags (t : gmap string string) : string :=
  "map[" +:+ String.concat " " ((λ k, k +:+ ":" +:+ sprintBytes (default "" (t !! k))) <$>
    merge_sort strLe (elements (dom t))) +:+ "]".

(** A [map[string][]byte] is neither of the two map types [Get] descends into. *)
Definition preserveUnknownTags (h : heap) : heap * res unit :=
  match readTags (UnknownTags iso) with
  | Panic p => (h, Panic p)
  | Ok t => if bool_decide (t = ∅) then (h, Ok ()) else setAll h m [(unknownTagsKey, VOther (sprintTags t))]
  | Err e => (h, Err e)
  end.
End decode.

(** [decode]: an error, or the MTI and the fields that landed. *)
Definition recovered (p : string) : string := "panic during decode: " +:+ p.

Definition decode (meta : FieldMeta) (h : heap) (m : FluxMsg) : heap * (string + string * list Z) :=
  match NewMessage with
  | None => (h, inl "failed to create isoMsg from moovSpec")
  | Some fresh =>
      match Unpack fresh (RawPayload m) with
      | Err e => (h, inl ("unpack failed: " +:+ e))
      | Panic p => (h, inl ("unpack failed: panic during unpack: " +:+ p))
      | Ok iso =>
          match IsoString iso 0 with
          | Panic p => (h, inl (recovered p))
          | r =>
              let mti := padMTI (FixedWidth (GetField iso 0) (match r with Ok s => s | _ => "" end)) in
              match IsoBitmap iso with
              | None => (h, inr (mti, []))
              | Some bit =>
                  match decodeFields meta m iso bit h (fieldRange 0) [] with
                  | (h, Panic p) => (h, inl (recovered p))
                  | (h, Err e) => (h, inl e)
                  | (h, Ok present) =>
                      match preserveUnknownTags m iso h with
                      | (h, Panic p) => (h, inl (recovered p))
                      | (h, _) => (h, inr (mti, present))
                      end
                  end
              end
          end
      end
  end.

(** ** encode *)

Context (sprint : heap → val → string).

(** [fmt.Sprintf("%v", v)] *)
Definition Sprintf_v (h : heap) (v : val) : string :=
  match v with VBytes b => sprintBytes b | _ => FieldToKeyPart sprint h v end.

(** Setting one field from a value of [Data]: bytes as such, anything else as text. *)
Definition putValue (h : heap) (iso : Message) (i : Z) (v : val) : Message * res unit :=
  match v with
  | VBytes raw => BinaryField iso i raw
  | _ => SetField iso i (Sprintf_v h v)
  end.

Section encode.
Context (h : heap) (m : FluxMsg).

(** The loop over the aliases, in the order of the range. *)
Fixpoint encodeAliases (l : list (Z * string)) (iso : Message) (present : list Z) : res (Message * list Z) :=
  match l with
  | [] => Ok (iso, present)
  | (id, alias) :: l =>
      if id =? 0 then encodeAliases l iso present else
      match Get h m alias with
      | None => encodeAliases l iso present
      | Some v =>
          match putValue h iso id v with
          | (iso, Ok _) => encodeAliases l iso (present ++ [id])
          | (_, Err e) => Err ("failed to set " +:+ (match v with VBytes _ => "raw " | _ => "" end) +:+ "field " +:+ pretty id +:+ " (" +:+ alias +:+ "): " +:+ e)
          | (_, Panic p) => Panic p
          end
      end
  end.

(** The loop over the raw fields; a nil bitmap panics. *)
Fixpoint encodeRaw (ids : list Z) (iso : Message) (present : list Z) : res (Message * list Z) :=
  match ids with
  | [] => Ok (iso, present)
  | i :: ids =>
      match IsoBitmap iso with
      | None => Panic "nil bitmap"
      | Some bit =>
          if bit i then encodeRaw ids iso present else
          match Get h m (fieldKey i) with
          | None => encodeRaw ids iso present
          | Some v =>
              match putValue h iso i v with
              | (iso, Ok _) => encodeRaw ids iso (present ++ [i])
              | (_, Err e) => Err ("failed to set raw field " +:+ pretty i +:+ ": " +:+ e)
              | (_, Panic p) => Panic p
              end
          end
      end
  end.

Definition mtiOf : string := default "" (metaOf h m !! "iso8583.mti").

(** The message to pack. *)
Definition assemble (range : list (Z * string)) : res (Message * list Z) :=
  match NewMessage with
  | None => Panic "nil message"
  | Some fresh =>
      let start :=
        if bool_decide (mtiOf = "") then Ok (fresh, [])
        else match SetField fresh 0 mtiOf with (_, Panic p) => Panic p | (iso, _) => Ok (iso, [0]) end in
      match start with
      | Panic p => Panic p
      | Err e => Err e
      | Ok (iso, present) =>
          match encodeAliases range iso present with
          | Ok (iso, present) => encodeRaw (fieldRange 2) iso present
          | r => r
          end
      end
  end.
End encode.

(** [msg.RawPayload = packed] *)
Definition setPayload (m : FluxMsg) (p : string) : FluxMsg :=
  mkFluxMsg (FluxID m) (RefFluxID m) (TraceID m) (SrcGearID m) (Metadata m) (Data m) (Flags m) p (Path m) (TSInit m).
Definition storePayload (h : heap) (l : loc) (m : FluxMsg) (p : string) : heap := setMsgs (<[l := setPayload m p]> (msgs h)) h.

(** [encode]: the heap with the payload stored, or the error; [None] is a panic. *)
Definition encode (range : list (Z * string)) (h : heap) (l : loc) (m : FluxMsg) : option (heap * (string + string * list Z)) :=
  match assemble h m range with
  | Panic _ => None
  | Err e => Some (h, inl e)
  | Ok (iso, present) =>
      match Pack iso with
      | Panic _ => None
      | Err e => Some (h, inl ("pack failed: " +:+ e))
      | Ok packed => Some (storePayload h l m packed, inr (mtiOf h m, present))
      end
  end.

(** ** The subject of the rules (subject.go) *)

Definition subjectField (h : heap) (m : FluxMsg) (de : Z) (subs : list string) : option string :=
  let key := if bool_decide (subs = []) then fieldKey de else fieldKey de +:+ "." +:+ String.concat "." subs in
  match Get h m key with
  | None => None
  | Some (VBytes b) => Some b
  | Some (VStr s) => Some s
  | Some v => Some (Sprintf_v h v)
  end.

Definition subject (h : heap) (m : FluxMsg) (mti : string) : Subject := mkSubject mti (subjectField h m).

(** ** Process *)

(** The text of an error: of the library or the codec, or of a rule. *)
Inductive procErr := ECodec (text : string) | ERejection (v : Violation).

Section process.
Context {F : Type} (ParseFloat : string → option F) (feq flt fle : F → F → bool).
(** [v.String()], whose reason the model of the rules leaves out. *)
Context (violationText : Violation → string).

(** [firstRejection]; [vs] is not empty. *)
Definition firstRejection (vs : list Violation) : option Violation :=
  match List.find (λ v, bool_decide (v_Severity v = SeverityReject)) vs with
  | Some v => Some v
  | None => hd_error vs
  end.

(** [applyRules] on the message: the metadata it leaves, and the rejection. *)
Definition noteViolations (g : Gear) (h : heap) (m : FluxMsg) (vs : list Violation) : option (heap * option procErr) :=
  h ← putMeta h m "codec.violations" (Itoa (length vs));
  Some (h, if bool_decide (g_validation g = "enforce") && Rejects vs then ERejection <$> firstRejection vs else None).

Definition judge (g : Gear) (h : heap) (m : FluxMsg) (mti : string) : option (heap * option procErr) :=
  match g_validator g with
  | None => Some (h, None)
  | Some v =>
      match SdlValidate.Validate ParseFloat feq flt fle v (subject h m mti) with
      | [] => Some (h, None)
      | vs => noteViolations g h m vs
      end
  end.

Definition errorText (g : Gear) (e : procErr) : string :=
  match e with
  | ECodec t => t
  | ERejection v => "message does not satisfy spec " +:+ SpecID (g_contract g) +:+ " " +:+ SpecVersion (g_contract g) +:+ ": " +:+ violationText v
  end.

Fixpoint putMetas (h : heap) (m : FluxMsg) (l : list (string * string)) : option heap :=
  match l with
  | [] => Some h
  | (k, v) :: l => match putMeta h m k v with Some h => putMetas h m l | None => None end
  end.

Definition reasonOf (e : procErr) : string := match e with ERejection _ => "violation" | ECodec _ => "codec_failed" end.

(** What [Process] returns and emits. *)
Record outcome := mkOutcome { o_heap : heap; o_msg : option loc; o_err : option procErr; o_emits : list (string * loc) }.

(** The switch on [on_error]. *)
Definition fail (g : Gear) (h : heap) (l : loc) (m : FluxMsg) (e : procErr) : option outcome :=
  if bool_decide (g_onError g = "drop") then Some (mkOutcome h None None [])
  else if bool_decide (g_onError g = "reject") then
    match putMetas h m [("error.reason", reasonOf e); ("error.gear", g_name g); ("error.message", errorText g e)] with
    | Some h => Some (mkOutcome h None None [("error", l)])
    | None => None
    end
  else Some (mkOutcome h (Some l) (Some e) []).

(** The metadata of a message that went through. *)
Definition stamps (g : Gear) (mti : string) : list (string * string) :=
  [("codec.spec_hash", SpecHash (g_contract g)); ("codec.spec_id", SpecID (g_contract g));
   ("codec.spec_version", SpecVersion (g_contract g)); ("codec.protocol", Protocol (g_contract g))] ++
  (if bool_decide (mti = "") then [] else
     ("iso8583.mti", mti) :: if 2 <=? len mti then [("iso8583.mti_class", String.substring 0 2 mti)] else []).

Definition directionOf (g : Gear) (m : FluxMsg) : string :=
  if bool_decide (g_direction g = "auto") then if 0 <? len (RawPayload m) then "decode" else "encode" else g_direction g.

(** The decode or the encode. *)
Definition transcode (g : Gear) (range : list (Z * string)) (h : heap) (l : loc) (m : FluxMsg) : option (heap * (string + string * list Z)) :=
  if bool_decide (directionOf g m = "decode") then Some (decode (g_meta g) h m) else encode range h l m.

(** [Process] on the message at [l]; [None] is a panic (or no such message). *)
Definition Process (g : Gear) (range : list (Z * string)) (h : heap) (l : loc) : option outcome :=
  m ← msgs h !! l;
  match transcode g range h l m with
  | None => None
  | Some (h, inl e) => fail g h l m (ECodec e)
  | Some (h, inr (mti, _)) =>
      match judge g h m mti with
      | None => None
      | Some (h, Some e) => fail g h l m e
      | Some (h, None) => h ← putMetas h m (stamps g mti); Some (mkOutcome h (Some l) None [])
      end
  end.
End process.

(** ** The field dump *)

(** [maskValue] *)
Definition stars (n : nat) : string := Nat.iter n (String "*") "".
Definition maskValue (s : string) : string :=
  let n := String.length s in
  if (n <=? 10)%nat then stars n
  else String.substring 0 6 s +:+ stars (n - 10) +:+ String.substring (n - 4) 4 s.

(** [fmt.Sprintf("%03d", i)] of a field number *)
Definition pad3 (i : Z) : string := Nat.iter (3 - String.length (pretty i)) (String "0") (pretty i).

(** One turn of the loop of [traceFields]. *)
Definition traceField (meta : FieldMeta) (h : heap) (m : FluxMsg) (i : Z) : option string :=
  let v := match Get h m (fieldKey i) with
           | Some v => Some v
           | None => Aliases meta !! i ≫= Get h m
           end in
  match v with
  | None => None
  | Some v =>
      let display := Sprintf_v h v in
      let display := if bool_decide (i ∈ SecureIDs meta) then maskValue display else display in
      let label := match Aliases meta !! i with Some a => "(" +:+ a +:+ ")" | None => "" end in
      Some ("F" +:+ pad3 i +:+ label +:+ "=" +:+ display)
  end.

Definition traceFields (meta : FieldMeta) (h : heap) (m : FluxMsg) : list string := omap (traceField meta h m) (fieldRange 0).
End lib.

(** ** Loading the spec a scenario names *)

Definition isHex (s : string) : bool :=
  (32 <=? String.length s)%nat && forallb (λ b, ((48 <=? b) && (b <=? 57) || (97 <=? b) && (b <=? 102))%Z) (toBytes s).

Definition isSpecURN (ref : string) : bool :=
  if hasChar "/" ref || hasChar "\" ref || HasSuffix ref ".yaml" || HasSuffix ref ".yml" then false
  else hasChar ":" ref || isHex ref.

(** What a document compiles to. *)
Record Compiled := mkSpecDoc { c_contract : Contract; c_meta : FieldMeta; c_content : string }.

Inductive loadErr := ENoFile (ref : string) | ENoStore (ref : string) | EStore (ref : string) | ECompile (e : string).

Section load.
(** The files by their cleaned path, the store if there is one, the directory of a path
    and the compilation of a document against a directory. *)
Context (ReadFile : string → option string) (Dir : string → string).
Context (store : option (string → option string)).
Context (LoadSpecContent : string → string → string + Contract * FieldMeta).

Definition compileContent (content dir : string) : loadErr + Compiled :=
  match LoadSpecContent content dir with inl e => inl (ECompile e) | inr (c, mt) => inr (mkSpecDoc c mt content) end.

Definition readSpecFile (ref : string) : loadErr + Compiled :=
  match ReadFile ref with None => inl (ENoFile ref) | Some content => compileContent content (Dir ref) end.

Definition resolveSpec (ref : string) : loadErr + Compiled :=
  if negb (isSpecURN ref) then readSpecFile ref else
  match store with
  | None => inl (ENoStore ref)
  | Some Load => match Load ref with None => inl (EStore ref) | Some content => compileContent content "" end
  end.

Definition loadConfiguredSpec (ref : string) : loadErr + Compiled :=
  if negb (isSpecURN ref) then readSpecFile ref else resolveSpec ref.

(** ** Init *)

(** [config[k].(string)], empty when absent or of another type. *)
Definition cfgStr (cfg : gmap string val) (k : string) : string := match cfg !! k with Some (VStr s) => s | _ => "" end.
Definition orElse (s d : string) : string := if bool_decide (s = "") then d else s.

Inductive initErr := ENoSpecPath | ELoad (e : loadErr) | ESemantic | ERules (e : compileErr) | EUnknownValidation (v : string).

Definition Init (ParseSemantic : string → option Spec) (name : string) (cfg : gmap string val) : initErr + Gear :=
  let specPath := orElse (cfgStr cfg "spec_path") (cfgStr cfg "spec") in
  if bool_decide (specPath = "") then inl ENoSpecPath else
  match loadConfiguredSpec specPath with
  | inl e => inl (ELoad e)
  | inr c =>
      let direction := orElse (cfgStr cfg "direction") "auto" in
      let onError := orElse (cfgStr cfg "on_error") "drop" in
      let validation := orElse (cfgStr cfg "validation") "off" in
      let gear v := mkGear name direction onError validation v (c_contract c) (c_meta c) in
      if bool_decide (validation = "off") then inr (gear None)
      else if bool_decide (validation = "warn") || bool_decide (validation = "enforce") then
        match ParseSemantic (c_content c) with
        | None => inl ESemantic
        | Some s => match NewValidator s with inl e => inl (ERules e) | inr v => inr (gear (Some v)) end
        end
      else inl (EUnknownValidation validation)
  end.
End load.
