(* ===== verification/CodecSpec.v ===== *)
(** * iso8583/codec/gear.go: what a decode leaves in a message

    The keys a decode writes form a family of paths that do not get in each other's way
    when the spec's aliases are well named ([wellNamed]).  On a message whose data does
    not block them, a decode stores every field that landed under its raw key and its
    alias ([decode_exact]) and no subfield under a raw key ([subfields_unseen]); the
    values it stores are text or bytes ([decoded_text]). *)
From Stdlib Require Import Ascii.
From stdpp Require Import functions.
From S2P Require Import Prelude Utf8 Keys When SdlCycles Sdl FluxMsg MsgTree MsgValidate Codec.
Open Scope Z_scope.

(** ** Several writes into one message *)

Section writes.
Implicit Types (h : heap) (v x y : val) (l : loc) (ps qs : list string).

(** A map value with its object in the heap. *)
Definition mapAt h v : Prop := isMap v = true ∧ ∃ l o, vloc v = Some l ∧ objs h !! l = Some o ∧ kind_ok v o.

Lemma mapGet_mapAt h v p x : mapGet h v p = Some x → mapAt h v.
Proof. intros Hg. split; [by eapply isMap_loc|]. apply mapGet_child in Hg as (l & o & ? & ? & ? & _). eauto. Qed.

Lemma mapAt_put h v p x : mapAt h v → ∃ h', mapPut h v p x = Some h'.
Proof.
  intros (Hm & l & o & Hl & Ho & Hk). destruct v as [| | | | |[?|]|[?|]| |]; try done; simpl in *; simplify_eq;
    rewrite Ho; destruct o; try done; eauto.
Qed.

(** Nothing on the way to [ps] is a value that is no map. *)
Definition free h v ps : Prop :=
  mapAt h v ∧ ∀ qs r rest y, ps = qs ++ r :: rest → qs ≠ [] → getPath h v qs = Some y → mapAt h y.

Lemma free_below h v p q rest y : free h v (p :: q :: rest) → mapGet h v p = Some y → free h y (q :: rest).
Proof.
  intros [Hv Hf] Hy. assert (mapAt h y) as Hm by (by apply (Hf [p] q rest y)).
  split; [done|]. intros [|c qs] r rest' z E Hne Hg; [done|].
  apply (Hf (p :: c :: qs) r rest' z); [simpl; by rewrite E|done|]. rewrite getPath_cons, Hy, (proj1 Hm). exact Hg.
Qed.

(** A path is free below a map that was just created. *)
Lemma mapAt_objs h h' v : (∀ l o, vloc v = Some l → objs h !! l = Some o → ∃ o', objs h' !! l = Some o' ∧ (kind_ok v o → kind_ok v o')) →
  mapAt h v → mapAt h' v.
Proof. intros He (Hm & l & o & Hl & Ho & Hk). split; [done|]. destruct (He _ _ Hl Ho) as (o' & ? & ?). eauto 6. Qed.

Definition sameKind (o o' : obj) : Prop := ∀ v, kind_ok v o ↔ kind_ok v o'.

Lemma sameKind_of v o o' : kind_ok v o → kind_ok v o' → sameKind o o'.
Proof. intros H1 H2 w. destruct v, o, o'; try done; by destruct w. Qed.

(** Objects stay, and keep their kind. *)
Definition keeps h h' : Prop := ∀ l o, objs h !! l = Some o → ∃ o', objs h' !! l = Some o' ∧ sameKind o o'.

#[global] Instance keeps_refl : Reflexive keeps.
Proof. intros h l o Ho. exists o. by split. Qed.
#[global] Instance keeps_trans : Transitive keeps.
Proof.
  intros h1 h2 h3 H1 H2 l o Ho. destruct (H1 _ _ Ho) as (o2 & Ho2 & K1). destruct (H2 _ _ Ho2) as (o3 & Ho3 & K2).
  exists o3. split; [done|]. intros w. etrans; [apply K1|apply K2].
Qed.

Lemma keeps_mapAt h h' v : keeps h h' → mapAt h v → mapAt h' v.
Proof. intros Hk. apply mapAt_objs. intros l o _ Ho. destruct (Hk _ _ Ho) as (o' & ? & Hs). exists o'. split; [done|]. apply Hs. Qed.

Lemma mapPut_keeps h v p x h' : mapPut h v p x = Some h' → keeps h h'.
Proof.
  intros (l & o & o' & Hl & Ho & -> & K1 & K2 & _)%mapPut_spec l0 o0 H0. simpl.
  destruct (decide (l0 = l)) as [->|]; [|rewrite lookup_insert_ne by done; by exists o0].
  rewrite lookup_insert_eq. simplify_eq. exists o'. split; [done|]. by eapply sameKind_of.
Qed.

Lemma alloc_keeps h o : ok_heap h → keeps h (alloc o h).1.
Proof.
  intros Hok l o0 H0. simpl. rewrite lookup_insert_ne; [by exists o0|]. intros <-. apply (ok_dom _ Hok) in H0. lia.
Qed.

Lemma setPath_keeps h v ps x : ok_heap h → vlt (nxt h) v → keeps h (setPath h v ps x).2.
Proof.
  revert h v. induction ps as [|p [|q rest] IH]; intros h v Hok Hv; [done| |].
  - simpl. destruct (isMap v); [|done]. destruct (mapPut h v p x) eqn:E; [|done]. by eapply mapPut_keeps.
  - rewrite setPath_cons. destruct (isMap v); [|done]. destruct (mapGet h v p) as [y|] eqn:Hg.
    + destruct (isMap y); [|done]. apply IH; [done|]. by eapply closed_mapGet; [apply Hok| |].
    + destruct (alloc (OMapS ∅) h) as [h1 l] eqn:Ha. pose proof (alloc_keeps h (OMapS ∅) Hok) as K1. rewrite Ha in K1.
      pose proof (alloc_ok h (OMapS ∅) Hok) as Hok1. rewrite Ha in Hok1. simpl in K1, Hok1.
      unfold alloc in Ha. injection Ha as <- <-.
      destruct (mapPut _ v p _) as [h2|] eqn:Hp; [|done]. etrans; [exact K1|].
      etrans; [by eapply mapPut_keeps|].
      assert (ok_heap h2) as Hok2.
      { eapply mapPut_ok; [apply Hok1| |done]; [intros c [k Hk]; by rewrite lookup_empty in Hk|]. eapply vlt_ref; [done|]. simpl. lia. }
      apply IH; [done|]. apply mapPut_spec in Hp as (? & ? & ? & _ & _ & -> & _). eapply vlt_ref; [done|]. simpl. lia.
Qed.

Lemma empty_free h v ps : mapAt h v → (∀ p, mapGet h v p = None) → free h v ps.
Proof.
  intros Hv He. split; [done|]. intros [|p [|q qs]] r rest y _ Hne Hg; [done| |].
  - simpl in Hg. by rewrite He in Hg.
  - by rewrite getPath_cons, He in Hg.
Qed.

(** A free path can be written. *)
Lemma free_set h v ps x : ok_heap h → vlt (nxt h) v → ps ≠ [] → free h v ps → ∃ h', setPath h v ps x = (SetOk, h').
Proof.
  revert h v. induction ps as [|p [|q rest] IH]; intros h v Hok Hv Hne Hf; [done| |].
  - destruct Hf as [Hm _]. destruct (mapAt_put h v p x Hm) as [h' Hp]. simpl. rewrite (proj1 Hm), Hp. eauto.
  - rewrite setPath_cons. pose proof (proj1 Hf) as Hm. rewrite (proj1 Hm). destruct (mapGet h v p) as [y|] eqn:Hg.
    + assert (mapAt h y) as Hy by (by apply (proj2 Hf [p] q rest y)). rewrite (proj1 Hy).
      apply IH; [done| |done|by eapply free_below]. by eapply closed_mapGet; [apply Hok| |].
    + destruct (alloc (OMapS ∅) h) as [h1 l] eqn:Ha.
      assert (mapAt h1 v) as Hm1 by (eapply keeps_mapAt; [|exact Hm]; rewrite <-(f_equal fst Ha : _ = h1); by apply alloc_keeps).
      assert (ok_heap h1) as Hok1.
      { rewrite <-(f_equal fst Ha : _ = h1). apply alloc_ok; [done|]. intros c [k Hk]. by rewrite lookup_empty in Hk. }
      unfold alloc in Ha. injection Ha as <- <-.
      destruct (mapAt_put _ v p (VMapS (Some (nxt h))) Hm1) as [h2 Hp]. rewrite Hp.
      assert (ok_heap h2) as Hok2 by (eapply mapPut_ok; [done| |done]; eapply vlt_ref; [done|]; simpl; lia).
      pose proof (mapPut_spec _ _ _ _ _ Hp) as (lv & ? & ? & Hlv & _ & -> & _).
      assert (lv ≠ nxt h) as Hne' by (intros ->; specialize (Hv _ Hlv); lia).
      apply IH; [done|eapply vlt_ref; [done|]; simpl; lia|done|]. apply empty_free.
      * split; [done|]. exists (nxt h), (OMapS ∅). simpl. rewrite lookup_insert_ne by done. by rewrite lookup_insert_eq.
      * intros r. simpl. rewrite lookup_insert_ne by done. by rewrite lookup_insert_eq.
Qed.

(** What lies on the way to a value is a map. *)
Lemma getPath_through h v qs r rest x : getPath h v (qs ++ r :: rest) = Some x → qs ≠ [] →
  ∃ y, getPath h v qs = Some y ∧ mapAt h y.
Proof.
  revert v. induction qs as [|p [|q qs] IH]; intros v Hg Hne; [done| |].
  - simpl app in Hg. rewrite getPath_cons in Hg. destruct (mapGet h v p) as [y|] eqn:E; [|done]. destruct (isMap y); [|done].
    exists y. split; [done|]. destruct rest; [by eapply mapGet_mapAt|]. rewrite getPath_cons in Hg.
    destruct (mapGet h y r) eqn:E2; [by eapply mapGet_mapAt|done].
  - change ((p :: q :: qs) ++ r :: rest) with (p :: q :: (qs ++ r :: rest)) in Hg. rewrite getPath_cons in *.
    destruct (mapGet h v p) as [y|]; [|done]. destruct (isMap y); [|done]. by apply (IH y).
Qed.

(** A free path stays free when one apart from it is written. *)
Lemma free_wrote h v ps x h' qs : wrote h v ps x h' → keeps h h' → apart ps qs → free h v qs → free h' v qs.
Proof.
  intros W Hk Ha [Hv Hf]. split; [by eapply keeps_mapAt|]. intros cs r rest y -> Hne Hg.
  destruct (decide (cs `prefix_of` ps)) as [[[|c tl] ->]|Hn].
  - rewrite app_nil_r in Ha. destruct Ha as [[] _]. by apply prefix_app_r.
  - destruct (getPath_through h' v cs c tl x) as (z & Hz & Hm); [apply (w_get _ _ _ _ _ W)|done|]. by simplify_eq.
  - assert (apart ps cs) as Hac.
    { split; [|done]. intros Hp. apply (proj1 Ha). by apply prefix_app_r. }
    rewrite (w_other _ _ _ _ _ W) in Hg by done. eapply keeps_mapAt; [done|]. by eapply Hf.
Qed.

Lemma wrote_free h v ps x h' : wrote h v ps x h' → mapAt h' v → free h' v ps.
Proof.
  intros W Hv. split; [done|]. intros cs r rest y -> Hne Hg.
  destruct (getPath_through h' v cs r rest x) as (z & Hz & Hm); [apply (w_get _ _ _ _ _ W)|done|]. by simplify_eq.
Qed.

(** ** A family of paths *)

Definition family (P : list string → Prop) : Prop := ∀ ps qs, P ps → P qs → ps ≠ [] ∧ (ps = qs ∨ apart ps qs).

Record tracked (P : list string → Prop) h v (f : list string → option val) : Prop := {
  t_ok : ok_heap h;
  t_vlt : vlt (nxt h) v;
  t_unshared : unshared h v;
  t_free : ∀ ps, P ps → free h v ps;
  t_get : ∀ ps, P ps → getPath h v ps = f ps }.

Lemma tracked_set P h v f ps x : family P → tracked P h v f → P ps → vloc x = None →
  ∃ h', setPath h v ps x = (SetOk, h') ∧ tracked P h' v (<[ps := Some x]> f) ∧
    metas h' = metas h ∧ msgs h' = msgs h ∧ (nxt h ≤ nxt h')%N.
Proof.
  intros HP [Hok Hv Hu Hf Hg] Hps Hx. assert (ps ≠ []) as Hne by (by apply (HP ps ps)).
  destruct (free_set h v ps x) as [h' Hs]; [done|done|done|by apply Hf|].
  pose proof (setPath_wrote _ _ _ _ _ Hok Hv Hu Hx Hne Hs) as W.
  pose proof (setPath_keeps h v ps x Hok Hv) as Hk. rewrite Hs in Hk. simpl in Hk. pose proof (w_nxt _ _ _ _ _ W).
  exists h'. split; [done|]. split; [|by destruct (w_rest _ _ _ _ _ W)]. split.
  - apply W.
  - intros l Hl. specialize (Hv l Hl). lia.
  - apply W.
  - intros qs Hqs. destruct (HP ps qs Hps Hqs) as [_ [<-|Ha]]; [|by eapply free_wrote; [| | |apply Hf]].
    eapply wrote_free; [done|]. eapply keeps_mapAt; [done|]. by apply (Hf ps).
  - intros qs Hqs. destruct (HP ps qs Hps Hqs) as [_ [<-|Ha]].
    + rewrite fn_lookup_insert. apply W.
    + rewrite fn_lookup_insert_ne; [|intros <-; by destruct Ha as [[] _]]. rewrite (w_other _ _ _ _ _ W) by done. by apply Hg.
Qed.

(** Below a value that is no map nothing is written. *)
Lemma set_below h v ps q rest x y : ps ≠ [] → getPath h v ps = Some y → isMap y = false →
  ∃ c, setPath h v (ps ++ q :: rest) x = (SetConflict c, h).
Proof.
  revert v. induction ps as [|p [|r ps] IH]; intros v Hne Hg Hy; [done| |].
  - change ([p] ++ q :: rest) with (p :: q :: rest). rewrite setPath_cons. simpl in Hg. rewrite (isMap_loc _ _ _ _ Hg), Hg, Hy. eauto.
  - change ((p :: r :: ps) ++ q :: rest) with (p :: r :: (ps ++ q :: rest)). rewrite getPath_cons in Hg.
    destruct (mapGet h v p) as [z|] eqn:E; [|done]. destruct (isMap z) eqn:Hz; [|done].
    rewrite setPath_cons, (isMap_loc _ _ _ _ E), E, Hz. by apply IH.
Qed.

Lemma get_below h v ps q rest y : ps ≠ [] → getPath h v ps = Some y → isMap y = false → getPath h v (ps ++ q :: rest) = None.
Proof.
  intros Hne Hg Hy. destruct (getPath h v (ps ++ q :: rest)) as [z|] eqn:E; [|done].
  destruct (getPath_through _ _ _ _ _ _ E Hne) as (y' & Hy' & [Hm _]). simplify_eq. congruence.
Qed.
End writes.

(** ** Keys and paths *)

Lemma dot_noDigit : noDigit ".".
Proof. intros x. unfold pretty_N_char. by repeat case_match. Qed.

Lemma pretty_no_dot (z : Z) : hasChar "." (pretty z) = false.
Proof.
  assert (∀ n : N, hasChar "." (pretty n) = false) as HN.
  { intros n. unfold pretty, pretty_N. case_decide; [done|]. apply pretty_N_go_no_char; [apply dot_noDigit|done]. }
  destruct z as [|p|p]; [done|apply (HN (Npos p))|]. apply (HN (Npos p)).
Qed.

Lemma splitDot_plain s : hasChar "." s = false → splitDot s = [s].
Proof.
  induction s as [|c s IH]; [done|]. cbn [hasChar splitDot]. intros [Hc Hs]%orb_false_iff.
  rewrite Ascii.eqb_sym, Hc, IH by done. done.
Qed.

Definition rawPath (i : Z) : list string := ["iso8583"; "field"; pretty i].

Lemma fieldKey_path i : splitDot (fieldKey i) = rawPath i.
Proof.
  unfold fieldKey. change ("iso8583.field." +:+ pretty i) with ("iso8583" +:+ String "." ("field" +:+ String "." (pretty i))).
  rewrite !splitDot_cut by done. rewrite splitDot_plain by apply pretty_no_dot. done.
Qed.

Lemma below_fieldKey i s : splitDot (fieldKey i +:+ "." +:+ s) = rawPath i ++ splitDot s.
Proof.
  assert (fieldKey i +:+ "." +:+ s = "iso8583" +:+ String "." ("field" +:+ String "." (pretty i +:+ String "." s))) as -> by done.
  rewrite !splitDot_cut by (done || apply pretty_no_dot). done.
Qed.

Lemma rawPath_apart i j : i ≠ j → apart (rawPath i) (rawPath j).
Proof.
  assert (∀ i j, rawPath i `prefix_of` rawPath j → i = j) as Hp.
  { intros i' j' Hp. unfold rawPath in Hp. do 2 apply prefix_cons_inv_2 in Hp. by apply prefix_cons_inv_1, (inj pretty) in Hp. }
  intros Hne. split; intros Hpre; apply Hp in Hpre; congruence.
Qed.

Definition unknownPath : list string := ["iso8583"; "unknown_tags"].

Lemma unknown_path : splitDot unknownTagsKey = unknownPath.
Proof. done. Qed.

Lemma apart_head p q ps qs : p ≠ q → apart (p :: ps) (q :: qs).
Proof. intros Hne. split; intros Hp; apply prefix_cons_inv_1 in Hp; congruence. Qed.

(** ** The family of paths *)

(** Where a decode writes. *)
Inductive codecPath (meta : FieldMeta) : list string → Prop :=
| cp_raw i : codecPath meta (rawPath i)
| cp_unknown : codecPath meta unknownPath
| cp_alias i a : Aliases meta !! i = Some a → codecPath meta (splitDot a)
| cp_sub i subs s a : SubAliases meta !! i = Some subs → subs !! s = Some a → codecPath meta (splitDot a).

(** The names a spec gives: an alias or the alias of a part. *)
Inductive named (meta : FieldMeta) : Z * option string → string → Prop :=
| n_alias i a : Aliases meta !! i = Some a → named meta (i, None) a
| n_sub i subs s a : SubAliases meta !! i = Some subs → subs !! s = Some a → named meta (i, Some s) a.

(** No name is below [iso8583], and the names of two things do not get in each other's
    way: neither is the other or a prefix of it in components. *)
Record wellNamed (meta : FieldMeta) : Prop := {
  wn_own : ∀ x a, named meta x a → hd_error (splitDot a) ≠ Some "iso8583";
  wn_apart : ∀ x y a b, named meta x a → named meta y b → x ≠ y → apart (splitDot a) (splitDot b) }.

Lemma codecPath_cases meta ps : codecPath meta ps →
  (∃ i, ps = rawPath i) ∨ ps = unknownPath ∨ ∃ x a, named meta x a ∧ ps = splitDot a.
Proof.
  destruct 1; [eauto|eauto| |]; right; right; eexists _, _; (split; [|done]); [by apply n_alias|by eapply n_sub].
Qed.

Lemma named_apart meta x a p ps : wellNamed meta → named meta x a → p = "iso8583" → apart (p :: ps) (splitDot a).
Proof.
  intros Hw Hn ->. pose proof (wn_own _ Hw _ _ Hn) as Ho. pose proof (splitDot_ne a). destruct (splitDot a) as [|q qs]; [done|].
  apply apart_head. intros <-. by apply Ho.
Qed.

Lemma raw_unknown_apart i : apart (rawPath i) unknownPath.
Proof. apply apart_cons, apart_head. done. Qed.

Lemma codec_family meta : wellNamed meta → family (codecPath meta).
Proof.
  intros Hw ps qs Hp Hq. split.
  { destruct Hp; try done; apply splitDot_ne. }
  apply codecPath_cases in Hp as [[i ->]|[->|(x & a & Ha & ->)]]; apply codecPath_cases in Hq as [[j ->]|[->|(y & b & Hb & ->)]].
  - destruct (decide (i = j)) as [->|]; [by left|right; by apply rawPath_apart].
  - right. apply raw_unknown_apart.
  - right. by eapply named_apart.
  - right. apply apart_sym, raw_unknown_apart.
  - by left.
  - right. by eapply named_apart.
  - right. apply apart_sym. by eapply named_apart.
  - right. apply apart_sym. by eapply named_apart.
  - destruct (decide (x = y)) as [<-|]; [left|right; by eapply wn_apart].
    inversion Ha; inversion Hb; by simplify_eq.
Qed.

(** A message whose data is a tree and does not block those paths. *)
Record clear (meta : FieldMeta) (h : heap) (m : FluxMsg) : Prop := {
  cl_ok : ok_heap h;
  cl_data : vlt (nxt h) (VMapS (Data m));
  cl_tree : unshared h (VMapS (Data m));
  cl_free : ∀ ps, codecPath meta ps → free h (VMapS (Data m)) ps }.

Lemma clear_tracked meta h m : clear meta h m → tracked (codecPath meta) h (VMapS (Data m)) (getPath h (VMapS (Data m))).
Proof. by intros []; split. Qed.

Lemma apart_ne ps qs : apart ps qs → ps ≠ qs.
Proof. intros [Ha _] ->. by apply Ha. Qed.

(** ** The loop *)

Section decode.
Context `{Iso8583} (meta : FieldMeta) (Hw : wellNamed meta) (m : FluxMsg) (iso : Message).
Abbreviation root := (VMapS (Data m)).
Abbreviation P := (codecPath meta).

Definition unchanged (h h' : heap) : Prop := metas h' = metas h ∧ msgs h' = msgs h ∧ (nxt h ≤ nxt h')%N.
#[local] Instance unchanged_refl : Reflexive unchanged.
Proof. intros h. by split_and!. Qed.
#[local] Instance unchanged_trans : Transitive unchanged.
Proof. intros h1 h2 h3 (?&?&?) (?&?&?). split_and!; [congruence|congruence|lia]. Qed.

(** The value of field [i], and whether it lands. *)
Definition storedOf (i : Z) : val :=
  match IsoString iso i with Ok v => storable (FixedWidth (GetField iso i) v) (IsoBytes iso i) | _ => VNil end.
Definition lands (bit : Z → bool) (i : Z) : bool :=
  negb ((0 <? i) && negb (bit i)) && match IsoString iso i with Ok _ => true | _ => false end.

Lemma storable_leaf v raw : vloc (storable v raw) = None ∧ isMap (storable v raw) = false.
Proof. unfold storable. by repeat case_match. Qed.
Lemma storedOf_leaf i : vloc (storedOf i) = None ∧ isMap (storedOf i) = false.
Proof. unfold storedOf. destruct (IsoString iso i); [apply storable_leaf|done..]. Qed.

Lemma setAll_one h f k x l : tracked P h root f → P (splitDot k) → vloc x = None →
  ∃ h', setAll h m ((k, x) :: l) = setAll h' m l ∧ tracked P h' root (<[splitDot k := Some x]> f) ∧ unchanged h h'.
Proof.
  intros Ht Hk Hx. destruct (tracked_set _ _ _ _ _ _ (codec_family _ Hw) Ht Hk Hx) as (h' & Hs & Ht' & Hu).
  exists h'. split; [|by split]. simpl. unfold Set_. by rewrite Hs.
Qed.

(** A write below a field that landed is lost. *)
Lemma setAll_blocked h f i s x y l : tracked P h root f → f (rawPath i) = Some y → isMap y = false →
  setAll h m ((fieldKey i +:+ "." +:+ s, x) :: l) = setAll h m l.
Proof.
  intros Ht Hy Hyl. pose proof (splitDot_ne s). destruct (splitDot s) as [|q rest] eqn:Es; [done|].
  destruct (set_below h root (rawPath i) q rest x y) as [c Hc]; [done|by rewrite (t_get _ _ _ _ Ht) by constructor|done|].
  cbn [setAll]. unfold Set_. by rewrite below_fieldKey, Es, Hc.
Qed.

Definition isSub (ps : list string) : Prop := ∃ i s a, named meta (i, Some s) a ∧ ps = splitDot a.

(** A subfield writes at most below an alias of a part. *)
Lemma decodeSubfield_tracked i h f sub : tracked P h root f → (∃ y, f (rawPath i) = Some y ∧ isMap y = false) →
  ∃ f', tracked P (decodeSubfield meta m i h sub) root f' ∧ unchanged h (decodeSubfield meta m i h sub) ∧
    ∀ ps, ¬ isSub ps → f' ps = f ps.
Proof.
  intros Ht (y & Hy & Hyl). unfold decodeSubfield.
  assert (∃ f', tracked P h root f' ∧ unchanged h h ∧ ∀ ps, ¬ isSub ps → f' ps = f ps) as Hid by (by exists f).
  destruct sub as [s [fl|]]; cbn [fst snd]; [|done]. destruct (specOf fl); [|done].
  destruct (fieldString fl) as [v| |]; [|done..]. destruct (fieldBytes fl) as [raw| |]; [|done..].
  set (x := storable _ _). assert (vloc x = None) as Hx by apply storable_leaf. clear Hid.
  unfold subKeyOf. rewrite (setAll_blocked _ _ _ _ _ _ _ Ht Hy Hyl).
  destruct (SubAliases meta !! i ≫= (.!! s)) as [a|] eqn:E; [|by exists f]. apply bind_Some in E as (subs & E1 & E2).
  destruct (setAll_one h f a x [] Ht) as (h' & Hs & Ht' & Hu); [by eapply cp_sub|done|]. rewrite Hs. cbn.
  eexists. split; [done|]. split; [done|]. intros ps Hn. apply fn_lookup_insert_ne. intros <-. apply Hn.
  exists i, s, a. split; [by eapply n_sub|done].
Qed.

Lemma raw_not_sub i : ¬ isSub (rawPath i).
Proof. intros (j & s & a & Hn & E). by apply (apart_ne _ _ (named_apart _ _ _ _ ["field"; pretty i] Hw Hn eq_refl)). Qed.

Lemma alias_not_sub i a : Aliases meta !! i = Some a → ¬ isSub (splitDot a).
Proof.
  intros Ha (j & s & b & Hn & E). apply (apart_ne (splitDot a) (splitDot b)); [|done].
  eapply (wn_apart _ Hw); [by constructor|exact Hn|done].
Qed.

Lemma decodeSubfields_tracked i h f : tracked P h root f → (∃ y, f (rawPath i) = Some y ∧ isMap y = false) →
  ∃ f', tracked P (decodeSubfields meta m iso i h) root f' ∧ unchanged h (decodeSubfields meta m iso i h) ∧
    ∀ ps, ¬ isSub ps → f' ps = f ps.
Proof.
  intros Ht Hy. unfold decodeSubfields.
  destruct (GetField iso i) as [fl|]; [|by exists f]. destruct (typeOf fl); try by exists f.
  revert h f Ht Hy. induction (GetSubfields fl) as [|sub l IH]; intros h f Ht Hy; cbn; [by exists f|].
  destruct (decodeSubfield_tracked i h f sub Ht Hy) as (f1 & Ht1 & Hu1 & He1).
  destruct (IH _ f1 Ht1) as (f2 & Ht2 & Hu2 & He2).
  { by rewrite He1 by apply raw_not_sub. }
  exists f2. split; [done|]. split; [by etrans|]. intros ps Hn. by rewrite He2, He1.
Qed.

(** The two paths of a field. *)
Definition owns (i : Z) (ps : list string) : Prop := ps = rawPath i ∨ ∃ a, Aliases meta !! i = Some a ∧ ps = splitDot a.

Lemma owns_path i ps : owns i ps → P ps.
Proof. intros [->|(a & Ha & ->)]; [constructor|by eapply cp_alias]. Qed.
Lemma owns_not_sub i ps : owns i ps → ¬ isSub ps.
Proof. intros [->|(a & Ha & ->)]; [apply raw_not_sub|by eapply alias_not_sub]. Qed.

Lemma owns_inj i j ps : owns i ps → owns j ps → i = j.
Proof.
  assert (∀ i a, Aliases meta !! i = Some a → ∀ j, apart (rawPath j) (splitDot a)) as Hra.
  { intros i' a Ha j'. eapply named_apart; [done|by apply n_alias|done]. }
  intros [->|(a & Ha & ->)] [E|(b & Hb & E)].
  - destruct (decide (i = j)); [done|]. by destruct (apart_ne _ _ (rawPath_apart _ _ n)).
  - by destruct (apart_ne _ _ (Hra _ _ Hb i)).
  - by destruct (apart_ne _ _ (Hra _ _ Ha j)).
  - destruct (decide (i = j)) as [|Hne]; [done|]. destruct (apart_ne (splitDot a) (splitDot b)); [|done].
    eapply (wn_apart _ Hw); [by apply n_alias|by apply n_alias|congruence].
Qed.

Definition calmField (i : Z) : Prop := (∀ p, IsoString iso i ≠ Panic p) ∧ (∀ p, IsoBytes iso i ≠ Panic p).

(** The two writes of a field that landed. *)
Lemma fieldWrites_tracked h f i x : tracked P h root f → vloc x = None →
  ∃ h' f', setAll h m (match Aliases meta !! i with Some a => [(a, x)] | None => [] end ++ [(fieldKey i, x)]) = (h', Ok ()) ∧
    tracked P h' root f' ∧ unchanged h h' ∧ (∀ ps, owns i ps → f' ps = Some x) ∧ ∀ ps, ¬ owns i ps → f' ps = f ps.
Proof.
  intros Ht Hx.
  assert (∀ h f, tracked P h root f → ∃ h', setAll h m [(fieldKey i, x)] = (h', Ok ()) ∧
    tracked P h' root (<[rawPath i := Some x]> f) ∧ unchanged h h') as Hraw.
  { intros h0 f0 Ht0. destruct (setAll_one h0 f0 (fieldKey i) x [] Ht0) as (h' & Hs & Ht' & Hu); [rewrite fieldKey_path; constructor|done|].
    rewrite fieldKey_path in Ht'. by exists h'. }
  destruct (Aliases meta !! i) as [a|] eqn:Ha.
  - destruct (setAll_one h f a x [(fieldKey i, x)] Ht) as (h1 & Hs1 & Ht1 & Hu1); [by eapply cp_alias|done|].
    destruct (Hraw _ _ Ht1) as (h2 & Hs2 & Ht2 & Hu2). eexists h2, _. cbn [app]. rewrite Hs1, Hs2. split; [done|].
    split; [done|]. split; [by etrans|]. split.
    + intros ps Ho. destruct (decide (ps = rawPath i)) as [->|]; [apply fn_lookup_insert|]. rewrite fn_lookup_insert_ne by done.
      destruct Ho as [?|(b & Hb & ->)]; [done|]. simplify_eq. apply fn_lookup_insert.
    + intros ps Hn. rewrite !fn_lookup_insert_ne; [done| |]; intros <-; apply Hn; [right|left]; eauto.
  - destruct (Hraw _ _ Ht) as (h2 & Hs2 & Ht2 & Hu2). eexists h2, _. cbn [app]. rewrite Hs2. split; [done|].
    split; [done|]. split; [done|]. split.
    + intros ps [->|(b & Hb & _)]; [apply fn_lookup_insert|congruence].
    + intros ps Hn. rewrite fn_lookup_insert_ne; [done|]. intros <-. apply Hn. by left.
Qed.

(** What one turn, or several, leave of [f]. *)
Definition effect (bit : Z → bool) (ids : list Z) (f f' : list string → option val) : Prop :=
  (∀ i ps, i ∈ ids → lands bit i = true → owns i ps → f' ps = Some (storedOf i)) ∧
  (∀ ps, ¬ isSub ps → (∀ i, i ∈ ids → lands bit i = true → ¬ owns i ps) → f' ps = f ps).

Lemma decodeField_tracked bit h f i : tracked P h root f → calmField i →
  ∃ h' f', decodeField meta m iso bit h i = (h', Ok (lands bit i)) ∧ tracked P h' root f' ∧ unchanged h h' ∧ effect bit [i] f f'.
Proof.
  intros Ht [C1 C2]. unfold decodeField.
  assert (lands bit i = false → ∃ h' f', (h, Ok false) = (h', Ok (lands bit i)) ∧ tracked P h' root f' ∧ unchanged h h' ∧ effect bit [i] f f') as Hskip.
  { intros E. exists h, f. rewrite E. do 3 (split; [done|]). split; [|done]. intros j ps ->%list_elem_of_singleton. congruence. }
  destruct ((0 <? i) && negb (bit i)) eqn:Eb; [apply Hskip; unfold lands; by rewrite Eb|].
  destruct (IsoString iso i) as [v|e|p] eqn:Es; [|apply Hskip; unfold lands; by rewrite Eb, Es|by destruct (C1 p)]. clear Hskip.
  assert (lands bit i = true) as Hl by (unfold lands; by rewrite Eb, Es).
  assert (storable (FixedWidth (GetField iso i) v) (IsoBytes iso i) = storedOf i) as Hst by (unfold storedOf; by rewrite Es).
  destruct (fieldWrites_tracked h f i (storedOf i) Ht) as (h1 & f1 & Hs1 & Ht1 & Hu1 & Ho1 & Hn1); [apply storedOf_leaf|].
  destruct (decodeSubfields_tracked i h1 f1 Ht1) as (f2 & Ht2 & Hu2 & He2).
  { exists (storedOf i). split; [apply Ho1; by left|apply storedOf_leaf]. }
  exists (decodeSubfields meta m iso i h1), f2. split; [|split; [done|split; [by etrans|split]]].
  - destruct (IsoBytes iso i) as [| |p]; [by rewrite Hst, Hs1, Hl|by rewrite Hst, Hs1, Hl|by destruct (C2 p)].
  - intros j ps ->%list_elem_of_singleton _ Ho. rewrite He2 by (by eapply owns_not_sub). by apply Ho1.
  - intros ps Hn Hno. rewrite He2 by done. apply Hn1, Hno; [by apply list_elem_of_singleton|done].
Qed.

Lemma decodeFields_tracked bit h f ids present : NoDup ids → (∀ i, i ∈ ids → calmField i) → tracked P h root f →
  ∃ h' f', decodeFields meta m iso bit h ids present = (h', Ok (present ++ filter (λ i, lands bit i = true) ids)) ∧
    tracked P h' root f' ∧ unchanged h h' ∧ effect bit ids f f'.
Proof.
  revert h f present. induction ids as [|i ids IH]; intros h f present Hnd Hc Ht.
  { exists h, f. cbn. rewrite app_nil_r. do 3 (split; [done|]). split; [|done]. intros i ps Hi. by apply elem_of_nil in Hi. }
  apply NoDup_cons in Hnd as [Hni Hnd].
  destruct (decodeField_tracked bit h f i Ht) as (h1 & f1 & Hd & Ht1 & Hu1 & Hy1 & Hz1); [apply Hc, elem_of_cons; by left|].
  destruct (IH h1 f1 (if lands bit i then present ++ [i] else present) Hnd) as (h2 & f2 & Hd2 & Ht2 & Hu2 & Hy2 & Hz2); [|done|].
  { intros j Hj. apply Hc, elem_of_cons. by right. }
  exists h2, f2. cbn [decodeFields]. rewrite Hd, filter_cons. split; [|split; [done|split; [by etrans|split]]].
  - destruct (lands bit i); rewrite Hd2; cbn; [by rewrite <-app_assoc|done].
  - intros j ps [->|Hj]%elem_of_cons Hl Ho; [|by apply Hy2].
    rewrite Hz2; [by eapply Hy1; [apply list_elem_of_singleton| |]|by eapply owns_not_sub|].
    intros k Hk _ Hok. by destruct (owns_inj _ _ _ Ho Hok).
  - intros ps Hn Hno. rewrite Hz2; [apply Hz1; [done|]|done|].
    + intros j ->%list_elem_of_singleton. apply Hno, elem_of_cons. by left.
    + intros j Hj. apply Hno, elem_of_cons. by right.
Qed.

Lemma unknown_not_owned i : ¬ owns i unknownPath.
Proof.
  intros [E|(a & Ha & E)].
  - by apply (apart_ne _ _ (raw_unknown_apart i)).
  - by apply (apart_ne _ _ (named_apart _ (i, None) a _ ["unknown_tags"] Hw (n_alias _ _ _ Ha) eq_refl)).
Qed.

Lemma preserve_tracked h f : tracked P h root f → (∀ p, readTags (UnknownTags iso) ≠ Panic p) →
  ∃ h' f' r, preserveUnknownTags m iso h = (h', r) ∧ (∀ p, r ≠ Panic p) ∧ tracked P h' root f' ∧ unchanged h h' ∧
    ∀ ps, ps ≠ unknownPath → f' ps = f ps.
Proof.
  intros Ht Hc. unfold preserveUnknownTags. destruct (readTags (UnknownTags iso)) as [t|e|p]; [|by exists h, f, (Err e)|by destruct (Hc p)].
  case_bool_decide; [by exists h, f, (Ok ())|].
  destruct (setAll_one h f unknownTagsKey (VOther (sprintTags t)) [] Ht) as (h' & Hs & Ht' & Hu); [apply cp_unknown|done|].
  exists h', (<[unknownPath := Some (VOther (sprintTags t))]> f), (Ok ()). rewrite Hs. split_and!; try done.
  intros ps Hne. by apply fn_lookup_insert_ne.
Qed.

(** The library does not panic on the fields of the message, and reads its unknown tags. *)
Record calm : Prop := {
  ca_field : ∀ i, 0 ≤ i ≤ 128 → calmField i;
  ca_tags : ∀ p, readTags (UnknownTags iso) ≠ Panic p }.
End decode.

Lemma fieldRange_elem lo i : i ∈ fieldRange lo ↔ Z.of_nat lo ≤ i ≤ 128.
Proof.
  unfold fieldRange. rewrite list_elem_of_fmap. setoid_rewrite elem_of_seq. split.
  - intros (n & -> & Hn). lia.
  - intros Hi. exists (Z.to_nat i). lia.
Qed.
Lemma fieldRange_nodup lo : NoDup (fieldRange lo).
Proof. apply NoDup_fmap_2; [apply _|apply NoDup_seq]. Qed.

(** The text of the MTI a decode reports. *)
Definition mtiText `{Iso8583} (iso : Message) : string :=
  padMTI (FixedWidth (GetField iso 0) (match IsoString iso 0 with Ok s => s | _ => "" end)).

(** The decode of a message, as a lemma for the theorems below. *)
Lemma decode_tracked `{Iso8583} meta h m fresh iso bit :
  wellNamed meta → clear meta h m → NewMessage = Some fresh → Unpack fresh (RawPayload m) = Ok iso →
  IsoBitmap iso = Some bit → calm iso →
  ∃ h' f', decode meta h m = (h', inr (mtiText iso, filter (λ i, lands iso bit i = true) (fieldRange 0))) ∧
    tracked (codecPath meta) h' (VMapS (Data m)) f' ∧ unchanged h h' ∧
    (∀ i ps, 0 ≤ i ≤ 128 → lands iso bit i = true → owns meta i ps → f' ps = Some (storedOf iso i)) ∧
    (∀ i ps, owns meta i ps → (0 ≤ i ≤ 128 → lands iso bit i = false) → f' ps = getPath h (VMapS (Data m)) ps).
Proof.
  intros Hw Hcl Hn Hu Hb [Cf Ct].
  destruct (decodeFields_tracked meta Hw m iso bit h _ (fieldRange 0) [] (fieldRange_nodup 0)
    (λ i Hi, Cf i (proj1 (fieldRange_elem 0 i) Hi)) (clear_tracked _ _ _ Hcl)) as (h1 & f1 & Hd & Ht1 & Hu1 & Hy & Hz).
  destruct (preserve_tracked meta Hw m iso h1 f1 Ht1 Ct) as (h2 & f2 & r & Hp & Hr & Ht2 & Hu2 & Hs).
  assert (∀ i ps, owns meta i ps → ps ≠ unknownPath) as Hou by (intros i ps Ho ->; by eapply unknown_not_owned).
  exists h2, f2. split; [|split; [done|split; [|split]]].
  - unfold decode, mtiText. rewrite Hn, Hu, Hb, Hd, Hp. cbn [app].
    destruct (IsoString iso 0) as [s|e|p] eqn:E0; [| |by destruct (Cf 0 ltac:(lia)) as [C _]; destruct (C p)];
      by destruct r as [| |p]; [..|destruct (Hr p)].
  - destruct Hu1 as (?&?&?), Hu2 as (?&?&?). split_and!; [congruence|congruence|lia].
  - intros i ps Hi Hl Ho. rewrite Hs by eauto. apply Hy; [by apply fieldRange_elem|done|done].
  - intros i ps Ho Hl. rewrite Hs by eauto. apply Hz; [by eapply owns_not_sub|].
    intros j Hj Hlj Hoj. assert (i = j) as <- by (by eapply owns_inj). apply fieldRange_elem in Hj. rewrite Hl in Hlj by done. done.
Qed.

(** ** Properties *)

(** C11: a decode stores exactly what the wire carried. For a spec whose aliases do not
    overlap and a message whose data does not block them, once the library has unpacked
    the payload and does not panic, the decode succeeds; it reports the fields of the
    bitmap (and the MTI) that could be read, in order; each of them is readable under its
    raw key and under its alias as the same value; and of the fields that are absent or
    could not be read, both keys hold what they held before. *)
Theorem decode_exact `{Iso8583} meta h m fresh iso bit :
  wellNamed meta → clear meta h m → NewMessage = Some fresh → Unpack fresh (RawPayload m) = Ok iso →
  IsoBitmap iso = Some bit → calm iso →
  ∃ h' present, decode meta h m = (h', inr (mtiText iso, present)) ∧
    (∀ i, i ∈ present ↔ 0 ≤ i ≤ 128 ∧ (i = 0 ∨ bit i = true) ∧ ∃ s, IsoString iso i = Ok s) ∧
    (∀ i, i ∈ present → Get h' m (fieldKey i) = Some (storedOf iso i)) ∧
    (∀ i a, i ∈ present → Aliases meta !! i = Some a → Get h' m a = Some (storedOf iso i)) ∧
    (∀ i, i ∉ present → Get h' m (fieldKey i) = Get h m (fieldKey i)) ∧
    (∀ i a, i ∉ present → Aliases meta !! i = Some a → Get h' m a = Get h m a).
Proof.
  intros Hw Hcl Hn Hu Hb Hc. destruct (decode_tracked meta h m fresh iso bit Hw Hcl Hn Hu Hb Hc) as (h' & f' & Hd & Ht & _ & Hy & Hz).
  assert (∀ i, i ∈ filter (λ i, lands iso bit i = true) (fieldRange 0) ↔ 0 ≤ i ≤ 128 ∧ lands iso bit i = true) as Hp.
  { intros i. rewrite list_elem_of_filter, fieldRange_elem. tauto. }
  assert (∀ i, i ∉ filter (λ i, lands iso bit i = true) (fieldRange 0) → 0 ≤ i ≤ 128 → lands iso bit i = false) as Hq.
  { intros i Hi Hr. apply not_true_iff_false. intros Hl. by apply Hi, Hp. }
  exists h'. eexists. split; [done|]. unfold Get. split_and!.
  - intros i. rewrite Hp. unfold lands. rewrite andb_true_iff, negb_true_iff, andb_false_iff, negb_false_iff.
    destruct (IsoString iso i) as [s|e|p]; [|naive_solver..]. rewrite Z.ltb_ge. split; [|naive_solver lia].
    intros (Hi & Ho & _). split; [done|]. split; [|eauto]. destruct Ho; [left; lia|by right].
  - intros i [Hi Hl]%Hp. rewrite fieldKey_path, (t_get _ _ _ _ Ht) by constructor. apply Hy; [done|done|by left].
  - intros i a [Hi Hl]%Hp Ha. rewrite (t_get _ _ _ _ Ht) by (by eapply cp_alias). apply Hy; [done|done|right; eauto].
  - intros i Hi. rewrite fieldKey_path, (t_get _ _ _ _ Ht) by constructor. apply (Hz i); [by left|by apply Hq].
  - intros i a Hi Ha. rewrite (t_get _ _ _ _ Ht) by (by eapply cp_alias). apply (Hz i); [right; eauto|by apply Hq].
Qed.

(** no rule sees a part of a decoded field. Once a field has landed its raw key
    holds a value, so the writes of its subfields below that key conflict and are
    dropped: the subject that the spec's rules are applied to answers every question
    about a part of that field with "absent", whatever the wire carried. *)
Theorem subfields_unseen `{Iso8583} sprint meta h m fresh iso bit i sub subs :
  wellNamed meta → clear meta h m → NewMessage = Some fresh → Unpack fresh (RawPayload m) = Ok iso →
  IsoBitmap iso = Some bit → calm iso → 0 ≤ i ≤ 128 → lands iso bit i = true →
  Field (subject sprint (decode meta h m).1 m (mtiText iso)) i (sub :: subs) = None.
Proof.
  intros Hw Hcl Hn Hu Hb Hc Hi Hl. destruct (decode_tracked meta h m fresh iso bit Hw Hcl Hn Hu Hb Hc) as (h' & f' & Hd & Ht & _ & Hy & _).
  rewrite Hd. cbn [fst subject Field]. unfold subjectField, Get. rewrite bool_decide_false by done. rewrite below_fieldKey.
  pose proof (splitDot_ne (String.concat "." (sub :: subs))). destruct (splitDot _) as [|q rest]; [done|].
  rewrite (get_below h' _ (rawPath i) q rest (storedOf iso i)); [done|done| |apply storedOf_leaf].
  rewrite (t_get _ _ _ _ Ht) by constructor. apply Hy; [done|done|by left].
Qed.

(** ** Values that survive the bus *)

(** Every string held in the heap is UTF-8. *)
Definition textHeap (h : heap) : Prop := ∀ l o s, objs h !! l = Some o → child o (VStr s) → ValidString s = true.

Definition textVal (v : val) : Prop := ∀ s, v = VStr s → ValidString s = true.

Lemma mapPut_text h v p x h' : textHeap h → textVal x → mapPut h v p x = Some h' → textHeap h'.
Proof.
  intros Ht Hx (l & o & o' & Hl & Ho & -> & _ & _ & Hc)%mapPut_spec l0 o0 s H0 Hs. simpl in H0.
  apply lookup_insert_Some in H0 as [[<- <-]|[_ H0]]; [|by eapply Ht].
  apply Hc in Hs as [<-|Hs]; [by apply Hx|by eapply Ht].
Qed.

Lemma setPath_text h v ps x : textHeap h → textVal x → textHeap (setPath h v ps x).2.
Proof.
  revert h v. induction ps as [|p [|q rest] IH]; intros h v Ht Hx; [done| |].
  - simpl. destruct (isMap v); [|done]. destruct (mapPut h v p x) eqn:E; [|done]. by eapply mapPut_text.
  - rewrite setPath_cons. destruct (isMap v); [|done]. destruct (mapGet h v p) as [y|].
    + destruct (isMap y); [|done]. by apply IH.
    + destruct (alloc (OMapS ∅) h) as [h1 l] eqn:Ha. assert (textHeap h1) as Ht1.
      { unfold alloc in Ha. injection Ha as <- _. intros l0 o0 s H0 Hs. simpl in H0.
        apply lookup_insert_Some in H0 as [[_ <-]|[_ H0]]; [by destruct Hs|by eapply Ht]. }
      destruct (mapPut h1 v p _) as [h2|] eqn:Hp; [|done]. apply IH; [|done]. eapply mapPut_text; [done| |done]. done.
Qed.

Lemma setAll_text m l h : textHeap h → Forall (λ kx : string * val, textVal kx.2) l → textHeap (setAll h m l).1.
Proof.
  intros Ht Hl. revert h Ht. induction Hl as [|[k x] l Hx _ IH]; intros h Ht; [done|]. cbn [setAll].
  pose proof (setPath_text h (VMapS (Data m)) (splitDot k) x Ht Hx) as Hs. unfold Set_. destruct (setPath _ _ _ _) as [[] h']; by try apply IH.
Qed.

Lemma storable_text v b : textVal (storable v (Ok b)).
Proof. intros s. unfold storable. destruct (ValidString v) eqn:E; [|done]. by intros [= <-]. Qed.

Section text.
Context `{Iso8583}.
(** A field that reads as text that is not UTF-8 gives its bytes. *)
Definition bytesOf (iso : Message) : Prop := ∀ i s e, IsoString iso i = Ok s → IsoBytes iso i = Err e →
  ValidString (FixedWidth (GetField iso i) s) = true.

Lemma decodeSubfields_text meta m iso i h : textHeap h → textHeap (decodeSubfields meta m iso i h).
Proof.
  intros Ht. unfold decodeSubfields. destruct (GetField iso i) as [f|]; [|done]. destruct (typeOf f); try done.
  revert h Ht. induction (GetSubfields f) as [|sub l IH]; intros h Ht; [done|]. apply IH. unfold decodeSubfield.
  destruct (sub.2); [|done]. destruct (specOf _); [|done]. destruct (fieldString _); [|done..]. destruct (fieldBytes _); [|done..].
  apply setAll_text; [done|]. constructor; [apply storable_text|]. case_match; constructor; [apply storable_text|done].
Qed.

Lemma decodeField_text meta m iso bit h i : bytesOf iso → textHeap h → textHeap (decodeField meta m iso bit h i).1.
Proof.
  intros Hb Ht. unfold decodeField. destruct (_ && _); [done|]. destruct (IsoString iso i) as [v|e|p] eqn:Es; [|done..].
  assert (∀ raw, raw = IsoBytes iso i → (∀ p, raw ≠ Panic p) → textVal (storable (FixedWidth (GetField iso i) v) raw)) as Hv.
  { intros [b|e|p] Hr Hp; [apply storable_text| |by destruct (Hp p)]. intros s [= <-]. by eapply Hb. }
  assert (∀ x, textVal x → textHeap (let '(h, r) := setAll h m (match Aliases meta !! i with Some a => [(a, x)] | None => [] end ++ [(fieldKey i, x)]) in
    match r with Panic p => (h, Panic p) | _ => (decodeSubfields meta m iso i h, Ok true) end).1) as Hset.
  { intros x Hx. pose proof (setAll_text m (match Aliases meta !! i with Some a => [(a, x)] | None => [] end ++ [(fieldKey i, x)]) h Ht) as Hs.
    destruct (setAll _ _ _) as [h1 []]; [apply decodeSubfields_text|apply decodeSubfields_text|]; apply Hs; case_match; repeat constructor; done. }
  destruct (IsoBytes iso i) as [b|e|p] eqn:Ey; [| |done]; specialize (Hset _ (Hv _ eq_refl ltac:(done))); by destruct (setAll _ _ _) as [? []].
Qed.

(** a decode leaves nothing in a message that the bus would refuse. If the strings
    held in the data are UTF-8 before, and the library can give the bytes of a field
    whose text is not, then they are UTF-8 after it, whether the decode succeeded, failed
    or recovered from a panic half way: every other value is kept as bytes. *)
Theorem decoded_text meta h m :
  (∀ fresh iso, NewMessage = Some fresh → Unpack fresh (RawPayload m) = Ok iso → bytesOf iso) →
  textHeap h → textHeap (decode meta h m).1.
Proof.
  intros Hb Ht. unfold decode. destruct NewMessage as [fresh|]; [|done]. destruct (Unpack fresh _) as [iso| |] eqn:Eu; [|done..].
  specialize (Hb _ _ eq_refl Eu).
  assert (∀ bit ids present h, textHeap h → textHeap (decodeFields meta m iso bit h ids present).1) as Hf.
  { intros bit ids. induction ids as [|i ids IH]; intros present h0 Ht0; [done|]. cbn [decodeFields].
    pose proof (decodeField_text meta m iso bit h0 i Hb Ht0). destruct (decodeField _ _ _ _ _ _) as [h1 [[]| |]]; by try apply IH. }
  assert (∀ h, textHeap h → textHeap (preserveUnknownTags m iso h).1) as Hp.
  { intros h0 Ht0. unfold preserveUnknownTags. destruct (readTags _); [|done..]. case_bool_decide; [done|]. apply setAll_text; [done|]. by repeat constructor. }
  destruct (IsoString iso 0); [| |done]; (destruct (IsoBitmap iso) as [bit|]; [|done]);
    specialize (Hf bit (fieldRange 0) [] h Ht); (destruct (decodeFields _ _ _ _ _ _ _) as [h1 []]; [|done..]);
    specialize (Hp h1 Hf); by destruct (preserveUnknownTags _ _ _) as [h2 []].
Qed.
End text.
