(* ===== verification/CodecProcess.v ===== *)
(** * iso8583/codec/gear.go: encoding again, and what becomes of a message

    A decoded message that is encoded as it is sets every field to the value that was
    decoded ([decode_then_encode]).  [Process] disposes of a message in one way
    ([process_outcome]); warnings change nothing but a counter ([warn_only_counts]) and
    an enforcing codec forwards only messages that break no rejecting rule
    ([enforced_messages_obey]).  The rules judge the raw keys, so a message built from
    aliases is judged as if it were empty ([alias_message_rejected]). *)
From Stdlib Require Import Ascii.
From S2P Require Import Prelude Utf8 Bytes Keys When SdlCycles Sdl SdlSpec SdlValidate FluxMsg MsgTree MsgValidate Codec CodecSpec.
Open Scope Z_scope.

(** ** Encoding what was decoded *)

Section encode.
Context `{Iso8583} (sprint : heap → val → string).

(** A message being built, with the fields set so far. *)
Inductive built : Message → list Z → Prop :=
| bu_fresh iso : NewMessage = Some iso → built iso []
| bu_text iso ids i s : built iso ids → built (SetField iso i s).1 (i :: ids)
| bu_bytes iso ids i b : built iso ids → built (BinaryField iso i b).1 (i :: ids).

(** A message that is being built has a bitmap, and it reports only fields that were set. *)
Definition bitmapHonest : Prop :=
  ∀ iso ids, built iso ids → ∃ bit, IsoBitmap iso = Some bit ∧ ∀ i, bit i = true → i ∈ ids.

Lemma built_put h iso ids i v : built iso ids → built (putValue sprint h iso i v).1 (i :: ids).
Proof. intros Hb. unfold putValue. destruct v; by constructor. Qed.

Context (h : heap) (m : FluxMsg) (value : Z → val).
Definition putAll (iso : Message) (calls : list Z) : Message := foldl (λ iso i, (putValue sprint h iso i (value i)).1) iso calls.

Lemma putAll_app iso c1 c2 : putAll iso (c1 ++ c2) = putAll (putAll iso c1) c2.
Proof. apply foldl_app. Qed.

Context (present : list Z).
(** The library takes back each value it gave. *)
Definition accepts : Prop := ∀ iso i, i ∈ present → (putValue sprint h iso i (value i)).2 = Ok ().

Lemma encodeAliases_ok range iso ids done : accepts → built iso ids →
  (∀ i a v, (i, a) ∈ range → Get h m a = Some v → i ∈ present ∧ v = value i) →
  ∃ calls, encodeAliases sprint h m range iso done = Ok (putAll iso calls, done ++ calls) ∧
    built (putAll iso calls) (rev calls ++ ids) ∧ (∀ i, i ∈ calls → i ∈ present).
Proof.
  intros Ha. revert iso ids done. induction range as [|[i a] range IH]; intros iso ids done Hb Hg.
  { exists []. cbn. rewrite app_nil_r. split_and!; [done|done|by intros i ?%elem_of_nil]. }
  assert (∀ i a v, (i, a) ∈ range → Get h m a = Some v → i ∈ present ∧ v = value i) as Hg'.
  { intros j b v Hj. apply Hg. apply elem_of_cons. by right. }
  cbn [encodeAliases]. destruct (i =? 0); [by apply IH|]. destruct (Get h m a) as [v|] eqn:E; [|by apply IH].
  destruct (Hg i a v) as [Hi ->]; [apply elem_of_cons; by left|done|].
  pose proof (Ha iso i Hi) as Hok. pose proof (built_put h _ _ i (value i) Hb) as Hb1.
  destruct (putValue sprint h iso i (value i)) as [iso1 r] eqn:Ep. cbn in Hok, Hb1. subst r.
  destruct (IH iso1 (i :: ids) (done ++ [i]) Hb1 Hg') as (calls & Hr & Hb2 & Hs). exists (i :: calls).
  assert (putAll iso (i :: calls) = putAll iso1 calls) as Hpa by (unfold putAll; cbn; by rewrite Ep).
  rewrite Hr, Hpa. split; [by rewrite <-app_assoc|]. split; [cbn; by rewrite <-app_assoc|].
  intros j [->|Hj]%elem_of_cons; [done|by apply Hs].
Qed.

Lemma encodeRaw_ok ids iso set done : bitmapHonest → accepts → built iso set →
  (∀ i, i ∈ ids → Get h m (fieldKey i) = if bool_decide (i ∈ present) then Some (value i) else None) →
  ∃ calls, encodeRaw sprint h m ids iso done = Ok (putAll iso calls, done ++ calls) ∧
    (∀ i, i ∈ calls → i ∈ present) ∧ (∀ i, i ∈ ids → i ∈ present → i ∈ calls ∨ i ∈ set).
Proof.
  intros Hh Ha. revert iso set done. induction ids as [|i ids IH]; intros iso set done Hb Hg.
  { exists []. cbn. rewrite app_nil_r. split_and!; [done|by intros i ?%elem_of_nil|by intros i ?%elem_of_nil]. }
  assert (∀ i, i ∈ ids → Get h m (fieldKey i) = if bool_decide (i ∈ present) then Some (value i) else None) as Hg'.
  { intros j Hj. apply Hg. apply elem_of_cons. by right. }
  cbn [encodeRaw]. destruct (Hh _ _ Hb) as (bit & -> & Hbit). destruct (bit i) eqn:Ei.
  { destruct (IH iso set done Hb Hg') as (calls & Hr & Hs & Hc). exists calls. split_and!; [done|done|].
    intros j [->|Hj]%elem_of_cons Hp; [right; by apply Hbit|by apply Hc]. }
  rewrite Hg by (apply elem_of_cons; by left). case_bool_decide as Hi.
  - pose proof (Ha iso i Hi) as Hok. pose proof (built_put h _ _ i (value i) Hb) as Hb1.
    destruct (putValue sprint h iso i (value i)) as [iso1 r] eqn:Ep. cbn in Hok, Hb1. subst r.
    destruct (IH iso1 (i :: set) (done ++ [i]) Hb1 Hg') as (calls & Hr & Hs & Hc). exists (i :: calls).
    assert (putAll iso (i :: calls) = putAll iso1 calls) as Hpa by (unfold putAll; cbn; by rewrite Ep).
    rewrite Hr, Hpa. split; [by rewrite <-app_assoc|]. split.
    + intros j [->|Hj]%elem_of_cons; [done|by apply Hs].
    + intros j [->|Hj]%elem_of_cons Hp; [left; apply elem_of_cons; by left|].
      destruct (Hc j Hj Hp) as [?|[->|?]%elem_of_cons]; [left; apply elem_of_cons; by right|left; apply elem_of_cons; by left|by right].
  - destruct (IH iso set done Hb Hg') as (calls & Hr & Hs & Hc). exists calls. split_and!; [done|done|].
    intros j [->|Hj]%elem_of_cons Hp; [done|by apply Hc].
Qed.
End encode.

(** Nothing is stored yet under the raw keys and the aliases. *)
Definition bare (meta : FieldMeta) (h : heap) (m : FluxMsg) : Prop :=
  (∀ i, Get h m (fieldKey i) = None) ∧ ∀ i a, Aliases meta !! i = Some a → Get h m a = None.

(** C17: encoding what was decoded sets the fields that were on the wire, each to the value
    the wire carried. After a decode into a message with no fields of its own, for any
    order in which the aliases are visited, a library that takes back each value it gave
    and a bitmap that reports no field that was not set: the encode succeeds in setting
    the fields, and the message it packs is the new message (with the MTI) in which
    exactly fields that landed are set, each of those from 2 up at least once, always to
    the decoded value: bytes as bytes, text as text. *)
Theorem decode_then_encode `{Iso8583} sprint meta h m fresh iso bit range start :
  wellNamed meta → clear meta h m → bare meta h m → NewMessage = Some fresh → Unpack fresh (RawPayload m) = Ok iso →
  IsoBitmap iso = Some bit → calm iso →
  (∀ i a, (i, a) ∈ range ↔ Aliases meta !! i = Some a) → bitmapHonest →
  accepts sprint (decode meta h m).1 (storedOf iso) (filter (λ i, lands iso bit i = true) (fieldRange 0)) →
  (if bool_decide (mtiOf (decode meta h m).1 m = "") then start = fresh
   else start = (SetField fresh 0 (mtiOf (decode meta h m).1 m)).1 ∧ ∀ p, (SetField fresh 0 (mtiOf (decode meta h m).1 m)).2 ≠ Panic p) →
  ∃ calls done, assemble sprint (decode meta h m).1 m range = Ok (putAll sprint (decode meta h m).1 (storedOf iso) start calls, done) ∧
    (∀ i, i ∈ calls → 0 ≤ i ≤ 128 ∧ lands iso bit i = true) ∧
    (∀ i, 2 ≤ i ≤ 128 → lands iso bit i = true → i ∈ calls).
Proof.
  intros Hw Hcl [Br Ba] Hn Hu Hb Hc Hrange Hh Hacc Hmti.
  destruct (decode_tracked meta h m fresh iso bit Hw Hcl Hn Hu Hb Hc) as (h' & f' & Hd & Ht & _ & Hy & Hz).
  rewrite Hd in *. cbn [fst] in *. set (present := filter _ _) in *.
  assert (∀ i, i ∈ present ↔ 0 ≤ i ≤ 128 ∧ lands iso bit i = true) as Hp.
  { intros i. unfold present. rewrite list_elem_of_filter, fieldRange_elem. tauto. }
  assert (∀ i k, owns meta i (splitDot k) → Get h m k = None → Get h' m k = if bool_decide (i ∈ present) then Some (storedOf iso i) else None) as Hget.
  { intros i k Ho Hk. unfold Get. rewrite (t_get _ _ _ _ Ht) by (by eapply owns_path). destruct (bool_decide_reflect (i ∈ present)) as [Hi|Hi].
    - apply Hp in Hi as [Hi Hl]. by apply Hy.
    - rewrite (Hz i); [done|done|]. intros Hr. apply not_true_iff_false. intros Hl. by apply Hi, Hp. }
  assert (∃ set0 done0, built start set0 ∧ (∀ i, i ∈ set0 → i = 0) ∧
    assemble sprint h' m range = match encodeAliases sprint h' m range start done0 with Ok (iso, d) => encodeRaw sprint h' m (fieldRange 2) iso d | r => r end)
    as (set0 & done0 & Hb0 & Hs0 & Has).
  { unfold assemble. rewrite Hn. destruct (bool_decide (mtiOf h' m = "")).
    - subst start. exists [], []. split_and!; [by constructor|by intros i ?%elem_of_nil|done].
    - destruct Hmti as [-> Hnp]. exists [0], [0]. split_and!; [by repeat constructor|by intros i ->%list_elem_of_singleton|].
      by destruct (SetField fresh 0 _) as [iso0 [| |p]]; [..|destruct (Hnp p)]. }
  destruct (encodeAliases_ok sprint h' m (storedOf iso) present range start set0 done0 Hacc Hb0) as (c1 & Ha1 & Hb1 & Hi1).
  { intros i a v Hin Hv. apply Hrange in Hin. rewrite (Hget i a) in Hv; [|right; eauto|by eapply Ba].
    destruct (bool_decide_reflect (i ∈ present)); by simplify_eq. }
  destruct (encodeRaw_ok sprint h' m (storedOf iso) present (fieldRange 2) _ _ (done0 ++ c1) Hh Hacc Hb1) as (c2 & Ha2 & Hi2 & Hc2).
  { intros i _. apply Hget; [rewrite fieldKey_path; by left|apply Br]. }
  exists (c1 ++ c2). eexists. rewrite Has, Ha1, Ha2, putAll_app. split; [done|]. split.
  - intros i [?|?]%elem_of_app; apply Hp; eauto.
  - intros i Hi Hl. apply elem_of_app.
    destruct (Hc2 i) as [?|[Hr|Hs]%elem_of_app]; [by apply fieldRange_elem|apply Hp; split; [lia|done]|by right| |].
    + left. by apply list_elem_of_In, in_rev, list_elem_of_In.
    + apply Hs0 in Hs. lia.
Qed.

(** ** What becomes of a message *)

Lemma putMetas_inv h m l h' : putMetas h m l = Some h' →
  metaOf h' m = foldl (λ mt kv, <[kv.1 := kv.2]> mt) (metaOf h m) l ∧ objs h' = objs h ∧ msgs h' = msgs h.
Proof.
  revert h. induction l as [|[k v] l IH]; intros h; cbn; [by intros [= ->]|].
  destruct (putMeta h m k v) as [h1|] eqn:E; [|done]. intros (H1 & H2 & H3)%IH. pose proof (putMeta_inv _ _ _ _ _ E) as [E1 _].
  rewrite H1, E1, H2, H3. unfold putMeta in E. destruct (Metadata m) as [l0|]; [|done]. by destruct (metas h !! l0); simplify_eq.
Qed.

Lemma putMetas_lookup h m l h' k v : putMetas h m l = Some h' → NoDup l.*1 → (k, v) ∈ l → metaOf h' m !! k = Some v.
Proof.
  intros (-> & _)%putMetas_inv. generalize (metaOf h m). induction l as [|[k' v'] l IH]; intros mt Hnd Hin; [by apply elem_of_nil in Hin|].
  cbn in Hnd |- *. apply NoDup_cons in Hnd as [Hn Hnd]. apply elem_of_cons in Hin as [[= <- <-]|Hin]; [|by apply IH].
  clear IH. assert (∀ mt : gmap string string, mt !! k = Some v → foldl (λ mt kv, <[kv.1 := kv.2]> mt) mt l !! k = Some v) as Hk.
  { clear Hnd mt. induction l as [|[k2 v2] l IH]; intros mt Hmt; [done|]. cbn in *. apply IH; [set_solver|].
    rewrite lookup_insert_ne; [done|set_solver]. }
  apply Hk, lookup_insert_eq.
Qed.

Lemma stamps_nodup g mti : NoDup (stamps g mti).*1.
Proof. unfold stamps. destruct (bool_decide _); [|destruct (2 <=? _)]; apply (bool_decide_unpack _); vm_compute; done. Qed.

Section process.
Context `{Iso8583} (sprint : heap → val → string) {F : Type} (ParseFloat : string → option F) (feq flt fle : F → F → bool).
Context (violationText : Violation → string).
Abbreviation Process := (Process sprint ParseFloat feq flt fle violationText).
Abbreviation judge := (judge sprint ParseFloat feq flt fle).
Abbreviation violations v h m mti := (SdlValidate.Validate ParseFloat feq flt fle v (subject sprint h m mti)).

(** The message went on with the contract it was read by. *)
Definition forwarded (g : Gear) (o : outcome) (l : loc) (m : FluxMsg) (mti : string) : Prop :=
  o_msg o = Some l ∧ o_err o = None ∧ o_emits o = [] ∧ ∀ k v, (k, v) ∈ stamps g mti → metaOf (o_heap o) m !! k = Some v.

(** The message failed with [e] and went where [on_error] says. *)
Definition disposed (g : Gear) (o : outcome) (l : loc) (m : FluxMsg) (e : procErr) : Prop :=
  (g_onError g = "drop" → o_msg o = None ∧ o_err o = None ∧ o_emits o = []) ∧
  (g_onError g = "reject" → o_msg o = None ∧ o_err o = None ∧ o_emits o = [("error", l)] ∧
     metaOf (o_heap o) m !! "error.reason" = Some (reasonOf e) ∧ metaOf (o_heap o) m !! "error.gear" = Some (g_name g) ∧
     metaOf (o_heap o) m !! "error.message" = Some (errorText violationText g e)) ∧
  (g_onError g ≠ "drop" → g_onError g ≠ "reject" → o_msg o = Some l ∧ o_err o = Some e ∧ o_emits o = []).

Lemma fail_disposed g h l m e o : fail violationText g h l m e = Some o → disposed g o l m e.
Proof.
  unfold fail, disposed. case_bool_decide as H1; [intros [= <-]; split_and!; intros; (done || congruence)|].
  case_bool_decide as H2; [|intros [= <-]; split_and!; intros; (done || congruence)].
  destruct (putMetas _ _ _) as [h'|] eqn:E; [|done]. intros [= <-]. split_and!; [by intros| |by intros]. intros _. cbn [o_heap].
  split_and!; try done; (eapply putMetas_lookup; [exact E|apply (bool_decide_unpack _); vm_compute; done|set_solver]).
Qed.

(** A rejection comes from a rejecting rule that the message breaks. *)
Lemma judge_cases g h m mti h' r : judge g h m mti = Some (h', r) →
  objs h' = objs h ∧ msgs h' = msgs h ∧
  match r with
  | Some e => g_validation g = "enforce" ∧ ∃ v x, g_validator g = Some v ∧ x ∈ violations v h m mti ∧ v_Severity x = SeverityReject ∧ e = ERejection x
  | None => ∀ v, g_validator g = Some v → g_validation g = "enforce" → Rejects (violations v h m mti) = false
  end.
Proof.
  unfold Codec.judge. destruct (g_validator g) as [v|]; [|by intros [= <- <-]].
  assert (∀ vs, match vs with [] => Some (h, None) | x :: l => noteViolations g h m (x :: l) end = Some (h', r) →
    vs = [] ∧ h' = h ∧ r = None ∨ noteViolations g h m vs = Some (h', r)) as Hc.
  { intros [|x vs]; [intros [= <- <-]; by left|by right]. }
  intros [(Ev & -> & ->)|Hp]%Hc; [split_and!; [done..|]; intros ? [= <-] _; by rewrite Ev|]. clear Hc. revert Hp.
  unfold noteViolations. set (vs := violations v h m mti). destruct (putMeta _ _ _ _) as [h1|] eqn:Ep; [|done]. cbn. intros [= <- <-].
  assert (objs h1 = objs h ∧ msgs h1 = msgs h) as [-> ->].
  { unfold putMeta in Ep. destruct (Metadata m) as [l0|]; [|done]. by destruct (metas h !! l0); simplify_eq. }
  split_and!; [done..|]. case_bool_decide as He; cbn [andb].
  2:{ intros ? _ ?. congruence. }
  destruct (Rejects vs) eqn:Er; [|by intros ? [= <-] _].
  unfold firstRejection. destruct (List.find _ vs) as [x|] eqn:Ef.
  - apply List.find_some in Ef as [Hin Hs%bool_decide_eq_true]. split; [done|]. exists v, x. split_and!; try done. by apply list_elem_of_In.
  - unfold Rejects in Er. apply existsb_exists in Er as (x & Hin & Hx). pose proof (List.find_none _ _ Ef _ Hin) as Hf. cbn in Hf, Hx. congruence.
Qed.

(** C16: a message leaves the codec in one way. Unless the process panics: when the decode
    or the encode fails, or the codec enforces and a rejecting rule is broken, the message
    is dropped, or put on the error port once with the reason, the gear and the message
    of the error, or returned with the error, as [on_error] says (anything but drop and
    reject returns it); otherwise it is forwarded with the contract in its metadata. The
    reason is "violation" only for a message that was transcoded and breaks a rejecting
    rule. *)
Theorem process_outcome g range h l m o :
  msgs h !! l = Some m → Process g range h l = Some o →
  match transcode sprint g range h l m with
  | None => False
  | Some (_, inl e) => disposed g o l m (ECodec e)
  | Some (h1, inr (mti, _)) =>
      forwarded g o l m mti ∧ (∀ v, g_validator g = Some v → g_validation g = "enforce" → Rejects (violations v h1 m mti) = false) ∨
      ∃ v x, g_validator g = Some v ∧ g_validation g = "enforce" ∧ x ∈ violations v h1 m mti ∧ v_Severity x = SeverityReject ∧
        disposed g o l m (ERejection x)
  end.
Proof.
  intros Hm. unfold Codec.Process. rewrite Hm. cbn [mbind option_bind].
  destruct (transcode sprint g range h l m) as [[h1 [e|[mti pf]]]|]; [apply fail_disposed| |done].
  destruct (judge g h1 m mti) as [[h2 r]|] eqn:Ej; [|done]. apply judge_cases in Ej as (_ & _ & Hr). destruct r as [e|].
  - intros Hf. right. destruct Hr as (He & v & x & Hv & Hx & Hs & ->). exists v, x. split_and!; try done. by eapply fail_disposed.
  - destruct (putMetas h2 m (stamps g mti)) as [h3|] eqn:Ep; [|done]. cbn. intros [= <-]. left. split; [|done].
    split_and!; try done. intros k v Hin. eapply putMetas_lookup; [exact Ep|apply stamps_nodup|done].
Qed.

(** C18: an enforcing codec forwards only messages that satisfy the document. A message
    that was transcoded and forwarded by a codec set to enforce the rules of a document
    breaks none of its field rules (all of them reject), and none of its checks whose
    level is to reject. *)
Theorem enforced_messages_obey g range h l m o s v h1 mti pf :
  msgs h !! l = Some m → Process g range h l = Some o →
  NewValidator s = inr v → g_validator g = Some v → g_validation g = "enforce" →
  transcode sprint g range h l m = Some (h1, inr (mti, pf)) →
  o_msg o = Some l → o_err o = None →
  ∀ x, ruleBroken ParseFloat feq flt fle s (subject sprint h1 m mti) x ∨ checkBroken ParseFloat feq flt fle s (subject sprint h1 m mti) x →
    v_Severity x ≠ SeverityReject.
Proof.
  intros Hm Hp Hnv Hv He Ht Ho Hoe x Hx Hs. apply (validate_spec ParseFloat feq flt fle s v _ x Hnv) in Hx.
  unfold Codec.Process in Hp. rewrite Hm in Hp. cbn [mbind option_bind] in Hp. rewrite Ht in Hp.
  destruct (judge g h1 m mti) as [[h2 r]|] eqn:Ej; [|done]. apply judge_cases in Ej as (_ & _ & Hr). destruct r as [e|].
  - apply fail_disposed in Hp as (D1 & D2 & D3). destruct (decide (g_onError g = "drop")) as [Hd|Hd]; [by destruct (D1 Hd); congruence|].
    destruct (decide (g_onError g = "reject")) as [Hj|Hj]; [by destruct (D2 Hj); congruence|]. destruct (D3 Hd Hj) as (_ & ? & _). congruence.
  - specialize (Hr v Hv He). unfold Rejects in Hr. apply not_true_iff_false in Hr. apply Hr, existsb_exists.
    exists x. split; [by apply list_elem_of_In|by apply bool_decide_eq_true].
Qed.

(** *** Warnings *)

(** The same codec with the rules off. *)
Definition silence (g : Gear) : Gear := mkGear (g_name g) (g_direction g) (g_onError g) "off" None (g_contract g) (g_meta g).

Lemma putMeta_some h m k v h' k2 v2 : putMeta h m k v = Some h' → is_Some (putMeta h m k2 v2) ∧ is_Some (putMeta h' m k2 v2).
Proof.
  unfold putMeta. destruct (Metadata m) as [l|]; [|done]. destruct (metas h !! l) as [mt|]; [|done]. intros [= <-]. cbn.
  rewrite lookup_insert_eq. eauto.
Qed.

(** The metadata of the message, and every other one. *)
Definition metaAgree (m : FluxMsg) (k0 : string) (h h' : heap) : Prop :=
  nxt h' = nxt h ∧ objs h' = objs h ∧ msgs h' = msgs h ∧ (∀ k, k ≠ k0 → metaOf h' m !! k = metaOf h m !! k) ∧
  ∀ l, Metadata m ≠ Some l → metas h' !! l = metas h !! l.

Lemma putMeta_agree m k0 h h' k v h1 : metaAgree m k0 h h' → putMeta h m k v = Some h1 → is_Some (putMeta h' m k v) →
  ∃ h1', putMeta h' m k v = Some h1' ∧ metaAgree m k0 h1 h1'.
Proof.
  intros (E0 & E1 & E2 & E3 & E4) Hp [h1' Hp']. exists h1'. split; [done|].
  pose proof (putMeta_inv _ _ _ _ _ Hp) as [M1 _]. pose proof (putMeta_inv _ _ _ _ _ Hp') as [M2 _].
  unfold putMeta in Hp, Hp'. destruct (Metadata m) as [l|] eqn:El; [|done].
  destruct (metas h !! l) as [mt|] eqn:Em; [|done]. destruct (metas h' !! l) as [mt'|] eqn:Em'; [|done]. simplify_eq.
  split_and!; try done.
  - intros k1 Hne. rewrite M1, M2. destruct (decide (k = k1)) as [->|]; [by rewrite !lookup_insert_eq|].
    rewrite !lookup_insert_ne by done. by apply E3.
  - intros l1 Hl1. rewrite El in Hl1. cbn. rewrite !lookup_insert_ne by congruence. apply E4. congruence.
Qed.

Lemma putMetas_agree m k0 h h' l h1 : metaAgree m k0 h h' → putMetas h m l = Some h1 →
  (∀ k v, is_Some (putMeta h' m k v)) → ∃ h1', putMetas h' m l = Some h1' ∧ metaAgree m k0 h1 h1'.
Proof.
  revert h h'. induction l as [|[k v] l IH]; intros h h' Ha Hp Hs; cbn in *; [simplify_eq; eauto|].
  destruct (putMeta h m k v) as [h2|] eqn:E; [|done]. destruct (putMeta_agree _ _ _ _ _ _ _ Ha E (Hs k v)) as (h2' & E' & Ha').
  rewrite E'. eapply IH; [done|done|]. intros k2 v2. by eapply (putMeta_some h' m k v h2').
Qed.

Lemma transcode_silence g range h l m : transcode sprint (silence g) range h l m = transcode sprint g range h l m.
Proof. done. Qed.

(** a warning changes no message's way. A codec that warns does to every message what
    the same codec does with the rules off: it returns, emits and fails alike, and leaves
    the same heap, but for the one metadata entry that counts the violations. *)
Theorem warn_only_counts g range h l m o :
  msgs h !! l = Some m → g_validation g = "warn" → Process (silence g) range h l = Some o →
  ∃ o', Process g range h l = Some o' ∧ o_msg o' = o_msg o ∧ o_err o' = o_err o ∧ o_emits o' = o_emits o ∧
    metaAgree m "codec.violations" (o_heap o) (o_heap o').
Proof.
  intros Hm Hv. assert (∀ h, metaAgree m "codec.violations" h h) as Hrefl by (intros; by split_and!).
  unfold Codec.Process. rewrite Hm. cbn [mbind option_bind]. rewrite transcode_silence.
  destruct (transcode sprint g range h l m) as [[h1 [e|[mti pf]]]|]; [|cbn [Codec.judge silence g_validator]|done].
  { intros Hf. exists o. by split_and!. }
  destruct (putMetas h1 m (stamps (silence g) mti)) as [h2|] eqn:Ep; [|done]. cbn [mbind option_bind]. intros [= <-].
  assert (∀ k v, is_Some (putMeta h1 m k v)) as Hs.
  { cbn in Ep. destruct (putMeta h1 m "codec.spec_hash" _) as [?|] eqn:E; [|done]. intros k v. by eapply (putMeta_some _ _ _ _ _ k v) in E as [? _]. }
  assert (∃ h1', judge g h1 m mti = Some (h1', None) ∧ metaAgree m "codec.violations" h1 h1' ∧ ∀ k v, is_Some (putMeta h1' m k v)) as (h1' & -> & Ha & Hs').
  { unfold Codec.judge. destruct (g_validator g) as [v|]; [|eauto]. destruct (violations v h1 m mti) as [|x vs]; [eauto|].
    unfold noteViolations. destruct (Hs "codec.violations" (Itoa (length (x :: vs)))) as [h1' E]. rewrite E. cbn. rewrite bool_decide_false by (rewrite Hv; done).
    exists h1'. split; [done|]. split; [|intros k2 v2; by eapply (putMeta_some h1 m _ _ h1')].
    pose proof (putMeta_inv _ _ _ _ _ E) as [M _]. unfold putMeta in E. destruct (Metadata m) as [ml|] eqn:El; [|done].
    destruct (metas h1 !! ml) as [mt|] eqn:Em; [|done]. simplify_eq. split_and!; try done.
    - intros k Hne. rewrite M. by rewrite lookup_insert_ne.
    - intros l1 Hl1. cbn. rewrite lookup_insert_ne; [done|]. congruence. }
  destruct (putMetas_agree _ _ _ _ _ _ Ha Ep Hs') as (h2' & Ep' & Ha2). change (stamps (silence g) mti) with (stamps g mti) in Ep'.
  rewrite Ep'. cbn. eexists. split; [done|]. by split_and!.
Qed.

(** *** Messages built from aliases *)

Lemma getPath_none h v p ps : mapGet h v p = None → getPath h v (p :: ps) = None.
Proof. intros E. destruct ps; [done|]. by rewrite getPath_cons, E. Qed.

(** The rules read the raw keys only. *)
Lemma unseen_without_raw h h1 m de subs : objs h1 = objs h → mapGet h (VMapS (Data m)) "iso8583" = None →
  subjectField sprint h1 m de subs = None.
Proof.
  intros Ho Hn. unfold subjectField, Get. rewrite (getPath_objs h h1) by done. case_bool_decide.
  - rewrite fieldKey_path. unfold rawPath. by rewrite getPath_none.
  - rewrite below_fieldKey. unfold rawPath. cbn [app]. by rewrite getPath_none.
Qed.

Lemma encode_objs range h l m h1 r : encode sprint range h l m = Some (h1, r) → objs h1 = objs h.
Proof. unfold encode. destruct (assemble _ _ _ _) as [[iso pf]|e|p]; [|by intros [= <- _]|done]. destruct (Pack iso); by intros [= <- _]. Qed.

(** the rules do not see what an encode was given under its aliases. A message that
    carries its fields under their aliases only, encoded without an error by a codec that
    enforces, is rejected by every unconditional rule that makes a field mandatory for its
    MTI, whether or not the field was given and is in the bytes just packed. *)
Theorem alias_message_rejected g range h l m o s v h1 mti pf de f r :
  msgs h !! l = Some m → directionOf g m ≠ "decode" → mapGet h (VMapS (Data m)) "iso8583" = None →
  transcode sprint g range h l m = Some (h1, inr (mti, pf)) →
  NewValidator s = inr v → g_validator g = Some v → g_validation g = "enforce" →
  Fields s !! de = Some f → r ∈ f_Messages f → Usage r = "mandatory" → mr_When r = "" → mti ∈ Codes r →
  Process g range h l = Some o → ∃ x, v_Severity x = SeverityReject ∧ disposed g o l m (ERejection x).
Proof.
  intros Hm Hdir Hn Ht Hnv Hv He Hf Hr Hus Hwhen Hmti Hp.
  assert (objs h1 = objs h) as Ho.
  { unfold transcode in Ht. rewrite bool_decide_false in Ht by done. by eapply encode_objs. }
  assert (mkViolation SeverityReject ViolationUsage de (pathOf de) "" ∈ violations v h1 m mti) as Hx.
  { apply (validate_spec ParseFloat feq flt fle s v _ _ Hnv). left. exists de, f, r. split_and!; try done.
    - left. by rewrite Hwhen.
    - apply b_missing; [done|]. by eapply unseen_without_raw. }
  unfold Codec.Process in Hp. rewrite Hm in Hp. cbn [mbind option_bind] in Hp. rewrite Ht in Hp.
  destruct (judge g h1 m mti) as [[h2 [e|]]|] eqn:Ej; [| |done]; apply judge_cases in Ej as (_ & _ & Hj).
  - destruct Hj as (_ & v' & x & _ & _ & Hs & ->). exists x. split; [done|]. by eapply fail_disposed.
  - specialize (Hj v Hv He). unfold Rejects in Hj. apply not_true_iff_false in Hj. destruct Hj. apply existsb_exists.
    eexists. split; [by apply list_elem_of_In|done].
Qed.
End process.

(** ** The field dump *)

(** Two texts that are alike where [maskValue] shows them. *)
Definition sameEnds (s t : string) : Prop :=
  String.length s = String.length t ∧
  ((10 < String.length s)%nat → String.substring 0 6 s = String.substring 0 6 t ∧
     String.substring (String.length s - 4) 4 s = String.substring (String.length s - 4) 4 t).

(** the field dump shows nothing of a secure field but its length and, when it is longer
    than ten characters, its first six and last four: two messages whose secure field is
    alike in these print the same line, whatever the rest of it is. *)
Theorem trace_hides_secure sprint meta h m h' m' i v v' :
  i ∈ SecureIDs meta → Get h m (fieldKey i) = Some v → Get h' m' (fieldKey i) = Some v' →
  sameEnds (Sprintf_v sprint h v) (Sprintf_v sprint h' v') →
  traceField sprint meta h m i = traceField sprint meta h' m' i.
Proof.
  intros Hs Hv Hv' [Hlen Hends]. unfold traceField. rewrite Hv, Hv', bool_decide_true by done. do 5 f_equal.
  unfold maskValue. rewrite <-Hlen. destruct (Nat.leb_spec (String.length (Sprintf_v sprint h v)) 10); [done|].
  destruct Hends as [-> ->]; [done|]. done.
Qed.

(** ** A concrete library and message *)

Module CodecExample.

Definition notText : string := String "255" "A".
Definition wire : gmap Z string := {[0 := "100"; 2 := "4111111111111111"; 55 := notText]}.

(** A field is its number; the part of field 55 is 1055. *)
#[export] Instance toyLib : Iso8583 := {|
  Message := gmap Z string;
  IsoField := Z;
  NewMessage := Some ∅;
  Unpack _ s := if bool_decide (s = "") then Err "empty" else Ok wire;
  IsoString m i := match m !! i with Some s => Ok s | None => Err "absent" end;
  IsoBytes m i := match m !! i with Some s => Ok s | None => Err "absent" end;
  GetField m i := if bool_decide (is_Some (m !! i)) then Some i else None;
  IsoBitmap m := Some (λ i, bool_decide (i ∈ dom m));
  UnknownTags m := [];
  SetField m i s := (<[i := s]> m, Ok ());
  BinaryField m i s := (<[i := s]> m, Ok ());
  Pack m := Ok (String.concat "|" (map_to_list m).*2);
  typeOf f := if f =? 55 then TComposite else TOther;
  specOf f := Some (mkFieldSpec 0 None None);
  fieldString f := Ok "000100";
  fieldBytes f := Ok "000100";
  GetSubfields f := [("9F02", Some 1055)] |}.

Definition toyMeta : FieldMeta := mkMeta {[2 := "card.pan"]} {[55 := {["9F02" := "emv.amount"]}]} {["card.pan" := 2]} {[2]}.

(** A message as the I/O gears make it, with a payload. *)
Definition emptyHeap : heap := mkHeap 0 ∅ ∅ ∅.
Definition rawMsg : FluxMsg := mkFluxMsg 0 0 "" 0 (Some 0%N) (Some 1%N) 0 "wire" [] 0.
Definition rawHeap : heap := setMsgs {[2%N := rawMsg]} (New emptyHeap).1.

Lemma toy_named x a : named toyMeta x a → x = (2, None) ∧ a = "card.pan" ∨ x = (55, Some "9F02") ∧ a = "emv.amount".
Proof.
  destruct 1 as [i a Ha|i subs s a Hs Ha]; cbn in *.
  - apply lookup_singleton_Some in Ha as [<- <-]. by left.
  - apply lookup_singleton_Some in Hs as [<- <-]. apply lookup_singleton_Some in Ha as [<- <-]. by right.
Qed.

Lemma toy_wellNamed : wellNamed toyMeta.
Proof.
  split.
  - intros x a [[_ ->]|[_ ->]]%toy_named; done.
  - intros x y a b [[-> ->]|[-> ->]]%toy_named [[-> ->]|[-> ->]]%toy_named Hne; [done|by apply apart_head|by apply apart_head|done].
Qed.

Lemma raw_ok : ok_heap rawHeap.
Proof.
  split.
  - intros l o Ho. cbn in Ho. by apply lookup_singleton_Some in Ho as [<- <-].
  - intros l o c _ Ho. cbn in Ho. apply lookup_singleton_Some in Ho as [<- <-]. intros [k Hk]. by rewrite lookup_empty in Hk.
  - intros l mt Ho. cbn in Ho. by apply lookup_singleton_Some in Ho as [<- <-].
  - intros l m Hm. cbn in Hm. by apply lookup_singleton_Some in Hm as [<- <-].
  - intros l m Hm. cbn in Hm. apply lookup_singleton_Some in Hm as [<- <-]. split; [by intros d [= <-]|]. intros d [= <-]. by eexists.
Qed.

Lemma raw_empty p : mapGet rawHeap (VMapS (Data rawMsg)) p = None.
Proof. done. Qed.

Lemma raw_mapAt : mapAt rawHeap (VMapS (Data rawMsg)).
Proof. split; [done|]. by exists 1%N, (OMapS ∅). Qed.

Lemma toy_clear : clear toyMeta rawHeap rawMsg.
Proof.
  split; [apply raw_ok|by intros l [= <-]| |].
  - intros [|p ps] [|q qs] l (y & Hy & _) (z & Hz & _); [done|discriminate Hz|discriminate Hy..].
  - intros ps _. apply empty_free; [apply raw_mapAt|apply raw_empty].
Qed.

Lemma toy_bare : bare toyMeta rawHeap rawMsg.
Proof.
  split; [intros i|intros i a _]; unfold Get; [rewrite fieldKey_path|].
  - by apply getPath_none.
  - pose proof (splitDot_ne a). destruct (splitDot a); [done|]. by apply getPath_none.
Qed.

Lemma toy_calm (m : gmap Z string) : calm (m : Message).
Proof. split; [|done]. intros i _. split; intros p; unfold IsoString, IsoBytes, toyLib; by case_match. Qed.

Definition toyPresent : list Z := [0; 2; 55].

Lemma decode_exact_witness : ∃ h',
  decode toyMeta rawHeap rawMsg = (h', inr ("0100", toyPresent)) ∧
  Get h' rawMsg "iso8583.field.55" = Some (VBytes notText) ∧ Get h' rawMsg "card.pan" = Some (VStr "4111111111111111").
Proof.
  destruct (decode_exact (H := toyLib) toyMeta rawHeap rawMsg ∅ wire (λ i, bool_decide (i ∈ dom wire)) toy_wellNamed toy_clear eq_refl eq_refl eq_refl (toy_calm _))
    as (h' & present & Hd & Hp & Hraw & Halias & _).
  assert (55 ∈ present) as H55 by (apply Hp; split_and!; [lia|lia|right; reflexivity|by eexists]).
  assert (2 ∈ present) as H2 by (apply Hp; split_and!; [lia|lia|right; reflexivity|by eexists]).
  specialize (Hraw 55 H55). specialize (Halias 2 "card.pan" H2 eq_refl).
  exists h'. split; [|split; [exact Hraw|exact Halias]]. assert ((decode toyMeta rawHeap rawMsg).2 = inr ("0100", toyPresent)) as E by (vm_compute; reflexivity).
  rewrite Hd in E |- *. cbn [snd] in E. f_equal. exact E.
Defined.

Lemma subfields_unseen_witness : Field (subject (λ _ _, "") (decode toyMeta rawHeap rawMsg).1 rawMsg "0100") 55 ["9F02"] = None.
Proof.
  apply (subfields_unseen (H := toyLib) (λ _ _, "") toyMeta rawHeap rawMsg ∅ wire (λ i, bool_decide (i ∈ dom wire)) 55 "9F02" []
    toy_wellNamed toy_clear eq_refl eq_refl eq_refl (toy_calm _)); [lia|reflexivity].
Defined.

(** The part is there, under its alias. *)
Example part_under_alias : Get (decode toyMeta rawHeap rawMsg).1 rawMsg "emv.amount" = Some (VStr "000100").
Proof. vm_compute. reflexivity. Qed.

Lemma decoded_text_witness : textHeap (decode toyMeta rawHeap rawMsg).1.
Proof.
  apply (decoded_text (H := toyLib) toyMeta rawHeap rawMsg).
  - intros fresh iso _ _ i s e. unfold IsoString, IsoBytes, toyLib. by case_match.
  - intros l o s Hl. cbn in Hl. apply lookup_singleton_Some in Hl as [<- <-]. by intros [k Hk].
Defined.

Lemma toy_built iso ids : built iso ids → ∀ i, i ∈ dom iso → i ∈ ids.
Proof. induction 1 as [iso [= <-]|iso ids j s _ IH|iso ids j s _ IH]; cbn; set_solver. Qed.

Lemma toy_honest : bitmapHonest.
Proof. intros iso ids Hb. eexists. split; [done|]. cbn. intros i Hi%bool_decide_eq_true. by eapply toy_built. Qed.

Lemma decode_then_encode_witness : ∃ calls done,
  assemble (λ _ _, "") (decode toyMeta rawHeap rawMsg).1 rawMsg [(2, "card.pan")] =
    Ok (putAll (λ _ _, "") (decode toyMeta rawHeap rawMsg).1 (storedOf (wire : Message)) (∅ : gmap Z string) calls, done) ∧ 2 ∈ calls ∧ 55 ∈ calls.
Proof.
  destruct (decode_then_encode (H := toyLib) (λ _ _, "") toyMeta rawHeap rawMsg ∅ wire (λ i, bool_decide (i ∈ dom wire)) [(2, "card.pan")] ∅
    toy_wellNamed toy_clear toy_bare eq_refl eq_refl eq_refl (toy_calm _)) as (calls & done & Ha & _ & Hc).
  - intros i a. rewrite list_elem_of_singleton. cbn. rewrite lookup_singleton_Some. naive_solver.
  - apply toy_honest.
  - intros iso i _. unfold putValue. by destruct (storedOf _ i).
  - reflexivity.
  - exists calls, done. split; [exact Ha|]. split; apply Hc; (lia || reflexivity).
Defined.

(** ** The gear *)

Definition cardSpec : Spec := docOf {[2 := plainField "card.pan" [whenRule "mandatory" ""]]} [].
Definition cardValidator : option Validator := match NewValidator cardSpec with inr v => Some v | inl _ => None end.

Definition toyGear (validation onError : string) : Gear :=
  mkGear "codec" "auto" onError validation (if bool_decide (validation = "off") then None else cardValidator)
    (mkContract "h1" "acme" "1.0.0" "iso8583") toyMeta.

Definition noSprint (_ : heap) (_ : val) : string := "".
Definition noText (_ : Violation) : string := "rule".
Abbreviation run := (Process (H := toyLib) noSprint noFloat Z.eqb Z.ltb Z.leb noText).

(** A message with the card number under its alias, to be encoded. *)
Definition aliasMsg : FluxMsg := mkFluxMsg 0 0 "" 0 (Some 0%N) (Some 1%N) 0 "" [] 0.
Definition aliasHeap : heap :=
  mkHeap 4 {[1%N := OMapS {["card" := VMapS (Some 3%N)]}; 3%N := OMapS {["pan" := VStr "4111111111111111"]}]}
    {[0%N := {["iso8583.mti" := "0100"]}]} {[2%N := aliasMsg]}.

Definition aliasRange : list (Z * string) := [(2, "card.pan")].

(** What a run returns, without its heap. *)
Definition seen (o : option outcome) : option (option N * bool * list (string * N)) :=
  (λ o, (o_msg o, match o_err o with Some _ => true | None => false end, o_emits o)) <$> o.

(** The message is packed with its card number, and rejected because it has none. *)
Example alias_message_runs :
  seen (run (toyGear "off" "reject") aliasRange aliasHeap 2%N) = Some (Some 2%N, false, []) ∧
  seen (run (toyGear "enforce" "reject") aliasRange aliasHeap 2%N) = Some (None, false, [("error", 2%N)]) ∧
  seen (run (toyGear "enforce" "drop") aliasRange aliasHeap 2%N) = Some (None, false, []) ∧
  seen (run (toyGear "enforce" "kill") aliasRange aliasHeap 2%N) = Some (Some 2%N, true, []).
Proof. vm_compute. done. Qed.

Lemma alias_message_rejected_witness : ∃ o x, run (toyGear "enforce" "reject") aliasRange aliasHeap 2%N = Some o ∧
  v_Severity x = SeverityReject ∧ disposed noText (toyGear "enforce" "reject") o 2%N aliasMsg (ERejection x).
Proof.
  destruct (run (toyGear "enforce" "reject") aliasRange aliasHeap 2%N) as [o|] eqn:E; [|vm_compute in E; discriminate E].
  destruct (transcode noSprint (toyGear "enforce" "reject") aliasRange aliasHeap 2%N aliasMsg) as [[h1 [e|[mti pf]]]|] eqn:Et;
    [vm_compute in Et; discriminate Et| |vm_compute in Et; discriminate Et].
  destruct (NewValidator cardSpec) as [e|v] eqn:Ev; [vm_compute in Ev; discriminate Ev|].
  destruct (alias_message_rejected (H := toyLib) noSprint noFloat Z.eqb Z.ltb Z.leb noText (toyGear "enforce" "reject") aliasRange aliasHeap 2%N aliasMsg
    o cardSpec v h1 mti pf 2 (plainField "card.pan" [whenRule "mandatory" ""]) (whenRule "mandatory" "")) as (x & Hs & Hd);
    [reflexivity|vm_compute; discriminate|reflexivity|exact Et|exact Ev| |reflexivity|reflexivity|apply list_elem_of_here|reflexivity|reflexivity| |exact E|].
  - change (cardValidator = Some v). unfold cardValidator. by rewrite Ev.
  - vm_compute in Et. injection Et as _ <- _. apply list_elem_of_here.
  - by exists o, x.
Defined.

Lemma process_outcome_witness : ∃ o, run (toyGear "enforce" "drop") [] rawHeap 2%N = Some o ∧
  forwarded (toyGear "enforce" "drop") o 2%N rawMsg "0100" ∧ metaOf (o_heap o) rawMsg !! "codec.spec_id" = Some "acme".
Proof.
  destruct (run (toyGear "enforce" "drop") [] rawHeap 2%N) as [o|] eqn:E; [|vm_compute in E; discriminate E].
  pose proof (process_outcome (H := toyLib) noSprint noFloat Z.eqb Z.ltb Z.leb noText (toyGear "enforce" "drop") [] rawHeap 2%N rawMsg o eq_refl E) as Hp.
  assert (o_msg o = Some 2%N) as Ho by (vm_compute in E; injection E as <-; reflexivity). exists o. split; [done|].
  assert ((λ r : option (heap * (string + string * list Z)), snd <$> r) (transcode noSprint (toyGear "enforce" "drop") [] rawHeap 2%N rawMsg) = Some (inr ("0100", toyPresent))) as Et
    by (vm_compute; reflexivity).
  destruct (transcode noSprint (toyGear "enforce" "drop") [] rawHeap 2%N rawMsg) as [[h1 r]|]; [|done]. cbn in Et. injection Et as ->.
  destruct Hp as [[Hf _]|(v & x & _ & _ & _ & _ & Hd & _)]; [|destruct (Hd eq_refl); congruence].
  split; [done|]. apply Hf. right. apply list_elem_of_here.
Defined.

Lemma enforced_messages_obey_witness : ∃ o h1 pf v, run (toyGear "enforce" "drop") [] rawHeap 2%N = Some o ∧ NewValidator cardSpec = inr v ∧
  transcode noSprint (toyGear "enforce" "drop") [] rawHeap 2%N rawMsg = Some (h1, inr ("0100", pf)) ∧
  ∀ x, ruleBroken noFloat Z.eqb Z.ltb Z.leb cardSpec (subject noSprint h1 rawMsg "0100") x → v_Severity x ≠ SeverityReject.
Proof.
  destruct (run (toyGear "enforce" "drop") [] rawHeap 2%N) as [o|] eqn:E; [|vm_compute in E; discriminate E].
  destruct (NewValidator cardSpec) as [e|v] eqn:Ev; [vm_compute in Ev; discriminate Ev|].
  assert ((λ r : option (heap * (string + string * list Z)), snd <$> r) (transcode noSprint (toyGear "enforce" "drop") [] rawHeap 2%N rawMsg) = Some (inr ("0100", toyPresent))) as Hs
    by (vm_compute; reflexivity).
  destruct (transcode noSprint (toyGear "enforce" "drop") [] rawHeap 2%N rawMsg) as [[h1 r]|] eqn:Et; [|done]. cbn in Hs. injection Hs as ->.
  exists o, h1, toyPresent, v. split; [done|]. split; [done|]. split; [done|]. intros x Hx.
  apply (enforced_messages_obey (H := toyLib) noSprint noFloat Z.eqb Z.ltb Z.leb noText (toyGear "enforce" "drop") [] rawHeap 2%N rawMsg o cardSpec v h1 "0100" toyPresent);
    [reflexivity|exact E|exact Ev| |reflexivity|exact Et| | |by left].
  - change (cardValidator = Some v). unfold cardValidator. by rewrite Ev.
  - vm_compute in E. injection E as <-. reflexivity.
  - vm_compute in E. injection E as <-. reflexivity.
Defined.

Lemma warn_only_counts_witness : ∃ o o', run (silence (toyGear "warn" "drop")) aliasRange aliasHeap 2%N = Some o ∧
  run (toyGear "warn" "drop") aliasRange aliasHeap 2%N = Some o' ∧ o_msg o' = o_msg o ∧ metaOf (o_heap o') aliasMsg !! "codec.violations" = Some "1".
Proof.
  destruct (run (silence (toyGear "warn" "drop")) aliasRange aliasHeap 2%N) as [o|] eqn:E; [|vm_compute in E; discriminate E].
  destruct (warn_only_counts (H := toyLib) noSprint noFloat Z.eqb Z.ltb Z.leb noText (toyGear "warn" "drop") aliasRange aliasHeap 2%N aliasMsg o eq_refl eq_refl E)
    as (o' & E' & Hm & _). exists o, o'. split; [done|]. split; [done|]. split; [done|].
  vm_compute in E'. injection E' as <-. vm_compute. reflexivity.
Defined.

Definition panHeap (pan : string) : heap :=
  mkHeap 5 {[1%N := OMapS {["iso8583" := VMapS (Some 3%N)]}; 3%N := OMapS {["field" := VMapS (Some 4%N)]}; 4%N := OMapS {["2" := VStr pan]}]} ∅ ∅.

Lemma trace_hides_secure_witness :
  traceField noSprint toyMeta (panHeap "4111111111111111") rawMsg 2 = traceField noSprint toyMeta (panHeap "4111119876541111") rawMsg 2 ∧
  traceField noSprint toyMeta (panHeap "4111111111111111") rawMsg 2 = Some "F002(card.pan)=411111******1111".
Proof.
  split; [|vm_compute; reflexivity].
  apply (trace_hides_secure noSprint toyMeta _ rawMsg _ rawMsg 2 (VStr "4111111111111111") (VStr "4111119876541111"));
    [apply (bool_decide_unpack _); vm_compute; exact I|vm_compute; reflexivity|vm_compute; reflexivity|split; [reflexivity|done]].
Defined.

End CodecExample.
