(* ===== verification/IsoWire.v ===== *)
(** * iso8583/io: configuration, frames on a stream, messages

    [config.go] (defaults and validation) and the parts of [server.go] and [client.go]
    that are functions of the bytes: [readFrame], [buildFrame], [inspect], the message a
    handler makes of a frame, and the frame [Process] writes.  A socket read sees a
    [stream]: the bytes that come and the error a read returns after them.  JSON decoding
    is outside: the parsed configuration is the input. *)
From Stdlib Require Import Ascii.
From S2P Require Import Prelude Bytes FluxMsg MsgValidate Frame.
Open Scope Z_scope.

Record IoConfig := mkIo {
  Mode : string; Bind : string; Connect : string; MaxConnections : Z;
  FrameLengthSize : Z; FrameIncludesHeader : bool; FrameLengthEndian : string;
  Encoding : string; hdr : Config;
  TPDUSwap : bool; HeuristicValidation : bool; PreserveHeaders : bool;
  StrictConnectionRouting : bool; OnMissingConnection : string; StopTimeout : Z }.

(** ** config.go *)

Definition orDefault (s d : string) : string := if bool_decide (s = "") then d else s.

(** [ApplyDefaults] *)
Definition ApplyDefaults (c : IoConfig) : IoConfig :=
  let variant := orDefault (Variant (hdr c)) "generic" in
  let visa := bool_decide (variant = "visa") in
  let headerSize := if visa && (ProtocolHeaderSize (hdr c) =? 0) then 22 else ProtocolHeaderSize (hdr c) in
  let encoding := if visa then orDefault (Encoding c) "ebcdic" else orDefault (Encoding c) "ascii" in
  mkIo (Mode c) (Bind c) (Connect c) (MaxConnections c)
    (if FrameLengthSize c =? 0 then 2 else FrameLengthSize c) (FrameIncludesHeader c) (orDefault (FrameLengthEndian c) "big")
    encoding (mkConfig variant (TPDUEnabled (hdr c)) (TPDULength (hdr c)) headerSize (VisaSrcID (hdr c)) (VisaDstID (hdr c)))
    (TPDUSwap c) (HeuristicValidation c) (PreserveHeaders c) (StrictConnectionRouting c)
    (orDefault (OnMissingConnection c) "drop") (StopTimeout c).

Inductive cfgErr := ENoBind | ENoConnect | EMode (m : string) | ELengthSize (n : Z) | EEndian (e : string) | EClientPolicy (p : string) | EPolicy (p : string).

(** [Validate]: the configuration with its defaults, or the first problem. *)
Definition Validate (c : IoConfig) : cfgErr + IoConfig :=
  let c := ApplyDefaults c in
  let mode :=
    if bool_decide (Mode c = "server") then if bool_decide (Bind c = "") then Some ENoBind else None
    else if bool_decide (Mode c = "client") then if bool_decide (Connect c = "") then Some ENoConnect else None
    else Some (EMode (Mode c)) in
  match mode with
  | Some e => inl e
  | None =>
      if negb (FrameLengthSize c =? 2) && negb (FrameLengthSize c =? 4) then inl (ELengthSize (FrameLengthSize c))
      else if negb (bool_decide (FrameLengthEndian c = "big")) && negb (bool_decide (FrameLengthEndian c = "little")) then inl (EEndian (FrameLengthEndian c))
      else if bool_decide (OnMissingConnection c = "drop") then inr c
      else if bool_decide (OnMissingConnection c = "same_remote_ip") || bool_decide (OnMissingConnection c = "same_listener") then
        if bool_decide (Mode c = "server") then inr c else inl (EClientPolicy (OnMissingConnection c))
      else inl (EPolicy (OnMissingConnection c))
  end.

(** ** Frames *)

(** What a read may fail with. *)
Inductive ioErr := EOF | UnexpectedEOF | ETimeout | EIO | EFrameLength (n : Z).

Definition stream : Type := bytes * ioErr.

(** [io.ReadFull] *)
Definition ReadFull (n : nat) (s : stream) : ioErr + bytes * stream :=
  if (n <=? length s.1)%nat then inr (take n s.1, (drop n s.1, s.2))
  else inl (match s.2 with EOF => match s.1 with [] => EOF | _ => UnexpectedEOF end | e => e end).

(** [order.Uint16], [order.Uint32] and their inverses. *)
Definition little (c : IoConfig) : bool := bool_decide (FrameLengthEndian c = "little").
Definition ordered (c : IoConfig) (b : bytes) : bytes := if little c then reverse b else b.
Fixpoint beValue (b : bytes) : Z := match b with [] => 0 | x :: r => x * 256 ^ Z.of_nat (length r) + beValue r end.
Fixpoint beBytes (n : nat) (v : Z) : bytes :=
  match n with O => [] | S n => v / 256 ^ Z.of_nat n mod 256 :: beBytes n v end.

Definition headerSize (c : IoConfig) : nat := Z.to_nat (FrameLengthSize c).

Definition readFrame (c : IoConfig) (s : stream) : ioErr + bytes * stream :=
  match ReadFull (headerSize c) s with
  | inl e => inl e
  | inr (header, s) =>
      let raw := beValue (ordered c header) in
      let n := if FrameIncludesHeader c then raw - FrameLengthSize c else raw in
      if (n <=? 0) || (65535 <? n) then inl (EFrameLength n) else ReadFull (Z.to_nat n) s
  end.

(** [None] is the error of a payload that is too large for two bytes. *)
Definition buildFrame (c : IoConfig) (payload : bytes) : option bytes :=
  let n := Z.of_nat (length payload) in
  let total := if FrameIncludesHeader c then n + FrameLengthSize c else n in
  if (FrameLengthSize c =? 2) && (65535 <? total) then None
  else Some (ordered c (beBytes (headerSize c) total) ++ payload).

(** ** Messages *)

Record FrameInfo := mkInfo { fi_MTI : string; fi_MTILen : nat; fi_BitmapCount : nat; fi_ActiveFields : list Z; fi_Valid : bool }.

(** [inspect] of a payload with its header; the offset is not negative. *)
Definition inspect (c : IoConfig) (payload : bytes) : FrameInfo :=
  let valid := negb (HeuristicValidation c) in
  if (length payload <? 4)%nat then mkInfo "" 0 0 [] valid else
  let offset := Z.to_nat (GetHeaderOffset payload (hdr c)) in
  let '(mti, mtiLen) := if (offset + 2 <? length payload)%nat then decodeMTI payload offset (Encoding c) else ("", 0%nat) in
  let bitmapOffset := (offset + mtiLen)%nat in
  if HeuristicValidation c && (bitmapOffset + 8 <? length payload)%nat then
    let '(count, fields, used) := extractBitmaps (drop bitmapOffset payload) (Encoding c) in
    mkInfo mti mtiLen count fields (mtiLen + used + length fields <=? length payload)%nat
  else mkInfo mti mtiLen 0 [] valid.

(** The metadata a handler gives a message before it looks at the frame. *)
Definition headerMetadata (c : IoConfig) (payload : bytes) : gmap string string :=
  let offset := GetHeaderOffset payload (hdr c) in
  ExtractHeader payload (hdr c) ∪
  (if PreserveHeaders c && (0 <? offset)
   then {["iso8583.raw_header" := "hex:" +:+ EncodeToString (take (Z.to_nat offset) payload)]} else ∅).

Definition infoMetadata (i : FrameInfo) (connID source : string) (mt : gmap string string) : gmap string string :=
  <["iso8583.fields" := formatFieldList (fi_ActiveFields i)]>
  (<["iso8583.bitmaps" := fmtInt (Z.of_nat (fi_BitmapCount i))]>
  (<["iso8583.mti" := fi_MTI i]>
  (<["conn.id" := connID]>
  (<["flux.source" := source]> mt)))).

(** What becomes of a frame that was read. *)
Inductive ingress := IEmit (mt : gmap string string) (payload : bytes) | IInvalid | IPanic.

(** The body of the loop of the server's [handleConn] after [readFrame]; a negative
    offset panics. *)
Definition serverMessage (c : IoConfig) (payload : bytes) (connID host port : string) : ingress :=
  let offset := GetHeaderOffset payload (hdr c) in
  if offset <? 0 then IPanic else
  let info := inspect c payload in
  if negb (fi_Valid info) then IInvalid else
  IEmit (infoMetadata info connID "iso8583" (<["peer.port" := port]> (<["peer.ip" := host]> (headerMetadata c payload))))
        (drop (Z.to_nat offset) payload).

(** The client's; an invalid frame is skipped. *)
Definition clientMessage (c : IoConfig) (payload : bytes) (connID : string) : ingress :=
  let offset := GetHeaderOffset payload (hdr c) in
  if offset <? 0 then IPanic else
  let info := inspect c payload in
  if negb (fi_Valid info) then IInvalid else
  IEmit (infoMetadata info connID "iso8583_client" (<["peer.ip" := Connect c]> (headerMetadata c payload)))
        (drop (Z.to_nat offset) payload).

(** [decodeRawHeader] with its nil. *)
Definition rawHeaderOf (v : string) : option bytes :=
  match CutPrefix v "hex:" with Some s => DecodeString s | None => Some (toBytes v) end.

(** The header [Process] writes before a payload. *)
Definition egressHeader (swap : bool) (c : IoConfig) (mt : gmap string string) (payload : bytes) : bytes :=
  let preserved :=
    if PreserveHeaders c then
      match mt !! "iso8583.raw_header" with
      | Some raw =>
          (λ h, if swap && TPDUEnabled (hdr c) && TPDUSwap c then swapTPDU h (TPDULength (hdr c)) else h) <$> rawHeaderOf raw
      | None => None
      end
    else None in
  match preserved with
  | Some h => h
  | None => BuildHeader (hdr c) (default "" (mt !! "iso8583.src_id")) (default "" (mt !! "iso8583.dst_id")) (Z.of_nat (length payload))
  end.

(** The bytes written for a message; the server swaps the addresses of a TPDU. *)
Definition egressFrame (swap : bool) (c : IoConfig) (mt : gmap string string) (payload : bytes) : option bytes :=
  buildFrame c (egressHeader swap c mt payload ++ payload).

(** ** Bytes of a length *)

Lemma beBytes_length n v : length (beBytes n v) = n.
Proof. induction n as [|n IH]; [done|]. cbn. by rewrite IH. Qed.

Lemma beBytes_value n v : 0 ≤ v < 256 ^ Z.of_nat n → beValue (beBytes n v) = v.
Proof.
  intros Hv. assert (∀ k, beValue (beBytes k v) = v mod 256 ^ Z.of_nat k) as Hk.
  { induction k as [|k IH]; [by rewrite Z.mod_1_r|]. cbn [beBytes beValue]. rewrite beBytes_length, IH, Nat2Z.inj_succ, Z.pow_succ_r by lia.
    rewrite (Z.mul_comm 256), Z.rem_mul_r by lia. lia. }
  rewrite Hk. by apply Z.mod_small.
Qed.

Lemma ordered_ordered c b : ordered c (ordered c b) = b.
Proof. unfold ordered. destruct (little c); [apply reverse_involutive|done]. Qed.

Lemma ordered_length c b : length (ordered c b) = length b.
Proof. unfold ordered. destruct (little c); [apply length_reverse|done]. Qed.

Lemma ReadFull_app a b e : ReadFull (length a) (a ++ b, e) = inr (a, (b, e)).
Proof.
  unfold ReadFull. cbn [fst snd]. rewrite length_app, (proj2 (Nat.leb_le _ _)) by lia. by rewrite take_app_length, drop_app_length.
Qed.

Lemma validate_frame c c' : Validate c = inr c' →
  (FrameLengthSize c' = 2 ∨ FrameLengthSize c' = 4) ∧ (FrameLengthEndian c' = "big" ∨ FrameLengthEndian c' = "little").
Proof.
  unfold Validate. intros H. repeat case_match; simplify_eq;
    repeat match goal with
    | H : _ && _ = false |- _ => apply andb_false_iff in H
    | H : negb _ = false ∨ negb _ = false |- _ => rewrite !negb_false_iff in H
    end; rewrite ?Z.eqb_eq, ?bool_decide_eq_true in *; done.
Qed.

(** The reader of a frame that was built. *)
Lemma frame_read c p f rest e : (FrameLengthSize c = 2 ∨ FrameLengthSize c = 4) → buildFrame c p = Some f →
  Z.of_nat (length p) ≤ 2 ^ 31 →
  readFrame c (f ++ rest, e) = if (0 <? Z.of_nat (length p)) && (Z.of_nat (length p) <=? 65535) then inr (p, (rest, e)) else inl (EFrameLength (Z.of_nat (length p))).
Proof.
  intros Hsz Hb Hp. unfold buildFrame in Hb. set (n := Z.of_nat (length p)) in *.
  set (total := if FrameIncludesHeader c then n + FrameLengthSize c else n) in *.
  destruct ((FrameLengthSize c =? 2) && (65535 <? total)) eqn:Ec; [done|]. injection Hb as <-.
  assert (0 ≤ total < 256 ^ Z.of_nat (headerSize c)) as Ht.
  { unfold headerSize. unfold total in *. apply andb_false_iff in Ec. rewrite Z.eqb_neq, Z.ltb_ge in Ec.
    destruct Hsz as [E|E]; rewrite E in *; [change (256 ^ _) with 65536|change (256 ^ _) with 4294967296];
      destruct (FrameIncludesHeader c); destruct Ec; lia. }
  assert (length (ordered c (beBytes (headerSize c) total)) = headerSize c) as Hl by (by rewrite ordered_length, beBytes_length).
  unfold readFrame. rewrite <-app_assoc. rewrite <-Hl at 1. rewrite ReadFull_app, ordered_ordered, beBytes_value by done.
  assert ((if FrameIncludesHeader c then total - FrameLengthSize c else total) = n) as -> by (unfold total; destruct (FrameIncludesHeader c); lia).
  destruct (Z.leb_spec n 0), (Z.ltb_spec 65535 n), (Z.ltb_spec 0 n), (Z.leb_spec n 65535); try lia; cbn; try done.
  unfold n. by rewrite Nat2Z.id, ReadFull_app.
Qed.

(** ** Properties *)

(** The frames a handler reads until a read fails. *)
Fixpoint readFrames (fuel : nat) (c : IoConfig) (s : stream) : list bytes * option ioErr :=
  match fuel with
  | O => ([], None)
  | S fuel =>
      match readFrame c s with
      | inl e => ([], Some e)
      | inr (p, s) => let '(ps, e) := readFrames fuel c s in (p :: ps, e)
      end
  end.

Definition sendable (p : bytes) : Prop := (0 < length p)%nat ∧ Z.of_nat (length p) ≤ 65535.

(** C24: what one end frames, the other reads. For a configuration that validates, either
    size and order of the length and either convention about counting it: the frames of
    any payloads of 1 to 65535 bytes, sent one after the other, are read back as those
    payloads in that order, and then the connection's own end is reported. *)
Theorem frames_roundtrip c0 c ps fs e :
  Validate c0 = inr c → Forall sendable ps → mapM (buildFrame c) ps = Some fs →
  readFrames (S (length ps)) c (concat fs, e) = (ps, Some e).
Proof.
  intros [Hsz _]%validate_frame Hs Hm. revert fs Hm. induction Hs as [|p ps [H0 H1] _ IH]; intros fs Hm.
  - apply mapM_Some_1 in Hm. inversion Hm; subst. cbn [readFrames length concat]. unfold readFrame, ReadFull. cbn [fst snd length].
    assert (0 < headerSize c)%nat as Hh by (unfold headerSize; destruct Hsz as [->| ->]; lia).
    rewrite (proj2 (Nat.leb_gt _ _)) by done. by destruct e.
  - cbn in Hm. destruct (buildFrame c p) as [f|] eqn:Ef; [|done]. destruct (mapM (buildFrame c) ps) as [fs'|]; [|done]. cbn in Hm. injection Hm as <-.
    cbn [length concat]. remember (S (length ps)) as n eqn:En. cbn [readFrames].
    rewrite (frame_read c p f) by (done || lia). rewrite (proj2 (Z.ltb_lt _ _)), (proj2 (Z.leb_le _ _)) by lia. cbn [andb].
    by rewrite (IH fs' eq_refl).
Qed.

(** With a length of four bytes a payload of more than 65535 bytes is framed and sent,
    and the same gear at the other end refuses it as an invalid length, which closes the
    connection. *)
Theorem oversized_frame_refused c p rest e :
  FrameLengthSize c = 4 → 65535 < Z.of_nat (length p) ≤ 2 ^ 31 →
  ∃ f, buildFrame c p = Some f ∧ readFrame c (f ++ rest, e) = inl (EFrameLength (Z.of_nat (length p))).
Proof.
  intros Hs Hp. assert (∃ f, buildFrame c p = Some f) as [f Hf] by (unfold buildFrame; rewrite Hs; cbn; eauto).
  exists f. split; [done|]. rewrite (frame_read c p f) by (auto || lia).
  by rewrite (proj2 (Z.leb_gt (Z.of_nat (length p)) 65535)), andb_false_r by lia.
Qed.

Lemma no_raw_header payload cfg : ExtractHeader payload cfg !! "iso8583.raw_header" = None.
Proof. unfold ExtractHeader. repeat case_match; rewrite ?lookup_insert_ne by done; apply lookup_empty. Qed.

Lemma preserved_header c payload connID host port mt inner :
  serverMessage c payload connID host port = IEmit mt inner → PreserveHeaders c = true → 0 < GetHeaderOffset payload (hdr c) →
  mt !! "iso8583.raw_header" = Some ("hex:" +:+ EncodeToString (take (Z.to_nat (GetHeaderOffset payload (hdr c))) payload)) ∧
  inner = drop (Z.to_nat (GetHeaderOffset payload (hdr c))) payload.
Proof.
  intros H Hp Ho. unfold serverMessage in H. rewrite (proj2 (Z.ltb_ge _ _)) in H by lia.
  destruct (fi_Valid (inspect c payload)); [|done]. cbn [negb] in H. injection H as <- <-. split; [|done].
  unfold infoMetadata. rewrite !lookup_insert_ne by done. unfold headerMetadata. rewrite Hp, (proj2 (Z.ltb_lt _ _)) by done. cbn [andb].
  rewrite lookup_union_r by apply no_raw_header. apply lookup_singleton_eq.
Qed.

(** C25: a reply carries the header of its request, readdressed.  Take a server that
    preserves headers and a frame with a header that it emitted as a message: when a frame
    is written for a reply that is not empty and kept the metadata of that header, and the
    header and the reply's payload are together at most 65535 bytes, the peer reads it as
    the header of the request, the addresses of its TPDU exchanged when the server swaps
    them, followed by the reply's own payload; and the message emitted for the request
    holds what followed the header.  Beyond 65535 bytes the peer refuses the frame (see
    [oversized_frame_refused]). *)
Theorem reply_mirrors_header c0 c payload connID host port mt inner mt' r f rest e :
  Validate c0 = inr c → Forall byte_ok payload → PreserveHeaders c = true → 0 < GetHeaderOffset payload (hdr c) →
  serverMessage c payload connID host port = IEmit mt inner →
  mt' !! "iso8583.raw_header" = mt !! "iso8583.raw_header" → r ≠ [] →
  egressFrame true c mt' r = Some f →
  (let header := take (Z.to_nat (GetHeaderOffset payload (hdr c))) payload in
   let header' := if TPDUEnabled (hdr c) && TPDUSwap c then swapTPDU header (TPDULength (hdr c)) else header in
   header ++ inner = payload ∧
   (Z.of_nat (length (header' ++ r)) ≤ 65535 → readFrame c (f ++ rest, e) = inr (header' ++ r, (rest, e)))).
Proof.
  intros [Hsz _]%validate_frame Hb Hp Ho Hm Hmt Hr Hf. destruct (preserved_header _ _ _ _ _ _ _ Hm Hp Ho) as [Hraw ->].
  cbv zeta. split; [apply take_drop|]. intros Hlen. unfold egressFrame in Hf.
  assert (egressHeader true c mt' r = if TPDUEnabled (hdr c) && TPDUSwap c then swapTPDU (take (Z.to_nat (GetHeaderOffset payload (hdr c))) payload) (TPDULength (hdr c))
    else take (Z.to_nat (GetHeaderOffset payload (hdr c))) payload) as He.
  { unfold egressHeader, rawHeaderOf. rewrite Hp, Hmt, Hraw, CutPrefix_app, Decode_Encode by (by apply Forall_take). cbn. by destruct (TPDUEnabled (hdr c) && TPDUSwap c). }
  rewrite He in Hf. set (full := _ ++ r) in *. rewrite (frame_read c full f) by (done || lia).
  assert (0 < length full)%nat by (unfold full; rewrite length_app; destruct r; [done|cbn; lia]).
  by rewrite (proj2 (Z.ltb_lt _ _)), (proj2 (Z.leb_le _ _)) by lia.
Qed.

(** A negative length of the TPDU passes validation, and then every frame panics the
    handler that reads it: no offset may be negative. *)
Theorem negative_tpdu_panics c payload connID host port :
  TPDUEnabled (hdr c) = true → TPDULength (hdr c) < 0 →
  serverMessage c payload connID host port = IPanic ∧ clientMessage c payload connID = IPanic.
Proof.
  intros Ht Hl. unfold serverMessage, clientMessage, GetHeaderOffset. rewrite Ht, (proj2 (Z.ltb_lt (TPDULength (hdr c)) _)) by lia.
  cbn [andb]. by rewrite (proj2 (Z.ltb_lt (TPDULength (hdr c)) 0)).
Qed.

(** ** A configuration *)

Definition tpduConfig : IoConfig :=
  mkIo "server" ":8583" "" 2 2 false "big" "ascii" (mkConfig "generic" true 5 0 "" "") true false true true "same_remote_ip" 5.
Definition tpduFrame : bytes := [96; 0; 1; 0; 2] ++ toBytes "0800rest".

Lemma frames_roundtrip_witness : ∃ fs, mapM (buildFrame tpduConfig) [[1; 2; 3]; [4]] = Some fs ∧
  readFrames 3 tpduConfig (concat fs, EOF) = ([[1; 2; 3]; [4]], Some EOF).
Proof.
  eexists. split; [reflexivity|].
  apply (frames_roundtrip tpduConfig tpduConfig [[1; 2; 3]; [4]] [[0; 3; 1; 2; 3]; [0; 1; 4]] EOF); [reflexivity| |reflexivity].
  repeat constructor; cbn; lia.
Defined.

Lemma reply_mirrors_header_witness : ∃ mt f, serverMessage tpduConfig tpduFrame "0x1" "10.0.0.1" "700" = IEmit mt (toBytes "0800rest") ∧
  egressFrame true tpduConfig mt (toBytes "0810") = Some f ∧
  readFrame tpduConfig (f ++ [], EOF) = inr ([96; 0; 2; 0; 1] ++ toBytes "0810", ([], EOF)).
Proof.
  destruct (serverMessage tpduConfig tpduFrame "0x1" "10.0.0.1" "700") as [mt inner| |] eqn:Em; [|vm_compute in Em; discriminate Em..].
  destruct (egressFrame true tpduConfig mt (toBytes "0810")) as [f|] eqn:Ef.
  - exists mt, f. destruct (reply_mirrors_header tpduConfig tpduConfig tpduFrame "0x1" "10.0.0.1" "700" mt inner mt (toBytes "0810") f [] EOF) as [Hi Hr];
      [reflexivity| |reflexivity|reflexivity|exact Em|reflexivity|discriminate|exact Ef|].
    + apply Forall_app; split; [|apply toBytes_ok]. repeat (apply Forall_cons_2; [unfold byte_ok; lia|]). apply Forall_nil_2.
    + split; [|split; [exact Ef|apply Hr; vm_compute; discriminate]]. f_equal. by apply (app_inv_head [96; 0; 1; 0; 2]).
  - vm_compute in Em. injection Em as <- _. vm_compute in Ef. discriminate Ef.
Defined.

Example negative_tpdu_validates :
  Validate (mkIo "server" ":1" "" 0 2 false "" "" (mkConfig "" true (-1) 0 "" "") true true false true "" 0) =
  inr (mkIo "server" ":1" "" 0 2 false "big" "ascii" (mkConfig "generic" true (-1) 0 "" "") true true false true "drop" 0).
Proof. reflexivity. Qed.
