(* ===== verification/IsoServer.v ===== *)
(** * iso8583/io/server.go: the server

    The accept loop, one handler goroutine per connection, [Drain], [Stop] and
    [Disconnect], interleaved at the operations on what they share: the table of
    connections, the two counters, the draining flag, the done channel and the listener.
    An action is one such operation of one goroutine; [step] is what it does, and [None]
    says that the goroutine is not at it.  The network, the timers and the ids are inputs:
    a read may fail at any time, and succeeds only on a socket that is open and whose
    deadline is not past.  [Process] and [replacementConnection] are functions of the
    table.  Metrics and logging are left out. *)
From S2P Require Import Prelude Bytes Frame FluxMsg MsgValidate IsoWire.
Open Scope Z_scope.

(** Where a handler is; between two of these it touches nothing shared. *)
Inductive phase :=
| HStart            (* accepted and counted; not in the table yet *)
| HOpen             (* in the table; the opened event comes next *)
| HTop              (* top of the loop, before the check of [done] *)
| HCheck            (* before the check of [draining] *)
| HDeadline         (* before the idle deadline is set *)
| HHeader           (* reading the length *)
| HBody             (* reading the payload, its deadline set *)
| HFailed (e : ioErr)  (* a read failed; before the check of [draining] *)
| HBusy             (* inside [emit] *)
| HParked           (* waits for [done] *)
| HCleanup (reason : string)  (* the deferred function: leave the table, close *)
| HNotify (reason : string)   (* the closed event *)
| HUncount          (* the deferred [stopReading] *)
| HExit.            (* the deferred decrement *)

(** A connection and its handler.  [h_closed]: closed at this end; [h_past]: its read
    deadline is in the past. *)
Record handler := mkHandler {
  h_host : string; h_port : string; h_since : Z; h_phase : phase; h_reading : bool;
  h_byCommand : bool; h_closed : bool; h_past : bool }.

Inductive acceptPhase := AIdle | AHave (host port : string) | APassed (host port : string) | ACounted (host port : string) | AEnded.
Inductive drainPhase := DNone | DFlagged | DListener | DRange (todo : list string) | DWait | DOk | DLate.
Inductive stopPhase := SNone | SDone | SListener | SRange (todo : list string) | SWait | SOk | SLate.

Inductive event := EvOpened (id : string) | EvClosed (id reason : string) | EvEmit (id : string) | EvDrained | EvStopped.

(** [log]: the newest first. *)
Record server := mkServer {
  table : gmap string nat; hs : gmap nat handler; next : nat; active : Z; readers : Z;
  draining : bool; done : bool; listening : bool;
  accepting : acceptPhase; drainer : drainPhase; stopper : stopPhase; log : list event }.

Definition newServer : server := mkServer ∅ ∅ 0 0 0 false false true AIdle DNone SNone [].

Definition setHs (f : gmap nat handler → gmap nat handler) (s : server) : server :=
  mkServer (table s) (f (hs s)) (next s) (active s) (readers s) (draining s) (done s) (listening s) (accepting s) (drainer s) (stopper s) (log s).
Definition setTable (f : gmap string nat → gmap string nat) (s : server) : server :=
  mkServer (f (table s)) (hs s) (next s) (active s) (readers s) (draining s) (done s) (listening s) (accepting s) (drainer s) (stopper s) (log s).
Definition addActive (d : Z) (s : server) : server :=
  mkServer (table s) (hs s) (next s) (active s + d) (readers s) (draining s) (done s) (listening s) (accepting s) (drainer s) (stopper s) (log s).
Definition addReaders (d : Z) (s : server) : server :=
  mkServer (table s) (hs s) (next s) (active s) (readers s + d) (draining s) (done s) (listening s) (accepting s) (drainer s) (stopper s) (log s).
Definition setAccepting (a : acceptPhase) (s : server) : server :=
  mkServer (table s) (hs s) (next s) (active s) (readers s) (draining s) (done s) (listening s) a (drainer s) (stopper s) (log s).
Definition setDrainer (d : drainPhase) (s : server) : server :=
  mkServer (table s) (hs s) (next s) (active s) (readers s) (draining s) (done s) (listening s) (accepting s) d (stopper s) (log s).
Definition setStopper (d : stopPhase) (s : server) : server :=
  mkServer (table s) (hs s) (next s) (active s) (readers s) (draining s) (done s) (listening s) (accepting s) (drainer s) d (log s).
Definition setDraining (s : server) : server :=
  mkServer (table s) (hs s) (next s) (active s) (readers s) true (done s) (listening s) (accepting s) (drainer s) (stopper s) (log s).
Definition setDone (s : server) : server :=
  mkServer (table s) (hs s) (next s) (active s) (readers s) (draining s) true (listening s) (accepting s) (drainer s) (stopper s) (log s).
Definition closeListener (s : server) : server :=
  mkServer (table s) (hs s) (next s) (active s) (readers s) (draining s) (done s) false (accepting s) (drainer s) (stopper s) (log s).
Definition logEvent (e : event) (s : server) : server :=
  mkServer (table s) (hs s) (next s) (active s) (readers s) (draining s) (done s) (listening s) (accepting s) (drainer s) (stopper s) (e :: log s).

Definition withPhase (p : phase) (h : handler) : handler :=
  mkHandler (h_host h) (h_port h) (h_since h) p (h_reading h) (h_byCommand h) (h_closed h) (h_past h).
Definition withReading (r : bool) (h : handler) : handler :=
  mkHandler (h_host h) (h_port h) (h_since h) (h_phase h) r (h_byCommand h) (h_closed h) (h_past h).
Definition withSocket (closed past : bool) (h : handler) : handler :=
  mkHandler (h_host h) (h_port h) (h_since h) (h_phase h) (h_reading h) (h_byCommand h) closed past.
Definition byCommand (h : handler) : handler :=
  mkHandler (h_host h) (h_port h) (h_since h) (h_phase h) (h_reading h) true true (h_past h).

(** [closeReason] *)
Definition closeReason (e : ioErr) (stopped : bool) : string :=
  if stopped then "stopped" else
  match e with EOF => "peer_closed" | ETimeout => "idle_timeout" | _ => "read_error" end.

Section server.
Context (c : IoConfig) (idOf : nat → string).

(** *** The accept loop *)
Inductive action :=
| AAccept (host port : string) | ACheckLimit | ACount | ASpawn (now : Z) | AEnd
| HRegister (n : nat) | HNotifyOpen (n : nat) | HCheckDone (n : nat) | HCheckDrain (n : nat)
| HSetDeadline (n : nat) (ok : option ioErr) | HReadHeader (n : nat) | HReadBody (n : nat) (payload : bytes)
| HReadError (n : nat) (e : ioErr) | HAfterError (n : nat) | HEmitted (n : nat) | HUnpark (n : nat)
| HLeave (n : nat) | HNotifyClosed (n : nat) | HStopReading (n : nat) | HDecrement (n : nat)
| Disconnect (id : string)
| DrainFlag | DrainListener | DrainRange | DrainVisit | DrainAlso (id : string) | DrainCheck | DrainDeadline
| StopDone | StopListener | StopRange | StopVisit | StopAlso (id : string) | StopCheck | StopDeadline.

Definition goTo (n : nat) (p : phase) : server → server := setHs (alter (withPhase p) n).

(** [stopReading] *)
Definition stopReading (n : nat) (h : handler) (s : server) : server :=
  if h_reading h then addReaders (-1) (setHs (alter (withReading false) n) s) else s.

Definition acceptStep (a : action) (s : server) : option server :=
  match a, accepting s with
  | AAccept host port, AIdle => if listening s then Some (setAccepting (AHave host port) s) else None
  | ACheckLimit, AHave host port =>
      if (0 <? MaxConnections c) && (MaxConnections c <=? active s) then Some (setAccepting AIdle s)
      else Some (setAccepting (APassed host port) s)
  | ACount, APassed host port => Some (setAccepting (ACounted host port) (addActive 1 s))
  | ASpawn now, ACounted host port =>
      let h := mkHandler host port now HStart true false false false in
      Some (setAccepting AIdle (addReaders 1
        (mkServer (table s) (<[next s := h]> (hs s)) (S (next s)) (active s) (readers s) (draining s) (done s) (listening s) (accepting s) (drainer s) (stopper s) (log s))))
  | AEnd, AIdle => if done s then Some (setAccepting AEnded (closeListener s)) else None
  | _, _ => None
  end.

(** *** A handler *)
Definition handlerStep (n : nat) (a : action) (h : handler) (s : server) : option server :=
  match a, h_phase h with
  | HRegister _, HStart => Some (goTo n HOpen (setTable <[idOf n := n]> s))
  | HNotifyOpen _, HOpen => Some (goTo n HTop (logEvent (EvOpened (idOf n)) s))
  | HCheckDone _, HTop => Some (goTo n (if done s then HCleanup "stopped" else HCheck) s)
  | HCheckDrain _, HCheck => if draining s then Some (goTo n HParked (stopReading n h s)) else Some (goTo n HDeadline s)
  | HSetDeadline _ None, HDeadline => if h_closed h then None else Some (setHs (alter (λ h, withPhase HHeader (withSocket (h_closed h) false h)) n) s)
  | HSetDeadline _ (Some e), HDeadline => Some (goTo n (HCleanup (closeReason e (done s))) s)
  | HReadHeader _, HHeader =>
      if h_closed h || h_past h then None else Some (setHs (alter (λ h, withPhase HBody (withSocket (h_closed h) false h)) n) s)
  | HReadBody _ payload, HBody =>
      if h_closed h || h_past h then None else
      match serverMessage c payload (idOf n) (h_host h) (h_port h) with
      | IEmit _ _ => Some (goTo n HBusy (logEvent (EvEmit (idOf n)) s))
      | IInvalid => Some (goTo n (HCleanup "invalid_frame") s)
      | IPanic => None
      end
  | HReadError _ e, HHeader | HReadError _ e, HBody => Some (goTo n (HFailed e) s)
  | HAfterError _, HFailed e =>
      if draining s then Some (goTo n HParked (stopReading n h s)) else Some (goTo n (HCleanup (closeReason e (done s))) s)
  | HEmitted _, HBusy => Some (goTo n HTop s)
  | HUnpark _, HParked => if done s then Some (goTo n (HCleanup "stopped") s) else None
  | HLeave _, HCleanup r =>
      Some (setHs (alter (λ h, withPhase (HNotify r) (withSocket true (h_past h) h)) n) (setTable (delete (idOf n)) s))
  | HNotifyClosed _, HNotify r =>
      Some (goTo n HUncount (logEvent (EvClosed (idOf n) (if h_byCommand h then "closed_by_command" else r)) s))
  | HStopReading _, HUncount => Some (goTo n HExit (stopReading n h s))
  | HDecrement _, HExit => Some (addActive (-1) (setHs (delete n) s))
  | _, _ => None
  end.

(** *** Disconnect, Drain and Stop *)

(** What a visit of a connection by a range does.  A range visits every connection that is
    in the table throughout, and may visit one that is stored meanwhile. *)
Definition visit (f : handler → handler) (id : string) (s : server) : server :=
  match table s !! id with Some n => setHs (alter f n) s | None => s end.

Definition ids (s : server) : list string := elements (dom (table s)).

Definition controlStep (a : action) (s : server) : option server :=
  match a with
  | Disconnect id => if bool_decide (is_Some (table s !! id)) then Some (visit byCommand id s) else None
  | DrainFlag => match drainer s with DNone => Some (setDrainer DFlagged (setDraining s)) | _ => None end
  | DrainListener => match drainer s with DFlagged => Some (setDrainer DListener (closeListener s)) | _ => None end
  | DrainRange => match drainer s with DListener => Some (setDrainer (DRange (ids s)) s) | _ => None end
  | DrainVisit =>
      match drainer s with
      | DRange (id :: todo) => Some (setDrainer (DRange todo) (visit (λ h, withSocket (h_closed h) true h) id s))
      | DRange [] => Some (setDrainer DWait s)
      | _ => None
      end
  | DrainAlso id => match drainer s with DRange _ => Some (visit (λ h, withSocket (h_closed h) true h) id s) | _ => None end
  | DrainCheck => match drainer s with DWait => if readers s =? 0 then Some (setDrainer DOk (logEvent EvDrained s)) else Some s | _ => None end
  | DrainDeadline => match drainer s with DWait => Some (setDrainer DLate s) | _ => None end
  | StopDone => match stopper s with SNone => Some (setStopper SDone (setDone s)) | _ => None end
  | StopListener => match stopper s with SDone => Some (setStopper SListener (closeListener s)) | _ => None end
  | StopRange => match stopper s with SListener => Some (setStopper (SRange (ids s)) s) | _ => None end
  | StopVisit =>
      match stopper s with
      | SRange (id :: todo) => Some (setStopper (SRange todo) (visit (λ h, withSocket true (h_past h) h) id s))
      | SRange [] => Some (setStopper SWait s)
      | _ => None
      end
  | StopAlso id => match stopper s with SRange _ => Some (visit (λ h, withSocket true (h_past h) h) id s) | _ => None end
  | StopCheck =>
      match stopper s with
      | SWait => if (StopTimeout c <=? 0) || (active s =? 0) then Some (setStopper SOk (logEvent EvStopped s)) else Some s
      | _ => None
      end
  | StopDeadline => match stopper s with SWait => if StopTimeout c <=? 0 then None else Some (setStopper SLate s) | _ => None end
  | _ => None
  end.

(** The handler an action belongs to. *)
Definition handlerOf (a : action) : option nat :=
  match a with
  | HRegister n | HNotifyOpen n | HCheckDone n | HCheckDrain n | HSetDeadline n _ | HReadHeader n | HReadBody n _ | HReadError n _
  | HAfterError n | HEmitted n | HUnpark n | HLeave n | HNotifyClosed n | HStopReading n | HDecrement n => Some n
  | _ => None
  end.

Definition isAccept (a : action) : bool := match a with AAccept _ _ | ACheckLimit | ACount | ASpawn _ | AEnd => true | _ => false end.

Definition step (a : action) (s : server) : option server :=
  if isAccept a then acceptStep a s else
  match handlerOf a with
  | Some n => match hs s !! n with Some h => handlerStep n a h s | None => None end
  | None => controlStep a s
  end.

Fixpoint run (l : list action) (s : server) : option server :=
  match l with [] => Some s | a :: l => match step a s with Some s => run l s | None => None end end.
End server.

(** ** Replies *)

(** A connection in the table, as the range visits it. *)
Record Connection := mkConnection { k_id : string; k_host : option string; k_since : Z }.

(** The loop of [replacementConnection]; an address that cannot be split has no host. *)
Fixpoint newestOf (sameIP : bool) (lostID peerIP : string) (l : list Connection) (newest : option Connection) : option Connection :=
  match l with
  | [] => newest
  | k :: l =>
      newestOf sameIP lostID peerIP l
        (if bool_decide (k_id k = lostID) || sameIP && negb (bool_decide (k_host k = Some peerIP)) then newest
         else match newest with
              | None => Some k
              | Some best => if k_since best <? k_since k then Some k else newest
              end)
  end.

Definition replacementConnection (c : IoConfig) (lostID peerIP : string) (l : list Connection) : option Connection :=
  let sameIP := bool_decide (OnMissingConnection c = "same_remote_ip") in
  if negb sameIP && negb (bool_decide (OnMissingConnection c = "same_listener")) then None
  else if sameIP && bool_decide (peerIP = "") then None
  else newestOf sameIP lostID peerIP l None.

Inductive sendErr := ENoConnID | ENotFound (id : string) | ETooLarge | EWrite.

(** Which connection [Process] writes to. *)
Definition routeReply (c : IoConfig) (mt : gmap string string) (l : list Connection) : sendErr + Connection :=
  match mt !! "conn.id" with
  | None => inl ENoConnID
  | Some id =>
      match List.find (λ k, bool_decide (k_id k = id)) l with
      | Some k => inr k
      | None =>
          match (if negb (StrictConnectionRouting c) then hd_error l
                 else replacementConnection c id (default "" (mt !! "peer.ip")) l) with
          | Some k => inr k
          | None => inl (ENotFound id)
          end
      end
  end.

(** [Process]: the connection and the bytes written to it, nothing for an empty payload;
    [wrote] is whether the socket took them. *)
Definition Process (c : IoConfig) (mt : gmap string string) (payload : bytes) (l : list Connection) (wrote : bool)
    : sendErr + option (Connection * bytes) :=
  match routeReply c mt l with
  | inl e => inl e
  | inr k =>
      match payload with
      | [] => inr None
      | _ => match egressFrame true c mt payload with
             | None => inl ETooLarge
             | Some f => if wrote then inr (Some (k, f)) else inl EWrite
             end
      end
  end.
