(* ===== verification/IsoServerSpec.v ===== *)
(** * The connections of the ISO 8583 server

    Invariants of IsoServer.v over every interleaving of the accept loop, the handlers,
    Drain, Stop and commands; from them the limit of connections, what Drain promises, the
    events of a connection; two interleavings that do not do what their comments say; and
    where a reply is written. *)
From S2P Require Import Prelude Bytes Frame FluxMsg MsgValidate IsoWire IsoServer.
Open Scope Z_scope.

Section spec.
Context (c : IoConfig) (idOf : nat → string) `{!Inj (=) (=) idOf}.
Abbreviation step := (step c idOf).
Abbreviation run := (run c idOf).
Implicit Types (s : server) (h : handler) (n : nat).

(** ** What a handler can do *)

Definition inLoop (p : phase) : bool :=
  match p with HTop | HCheck | HDeadline | HHeader | HBody | HFailed _ | HBusy => true | _ => false end.
(** Past the check of the draining flag. *)
Definition beyond (p : phase) : bool :=
  match p with HDeadline | HHeader | HBody | HFailed _ | HBusy => true | _ => false end.

(** The same connection with another phase; its socket may have changed. *)
Definition same (h h' : handler) : Prop := h_host h' = h_host h ∧ h_since h' = h_since h.

(** A move of handler [n]: its record after, the events and the table. *)
Inductive hmove (s : server) (n : nat) (h : handler) : option handler → list event → gmap string nat → Prop :=
| hm_register h' : h_phase h = HStart → h_phase h' = HOpen → h_reading h' = h_reading h → hmove s n h (Some h') [] (<[idOf n := n]> (table s))
| hm_open h' : h_phase h = HOpen → h_phase h' = HTop → h_reading h' = h_reading h → hmove s n h (Some h') [EvOpened (idOf n)] (table s)
| hm_loop h' : inLoop (h_phase h) = true → inLoop (h_phase h') = true → h_reading h' = h_reading h →
    (beyond (h_phase h') = true → beyond (h_phase h) = true ∨ draining s = false) → hmove s n h (Some h') [] (table s)
| hm_emit h' : h_phase h = HBody → h_phase h' = HBusy → h_reading h' = h_reading h → hmove s n h (Some h') [EvEmit (idOf n)] (table s)
| hm_park h' : inLoop (h_phase h) = true → h_phase h' = HParked → h_reading h' = false → hmove s n h (Some h') [] (table s)
| hm_close h' r : inLoop (h_phase h) = true ∨ h_phase h = HParked → h_phase h' = HCleanup r → h_reading h' = h_reading h →
    hmove s n h (Some h') [] (table s)
| hm_leave h' r : h_phase h = HCleanup r → h_phase h' = HNotify r → h_reading h' = h_reading h → hmove s n h (Some h') [] (delete (idOf n) (table s))
| hm_closed h' r r' : h_phase h = HNotify r → h_phase h' = HUncount → h_reading h' = h_reading h → hmove s n h (Some h') [EvClosed (idOf n) r'] (table s)
| hm_uncount h' : h_phase h = HUncount → h_phase h' = HExit → h_reading h' = false → hmove s n h (Some h') [] (table s)
| hm_exit : h_phase h = HExit → hmove s n h None [] (table s).

Definition after (s : server) (n : nat) (h : handler) (oh : option handler) (evs : list event) (tb : gmap string nat) : server :=
  mkServer tb (match oh with Some h' => <[n := h']> (hs s) | None => delete n (hs s) end) (next s)
    (active s + match oh with Some _ => 0 | None => -1 end)
    (readers s + match oh with Some h' => Z.b2z (h_reading h') - Z.b2z (h_reading h) | None => 0 end)
    (draining s) (done s) (listening s) (accepting s) (drainer s) (stopper s) (evs ++ log s).

Lemma alter_at {A} (f : A → A) n (m : gmap nat A) x : m !! n = Some x → alter f n m = <[n := f x]> m.
Proof. intros H. apply map_eq. intros i. destruct (decide (i = n)) as [->|]; [by rewrite lookup_alter_eq, lookup_insert_eq, H|by rewrite lookup_alter_ne, lookup_insert_ne]. Qed.

Lemma server_eq tb hm nx a r d dn l ac dr st lg a' r' :
  a = a' → r = r' → mkServer tb hm nx a r d dn l ac dr st lg = mkServer tb hm nx a' r' d dn l ac dr st lg.
Proof. by intros -> ->. Qed.

Lemma goTo_after s n h h' evs tb s0 : hs s !! n = Some h → hs s0 = hs s → h_reading h' = h_reading h →
  mkServer tb (hs s0) (next s) (active s) (readers s) (draining s) (done s) (listening s) (accepting s) (drainer s) (stopper s) (evs ++ log s) = s0 →
  ∀ f, f h = h' → setHs (alter f n) s0 = after s n h (Some h') evs tb.
Proof.
  intros Hn Hs Hr <- f <-. unfold setHs, after. cbn. rewrite Hs, (alter_at f n (hs s) h Hn). apply server_eq; [lia|rewrite Hr; lia].
Qed.

Lemma stopped_after s n h p : hs s !! n = Some h →
  goTo n p (stopReading n h s) = after s n h (Some (withPhase p (withReading false h))) [] (table s).
Proof.
  intros Hn. unfold goTo, stopReading. destruct (h_reading h) eqn:Er.
  - unfold setHs, addReaders, after. cbn. rewrite (alter_at (withReading false) n (hs s) h Hn), (alter_at _ n _ (withReading false h)) by apply lookup_insert_eq.
    rewrite insert_insert_eq, Er. apply server_eq; cbn; lia.
  - eapply (goTo_after s n h _ [] (table s)); [done|done| |by destruct s|]; cbn; [done|]. by destruct h; cbn in *; subst.
Qed.


Lemma handler_shape s n h a s' : hs s !! n = Some h → handlerStep c idOf n a h s = Some s' →
  ∃ oh evs tb, hmove s n h oh evs tb ∧ s' = after s n h oh evs tb.
Proof.
  intros Hn Hs.
  assert (∀ f h' evs tb s0, f h = h' → hs s0 = hs s → h_reading h' = h_reading h → hmove s n h (Some h') evs tb →
    mkServer tb (hs s0) (next s) (active s) (readers s) (draining s) (done s) (listening s) (accepting s) (drainer s) (stopper s) (evs ++ log s) = s0 →
    ∃ oh evs tb, hmove s n h oh evs tb ∧ setHs (alter f n) s0 = after s n h oh evs tb) as Hgo.
  { intros f h' evs tb s0 Hf Hs0 Hr Hm E. exists (Some h'), evs, tb. split; [done|]. by eapply goTo_after. }
  assert (∀ evs, mkServer (table s) (hs s) (next s) (active s) (readers s) (draining s) (done s) (listening s) (accepting s) (drainer s) (stopper s) (evs ++ log s) =
    foldr logEvent s evs) as Hlog by (by destruct s; intros evs; induction evs as [|e evs IH]; cbn in *; [|rewrite <-IH]).
  assert (∀ f h' s0, f h = h' → s0 = s → h_reading h' = h_reading h → hmove s n h (Some h') [] (table s) →
    ∃ oh evs tb, hmove s n h oh evs tb ∧ setHs (alter f n) s0 = after s n h oh evs tb) as Hstay.
  { intros f h' s0 Hf -> Hr Hm. eapply (Hgo f h' [] (table s)); [done|done|done|done|exact (Hlog [])]. }
  unfold handlerStep in Hs. destruct a; try done; try (match goal with ok : option ioErr |- _ => destruct ok end); destruct (h_phase h) eqn:Ep; try done; unfold goTo in *.
  - injection Hs as <-. eapply (Hgo _ _ [] (<[idOf n := n]> (table s))); [done|done|done|by apply hm_register|by destruct s].
  - injection Hs as <-. eapply (Hgo _ _ [EvOpened (idOf n)] (table s)); [done|done|done|by apply hm_open|by destruct s].
  - injection Hs as <-. eapply Hstay; [done|done|done|]. destruct (done s); [eapply hm_close; [by left; rewrite Ep|done|done]|].
    apply hm_loop; cbn; rewrite ?Ep; done.
  - revert Hs. destruct (draining s) eqn:Ed; intros [= <-].
    + eexists _, _, _. split; [|by apply stopped_after]. apply hm_park; cbn; by rewrite ?Ep.
    + eapply Hstay; [done|done|done|]. apply hm_loop; cbn; rewrite ?Ep; auto.
  - injection Hs as <-. eapply Hstay; [done|done|done|]. eapply hm_close; [by left; rewrite Ep|done|done].
  - revert Hs. destruct (h_closed h); [done|]. intros [= <-]. eapply Hstay; [done|done|done|]. apply hm_loop; cbn; rewrite ?Ep; auto.
  - revert Hs. destruct (h_closed h || h_past h); [done|]. intros [= <-]. eapply Hstay; [done|done|done|]. apply hm_loop; cbn; rewrite ?Ep; auto.
  - revert Hs. destruct (h_closed h || h_past h); [done|]. destruct (serverMessage _ _ _ _ _); [| |done]; intros [= <-].
    + eapply (Hgo _ _ [EvEmit (idOf n)] (table s)); [done|done|done|by apply hm_emit|by destruct s].
    + eapply Hstay; [done|done|done|]. eapply hm_close; [by left; rewrite Ep|done|done].
  - injection Hs as <-. eapply Hstay; [done|done|done|]. apply hm_loop; cbn; rewrite ?Ep; auto.
  - injection Hs as <-. eapply Hstay; [done|done|done|]. apply hm_loop; cbn; rewrite ?Ep; auto.
  - revert Hs. destruct (draining s) eqn:Ed; intros [= <-].
    + eexists _, _, _. split; [|by apply stopped_after]. apply hm_park; cbn; by rewrite ?Ep.
    + eapply Hstay; [done|done|done|]. eapply hm_close; [by left; rewrite Ep|done|done].
  - injection Hs as <-. eapply Hstay; [done|done|done|]. apply hm_loop; cbn; rewrite ?Ep; done.
  - revert Hs. destruct (done s); [|done]. intros [= <-]. eapply Hstay; [done|done|done|]. eapply hm_close; [by right|done|done].
  - injection Hs as <-. eapply (Hgo _ _ [] (delete (idOf n) (table s))); [done|done|done|by eapply hm_leave|by destruct s].
  - injection Hs as <-. eapply (Hgo _ _ [EvClosed (idOf n) _] (table s)); [done|done|done|by eapply hm_closed|by destruct s].
  - injection Hs as <-. eexists _, _, _. split; [|by apply stopped_after]. by apply hm_uncount.
  - injection Hs as <-. exists None, [], (table s). split; [by apply hm_exit|]. unfold after, addActive, setHs. cbn. apply server_eq; lia.
Qed.

(** ** The invariant *)

Definition registered (p : phase) : bool :=
  match p with HStart | HNotify _ | HUncount | HExit => false | _ => true end.

Definition about (id : string) (e : event) : bool :=
  match e with EvOpened i | EvClosed i _ => bool_decide (i = id) | _ => false end.

(** The events of connection [n], the newest first, for where its handler is. *)
Definition lifeOf (s : server) (n : nat) (evs : list event) : Prop :=
  match h_phase <$> hs s !! n with
  | None => if (n <? next s)%nat then ∃ r, evs = [EvClosed (idOf n) r; EvOpened (idOf n)] else evs = []
  | Some HStart | Some HOpen => evs = []
  | Some HUncount | Some HExit => ∃ r, evs = [EvClosed (idOf n) r; EvOpened (idOf n)]
  | Some _ => evs = [EvOpened (idOf n)]
  end.

Definition reads (kv : nat * handler) : Prop := h_reading kv.2 = true.
#[local] Instance reads_dec kv : Decision (reads kv).
Proof. unfold reads. apply _. Defined.

Record inv (s : server) : Prop := {
  i_active : active s = Z.of_nat (size (hs s)) + match accepting s with ACounted _ _ => 1 | _ => 0 end;
  i_readers : readers s = map_count reads (hs s);
  i_fresh : ∀ n h, hs s !! n = Some h → (n < next s)%nat;
  i_max : 0 < MaxConnections c → active s ≤ MaxConnections c ∧ ∀ a b, accepting s = APassed a b → active s < MaxConnections c;
  i_reading : ∀ n h, hs s !! n = Some h →
    (h_reading h = false → inLoop (h_phase h) = false ∧ h_phase h ≠ HStart ∧ h_phase h ≠ HOpen) ∧ (h_phase h = HExit ∨ h_phase h = HParked → h_reading h = false);
  i_table : ∀ id n, table s !! id = Some n ↔ id = idOf n ∧ ∃ h, hs s !! n = Some h ∧ registered (h_phase h) = true;
  i_drain : drainer s ≠ DNone → draining s = true;
  i_quiet : drainer s = DOk → ∀ n h, hs s !! n = Some h → beyond (h_phase h) = false;
  i_mark : EvDrained ∈ log s → drainer s = DOk;
  i_after : ∀ l2 l1 id, log s = l2 ++ EvDrained :: l1 → EvEmit id ∉ l2;
  i_log : ∀ n, lifeOf s n (filter (λ e, about (idOf n) e = true) (log s)) }.

Lemma newServer_inv : inv newServer.
Proof.
  split; try done; try (by intros ? ? ?; cbn in *; rewrite lookup_empty in * ).
  - intros Hm. cbn. split; [lia|done].
  - intros id n. cbn. rewrite lookup_empty. split; [done|]. intros (_ & h & H & _). by rewrite lookup_empty in H.
  - by intros ?%elem_of_nil.
  - intros l2 l1 id H. by destruct l2.
Qed.

(** *** Handlers *)

Lemma about_self n r : about (idOf n) (EvOpened (idOf n)) = true ∧ about (idOf n) (EvClosed (idOf n) r) = true.
Proof. cbn. by rewrite bool_decide_true. Qed.
Lemma about_other n m r : n ≠ m → about (idOf m) (EvOpened (idOf n)) = false ∧ about (idOf m) (EvClosed (idOf n) r) = false.
Proof. intros Hne. cbn. rewrite bool_decide_false; [done|]. intros E%(inj idOf). done. Qed.

Lemma reads_b2z n h : (if decide (reads (n, h)) then 1 else 0) = Z.b2z (h_reading h).
Proof. case_decide as E; unfold reads in E; cbn in E; [by rewrite E|]. by apply not_true_iff_false in E as ->. Qed.

Lemma count_replace n h h' (m : gmap nat handler) : m !! n = Some h →
  map_count reads (<[n := h']> m) = map_count reads m + (Z.b2z (h_reading h') - Z.b2z (h_reading h)).
Proof.
  intros Hn. rewrite <-insert_delete_eq, map_count_insert by apply lookup_delete_eq.
  rewrite (map_count_delete reads m n h Hn), !reads_b2z. lia.
Qed.

Lemma lifeOf_eq s s' m evs : hs s' !! m = hs s !! m → next s' = next s → lifeOf s m evs → lifeOf s' m evs.
Proof. unfold lifeOf. by intros -> ->. Qed.

Section move.
Context (s : server) (n : nat) (h : handler) (Hn : hs s !! n = Some h) (V : inv s).

(** Another handler sees nothing of a move but the counters. *)
Lemma move_other oh evs tb m : hmove s n h oh evs tb → m ≠ n →
  hs (after s n h oh evs tb) !! m = hs s !! m ∧
  filter (λ e, about (idOf m) e = true) (evs ++ log s) = filter (λ e, about (idOf m) e = true) (log s) ∧
  (∀ id, tb !! id = Some m ↔ table s !! id = Some m).
Proof.
  intros M Hne. split; [|split].
  - cbn. destruct oh; [by rewrite lookup_insert_ne|by rewrite lookup_delete_ne].
  - destruct M; cbn [app]; try done; rewrite filter_cons; destruct (about_other n m "" ltac:(congruence)) as [E1 E2]; rewrite ?E1, ?E2; try done.
    by rewrite (proj2 (about_other n m r' ltac:(congruence))).
  - intros id. destruct M; try done.
    + rewrite lookup_insert_Some. split; [intros [[_ E]|[_ ?]]; congruence|]. intros Ht. right. split; [|done].
      intros <-. apply (i_table _ V) in Ht as (E%(inj idOf) & _). congruence.
    + rewrite lookup_delete_Some. split; [tauto|]. intros Ht. split; [|done].
      intros <-. apply (i_table _ V) in Ht as (E%(inj idOf) & _). congruence.
Qed.

Lemma move_life oh evs tb : hmove s n h oh evs tb →
  lifeOf (after s n h oh evs tb) n (filter (λ e, about (idOf n) e = true) (evs ++ log s)).
Proof.
  intros M. pose proof (i_log _ V n) as L. unfold lifeOf in *. rewrite Hn in L. cbn in L.
  pose proof (proj2 (Nat.ltb_lt _ _) (i_fresh _ V n h Hn)) as Hlt.
  destruct M; cbn [app after hs next]; rewrite ?filter_cons, ?lookup_insert_eq, ?lookup_delete_eq; cbn [fmap option_fmap option_map];
    rewrite ?(proj1 (about_self n "")), ?(proj2 (about_self n r')); cbn [about];
    repeat match goal with
    | E : h_phase _ = _ |- _ => rewrite E in *; clear E
    end; try done.
  - by rewrite decide_True, L.
  - destruct (h_phase h); try done; by destruct (h_phase h').
  - by destruct (h_phase h).
  - destruct H as [H|H]; [by destruct (h_phase h)|by rewrite H in L].
  - rewrite decide_True, L by done. eauto.
  - by rewrite Hlt.
Qed.

Lemma inLoop_registered p : inLoop p = true → registered p = true.
Proof. by destruct p. Qed.

Lemma move_table oh evs tb id : hmove s n h oh evs tb →
  tb !! id = Some n ↔ id = idOf n ∧ ∃ h', oh = Some h' ∧ registered (h_phase h') = true.
Proof.
  intros M. assert (table s !! id = Some n ↔ id = idOf n ∧ registered (h_phase h) = true) as T.
  { rewrite (i_table _ V). split; [|naive_solver]. intros (-> & h0 & E & Hr). rewrite Hn in E. by injection E as ->. }
  assert (∀ h', registered (h_phase h') = registered (h_phase h) →
    table s !! id = Some n ↔ id = idOf n ∧ ∃ h0, Some h' = Some h0 ∧ registered (h_phase h0) = true) as Hkeep.
  { intros h' E. rewrite T, <-E. naive_solver. }
  destruct M.
  - rewrite lookup_insert_Some, T, H. cbn. split; [intros [[<- _]|(_ & _ & ?)]; [|done]; split; [done|]; exists h'; by rewrite H0|].
    intros [-> _]. by left.
  - apply Hkeep. by rewrite H, H0.
  - apply Hkeep. by rewrite !inLoop_registered.
  - apply Hkeep. by rewrite H, H0.
  - apply Hkeep. by rewrite H0, (inLoop_registered (h_phase h)).
  - apply Hkeep. rewrite H0. destruct H as [H|H]; [by rewrite (inLoop_registered (h_phase h))|by rewrite H].
  - rewrite lookup_delete_Some, T. split; [intros (? & ? & _); congruence|]. intros (_ & h0 & [= <-] & Hr). by rewrite H0 in Hr.
  - apply Hkeep. by rewrite H, H0.
  - apply Hkeep. by rewrite H, H0.
  - rewrite T, H. naive_solver.
Qed.

Lemma move_inv oh evs tb : hmove s n h oh evs tb → inv (after s n h oh evs tb).
Proof.
  intros M. assert (∀ h', oh = Some h' → (h_reading h' = false → inLoop (h_phase h') = false ∧ h_phase h' ≠ HStart ∧ h_phase h' ≠ HOpen) ∧
    (h_phase h' = HExit ∨ h_phase h' = HParked → h_reading h' = false)) as Hread.
  { destruct (i_reading _ V n h Hn) as [R1 R2]. intros h0 E.
    assert (∀ p, h_phase h0 = p → inLoop p = true → h_reading h0 = h_reading h → (h_reading h = false → False) →
      (h_reading h0 = false → inLoop (h_phase h0) = false ∧ h_phase h0 ≠ HStart ∧ h_phase h0 ≠ HOpen) ∧ (h_phase h0 = HExit ∨ h_phase h0 = HParked → h_reading h0 = false)) as Hl.
    { intros p -> Hp -> Hf. split; [done|]. by intros [E0|E0]; rewrite E0 in Hp. }
    assert (h_phase h = HStart ∨ h_phase h = HOpen ∨ inLoop (h_phase h) = true → h_reading h = false → False) as Hf.
    { intros Hc Hr. destruct (R1 Hr) as (E1 & E2 & E3). destruct Hc as [?|[?|?]]; congruence. }
    destruct M; simplify_eq.
    - split; [intros Hr; rewrite H1 in Hr; destruct Hf; auto|]. intros [?|?]; congruence.
    - apply (Hl _ eq_refl); [by rewrite H0|done|auto].
    - apply (Hl _ eq_refl); [done|done|auto].
    - apply (Hl _ eq_refl); [by rewrite H0|done|]. apply Hf. right; right. by rewrite H.
    - split; [|done]. by rewrite H0.
    - split; [by rewrite H0|]. rewrite H0. by intros [?|?].
    - split; [by rewrite H0|]. rewrite H0. by intros [?|?].
    - split; [by rewrite H0|]. rewrite H0. by intros [?|?].
    - split; [by rewrite H0|done]. }
  assert (∀ h', oh = Some h' → drainer s = DOk → beyond (h_phase h') = false) as Hquiet.
  { intros h0 E Hd. assert (draining s = true) as Hdr by (apply (i_drain _ V); congruence). pose proof (i_quiet _ V Hd n h Hn) as Hq.
    apply not_true_iff_false. intros Hb. destruct M; simplify_eq; try (rewrite H0 in Hb; done).
    - destruct (H2 Hb); congruence.
    - by rewrite H in Hq. }
  assert (∀ m h', hs (after s n h oh evs tb) !! m = Some h' → m = n ∧ oh = Some h' ∨ m ≠ n ∧ hs s !! m = Some h') as Hhs.
  { intros m h'. cbn. destruct oh as [h0|]; [rewrite lookup_insert_Some|rewrite lookup_delete_Some]; naive_solver. }
  split.
  - cbn [after active hs accepting]. rewrite (i_active _ V). destruct oh as [h'|].
    + rewrite map_size_insert, Hn. cbn. lia.
    + rewrite map_size_delete, Hn. cbn. assert (size (hs s) ≠ 0)%nat by (intros E%map_size_empty_inv; rewrite E in Hn; by rewrite lookup_empty in Hn). lia.
  - cbn [after readers hs]. rewrite (i_readers _ V). destruct oh as [h'|]; [by rewrite (count_replace n h h')|].
    rewrite (map_count_delete reads _ n h Hn), reads_b2z. inversion M. rewrite (proj2 (i_reading _ V n h Hn)) by auto. cbn. lia.
  - intros m h' [[-> _]|[_ Hm]]%Hhs; by eapply (i_fresh _ V).
  - intros Hm. destruct (i_max _ V Hm) as [M1 M2]. cbn [after active accepting]. split; [destruct oh; lia|]. intros a b E. specialize (M2 a b E). destruct oh; lia.
  - intros m h' [[-> E]|[_ Hm]]%Hhs; [by apply Hread|by eapply (i_reading _ V)].
  - intros id m. destruct (decide (m = n)) as [->|Hne].
    + cbn [after table hs]. rewrite (move_table oh evs tb id M). destruct oh as [h'|]; [rewrite lookup_insert_eq|rewrite lookup_delete_eq]; naive_solver.
    + destruct (move_other oh evs tb m M Hne) as (E1 & _ & E2). rewrite E1. cbn [after table]. rewrite E2. apply (i_table _ V).
  - apply (i_drain _ V).
  - intros Hd m h' [[-> E]|[_ Hm]]%Hhs; [by apply Hquiet|by eapply (i_quiet _ V)].
  - cbn [after log drainer]. intros [Hin|Hin]%elem_of_app; [|by apply (i_mark _ V)].
    exfalso. destruct M; try (by apply elem_of_nil in Hin); by apply list_elem_of_singleton in Hin.
  - cbn [after log]. intros l2 l1 id E. destruct M; cbn [app] in E; try (by eapply (i_after _ V)); (destruct l2 as [|e l2]; [done|]; injection E as <- E);
      intros [He|He]%elem_of_cons; try done; try (by eapply (i_after _ V _ _ _ E)).
    assert (drainer s = DOk) as Hd by (apply (i_mark _ V); rewrite E; set_solver). pose proof (i_quiet _ V Hd n h Hn) as Hq. by rewrite H in Hq.
  - intros m. destruct (decide (m = n)) as [->|Hne]; [by apply move_life|].
    destruct (move_other oh evs tb m M Hne) as (E1 & E2 & _). cbn [after log]. rewrite E2. eapply lifeOf_eq; [exact E1|done|apply (i_log _ V)].
Qed.
End move.

(** *** The accept loop *)

Lemma accept_inv a s s' : inv s → acceptStep c a s = Some s' → inv s'.
Proof.
  intros V Hs. pose proof V as [V1 V2 V3 V4 V5 V6 V7 V8 V9 V10 V11]. unfold acceptStep in Hs.
  destruct a; try done; destruct (accepting s) eqn:Ea; try done.
  - destruct (listening s); [|done]. injection Hs as <-. split; cbn; try done. intros Hm. by destruct (V4 Hm).
  - destruct ((0 <? MaxConnections c) && (MaxConnections c <=? active s)) eqn:El; injection Hs as <-; split; cbn; try done.
    + intros Hm. by destruct (V4 Hm).
    + intros Hm. destruct (V4 Hm). split; [done|]. intros _ _ _. rewrite (proj2 (Z.ltb_lt _ _)) in El by done. cbn in El. lia.
  - injection Hs as <-. split; cbn; try done; [lia|]. intros Hm. destruct (V4 Hm) as [_ M2]. specialize (M2 _ _ eq_refl). by split; [lia|].
  - injection Hs as <-. assert (hs s !! next s = None) as Hf.
    { destruct (hs s !! next s) as [h|] eqn:E; [|done]. specialize (V3 _ _ E). lia. }
    split; cbn; try done.
    + rewrite map_size_insert, Hf. lia.
    + rewrite V2, map_count_insert, reads_b2z by done. cbn. lia.
    + intros n h. rewrite lookup_insert_Some. intros [[<- _]|[_ Hh]]; [lia|]. specialize (V3 _ _ Hh). lia.
    + intros Hm. destruct (V4 Hm). by split; [lia|].
    + intros n h. rewrite lookup_insert_Some. intros [[_ <-]|[_ Hh]]; [|by eapply V5]. cbn. split; [done|]. by intros [?|?].
    + intros id n. rewrite V6. destruct (decide (n = next s)) as [->|Hne]; [|by rewrite lookup_insert_ne].
      rewrite lookup_insert_eq, Hf. naive_solver.
    + intros Hd n h. rewrite lookup_insert_Some. intros [[_ <-]|[_ Hh]]; [done|by eapply V8].
    + intros n. specialize (V11 n). unfold lifeOf in *. cbn [hs next log setAccepting addReaders]. destruct (decide (n = next s)) as [->|Hne].
      * rewrite lookup_insert_eq. rewrite Hf in V11. cbn [fmap option_fmap option_map] in V11. by rewrite Nat.ltb_irrefl in V11.
      * rewrite lookup_insert_ne by done. destruct (h_phase <$> hs s !! n) as [p|]; [done|].
        destruct (Nat.ltb_spec n (next s)), (Nat.ltb_spec n (S (next s))); (done || lia).
  - destruct (done s); [|done]. injection Hs as <-. split; cbn; try done. intros Hm. by destruct (V4 Hm).
Qed.

(** *** Commands, Drain and Stop *)

Lemma visit_inv f id s : inv s → (∀ h, h_phase (f h) = h_phase h ∧ h_reading (f h) = h_reading h) → inv (visit f id s).
Proof.
  intros V Hf. unfold visit. destruct (table s !! id) as [n|]; [|done].
  destruct (hs s !! n) as [h|] eqn:Hn.
  2:{ assert (alter f n (hs s) = hs s) as E by (apply map_eq; intros i; destruct (decide (i = n)) as [->|]; [by rewrite lookup_alter_eq, Hn|by rewrite lookup_alter_ne]).
      unfold setHs. rewrite E. by destruct s. }
  destruct (Hf h) as [Fp Fr]. pose proof V as [V1 V2 V3 V4 V5 V6 V7 V8 V9 V10 V11].
  assert (∀ m h', alter f n (hs s) !! m = Some h' → ∃ h0, hs s !! m = Some h0 ∧ h_phase h' = h_phase h0 ∧ h_reading h' = h_reading h0) as Hl.
  { intros m h'. destruct (decide (m = n)) as [->|]; [rewrite lookup_alter_eq, Hn; intros [= <-]; eauto|rewrite lookup_alter_ne by done; eauto]. }
  split; cbn; try done.
  - by rewrite (alter_at f n (hs s) h Hn), map_size_insert, Hn.
  - rewrite (alter_at f n (hs s) h Hn), (count_replace n h) by done. rewrite Fr. lia.
  - intros m h' (h0 & Hh & _)%Hl. by eapply V3.
  - intros m h' (h0 & Hh & -> & ->)%Hl. by eapply V5.
  - intros id' m. rewrite V6. split; intros [-> (h0 & Hh & Hr)]; (split; [done|]).
    + destruct (decide (m = n)) as [->|]; [|exists h0; by rewrite lookup_alter_ne]. exists (f h0). rewrite lookup_alter_eq, Hh. by rewrite (proj1 (Hf h0)).
    + destruct (Hl _ _ Hh) as (h1 & ? & E & _). exists h1. by rewrite <-E.
  - intros Hd m h' (h0 & Hh & -> & _)%Hl. by eapply V8.
  - intros m. specialize (V11 m). unfold lifeOf in *. cbn. destruct (decide (m = n)) as [->|]; [|by rewrite lookup_alter_ne].
    rewrite lookup_alter_eq, Hn in *. cbn in *. by rewrite Fp.
Qed.

(** Fields the invariant does not speak of. *)
Lemma server_frame s s' : inv s → hs s' = hs s → table s' = table s → next s' = next s → active s' = active s → readers s' = readers s →
  accepting s' = accepting s → log s' = log s → (drainer s' ≠ DNone → draining s' = true) → (drainer s' = DOk ↔ drainer s = DOk) → inv s'.
Proof.
  intros [V1 V2 V3 V4 V5 V6 V7 V8 V9 V10 V11] E1 E2 E3 E4 E5 E6 E7 Hd Hk. split; rewrite ?E1, ?E2, ?E3, ?E4, ?E5, ?E6, ?E7; try done.
  - by rewrite Hk.
  - by rewrite Hk.
  - intros n. specialize (V11 n). unfold lifeOf in *. by rewrite E1, E3.
Qed.

(** No handler reads: Drain is over. *)
Lemma drained_inv s : inv s → drainer s = DWait → readers s = 0 → inv (setDrainer DOk (logEvent EvDrained s)).
Proof.
  intros [V1 V2 V3 V4 V5 V6 V7 V8 V9 V10 V11] E Hr.
  assert (∀ n h, hs s !! n = Some h → h_reading h = false) as Hno.
  { intros n h Hn. apply not_true_iff_false. intros Ht. rewrite V2 in Hr.
    rewrite <-(insert_delete_id (hs s) n h Hn), map_count_insert, reads_b2z, Ht in Hr by apply lookup_delete_eq.
    pose proof (map_count_nonneg reads (delete n (hs s))). cbn in Hr. lia. }
  split; cbn; try done.
  - intros _. apply V7. by rewrite E.
  - intros _ n h Hn. destruct (V5 n h Hn) as [Hl _]. destruct (Hl (Hno n h Hn)) as [Hl' _]. by destruct (h_phase h).
  - intros [|e l2] l1 id El; [by intros ?%elem_of_nil|]. injection El as <- El.
    assert (EvDrained ∈ log s) as Hin by (rewrite El; set_solver). apply V9 in Hin. congruence.
Qed.

Lemma serverStopped_inv s : inv s → inv (setStopper SOk (logEvent EvStopped s)).
Proof.
  intros [V1 V2 V3 V4 V5 V6 V7 V8 V9 V10 V11]. split; cbn; try done.
  - by intros [?|?]%elem_of_cons; [|apply V9].
  - intros [|e l2] l1 id El; [done|]. injection El as <- El. intros [?|?]%elem_of_cons; [done|by eapply V10].
Qed.

Lemma control_inv a s s' : inv s → controlStep c a s = Some s' → inv s'.
Proof.
  intros V Hs. pose proof (i_drain _ V) as Vd. unfold controlStep in Hs.
  assert (∀ s0 d id, drainer s ≠ DNone → drainer s ≠ DOk → d ≠ DOk →
    inv (setDrainer d (visit (λ h, withSocket (h_closed h) true h) id s))) as Hdv.
  { intros _ d id H1 H2 H3. pose proof (visit_inv (λ h, withSocket (h_closed h) true h) id s V (λ h, conj eq_refl eq_refl)) as Vv.
    assert (draining (visit (λ h, withSocket (h_closed h) true h) id s) = draining s ∧ drainer (visit (λ h, withSocket (h_closed h) true h) id s) = drainer s) as [Ed Er] by (unfold visit; by destruct (table s !! id)).
    eapply server_frame; [exact Vv|..]; cbn; try done; [intros _; rewrite Ed; by apply Vd|rewrite Er; split; congruence]. }
  assert (∀ s0, hs s0 = hs s → table s0 = table s → next s0 = next s → active s0 = active s → readers s0 = readers s →
    accepting s0 = accepting s → log s0 = log s → draining s0 = draining s → drainer s ≠ DNone → drainer s ≠ DOk → drainer s0 ≠ DOk → inv s0) as Hdr.
  { intros s0 E1 E2 E3 E4 E5 E6 E7 E8 H1 H2 H3. eapply server_frame; [exact V|done..| |split; congruence]. intros _. rewrite E8. by apply Vd. }
  destruct a; try done.
  - case_bool_decide; [|done]. injection Hs as <-. by apply visit_inv.
  - destruct (drainer s) eqn:E; try done. injection Hs as <-. eapply server_frame; [exact V|..]; cbn; try done. by rewrite E.
  - destruct (drainer s) eqn:E; try done. injection Hs as <-. by apply Hdr.
  - destruct (drainer s) eqn:E; try done. injection Hs as <-. by apply Hdr.
  - destruct (drainer s) as [| | |[|id todo]| | |] eqn:E; try done; injection Hs as <-; [by apply Hdr|by apply Hdv].
  - destruct (drainer s) as [| | |todo| | |] eqn:E; try done; injection Hs as <-. by apply visit_inv.
  - destruct (drainer s) eqn:E; try done. destruct (Z.eqb_spec (readers s) 0) as [Hr|]; injection Hs as <-; [|done].
    by apply drained_inv.
  - destruct (drainer s) eqn:E; try done. injection Hs as <-. by apply Hdr.
  - destruct (stopper s); try done. injection Hs as <-. by eapply server_frame.
  - destruct (stopper s); try done. injection Hs as <-. by eapply server_frame.
  - destruct (stopper s); try done. injection Hs as <-. by eapply server_frame.
  - destruct (stopper s) as [| | |[|id todo]| | |]; try done; injection Hs as <-; [by eapply server_frame|].
    pose proof (visit_inv (λ h, withSocket true (h_past h) h) id s V (λ h, conj eq_refl eq_refl)) as Vv.
    eapply server_frame; [exact Vv|..]; cbn; try done. intros Hd. by apply (i_drain _ Vv).
  - destruct (stopper s) as [| | |todo| | |]; try done; injection Hs as <-. by apply visit_inv.
  - destruct (stopper s); try done. destruct ((StopTimeout c <=? 0) || (active s =? 0)); injection Hs as <-; [|done]. by apply serverStopped_inv.
  - destruct (stopper s); try done. destruct (StopTimeout c <=? 0); [done|]. injection Hs as <-. by eapply server_frame.
Qed.

Lemma serverStep_inv a s s' : inv s → step a s = Some s' → inv s'.
Proof.
  intros V Hs. unfold IsoServer.step in Hs. destruct (isAccept a); [by eapply accept_inv|].
  destruct (handlerOf a) as [n|]; [|by eapply control_inv]. destruct (hs s !! n) as [h|] eqn:Hn; [|done].
  destruct (handler_shape _ _ _ _ _ Hn Hs) as (oh & evs & tb & M & ->). by apply move_inv.
Qed.

Lemma serve_inv l s s' : inv s → run l s = Some s' → inv s'.
Proof.
  revert s. induction l as [|a l IH]; intros s V; cbn; [by intros [= <-]|]. destruct (step a s) as [s1|] eqn:E; [|done].
  intros Hr. eapply IH; [|exact Hr]. by eapply serverStep_inv.
Qed.

(** ** Properties *)

(** C22: the limit of connections holds at every moment. However accepts, handlers and stops
    interleave, a server with a limit never counts more connections than it, and never
    has more handlers. *)
Theorem connection_limit l s : run l newServer = Some s → 0 < MaxConnections c →
  active s ≤ MaxConnections c ∧ Z.of_nat (size (hs s)) ≤ MaxConnections c.
Proof.
  intros Hr Hm. pose proof (serve_inv _ _ _ newServer_inv Hr) as V. destruct (i_max _ V Hm) as [Ha _]. pose proof (i_active _ V) as E.
  split; [done|]. destruct (accepting s); lia.
Qed.

(** C13: once Drain has returned without an error nothing more is taken in. In no
    interleaving does a handler emit a message after it, not even that of a connection
    accepted at that moment. *)
Theorem drained_takes_nothing l s l2 l1 id : run l newServer = Some s →
  log s = l2 ++ EvDrained :: l1 → EvEmit id ∉ l2.
Proof. intros Hr. pose proof (serve_inv _ _ _ newServer_inv Hr) as V. apply (i_after _ V). Qed.

(** C23: each connection is reported opened once and closed once, in that order. At every
    moment the events of a connection are none, or that it opened, or that it opened and
    then closed with one reason; and a connection whose handler is gone has both. *)
Theorem connection_events l s n : run l newServer = Some s →
  let evs := rev (filter (λ e, about (idOf n) e = true) (log s)) in
  (evs = [] ∨ evs = [EvOpened (idOf n)] ∨ ∃ r, evs = [EvOpened (idOf n); EvClosed (idOf n) r]) ∧
  ((n < next s)%nat → hs s !! n = None → ∃ r, evs = [EvOpened (idOf n); EvClosed (idOf n) r]).
Proof.
  intros Hr. pose proof (serve_inv _ _ _ newServer_inv Hr) as V. pose proof (i_log _ V n) as L. unfold lifeOf in L.
  split.
  - destruct (hs s !! n) as [h|]; cbn [fmap option_fmap option_map] in L.
    + destruct (h_phase h); (match type of L with ex _ => destruct L as [r ->] | _ => rewrite L end); cbn; eauto.
    + destruct (n <? next s)%nat; [destruct L as [r ->]|rewrite L]; cbn; eauto.
  - intros Hlt Hn. rewrite Hn in L. cbn [fmap option_fmap option_map] in L. rewrite (proj2 (Nat.ltb_lt _ _) Hlt) in L. destruct L as [r ->]. by exists r.
Qed.

(** *** Stop *)

(** Nothing runs, and nothing can be accepted. *)
Record quiet (s : server) : Prop := {
  q_none : hs s = ∅; q_table : table s = ∅; q_listen : listening s = false; q_accept : accepting s = AIdle ∨ accepting s = AEnded }.

Lemma quiet_step a s s' : quiet s → step a s = Some s' →
  quiet s' ∧ ∃ evs, log s' = evs ++ log s ∧ ∀ e, e ∈ evs → e = EvDrained ∨ e = EvStopped.
Proof.
  intros [Q1 Q2 Q3 Q4] Hs.
  assert (∀ s0, hs s0 = hs s → table s0 = table s → listening s0 = false → accepting s0 = accepting s ∨ accepting s0 = AEnded → quiet s0) as Hq.
  { intros s0 E1 E2 E3 E4. split; [congruence|congruence|done|]. destruct E4 as [->|]; auto. }
  assert (∀ id f, visit f id s = s) as Hv by (intros id f; unfold visit; by rewrite Q2, lookup_empty).
  assert (log s = [] ++ log s ∧ ∀ e, e ∈ [] → e = EvDrained ∨ e = EvStopped) as Hnil by (split; [done|by intros e ?%elem_of_nil]).
  assert (∀ e, e = EvDrained ∨ e = EvStopped → e :: log s = [e] ++ log s ∧ ∀ e', e' ∈ [e] → e' = EvDrained ∨ e' = EvStopped) as Hone.
  { intros e He. split; [done|]. by intros e' ->%list_elem_of_singleton. }
  unfold IsoServer.step in Hs. destruct (isAccept a) eqn:Ea.
  - unfold acceptStep in Hs. destruct a; try done; destruct (accepting s) eqn:E; try done; try (destruct Q4; congruence).
    + by rewrite Q3 in Hs.
    + destruct (done s); [|done]. injection Hs as <-. split; [apply Hq; cbn; auto|by exists []].
  - destruct (handlerOf a) as [n|]; [by rewrite Q1, lookup_empty in Hs|]. unfold controlStep in Hs.
    destruct a; try done; repeat case_match; simplify_eq; rewrite ?Hv; (split; [first [by split|apply Hq; cbn; by auto]|]); cbn;
      first [by exists []|by exists [EvDrained]; apply Hone; left|by exists [EvStopped]; apply Hone; right].
Qed.

(** a Stop that waited, and found neither a handler nor a connection between accept and
    its handler, leaves nothing behind. When the listener is closed, the accept loop holds
    no connection and no handler is counted, then whatever happens next, no connection
    opens, closes or emits, and the counters stay at zero. *)
Theorem stopped_server_is_quiet l l' s s' : run l newServer = Some s → listening s = false →
  (accepting s = AIdle ∨ accepting s = AEnded) → active s = 0 → run l' s = Some s' →
  active s' = 0 ∧ ∃ evs, log s' = evs ++ log s ∧ ∀ e, e ∈ evs → e = EvDrained ∨ e = EvStopped.
Proof.
  intros Hr Hl Ha H0 Hr'. pose proof (serve_inv _ _ _ newServer_inv Hr) as V.
  assert (quiet s) as Q.
  { assert (hs s = ∅) as E. { pose proof (i_active _ V) as E. apply map_size_empty_iff. destruct Ha as [Ha|Ha]; rewrite Ha in E; lia. }
    split; try done. apply map_eq. intros id. rewrite lookup_empty. destruct (table s !! id) as [n|] eqn:Et; [|done].
    apply (i_table _ V) in Et as (_ & h & Hh & _). by rewrite E, lookup_empty in Hh. }
  clear Hr Hl Ha H0. revert s V Q Hr'. induction l' as [|a l' IH]; intros s V Q; cbn.
  - intros [= <-]. split; [|exists []; split; [done|by intros e ?%elem_of_nil]].
    rewrite (i_active _ V), (q_none _ Q). by destruct (q_accept _ Q) as [->| ->].
  - destruct (step a s) as [s1|] eqn:E; [|done]. intros Hr. destruct (quiet_step _ _ _ Q E) as (Q1 & evs & E1 & H1).
    destruct (IH s1 (serverStep_inv _ _ _ V E) Q1 Hr) as (H0 & evs' & E2 & H2). split; [done|]. exists (evs' ++ evs).
    split; [by rewrite E2, E1, app_assoc|]. intros e [?|?]%elem_of_app; eauto.
Qed.
End spec.

(** ** Replies *)

(** A connection that the policy accepts in the place of a lost one. *)
Definition eligible (c : IoConfig) (lostID peerIP : string) (k : Connection) : Prop :=
  k_id k ≠ lostID ∧ (OnMissingConnection c = "same_listener" ∨
    OnMissingConnection c = "same_remote_ip" ∧ peerIP ≠ "" ∧ k_host k = Some peerIP).

Lemma newestOf_spec sameIP lost peer l newest :
  let ok k := bool_decide (k_id k = lost) || sameIP && negb (bool_decide (k_host k = Some peer)) = false in
  match newestOf sameIP lost peer l newest with
  | Some k => (newest = Some k ∨ k ∈ l ∧ ok k) ∧ (∀ k', newest = Some k' → k_since k' ≤ k_since k) ∧ (∀ k', k' ∈ l → ok k' → k_since k' ≤ k_since k)
  | None => newest = None ∧ ∀ k', k' ∈ l → ¬ ok k'
  end.
Proof.
  cbv zeta. revert newest. induction l as [|k l IH]; intros newest; cbn [newestOf].
  { destruct newest as [k|]; [|by split; [|intros ? ?%elem_of_nil]]. split_and!; [by left|by intros ? [= <-]|by intros ? ?%elem_of_nil]. }
  set (skip := bool_decide (k_id k = lost) || sameIP && negb (bool_decide (k_host k = Some peer))).
  set (next := if skip then newest else match newest with None => Some k | Some best => if k_since best <? k_since k then Some k else newest end).
  specialize (IH next). destruct (newestOf sameIP lost peer l next) as [b|].
  - destruct IH as (H1 & H2 & H3).
    assert (∀ k', newest = Some k' → k_since k' ≤ k_since b) as Hn.
    { intros k' ->. unfold next in *. destruct skip; [by apply H2|]. destruct (Z.ltb_spec (k_since k') (k_since k)); [specialize (H2 _ eq_refl); lia|by apply H2]. }
    assert (skip = false → k_since k ≤ k_since b) as Hk.
    { intros Hs. unfold next in *. rewrite Hs in *. destruct newest as [best|]; [|by apply H2].
      destruct (Z.ltb_spec (k_since best) (k_since k)); [by apply H2|]. specialize (H2 _ eq_refl). lia. }
    split_and!; [|done|].
    + destruct H1 as [H1|[? ?]]; [|right; split; [apply elem_of_cons; by right|done]]. unfold next in H1.
      destruct skip eqn:Es; [by left|]. destruct newest as [best|]; [destruct (k_since best <? k_since k)|]; simplify_eq; auto;
        right; (split; [apply elem_of_cons; by left|exact Es]).
    + intros k' [->|Hin]%elem_of_cons Ho; [by apply Hk|by apply H3].
  - destruct IH as (H1 & H2). unfold next in H1. destruct skip eqn:Es.
    + split; [done|]. intros k' [->|Hin]%elem_of_cons Ho; [unfold skip in Es; congruence|by eapply H2].
    + destruct newest as [best|]; [by destruct (k_since best <? k_since k)|done].
Qed.

Lemma replacement_spec c lost peer l :
  match replacementConnection c lost peer l with
  | Some k => k ∈ l ∧ eligible c lost peer k ∧ ∀ k', k' ∈ l → eligible c lost peer k' → k_since k' ≤ k_since k
  | None => ∀ k, k ∈ l → ¬ eligible c lost peer k
  end.
Proof.
  unfold replacementConnection. set (same := bool_decide (OnMissingConnection c = "same_remote_ip")).
  destruct (negb same && negb (bool_decide (OnMissingConnection c = "same_listener"))) eqn:E1.
  { apply andb_true_iff in E1 as [E1 E2]. unfold same in E1. rewrite negb_true_iff, bool_decide_eq_false in E1, E2.
    intros k _ [_ [?|[? _]]]; done. }
  destruct (same && bool_decide (peer = "")) eqn:E2.
  { apply andb_true_iff in E2 as [E2 E3]. unfold same in E2. rewrite bool_decide_eq_true in E2, E3.
    intros k _ [_ [?|(_ & ? & _)]]; congruence. }
  assert (∀ k, bool_decide (k_id k = lost) || same && negb (bool_decide (k_host k = Some peer)) = false ↔ eligible c lost peer k) as Hok.
  { intros k. unfold eligible. rewrite orb_false_iff, bool_decide_eq_false, andb_false_iff, negb_false_iff, bool_decide_eq_true.
    apply andb_false_iff in E1, E2. unfold same in *. rewrite ?negb_false_iff, ?bool_decide_eq_true, ?bool_decide_eq_false in *.
    assert (OnMissingConnection c = "same_listener" → OnMissingConnection c ≠ "same_remote_ip") by (intros ->; done). naive_solver. }
  pose proof (newestOf_spec same lost peer l None) as Hs. cbv zeta in Hs. destruct (newestOf same lost peer l None) as [k|].
  - destruct Hs as ([?|[Hin Ho]] & _ & H3); [done|]. split; [done|]. split; [by apply Hok|]. intros k' Hk' He. apply H3; [done|by apply Hok].
  - intros k Hin He. by eapply (proj2 Hs k Hin), Hok.
Qed.

(** a reply goes back to where its request came from, or where the policy allows. What
    Process writes to, it writes to a connection of this server: the request's own while
    it is in the table. When it is gone and routing is strict, the reply is refused unless
    the policy accepts another connection: it is then the newest of those accepted,
    whatever order the table is visited in, and with "same_remote_ip" one from the address
    the request came from. *)
Theorem reply_routing c mt payload l wrote k f id :
  Process c mt payload l wrote = inr (Some (k, f)) → mt !! "conn.id" = Some id → StrictConnectionRouting c = true →
  k ∈ l ∧ egressFrame true c mt payload = Some f ∧
  (k_id k = id ∨ (∀ k', k' ∈ l → k_id k' ≠ id) ∧ eligible c id (default "" (mt !! "peer.ip")) k ∧
     ∀ k', k' ∈ l → eligible c id (default "" (mt !! "peer.ip")) k' → k_since k' ≤ k_since k).
Proof.
  unfold Process, routeReply. intros Hp Hid Hst. rewrite Hid, Hst in Hp. cbn [negb] in Hp.
  destruct (List.find _ l) as [k0|] eqn:Ef.
  - apply List.find_some in Ef as [Hin He%bool_decide_eq_true]. destruct payload; [done|].
    destruct (egressFrame true c mt _) as [f0|] eqn:Eg; [|done]. destruct wrote; [|done]. injection Hp as <- <-.
    split; [by apply list_elem_of_In|]. split; [done|by left].
  - pose proof (replacement_spec c id (default "" (mt !! "peer.ip")) l) as Hs.
    destruct (replacementConnection _ _ _ _) as [k0|]; [|done]. destruct payload; [done|].
    destruct (egressFrame true c mt _) as [f0|] eqn:Eg; [|done]. destruct wrote; [|done]. injection Hp as <- <-.
    destruct Hs as (Hin & He & Hmax). split; [done|]. split; [done|]. right. split; [|done].
    intros k' Hk' E. apply list_elem_of_In in Hk'. pose proof (List.find_none _ _ Ef _ Hk') as Hf. cbn in Hf. by rewrite bool_decide_true in Hf.
Qed.

(** ** Runs of a server for two connections *)

Module IsoServerExample.

Definition ioConfig : IoConfig :=
  mkIo "server" ":8583" "" 2 2 false "big" "ascii" (mkConfig "generic" true 5 0 "" "") true false true true "same_remote_ip" 5.
Definition connId (n : nat) : string := pretty n.
Abbreviation serve l := (run ioConfig connId l newServer).

(** A connection is accepted and enters the loop of its handler. *)
Definition connects (n : nat) : list action :=
  [AAccept "10.0.0.1" "700"; ACheckLimit; ACount; ASpawn (Z.of_nat n); HRegister n; HNotifyOpen n].
(** From the top of the loop to a frame that is emitted. *)
Definition receives (n : nat) : list action :=
  [HCheckDone n; HCheckDrain n; HSetDeadline n None; HReadHeader n; HReadBody n tpduFrame].
Definition drains : list action := [DrainFlag; DrainListener; DrainRange; DrainVisit; DrainVisit].
Definition stops : list action := [StopDone; StopListener; StopRange].

Lemma connection_limit_witness : ∃ s, serve (connects 0 ++ connects 1 ++ [AAccept "10.0.0.9" "1"; ACheckLimit]) = Some s ∧
  active s ≤ 2 ∧ accepting s = AIdle.
Proof.
  destruct (serve (connects 0 ++ connects 1 ++ [AAccept "10.0.0.9" "1"; ACheckLimit])) as [s|] eqn:E; [|vm_compute in E; discriminate E].
  exists s. split; [reflexivity|]. split; [|vm_compute in E; injection E as <-; reflexivity].
  apply (connection_limit ioConfig connId _ s E). reflexivity.
Defined.

Lemma drained_takes_nothing_witness : ∃ s, serve (connects 0 ++ receives 0 ++ drains ++ [HEmitted 0; HCheckDone 0; HCheckDrain 0; DrainCheck]) = Some s ∧
  log s = EvDrained :: [EvEmit "0"; EvOpened "0"] ∧ EvEmit "0" ∉ ([] : list event).
Proof.
  destruct (serve (connects 0 ++ receives 0 ++ drains ++ [HEmitted 0; HCheckDone 0; HCheckDrain 0; DrainCheck])) as [s|] eqn:E; [|vm_compute in E; discriminate E].
  exists s. assert (log s = [] ++ EvDrained :: [EvEmit "0"; EvOpened "0"]) as El by (vm_compute in E; injection E as <-; reflexivity).
  split; [reflexivity|]. split; [exact El|]. apply (drained_takes_nothing ioConfig connId _ s [] _ "0" E El).
Defined.

Lemma connection_events_witness : ∃ s, serve (connects 0 ++ [HCheckDone 0; HCheckDrain 0; HSetDeadline 0 None; HReadError 0 EOF; HAfterError 0; HLeave 0; HNotifyClosed 0; HStopReading 0; HDecrement 0]) = Some s ∧
  rev (filter (λ e, about (connId 0) e = true) (log s)) = [EvOpened "0"; EvClosed "0" "peer_closed"].
Proof.
  destruct (serve (connects 0 ++ [HCheckDone 0; HCheckDrain 0; HSetDeadline 0 None; HReadError 0 EOF; HAfterError 0; HLeave 0; HNotifyClosed 0; HStopReading 0; HDecrement 0])) as [s|] eqn:E;
    [|vm_compute in E; discriminate E].
  exists s. split; [reflexivity|]. destruct (connection_events ioConfig connId _ s 0%nat E) as [_ H].
  destruct H as [r Hr]; [vm_compute in E; injection E as <-; cbn; lia|vm_compute in E; injection E as <-; reflexivity|].
  cbv zeta in Hr. rewrite Hr. vm_compute in E. injection E as <-. vm_compute in Hr. injection Hr as <-. reflexivity.
Defined.

Lemma stopped_server_is_quiet_witness : ∃ s s', serve (stops ++ [StopVisit]) = Some s ∧ run ioConfig connId [StopCheck; AEnd] s = Some s' ∧ active s' = 0.
Proof.
  destruct (serve (stops ++ [StopVisit])) as [s|] eqn:E; [|vm_compute in E; discriminate E].
  destruct (run ioConfig connId [StopCheck; AEnd] s) as [s'|] eqn:E'; [|vm_compute in E; injection E as <-; vm_compute in E'; discriminate E'].
  exists s, s'. split; [reflexivity|]. split; [exact E'|].
  apply (stopped_server_is_quiet ioConfig connId (stops ++ [StopVisit]) [StopCheck; AEnd] s s' E); [..|exact E'];
    vm_compute in E; injection E as <-; [reflexivity|left; reflexivity|reflexivity].
Defined.

(** Drain's past deadline can be replaced: a handler that checked the draining flag before
    it was set, and sets its idle deadline after Drain has visited its connection, waits
    for a frame with its deadline in the future.  Drain waits with it, and if a frame
    comes it is read and emitted. *)
Theorem drain_misses_reader :
  ∃ s s', serve (connects 0 ++ [HCheckDone 0; HCheckDrain 0] ++ drains ++ [HSetDeadline 0 None; DrainCheck]) = Some s ∧
    drainer s = DWait ∧ readers s = 1 ∧ ((λ h, (h_phase h, h_past h)) <$> hs s !! 0%nat) = Some (HHeader, false) ∧
    run ioConfig connId [HReadHeader 0; HReadBody 0 tpduFrame] s = Some s' ∧ EvEmit "0" ∈ log s'.
Proof. eexists _, _. split; [vm_compute; reflexivity|]. split_and!; [reflexivity..|vm_compute; reflexivity|apply list_elem_of_here]. Qed.

(** Stop can return before a handler has begun: a connection that the accept loop holds
    when Stop counts the handlers is not counted yet, and its handler reports the
    connection open and closed after Stop has returned without an error. *)
Theorem stop_returns_before_handler :
  ∃ s s', serve ([AAccept "10.0.0.1" "700"; ACheckLimit] ++ stops ++ [StopVisit; StopCheck]) = Some s ∧ stopper s = SOk ∧
    run ioConfig connId [ACount; ASpawn 0; HRegister 0; HNotifyOpen 0; HCheckDone 0; HLeave 0; HNotifyClosed 0] s = Some s' ∧
    log s' = [EvClosed "0" "stopped"; EvOpened "0"; EvStopped].
Proof. eexists _, _. split; [vm_compute; reflexivity|]. split_and!; [reflexivity|vm_compute; reflexivity|reflexivity]. Qed.

Definition peers : list Connection :=
  [mkConnection "0x1" (Some "10.0.0.1") 3; mkConnection "0x2" (Some "10.0.0.7") 9; mkConnection "0x3" (Some "10.0.0.1") 5].

Lemma reply_routing_witness : ∃ k f, Process ioConfig {["conn.id" := "0x0"; "peer.ip" := "10.0.0.1"]} (toBytes "0810") peers true = inr (Some (k, f)) ∧
  k ∈ peers ∧ k_id k = "0x3".
Proof.
  destruct (Process ioConfig {["conn.id" := "0x0"; "peer.ip" := "10.0.0.1"]} (toBytes "0810") peers true) as [e|[[k f]|]] eqn:E;
    [vm_compute in E; discriminate E| |vm_compute in E; discriminate E].
  exists k, f. split; [reflexivity|]. split.
  - apply (reply_routing ioConfig {["conn.id" := "0x0"; "peer.ip" := "10.0.0.1"]} (toBytes "0810") peers true k f "0x0" E); reflexivity.
  - vm_compute in E. injection E as <- _. reflexivity.
Defined.

End IsoServerExample.
