(* ===== verification/IsoClient.v ===== *)
(** * iso8583/io/client.go: the client

    The dial loop with the handler of its one connection, [Stop] and [Disconnect],
    interleaved at what they share: the connection pointer, the done channel and the
    socket.  Connections are numbered as they are made.  Dials, reads and timers are
    inputs.  The theorems: what the observers of the link and of connections see, in every
    interleaving. *)
From S2P Require Import Prelude Bytes Frame FluxMsg MsgValidate IsoWire IsoServer.
Open Scope Z_scope.

Module Client.

Inductive cphase :=
| CTop | CDialing | CWaiting | CEnded
| KStore | KUp | KOpened           (* connected: pointer, link state, opened event *)
| KTop | KDeadline | KRead | KBusy
| KLeave (reason : string) | KClose (reason : string) | KDown (reason : string) | KNotify (reason : string).

Inductive cstop := SNone | SDone | SClosing (n : nat) | SWait | SOk | SLate.

Inductive cevent := LinkUp (n : nat) | LinkDown (n : nat) | Opened (n : nat) | Closed (n : nat) (reason : string) | Emit (n : nat) | Stopped.

(** [cur]: the connection of the handler; [closed], [byCommand]: of that connection.
    [log]: the newest first. *)
Record client := mkClient {
  ph : cphase; cur : nat; ptr : option nat; closed : bool; byCommand : bool; done : bool; stopper : cstop; log : list cevent }.

Definition newClient : client := mkClient CTop 0 None false false false SNone [].

Definition go (p : cphase) (s : client) : client := mkClient p (cur s) (ptr s) (closed s) (byCommand s) (done s) (stopper s) (log s).
Definition note (e : cevent) (s : client) : client := mkClient (ph s) (cur s) (ptr s) (closed s) (byCommand s) (done s) (stopper s) (e :: log s).
Definition point (p : option nat) (s : client) : client := mkClient (ph s) (cur s) p (closed s) (byCommand s) (done s) (stopper s) (log s).
Definition closeSocket (cmd : bool) (s : client) : client := mkClient (ph s) (cur s) (ptr s) true (cmd || byCommand s) (done s) (stopper s) (log s).
Definition stopAt (p : cstop) (s : client) : client := mkClient (ph s) (cur s) (ptr s) (closed s) (byCommand s) (done s) p (log s).

Inductive action :=
| Check | Dialed | DialFailed | Waited
| Store | Up | Open | Loop | SetDeadline (ok : option ioErr) | Frame (payload : bytes) | ReadError (e : ioErr) | Emitted
| Leave | CloseConn | Down | NotifyClosed
| Disconnect (id : string)
| StopDone | StopLoad | StopClose | StopLoopDone | StopTimeout.

Section client.
Context (c : IoConfig) (idOf : nat → string).

(** One operation of a goroutine; [None]: it is not at it. *)
Definition step (a : action) (s : client) : option client :=
  match a, ph s with
  | Check, CTop => Some (go (if done s then CEnded else CDialing) s)
  | Dialed, CDialing => Some (mkClient KStore (S (cur s)) (ptr s) false false (done s) (stopper s) (log s))
  | DialFailed, CDialing => Some (go CWaiting s)
  | Waited, CWaiting => Some (go (if done s then CEnded else CTop) s)
  | Store, KStore => Some (go KUp (point (Some (cur s)) s))
  | Up, KUp => Some (go KOpened (note (LinkUp (cur s)) s))
  | Open, KOpened => Some (go KTop (note (Opened (cur s)) s))
  | Loop, KTop => Some (go (if done s then KLeave "stopped" else KDeadline) s)
  | SetDeadline None, KDeadline => if closed s then None else Some (go KRead s)
  | SetDeadline (Some e), KDeadline => Some (go (KLeave (closeReason e (done s))) s)
  | Frame payload, KRead =>
      if closed s then None else
      match clientMessage c payload (idOf (cur s)) with
      | IEmit _ _ => Some (go KBusy (note (Emit (cur s)) s))
      | IInvalid => Some (go KTop s)
      | IPanic => None
      end
  | ReadError e, KRead => Some (go (KLeave (closeReason e (done s))) s)
  | Emitted, KBusy => Some (go KTop s)
  | Leave, KLeave r => Some (go (KClose r) (point None s))
  | CloseConn, KClose r => Some (go (KDown r) (closeSocket false s))
  | Down, KDown r => Some (go (KNotify r) (note (LinkDown (cur s)) s))
  | NotifyClosed, KNotify r => Some (go CWaiting (note (Closed (cur s) (if byCommand s then "closed_by_command" else r)) s))
  | Disconnect id, _ =>
      match ptr s with
      | Some n => if bool_decide (id = "") || bool_decide (idOf n = id) then Some (closeSocket true s) else None
      | None => None
      end
  | StopDone, _ => match stopper s with SNone => Some (mkClient (ph s) (cur s) (ptr s) (closed s) (byCommand s) true SDone (log s)) | _ => None end
  | StopLoad, _ =>
      match stopper s with
      | SDone => match ptr s with Some n => Some (stopAt (SClosing n) s) | None => Some (stopAt SOk (note Stopped s)) end
      | _ => None
      end
  | StopClose, _ =>
      match stopper s with
      | SClosing n =>
          let s := if bool_decide (n = cur s) then closeSocket false s else s in
          Some (if IsoWire.StopTimeout c <=? 0 then stopAt SOk (note Stopped s) else stopAt SWait s)
      | _ => None
      end
  | StopLoopDone, CEnded => match stopper s with SWait => Some (stopAt SOk (note Stopped s)) | _ => None end
  | StopTimeout, _ => match stopper s with SWait => Some (stopAt SLate s) | _ => None end
  | _, _ => None
  end.

Fixpoint run (l : list action) (s : client) : option client :=
  match l with [] => Some s | a :: l => match step a s with Some s => run l s | None => None end end.

(** ** What the observers see *)

Definition isLink (e : cevent) : bool := match e with LinkUp _ | LinkDown _ => true | _ => false end.
Definition linksOf (s : client) : list cevent := filter (λ e, isLink e = true) (log s).

(** The whole history of the connections from [n] down to 1, each opened and closed. *)
Fixpoint linkHistory (n : nat) : list cevent := match n with O => [] | S k => LinkDown n :: LinkUp n :: linkHistory k end.

(** The handler holds a connection. *)
Definition holding (p : cphase) : bool := match p with CTop | CDialing | CWaiting | CEnded => false | _ => true end.
(** Between the two notices of the link. *)
Definition linkIsUp (p : cphase) : bool :=
  match p with KOpened | KTop | KDeadline | KRead | KBusy | KLeave _ | KClose _ | KDown _ => true | _ => false end.

Definition links (s : client) : Prop :=
  linksOf s = (if linkIsUp (ph s) then LinkUp (cur s) :: linkHistory (pred (cur s))
               else match ph s with KStore | KUp => linkHistory (pred (cur s)) | _ => linkHistory (cur s) end).

Record inv (s : client) : Prop := {
  i_links : links s;
  i_cur : holding (ph s) = true → (0 < cur s)%nat;
  i_ptr : ptr s = match ph s with KUp | KOpened | KTop | KDeadline | KRead | KBusy | KLeave _ => Some (cur s) | _ => None end }.

Lemma clientStep_inv a s s' : inv s → step a s = Some s' → inv s'.
Proof.
  intros [L C P] Hs. unfold links, linksOf in L. unfold step in Hs.
  assert (∀ b, inv (closeSocket b s)) as Hcl by (intros b; by split).
  destruct a; destruct (ph s) eqn:Ep; try done; repeat case_match; simplify_eq; try (by apply Hcl);
    (split; unfold links, linksOf; cbn; rewrite ?Ep; cbn; try (rewrite ?filter_cons; cbn; rewrite ?L; cbn); try done; try (intros; lia)).
  - rewrite decide_True by done. f_equal. exact L.
  - rewrite decide_True by done. etrans; [exact (f_equal (cons _) L)|]. specialize (C eq_refl). by destruct (cur s); [lia|].
Qed.

Lemma clientRun_inv l s s' : inv s → run l s = Some s' → inv s'.
Proof.
  revert s. induction l as [|a l IH]; intros s V; cbn; [by intros [= <-]|]. destruct (step a s) as [s1|] eqn:E; [|done].
  intros Hr. eapply IH; [|exact Hr]. by eapply clientStep_inv.
Qed.

(** the link is reported up and down in turn. In every interleaving of the dial loop
    with Stop and with commands, what the observer of the link has heard is, for each
    connection in the order they were made, that the link is up and then that it is down,
    of the last one perhaps only the first; whenever the client holds no connection the
    last notice was "down"; and a message can be written only to the connection made last. *)
Theorem link_notices l s : run l newClient = Some s →
  ∃ n, (linksOf s = linkHistory n ∨ linksOf s = LinkUp (S n) :: linkHistory n) ∧
    (holding (ph s) = false → linksOf s = linkHistory n ∧ ptr s = None) ∧ ∀ k, ptr s = Some k → k = S n.
Proof.
  intros Hr. assert (inv newClient) as V0 by (by split). destruct (clientRun_inv _ _ _ V0 Hr) as [L C P]. unfold links in L.
  destruct (cur s) as [|k] eqn:Ec.
  - assert (holding (ph s) = false) as Hh by (destruct (holding (ph s)); [specialize (C eq_refl); lia|done]).
    exists 0%nat. destruct (ph s); try done; cbn in L; (split; [by left|split; [by split|intros k; by rewrite P]]).
  - destruct (ph s); cbn in L, P; try (exists k; split; [by (left + right)|split; [done|intros j; rewrite P; congruence]]);
      exists (S k); (split; [by left|split; [done|intros j; by rewrite P]]).
Qed.
End client.

(** ** Runs *)

Definition dialConfig : IoConfig :=
  mkIo "client" "" "up:1" 0 2 false "big" "ascii" (mkConfig "generic" false 5 0 "" "") false false false true "drop" 5.

Lemma link_notices_witness : ∃ s n, run dialConfig pretty [Check; Dialed; Store; Up; Open; Loop; SetDeadline None; ReadError EOF; Leave; CloseConn; Down; NotifyClosed] newClient = Some s ∧
  linksOf s = linkHistory n ∧ n = 1%nat.
Proof.
  destruct (run dialConfig pretty [Check; Dialed; Store; Up; Open; Loop; SetDeadline None; ReadError EOF; Leave; CloseConn; Down; NotifyClosed] newClient) as [s|] eqn:E;
    [|vm_compute in E; discriminate E].
  destruct (link_notices dialConfig pretty _ s E) as (n & _ & H & _). exists s, n. split; [reflexivity|].
  destruct H as [Hl _]; [vm_compute in E; injection E as <-; reflexivity|]. split; [exact Hl|].
  vm_compute in E. injection E as <-. destruct n as [|[|n]]; [discriminate Hl|reflexivity|discriminate Hl].
Defined.

(** Stop does not wait for a dial that is under way: with no connection it returns at once,
    and when the dial then succeeds the link is reported up, and down, after Stop. *)
Theorem stop_misses_dial :
  ∃ s s', run dialConfig pretty [Check; StopDone; StopLoad] newClient = Some s ∧ stopper s = SOk ∧
    run dialConfig pretty [Dialed; Store; Up; Open; Loop; Leave; CloseConn; Down; NotifyClosed; Waited] s = Some s' ∧
    log s' = [Closed 1 "stopped"; LinkDown 1; Opened 1; LinkUp 1; Stopped].
Proof. eexists _, _. split; [vm_compute; reflexivity|]. split_and!; [reflexivity|vm_compute; reflexivity|reflexivity]. Qed.
End Client.
