(* ===== verification/Passport.v ===== *)
(** * pki/state.go and the passport of a Rack

    The cluster key and its file, signed envelopes ([Sign], [VerifyPinned], [VerifyMixer])
    and the Mixer key a Rack pins beside its passport; the parts of run.go, run_carry.go
    and run_secret.go that load, accept and drop a passport.  Ed25519, HKDF and CBOR are
    parameters.  A Rack's files may fail to be read or written; a write that fails may
    leave a part of its data, and a process that crashes in a call leaves what a failing
    answer leaves.  The calls of one Rack are made one after the other: a boot, the
    enrollment loop, and then the notices on one subscription. *)
From S2P Require Import Prelude Bytes Amount.
Open Scope Z_scope.

Record RackState := mkRackState {
  MixerID : Z; MachineID : Z; Name : string; Status : string; Secret : string; MixerPublic : bytes; Version : string;
  CreatedAt : Z; UpdatedAt : Z; UpdateCount : Z; Scenario : bytes; ScenarioVer : string }.
Record MixerState := mkMixerState {
  ms_MachineID : Z; ms_Name : string; ms_Version : string; ms_CreatedAt : Z; ms_UpdatedAt : Z; ms_UpdateCount : Z }.
Record StateEnvelope := mkEnvelope { Payload : bytes; Signature : bytes }.

(** Ed25519, for keys of the right sizes. *)
Class Ed25519 := {
  NewKeyFromSeed : bytes → bytes;
  PublicOf : bytes → bytes;
  edSign : bytes → bytes → bytes;
  edVerify : bytes → bytes → bytes → bool }.
Class Ed25519Laws `{Ed25519} := {
  seed_key seed : length seed = 32%nat → length (NewKeyFromSeed seed) = 64%nat;
  public_size k : length k = 64%nat → length (PublicOf k) = 32%nat;
  verify_sign seed m : length seed = 32%nat → edVerify (PublicOf (NewKeyFromSeed seed)) m (edSign (NewKeyFromSeed seed) m) = true }.

(** CBOR of the three documents. *)
Class StateCodec := {
  marshalState : RackState → bytes; unmarshalState : bytes → option RackState;
  marshalMixer : MixerState → bytes; unmarshalMixer : bytes → option MixerState;
  marshalEnvelope : StateEnvelope → bytes; unmarshalEnvelope : bytes → option StateEnvelope }.
Class StateCodecLaws `{StateCodec} := {
  state_back s : unmarshalState (marshalState s) = Some s;
  mixer_back s : unmarshalMixer (marshalMixer s) = Some s;
  envelope_back e : unmarshalEnvelope (marshalEnvelope e) = Some e }.

Inductive pkiErr := EIO | EKeyLength (n : nat) | EEnvelope | EPayload | EPublicSize | EPinMismatch | ESignature | EPinLength (n : nat).

(** ** The cluster key *)

Record ClusterKey := mkClusterKey { Private : bytes; Public : bytes }.

Section pki.
Context `{Ed25519} `{StateCodec}.

(** [GenerateClusterKey] from the random seed it reads. *)
Definition GenerateClusterKey (seed : bytes) : ClusterKey := mkClusterKey (NewKeyFromSeed seed) (PublicOf (NewKeyFromSeed seed)).

(** [Sign], of a key of the right size. *)
Definition Sign (k : ClusterKey) (s : RackState) : StateEnvelope :=
  let payload := marshalState s in mkEnvelope payload (edSign (Private k) payload).
Definition SignMixer (k : ClusterKey) (s : MixerState) : StateEnvelope :=
  let payload := marshalMixer s in mkEnvelope payload (edSign (Private k) payload).

(** [LoadClusterKey] of the content of its file. *)
Definition LoadClusterKey (data : bytes) : pkiErr + ClusterKey :=
  let priv :=
    if (length data =? 32)%nat then Some (NewKeyFromSeed data)
    else if (length data =? 64)%nat then Some data
    else match DecodeString (toString data) with
         | Some decoded => if (length decoded =? 64)%nat then Some decoded else None
         | None => None
         end in
  match priv with None => inl (EKeyLength (length data)) | Some p => inr (mkClusterKey p (PublicOf p)) end.

(** [DeriveStoreKey], over the standard library's HKDF. *)
Definition DeriveStoreKey (hkdf : bytes → string → nat → option bytes) (k : option ClusterKey) : option string :=
  match k with
  | Some k =>
      if (length (Private k) =? 64)%nat then EncodeToString <$> hkdf (take 32 (Private k)) "fluxrig snake store key v1" 32%nat else None
  | None => None
  end.

(** ** Envelopes *)

(** An empty [pinned] is nil. *)
Definition VerifyPinned (pinned : bytes) (e : StateEnvelope) : pkiErr + RackState :=
  match unmarshalState (Payload e) with
  | None => inl EPayload
  | Some s =>
      if negb (length (MixerPublic s) =? 32)%nat then inl EPublicSize
      else if negb (bool_decide (pinned = [])) && negb (bool_decide (pinned = MixerPublic s)) then inl EPinMismatch
      else if edVerify (MixerPublic s) (Payload e) (Signature e) then inr s else inl ESignature
  end.
Definition Verify (e : StateEnvelope) : pkiErr + RackState := VerifyPinned [] e.

(** [VerifyMixer], for a key of the right size. *)
Definition VerifyMixer (pub : bytes) (e : StateEnvelope) : pkiErr + MixerState :=
  if negb (edVerify pub (Payload e) (Signature e)) then inl ESignature
  else match unmarshalMixer (Payload e) with None => inl EPayload | Some s => inr s end.

(** [None]: the file cannot be read. *)
Definition LoadStateEnvelope (data : option bytes) : pkiErr + StateEnvelope :=
  match data with
  | None => inl EIO
  | Some b => match unmarshalEnvelope b with None => inl EEnvelope | Some e => inr e end
  end.

Definition LoadMixerState (data : option bytes) (pub : bytes) : pkiErr + MixerState :=
  match LoadStateEnvelope data with inl e => inl e | inr e => VerifyMixer pub e end.

(** ** The files of a Rack *)

(** [base.state_file], and the same with [.pub] and with [.secret]. *)
Record files := mkFiles { f_passport : option bytes; f_pin : option bytes; f_secret : option bytes }.

(** How [os.WriteFile] ends: the file untouched, or truncated and written in part. *)
Inductive written := WOk | WFail (left : option nat).

Definition WriteFile (w : written) (data : bytes) (old : option bytes) : option bytes * bool :=
  match w with
  | WOk => (Some data, true)
  | WFail None => (old, false)
  | WFail (Some n) => (Some (take n data), false)
  end.

(** [LoadPinnedMixerKey]; [readable]: reading a file that exists succeeds. *)
Definition LoadPinnedMixerKey (readable : bool) (d : files) : pkiErr + bytes :=
  if negb readable then inl EIO else
  match f_pin d with
  | None => inr []
  | Some b => if negb (length b =? 32)%nat then inl (EPinLength (length b)) else inr b
  end.

Definition PinMixerKey (w : written) (pub : bytes) (d : files) : files * bool :=
  let '(p, ok) := WriteFile w pub (f_pin d) in (mkFiles (f_passport d) p (f_secret d), ok).

(** [verifyPassport] *)
Definition verifyPassport (readable : bool) (w : written) (e : StateEnvelope) (d : files) : (pkiErr + RackState) * files :=
  match LoadPinnedMixerKey readable d with
  | inl err => (inl err, d)
  | inr pinned =>
      match VerifyPinned pinned e with
      | inl err => (inl err, d)
      | inr s =>
          if bool_decide (pinned = []) then
            let '(d, ok) := PinMixerKey w (MixerPublic s) d in ((if ok then inr s else inl EIO), d)
          else (inr s, d)
      end
  end.

(** [mixerPublicKey]: empty is nil. *)
Definition mixerPublicKey (readable : bool) (w : written) (d : files) : bytes * files :=
  match LoadStateEnvelope (if readable then f_passport d else None) with
  | inl _ => ([], d)
  | inr e => match verifyPassport readable w e d with (inl _, d) => ([], d) | (inr s, d) => (MixerPublic s, d) end
  end.

(** ** The secret beside the passport *)

(** [storePassportSecret]: the file is replaced whole, or not at all. *)
Definition storePassportSecret (ok : bool) (secret : string) (d : files) : files * bool :=
  if bool_decide (secret = "") then (d, true)
  else if ok then (mkFiles (f_passport d) (f_pin d) (Some (toBytes secret)), true) else (d, false).

(** [rackSecret] *)
Definition rackSecret (readable : bool) (d : files) (passportSecret : string) : string :=
  if negb (bool_decide (passportSecret = "")) then passportSecret
  else match (if readable then f_secret d else None) with Some b => toString (TrimSpace b) | None => "" end.

(** ** A session's dealings with passports (run.go) *)

(** What the session knows of its Rack; an id of 0 is [uuid.Nil].  [s_mid], [s_secret],
    [s_status] and [s_active] are variables of the session ([mID], [secret],
    [currentStatus], [isSessionActive]), [c_machine] and [c_name] fields of the
    configuration. *)
Record session := mkSession {
  s_mid : Z; s_secret : string; s_status : string; s_active : bool; c_machine : Z; c_name : string }.

(** How the file operations of one call end. *)
Record answers := mkAnswers { a_readable : bool; a_pin : written; a_mkdir : bool; a_save : written; a_secret : bool }.

(** [runSession], up to the identity it starts with. *)
Definition bootSession (a : answers) (machine : Z) (name bootstrap : string) (d : files) : session * files * option (RackState * StateEnvelope) :=
  let fresh := mkSession machine bootstrap "" false machine name in
  match LoadStateEnvelope (if a_readable a then f_passport d else None) with
  | inl _ => (fresh, d, None)
  | inr e =>
      match verifyPassport (a_readable a) (a_pin a) e d with
      | (inl _, d) => (fresh, d, None)
      | (inr s, d) =>
          (mkSession (MachineID s) (rackSecret (a_readable a) d (Secret s)) (Status s) (bool_decide (Status s = "active")) (MachineID s) (Name s), d, Some (s, e))
      end
  end.

(** [env.Save]; the passport's file, and whether it was written. *)
Definition SaveEnvelope (w : written) (e : StateEnvelope) (d : files) : files * bool :=
  let '(p, ok) := WriteFile w (marshalEnvelope e) (f_passport d) in (mkFiles p (f_pin d) (f_secret d), ok).

(** The passport of an enrollment response: its error ends the session. *)
Definition enrollPassport (a : answers) (passport : bytes) (active : bool) (ses : session) (d : files)
    : (pkiErr + session) * files * option (RackState * StateEnvelope) :=
  match unmarshalEnvelope passport with
  | None => (inl EEnvelope, d, None)
  | Some e =>
      match verifyPassport (a_readable a) (a_pin a) e d with
      | (inl err, d) => (inl err, d, None)
      | (inr s, d) =>
          if negb (a_mkdir a) then (inl EIO, d, Some (s, e)) else
          match SaveEnvelope (a_save a) e d with
          | (d, false) => (inl EIO, d, Some (s, e))
          | (d, true) =>
              match storePassportSecret (a_secret a) (Secret s) d with
              | (d, false) => (inl EIO, d, Some (s, e))
              | (d, true) =>
                  (inr (mkSession (MachineID s) (rackSecret (a_readable a) d (Secret s)) (s_status ses) active (c_machine ses) (c_name ses)), d, Some (s, e))
              end
          end
      end
  end.

(** What the handler of notices signals to the session's loop. *)
Inductive signal := NoSignal | SReconnect | SActivate (passport : bytes).

(** The passport of a notice. *)
Definition adoptPassport (a : answers) (passport : bytes) (ses : session) (d : files)
    : session * signal * files * option (RackState * StateEnvelope) :=
  match unmarshalEnvelope passport with
  | None => (ses, NoSignal, d, None)
  | Some e =>
      match verifyPassport (a_readable a) (a_pin a) e d with
      | (inl _, d) => (ses, NoSignal, d, None)
      | (inr s, d) =>
          match SaveEnvelope (a_save a) e d with
          | (d, false) => (ses, NoSignal, d, Some (s, e))
          | (d, true) =>
              let d := (storePassportSecret (a_secret a) (Secret s) d).1 in
              let status := if negb (bool_decide (s_status ses = "")) then Status s else s_status ses in
              if negb (bool_decide (Name s = c_name ses)) || negb (MachineID s =? c_machine ses) then
                (mkSession (s_mid ses) (s_secret ses) status (s_active ses) (MachineID s) (Name s), SReconnect, d, Some (s, e))
              else (mkSession (s_mid ses) (s_secret ses) status (s_active ses) (c_machine ses) (c_name ses),
                    if bool_decide (Status s = "active") && negb (s_active ses) then SActivate passport else NoSignal, d, Some (s, e))
          end
      end
  end.

(** The promotion, up to the name it gives the runtime: errors are not looked at, and
    [None] is the nil dereference that follows one. *)
Definition promote (a : answers) (passport : bytes) (d : files) : option RackState * files * option (RackState * StateEnvelope) :=
  match unmarshalEnvelope passport with
  | None => (None, d, None)
  | Some e => match verifyPassport (a_readable a) (a_pin a) e d with (inl _, d) => (None, d, None) | (inr s, d) => (Some s, d, Some (s, e)) end
  end.

(** [handleEnrollmentDenial]: a file is gone unless removing it fails. *)
Definition handleEnrollmentDenial (rm_passport rm_secret rm_pin : bool) (bootstrap : string) (ses : session) (d : files) : session * files :=
  (mkSession 0 bootstrap (s_status ses) (s_active ses) (c_machine ses) (c_name ses),
   mkFiles (if rm_passport then None else f_passport d) (if rm_pin then None else f_pin d) (if rm_secret then None else f_secret d)).

(** The identity a session resumes when the enrollment deadline passes. *)
Definition resumedIdentity (ses : session) : option (Z * string) := if c_machine ses =? 0 then None else Some (c_machine ses, c_name ses).

(** [take] of the session carry: what is left of a Rack with this identity. *)
Record carry (R : Type) := mkCarry { k_runtime : option R; k_machine : Z; k_name : string }.
Arguments mkCarry {R}.
Arguments k_runtime {R}.
Arguments k_machine {R}.
Arguments k_name {R}.

(** The runtime taken over, and the one that is shut down. *)
Definition takeCarry {R} (machine : Z) (name : string) (c : carry R) : option R * option R :=
  match k_runtime c with
  | None => (None, None)
  | Some r => if negb (k_machine c =? machine) || negb (bool_decide (k_name c = name)) then (None, Some r) else (Some r, None)
  end.

(** ** A Rack over time *)

Inductive event :=
| EvBoot (a : answers) (machine : Z) (name bootstrap : string)
| EvEnroll (a : answers) (passport : bytes) (active : bool)
| EvAdopt (a : answers) (passport : bytes)
| EvPromote (a : answers) (passport : bytes)
| EvDenied (rm_passport rm_secret rm_pin : bool) (bootstrap : string).

(** [accepted]: the states that verified since the last denial, the newest first. *)
Record node := mkNode { n_session : session; n_files : files; accepted : list (RackState * StateEnvelope) }.

Definition noted (x : option (RackState * StateEnvelope)) (l : list (RackState * StateEnvelope)) : list (RackState * StateEnvelope) :=
  match x with Some x => x :: l | None => l end.

Definition handle (ev : event) (σ : node) : node :=
  match ev with
  | EvBoot a machine name bootstrap =>
      let '(ses, d, x) := bootSession a machine name bootstrap (n_files σ) in mkNode ses d (noted x (accepted σ))
  | EvEnroll a p active =>
      let '(r, d, x) := enrollPassport a p active (n_session σ) (n_files σ) in
      mkNode (match r with inr ses => ses | inl _ => n_session σ end) d (noted x (accepted σ))
  | EvAdopt a p =>
      let '(ses, _, d, x) := adoptPassport a p (n_session σ) (n_files σ) in mkNode ses d (noted x (accepted σ))
  | EvPromote a p =>
      let '(_, d, x) := promote a p (n_files σ) in mkNode (n_session σ) d (noted x (accepted σ))
  | EvDenied p s k bootstrap =>
      let '(ses, d) := handleEnrollmentDenial p s k bootstrap (n_session σ) (n_files σ) in mkNode ses d []
  end.

Definition handleAll (l : list event) (σ : node) : node := foldl (λ σ ev, handle ev σ) σ l.
Definition startNode (ses : session) (d : files) : node := mkNode ses d [].

Definition denied (ev : event) : bool := match ev with EvDenied _ _ _ _ => true | _ => false end.

(** ** What the pin promises *)

Definition trusted (d : files) (x : RackState * StateEnvelope) : Prop :=
  f_pin d = Some (MixerPublic x.1) ∧ length (MixerPublic x.1) = 32%nat ∧
  unmarshalState (Payload x.2) = Some x.1 ∧ edVerify (MixerPublic x.1) (Payload x.2) (Signature x.2) = true.

Lemma pinned_loads r d pinned : LoadPinnedMixerKey r d = inr pinned →
  (pinned = [] ∧ f_pin d = None) ∨ (f_pin d = Some pinned ∧ length pinned = 32%nat).
Proof.
  unfold LoadPinnedMixerKey. destruct r; [|done]. destruct (f_pin d) as [b|]; [|intros [= <-]; by left].
  destruct (Nat.eqb_spec (length b) 32); [|done]. simpl. intros [= <-]. auto.
Qed.

Lemma verifyPinned_ok pinned e s : VerifyPinned pinned e = inr s ↔
  unmarshalState (Payload e) = Some s ∧ length (MixerPublic s) = 32%nat ∧ (pinned = [] ∨ pinned = MixerPublic s) ∧
  edVerify (MixerPublic s) (Payload e) (Signature e) = true.
Proof.
  unfold VerifyPinned. destruct (unmarshalState (Payload e)) as [s'|]; [|split; [done|by intros (?&_)]].
  destruct (Nat.eqb_spec (length (MixerPublic s')) 32); simpl; [|split; [done|by intros ([= <-]&?&_)]].
  assert (pinned = [] ∨ pinned = MixerPublic s' ↔ negb (bool_decide (pinned = [])) && negb (bool_decide (pinned = MixerPublic s')) = false) as Hpin.
  { repeat case_bool_decide; simpl; intuition congruence. }
  destruct (negb _ && _) eqn:Hp.
  - split; [done|]. intros ([= <-] & _ & Hq & _). by apply Hpin in Hq.
  - destruct (edVerify _ _ _) eqn:Hv; (split; [|by intros ([= <-] & _ & _ & Hw); congruence]); [intros [= <-]; split_and!; tauto|done].
Qed.

(** What a verification does to the files and what it accepts. *)
Lemma verifyPassport_spec r w e d res d' : verifyPassport r w e d = (res, d') →
  (f_pin d' = f_pin d ∨ f_pin d = None) ∧ f_passport d' = f_passport d ∧ f_secret d' = f_secret d ∧
  ∀ s, res = inr s → trusted d' (s, e).
Proof.
  unfold verifyPassport. destruct (LoadPinnedMixerKey r d) as [err|pinned] eqn:Ep; [intros; simplify_eq; naive_solver|].
  destruct (VerifyPinned pinned e) as [err|s] eqn:Ev; [intros; simplify_eq; naive_solver|].
  apply verifyPinned_ok in Ev as (Hu & Hl & Hp & Hv). unfold trusted; simpl.
  destruct (pinned_loads _ _ _ Ep) as [[-> Hn]|[Hn Hl2]].
  - rewrite bool_decide_eq_true_2 by done. unfold PinMixerKey. destruct w as [|[n|]]; simpl; intros; simplify_eq; split_and!; simpl; auto; intros; simplify_eq; auto.
  - rewrite bool_decide_eq_false_2 by (intros ->; done). destruct Hp as [->| ->]; [done|]. intros; simplify_eq. split_and!; auto. intros; simplify_eq. auto.
Qed.

(** A change of the files that keeps the trust in what was accepted. *)
Definition pinKept (d d' : files) : Prop := f_pin d' = f_pin d ∨ f_pin d = None.

Lemma trusted_kept d d' x : pinKept d d' → trusted d x → trusted d' x.
Proof. unfold trusted. intros [->|Hn] (Hp & ?); [done|congruence]. Qed.

Lemma handle_spec ev σ σ' : handle ev σ = σ' → denied ev = false →
  pinKept (n_files σ) (n_files σ') ∧
  (accepted σ' = accepted σ ∨ ∃ x, accepted σ' = x :: accepted σ ∧ trusted (n_files σ') x).
Proof.
  unfold pinKept. intros <- Hd. destruct ev as [a m n b|a p act|a p|a p|]; [..|done]; cbn [handle].
  all: unfold bootSession, enrollPassport, adoptPassport, promote.
  - destruct (LoadStateEnvelope _) as [|e]; [simpl; auto|]. destruct (verifyPassport _ _ _ _) as [res d] eqn:E.
    apply verifyPassport_spec in E as (Hp & _ & _ & Ht). destruct res as [|s]; simpl; [auto|]. split; [done|]. right. eauto.
  - destruct (unmarshalEnvelope p) as [e|]; [|simpl; auto]. destruct (verifyPassport _ _ _ _) as [res d] eqn:E.
    apply verifyPassport_spec in E as (Hp & _ & _ & Ht). destruct res as [|s]; [simpl; auto|]. specialize (Ht s eq_refl).
    destruct (a_mkdir a); simpl; [|split; [done|]; right; eauto].
    unfold SaveEnvelope. destruct (WriteFile _ _ _) as [f [|]]; simpl; [|split; [done|]; right; exists (s, e); eauto].
    unfold storePassportSecret. case_bool_decide; simpl; [|destruct (a_secret a); simpl]; (split; [done|]; right; exists (s, e); eauto).
  - destruct (unmarshalEnvelope p) as [e|]; [|simpl; auto]. destruct (verifyPassport _ _ _ _) as [res d] eqn:E.
    apply verifyPassport_spec in E as (Hp & _ & _ & Ht). destruct res as [|s]; [simpl; auto|]. specialize (Ht s eq_refl).
    unfold SaveEnvelope. destruct (WriteFile _ _ _) as [f [|]]; simpl; [|split; [done|]; right; exists (s, e); eauto].
    unfold storePassportSecret. destruct (bool_decide (Secret s = "")), (a_secret a), (bool_decide (Name s = _)), (MachineID s =? _);
      simpl; (split; [done|]; right; exists (s, e); auto).
  - destruct (unmarshalEnvelope p) as [e|]; [|simpl; auto]. destruct (verifyPassport _ _ _ _) as [res d] eqn:E.
    apply verifyPassport_spec in E as (Hp & _ & _ & Ht). destruct res as [|s]; [simpl; auto|]. split; [done|]. right. eauto.
Qed.

Lemma pinned_trust l σ : (∀ x, x ∈ accepted σ → trusted (n_files σ) x) → ∀ x, x ∈ accepted (handleAll l σ) → trusted (n_files (handleAll l σ)) x.
Proof.
  revert σ. induction l as [|ev l IH]; intros σ Hσ; [done|]. simpl. apply IH. intros x Hx.
  destruct (denied ev) eqn:Hd; [destruct ev; [done..|]; simpl in Hx; by apply elem_of_nil in Hx|].
  destruct (handle_spec ev σ _ eq_refl Hd) as [Hk [Ha|(y & Ha & Hy)]]; rewrite Ha in Hx; [by eapply trusted_kept, Hσ|].
  apply elem_of_cons in Hx as [->|Hx]; [done|]. by eapply trusted_kept, Hσ.
Qed.

Lemma pin_kept l σ K : f_pin (n_files σ) = Some K → existsb denied l = false → f_pin (n_files (handleAll l σ)) = Some K.
Proof.
  revert σ. induction l as [|ev l IH]; intros σ HK; [done|]. simpl. intros [Hd Hl]%orb_false_iff. apply IH; [|done].
  destruct (handle_spec ev σ _ eq_refl Hd) as [[->|?] _]; congruence.
Qed.

(** C12: Whatever passports reach a Rack, and however its file operations end, every state
    it has accepted since its last denial carries the key that is pinned now, and a
    signature under that key over exactly the bytes it was read from; and a pin that
    exists stays the same until a denial. *)
Theorem one_mixer l ses d K :
  let σ := handleAll l (startNode ses d) in
  (∀ s e, (s, e) ∈ accepted σ →
     f_pin (n_files σ) = Some (MixerPublic s) ∧ length (MixerPublic s) = 32%nat ∧
     unmarshalState (Payload e) = Some s ∧ edVerify (MixerPublic s) (Payload e) (Signature e) = true) ∧
  (f_pin d = Some K → existsb denied l = false → f_pin (n_files σ) = Some K).
Proof.
  split; [|by apply (pin_kept l (startNode ses d))]. intros s e Hx. apply (pinned_trust l (startNode ses d)) in Hx; [exact Hx|by intros ? ?%elem_of_nil].
Qed.

(** A pin of another length, as a write that failed leaves it, refuses every passport
    until a denial. *)
Theorem partial_pin_refuses l ses d b : f_pin d = Some b → length b ≠ 32%nat → existsb denied l = false →
  accepted (handleAll l (startNode ses d)) = [].
Proof.
  intros Hb Hn Hl. destruct (accepted _) as [|x xs] eqn:E; [done|]. exfalso.
  destruct (pinned_trust l (startNode ses d)) with x as (Hp & H32 & _); [by intros ? ?%elem_of_nil|rewrite E; apply list_elem_of_here|].
  rewrite (pin_kept l (startNode ses d) b) in Hp by done. congruence.
Qed.

(** *** Passports the Mixer issues *)

Definition allOk : answers := mkAnswers true WOk true WOk true.

Lemma verify_known w e d s : unmarshalState (Payload e) = Some s → length (MixerPublic s) = 32%nat →
  edVerify (MixerPublic s) (Payload e) (Signature e) = true → f_pin d = Some (MixerPublic s) →
  verifyPassport true w e d = (inr s, d).
Proof.
  intros Hu Hl Hv Hp. unfold verifyPassport, LoadPinnedMixerKey. simpl. rewrite Hp, Hl. simpl.
  replace (VerifyPinned _ e) with (inr s : pkiErr + RackState) by (symmetry; apply verifyPinned_ok; tauto).
  by rewrite bool_decide_eq_false_2 by (intros E; by rewrite E in Hl).
Qed.

Lemma verify_first e d s : unmarshalState (Payload e) = Some s → length (MixerPublic s) = 32%nat →
  edVerify (MixerPublic s) (Payload e) (Signature e) = true → f_pin d = None →
  verifyPassport true WOk e d = (inr s, mkFiles (f_passport d) (Some (MixerPublic s)) (f_secret d)).
Proof.
  intros Hu Hl Hv Hp. unfold verifyPassport, LoadPinnedMixerKey. simpl. rewrite Hp.
  by replace (VerifyPinned _ e) with (inr s : pkiErr + RackState) by (symmetry; apply verifyPinned_ok; tauto).
Qed.

Section issued.
Context `{!Ed25519Laws} `{!StateCodecLaws}.

Lemma issued_facts seed s : length seed = 32%nat → MixerPublic s = Public (GenerateClusterKey seed) →
  let e := Sign (GenerateClusterKey seed) s in
  unmarshalState (Payload e) = Some s ∧ length (MixerPublic s) = 32%nat ∧ edVerify (MixerPublic s) (Payload e) (Signature e) = true.
Proof.
  intros Hs Hm. simpl. rewrite Hm. simpl. split_and!; [apply state_back|by apply public_size, seed_key|by apply verify_sign].
Qed.

(** A passport that a Mixer signs with its cluster key, and that carries that key, is
    accepted by a Rack that has pinned the key or nothing, is saved, and after any restart
    gives the Rack the identity, the secret and the status it was issued. *)
Theorem issued_passport_boots seed s active ses d :
  length seed = 32%nat → MixerPublic s = Public (GenerateClusterKey seed) →
  (f_pin d = None ∨ f_pin d = Some (MixerPublic s)) →
  let e := Sign (GenerateClusterKey seed) s in
  ∃ ses' d', enrollPassport allOk (marshalEnvelope e) active ses d = (inr ses', d', Some (s, e)) ∧
    s_mid ses' = MachineID s ∧ f_pin d' = Some (MixerPublic s) ∧
    (Secret s ≠ "" → s_secret ses' = Secret s ∧ f_secret d' = Some (toBytes (Secret s))) ∧
    ∀ machine name bootstrap, bootSession allOk machine name bootstrap d' =
      (mkSession (MachineID s) (s_secret ses') (Status s) (bool_decide (Status s = "active")) (MachineID s) (Name s), d', Some (s, e)).
Proof.
  intros Hs Hm Hpin e. destruct (issued_facts seed s Hs Hm) as (Hu & Hl & Hv). fold e in Hu, Hv.
  assert (verifyPassport true WOk e d = (inr s, mkFiles (f_passport d) (Some (MixerPublic s)) (f_secret d))) as E.
  { destruct Hpin as [Hp|Hp]; [by apply verify_first|]. rewrite (verify_known WOk e d s) by done. destruct d; simpl in *; by rewrite Hp. }
  unfold enrollPassport. rewrite envelope_back. simpl. rewrite E. simpl.
  destruct (storePassportSecret true (Secret s) _) as [d2 ok] eqn:E2.
  assert (ok = true ∧ f_pin d2 = Some (MixerPublic s) ∧ f_passport d2 = Some (marshalEnvelope e)) as (-> & Hp2 & Hf2).
  { unfold storePassportSecret in E2. case_bool_decide; by simplify_eq/=. }
  eexists _, _. split; [done|]. split_and!; [done..| |].
  { intros Hne. simpl. unfold rackSecret. rewrite bool_decide_eq_false_2 by done. split; [done|].
    unfold storePassportSecret in E2. rewrite bool_decide_eq_false_2 in E2 by done. by simplify_eq/=. }
  intros machine name bootstrap.
  unfold bootSession. simpl. rewrite Hf2. simpl. rewrite envelope_back. rewrite (verify_known WOk e d2 s) by done. done.
Qed.

(** The forms of the cluster key's file load the key they were written from: the
    private key as it is or in hexadecimal, and the seed. *)
Theorem cluster_key_files seed : length seed = 32%nat → Forall byte_ok (NewKeyFromSeed seed) →
  let k := GenerateClusterKey seed in
  LoadClusterKey (Private k) = inr k ∧ LoadClusterKey seed = inr k ∧ LoadClusterKey (toBytes (EncodeToString (Private k))) = inr k.
Proof.
  intros Hs Hb k. subst k. pose proof (seed_key seed Hs) as Hk. unfold LoadClusterKey. simpl. rewrite Hk, Hs. simpl. split_and!; [done..|].
  rewrite length_toBytes, toString_toBytes, Decode_Encode by done.
  rewrite (length_Decode _ (NewKeyFromSeed seed)) by (by apply Decode_Encode). by rewrite Hk.
Qed.

(** The seed in hexadecimal has the length of a private key, and is taken for one. *)
Theorem hex_seed_is_another_key seed : length seed = 32%nat → Forall byte_ok seed →
  LoadClusterKey (toBytes (EncodeToString seed)) = inr (mkClusterKey (toBytes (EncodeToString seed)) (PublicOf (toBytes (EncodeToString seed)))).
Proof.
  intros Hs Hb. unfold LoadClusterKey. rewrite length_toBytes, (length_Decode _ seed) by (by apply Decode_Encode). by rewrite Hs.
Qed.

(** The Mixer's own identity is read back from its file under its key. *)
Theorem mixer_identity_back seed s : length seed = 32%nat →
  let k := GenerateClusterKey seed in LoadMixerState (Some (marshalEnvelope (SignMixer k s))) (Public k) = inr s.
Proof.
  intros Hs k. unfold LoadMixerState. simpl. rewrite envelope_back. unfold VerifyMixer. simpl. rewrite verify_sign, mixer_back by done. done.
Qed.

(** After a denial that removed the pin, the passport of any Mixer is accepted. *)
Theorem denial_trusts_any_mixer seed s rm_passport rm_secret bootstrap ses d :
  length seed = 32%nat → MixerPublic s = Public (GenerateClusterKey seed) →
  let e := Sign (GenerateClusterKey seed) s in
  accepted (handleAll [EvDenied rm_passport rm_secret true bootstrap; EvEnroll allOk (marshalEnvelope e) true] (startNode ses d)) = [(s, e)].
Proof.
  intros Hs Hm e. destruct (issued_facts seed s Hs Hm) as (Hu & Hl & Hv). fold e in Hu, Hv. simpl. unfold enrollPassport.
  rewrite envelope_back. simpl. rewrite (verify_first e _ s) by done. simpl.
  unfold storePassportSecret. by case_bool_decide.
Qed.
End issued.

(** *** The secret and the session *)

Lemma handle_secret ev σ : denied ev = false →
  f_secret (n_files (handle ev σ)) = f_secret (n_files σ) ∨ ∃ x, accepted (handle ev σ) = x :: accepted σ ∧ Secret x.1 ≠ "".
Proof.
  intros Hd. destruct ev as [a m n b|a p act|a p|a p|]; [..|done]; cbn [handle].
  all: unfold bootSession, enrollPassport, adoptPassport, promote.
  - destruct (LoadStateEnvelope _) as [|e]; [simpl; auto|]. destruct (verifyPassport _ _ _ _) as [res d] eqn:E.
    apply verifyPassport_spec in E as (_ & _ & Hs & _). destruct res; simpl; auto.
  - destruct (unmarshalEnvelope p) as [e|]; [|simpl; auto]. destruct (verifyPassport _ _ _ _) as [res d] eqn:E.
    apply verifyPassport_spec in E as (_ & _ & Hs & _). destruct res as [|s]; [simpl; auto|]. destruct (a_mkdir a); simpl; [|auto].
    unfold SaveEnvelope. destruct (WriteFile _ _ _) as [f [|]]; simpl; [|auto].
    unfold storePassportSecret. case_bool_decide; simpl; [auto|]. destruct (a_secret a); simpl; [|auto]. right. by exists (s, e).
  - destruct (unmarshalEnvelope p) as [e|]; [|simpl; auto]. destruct (verifyPassport _ _ _ _) as [res d] eqn:E.
    apply verifyPassport_spec in E as (_ & _ & Hs & _). destruct res as [|s]; [simpl; auto|].
    unfold SaveEnvelope. destruct (WriteFile _ _ _) as [f [|]]; simpl; [|auto].
    unfold storePassportSecret. destruct (bool_decide_reflect (Secret s = "")), (a_secret a); destruct (bool_decide (Name s = _)), (MachineID s =? _);
      simpl; auto; right; by exists (s, e).
  - destruct (unmarshalEnvelope p) as [e|]; [|simpl; auto]. destruct (verifyPassport _ _ _ _) as [res d] eqn:E.
    apply verifyPassport_spec in E as (_ & _ & Hs & _). destruct res; simpl; auto.
Qed.

Lemma handle_accepted ev σ : denied ev = false → ∃ new, accepted (handle ev σ) = new ++ accepted σ.
Proof. intros Hd. destruct (handle_spec ev σ _ eq_refl Hd) as [_ [->|(x & -> & _)]]; [by exists []|by exists [x]]. Qed.

Lemma all_accepted l σ : existsb denied l = false → ∃ new, accepted (handleAll l σ) = new ++ accepted σ.
Proof.
  revert σ. induction l as [|ev l IH]; intros σ; [by exists []|]. simpl. intros [Hd Hl]%orb_false_iff.
  destruct (IH (handle ev σ) Hl) as [n1 ->]. destruct (handle_accepted ev σ Hd) as [n2 ->]. exists (n1 ++ n2). by rewrite (assoc_L (++)).
Qed.

(** The Mixer keeps only a hash of a Rack's secret, so a passport it issues again
    carries none: whatever such passports a Rack accepts, it goes on presenting the secret
    that it keeps. *)
Theorem secret_survives_reissue l ses d sec a machine name bootstrap ses' d' s e :
  toString (TrimSpace (toBytes sec)) = sec → f_secret d = Some (toBytes sec) → existsb denied l = false →
  let σ := handleAll l (startNode ses d) in
  (∀ x, x ∈ accepted σ → Secret x.1 = "") → a_readable a = true → Secret s = "" →
  bootSession a machine name bootstrap (n_files σ) = (ses', d', Some (s, e)) → s_secret ses' = sec.
Proof.
  intros Ht Hf Hl. simpl. intros Hx Ha Hse Hb.
  assert (f_secret (n_files (handleAll l (startNode ses d))) = Some (toBytes sec)) as Hk.
  { clear Hb. revert Hf Hl Hx. change d with (n_files (startNode ses d)) at 1. generalize (startNode ses d).
    induction l as [|ev l IH]; intros σ Hf; [done|]. simpl. intros [Hd Hl]%orb_false_iff Hx. apply IH; [|done..].
    destruct (handle_secret ev σ Hd) as [->|(x & E & Hne)]; [done|]. exfalso. apply Hne, Hx.
    destruct (all_accepted l (handle ev σ) Hl) as [n ->]. rewrite E. apply elem_of_app. right. apply list_elem_of_here. }
  unfold bootSession in Hb. rewrite Ha in Hb. destruct (LoadStateEnvelope _) as [|e']; [done|].
  destruct (verifyPassport _ _ _ _) as [res d2] eqn:E. apply verifyPassport_spec in E as (_ & _ & Hs & _).
  destruct res as [|s']; [done|]. simplify_eq. simpl. unfold rackSecret. rewrite Hse. simpl. by rewrite Hs, Hk.
Qed.

(** A passport the handler of notices hands to the promotion verifies there again, as
    long as the pin can be read. *)
Theorem promotion_verifies a a' p ses d ses' p' d' x :
  adoptPassport a p ses d = (ses', SActivate p', d', x) → a_readable a' = true → ∃ s, (promote a' p' d').1.1 = Some s ∧ Status s = "active".
Proof.
  unfold adoptPassport. destruct (unmarshalEnvelope p) as [e|] eqn:Ee; [|done]. destruct (verifyPassport _ _ _ _) as [res d1] eqn:E.
  apply verifyPassport_spec in E as (_ & _ & _ & Ht). destruct res as [|s]; [done|].
  destruct (Ht s eq_refl) as (Hp & Hl & Hu & Hv). simpl in *.
  destruct (SaveEnvelope _ e d1) as [d2 [|]] eqn:Es; [|done]. intros Ha Hr.
  assert (f_pin (storePassportSecret (a_secret a) (Secret s) d2).1 = Some (MixerPublic s)) as Hp2.
  { unfold SaveEnvelope in Es. destruct (WriteFile _ _ _). simplify_eq. unfold storePassportSecret. repeat case_match; done. }
  destruct (negb _ || _); [done|]. destruct (bool_decide (Status s = "active") && _) eqn:Hst; [|done]. simplify_eq.
  apply andb_true_iff in Hst as [Hst%bool_decide_eq_true _]. exists s. split; [|done].
  unfold promote. rewrite Ee, Hr. by rewrite (verify_known (a_pin a') e _ s).
Qed.

(** An enrollment leaves the configuration's identity as it was, and the handler of
    notices compares with that one: the first passport after an enrollment restarts the
    session, also when it is the one the Rack enrolled with. *)
Theorem enrolled_rack_restarts active p ses d ses' d' s e :
  enrollPassport allOk p active ses d = (inr ses', d', Some (s, e)) → c_machine ses ≠ MachineID s →
  (adoptPassport allOk p ses' d').1.1.2 = SReconnect.
Proof.
  unfold enrollPassport, adoptPassport. destruct (unmarshalEnvelope p) as [e0|]; [|done]. simpl.
  destruct (verifyPassport true WOk e0 d) as [res d1] eqn:E. apply verifyPassport_spec in E as (_ & _ & _ & Ht).
  destruct res as [|s0]; [done|]. destruct (Ht s0 eq_refl) as (Hp & Hl & Hu & Hv). simpl in *.
  destruct (storePassportSecret true (Secret s0) _) as [d2 ok] eqn:E2. intros Heq Hc.
  assert (f_pin d2 = Some (MixerPublic s0)) as Hp2 by (unfold storePassportSecret in E2; repeat case_match; by simplify_eq/=).
  destruct ok; simplify_eq/=. rewrite (verify_known WOk e d' s) by done. simpl.
  replace (MachineID s =? c_machine ses) with false by lia. by rewrite orb_true_r.
Qed.

(** A denial drops the identity of the session, and the deadline of the enrollment resumes
    the one it dropped. *)
Theorem denied_identity_resumed a b c bootstrap ses d : c_machine ses ≠ 0 →
  s_mid (handleEnrollmentDenial a b c bootstrap ses d).1 = 0 ∧
  resumedIdentity (handleEnrollmentDenial a b c bootstrap ses d).1 = Some (c_machine ses, c_name ses).
Proof. intros Hc. unfold resumedIdentity. simpl. by replace (c_machine ses =? 0) with false by lia. Qed.
End pki.

(** ** A toy signature scheme and two Mixers *)

Module PassportExample.

(** Documents are their fields, each after its length. *)
Definition pack (fs : list bytes) : bytes := mjoin ((λ f, Z.of_nat (length f) :: f) <$> fs).
Fixpoint unpack (n : nat) (b : bytes) : option (list bytes) :=
  match n, b with
  | O, _ => Some []
  | S n, len :: r => cons (take (Z.to_nat len) r) <$> unpack n (drop (Z.to_nat len) r)
  | S _, [] => None
  end.

Lemma unpack_pack fs n : n = length fs → unpack n (pack fs) = Some fs.
Proof.
  intros ->. unfold pack. induction fs as [|f fs IH]; [done|].
  change (unpack (S (length fs)) (Z.of_nat (length f) :: f ++ mjoin ((λ f, Z.of_nat (length f) :: f) <$> fs)) = Some (f :: fs)).
  cbn [unpack]. by rewrite Nat2Z.id, take_app_length, drop_app_length, IH.
Qed.

(** A private key is its seed twice, a public key the seed, a signature the public key
    and the message. *)
#[local] Instance toyEd : Ed25519 := {|
  NewKeyFromSeed seed := seed ++ seed; PublicOf k := take 32 k; edSign k m := take 32 k ++ m;
  edVerify pub m sig := bool_decide (sig = pub ++ m) |}.
#[local] Instance toyEdLaws : Ed25519Laws.
Proof.
  split; simpl.
  - intros seed Hs. rewrite length_app. lia.
  - intros k Hk. rewrite length_take. lia.
  - intros seed m Hs. by apply bool_decide_eq_true.
Qed.
#[local] Instance toyCodec : StateCodec := {|
  marshalState s := pack [[MixerID s]; [MachineID s]; toBytes (Name s); toBytes (Status s); toBytes (Secret s); MixerPublic s;
    toBytes (Version s); [CreatedAt s]; [UpdatedAt s]; [UpdateCount s]; Scenario s; toBytes (ScenarioVer s)];
  unmarshalState b :=
    match unpack 12 b with
    | Some [[a]; [b]; c; d; e; f; g; [h]; [i]; [j]; k; l] =>
        Some (mkRackState a b (toString c) (toString d) (toString e) f (toString g) h i j k (toString l))
    | _ => None
    end;
  marshalMixer s := pack [[ms_MachineID s]; toBytes (ms_Name s); toBytes (ms_Version s); [ms_CreatedAt s]; [ms_UpdatedAt s]; [ms_UpdateCount s]];
  unmarshalMixer b :=
    match unpack 6 b with Some [[a]; b; c; [d]; [e]; [f]] => Some (mkMixerState a (toString b) (toString c) d e f) | _ => None end;
  marshalEnvelope e := pack [Payload e; Signature e];
  unmarshalEnvelope b := match unpack 2 b with Some [p; s] => Some (mkEnvelope p s) | _ => None end |}.
#[local] Instance toyCodecLaws : StateCodecLaws.
Proof.
  split; intros []; unfold unmarshalState, unmarshalMixer, unmarshalEnvelope, marshalState, marshalMixer, marshalEnvelope, toyCodec;
    rewrite unpack_pack by done; by rewrite ?toString_toBytes.
Qed.

Definition seedA : bytes := repeat 7 32.
Definition seedB : bytes := repeat 9 32.
Definition stateOf (seed : bytes) (status secret : string) : RackState :=
  mkRackState 1 42 "edge" status secret (Public (GenerateClusterKey seed)) "1.0" 0 0 0 [] "".
Definition passportOf (seed : bytes) (status secret : string) : bytes :=
  marshalEnvelope (Sign (GenerateClusterKey seed) (stateOf seed status secret)).
Definition blank : session := mkSession 0 "fluxrig" "" false 0 "".
Definition noFiles : files := mkFiles None None None.

(** A Rack that enrolled with one Mixer refuses the passport of another. *)
Lemma one_mixer_witness :
  accepted (handleAll [EvEnroll allOk (passportOf seedA "pending" "s3cret") false; EvAdopt allOk (passportOf seedB "active" "")] (startNode blank noFiles))
    = [(stateOf seedA "pending" "s3cret", Sign (GenerateClusterKey seedA) (stateOf seedA "pending" "s3cret"))] ∧
  f_pin (n_files (handleAll [EvEnroll allOk (passportOf seedA "pending" "s3cret") false; EvAdopt allOk (passportOf seedB "active" "")] (startNode blank noFiles)))
    = Some (MixerPublic (stateOf seedA "pending" "s3cret")).
Proof.
  split; [vm_compute; reflexivity|].
  apply (one_mixer [EvEnroll allOk (passportOf seedA "pending" "s3cret") false; EvAdopt allOk (passportOf seedB "active" "")] blank noFiles [])
    with (e := Sign (GenerateClusterKey seedA) (stateOf seedA "pending" "s3cret")).
  vm_compute. apply list_elem_of_here.
Defined.

Lemma issued_passport_boots_witness : ∃ ses' d',
  enrollPassport allOk (passportOf seedA "active" "s3cret") true blank noFiles =
    (inr ses', d', Some (stateOf seedA "active" "s3cret", Sign (GenerateClusterKey seedA) (stateOf seedA "active" "s3cret"))) ∧ s_mid ses' = 42.
Proof.
  destruct (issued_passport_boots seedA (stateOf seedA "active" "s3cret") true blank noFiles) as (ses' & d' & H & Hm & _);
    [reflexivity|reflexivity|left; reflexivity|].
  exists ses', d'. split; [exact H|exact Hm].
Defined.

Definition reissues : list event := [EvAdopt allOk (passportOf seedA "active" "")].
Definition enrolled : files := (enrollPassport allOk (passportOf seedA "pending" "s3cret") false blank noFiles).1.2.

Lemma secret_survives_reissue_witness : ∃ ses' d' x,
  bootSession allOk 0 "" "fluxrig" (n_files (handleAll reissues (startNode blank enrolled))) = (ses', d', Some x) ∧ s_secret ses' = "s3cret".
Proof.
  destruct (bootSession allOk 0 "" "fluxrig" (n_files (handleAll reissues (startNode blank enrolled)))) as [[ses' d'] [[s e]|]] eqn:E;
    [|vm_compute in E; discriminate E].
  exists ses', d', (s, e). split; [reflexivity|].
  apply (secret_survives_reissue reissues blank enrolled "s3cret" allOk 0 "" "fluxrig" ses' d' s e);
    [vm_compute; reflexivity..| |reflexivity|vm_compute in E; injection E as <- <- <- <-; reflexivity|exact E].
  intros x Hx. vm_compute in Hx. apply elem_of_cons in Hx as [->|Hx]; [reflexivity|]. apply elem_of_nil in Hx. destruct Hx.
Defined.

(** A first pin cut short refuses the passport of the very Mixer it was for. *)
Example pin_cut_short :
  let a := mkAnswers true (WFail (Some 10%nat)) true WOk true in
  accepted (handleAll [EvEnroll a (passportOf seedA "active" "") true; EvEnroll allOk (passportOf seedA "active" "") true] (startNode blank noFiles)) = [].
Proof. vm_compute. reflexivity. Qed.
End PassportExample.
