(* ===== verification/Events.v ===== *)
(** * pkg/events: connection events

    The subjects and the names of durable consumers (event.go), the publisher of a gear's
    connection events (publisher.go) as a transition system of its callers, its goroutine
    and Close, and the reader (reader.go): what it settles, what it returns and when it
    asks to be opened again.  JSON, the bus and the clock are inputs. *)
From Stdlib Require Import Ascii.
From S2P Require Import Prelude Utf8 Keys Scenario.
Open Scope Z_scope.

Record ConnEvent := mkEvent {
  e_Event : string; e_ConnID : string; e_Gear : string; e_Rack : string; e_PeerIP : string; e_PeerPort : string;
  e_TS : Z; e_Reason : string }.

(** ** event.go *)

Definition ConnSubject (rack gear : string) : string := "flux.evt.conn." +:+ rack +:+ "." +:+ gear.

(** A character outside [[^A-Za-z0-9_-]]. *)
Definition durableChar (c : ascii) : bool :=
  inB 48 57 c || inB 65 90 c || inB 97 122 c || inB 95 95 c || inB 45 45 c.

(** Every rune the expression matches becomes one underscore; [skip] counts the bytes
    left of a rune that was replaced. *)
Fixpoint maskName (skip : nat) (s : string) : string :=
  match s with
  | EmptyString => ""
  | String c r =>
      match skip with
      | S k => maskName k r
      | O => if durableChar c then String c (maskName 0 r) else String "_" (maskName (pred (runeWidth s)) r)
      end
  end.

Definition DurableName (rack reader source : string) : string := maskName 0 (rack +:+ "_" +:+ reader +:+ "_" +:+ source).

(** ** publisher.go *)

Inductive gphase := PIdle | PSending (e : ConnEvent) | PDraining | PLast (e : ConnEvent) | PEnded.

(** [bus]: the events taken from the queue and sent, the oldest first, each with whether
    it encoded and the bus took it.
    [asked], [accepted] and [dropped] record the calls of Publish; [atStop] how many events
    had been accepted when Close was first called. *)
Record publisher := mkPub {
  gear : string; rackName : string; cap : nat; queue : list ConnEvent; stopped : bool; ph : gphase;
  bus : list (ConnEvent * bool); asked : list ConnEvent; accepted : list ConnEvent; dropped : list ConnEvent; atStop : option nat }.

(** [NewPublisher] *)
Definition NewPublisher (gearName rack : string) (queueSize : Z) : publisher :=
  mkPub gearName rack (if queueSize <=? 0 then 1024%nat else Z.to_nat queueSize) [] false PIdle [] [] [] [] None.

(** What Publish fills in. *)
Definition stampEvent (p : publisher) (now : Z) (e : ConnEvent) : ConnEvent :=
  mkEvent (e_Event e) (e_ConnID e) (gear p) (rackName p) (e_PeerIP e) (e_PeerPort e) now (e_Reason e).

Definition Publish (now : Z) (e : ConnEvent) (p : publisher) : publisher :=
  let e := stampEvent p now e in
  if (length (queue p) <? cap p)%nat
  then mkPub (gear p) (rackName p) (cap p) (queue p ++ [e]) (stopped p) (ph p) (bus p) (asked p ++ [e]) (accepted p ++ [e]) (dropped p) (atStop p)
  else mkPub (gear p) (rackName p) (cap p) (queue p) (stopped p) (ph p) (bus p) (asked p ++ [e]) (accepted p) (dropped p ++ [e]) (atStop p).

Definition withPh (g : gphase) (q : list ConnEvent) (b : list (ConnEvent * bool)) (p : publisher) : publisher :=
  mkPub (gear p) (rackName p) (cap p) q (stopped p) g b (asked p) (accepted p) (dropped p) (atStop p).

Inductive paction :=
| PPublish (now : Z) (e : ConnEvent)   (* any caller *)
| PReceive | PSent (encodes ok : bool) | PSeeStop | PEmpty   (* the goroutine *)
| PClose.                              (* Close, which then waits for the end of the goroutine *)

(** [None]: the goroutine is not at it. *)
Definition pstep (a : paction) (p : publisher) : option publisher :=
  match a with
  | PPublish now e => Some (Publish now e p)
  | PReceive =>
      match ph p, queue p with
      | PIdle, e :: q => Some (withPh (PSending e) q (bus p) p)
      | PDraining, e :: q => Some (withPh (PLast e) q (bus p) p)
      | _, _ => None
      end
  | PSent encodes ok =>
      match ph p with
      | PSending e => Some (withPh PIdle (queue p) (bus p ++ [(e, encodes && ok)]) p)
      | PLast e => Some (withPh PDraining (queue p) (bus p ++ [(e, encodes && ok)]) p)
      | _ => None
      end
  | PSeeStop => match ph p with PIdle => if stopped p then Some (withPh PDraining (queue p) (bus p) p) else None | _ => None end
  | PEmpty => match ph p, queue p with PDraining, [] => Some (withPh PEnded [] (bus p) p) | _, _ => None end
  | PClose =>
      Some (if stopped p then p
            else mkPub (gear p) (rackName p) (cap p) (queue p) true (ph p) (bus p) (asked p) (accepted p) (dropped p) (Some (length (accepted p))))
  end.

Fixpoint prun (l : list paction) (p : publisher) : option publisher :=
  match l with [] => Some p | a :: l => match pstep a p with Some p => prun l p | None => None end end.

(** The event the goroutine holds. *)
Definition inHand (g : gphase) : list ConnEvent := match g with PSending e | PLast e => [e] | _ => [] end.

Record pubInv (p : publisher) : Prop := {
  pi_order : accepted p = (bus p).*1 ++ inHand (ph p) ++ queue p;
  pi_cap : (length (queue p) ≤ cap p)%nat;
  pi_sub : sublist (accepted p) (asked p);
  pi_perm : asked p ≡ₚ accepted p ++ dropped p;
  pi_stop : stopped p = bool_decide (is_Some (atStop p));
  pi_stop_at : ∀ n, atStop p = Some n → (n ≤ length (accepted p))%nat;
  pi_draining : match ph p with PDraining | PLast _ | PEnded => stopped p = true | _ => True end;
  pi_ended : ph p = PEnded → ∀ n, atStop p = Some n → (n ≤ length (bus p))%nat }.

Lemma pubInv_new g r n : pubInv (NewPublisher g r n).
Proof. split; simpl; try done; lia. Qed.

Lemma pubInv_publish now e p : pubInv p → pubInv (Publish now e p).
Proof.
  intros [Ho Hc Hs Hp Hst Hsa Hd He]. unfold Publish. destruct (Nat.ltb_spec (length (queue p)) (cap p)); split; simpl; try done.
  - rewrite Ho. by rewrite <- !(assoc_L (++)).
  - rewrite length_app. simpl. lia.
  - by apply sublist_app.
  - rewrite Hp. rewrite <- !(assoc_L (++)). f_equiv. by rewrite Permutation_app_comm.
  - intros n Hn. rewrite length_app. specialize (Hsa n Hn). lia.
  - by apply sublist_inserts_r.
  - by rewrite Hp, (assoc_L (++)).
Qed.

Lemma pstep_inv a p p' : pubInv p → pstep a p = Some p' → pubInv p'.
Proof.
  intros Hi. pose proof Hi as [Ho Hc Hs Hp Hst Hsa Hd He]. destruct a as [now e| |enc ok| | |]; simpl.
  - intros [= <-]. by apply pubInv_publish.
  - destruct (ph p) eqn:Eh; try done; destruct (queue p) as [|e q] eqn:Eq; try done; intros [= <-];
      split; simpl in *; try done; try lia; by rewrite Ho.
  - destruct (ph p) eqn:Eh; try done; intros [= <-]; split; simpl in *; try done; rewrite Ho, fmap_app; by rewrite <- (assoc_L (++)).
  - destruct (ph p) eqn:Eh; try done. destruct (stopped p) eqn:Es; [|done]. intros [= <-].
    split; simpl in *; by rewrite ?Es.
  - destruct (ph p) eqn:Eh; try done. destruct (queue p) eqn:Eq; [|done]. intros [= <-]. split; simpl in *; try done; try lia.
    intros _ n Hn. specialize (Hsa n Hn). rewrite Ho, length_app, length_fmap in Hsa. simpl in Hsa. lia.
  - destruct (stopped p) eqn:Es; intros [= <-]; [done|]. split; simpl in *; try done.
    + by intros n [= <-].
    + by destruct (ph p).
    + intros Hend. by rewrite Hend in Hd.
Qed.

Lemma prun_inv l p p' : pubInv p → prun l p = Some p' → pubInv p'.
Proof.
  revert p. induction l as [|a l IH]; intros p Hi; simpl; [by intros [= <-]|].
  destruct (pstep a p) as [q|] eqn:E; [|done]. apply IH. by eapply pstep_inv.
Qed.

(** C35: Under any interleaving of its callers, its goroutine and Close, the publisher sends
    the events it queued in the order of the calls of Publish, without repeats: what it
    sent, holds and has queued is what it accepted; every event it was asked to publish
    was accepted or dropped; the queue is bounded; and when its goroutine has ended, which
    is what Close waits for, everything accepted before Close was sent, or failed to be. *)
Theorem publisher_accounting g r n l p : prun l (NewPublisher g r n) = Some p →
  accepted p = (bus p).*1 ++ inHand (ph p) ++ queue p ∧
  sublist ((bus p).*1) (asked p) ∧ asked p ≡ₚ accepted p ++ dropped p ∧
  (length (queue p) ≤ cap p)%nat ∧
  (ph p = PEnded → ∃ k, atStop p = Some k ∧ take k (accepted p) `prefix_of` (bus p).*1).
Proof.
  intros Hr. destruct (prun_inv _ _ _ (pubInv_new g r n) Hr) as [Ho Hc Hs Hp Hst Hsa Hd He].
  split_and!; try done.
  - etrans; [|exact Hs]. rewrite Ho. by apply sublist_inserts_r.
  - intros Hend. rewrite Hend in Hd. rewrite Hst in Hd. apply bool_decide_eq_true in Hd as [k Hk]. exists k. split; [done|].
    rewrite Ho, take_app_le by (rewrite length_fmap; eauto). apply prefix_take.
Qed.

(** The goroutine alone, once Close has been called. *)
Definition goroutine (a : paction) : bool := match a with PReceive | PSent _ _ | PSeeStop | PEmpty => true | _ => false end.

Lemma drain_queue q p : ph p = PDraining → queue p = q →
  ∃ l p', forallb goroutine l = true ∧ prun l p = Some p' ∧ ph p' = PEnded ∧ accepted p' = accepted p ∧ (length l ≤ 2 * length q + 1)%nat ∧ queue p' = [].
Proof.
  revert p. induction q as [|e q IH]; intros p Hp Hq.
  - exists [PEmpty], (withPh PEnded [] (bus p) p). simpl. by rewrite Hp, Hq.
  - destruct (IH (withPh PDraining q (bus p ++ [(e, true)]) p)) as (l & p' & Hl & Hr & He & Ha & Hn & Hz); [done..|].
    exists (PReceive :: PSent true true :: l), p'. split_and!; [done| |done..|simpl; lia|done].
    simpl. rewrite Hp, Hq. exact Hr.
Qed.

(** Close ends: once it has been called, the goroutine needs at most two steps for each
    event that is queued and four more, when nothing else is published, to have sent
    everything that was accepted and to return. *)
Theorem close_drains g r n l p : prun l (NewPublisher g r n) = Some p → stopped p = true → ph p ≠ PEnded →
  ∃ l' p', forallb goroutine l' = true ∧ prun l' p = Some p' ∧ ph p' = PEnded ∧ (bus p').*1 = accepted p ∧ (length l' ≤ 2 * length (queue p) + 4)%nat.
Proof.
  intros Hr Hs Hne. pose proof (prun_inv _ _ _ (pubInv_new g r n) Hr) as Hi.
  assert (∀ pre p1, prun pre p = Some p1 → forallb goroutine pre = true → (length pre ≤ 3)%nat → ph p1 = PDraining → accepted p1 = accepted p →
    queue p1 = queue p → ∃ l' p', forallb goroutine l' = true ∧ prun l' p = Some p' ∧ ph p' = PEnded ∧ (bus p').*1 = accepted p ∧ (length l' ≤ 2 * length (queue p) + 4)%nat) as Hfin.
  { intros pre p1 Hpre Hg Hlen Hp1 Ha1 Hq1. destruct (drain_queue (queue p1) p1 Hp1 eq_refl) as (l2 & p2 & Hl2 & Hr2 & He2 & Ha2 & Hn2 & Hz2).
    exists (pre ++ l2), p2.
    assert (prun (pre ++ l2) p = Some p2) as Hrun.
    { revert Hpre. clear -Hr2. revert p. induction pre as [|a pre IH]; intros p; simpl; [by intros [= ->]|]. destruct (pstep a p); [apply IH|done]. }
    split_and!; [by rewrite forallb_app, Hg|done|done| |rewrite length_app, Hq1 in *; lia].
    pose proof (pi_order _ (prun_inv _ _ _ Hi Hrun)) as Ho. rewrite He2, Hz2 in Ho. simpl in Ho. rewrite app_nil_r in Ho. by rewrite <- Ho, Ha2, Ha1. }
  destruct (ph p) as [|e| |e|] eqn:Eh.
  - apply (Hfin [PSeeStop] (withPh PDraining (queue p) (bus p) p)); simpl; try done; [by rewrite Eh, Hs|lia].
  - apply (Hfin [PSent true true; PSeeStop] (withPh PDraining (queue p) (bus p ++ [(e, true)]) p)); simpl; try done; [by rewrite Eh; simpl; rewrite Hs|lia].
  - apply (Hfin [] p); simpl; try done; lia.
  - apply (Hfin [PSent true true] (withPh PDraining (queue p) (bus p ++ [(e, true)]) p)); simpl; try done; [by rewrite Eh|lia].
  - done.
Qed.

(** ** reader.go *)

Definition second : Z := 1000000000.

Record ReaderConfig := mkReader {
  rc_Subject : string; rc_Durable : string; rc_On : list string; MaxEventAge : Z; MaxDeliver : Z; InactiveAfter : Z }.

(** [NewReader] *)
Definition NewReader (c : ReaderConfig) : ReaderConfig :=
  mkReader (rc_Subject c) (rc_Durable c) (rc_On c)
    (if MaxEventAge c <=? 0 then 30 * second else MaxEventAge c)
    (if MaxDeliver c <=? 0 then 5 else MaxDeliver c)
    (if InactiveAfter c <=? 0 then 3600 * second else InactiveAfter c).

(** The consumer Open asks for. *)
Record ConsumerConfig := mkConsumer { cc_Durable : string; cc_Filter : string; cc_AckWait : Z; cc_MaxDeliver : Z; cc_Inactive : Z }.
Definition consumerConfig (c : ReaderConfig) : ConsumerConfig :=
  mkConsumer (rc_Durable c) (rc_Subject c) (MaxEventAge c) (MaxDeliver c) (InactiveAfter c).

(** What the reader does to a message it does not return. *)
Inductive settle := STerm | SAck.

Section reader.
Context (Unmarshal : string → option ConnEvent) (c : ReaderConfig).

(** [accept], at a time. *)
Definition accept (now : Z) (data : string) : settle + ConnEvent :=
  match Unmarshal data with
  | None => inl STerm
  | Some e =>
      if negb (bool_decide (rc_On c = [])) && negb (bool_decide (e_Event e ∈ rc_On c)) then inl SAck
      else if MaxEventAge c <? now - e_TS e then inl SAck else inr e
  end.

(** What wakes Next: a message, the report that the consumer was deleted, the ticker (with
    whether the connection is lost and whether the server says that the consumer or the
    stream is gone), the end of the caller's context. *)
Inductive wake := WMsg (now : Z) (data : string) | WBroken | WTick (now : Z) (lost gone : bool) | WDone.

Inductive nextResult := NDelivery (e : ConnEvent) (data : string) | NNotConnected | NContext.

(** The loop of Next: its result, what it settled, and the wakes it has not seen; [None]:
    it still waits. *)
Fixpoint nextLoop (asked : Z) (settled : list settle) (l : list wake) : option (nextResult * list settle * list wake) :=
  match l with
  | [] => None
  | WMsg now data :: l =>
      match accept now data with
      | inr e => Some (NDelivery e data, settled, l)
      | inl s => nextLoop asked (settled ++ [s]) l
      end
  | WBroken :: l => Some (NNotConnected, settled, l)
  | WTick now lost gone :: l =>
      if lost then Some (NNotConnected, settled, l)
      else if 10 * second <=? now - asked then if gone then Some (NNotConnected, settled, l) else nextLoop now settled l
      else nextLoop asked settled l
  | WDone :: l => Some (NContext, settled, l)
  end.

(** [Next], of a reader that is open or not. *)
Definition Next (open : bool) (now : Z) (l : list wake) : option (nextResult * list settle * list wake) :=
  if open then nextLoop now [] l else Some (NNotConnected, [], l).

(** The connection of a reader that is open; [Open] with the current connection and whether
    it is up, and the answers of the server; [Close]. *)
Inductive openErr := ENotConnected | EConsumer | EConsume.
Definition Open (current : option (nat * bool)) (created consumed : bool) (r : option nat) : (openErr + unit) * option nat :=
  match r with
  | Some _ => (inr (), r)
  | None =>
      match current with
      | Some (n, true) => if negb created then (inl EConsumer, r) else if negb consumed then (inl EConsume, r) else (inr (), Some n)
      | _ => (inl ENotConnected, r)
      end
  end.
Definition Close (r : option nat) : option nat := None.

(** [connectionLost] *)
Definition connectionLost (closed : bool) (current : option nat) (r : option nat) : bool :=
  match r with None => true | Some n => closed || negb (bool_decide (current = Some n)) end.

(** The message of a wake, with what becomes of it. *)
Definition verdict (w : wake) : option settle :=
  match w with WMsg now data => match accept now data with inl s => Some s | inr _ => None end | _ => None end.

(** The wakes Next passes over. *)
Definition passed (w : wake) : Prop :=
  match w with WMsg now data => ∃ s, accept now data = inl s | WTick _ lost _ => lost = false | _ => False end.

Lemma nextLoop_spec asked s l r s' rest : nextLoop asked s l = Some (r, s', rest) →
  ∃ pre w, l = pre ++ w :: rest ∧ Forall passed pre ∧ s' = s ++ omap verdict pre ∧
    match r with
    | NDelivery e data => ∃ now, w = WMsg now data ∧ accept now data = inr e
    | NNotConnected => w = WBroken ∨ ∃ now lost gone, w = WTick now lost gone ∧ (lost = true ∨ gone = true)
    | NContext => w = WDone
    end.
Proof.
  revert asked s. induction l as [|w l IH]; intros asked s; [done|].
  assert (∀ asked' s2, passed w → s2 = s ++ omap verdict [w] → nextLoop asked' s2 l = Some (r, s', rest) →
    ∃ pre w', w :: l = pre ++ w' :: rest ∧ Forall passed pre ∧ s' = s ++ omap verdict pre ∧
    match r with
    | NDelivery e data => ∃ now, w' = WMsg now data ∧ accept now data = inr e
    | NNotConnected => w' = WBroken ∨ ∃ now lost gone, w' = WTick now lost gone ∧ (lost = true ∨ gone = true)
    | NContext => w' = WDone
    end) as Hgo.
  { intros asked' s2 Hp -> Hn. apply IH in Hn as (pre & w' & -> & Hf & -> & Hr). exists (w :: pre), w'.
    split_and!; [done|by constructor| |done]. simpl. destruct (verdict w); by rewrite <- ?(assoc_L (++)), ?app_nil_r. }
  destruct w as [now data| |now lost gone|]; cbn [nextLoop].
  - destruct (accept now data) as [v|e] eqn:E; [|intros [= <- <- <-]; exists [], (WMsg now data); rewrite app_nil_r; eauto 6].
    apply Hgo; [by exists v|by simpl; rewrite E].
  - intros [= <- <- <-]. exists [], WBroken. rewrite app_nil_r. auto.
  - destruct lost; [intros [= <- <- <-]; exists [], (WTick now true gone); rewrite app_nil_r; split_and!; eauto 8|].
    destruct (_ <=? _); [|apply Hgo; [done|by rewrite app_nil_r]].
    destruct gone; [|apply Hgo; [done|by rewrite app_nil_r]].
    intros [= <- <- <-]. exists [], (WTick now false true). rewrite app_nil_r. split_and!; eauto 8.
  - intros [= <- <- <-]. exists [], WDone. rewrite app_nil_r. auto.
Qed.

(** Next returns the first event the reader asked for that is young enough, and has
    settled every message before it exactly once and in order: terminated when it does not
    decode, acknowledged otherwise.  It gives up only when the connection is lost or the
    consumer is gone, or with its context. *)
Theorem next_exact now l r s rest : Next true now l = Some (r, s, rest) →
  ∃ pre w, l = pre ++ w :: rest ∧ s = omap verdict pre ∧
    (∀ t data, WMsg t data ∈ pre → ∃ v, accept t data = inl v ∧ (v = STerm ↔ Unmarshal data = None)) ∧
    match r with
    | NDelivery e data => ∃ t, w = WMsg t data ∧ Unmarshal data = Some e ∧ (rc_On c = [] ∨ e_Event e ∈ rc_On c) ∧ t - e_TS e ≤ MaxEventAge c
    | NNotConnected => w = WBroken ∨ ∃ t lost gone, w = WTick t lost gone ∧ (lost = true ∨ gone = true)
    | NContext => w = WDone
    end.
Proof.
  intros H. apply nextLoop_spec in H as (pre & w & -> & Hf & -> & Hr). exists pre, w. split_and!; [done|done| |].
  - intros t data Hin. rewrite Forall_forall in Hf. destruct (Hf _ Hin) as [v Hv]. exists v. split; [done|].
    unfold accept in Hv. destruct (Unmarshal data); [|naive_solver]. split; [intros ->|done]. repeat case_match; done.
  - destruct r as [e data| |]; [|done..]. destruct Hr as (t & -> & Ha). exists t. split; [done|].
    unfold accept in Ha. destruct (Unmarshal data) as [e'|]; [|done].
    destruct (bool_decide_reflect (rc_On c = [])), (bool_decide_reflect (e_Event e' ∈ rc_On c)); simpl in Ha; try done;
      destruct (Z.ltb_spec (MaxEventAge c) (t - e_TS e')); simplify_eq; split_and!; auto; lia.
Qed.

(** A reader whose consumer is gone notices within ten seconds and one tick: with a
    tick at least every second and no connection lost, Next returns at the latest at the
    first tick ten seconds after it last asked. *)
Theorem deleted_consumer_noticed asked now pre post :
  Forall (λ w, ∃ t gone, w = WTick t false gone ∧ t - asked < 10 * second) pre → 10 * second ≤ now - asked →
  Next true asked (pre ++ WTick now false true :: post) = Some (NNotConnected, [], post).
Proof.
  intros Hp Hn. unfold Next. induction Hp as [|w pre (t & gone & -> & Ht) _ IH]; simpl.
  - by rewrite (proj2 (Z.leb_le _ _)).
  - rewrite (proj2 (Z.leb_gt _ _)) by done. apply IH.
Qed.

(** An event that is delivered again because it was not settled inside the consumer's ack
    wait is too old by then, so it is acknowledged and not returned. *)
Theorem unsettled_event_expires e data t t' : Unmarshal data = Some e → e_TS e < t →
  cc_AckWait (consumerConfig c) ≤ t' - t → accept t' data = inl SAck.
Proof. intros Hu Ht Ha. unfold accept. rewrite Hu. case_match; [done|]. simpl in Ha. by rewrite (proj2 (Z.ltb_lt _ _)) by lia. Qed.
End reader.

(** Two readers of one Rack may get one consumer: the parts of its name are joined by a
    character that names contain. *)
Theorem durable_names_collide : ∃ reader source reader' source',
  (reader, source) ≠ (reader', source') ∧ Forall (λ n, isValidName n = true) [reader; source; reader'; source'] ∧
  DurableName "edge" reader source = DurableName "edge" reader' source' ∧
  ConnSubject "edge" source ≠ ConnSubject "edge" source'.
Proof. exists "a_b", "c", "a", "b_c". split_and!; [done| |done|done]. by repeat constructor. Qed.

(** ** A gear's events *)

Module EventsExample.

Definition conn (ev : string) : ConnEvent := mkEvent ev "0x1" "" "" "10.0.0.1" "700" 0 "".
Definition run : list paction := [PPublish 5 (conn "opened"); PPublish 6 (conn "closed"); PReceive; PSent true true; PClose].

Lemma publisher_accounting_witness : ∃ p, prun run (NewPublisher "iso" "edge" 1) = Some p ∧
  asked p ≡ₚ accepted p ++ dropped p ∧ length (dropped p) = 1%nat.
Proof.
  destruct (prun run (NewPublisher "iso" "edge" 1)) as [p|] eqn:E; [|vm_compute in E; discriminate E].
  exists p. split; [reflexivity|]. destruct (publisher_accounting "iso" "edge" 1 run p E) as (_ & _ & Hp & _).
  split; [exact Hp|]. vm_compute in E. injection E as <-. reflexivity.
Defined.

Lemma close_drains_witness : ∃ p l p', prun run (NewPublisher "iso" "edge" 2) = Some p ∧ prun l p = Some p' ∧ ph p' = PEnded.
Proof.
  destruct (prun run (NewPublisher "iso" "edge" 2)) as [p|] eqn:E; [|vm_compute in E; discriminate E].
  destruct (close_drains "iso" "edge" 2 run p E) as (l & p' & _ & Hr & He & _);
    [vm_compute in E; injection E as <-; reflexivity|vm_compute in E; injection E as <-; discriminate|].
  exists p, l, p'. split; [reflexivity|]. split; [exact Hr|exact He].
Defined.

Definition toyUnmarshal (s : string) : option ConnEvent := if bool_decide (s = "bad") then None else Some (conn s).
Definition reader : ReaderConfig := NewReader (mkReader (ConnSubject "edge" "iso") (DurableName "edge" "logger" "iso") ["opened"] 0 0 0).

Lemma next_exact_witness : ∃ s rest, Next toyUnmarshal reader true 0 [WMsg 1 "bad"; WMsg 2 "closed"; WMsg 3 "opened"; WBroken] = Some (NDelivery (conn "opened") "opened", s, rest) ∧
  s = [STerm; SAck] ∧ ∃ pre w, [WMsg 1 "bad"; WMsg 2 "closed"; WMsg 3 "opened"; WBroken] = pre ++ w :: rest ∧ s = omap (verdict toyUnmarshal reader) pre.
Proof.
  eexists _, _. split; [vm_compute; reflexivity|]. split; [reflexivity|].
  destruct (next_exact toyUnmarshal reader 0 [WMsg 1 "bad"; WMsg 2 "closed"; WMsg 3 "opened"; WBroken] (NDelivery (conn "opened") "opened") [STerm; SAck] [WBroken])
    as (pre & w & H1 & H2 & _); [vm_compute; reflexivity|].
  exists pre, w. split; [exact H1|exact H2].
Defined.
End EventsExample.
