(* ===== verification/Retention.v ===== *)
(** * Flushed files, the janitor and the streams: how long data is kept

    [FlushTelemetry] and [FlushArchiverBuffer] of store/duckdb/store.go, which move rows of
    the database into parquet files; the janitor of telemetry/janitor.go, which deletes
    old files; and the streams router/router.go configures.  The database is a list of
    rows with a source, a transaction its state before and after; a file is its rows and
    its modification time under its source and the time of the flush, which make its name.
    The answers of the database and the file system are inputs. *)
From Stdlib Require Import Ascii.
From S2P Require Import Prelude Tree Artifacts ArtifactsLoad ArtifactsLatest.
Open Scope Z_scope.

(** ** Rows and files *)

(** A telemetry table by its directory, or the archive of a wire. *)
Abbreviation source := (string + string)%type.

Record pfile := mkFile { f_rows : list Z; f_mod : Z }.

Record store := mkStore { rows : list (source * Z); files : gmap (source * Z) pfile }.

Definition rowsOf (s : source) (l : list (source * Z)) : list Z := (filter (λ r, r.1 = s) l).*2.
Definition without (s : source) (l : list (source * Z)) : list (source * Z) := filter (λ r, r.1 ≠ s) l.

(** The name of the file of a flush. *)
Definition fileName (k : source * Z) : string :=
  match k.1 with inl dir => dir +:+ "_" +:+ pretty k.2 +:+ ".parquet" | inr wid => "messages_" +:+ wid +:+ "_" +:+ pretty k.2 +:+ ".parquet" end.

(** *** FlushTelemetry *)

(** How the statements for one table end, and the modification time of its file. *)
Record tableAnswer := mkTable { ta_count : bool; ta_export : bool; ta_delete : bool; ta_mod : Z }.

(** The loop, in the order of the range: the rows as the transaction sees them, the files,
    and whether it came to the end. *)
Fixpoint flushTables (ts : Z) (l : list (string * tableAnswer)) (db : list (source * Z)) (fs : gmap (source * Z) pfile)
    : list (source * Z) * gmap (source * Z) pfile * bool :=
  match l with
  | [] => (db, fs, true)
  | (dir, a) :: l =>
      let rs := rowsOf (inl dir) db in
      if negb (ta_count a) || bool_decide (rs = []) then flushTables ts l db fs
      else if negb (ta_export a) then (db, fs, false)
      else
        let fs := <[(inl dir, ts) := mkFile rs (ta_mod a)]> fs in
        if negb (ta_delete a) then (db, fs, false) else flushTables ts l (without (inl dir) db) fs
  end.

Definition FlushTelemetry (ts : Z) (begin commit : bool) (l : list (string * tableAnswer)) (σ : store) : store * bool :=
  if negb begin then (σ, false) else
  let '(db, fs, ok) := flushTables ts l (rows σ) (files σ) in
  if ok && commit then (mkStore db fs, true) else (mkStore (rows σ) fs, false).

(** *** FlushArchiverBuffer *)

Definition isWire (s : source) : Prop := match s with inr _ => True | inl _ => False end.
#[export] Instance isWire_dec s : Decision (isWire s).
Proof. destruct s; apply _. Defined.

(** The wires with archived messages, in the order of the query. *)
Definition wiresOf (db : list (source * Z)) : list string :=
  remove_dups (omap (λ r, match r.1 with inr w => Some w | inl _ => None end) db).

(** The exports; the modification time and the answer of each. *)
Fixpoint exportWires (ts : Z) (answer : string → bool * Z) (ws : list string) (db : list (source * Z)) (fs : gmap (source * Z) pfile)
    : gmap (source * Z) pfile * bool :=
  match ws with
  | [] => (fs, true)
  | w :: ws =>
      if (answer w).1 then exportWires ts answer ws db (<[(inr w, ts) := mkFile (rowsOf (inr w) db) (answer w).2]> fs)
      else (fs, false)
  end.

(** [scans w]: the row of the query that names [w] could be read. *)
Definition FlushArchiverBuffer (ts : Z) (begin query rowsErr delete commit : bool) (scans : string → bool) (answer : string → bool * Z)
    (σ : store) : store * bool :=
  if negb begin || negb query || negb rowsErr then (σ, false) else
  let '(fs, ok) := exportWires ts answer (filter (λ w, scans w = true) (wiresOf (rows σ))) (rows σ) (files σ) in
  if ok && delete && commit then (mkStore (filter (λ r, ¬ isWire r.1) (rows σ)) fs, true) else (mkStore (rows σ) fs, false).

(** ** janitor.go *)

(** [strings.TrimSuffix] of a suffix that is there. *)
Fixpoint cutSuffix (s suffix : string) : option string :=
  if bool_decide (s = suffix) then Some ""
  else match s with EmptyString => None | String c r => String c <$> cutSuffix r suffix end.

(** What follows the last underscore, if there is one. *)
Fixpoint lastPart (s : string) : option string :=
  match s with
  | EmptyString => None
  | String c r => match lastPart r with Some t => Some t | None => if Ascii.eqb c "_"%char then Some r else None end
  end.

(** [strconv.ParseInt(s, 10, 64)] *)
Definition ParseInt (s : string) : option Z := match scanInt s with Some (z, "") => Some z | _ => None end.

(** The start of 2001. *)
Definition minPlausibleTimestamp : Z := 978307200 * 1000000000.

(** The time that counts for a file without its suffix. *)
Definition fileTime (base : string) (modTime : Z) : Z :=
  match lastPart base ≫= ParseInt with
  | Some nanos => if nanos <? minPlausibleTimestamp then modTime else nanos
  | None => modTime
  end.

(** An entry of the walk, and whether [clean] tries to remove it. *)
Definition expired (cutoff : Z) (readable isDir : bool) (name : string) (modTime : Z) : bool :=
  if negb readable || isDir then false
  else match cutSuffix name ".parquet" with None => false | Some base => fileTime base modTime <? cutoff end.

(** [NewJanitor]: the days and the interval in nanoseconds. *)
Definition NewJanitor (days interval : Z) : Z * Z :=
  (if days <=? 0 then 30 else days, if interval <=? 0 then 3600 * 1000000000 else interval).

(** [clean] on the files; [cutoff] is the retention before now. *)
Definition clean (cutoff : Z) (readable removable : source * Z → bool) (σ : store) : store :=
  mkStore (rows σ) (filter (λ kf, expired cutoff (readable kf.1) false (fileName kf.1) (f_mod kf.2) && removable kf.1 = false) (files σ)).

(** ** Names are read back *)

Lemma cutSuffix_app s suffix : cutSuffix (s +:+ suffix) suffix = Some s.
Proof.
  induction s as [|c s IH].
  - change ("" +:+ suffix) with suffix. destruct suffix; cbn [cutSuffix]; by rewrite bool_decide_eq_true_2.
  - change (String c s +:+ suffix) with (String c (s +:+ suffix)). cbn [cutSuffix]. rewrite bool_decide_eq_false_2, IH; [done|].
    intros E. apply (f_equal String.length) in E. cbn [String.length] in E. rewrite length_append in E. lia.
Qed.

Lemma lastPart_app s t : lastPart t = None → lastPart (s +:+ "_" +:+ t) = Some t.
Proof. intros Ht. induction s as [|c s IH].
  - change ("" +:+ "_" +:+ t) with (String "_"%char t). cbn [lastPart]. by rewrite Ht.
  - change (String c s +:+ "_" +:+ t) with (String c (s +:+ "_" +:+ t)). cbn [lastPart]. by rewrite IH.
Qed.

Lemma digits_no_underscore x s : lastPart s = None → lastPart (pretty_N_go x s) = None.
Proof.
  revert s. induction (N.lt_wf_0 x) as [x _ IH]; intros s Hs.
  destruct (decide (x = 0)%N) as [->|Hx]; [by rewrite pretty_N_go_0|].
  rewrite (pretty_N_go_step x) by lia. apply IH; [apply N.div_lt; lia|]. simpl. rewrite Hs.
  unfold pretty_N_char. by repeat case_match.
Qed.

Lemma pretty_no_underscore z : 0 ≤ z → lastPart (pretty z) = None.
Proof.
  intros Hz. destruct z as [|p|p]; [done| |lia]. change (pretty (Z.pos p)) with (pretty (N.pos p)).
  unfold pretty, pretty_N. rewrite decide_False by done. by apply digits_no_underscore.
Qed.

Lemma ParseInt_pretty z : 0 ≤ z < 2 ^ 63 → ParseInt (pretty z) = Some z.
Proof.
  intros Hz. unfold ParseInt. pose proof (scanInt_pretty z "" Hz eq_refl) as E.
  replace (pretty z +:+ "") with (pretty z) in E; [by rewrite E|]. generalize (pretty z). intros s.
  induction s as [|c s IH]; [done|]. change (String c s +:+ "") with (String c (s +:+ "")). by rewrite <- IH.
Qed.

(** A time a flush may have: after 2000 and within 63 bits. *)
Definition plausible (t : Z) : Prop := minPlausibleTimestamp ≤ t < 2 ^ 63.

(** A file of a flush expires by the time of the flush, whatever touched it since. *)
Lemma flushed_expired cutoff k m : plausible k.2 → expired cutoff true false (fileName k) m = (k.2 <? cutoff).
Proof.
  intros [Hlo Hhi]. assert (0 ≤ k.2) by (unfold minPlausibleTimestamp in Hlo; lia).
  assert (∃ pre, fileName k = (pre +:+ "_" +:+ pretty k.2) +:+ ".parquet") as [pre ->].
  { destruct k as [[d|w] t]; unfold fileName; cbn [fst snd]; [exists d|exists ("messages_" +:+ w)]; by rewrite !append_assoc. }
  unfold expired. simpl. rewrite cutSuffix_app. unfold fileTime. rewrite lastPart_app by (by apply pretty_no_underscore).
  simpl. rewrite ParseInt_pretty by lia. by rewrite (proj2 (Z.ltb_ge k.2 _) Hlo).
Qed.

(** ** Rows are kept until their flush is older than the retention *)

(** A row that is in the database or in a file of its source. *)
Definition held (db : list (source * Z)) (fs : gmap (source * Z) pfile) (x : source * Z) : Prop :=
  x ∈ db ∨ ∃ ts f, fs !! (x.1, ts) = Some f ∧ x.2 ∈ f_rows f.

Lemma elem_rowsOf s r db : (s, r) ∈ db → r ∈ rowsOf s db.
Proof. intros H. apply list_elem_of_fmap. exists (s, r). split; [done|]. by apply list_elem_of_filter. Qed.

(** Nothing of a flush at [ts] is there yet. *)
Definition fresh (ts : Z) (fs : gmap (source * Z) pfile) : Prop := ∀ s, fs !! (s, ts) = None.

(** The loop drops no row that is not in a file, and no file that was there; a source
    whose rows are still all in the database may be written. *)
Lemma flushTables_held ts l db fs db' fs' ok : NoDup l.*1 → (∀ d, d ∈ l.*1 → fs !! (inl d, ts) = None) →
  flushTables ts l db fs = (db', fs', ok) →
  (∀ x, x ∈ db → held db' fs' x) ∧ (∀ k f, fs !! k = Some f → fs' !! k = Some f).
Proof.
  revert db fs. induction l as [|[dir a] l IH]; intros db fs Hnd Hfr; simpl.
  { intros [= <- <- <-]. split; [by left|done]. }
  inversion Hnd as [|? ? Hni Hnd']; subst.
  assert (∀ d, d ∈ l.*1 → fs !! (inl d, ts) = None) as Hfr' by (intros d ?; apply Hfr; by right).
  assert (fs !! (inl dir, ts) = None) as Hn by (apply Hfr; left).
  destruct (negb (ta_count a) || _); [by apply IH|]. destruct (negb (ta_export a)).
  { intros [= <- <- <-]. split; [by left|done]. }
  set (fs1 := <[_ := _]> fs). assert (∀ k f, fs !! k = Some f → fs1 !! k = Some f) as Hk.
  { intros k f Hf. unfold fs1. rewrite lookup_insert_ne; [done|]. intros <-. congruence. }
  destruct (negb (ta_delete a)); [intros [= <- <- <-]; split; [by left|done]|].
  intros Hl. destruct (IH (without (inl dir) db) fs1 Hnd') as [H1 H2]; [|done|].
  { intros d Hd. unfold fs1. rewrite lookup_insert_ne; [by apply Hfr'|]. intros [= <-]. by apply Hni. }
  split; [|intros k f Hf; by apply H2, Hk].
  intros [s r] Hx. destruct (decide (s = inl dir)) as [->|Hs].
  - right. exists ts, (mkFile (rowsOf (inl dir) db) (ta_mod a)). split; [apply H2; apply lookup_insert_eq|]. by apply elem_rowsOf.
  - apply H1. by apply list_elem_of_filter.
Qed.

Lemma exportWires_held ts answer ws db fs fs' ok : (∀ w, w ∈ ws → fs !! (inr w, ts) = None) → NoDup ws →
  exportWires ts answer ws db fs = (fs', ok) →
  (∀ k f, fs !! k = Some f → fs' !! k = Some f) ∧
  (ok = true → ∀ w, w ∈ ws → ∃ f, fs' !! (inr w, ts) = Some f ∧ f_rows f = rowsOf (inr w) db).
Proof.
  revert fs. induction ws as [|w ws IH]; intros fs Hfr Hnd; simpl; [intros [= <- <-]; split; [done|]; intros _ w Hw; by apply elem_of_nil in Hw|].
  inversion Hnd as [|? ? Hni Hnd']; subst. destruct (answer w).1; [|intros [= <- <-]; by split]. intros He.
  destruct (IH (<[(inr w, ts) := mkFile (rowsOf (inr w) db) (answer w).2]> fs)) as [H1 H2]; [|done|done|].
  { intros v Hv. rewrite lookup_insert_ne; [apply Hfr; by right|]. intros [= <-]. by apply Hni. }
  split.
  - intros k f Hf. apply H1. rewrite lookup_insert_ne; [done|]. intros <-. rewrite Hfr in Hf; [done|left].
  - intros Hok v [->|Hv]%elem_of_cons; [|by apply H2]. eexists. split; [apply H1; apply lookup_insert_eq|done].
Qed.

Lemma elem_wiresOf w r db : (inr w, r) ∈ db → w ∈ wiresOf db.
Proof. intros H. apply elem_of_remove_dups, list_elem_of_omap. by exists (inr w, r). Qed.

(** *** The life of the store *)

Inductive event :=
| EvInsert (x : source * Z)
| EvTelemetry (ts : Z) (begin commit : bool) (l : list (string * tableAnswer))
| EvArchive (ts : Z) (begin query rowsErr delete commit : bool) (scans : string → bool) (answer : string → bool * Z)
| EvClean (cutoff : Z) (readable removable : source * Z → bool).

Definition happen (ev : event) (σ : store) : store :=
  match ev with
  | EvInsert x => mkStore (rows σ ++ [x]) (files σ)
  | EvTelemetry ts b c l => (FlushTelemetry ts b c l σ).1
  | EvArchive ts b q e d c s a => (FlushArchiverBuffer ts b q e d c s a σ).1
  | EvClean cutoff rd rm => clean cutoff rd rm σ
  end.

(** What the events are assumed to be: flushes at plausible times that no file has yet,
    over the tables once each.  [bound] bounds the cutoffs of the janitor. *)
Definition legal (bound : Z) (ev : event) (σ : store) : Prop :=
  match ev with
  | EvInsert _ => True
  | EvTelemetry ts _ _ l => plausible ts ∧ fresh ts (files σ) ∧ NoDup l.*1
  | EvArchive ts _ _ _ _ _ _ _ => plausible ts ∧ fresh ts (files σ)
  | EvClean cutoff _ _ => cutoff ≤ bound
  end.

Fixpoint happenAll (l : list event) (σ : store) : store := match l with [] => σ | ev :: l => happenAll l (happen ev σ) end.
Fixpoint legalAll (bound : Z) (l : list event) (σ : store) : Prop :=
  match l with [] => True | ev :: l => legal bound ev σ ∧ legalAll bound l (happen ev σ) end.

(** An archive deletes a row that it did not export: it commits, and the row of its query
    that names the wire of [x] could not be read. *)
Definition unread (ev : event) (σ : store) (x : source * Z) : Prop :=
  match ev with
  | EvArchive ts b q e d c s a => (FlushArchiverBuffer ts b q e d c s a σ).2 = true ∧ x ∈ rows σ ∧ ∃ w, x.1 = inr w ∧ s w = false
  | _ => False
  end.
Fixpoint everUnread (l : list event) (σ : store) (x : source * Z) : Prop :=
  match l with [] => False | ev :: l => unread ev σ x ∨ everUnread l (happen ev σ) x end.

(** The files an event removes, and a run. *)
Definition removed (ev : event) (σ : store) : list (source * Z * pfile) := map_to_list (files σ ∖ files (happen ev σ)).
Fixpoint allRemoved (l : list event) (σ : store) : list (source * Z * pfile) :=
  match l with [] => [] | ev :: l => removed ev σ ++ allRemoved l (happen ev σ) end.

Lemma flush_grows ts b c l σ : fresh ts (files σ) → NoDup l.*1 →
  (∀ x, x ∈ rows σ → held (rows (FlushTelemetry ts b c l σ).1) (files (FlushTelemetry ts b c l σ).1) x) ∧
  (∀ k f, files σ !! k = Some f → files (FlushTelemetry ts b c l σ).1 !! k = Some f).
Proof.
  intros Hf Hn. unfold FlushTelemetry. destruct b; [|split; [by left|done]]. simpl.
  destruct (flushTables ts l (rows σ) (files σ)) as [[db fs] ok] eqn:E.
  destruct (flushTables_held ts l _ _ _ _ _ Hn (λ d _, Hf (inl d)) E) as [H1 H2].
  destruct (ok && c); simpl; [by split|]. split; [by left|done].
Qed.

Lemma archive_grows ts b q e d c s a σ : fresh ts (files σ) →
  (∀ x, x ∈ rows σ → ¬ unread (EvArchive ts b q e d c s a) σ x →
     held (rows (FlushArchiverBuffer ts b q e d c s a σ).1) (files (FlushArchiverBuffer ts b q e d c s a σ).1) x) ∧
  (∀ k f, files σ !! k = Some f → files (FlushArchiverBuffer ts b q e d c s a σ).1 !! k = Some f).
Proof.
  intros Hf. unfold unread, FlushArchiverBuffer. destruct (negb b || negb q || negb e); [split; [by left|done]|].
  destruct (exportWires _ _ _ _ _) as [fs ok] eqn:E.
  destruct (exportWires_held ts a _ _ _ _ _ (λ w _, Hf (inr w)) (NoDup_filter _ _ (NoDup_remove_dups _)) E) as [H1 H2].
  destruct (ok && d && c) eqn:Ec; simpl; [|split; [by left|done]]. split; [|done].
  apply andb_true_iff in Ec as [[Hok _]%andb_true_iff _]. intros [[n|w] r] Hx Hu.
  - left. apply list_elem_of_filter. split; [by intros []|done].
  - right. destruct (s w) eqn:Es; [|destruct Hu; eauto].
    destruct (H2 Hok w) as (f & Hfs & Hr); [apply list_elem_of_filter; split; [done|by eapply elem_wiresOf]|].
    exists ts, f. split; [done|]. rewrite Hr. by apply elem_rowsOf.
Qed.

(** Every file is one of a flush at a plausible time. *)
Definition datedFiles (σ : store) : Prop := ∀ k f, files σ !! k = Some f → plausible k.2.

Lemma flushTables_keys ts l db fs k f : (flushTables ts l db fs).1.2 !! k = Some f → fs !! k = Some f ∨ k.2 = ts.
Proof.
  revert db fs. induction l as [|[dir a] l IH]; intros db fs; simpl; [by left|].
  repeat case_match; simpl; try (by left); try (apply IH); intros Hk.
  - destruct (decide (k = (inl dir, ts))) as [->|]; [by right|]. rewrite lookup_insert_ne in Hk by done. by left.
  - apply IH in Hk as [Hk|]; [|by right]. destruct (decide (k = (inl dir, ts))) as [->|]; [by right|]. rewrite lookup_insert_ne in Hk by done. by left.
Qed.

Lemma exportWires_keys ts answer ws db fs k f : (exportWires ts answer ws db fs).1 !! k = Some f → fs !! k = Some f ∨ k.2 = ts.
Proof.
  revert fs. induction ws as [|w ws IH]; intros fs; simpl; [by left|]. destruct (answer w).1; [|by left]. intros Hk.
  apply IH in Hk as [Hk|]; [|by right]. destruct (decide (k = (inr w, ts))) as [->|]; [by right|]. rewrite lookup_insert_ne in Hk by done. by left.
Qed.

Lemma dated_happen bound ev σ : legal bound ev σ → datedFiles σ → datedFiles (happen ev σ).
Proof.
  intros Hl Hd. destruct ev as [x|ts b c l|ts b q e d c sc a|cutoff rd rm]; simpl; [done|..].
  - destruct Hl as (Hp & _). intros k f. unfold FlushTelemetry. destruct b; [|by apply Hd]. simpl.
    pose proof (flushTables_keys ts l (rows σ) (files σ) k f) as Hk. destruct (flushTables _ _ _ _) as [[db fs] ok].
    simpl in Hk. intros Hf. assert (fs !! k = Some f) as Hf' by (by destruct (ok && c)). destruct (Hk Hf') as [?| ->]; [by eapply Hd|done].
  - destruct Hl as (Hp & _). intros k f. unfold FlushArchiverBuffer. destruct (negb b || negb q || negb e); [by apply Hd|].
    pose proof (exportWires_keys ts a (filter (λ w, sc w = true) (wiresOf (rows σ))) (rows σ) (files σ) k f) as Hk.
    destruct (exportWires _ _ _ _ _) as [fs ok]. simpl in Hk. intros Hf.
    assert (fs !! k = Some f) as Hf' by (by destruct (ok && d && c)). destruct (Hk Hf') as [?| ->]; [by eapply Hd|done].
  - intros k f [Hf _]%map_lookup_filter_Some. by eapply Hd.
Qed.

(** A cleaning removes exactly the files of flushes before its cutoff that it can. *)
Lemma clean_lookup cutoff rd rm σ k f : datedFiles σ →
  files (clean cutoff rd rm σ) !! k = Some f ↔ files σ !! k = Some f ∧ ¬ (rd k = true ∧ rm k = true ∧ k.2 < cutoff).
Proof.
  intros Hd. unfold clean. simpl. rewrite map_lookup_filter_Some. simpl.
  assert (files σ !! k = Some f → expired cutoff (rd k) false (fileName k) (f_mod f) = rd k && (k.2 <? cutoff)) as He.
  { intros Hf. destruct (rd k); [|done]. apply flushed_expired. by eapply Hd. }
  split; intros [Hf Hx]; (split; [done|]).
  - rewrite (He Hf) in Hx. intros (Hr & Hm & Hlt). rewrite Hr, Hm in Hx. by rewrite (proj2 (Z.ltb_lt _ _)) in Hx.
  - rewrite (He Hf). destruct (rd k), (rm k), (Z.ltb_spec k.2 cutoff); simpl; try done. exfalso. by apply Hx.
Qed.

#[export] Instance unread_dec ev σ x : Decision (unread ev σ x).
Proof.
  destruct ev as [| |ts b q e d c s a|]; simpl; try apply _. apply and_dec; [apply _|]. apply and_dec; [apply _|].
  destruct x.1 as [|w]; [right; by intros (? & ? & _)|]. destruct (s w) eqn:E; [right; intros (? & [= <-] & ?); congruence|left; eauto].
Defined.

Lemma held_happen bound ev σ x : legal bound ev σ → datedFiles σ → held (rows σ) (files σ) x →
  unread ev σ x ∨ held (rows (happen ev σ)) (files (happen ev σ)) x ∨
  ∃ k f, (k, f) ∈ removed ev σ ∧ k.1 = x.1 ∧ x.2 ∈ f_rows f ∧ k.2 < bound.
Proof.
  intros Hl Hd Hh. destruct (decide (unread ev σ x)) as [Hu|Hu]; [by left|right].
  assert ((∀ x, x ∈ rows σ → ¬ unread ev σ x → held (rows (happen ev σ)) (files (happen ev σ)) x) → (∀ k f, files σ !! k = Some f → files (happen ev σ) !! k = Some f) →
    held (rows (happen ev σ)) (files (happen ev σ)) x) as Hgrow.
  { intros H1 H2. destruct Hh as [Hr|(ts & f & Hf & Hx)]; [by apply H1|]. right. exists ts, f. split; [by apply H2|done]. }
  destruct ev as [y|ts b c l|ts b q e d c sc a|cutoff rd rm].
  - left. apply Hgrow; [|done]. intros z Hz _. left. simpl. apply elem_of_app. by left.
  - left. destruct Hl as (_ & Hf & Hn). destruct (flush_grows ts b c l σ Hf Hn) as [H1 H2]. apply Hgrow; [by intros; apply H1|done].
  - left. destruct Hl as (_ & Hf). destruct (archive_grows ts b q e d c sc a σ Hf) as [H1 H2]. by apply Hgrow.
  - destruct Hh as [Hr|(ts & f & Hf & Hx)]; [left; by left|].
    destruct (files (happen (EvClean cutoff rd rm) σ) !! (x.1, ts)) as [f'|] eqn:E.
    + left. right. exists ts, f. split; [|done]. assert (f' = f) as ->; [|done].
      simpl in E. apply clean_lookup in E as [E _]; [congruence|done].
    + right. exists (x.1, ts), f. split_and!; [|done|done|].
      * apply elem_of_map_to_list. by apply lookup_difference_Some.
      * simpl. simpl in Hl. assert (¬ ¬ (ts < cutoff)) as Hnn; [|lia]. intros Hge.
        assert (files (clean cutoff rd rm σ) !! (x.1, ts) = Some f) as E2; [|change (files (clean cutoff rd rm σ) !! (x.1, ts) = None) in E; congruence].
        apply clean_lookup; [done|]. split; [done|]. by intros (_ & _ & ?).
Qed.

Lemma retained_from bound l σ x : datedFiles σ → legalAll bound l σ → held (rows σ) (files σ) x ∨ EvInsert x ∈ l →
  everUnread l σ x ∨ held (rows (happenAll l σ)) (files (happenAll l σ)) x ∨
  ∃ k f, (k, f) ∈ allRemoved l σ ∧ k.1 = x.1 ∧ x.2 ∈ f_rows f ∧ k.2 < bound.
Proof.
  revert σ. induction l as [|ev l IH]; intros σ Hd; simpl.
  { intros _ [Hh|Hn%elem_of_nil]; [by right; left|done]. }
  intros [Hl Hls] Hx. pose proof (dated_happen bound ev σ Hl Hd) as Hd'.
  assert (unread ev σ x ∨ (held (rows (happen ev σ)) (files (happen ev σ)) x ∨ EvInsert x ∈ l) ∨
    ∃ k f, (k, f) ∈ removed ev σ ∧ k.1 = x.1 ∧ x.2 ∈ f_rows f ∧ k.2 < bound) as [Hu|[Hy|(k & f & Hk & Hr)]].
  { destruct Hx as [Hh|[<-|Hin]%elem_of_cons]; [..|by right; left; right].
    - destruct (held_happen bound ev σ x Hl Hd Hh) as [?|[?|?]]; [by left|by right; left; left|by right; right].
    - right. left. left. left. simpl. apply elem_of_app. right. apply list_elem_of_here. }
  - by left; left.
  - destruct (IH _ Hd' Hls Hy) as [?|[?|(k & f & Hk & Hr)]]; [by left; right|by right; left|]. right. right. exists k, f.
    split; [apply elem_of_app; by right|done].
  - right. right. exists k, f. split; [apply elem_of_app; by left|done].
Qed.

(** C40: However inserts, flushes and cleanings alternate, and whatever the database and the
    file system answer to them, a row that was inserted is in the database or in a file of
    its source, or it was in such a file that the janitor removed, which was flushed before
    the janitor's cutoff, or an archive deleted it that came to its commit although the id
    of the row's wire could not be read in its query.  Assumed of the flushes: their times
    are after 2000 and within 63 bits, no file has the time of a flush when it starts, and
    a telemetry flush visits each table once. *)
Theorem rows_retained bound l x : legalAll bound l (mkStore [] ∅) → EvInsert x ∈ l →
  held (rows (happenAll l (mkStore [] ∅))) (files (happenAll l (mkStore [] ∅))) x ∨
  (∃ k f, (k, f) ∈ allRemoved l (mkStore [] ∅) ∧ k.1 = x.1 ∧ x.2 ∈ f_rows f ∧ k.2 < bound) ∨
  everUnread l (mkStore [] ∅) x.
Proof.
  intros Hl Hx. destruct (retained_from bound l (mkStore [] ∅) x) as [?|[?|?]]; auto.
  intros k f Hf. simpl in Hf. by rewrite lookup_empty in Hf.
Qed.

(** ** router.go: the streams *)

(** The subjects and the maximum age of each stream that is configured; an age that does
    not parse, or is not positive, has a default. *)
Definition ageOr (d : Z) (age : option Z) : Z := match age with Some a => if a <=? 0 then d else a | None => d end.

Definition mergeSubjects (a b : list string) : list string := foldl (λ acc s, if bool_decide (s ∈ acc) then acc else acc ++ [s]) a b.

Definition streamPlan (business : string) (bs : list string) (bAge : option Z) (telemetry : string) (ts : list string) (tAge : option Z)
    : gmap string (list string * Z) :=
  let hour := 3600 * 1000000000 in
  let bMax := ageOr (720 * hour) bAge in
  let tMax := ageOr (24 * hour) tAge in
  let plan := if bool_decide (business = "") then ∅ else {[business := (bs, bMax)]} in
  if bool_decide (telemetry = "") then plan else
  match plan !! telemetry with
  | Some (subjects, age) => <[telemetry := (mergeSubjects subjects ts, if tMax <? bMax then bMax else age)]> plan
  | None => <[telemetry := (ts, tMax)]> plan
  end.

Lemma mergeSubjects_elem a b s : s ∈ mergeSubjects a b ↔ s ∈ a ∨ s ∈ b.
Proof.
  unfold mergeSubjects. revert a. induction b as [|t b IH]; intros a; simpl; [rewrite elem_of_nil; tauto|].
  rewrite IH. case_bool_decide; set_solver.
Qed.

(** One stream for both keeps the business age, also when the telemetry is to be kept
    longer: the assignment for the longer age assigns what is there. *)
Theorem merged_stream_age name bs bAge ts tAge : name ≠ "" →
  ∃ subjects, streamPlan name bs bAge name ts tAge = {[name := (subjects, ageOr (720 * (3600 * 1000000000)) bAge)]} ∧
    ∀ s, s ∈ subjects ↔ s ∈ bs ∨ s ∈ ts.
Proof.
  intros Hn. exists (mergeSubjects bs ts). split; [|apply mergeSubjects_elem].
  unfold streamPlan. rewrite !bool_decide_eq_false_2 by done. rewrite lookup_singleton_eq, insert_singleton_eq. by case_match.
Qed.

(** ** Concrete stores *)

Module RetentionExample.

Definition now : Z := 1767735924810000000.
Definition ok : tableAnswer := mkTable true true true 0.
Definition life : list event :=
  [EvInsert (inl "logs", 1); EvInsert (inl "spans", 2);
   EvTelemetry now true true [("spans", ok); ("logs", ok)]; EvClean (now + 1) (λ k, bool_decide (k.1 = inl "logs")) (λ _, true)].

Lemma rows_retained_witness :
  held (rows (happenAll life (mkStore [] ∅))) (files (happenAll life (mkStore [] ∅))) (inl "logs", 1) ∨
  (∃ k f, (k, f) ∈ allRemoved life (mkStore [] ∅) ∧ k.1 = inl "logs" ∧ 1 ∈ f_rows f ∧ k.2 < now + 1) ∨
  everUnread life (mkStore [] ∅) (inl "logs", 1).
Proof.
  apply (rows_retained (now + 1) life (inl "logs", 1)); [|left].
  split; [exact I|]. split; [exact I|]. split; [|split; [|exact I]].
  - split; [split; [vm_compute; discriminate|vm_compute; reflexivity]|]. split; [intros s; apply lookup_empty|].
    apply (bool_decide_unpack _). vm_compute. exact I.
  - vm_compute. discriminate.
Defined.

(** A failure after an export leaves the rows in a file and in the table: the next flush
    writes them again. *)
Example failed_flush_repeats :
  let σ := happenAll [EvInsert (inl "logs", 1); EvTelemetry now true true [("logs", ok); ("spans", ok)];
    EvInsert (inl "logs", 2); EvInsert (inl "spans", 3); EvTelemetry (now + 1) true true [("logs", ok); ("spans", mkTable true false true 0)];
    EvTelemetry (now + 2) true true [("logs", ok); ("spans", ok)]] (mkStore [] ∅) in
  (f_rows <$> files σ !! (inl "logs", now + 1)) = Some [2] ∧ (f_rows <$> files σ !! (inl "logs", now + 2)) = Some [2].
Proof. vm_compute. split; reflexivity. Qed.

(** A wire whose id cannot be read is not exported, and its messages are deleted. *)
Example unread_wire_is_lost :
  let σ := happenAll [EvInsert (inr "w", 1); EvArchive now true true true true true (λ _, false) (λ _, (true, 0))] (mkStore [] ∅) in
  rows σ = [] ∧ files σ = ∅.
Proof. vm_compute. split; reflexivity. Qed.

(** The archive of business messages expires with the telemetry. *)
Example messages_expire_too : expired (now + 1) true false (fileName (inr "w", now)) 0 = true.
Proof. vm_compute. reflexivity. Qed.

(** The example of the comment, a time in milliseconds, is not taken for a time. *)
Example milliseconds_ignored : fileTime "metrics_1767735924810" 5 = 5.
Proof. vm_compute. reflexivity. Qed.
End RetentionExample.
